(* ===== verification/_CoqProject ===== *)
-Q . S2P
Prelude.v
Opcodes.v
ILDecode.v
BitVector.v
Regions.v
RegionTree.v
RegionWalk.v
Leave.v
NodeTable.v
FlowGraph.v
Phase1.v
Phase2.v
GlobalVerify.v
Worklist.v
DomInfo.v
TailCall.v
CorDisTools.v
EEMemory.v
MethodSet.v
IRBuilder.v
GenIRTypes.v
Conv.v
Arith.v
Compare.v
StackTypes.v
StackSlot.v
Dispatch.v
StackEffect.v
ReaderLoop.v
Operators.v
StackMerge.v
PhiTypes.v
Signature.v
ABI.v
ABISignature.v
TypeLayout.v
SIMDTypes.v
IRLogic.v
Memory.v
MemoryRules.v
ArrayAccess.v
MDArray.v
Objects.v
StructCopy.v
Elements.v
Generics.v
Fields.v
FieldRules.v
CallTarget.v
CallRules.v
Allocation.v
SIMD.v
SIMDRules.v
RdrCall.v
RdrCallRules.v
GcInfo.v
GcInfoRules.v
GcUtil.v
GcUtilRules.v
JitOptions.v
EHPads.v
EHPadsRules.v
ObjectLoad.v
ObjectLoadRules.v
JitDriver.v
JitDriverRules.v
FinallyClone.v
FinallyCloneRules.v
FinallyBodyRules.v
