(* ===== verification/Prelude.v ===== *)
(** * LLILC: a verification library for the MSIL reader and its JIT

    LLILC compiles the MSIL of one .NET method to machine code through LLVM.
    The runtime calls the JIT (lib/Jit) with the method's bytes; the reader
    (lib/Reader) decodes them, cuts them into basic blocks, builds the tree of
    exception regions, walks the reachable blocks and emits LLVM IR for each of
    them; LLVM compiles the IR and asks the JIT's memory manager for the
    sections, whose unwind information is reported back to the runtime.  A
    separate library (lib/CoreDisTools) compares and prints compiled code.
    This library models these parts as executable functions and proves what
    makes each of them correct.

    ** Conventions

    The model is a shallow embedding.  A C++ integer is a [Z], with the
    wrap-around of its width written out by [u8] .. [u64] and [s8] .. [s64]
    of this file.  A pointer to an object of the procedure memory is an index
    into the arena that holds the objects; a null pointer is [None].  State
    that the code mutates is passed and returned.  An access outside an array,
    a null dereference and a failed assertion of a checked build are [None],
    so a theorem that ends in [Some] also shows that none of them happens.
    [verGlobalError] and [verIsCallToken] are stubs in
    lib/Reader/GenIRStubs.cpp: a report does not stop the reader, and the
    model goes on as the code does.
    LLVM, the .NET runtime behind ICorJitInfo, opcode.def (which gives operand
    sizes and stack counts and is not in the repository) and the C library are
    outside: they are parameters of the definitions that use them, and a
    theorem names what it assumes of them as a hypothesis.

    ** Files

    - [Prelude]: machine integers, byte buffers, little-endian loads, the
      fuelled [while] loop and its rules, tactics and hints.
    - [Opcodes]: the enumerations of include/Reader/readerenum.h and the byte
      tables of include/Reader/bytecodetowvmcode.def.
    - [ILDecode] (reader.cpp): [readValue], [parseILOpcode],
      [getMSILInstrLength] and [printMSIL].  A specification gives the
      instruction at an offset and a well-formed body as the list of its
      instructions; the parser implements it, and the two ways in which it
      departs from it (a byte past the end of the prefixed table, a switch
      whose 32-bit length wraps) are stated exactly.
    - [TailCall] (reader.cpp): the two scans for a return behind a call.
    - [BitVector] (reader.cpp): the packed bit vector is a set, and custom
      sequence points are stored in it within bounds.
    - [Regions], [RegionTree], [RegionWalk] (reader.cpp, readerir.cpp): the
      clause sort, [rgnCreateRegionTree] with all its helpers and its assertion
      on the order of the clauses, the searches and walks over the tree.  [RegionTree] defines a well-formed tree and
      what it means to represent the clauses; construction establishes both,
      and the walks use them.
    - [Leave] (readerir.cpp): [updateLeaveOffset] and [leave].  An abstract
      machine executes the selector stores and finally dispatches that the
      functions build; it runs exactly the finallies of the tries that contain
      the leave and not its target, innermost first, and arrives at the target.
      The switch of a finally is the list of its cases, with case 0, which
      [fgMakeEndFinally] adds for exceptions.
    - [NodeTable] (reader.cpp): the label table refines a finite map.
    - [FlowGraph], [Phase1], [Phase2] (reader.cpp, readerir.cpp): block
      construction.  [FlowGraph] has the definitions, [Phase1] the theorems on
      [fgBuildPhase1] and [Phase2] those on [fgReplaceBranchTargets] and on
      both passes together, against the branch formats of the ECMA standard.
    - [GlobalVerify] (reader.cpp): stack watermarks of the blocks.
    - [Worklist] (reader.cpp, readerir.cpp): the edge iterators, the worklist
      and the main loops of [msilToIR], with the ways out of an import-only
      compilation and the call of [readerPostVisit].
    - [DomInfo] (reader.cpp): the per-block caches of class initialisers and
      static bases, consulted along immediate dominators.
    - [Dispatch] (reader.cpp): [readBytesForFlowGraphNode], the loop that reads
      a block and calls the generator, one handler per opcode.  The generator
      is the class [Client], the method's metadata the class [Method].  The end
      of the block is asked for in every round, as a function of the calls made
      so far, since the generator's splits bring it forward.
    - [StackEffect], [ReaderLoop], [Operators]: theorems on that loop.
      [StackEffect] types the operand stack by the tables of the ECMA standard,
      [ReaderLoop] is about prefixes, tokens and termination, [Operators] about
      which generator call an operator opcode makes.
    - [IRBuilder]: the calls of LLVM's IRBuilder that the arithmetic handlers
      make, recorded, and an interpreter of the recorded code.  An access that
      promises an alignment that its address does not have is undefined, unless
      the target is known to do it ([misaligned_ok]).
    - [GenIRTypes], [Conv], [Arith], [Compare], [StackSlot] (readerir.cpp): types
      of stack slots, conversions, arithmetic, comparisons with branches and
      checks, loads and stores of locals.
    - [StackTypes]: LLVM's typing rules for recorded code, independent of the
      types that the handlers write on their calls, and the theorem that the
      code of the arithmetic handlers is well typed.
    - [StackMerge], [PhiTypes] (readerir.cpp): operand stacks that cross block
      boundaries as PHIs, and the merging of their types.
    - [Signature] (reader.cpp, reader.h): the runtime signature of the method
      and of a call, and how a call takes its arguments from the stack.
    - [ABI] (abi.cpp): classification of arguments for Windows and System V.
    - [ABISignature] (abisignature.cpp, readerir.cpp): the slots of functions
      and calls, and where the prologue finds the arguments.
    - [TypeLayout], [SIMDTypes] (readerir.cpp, GcInfo.cpp): .NET classes as LLVM
      structures, their GC pointers, and the vector classes.
    - [IRLogic]: a program logic over [IRBuilder]; [wp] relates a handler to
      what the code does that it emits.
    - [Memory], [MemoryRules], [ArrayAccess], [MDArray], [Objects],
      [StructCopy], [Elements] (readerir.cpp, reader.cpp): loads, stores and
      addresses; vectors, strings and arrays of more dimensions; indirect
      accesses, structures and write barriers.
    - [Generics], [Fields], [FieldRules] (reader.cpp, readerir.cpp): handles of
      shared generic code, and static and instance fields.
    - [CallTarget], [CallRules], [Allocation], [RdrCall], [RdrCallRules]
      (reader.cpp, readerir.cpp): the target of a call, allocation, boxing and
      casts, and [rdrCall] with its intrinsics and delegates.
    - [SIMD], [SIMDRules] (reader.cpp, readerir.cpp): the vector intrinsics.
    - [EHPads], [EHPadsRules] (readerir.cpp): the pads that are made when a try
      is entered, the exceptional end of a finally, and [makeCall].
    - [FinallyClone], [FinallyCloneRules], [FinallyBodyRules] (readerir.cpp):
      [cloneFinallyBodies], on blocks as lists of instructions with operands.
    - [GcInfo], [GcInfoRules] (lib/GcInfo): the records of GC allocations and
      the emitter, as a log of the calls of the runtime's encoder.
    - [GcUtil], [GcUtilRules] (lib/GcInfo/GcInfoUtil): the quicksort, queue,
      chunked list and hash table that the encoder is compiled against.
    - [CorDisTools] (lib/CoreDisTools): disassembly, block dumps, near-diff.
    - [EEMemory] (lib/Jit/EEMemoryManager.cpp): section layout and unwind
      information, the latter against the format of UNWIND_INFO structures.
    - [MethodSet] (lib/Jit/utility.cpp): pattern parser, membership, and the
      interleavings of the lock-free initialisation, as a step relation.
    - [JitOptions] (lib/Jit/jitoptions.cpp): the options of a compilation, with
      the sets of methods as state of the process.
    - [JitDriver], [JitDriverRules] (lib/Jit/LLILCJit.cpp): [compileMethod],
      with the requests that the runtime makes in between as a tree.
    - [ObjectLoad], [ObjectLoadRules] (lib/Jit/LLILCJit.cpp): offset mappings,
      locals and relocations of a loaded object.

    ** How the parts fit

    [msilToIR] of reader.cpp is the spine.  It allocates the label table
    ([NodeTable]), builds the region tree ([Regions]) and the graph
    ([FlowGraph], which decodes with [ILDecode], asks [RegionWalk] for the
    region of each offset and routes leaves through [Leave]), then runs the
    traversal of [Worklist].  Translating a block is a parameter of that
    traversal: it may add blocks, and the theorem holds for every translation
    whose new blocks are finitely many and are reached from the block that is
    read only.  So is [readerPostVisit], which [FinallyClone] models.  [Dispatch] is that translation up
    to the generator: it decodes with [ILDecode], asks [TailCall] whether a
    call is followed by a return, and calls the methods of its client.  The
    files from [Conv] to [RdrCallRules] model the client's methods as emitters
    of recorded IR ([IRBuilder]), whose meaning [IRLogic] gives; [StackMerge] is
    the client's method at the end of a block.  Before all this the prologue is
    set up: [Signature] gives the types of the arguments, [ABI] classifies them,
    [ABISignature] lays the function out; a call goes the same way, and the
    theorems of these three files meet in the statement that what a caller
    pushes is what the callee finds.

    Exceptions take three parts.  [RegionWalk] says which tries the graph builder
    enters; [EHPads] makes the pads for each of them, and gives every call the
    pad it unwinds to; [FinallyClone] copies the finallies when everything is
    read, so that the code [Leave] routes through a finally is not the code of
    its pad.  [JitDriver] is the frame around the reader: it makes the options
    ([JitOptions], [MethodSet]), reads, compiles, and lets [GcInfo] tell the
    collector; while the code is loaded, [EEMemory] gives it memory and
    [ObjectLoad] reports what the object says.

    ** What the theorems show

    Decoding: totality and the exact relation between bytes and instructions.
    Regions: every clause table obeying the nesting rules gives a tree in which
    the searches terminate and find the innermost region; any other table
    gives a tree or fails the assertion, just when two clauses are out of order.  Flow graph: on a
    well-formed body without exception clauses the blocks partition the code,
    every block ends with the terminator of its last instruction, and every
    branch reaches the block that starts at its target.  Leaves: the
    finallies run in order.  Traversal: exactly the reachable blocks are
    translated, each once, in MSIL order.  Blocks: reading a block ends, stops
    where the decoder says, keeps a prefix exactly until the next instruction,
    and moves the operand stack as the standard's tables say.  Operators: the
    recorded code computes the standard's result or throws, on every input,
    at the widths of the operands, and is well typed by LLVM's rules.  Joins: after a block each successor finds
    its stack, with one PHI operand per edge, and the operands have the PHI's
    type.  Signatures: caller and callee agree on types, indices and slots; no
    structure is split between registers and memory.  Memory: elements are in
    bounds, fields at the runtime's offsets, references behind a write barrier,
    structures copied once from end to end.  Calls: the function that the
    runtime's description names is entered with the operands from the stack,
    or the code throws for a null object; an intrinsic that is not expanded
    leaves the stack alone; vector operations work lane by lane.  Exceptions:
    what no handler takes goes through the pads of just the protecting tries,
    inside out up to the first fault, and never into a handler; a call names
    the handler it is in.
    Finallies: each is cloned once, inner ones first, and behind it the pad
    dominates its uses while leaves run a faithful copy.  Caches: a positive
    answer means that the fact was recorded in a dominator.  Collector: at every
    safepoint just the slots with GC pointers are described.  JIT services: what
    is reserved is what is registered, sections do not overlap, methods are
    selected as the configuration says, contexts nest with requests, the offset
    mapping answers as the line table, a COFF relocation makes the runtime store
    the number that the format asks for.
    Errors: where a function leaves an array, throws or answers wrongly, the
    theorem says on which inputs.

    ** Fuel

    A loop of the code is a [while] with fuel and returns an option of an
    option or an outcome; running out is never a result.  Each theorem
    about a loop supplies a bound and proves that it is enough: the number
    of bytes for loops over MSIL (an instruction has at least one byte), the
    number of regions for walks over the tree, the number of nodes for the
    traversal, for dominator walks and for the blocks of a finally, the number
    of characters for the pattern parser, and the logarithm of the length for
    the recursion of the quicksort.

    ** Not modelled

    The passes of the reader around the translation: [readerPrePass] and
    [readerPostPass], [createSym], the IR for the security object, the generic
    context and the frame of an unmanaged call, and debug types.  They call
    LLVM in a fixed order and decide little.  [getClassType] and [getBoxedType]
    around the class layout, and the names of types and of values.  The IR of
    expanding and collapsing structures for the ABI.  The exception handler
    around [readBytesForFlowGraphNode].  The linking layer of the JIT, which is
    LLVM's without one call, and the initialisation of LLVM.  The object writer,
    which drives LLVM's assembler; the verifier, whose bodies are stubs; the
    declarations of the platform.  The functional theorems of [Phase1] and
    [Phase2] exclude exception clauses; the definitions of [FlowGraph] do not,
    and its point blocks are the pads of [EHPads].  In [EHPads]
    an exception stops at the end of a fault handler, as the code ends it in an
    unreachable instruction. *)

(** ** This file: machine integers, byte buffers, loops and tactics *)

From Stdlib Require Export ZArith Lia.
From stdpp Require Export prelude gmap strings sorting.

#[export] Set Default Goal Selector "!".

Declare Scope llilc_scope.
Delimit Scope llilc_scope with llilc.
Open Scope Z_scope.

(** ** Machine integers: a w-bit value is a [Z]; every operation that can
    leave the range wraps explicitly. *)

Definition wrap (w x : Z) : Z := x mod 2 ^ w.

Definition u8 (x : Z) : Z := wrap 8 x.
Definition u16 (x : Z) : Z := wrap 16 x.
Definition u32 (x : Z) : Z := wrap 32 x.
Definition u64 (x : Z) : Z := wrap 64 x.

(** Two's complement reading of the low [w] bits. *)
Definition swrap (w x : Z) : Z :=
  let r := x mod 2 ^ w in if r <? 2 ^ (w - 1) then r else r - 2 ^ w.

Definition s8 (x : Z) : Z := swrap 8 x.
Definition s16 (x : Z) : Z := swrap 16 x.
Definition s32 (x : Z) : Z := swrap 32 x.
Definition s64 (x : Z) : Z := swrap 64 x.

Lemma wrap_range (w x : Z) : 0 <= w -> 0 <= wrap w x < 2 ^ w.
Proof. intros H. unfold wrap. apply Z.mod_pos_bound. lia. Qed.

Lemma wrap_small (w x : Z) : 0 <= x < 2 ^ w -> wrap w x = x.
Proof. apply Z.mod_small. Qed.

Lemma wrap_idemp (w x : Z) : wrap w (wrap w x) = wrap w x.
Proof.
  unfold wrap. destruct (decide (2 ^ w = 0)) as [->|H].
  - by rewrite !Z.mod_0_r.
  - by rewrite Z.mod_mod.
Qed.

Lemma u8_range (x : Z) : 0 <= u8 x < 256.
Proof. exact (wrap_range 8 x ltac:(lia)). Qed.
Lemma u16_range (x : Z) : 0 <= u16 x < 65536.
Proof. exact (wrap_range 16 x ltac:(lia)). Qed.
Lemma u32_range (x : Z) : 0 <= u32 x < 2 ^ 32.
Proof. exact (wrap_range 32 x ltac:(lia)). Qed.
Lemma u64_range (x : Z) : 0 <= u64 x < 2 ^ 64.
Proof. exact (wrap_range 64 x ltac:(lia)). Qed.
Lemma u8_small (x : Z) : 0 <= x < 256 -> u8 x = x.
Proof. apply (wrap_small 8). Qed.
Lemma u16_small (x : Z) : 0 <= x < 65536 -> u16 x = x.
Proof. apply (wrap_small 16). Qed.
Lemma u32_small (x : Z) : 0 <= x < 2 ^ 32 -> u32 x = x.
Proof. apply (wrap_small 32). Qed.
Lemma u64_small (x : Z) : 0 <= x < 2 ^ 64 -> u64 x = x.
Proof. apply (wrap_small 64). Qed.

Lemma swrap_small (w x : Z) : 0 < w -> - 2 ^ (w - 1) <= x < 2 ^ (w - 1) -> swrap w x = x.
Proof.
  intros Hw Hx. unfold swrap.
  assert (H2 : 2 ^ w = 2 * 2 ^ (w - 1)) by (rewrite <- Z.pow_succ_r by lia; f_equal; lia).
  destruct (Z.lt_ge_cases x 0) as [Hn|Hp].
  - assert (Hm : x mod 2 ^ w = x + 2 ^ w) by (symmetry; apply (Z.mod_unique x _ (-1)); lia).
    rewrite Hm. destruct (Z.ltb_spec (x + 2 ^ w) (2 ^ (w - 1))); lia.
  - rewrite Z.mod_small by lia. destruct (Z.ltb_spec x (2 ^ (w - 1))); lia.
Qed.

Lemma s32_small (x : Z) : - 2 ^ 31 <= x < 2 ^ 31 -> s32 x = x.
Proof. intros H. apply (swrap_small 32); lia. Qed.

Create HintDb machine.
#[export] Hint Resolve u8_range u16_range u32_range u64_range : machine.

(** Reduces every in-range wrap of the goal to the identity. *)
Ltac unwrap := repeat match goal with
  | |- context [u32 ?x] => rewrite (u32_small x) by lia
  | |- context [u8 ?x] => rewrite (u8_small x) by lia
  | |- context [u16 ?x] => rewrite (u16_small x) by lia
  | |- context [u64 ?x] => rewrite (u64_small x) by lia
  end.

(** ** Byte buffers *)

(** The byte at [off], as the code would read it; [None] is a read outside
    the buffer. *)
Definition byte_at (buf : list Z) (off : Z) : option Z :=
  if off <? 0 then None else buf !! Z.to_nat off.

(** Little-endian value of a byte list. *)
Fixpoint le_val (bs : list Z) : Z :=
  match bs with
  | [] => 0
  | b :: r => b + 256 * le_val r
  end.

(** [n] consecutive bytes from [off]. *)
Fixpoint read_bytes (buf : list Z) (off : Z) (n : nat) : option (list Z) :=
  match n with
  | O => Some []
  | S n' =>
      match byte_at buf off, read_bytes buf (off + 1) n' with
      | Some b, Some r => Some (b :: r)
      | _, _ => None
      end
  end.

Definition is_byte (b : Z) : Prop := 0 <= b < 256.

#[export] Instance is_byte_dec (b : Z) : Decision (is_byte b).
Proof. unfold is_byte. apply _. Defined.

Lemma byte_at_Some_range (buf : list Z) (off b : Z) :
  byte_at buf off = Some b -> 0 <= off < Z.of_nat (length buf).
Proof.
  unfold byte_at. destruct (Z.ltb_spec off 0); [done|].
  intros H1%lookup_lt_Some. lia.
Qed.

Lemma byte_at_in_range (buf : list Z) (off : Z) :
  0 <= off < Z.of_nat (length buf) -> is_Some (byte_at buf off).
Proof.
  intros H. unfold byte_at. destruct (Z.ltb_spec off 0); [lia|].
  apply lookup_lt_is_Some. lia.
Qed.

Lemma byte_at_is_byte (buf : list Z) (off b : Z) :
  Forall is_byte buf -> byte_at buf off = Some b -> is_byte b.
Proof.
  unfold byte_at. destruct (off <? 0); [done|].
  intros H1 H2. by eapply Forall_lookup_1.
Qed.

Lemma read_bytes_in_range (buf : list Z) (n : nat) (off : Z) :
  0 <= off -> off + Z.of_nat n <= Z.of_nat (length buf) ->
  is_Some (read_bytes buf off n).
Proof.
  revert off. induction n as [|n IH]; intros off H1 H2; simpl; [eauto|].
  destruct (byte_at_in_range buf off ltac:(lia)) as [b ->].
  destruct (IH (off + 1) ltac:(lia) ltac:(lia)) as [r ->]. eauto.
Qed.

Lemma le_val_range (bs : list Z) :
  Forall is_byte bs -> 0 <= le_val bs < 256 ^ Z.of_nat (length bs).
Proof.
  induction 1 as [|b bs Hb Hbs IH]; simpl; [lia|].
  rewrite Nat2Z.inj_succ, Z.pow_succ_r by lia. unfold is_byte in Hb. nia.
Qed.

Lemma read_bytes_props (buf : list Z) (n : nat) (off : Z) (bs : list Z) :
  Forall is_byte buf -> read_bytes buf off n = Some bs ->
  Forall is_byte bs /\ length bs = n.
Proof.
  intros Hb. revert off bs. induction n as [|n IH]; simpl; intros off bs H.
  - injection H as <-. by split; [constructor|].
  - destruct (byte_at buf off) eqn:E; [|done].
    destruct (read_bytes buf (off + 1) n) eqn:E2; [|done]. simplify_eq.
    destruct (IH _ _ E2) as [? ?]. simpl. split; [constructor; [|done]|lia].
    by eapply (byte_at_is_byte buf off).
Qed.

(** ** Loops

    [while_fuel n body s] runs [body] until it stops; [None] is fuel
    exhaustion, which the termination theorems exclude. *)
Fixpoint while_fuel {S R : Type} (n : nat) (body : S -> S + R) (s : S) : option R :=
  match n with
  | O => None
  | S n' =>
      match body s with
      | inl s' => while_fuel n' body s'
      | inr r => Some r
      end
  end.

(** A measure that every continuing step decreases bounds the fuel. *)
Lemma while_fuel_total {S R : Type} (body : S -> S + R) (I : S -> Prop)
    (m : S -> nat) :
  (forall s s', I s -> body s = inl s' -> I s' /\ (m s' < m s)%nat) ->
  forall n s, I s -> (m s < n)%nat -> is_Some (while_fuel n body s).
Proof.
  intros Hstep n. induction n as [|n IH]; intros s HI Hm; [lia|]. simpl.
  destruct (body s) as [s'|r] eqn:E; [|eauto].
  destruct (Hstep s s' HI E). apply IH; [done|lia].
Qed.

Lemma while_fuel_mono {S R : Type} (body : S -> S + R) (n m : nat) (s : S) (r : R) :
  while_fuel n body s = Some r -> (n <= m)%nat -> while_fuel m body s = Some r.
Proof.
  revert m s. induction n as [|n IH]; intros m s H Hle; [done|].
  destruct m as [|m]; [lia|]. simpl in *.
  destruct (body s); [|done]. apply IH; [done|lia].
Qed.

(** Whatever holds of every stopping step under an invariant holds of the
    loop's result. *)
Lemma while_fuel_inv {S R : Type} (body : S -> S + R) (I : S -> Prop) (Q : R -> Prop) :
  (forall s s', I s -> body s = inl s' -> I s') ->
  (forall s r, I s -> body s = inr r -> Q r) ->
  forall n s r, I s -> while_fuel n body s = Some r -> Q r.
Proof.
  intros Hs Hr n. induction n as [|n IH]; intros s r HI H; [done|]. simpl in H.
  destruct (body s) as [s'|r'] eqn:E; [eauto|]. simplify_eq. eauto.
Qed.

(** ** Lists *)

Lemma filter_none {A} (P : A -> Prop) `{forall x, Decision (P x)} (l : list A) :
  (forall x, x ∈ l -> ~ P x) -> filter P l = [].
Proof.
  induction l as [|a l IH]; intros Hn; [done|].
  rewrite filter_cons_False by (apply Hn; constructor).
  apply IH. intros x Hx. apply Hn. by constructor.
Qed.

(** ** Tactics *)

(** Splits on every [match]/[if] of the goal, then of the hypotheses. *)
Ltac case_goal :=
  repeat match goal with
  | |- context [match ?x with _ => _ end] => destruct x eqn:?; simplify_eq/=
  end.
Ltac case_hyp H :=
  repeat match type of H with
  | context [match ?x with _ => _ end] => destruct x eqn:?; simplify_eq/=
  end.

(** Turns boolean comparisons in the context into arithmetic facts. *)
Ltac zbool :=
  repeat match goal with
  | H : _ && _ = true |- _ => apply andb_true_iff in H as [? ?]
  | H : _ && _ = false |- _ => apply andb_false_iff in H
  | H : _ || _ = true |- _ => apply orb_true_iff in H
  | H : _ || _ = false |- _ => apply orb_false_iff in H as [? ?]
  | H : negb _ = true |- _ => apply negb_true_iff in H
  | H : negb _ = false |- _ => apply negb_false_iff in H
  | H : (_ <? _) = true |- _ => apply Z.ltb_lt in H
  | H : (_ <? _) = false |- _ => apply Z.ltb_ge in H
  | H : (_ <=? _) = true |- _ => apply Z.leb_le in H
  | H : (_ <=? _) = false |- _ => apply Z.leb_gt in H
  | H : (_ =? _) = true |- _ => apply Z.eqb_eq in H
  | H : (_ =? _) = false |- _ => apply Z.eqb_neq in H
  | H : (_ >=? _) = _ |- _ => rewrite Z.geb_leb in H
  | H : (_ >? _) = _ |- _ => rewrite Z.gtb_ltb in H
  end.

(** Proves a decidable proposition by evaluating its decision. *)
Ltac decide_now :=
  match goal with |- ?P =>
    refine (bool_decide_eq_true_1 P _); vm_compute; reflexivity end.
Ltac refute_now :=
  match goal with
  | |- ~ ?P => refine (bool_decide_eq_false_1 P _); vm_compute; reflexivity
  | |- ?P -> False => refine (bool_decide_eq_false_1 P _); vm_compute; reflexivity
  end.
