(* ===== verification/Opcodes.v ===== *)
(** * MSIL opcodes and the reader's opcode tables

    The opcode enumeration in the order of [OpcodeRemap]
    (include/Reader/readerenum.h), the function-specific opcode enumerations
    of the same file, and the byte decoding tables of
    include/Reader/bytecodetowvmcode.def.  Operand sizes and stack counts come
    from opcode.def, which is not in the repository: the components that need
    them take them as parameters. *)

From S2P Require Import Prelude.

Module ReaderBaseNS.

Inductive UnaryOpcode : Set :=
  | Neg | Not | LastUnaryOpcode.

Definition UnaryOpcode_Z (o : UnaryOpcode) : Z :=
  match o with
  | Neg => 0 | Not => 1 | LastUnaryOpcode => 2
  end.

Definition UnaryOpcode_all : list UnaryOpcode :=
  [Neg; Not; LastUnaryOpcode].

#[export] Instance UnaryOpcode_eq_dec : EqDecision UnaryOpcode.
Proof. solve_decision. Defined.

Inductive BinaryOpcode : Set :=
  | Add | AddOvf | AddOvfUn | And | Div | DivUn | Mul | MulOvf | MulOvfUn
  | Or | Rem | RemUn | Sub | SubOvf | SubOvfUn | Xor | LastBinaryOpcode.

Definition BinaryOpcode_Z (o : BinaryOpcode) : Z :=
  match o with
  | Add => 0 | AddOvf => 1 | AddOvfUn => 2 | And => 3 | Div => 4
  | DivUn => 5 | Mul => 6 | MulOvf => 7 | MulOvfUn => 8 | Or => 9
  | Rem => 10 | RemUn => 11 | Sub => 12 | SubOvf => 13 | SubOvfUn => 14
  | Xor => 15 | LastBinaryOpcode => 16
  end.

Definition BinaryOpcode_all : list BinaryOpcode :=
  [Add; AddOvf; AddOvfUn; And; Div; DivUn; Mul; MulOvf; MulOvfUn; Or; Rem;
   RemUn; Sub; SubOvf; SubOvfUn; Xor; LastBinaryOpcode].

#[export] Instance BinaryOpcode_eq_dec : EqDecision BinaryOpcode.
Proof. solve_decision. Defined.

Inductive BoolBranchOpcode : Set :=
  | BrFalse | BrFalseS | BrTrue | BrTrueS | LastBoolBranchOpcode.

Definition BoolBranchOpcode_Z (o : BoolBranchOpcode) : Z :=
  match o with
  | BrFalse => 0 | BrFalseS => 1 | BrTrue => 2 | BrTrueS => 3
  | LastBoolBranchOpcode => 4
  end.

Definition BoolBranchOpcode_all : list BoolBranchOpcode :=
  [BrFalse; BrFalseS; BrTrue; BrTrueS; LastBoolBranchOpcode].

#[export] Instance BoolBranchOpcode_eq_dec : EqDecision BoolBranchOpcode.
Proof. solve_decision. Defined.

Inductive CallOpcode : Set :=
  | Jmp | Call | CallVirt | Calli | Tail | NewObj | LastCallOpcode.

Definition CallOpcode_Z (o : CallOpcode) : Z :=
  match o with
  | Jmp => 0 | Call => 1 | CallVirt => 2 | Calli => 3 | Tail => 4
  | NewObj => 5 | LastCallOpcode => 6
  end.

Definition CallOpcode_all : list CallOpcode :=
  [Jmp; Call; CallVirt; Calli; Tail; NewObj; LastCallOpcode].

#[export] Instance CallOpcode_eq_dec : EqDecision CallOpcode.
Proof. solve_decision. Defined.

Inductive CmpOpcode : Set :=
  | Ceq | Cgt | CgtUn | Clt | CltUn | LastCmpOpcode.

Definition CmpOpcode_Z (o : CmpOpcode) : Z :=
  match o with
  | Ceq => 0 | Cgt => 1 | CgtUn => 2 | Clt => 3 | CltUn => 4
  | LastCmpOpcode => 5
  end.

Definition CmpOpcode_all : list CmpOpcode :=
  [Ceq; Cgt; CgtUn; Clt; CltUn; LastCmpOpcode].

#[export] Instance CmpOpcode_eq_dec : EqDecision CmpOpcode.
Proof. solve_decision. Defined.

Inductive CondBranchOpcode : Set :=
  | Beq | BeqS | Bge | BgeS | BgeUn | BgeUnS | Bgt | BgtS | BgtUn | BgtUnS
  | Ble | BleS | BleUn | BleUnS | Blt | BltS | BltUn | BltUnS | BneUn
  | BneUnS | LastCondBranchOpcode.

Definition CondBranchOpcode_Z (o : CondBranchOpcode) : Z :=
  match o with
  | Beq => 0 | BeqS => 1 | Bge => 2 | BgeS => 3 | BgeUn => 4 | BgeUnS => 5
  | Bgt => 6 | BgtS => 7 | BgtUn => 8 | BgtUnS => 9 | Ble => 10
  | BleS => 11 | BleUn => 12 | BleUnS => 13 | Blt => 14 | BltS => 15
  | BltUn => 16 | BltUnS => 17 | BneUn => 18 | BneUnS => 19
  | LastCondBranchOpcode => 20
  end.

Definition CondBranchOpcode_all : list CondBranchOpcode :=
  [Beq; BeqS; Bge; BgeS; BgeUn; BgeUnS; Bgt; BgtS; BgtUn; BgtUnS; Ble;
   BleS; BleUn; BleUnS; Blt; BltS; BltUn; BltUnS; BneUn; BneUnS;
   LastCondBranchOpcode].

#[export] Instance CondBranchOpcode_eq_dec : EqDecision CondBranchOpcode.
Proof. solve_decision. Defined.

Inductive ConvOpcode : Set :=
  | ConvI1 | ConvI2 | ConvI4 | ConvI8 | ConvR4 | ConvR8 | ConvU1 | ConvU2
  | ConvU4 | ConvU8 | ConvI | ConvU | ConvOvfI1 | ConvOvfI2 | ConvOvfI4
  | ConvOvfI8 | ConvOvfU1 | ConvOvfU2 | ConvOvfU4 | ConvOvfU8 | ConvOvfI
  | ConvOvfU | ConvOvfI1Un | ConvOvfI2Un | ConvOvfI4Un | ConvOvfI8Un
  | ConvOvfU1Un | ConvOvfU2Un | ConvOvfU4Un | ConvOvfU8Un | ConvOvfIUn
  | ConvOvfUUn | ConvRUn | LastConvOpcode.

Definition ConvOpcode_Z (o : ConvOpcode) : Z :=
  match o with
  | ConvI1 => 0 | ConvI2 => 1 | ConvI4 => 2 | ConvI8 => 3 | ConvR4 => 4
  | ConvR8 => 5 | ConvU1 => 6 | ConvU2 => 7 | ConvU4 => 8 | ConvU8 => 9
  | ConvI => 10 | ConvU => 11 | ConvOvfI1 => 12 | ConvOvfI2 => 13
  | ConvOvfI4 => 14 | ConvOvfI8 => 15 | ConvOvfU1 => 16 | ConvOvfU2 => 17
  | ConvOvfU4 => 18 | ConvOvfU8 => 19 | ConvOvfI => 20 | ConvOvfU => 21
  | ConvOvfI1Un => 22 | ConvOvfI2Un => 23 | ConvOvfI4Un => 24
  | ConvOvfI8Un => 25 | ConvOvfU1Un => 26 | ConvOvfU2Un => 27
  | ConvOvfU4Un => 28 | ConvOvfU8Un => 29 | ConvOvfIUn => 30
  | ConvOvfUUn => 31 | ConvRUn => 32 | LastConvOpcode => 33
  end.

Definition ConvOpcode_all : list ConvOpcode :=
  [ConvI1; ConvI2; ConvI4; ConvI8; ConvR4; ConvR8; ConvU1; ConvU2; ConvU4;
   ConvU8; ConvI; ConvU; ConvOvfI1; ConvOvfI2; ConvOvfI4; ConvOvfI8;
   ConvOvfU1; ConvOvfU2; ConvOvfU4; ConvOvfU8; ConvOvfI; ConvOvfU;
   ConvOvfI1Un; ConvOvfI2Un; ConvOvfI4Un; ConvOvfI8Un; ConvOvfU1Un;
   ConvOvfU2Un; ConvOvfU4Un; ConvOvfU8Un; ConvOvfIUn; ConvOvfUUn; ConvRUn;
   LastConvOpcode].

#[export] Instance ConvOpcode_eq_dec : EqDecision ConvOpcode.
Proof. solve_decision. Defined.

Inductive ExceptOpcode : Set :=
  | EndFilter | Throw | LastExceptOpcode.

Definition ExceptOpcode_Z (o : ExceptOpcode) : Z :=
  match o with
  | EndFilter => 0 | Throw => 1 | LastExceptOpcode => 2
  end.

Definition ExceptOpcode_all : list ExceptOpcode :=
  [EndFilter; Throw; LastExceptOpcode].

#[export] Instance ExceptOpcode_eq_dec : EqDecision ExceptOpcode.
Proof. solve_decision. Defined.

Inductive LdElemOpcode : Set :=
  | LdelemI1 | LdelemU1 | LdelemI2 | LdelemU2 | LdelemI4 | LdelemU4
  | LdelemI8 | LdelemI | LdelemR4 | LdelemR8 | LdelemRef | Ldelem
  | LastLdelemOpcode.

Definition LdElemOpcode_Z (o : LdElemOpcode) : Z :=
  match o with
  | LdelemI1 => 0 | LdelemU1 => 1 | LdelemI2 => 2 | LdelemU2 => 3
  | LdelemI4 => 4 | LdelemU4 => 5 | LdelemI8 => 6 | LdelemI => 7
  | LdelemR4 => 8 | LdelemR8 => 9 | LdelemRef => 10 | Ldelem => 11
  | LastLdelemOpcode => 12
  end.

Definition LdElemOpcode_all : list LdElemOpcode :=
  [LdelemI1; LdelemU1; LdelemI2; LdelemU2; LdelemI4; LdelemU4; LdelemI8;
   LdelemI; LdelemR4; LdelemR8; LdelemRef; Ldelem; LastLdelemOpcode].

#[export] Instance LdElemOpcode_eq_dec : EqDecision LdElemOpcode.
Proof. solve_decision. Defined.

Inductive LdIndirOpcode : Set :=
  | LdindI1 | LdindU1 | LdindI2 | LdindU2 | LdindI4 | LdindU4 | LdindI8
  | LdindI | LdindR4 | LdindR8 | LdindRef | LastLdindOpcode.

Definition LdIndirOpcode_Z (o : LdIndirOpcode) : Z :=
  match o with
  | LdindI1 => 0 | LdindU1 => 1 | LdindI2 => 2 | LdindU2 => 3
  | LdindI4 => 4 | LdindU4 => 5 | LdindI8 => 6 | LdindI => 7 | LdindR4 => 8
  | LdindR8 => 9 | LdindRef => 10 | LastLdindOpcode => 11
  end.

Definition LdIndirOpcode_all : list LdIndirOpcode :=
  [LdindI1; LdindU1; LdindI2; LdindU2; LdindI4; LdindU4; LdindI8; LdindI;
   LdindR4; LdindR8; LdindRef; LastLdindOpcode].

#[export] Instance LdIndirOpcode_eq_dec : EqDecision LdIndirOpcode.
Proof. solve_decision. Defined.

Inductive StElemOpcode : Set :=
  | StelemI | StelemI1 | StelemI2 | StelemI4 | StelemI8 | StelemR4
  | StelemR8 | StelemRef | Stelem | LastStelemOpcode.

Definition StElemOpcode_Z (o : StElemOpcode) : Z :=
  match o with
  | StelemI => 0 | StelemI1 => 1 | StelemI2 => 2 | StelemI4 => 3
  | StelemI8 => 4 | StelemR4 => 5 | StelemR8 => 6 | StelemRef => 7
  | Stelem => 8 | LastStelemOpcode => 9
  end.

Definition StElemOpcode_all : list StElemOpcode :=
  [StelemI; StelemI1; StelemI2; StelemI4; StelemI8; StelemR4; StelemR8;
   StelemRef; Stelem; LastStelemOpcode].

#[export] Instance StElemOpcode_eq_dec : EqDecision StElemOpcode.
Proof. solve_decision. Defined.

Inductive ShiftOpcode : Set :=
  | Shl | Shr | ShrUn | LastShiftOpcode.

Definition ShiftOpcode_Z (o : ShiftOpcode) : Z :=
  match o with
  | Shl => 0 | Shr => 1 | ShrUn => 2 | LastShiftOpcode => 3
  end.

Definition ShiftOpcode_all : list ShiftOpcode :=
  [Shl; Shr; ShrUn; LastShiftOpcode].

#[export] Instance ShiftOpcode_eq_dec : EqDecision ShiftOpcode.
Proof. solve_decision. Defined.

Inductive StIndirOpcode : Set :=
  | StindI1 | StindI2 | StindI4 | StindI8 | StindI | StindR4 | StindR8
  | StindRef | LastStindOpcode.

Definition StIndirOpcode_Z (o : StIndirOpcode) : Z :=
  match o with
  | StindI1 => 0 | StindI2 => 1 | StindI4 => 2 | StindI8 => 3 | StindI => 4
  | StindR4 => 5 | StindR8 => 6 | StindRef => 7 | LastStindOpcode => 8
  end.

Definition StIndirOpcode_all : list StIndirOpcode :=
  [StindI1; StindI2; StindI4; StindI8; StindI; StindR4; StindR8; StindRef;
   LastStindOpcode].

#[export] Instance StIndirOpcode_eq_dec : EqDecision StIndirOpcode.
Proof. solve_decision. Defined.

Inductive OPCODE : Set :=
  | CEE_NOP | CEE_BREAK | CEE_LDARG_0 | CEE_LDARG_1 | CEE_LDARG_2
  | CEE_LDARG_3 | CEE_LDLOC_0 | CEE_LDLOC_1 | CEE_LDLOC_2 | CEE_LDLOC_3
  | CEE_STLOC_0 | CEE_STLOC_1 | CEE_STLOC_2 | CEE_STLOC_3 | CEE_LDARG_S
  | CEE_LDARGA_S | CEE_STARG_S | CEE_LDLOC_S | CEE_LDLOCA_S | CEE_STLOC_S
  | CEE_LDNULL | CEE_LDC_I4_M1 | CEE_LDC_I4_0 | CEE_LDC_I4_1 | CEE_LDC_I4_2
  | CEE_LDC_I4_3 | CEE_LDC_I4_4 | CEE_LDC_I4_5 | CEE_LDC_I4_6
  | CEE_LDC_I4_7 | CEE_LDC_I4_8 | CEE_LDC_I4_S | CEE_LDC_I4 | CEE_LDC_I8
  | CEE_LDC_R4 | CEE_LDC_R8 | CEE_UNUSED49 | CEE_DUP | CEE_POP | CEE_JMP
  | CEE_CALL | CEE_CALLI | CEE_RET | CEE_BR_S | CEE_BRFALSE_S
  | CEE_BRTRUE_S | CEE_BEQ_S | CEE_BGE_S | CEE_BGT_S | CEE_BLE_S
  | CEE_BLT_S | CEE_BNE_UN_S | CEE_BGE_UN_S | CEE_BGT_UN_S | CEE_BLE_UN_S
  | CEE_BLT_UN_S | CEE_BR | CEE_BRFALSE | CEE_BRTRUE | CEE_BEQ | CEE_BGE
  | CEE_BGT | CEE_BLE | CEE_BLT | CEE_BNE_UN | CEE_BGE_UN | CEE_BGT_UN
  | CEE_BLE_UN | CEE_BLT_UN | CEE_SWITCH | CEE_LDIND_I1 | CEE_LDIND_U1
  | CEE_LDIND_I2 | CEE_LDIND_U2 | CEE_LDIND_I4 | CEE_LDIND_U4
  | CEE_LDIND_I8 | CEE_LDIND_I | CEE_LDIND_R4 | CEE_LDIND_R8
  | CEE_LDIND_REF | CEE_STIND_REF | CEE_STIND_I1 | CEE_STIND_I2
  | CEE_STIND_I4 | CEE_STIND_I8 | CEE_STIND_R4 | CEE_STIND_R8 | CEE_ADD
  | CEE_SUB | CEE_MUL | CEE_DIV | CEE_DIV_UN | CEE_REM | CEE_REM_UN
  | CEE_AND | CEE_OR | CEE_XOR | CEE_SHL | CEE_SHR | CEE_SHR_UN | CEE_NEG
  | CEE_NOT | CEE_CONV_I1 | CEE_CONV_I2 | CEE_CONV_I4 | CEE_CONV_I8
  | CEE_CONV_R4 | CEE_CONV_R8 | CEE_CONV_U4 | CEE_CONV_U8 | CEE_CALLVIRT
  | CEE_CPOBJ | CEE_LDOBJ | CEE_LDSTR | CEE_NEWOBJ | CEE_CASTCLASS
  | CEE_ISINST | CEE_CONV_R_UN | CEE_UNUSED58 | CEE_UNUSED1 | CEE_UNBOX
  | CEE_THROW | CEE_LDFLD | CEE_LDFLDA | CEE_STFLD | CEE_LDSFLD
  | CEE_LDSFLDA | CEE_STSFLD | CEE_STOBJ | CEE_CONV_OVF_I1_UN
  | CEE_CONV_OVF_I2_UN | CEE_CONV_OVF_I4_UN | CEE_CONV_OVF_I8_UN
  | CEE_CONV_OVF_U1_UN | CEE_CONV_OVF_U2_UN | CEE_CONV_OVF_U4_UN
  | CEE_CONV_OVF_U8_UN | CEE_CONV_OVF_I_UN | CEE_CONV_OVF_U_UN | CEE_BOX
  | CEE_NEWARR | CEE_LDLEN | CEE_LDELEMA | CEE_LDELEM_I1 | CEE_LDELEM_U1
  | CEE_LDELEM_I2 | CEE_LDELEM_U2 | CEE_LDELEM_I4 | CEE_LDELEM_U4
  | CEE_LDELEM_I8 | CEE_LDELEM_I | CEE_LDELEM_R4 | CEE_LDELEM_R8
  | CEE_LDELEM_REF | CEE_STELEM_I | CEE_STELEM_I1 | CEE_STELEM_I2
  | CEE_STELEM_I4 | CEE_STELEM_I8 | CEE_STELEM_R4 | CEE_STELEM_R8
  | CEE_STELEM_REF | CEE_LDELEM | CEE_STELEM | CEE_UNBOX_ANY | CEE_UNUSED5
  | CEE_UNUSED6 | CEE_UNUSED7 | CEE_UNUSED8 | CEE_UNUSED9 | CEE_UNUSED10
  | CEE_UNUSED11 | CEE_UNUSED12 | CEE_UNUSED13 | CEE_UNUSED14
  | CEE_UNUSED15 | CEE_UNUSED16 | CEE_UNUSED17 | CEE_CONV_OVF_I1
  | CEE_CONV_OVF_U1 | CEE_CONV_OVF_I2 | CEE_CONV_OVF_U2 | CEE_CONV_OVF_I4
  | CEE_CONV_OVF_U4 | CEE_CONV_OVF_I8 | CEE_CONV_OVF_U8 | CEE_UNUSED50
  | CEE_UNUSED18 | CEE_UNUSED19 | CEE_UNUSED20 | CEE_UNUSED21
  | CEE_UNUSED22 | CEE_UNUSED23 | CEE_REFANYVAL | CEE_CKFINITE
  | CEE_UNUSED24 | CEE_UNUSED25 | CEE_MKREFANY | CEE_UNUSED59
  | CEE_UNUSED60 | CEE_UNUSED61 | CEE_UNUSED62 | CEE_UNUSED63
  | CEE_UNUSED64 | CEE_UNUSED65 | CEE_UNUSED66 | CEE_UNUSED67 | CEE_LDTOKEN
  | CEE_CONV_U2 | CEE_CONV_U1 | CEE_CONV_I | CEE_CONV_OVF_I
  | CEE_CONV_OVF_U | CEE_ADD_OVF | CEE_ADD_OVF_UN | CEE_MUL_OVF
  | CEE_MUL_OVF_UN | CEE_SUB_OVF | CEE_SUB_OVF_UN | CEE_ENDFINALLY
  | CEE_LEAVE | CEE_LEAVE_S | CEE_STIND_I | CEE_CONV_U | CEE_UNUSED26
  | CEE_UNUSED27 | CEE_UNUSED28 | CEE_UNUSED29 | CEE_UNUSED30
  | CEE_UNUSED31 | CEE_UNUSED32 | CEE_UNUSED33 | CEE_UNUSED34
  | CEE_UNUSED35 | CEE_UNUSED36 | CEE_UNUSED37 | CEE_UNUSED38
  | CEE_UNUSED39 | CEE_UNUSED40 | CEE_UNUSED41 | CEE_UNUSED42
  | CEE_UNUSED43 | CEE_UNUSED44 | CEE_UNUSED45 | CEE_UNUSED46
  | CEE_UNUSED47 | CEE_UNUSED48 | CEE_PREFIX7 | CEE_PREFIX6 | CEE_PREFIX5
  | CEE_PREFIX4 | CEE_PREFIX3 | CEE_PREFIX2 | CEE_PREFIX1 | CEE_PREFIXREF
  | CEE_ARGLIST | CEE_CEQ | CEE_CGT | CEE_CGT_UN | CEE_CLT | CEE_CLT_UN
  | CEE_LDFTN | CEE_LDVIRTFTN | CEE_UNUSED56 | CEE_LDARG | CEE_LDARGA
  | CEE_STARG | CEE_LDLOC | CEE_LDLOCA | CEE_STLOC | CEE_LOCALLOC
  | CEE_UNUSED57 | CEE_ENDFILTER | CEE_UNALIGNED | CEE_VOLATILE
  | CEE_TAILCALL | CEE_INITOBJ | CEE_CONSTRAINED | CEE_CPBLK | CEE_INITBLK
  | CEE_UNUSED69 | CEE_RETHROW | CEE_UNUSED51 | CEE_SIZEOF | CEE_REFANYTYPE
  | CEE_READONLY | CEE_UNUSED53 | CEE_UNUSED54 | CEE_UNUSED55
  | CEE_UNUSED70 | CEE_ILLEGAL.

(** The enumeration in declaration order. *)
Definition opcodes : list OPCODE :=
  [CEE_NOP; CEE_BREAK; CEE_LDARG_0; CEE_LDARG_1; CEE_LDARG_2; CEE_LDARG_3;
   CEE_LDLOC_0; CEE_LDLOC_1; CEE_LDLOC_2; CEE_LDLOC_3; CEE_STLOC_0;
   CEE_STLOC_1; CEE_STLOC_2; CEE_STLOC_3; CEE_LDARG_S; CEE_LDARGA_S;
   CEE_STARG_S; CEE_LDLOC_S; CEE_LDLOCA_S; CEE_STLOC_S; CEE_LDNULL;
   CEE_LDC_I4_M1; CEE_LDC_I4_0; CEE_LDC_I4_1; CEE_LDC_I4_2; CEE_LDC_I4_3;
   CEE_LDC_I4_4; CEE_LDC_I4_5; CEE_LDC_I4_6; CEE_LDC_I4_7; CEE_LDC_I4_8;
   CEE_LDC_I4_S; CEE_LDC_I4; CEE_LDC_I8; CEE_LDC_R4; CEE_LDC_R8;
   CEE_UNUSED49; CEE_DUP; CEE_POP; CEE_JMP; CEE_CALL; CEE_CALLI; CEE_RET;
   CEE_BR_S; CEE_BRFALSE_S; CEE_BRTRUE_S; CEE_BEQ_S; CEE_BGE_S; CEE_BGT_S;
   CEE_BLE_S; CEE_BLT_S; CEE_BNE_UN_S; CEE_BGE_UN_S; CEE_BGT_UN_S;
   CEE_BLE_UN_S; CEE_BLT_UN_S; CEE_BR; CEE_BRFALSE; CEE_BRTRUE; CEE_BEQ;
   CEE_BGE; CEE_BGT; CEE_BLE; CEE_BLT; CEE_BNE_UN; CEE_BGE_UN; CEE_BGT_UN;
   CEE_BLE_UN; CEE_BLT_UN; CEE_SWITCH; CEE_LDIND_I1; CEE_LDIND_U1;
   CEE_LDIND_I2; CEE_LDIND_U2; CEE_LDIND_I4; CEE_LDIND_U4; CEE_LDIND_I8;
   CEE_LDIND_I; CEE_LDIND_R4; CEE_LDIND_R8; CEE_LDIND_REF; CEE_STIND_REF;
   CEE_STIND_I1; CEE_STIND_I2; CEE_STIND_I4; CEE_STIND_I8; CEE_STIND_R4;
   CEE_STIND_R8; CEE_ADD; CEE_SUB; CEE_MUL; CEE_DIV; CEE_DIV_UN; CEE_REM;
   CEE_REM_UN; CEE_AND; CEE_OR; CEE_XOR; CEE_SHL; CEE_SHR; CEE_SHR_UN;
   CEE_NEG; CEE_NOT; CEE_CONV_I1; CEE_CONV_I2; CEE_CONV_I4; CEE_CONV_I8;
   CEE_CONV_R4; CEE_CONV_R8; CEE_CONV_U4; CEE_CONV_U8; CEE_CALLVIRT;
   CEE_CPOBJ; CEE_LDOBJ; CEE_LDSTR; CEE_NEWOBJ; CEE_CASTCLASS; CEE_ISINST;
   CEE_CONV_R_UN; CEE_UNUSED58; CEE_UNUSED1; CEE_UNBOX; CEE_THROW;
   CEE_LDFLD; CEE_LDFLDA; CEE_STFLD; CEE_LDSFLD; CEE_LDSFLDA; CEE_STSFLD;
   CEE_STOBJ; CEE_CONV_OVF_I1_UN; CEE_CONV_OVF_I2_UN; CEE_CONV_OVF_I4_UN;
   CEE_CONV_OVF_I8_UN; CEE_CONV_OVF_U1_UN; CEE_CONV_OVF_U2_UN;
   CEE_CONV_OVF_U4_UN; CEE_CONV_OVF_U8_UN; CEE_CONV_OVF_I_UN;
   CEE_CONV_OVF_U_UN; CEE_BOX; CEE_NEWARR; CEE_LDLEN; CEE_LDELEMA;
   CEE_LDELEM_I1; CEE_LDELEM_U1; CEE_LDELEM_I2; CEE_LDELEM_U2;
   CEE_LDELEM_I4; CEE_LDELEM_U4; CEE_LDELEM_I8; CEE_LDELEM_I;
   CEE_LDELEM_R4; CEE_LDELEM_R8; CEE_LDELEM_REF; CEE_STELEM_I;
   CEE_STELEM_I1; CEE_STELEM_I2; CEE_STELEM_I4; CEE_STELEM_I8;
   CEE_STELEM_R4; CEE_STELEM_R8; CEE_STELEM_REF; CEE_LDELEM; CEE_STELEM;
   CEE_UNBOX_ANY; CEE_UNUSED5; CEE_UNUSED6; CEE_UNUSED7; CEE_UNUSED8;
   CEE_UNUSED9; CEE_UNUSED10; CEE_UNUSED11; CEE_UNUSED12; CEE_UNUSED13;
   CEE_UNUSED14; CEE_UNUSED15; CEE_UNUSED16; CEE_UNUSED17; CEE_CONV_OVF_I1;
   CEE_CONV_OVF_U1; CEE_CONV_OVF_I2; CEE_CONV_OVF_U2; CEE_CONV_OVF_I4;
   CEE_CONV_OVF_U4; CEE_CONV_OVF_I8; CEE_CONV_OVF_U8; CEE_UNUSED50;
   CEE_UNUSED18; CEE_UNUSED19; CEE_UNUSED20; CEE_UNUSED21; CEE_UNUSED22;
   CEE_UNUSED23; CEE_REFANYVAL; CEE_CKFINITE; CEE_UNUSED24; CEE_UNUSED25;
   CEE_MKREFANY; CEE_UNUSED59; CEE_UNUSED60; CEE_UNUSED61; CEE_UNUSED62;
   CEE_UNUSED63; CEE_UNUSED64; CEE_UNUSED65; CEE_UNUSED66; CEE_UNUSED67;
   CEE_LDTOKEN; CEE_CONV_U2; CEE_CONV_U1; CEE_CONV_I; CEE_CONV_OVF_I;
   CEE_CONV_OVF_U; CEE_ADD_OVF; CEE_ADD_OVF_UN; CEE_MUL_OVF;
   CEE_MUL_OVF_UN; CEE_SUB_OVF; CEE_SUB_OVF_UN; CEE_ENDFINALLY; CEE_LEAVE;
   CEE_LEAVE_S; CEE_STIND_I; CEE_CONV_U; CEE_UNUSED26; CEE_UNUSED27;
   CEE_UNUSED28; CEE_UNUSED29; CEE_UNUSED30; CEE_UNUSED31; CEE_UNUSED32;
   CEE_UNUSED33; CEE_UNUSED34; CEE_UNUSED35; CEE_UNUSED36; CEE_UNUSED37;
   CEE_UNUSED38; CEE_UNUSED39; CEE_UNUSED40; CEE_UNUSED41; CEE_UNUSED42;
   CEE_UNUSED43; CEE_UNUSED44; CEE_UNUSED45; CEE_UNUSED46; CEE_UNUSED47;
   CEE_UNUSED48; CEE_PREFIX7; CEE_PREFIX6; CEE_PREFIX5; CEE_PREFIX4;
   CEE_PREFIX3; CEE_PREFIX2; CEE_PREFIX1; CEE_PREFIXREF; CEE_ARGLIST;
   CEE_CEQ; CEE_CGT; CEE_CGT_UN; CEE_CLT; CEE_CLT_UN; CEE_LDFTN;
   CEE_LDVIRTFTN; CEE_UNUSED56; CEE_LDARG; CEE_LDARGA; CEE_STARG;
   CEE_LDLOC; CEE_LDLOCA; CEE_STLOC; CEE_LOCALLOC; CEE_UNUSED57;
   CEE_ENDFILTER; CEE_UNALIGNED; CEE_VOLATILE; CEE_TAILCALL; CEE_INITOBJ;
   CEE_CONSTRAINED; CEE_CPBLK; CEE_INITBLK; CEE_UNUSED69; CEE_RETHROW;
   CEE_UNUSED51; CEE_SIZEOF; CEE_REFANYTYPE; CEE_READONLY; CEE_UNUSED53;
   CEE_UNUSED54; CEE_UNUSED55; CEE_UNUSED70; CEE_ILLEGAL].

Definition OPCODE_Z (o : OPCODE) : Z :=
  match o with
  | CEE_NOP => 0 | CEE_BREAK => 1 | CEE_LDARG_0 => 2 | CEE_LDARG_1 => 3
  | CEE_LDARG_2 => 4 | CEE_LDARG_3 => 5 | CEE_LDLOC_0 => 6
  | CEE_LDLOC_1 => 7 | CEE_LDLOC_2 => 8 | CEE_LDLOC_3 => 9
  | CEE_STLOC_0 => 10 | CEE_STLOC_1 => 11 | CEE_STLOC_2 => 12
  | CEE_STLOC_3 => 13 | CEE_LDARG_S => 14 | CEE_LDARGA_S => 15
  | CEE_STARG_S => 16 | CEE_LDLOC_S => 17 | CEE_LDLOCA_S => 18
  | CEE_STLOC_S => 19 | CEE_LDNULL => 20 | CEE_LDC_I4_M1 => 21
  | CEE_LDC_I4_0 => 22 | CEE_LDC_I4_1 => 23 | CEE_LDC_I4_2 => 24
  | CEE_LDC_I4_3 => 25 | CEE_LDC_I4_4 => 26 | CEE_LDC_I4_5 => 27
  | CEE_LDC_I4_6 => 28 | CEE_LDC_I4_7 => 29 | CEE_LDC_I4_8 => 30
  | CEE_LDC_I4_S => 31 | CEE_LDC_I4 => 32 | CEE_LDC_I8 => 33
  | CEE_LDC_R4 => 34 | CEE_LDC_R8 => 35 | CEE_UNUSED49 => 36
  | CEE_DUP => 37 | CEE_POP => 38 | CEE_JMP => 39 | CEE_CALL => 40
  | CEE_CALLI => 41 | CEE_RET => 42 | CEE_BR_S => 43 | CEE_BRFALSE_S => 44
  | CEE_BRTRUE_S => 45 | CEE_BEQ_S => 46 | CEE_BGE_S => 47
  | CEE_BGT_S => 48 | CEE_BLE_S => 49 | CEE_BLT_S => 50
  | CEE_BNE_UN_S => 51 | CEE_BGE_UN_S => 52 | CEE_BGT_UN_S => 53
  | CEE_BLE_UN_S => 54 | CEE_BLT_UN_S => 55 | CEE_BR => 56
  | CEE_BRFALSE => 57 | CEE_BRTRUE => 58 | CEE_BEQ => 59 | CEE_BGE => 60
  | CEE_BGT => 61 | CEE_BLE => 62 | CEE_BLT => 63 | CEE_BNE_UN => 64
  | CEE_BGE_UN => 65 | CEE_BGT_UN => 66 | CEE_BLE_UN => 67
  | CEE_BLT_UN => 68 | CEE_SWITCH => 69 | CEE_LDIND_I1 => 70
  | CEE_LDIND_U1 => 71 | CEE_LDIND_I2 => 72 | CEE_LDIND_U2 => 73
  | CEE_LDIND_I4 => 74 | CEE_LDIND_U4 => 75 | CEE_LDIND_I8 => 76
  | CEE_LDIND_I => 77 | CEE_LDIND_R4 => 78 | CEE_LDIND_R8 => 79
  | CEE_LDIND_REF => 80 | CEE_STIND_REF => 81 | CEE_STIND_I1 => 82
  | CEE_STIND_I2 => 83 | CEE_STIND_I4 => 84 | CEE_STIND_I8 => 85
  | CEE_STIND_R4 => 86 | CEE_STIND_R8 => 87 | CEE_ADD => 88 | CEE_SUB => 89
  | CEE_MUL => 90 | CEE_DIV => 91 | CEE_DIV_UN => 92 | CEE_REM => 93
  | CEE_REM_UN => 94 | CEE_AND => 95 | CEE_OR => 96 | CEE_XOR => 97
  | CEE_SHL => 98 | CEE_SHR => 99 | CEE_SHR_UN => 100 | CEE_NEG => 101
  | CEE_NOT => 102 | CEE_CONV_I1 => 103 | CEE_CONV_I2 => 104
  | CEE_CONV_I4 => 105 | CEE_CONV_I8 => 106 | CEE_CONV_R4 => 107
  | CEE_CONV_R8 => 108 | CEE_CONV_U4 => 109 | CEE_CONV_U8 => 110
  | CEE_CALLVIRT => 111 | CEE_CPOBJ => 112 | CEE_LDOBJ => 113
  | CEE_LDSTR => 114 | CEE_NEWOBJ => 115 | CEE_CASTCLASS => 116
  | CEE_ISINST => 117 | CEE_CONV_R_UN => 118 | CEE_UNUSED58 => 119
  | CEE_UNUSED1 => 120 | CEE_UNBOX => 121 | CEE_THROW => 122
  | CEE_LDFLD => 123 | CEE_LDFLDA => 124 | CEE_STFLD => 125
  | CEE_LDSFLD => 126 | CEE_LDSFLDA => 127 | CEE_STSFLD => 128
  | CEE_STOBJ => 129 | CEE_CONV_OVF_I1_UN => 130
  | CEE_CONV_OVF_I2_UN => 131 | CEE_CONV_OVF_I4_UN => 132
  | CEE_CONV_OVF_I8_UN => 133 | CEE_CONV_OVF_U1_UN => 134
  | CEE_CONV_OVF_U2_UN => 135 | CEE_CONV_OVF_U4_UN => 136
  | CEE_CONV_OVF_U8_UN => 137 | CEE_CONV_OVF_I_UN => 138
  | CEE_CONV_OVF_U_UN => 139 | CEE_BOX => 140 | CEE_NEWARR => 141
  | CEE_LDLEN => 142 | CEE_LDELEMA => 143 | CEE_LDELEM_I1 => 144
  | CEE_LDELEM_U1 => 145 | CEE_LDELEM_I2 => 146 | CEE_LDELEM_U2 => 147
  | CEE_LDELEM_I4 => 148 | CEE_LDELEM_U4 => 149 | CEE_LDELEM_I8 => 150
  | CEE_LDELEM_I => 151 | CEE_LDELEM_R4 => 152 | CEE_LDELEM_R8 => 153
  | CEE_LDELEM_REF => 154 | CEE_STELEM_I => 155 | CEE_STELEM_I1 => 156
  | CEE_STELEM_I2 => 157 | CEE_STELEM_I4 => 158 | CEE_STELEM_I8 => 159
  | CEE_STELEM_R4 => 160 | CEE_STELEM_R8 => 161 | CEE_STELEM_REF => 162
  | CEE_LDELEM => 163 | CEE_STELEM => 164 | CEE_UNBOX_ANY => 165
  | CEE_UNUSED5 => 166 | CEE_UNUSED6 => 167 | CEE_UNUSED7 => 168
  | CEE_UNUSED8 => 169 | CEE_UNUSED9 => 170 | CEE_UNUSED10 => 171
  | CEE_UNUSED11 => 172 | CEE_UNUSED12 => 173 | CEE_UNUSED13 => 174
  | CEE_UNUSED14 => 175 | CEE_UNUSED15 => 176 | CEE_UNUSED16 => 177
  | CEE_UNUSED17 => 178 | CEE_CONV_OVF_I1 => 179 | CEE_CONV_OVF_U1 => 180
  | CEE_CONV_OVF_I2 => 181 | CEE_CONV_OVF_U2 => 182
  | CEE_CONV_OVF_I4 => 183 | CEE_CONV_OVF_U4 => 184
  | CEE_CONV_OVF_I8 => 185 | CEE_CONV_OVF_U8 => 186 | CEE_UNUSED50 => 187
  | CEE_UNUSED18 => 188 | CEE_UNUSED19 => 189 | CEE_UNUSED20 => 190
  | CEE_UNUSED21 => 191 | CEE_UNUSED22 => 192 | CEE_UNUSED23 => 193
  | CEE_REFANYVAL => 194 | CEE_CKFINITE => 195 | CEE_UNUSED24 => 196
  | CEE_UNUSED25 => 197 | CEE_MKREFANY => 198 | CEE_UNUSED59 => 199
  | CEE_UNUSED60 => 200 | CEE_UNUSED61 => 201 | CEE_UNUSED62 => 202
  | CEE_UNUSED63 => 203 | CEE_UNUSED64 => 204 | CEE_UNUSED65 => 205
  | CEE_UNUSED66 => 206 | CEE_UNUSED67 => 207 | CEE_LDTOKEN => 208
  | CEE_CONV_U2 => 209 | CEE_CONV_U1 => 210 | CEE_CONV_I => 211
  | CEE_CONV_OVF_I => 212 | CEE_CONV_OVF_U => 213 | CEE_ADD_OVF => 214
  | CEE_ADD_OVF_UN => 215 | CEE_MUL_OVF => 216 | CEE_MUL_OVF_UN => 217
  | CEE_SUB_OVF => 218 | CEE_SUB_OVF_UN => 219 | CEE_ENDFINALLY => 220
  | CEE_LEAVE => 221 | CEE_LEAVE_S => 222 | CEE_STIND_I => 223
  | CEE_CONV_U => 224 | CEE_UNUSED26 => 225 | CEE_UNUSED27 => 226
  | CEE_UNUSED28 => 227 | CEE_UNUSED29 => 228 | CEE_UNUSED30 => 229
  | CEE_UNUSED31 => 230 | CEE_UNUSED32 => 231 | CEE_UNUSED33 => 232
  | CEE_UNUSED34 => 233 | CEE_UNUSED35 => 234 | CEE_UNUSED36 => 235
  | CEE_UNUSED37 => 236 | CEE_UNUSED38 => 237 | CEE_UNUSED39 => 238
  | CEE_UNUSED40 => 239 | CEE_UNUSED41 => 240 | CEE_UNUSED42 => 241
  | CEE_UNUSED43 => 242 | CEE_UNUSED44 => 243 | CEE_UNUSED45 => 244
  | CEE_UNUSED46 => 245 | CEE_UNUSED47 => 246 | CEE_UNUSED48 => 247
  | CEE_PREFIX7 => 248 | CEE_PREFIX6 => 249 | CEE_PREFIX5 => 250
  | CEE_PREFIX4 => 251 | CEE_PREFIX3 => 252 | CEE_PREFIX2 => 253
  | CEE_PREFIX1 => 254 | CEE_PREFIXREF => 255 | CEE_ARGLIST => 256
  | CEE_CEQ => 257 | CEE_CGT => 258 | CEE_CGT_UN => 259 | CEE_CLT => 260
  | CEE_CLT_UN => 261 | CEE_LDFTN => 262 | CEE_LDVIRTFTN => 263
  | CEE_UNUSED56 => 264 | CEE_LDARG => 265 | CEE_LDARGA => 266
  | CEE_STARG => 267 | CEE_LDLOC => 268 | CEE_LDLOCA => 269
  | CEE_STLOC => 270 | CEE_LOCALLOC => 271 | CEE_UNUSED57 => 272
  | CEE_ENDFILTER => 273 | CEE_UNALIGNED => 274 | CEE_VOLATILE => 275
  | CEE_TAILCALL => 276 | CEE_INITOBJ => 277 | CEE_CONSTRAINED => 278
  | CEE_CPBLK => 279 | CEE_INITBLK => 280 | CEE_UNUSED69 => 281
  | CEE_RETHROW => 282 | CEE_UNUSED51 => 283 | CEE_SIZEOF => 284
  | CEE_REFANYTYPE => 285 | CEE_READONLY => 286 | CEE_UNUSED53 => 287
  | CEE_UNUSED54 => 288 | CEE_UNUSED55 => 289 | CEE_UNUSED70 => 290
  | CEE_ILLEGAL => 291
  end.

Definition OPCODE_of_Z (z : Z) : option OPCODE :=
  if z <? 0 then None else opcodes !! Z.to_nat z.

Lemma OPCODE_of_to_Z (o : OPCODE) : OPCODE_of_Z (OPCODE_Z o) = Some o.
Proof. destruct o; reflexivity. Qed.

#[export] Instance OPCODE_Z_inj : Inj (=) (=) OPCODE_Z.
Proof.
  intros a b H. apply (f_equal OPCODE_of_Z) in H.
  rewrite !OPCODE_of_to_Z in H. congruence.
Qed.

#[export] Instance OPCODE_eq_dec : EqDecision OPCODE.
Proof.
  intros a b. destruct (decide (OPCODE_Z a = OPCODE_Z b)) as [H|H].
  - left. by apply (inj OPCODE_Z).
  - right. by intros ->.
Defined.

#[export] Instance OPCODE_countable : Countable OPCODE.
Proof. exact (inj_countable OPCODE_Z OPCODE_of_Z OPCODE_of_to_Z). Defined.

(** Boolean opcode test, for guards. *)
Definition op_is (a b : OPCODE) : bool := OPCODE_Z a =? OPCODE_Z b.
Definition op_in (a : OPCODE) (l : list OPCODE) : bool := existsb (op_is a) l.

Lemma op_is_true (a b : OPCODE) : op_is a b = true <-> a = b.
Proof.
  unfold op_is. rewrite Z.eqb_eq. split; [apply (inj OPCODE_Z)|by intros ->].
Qed.

Lemma op_is_false (a b : OPCODE) : op_is a b = false <-> a <> b.
Proof. rewrite <- op_is_true. by destruct (op_is a b). Qed.

Lemma op_is_refl (a : OPCODE) : op_is a a = true.
Proof. by apply op_is_true. Qed.

(** Opcode to function-specific enumerator; -1 where there is none. *)
Definition OpcodeRemap (o : OPCODE) : Z :=
  match o with
  | CEE_LDARG_0 => 0 | CEE_LDARG_1 => 1 | CEE_LDARG_2 => 2
  | CEE_LDARG_3 => 3 | CEE_LDLOC_0 => 0 | CEE_LDLOC_1 => 1
  | CEE_LDLOC_2 => 2 | CEE_LDLOC_3 => 3 | CEE_STLOC_0 => 0
  | CEE_STLOC_1 => 1 | CEE_STLOC_2 => 2 | CEE_STLOC_3 => 3
  | CEE_LDC_I4_0 => 0 | CEE_LDC_I4_1 => 1 | CEE_LDC_I4_2 => 2
  | CEE_LDC_I4_3 => 3 | CEE_LDC_I4_4 => 4 | CEE_LDC_I4_5 => 5
  | CEE_LDC_I4_6 => 6 | CEE_LDC_I4_7 => 7 | CEE_LDC_I4_8 => 8
  | CEE_JMP => CallOpcode_Z Jmp | CEE_CALL => CallOpcode_Z Call
  | CEE_CALLI => CallOpcode_Z Calli
  | CEE_BRFALSE_S => BoolBranchOpcode_Z BrFalseS
  | CEE_BRTRUE_S => BoolBranchOpcode_Z BrTrueS
  | CEE_BEQ_S => CondBranchOpcode_Z BeqS
  | CEE_BGE_S => CondBranchOpcode_Z BgeS
  | CEE_BGT_S => CondBranchOpcode_Z BgtS
  | CEE_BLE_S => CondBranchOpcode_Z BleS
  | CEE_BLT_S => CondBranchOpcode_Z BltS
  | CEE_BNE_UN_S => CondBranchOpcode_Z BneUnS
  | CEE_BGE_UN_S => CondBranchOpcode_Z BgeUnS
  | CEE_BGT_UN_S => CondBranchOpcode_Z BgtUnS
  | CEE_BLE_UN_S => CondBranchOpcode_Z BleUnS
  | CEE_BLT_UN_S => CondBranchOpcode_Z BltUnS
  | CEE_BRFALSE => BoolBranchOpcode_Z BrFalse
  | CEE_BRTRUE => BoolBranchOpcode_Z BrTrue
  | CEE_BEQ => CondBranchOpcode_Z Beq | CEE_BGE => CondBranchOpcode_Z Bge
  | CEE_BGT => CondBranchOpcode_Z Bgt | CEE_BLE => CondBranchOpcode_Z Ble
  | CEE_BLT => CondBranchOpcode_Z Blt
  | CEE_BNE_UN => CondBranchOpcode_Z BneUn
  | CEE_BGE_UN => CondBranchOpcode_Z BgeUn
  | CEE_BGT_UN => CondBranchOpcode_Z BgtUn
  | CEE_BLE_UN => CondBranchOpcode_Z BleUn
  | CEE_BLT_UN => CondBranchOpcode_Z BltUn
  | CEE_LDIND_I1 => LdIndirOpcode_Z LdindI1
  | CEE_LDIND_U1 => LdIndirOpcode_Z LdindU1
  | CEE_LDIND_I2 => LdIndirOpcode_Z LdindI2
  | CEE_LDIND_U2 => LdIndirOpcode_Z LdindU2
  | CEE_LDIND_I4 => LdIndirOpcode_Z LdindI4
  | CEE_LDIND_U4 => LdIndirOpcode_Z LdindU4
  | CEE_LDIND_I8 => LdIndirOpcode_Z LdindI8
  | CEE_LDIND_I => LdIndirOpcode_Z LdindI
  | CEE_LDIND_R4 => LdIndirOpcode_Z LdindR4
  | CEE_LDIND_R8 => LdIndirOpcode_Z LdindR8
  | CEE_LDIND_REF => LdIndirOpcode_Z LdindRef
  | CEE_STIND_REF => StIndirOpcode_Z StindRef
  | CEE_STIND_I1 => StIndirOpcode_Z StindI1
  | CEE_STIND_I2 => StIndirOpcode_Z StindI2
  | CEE_STIND_I4 => StIndirOpcode_Z StindI4
  | CEE_STIND_I8 => StIndirOpcode_Z StindI8
  | CEE_STIND_R4 => StIndirOpcode_Z StindR4
  | CEE_STIND_R8 => StIndirOpcode_Z StindR8 | CEE_ADD => BinaryOpcode_Z Add
  | CEE_SUB => BinaryOpcode_Z Sub | CEE_MUL => BinaryOpcode_Z Mul
  | CEE_DIV => BinaryOpcode_Z Div | CEE_DIV_UN => BinaryOpcode_Z DivUn
  | CEE_REM => BinaryOpcode_Z Rem | CEE_REM_UN => BinaryOpcode_Z RemUn
  | CEE_AND => BinaryOpcode_Z And | CEE_OR => BinaryOpcode_Z Or
  | CEE_XOR => BinaryOpcode_Z Xor | CEE_SHL => ShiftOpcode_Z Shl
  | CEE_SHR => ShiftOpcode_Z Shr | CEE_SHR_UN => ShiftOpcode_Z ShrUn
  | CEE_NEG => UnaryOpcode_Z Neg | CEE_NOT => UnaryOpcode_Z Not
  | CEE_CONV_I1 => ConvOpcode_Z ConvI1 | CEE_CONV_I2 => ConvOpcode_Z ConvI2
  | CEE_CONV_I4 => ConvOpcode_Z ConvI4 | CEE_CONV_I8 => ConvOpcode_Z ConvI8
  | CEE_CONV_R4 => ConvOpcode_Z ConvR4 | CEE_CONV_R8 => ConvOpcode_Z ConvR8
  | CEE_CONV_U4 => ConvOpcode_Z ConvU4 | CEE_CONV_U8 => ConvOpcode_Z ConvU8
  | CEE_CALLVIRT => CallOpcode_Z CallVirt
  | CEE_NEWOBJ => CallOpcode_Z NewObj
  | CEE_CONV_R_UN => ConvOpcode_Z ConvRUn
  | CEE_THROW => ExceptOpcode_Z Throw
  | CEE_CONV_OVF_I1_UN => ConvOpcode_Z ConvOvfI1Un
  | CEE_CONV_OVF_I2_UN => ConvOpcode_Z ConvOvfI2Un
  | CEE_CONV_OVF_I4_UN => ConvOpcode_Z ConvOvfI4Un
  | CEE_CONV_OVF_I8_UN => ConvOpcode_Z ConvOvfI8Un
  | CEE_CONV_OVF_U1_UN => ConvOpcode_Z ConvOvfU1Un
  | CEE_CONV_OVF_U2_UN => ConvOpcode_Z ConvOvfU2Un
  | CEE_CONV_OVF_U4_UN => ConvOpcode_Z ConvOvfU4Un
  | CEE_CONV_OVF_U8_UN => ConvOpcode_Z ConvOvfU8Un
  | CEE_CONV_OVF_I_UN => ConvOpcode_Z ConvOvfIUn
  | CEE_CONV_OVF_U_UN => ConvOpcode_Z ConvOvfUUn
  | CEE_LDELEM_I1 => LdElemOpcode_Z LdelemI1
  | CEE_LDELEM_U1 => LdElemOpcode_Z LdelemU1
  | CEE_LDELEM_I2 => LdElemOpcode_Z LdelemI2
  | CEE_LDELEM_U2 => LdElemOpcode_Z LdelemU2
  | CEE_LDELEM_I4 => LdElemOpcode_Z LdelemI4
  | CEE_LDELEM_U4 => LdElemOpcode_Z LdelemU4
  | CEE_LDELEM_I8 => LdElemOpcode_Z LdelemI8
  | CEE_LDELEM_I => LdElemOpcode_Z LdelemI
  | CEE_LDELEM_R4 => LdElemOpcode_Z LdelemR4
  | CEE_LDELEM_R8 => LdElemOpcode_Z LdelemR8
  | CEE_LDELEM_REF => LdElemOpcode_Z LdelemRef
  | CEE_STELEM_I => StElemOpcode_Z StelemI
  | CEE_STELEM_I1 => StElemOpcode_Z StelemI1
  | CEE_STELEM_I2 => StElemOpcode_Z StelemI2
  | CEE_STELEM_I4 => StElemOpcode_Z StelemI4
  | CEE_STELEM_I8 => StElemOpcode_Z StelemI8
  | CEE_STELEM_R4 => StElemOpcode_Z StelemR4
  | CEE_STELEM_R8 => StElemOpcode_Z StelemR8
  | CEE_STELEM_REF => StElemOpcode_Z StelemRef
  | CEE_LDELEM => LdElemOpcode_Z Ldelem
  | CEE_STELEM => StElemOpcode_Z Stelem
  | CEE_CONV_OVF_I1 => ConvOpcode_Z ConvOvfI1
  | CEE_CONV_OVF_U1 => ConvOpcode_Z ConvOvfU1
  | CEE_CONV_OVF_I2 => ConvOpcode_Z ConvOvfI2
  | CEE_CONV_OVF_U2 => ConvOpcode_Z ConvOvfU2
  | CEE_CONV_OVF_I4 => ConvOpcode_Z ConvOvfI4
  | CEE_CONV_OVF_U4 => ConvOpcode_Z ConvOvfU4
  | CEE_CONV_OVF_I8 => ConvOpcode_Z ConvOvfI8
  | CEE_CONV_OVF_U8 => ConvOpcode_Z ConvOvfU8
  | CEE_CONV_U2 => ConvOpcode_Z ConvU2 | CEE_CONV_U1 => ConvOpcode_Z ConvU1
  | CEE_CONV_I => ConvOpcode_Z ConvI
  | CEE_CONV_OVF_I => ConvOpcode_Z ConvOvfI
  | CEE_CONV_OVF_U => ConvOpcode_Z ConvOvfU
  | CEE_ADD_OVF => BinaryOpcode_Z AddOvf
  | CEE_ADD_OVF_UN => BinaryOpcode_Z AddOvfUn
  | CEE_MUL_OVF => BinaryOpcode_Z MulOvf
  | CEE_MUL_OVF_UN => BinaryOpcode_Z MulOvfUn
  | CEE_SUB_OVF => BinaryOpcode_Z SubOvf
  | CEE_SUB_OVF_UN => BinaryOpcode_Z SubOvfUn
  | CEE_STIND_I => StIndirOpcode_Z StindI
  | CEE_CONV_U => ConvOpcode_Z ConvU | CEE_CEQ => CmpOpcode_Z Ceq
  | CEE_CGT => CmpOpcode_Z Cgt | CEE_CGT_UN => CmpOpcode_Z CgtUn
  | CEE_CLT => CmpOpcode_Z Clt | CEE_CLT_UN => CmpOpcode_Z CltUn
  | CEE_ENDFILTER => ExceptOpcode_Z EndFilter
  | _ => -1
  end.

(** One-byte encodings. *)
Definition ByteCodes : list OPCODE :=
  [CEE_NOP; CEE_BREAK; CEE_LDARG_0; CEE_LDARG_1; CEE_LDARG_2; CEE_LDARG_3;
   CEE_LDLOC_0; CEE_LDLOC_1; CEE_LDLOC_2; CEE_LDLOC_3; CEE_STLOC_0;
   CEE_STLOC_1; CEE_STLOC_2; CEE_STLOC_3; CEE_LDARG_S; CEE_LDARGA_S;
   CEE_STARG_S; CEE_LDLOC_S; CEE_LDLOCA_S; CEE_STLOC_S; CEE_LDNULL;
   CEE_LDC_I4_M1; CEE_LDC_I4_0; CEE_LDC_I4_1; CEE_LDC_I4_2; CEE_LDC_I4_3;
   CEE_LDC_I4_4; CEE_LDC_I4_5; CEE_LDC_I4_6; CEE_LDC_I4_7; CEE_LDC_I4_8;
   CEE_LDC_I4_S; CEE_LDC_I4; CEE_LDC_I8; CEE_LDC_R4; CEE_LDC_R8;
   CEE_ILLEGAL; CEE_DUP; CEE_POP; CEE_JMP; CEE_CALL; CEE_CALLI; CEE_RET;
   CEE_BR_S; CEE_BRFALSE_S; CEE_BRTRUE_S; CEE_BEQ_S; CEE_BGE_S; CEE_BGT_S;
   CEE_BLE_S; CEE_BLT_S; CEE_BNE_UN_S; CEE_BGE_UN_S; CEE_BGT_UN_S;
   CEE_BLE_UN_S; CEE_BLT_UN_S; CEE_BR; CEE_BRFALSE; CEE_BRTRUE; CEE_BEQ;
   CEE_BGE; CEE_BGT; CEE_BLE; CEE_BLT; CEE_BNE_UN; CEE_BGE_UN; CEE_BGT_UN;
   CEE_BLE_UN; CEE_BLT_UN; CEE_SWITCH; CEE_LDIND_I1; CEE_LDIND_U1;
   CEE_LDIND_I2; CEE_LDIND_U2; CEE_LDIND_I4; CEE_LDIND_U4; CEE_LDIND_I8;
   CEE_LDIND_I; CEE_LDIND_R4; CEE_LDIND_R8; CEE_LDIND_REF; CEE_STIND_REF;
   CEE_STIND_I1; CEE_STIND_I2; CEE_STIND_I4; CEE_STIND_I8; CEE_STIND_R4;
   CEE_STIND_R8; CEE_ADD; CEE_SUB; CEE_MUL; CEE_DIV; CEE_DIV_UN; CEE_REM;
   CEE_REM_UN; CEE_AND; CEE_OR; CEE_XOR; CEE_SHL; CEE_SHR; CEE_SHR_UN;
   CEE_NEG; CEE_NOT; CEE_CONV_I1; CEE_CONV_I2; CEE_CONV_I4; CEE_CONV_I8;
   CEE_CONV_R4; CEE_CONV_R8; CEE_CONV_U4; CEE_CONV_U8; CEE_CALLVIRT;
   CEE_CPOBJ; CEE_LDOBJ; CEE_LDSTR; CEE_NEWOBJ; CEE_CASTCLASS; CEE_ISINST;
   CEE_CONV_R_UN; CEE_ILLEGAL; CEE_ILLEGAL; CEE_UNBOX; CEE_THROW;
   CEE_LDFLD; CEE_LDFLDA; CEE_STFLD; CEE_LDSFLD; CEE_LDSFLDA; CEE_STSFLD;
   CEE_STOBJ; CEE_CONV_OVF_I1_UN; CEE_CONV_OVF_I2_UN; CEE_CONV_OVF_I4_UN;
   CEE_CONV_OVF_I8_UN; CEE_CONV_OVF_U1_UN; CEE_CONV_OVF_U2_UN;
   CEE_CONV_OVF_U4_UN; CEE_CONV_OVF_U8_UN; CEE_CONV_OVF_I_UN;
   CEE_CONV_OVF_U_UN; CEE_BOX; CEE_NEWARR; CEE_LDLEN; CEE_LDELEMA;
   CEE_LDELEM_I1; CEE_LDELEM_U1; CEE_LDELEM_I2; CEE_LDELEM_U2;
   CEE_LDELEM_I4; CEE_LDELEM_U4; CEE_LDELEM_I8; CEE_LDELEM_I;
   CEE_LDELEM_R4; CEE_LDELEM_R8; CEE_LDELEM_REF; CEE_STELEM_I;
   CEE_STELEM_I1; CEE_STELEM_I2; CEE_STELEM_I4; CEE_STELEM_I8;
   CEE_STELEM_R4; CEE_STELEM_R8; CEE_STELEM_REF; CEE_LDELEM; CEE_STELEM;
   CEE_UNBOX_ANY; CEE_ILLEGAL; CEE_ILLEGAL; CEE_ILLEGAL; CEE_ILLEGAL;
   CEE_ILLEGAL; CEE_ILLEGAL; CEE_ILLEGAL; CEE_ILLEGAL; CEE_ILLEGAL;
   CEE_ILLEGAL; CEE_ILLEGAL; CEE_ILLEGAL; CEE_ILLEGAL; CEE_CONV_OVF_I1;
   CEE_CONV_OVF_U1; CEE_CONV_OVF_I2; CEE_CONV_OVF_U2; CEE_CONV_OVF_I4;
   CEE_CONV_OVF_U4; CEE_CONV_OVF_I8; CEE_CONV_OVF_U8; CEE_ILLEGAL;
   CEE_ILLEGAL; CEE_ILLEGAL; CEE_ILLEGAL; CEE_ILLEGAL; CEE_ILLEGAL;
   CEE_ILLEGAL; CEE_REFANYVAL; CEE_CKFINITE; CEE_ILLEGAL; CEE_ILLEGAL;
   CEE_MKREFANY; CEE_ILLEGAL; CEE_ILLEGAL; CEE_ILLEGAL; CEE_ILLEGAL;
   CEE_ILLEGAL; CEE_ILLEGAL; CEE_ILLEGAL; CEE_ILLEGAL; CEE_ILLEGAL;
   CEE_LDTOKEN; CEE_CONV_U2; CEE_CONV_U1; CEE_CONV_I; CEE_CONV_OVF_I;
   CEE_CONV_OVF_U; CEE_ADD_OVF; CEE_ADD_OVF_UN; CEE_MUL_OVF;
   CEE_MUL_OVF_UN; CEE_SUB_OVF; CEE_SUB_OVF_UN; CEE_ENDFINALLY; CEE_LEAVE;
   CEE_LEAVE_S; CEE_STIND_I; CEE_CONV_U; CEE_ILLEGAL; CEE_ILLEGAL;
   CEE_ILLEGAL; CEE_ILLEGAL; CEE_ILLEGAL; CEE_ILLEGAL; CEE_ILLEGAL;
   CEE_ILLEGAL; CEE_ILLEGAL; CEE_ILLEGAL; CEE_ILLEGAL; CEE_ILLEGAL;
   CEE_ILLEGAL; CEE_ILLEGAL; CEE_ILLEGAL; CEE_ILLEGAL; CEE_ILLEGAL;
   CEE_ILLEGAL; CEE_ILLEGAL; CEE_ILLEGAL; CEE_ILLEGAL; CEE_ILLEGAL;
   CEE_ILLEGAL; CEE_ILLEGAL; CEE_ILLEGAL; CEE_ILLEGAL; CEE_ILLEGAL;
   CEE_ILLEGAL; CEE_ILLEGAL; CEE_ILLEGAL; CEE_ILLEGAL].

(** Encodings behind the 0xFE prefix. *)
Definition PrefixedByteCodes : list OPCODE :=
  [CEE_ARGLIST; CEE_CEQ; CEE_CGT; CEE_CGT_UN; CEE_CLT; CEE_CLT_UN;
   CEE_LDFTN; CEE_LDVIRTFTN; CEE_ILLEGAL; CEE_LDARG; CEE_LDARGA; CEE_STARG;
   CEE_LDLOC; CEE_LDLOCA; CEE_STLOC; CEE_LOCALLOC; CEE_ILLEGAL;
   CEE_ENDFILTER; CEE_UNALIGNED; CEE_VOLATILE; CEE_TAILCALL; CEE_INITOBJ;
   CEE_CONSTRAINED; CEE_CPBLK; CEE_INITBLK; CEE_ILLEGAL; CEE_RETHROW;
   CEE_ILLEGAL; CEE_SIZEOF; CEE_REFANYTYPE; CEE_READONLY; CEE_ILLEGAL;
   CEE_ILLEGAL].

End ReaderBaseNS.

Export (hints) ReaderBaseNS.
