(* ===== verification/ILDecode.v ===== *)
(** * MSIL instruction decoding (lib/Reader/reader.cpp)

    [readValue], [getMSILInstrLength], [parseILOpcode] and [printMSIL].
    A byte buffer is a list of bytes, offsets are unsigned 32-bit integers with
    their wrap-around, and an access outside a C array is [None].  [verGlobalError] is the stub of GenIRStubs.cpp: it
    records an error and returns, so parsing goes on after a report. *)

From S2P Require Import Prelude Opcodes.
Import ReaderBaseNS.

(** ** Error reports *)

Inductive MVER : Set :=
  | MVER_E_UNKNOWN_OPCODE | MVER_E_METHOD_END | MVER_E_BAD_BRANCH
  | MVER_E_CODE_SIZE_ZERO | MVER_E_ENDFINALLY | MVER_E_FALLTHRU
  | MVER_E_TAIL_RET.

#[export] Instance MVER_eq_dec : EqDecision MVER.
Proof. solve_decision. Defined.

Inductive report : Set :=
  | Silent
  | DbPrint (Message : string)
  | VerGlobalError (Message : MVER).

#[export] Instance report_eq_dec : EqDecision report.
Proof. solve_decision. Defined.

(** ** Reading operands *)

Definition readValue_u (n : nat) (buf : list Z) (cursor : Z) : option Z :=
  le_val <$> read_bytes buf cursor n.

Definition readValue_s (n : nat) (buf : list Z) (cursor : Z) : option Z :=
  swrap (8 * Z.of_nat n) <$> readValue_u n buf cursor.

(** Value and advanced cursor. *)
Definition readNumberOfSwitchCases (buf : list Z) (cursor : Z) : option (Z * Z) :=
  v ← readValue_u 4 buf cursor; Some (v, cursor + 4).

Definition readSwitchCase (buf : list Z) (cursor : Z) : option (Z * Z) :=
  v ← readValue_s 4 buf cursor; Some (v, cursor + 4).

(** Outcome of [parseILOpcode]: the returned offset, the two out parameters
    ([None] is the null operand pointer) and what was reported. *)
Record parsed := Parsed {
  p_next : Z;
  p_opcode : OPCODE;
  p_operand : option Z;
  p_report : report }.

Section Decode.

(** Operand sizes of opcode.def, indexed by opcode. *)
Context (OperandSizeMap : OPCODE -> Z).

(** The sum is computed in [size_t] and truncated to [uint32_t]. *)
Definition getMSILInstrLength (Opcode : OPCODE) (buf : list Z) (Operand : Z)
    : option Z :=
  if op_is Opcode CEE_SWITCH then
    '(NumCases, _) ← readNumberOfSwitchCases buf Operand;
    Some (u32 (4 + u64 (NumCases * 4)))
  else Some (u32 (OperandSizeMap Opcode)).

Definition parse_fail (HasReader ReportErrors : bool) (ILOffset ILSize : Z)
    (e : MVER) (msg : string) : parsed :=
  {| p_next := ILSize;
     p_opcode := if ReportErrors then CEE_ILLEGAL else CEE_NOP;
     p_operand := if ReportErrors then None else Some ILOffset;
     p_report :=
       if ReportErrors then
         (if HasReader then VerGlobalError e else DbPrint msg)
       else Silent |}.

(** The opcode bytes alone: opcode and cursor after them, [inr] for the
    underflow exit. *)
Definition parse_opcode_bytes (buf : list Z) (ILOffset ILSize : Z)
    : option ((OPCODE * Z) + unit) :=
  if ILSize <=? ILOffset then Some (inr ()) else
  ByteCode ← byte_at buf ILOffset;
  let ILCursor := u32 (ILOffset + 1) in
  if ByteCode =? 0xFE then
    if ILCursor =? ILSize then Some (inr ()) else
    ByteCode2 ← byte_at buf ILCursor;
    let ILCursor := u32 (ILCursor + 1) in
    TheOpcode ←
      (if ByteCode2 <=? Z.of_nat (length PrefixedByteCodes)
       then PrefixedByteCodes !! Z.to_nat ByteCode2
       else Some CEE_ILLEGAL);
    Some (inl (TheOpcode, ILCursor))
  else
    TheOpcode ← ByteCodes !! Z.to_nat ByteCode;
    Some (inl (TheOpcode, ILCursor)).

Definition parseILOpcode (buf : list Z) (ILOffset ILSize : Z)
    (HasReader ReportErrors : bool) : option parsed :=
  let fail := parse_fail HasReader ReportErrors ILOffset ILSize in
  let underflow := fail MVER_E_METHOD_END "parseILOpcode: Underflow" in
  r ← parse_opcode_bytes buf ILOffset ILSize;
  match r with
  | inr _ => Some underflow
  | inl (TheOpcode, ILCursor) =>
      if op_is TheOpcode CEE_ILLEGAL then
        Some (fail MVER_E_UNKNOWN_OPCODE "parseILOpcode: Bad Opcode")
      else if op_is TheOpcode CEE_SWITCH && (u32 (ILSize - ILCursor) <? 4) then
        Some underflow
      else
        Length ← getMSILInstrLength TheOpcode buf ILCursor;
        let Next := u32 (ILCursor + Length) in
        if ILSize <? Next then Some underflow
        else Some {| p_next := Next; p_opcode := TheOpcode;
                     p_operand := Some ILCursor; p_report := Silent |}
  end.

(** ** The debug printer *)

Inductive shown : Set :=
  | ShowNone
  | ShowInt (v : Z)
  | ShowFloatBits (v : Z)
  | ShowCases (cs : list Z).

(** One printed instruction: the address column, the next offset, the
    opcode and its operand. *)
Record msil_line := MsilLine {
  l_addr : Z; l_next : Z; l_opcode : OPCODE; l_shown : shown }.

Fixpoint readSwitchCases (n : nat) (buf : list Z) (cursor : Z) : option (list Z) :=
  match n with
  | O => Some []
  | S n' =>
      '(c, cursor') ← readSwitchCase buf cursor;
      cs ← readSwitchCases n' buf cursor';
      Some (c :: cs)
  end.

Definition printOperand (buf : list Z) (Opcode : OPCODE) (Offset : Z)
    (Operand : option Z) : option shown :=
  match Operand with
  | None => Some ShowNone
  | Some operand =>
      if op_is Opcode CEE_SWITCH then
        '(NumCases, cursor) ← readNumberOfSwitchCases buf operand;
        ShowCases <$> readSwitchCases (Z.to_nat NumCases) buf cursor
      else
        let OperandSize := Offset - operand in
        if OperandSize =? 1 then ShowInt <$> readValue_s 1 buf operand
        else if OperandSize =? 2 then ShowInt <$> readValue_s 2 buf operand
        else if OperandSize =? 4 then
          if op_is Opcode CEE_LDC_R4 then ShowFloatBits <$> readValue_u 4 buf operand
          else ShowInt <$> readValue_s 4 buf operand
        else if OperandSize =? 8 then
          if op_is Opcode CEE_LDC_R8 then ShowFloatBits <$> readValue_u 8 buf operand
          else ShowInt <$> readValue_s 8 buf operand
        else Some ShowNone
  end.

(** One iteration of the [while (Offset < NumBytes)] loop; the state is the
    offset and the lines printed so far (latest first), and the loop stops
    with [None] on an access outside a buffer. *)
Definition printMSIL_step (buf : list Z) (StartOffset NumBytes : Z)
    (s : Z * list msil_line) : (Z * list msil_line) + option (list msil_line) :=
  let '(Offset, out) := s in
  if Offset <? NumBytes then
    match parseILOpcode buf Offset NumBytes false true with
    | None => inr None
    | Some p =>
        match printOperand buf (p_opcode p) (p_next p) (p_operand p) with
        | None => inr None
        | Some sh =>
            inl (p_next p,
                 MsilLine (u32 (StartOffset + Offset)) (p_next p) (p_opcode p) sh
                 :: out)
        end
    end
  else inr (Some (rev out)).

(** [Offset] starts at [StartOffset] but is compared with [NumBytes]. *)
Definition printMSIL (fuel : nat) (buf : list Z) (StartOffset EndOffset : Z)
    : option (option (list msil_line)) :=
  if EndOffset <=? StartOffset then Some (Some [])
  else while_fuel fuel
         (printMSIL_step buf StartOffset (u32 (EndOffset - StartOffset)))
         (StartOffset, []).

End Decode.

(** ** Specification: where an instruction starts and ends *)

Inductive opcode_at (buf : list Z) (off : Z) : OPCODE -> Z -> Prop :=
  | opcode_short b op :
      byte_at buf off = Some b -> b <> 0xFE ->
      ByteCodes !! Z.to_nat b = Some op -> op <> CEE_ILLEGAL ->
      opcode_at buf off op (off + 1)
  | opcode_prefixed b op :
      byte_at buf off = Some 0xFE -> byte_at buf (off + 1) = Some b ->
      PrefixedByteCodes !! Z.to_nat b = Some op -> op <> CEE_ILLEGAL ->
      opcode_at buf off op (off + 2).

Section Spec.

Context (OperandSizeMap : OPCODE -> Z).

(** Operand length in unbounded integers. *)
Definition operand_length (op : OPCODE) (buf : list Z) (operand : Z) : option Z :=
  if op_is op CEE_SWITCH then (fun n => 4 + 4 * n) <$> readValue_u 4 buf operand
  else Some (OperandSizeMap op).

Inductive instr_at (buf : list Z) (off : Z) (op : OPCODE) (operand : Z) : Z -> Prop :=
  | instr_intro len :
      opcode_at buf off op operand ->
      operand_length op buf operand = Some len ->
      operand + len <= Z.of_nat (length buf) ->
      instr_at buf off op operand (operand + len).

(** What ophelper.def documents of the operand sizes: every kind but
    InlineSwitch is 0, 1, 2, 4 or 8 bytes. *)
Definition sizes_ok : Prop :=
  forall op, op <> CEE_SWITCH -> op <> CEE_ILLEGAL -> 0 <= OperandSizeMap op <= 8.

(** A buffer of bytes whose offsets, and those of the largest fixed-size
    operand past its end, fit 32 bits. *)
Definition il_ok (buf : list Z) : Prop :=
  Forall is_byte buf /\ Z.of_nat (length buf) + 16 < 2 ^ 32.

Context (Hsizes : sizes_ok).

Lemma opcode_at_range (buf : list Z) (off : Z) (op : OPCODE) (operand : Z) :
  opcode_at buf off op operand ->
  0 <= off < operand /\ operand <= Z.of_nat (length buf) /\ operand <= off + 2 /\
  op <> CEE_ILLEGAL.
Proof.
  intros [b o H1 _ _ H2|b o H1 H1' _ H2]; apply byte_at_Some_range in H1;
    try apply byte_at_Some_range in H1'; repeat split; try done; lia.
Qed.

Lemma opcode_at_deterministic (buf : list Z) (off : Z) op1 o1 op2 o2 :
  opcode_at buf off op1 o1 -> opcode_at buf off op2 o2 -> op1 = op2 /\ o1 = o2.
Proof. intros H1 H2. inversion H1; inversion H2; simplify_eq; auto. Qed.

Lemma switch_count_range (buf : list Z) (off n : Z) :
  Forall is_byte buf -> readValue_u 4 buf off = Some n -> 0 <= n < 2 ^ 32.
Proof.
  unfold readValue_u. intros Hb H.
  destruct (read_bytes buf off 4) as [bs|] eqn:E; simplify_eq/=.
  destruct (read_bytes_props buf 4 off bs Hb E) as [Hbs Hlen].
  pose proof (le_val_range bs Hbs) as Hr. rewrite Hlen in Hr. exact Hr.
Qed.

(** The opcode scanner computes [opcode_at]. *)
Lemma parse_opcode_bytes_complete (buf : list Z) (off : Z) (op : OPCODE) (operand : Z) :
  il_ok buf -> opcode_at buf off op operand ->
  parse_opcode_bytes buf off (Z.of_nat (length buf)) = Some (inl (op, operand)).
Proof.
  intros [Hb Hsz] H. unfold parse_opcode_bytes.
  destruct H as [b o H1 Hne Ht _|b o H1 H2 Ht _].
  - pose proof (byte_at_Some_range _ _ _ H1).
    destruct (Z.leb_spec (Z.of_nat (length buf)) off); [lia|].
    rewrite H1; simpl. destruct (Z.eqb_spec b 254); [done|].
    rewrite Ht; simpl. by unwrap.
  - pose proof (byte_at_Some_range _ _ _ H1). pose proof (byte_at_Some_range _ _ _ H2).
    pose proof (byte_at_is_byte _ _ _ Hb H2) as Hbb.
    destruct (Z.leb_spec (Z.of_nat (length buf)) off); [lia|].
    rewrite H1; simpl. unwrap.
    destruct (Z.eqb_spec (off + 1) (Z.of_nat (length buf))); [lia|].
    rewrite H2; simpl. pose proof (lookup_lt_Some _ _ _ Ht) as Hlt.
    change (length PrefixedByteCodes) with 33%nat in Hlt. unfold is_byte in Hbb.
    destruct (Z.leb_spec b (Z.of_nat 33)); [|lia].
    rewrite Ht; simpl. unwrap. by replace (off + 1 + 1) with (off + 2) by lia.
Qed.

(** A legal instruction decodes to itself, with nothing reported, whatever
    the reporting mode. *)
Lemma parse_complete (buf : list Z) (off : Z) (op : OPCODE) (operand next : Z) r e :
  il_ok buf -> instr_at buf off op operand next ->
  parseILOpcode OperandSizeMap buf off (Z.of_nat (length buf)) r e =
    Some (Parsed next op (Some operand) Silent).
Proof.
  intros Hok [len Hop Hlen Hle]. pose proof (opcode_at_range _ _ _ _ Hop) as (Ho & Hr & _ & Hni).
  unfold parseILOpcode. rewrite (parse_opcode_bytes_complete _ _ _ _ Hok Hop). simpl.
  apply op_is_false in Hni as Hni'. rewrite Hni'. destruct Hok as [Hb Hsz].
  unfold operand_length in Hlen. destruct (op_is op CEE_SWITCH) eqn:Es.
  - destruct (readValue_u 4 buf operand) as [n|] eqn:En; simplify_eq/=.
    pose proof (switch_count_range _ _ _ Hb En). unwrap.
    destruct (Z.ltb_spec (Z.of_nat (length buf) - operand) 4); [lia|]. simpl.
    unfold getMSILInstrLength. rewrite Es. unfold readNumberOfSwitchCases.
    rewrite En; simpl. unwrap.
    destruct (Z.ltb_spec (Z.of_nat (length buf)) (operand + (4 + n * 4))); [lia|].
    do 2 f_equal; lia.
  - simplify_eq. unfold getMSILInstrLength. rewrite Es; simpl.
    apply op_is_false in Es. pose proof (Hsizes op Es Hni). unwrap.
    destruct (Z.ltb_spec (Z.of_nat (length buf)) (operand + OperandSizeMap op)); [lia|done].
Qed.

(** Everything [parse_opcode_bytes] can answer at an in-range offset. *)
Lemma parse_opcode_bytes_sound (buf : list Z) (off : Z) res :
  il_ok buf -> 0 <= off ->
  parse_opcode_bytes buf off (Z.of_nat (length buf)) = Some res ->
  match res with
  | inl (op, operand) =>
      op = CEE_ILLEGAL \/ opcode_at buf off op operand
  | inr _ => off + 1 >= Z.of_nat (length buf)
  end.
Proof.
  intros [Hb Hsz] Hoff. unfold parse_opcode_bytes.
  destruct (Z.leb_spec (Z.of_nat (length buf)) off).
  { intros [= <-]. lia. }
  destruct (byte_at buf off) as [b|] eqn:E1; simpl; [|done].
  unwrap. destruct (Z.eqb_spec b 254) as [->|Hne].
  - destruct (Z.eqb_spec (off + 1) (Z.of_nat (length buf))).
    { intros [= <-]. lia. }
    destruct (byte_at buf (off + 1)) as [b2|] eqn:E2; simpl; [|done]. unwrap.
    destruct (b2 <=? Z.of_nat 33) eqn:E3; simpl; [|intros [= <-]; by left].
    destruct (PrefixedByteCodes !! Z.to_nat b2) as [op|] eqn:E4; simpl; [|done].
    intros [= <-]. destruct (decide (op = CEE_ILLEGAL)); [by left|]. right.
    replace (off + 1 + 1) with (off + 2) by lia. by eapply opcode_prefixed.
  - destruct (ByteCodes !! Z.to_nat b) as [op|] eqn:E4; simpl; [|done].
    intros [= <-]. destruct (decide (op = CEE_ILLEGAL)); [by left|]. right.
    by eapply opcode_short.
Qed.

(** The length of a switch that does not fit 32 bits. *)
Definition switch_wraps (buf : list Z) (operand : Z) : Prop :=
  exists n, readValue_u 4 buf operand = Some n /\ 2 ^ 32 <= operand + 4 + 4 * n.

(** Classification of every outcome: a failure exit, a legal instruction, or
    a switch whose length wrapped. *)
Inductive parse_spec (buf : list Z) (off : Z) (r e : bool) : parsed -> Prop :=
  | spec_fail err msg :
      parse_spec buf off r e (parse_fail r e off (Z.of_nat (length buf)) err msg)
  | spec_instr op operand next :
      instr_at buf off op operand next ->
      parse_spec buf off r e (Parsed next op (Some operand) Silent)
  | spec_wrapped operand n :
      opcode_at buf off CEE_SWITCH operand ->
      readValue_u 4 buf operand = Some n -> 2 ^ 32 <= operand + 4 + 4 * n ->
      u32 (operand + 4 + 4 * n) <= Z.of_nat (length buf) ->
      parse_spec buf off r e
        (Parsed (u32 (operand + 4 + 4 * n)) CEE_SWITCH (Some operand) Silent).

Lemma parse_classified (buf : list Z) (off : Z) r e p :
  il_ok buf -> 0 <= off ->
  parseILOpcode OperandSizeMap buf off (Z.of_nat (length buf)) r e = Some p ->
  parse_spec buf off r e p.
Proof.
  intros Hok Hoff. unfold parseILOpcode.
  destruct (parse_opcode_bytes buf off (Z.of_nat (length buf))) as [res|] eqn:Ep; simpl; [|done].
  pose proof (parse_opcode_bytes_sound _ _ _ Hok Hoff Ep) as Hs.
  destruct res as [[op operand]|]; [|intros [= <-]; apply spec_fail].
  destruct (op_is op CEE_ILLEGAL) eqn:Ei; [intros [= <-]; apply spec_fail|].
  apply op_is_false in Ei. destruct Hs as [?|Hat]; [done|].
  pose proof (opcode_at_range _ _ _ _ Hat) as (Ho & Hr & _ & _). destruct Hok as [Hb Hsz].
  destruct (op_is op CEE_SWITCH && _) eqn:Eu; [intros [= <-]; apply spec_fail|].
  unfold getMSILInstrLength. destruct (op_is op CEE_SWITCH) eqn:Es; simpl.
  - apply op_is_true in Es as ->. unfold readNumberOfSwitchCases.
    destruct (readValue_u 4 buf operand) as [n|] eqn:En; simpl; [|done].
    pose proof (switch_count_range _ _ _ Hb En).
    assert (Hu : u32 (operand + u32 (4 + u64 (n * 4))) = u32 (operand + 4 + 4 * n)).
    { unwrap. unfold u32, wrap. rewrite Zplus_mod_idemp_r. f_equal. lia. }
    rewrite Hu. destruct (Z.ltb_spec (Z.of_nat (length buf)) (u32 (operand + 4 + 4 * n)));
      intros [= <-]; [apply spec_fail|].
    destruct (decide (2 ^ 32 <= operand + 4 + 4 * n)); [by apply spec_wrapped|].
    unwrap. apply spec_instr. rewrite u32_small in * by lia.
    replace (operand + 4 + 4 * n) with (operand + (4 + 4 * n)) by lia.
    apply instr_intro; [done| |lia]. unfold operand_length. simpl. by rewrite En.
  - apply op_is_false in Es as Hns. pose proof (Hsizes op Hns Ei). unwrap.
    destruct (Z.ltb_spec (Z.of_nat (length buf)) (operand + OperandSizeMap op));
      intros [= <-]; [apply spec_fail|].
    apply spec_instr, instr_intro; [done| |lia]. unfold operand_length. by rewrite Es.
Qed.

Lemma instr_at_progress (buf : list Z) (off : Z) (op : OPCODE) (operand next : Z) :
  Forall is_byte buf -> instr_at buf off op operand next ->
  0 <= off < operand /\ operand <= next <= Z.of_nat (length buf).
Proof.
  intros Hb [len Hat Hl Hle]. pose proof (opcode_at_range _ _ _ _ Hat) as (? & ? & _ & Hni).
  unfold operand_length in Hl. destruct (op_is op CEE_SWITCH) eqn:Es.
  - destruct (readValue_u 4 buf operand) as [n|] eqn:En; simplify_eq/=.
    pose proof (switch_count_range _ _ _ Hb En). lia.
  - simplify_eq. apply op_is_false in Es. pose proof (Hsizes op Es Hni). lia.
Qed.

(** The parser stays inside the buffer and moves forward, except on a switch
    whose length wraps. *)
Lemma parse_progress (buf : list Z) (off : Z) r e p :
  il_ok buf -> 0 <= off < Z.of_nat (length buf) ->
  parseILOpcode OperandSizeMap buf off (Z.of_nat (length buf)) r e = Some p ->
  0 <= p_next p <= Z.of_nat (length buf) /\
  (off < p_next p \/
   exists operand, opcode_at buf off CEE_SWITCH operand /\ switch_wraps buf operand).
Proof.
  intros Hok Hoff Hp. pose proof (parse_classified buf off r e p Hok ltac:(lia) Hp) as Hs.
  destruct Hs as [err msg|op operand next Hi|operand n Hat En Hw Hle]; simpl.
  - split; [lia|left; lia].
  - pose proof (instr_at_progress _ _ _ _ _ (proj1 Hok) Hi). lia.
  - pose proof (u32_range (operand + 4 + 4 * n)). split; [lia|right].
    exists operand. split; [done|]. by exists n.
Qed.

End Spec.

(** ** A concrete size table, for evaluation (the kinds of ophelper.def as
    the ECMA-335 opcode list assigns them) *)
Definition ecma_operand_size (op : OPCODE) : Z :=
  match op with
  | CEE_LDARG_S | CEE_LDARGA_S | CEE_STARG_S | CEE_LDLOC_S | CEE_LDLOCA_S
  | CEE_STLOC_S | CEE_LDC_I4_S | CEE_BR_S | CEE_BRFALSE_S | CEE_BRTRUE_S
  | CEE_BEQ_S | CEE_BGE_S | CEE_BGT_S | CEE_BLE_S | CEE_BLT_S | CEE_BNE_UN_S
  | CEE_BGE_UN_S | CEE_BGT_UN_S | CEE_BLE_UN_S | CEE_BLT_UN_S | CEE_LEAVE_S
  | CEE_UNALIGNED => 1
  | CEE_LDARG | CEE_LDARGA | CEE_STARG | CEE_LDLOC | CEE_LDLOCA | CEE_STLOC => 2
  | CEE_LDC_I4 | CEE_LDC_R4 | CEE_JMP | CEE_CALL | CEE_CALLI | CEE_BR
  | CEE_BRFALSE | CEE_BRTRUE | CEE_BEQ | CEE_BGE | CEE_BGT | CEE_BLE | CEE_BLT
  | CEE_BNE_UN | CEE_BGE_UN | CEE_BGT_UN | CEE_BLE_UN | CEE_BLT_UN
  | CEE_CALLVIRT | CEE_CPOBJ | CEE_LDOBJ | CEE_LDSTR | CEE_NEWOBJ
  | CEE_CASTCLASS | CEE_ISINST | CEE_UNBOX | CEE_LDFLD | CEE_LDFLDA | CEE_STFLD
  | CEE_LDSFLD | CEE_LDSFLDA | CEE_STSFLD | CEE_STOBJ | CEE_BOX | CEE_NEWARR
  | CEE_LDELEMA | CEE_LDELEM | CEE_STELEM | CEE_UNBOX_ANY | CEE_REFANYVAL
  | CEE_MKREFANY | CEE_LDTOKEN | CEE_LEAVE | CEE_LDFTN | CEE_LDVIRTFTN
  | CEE_INITOBJ | CEE_CONSTRAINED | CEE_SIZEOF => 4
  | CEE_LDC_I8 | CEE_LDC_R8 => 8
  | CEE_SWITCH => -1
  | _ => 0
  end.

Lemma ecma_sizes_ok : sizes_ok ecma_operand_size.
Proof. intros [] H1 H2; simpl; try lia; congruence. Qed.

Lemma parse_opcode_bytes_oob (buf : list Z) (off : Z) :
  il_ok buf -> 0 <= off ->
  parse_opcode_bytes buf off (Z.of_nat (length buf)) = None <->
  byte_at buf off = Some 0xFE /\ byte_at buf (off + 1) = Some 33.
Proof.
  intros [Hb Hsz] Hoff. unfold parse_opcode_bytes.
  destruct (Z.leb_spec (Z.of_nat (length buf)) off).
  { split; [done|]. intros [H1%byte_at_Some_range _]. lia. }
  destruct (byte_at_in_range buf off ltac:(lia)) as [b E1]. rewrite E1; simpl.
  pose proof (byte_at_is_byte _ _ _ Hb E1) as Hr. unfold is_byte in Hr.
  unwrap. destruct (Z.eqb_spec b 254) as [->|Hne].
  - destruct (Z.eqb_spec (off + 1) (Z.of_nat (length buf))).
    { split; [done|]. intros [_ H1%byte_at_Some_range]. lia. }
    destruct (byte_at_in_range buf (off + 1) ltac:(lia)) as [b2 E2]. rewrite E2; simpl.
    pose proof (byte_at_is_byte _ _ _ Hb E2) as Hr2. unfold is_byte in Hr2.
    destruct (Z.leb_spec b2 (Z.of_nat 33)); simpl.
    2:{ split; [done|]. intros [_ [= ->]]. lia. }
    destruct (decide (b2 = 33)) as [->|]; [done|].
    destruct (PrefixedByteCodes !! Z.to_nat b2) as [o|] eqn:E3; simpl.
    { split; [done|]. intros [_ [= ->]]. done. }
    apply lookup_ge_None in E3. change (length PrefixedByteCodes) with 33%nat in E3. lia.
  - destruct (ByteCodes !! Z.to_nat b) as [o|] eqn:E3; simpl.
    { split; [done|]. intros [[= ->] _]. done. }
    apply lookup_ge_None in E3. change (length ByteCodes) with 256%nat in E3. lia.
Qed.

(** A whole method body as a sequence of instructions. *)
Record il_instr := ILInstr {
  i_off : Z; i_op : OPCODE; i_operand : Z; i_next : Z }.

Inductive il_seq (size_of : OPCODE -> Z) (buf : list Z) : Z -> list il_instr -> Prop :=
  | il_seq_end : il_seq size_of buf (Z.of_nat (length buf)) []
  | il_seq_cons off op operand next l :
      instr_at size_of buf off op operand next ->
      il_seq size_of buf next l ->
      il_seq size_of buf off (ILInstr off op operand next :: l).

(** What [printMSIL] shows of an instruction, its operand text aside. *)
Definition line_matches (i : il_instr) (ln : msil_line) : Prop :=
  l_addr ln = i_off i /\ l_next ln = i_next i /\ l_opcode ln = i_op i.

Section Scan.

Context (OperandSizeMap : OPCODE -> Z).
Context (Hsizes : sizes_ok OperandSizeMap).

Lemma readValue_in_range (buf : list Z) (n : nat) (off : Z) :
  0 <= off -> off + Z.of_nat n <= Z.of_nat (length buf) ->
  is_Some (readValue_u n buf off) /\ is_Some (readValue_s n buf off).
Proof.
  intros H1 H2. unfold readValue_s, readValue_u.
  destruct (read_bytes_in_range buf n off H1 H2) as [bs ->]. simpl. eauto.
Qed.

Lemma readSwitchCases_in_range (buf : list Z) (n : nat) (off : Z) :
  0 <= off -> off + 4 * Z.of_nat n <= Z.of_nat (length buf) ->
  is_Some (readSwitchCases n buf off).
Proof.
  revert off. induction n as [|n IH]; intros off H1 H2; simpl; [eauto|].
  unfold readSwitchCase.
  destruct (readValue_in_range buf 4 off H1 ltac:(lia)) as [_ [v ->]]. simpl.
  destruct (IH (off + 4) ltac:(lia) ltac:(lia)) as [cs ->]. simpl. eauto.
Qed.

Lemma printOperand_total (buf : list Z) (off : Z) op operand next :
  Forall is_byte buf -> instr_at OperandSizeMap buf off op operand next ->
  is_Some (printOperand buf op next (Some operand)).
Proof.
  intros Hb Hi. pose proof (instr_at_progress _ Hsizes _ _ _ _ _ Hb Hi).
  destruct Hi as [len Hat Hl Hle]. simpl. unfold operand_length in Hl.
  destruct (op_is op CEE_SWITCH).
  - unfold readNumberOfSwitchCases.
    destruct (readValue_u 4 buf operand) as [n|] eqn:En; simplify_eq/=.
    pose proof (switch_count_range _ _ _ Hb En).
    destruct (readSwitchCases_in_range buf (Z.to_nat n) (operand + 4)) as [cs ->];
      [lia..|]. eauto.
  - pose proof (fun k Hk => readValue_in_range buf k operand ltac:(lia) Hk) as Hrd.
    repeat match goal with
    | |- context [if ?z =? ?k then _ else _] => destruct (Z.eqb_spec z k)
    | |- context [if ?c then _ else _] => destruct c
    end; try (by eexists); apply fmap_is_Some; apply Hrd; lia.
Qed.

(** Run of the printing loop over an instruction sequence. *)
Lemma printMSIL_loop_seq (buf : list Z) (off : Z) (l : list il_instr)
    (out : list msil_line) :
  il_ok buf -> il_seq OperandSizeMap buf off l ->
  exists lines, Forall2 line_matches l lines /\
    while_fuel (S (length l))
      (printMSIL_step OperandSizeMap buf 0 (Z.of_nat (length buf))) (off, out) =
    Some (Some (rev out ++ lines)).
Proof.
  intros Hok Hseq. revert out. induction Hseq as [|off op operand next l Hi Hseq IH]; intros out.
  - exists []. split; [constructor|]. unfold printMSIL_step, while_fuel.
    rewrite Z.ltb_irrefl. by rewrite app_nil_r.
  - pose proof (instr_at_progress _ Hsizes _ _ _ _ _ (proj1 Hok) Hi).
    destruct (printOperand_total _ _ _ _ _ (proj1 Hok) Hi) as [sh Hsh].
    set (ln := MsilLine (u32 (0 + off)) next op sh).
    destruct (IH (ln :: out)) as (lines & Hm & Hrun).
    exists (ln :: lines). split.
    { constructor; [|done]. repeat split; simpl. destruct Hok. by unwrap. }
    cbn [length]. change (while_fuel (S (S (length l))) ?b ?s) with
      (match b s with inl s' => while_fuel (S (length l)) b s' | inr r => Some r end).
    unfold printMSIL_step at 1. destruct (Z.ltb_spec off (Z.of_nat (length buf))); [|lia].
    rewrite (parse_complete _ Hsizes _ _ _ _ _ false true Hok Hi).
    cbn [p_opcode p_next p_operand]. rewrite Hsh. fold ln. rewrite Hrun. simpl.
    by rewrite <- app_assoc.
Qed.

(** [no_wrap]: no switch of the body has a length that overflows. *)
Definition no_wrap (buf : list Z) : Prop :=
  forall off operand, opcode_at buf off CEE_SWITCH operand -> ~ switch_wraps buf operand.

Lemma printMSIL_step_progress (buf : list Z) start s s' :
  il_ok buf -> no_wrap buf ->
  0 <= fst s <= Z.of_nat (length buf) ->
  printMSIL_step OperandSizeMap buf start (Z.of_nat (length buf)) s = inl s' ->
  0 <= fst s' <= Z.of_nat (length buf) /\
  (Z.to_nat (Z.of_nat (length buf) - fst s') < Z.to_nat (Z.of_nat (length buf) - fst s))%nat.
Proof.
  intros Hok Hnw Hr. destruct s as [off out]. unfold printMSIL_step. simpl in *.
  destruct (Z.ltb_spec off (Z.of_nat (length buf))); [|done].
  destruct (parseILOpcode _ _ _ _ _ _) as [p|] eqn:Ep; [|done].
  destruct (printOperand _ _ _ _); [|done]. intros [= <-]; simpl.
  destruct (parse_progress _ Hsizes buf off false true p Hok ltac:(lia) Ep)
    as [? [?|(o & Ho & Hw)]]; [lia|]. by destruct (Hnw _ _ Ho).
Qed.

End Scan.

(** ** Properties of the decoder *)

(** C35: [parseILOpcode] implements the instruction format.  At every offset of
    a byte buffer, a legal instruction is returned with its opcode, its operand
    address and the offset just past it, and nothing is reported; conversely
    every outcome is a failure exit (offset = buffer size, the documented
    out parameters and report), a legal instruction, or a switch whose length
    computation wrapped around 32 bits. *)
Theorem parseILOpcode_correct (sizes : OPCODE -> Z) (buf : list Z) (off : Z) (r e : bool) :
  sizes_ok sizes -> il_ok buf -> 0 <= off ->
  (forall op operand next, instr_at sizes buf off op operand next ->
     parseILOpcode sizes buf off (Z.of_nat (length buf)) r e =
       Some (Parsed next op (Some operand) Silent)) /\
  (forall p, parseILOpcode sizes buf off (Z.of_nat (length buf)) r e = Some p ->
     parse_spec sizes buf off r e p).
Proof.
  intros Hs Hok Hoff. split; intros.
  - by apply parse_complete.
  - by apply parse_classified.
Qed.

Definition demo_il : list Z := [0x20; 1; 0; 0; 0; 0xFE; 0x01; 0x2A].

Lemma demo_il_ok : il_ok demo_il.
Proof. split; [|vm_compute; reflexivity]. decide_now. Qed.

Lemma parseILOpcode_correct_witness :
  parseILOpcode ecma_operand_size demo_il 5 8 true true =
    Some (Parsed 7 CEE_CEQ (Some 7) Silent).
Proof.
  apply (parseILOpcode_correct ecma_operand_size demo_il 5 true true
           ecma_sizes_ok demo_il_ok ltac:(lia)).
  apply (instr_intro ecma_operand_size demo_il 5 CEE_CEQ 7 0); [|reflexivity|vm_compute; discriminate].
  by apply (opcode_prefixed demo_il 5 1).
Defined.

(** C36: reading past [PrefixedByteCodes] happens exactly on the prefix byte
    0xFE followed by 33, the byte that the bounds check `<=` lets through. *)
Theorem parseILOpcode_oob_iff (sizes : OPCODE -> Z) (buf : list Z) (off : Z) (r e : bool) :
  il_ok buf -> 0 <= off ->
  parseILOpcode sizes buf off (Z.of_nat (length buf)) r e = None <->
  byte_at buf off = Some 0xFE /\ byte_at buf (off + 1) = Some 33.
Proof.
  intros Hok Hoff. rewrite <- (parse_opcode_bytes_oob buf off Hok Hoff). unfold parseILOpcode.
  destruct (parse_opcode_bytes buf off _) as [res|] eqn:Ep; simpl; [|done].
  split; [|done]. pose proof (parse_opcode_bytes_sound _ _ _ Hok Hoff Ep) as Hsnd.
  destruct res as [[op operand]|]; [|done].
  destruct (op_is op CEE_ILLEGAL) eqn:Ei; [done|]. apply op_is_false in Ei.
  destruct Hsnd as [?|Hat]; [done|]. apply opcode_at_range in Hat as (? & ? & _ & _).
  destruct (op_is op CEE_SWITCH && _) eqn:Eu; [done|].
  unfold getMSILInstrLength. destruct (op_is op CEE_SWITCH) eqn:Es; simpl in *.
  - destruct Hok as [Hb Hsz]. revert Eu. unwrap. intros Eu. zbool.
    unfold readNumberOfSwitchCases.
    destruct (readValue_in_range buf 4 operand ltac:(lia) ltac:(lia)) as [[n ->] _].
    simpl. by case_goal.
  - by case_goal.
Qed.

Lemma parseILOpcode_oob_iff_witness :
  parseILOpcode ecma_operand_size [0xFE; 33] 0 2 true true = None.
Proof.
  apply (parseILOpcode_oob_iff ecma_operand_size [0xFE; 33] 0 true true); [|lia|done].
  split; [|vm_compute; reflexivity]. decide_now.
Defined.

(** A switch whose length overflows 32 bits is accepted silently as long
    as the wrapped end lies inside the buffer, although its case table does
    not: the returned offset is smaller than the real end by a multiple of
    2^32. *)
Theorem parseILOpcode_accepts_wrapped_switch (sizes : OPCODE -> Z) (buf : list Z)
    (off operand n : Z) (r e : bool) :
  il_ok buf -> opcode_at buf off CEE_SWITCH operand ->
  readValue_u 4 buf operand = Some n -> 2 ^ 32 <= operand + 4 + 4 * n ->
  u32 (operand + 4 + 4 * n) <= Z.of_nat (length buf) ->
  parseILOpcode sizes buf off (Z.of_nat (length buf)) r e =
    Some (Parsed (u32 (operand + 4 + 4 * n)) CEE_SWITCH (Some operand) Silent) /\
  Z.of_nat (length buf) < operand + 4 + 4 * n.
Proof.
  intros Hok Hat En Hw Hle. pose proof (opcode_at_range _ _ _ _ Hat) as (? & ? & _ & _).
  unfold parseILOpcode. rewrite (parse_opcode_bytes_complete _ _ _ _ Hok Hat). simpl.
  destruct Hok as [Hb Hsz]. unwrap.
  assert (Hroom : operand + 4 <= Z.of_nat (length buf)).
  { unfold readValue_u in En.
    destruct (read_bytes buf operand 4) as [bs|] eqn:Er; [|done]. simpl in Er. clear En.
    destruct (byte_at buf operand) as [b0|]; [|done].
    destruct (byte_at buf (operand + 1)) as [b1|]; [|done].
    destruct (byte_at buf (operand + 1 + 1)) as [b2|]; [|done].
    destruct (byte_at buf (operand + 1 + 1 + 1)) as [b3|] eqn:E3; [|done].
    apply byte_at_Some_range in E3. lia. }
  destruct (Z.ltb_spec (Z.of_nat (length buf) - operand) 4); [lia|].
  unfold getMSILInstrLength, readNumberOfSwitchCases. simpl. rewrite En. simpl.
  pose proof (switch_count_range _ _ _ Hb En).
  assert (Hu : u32 (operand + u32 (4 + u64 (n * 4))) = u32 (operand + 4 + 4 * n)).
  { unwrap. unfold u32, wrap. rewrite Zplus_mod_idemp_r. f_equal. lia. }
  rewrite Hu. destruct (Z.ltb_spec (Z.of_nat (length buf)) (u32 (operand + 4 + 4 * n))); [lia|].
  split; [done|lia].
Qed.

(** nop; nop; nop; switch with 0x3FFFFFFE cases: the next offset is 0. *)
Definition backward_switch : list Z := [0; 0; 0; 0x45; 0xFE; 0xFF; 0xFF; 0x3F].

Lemma parseILOpcode_accepts_wrapped_switch_witness :
  parseILOpcode ecma_operand_size backward_switch 3 8 true true =
    Some (Parsed 0 CEE_SWITCH (Some 4) Silent) /\ 8 < 4 + 4 + 4 * 0x3FFFFFFE.
Proof.
  apply (parseILOpcode_accepts_wrapped_switch ecma_operand_size backward_switch 3 4 0x3FFFFFFE).
  - split; [|vm_compute; reflexivity]. decide_now.
  - by apply (opcode_short backward_switch 3 0x45).
  - vm_compute. reflexivity.
  - lia.
  - vm_compute. discriminate.
Defined.

(** On a well-formed body, [printMSIL] stops and prints exactly its
    instructions in order, each with its offset, its opcode and the offset of
    the next one. *)
Theorem printMSIL_correct (sizes : OPCODE -> Z) (buf : list Z) (l : list il_instr) :
  sizes_ok sizes -> il_ok buf -> il_seq sizes buf 0 l ->
  exists lines, Forall2 line_matches l lines /\
    forall fuel, (S (length l) <= fuel)%nat ->
      printMSIL sizes fuel buf 0 (Z.of_nat (length buf)) = Some (Some lines).
Proof.
  intros Hs Hok Hseq. destruct (printMSIL_loop_seq sizes Hs buf 0 l [] Hok Hseq) as (lines & Hm & Hrun).
  exists lines. split; [done|]. intros fuel Hf. unfold printMSIL.
  destruct (Z.leb_spec (Z.of_nat (length buf)) 0) as [Hz|Hz].
  - assert (l = []) as ->.
    { inversion Hseq as [|off op operand next l' Hi]; [done|]. subst.
      pose proof (instr_at_progress _ Hs _ _ _ _ _ (proj1 Hok) Hi). lia. }
    by inversion Hm.
  - destruct Hok. unwrap. rewrite Z.sub_0_r. eapply while_fuel_mono; [exact Hrun|done].
Qed.

Lemma demo_il_seq :
  il_seq ecma_operand_size demo_il 0
    [ILInstr 0 CEE_LDC_I4 1 5; ILInstr 5 CEE_CEQ 7 7; ILInstr 7 CEE_RET 8 8].
Proof.
  constructor.
  { apply (instr_intro _ demo_il 0 CEE_LDC_I4 1 4); [|done|vm_compute; discriminate].
    by apply (opcode_short demo_il 0 0x20). }
  constructor.
  { apply (instr_intro _ demo_il 5 CEE_CEQ 7 0); [|done|vm_compute; discriminate].
    by apply (opcode_prefixed demo_il 5 1). }
  constructor.
  { apply (instr_intro _ demo_il 7 CEE_RET 8 0); [|done|vm_compute; discriminate].
    by apply (opcode_short demo_il 7 0x2A). }
  apply (il_seq_end _ demo_il).
Qed.

Lemma printMSIL_correct_witness :
  exists lines, Forall2 line_matches
    [ILInstr 0 CEE_LDC_I4 1 5; ILInstr 5 CEE_CEQ 7 7; ILInstr 7 CEE_RET 8 8] lines /\
    forall fuel, (4 <= fuel)%nat ->
      printMSIL ecma_operand_size fuel demo_il 0 8 = Some (Some lines).
Proof.
  exact (printMSIL_correct ecma_operand_size demo_il _ ecma_sizes_ok demo_il_ok demo_il_seq).
Defined.

(** Whatever the bytes, the printing loop stops within one iteration per
    byte unless some switch length wraps. *)
Theorem printMSIL_terminates (sizes : OPCODE -> Z) (buf : list Z) :
  sizes_ok sizes -> il_ok buf -> no_wrap buf ->
  is_Some (printMSIL sizes (S (length buf)) buf 0 (Z.of_nat (length buf))).
Proof.
  intros Hs Hok Hnw. unfold printMSIL.
  destruct (Z.leb_spec (Z.of_nat (length buf)) 0); [eauto|]. pose proof Hok as [_ ?]. unwrap.
  rewrite Z.sub_0_r.
  apply (while_fuel_total _ (fun s => 0 <= fst s <= Z.of_nat (length buf))
           (fun s => Z.to_nat (Z.of_nat (length buf) - fst s))); simpl; [|lia..].
  intros s s' HI Hstep. by eapply (printMSIL_step_progress sizes Hs).
Qed.

Lemma no_wrap_small (buf : list Z) :
  forallb (fun b => negb (b =? 0x45)) buf = true -> no_wrap buf.
Proof.
  intros H off operand Hat _. rewrite forallb_forall in H.
  inversion Hat as [b o H1 _ H2 _|b o _ _ H2 _]; subst.
  - assert (b <> 0x45) as Hb.
    { intros ->. unfold byte_at in H1. destruct (off <? 0); [done|].
      apply list_elem_of_lookup_2, list_elem_of_In, H in H1. done. }
    unfold byte_at in H1. destruct (off <? 0); [done|].
    assert (Z.to_nat b = 69%nat); [|lia].
    apply lookup_lt_Some in H2 as Hlt. change (length ByteCodes) with 256%nat in Hlt.
    assert (Forall (fun n => n = 69%nat \/ ByteCodes !! n <> Some CEE_SWITCH) (seq 0 256)) as Hall.
    { decide_now. }
    rewrite Forall_seq in Hall. destruct (Hall (Z.to_nat b)); [lia|done|done].
  - apply list_elem_of_lookup_2 in H2. revert H2.
    refute_now.
Qed.

Lemma printMSIL_terminates_witness :
  is_Some (printMSIL ecma_operand_size 9 demo_il 0 8).
Proof.
  apply (printMSIL_terminates ecma_operand_size demo_il ecma_sizes_ok demo_il_ok).
  apply no_wrap_small. vm_compute. reflexivity.
Defined.
