(* ===== verification/BitVector.v ===== *)
(** * ReaderBitVector and its clients (lib/Reader/reader.cpp)

    The packed bit vector, the custom sequence points kept in one and
    [isOffsetInstrStart].  An access outside the byte array is [None]. *)

From S2P Require Import Prelude Opcodes.
Import ReaderBaseNS.

(** The backing storage; [NumBits] is the debug-only size the assertions
    compare with. *)
Record ReaderBitVector := BV { bv_elems : list Z; NumBits : Z }.

Definition ElementSize : Z := 8.

Definition allocateBitVector (Size : Z) : ReaderBitVector :=
  let Length := u32 (Size + ElementSize - 1) / ElementSize in
  BV (replicate (Z.to_nat Length) 0) Size.

Definition bit_mask (BitNum : Z) : Z := u8 (Z.shiftl 1 (BitNum mod ElementSize)).

Definition setBit (v : ReaderBitVector) (BitNum : Z) : option ReaderBitVector :=
  let Elem := BitNum / ElementSize in
  e ← byte_at (bv_elems v) Elem;
  Some (BV (<[Z.to_nat Elem := u8 (Z.lor e (bit_mask BitNum))]> (bv_elems v)) (NumBits v)).

Definition getBit (v : ReaderBitVector) (BitNum : Z) : option bool :=
  let Elem := BitNum / ElementSize in
  e ← byte_at (bv_elems v) Elem;
  Some (negb (Z.land e (bit_mask BitNum) =? 0)).

Definition clrBit (v : ReaderBitVector) (BitNum : Z) : option ReaderBitVector :=
  let Elem := BitNum / ElementSize in
  e ← byte_at (bv_elems v) Elem;
  Some (BV (<[Z.to_nat Elem := u8 (Z.land e (Z.lnot (bit_mask BitNum)))]> (bv_elems v))
           (NumBits v)).

(** [isOffsetInstrStart]: [&&] reads the vector only for in-range offsets. *)
Definition isOffsetInstrStart (ILCodeSize : Z) (LegalTargetOffsets : ReaderBitVector)
    (TargetOffset : Z) : option bool :=
  if TargetOffset <? ILCodeSize then getBit LegalTargetOffsets TargetOffset
  else Some false.

(** [getCustomSequencePoints]: the runtime's offsets, out-of-range ones
    ignored. *)
Definition setCustomPoint (Size : Z) (v : option ReaderBitVector) (off : Z)
    : option ReaderBitVector :=
  v ← v; if off <? Size then setBit v off else Some v.

Definition getCustomSequencePoints (ILCodeSize : Z) (ILOffsets : list Z)
    : option ReaderBitVector :=
  foldl (setCustomPoint ILCodeSize) (Some (allocateBitVector ILCodeSize)) ILOffsets.

Section SequencePoint.

(** ICorDebugInfo::SourceTypes, a CoreCLR enumeration. *)
Context (SOURCE_TYPE_INVALID STACK_EMPTY CALL_SITE SEQUENCE_POINT : Z).

(** [sequencePoint]: the source type reported to the client, if any. *)
Definition sequencePoint (StackEmpty : bool) (CustomSequencePoints : ReaderBitVector)
    (Offset : Z) (PrevOp : OPCODE) : option (option Z) :=
  let '(TypeFlags, GenSeqPoint) :=
    if StackEmpty then (Z.lor SOURCE_TYPE_INVALID STACK_EMPTY, true)
    else (SOURCE_TYPE_INVALID, false) in
  let '(TypeFlags, GenSeqPoint) :=
    match PrevOp with
    | CEE_NOP => (TypeFlags, true)
    | CEE_CALL | CEE_CALLI | CEE_CALLVIRT | CEE_JMP | CEE_NEWOBJ =>
        (Z.lor TypeFlags CALL_SITE, true)
    | _ => (TypeFlags, GenSeqPoint)
    end in
  b ← getBit CustomSequencePoints Offset;
  let '(TypeFlags, GenSeqPoint) :=
    if (b : bool) then (Z.lor TypeFlags SEQUENCE_POINT, true)
    else (TypeFlags, GenSeqPoint) in
  Some (if (GenSeqPoint : bool) then Some TypeFlags else None).

End SequencePoint.

(** ** Lemmas *)

(** A vector of [Size] bits: bytes only, and room for every bit. *)
Definition bv_ok (v : ReaderBitVector) : Prop :=
  Forall is_byte (bv_elems v) /\ NumBits v <= 8 * Z.of_nat (length (bv_elems v)).

Lemma bit_mask_pow (n : Z) : 0 <= n -> bit_mask n = 2 ^ (n mod 8).
Proof.
  intros Hn. unfold bit_mask, ElementSize. pose proof (Z.mod_pos_bound n 8 ltac:(lia)).
  rewrite Z.shiftl_1_l. apply u8_small. split; [apply Z.pow_nonneg; lia|].
  change 256 with (2 ^ 8). apply Z.pow_lt_mono_r; lia.
Qed.

Lemma land_mask_testbit (e n : Z) :
  0 <= n -> negb (Z.land e (bit_mask n) =? 0) = Z.testbit e (n mod 8).
Proof.
  intros Hn. rewrite bit_mask_pow by done. pose proof (Z.mod_pos_bound n 8 ltac:(lia)).
  set (k := n mod 8) in *. destruct (Z.eqb_spec (Z.land e (2 ^ k)) 0) as [H0|H0]; simpl.
  - symmetry. apply (f_equal (fun z => Z.testbit z k)) in H0.
    rewrite Z.land_spec, Z.pow2_bits_true, andb_true_r, Z.bits_0 in H0 by lia. done.
  - destruct (Z.testbit e k) eqn:E; [done|]. destruct H0. apply Z.bits_inj'. intros i Hi.
    rewrite Z.land_spec, Z.bits_0, Z.pow2_bits_eqb by lia.
    destruct (Z.eqb_spec k i) as [<-|]; [by rewrite E|apply andb_false_r].
Qed.

Lemma getBit_testbit (v : ReaderBitVector) (n : Z) :
  0 <= n -> getBit v n = (fun e => Z.testbit e (n mod 8)) <$> byte_at (bv_elems v) (n / 8).
Proof.
  intros Hn. unfold getBit, ElementSize. destruct (byte_at _ _); simpl; [|done].
  by rewrite land_mask_testbit.
Qed.

Lemma testbit_u8 (x k : Z) : 0 <= k < 8 -> Z.testbit (u8 x) k = Z.testbit x k.
Proof. intros H. unfold u8, wrap. by rewrite Z.mod_pow2_bits_low by lia. Qed.

Lemma byte_at_insert (l : list Z) (i j x : Z) :
  0 <= i < Z.of_nat (length l) ->
  byte_at (<[Z.to_nat i := x]> l) j = if decide (i = j) then Some x else byte_at l j.
Proof.
  intros Hi. unfold byte_at. destruct (Z.ltb_spec j 0).
  - case_decide; [lia|done].
  - case_decide as Hd.
    + subst. apply list_lookup_insert_eq. lia.
    + apply list_lookup_insert_ne. lia.
Qed.

Lemma bv_in_range (v : ReaderBitVector) (n : Z) :
  bv_ok v -> 0 <= n < NumBits v -> 0 <= n / 8 < Z.of_nat (length (bv_elems v)).
Proof. intros [_ H] Hn. split; [apply Z.div_pos; lia|apply Z.div_lt_upper_bound; lia]. Qed.

Lemma same_bit (n m : Z) : n / 8 = m / 8 -> n mod 8 = m mod 8 -> n = m.
Proof. intros H1 H2. rewrite (Z.div_mod n 8), (Z.div_mod m 8) by lia. congruence. Qed.

(** Updating one bit, for [setBit] and [clrBit] alike. *)
Lemma update_bit_spec (v : ReaderBitVector) (n : Z) (f : Z -> Z) (b : bool) :
  bv_ok v -> 0 <= n < NumBits v ->
  (forall e k, 0 <= k < 8 ->
     Z.testbit (f e) k = if decide (k = n mod 8) then b else Z.testbit e k) ->
  exists e, byte_at (bv_elems v) (n / 8) = Some e /\
    let v' := BV (<[Z.to_nat (n / 8) := u8 (f e)]> (bv_elems v)) (NumBits v) in
    bv_ok v' /\
    forall m, 0 <= m < NumBits v ->
      getBit v' m = if decide (m = n) then Some b else getBit v m.
Proof.
  intros Hok Hn Hf. pose proof (bv_in_range v n Hok Hn) as Hr.
  destruct (byte_at_in_range (bv_elems v) (n / 8) Hr) as [e He]. exists e. split; [done|].
  simpl. split.
  - destruct Hok as [Hb Hl]. split; simpl; [|by rewrite length_insert].
    apply Forall_insert; [done|]. unfold is_byte. apply u8_range.
  - intros m Hm. rewrite !getBit_testbit by lia. simpl. rewrite byte_at_insert by done.
    pose proof (Z.mod_pos_bound m 8 ltac:(lia)). case_decide as Hd; simpl.
    + rewrite testbit_u8, Hf by lia. rewrite <- Hd, He. simpl.
      do 2 case_decide; subst; try done.
      destruct H1. apply same_bit; congruence.
    + case_decide; [by subst|done].
Qed.

Lemma setBit_spec (v : ReaderBitVector) (n : Z) :
  bv_ok v -> 0 <= n < NumBits v ->
  exists v', setBit v n = Some v' /\ bv_ok v' /\ NumBits v' = NumBits v /\
    forall m, 0 <= m < NumBits v ->
      getBit v' m = if decide (m = n) then Some true else getBit v m.
Proof.
  intros Hok Hn.
  destruct (update_bit_spec v n (fun e => Z.lor e (bit_mask n)) true Hok Hn) as (e & He & Hs).
  { intros e k Hk. rewrite Z.lor_spec, bit_mask_pow by lia.
    pose proof (Z.mod_pos_bound n 8 ltac:(lia)). rewrite Z.pow2_bits_eqb by lia.
    destruct (Z.eqb_spec (n mod 8) k); case_decide; try lia; simpl;
      first [apply orb_true_r|apply orb_false_r]. }
  eexists. unfold setBit, ElementSize. rewrite He. simpl. split; [done|].
  destruct Hs as [? ?]. by split_and!.
Qed.

Lemma clrBit_spec (v : ReaderBitVector) (n : Z) :
  bv_ok v -> 0 <= n < NumBits v ->
  exists v', clrBit v n = Some v' /\ bv_ok v' /\ NumBits v' = NumBits v /\
    forall m, 0 <= m < NumBits v ->
      getBit v' m = if decide (m = n) then Some false else getBit v m.
Proof.
  intros Hok Hn.
  destruct (update_bit_spec v n (fun e => Z.land e (Z.lnot (bit_mask n))) false Hok Hn)
    as (e & He & Hs).
  { intros e k Hk. rewrite Z.land_spec, Z.lnot_spec, bit_mask_pow by lia.
    pose proof (Z.mod_pos_bound n 8 ltac:(lia)). rewrite Z.pow2_bits_eqb by lia.
    destruct (Z.eqb_spec (n mod 8) k); case_decide; try lia; simpl;
      first [apply andb_false_r|apply andb_true_r]. }
  eexists. unfold clrBit, ElementSize. rewrite He. simpl. split; [done|].
  destruct Hs as [? ?]. by split_and!.
Qed.

Lemma allocateBitVector_spec (Size : Z) :
  0 <= Size -> Size + 7 < 2 ^ 32 ->
  bv_ok (allocateBitVector Size) /\
  forall n, 0 <= n < Size -> getBit (allocateBitVector Size) n = Some false.
Proof.
  intros H0 H1.
  assert (Hok : bv_ok (allocateBitVector Size)).
  { unfold allocateBitVector, ElementSize. split; simpl.
    - apply Forall_replicate. unfold is_byte. lia.
    - rewrite length_replicate. unwrap.
      pose proof (Z.div_mod (Size + 8 - 1) 8 ltac:(lia)).
      pose proof (Z.mod_pos_bound (Size + 8 - 1) 8 ltac:(lia)). lia. }
  split; [done|]. intros n Hn. rewrite getBit_testbit by lia.
  pose proof (bv_in_range (allocateBitVector Size) n Hok Hn) as Hr. simpl in *.
  unfold byte_at. destruct (Z.ltb_spec (n / 8) 0); [lia|].
  rewrite length_replicate in Hr. rewrite lookup_replicate_2 by lia. simpl.
  by rewrite Z.bits_0.
Qed.

Lemma custom_points_fold (Size : Z) (offs : list Z) (v : ReaderBitVector) :
  bv_ok v -> NumBits v = Size -> Forall (fun o => 0 <= o) offs ->
  exists v', foldl (setCustomPoint Size) (Some v) offs = Some v' /\ bv_ok v' /\
    NumBits v' = Size /\
    forall n, 0 <= n < Size ->
      getBit v' n = if decide (n ∈ offs) then Some true else getBit v n.
Proof.
  revert v. induction offs as [|o offs IH]; intros v Hok HN Hpos.
  { exists v. split_and!; [done..|]. intros n _.
    case_decide as H; [by apply elem_of_nil in H|done]. }
  apply Forall_cons in Hpos as [Ho Hpos]. simpl. destruct (Z.ltb_spec o Size) as [Hlt|Hge].
  - destruct (setBit_spec v o Hok ltac:(lia)) as (v1 & -> & Hok1 & HN1 & Hget).
    destruct (IH v1 Hok1 ltac:(lia) Hpos) as (v' & Hf & Hok' & HN' & Hg').
    exists v'. split_and!; [done..|]. intros n Hn.
    rewrite Hg', Hget by lia. repeat case_decide; rewrite elem_of_cons in *; tauto.
  - destruct (IH v Hok HN Hpos) as (v' & Hf & Hok' & HN' & Hg').
    exists v'. split_and!; [done..|]. intros n Hn.
    rewrite Hg' by lia. assert (n <> o) by lia.
    repeat case_decide; rewrite elem_of_cons in *; tauto.
Qed.

(** ** Properties *)

(** The bit vector is a set of bit numbers: after [setBit]/[clrBit] of an
    in-range bit, [getBit] answers true/false for that bit and is unchanged for
    every other bit; a fresh vector answers false everywhere. *)
Theorem ReaderBitVector_is_a_set (v : ReaderBitVector) (n : Z) :
  bv_ok v -> 0 <= n < NumBits v ->
  (exists v', setBit v n = Some v' /\ bv_ok v' /\ NumBits v' = NumBits v /\
     forall m, 0 <= m < NumBits v ->
       getBit v' m = if decide (m = n) then Some true else getBit v m) /\
  (exists v', clrBit v n = Some v' /\ bv_ok v' /\ NumBits v' = NumBits v /\
     forall m, 0 <= m < NumBits v ->
       getBit v' m = if decide (m = n) then Some false else getBit v m) /\
  (NumBits v + 7 < 2 ^ 32 ->
     bv_ok (allocateBitVector (NumBits v)) /\
     getBit (allocateBitVector (NumBits v)) n = Some false).
Proof.
  intros Hok Hn. split; [by apply setBit_spec|]. split; [by apply clrBit_spec|].
  intros Hs. destruct (allocateBitVector_spec (NumBits v) ltac:(lia) Hs) as [Ha Hg]. auto.
Qed.

Lemma ReaderBitVector_is_a_set_witness :
  exists v', setBit (BV [0; 5] 16) 9 = Some v' /\ getBit v' 9 = Some true /\
             getBit v' 8 = Some true /\ getBit v' 3 = Some false.
Proof.
  assert (Hok : bv_ok (BV [0; 5] 16)).
  { split; [decide_now|vm_compute; discriminate]. }
  destruct (ReaderBitVector_is_a_set (BV [0; 5] 16) 9 Hok ltac:(simpl; lia))
    as ((v' & Hs & _ & _ & Hg) & _).
  exists v'. split; [exact Hs|]. simpl in Hg.
  rewrite !Hg by lia. repeat split; reflexivity.
Defined.

(** [getCustomSequencePoints] never touches memory outside the vector,
    whatever offsets the runtime passes, and afterwards an in-range offset is a
    custom sequence point exactly when the runtime listed it. *)
Theorem getCustomSequencePoints_correct (ILCodeSize : Z) (ILOffsets : list Z) :
  0 <= ILCodeSize -> ILCodeSize + 7 < 2 ^ 32 -> Forall (fun o => 0 <= o) ILOffsets ->
  exists v, getCustomSequencePoints ILCodeSize ILOffsets = Some v /\
    forall n, 0 <= n < ILCodeSize ->
      getBit v n = Some (bool_decide (n ∈ ILOffsets)).
Proof.
  intros H0 H1 Hp. destruct (allocateBitVector_spec ILCodeSize H0 H1) as [Hok Hfalse].
  destruct (custom_points_fold ILCodeSize ILOffsets _ Hok eq_refl Hp) as (v & Hf & _ & _ & Hg).
  exists v. split; [exact Hf|]. intros n Hn. rewrite Hg by done.
  case_decide; case_bool_decide; try done. by apply Hfalse.
Qed.

Lemma getCustomSequencePoints_correct_witness :
  exists v, getCustomSequencePoints 20 [3; 99; 17] = Some v /\
    getBit v 17 = Some true /\ getBit v 4 = Some false.
Proof.
  destruct (getCustomSequencePoints_correct 20 [3; 99; 17] ltac:(lia) ltac:(lia))
    as (v & Hv & Hg); [decide_now|].
  exists v. split; [exact Hv|]. rewrite !Hg by lia. split; reflexivity.
Defined.
