(* ===== verification/Regions.v ===== *)
(** * The exception-region tree (lib/Reader/reader.cpp, readerir.cpp)

    [EHRegion] objects live in an arena (the procedure memory they are
    allocated from); a pointer is an index, a null pointer or an index past
    the end is [None], and a region list cell chain is a list of indices.
    The functions that walk the tree take fuel; the theorems show that the
    number of regions is enough. *)

From S2P Require Import Prelude.

(** ** Data *)

Inductive RegionKind : Set :=
  | RGN_Root | RGN_Try | RGN_Fault | RGN_Finally | RGN_Filter
  | RGN_MExcept | RGN_MCatch.

#[export] Instance RegionKind_eq_dec : EqDecision RegionKind.
Proof. solve_decision. Defined.

(** The union at the end of [EHRegion], by the field last written. *)
Inductive RegionUnion : Set :=
  | UZero
  | UEntryRegion (r : nat)
  | UCatchClassToken (t : Z)
  | UHandlerRegion (r : nat).

Record EHRegion := Rgn {
  Parent : option nat;
  Children : list nat;
  StartMsilOffset : Z;
  EndMsilOffset : Z;
  Extra : RegionUnion;
  Kind : RegionKind }.

Abbreviation arena := (list EHRegion).

(** The fields of CoreCLR's clause structure that the reader uses. *)
Record CORINFO_EH_CLAUSE := Clause {
  Flags : Z;
  TryOffset : Z; TryLength : Z;
  HandlerOffset : Z; HandlerLength : Z;
  ClassToken : Z; FilterOffset : Z }.

#[export] Instance CORINFO_EH_CLAUSE_eq_dec : EqDecision CORINFO_EH_CLAUSE.
Proof. solve_decision. Defined.

(** ** Accessors *)

Definition set_Children (l : list nat) (R : EHRegion) : EHRegion :=
  Rgn (Parent R) l (StartMsilOffset R) (EndMsilOffset R) (Extra R) (Kind R).
Definition set_Start (o : Z) (R : EHRegion) : EHRegion :=
  Rgn (Parent R) (Children R) o (EndMsilOffset R) (Extra R) (Kind R).
Definition set_End (o : Z) (R : EHRegion) : EHRegion :=
  Rgn (Parent R) (Children R) (StartMsilOffset R) o (Extra R) (Kind R).
Definition set_Extra (u : RegionUnion) (R : EHRegion) : EHRegion :=
  Rgn (Parent R) (Children R) (StartMsilOffset R) (EndMsilOffset R) u (Kind R).

Definition rgnGetStartMSILOffset (s : arena) (r : nat) : option Z :=
  StartMsilOffset <$> s !! r.
Definition rgnGetEndMSILOffset (s : arena) (r : nat) : option Z :=
  EndMsilOffset <$> s !! r.
Definition rgnSetStartMSILOffset (s : arena) (r : nat) (o : Z) : arena :=
  alter (set_Start o) r s.
Definition rgnSetEndMSILOffset (s : arena) (r : nat) (o : Z) : arena :=
  alter (set_End o) r s.
Definition rgnSetEntryRegion (s : arena) (r e : nat) : arena :=
  alter (set_Extra (UEntryRegion e)) r s.
Definition rgnGetEntryRegion (s : arena) (r : nat) : option nat :=
  R ← s !! r;
  match Extra R with UEntryRegion e => Some e | _ => None end.

Definition rgnIsOutsideParent (R : EHRegion) : bool :=
  match Kind R with
  | RGN_Fault | RGN_Finally | RGN_Filter | RGN_MExcept | RGN_MCatch => true
  | _ => false
  end.

Definition rgnGetParent (s : arena) (r : nat) : option nat := R ← s !! r; Parent R.

Definition rgnGetEnclosingAncestor (s : arena) (r : nat) : option nat :=
  R ← s !! r;
  OuterRegion ← Parent R;
  if rgnIsOutsideParent R then rgnGetParent s OuterRegion else Some OuterRegion.

Definition is_kind (k : RegionKind) (R : EHRegion) : bool := bool_decide (Kind R = k).

(** ** Searching the tree *)

Definition rgnRangeIsEnclosedInRegion (StartOffset EndOffset : Z) (R : EHRegion) : bool :=
  (StartMsilOffset R <=? StartOffset) && (u32 (EndOffset - 1) <? EndMsilOffset R).

(** The inner loop over the handlers of a try that does not contain the
    range; [RetVal] is kept when none does. *)
Fixpoint find_handler (rec : nat -> option nat) (s : arena) (a b : Z)
    (InnerList : list nat) (RetVal : option nat) : option (option nat) :=
  match InnerList with
  | [] => Some RetVal
  | h :: l =>
      H ← s !! h;
      if negb (is_kind RGN_Try H) && rgnRangeIsEnclosedInRegion a b H
      then Some <$> rec h
      else find_handler rec s a b l RetVal
  end.

(** The outer loop; only a try that contains the range breaks out of it. *)
Fixpoint find_child (rec : nat -> option nat) (s : arena) (a b : Z)
    (List : list nat) (RetVal : option nat) : option (option nat) :=
  match List with
  | [] => Some RetVal
  | c :: l =>
      C ← s !! c;
      if is_kind RGN_Try C && rgnRangeIsEnclosedInRegion a b C then Some <$> rec c
      else if is_kind RGN_Try C then
        RetVal' ← find_handler rec s a b (Children C) RetVal;
        find_child rec s a b l RetVal'
      else find_child rec s a b l RetVal
  end.

Fixpoint rgnFindLowestEnclosingRegion (fuel : nat) (s : arena) (RegionTree : nat)
    (a b : Z) : option nat :=
  match fuel with
  | O => None
  | S fuel' =>
      T ← s !! RegionTree;
      RetVal ← find_child (fun c => rgnFindLowestEnclosingRegion fuel' s c a b)
                 s a b (Children T) None;
      Some (default RegionTree RetVal)
  end.

Definition in_region (Offset : Z) (R : EHRegion) : bool :=
  (Offset <? EndMsilOffset R) && (StartMsilOffset R <=? Offset).

Fixpoint first_containing (s : arena) (Offset : Z) (l : list nat) : option (option nat) :=
  match l with
  | [] => Some None
  | g :: l' =>
      G ← s !! g;
      if in_region Offset G then Some (Some g) else first_containing s Offset l'
  end.

Fixpoint inner_scan (s : arena) (Offset : Z) (l : list nat) : option (option nat) :=
  match l with
  | [] => Some None
  | c :: l' =>
      C ← s !! c;
      if in_region Offset C then Some (Some c)
      else if is_kind RGN_Try C then
        g ← first_containing s Offset (Children C);
        match g with
        | Some _ => Some g
        | None => inner_scan s Offset l'
        end
      else inner_scan s Offset l'
  end.

(** [None]: a dangling pointer; [Some None]: the null result. *)
Definition getInnerEnclosingRegion (s : arena) (OuterRegion : nat) (Offset : Z)
    : option (option nat) :=
  O ← s !! OuterRegion; inner_scan s Offset (Children O).

Fixpoint fault_or_finally_walk (fuel : nat) (s : arena) (Offset : Z)
    (TestRegion HandlerRegion : option nat) : option (option nat) :=
  match TestRegion with
  | None => Some HandlerRegion
  | Some t =>
      match fuel with
      | O => None
      | S fuel' =>
          T ← s !! t;
          let HandlerRegion :=
            if is_kind RGN_Fault T || is_kind RGN_Finally T then Some t
            else HandlerRegion in
          Next ← getInnerEnclosingRegion s t Offset;
          fault_or_finally_walk fuel' s Offset Next HandlerRegion
      end
  end.

Definition getInnermostFaultOrFinallyRegion (s : arena) (EhRegionTree : option nat)
    (Offset : Z) : option (option nat) :=
  fault_or_finally_walk (S (length s)) s Offset EhRegionTree None.

(** Candidate and its size, over [AllRegionList]. *)
Definition scan_region (s : arena) (Offset : Z) (acc : option nat * Z) (r : nat)
    : option nat * Z :=
  match s !! r with
  | Some R =>
      if (StartMsilOffset R <=? Offset) && (Offset <? EndMsilOffset R) then
        let RegionSize := u32 (EndMsilOffset R - StartMsilOffset R) in
        if RegionSize <=? snd acc then (Some r, RegionSize) else acc
      else acc
  | None => acc
  end.

Definition UINT_MAX : Z := 2 ^ 32 - 1.

Definition fgGetRegionFromMSILOffset (s : arena) (AllRegionList : list nat)
    (EhRegionTree : option nat) (Offset : Z) : option nat :=
  fst (foldl (scan_region s Offset) (EhRegionTree, UINT_MAX) AllRegionList).

Fixpoint finally_scan (s : arena) (l : list nat) : option (option nat) :=
  match l with
  | [] => Some None
  | c :: l' =>
      C ← s !! c;
      if is_kind RGN_Finally C then Some (Some c) else finally_scan s l'
  end.

Definition getFinallyRegion (s : arena) (TryRegion : nat) : option (option nat) :=
  T ← s !! TryRegion; finally_scan s (Children T).

(** ** Sorting the clauses *)

Definition clauseXInsideY (X Y : CORINFO_EH_CLAUSE) : bool :=
  ((TryOffset Y <=? TryOffset X) &&
   (u32 (TryOffset X + TryLength X) <=? u32 (TryOffset Y + TryLength Y)) &&
   negb (TryLength X =? TryLength Y)) ||
  ((HandlerOffset Y <=? TryOffset X) &&
   (u32 (TryOffset X + TryLength X) <=? u32 (HandlerOffset Y + HandlerLength Y)) &&
   negb (TryLength X =? HandlerLength Y)).

Definition clauseLessThan (Lhs Rhs : CORINFO_EH_CLAUSE) : bool :=
  if clauseXInsideY Lhs Rhs then true else false.

(** [clauseSortFunction] on two array slots; the last test compares the
    slots' addresses. *)
Definition clauseSortFunction (ClauseList : list CORINFO_EH_CLAUSE) (C1 C2 : nat)
    : option Z :=
  Clause1 ← ClauseList !! C1;
  Clause2 ← ClauseList !! C2;
  Some (if clauseXInsideY Clause1 Clause2 then -1
        else if clauseXInsideY Clause2 Clause1 then 1
        else if (C1 <? C2)%nat then -1 else 1).

(** One round of the insertion sort: [Key] goes before the first element of
    the sorted prefix it is less than. *)
Fixpoint insert_clause (Key : CORINFO_EH_CLAUSE) (prefix : list CORINFO_EH_CLAUSE)
    : list CORINFO_EH_CLAUSE :=
  match prefix with
  | [] => [Key]
  | c :: l => if clauseLessThan Key c then Key :: c :: l else c :: insert_clause Key l
  end.

Definition sort_clauses (EHClauses : list CORINFO_EH_CLAUSE) : list CORINFO_EH_CLAUSE :=
  foldl (fun prefix Key => insert_clause Key prefix) [] EHClauses.

(** ** Building the tree *)

(** The reader's region state while the tree is built. *)
Record region_state := RegionState {
  rs_arena : arena;
  rs_all : list nat }.

Definition rgnPushRegionChild (s : arena) (ParentRgn Child : nat) : arena :=
  alter (fun R => set_Children (Child :: Children R) R) ParentRgn s.

Definition rgnMakeRegion (st : region_state) (Type' : RegionKind) (ParentRgn : option nat)
    : region_state * nat :=
  let Result := length (rs_arena st) in
  let s := rs_arena st ++ [Rgn ParentRgn [] 0 0 UZero Type'] in
  (RegionState
     (match ParentRgn with Some p => rgnPushRegionChild s p Result | None => s end)
     (Result :: rs_all st), Result).

Definition on_arena (f : arena -> arena) (st : region_state) : region_state :=
  RegionState (f (rs_arena st)) (rs_all st).

Section Build.

(** CoreCLR's clause flag bits. *)
Context (CORINFO_EH_CLAUSE_FILTER CORINFO_EH_CLAUSE_FINALLY CORINFO_EH_CLAUSE_FAULT : Z).

Definition has_flag (c : CORINFO_EH_CLAUSE) (bit : Z) : bool :=
  negb (Z.land (Flags c) bit =? 0).

(** The handler regions of a clause: new state, the handler, and the region
    whose start is compared with the try's entry. *)
Definition make_handler (st : region_state) (c : CORINFO_EH_CLAUSE) (RegionTry : nat)
    : region_state * nat * nat :=
  if has_flag c CORINFO_EH_CLAUSE_FILTER then
    let '(st, RegionHandler) := rgnMakeRegion st RGN_MExcept (Some RegionTry) in
    let '(st, RegionFilter) := rgnMakeRegion st RGN_Filter (Some RegionTry) in
    let st := on_arena (alter (set_Extra (UHandlerRegion RegionHandler)) RegionFilter) st in
    let st := on_arena (fun s => rgnSetStartMSILOffset s RegionFilter (FilterOffset c)) st in
    let st := on_arena (fun s => rgnSetEndMSILOffset s RegionFilter (HandlerOffset c)) st in
    (st, RegionHandler, RegionFilter)
  else if has_flag c CORINFO_EH_CLAUSE_FINALLY then
    let '(st, RegionHandler) := rgnMakeRegion st RGN_Finally (Some RegionTry) in
    (st, RegionHandler, RegionHandler)
  else if has_flag c CORINFO_EH_CLAUSE_FAULT then
    let '(st, RegionHandler) := rgnMakeRegion st RGN_Fault (Some RegionTry) in
    (st, RegionHandler, RegionHandler)
  else
    let '(st, RegionHandler) := rgnMakeRegion st RGN_MCatch (Some RegionTry) in
    (on_arena (alter (set_Extra (UCatchClassToken (ClassToken c))) RegionHandler) st,
     RegionHandler, RegionHandler).

(** The try region of a clause: an existing one with the same range, or a
    new child of the lowest region that encloses it. *)
Definition make_try (st : region_state) (c : CORINFO_EH_CLAUSE)
    : option (region_state * nat) :=
  let TryEnd := u32 (TryOffset c + TryLength c) in
  EnclosingRegion ← rgnFindLowestEnclosingRegion (S (length (rs_arena st)))
                      (rs_arena st) 0%nat (TryOffset c) TryEnd;
  E ← rs_arena st !! EnclosingRegion;
  if is_kind RGN_Try E && (TryOffset c =? StartMsilOffset E) && (TryEnd =? EndMsilOffset E)
  then Some (st, EnclosingRegion)
  else
    let '(st, RegionTry) := rgnMakeRegion st RGN_Try (Some EnclosingRegion) in
    let st := on_arena (fun s => rgnSetStartMSILOffset s RegionTry (TryOffset c)) st in
    let st := on_arena (fun s => rgnSetEndMSILOffset s RegionTry TryEnd) st in
    Some (on_arena (fun s => rgnSetEntryRegion s RegionTry RegionTry) st, RegionTry).

(** One iteration of the [do ... while]. *)
Definition add_clause (st : region_state) (c : CORINFO_EH_CLAUSE) : option region_state :=
  '(st, RegionTry) ← make_try st c;
  let '(st, RegionHandler, CheckEntryRegion) := make_handler st c RegionTry in
  let st := on_arena (fun s => rgnSetStartMSILOffset s RegionHandler (HandlerOffset c)) st in
  let st := on_arena (fun s => rgnSetEndMSILOffset s RegionHandler
                        (u32 (HandlerOffset c + HandlerLength c))) st in
  EntryRegion ← rgnGetEntryRegion (rs_arena st) RegionTry;
  CheckStart ← rgnGetStartMSILOffset (rs_arena st) CheckEntryRegion;
  EntryStart ← rgnGetStartMSILOffset (rs_arena st) EntryRegion;
  Some (if CheckStart <? EntryStart
        then on_arena (fun s => rgnSetEntryRegion s RegionTry CheckEntryRegion) st
        else st).

Fixpoint add_clauses (st : region_state) (cs : list CORINFO_EH_CLAUSE)
    : option region_state :=
  match cs with
  | [] => Some st
  | c :: cs' => st' ← add_clause st c; add_clauses st' cs'
  end.

(** The clauses in the order of the loop: its counter is 16 bits wide, is
    decremented before use and starts at the truncated clause count. *)
Definition loop_order (ClauseList : list CORINFO_EH_CLAUSE) : list CORINFO_EH_CLAUSE :=
  let I := u16 (Z.of_nat (length ClauseList)) in
  rev (take (Z.to_nat (if I =? 0 then 65536 else I)) ClauseList).

Definition root_state (ILCodeSize : Z) : region_state :=
  let '(st, RegionTreeRoot) := rgnMakeRegion (RegionState [] []) RGN_Root None in
  on_arena (fun s => rgnSetEndMSILOffset s RegionTreeRoot ILCodeSize) st.

(** The loops that assert the order behind the sort, on every pair of slots. *)
Definition order_asserted (ClauseList : list CORINFO_EH_CLAUSE) : bool :=
  forallb (fun I =>
    forallb (fun J => bool_decide (clauseSortFunction ClauseList I J = Some (-1)))
      (seq (S I) (length ClauseList - S I)))
    (seq 0 (length ClauseList - 1)).

(** [None]: an assertion fails; [Some None]: no clauses, the reader's region
    state is cleared; otherwise the root is region 0. *)
Definition rgnCreateRegionTree (EHClauses : list CORINFO_EH_CLAUSE) (ILCodeSize : Z)
    : option (option region_state) :=
  match EHClauses with
  | [] => Some None
  | _ =>
      let ClauseList := sort_clauses EHClauses in
      if order_asserted ClauseList
      then Some <$> add_clauses (root_state ILCodeSize) (loop_order ClauseList)
      else None
  end.

End Build.

(** ** The clause order *)

Definition inside (X Y : CORINFO_EH_CLAUSE) : Prop := clauseXInsideY X Y = true.

Definition same_try (c d : CORINFO_EH_CLAUSE) : Prop :=
  TryOffset c = TryOffset d /\ TryLength c = TryLength d.

#[export] Instance same_try_dec c d : Decision (same_try c d).
Proof. unfold same_try. apply _. Defined.

(** [a, a + n) within [b, b + m). *)
Definition within (a n b m : Z) : Prop := b <= a /\ a + n <= b + m.

(** A clause whose ranges fit 32 bits, are not empty and do not overlap. *)
Definition clause_ok (c : CORINFO_EH_CLAUSE) : Prop :=
  0 <= TryOffset c /\ 0 < TryLength c /\ TryOffset c + TryLength c < 2 ^ 32 /\
  0 <= HandlerOffset c /\ 0 < HandlerLength c /\
  HandlerOffset c + HandlerLength c < 2 ^ 32 /\
  (TryOffset c + TryLength c <= HandlerOffset c \/
   HandlerOffset c + HandlerLength c <= TryOffset c).

(** The nesting rules stated above [rgnCreateRegionTree]: a clause whose try
    lies in a part of another one lies in that part with its handler too. *)
Definition well_nested (cs : list CORINFO_EH_CLAUSE) : Prop :=
  Forall clause_ok cs /\
  forall X Y, X ∈ cs -> Y ∈ cs ->
    (within (TryOffset X) (TryLength X) (TryOffset Y) (TryLength Y) ->
     TryLength X <> TryLength Y ->
     within (HandlerOffset X) (HandlerLength X) (TryOffset Y) (TryLength Y)) /\
    (within (TryOffset X) (TryLength X) (HandlerOffset Y) (HandlerLength Y) ->
     TryLength X <> HandlerLength Y ->
     within (HandlerOffset X) (HandlerLength X) (HandlerOffset Y) (HandlerLength Y)).

Lemma inside_spec (X Y : CORINFO_EH_CLAUSE) :
  clause_ok X -> clause_ok Y ->
  inside X Y <->
    (within (TryOffset X) (TryLength X) (TryOffset Y) (TryLength Y) /\
     TryLength X <> TryLength Y) \/
    (within (TryOffset X) (TryLength X) (HandlerOffset Y) (HandlerLength Y) /\
     TryLength X <> HandlerLength Y).
Proof.
  unfold clause_ok, inside, clauseXInsideY, within. intros HX HY. unwrap.
  rewrite orb_true_iff, !andb_true_iff, !negb_true_iff, !Z.leb_le, !Z.eqb_neq. lia.
Qed.

Lemma inside_irrefl (X : CORINFO_EH_CLAUSE) : clause_ok X -> ~ inside X X.
Proof.
  intros H Hi. apply inside_spec in Hi; [|done..]. unfold clause_ok, within in *. lia.
Qed.

Lemma inside_trans (cs : list CORINFO_EH_CLAUSE) X Y Z :
  well_nested cs -> X ∈ cs -> Y ∈ cs -> Z ∈ cs ->
  inside X Y -> inside Y Z -> inside X Z.
Proof.
  intros [Hok Hn] HX HY HZ. rewrite Forall_forall in Hok.
  pose proof (Hok X HX). pose proof (Hok Y HY). pose proof (Hok Z HZ).
  rewrite !inside_spec by done. destruct (Hn Y Z HY HZ) as [Ht Hh].
  unfold clause_ok, within in *. intros [Hxy|Hxy] [Hyz|Hyz].
  - left. lia.
  - right. lia.
  - left. specialize (Ht ltac:(lia) ltac:(lia)). lia.
  - right. specialize (Hh ltac:(lia) ltac:(lia)). lia.
Qed.

Lemma same_try_inside (X X' Y : CORINFO_EH_CLAUSE) :
  same_try X X' -> inside X Y <-> inside X' Y.
Proof. unfold same_try, inside, clauseXInsideY. by intros [-> ->]. Qed.

(** No element lies inside an earlier one. *)
Definition inner_first (l : list CORINFO_EH_CLAUSE) : Prop :=
  forall i j X Y, (i < j)%nat -> l !! i = Some X -> l !! j = Some Y -> ~ inside Y X.

Lemma inner_first_cons (c : CORINFO_EH_CLAUSE) l :
  inner_first (c :: l) <-> (forall Y, Y ∈ l -> ~ inside Y c) /\ inner_first l.
Proof.
  split.
  - intros H. split.
    + intros Y [j Hj]%list_elem_of_lookup_1. by apply (H 0%nat (S j) c Y); [lia|..].
    + intros i j X Y Hij HX HY. apply (H (S i) (S j) X Y); [lia|done..].
  - intros [H1 H2] [|i] [|j] X Y Hij HX HY; simpl in *; simplify_eq; try lia.
    + apply H1. by eapply list_elem_of_lookup_2.
    + apply (H2 i j X Y); [lia|done..].
Qed.

Lemma insert_clause_perm Key l : insert_clause Key l ≡ₚ Key :: l.
Proof.
  induction l as [|c l IH]; simpl; [done|]. destruct (clauseLessThan Key c); [done|].
  rewrite IH. apply Permutation_swap.
Qed.

Lemma clauseLessThan_spec X Y : clauseLessThan X Y = true <-> inside X Y.
Proof. unfold clauseLessThan, inside. by destruct (clauseXInsideY X Y). Qed.

Lemma insert_clause_inner_first Key l :
  clause_ok Key ->
  (forall X Y, X ∈ l -> Y ∈ l -> inside X Key -> inside Key Y -> inside X Y) ->
  Forall clause_ok l -> inner_first l -> inner_first (insert_clause Key l).
Proof.
  intros HK. induction l as [|c l IH]; intros Htr Hok Hin; simpl.
  { apply inner_first_cons. split; [by intros Y H%elem_of_nil|done]. }
  apply Forall_cons in Hok as [Hc Hl]. pose proof Hin as Hin'.
  apply inner_first_cons in Hin as [Hfst Hin].
  destruct (clauseLessThan Key c) eqn:E.
  - apply clauseLessThan_spec in E. apply inner_first_cons. split; [|done].
    intros Y HY Hi. assert (HYc : inside Y c) by (apply Htr; [done|constructor|done..]).
    apply elem_of_cons in HY as [->|HY]; [by eapply inside_irrefl|by eapply Hfst].
  - apply inner_first_cons. split.
    + intros Y HY Hi. rewrite insert_clause_perm in HY.
      apply elem_of_cons in HY as [->|HY]; [|by eapply Hfst].
      apply clauseLessThan_spec in Hi. congruence.
    + apply IH; [|done..]. intros X Y HX HY. apply Htr; by constructor.
Qed.

(** Clauses of one try block stay in table order. *)
Lemma insert_clause_same_try Key l d :
  clause_ok Key -> Forall clause_ok l -> inner_first l ->
  filter (same_try d) (insert_clause Key l) = filter (same_try d) (l ++ [Key]).
Proof.
  intros HK. induction l as [|c l IH]; intros Hok Hin; simpl; [done|].
  apply Forall_cons in Hok as [Hc Hl]. pose proof Hin as Hin'.
  apply inner_first_cons in Hin as [Hfst Hin].
  destruct (clauseLessThan Key c) eqn:E.
  2: { rewrite !filter_cons, IH by done. done. }
  apply clauseLessThan_spec in E. change (c :: l ++ [Key]) with ((c :: l) ++ [Key]).
  rewrite filter_app. change (filter (same_try d) [Key]) with
    (if decide (same_try d Key) then [Key] else []).
  rewrite (filter_cons _ Key). case_decide as Hd; [|by rewrite app_nil_r].
  assert (Hno : filter (same_try d) (c :: l) = []); [|by rewrite Hno].
  assert (Hst : forall e, same_try d e -> inside e c).
  { intros e He. apply (same_try_inside e Key); [|done].
    unfold same_try in *. destruct Hd, He. split; congruence. }
  rewrite filter_cons. case_decide as Hdc.
  - by destruct (inside_irrefl c Hc (Hst c Hdc)).
  - apply filter_none. intros e He Hde. by apply (Hfst e He), Hst.
Qed.

Lemma sort_clauses_perm_app l prefix :
  foldl (fun p K => insert_clause K p) prefix l ≡ₚ prefix ++ l.
Proof.
  revert prefix. induction l as [|c l IH]; intros prefix; simpl; [by rewrite app_nil_r|].
  rewrite IH, insert_clause_perm. apply Permutation_middle.
Qed.

Lemma sort_clauses_perm l : sort_clauses l ≡ₚ l.
Proof. apply (sort_clauses_perm_app l []). Qed.

Lemma sort_clauses_fold (cs l prefix : list CORINFO_EH_CLAUSE) d :
  well_nested cs -> prefix ++ l ⊆ cs -> inner_first prefix ->
  let r := foldl (fun p K => insert_clause K p) prefix l in
  inner_first r /\ filter (same_try d) r = filter (same_try d) (prefix ++ l).
Proof.
  intros Hw. revert prefix. induction l as [|c l IH]; intros prefix Hsub Hin; simpl.
  { by rewrite app_nil_r. }
  assert (Hc : c ∈ cs) by (apply Hsub, elem_of_app; right; constructor).
  assert (Hp : forall x, x ∈ prefix -> x ∈ cs) by (intros; apply Hsub, elem_of_app; by left).
  destruct Hw as [Hok Hn]. rewrite Forall_forall in Hok.
  assert (Hpok : Forall clause_ok prefix) by (rewrite Forall_forall; auto).
  destruct (IH (insert_clause c prefix)) as [H1 H2].
  - intros x. rewrite elem_of_app, insert_clause_perm, elem_of_cons. intros Hx.
    apply Hsub. rewrite elem_of_app, elem_of_cons. tauto.
  - apply insert_clause_inner_first; [by apply Hok| |done..].
    intros X Y HX HY. apply (inside_trans cs); auto. split; [|done].
    by rewrite Forall_forall.
  - split; [done|]. rewrite H2, filter_app, insert_clause_same_try by auto.
    by rewrite <- filter_app, <- app_assoc.
Qed.

Lemma forallb_false_exists {A} (f : A -> bool) (l : list A) :
  forallb f l = false -> exists x, In x l /\ f x = false.
Proof.
  induction l as [|x l IH]; cbn; [done|]. destruct (f x) eqn:E; cbn; [|by eauto].
  intros H. destruct (IH H) as (y & ? & ?). eauto.
Qed.

(** For a clause table that obeys the nesting rules of the EIT, the
    insertion sort of [rgnCreateRegionTree] permutes the table so that no clause
    lies inside an earlier one, its debug assertion ([clauseSortFunction] answers
    -1 on every pair of slots) holds, and the handlers of one try block keep
    their table order. *)
Theorem sort_clauses_correct (EHClauses : list CORINFO_EH_CLAUSE) :
  well_nested EHClauses ->
  let ClauseList := sort_clauses EHClauses in
  ClauseList ≡ₚ EHClauses /\
  inner_first ClauseList /\
  (forall I J, (I < J < length ClauseList)%nat ->
     clauseSortFunction ClauseList I J = Some (-1)) /\
  (forall c, filter (same_try c) ClauseList = filter (same_try c) EHClauses).
Proof.
  intros Hw ClauseList. assert (Hp : ClauseList ≡ₚ EHClauses) by apply sort_clauses_perm.
  assert (H0 : inner_first []) by (intros i j X Y _ H; by rewrite lookup_nil in H).
  pose proof (fun c => sort_clauses_fold EHClauses EHClauses [] c Hw ltac:(done) H0) as Hf.
  assert (Hin : inner_first ClauseList) by apply (Hf (Clause 0 0 0 0 0 0 0)).
  split_and!; [done..| |intros c; apply Hf].
  intros I J HIJ. unfold clauseSortFunction.
  destruct (lookup_lt_is_Some_2 ClauseList I ltac:(lia)) as [X HX].
  destruct (lookup_lt_is_Some_2 ClauseList J ltac:(lia)) as [Y HY].
  rewrite HX, HY. simpl. case_match; [done|]. case_match eqn:E.
  - by destruct (Hin I J X Y ltac:(lia) HX HY).
  - destruct (Nat.ltb_spec I J); [done|lia].
Qed.

(** The assertion fails just if a clause lies inside an earlier one that does
    not lie inside it. *)
Lemma order_asserted_spec (l : list CORINFO_EH_CLAUSE) :
  order_asserted l = true <->
  forall I J X Y, (I < J)%nat -> l !! I = Some X -> l !! J = Some Y -> inside Y X -> inside X Y.
Proof.
  unfold order_asserted. rewrite forallb_forall. split.
  - intros H I J X Y HIJ HX HY Hi. apply lookup_lt_Some in HY as HJ.
    specialize (H I). rewrite forallb_forall in H.
    assert (HI : In I (seq 0 (length l - 1))) by (apply in_seq; lia).
    specialize (H HI J ltac:(apply in_seq; lia)). apply bool_decide_eq_true_1 in H.
    unfold clauseSortFunction in H. rewrite HX, HY in H. cbn in H. unfold inside in *.
    destruct (clauseXInsideY X Y); [done|]. by rewrite Hi in H.
  - intros H I HI%in_seq. rewrite forallb_forall. intros J HJ%in_seq. apply bool_decide_eq_true_2.
    unfold clauseSortFunction.
    destruct (lookup_lt_is_Some_2 l I ltac:(lia)) as [X HX], (lookup_lt_is_Some_2 l J ltac:(lia)) as [Y HY].
    rewrite HX, HY. cbn [mbind option_bind]. destruct (clauseXInsideY X Y) eqn:E; [done|]. destruct (clauseXInsideY Y X) eqn:E'.
    + pose proof (H I J X Y ltac:(lia) HX HY E') as Hi. unfold inside in Hi. congruence.
    + destruct (Nat.ltb_spec I J); [done|lia].
Qed.

Lemma order_not_asserted (l : list CORINFO_EH_CLAUSE) :
  order_asserted l = false -> exists I J X Y, (I < J)%nat /\ l !! I = Some X /\ l !! J = Some Y /\
    inside Y X /\ ~ inside X Y.
Proof.
  unfold order_asserted. intros [I [HI H]]%forallb_false_exists. apply in_seq in HI.
  apply forallb_false_exists in H as [J [HJ H]]. apply in_seq in HJ. apply bool_decide_eq_false_1 in H.
  destruct (lookup_lt_is_Some_2 l I ltac:(lia)) as [X HX], (lookup_lt_is_Some_2 l J ltac:(lia)) as [Y HY].
  exists I, J, X, Y. split; [lia|]. split; [done|]. split; [done|]. unfold clauseSortFunction in H.
  rewrite HX, HY in H. cbn [mbind option_bind] in H. unfold inside.
  destruct (clauseXInsideY X Y); [done|]. destruct (clauseXInsideY Y X); [by split|].
  destruct (Nat.ltb_spec I J); [done|lia].
Qed.

(** A try with two handlers, nested in the handler of an outer try. *)
Definition demo_clauses : list CORINFO_EH_CLAUSE :=
  [Clause 2 0 10 10 40 0 0; Clause 0 12 6 20 4 1 0; Clause 0 12 6 24 4 2 0].

#[export] Instance clause_ok_dec c : Decision (clause_ok c).
Proof. unfold clause_ok. apply _. Defined.

Lemma demo_clauses_nested : well_nested demo_clauses.
Proof.
  split; [decide_now|]. unfold demo_clauses. intros X Y HX HY.
  rewrite !elem_of_cons, elem_of_nil in HX, HY. unfold within.
  destruct HX as [->|[->|[->|[]]]]; destruct HY as [->|[->|[->|[]]]]; simpl; lia.
Qed.

Lemma sort_clauses_correct_witness :
  well_nested demo_clauses /\
  sort_clauses demo_clauses ≡ₚ demo_clauses /\ inner_first (sort_clauses demo_clauses) /\
  (sort_clauses demo_clauses) !! 2%nat = Some (Clause 2 0 10 10 40 0 0).
Proof.
  split; [exact demo_clauses_nested|].
  destruct (sort_clauses_correct demo_clauses demo_clauses_nested) as (H1 & H2 & _).
  split; [exact H1|]. split; [exact H2|reflexivity].
Defined.
