(* ===== verification/RegionTree.v ===== *)
(** * Correctness of the exception-region tree

    The tree [rgnCreateRegionTree] builds is well formed, represents exactly
    the clauses, and the searches over it terminate with the lowest region. *)

From S2P Require Import Prelude Regions.

(** ** Well-formed arenas *)

(** What holds of region [i]: its parent is older and lists it, its children
    point back, a handler's parent is a try, and a try's entry region is the
    try or one of its children. *)
Record region_ok (s : arena) (i : nat) (R : EHRegion) : Prop := {
  ro_parent : i <> 0%nat -> Kind R <> RGN_Root /\ exists p P,
    Parent R = Some p /\ (p < i)%nat /\ s !! p = Some P /\ i ∈ Children P /\
    (rgnIsOutsideParent R = true -> Kind P = RGN_Try);
  ro_children : forall c, c ∈ Children R ->
    exists C, s !! c = Some C /\ Parent C = Some i /\ (i < c)%nat;
  ro_entry : Kind R = RGN_Try ->
    exists e, Extra R = UEntryRegion e /\ (e = i \/ e ∈ Children R) }.

Record arena_ok (s : arena) : Prop := {
  ao_root : exists R, s !! 0%nat = Some R /\ Kind R = RGN_Root /\ Parent R = None;
  ao_region : forall i R, s !! i = Some R -> region_ok s i R }.

(** [s'] has the regions of [s], with at most more children, another entry
    region in a try, and new regions at the end. *)
Definition extends (s s' : arena) : Prop :=
  forall i R, s !! i = Some R -> exists R', s' !! i = Some R' /\
    Parent R' = Parent R /\ StartMsilOffset R' = StartMsilOffset R /\
    EndMsilOffset R' = EndMsilOffset R /\ Kind R' = Kind R /\
    Children R ⊆ Children R' /\ (Kind R <> RGN_Try -> Extra R' = Extra R).

Lemma extends_refl s : extends s s.
Proof. intros i R H. exists R. by split_and!. Qed.

Lemma extends_trans s1 s2 s3 : extends s1 s2 -> extends s2 s3 -> extends s1 s3.
Proof.
  intros H1 H2 i R H. destruct (H1 i R H) as (R2 & HR2 & ? & ? & ? & Hk & Hc & He).
  destruct (H2 i R2 HR2) as (R3 & HR3 & ? & ? & ? & ? & ? & He').
  exists R3. split_and!; try congruence; [set_solver|]. intros Hn.
  rewrite He', He by congruence. done.
Qed.

(** ** Adding a region *)

Definition add_leaf (s : arena) (p : nat) (R : EHRegion) : arena :=
  alter (fun P => set_Children (length s :: Children P) P) p s ++ [R].

Lemma length_add_leaf s p R : length (add_leaf s p R) = S (length s).
Proof. unfold add_leaf. rewrite length_app, length_alter. simpl. lia. Qed.

Lemma add_leaf_lookup_new s p R : add_leaf s p R !! length s = Some R.
Proof.
  unfold add_leaf. rewrite lookup_app_r by (rewrite length_alter; lia).
  by rewrite length_alter, Nat.sub_diag.
Qed.

Lemma add_leaf_lookup_old s p R i X :
  s !! i = Some X ->
  add_leaf s p R !! i =
    Some (if decide (p = i) then set_Children (length s :: Children X) X else X).
Proof.
  intros H. apply lookup_lt_Some in H as Hlt. unfold add_leaf.
  rewrite lookup_app_l by (by rewrite length_alter). rewrite list_lookup_alter.
  case_decide; [by subst; rewrite H|done].
Qed.

Lemma add_leaf_cases s p R i X :
  add_leaf s p R !! i = Some X ->
  (i = length s /\ X = R) \/
  (exists Y, s !! i = Some Y /\ i <> length s /\
     X = if decide (p = i) then set_Children (length s :: Children Y) Y else Y).
Proof.
  intros H. destruct (decide (i = length s)) as [->|Hne].
  - left. rewrite add_leaf_lookup_new in H. by simplify_eq.
  - right. apply lookup_lt_Some in H as Hlt. rewrite length_add_leaf in Hlt.
    destruct (lookup_lt_is_Some_2 s i ltac:(lia)) as [Y HY]. exists Y.
    rewrite (add_leaf_lookup_old s p R i Y HY) in H. by simplify_eq.
Qed.

Lemma extends_add_leaf s p R : extends s (add_leaf s p R).
Proof.
  intros i X H. rewrite (add_leaf_lookup_old _ _ _ _ _ H). eexists. split; [done|].
  case_decide; simpl; split_and!; try done; set_solver.
Qed.

Lemma arena_ok_add_leaf s p P R :
  arena_ok s -> s !! p = Some P -> Parent R = Some p -> Children R = [] ->
  Kind R <> RGN_Root -> (rgnIsOutsideParent R = true -> Kind P = RGN_Try) ->
  (Kind R = RGN_Try -> Extra R = UEntryRegion (length s)) ->
  arena_ok (add_leaf s p R).
Proof.
  intros [(R0 & H0 & Hk & Hp0) Hr] HP Hpar Hch Hnr Hout Hent.
  apply lookup_lt_Some in HP as Hlt. split.
  { destruct (extends_add_leaf s p R 0%nat R0 H0) as (R' & ? & ? & ? & ? & ? & _).
    exists R'. split_and!; congruence. }
  intros i X HX. apply add_leaf_cases in HX as [[-> ->]|(Y & HY & Hne & ->)].
  - split.
    + intros _. split; [done|]. exists p, (set_Children (length s :: Children P) P).
      split_and!; try done. { rewrite (add_leaf_lookup_old _ _ _ _ _ HP). by case_decide. }
      simpl. constructor.
    + rewrite Hch. by intros c H%elem_of_nil.
    + intros Ht. exists (length s). auto.
  - destruct (Hr i Y HY) as [Hpa Hcs He]. split.
    + intros Hi. destruct (Hpa Hi) as (HK & q & Q & Hq & Hlt' & HQ & Hin & Ho).
      split; [by case_decide|].
      destruct (extends_add_leaf s p R q Q HQ) as (Q' & HQ' & _ & _ & _ & HkQ & Hsub & _).
      exists q, Q'. split_and!; try done; [by case_decide|by apply Hsub|].
      rewrite HkQ. intros Ho'. apply Ho. by case_decide.
    + assert (Hold : forall c, c ∈ Children Y -> exists C,
        add_leaf s p R !! c = Some C /\ Parent C = Some i /\ (i < c)%nat).
      { intros c Hc. destruct (Hcs c Hc) as (C & HC & HpC & Hic).
        destruct (extends_add_leaf s p R c C HC) as (C' & HC' & HpC' & _).
        exists C'. split_and!; congruence. }
      case_decide as Hd; simpl; [|done]. intros c [->|Hc]%elem_of_cons; [|by apply Hold].
      exists R. rewrite add_leaf_lookup_new. subst. auto.
    + intros Ht. destruct (He ltac:(by case_decide)) as (e & Hx & Hor).
      exists e. case_decide; simpl; [|done]. split; [done|].
      destruct Hor; [by left|right; by constructor].
Qed.

(** ** Changing the entry of a try *)

Lemma set_entry_lookup s t e i :
  rgnSetEntryRegion s t e !! i =
    if decide (t = i) then set_Extra (UEntryRegion e) <$> s !! i else s !! i.
Proof. unfold rgnSetEntryRegion. rewrite list_lookup_alter. case_decide; by subst. Qed.

Lemma extends_set_entry s t e T :
  s !! t = Some T -> Kind T = RGN_Try -> extends s (rgnSetEntryRegion s t e).
Proof.
  intros HT Hk i X H. rewrite set_entry_lookup, H. case_decide; simpl.
  - eexists. split; [done|]. simplify_eq. simpl. by split_and!.
  - exists X. by split_and!.
Qed.

Lemma arena_ok_set_entry s t e T :
  arena_ok s -> s !! t = Some T -> Kind T = RGN_Try -> e ∈ Children T ->
  arena_ok (rgnSetEntryRegion s t e).
Proof.
  intros [(R0 & H0 & Hk & Hp0) Hr] HT Hkt Hin. pose proof (extends_set_entry s t e T HT Hkt) as Hx.
  split.
  { destruct (Hx 0%nat R0 H0) as (R' & ? & ? & ? & ? & ? & _).
    exists R'. split_and!; congruence. }
  intros i X HX. rewrite set_entry_lookup in HX.
  assert (HY : exists Y, s !! i = Some Y /\
    X = if decide (t = i) then set_Extra (UEntryRegion e) Y else Y).
  { case_decide; [|eauto]. destruct (s !! i) as [Y|] eqn:E; simplify_eq/=. eauto. }
  destruct HY as (Y & HY & ->). destruct (Hr i Y HY) as [Hpa Hcs He]. split.
  - intros Hi. destruct (Hpa Hi) as (HK & q & Q & Hq & Hlt & HQ & Hiq & Ho).
    split; [by case_decide|].
    destruct (Hx q Q HQ) as (Q' & HQ' & _ & _ & _ & HkQ & Hsub & _).
    exists q, Q'. split_and!; try done; [by case_decide|by apply Hsub|].
    rewrite HkQ. intros Ho'. apply Ho. by case_decide.
  - intros c Hc. destruct (Hcs c ltac:(by case_decide)) as (C & HC & HpC & Hic).
    destruct (Hx c C HC) as (C' & HC' & HpC' & _). exists C'. split_and!; congruence.
  - intros Ht. case_decide; [|by apply He]. subst. simplify_eq. simpl. exists e. auto.
Qed.

(** ** [rgnFindLowestEnclosingRegion] *)

(** The candidates the search looks at below [T]: enclosing try children,
    and enclosing handlers of the try children that do not enclose. *)
Definition candidate (s : arena) (a b : Z) (T : EHRegion) (r : nat) : Prop :=
  exists c C, c ∈ Children T /\ s !! c = Some C /\ Kind C = RGN_Try /\
    ((r = c /\ rgnRangeIsEnclosedInRegion a b C = true) \/
     (rgnRangeIsEnclosedInRegion a b C = false /\ r ∈ Children C /\
      exists H, s !! r = Some H /\ Kind H <> RGN_Try /\
                rgnRangeIsEnclosedInRegion a b H = true)).

Lemma is_kind_true k R : is_kind k R = true <-> Kind R = k.
Proof. unfold is_kind. by rewrite bool_decide_eq_true. Qed.
Lemma is_kind_false k R : is_kind k R = false <-> Kind R <> k.
Proof. unfold is_kind. by rewrite bool_decide_eq_false. Qed.

(** What a step of the search leaves in [RetVal]. *)
Definition found (rec : nat -> option nat) (old new : option nat) (P : nat -> Prop) : Prop :=
  new = old \/ exists r, P r /\ rec r = new /\ is_Some new.

Lemma find_handler_spec rec s a b l RetVal :
  (forall h, h ∈ l -> is_Some (s !! h)) -> (forall h, h ∈ l -> is_Some (rec h)) ->
  exists v, find_handler rec s a b l RetVal = Some v /\
    ((v = RetVal /\ forall h H, h ∈ l -> s !! h = Some H -> Kind H <> RGN_Try ->
        rgnRangeIsEnclosedInRegion a b H = false) \/
     (exists h H, h ∈ l /\ s !! h = Some H /\ Kind H <> RGN_Try /\
        rgnRangeIsEnclosedInRegion a b H = true /\ rec h = v /\ is_Some v)).
Proof.
  induction l as [|h l IH]; intros Hs Hr; simpl.
  { exists RetVal. split; [done|]. left. split; [done|]. by intros h H Hin%elem_of_nil. }
  destruct (Hs h) as [H HH]; [constructor|]. rewrite HH. simpl.
  destruct (negb (is_kind RGN_Try H) && rgnRangeIsEnclosedInRegion a b H) eqn:E.
  - destruct (Hr h) as [r Hrh]; [constructor|]. rewrite Hrh. exists (Some r).
    split; [done|]. right. exists h, H. zbool. rewrite is_kind_false in *.
    split_and!; eauto. constructor.
  - destruct IH as (v & -> & Hv); [intros; apply Hs; by constructor|
      intros; apply Hr; by constructor|].
    exists v. split; [done|]. destruct Hv as [[-> Hall]|(h' & H' & Hin & Hv)].
    + left. split; [done|]. intros h' H' [->|Hin]%elem_of_cons HH' Hk; [|by eapply Hall].
      simplify_eq. apply andb_false_iff in E as [E|E]; [|done].
      rewrite negb_false_iff, is_kind_true in E. done.
    + right. exists h', H'. split; [by constructor|done].
Qed.

Lemma find_child_spec rec s a b T l RetVal :
  l ⊆ Children T ->
  (forall c, c ∈ l -> is_Some (s !! c)) -> (forall c, c ∈ l -> is_Some (rec c)) ->
  (forall c C h, c ∈ l -> s !! c = Some C -> h ∈ Children C ->
     is_Some (s !! h) /\ is_Some (rec h)) ->
  exists v, find_child rec s a b l RetVal = Some v /\
    ((v = RetVal /\ forall c C, c ∈ l -> s !! c = Some C -> Kind C = RGN_Try ->
        rgnRangeIsEnclosedInRegion a b C = false /\
        forall h H, h ∈ Children C -> s !! h = Some H -> Kind H <> RGN_Try ->
          rgnRangeIsEnclosedInRegion a b H = false) \/
     (exists r, candidate s a b T r /\ rec r = v /\ is_Some v)).
Proof.
  revert RetVal. induction l as [|c l IH]; intros RetVal Hsub Hs Hr Hg; simpl.
  { exists RetVal. split; [done|]. left. split; [done|]. by intros c C Hin%elem_of_nil. }
  destruct (Hs c) as [C HC]; [constructor|]. rewrite HC. simpl.
  assert (HcT : c ∈ Children T) by (apply Hsub; constructor).
  assert (IH' : forall RV, exists v, find_child rec s a b l RV = Some v /\ _)
    by (intros RV; apply (IH RV); [intros x Hx; apply Hsub; by constructor|intros; apply Hs; by constructor|
          intros; apply Hr; by constructor|intros c' C' h' Hc'; apply Hg; by constructor]).
  clear IH. destruct (is_kind RGN_Try C) eqn:Ek; simpl.
  - rewrite is_kind_true in Ek. destruct (rgnRangeIsEnclosedInRegion a b C) eqn:Ee.
    + destruct (Hr c) as [r Hrc]; [constructor|]. rewrite Hrc. exists (Some r).
      split; [done|]. right. exists c. split; [|by eauto]. exists c, C. auto 10.
    + destruct (find_handler_spec rec s a b (Children C) RetVal) as (v & -> & Hv);
        [intros h Hh; apply (Hg c C h); [constructor|done..].. |]. simpl.
      destruct (IH' v) as (w & -> & Hw). exists w. split; [done|].
      destruct Hw as [[-> Hall]|Hw]; [|by right].
      destruct Hv as [[-> Hno]|(h & H & Hh & HH & Hk & He & Hrh & Hsm)].
      * left. split; [done|]. intros c' C' [->|Hin]%elem_of_cons HC' Hk'; [|by apply (Hall c' C')].
        simplify_eq. split; [done|]. exact Hno.
      * right. exists h. split; [|done]. exists c, C. split_and!; try done. right. eauto 10.
  - destruct (IH' RetVal) as (w & -> & Hw). exists w. split; [done|].
    destruct Hw as [[-> Hall]|Hw]; [|by right]. left. split; [done|].
    intros c' C' [->|Hin]%elem_of_cons HC' Hk'; [|by apply (Hall c' C')].
    simplify_eq. rewrite is_kind_false in Ek. done.
Qed.

(** The result of the search: the start region or an enclosing one, with no
    candidate below it. *)
Definition lowest (s : arena) (a b : Z) (tree r : nat) : Prop :=
  exists R, s !! r = Some R /\
    (r = tree \/ rgnRangeIsEnclosedInRegion a b R = true) /\
    forall q, ~ candidate s a b R q.

Lemma find_lowest_spec s a b :
  arena_ok s -> forall fuel tree,
  (tree < length s)%nat -> (length s < tree + fuel)%nat ->
  exists r, rgnFindLowestEnclosingRegion fuel s tree a b = Some r /\ lowest s a b tree r.
Proof.
  intros [_ Hok] fuel. induction fuel as [|fuel IH]; intros tree Hlt Hf; [lia|]. simpl.
  destruct (lookup_lt_is_Some_2 s tree Hlt) as [T HT]. rewrite HT. simpl.
  destruct (Hok tree T HT) as [_ Hch _].
  assert (Hbelow : forall i c C, s !! i = Some C -> c ∈ Children C ->
    (tree <= i)%nat -> (tree < c < length s)%nat).
  { intros i c C HC Hin Hi. destruct (Hok i C HC) as [_ Hc _].
    destruct (Hc c Hin) as (D & HD & _ & ?). apply lookup_lt_Some in HD. lia. }
  assert (Hrec : forall c, (tree < c < length s)%nat ->
    is_Some (rgnFindLowestEnclosingRegion fuel s c a b)).
  { intros c Hc. destruct (IH c ltac:(lia) ltac:(lia)) as (r & -> & _). eauto. }
  destruct (find_child_spec (fun c => rgnFindLowestEnclosingRegion fuel s c a b)
              s a b T (Children T) None) as (v & -> & Hv); [done|..].
  - intros c Hc. destruct (Hch c Hc) as (C & -> & _). eauto.
  - intros c Hc. by apply Hrec, (Hbelow tree c T).
  - intros c C h Hc HC Hh. pose proof (Hbelow tree c T HT Hc ltac:(lia)).
    pose proof (Hbelow c h C HC Hh ltac:(lia)). split; [|by apply Hrec].
    apply lookup_lt_is_Some. lia.
  - simpl. destruct Hv as [[-> Hall]|(r & Hcand & Hr & [w ->])]; simpl.
    + exists tree. split; [done|]. exists T. split_and!; [done|by left|].
      intros q (c & C & Hin & HC & Hk & [[-> He]|(He & Hq & H & HH & HkH & HeH)]);
        destruct (Hall c C Hin HC Hk) as [Hf1 Hf2]; [congruence|].
      rewrite (Hf2 q H Hq HH HkH) in HeH. done.
    + exists w. split; [done|].
      assert (Hrange : (tree < r < length s)%nat /\
        exists R, s !! r = Some R /\ rgnRangeIsEnclosedInRegion a b R = true).
      { destruct Hcand as (c & C & Hin & HC & Hk & [[-> He]|(He & Hq & H & HH & HkH & HeH)]).
        - split; [by apply (Hbelow tree c T)|eauto].
        - pose proof (Hbelow tree c T HT Hin ltac:(lia)).
          split; [pose proof (Hbelow c r C HC Hq ltac:(lia)); lia|eauto]. }
      destruct Hrange as [Hrr (R & HR & He)].
      destruct (IH r ltac:(lia) ltac:(lia)) as (w' & Hw' & Hlow). rewrite Hr in Hw'.
      simplify_eq. destruct Hlow as (W & HW & Hor & Hno). exists W. split_and!; [done| |done].
      right. destruct Hor as [->|]; [|done]. by simplify_eq.
Qed.

(** ** Building *)

Lemma alter_last {A} (f : A -> A) (l : list A) (x : A) :
  alter f (length l) (l ++ [x]) = l ++ [f x].
Proof. by rewrite alter_app_r_alt, Nat.sub_diag by lia. Qed.

Lemma make_region_leaf st k p :
  (p < length (rs_arena st))%nat ->
  rgnMakeRegion st k (Some p) =
    (RegionState (add_leaf (rs_arena st) p (Rgn (Some p) [] 0 0 UZero k))
       (length (rs_arena st) :: rs_all st), length (rs_arena st)).
Proof.
  intros H. unfold rgnMakeRegion, rgnPushRegionChild, add_leaf.
  by rewrite alter_app_l by done.
Qed.

#[local] Opaque rgnMakeRegion.

(** Updating a region just added. *)
Lemma alter_new_leaf f s p R :
  alter f (length s) (add_leaf s p R) = add_leaf s p (f R).
Proof.
  unfold add_leaf. set (q := alter _ p s).
  replace (length s) with (length q) by (unfold q; apply length_alter).
  apply alter_last.
Qed.

(** Updating a region under one added after it. *)
Lemma alter_under_leaf f s p R n :
  n <> p -> (n < length s)%nat ->
  alter f n (add_leaf s p R) = add_leaf (alter f n s) p R.
Proof.
  intros Hne Hlt. unfold add_leaf. rewrite alter_app_l by (by rewrite length_alter).
  rewrite length_alter. f_equal. apply list_eq. intros i.
  rewrite !list_lookup_alter. repeat case_decide; by subst.
Qed.

Section Tree.

Context (CORINFO_EH_CLAUSE_FILTER CORINFO_EH_CLAUSE_FINALLY CORINFO_EH_CLAUSE_FAULT : Z).

Definition is_filter (c : CORINFO_EH_CLAUSE) : bool := has_flag c CORINFO_EH_CLAUSE_FILTER.

Definition handler_kind (c : CORINFO_EH_CLAUSE) : RegionKind :=
  if is_filter c then RGN_MExcept
  else if has_flag c CORINFO_EH_CLAUSE_FINALLY then RGN_Finally
  else if has_flag c CORINFO_EH_CLAUSE_FAULT then RGN_Fault
  else RGN_MCatch.

Definition handler_extra (c : CORINFO_EH_CLAUSE) : RegionUnion :=
  match handler_kind c with RGN_MCatch => UCatchClassToken (ClassToken c) | _ => UZero end.

Definition handler_rgn (t : nat) (c : CORINFO_EH_CLAUSE) : EHRegion :=
  Rgn (Some t) [] (HandlerOffset c) (u32 (HandlerOffset c + HandlerLength c))
      (handler_extra c) (handler_kind c).
Definition filter_rgn (t h : nat) (c : CORINFO_EH_CLAUSE) : EHRegion :=
  Rgn (Some t) [] (FilterOffset c) (HandlerOffset c) (UHandlerRegion h) RGN_Filter.
Definition try_rgn (p t : nat) (c : CORINFO_EH_CLAUSE) : EHRegion :=
  Rgn (Some p) [] (TryOffset c) (u32 (TryOffset c + TryLength c)) (UEntryRegion t) RGN_Try.

(** The arena after the handler regions of [c] have been made below [t]. *)
Definition with_handlers (s : arena) (t : nat) (c : CORINFO_EH_CLAUSE) : arena :=
  let s1 := add_leaf s t (handler_rgn t c) in
  if is_filter c then add_leaf s1 t (filter_rgn t (length s) c) else s1.

Definition check_entry (s : arena) (c : CORINFO_EH_CLAUSE) : nat :=
  if is_filter c then S (length s) else length s.

Abbreviation make_handler' := (make_handler CORINFO_EH_CLAUSE_FILTER
  CORINFO_EH_CLAUSE_FINALLY CORINFO_EH_CLAUSE_FAULT).
Abbreviation add_clause' := (add_clause CORINFO_EH_CLAUSE_FILTER
  CORINFO_EH_CLAUSE_FINALLY CORINFO_EH_CLAUSE_FAULT).

Lemma make_handler_eq st c t :
  (t < length (rs_arena st))%nat ->
  let '(st2, h, chk) := make_handler' st c t in
  rgnSetEndMSILOffset
    (rgnSetStartMSILOffset (rs_arena st2) h (HandlerOffset c)) h
    (u32 (HandlerOffset c + HandlerLength c)) = with_handlers (rs_arena st) t c /\
  chk = check_entry (rs_arena st) c.
Proof.
  intros Ht. unfold make_handler, with_handlers, check_entry, handler_rgn, handler_extra,
    handler_kind, is_filter, rgnSetEndMSILOffset, rgnSetStartMSILOffset.
  destruct (has_flag c CORINFO_EH_CLAUSE_FILTER) eqn:E1.
  { rewrite make_region_leaf by done. rewrite make_region_leaf by
      (simpl; rewrite length_add_leaf; lia). simpl. split; [|by rewrite length_add_leaf].
    rewrite !alter_new_leaf. rewrite !alter_under_leaf by
      (rewrite ?length_alter, ?length_add_leaf; lia).
    by rewrite !alter_new_leaf. }
  destruct (has_flag c CORINFO_EH_CLAUSE_FINALLY) eqn:E2;
    [|destruct (has_flag c CORINFO_EH_CLAUSE_FAULT) eqn:E3];
    rewrite make_region_leaf by done; simpl; (split; [|done]);
    by rewrite !alter_new_leaf.
Qed.

Lemma make_try_spec st c :
  arena_ok (rs_arena st) ->
  exists st1 t, make_try st c = Some (st1, t) /\
    ((st1 = st /\ exists T, rs_arena st !! t = Some T /\
        Kind T = RGN_Try /\ StartMsilOffset T = TryOffset c /\
        EndMsilOffset T = u32 (TryOffset c + TryLength c)) \/
     (exists p, t = length (rs_arena st) /\ rs_all st1 = t :: rs_all st /\
        rs_arena st1 = add_leaf (rs_arena st) p (try_rgn p t c) /\
        lowest (rs_arena st) (TryOffset c) (u32 (TryOffset c + TryLength c)) 0 p)).
Proof.
  intros Hok. destruct (ao_root _ Hok) as (R0 & H0 & _).
  apply lookup_lt_Some in H0 as Hlt.
  destruct (find_lowest_spec (rs_arena st) (TryOffset c) (u32 (TryOffset c + TryLength c))
              Hok (S (length (rs_arena st))) 0%nat Hlt ltac:(lia)) as (p & Hp & Hlow).
  unfold make_try. rewrite Hp. simpl.
  pose proof Hlow as (P & HP & _). rewrite HP. simpl.
  destruct (is_kind RGN_Try P && _ && _) eqn:E.
  - exists st, p. split; [done|]. left. split; [done|]. exists P.
    zbool. rewrite is_kind_true in *. auto.
  - rewrite make_region_leaf by (by eapply lookup_lt_Some). simpl.
    eexists _, _. split; [reflexivity|]. right. exists p. split_and!; [done..| |done].
    simpl. unfold rgnSetEntryRegion, rgnSetEndMSILOffset, rgnSetStartMSILOffset.
    by rewrite !alter_new_leaf.
Qed.

(** *** What the tree says of the clauses *)

Definition lexical (R : EHRegion) : bool :=
  rgnIsOutsideParent R && negb (is_kind RGN_MExcept R).

(** The entry region of a try starts no later than the try and each of its
    filters and handlers (a filter's handler follows the filter). *)
Definition entry_at (s : arena) (R : EHRegion) : Prop :=
  exists e E, Extra R = UEntryRegion e /\ s !! e = Some E /\
    StartMsilOffset E <= StartMsilOffset R /\
    forall c C, c ∈ Children R -> s !! c = Some C -> lexical C = true ->
      StartMsilOffset E <= StartMsilOffset C.

Definition entry_first (s : arena) : Prop :=
  forall i R, s !! i = Some R -> Kind R = RGN_Try -> entry_at s R.

Definition try_nested (s : arena) : Prop :=
  forall i R p P, s !! i = Some R -> Kind R = RGN_Try -> Parent R = Some p ->
    p <> 0%nat -> s !! p = Some P ->
    rgnRangeIsEnclosedInRegion (StartMsilOffset R) (EndMsilOffset R) P = true.

Definition region_of (c : CORINFO_EH_CLAUSE) (R : EHRegion) : Prop :=
  (Kind R = RGN_Try /\ StartMsilOffset R = TryOffset c /\
     EndMsilOffset R = u32 (TryOffset c + TryLength c)) \/
  (Kind R = handler_kind c /\ StartMsilOffset R = HandlerOffset c /\
     EndMsilOffset R = u32 (HandlerOffset c + HandlerLength c)) \/
  (is_filter c = true /\ Kind R = RGN_Filter /\ StartMsilOffset R = FilterOffset c /\
     EndMsilOffset R = HandlerOffset c).

(** The try, the handler and the filter of a clause are in the tree. *)
Definition represented (s : arena) (c : CORINFO_EH_CLAUSE) : Prop :=
  exists t T h H, s !! t = Some T /\ Kind T = RGN_Try /\
    StartMsilOffset T = TryOffset c /\ EndMsilOffset T = u32 (TryOffset c + TryLength c) /\
    s !! h = Some H /\ Parent H = Some t /\ Kind H = handler_kind c /\
    StartMsilOffset H = HandlerOffset c /\
    EndMsilOffset H = u32 (HandlerOffset c + HandlerLength c) /\
    Extra H = handler_extra c /\
    (is_filter c = true -> exists f F, s !! f = Some F /\ Parent F = Some t /\
       Kind F = RGN_Filter /\ Extra F = UHandlerRegion h /\
       StartMsilOffset F = FilterOffset c /\ EndMsilOffset F = HandlerOffset c).

Record tree_inv (ILCodeSize : Z) (cs : list CORINFO_EH_CLAUSE) (st : region_state) : Prop := {
  ti_ok : arena_ok (rs_arena st);
  ti_entry : entry_first (rs_arena st);
  ti_nested : try_nested (rs_arena st);
  ti_from : forall i R, rs_arena st !! i = Some R -> i <> 0%nat ->
    exists c, c ∈ cs /\ region_of c R;
  ti_rep : Forall (represented (rs_arena st)) cs;
  ti_root : exists R, rs_arena st !! 0%nat = Some R /\ StartMsilOffset R = 0 /\
    EndMsilOffset R = ILCodeSize;
  ti_all : rs_all st = rev (seq 0 (length (rs_arena st))) }.

Lemma handler_kind_not_try c : handler_kind c <> RGN_Try.
Proof. unfold handler_kind. by repeat case_match. Qed.

Lemma represented_extends s s' c : extends s s' -> represented s c -> represented s' c.
Proof.
  intros Hx (t & T & h & H & Ht & HkT & HsT & HeT & Hh & Hp & HkH & HsH & HeH & HxH & Hf).
  destruct (Hx t T Ht) as (T' & HT' & _ & ? & ? & ? & _).
  destruct (Hx h H Hh) as (H' & HH' & ? & ? & ? & ? & _ & HeqH).
  exists t, T', h, H'. split_and!; try congruence.
  - rewrite HeqH; [done|]. rewrite HkH. apply handler_kind_not_try.
  - intros Hfl. destruct (Hf Hfl) as (f & F & HF & ? & Hk & ? & ? & ?).
    destruct (Hx f F HF) as (F' & HF' & ? & ? & ? & ? & _ & HeqF).
    exists f, F'. split_and!; try congruence. rewrite HeqF; [done|]. by rewrite Hk.
Qed.

Lemma lexical_same R R' : Kind R = Kind R' -> lexical R = lexical R'.
Proof. unfold lexical, rgnIsOutsideParent, is_kind. by intros ->. Qed.

(** The entry property of a try whose children and entry do not change. *)
Lemma entry_at_extends s s' i R R' :
  arena_ok s -> extends s s' -> s !! i = Some R ->
  StartMsilOffset R' = StartMsilOffset R -> Extra R' = Extra R ->
  (forall c C, c ∈ Children R' -> s' !! c = Some C -> lexical C = true -> c ∈ Children R) ->
  entry_at s R -> entry_at s' R'.
Proof.
  intros Hok Hx HR Hst Hex Hsub (e & E & He & HE & Hle & Hc).
  destruct (Hx e E HE) as (E' & HE' & _ & HsE & _).
  exists e, E'. split_and!; [congruence|done|lia|]. intros c C Hin HC Hl.
  specialize (Hsub c C Hin HC Hl).
  destruct (ro_children _ _ _ (ao_region _ Hok i R HR) c Hsub) as (D & HD & _).
  destruct (Hx c D HD) as (D' & HD' & _ & HsD & _ & HkD & _). simplify_eq.
  rewrite HsE, HsD. apply (Hc c D); [done..|]. by rewrite <- (lexical_same C D).
Qed.

Lemma entry_first_add_try s p c P :
  arena_ok s -> s !! p = Some P -> entry_first s ->
  entry_first (add_leaf s p (try_rgn p (length s) c)).
Proof.
  intros Hok HP Hef i R HR Hk. pose proof (extends_add_leaf s p (try_rgn p (length s) c)) as Hx.
  apply add_leaf_cases in HR as [[-> ->]|(Y & HY & Hne & ->)].
  - exists (length s), (try_rgn p (length s) c). rewrite add_leaf_lookup_new.
    split_and!; [done..|]. intros d D Hd. by apply elem_of_nil in Hd.
  - apply (entry_at_extends s _ i Y); try done; [by case_decide..| |].
    + intros d D Hd HD Hl. case_decide; [|done]. apply elem_of_cons in Hd as [->|]; [|done].
      rewrite add_leaf_lookup_new in HD. by simplify_eq.
    + apply (Hef i Y HY). by case_decide.
Qed.

(** *** One iteration *)

Lemma with_handlers_facts s t T c :
  arena_ok s -> s !! t = Some T -> Kind T = RGN_Try ->
  let s2 := with_handlers s t c in
  arena_ok s2 /\ extends s s2 /\ s2 !! length s = Some (handler_rgn t c) /\
  (is_filter c = true -> s2 !! S (length s) = Some (filter_rgn t (length s) c)) /\
  length s2 = S (check_entry s c) /\
  (exists T2, s2 !! t = Some T2 /\ Extra T2 = Extra T /\ Kind T2 = RGN_Try /\
     Children T2 = (if is_filter c then [S (length s); length s] else [length s]) ++ Children T) /\
  (forall i, i <> t -> (i < length s)%nat -> s2 !! i = s !! i).
Proof.
  intros Hok HT HkT s2. pose proof (handler_kind_not_try c) as Hnt.
  apply lookup_lt_Some in HT as Hlt.
  set (s1 := add_leaf s t (handler_rgn t c)).
  assert (Hok1 : arena_ok s1).
  { apply (arena_ok_add_leaf s t T); simpl; try done.
    unfold handler_kind. by repeat case_match. }
  assert (HT1 : s1 !! t = Some (set_Children (length s :: Children T) T)).
  { unfold s1. rewrite (add_leaf_lookup_old _ _ _ _ _ HT). by case_decide. }
  assert (Hn1 : s1 !! length s = Some (handler_rgn t c)) by apply add_leaf_lookup_new.
  assert (Hl1 : length s1 = S (length s)) by apply length_add_leaf.
  assert (Ho1 : forall i, i <> t -> (i < length s)%nat -> s1 !! i = s !! i).
  { intros i Hi Hil. destruct (lookup_lt_is_Some_2 s i Hil) as [X HX].
    unfold s1. rewrite (add_leaf_lookup_old _ _ _ _ _ HX). by case_decide. }
  unfold s2, with_handlers, check_entry. destruct (is_filter c) eqn:Ef.
  2: { split_and!; try done; [apply extends_add_leaf|]. eexists. by split_and!. }
  fold s1. set (F := filter_rgn t (length s) c). split_and!.
  - by eapply (arena_ok_add_leaf s1 t).
  - eapply extends_trans; apply extends_add_leaf.
  - rewrite (add_leaf_lookup_old _ _ _ _ _ Hn1). case_decide; [lia|done].
  - intros _. rewrite <- Hl1. apply add_leaf_lookup_new.
  - by rewrite length_add_leaf, Hl1.
  - rewrite (add_leaf_lookup_old _ _ _ _ _ HT1). case_decide; [|done].
    eexists. split; [done|]. simpl. by rewrite Hl1.
  - intros i Hi Hil. destruct (lookup_lt_is_Some_2 s i Hil) as [X HX].
    pose proof HX as HX1. rewrite <- (Ho1 i Hi Hil) in HX1.
    rewrite (add_leaf_lookup_old _ _ _ _ _ HX1), HX. by case_decide.
Qed.

(** The entry update at the end of an iteration. *)
Definition entry_update (s : arena) (t chk e : nat) (CheckStart EntryStart : Z) : arena :=
  if CheckStart <? EntryStart then rgnSetEntryRegion s t chk else s.

Lemma entry_update_facts s t T c e E :
  arena_ok s -> entry_first s -> s !! t = Some T -> Kind T = RGN_Try ->
  Extra T = UEntryRegion e -> s !! e = Some E ->
  let s2 := with_handlers s t c in
  let s3 := entry_update s2 t (check_entry s c) e
              (if is_filter c then FilterOffset c else HandlerOffset c) (StartMsilOffset E) in
  arena_ok s3 /\ extends s2 s3 /\ entry_first s3.
Proof.
  intros Hok Hef HT HkT HeT HE s2 s3.
  destruct (with_handlers_facts s t T c Hok HT HkT)
    as (Hok2 & Hx2 & HH & HF & Hlen & (T2 & HT2 & Hex2 & Hk2 & Hch2) & Hold).
  fold s2 in Hok2, Hx2, HH, HF, Hlen, HT2, Hold.
  destruct (Hef t T HT HkT) as (e' & E' & He' & HE' & HleT & Hmin).
  rewrite HeT in He'. injection He' as <-. rewrite HE in HE'. injection HE' as <-.
  destruct (Hx2 t T HT) as (T2' & HT2' & _ & HsT & _).
  rewrite HT2 in HT2'. injection HT2' as <-.
  destruct (Hx2 e E HE) as (E2 & HE2 & _ & HsE & _).
  set (chk := check_entry s c) in *.
  set (cs := if is_filter c then FilterOffset c else HandlerOffset c) in *.
  assert (HC : exists C, s2 !! chk = Some C /\ StartMsilOffset C = cs).
  { unfold chk, check_entry, cs. destruct (is_filter c); eauto. }
  destruct HC as (C & HC & HsC).
  assert (Hchk : chk ∈ Children T2).
  { rewrite Hch2. unfold chk, check_entry. destruct (is_filter c); constructor. }
  assert (Hx3 : extends s2 s3).
  { unfold s3, entry_update. destruct (cs <? StartMsilOffset E); [by eapply extends_set_entry|apply extends_refl]. }
  assert (Hok3 : arena_ok s3).
  { unfold s3, entry_update. destruct (cs <? StartMsilOffset E); [by eapply arena_ok_set_entry|done]. }
  split_and!; [done..|]. intros i R HR HkR. destruct (decide (i = t)) as [->|Hne].
  - set (m := if cs <? StartMsilOffset E then chk else e).
    set (M := if cs <? StartMsilOffset E then C else E2).
    assert (HR3 : R = if cs <? StartMsilOffset E then set_Extra (UEntryRegion chk) T2 else T2).
    { unfold s3, entry_update in HR. destruct (cs <? StartMsilOffset E); [|congruence].
      rewrite set_entry_lookup, HT2 in HR. case_decide; simplify_eq/=. done. }
    assert (HM : s2 !! m = Some M) by (unfold m, M; by destruct (cs <? StartMsilOffset E)).
    destruct (Hx3 m M HM) as (M3 & HM3 & _ & HsM & _). exists m, M3.
    assert (HleM : StartMsilOffset M <= StartMsilOffset E /\ StartMsilOffset M <= cs).
    { unfold M. destruct (Z.ltb_spec cs (StartMsilOffset E)); lia. }
    assert (HchR : Children R = Children T2 /\ StartMsilOffset R = StartMsilOffset T2)
      by (rewrite HR3; by destruct (cs <? StartMsilOffset E)).
    destruct HchR as [HchR HsR]. split_and!; [|done|lia|].
    { rewrite HR3. unfold m. destruct (cs <? StartMsilOffset E); [done|congruence]. }
    intros d D Hd HD Hl. rewrite HchR in Hd.
    destruct (ro_children _ _ _ (ao_region _ Hok2 t T2 HT2) d Hd) as (D2 & HD2 & _ & _).
    destruct (Hx3 d D2 HD2) as (D3 & HD3 & _ & HsD & _ & HkD & _).
    rewrite HD in HD3. injection HD3 as <-.
    rewrite (lexical_same D D2 HkD) in Hl.
    rewrite Hch2 in Hd. apply elem_of_app in Hd as [Hd|Hd].
    + enough (StartMsilOffset D2 = cs) by lia. unfold cs in *. destruct (is_filter c) eqn:Ef.
      * apply elem_of_cons in Hd as [->|[->|Hd%elem_of_nil]%elem_of_cons]; [|exfalso|done].
        -- rewrite HF in HD2 by done. by injection HD2 as <-.
        -- rewrite HH in HD2. injection HD2 as <-. unfold lexical, is_kind, handler_rgn in Hl. simpl in Hl.
           unfold handler_kind in Hl. rewrite Ef in Hl. by rewrite andb_false_r in Hl.
      * apply elem_of_cons in Hd as [->|Hd%elem_of_nil]; [|done].
        rewrite HH in HD2. by injection HD2 as <-.
    + destruct (ro_children _ _ _ (ao_region _ Hok t T HT) d Hd) as (D1 & HD1 & _).
      destruct (Hx2 d D1 HD1) as (D2' & HD2' & _ & HsD1 & _ & HkD1 & _).
      rewrite HD2 in HD2'. injection HD2' as <-.
      specialize (Hmin d D1 Hd HD1). rewrite (lexical_same D2 D1 HkD1) in Hl.
      specialize (Hmin Hl). lia.
  - assert (HR2 : s2 !! i = Some R).
    { unfold s3, entry_update in HR. destruct (cs <? StartMsilOffset E); [|done].
      rewrite set_entry_lookup in HR. by case_decide. }
    assert (Hil : (i < length s)%nat).
    { apply lookup_lt_Some in HR2 as Hlt. rewrite Hlen in Hlt. unfold chk, check_entry in Hlt.
      destruct (decide (i = length s)) as [->|Hn].
      { rewrite HH in HR2. simplify_eq. by destruct (handler_kind_not_try c). }
      destruct (is_filter c) eqn:Ef; [|lia]. destruct (decide (i = S (length s))) as [->|]; [|lia].
      rewrite HF in HR2 by done. by simplify_eq. }
    rewrite Hold in HR2 by done.
    apply (entry_at_extends s s3 i R); try done; [by eapply extends_trans|by apply (Hef i)].
Qed.

Lemma try_nested_leaf s p R :
  arena_ok s -> try_nested s -> Parent R = Some p ->
  (Kind R = RGN_Try -> p <> 0%nat -> forall P, s !! p = Some P ->
     rgnRangeIsEnclosedInRegion (StartMsilOffset R) (EndMsilOffset R) P = true) ->
  (p < length s)%nat -> try_nested (add_leaf s p R).
Proof.
  intros Hok Hn Hp HR Hlt i X q Q HX Hk Hq Hq0 HQ.
  assert (Henc : forall P P', StartMsilOffset P' = StartMsilOffset P ->
    EndMsilOffset P' = EndMsilOffset P -> forall a b,
    rgnRangeIsEnclosedInRegion a b P = true -> rgnRangeIsEnclosedInRegion a b P' = true).
  { intros P P' H1 H2 a b. unfold rgnRangeIsEnclosedInRegion. by rewrite H1, H2. }
  assert (HQold : forall P, s !! q = Some P -> StartMsilOffset Q = StartMsilOffset P /\
    EndMsilOffset Q = EndMsilOffset P).
  { intros P HP. rewrite (add_leaf_lookup_old _ _ _ _ _ HP) in HQ. simplify_eq.
    by case_decide. }
  apply add_leaf_cases in HX as [[-> ->]|(Y & HY & Hne & ->)].
  - rewrite Hp in Hq. simplify_eq. destruct (lookup_lt_is_Some_2 s q Hlt) as [P HP].
    destruct (HQold P HP) as [H1 H2]. apply (Henc P Q H1 H2). by apply HR.
  - assert (Hi : i <> 0%nat).
    { intros ->. destruct (ao_root _ Hok) as (R0 & H0 & Hk0 & _). simplify_eq.
      case_decide; simpl in Hk; congruence. }
    destruct (ro_parent _ _ _ (ao_region _ Hok i Y HY) Hi) as (_ & q' & P & Hq' & _ & HP & _).
    assert (q' = q) as -> by (case_decide; simpl in Hq; congruence).
    destruct (HQold P HP) as [H1 H2]. apply (Henc P Q H1 H2).
    enough (rgnRangeIsEnclosedInRegion (StartMsilOffset Y) (EndMsilOffset Y) P = true)
      by (by case_decide). apply (Hn i Y q P); try done; by case_decide.
Qed.

Lemma try_nested_extends s s' :
  arena_ok s -> extends s s' -> length s' = length s -> try_nested s -> try_nested s'.
Proof.
  intros Hok Hx Hlen Hn i R' p P' HR' Hk Hp Hp0 HP'.
  destruct (lookup_lt_is_Some_2 s i) as [R HR]. { rewrite <- Hlen. by eapply lookup_lt_Some. }
  destruct (lookup_lt_is_Some_2 s p) as [P HP]. { rewrite <- Hlen. by eapply lookup_lt_Some. }
  destruct (Hx i R HR) as (R2 & HR2 & HpR & HsR & HeR & HkR & _).
  destruct (Hx p P HP) as (P2 & HP2 & _ & HsP & HeP & _). simplify_eq.
  unfold rgnRangeIsEnclosedInRegion. rewrite HsR, HeR, HsP, HeP.
  apply (Hn i R p P); congruence.
Qed.

(** Regions of [s'] are those of [s] or come from [c]. *)
Definition only_from (c : CORINFO_EH_CLAUSE) (s s' : arena) : Prop :=
  forall i R, s' !! i = Some R -> (length s <= i)%nat -> region_of c R.

Lemma from_step c cs s s' :
  (forall i R, s !! i = Some R -> i <> 0%nat -> exists d, d ∈ cs /\ region_of d R) ->
  extends s s' -> only_from c s s' ->
  forall i R, s' !! i = Some R -> i <> 0%nat -> exists d, d ∈ c :: cs /\ region_of d R.
Proof.
  intros Hold Hx Hnew i R HR Hi. destruct (decide (length s <= i)%nat) as [Hle|Hlt].
  - exists c. split; [constructor|by eapply Hnew].
  - destruct (lookup_lt_is_Some_2 s i ltac:(lia)) as [Y HY].
    destruct (Hold i Y HY Hi) as (d & Hd & Hr). exists d. split; [by constructor|].
    destruct (Hx i Y HY) as (R' & HR' & _ & Hs & He & Hk & _). simplify_eq.
    unfold region_of in *. by rewrite Hs, He, Hk.
Qed.

(** [make_try] keeps the invariants. *)
Lemma make_try_inv st c :
  arena_ok (rs_arena st) -> entry_first (rs_arena st) -> try_nested (rs_arena st) ->
  rs_all st = rev (seq 0 (length (rs_arena st))) ->
  exists st1 t T, make_try st c = Some (st1, t) /\
    arena_ok (rs_arena st1) /\ entry_first (rs_arena st1) /\ try_nested (rs_arena st1) /\
    rs_all st1 = rev (seq 0 (length (rs_arena st1))) /\
    extends (rs_arena st) (rs_arena st1) /\ only_from c (rs_arena st) (rs_arena st1) /\
    rs_arena st1 !! t = Some T /\ Kind T = RGN_Try /\ StartMsilOffset T = TryOffset c /\
    EndMsilOffset T = u32 (TryOffset c + TryLength c).
Proof.
  intros Hok Hef Htn Hall. set (s := rs_arena st) in *.
  assert (Hnone : only_from c s s) by (intros i R HR Hle; apply lookup_lt_Some in HR; lia).
  destruct (make_try_spec st c Hok) as (st1 & t & Hmk & Hor). exists st1, t.
  destruct Hor as [[-> (T & HT & HkT & HsT & HeT)]|(p & -> & Hall1 & Heq & Hlow)].
  { exists T. fold s. split_and!; try done. apply extends_refl. }
  fold s in Heq, Hall1, Hlow, Hmk |- *. destruct Hlow as (P & HP & Henc & _).
  apply lookup_lt_Some in HP as Hlt.
  exists (try_rgn p (length s) c). rewrite Heq. split_and!; try done.
  - by apply (arena_ok_add_leaf s p P).
  - by apply (entry_first_add_try s p c P).
  - apply try_nested_leaf; try done. simpl. intros _ Hp0 P' HP'. simplify_eq.
    by destruct Henc.
  - rewrite Hall1, Hall, length_add_leaf, seq_S, rev_app_distr. done.
  - apply extends_add_leaf.
  - intros i R HR Hle. apply add_leaf_cases in HR as [[_ ->]|(Y & HY & _)].
    + by left.
    + apply lookup_lt_Some in HY. lia.
  - apply add_leaf_lookup_new.
Qed.

Lemma make_handler_all st c t :
  (t < length (rs_arena st))%nat ->
  let '(st2, h, _) := make_handler' st c t in
  h = length (rs_arena st) /\
  rs_all st2 = (if is_filter c then [S (length (rs_arena st)); length (rs_arena st)]
                else [length (rs_arena st)]) ++ rs_all st.
Proof.
  intros Ht. unfold make_handler, is_filter.
  destruct (has_flag c CORINFO_EH_CLAUSE_FILTER).
  { rewrite make_region_leaf by done. rewrite make_region_leaf by
      (simpl; rewrite length_add_leaf; lia). simpl. by rewrite length_add_leaf. }
  repeat case_match; rewrite make_region_leaf in * by done; by simplify_eq/=.
Qed.

(** A new handler or filter is not a try, so it nests nothing. *)
Lemma with_handlers_nested s t T c :
  arena_ok s -> s !! t = Some T -> Kind T = RGN_Try ->
  try_nested s -> try_nested (with_handlers s t c).
Proof.
  intros Hok HT HkT Hn. apply lookup_lt_Some in HT as Hlt.
  pose proof (handler_kind_not_try c) as Hnt. unfold with_handlers.
  assert (H1 : try_nested (add_leaf s t (handler_rgn t c))) by (by apply try_nested_leaf).
  destruct (is_filter c) eqn:Ef; [|done]. apply try_nested_leaf; try done.
  - eapply (arena_ok_add_leaf s t T); simpl; try done. unfold handler_kind. by repeat case_match.
  - rewrite length_add_leaf. lia.
Qed.

Lemma with_handlers_from s t T c :
  arena_ok s -> s !! t = Some T -> Kind T = RGN_Try ->
  only_from c s (with_handlers s t c).
Proof.
  intros Hok HT HkT i R HR Hle.
  destruct (with_handlers_facts s t T c Hok HT HkT) as (_ & _ & HH & HF & Hlen & _ & _).
  apply lookup_lt_Some in HR as Hlt. rewrite Hlen in Hlt. unfold check_entry in Hlt.
  destruct (decide (i = length s)) as [->|Hne].
  { rewrite HH in HR. simplify_eq. right. left. done. }
  destruct (is_filter c) eqn:Ef; [|lia].
  replace i with (S (length s)) in HR by lia. rewrite HF in HR by done. simplify_eq.
  right. right. done.
Qed.

Lemma add_clause_inv size cs st c :
  tree_inv size cs st ->
  exists st', add_clause' st c = Some st' /\ tree_inv size (c :: cs) st'.
Proof.
  intros [Hok Hef Htn Hfrom Hrep Hroot Hall].
  destruct (make_try_inv st c Hok Hef Htn Hall)
    as (st1 & t & T & Hmk & Hok1 & Hef1 & Htn1 & Hall1 & Hx1 & Hof1 & HT & HkT & HsT & HeT).
  unfold add_clause. rewrite Hmk. simpl. set (s1 := rs_arena st1) in *.
  apply lookup_lt_Some in HT as Hlt.
  pose proof (make_handler_eq st1 c t Hlt) as Hmh. pose proof (make_handler_all st1 c t Hlt) as Hma.
  destruct (make_handler' st1 c t) as [[st2 h] chk] eqn:Emh. fold s1 in Hmh, Hma.
  destruct Hmh as [Hs2 ->]. destruct Hma as [-> Hall2]. simpl. rewrite Hs2.
  destruct (with_handlers_facts s1 t T c Hok1 HT HkT)
    as (Hok2 & Hx2 & HH & HF & Hlen & (T2 & HT2 & Hex2 & Hk2 & Hch2) & Hold).
  set (s2 := with_handlers s1 t c) in *.
  destruct (Hef1 t T HT HkT) as (e & E & HeT1 & HE & Hle1 & _).
  destruct (Hx2 e E HE) as (E2 & HE2 & _ & HsE & _).
  unfold rgnGetEntryRegion. rewrite HT2. simpl. rewrite Hex2, HeT1. simpl.
  unfold rgnGetStartMSILOffset. rewrite HE2. simpl.
  set (cst := if is_filter c then FilterOffset c else HandlerOffset c).
  assert (HC : StartMsilOffset <$> s2 !! check_entry s1 c = Some cst).
  { unfold check_entry, cst. destruct (is_filter c); [by rewrite HF|by rewrite HH]. }
  rewrite HC. simpl. rewrite HsE.
  destruct (entry_update_facts s1 t T c e E Hok1 Hef1 HT HkT HeT1 HE) as (Hok3 & Hx3 & Hef3).
  fold s2 cst in Hok3, Hx3, Hef3.
  set (s3 := entry_update s2 t (check_entry s1 c) e cst (StartMsilOffset E)) in *.
  match goal with |- context [Some ?x = Some _] => set (st3 := x) end.
  assert (Hs3 : rs_arena st3 = s3 /\ rs_all st3 = rs_all st2).
  { unfold st3, s3, entry_update. destruct (cst <? _); split; simpl; rewrite ?Hs2; done. }
  destruct Hs3 as [Hs3 Hall3]. exists st3. split; [done|].
  assert (Hlen3 : length s3 = length s2).
  { unfold s3, entry_update, rgnSetEntryRegion.
    destruct (cst <? StartMsilOffset E); [apply length_alter|done]. }
  assert (Hx13 : extends s1 s3) by (by eapply extends_trans).
  assert (Hx : extends (rs_arena st) s3) by (by eapply extends_trans).
  split; rewrite ?Hs3; try done.
  - by apply (try_nested_extends s2), (with_handlers_nested s1 t T).
  - apply (from_step c cs (rs_arena st)); [done..|]. intros i R HR Hle.
    destruct (lookup_lt_is_Some_2 s2 i) as [R2 HR2].
    { rewrite <- Hlen3. by eapply lookup_lt_Some. }
    destruct (Hx3 i R2 HR2) as (R' & HR' & _ & Hs & He & Hk & _). simplify_eq.
    enough (region_of c R2) by (unfold region_of in *; by rewrite Hs, He, Hk).
    destruct (decide (length s1 <= i)%nat) as [Hle1'|Hlt1].
    + by eapply (with_handlers_from s1 t T).
    + destruct (lookup_lt_is_Some_2 s1 i ltac:(lia)) as [R1 HR1].
      destruct (Hx2 i R1 HR1) as (R2' & HR2' & _ & Hs' & He' & Hk' & _). simplify_eq.
      pose proof (Hof1 i R1 HR1 Hle) as Hr1. unfold region_of in *. by rewrite Hs', He', Hk'.
  - constructor; [|eapply Forall_impl; [exact Hrep|]; intros d; by apply represented_extends].
    apply (represented_extends s2 s3 c Hx3).
    destruct (Hx2 t T HT) as (T2' & HT2' & _ & HsT2 & HeT2 & _).
    rewrite HT2 in HT2'. injection HT2' as <-.
    exists t, T2, (length s1), (handler_rgn t c). split_and!; try done; try congruence.
    intros Hf. exists (S (length s1)), (filter_rgn t (length s1) c). by rewrite HF.
  - destruct Hroot as (R0 & H0 & Hs0 & He0). destruct (Hx 0%nat R0 H0) as (R & HR & _ & Hs & He & _).
    exists R. by split_and!; congruence.
  - rewrite Hall3, Hall2, Hlen3, Hlen, Hall1. unfold check_entry.
    destruct (is_filter c); rewrite !seq_S, !rev_app_distr; done.
Qed.

#[local] Transparent rgnMakeRegion.

Lemma root_state_inv size : tree_inv size [] (root_state size).
Proof.
  assert (Hone : forall i R, rs_arena (root_state size) !! i = Some R ->
    i = 0%nat /\ R = Rgn None [] 0 size UZero RGN_Root).
  { intros [|i] R HR; [by injection HR as <-|]. apply lookup_lt_Some in HR. simpl in HR. lia. }
  split.
  - split; [by eexists|]. intros i R HR. destruct (Hone i R HR) as [-> ->].
    split; simpl; [done| |done]. by intros c Hc%elem_of_nil.
  - intros i R HR. by destruct (Hone i R HR) as [-> ->].
  - intros i R p P HR. by destruct (Hone i R HR) as [-> ->].
  - intros i R HR. by destruct (Hone i R HR) as [-> ->].
  - constructor.
  - by eexists.
  - done.
Qed.

Lemma add_clauses_inv size cs done_cs st :
  tree_inv size done_cs st ->
  exists st', add_clauses CORINFO_EH_CLAUSE_FILTER CORINFO_EH_CLAUSE_FINALLY
                CORINFO_EH_CLAUSE_FAULT st cs = Some st' /\
              tree_inv size (rev cs ++ done_cs) st'.
Proof.
  revert done_cs st. induction cs as [|c cs IH]; intros done_cs st Hinv; simpl; [eauto|].
  destruct (add_clause_inv size done_cs st c Hinv) as (st1 & -> & H1). simpl.
  destruct (IH (c :: done_cs) st1 H1) as (st2 & -> & H2). exists st2. split; [done|].
  by rewrite <- app_assoc.
Qed.

Lemma loop_order_all cs : 0 < Z.of_nat (length cs) < 65536 -> loop_order cs = rev cs.
Proof.
  intros H. unfold loop_order. rewrite u16_small by lia.
  destruct (Z.eqb_spec (Z.of_nat (length cs)) 0); [lia|]. rewrite Nat2Z.id.
  by rewrite firstn_all.
Qed.

Lemma tree_inv_perm size cs ds st : cs ≡ₚ ds -> tree_inv size cs st -> tree_inv size ds st.
Proof.
  intros Hp [H1 H2 H3 H4 H5 H6 H7]. split; try done.
  - intros i R HR Hi. destruct (H4 i R HR Hi) as (c & Hc & Hr). exists c. by rewrite <- Hp.
  - by rewrite <- Hp.
Qed.

End Tree.

(** ** Properties *)

(** C37: [rgnCreateRegionTree] never follows a dangling pointer.  For a clause
    table that obeys the nesting rules of the EIT, of fewer than 65536 clauses
    and not empty, no assertion fails and it returns a well-formed region tree;
    for any other non-empty table of that size it either does that too, or its
    assertion on the order of the sorted clauses fails, and then one clause
    lies inside an earlier one that does not lie inside it.  The tree: parents and children agree and handlers hang off tries; a try's
    entry region is its lexically first part; a try lies inside its parent;
    every region but the root comes from a clause and every clause has its try,
    handler and filter regions with their offsets; the list of all regions holds
    each region once, newest first. *)
Theorem rgnCreateRegionTree_correct (FILTER FINALLY FAULT ILCodeSize : Z)
    (EHClauses : list CORINFO_EH_CLAUSE) :
  0 < Z.of_nat (length EHClauses) < 65536 ->
  let Result := rgnCreateRegionTree FILTER FINALLY FAULT EHClauses ILCodeSize in
  let Sorted := sort_clauses EHClauses in
  exists st, tree_inv FILTER FINALLY FAULT ILCodeSize EHClauses st /\
    (well_nested EHClauses -> Result = Some (Some st)) /\
    (Result = Some (Some st) \/
     Result = None /\ exists I J X Y, (I < J)%nat /\ Sorted !! I = Some X /\ Sorted !! J = Some Y /\
       inside Y X /\ ~ inside X Y).
Proof.
  intros Hlen Result Sorted. pose proof (sort_clauses_perm EHClauses) as Hp. unfold Result, Sorted.
  pose proof (order_not_asserted (sort_clauses EHClauses)) as Hno.
  assert (Hord : well_nested EHClauses -> order_asserted (sort_clauses EHClauses) = true).
  { intros Hw. destruct (sort_clauses_correct EHClauses Hw) as (_ & Hin & _). apply order_asserted_spec.
    intros I J X Y HIJ HX HY Hi. by destruct (Hin I J X Y HIJ HX HY). }
  unfold rgnCreateRegionTree. destruct EHClauses as [|c cs]; [simpl in Hlen; lia|].
  cbv zeta.
  rewrite loop_order_all by (by rewrite Hp).
  destruct (add_clauses_inv FILTER FINALLY FAULT ILCodeSize (rev (sort_clauses (c :: cs))) []
              (root_state ILCodeSize) (root_state_inv _ _ _ _)) as (st & -> & Hinv).
  exists st. split.
  - eapply tree_inv_perm; [|exact Hinv]. by rewrite rev_involutive, app_nil_r.
  - destruct (order_asserted (sort_clauses (c :: cs))); [by eauto|]. split; [|by eauto 10].
    intros Hw. discriminate (Hord Hw).
Qed.

Lemma rgnCreateRegionTree_correct_witness :
  exists st,
    rgnCreateRegionTree 1 2 4 demo_clauses 60 = Some (Some st) /\
    arena_ok (rs_arena st) /\ entry_first (rs_arena st) /\ length (rs_arena st) = 6%nat.
Proof.
  destruct (rgnCreateRegionTree_correct 1 2 4 60 demo_clauses) as (st & Hinv & Hst & _);
    [vm_compute; split; reflexivity|]. specialize (Hst demo_clauses_nested).
  exists st. split; [exact Hst|]. split; [apply Hinv|]. split; [apply Hinv|].
  clear Hinv. vm_compute in Hst. injection Hst as <-. reflexivity.
Defined.

(** On every well-formed region tree [rgnFindLowestEnclosingRegion]
    terminates within as many nested calls as there are regions and returns the
    lowest region: the start region itself or one that encloses the range, with
    no enclosing try child, and no enclosing handler of a try child, below it. *)
Theorem rgnFindLowestEnclosingRegion_lowest (s : arena) (tree : nat) (a b : Z) :
  arena_ok s -> (tree < length s)%nat ->
  exists r, rgnFindLowestEnclosingRegion (S (length s)) s tree a b = Some r /\
    exists R, s !! r = Some R /\
      (r = tree \/ rgnRangeIsEnclosedInRegion a b R = true) /\
      forall q, ~ candidate s a b R q.
Proof.
  intros Hok Hlt.
  destruct (find_lowest_spec s a b Hok (S (length s)) tree Hlt ltac:(lia)) as (r & Hr & Hl).
  exists r. split; [exact Hr|exact Hl].
Qed.

(** The tree of a method with one try [0, 10) and its finally [10, 20). *)
Definition demo_arena : arena :=
  [Rgn None [1%nat] 0 30 UZero RGN_Root;
   Rgn (Some 0%nat) [2%nat] 0 10 (UEntryRegion 1) RGN_Try;
   Rgn (Some 1%nat) [] 10 20 UZero RGN_Finally].

Lemma demo_arena_ok : arena_ok demo_arena.
Proof.
  split; [by eexists|]. intros i R HR.
  destruct i as [|[|[|i]]]; simpl in HR; simplify_eq; split; simpl;
    try (intros; done);
    try (intros c Hc; rewrite elem_of_cons, elem_of_nil in Hc; destruct Hc as [->|[]];
         eexists; split_and!; [done|done|lia]);
    try (intros c Hc; by apply elem_of_nil in Hc).
  - intros _. split; [done|]. do 2 eexists. split_and!; [done|lia|done|constructor|done].
  - intros _. eexists. split; [done|by left].
  - intros _. split; [done|]. do 2 eexists. split_and!; [done|lia|done|constructor|done].
Qed.

Lemma rgnFindLowestEnclosingRegion_lowest_witness :
  exists r, rgnFindLowestEnclosingRegion 4 demo_arena 0 12 15 = Some r /\
    exists R, demo_arena !! r = Some R /\ Kind R = RGN_Finally.
Proof.
  destruct (rgnFindLowestEnclosingRegion_lowest demo_arena 0 12 15 demo_arena_ok)
    as (r & Hr & R & HR & _); [simpl; lia|].
  exists r. split; [exact Hr|]. exists R. split; [exact HR|].
  vm_compute in Hr. injection Hr as <-. injection HR as <-. reflexivity.
Defined.
