(* ===== verification/RegionWalk.v ===== *)
(** * Walking the exception-region tree

    [fgSwitchRegion], which tracks the region of the current offset while
    blocks are built, [getCommonAncestor], [getInnermostFaultOrFinallyRegion]
    and [fgGetRegionFromMSILOffset] (lib/Reader/reader.cpp, readerir.cpp). *)

From S2P Require Import Prelude Regions RegionTree.

(** ** Definitions *)

(** Outcome of the scan over the children: stay, with the next transition
    offset, or switch to a region after entering some tries. *)
Inductive switch_scan : Set :=
  | Stay (TransitionOffset : Z)
  | SwitchTo (r : nat) (entered : list nat).

(** The grandchildren of a try child; the entry region of the try tells
    whether its handler comes first. *)
Fixpoint scan_grandchildren (s : arena) (Offset : Z) (ChildRegion : nat)
    (l : list nat) (TransitionOffset : Z) : option switch_scan :=
  match l with
  | [] => Some (Stay TransitionOffset)
  | g :: l' =>
      G ← s !! g;
      let GrandchildStartOffset := StartMsilOffset G in
      if Offset <? GrandchildStartOffset then
        scan_grandchildren s Offset ChildRegion l'
          (if GrandchildStartOffset <? TransitionOffset then GrandchildStartOffset
           else TransitionOffset)
      else if Offset <? EndMsilOffset G then
        e ← rgnGetEntryRegion s ChildRegion;
        Some (SwitchTo g (if (e =? g)%nat then [ChildRegion] else []))
      else scan_grandchildren s Offset ChildRegion l' TransitionOffset
  end.

Fixpoint scan_children (s : arena) (Offset : Z) (l : list nat) (TransitionOffset : Z)
    : option switch_scan :=
  match l with
  | [] => Some (Stay TransitionOffset)
  | c :: l' =>
      C ← s !! c;
      let ChildStartOffset := StartMsilOffset C in
      if negb (Offset <? ChildStartOffset) && (Offset <? EndMsilOffset C) then
        e ← rgnGetEntryRegion s c;
        Some (SwitchTo c (if (e =? c)%nat then [c] else []))
      else
        let TransitionOffset :=
          if (Offset <? ChildStartOffset) && (ChildStartOffset <? TransitionOffset)
          then ChildStartOffset else TransitionOffset in
        if is_kind RGN_Try C then
          r ← scan_grandchildren s Offset c (Children C) TransitionOffset;
          match r with
          | Stay t => scan_children s Offset l' t
          | SwitchTo g en => Some (SwitchTo g en)
          end
        else scan_children s Offset l' TransitionOffset
  end.

(** The region, the next transition offset, and the tries handed to
    [fgEnterRegion] in order. *)
Fixpoint fgSwitchRegion (fuel : nat) (s : arena) (OldRegion : nat) (Offset : Z)
    : option (nat * Z * list nat) :=
  match fuel with
  | O => None
  | S fuel' =>
      O ← s !! OldRegion;
      let TransitionOffset := EndMsilOffset O in
      if TransitionOffset <=? Offset then
        ParentRegion ← rgnGetEnclosingAncestor s OldRegion;
        fgSwitchRegion fuel' s ParentRegion Offset
      else
        r ← scan_children s Offset (Children O) TransitionOffset;
        match r with
        | Stay NextOffset => Some (OldRegion, NextOffset, [])
        | SwitchTo c entered =>
            '(r, NextOffset, more) ← fgSwitchRegion fuel' s c Offset;
            Some (r, NextOffset, entered ++ more)
        end
  end.

(** The loop that counts the ancestors of a region. *)
Fixpoint region_depth (fuel : nat) (s : arena) (Ancestor : option nat) : option nat :=
  match Ancestor with
  | None => Some O
  | Some a =>
      match fuel with
      | O => None
      | S fuel' => A ← s !! a; S <$> region_depth fuel' s (Parent A)
      end
  end.

(** [n] times [Region = Region->Parent]. *)
Fixpoint climb (n : nat) (s : arena) (Region : option nat) : option (option nat) :=
  match n with
  | O => Some Region
  | S n' => r ← Region; R ← s !! r; climb n' s (Parent R)
  end.

Fixpoint meet (fuel : nat) (s : arena) (Region1 Region2 : option nat)
    : option (option nat) :=
  if bool_decide (Region1 = Region2) then Some Region1 else
  match fuel with
  | O => None
  | S fuel' =>
      r1 ← Region1; R1 ← s !! r1;
      r2 ← Region2; R2 ← s !! r2;
      meet fuel' s (Parent R1) (Parent R2)
  end.

Definition getCommonAncestor (s : arena) (Region1 Region2 : option nat)
    : option (option nat) :=
  match Region1, Region2 with
  | Some r1, Some r2 =>
      R1 ← s !! r1; R2 ← s !! r2;
      Depth1 ← region_depth (length s) s (Parent R1);
      Depth2 ← region_depth (length s) s (Parent R2);
      Region1 ← climb (Depth1 - Depth2) s Region1;
      Region2 ← climb (Depth2 - Depth1) s Region2;
      meet (length s) s Region1 Region2
  | _, _ => Some None
  end.

(** ** Ancestors *)

Inductive ancestor (s : arena) : nat -> nat -> Prop :=
  | ancestor_self r R : s !! r = Some R -> ancestor s r r
  | ancestor_up r R p a : s !! r = Some R -> Parent R = Some p -> ancestor s a p -> ancestor s a r.

Section Ancestors.

Context (s : arena) (Hok : arena_ok s).

Lemma parent_lt r R p :
  s !! r = Some R -> Parent R = Some p -> (p < r)%nat /\ is_Some (s !! p).
Proof.
  intros HR Hp. destruct (decide (r = 0%nat)) as [->|Hr].
  - destruct (ao_root _ Hok) as (R0 & H0 & _ & Hn). congruence.
  - destruct (ro_parent _ _ _ (ao_region _ Hok r R HR) Hr) as (_ & q & P & Hq & Hlt & HP & _).
    rewrite Hp in Hq. simplify_eq. eauto.
Qed.

Lemma parent_none r R : s !! r = Some R -> Parent R = None -> r = 0%nat.
Proof.
  intros HR Hp. destruct (decide (r = 0%nat)) as [->|Hr]; [done|].
  destruct (ro_parent _ _ _ (ao_region _ Hok r R HR) Hr) as (_ & q & P & Hq & _). congruence.
Qed.

(** [depth r n]: [r] is [n] steps below the root. *)
Inductive depth : nat -> nat -> Prop :=
  | depth_root R : s !! 0%nat = Some R -> depth 0 0
  | depth_step r R p n : s !! r = Some R -> Parent R = Some p -> depth p n -> depth r (S n).

Lemma depth_exists r : is_Some (s !! r) -> exists n, depth r n /\ (n <= r)%nat.
Proof.
  induction (lt_wf r) as [r _ IH]. intros [R HR]. destruct (Parent R) as [p|] eqn:Hp.
  - destruct (parent_lt r R p HR Hp) as [Hlt Hs]. destruct (IH p Hlt Hs) as (n & Hn & ?).
    exists (S n). split; [by eapply depth_step|lia].
  - apply (parent_none r R HR) in Hp as ->. exists 0%nat. split; [by eapply depth_root|lia].
Qed.

Lemma depth_root_none R : s !! 0%nat = Some R -> Parent R = None.
Proof. intros HR. destruct (ao_root _ Hok) as (R0 & H0 & _ & Hn). by simplify_eq. Qed.

Lemma depth_0_inv r : depth r 0 -> r = 0%nat.
Proof. by inversion 1. Qed.

Lemma depth_S_inv r n :
  depth r (S n) -> exists R p, s !! r = Some R /\ Parent R = Some p /\ depth p n.
Proof. inversion 1; eauto. Qed.

Lemma region_depth_spec r R n fuel :
  s !! r = Some R -> depth r n -> (n <= fuel)%nat -> region_depth fuel s (Parent R) = Some n.
Proof.
  revert r R fuel. induction n as [|n IH]; intros r R fuel HR Hd Hf.
  - apply depth_0_inv in Hd as ->. rewrite (depth_root_none R HR). by destruct fuel.
  - apply depth_S_inv in Hd as (R' & p & HR' & Hp & Hd). rewrite HR in HR'. injection HR' as <-.
    rewrite Hp. destruct fuel as [|fuel]; [lia|]. simpl.
    destruct (parent_lt r R p HR Hp) as [_ [P HP]]. rewrite HP. simpl.
    by rewrite (IH p P fuel HP Hd ltac:(lia)).
Qed.

Lemma ancestor_inv a r :
  ancestor s a r -> a = r \/ exists R p, s !! r = Some R /\ Parent R = Some p /\ ancestor s a p.
Proof. inversion 1; [by left|right; eauto]. Qed.

Lemma ancestor_refl r : is_Some (s !! r) -> ancestor s r r.
Proof. intros [R HR]. by eapply ancestor_self. Qed.

Lemma depth_valid r n : depth r n -> is_Some (s !! r).
Proof. destruct 1; eauto. Qed.

Lemma depth_unique r n m : depth r n -> depth r m -> n = m.
Proof.
  assert (H0 : forall k, ~ depth 0 (S k)).
  { intros k (R & p & HR & Hp & _)%depth_S_inv. by rewrite (depth_root_none R HR) in Hp. }
  revert r m. induction n as [|n IH]; intros r [|m] Hn Hm; [done| | |].
  - apply depth_0_inv in Hn as ->. by destruct (H0 m).
  - apply depth_0_inv in Hm as ->. by destruct (H0 n).
  - apply depth_S_inv in Hn as (R & p & HR & Hp & Hn), Hm as (R' & p' & HR' & Hp' & Hm).
    rewrite HR in HR'. injection HR' as <-. rewrite Hp in Hp'. injection Hp' as <-.
    f_equal. by eapply IH.
Qed.

Lemma climb_spec k r n :
  depth r (k + n) -> exists a, climb k s (Some r) = Some (Some a) /\ depth a n /\
    ancestor s a r /\ forall b m, ancestor s b r -> depth b m -> (m <= n)%nat -> ancestor s b a.
Proof.
  revert r. induction k as [|k IH]; intros r Hd; simpl.
  { exists r. split_and!; try done. by eapply ancestor_refl, depth_valid. }
  pose proof Hd as (R & p & HR & Hp & Hdp)%depth_S_inv. rewrite HR. simpl. rewrite Hp.
  destruct (IH p Hdp) as (a & -> & Ha & Han & Hlow). exists a. split_and!; try done.
  - by eapply ancestor_up.
  - intros b m Hb Hm Hle. apply ancestor_inv in Hb as [->|(R' & p' & HR' & Hp' & Hb)].
    + pose proof (depth_unique _ _ _ Hd Hm). lia.
    + rewrite HR in HR'. injection HR' as <-. rewrite Hp in Hp'. injection Hp' as <-.
      by eapply Hlow.
Qed.

Lemma ancestor_depth a r n : ancestor s a r -> depth r n ->
  exists m, depth a m /\ (m <= n)%nat /\ (m = n -> a = r).
Proof.
  revert r. induction n as [|n IH]; intros r Ha Hd.
  - exists 0%nat. apply depth_0_inv in Hd as Hr. subst.
    apply ancestor_inv in Ha as [->|(R & p & HR & Hp & _)]; [done|].
    by rewrite (depth_root_none R HR) in Hp.
  - apply ancestor_inv in Ha as [->|(R & p & HR & Hp & Ha)]; [eauto|].
    apply depth_S_inv in Hd as (R' & p' & HR' & Hp' & Hd).
    rewrite HR in HR'. injection HR' as <-. rewrite Hp in Hp'. injection Hp' as <-.
    destruct (IH p Ha Hd) as (m & Hm & Hle & _). exists m. split_and!; [done|lia|lia].
Qed.

Lemma ancestor_valid a r : ancestor s a r -> is_Some (s !! a).
Proof. induction 1; eauto. Qed.

Lemma meet_spec n r1 r2 fuel :
  depth r1 n -> depth r2 n -> (n <= fuel)%nat ->
  exists a, meet fuel s (Some r1) (Some r2) = Some (Some a) /\
    ancestor s a r1 /\ ancestor s a r2 /\
    forall b, ancestor s b r1 -> ancestor s b r2 -> ancestor s b a.
Proof.
  revert r1 r2 fuel. induction n as [|n IH]; intros r1 r2 fuel H1 H2 Hf.
  - apply depth_valid in H1 as Hv. apply depth_0_inv in H1 as ->, H2 as ->. exists 0%nat.
    destruct fuel; (split_and!; [done|by apply ancestor_refl..|done]).
  - destruct fuel as [|fuel]; [lia|]. simpl. destruct (decide (r1 = r2)) as [->|Hne].
    { exists r2. apply depth_valid in H1. rewrite bool_decide_eq_true_2 by done.
      split_and!; [done|by apply ancestor_refl..|done]. }
    rewrite bool_decide_eq_false_2 by congruence.
    pose proof H1 as (R1 & p1 & HR1 & Hp1 & Hd1)%depth_S_inv.
    pose proof H2 as (R2 & p2 & HR2 & Hp2 & Hd2)%depth_S_inv.
    rewrite HR1, HR2. simpl. rewrite Hp1, Hp2.
    destruct (IH p1 p2 fuel Hd1 Hd2 ltac:(lia)) as (a & -> & Ha1 & Ha2 & Hlow).
    exists a. split_and!; [done|by eapply ancestor_up..|]. intros b Hb1 Hb2.
    assert (Hsame : forall x y, depth x (S n) -> depth y (S n) -> x <> y -> ~ ancestor s x y).
    { intros x y Hx Hy Hxy Ha. destruct (ancestor_depth _ _ _ Ha Hy) as (m & Hm & _ & Heq).
      by apply Hxy, Heq, (depth_unique x). }
    pose proof Hb1 as [->|(R1' & p1' & HR1' & Hp1' & Hb1')]%ancestor_inv.
    { by destruct (Hsame r1 r2). }
    pose proof Hb2 as [->|(R2' & p2' & HR2' & Hp2' & Hb2')]%ancestor_inv.
    { by destruct (Hsame r2 r1). }
    apply Hlow; congruence.
Qed.

End Ancestors.

Lemma common_ancestor_spec (s : arena) (r1 r2 : nat) :
  arena_ok s -> (r1 < length s)%nat -> (r2 < length s)%nat ->
  exists a, getCommonAncestor s (Some r1) (Some r2) = Some (Some a) /\
    ancestor s a r1 /\ ancestor s a r2 /\
    forall b, ancestor s b r1 -> ancestor s b r2 -> ancestor s b a.
Proof.
  intros Hok Hl1 Hl2.
  destruct (lookup_lt_is_Some_2 s r1 Hl1) as [R1 HR1], (lookup_lt_is_Some_2 s r2 Hl2) as [R2 HR2].
  destruct (depth_exists s Hok r1 ltac:(eauto)) as (d1 & Hd1 & Hb1).
  destruct (depth_exists s Hok r2 ltac:(eauto)) as (d2 & Hd2 & Hb2).
  unfold getCommonAncestor. rewrite HR1, HR2. simpl.
  rewrite (region_depth_spec s Hok r1 R1 d1), (region_depth_spec s Hok r2 R2 d2) by (done || lia).
  simpl. set (n := Nat.min d1 d2).
  destruct (climb_spec s Hok (d1 - d2) r1 n) as (a1 & -> & Ha1 & Han1 & Hlow1).
  { by replace (d1 - d2 + n)%nat with d1 by lia. }
  destruct (climb_spec s Hok (d2 - d1) r2 n) as (a2 & -> & Ha2 & Han2 & Hlow2).
  { by replace (d2 - d1 + n)%nat with d2 by lia. }
  simpl. destruct (meet_spec s Hok n a1 a2 (length s) Ha1 Ha2 ltac:(lia))
    as (a & -> & Hm1 & Hm2 & Hlow).
  assert (Htr : forall x y z, ancestor s x y -> ancestor s y z -> ancestor s x z)
    by (intros x y z Hxy; induction 1; [done|by eapply ancestor_up; eauto]).
  exists a. split_and!; [done|by apply (Htr a a1)|by apply (Htr a a2)|]. intros b Hb1' Hb2'.
  destruct (ancestor_depth s Hok b r1 d1 Hb1' Hd1) as (m & Hm & Hle1 & _).
  destruct (ancestor_depth s Hok b r2 d2 Hb2' Hd2) as (m' & Hm' & Hle2 & _).
  rewrite (depth_unique s Hok b m' m Hm' Hm) in *.
  apply Hlow; [apply (Hlow1 b m)|apply (Hlow2 b m)]; done || lia.
Qed.

(** [getCommonAncestor] terminates on every two regions of a well-formed
    tree and returns their lowest common ancestor. *)
Theorem getCommonAncestor_lowest (s : arena) (r1 r2 : nat) :
  arena_ok s -> (r1 < length s)%nat -> (r2 < length s)%nat ->
  exists a, getCommonAncestor s (Some r1) (Some r2) = Some (Some a) /\
    ancestor s a r1 /\ ancestor s a r2 /\
    forall b, ancestor s b r1 -> ancestor s b r2 -> ancestor s b a.
Proof. apply common_ancestor_spec. Qed.

Lemma getCommonAncestor_lowest_witness :
  exists a, getCommonAncestor demo_arena (Some 1%nat) (Some 2%nat) = Some (Some a) /\
    ancestor demo_arena a 1 /\ ancestor demo_arena a 2 /\ a = 1%nat.
Proof.
  destruct (getCommonAncestor_lowest demo_arena 1 2 demo_arena_ok) as (a & Ha & H1 & H2 & _);
    [simpl; lia..|].
  exists a. split_and!; [exact Ha|exact H1|exact H2|].
  vm_compute in Ha. injection Ha as <-. reflexivity.
Defined.

(** ** [fgSwitchRegion] *)

(** What valid clauses give beyond the shape of the tree: a handler does not
    overlap its try, and no region starts before its enclosing ancestor. *)
Record ranges_ok (s : arena) : Prop := {
  rg_apart : forall t T h H, s !! t = Some T -> Kind T = RGN_Try ->
    h ∈ Children T -> s !! h = Some H -> rgnIsOutsideParent H = true ->
    EndMsilOffset H <= StartMsilOffset T \/ EndMsilOffset T <= StartMsilOffset H;
  rg_starts : forall r R a A, s !! r = Some R -> rgnGetEnclosingAncestor s r = Some a ->
    s !! a = Some A -> StartMsilOffset A <= StartMsilOffset R }.

(** The regions the scan looks at below [R]: its children and the children of
    its tries. *)
Definition below (s : arena) (R : EHRegion) (c : nat) : Prop :=
  c ∈ Children R \/
  exists t T, t ∈ Children R /\ s !! t = Some T /\ Kind T = RGN_Try /\ c ∈ Children T.

Definition in_range (s : arena) (Offset : Z) (c : nat) : Prop :=
  exists C, s !! c = Some C /\ StartMsilOffset C <= Offset < EndMsilOffset C.

(** No region of [P] contains [Offset], and [t'] is the first region start of
    [P] after [Offset], or [t] if that comes first. *)
Definition stays (s : arena) (Offset : Z) (P : nat -> Prop) (t t' : Z) : Prop :=
  (forall c, P c -> ~ in_range s Offset c) /\
  t' <= t /\ (Offset < t -> Offset < t') /\
  (t' = t \/ exists c C, P c /\ s !! c = Some C /\ t' = StartMsilOffset C) /\
  (forall c C, P c -> s !! c = Some C -> StartMsilOffset C <= Offset \/ t' <= StartMsilOffset C).

Lemma stays_nil s Offset (P : nat -> Prop) t : (forall c, ~ P c) -> stays s Offset P t t.
Proof. intros H. split_and!; [by intros c Hc%H|lia|done|by left|by intros c C Hc%H]. Qed.

Lemma stays_ext s Offset (P Q : nat -> Prop) t t' :
  (forall c, P c <-> Q c) -> stays s Offset P t t' -> stays s Offset Q t t'.
Proof.
  intros H (H1 & H2 & H3 & H4 & H5). split_and!; try done.
  - intros c Hc%H. by apply H1.
  - destruct H4 as [?|(c & C & Hc%H & ?)]; [by left|right; eauto].
  - intros c C Hc%H. by apply H5.
Qed.

Lemma stays_union s Offset (P Q : nat -> Prop) t u v :
  stays s Offset P t u -> stays s Offset Q u v ->
  stays s Offset (fun c => P c \/ Q c) t v.
Proof.
  intros (H1 & H2 & H3 & H4 & H5) (K1 & K2 & K3 & K4 & K5). split_and!.
  - intros c [Hc|Hc]; auto.
  - lia.
  - auto.
  - destruct K4 as [->|(c & C & Hc & ?)]; [|right; eauto 6].
    destruct H4 as [->|(c & C & Hc & ?)]; [by left|right; eauto 6].
  - intros c C [Hc|Hc] HC; [destruct (H5 c C Hc HC); lia|by apply (K5 c C)].
Qed.

(** One region that does not contain [Offset]. *)
Lemma stays_one s Offset c C t :
  s !! c = Some C -> ~ (StartMsilOffset C <= Offset < EndMsilOffset C) ->
  stays s Offset (fun x => x = c) t
    (if (Offset <? StartMsilOffset C) && (StartMsilOffset C <? t) then StartMsilOffset C else t).
Proof.
  intros HC Hn. destruct ((Offset <? StartMsilOffset C) && (StartMsilOffset C <? t)) eqn:E.
  - zbool. split_and!; try lia; [intros x -> (D & HD & ?); simplify_eq; lia|right; eauto|].
    intros x D -> HD. simplify_eq. lia.
  - apply andb_false_iff in E. rewrite !Z.ltb_ge in E.
    split_and!; try lia; [intros x -> (D & HD & ?); simplify_eq; lia|].
    intros x D -> HD. simplify_eq. lia.
Qed.

Lemma scan_grandchildren_spec s Offset c e l t :
  (forall g, g ∈ l -> is_Some (s !! g)) -> rgnGetEntryRegion s c = Some e ->
  exists r, scan_grandchildren s Offset c l t = Some r /\
    match r with
    | Stay t' => stays s Offset (fun g => g ∈ l) t t'
    | SwitchTo g en => g ∈ l /\ in_range s Offset g /\ en = (if (e =? g)%nat then [c] else [])
    end.
Proof.
  intros Hl He. revert t. induction l as [|g l IH]; intros t; simpl.
  { exists (Stay t). split; [done|]. apply stays_nil. by intros c' H%elem_of_nil. }
  destruct (Hl g) as [G HG]; [constructor|]. rewrite HG. simpl.
  assert (Hstay : ~ (StartMsilOffset G <= Offset < EndMsilOffset G) ->
    exists r, scan_grandchildren s Offset c l
      (if (Offset <? StartMsilOffset G) && (StartMsilOffset G <? t)
       then StartMsilOffset G else t) = Some r /\
    match r with
    | Stay t' => stays s Offset (fun h => h ∈ g :: l) t t'
    | SwitchTo h en => h ∈ g :: l /\ in_range s Offset h /\
        en = (if (e =? h)%nat then [c] else [])
    end).
  { intros Hn. destruct (IH ltac:(intros; apply Hl; by constructor)
      (if (Offset <? StartMsilOffset G) && (StartMsilOffset G <? t)
       then StartMsilOffset G else t)) as (r & -> & Hr).
    exists r. split; [done|]. destruct r as [t'|h en].
    - eapply stays_ext; [|eapply stays_union; [by apply (stays_one s Offset g G)|exact Hr]].
      intros h. simpl. by rewrite elem_of_cons.
    - destruct Hr as (H1 & H2). split; [by constructor|done]. }
  destruct (Z.ltb_spec Offset (StartMsilOffset G)) as [Hlt|Hge]; simpl in Hstay.
  - apply Hstay. lia.
  - destruct (Z.ltb_spec Offset (EndMsilOffset G)) as [Hlt|Hge']; [|apply Hstay; lia].
    rewrite He. simpl. eexists. split; [done|]. split_and!; [constructor| |done].
    exists G. auto.
Qed.

Section Switch.

Context (s : arena) (Hok : arena_ok s) (Hrg : ranges_ok s).

Lemma try_entry t T : s !! t = Some T -> Kind T = RGN_Try -> is_Some (rgnGetEntryRegion s t).
Proof.
  intros HT Hk. destruct (ro_entry _ _ _ (ao_region _ Hok t T HT) Hk) as (e & He & _).
  unfold rgnGetEntryRegion. rewrite HT. simpl. rewrite He. eauto.
Qed.

Lemma child_lookup r R c : s !! r = Some R -> c ∈ Children R ->
  exists C, s !! c = Some C /\ Parent C = Some r /\ (r < c)%nat.
Proof. intros HR Hc. exact (ro_children _ _ _ (ao_region _ Hok r R HR) c Hc). Qed.

(** A child that is not a handler is a try. *)
Lemma child_try r R c C : s !! r = Some R -> c ∈ Children R -> s !! c = Some C ->
  rgnIsOutsideParent C = false -> Kind C = RGN_Try.
Proof.
  intros HR Hc HC Ho. destruct (child_lookup r R c HR Hc) as (C' & HC' & _ & Hlt).
  rewrite HC in HC'. injection HC' as <-.
  destruct (ro_parent _ _ _ (ao_region _ Hok c C HC) ltac:(lia)) as (Hnr & _).
  unfold rgnIsOutsideParent in Ho. by destruct (Kind C).
Qed.

Lemma scan_children_spec r R Offset l t :
  s !! r = Some R -> StartMsilOffset R <= Offset < EndMsilOffset R -> l ⊆ Children R ->
  exists res, scan_children s Offset l t = Some res /\
    match res with
    | Stay t' => stays s Offset (fun c => c ∈ l \/
        exists q Q, q ∈ l /\ s !! q = Some Q /\ Kind Q = RGN_Try /\ c ∈ Children Q) t t'
    | SwitchTo c en => below s R c /\ in_range s Offset c /\ (r < c)%nat
    end.
Proof.
  intros HR Hin. revert t. induction l as [|c l IH]; intros t Hsub; simpl.
  { exists (Stay t). split; [done|]. apply stays_nil.
    intros c [H%elem_of_nil|(q & Q & H%elem_of_nil & _)]; done. }
  assert (Hc : c ∈ Children R) by (apply Hsub; constructor).
  assert (Hl : l ⊆ Children R) by (intros x Hx; apply Hsub; by constructor).
  destruct (child_lookup r R c HR Hc) as (C & HC & HpC & Hlt). rewrite HC. simpl.
  destruct (negb (Offset <? StartMsilOffset C) && (Offset <? EndMsilOffset C)) eqn:E.
  - zbool. destruct (rgnIsOutsideParent C) eqn:Ho.
    + exfalso. destruct (ro_parent _ _ _ (ao_region _ Hok c C HC) ltac:(lia))
        as (_ & p & P & Hp & _ & HP & _ & Hk). rewrite HpC in Hp. injection Hp as <-.
      rewrite HR in HP. injection HP as <-.
      destruct (rg_apart _ Hrg r R c C HR (Hk Ho) Hc HC Ho); lia.
    + destruct (try_entry c C HC (child_try r R c C HR Hc HC Ho)) as [e ->]. simpl.
      eexists. split; [done|]. split_and!; [by left|exists C; split; [done|lia]|done].
  - assert (Hn : ~ (StartMsilOffset C <= Offset < EndMsilOffset C)).
    { intros [H1 H2]. apply Z.ltb_ge in H1. apply Z.ltb_lt in H2. by rewrite H1, H2 in E. }
    pose proof (stays_one s Offset c C t HC Hn) as Hone.
    set (u := if (Offset <? StartMsilOffset C) && (StartMsilOffset C <? t)
              then StartMsilOffset C else t) in *.
    destruct (is_kind RGN_Try C) eqn:Ek; rewrite ?is_kind_true, ?is_kind_false in Ek.
    + destruct (try_entry c C HC Ek) as [e He].
      destruct (scan_grandchildren_spec s Offset c e (Children C) u) as (g & -> & Hg); [|done|].
      { intros g Hg. destruct (child_lookup c C g HC Hg) as (G & -> & _). eauto. }
      simpl. destruct g as [t'|g en].
      * destruct (IH t' Hl) as (res & -> & Hres). exists res. split; [done|].
        destruct res as [t''|x en]; [|done].
        eapply stays_ext; [|exact (stays_union _ _ _ _ _ _ _ Hone (stays_union _ _ _ _ _ _ _ Hg Hres))].
        intros x. simpl. rewrite elem_of_cons. split.
        -- intros [->|[Hx|[Hx|(q & Q & Hq & Hx)]]]; [by left; left| |by left; right|].
           ++ right. exists c, C. rewrite elem_of_cons. auto.
           ++ right. exists q, Q. rewrite elem_of_cons. auto.
        -- intros [[->|Hx]|(q & Q & [->|Hq]%elem_of_cons & HQ & Hk & Hx)]; [by left|auto| |].
           ++ rewrite HC in HQ. injection HQ as <-. auto.
           ++ right. right. right. eauto 6.
      * destruct Hg as (Hg & Hi & _). eexists. split; [done|]. split_and!; [|done|].
        -- right. eauto 6.
        -- destruct (child_lookup c C g HC Hg) as (_ & _ & _ & ?). lia.
    + destruct (IH u Hl) as (res & -> & Hres). exists res. split; [done|].
      destruct res as [t''|x en]; [|done].
      eapply stays_ext; [|exact (stays_union _ _ _ _ _ _ _ Hone Hres)].
      intros x. simpl. rewrite elem_of_cons. split.
      * intros [->|[Hx|(q & Q & Hq & Hx)]]; [by left; left|by left; right|].
        right. exists q, Q. rewrite elem_of_cons. auto.
      * intros [[->|Hx]|(q & Q & [->|Hq]%elem_of_cons & HQ & Hk & Hx)]; [by left|auto| |].
        -- rewrite HC in HQ. injection HQ as <-. done.
        -- right. right. eauto 6.
Qed.

Definition settled (Offset : Z) (q : nat) (NextOffset : Z) : Prop :=
  exists Q, s !! q = Some Q /\ StartMsilOffset Q <= Offset < EndMsilOffset Q /\
    stays s Offset (below s Q) (EndMsilOffset Q) NextOffset.

Lemma switch_down Offset fuel r R :
  s !! r = Some R -> StartMsilOffset R <= Offset < EndMsilOffset R ->
  (length s < r + fuel)%nat ->
  exists q n en, fgSwitchRegion fuel s r Offset = Some (q, n, en) /\ settled Offset q n.
Proof.
  revert r R. induction fuel as [|fuel IH]; intros r R HR Hin Hf; simpl;
    apply lookup_lt_Some in HR as Hlt; [lia|].
  rewrite HR. simpl. destruct (Z.leb_spec (EndMsilOffset R) Offset); [lia|].
  destruct (scan_children_spec r R Offset (Children R) (EndMsilOffset R) HR Hin ltac:(done))
    as (res & -> & Hres). simpl. destruct res as [t|c en].
  - exists r, t, []. split; [done|]. exists R. split; [done|]. split; [done|exact Hres].
  - destruct Hres as (_ & (C & HC & HinC) & Hrc).
    destruct (IH c C HC HinC ltac:(lia)) as (q & n & en' & -> & Hs). simpl. eauto.
Qed.

Lemma enclosing_ancestor r R :
  s !! r = Some R -> r <> 0%nat ->
  exists a A, rgnGetEnclosingAncestor s r = Some a /\ s !! a = Some A /\ (a < r)%nat.
Proof.
  intros HR Hr. unfold rgnGetEnclosingAncestor. rewrite HR. simpl.
  destruct (ro_parent _ _ _ (ao_region _ Hok r R HR) Hr) as (_ & p & P & Hp & Hlt & HP & _ & Hk).
  rewrite Hp. simpl. destruct (rgnIsOutsideParent R) eqn:Ho; [|by exists p, P].
  specialize (Hk eq_refl). unfold rgnGetParent. rewrite HP. simpl.
  destruct (decide (p = 0%nat)) as [->|Hp0].
  { destruct (ao_root _ Hok) as (R0 & H0 & Hk0 & _). congruence. }
  destruct (ro_parent _ _ _ (ao_region _ Hok p P HP) Hp0) as (_ & q & Q & Hq & Hlt' & HQ & _).
  exists q, Q. rewrite Hq. split_and!; [done..|lia].
Qed.

Lemma switch_up Offset fuel r R R0 :
  s !! r = Some R -> StartMsilOffset R <= Offset ->
  s !! 0%nat = Some R0 -> Offset < EndMsilOffset R0 ->
  (length s + r < fuel)%nat ->
  exists q n en, fgSwitchRegion fuel s r Offset = Some (q, n, en) /\ settled Offset q n.
Proof.
  revert r R. induction fuel as [|fuel IH]; intros r R HR Hst H0 Hroot Hf; [lia|].
  destruct (Z.ltb_spec Offset (EndMsilOffset R)) as [Hlt|Hge].
  { apply (switch_down Offset (S fuel) r R); [done|lia|lia]. }
  simpl. rewrite HR. simpl. destruct (Z.leb_spec (EndMsilOffset R) Offset); [|lia].
  destruct (decide (r = 0%nat)) as [->|Hr]; [simplify_eq; lia|].
  destruct (enclosing_ancestor r R HR Hr) as (a & A & Ha & HA & Hlt). rewrite Ha. simpl.
  apply (IH a A); try done; [|lia].
  pose proof (rg_starts _ Hrg r R a A HR Ha HA). lia.
Qed.

End Switch.

(** On a well-formed tree, [fgSwitchRegion] terminates for every old region
    that starts at or before an offset inside the method, and settles on an
    innermost region: it contains the offset, nothing below it does, and the
    returned transition offset lies strictly ahead and is the earliest of the
    region's end and the starts of the regions below it, so the caller advances
    and stops at every boundary. *)
Theorem fgSwitchRegion_settles (s : arena) (r : nat) (R R0 : EHRegion) (Offset : Z) :
  arena_ok s -> ranges_ok s -> s !! r = Some R -> StartMsilOffset R <= Offset ->
  s !! 0%nat = Some R0 -> Offset < EndMsilOffset R0 ->
  exists q NextOffset entered,
    fgSwitchRegion (S (2 * length s)) s r Offset = Some (q, NextOffset, entered) /\
    Offset < NextOffset /\
    exists Q, s !! q = Some Q /\ StartMsilOffset Q <= Offset < EndMsilOffset Q /\
      (forall c, below s Q c -> ~ in_range s Offset c) /\
      stays s Offset (below s Q) (EndMsilOffset Q) NextOffset.
Proof.
  intros Hok Hrg HR Hst H0 Hroot. apply lookup_lt_Some in HR as Hlt.
  destruct (switch_up s Hok Hrg Offset (S (2 * length s)) r R R0 HR Hst H0 Hroot ltac:(lia))
    as (q & n & en & Hsw & Q & HQ & Hin & Hs).
  exists q, n, en. split; [done|]. destruct Hs as (H1 & H2 & H3 & H4 & H5).
  split; [apply H3; lia|]. exists Q.
  split; [done|]. split; [done|]. split; [done|]. by split_and!.
Qed.

Lemma demo_ranges_ok : ranges_ok demo_arena.
Proof.
  split.
  - intros t T h H HT Hk Hin HH Ho.
    destruct t as [|[|[|t]]]; simpl in HT; simplify_eq; try done.
    simpl in Hin. apply elem_of_cons in Hin as [->|Hin%elem_of_nil]; [|done].
    injection HH as <-. right. simpl. lia.
  - intros r R a A HR Ha HA.
    destruct r as [|[|[|r]]]; simpl in HR; simplify_eq; vm_compute in Ha;
      simplify_eq; injection HA as <-; simpl; lia.
Qed.

Lemma fgSwitchRegion_settles_witness :
  exists q n en, fgSwitchRegion 7 demo_arena 1 12 = Some (q, n, en) /\ 12 < n /\
    q = 2%nat /\ n = 20.
Proof.
  destruct (fgSwitchRegion_settles demo_arena 1 (Rgn (Some 0%nat) [2%nat] 0 10 (UEntryRegion 1) RGN_Try)
              (Rgn None [1%nat] 0 30 UZero RGN_Root) 12 demo_arena_ok demo_ranges_ok)
    as (q & n & en & Hs & Hn & _); try reflexivity; try (simpl; lia).
  exists q, n, en. split; [exact Hs|]. split; [exact Hn|].
  vm_compute in Hs. injection Hs as <- <- _. split; reflexivity.
Defined.

(** ** The innermost fault or finally *)

(** The regions [getInnermostFaultOrFinallyRegion] visits, outermost first. *)
Inductive inner_path (s : arena) (Offset : Z) : nat -> list nat -> Prop :=
  | path_end r : getInnerEnclosingRegion s r Offset = Some None -> inner_path s Offset r [r]
  | path_step r c l : getInnerEnclosingRegion s r Offset = Some (Some c) ->
      inner_path s Offset c l -> inner_path s Offset r (r :: l).

Definition is_fault_or_finally (s : arena) (r : nat) : Prop :=
  exists R, s !! r = Some R /\ (Kind R = RGN_Fault \/ Kind R = RGN_Finally).

Section Inner.

Context (s : arena) (Hok : arena_ok s).

Lemma first_containing_spec Offset l :
  (forall g, g ∈ l -> is_Some (s !! g)) ->
  exists r, first_containing s Offset l = Some r /\
    match r with
    | Some g => g ∈ l /\ in_range s Offset g
    | None => forall g, g ∈ l -> ~ in_range s Offset g
    end.
Proof.
  induction l as [|g l IH]; intros Hl; simpl.
  { exists None. split; [done|]. by intros g H%elem_of_nil. }
  destruct (Hl g) as [G HG]; [constructor|]. rewrite HG. simpl.
  unfold in_region. destruct (_ && _) eqn:E.
  - exists (Some g). split; [done|]. split; [constructor|]. exists G. zbool. split; [done|lia].
  - destruct IH as (r & -> & Hr); [intros; apply Hl; by constructor|]. exists r.
    split; [done|]. destruct r as [h|].
    + destruct Hr. split; [by constructor|done].
    + intros h [->|Hh]%elem_of_cons; [|by apply Hr]. intros (G' & HG' & H1 & H2).
      simplify_eq. apply Z.leb_le in H1. apply Z.ltb_lt in H2. by rewrite H1, H2 in E.
Qed.

Lemma inner_scan_spec Offset r R l :
  s !! r = Some R -> l ⊆ Children R ->
  exists x, inner_scan s Offset l = Some x /\
    match x with
    | Some c => below s R c /\ in_range s Offset c /\ (r < c)%nat
    | None => forall c, c ∈ l -> ~ in_range s Offset c /\
        forall C g, s !! c = Some C -> Kind C = RGN_Try -> g ∈ Children C -> ~ in_range s Offset g
    end.
Proof.
  intros HR. induction l as [|c l IH]; intros Hsub; simpl.
  { exists None. split; [done|]. by intros c H%elem_of_nil. }
  assert (Hc : c ∈ Children R) by (apply Hsub; constructor).
  destruct (child_lookup s Hok r R c HR Hc) as (C & HC & _ & Hlt). rewrite HC. simpl.
  destruct IH as (x & Hx & Hpost); [intros y Hy; apply Hsub; by constructor|].
  unfold in_region. destruct (_ && _) eqn:E.
  { exists (Some c). split; [done|]. split_and!; [by left| |done]. exists C. zbool.
    split; [done|lia]. }
  assert (Hn : ~ in_range s Offset c).
  { intros (C' & HC' & H1 & H2). rewrite HC in HC'. injection HC' as <-.
    apply Z.leb_le in H1. apply Z.ltb_lt in H2. by rewrite H1, H2 in E. }
  destruct (is_kind RGN_Try C) eqn:Ek; rewrite ?is_kind_true, ?is_kind_false in Ek.
  - destruct (first_containing_spec Offset (Children C)) as (g & -> & Hg).
    { intros g Hg. destruct (child_lookup s Hok c C g HC Hg) as (G & -> & _). eauto. }
    simpl. destruct g as [g|].
    + exists (Some g). split; [done|]. destruct Hg as [Hg Hi]. split_and!; [|done|].
      * right. eauto 6.
      * destruct (child_lookup s Hok c C g HC Hg) as (_ & _ & _ & ?). lia.
    + exists x. split; [done|]. destruct x as [d|]; [done|].
      intros d [->|Hd]%elem_of_cons; [|by apply Hpost]. split; [done|].
      intros C' h HC' _ Hh. rewrite HC in HC'. injection HC' as <-. by apply Hg.
  - exists x. split; [done|]. destruct x as [d|]; [done|].
    intros d [->|Hd]%elem_of_cons; [|by apply Hpost]. split; [done|].
    intros C' h HC'. rewrite HC in HC'. injection HC' as <-. done.
Qed.

Lemma walk_spec Offset fuel r best :
  (r < length s)%nat -> (length s < r + fuel)%nat ->
  exists l res, inner_path s Offset r l /\
    fault_or_finally_walk fuel s Offset (Some r) best = Some res /\
    ((res = best /\ forall x, x ∈ l -> ~ is_fault_or_finally s x) \/
     (exists l1 x l2, l = l1 ++ x :: l2 /\ res = Some x /\ is_fault_or_finally s x /\
        forall y, y ∈ l2 -> ~ is_fault_or_finally s y)).
Proof.
  revert r best. induction fuel as [|fuel IH]; intros r best Hlt Hf; [lia|].
  destruct (lookup_lt_is_Some_2 s r Hlt) as [R HR].
  destruct (inner_scan_spec Offset r R (Children R) HR ltac:(done)) as (x & Hx & Hpost).
  assert (Hg : getInnerEnclosingRegion s r Offset = Some x)
    by (unfold getInnerEnclosingRegion; by rewrite HR).
  cbn [fault_or_finally_walk]. rewrite HR. cbn [mbind option_bind]. rewrite Hg.
  cbn [mbind option_bind].
  set (ff := is_kind RGN_Fault R || is_kind RGN_Finally R).
  assert (Hff : ff = true <-> is_fault_or_finally s r).
  { unfold ff. rewrite orb_true_iff, !is_kind_true. split; [exists R; auto|].
    intros (R' & HR' & ?). by simplify_eq. }
  destruct x as [c|].
  - destruct Hpost as (_ & (C & HC & _) & Hrc). apply lookup_lt_Some in HC.
    destruct (IH c (if ff then Some r else best) HC ltac:(lia)) as (l & res & Hp & Hw & Hres).
    exists (r :: l), res. split_and!; [by eapply path_step|done|].
    destruct Hres as [[-> Hno]|(l1 & y & l2 & -> & -> & Hy & Hno)].
    + destruct ff eqn:E.
      * right. exists [], r, l. split_and!; try done. by apply Hff.
      * left. split; [done|]. intros y [->|Hy]%elem_of_cons; [|by apply Hno].
        intros H. apply Hff in H. done.
    + right. by exists (r :: l1), y, l2.
  - exists [r]. destruct fuel as [|fuel]; [lia|]. cbn. eexists.
    split_and!; [by apply path_end|done|]. destruct ff eqn:E.
    + right. exists [], r, []. split_and!; try done; [by apply Hff|]. by intros y H%elem_of_nil.
    + left. split; [done|]. intros y [->|Hy%elem_of_nil]%elem_of_cons; [|done].
      intros H. apply Hff in H. done.
Qed.

End Inner.

(** [getInnermostFaultOrFinallyRegion] terminates on every well-formed tree:
    it walks from the root to a region below which nothing contains the offset,
    and answers the last fault or finally on that path, or null when there is
    none. *)
Theorem getInnermostFaultOrFinallyRegion_innermost (s : arena) (Offset : Z) :
  arena_ok s ->
  exists l res, inner_path s Offset 0 l /\
    getInnermostFaultOrFinallyRegion s (Some 0%nat) Offset = Some res /\
    ((res = None /\ forall x, x ∈ l -> ~ is_fault_or_finally s x) \/
     (exists l1 x l2, l = l1 ++ x :: l2 /\ res = Some x /\ is_fault_or_finally s x /\
        forall y, y ∈ l2 -> ~ is_fault_or_finally s y)).
Proof.
  intros Hok. destruct (ao_root _ Hok) as (R0 & H0 & _). apply lookup_lt_Some in H0.
  unfold getInnermostFaultOrFinallyRegion. apply walk_spec; [done..|lia].
Qed.

Lemma getInnermostFaultOrFinallyRegion_innermost_witness :
  exists l res, inner_path demo_arena 15 0 l /\
    getInnermostFaultOrFinallyRegion demo_arena (Some 0%nat) 15 = Some res /\ res = Some 2%nat.
Proof.
  destruct (getInnermostFaultOrFinallyRegion_innermost demo_arena 15 demo_arena_ok)
    as (l & res & Hp & Hr & _).
  exists l, res. split; [exact Hp|]. split; [exact Hr|].
  vm_compute in Hr. injection Hr as <-. reflexivity.
Defined.

(** ** The region of an offset *)

Definition region_size (R : EHRegion) : Z := EndMsilOffset R - StartMsilOffset R.

(** Regions with 32-bit bounds, smaller than the start value of the scan. *)
Definition bounds_ok (s : arena) : Prop :=
  forall r R, s !! r = Some R -> 0 <= StartMsilOffset R /\ EndMsilOffset R < 2 ^ 32 - 1.

Lemma scan_region_fold s Offset l c0 n0 :
  bounds_ok s -> (forall r, r ∈ l -> is_Some (s !! r)) -> 0 <= Offset ->
  let '(c, n) := foldl (scan_region s Offset) (c0, n0) l in
  n <= n0 /\
  (forall r R, r ∈ l -> s !! r = Some R -> in_range s Offset r -> n <= region_size R) /\
  (((c, n) = (c0, n0)) \/
   exists r R, c = Some r /\ r ∈ l /\ s !! r = Some R /\ in_range s Offset r /\
     n = region_size R).
Proof.
  intros Hb. revert c0 n0. induction l as [|r l IH]; intros c0 n0 Hl HO; simpl.
  { split_and!; [lia|by intros r R H%elem_of_nil|by left]. }
  destruct (Hl r) as [R HR]; [constructor|].
  assert (Hl' : forall x, x ∈ l -> is_Some (s !! x)) by (intros; apply Hl; by constructor).
  set (a := scan_region s Offset (c0, n0) r).
  specialize (IH (fst a) (snd a) Hl' HO). rewrite <- surjective_pairing in IH.
  destruct (foldl (scan_region s Offset) a l) as [c n] eqn:Ef. destruct IH as (H1 & H2 & H3).
  assert (Ha : snd a <= n0 /\ (in_range s Offset r -> snd a <= region_size R) /\
    (a = (c0, n0) \/ (a = (Some r, region_size R) /\ in_range s Offset r))).
  { unfold a, scan_region. rewrite HR. destruct (_ && _) eqn:E.
    - zbool. destruct (Hb r R HR). unfold region_size. unwrap. simpl.
      destruct (Z.leb_spec (EndMsilOffset R - StartMsilOffset R) n0); simpl.
      + split_and!; [done|lia|]. right. split; [done|]. exists R. split; [done|lia].
      + split_and!; [lia|lia|by left].
    - simpl. split_and!; [lia| |by left]. intros (R' & HR' & K1 & K2). simplify_eq.
      apply Z.leb_le in K1. apply Z.ltb_lt in K2. by rewrite K1, K2 in E. }
  destruct Ha as (A1 & A2 & A3). split_and!; [lia| |].
  - intros x X [->|Hx]%elem_of_cons HX Hin; [|by apply (H2 x)].
    rewrite HR in HX. injection HX as <-. specialize (A2 Hin). lia.
  - destruct H3 as [Heq|(x & X & ? & Hx & ? & ? & ?)].
    2: { right. exists x, X. split_and!; [done|by constructor|done..]. }
    destruct A3 as [A3|[A3 Hin]]; rewrite A3 in Heq; [by left|].
    injection Heq as -> ->. right. exists r, R. split_and!; [done|constructor|done..].
Qed.

(** [fgGetRegionFromMSILOffset] returns a smallest region that contains
    the offset, and the root when none of the listed regions does. *)
Theorem fgGetRegionFromMSILOffset_smallest (s : arena) (all : list nat) (root : option nat)
    (Offset : Z) :
  bounds_ok s -> (forall r, r ∈ all -> is_Some (s !! r)) -> 0 <= Offset ->
  (exists r R, fgGetRegionFromMSILOffset s all root Offset = Some r /\ r ∈ all /\
     s !! r = Some R /\ in_range s Offset r /\
     forall q Q, q ∈ all -> s !! q = Some Q -> in_range s Offset q ->
       region_size R <= region_size Q) \/
  (fgGetRegionFromMSILOffset s all root Offset = root /\
   forall q, q ∈ all -> ~ in_range s Offset q).
Proof.
  intros Hb Hall HO. unfold fgGetRegionFromMSILOffset.
  pose proof (scan_region_fold s Offset all root UINT_MAX Hb Hall HO) as H.
  destruct (foldl _ _ all) as [c n]. destruct H as (_ & Hmin & [[= -> ->]|Hfound]); simpl.
  - right. split; [done|]. intros q Hq Hin. destruct (Hall q Hq) as [Q HQ].
    pose proof (Hmin q Q Hq HQ Hin). destruct (Hb q Q HQ). unfold region_size in *.
    destruct Hin as (Q' & HQ' & ?). simplify_eq.
    unfold UINT_MAX in *. lia.
  - left. destruct Hfound as (r & R & -> & Hr & HR & Hin & ->). exists r, R. by split_and!.
Qed.

Lemma demo_bounds_ok : bounds_ok demo_arena.
Proof.
  intros r R HR. destruct r as [|[|[|r]]]; simpl in HR; simplify_eq; simpl; lia.
Qed.

Lemma fgGetRegionFromMSILOffset_smallest_witness :
  bounds_ok demo_arena /\
  exists r, fgGetRegionFromMSILOffset demo_arena [2; 1; 0]%nat (Some 0%nat) 5 = Some r /\ r = 1%nat.
Proof.
  split; [exact demo_bounds_ok|].
  destruct (fgGetRegionFromMSILOffset_smallest demo_arena [2; 1; 0]%nat (Some 0%nat) 5 demo_bounds_ok)
    as [(r & R & Hr & _)|[Hr _]].
  - intros r Hr. rewrite !elem_of_cons, elem_of_nil in Hr.
    destruct Hr as [->|[->|[->|[]]]]; eexists; reflexivity.
  - lia.
  - exists r. split; [exact Hr|]. vm_compute in Hr. injection Hr as <-. reflexivity.
  - vm_compute in Hr. discriminate Hr.
Defined.
