(* ===== verification/Leave.v ===== *)
(** * Leaving protected regions (lib/Reader/readerir.cpp)

    [updateLeaveOffset] routes a leave through the finallies it exits by
    storing a selector for each finally's selected_case switch; [leave] exits the
    catch handlers on the way.  Basic blocks are named by the MSIL offset they
    start at, as [fgAddNodeMSILOffset] keeps one node per offset. *)

From S2P Require Import Prelude Regions RegionTree RegionWalk.

(** ** State *)

(** Where a finally may go on: at an MSIL offset, or behind the cleanupret that
    continues an exception. *)
Inductive continuation : Set := ToOffset (Offset : Z) | ExnContinue.

#[export] Instance continuation_eq_dec : EqDecision continuation.
Proof. solve_decision. Defined.

(** The selected_case switch of each finally, its cases in the order in which they
    were added; the selector stores emitted, in order; the continuation-store
    map keyed by the offset after the leave; and the offsets
    [fgAddNodeMSILOffset] was asked for. *)
Record leave_state := LeaveState {
  switches : gmap nat (list (Z * continuation));
  stores : list (nat * Z);
  ContinuationStoreMap : gmap Z (nat * Z);
  label_requests : list Z }.

(** [SwitchInst::findCaseDest]: the value of the only case that leads there. *)
Definition findCaseDest (Switch : list (Z * continuation)) (C : continuation) : option Z :=
  match List.filter (fun c => bool_decide (c.2 = C)) Switch with
  | [c] => Some c.1
  | _ => None
  end.

(** Switch of a finally after making sure it has a case for [TargetOffset],
    with that case's value. *)
Definition selector_for (Switch : list (Z * continuation)) (TargetOffset : Z) :
    list (Z * continuation) * Z :=
  match findCaseDest Switch (ToOffset TargetOffset) with
  | Some SelectorValue => (Switch, SelectorValue)
  | None =>
      let SelectorValue := Z.of_nat (length Switch) + 1 in
      (Switch ++ [(SelectorValue, ToOffset TargetOffset)], SelectorValue)
  end.

(** The part of [fgMakeEndFinally] that concerns the switch: the first
    endfinally places it and adds the case of exceptions. *)
Definition place_switch (Switch : list (Z * continuation)) : list (Z * continuation) :=
  if bool_decide (ExnContinue ∈ Switch.*2) then Switch else Switch ++ [(0, ExnContinue)].

(** [fgMakeEndFinally] on the switch of the finally, which
    [createFinallyDispatch] makes when there is none yet. *)
Definition end_finally_switch (l : leave_state) (f : nat) : leave_state :=
  LeaveState (<[f := place_switch (default [] (switches l !! f))]> (switches l)) (stores l)
    (ContinuationStoreMap l) (label_requests l).

(** [std::map::insert] keeps an existing entry. *)
Definition map_insert (m : gmap Z (nat * Z)) (k : Z) (v : nat * Z) : gmap Z (nat * Z) :=
  match m !! k with Some _ => m | None => <[k := v]> m end.

(** Emits the continuation of one exited finally. *)
Definition set_continuation (st : leave_state) (FinallyRegion : nat)
    (NextOffset TargetOffset : Z) (Innermost : bool) : leave_state :=
  let '(sw, SelectorValue) :=
    selector_for (default [] (switches st !! FinallyRegion)) TargetOffset in
  let Store := (FinallyRegion, SelectorValue) in
  LeaveState (<[FinallyRegion := sw]> (switches st)) (stores st ++ [Store])
    (if Innermost then map_insert (ContinuationStoreMap st) NextOffset Store
     else ContinuationStoreMap st)
    (label_requests st ++ [TargetOffset]).

Section Leave.

Context (SuppressExceptionHandlers : bool).

Definition is_handler_kind (k : RegionKind) : bool :=
  match k with RGN_MCatch | RGN_Fault | RGN_Filter | RGN_MExcept => true | _ => false end.

(** The finally to invoke when a leave to [TargetOffset] exits the region. *)
Definition exited_finally (s : arena) (Region : nat) (R : EHRegion) (TargetOffset : Z)
    : option (option nat) :=
  if is_kind RGN_Try R &&
     ((TargetOffset <? StartMsilOffset R) || (EndMsilOffset R <=? TargetOffset))
  then getFinallyRegion s Region
  else Some None.

(** Target, the [IsInHandler] flag and the new state. *)
Fixpoint updateLeaveOffset_rec (fuel : nat) (s : arena) (Region : nat)
    (LeaveOffset NextOffset TargetOffset : Z) (st : leave_state)
    : option (Z * bool * leave_state) :=
  match fuel with
  | O => None
  | S fuel' =>
      R ← s !! Region;
      if SuppressExceptionHandlers && is_handler_kind (Kind R) then
        Some (TargetOffset, true, st)
      else
        FinallyRegion ← exited_finally s Region R TargetOffset;
        ChildTargetOffset ←
          match FinallyRegion with
          | Some f => rgnGetStartMSILOffset s f
          | None => Some TargetOffset
          end;
        ChildRegion ← getInnerEnclosingRegion s Region LeaveOffset;
        '(InnermostTargetOffset, IsInHandler, st) ←
          match ChildRegion with
          | Some c =>
              updateLeaveOffset_rec fuel' s c LeaveOffset NextOffset ChildTargetOffset st
          | None => Some (ChildTargetOffset, false, st)
          end;
        if (IsInHandler : bool) then Some (TargetOffset, true, st)
        else
          match FinallyRegion with
          | None => Some (InnermostTargetOffset, false, st)
          | Some f =>
              let Innermost := InnermostTargetOffset =? ChildTargetOffset in
              let st := set_continuation st f NextOffset TargetOffset Innermost in
              FinallyStart ← rgnGetStartMSILOffset s f;
              Some (if Innermost then FinallyStart else InnermostTargetOffset, false, st)
          end
  end.

Definition updateLeaveOffset (s : arena) (EhRegionTree : option nat)
    (LeaveOffset NextOffset TargetOffset : Z) (st : leave_state)
    : option (Z * leave_state) :=
  match EhRegionTree with
  | None => Some (TargetOffset, st)
  | Some RootRegion =>
      '(o, _, st') ← updateLeaveOffset_rec (S (length s)) s RootRegion
                       LeaveOffset NextOffset TargetOffset st;
      Some (o, st')
  end.

End Leave.

(** ** Exiting catch handlers *)

(** A block the leave jumps to: the original target or the i-th exit block. *)
Inductive leave_target : Set := TargetBlock | ExitBlock (i : nat).

(** The catch and filter handlers between two regions, innermost first. *)
Fixpoint collect_handlers (fuel : nat) (s : arena) (Leaving ExitToRegion : option nat)
    : option (list nat) :=
  if bool_decide (Leaving = ExitToRegion) then Some [] else
  match fuel with
  | O => None
  | S fuel' =>
      l ← Leaving; L ← s !! l;
      hs ← collect_handlers fuel' s (Parent L) ExitToRegion;
      Some (if is_kind RGN_MCatch L || is_kind RGN_MExcept L then l :: hs else hs)
  end.

(** One exit block per handler, made outermost first: each returns from its
    handler to the block made before it. *)
Definition exit_blocks (Handlers : list nat) : list (nat * leave_target) * leave_target :=
  foldl (fun '(blocks, NextTarget) h =>
           (blocks ++ [(h, NextTarget)], ExitBlock (length blocks)))
        ([], TargetBlock) (rev Handlers).

Definition leave (s : arena) (CurrentRegion TargetRegion : option nat)
    : option (list (nat * leave_target) * leave_target) :=
  ExitToRegion ← getCommonAncestor s CurrentRegion TargetRegion;
  Handlers ← collect_handlers (S (length s)) s CurrentRegion ExitToRegion;
  Some (exit_blocks Handlers).

(** ** What a leave must do *)

(** The finallies a leave exits along the enclosing regions, outermost first,
    each with the offset to continue at. *)
Fixpoint exits (s : arena) (path : list nat) (TargetOffset : Z) : option (list (nat * Z)) :=
  match path with
  | [] => Some []
  | r :: path' =>
      R ← s !! r;
      f ← exited_finally s r R TargetOffset;
      match f with
      | None => exits s path' TargetOffset
      | Some f =>
          o ← rgnGetStartMSILOffset s f;
          l ← exits s path' o;
          Some ((f, TargetOffset) :: l)
      end
  end.

(** The case a value selects. *)
Definition selected_case (Switch : list (Z * continuation)) (v : Z) : option continuation :=
  snd <$> List.find (fun c => c.1 =? v) Switch.

(** Running the stored selectors: control at [o] enters the finally that
    starts there, whose switch dispatches on the stored value. *)
Inductive runs_finallies (s : arena) (sw : gmap nat (list (Z * continuation)))
    : Z -> list (nat * Z) -> Z -> Prop :=
  | runs_done o : runs_finallies s sw o [] o
  | runs_step f v l cases T o :
      sw !! f = Some cases -> selected_case cases v = Some (ToOffset T) ->
      runs_finallies s sw T l o ->
      forall start, rgnGetStartMSILOffset s f = Some start ->
      runs_finallies s sw start ((f, v) :: l) o.

(** Case values keep their meaning when switches grow. *)
Definition switches_extend (sw sw' : gmap nat (list (Z * continuation))) : Prop :=
  forall f cases, sw !! f = Some cases -> exists cases', sw' !! f = Some cases' /\
    forall v C, selected_case cases v = Some C -> selected_case cases' v = Some C.

(** The cases of a switch: values and destinations occur once, and 0 is the
    value of the exceptional continuation. *)
Record switch_ok (cases : list (Z * continuation)) : Prop := {
  sw_values : NoDup (cases.*1);
  sw_targets : NoDup (cases.*2);
  sw_bounds : forall v C, (v, C) ∈ cases ->
    0 <= v <= Z.of_nat (length cases) /\ (v = 0 <-> C = ExnContinue)
}.

Definition switches_ok (sw : gmap nat (list (Z * continuation))) : Prop := map_Forall (fun _ => switch_ok) sw.

Lemma switches_extend_refl sw : switches_extend sw sw.
Proof. intros f cases H. by exists cases. Qed.

Lemma switches_extend_trans a b c :
  switches_extend a b -> switches_extend b c -> switches_extend a c.
Proof.
  intros H1 H2 f cases H. destruct (H1 f cases H) as (c1 & Hc1 & Hd1).
  destruct (H2 f _ Hc1) as (c2 & Hc2 & Hd2). exists c2. auto.
Qed.

Lemma runs_finallies_extend s sw sw' o l o' :
  switches_extend sw sw' -> runs_finallies s sw o l o' -> runs_finallies s sw' o l o'.
Proof.
  intros Hx. induction 1 as [|f v l cases T o Hf HT _ IH start Hs]; [constructor|].
  destruct (Hx f cases Hf) as (cases' & Hc & Hd). by eapply runs_step; eauto.
Qed.

Lemma runs_finallies_snoc s sw o l o1 f v cases o2 :
  runs_finallies s sw o l o1 -> rgnGetStartMSILOffset s f = Some o1 ->
  sw !! f = Some cases -> selected_case cases v = Some (ToOffset o2) ->
  runs_finallies s sw o (l ++ [(f, v)]) o2.
Proof.
  induction 1 as [o|f' v' l cases' T o Hf HT _ IH start Hs]; intros H1 H2 H3; simpl.
  - eapply runs_step; [done..|constructor|done].
  - by eapply runs_step; [| |apply IH|].
Qed.

Lemma dispatch_app (l1 l2 : list (Z * continuation)) v C :
  selected_case l1 v = Some C -> selected_case (l1 ++ l2) v = Some C.
Proof.
  unfold selected_case. intros H. destruct (List.find _ l1) as [c|] eqn:E; [|done].
  assert (HF : List.find (fun c => c.1 =? v) (l1 ++ l2) = Some c).
  { clear H. induction l1 as [|x l1 IH]; cbn in *; [done|]. destruct (x.1 =? v); auto. }
  by rewrite HF.
Qed.

Lemma dispatch_elem (cases : list (Z * continuation)) v C :
  NoDup (cases.*1) -> (v, C) ∈ cases -> selected_case cases v = Some C.
Proof.
  unfold selected_case. induction cases as [|[w D] cases IH]; intros Hn Hin; [by apply elem_of_nil in Hin|].
  cbn in *. apply NoDup_cons in Hn as [Hw Hn]. apply elem_of_cons in Hin as [[= <- <-]|Hin].
  - by rewrite Z.eqb_refl.
  - destruct (Z.eqb_spec w v) as [->|]; [|by apply IH].
    destruct Hw. apply list_elem_of_fmap. by exists (v, C).
Qed.

(** A case for a new destination, with a value above the number of cases. *)
Lemma switch_ok_snoc (cases : list (Z * continuation)) (v : Z) (C : continuation) :
  switch_ok cases -> C ∉ cases.*2 -> v ∉ cases.*1 ->
  0 <= v <= Z.of_nat (length cases) + 1 -> (v = 0 <-> C = ExnContinue) ->
  switch_ok (cases ++ [(v, C)]).
Proof.
  intros [H1 H2 H3] HC Hv Hb Hz. split.
  - rewrite fmap_app. apply NoDup_app. split; [done|]. cbn. split; [|apply NoDup_singleton].
    intros x Hx ->%list_elem_of_singleton. done.
  - rewrite fmap_app. apply NoDup_app. split; [done|]. cbn. split; [|apply NoDup_singleton].
    intros x Hx ->%list_elem_of_singleton. done.
  - intros w D [Hin|Hin]%elem_of_app; rewrite length_app; cbn [length].
    + destruct (H3 w D Hin). split; [lia|done].
    + apply list_elem_of_singleton in Hin as [= -> ->]. split; [lia|done].
Qed.

Lemma findCaseDest_spec (cases : list (Z * continuation)) (C : continuation) :
  NoDup (cases.*2) ->
  match findCaseDest cases C with Some v => (v, C) ∈ cases | None => C ∉ cases.*2 end.
Proof.
  intros Hn. unfold findCaseDest.
  assert (Hin : forall c, c ∈ List.filter (fun c => bool_decide (c.2 = C)) cases <-> c ∈ cases /\ c.2 = C).
  { intros c. rewrite !list_elem_of_In, filter_In. by rewrite bool_decide_eq_true. }
  destruct (List.filter _ cases) as [|c [|d l]] eqn:E.
  - intros HC. apply list_elem_of_fmap in HC as (c & -> & Hc). by apply (not_elem_of_nil c), Hin.
  - destruct (proj1 (Hin c) ltac:(constructor)) as [Hc <-]. by destruct c.
  - exfalso. assert (HN : NoDup ((c :: d :: l).*2)).
    { rewrite <- E. clear E Hin. induction cases as [|x cases IH]; cbn; [constructor|].
      apply NoDup_cons in Hn as [Hx Hn]. destruct (bool_decide (x.2 = C)); [|by apply IH]. cbn.
      apply NoDup_cons. split; [|by apply IH]. intros Hx'. destruct Hx.
      apply list_elem_of_fmap in Hx' as (y & -> & Hy). apply list_elem_of_In, filter_In in Hy as [Hy _].
      apply list_elem_of_fmap. exists y. split; [done|]. by apply list_elem_of_In. }
    destruct (proj1 (Hin c) ltac:(constructor)) as [_ HcC], (proj1 (Hin d) ltac:(do 2 constructor)) as [_ HdC].
    cbn in HN. rewrite HcC, HdC in HN. apply NoDup_cons in HN as [HN _]. destruct HN. constructor.
Qed.

Lemma selector_for_spec sw T : switch_ok sw ->
  let '(sw', v) := selector_for sw T in
  switch_ok sw' /\ (forall w C, selected_case sw w = Some C -> selected_case sw' w = Some C) /\
  selected_case sw' v = Some (ToOffset T).
Proof.
  intros Hok. unfold selector_for. pose proof (findCaseDest_spec sw (ToOffset T) (sw_targets _ Hok)) as H.
  destruct (findCaseDest sw (ToOffset T)) as [v|].
  - split; [done|split; [done|]]. by apply dispatch_elem; [apply Hok|].
  - assert (Hok' : switch_ok (sw ++ [(Z.of_nat (length sw) + 1, ToOffset T)])).
    { apply switch_ok_snoc; [done|done| |lia|split; [lia|done]].
      intros Hv. apply list_elem_of_fmap in Hv as ([w D] & Hw & Hin). cbn in Hw. subst w.
      pose proof (sw_bounds _ Hok _ _ Hin). lia. }
    split; [done|]. split; [intros; by apply dispatch_app|].
    apply dispatch_elem; [apply Hok'|]. apply elem_of_app. right. by constructor.
Qed.

(** Placing the switch keeps every case. *)
Lemma place_switch_spec sw : switch_ok sw ->
  switch_ok (place_switch sw) /\ (forall w C, selected_case sw w = Some C -> selected_case (place_switch sw) w = Some C) /\
  selected_case (place_switch sw) 0 = Some ExnContinue.
Proof.
  intros Hok. unfold place_switch. case_bool_decide as HE.
  - split; [done|split; [done|]]. apply list_elem_of_fmap in HE as ([v D] & HD & Hin). cbn in HD. subst D.
    destruct (sw_bounds _ Hok _ _ Hin) as [_ Hz]. rewrite (proj2 Hz eq_refl) in Hin.
    by apply dispatch_elem; [apply Hok|].
  - assert (Hok' : switch_ok (sw ++ [(0, ExnContinue)])).
    { apply switch_ok_snoc; [done|done| |lia|done].
      intros Hv. apply list_elem_of_fmap in Hv as ([w D] & Hw & Hin). cbn in Hw. subst w.
      destruct (sw_bounds _ Hok _ _ Hin) as [_ Hz]. destruct HE. rewrite <- (proj1 Hz eq_refl).
      apply list_elem_of_fmap. by exists (0, D). }
    split; [done|]. split; [intros; by apply dispatch_app|].
    apply dispatch_elem; [apply Hok'|]. apply elem_of_app. right. by constructor.
Qed.

Lemma set_continuation_spec st f Next T inner : switches_ok (switches st) ->
  let st' := set_continuation st f Next T inner in
  switches_ok (switches st') /\ switches_extend (switches st) (switches st') /\
  exists v cases, stores st' = stores st ++ [(f, v)] /\ switches st' !! f = Some cases /\
    selected_case cases v = Some (ToOffset T).
Proof.
  intros Hsw. unfold set_continuation.
  assert (Hf : switch_ok (default [] (switches st !! f))).
  { destruct (switches st !! f) as [cases|] eqn:E; [by apply (Hsw f)|].
    split; [constructor|constructor|]. by intros v C Hin%elem_of_nil. }
  pose proof (selector_for_spec _ T Hf) as H.
  destruct (selector_for _ T) as [sw v]. destruct H as (Hok & Hx & HT). simpl. split_and!.
  - by apply map_Forall_insert_2.
  - intros g cases Hg. destruct (decide (g = f)) as [->|Hne].
    + exists sw. rewrite lookup_insert_eq. split; [done|]. by rewrite Hg in Hx.
    + exists cases. by rewrite lookup_insert_ne.
  - exists v, sw. by rewrite lookup_insert_eq.
Qed.

(** An endfinally keeps the switches well formed and every case. *)
Lemma end_finally_switch_spec st f : switches_ok (switches st) ->
  switches_ok (switches (end_finally_switch st f)) /\
  switches_extend (switches st) (switches (end_finally_switch st f)).
Proof.
  intros Hsw. unfold end_finally_switch. cbn [switches].
  assert (Hf : switch_ok (default [] (switches st !! f))).
  { destruct (switches st !! f) as [cases|] eqn:E; [by apply (Hsw f)|].
    split; [constructor|constructor|]. by intros v C Hin%elem_of_nil. }
  destruct (place_switch_spec _ Hf) as (Hok & Hx & _). split; [by apply map_Forall_insert_2|].
  intros g cases Hg. destruct (decide (g = f)) as [->|Hne].
  - eexists. rewrite lookup_insert_eq. split; [done|]. by rewrite Hg in Hx |- *.
  - exists cases. by rewrite lookup_insert_ne.
Qed.

Section LeaveProofs.

Context (s : arena) (Hok : arena_ok s).

Lemma finally_scan_total l :
  (forall c, c ∈ l -> is_Some (s !! c)) ->
  exists x, finally_scan s l = Some x /\
    match x with Some f => f ∈ l | None => True end.
Proof.
  induction l as [|c l IH]; intros Hl; simpl; [by exists None|].
  destruct (Hl c) as [C ->]; [constructor|]. simpl. case_match.
  - exists (Some c). split; [done|constructor].
  - destruct IH as ([f|] & -> & Hf); [intros; apply Hl; by constructor|..].
    + exists (Some f). split; [done|by constructor].
    + by exists None.
Qed.

Lemma exited_finally_total r R T : s !! r = Some R ->
  exists x, exited_finally s r R T = Some x /\
    match x with Some f => is_Some (rgnGetStartMSILOffset s f) | None => True end.
Proof.
  intros HR. unfold exited_finally, getFinallyRegion. rewrite HR. simpl.
  destruct (_ && _); [|by exists None].
  destruct (finally_scan_total (Children R)) as (x & -> & Hx).
  { intros c Hc. destruct (child_lookup s Hok r R c HR Hc) as (C & -> & _). eauto. }
  exists x. split; [done|]. destruct x as [f|]; [|done].
  destruct (child_lookup s Hok r R f HR Hx) as (F & HF & _).
  unfold rgnGetStartMSILOffset. rewrite HF. simpl. eauto.
Qed.

(** The result of the recursion: either it was in a suppressed handler and
    nothing happened, or the emitted stores run the exited finallies. *)
Definition leave_result (path : list nat) (T : Z) (st : leave_state)
    (res : Z * bool * leave_state) : Prop :=
  let '(o, inh, st') := res in
  if (inh : bool) then o = T /\ st' = st
  else exists l new, exits s path T = Some l /\ stores st' = stores st ++ new /\
    map fst new = rev (map fst l) /\ runs_finallies s (switches st') o new T /\
    switches_ok (switches st') /\ switches_extend (switches st) (switches st').

(** A handler on the way to the leave that is suppressed. *)
Definition suppressed (Sup : bool) (path : list nat) : Prop :=
  Sup = true /\ exists h H, h ∈ path /\ s !! h = Some H /\ is_handler_kind (Kind H) = true.

Lemma suppressed_cons Sup r R path : s !! r = Some R -> Sup && is_handler_kind (Kind R) = false ->
  suppressed Sup (r :: path) <-> suppressed Sup path.
Proof.
  intros HR Hn. split.
  - intros [-> (h & H & [->|Hh]%elem_of_cons & HH & Hk)]; [|by split; [|exists h, H]].
    rewrite HR in HH. injection HH as <-. by rewrite Hk in Hn.
  - intros [-> (h & H & Hh & HH & Hk)]. split; [done|]. exists h, H. split; [by constructor|done].
Qed.

Lemma updateLeaveOffset_rec_spec Sup Leave Next fuel r T st :
  switches_ok (switches st) -> (r < length s)%nat -> (length s < r + fuel)%nat ->
  exists path res, inner_path s Leave r path /\
    updateLeaveOffset_rec Sup fuel s r Leave Next T st = Some res /\
    leave_result path T st res /\
    (snd (fst res) = true <-> suppressed Sup path).
Proof.
  intros Hsw. revert r T. induction fuel as [|fuel IH]; intros r T Hlt Hf; [lia|].
  destruct (lookup_lt_is_Some_2 s r Hlt) as [R HR].
  destruct (inner_scan_spec s Hok Leave r R (Children R) HR ltac:(done)) as (x & Hx & Hpost).
  assert (Hg : getInnerEnclosingRegion s r Leave = Some x)
    by (unfold getInnerEnclosingRegion; by rewrite HR).
  cbn [updateLeaveOffset_rec]. rewrite HR. cbn [mbind option_bind].
  destruct (Sup && is_handler_kind (Kind R)) eqn:Es.
  { assert (Hpath : exists path, inner_path s Leave r path).
    { destruct (walk_spec s Hok Leave (S fuel) r None Hlt Hf) as (l & _ & Hl & _). eauto. }
    destruct Hpath as [path Hp]. exists path. eexists. split; [done|]. split; [done|]. split; [done|].
    apply andb_true_iff in Es as [HS Hk]. split; [|done]. intros _. split; [done|]. exists r, R.
    split; [by inversion Hp; constructor|done]. }
  destruct (exited_finally_total r R T HR) as (f & Hf' & Hstart). rewrite Hf'.
  cbn [mbind option_bind]. rewrite Hg.
  assert (Hchild : exists CT, match f with Some g => rgnGetStartMSILOffset s g
                                         | None => Some T end = Some CT).
  { destruct f as [g|]; [|eauto]. destruct Hstart as [o Ho]. eauto. }
  destruct Hchild as [CT HCT]. rewrite HCT. cbn [mbind option_bind].
  assert (Hinner : exists path res, inner_path s Leave r (r :: path) /\
    match x with
    | Some c => updateLeaveOffset_rec Sup fuel s c Leave Next CT st
    | None => Some (CT, false, st)
    end = Some res /\ leave_result path CT st res /\ (snd (fst res) = true <-> suppressed Sup path)).
  { destruct x as [c|].
    - destruct Hpost as (_ & (C & HC & _) & Hrc). apply lookup_lt_Some in HC.
      destruct (IH c CT HC ltac:(lia)) as (path & res & Hp & Hres & Hlr & Hs).
      exists path, res. split_and!; try done. by eapply path_step.
    - exists [], (CT, false, st). split; [by apply path_end|]. split; [done|].
      split; [|split; [done|intros [_ (h & H & Hh%elem_of_nil & _)]; done]].
      exists [], []. rewrite app_nil_r. split_and!; try done; [constructor|].
      apply switches_extend_refl. }
  destruct Hinner as (path & [[o inh] st1] & Hp & -> & Hlr & Hs). cbn [mbind option_bind].
  exists (r :: path). rewrite <- (suppressed_cons Sup r R path HR Es) in Hs. destruct inh; simpl in Hlr, Hs.
  { destruct Hlr as [-> ->]. eexists. split; [done|]. split; [done|]. by split. }
  destruct Hlr as (l & new & Hex & Hst & Hnew & Hrun & Hsw1 & Hsx).
  destruct f as [f|]; cycle 1.
  { simplify_eq. eexists. split; [done|]. split; [done|]. split; [|done]. exists l, new.
    split_and!; try done. simpl. rewrite HR. simpl. by rewrite Hf'. }
  rewrite HCT. cbn [mbind option_bind]. eexists. split; [done|]. split; [done|]. split; [|done]. simpl.
  destruct (set_continuation_spec st1 f Next T (o =? CT) Hsw1) as (Hsw2 & Hx2 & v & cases & Hst2 & Hc & HT).
  set (st2 := set_continuation st1 f Next T (o =? CT)) in *.
  exists ((f, T) :: l), (new ++ [(f, v)]). split_and!.
  - rewrite HR. simpl. rewrite Hf'. simpl. rewrite HCT. simpl. by rewrite Hex.
  - by rewrite Hst2, Hst, app_assoc.
  - rewrite map_app, Hnew. done.
  - eapply runs_finallies_snoc; [|done..].
    destruct (Z.eqb_spec o CT) as [<-|]; by eapply runs_finallies_extend.
  - done.
  - by eapply switches_extend_trans.
Qed.

End LeaveProofs.

(** ** Which finallies a leave exits *)

(** The region around a region in the code: a handler lies behind its try, in
    what is around the try. *)
Definition lexical_parent (s : arena) (r : nat) : option nat :=
  R ← s !! r;
  if bool_decide (Kind R ∈ [RGN_Fault; RGN_Finally; RGN_Filter; RGN_MExcept; RGN_MCatch])
  then p ← Parent R; P ← s !! p; Parent P
  else Parent R.

Definition finally_of (s : arena) (t f : nat) : Prop :=
  exists T F, s !! t = Some T /\ Kind T = RGN_Try /\ s !! f = Some F /\ Kind F = RGN_Finally /\
    Parent F = Some t.

(** What valid clauses give: regions lie within the regions around them, side
    by side, and no try has two finallies, nor an empty one. *)
Record lexical_ok (s : arena) : Prop := {
  lx_nested : forall r p x, lexical_parent s r = Some p -> p <> 0%nat -> in_range s x r -> in_range s x p;
  lx_disjoint : forall c d p x, lexical_parent s c = Some p -> lexical_parent s d = Some p ->
    in_range s x c -> in_range s x d -> c = d;
  lx_finally : forall t f g, finally_of s t f -> finally_of s t g -> f = g;
  lx_nonempty : forall t f F, finally_of s t f -> s !! f = Some F -> StartMsilOffset F < EndMsilOffset F
}.

(** A try that the code from [LeaveOffset] leaves for [TargetOffset]. *)
Definition exited_try (s : arena) (LeaveOffset TargetOffset : Z) (t : nat) : Prop :=
  (exists T, s !! t = Some T /\ Kind T = RGN_Try) /\ in_range s LeaveOffset t /\ ~ in_range s TargetOffset t.

(** The offset is in a handler that runs for exceptions only. *)
Definition in_exception_handler (s : arena) (x : Z) : Prop :=
  exists h H, s !! h = Some H /\ Kind H ∈ [RGN_MCatch; RGN_Fault; RGN_Filter; RGN_MExcept] /\ in_range s x h.

Definition lies_within (s : arena) (t u : nat) : Prop :=
  t <> u /\ forall x, in_range s x t -> in_range s x u.

(** The try of the first finally lies in that of the second. *)
Definition inner_finally (s : arena) (f g : nat) : Prop :=
  forall t u, finally_of s t f -> finally_of s u g -> lies_within s t u.

(** The finallies of the tries that are left, each once and inner ones first. *)
Definition exited_finallies (s : arena) (LeaveOffset TargetOffset : Z) (fs : list nat) : Prop :=
  (forall f, f ∈ fs <-> exists t, exited_try s LeaveOffset TargetOffset t /\ finally_of s t f) /\
  StronglySorted (inner_finally s) fs.

Section Lexical.

Context (s : arena) (Hok : arena_ok s) (Hlx : lexical_ok s) (L : Z).

Lemma outside_kinds (R : EHRegion) :
  bool_decide (Kind R ∈ [RGN_Fault; RGN_Finally; RGN_Filter; RGN_MExcept; RGN_MCatch]) = rgnIsOutsideParent R.
Proof. unfold rgnIsOutsideParent. by destruct (Kind R). Qed.

Lemma lexical_parent_lt r p : lexical_parent s r = Some p -> (p < r)%nat /\ is_Some (s !! p).
Proof.
  unfold lexical_parent. destruct (s !! r) as [R|] eqn:HR; [|done]. cbn [mbind option_bind].
  case_bool_decide.
  - destruct (Parent R) as [q|] eqn:Hq; [|done]. cbn [mbind option_bind].
    destruct (parent_lt s Hok r R q HR Hq) as [Hlt [Q HQ]]. rewrite HQ. cbn [mbind option_bind]. intros Hp.
    destruct (parent_lt s Hok q Q p HQ Hp). split; [lia|done].
  - intros Hp. by apply (parent_lt s Hok r R).
Qed.

Lemma handler_parent h H t : s !! h = Some H -> rgnIsOutsideParent H = true -> Parent H = Some t ->
  exists T, s !! t = Some T /\ Kind T = RGN_Try /\ lexical_parent s h = Parent T /\
    lexical_parent s t = Parent T.
Proof.
  intros HH Ho Hp.
  assert (Hh : h <> 0%nat).
  { intros ->. destruct (ao_root _ Hok) as (R0 & H0 & Hk & _). rewrite HH in H0. injection H0 as <-.
    unfold rgnIsOutsideParent in Ho. by rewrite Hk in Ho. }
  destruct (ro_parent _ _ _ (ao_region _ Hok h H HH) Hh) as (_ & p & P & Hp' & _ & HP & _ & Htry).
  rewrite Hp in Hp'. injection Hp' as <-. exists P. split; [done|]. split; [by apply Htry|].
  unfold lexical_parent. rewrite HH, HP. cbn [mbind option_bind]. rewrite !outside_kinds, Ho, Hp.
  cbn [mbind option_bind]. rewrite HP. split; [done|]. unfold rgnIsOutsideParent. by rewrite (Htry Ho).
Qed.

Lemma lexical_parent_try t T : s !! t = Some T -> Kind T = RGN_Try -> lexical_parent s t = Parent T.
Proof.
  intros HT Hk. unfold lexical_parent. rewrite HT. cbn [mbind option_bind]. rewrite outside_kinds.
  unfold rgnIsOutsideParent. by rewrite Hk.
Qed.

(** A child that is no handler is a try, and lies in its parent. *)
Lemma lexical_parent_child r R c C : s !! r = Some R -> c ∈ Children R -> s !! c = Some C ->
  rgnIsOutsideParent C = false -> lexical_parent s c = Some r.
Proof.
  intros HR Hc HC Ho. destruct (child_lookup s Hok r R c HR Hc) as (C' & HC' & Hp & _).
  rewrite HC in HC'. injection HC' as <-. unfold lexical_parent. rewrite HC. cbn [mbind option_bind].
  by rewrite outside_kinds, Ho.
Qed.

Lemma inner_scan_origin l c : inner_scan s L l = Some (Some c) ->
  c ∈ l \/ exists t T, t ∈ l /\ s !! t = Some T /\ Kind T = RGN_Try /\ ~ in_range s L t /\ c ∈ Children T.
Proof.
  induction l as [|t l IH]; cbn [inner_scan]; [done|]. destruct (s !! t) as [T|] eqn:HT; [|done].
  cbn [mbind option_bind]. unfold in_region. destruct (_ && _) eqn:E.
  { intros [= <-]. left. constructor. }
  assert (Hn : ~ in_range s L t).
  { intros (T' & HT' & H1 & H2). rewrite HT in HT'. injection HT' as <-.
    apply Z.leb_le in H1. apply Z.ltb_lt in H2. by rewrite H1, H2 in E. }
  assert (Hl : inner_scan s L l = Some (Some c) -> c ∈ t :: l \/ exists u U, u ∈ t :: l /\ s !! u = Some U /\
    Kind U = RGN_Try /\ ~ in_range s L u /\ c ∈ Children U).
  { intros [Hc|(u & U & Hu & HU)]%IH; [left|right; exists u, U]; rewrite elem_of_cons; eauto. }
  destruct (is_kind RGN_Try T) eqn:Ek; [|done]. apply is_kind_true in Ek.
  destruct (first_containing s L (Children T)) as [[g|]|] eqn:Eg; cbn [mbind option_bind]; try done.
  intros [= ->]. right. exists t, T. split; [constructor|]. do 3 (split; [done|]).
  clear -Eg. revert Eg. induction (Children T) as [|x ch IH]; cbn; [done|]. destruct (s !! x) as [X|]; [|done]. cbn.
  destruct (in_region L X); [intros [= <-]; constructor|]. intros H%IH. by constructor.
Qed.

(** The walk goes to a region that lies in the one it comes from. *)
Lemma inner_step r c : r = 0%nat \/ in_range s L r -> getInnerEnclosingRegion s r L = Some (Some c) ->
  lexical_parent s c = Some r /\ in_range s L c.
Proof.
  intros Hr Hg. unfold getInnerEnclosingRegion in Hg. destruct (s !! r) as [R|] eqn:HR; [|done].
  cbn [mbind option_bind] in Hg.
  destruct (inner_scan_spec s Hok L r R (Children R) HR ltac:(done)) as (x & Hx & Hpost).
  rewrite Hg in Hx. injection Hx as <-. destruct Hpost as (Hb & Hin & Hlt). split; [|done].
  destruct Hin as (C & HC & Hrange).
  assert (Hin : in_range s L c) by by exists C.
  destruct (inner_scan_origin _ _ Hg) as [Hc|(t & T & Ht & HT & HkT & Hnt & Hc)].
  - destruct (rgnIsOutsideParent C) eqn:Ho; [|by eapply lexical_parent_child].
    destruct (child_lookup s Hok r R c HR Hc) as (C' & HC' & Hp & _). rewrite HC in HC'. injection HC' as <-.
    destruct (handler_parent c C r HC Ho Hp) as (R' & HR' & HkR & Hlc & Hlr).
    rewrite HR in HR'. injection HR' as <-.
    assert (Hr0 : r <> 0%nat).
    { intros ->. destruct (ao_root _ Hok) as (R0 & H0 & Hk & _). congruence. }
    destruct Hr as [Hr|Hr]; [done|].
    destruct (ro_parent _ _ _ (ao_region _ Hok r R HR) Hr0) as (_ & q & _ & Hq & _).
    rewrite Hq in Hlc, Hlr. pose proof (lx_disjoint _ Hlx c r q L Hlc Hlr Hin Hr). lia.
  - destruct (child_lookup s Hok r R t HR Ht) as (T' & HT' & HpT & Hrt). rewrite HT in HT'. injection HT' as <-.
    destruct (child_lookup s Hok t T c HT Hc) as (C' & HC' & Hp & Htc). rewrite HC in HC'. injection HC' as <-.
    destruct (rgnIsOutsideParent C) eqn:Ho.
    + destruct (handler_parent c C t HC Ho Hp) as (T' & HT' & _ & Hlc & _). rewrite HT in HT'.
      injection HT' as <-. by rewrite Hlc.
    + assert (Hlc : lexical_parent s c = Some t) by by eapply lexical_parent_child.
      assert (Hint : in_range s L t) by (apply (lx_nested _ Hlx c t L Hlc); [lia|done]).
      done.
Qed.

(** What lies below [r] lies in it. *)
Lemma inner_path_within r path : r = 0%nat \/ in_range s L r -> inner_path s L r path ->
  forall c, c ∈ path -> (c = 0%nat \/ in_range s L c) /\ (r <= c)%nat /\
    (r <> 0%nat -> forall x, in_range s x c -> in_range s x r).
Proof.
  intros Hr Hp. induction Hp as [r Hg|r d l Hg Hp IH]; intros c Hc.
  - apply list_elem_of_singleton in Hc as ->. split; [done|split; [lia|done]].
  - apply elem_of_cons in Hc as [->|Hc]; [split; [done|split; [lia|done]]|].
    destruct (inner_step r d Hr Hg) as [Hlp Hin]. destruct (lexical_parent_lt d r Hlp) as [Hlt _].
    destruct (IH (or_intror Hin) c Hc) as (H1 & H2 & H3). split; [done|]. split; [lia|].
    intros Hr0 x Hx. apply (lx_nested _ Hlx d r x Hlp Hr0), H3; [lia|done].
Qed.

(** The walk visits every region that the offset is in. *)
Lemma inner_path_next r path c : r = 0%nat \/ in_range s L r -> inner_path s L r path ->
  forall p, p ∈ path -> lexical_parent s c = Some p -> in_range s L c -> c ∈ path.
Proof.
  intros Hr Hp. induction Hp as [r Hg|r d l Hg Hp IH]; intros p Hpin Hlp Hc.
  - apply list_elem_of_singleton in Hpin as ->. exfalso.
    unfold getInnerEnclosingRegion in Hg. destruct (s !! r) as [R|] eqn:HR; [|done]. cbn [mbind option_bind] in Hg.
    destruct (inner_scan_spec s Hok L r R (Children R) HR ltac:(done)) as (x & Hx & Hpost).
    rewrite Hg in Hx. injection Hx as <-.
    pose proof Hlp as Hlp'. unfold lexical_parent in Hlp. destruct (s !! c) as [C|] eqn:HC; [|done].
    cbn [mbind option_bind] in Hlp. rewrite outside_kinds in Hlp.
    assert (Hc0 : c <> 0%nat) by (destruct (lexical_parent_lt c r Hlp'); lia).
    destruct (ro_parent _ _ _ (ao_region _ Hok c C HC) Hc0) as (_ & q & Q & Hq & _ & HQ & Hcq & Htry).
    rewrite Hq in Hlp. destruct (rgnIsOutsideParent C) eqn:Ho; cbn [mbind option_bind] in Hlp.
    + rewrite HQ in Hlp. cbn [mbind option_bind] in Hlp.
      assert (Hq0 : q <> 0%nat).
      { intros ->. destruct (ao_root _ Hok) as (R0 & H0 & Hk & _). rewrite HQ in H0. injection H0 as <-.
        by rewrite (Htry eq_refl) in Hk. }
      destruct (ro_parent _ _ _ (ao_region _ Hok q Q HQ) Hq0) as (_ & r' & R' & Hr' & _ & HR' & Hqr & _).
      rewrite Hlp in Hr'. injection Hr' as <-. rewrite HR in HR'. injection HR' as <-.
      destruct (Hpost q Hqr) as [_ Hg2]. by apply (Hg2 Q c HQ (Htry eq_refl) Hcq).
    + injection Hlp as ->. rewrite HR in HQ. injection HQ as <-. by destruct (Hpost c Hcq).
  - destruct (inner_step r d Hr Hg) as [Hld Hd]. apply elem_of_cons in Hpin as [->|Hpin].
    + rewrite (lx_disjoint _ Hlx c d r L Hlp Hld Hc Hd). apply elem_of_cons. right. by inversion Hp; constructor.
    + apply elem_of_cons. right. by apply (IH (or_intror Hd) p).
Qed.

Lemma inner_path_complete path c : inner_path s L 0 path -> in_range s L c -> c <> 0%nat -> c ∈ path.
Proof.
  intros Hp. induction c as [c IH] using lt_wf_ind. intros Hc Hc0. pose proof Hc as (C & HC & _).
  destruct (ro_parent _ _ _ (ao_region _ Hok c C HC) Hc0) as (_ & q & Q & Hq & _ & HQ & _ & Htry).
  assert (Hlp : exists p, lexical_parent s c = Some p).
  { unfold lexical_parent. rewrite HC. cbn [mbind option_bind]. rewrite outside_kinds, Hq.
    destruct (rgnIsOutsideParent C); [|by eexists]. cbn [mbind option_bind]. rewrite HQ. cbn [mbind option_bind].
    assert (Hq0 : q <> 0%nat).
    { intros ->. destruct (ao_root _ Hok) as (R0 & H0 & Hk & _). rewrite HQ in H0. injection H0 as <-.
      by rewrite (Htry eq_refl) in Hk. }
    destruct (ro_parent _ _ _ (ao_region _ Hok q Q HQ) Hq0) as (_ & r' & _ & Hr' & _). by exists r'. }
  destruct Hlp as [p Hlp]. destruct (lexical_parent_lt c p Hlp) as [Hlt _].
  apply (inner_path_next 0 path c (or_introl eq_refl) Hp p); [|done|done].
  destruct (decide (p = 0%nat)) as [->|Hp0]; [by inversion Hp; constructor|].
  apply IH; [done| |done]. by apply (lx_nested _ Hlx c p L Hlp Hp0).
Qed.

Lemma finally_scan_first l x : finally_scan s l = Some x ->
  match x with
  | Some f => f ∈ l /\ exists F, s !! f = Some F /\ Kind F = RGN_Finally
  | None => forall f F, f ∈ l -> s !! f = Some F -> Kind F <> RGN_Finally
  end.
Proof.
  induction l as [|c l IH]; cbn [finally_scan].
  - intros [= <-]. by intros f F Hf%elem_of_nil.
  - destruct (s !! c) as [C|] eqn:HC; [|done]. cbn [mbind option_bind].
    destruct (is_kind RGN_Finally C) eqn:Ek.
    + apply is_kind_true in Ek. intros [= <-]. split; [constructor|by exists C].
    + apply is_kind_false in Ek. intros H%IH. destruct x as [f|].
      * destruct H. split; [by constructor|done].
      * intros f F [->|Hf]%elem_of_cons HF; [congruence|by eapply H].
Qed.

Lemma getFinallyRegion_of t T x : s !! t = Some T -> Kind T = RGN_Try -> getFinallyRegion s t = Some x ->
  match x with Some f => finally_of s t f | None => forall f, ~ finally_of s t f end.
Proof.
  intros HT Hk Hx. unfold getFinallyRegion in Hx. rewrite HT in Hx. cbn [mbind option_bind] in Hx.
  apply finally_scan_first in Hx. destruct x as [f|].
  - destruct Hx as (Hf & F & HF & HkF). destruct (child_lookup s Hok t T f HT Hf) as (F' & HF' & Hp & _).
    rewrite HF in HF'. injection HF' as <-. by exists T, F.
  - intros f (T' & F & _ & _ & HF & HkF & Hp). refine (Hx f F _ HF HkF).
    assert (Hf : f <> 0%nat).
    { intros ->. destruct (ao_root _ Hok) as (R0 & H0 & Hk0 & _). rewrite HF in H0. congruence. }
    destruct (ro_parent _ _ _ (ao_region _ Hok f F HF) Hf) as (_ & p & P & Hp' & _ & HP & Hin & _).
    congruence.
Qed.

(** Behind a finally the leave goes on outside of everything in its try. *)
Lemma finally_start_outside t f o c :
  finally_of s t f -> rgnGetStartMSILOffset s f = Some o ->
  (forall x, in_range s x c -> in_range s x t) -> ~ in_range s o c.
Proof.
  intros Hf Ho Hc Hin%Hc. pose proof Hf as (T & F & HT & Hk & HF & HkF & Hp).
  unfold rgnGetStartMSILOffset in Ho. rewrite HF in Ho. injection Ho as <-.
  assert (HinF : in_range s (StartMsilOffset F) f).
  { exists F. split; [done|]. pose proof (lx_nonempty _ Hlx t f F Hf HF). lia. }
  destruct (handler_parent f F t HF) as (T' & HT' & _ & Hlf & Hlt); [by unfold rgnIsOutsideParent; rewrite HkF|done|].
  assert (Ht0 : t <> 0%nat).
  { intros ->. destruct (ao_root _ Hok) as (R0 & H0 & Hk0 & _). congruence. }
  destruct (ro_parent _ _ _ (ao_region _ Hok t T HT) Ht0) as (_ & p & _ & Hpt & _).
  rewrite HT in HT'. injection HT' as <-. rewrite Hpt in Hlf, Hlt.
  pose proof (lx_disjoint _ Hlx f t p _ Hlf Hlt HinF Hin) as ->. congruence.
Qed.

Lemma exits_spec r path T T' l : inner_path s L r path -> r = 0%nat \/ in_range s L r ->
  (forall c, c ∈ path -> (exists C, s !! c = Some C /\ Kind C = RGN_Try) ->
     in_range s T' c <-> in_range s T c) ->
  exits s path T' = Some l ->
  (forall f, f ∈ map fst l <-> exists t, t ∈ path /\ exited_try s L T t /\ finally_of s t f) /\
  StronglySorted (fun f g => inner_finally s g f) (map fst l).
Proof.
  intros Hp Hr. revert T' l.
  assert (Hcons : forall r path, (r = 0%nat \/ in_range s L r) ->
    (forall c, c ∈ path -> (forall x, r <> 0%nat -> in_range s x c -> in_range s x r) /\ (r < c)%nat) ->
    (forall T' l, (forall c, c ∈ path -> (exists C, s !! c = Some C /\ Kind C = RGN_Try) ->
       in_range s T' c <-> in_range s T c) -> exits s path T' = Some l ->
      (forall f, f ∈ map fst l <-> exists t, t ∈ path /\ exited_try s L T t /\ finally_of s t f) /\
      StronglySorted (fun f g => inner_finally s g f) (map fst l)) ->
    forall T' l, (forall c, c ∈ r :: path -> (exists C, s !! c = Some C /\ Kind C = RGN_Try) ->
       in_range s T' c <-> in_range s T c) -> exits s (r :: path) T' = Some l ->
      (forall f, f ∈ map fst l <-> exists t, t ∈ r :: path /\ exited_try s L T t /\ finally_of s t f) /\
      StronglySorted (fun f g => inner_finally s g f) (map fst l)).
  { clear r path Hp Hr. intros r path Hr Hw IH T' l HT Hl. cbn [exits] in Hl.
    destruct (s !! r) as [R|] eqn:HR; [|done]. cbn [mbind option_bind] in Hl.
    assert (HTpath : forall c, c ∈ path -> (exists C, s !! c = Some C /\ Kind C = RGN_Try) ->
      in_range s T' c <-> in_range s T c) by (intros c Hc; apply HT; by constructor).
    assert (Hskip : exits s path T' = Some l -> (forall f, ~ (exited_try s L T r /\ finally_of s r f)) ->
      (forall f, f ∈ map fst l <-> exists t, t ∈ r :: path /\ exited_try s L T t /\ finally_of s t f) /\
      StronglySorted (fun f g => inner_finally s g f) (map fst l)).
    { intros He Hno. destruct (IH T' l HTpath He) as [H1 H2]. split; [|done]. intros f. rewrite H1. split.
      - intros (t & Ht & H). exists t. split; [by constructor|done].
      - intros (t & [->|Ht]%elem_of_cons & H); [by destruct (Hno f)|by exists t]. }
    unfold exited_finally in Hl. destruct (is_kind RGN_Try R) eqn:Ek; cbn [andb] in Hl.
    2:{ apply is_kind_false in Ek. apply Hskip; [done|]. intros f [((R' & HR' & Hk) & _) _]. congruence. }
    apply is_kind_true in Ek.
    assert (Hr0 : r <> 0%nat).
    { intros ->. destruct (ao_root _ Hok) as (R0 & H0 & Hk0 & _). congruence. }
    destruct Hr as [?|Hr]; [done|].
    assert (Hrange : in_range s T' r <-> (T' <? StartMsilOffset R) || (EndMsilOffset R <=? T') = false).
    { rewrite orb_false_iff, Z.ltb_ge, Z.leb_gt. split; [|by intros; exists R].
      intros (R' & HR' & ?). rewrite HR in HR'. by injection HR' as <-. }
    pose proof (HT r ltac:(constructor) (ex_intro _ R (conj HR Ek))) as HTr.
    destruct (_ || _) eqn:Eout.
    2:{ apply Hskip; [done|]. intros f [(_ & _ & Hn) _]. by apply Hn, HTr, Hrange. }
    assert (Hex : exited_try s L T r).
    { split; [by exists R|]. split; [done|]. rewrite <- HTr, Hrange. done. }
    destruct (getFinallyRegion s r) as [x|] eqn:Hx; [|done]. cbn [mbind option_bind] in Hl.
    pose proof (getFinallyRegion_of r R x HR Ek Hx) as Hfin. destruct x as [f|].
    2:{ apply Hskip; [done|]. intros f [_ Hf]. by apply (Hfin f). }
    destruct (rgnGetStartMSILOffset s f) as [o|] eqn:Ho; [|done]. cbn [mbind option_bind] in Hl.
    destruct (exits s path o) as [l'|] eqn:Hl'; [|done]. injection Hl as <-. cbn [map fst].
    destruct (IH o l') as [H1 H2]; [|done|].
    { intros c Hc Hk. destruct (Hw c Hc) as [Hwc _]. split; intros Hin.
      - exfalso. refine (finally_start_outside r f o c Hfin Ho _ Hin). intros x. by apply Hwc.
      - exfalso. destruct Hex as (_ & _ & Hn). by apply Hn, (Hwc _ Hr0). }
    split.
    - intros g. rewrite elem_of_cons, H1. split.
      + intros [->|(t & Ht & H)]; [exists r|exists t]; (split; [by constructor|done]).
      + intros (t & [->|Ht]%elem_of_cons & He & Hg); [left; by apply (lx_finally _ Hlx r)|right; by exists t].
    - constructor; [done|]. apply List.Forall_forall. intros g Hg%list_elem_of_In%H1 u t Hu Ht.
      destruct Hg as (u' & Hu' & _ & Hgu). destruct (Hw u' Hu') as [Hwu Hlt].
      assert (t = r) as ->.
      { destruct Ht as (? & F & _ & _ & HF & _ & Hp), Hfin as (? & F' & _ & _ & HF' & _ & Hp'). congruence. }
      assert (u = u') as ->.
      { destruct Hu as (? & F & _ & _ & HF & _ & Hp), Hgu as (? & F' & _ & _ & HF' & _ & Hp'). congruence. }
      split; [lia|]. intros x. by apply Hwu. }
  induction Hp as [r Hg|r d path Hg Hp IH]; intros T' l.
  - apply Hcons; [done|by intros c Hc%elem_of_nil|]. intros T2 l2 _ [= <-]. split; [|constructor].
    intros f. split; [by intros Hf%elem_of_nil|]. by intros (t & Ht%elem_of_nil & _).
  - destruct (inner_step r d Hr Hg) as [Hlp Hd]. destruct (lexical_parent_lt d r Hlp) as [Hlt _].
    apply Hcons; [done| |intros T2 l2; by apply IH; right].
    intros c Hc. destruct (inner_path_within d path (or_intror Hd) Hp c Hc) as (_ & Hle & Hwi). split; [|lia].
    intros x Hr0 Hx. apply (lx_nested _ Hlx d r x Hlp Hr0), Hwi; [lia|done].
Qed.

Lemma StronglySorted_rev {A} (R : A -> A -> Prop) (l : list A) :
  StronglySorted R l -> StronglySorted (fun x y => R y x) (rev l).
Proof.
  induction 1 as [|x l _ IH Hx]; cbn; [constructor|]. apply StronglySorted_app_2; [|done|by repeat constructor].
  intros y z Hy ->%list_elem_of_singleton. rewrite List.Forall_forall in Hx. apply Hx, in_rev. by apply list_elem_of_In.
Qed.

End Lexical.

(** ** Exit blocks *)

(** The handlers exited by following the exit blocks. *)
Fixpoint follow (fuel : nat) (blocks : list (nat * leave_target)) (t : leave_target)
    : option (list nat) :=
  match t, fuel with
  | TargetBlock, _ => Some []
  | _, O => None
  | ExitBlock i, S fuel' =>
      '(h, next) ← blocks !! i;
      hs ← follow fuel' blocks next;
      Some (h :: hs)
  end.

(** The regions from [r] up to, and without, [a]. *)
Inductive up_path (s : arena) (a : nat) : nat -> list nat -> Prop :=
  | up_stop : up_path s a a []
  | up_step r R p l : r <> a -> s !! r = Some R -> Parent R = Some p ->
      up_path s a p l -> up_path s a r (r :: l).

Definition is_catch_region (s : arena) (r : nat) : bool :=
  match s !! r with
  | Some R => is_kind RGN_MCatch R || is_kind RGN_MExcept R
  | None => false
  end.

Lemma follow_app fuel blocks more t hs :
  follow fuel blocks t = Some hs -> follow fuel (blocks ++ more) t = Some hs.
Proof.
  revert t hs. induction fuel as [|fuel IH]; intros [|i] hs H; simpl in *; try done.
  destruct (blocks !! i) as [[h next]|] eqn:E; simpl in H; [|done].
  rewrite (lookup_app_l_Some _ _ _ _ E). simpl.
  destruct (follow fuel blocks next) as [hs'|] eqn:E2; simpl in H; [|done].
  by rewrite (IH _ _ E2).
Qed.

Lemma exit_blocks_follow Handlers :
  let '(blocks, first) := exit_blocks Handlers in
  length blocks = length Handlers /\
  forall fuel, (length Handlers <= fuel)%nat -> follow fuel blocks first = Some Handlers.
Proof.
  unfold exit_blocks. induction Handlers as [|h hs IH]; simpl.
  { split; [done|]. intros []; done. }
  rewrite foldl_app. simpl. destruct (foldl _ _ (rev hs)) as [blocks first].
  destruct IH as [Hlen Hf]. split; [rewrite length_app; simpl; lia|].
  intros [|fuel] Hle; [lia|]. simpl. rewrite lookup_app_r, Nat.sub_diag by lia. simpl.
  by rewrite (follow_app fuel blocks [(h, first)] first hs (Hf fuel ltac:(lia))).
Qed.

Lemma ancestor_up_path s a r : arena_ok s -> ancestor s a r -> exists l, up_path s a r l.
Proof.
  intros Hok. induction 1 as [r R HR|r R p a HR Hp Ha [l IH]].
  - exists []. constructor.
  - destruct (decide (r = a)) as [->|Hne]; [exists []; constructor|].
    exists (r :: l). by eapply up_step.
Qed.

Lemma collect_handlers_spec s a r l fuel :
  arena_ok s -> up_path s a r l -> (r < fuel)%nat ->
  collect_handlers fuel s (Some r) (Some a) =
    Some (List.filter (is_catch_region s) l).
Proof.
  intros Hok Hup. revert fuel. induction Hup as [|r R p l Hne HR Hp Hup IH]; intros fuel Hf.
  - destruct fuel; cbn; by rewrite bool_decide_eq_true_2.
  - destruct fuel as [|fuel]; [lia|]. cbn [collect_handlers].
    rewrite bool_decide_eq_false_2 by congruence. cbn [mbind option_bind].
    rewrite HR. cbn [mbind option_bind]. rewrite Hp.
    destruct (parent_lt s Hok r R p HR Hp) as [Hlt _]. rewrite IH by lia.
    assert (Hc : is_catch_region s r = is_kind RGN_MCatch R || is_kind RGN_MExcept R)
      by (unfold is_catch_region; by rewrite HR).
    cbn [List.filter mbind option_bind]. rewrite Hc. by destruct (_ || _).
Qed.

(** ** Properties *)

(** C38: a leave runs its finallies.  On every well-formed region tree whose
    regions lie within each other or side by side, with at most one finally to a
    try, and whatever switches earlier leaves and endfinallies have made,
    [updateLeaveOffset] terminates.  If handlers are suppressed and the leave is
    in one that runs for exceptions only, nothing changes.  Otherwise the
    selector stores it emits are for the finallies of the tries that contain the
    leave and not its target, each once and inner ones first, and they send
    control from the returned offset through these finallies, in this order,
    and then to the target.  Every switch keeps its cases, among them case 0,
    which continues an exception. *)
Theorem updateLeaveOffset_runs_finallies (Sup : bool) (s : arena)
    (LeaveOffset NextOffset TargetOffset : Z) (st : leave_state) :
  arena_ok s -> lexical_ok s -> switches_ok (switches st) ->
  exists o st', updateLeaveOffset Sup s (Some 0%nat) LeaveOffset NextOffset TargetOffset st = Some (o, st') /\
    switches_ok (switches st') /\ switches_extend (switches st) (switches st') /\
    (Sup = true /\ in_exception_handler s LeaveOffset -> o = TargetOffset /\ st' = st) /\
    (~ (Sup = true /\ in_exception_handler s LeaveOffset) ->
     exists new, stores st' = stores st ++ new /\
       exited_finallies s LeaveOffset TargetOffset (map fst new) /\
       runs_finallies s (switches st') o new TargetOffset).
Proof.
  intros Hok Hlx Hsw. destruct (ao_root _ Hok) as (R0 & H0 & Hk0 & _). apply lookup_lt_Some in H0 as Hlt.
  destruct (updateLeaveOffset_rec_spec s Hok Sup LeaveOffset NextOffset (S (length s)) 0%nat
              TargetOffset st Hsw Hlt ltac:(lia)) as (path & [[o inh] st'] & Hp & Hres & Hlr & Hs).
  exists o, st'. unfold updateLeaveOffset. rewrite Hres. split; [done|]. cbn [fst snd] in Hs.
  assert (Hsup : suppressed s Sup path <-> Sup = true /\ in_exception_handler s LeaveOffset).
  { split; intros [-> (h & H & Hh)]; (split; [done|]); exists h, H.
    - destruct Hh as (Hh & HH & Hk). split; [done|]. split.
      { destruct (Kind H); try done; rewrite !elem_of_cons; tauto. }
      destruct (inner_path_within s Hok Hlx LeaveOffset 0 path (or_introl eq_refl) Hp h Hh) as ([->|Hin] & _); [|done].
      rewrite H0 in HH. injection HH as <-. by rewrite Hk0 in Hk.
    - destruct Hh as (HH & Hk & Hin).
      assert (Hk' : is_handler_kind (Kind H) = true).
      { rewrite !elem_of_cons, elem_of_nil in Hk. by destruct Hk as [-> |[-> |[-> |[-> |[]]]]]. }
      split; [|done]. apply (inner_path_complete s Hok Hlx LeaveOffset path h Hp Hin).
      intros ->. rewrite H0 in HH. injection HH as <-. by rewrite Hk0 in Hk'. }
  rewrite <- Hsup, <- Hs. destruct inh; cbn in Hlr.
  - destruct Hlr as [-> ->]. split; [done|]. split; [apply switches_extend_refl|]. split; [done|]. by intros [].
  - destruct Hlr as (l & new & Hex & Hst & Hnew & Hrun & Hsw' & Hx). split; [done|]. split; [done|].
    split; [done|]. intros _. exists new. split; [done|]. split; [|done].
    destruct (exits_spec s Hok Hlx LeaveOffset 0 path TargetOffset TargetOffset l Hp (or_introl eq_refl)
      ltac:(done) Hex) as [H1 H2]. rewrite Hnew. split; [|by apply StronglySorted_rev in H2].
    intros f. rewrite list_elem_of_In, <- in_rev, <- list_elem_of_In, H1. split.
    + intros (t & _ & H). by exists t.
    + intros (t & H & Hf). exists t. split; [|done]. destruct H as ((T & HT & Hk) & Hin & _).
      apply (inner_path_complete s Hok Hlx LeaveOffset path t Hp Hin). intros ->. congruence.
Qed.

(** A try [0, 30) with a finally [30, 40), and in it a try [5, 15) with a
    finally [15, 20). *)
Definition demo_leave : arena :=
  [Rgn None [1%nat] 0 60 UZero RGN_Root;
   Rgn (Some 0%nat) [2%nat; 3%nat] 0 30 (UEntryRegion 1) RGN_Try;
   Rgn (Some 1%nat) [] 30 40 UZero RGN_Finally;
   Rgn (Some 1%nat) [4%nat] 5 15 (UEntryRegion 3) RGN_Try;
   Rgn (Some 3%nat) [] 15 20 UZero RGN_Finally].

(** Every region of a tree that is at hand. *)
Ltac each_region := repeat match goal with
  | H : demo_leave !! ?i = Some _ |- _ => is_var i; destruct i as [|[|[|[|[|i]]]]]; [..|by apply lookup_lt_Some in H; cbn in H; lia]
  | H : demo_leave !! _ = Some _ |- _ => injection H as <-
  end.

Lemma demo_leave_ok : arena_ok demo_leave.
Proof.
  split; [by eexists|]. intros i R HR. each_region; split; cbn; try (intros; done);
    try (intros _; split; [done|do 2 eexists; split_and!; [done|lia|done|set_solver|done]]);
    try (intros _; eexists; by split; [|left]);
    intros c Hc; rewrite ?elem_of_cons, elem_of_nil in Hc; destruct_or?; subst; try done;
    (eexists; split_and!; [done|done|lia]).
Qed.

Lemma demo_leave_lexical : lexical_ok demo_leave.
Proof.
  split.
  - intros r p x Hp Hp0 (R & HR & Hx). each_region; vm_compute in Hp; simplify_eq; try done;
      (eexists; split; [reflexivity|cbn in *; lia]).
  - intros c d p x Hc Hd (C & HC & HxC) (D & HD & HxD). each_region; try done; exfalso;
      vm_compute in Hc, Hd; simplify_eq; cbn in *; lia.
  - intros t f g (T & F & HT & _ & HF & HkF & Hp) (T' & G & HT' & _ & HG & HkG & Hp'). each_region; by simplify_eq/=.
  - intros t f F (T & F' & HT & _ & HF' & HkF & Hp) HF. rewrite HF in HF'. injection HF' as <-. each_region; try done; cbn; lia.
Qed.

(** The outer finally has ended before, so that its switch has the case of
    exceptions; the leave at 10 goes to 45. *)
Lemma updateLeaveOffset_runs_finallies_witness :
  let st := LeaveState {[2%nat := [(0, ExnContinue)]]} [] ∅ [] in
  exists st', updateLeaveOffset false demo_leave (Some 0%nat) 10 12 45 st = Some (15, st') /\
    stores st' = [(4%nat, 1); (2%nat, 2)] /\
    exited_finallies demo_leave 10 45 [4%nat; 2%nat] /\
    runs_finallies demo_leave (switches st') 15 [(4%nat, 1); (2%nat, 2)] 45.
Proof.
  intros st. destruct (updateLeaveOffset_runs_finallies false demo_leave 10 12 45 st demo_leave_ok
    demo_leave_lexical) as (o & st' & Hu & _ & _ & _ & Hrun).
  - apply map_Forall_singleton. split; [by apply NoDup_singleton|by apply NoDup_singleton|].
    intros v C ->%list_elem_of_singleton || (intros v C Hin; apply list_elem_of_singleton in Hin as [= -> ->]). cbn. split; [lia|done].
  - destruct Hrun as (new & Hst & Hf & Hr); [by intros []|]. clear -Hu Hst Hf Hr.
    vm_compute in Hu. injection Hu as <- <-. cbn in Hst. subst new. eexists. split; [vm_compute; reflexivity|].
    split; [reflexivity|]. split; [exact Hf|exact Hr].
Defined.

(** [leave] builds one exit block per catch or filter handler between the
    current region and the common ancestor with the target; following them from
    the block the leave jumps to returns from those handlers innermost first and
    then reaches the original target. *)
Theorem leave_exits_handlers (s : arena) (cur tgt : nat) :
  arena_ok s -> (cur < length s)%nat -> (tgt < length s)%nat ->
  exists a path blocks first,
    getCommonAncestor s (Some cur) (Some tgt) = Some (Some a) /\
    up_path s a cur path /\
    leave s (Some cur) (Some tgt) = Some (blocks, first) /\
    follow (length blocks) blocks first = Some (List.filter (is_catch_region s) path).
Proof.
  intros Hok H1 H2.
  destruct (lookup_lt_is_Some_2 s cur H1) as [R1 HR1], (lookup_lt_is_Some_2 s tgt H2) as [R2 HR2].
  destruct (common_ancestor_spec s cur tgt Hok H1 H2) as (a & Ha & Hanc & _ & _).
  destruct (ancestor_up_path s a cur Hok Hanc) as [path Hp].
  pose proof (exit_blocks_follow (List.filter (is_catch_region s) path)) as He.
  destruct (exit_blocks _) as [blocks first] eqn:E. destruct He as [Hlen Hf].
  exists a, path, blocks, first. split_and!; [done..| |].
  - unfold leave. rewrite Ha. cbn [mbind option_bind].
    rewrite (collect_handlers_spec s a cur path (S (length s)) Hok Hp ltac:(lia)).
    cbn [mbind option_bind]. by rewrite E.
  - rewrite Hlen. by apply Hf.
Qed.

(** A catch [10, 20) of the try [0, 10). *)
Definition demo_catch : arena :=
  [Rgn None [1%nat] 0 30 UZero RGN_Root;
   Rgn (Some 0%nat) [2%nat] 0 10 (UEntryRegion 1) RGN_Try;
   Rgn (Some 1%nat) [] 10 20 (UCatchClassToken 7) RGN_MCatch].

Lemma demo_catch_ok : arena_ok demo_catch.
Proof.
  split; [by eexists|]. intros i R HR.
  destruct i as [|[|[|i]]]; simpl in HR; simplify_eq; split; simpl;
    try (intros; done);
    try (intros c Hc; rewrite elem_of_cons, elem_of_nil in Hc; destruct Hc as [->|[]];
         eexists; split_and!; [done|done|lia]);
    try (intros c Hc; by apply elem_of_nil in Hc).
  - intros _. split; [done|]. do 2 eexists. split_and!; [done|lia|done|constructor|done].
  - intros _. eexists. split; [done|by left].
  - intros _. split; [done|]. do 2 eexists. split_and!; [done|lia|done|constructor|done].
Qed.

Lemma leave_exits_handlers_witness :
  exists a path blocks first,
    getCommonAncestor demo_catch (Some 2%nat) (Some 0%nat) = Some (Some a) /\
    up_path demo_catch a 2 path /\
    leave demo_catch (Some 2%nat) (Some 0%nat) = Some (blocks, first) /\ length blocks = 1%nat.
Proof.
  destruct (leave_exits_handlers demo_catch 2 0 demo_catch_ok)
    as (a & path & blocks & first & Ha & Hp & Hl & _); [simpl; lia..|].
  exists a, path, blocks, first. split; [exact Ha|]. split; [exact Hp|]. split; [exact Hl|].
  vm_compute in Hl. injection Hl as <- _. reflexivity.
Defined.
