(* ===== verification/NodeTable.v ===== *)
(** * The table of branch-target nodes (lib/Reader/reader.cpp)

    [fgAddNodeMSILOffset] keeps one flow-graph node per MSIL offset in an
    array of lists, one list per 32 offsets, each sorted by offset.  The
    abstract view is a finite map from offsets to nodes. *)

From S2P Require Import Prelude.

Definition FLOW_GRAPH_NODE_LIST_ARRAY_STRIDE : Z := 32.

(** The array of lists, and the nodes made so far: a node is its index, with
    the start offset [makeFlowGraphNode] gave it. *)
Record node_table := NodeTable {
  NodeOffsetListArray : list (list (Z * nat));
  label_nodes : list Z }.

(** The allocation in [msilToIR]. *)
Definition NodeOffsetListArraySize (ILCodeSize : Z) : Z :=
  ILCodeSize / FLOW_GRAPH_NODE_LIST_ARRAY_STRIDE + 1.

Definition empty_table (ILCodeSize : Z) : node_table :=
  NodeTable (replicate (Z.to_nat (NodeOffsetListArraySize ILCodeSize)) []) [].

(** The walk along one sorted list: the node found, or the list with the new
    element at its place. *)
Fixpoint list_find_or_insert (l : list (Z * nat)) (TargetOffset : Z) (NewNode : nat)
    : nat + list (Z * nat) :=
  match l with
  | [] => inr [(TargetOffset, NewNode)]
  | (o, n) :: l' =>
      if o =? TargetOffset then inl n
      else if TargetOffset <? o then inr ((TargetOffset, NewNode) :: l)
      else match list_find_or_insert l' TargetOffset NewNode with
           | inl m => inl m
           | inr r => inr ((o, n) :: r)
           end
  end.

(** The node of an offset, made when there is none (every caller passes a
    null node); [None] is an index past the end of the array. *)
Definition fgAddNodeMSILOffset (t : node_table) (TargetOffset : Z)
    : option (nat * node_table) :=
  let Index := Z.to_nat (TargetOffset / FLOW_GRAPH_NODE_LIST_ARRAY_STRIDE) in
  l ← NodeOffsetListArray t !! Index;
  Some (match list_find_or_insert l TargetOffset (length (label_nodes t)) with
        | inl n => (n, t)
        | inr l' => (length (label_nodes t),
                     NodeTable (<[Index := l']> (NodeOffsetListArray t))
                               (label_nodes t ++ [TargetOffset]))
        end).

(** All entries in array order: the order of [fgReplaceBranchTargets]. *)
Definition table_entries (t : node_table) : list (Z * nat) :=
  concat (NodeOffsetListArray t).

(** ** Invariant and abstraction *)

(** Each list is strictly sorted and holds the offsets of its stride; the
    entries are exactly the nodes, by their start offsets. *)
Record table_ok (t : node_table) : Prop := {
  to_sorted : forall i l, NodeOffsetListArray t !! i = Some l ->
    StronglySorted Z.lt l.*1 /\
    Forall (fun o => 0 <= o /\ o / FLOW_GRAPH_NODE_LIST_ARRAY_STRIDE = Z.of_nat i) l.*1;
  to_nodes : forall o n, (o, n) ∈ table_entries t <-> label_nodes t !! n = Some o }.

(** The map the table stands for. *)
Definition node_at (t : node_table) (o : Z) (n : nat) : Prop := (o, n) ∈ table_entries t.

Lemma list_find_or_insert_spec l o new :
  StronglySorted Z.lt l.*1 ->
  match list_find_or_insert l o new with
  | inl n => (o, n) ∈ l
  | inr l' => (o ∉ l.*1) /\ StronglySorted Z.lt l'.*1 /\ l' ≡ₚ (o, new) :: l
  end.
Proof.
  induction l as [|[p n] l IH]; simpl.
  { intros _. split_and!; [apply not_elem_of_nil|repeat constructor|done]. }
  intros Hs. apply StronglySorted_inv in Hs as [Hs Hall].
  destruct (Z.eqb_spec p o) as [->|Hne]; [constructor|].
  destruct (Z.ltb_spec o p) as [Hlt|Hge].
  - split_and!; [| |done].
    + rewrite not_elem_of_cons. split; [lia|]. intros Hin.
      rewrite Forall_forall in Hall. specialize (Hall o Hin). lia.
    + simpl. constructor; [by constructor|]. constructor; [done|].
      eapply Forall_impl; [exact Hall|]. simpl. lia.
  - specialize (IH Hs). destruct (list_find_or_insert l o new) as [m|r]; [by constructor|].
    destruct IH as (Hni & Hsr & Hp). split_and!.
    + rewrite not_elem_of_cons. split; [lia|done].
    + simpl. constructor; [done|]. rewrite Hp. simpl. constructor; [lia|done].
    + rewrite Hp. apply Permutation_swap.
Qed.

Lemma concat_lookup_perm {A} (L : list (list A)) i l l' x :
  L !! i = Some l -> l' ≡ₚ x :: l -> concat (<[i := l']> L) ≡ₚ x :: concat L.
Proof.
  revert i. induction L as [|a L IH]; intros [|i] Hi Hp; simplify_eq/=.
  - by rewrite Hp.
  - rewrite (IH i Hi Hp). symmetry. apply Permutation_middle.
Qed.

Lemma elem_of_concat_lookup {A} (L : list (list A)) x :
  x ∈ concat L <-> exists i l, L !! i = Some l /\ x ∈ l.
Proof.
  induction L as [|a L IH]; simpl.
  - split; [by intros H%elem_of_nil|]. intros (i & l & Hi & _). by rewrite lookup_nil in Hi.
  - rewrite elem_of_app, IH. split.
    + intros [H|(i & l & Hi & Hx)]; [by exists 0%nat, a|by exists (S i), l].
    + intros ([|i] & l & Hi & Hx); simplify_eq/=; [by left|right; eauto].
Qed.

Lemma table_fun t o n m : table_ok t -> node_at t o n -> node_at t o m -> n = m.
Proof.
  intros Hok Hn Hm. apply elem_of_concat_lookup in Hn as (i & l & Hi & Hn).
  apply elem_of_concat_lookup in Hm as (j & k & Hj & Hm).
  destruct (to_sorted t Hok i l Hi) as [Hs Hall], (to_sorted t Hok j k Hj) as [_ Hall'].
  rewrite Forall_forall in Hall, Hall'.
  assert (Hoi : o ∈ l.*1) by (apply list_elem_of_fmap; by exists (o, n)).
  assert (Hoj : o ∈ k.*1) by (apply list_elem_of_fmap; by exists (o, m)).
  destruct (Hall o Hoi) as [_ H1], (Hall' o Hoj) as [_ H2].
  assert (i = j) as <- by lia. simplify_eq.
  clear -Hs Hn Hm. induction l as [|[p q] l IH]; [by apply elem_of_nil in Hn|].
  simpl in Hs. apply StronglySorted_inv in Hs as [Hs Hall]. rewrite Forall_forall in Hall.
  assert (Hno : forall x, (p, x) ∉ l).
  { intros x Hx. assert (p ∈ l.*1) as Hp by (apply list_elem_of_fmap; by exists (p, x)).
    specialize (Hall p Hp). lia. }
  apply elem_of_cons in Hn as [Hn|Hn], Hm as [Hm|Hm]; simplify_eq; [done|..].
  - by destruct (Hno m).
  - by destruct (Hno n).
  - by apply IH.
Qed.

Lemma empty_table_ok size : table_ok (empty_table size).
Proof.
  assert (He : table_entries (empty_table size) = []).
  { unfold table_entries, empty_table. simpl. by induction (Z.to_nat _). }
  split.
  - intros i l Hl. unfold empty_table in Hl. simpl in Hl.
    apply lookup_replicate in Hl as [-> _]. split; constructor.
  - intros o n. rewrite He. simpl. rewrite lookup_nil. split; [by intros H%elem_of_nil|done].
Qed.

Lemma length_empty_table size :
  0 <= size -> length (NodeOffsetListArray (empty_table size)) = Z.to_nat (size / 32 + 1).
Proof. intros _. unfold empty_table. simpl. by rewrite length_replicate. Qed.

(** The operation against the map. *)
Lemma fgAddNodeMSILOffset_spec t o :
  table_ok t -> 0 <= o -> o / 32 < Z.of_nat (length (NodeOffsetListArray t)) ->
  exists n t', fgAddNodeMSILOffset t o = Some (n, t') /\ table_ok t' /\
    length (NodeOffsetListArray t') = length (NodeOffsetListArray t) /\
    node_at t' o n /\
    ((t' = t) \/
     ((forall m, ~ node_at t o m) /\ n = length (label_nodes t) /\
      label_nodes t' = label_nodes t ++ [o] /\
      forall p m, node_at t' p m <-> (p = o /\ m = n) \/ node_at t p m)).
Proof.
  intros Hok H0 Hb. unfold fgAddNodeMSILOffset, FLOW_GRAPH_NODE_LIST_ARRAY_STRIDE.
  pose proof (Z.div_pos o 32 H0 ltac:(lia)) as Hd.
  destruct (lookup_lt_is_Some_2 (NodeOffsetListArray t) (Z.to_nat (o / 32)) ltac:(lia)) as [l Hl].
  rewrite Hl. simpl. destruct (to_sorted t Hok _ l Hl) as [Hs Hall].
  pose proof (list_find_or_insert_spec l o (length (label_nodes t)) Hs) as Hf.
  destruct (list_find_or_insert l o _) as [n|l'].
  - exists n, t. split_and!; try done; [|by left].
    apply elem_of_concat_lookup. eauto.
  - destruct Hf as (Hni & Hs' & Hp). eexists _, _. split; [done|].
    set (t' := NodeTable _ _).
    assert (Hent : forall p m, node_at t' p m <->
      (p = o /\ m = length (label_nodes t)) \/ node_at t p m).
    { intros p m. unfold node_at, table_entries, t'. simpl.
      rewrite (concat_lookup_perm _ _ l l' _ Hl Hp), elem_of_cons.
      split; (intros [H|H]; [left|by right]); [by simplify_eq|by destruct H as [-> ->]]. }
    assert (Hnew : forall m, ~ node_at t o m).
    { intros m Hm. apply elem_of_concat_lookup in Hm as (j & k & Hj & Hm).
      destruct (to_sorted t Hok j k Hj) as [_ Hk]. rewrite Forall_forall in Hk.
      assert (Ho : o ∈ k.*1) by (apply list_elem_of_fmap; by exists (o, m)).
      destruct (Hk o Ho) as [_ Hj']. unfold FLOW_GRAPH_NODE_LIST_ARRAY_STRIDE in Hj'.
      replace (Z.to_nat (o / 32)) with j in Hl by lia. by simplify_eq. }
    split_and!.
    + split.
      * intros i k Hk. unfold t' in Hk. simpl in Hk.
        destruct (decide (i = Z.to_nat (o / 32))) as [->|Hne].
        -- rewrite list_lookup_insert_eq in Hk by (by eapply lookup_lt_Some).
           injection Hk as <-. split; [done|]. rewrite Hp. simpl. constructor; [|done].
           split; [done|]. unfold FLOW_GRAPH_NODE_LIST_ARRAY_STRIDE. lia.
        -- rewrite list_lookup_insert_ne in Hk by done. by apply (to_sorted t Hok).
      * intros p m. change ((p, m) ∈ table_entries t') with (node_at t' p m). rewrite Hent.
        unfold t'. simpl. rewrite (to_nodes t Hok p m). split.
        -- intros [[-> ->]|Hm]; [by rewrite lookup_app_r, Nat.sub_diag by lia|].
           by apply lookup_app_l_Some.
        -- intros [Hm|[Hge Hm]]%lookup_app_Some; [by right|left].
           apply list_lookup_singleton_Some in Hm as [Hz <-]. split; [done|lia].
    + unfold t'. simpl. by rewrite length_insert.
    + apply Hent. by left.
    + right. by split_and!.
Qed.

(** ** Properties *)

(** [fgAddNodeMSILOffset] refines a finite map from offsets to nodes: on a
    table that satisfies the invariant and an offset within the array it returns
    the offset's node, the old one and an unchanged table when there was one,
    otherwise a fresh one with every other entry unchanged; the sorted
    representation is preserved and no offset ever has two nodes. *)
Theorem fgAddNodeMSILOffset_refines (t : node_table) (TargetOffset : Z) :
  table_ok t -> 0 <= TargetOffset ->
  TargetOffset / 32 < Z.of_nat (length (NodeOffsetListArray t)) ->
  exists n t', fgAddNodeMSILOffset t TargetOffset = Some (n, t') /\ table_ok t' /\
    (forall m, node_at t' TargetOffset m <-> m = n) /\
    (forall m, node_at t TargetOffset m -> m = n /\ t' = t) /\
    (forall p m, p <> TargetOffset -> node_at t' p m <-> node_at t p m).
Proof.
  intros Hok H0 Hb.
  destruct (fgAddNodeMSILOffset_spec t TargetOffset Hok H0 Hb)
    as (n & t' & He & Hok' & _ & Hn & Hor).
  exists n, t'. split_and!; try done.
  - intros m. split; [by intros; eapply table_fun|by intros ->].
  - intros m Hm. destruct Hor as [->|(Hno & _)]; [|by destruct (Hno m)].
    split; [by eapply table_fun|done].
  - intros p m Hp. destruct Hor as [->|(_ & _ & _ & Hent)]; [done|]. rewrite Hent.
    split; [intros [[? _]|?]; done|by right].
Qed.

Lemma fgAddNodeMSILOffset_refines_witness :
  exists n t', fgAddNodeMSILOffset (empty_table 100) 70 = Some (n, t') /\ table_ok t' /\
    node_at t' 70 n /\ n = 0%nat.
Proof.
  destruct (fgAddNodeMSILOffset_refines (empty_table 100) 70 (empty_table_ok 100))
    as (n & t' & He & Hok & Hat & _); [lia|vm_compute; reflexivity|].
  exists n, t'. split; [exact He|]. split; [exact Hok|]. split; [by apply Hat|].
  vm_compute in He. injection He as <- _. reflexivity.
Defined.

(** The array [msilToIR] allocates has room for every offset up to and
    including the code size, and [fgAddNodeMSILOffset] leaves the array for every
    offset of a later stride, which a bad branch reaches because reporting it
    does not stop the parse. *)
Theorem fgAddNodeMSILOffset_out_of_bounds (ILCodeSize TargetOffset : Z) (t : node_table) :
  0 <= ILCodeSize -> 0 <= TargetOffset ->
  length (NodeOffsetListArray t) = length (NodeOffsetListArray (empty_table ILCodeSize)) ->
  (fgAddNodeMSILOffset t TargetOffset = None <->
     (ILCodeSize / 32 + 1) * 32 <= TargetOffset) /\
  (TargetOffset <= ILCodeSize -> fgAddNodeMSILOffset t TargetOffset <> None).
Proof.
  intros Hs H0 Hl. rewrite length_empty_table in Hl by done.
  pose proof (Z.div_pos ILCodeSize 32 Hs ltac:(lia)) as Hd.
  assert (Hiff : fgAddNodeMSILOffset t TargetOffset = None <->
    (ILCodeSize / 32 + 1) * 32 <= TargetOffset).
  { unfold fgAddNodeMSILOffset, FLOW_GRAPH_NODE_LIST_ARRAY_STRIDE.
    destruct (NodeOffsetListArray t !! Z.to_nat (TargetOffset / 32)) as [l|] eqn:E; simpl.
    - split; [done|]. apply lookup_lt_Some in E. intros Hle.
      assert (ILCodeSize / 32 + 1 <= TargetOffset / 32) by (apply Z.div_le_lower_bound; lia). lia.
    - split; [|done]. intros _. apply lookup_ge_None in E.
      assert (ILCodeSize / 32 + 1 <= TargetOffset / 32) by (pose proof (Z.div_pos TargetOffset 32); lia).
      pose proof (Z.mul_div_le TargetOffset 32). lia. }
  split; [done|]. intros Hle Hnone. apply Hiff in Hnone.
  pose proof (Z.mul_succ_div_gt ILCodeSize 32). lia.
Qed.

Lemma fgAddNodeMSILOffset_out_of_bounds_witness :
  fgAddNodeMSILOffset (empty_table 10) 32 = None /\
  fgAddNodeMSILOffset (empty_table 10) 10 <> None.
Proof.
  split.
  - apply (fgAddNodeMSILOffset_out_of_bounds 10 32 (empty_table 10)); [lia|lia|reflexivity|].
    vm_compute. discriminate.
  - apply (fgAddNodeMSILOffset_out_of_bounds 10 10 (empty_table 10)); [lia|lia|reflexivity|lia].
Defined.
