(* ===== verification/FlowGraph.v ===== *)
(** * Flow-graph construction (lib/Reader/reader.cpp, readerir.cpp)

    [fgBuildPhase1] cuts the MSIL into basic blocks and branches to label
    nodes; [fgReplaceBranchTargets] replaces the label nodes by the real
    blocks.  A block is an index into the arena of blocks; the layout is the
    function's block order without the label nodes, which stay at its end, and
    without the point blocks of the exception-handling code.  Of a block's
    instructions only the terminator is kept: the first pass emits nothing
    else, selector stores aside, which [Leave] models. *)

From S2P Require Import Prelude Opcodes ILDecode BitVector Regions RegionWalk Leave NodeTable.
Import ReaderBaseNS.

(** ** State *)

Inductive flow_target : Set := ToLabel (n : nat) | ToBlock (b : nat).

Inductive terminator : Set :=
  | NoTerm
  | Unreachable
  | Br (t : flow_target)
  | CondBr (t : flow_target) (f : option flow_target)
  | Switch (d : flow_target) (cases : list (Z * flow_target))
  | EndFinally (f : nat).

Record block := Block {
  bStart : Z;
  bEnd : Z;
  bRegion : option nat;
  bTerm : terminator }.

Record VerificationBranchInfo := BranchInfo {
  SrcOffset : Z; TargetOffset : Z; IsLeave : bool; BranchBlock : nat }.

Record flow_graph := FlowGraph {
  blocks : list block;
  layout : list nat;
  labels : node_table;
  leaves : leave_state;
  BranchesToVerify : list VerificationBranchInfo;
  reported : list MVER;
  LegalTargetOffsets : ReaderBitVector;
  GvStackPop : list Z;
  GvStackPush : list Z;
  HasLocAlloc : bool;
  HasAddressTaken : bool }.

Definition set_blocks (f : list block -> list block) (g : flow_graph) : flow_graph :=
  FlowGraph (f (blocks g)) (layout g) (labels g) (leaves g) (BranchesToVerify g)
    (reported g) (LegalTargetOffsets g) (GvStackPop g) (GvStackPush g) (HasLocAlloc g)
    (HasAddressTaken g).
Definition set_layout (f : list nat -> list nat) (g : flow_graph) : flow_graph :=
  FlowGraph (blocks g) (f (layout g)) (labels g) (leaves g) (BranchesToVerify g)
    (reported g) (LegalTargetOffsets g) (GvStackPop g) (GvStackPush g) (HasLocAlloc g)
    (HasAddressTaken g).
Definition set_labels (t : node_table) (g : flow_graph) : flow_graph :=
  FlowGraph (blocks g) (layout g) t (leaves g) (BranchesToVerify g)
    (reported g) (LegalTargetOffsets g) (GvStackPop g) (GvStackPush g) (HasLocAlloc g)
    (HasAddressTaken g).
Definition set_leaves (l : leave_state) (g : flow_graph) : flow_graph :=
  FlowGraph (blocks g) (layout g) (labels g) l (BranchesToVerify g)
    (reported g) (LegalTargetOffsets g) (GvStackPop g) (GvStackPush g) (HasLocAlloc g)
    (HasAddressTaken g).
Definition set_branches (l : list VerificationBranchInfo) (g : flow_graph) : flow_graph :=
  FlowGraph (blocks g) (layout g) (labels g) (leaves g) l
    (reported g) (LegalTargetOffsets g) (GvStackPop g) (GvStackPush g) (HasLocAlloc g)
    (HasAddressTaken g).
(** The stub of [verGlobalError]: the error is noted and control returns. *)
Definition verGlobalError (e : MVER) (g : flow_graph) : flow_graph :=
  FlowGraph (blocks g) (layout g) (labels g) (leaves g) (BranchesToVerify g)
    (reported g ++ [e]) (LegalTargetOffsets g) (GvStackPop g) (GvStackPush g) (HasLocAlloc g)
    (HasAddressTaken g).
Definition set_legal (v : ReaderBitVector) (g : flow_graph) : flow_graph :=
  FlowGraph (blocks g) (layout g) (labels g) (leaves g) (BranchesToVerify g)
    (reported g) v (GvStackPop g) (GvStackPush g) (HasLocAlloc g) (HasAddressTaken g).
Definition set_gv (pop push : list Z) (g : flow_graph) : flow_graph :=
  FlowGraph (blocks g) (layout g) (labels g) (leaves g) (BranchesToVerify g)
    (reported g) (LegalTargetOffsets g) pop push (HasLocAlloc g) (HasAddressTaken g).
Definition set_flags (LocAlloc AddressTaken : bool) (g : flow_graph) : flow_graph :=
  FlowGraph (blocks g) (layout g) (labels g) (leaves g) (BranchesToVerify g)
    (reported g) (LegalTargetOffsets g) (GvStackPop g) (GvStackPush g) LocAlloc AddressTaken.

Definition fgNodeSetEndMSILOffset (b : nat) (o : Z) : flow_graph -> flow_graph :=
  set_blocks (alter (fun B => Block (bStart B) o (bRegion B) (bTerm B)) b).
Definition fgNodeChangeRegion (b : nat) (r : option nat) : flow_graph -> flow_graph :=
  set_blocks (alter (fun B => Block (bStart B) (bEnd B) r (bTerm B)) b).
Definition set_term (b : nat) (t : terminator) : flow_graph -> flow_graph :=
  set_blocks (alter (fun B => Block (bStart B) (bEnd B) (bRegion B) t) b).

(** ** Making and splitting blocks *)

Fixpoint insert_after (l : list nat) (b new : nat) : list nat :=
  match l with
  | [] => []
  | x :: l' => if (x =? b)%nat then x :: new :: l' else x :: insert_after l' b new
  end.

(** [makeFlowGraphNode] after an existing block. *)
Definition makeFlowGraphNode (g : flow_graph) (TargetOffset : Z) (PreviousNode : nat)
    : flow_graph * nat :=
  let new := length (blocks g) in
  (set_layout (fun l => insert_after l PreviousNode new)
     (set_blocks (fun bs => bs ++ [Block TargetOffset 0 None NoTerm]) g), new).

(** The terminators of the two halves when [GenIR::fgSplitBlock] splits a
    block: at an instruction the second half keeps the terminator, without one
    the old block keeps it and falls through to the new block where it can. *)
Definition split_terms (t : terminator) (AtInst : bool) (new : nat)
    : terminator * terminator :=
  if AtInst then (Br (ToBlock new), t)
  else
    match t with
    | NoTerm => (Br (ToBlock new), NoTerm)
    | Unreachable => (Unreachable, NoTerm)
    | CondBr c _ => (CondBr c (Some (ToBlock new)), NoTerm)
    | Br c => (Br c, NoTerm)
    | Switch _ cases => (Switch (ToBlock new) cases, NoTerm)
    | EndFinally f => (EndFinally f, NoTerm)
    end.

(** [ReaderBase::fgSplitBlock] with [GenIR::fgSplitBlock] inlined: the new
    block takes the old end, the region and the block's place in the layout. *)
Definition fgSplitBlock (ILCodeSize : Z) (g : flow_graph) (b : nat) (CurrentOffset : Z)
    (AtInst : bool) : option (flow_graph * nat) :=
  B ← blocks g !! b;
  let OldEndOffset := bEnd B in
  let g := fgNodeSetEndMSILOffset b CurrentOffset g in
  if negb AtInst && (CurrentOffset =? ILCodeSize) then Some (g, b)
  else
    let new := length (blocks g) in
    let '(t1, t2) := split_terms (bTerm B) AtInst new in
    Some (set_layout (fun l => insert_after l b new)
            (set_blocks (fun bs => bs ++ [Block CurrentOffset OldEndOffset (bRegion B) t2])
               (set_term b t1 g)), new).

(** Ends the block after the current instruction and starts the next one. *)
Definition end_block (ILCodeSize : Z) (g : flow_graph) (b : nat) (NextOffset : Z)
    : option (flow_graph * nat) :=
  fgSplitBlock ILCodeSize (fgNodeSetEndMSILOffset b NextOffset g) b NextOffset false.

(** [fgAddNodeMSILOffset] on the reader's table. *)
Definition add_label (g : flow_graph) (TargetOffset : Z) : option (nat * flow_graph) :=
  '(n, t) ← fgAddNodeMSILOffset (labels g) TargetOffset;
  Some (n, set_labels t g).

Fixpoint add_labels (g : flow_graph) (l : list Z) : option flow_graph :=
  match l with
  | [] => Some g
  | o :: l' => '(_, g) ← add_label g o; add_labels g l'
  end.

(** ** Phase 1 *)

Section Phase1.

(** Tables of opcode.def. *)
Context (OperandSizeMap StackPopMap StackPushMap : OPCODE -> Z).

(** Answers of the runtime: argument count, [this] and a void return of a
    call site, whether a token is valid, whether the method returns void. *)
Context (CallSiteSignature : OPCODE -> Z -> Z * bool * bool).
Context (isValidToken : Z -> bool) (MethodReturnsVoid : bool).

Context (VerificationNeeded SuppressExceptionHandlers : bool).
Context (EhRegionTree : option arena).
Context (ILInput : list Z) (ILInputSize : Z).

(** The stub in GenIRStubs.cpp. *)
Definition verIsCallToken (Token : Z) : bool := false.

(** Pops and pushes of one instruction, truncated to 16 bits. *)
Definition getMSILInstrStackDelta (Opcode : OPCODE) (Operand : option Z) : option (Z * Z) :=
  match Opcode with
  | CEE_CALLI | CEE_CALL | CEE_CALLVIRT | CEE_NEWOBJ =>
      operand ← Operand;
      Token ← readValue_u 4 ILInput operand;
      if verIsCallToken Token && (negb (op_is Opcode CEE_CALLI) || negb VerificationNeeded)
         && isValidToken Token
      then
        let '(numArgs, HasThis, ReturnsVoid) := CallSiteSignature Opcode Token in
        let NumPop := (if op_is Opcode CEE_CALLI then 1 else 0) + numArgs
                      + (if (HasThis : bool) then 1 else 0) in
        Some (u16 NumPop, if (ReturnsVoid : bool) then 0 else 1)
      else Some (0, 0)
  | CEE_RET => Some (if MethodReturnsVoid then 0 else 1, 0)
  | _ => Some (u16 (StackPopMap Opcode), u16 (StackPushMap Opcode))
  end.

Definition verifyRecordBranch (g : flow_graph) (b : nat) (Src Target : Z) (Leave : bool)
    : flow_graph :=
  if VerificationNeeded
  then set_branches (BranchInfo Src Target Leave b :: BranchesToVerify g) g
  else g.

Definition check_target (Target : Z) (g : flow_graph) : flow_graph :=
  if ILInputSize <=? Target then verGlobalError MVER_E_BAD_BRANCH g else g.

Definition is_short_branch (op : OPCODE) : bool :=
  op_in op [CEE_BEQ_S; CEE_BGE_S; CEE_BGE_UN_S; CEE_BGT_S; CEE_BGT_UN_S; CEE_BLE_S;
            CEE_BLE_UN_S; CEE_BLT_S; CEE_BLT_UN_S; CEE_BNE_UN_S; CEE_BRFALSE_S;
            CEE_BRTRUE_S; CEE_BR_S; CEE_LEAVE_S].
Definition is_long_branch (op : OPCODE) : bool :=
  op_in op [CEE_BEQ; CEE_BGE; CEE_BGE_UN; CEE_BGT; CEE_BLE; CEE_BLT; CEE_BGT_UN;
            CEE_BLE_UN; CEE_BLT_UN; CEE_BNE_UN; CEE_BRFALSE; CEE_BRTRUE; CEE_BR; CEE_LEAVE].
Definition is_leave (op : OPCODE) : bool := op_in op [CEE_LEAVE; CEE_LEAVE_S].
Definition is_conditional (op : OPCODE) : bool :=
  negb (op_in op [CEE_BR; CEE_LEAVE; CEE_BR_S; CEE_LEAVE_S]).

(** The target of a branch: sign-extended displacement from the next
    instruction, in 32 bits. *)
Definition branch_target (op : OPCODE) (operand NextOffset : Z) : option Z :=
  BranchOffset ← (if is_short_branch op then readValue_s 1 ILInput operand
                  else readValue_s 4 ILInput operand);
  Some (u32 (NextOffset + u32 BranchOffset)).

Definition phase1_branch (g : flow_graph) (b : nat) (op : OPCODE)
    (operand CurrentOffset NextOffset : Z) : option (flow_graph * nat) :=
  Target ← branch_target op operand NextOffset;
  let g := check_target Target g in
  '(Target, g) ←
    (if is_leave op then
       match EhRegionTree with
       | None => Some (Target, g)
       | Some s =>
           '(o, l) ← updateLeaveOffset SuppressExceptionHandlers s (Some O)
                       CurrentOffset NextOffset Target (leaves g);
           g' ← add_labels (set_leaves l g)
                  (drop (length (label_requests (leaves g))) (label_requests l));
           Some (o, g')
       end
     else Some (Target, g));
  '(GraphNode, g) ← add_label g Target;
  let g := set_term b (if is_conditional op then CondBr (ToLabel GraphNode) None
                       else Br (ToLabel GraphNode)) g in
  let g := verifyRecordBranch g b CurrentOffset Target (is_leave op) in
  end_block ILInputSize g b NextOffset.

(** One case: its label is made, the case is added to the switch in [sb]. *)
Definition switch_case (g : flow_graph) (sb : nat) (I CurrentOffset Target : Z)
    : option flow_graph :=
  let g := check_target Target g in
  '(GraphNode, g) ← add_label g Target;
  SB ← blocks g !! sb;
  match bTerm SB with
  | Switch d cases =>
      let g := set_term sb (Switch d (cases ++ [(I, ToLabel GraphNode)])) g in
      Some (verifyRecordBranch g sb CurrentOffset Target false)
  | _ => None
  end.

Fixpoint switch_cases (n : nat) (g : flow_graph) (sb : nat)
    (I cursor CurrentOffset NextOffset : Z) : option flow_graph :=
  match n with
  | O => Some g
  | S n' =>
      '(c, cursor) ← readSwitchCase ILInput cursor;
      g ← switch_case g sb I CurrentOffset (u32 (NextOffset + u32 c));
      switch_cases n' g sb (I + 1) cursor CurrentOffset NextOffset
  end.

Definition phase1_switch (g : flow_graph) (b : nat) (operand CurrentOffset NextOffset : Z)
    : option (flow_graph * nat) :=
  '(NumCases, cursor) ← readNumberOfSwitchCases ILInput operand;
  if NumCases =? 0 then Some (g, b)
  else
    let g := check_target NextOffset g in
    '(GraphNode, g) ← add_label g NextOffset;
    let g := set_term b (Switch (ToLabel GraphNode) []) g in
    '(g, b') ← end_block ILInputSize g b NextOffset;
    g ← switch_cases (Z.to_nat NumCases) g b 0 cursor CurrentOffset NextOffset;
    Some (g, b').

Definition phase1_throw (g : flow_graph) (b : nat) (NextOffset : Z)
    : option (flow_graph * nat) :=
  end_block ILInputSize (set_term b Unreachable g) b NextOffset.

Definition phase1_endfilter (g : flow_graph) (b : nat) (NextOffset : Z)
    : option (flow_graph * nat) :=
  '(GraphNode, g) ← add_label g NextOffset;
  end_block ILInputSize (set_term b (Br (ToLabel GraphNode)) g) b NextOffset.

(** A missing handler is reported and then dereferenced. *)
Definition phase1_endfinally (g : flow_graph) (b : nat) (CurrentOffset NextOffset : Z)
    : option (flow_graph * nat) :=
  s ← EhRegionTree;
  h ← getInnermostFaultOrFinallyRegion s (Some O) CurrentOffset;
  HandlerRegion ← h;
  H ← s !! HandlerRegion;
  let g :=
    if is_kind RGN_Finally H
    then set_leaves (end_finally_switch (leaves g) HandlerRegion)
           (set_term b (EndFinally HandlerRegion) g)
    else set_term b Unreachable g in
  end_block ILInputSize g b NextOffset.

Definition phase1_jmp (g : flow_graph) (b : nat) (NextOffset : Z)
    : option (flow_graph * nat) :=
  let g := fgNodeSetEndMSILOffset b NextOffset g in
  Some (if NextOffset <? ILInputSize then makeFlowGraphNode g NextOffset b else (g, b)).

Definition phase1_ret (g : flow_graph) (b : nat) (NextOffset : Z)
    : option (flow_graph * nat) :=
  phase1_jmp (set_term b Unreachable g) b NextOffset.

Definition is_prefix (op : OPCODE) : bool :=
  op_in op [CEE_CONSTRAINED; CEE_TAILCALL; CEE_READONLY; CEE_VOLATILE; CEE_UNALIGNED].

(** The dispatch on the opcode: new graph, current block. *)
Definition phase1_opcode (g : flow_graph) (b : nat) (op : OPCODE) (Operand : option Z)
    (CurrentOffset NextOffset : Z) : option (flow_graph * nat) :=
  if is_short_branch op || is_long_branch op then
    operand ← Operand; phase1_branch g b op operand CurrentOffset NextOffset
  else
    match op with
    | CEE_SWITCH => operand ← Operand; phase1_switch g b operand CurrentOffset NextOffset
    | CEE_THROW | CEE_RETHROW => phase1_throw g b NextOffset
    | CEE_ENDFILTER => phase1_endfilter g b NextOffset
    | CEE_ENDFINALLY => phase1_endfinally g b CurrentOffset NextOffset
    | CEE_JMP => phase1_jmp g b NextOffset
    | CEE_RET => phase1_ret g b NextOffset
    | CEE_LOCALLOC => Some (set_flags true (HasAddressTaken g) g, b)
    | CEE_LDLOCA | CEE_LDLOCA_S | CEE_LDARGA | CEE_LDARGA_S | CEE_ARGLIST =>
        Some (set_flags (HasLocAlloc g) true g, b)
    | _ => Some (g, b)
    end.

(** The variables of the loop. *)
Record phase1_state := Phase1 {
  p1_graph : flow_graph;
  p1_block : nat;
  p1_offset : Z;
  p1_region : option nat;
  p1_transition : Z;
  p1_prefix : bool;
  p1_stack : Z;
  p1_opcode : OPCODE }.

(** The region transition at the head of an iteration. *)
Definition phase1_region (p : phase1_state) : option phase1_state :=
  match EhRegionTree with
  | Some s =>
      if p1_offset p =? p1_transition p then
        r ← p1_region p;
        '(r, NextTransition, _) ← fgSwitchRegion (S (2 * length s)) s r (p1_offset p);
        B ← blocks (p1_graph p) !! p1_block p;
        '(g, b) ← (if bStart B =? p1_offset p then Some (p1_graph p, p1_block p)
                   else fgSplitBlock ILInputSize (p1_graph p) (p1_block p) (p1_offset p) false);
        Some (Phase1 (fgNodeChangeRegion b (Some r) g) b (p1_offset p) (Some r) NextTransition
                (p1_prefix p) (p1_stack p) (p1_opcode p))
      else Some p
  | None => Some p
  end.

(** Stack contributions for global verification: the instruction's at its
    first byte, zero at the others. *)
Fixpoint zero_gv (n : nat) (pop push : list Z) (i : nat) : list Z * list Z :=
  match n with
  | O => (pop, push)
  | S n' => zero_gv n' (<[i := 0]> pop) (<[i := 0]> push) (S i)
  end.

Definition phase1_gv (g : flow_graph) (op : OPCODE) (Operand : option Z)
    (StackOffset NextOffset : Z) : option (flow_graph * Z) :=
  if VerificationNeeded then
    '(Pop, Push) ← getMSILInstrStackDelta op Operand;
    if (StackOffset <? Z.of_nat (length (GvStackPop g))) then
      let i := Z.to_nat StackOffset in
      let pop := <[i := Pop]> (GvStackPop g) in
      let push := <[i := Push]> (GvStackPush g) in
      let rest := Z.to_nat (NextOffset - (StackOffset + 1)) in
      let '(pop, push) := zero_gv rest pop push (S i) in
      Some (set_gv pop push g, StackOffset + 1 + Z.of_nat rest)
    else None
  else Some (g, StackOffset).

Definition phase1_step (p : phase1_state) : phase1_state + option phase1_state :=
  if p1_offset p <? ILInputSize then
    match
      p ← phase1_region p;
      let CurrentOffset := p1_offset p in
      r ← parseILOpcode OperandSizeMap ILInput CurrentOffset ILInputSize true true;
      let g := match p_report r with
               | VerGlobalError e => verGlobalError e (p1_graph p)
               | _ => p1_graph p
               end in
      g ← (if VerificationNeeded && negb (p1_prefix p)
           then v ← setBit (LegalTargetOffsets g) CurrentOffset; Some (set_legal v g)
           else Some g);
      '(g, b) ← phase1_opcode g (p1_block p) (p_opcode r) (p_operand r) CurrentOffset (p_next r);
      '(g, StackOffset) ← phase1_gv g (p_opcode r) (p_operand r) (p1_stack p) (p_next r);
      Some (Phase1 g b (p_next r) (p1_region p) (p1_transition p) (is_prefix (p_opcode r))
              StackOffset (p_opcode r))
    with
    | Some p' => inl p'
    | None => inr None
    end
  else inr (Some p).

Definition ends_method (op : OPCODE) : bool :=
  op_in op [CEE_BR_S; CEE_LEAVE_S; CEE_ENDFILTER; CEE_RET; CEE_JMP; CEE_THROW; CEE_RETHROW;
            CEE_BR; CEE_LEAVE; CEE_ENDFINALLY].

Definition phase1_init (g : flow_graph) (b : nat) : phase1_state :=
  let g :=
    if VerificationNeeded then
      let g := if ILInputSize =? 0 then verGlobalError MVER_E_CODE_SIZE_ZERO g else g in
      let zeros := replicate (Z.to_nat ILInputSize) 0 in
      set_gv zeros zeros (set_legal (allocateBitVector (u32 (ILInputSize + 1))) g)
    else g in
  let g := set_branches [] (set_flags false false g) in
  Phase1 g b 0 (match EhRegionTree with Some _ => Some O | None => None end) 0 false 0 CEE_ILLEGAL.

Definition phase1_finish (p : phase1_state) : flow_graph :=
  let g :=
    if VerificationNeeded && negb (ends_method (p1_opcode p))
    then verGlobalError MVER_E_FALLTHRU (p1_graph p) else p1_graph p in
  fgNodeSetEndMSILOffset (p1_block p) (p1_offset p) g.

(** [None]: out of fuel; [Some None]: an access outside a buffer or a null
    pointer. *)
Definition fgBuildPhase1 (fuel : nat) (g : flow_graph) (b : nat)
    : option (option flow_graph) :=
  option_map (option_map phase1_finish) (while_fuel fuel phase1_step (phase1_init g b)).

End Phase1.

(** ** Phase 2 *)

Section Phase2.

Context (ILCodeSize : Z).

Definition replace_target (n b : nat) (t : flow_target) : flow_target :=
  match t with
  | ToLabel m => if (m =? n)%nat then ToBlock b else t
  | ToBlock _ => t
  end.

Definition replace_term (n b : nat) (t : terminator) : terminator :=
  match t with
  | Br c => Br (replace_target n b c)
  | CondBr c f => CondBr (replace_target n b c) (replace_target n b <$> f)
  | Switch d cases =>
      Switch (replace_target n b d) ((fun '(v, c) => (v, replace_target n b c)) <$> cases)
  | t => t
  end.

(** [replaceAllUsesWith] of a label node. *)
Definition replaceFlowGraphNodeUses (g : flow_graph) (n b : nat) : flow_graph :=
  set_blocks
    (fmap (fun B => Block (bStart B) (bEnd B) (bRegion B) (replace_term n b (bTerm B)))) g.

(** Whether [fgNodeGetEndInsertIRNode] finds an instruction. *)
Definition has_insert_node (g : flow_graph) (B : block) : bool :=
  match ContinuationStoreMap (leaves g) !! bEnd B, bTerm B with
  | None, NoTerm => false
  | _, _ => true
  end.

(** The search from the start block on; the result is the target block, null
    when no block contains the offset. *)
Fixpoint replace_from (g : flow_graph) (l : list nat) (Offset : Z) (n : nat)
    : option (flow_graph * option nat) :=
  match l with
  | [] => Some (g, None)
  | b :: l' =>
      B ← blocks g !! b;
      if (bStart B <=? Offset) && (Offset <? bEnd B) then
        '(g, b) ← (if Offset =? bStart B then Some (g, b)
                   else fgSplitBlock ILCodeSize g b Offset (has_insert_node g B));
        Some (replaceFlowGraphNodeUses g n b, Some b)
      else replace_from g l' Offset n
  end.

(** The part of the layout from a block on. *)
Fixpoint layout_from (l : list nat) (b : nat) : list nat :=
  match l with
  | [] => []
  | x :: l' => if (x =? b)%nat then l else layout_from l' b
  end.

Definition fgReplaceBranchTarget (g : flow_graph) (Offset : Z) (n : nat)
    (StartBlock : option nat) : option (flow_graph * option nat) :=
  replace_from g
    (match StartBlock with Some b => layout_from (layout g) b | None => layout g end)
    Offset n.

Fixpoint replace_all (g : flow_graph) (entries : list (Z * nat)) (b : option nat)
    : option flow_graph :=
  match entries with
  | [] => Some g
  | (o, n) :: l =>
      '(g, b) ← fgReplaceBranchTarget g o n b;
      replace_all g l b
  end.

Definition fgReplaceBranchTargets (g : flow_graph) : option flow_graph :=
  replace_all g (table_entries (labels g)) None.

End Phase2.
