(* ===== verification/Phase1.v ===== *)
(** * Correctness of the first flow-graph pass

    For a well-formed method body without exception clauses
    [fgBuildPhase1] cuts the code exactly after the instructions that end a
    block, gives every block the terminator of its last instruction and makes
    a label for exactly the targets of its branches. *)

From S2P Require Import Prelude Opcodes ILDecode BitVector Regions Leave NodeTable FlowGraph.
Import ReaderBaseNS.

(** ** Specification *)

Section Spec.

Context (buf : list Z).

Definition code_size : Z := Z.of_nat (length buf).

Definition is_branch (op : OPCODE) : bool := is_short_branch op || is_long_branch op.

(** The targets a switch lists, in case order. *)
Definition switch_targets (i : il_instr) : list Z :=
  match readNumberOfSwitchCases buf (i_operand i) with
  | Some (n, cursor) =>
      match readSwitchCases (Z.to_nat n) buf cursor with
      | Some cs => (fun c => u32 (i_next i + u32 c)) <$> cs
      | None => []
      end
  | None => []
  end.

(** The offsets the instruction needs a label for. *)
Definition instr_labels (i : il_instr) : list Z :=
  if is_branch (i_op i) then
    match branch_target buf (i_op i) (i_operand i) (i_next i) with
    | Some t => [t] | None => [] end
  else
    match i_op i with
    | CEE_SWITCH => match switch_targets i with [] => [] | l => i_next i :: l end
    | CEE_ENDFILTER => [i_next i]
    | _ => []
    end.

Definition ends_block (i : il_instr) : bool :=
  is_branch (i_op i) ||
  match i_op i with
  | CEE_SWITCH => match switch_targets i with [] => false | _ => true end
  | CEE_THROW | CEE_RETHROW | CEE_ENDFILTER | CEE_JMP | CEE_RET => true
  | _ => false
  end.

(** The blocks of a body from [start] on: the finished ones, each with the
    instruction that ends it, and the start of the last one. *)
Fixpoint cut (start : Z) (l : list il_instr) : list (Z * il_instr) * Z :=
  match l with
  | [] => ([], start)
  | i :: l' =>
      if ends_block i && (i_next i <? code_size) then
        let '(bs, last) := cut (i_next i) l' in ((start, i) :: bs, last)
      else cut start l'
  end.

(** The terminator of a block that instruction [i] ends; [next] is the block
    laid out after it. *)
Definition term_ok (t : node_table) (next : nat) (i : il_instr) (term : terminator) : Prop :=
  if is_branch (i_op i) then
    exists tgt n, branch_target buf (i_op i) (i_operand i) (i_next i) = Some tgt /\
      node_at t tgt n /\
      term = (if is_conditional (i_op i) then CondBr (ToLabel n) (Some (ToBlock next))
              else Br (ToLabel n))
  else
    match i_op i with
    | CEE_SWITCH => exists cases, term = Switch (ToBlock next) cases /\
        Forall2 (fun tgt c => exists n, node_at t tgt n /\ snd c = ToLabel n)
          (switch_targets i) cases /\
        fst <$> cases = Z.of_nat <$> seq 0 (length cases)
    | CEE_THROW | CEE_RETHROW | CEE_RET => term = Unreachable
    | CEE_ENDFILTER => exists n, node_at t (i_next i) n /\ term = Br (ToLabel n)
    | CEE_JMP => term = NoTerm
    | _ => False
    end.

Definition block_ok (t : node_table) (next : nat) (c : Z * il_instr) (B : block) : Prop :=
  bStart B = fst c /\ bEnd B = i_next (snd c) /\ term_ok t next (snd c) (bTerm B).

(** The finished blocks, the first of them with index [k]. *)
Fixpoint blocks_ok (t : node_table) (k : nat) (cs : list (Z * il_instr)) (bs : list block)
    : Prop :=
  match cs, bs with
  | [], [] => True
  | c :: cs', B :: bs' => block_ok t (S k) c B /\ blocks_ok t (S k) cs' bs'
  | _, _ => False
  end.

End Spec.

(** Operand sizes of the branches (opcode.def: ShortInlineBrTarget and
    InlineBrTarget). *)
Definition branch_sizes (sizes : OPCODE -> Z) : Prop :=
  forall op, (is_short_branch op = true -> sizes op = 1) /\
             (is_long_branch op = true -> sizes op = 4).

(** Labels grow. *)
Definition labels_grow (t t' : node_table) (os : list Z) : Prop :=
  table_ok t' /\ length (NodeOffsetListArray t') = length (NodeOffsetListArray t) /\
  (forall o n, node_at t o n -> node_at t' o n) /\
  (forall o n, node_at t' o n -> node_at t o n \/ o ∈ os) /\
  (forall o, o ∈ os -> exists n, node_at t' o n).

Lemma labels_grow_refl t : table_ok t -> labels_grow t t [].
Proof. intros H. split_and!; try done; [auto|]. by intros o Ho%elem_of_nil. Qed.

Lemma labels_grow_trans t1 t2 t3 a b :
  labels_grow t1 t2 a -> labels_grow t2 t3 b -> labels_grow t1 t3 (a ++ b).
Proof.
  intros (H1 & H2 & H3 & H4 & H5) (K1 & K2 & K3 & K4 & K5). split_and!; try done.
  - congruence.
  - auto.
  - intros o n Hn. rewrite elem_of_app. destruct (K4 o n Hn) as [H|]; [|auto].
    destruct (H4 o n H); auto.
  - intros o [Ho|Ho]%elem_of_app; [|auto]. destruct (H5 o Ho) as [n Hn]. eauto.
Qed.

Definition label_room (t : node_table) (o : Z) : Prop :=
  0 <= o /\ o / 32 < Z.of_nat (length (NodeOffsetListArray t)).

Lemma add_label_ok g o :
  table_ok (labels g) -> label_room (labels g) o ->
  exists n t', add_label g o = Some (n, set_labels t' g) /\
    labels_grow (labels g) t' [o] /\ node_at t' o n.
Proof.
  intros Hok [H0 Hr]. destruct (fgAddNodeMSILOffset_spec (labels g) o Hok H0 Hr)
    as (n & t' & He & Hok' & Hlen & Hn & Hor).
  exists n, t'. unfold add_label. rewrite He. split_and!; try done.
  split_and!; try done.
  - intros p m Hm. destruct Hor as [->|(_ & _ & _ & Hent)]; [done|]. apply Hent. by right.
  - intros p m Hm. destruct Hor as [->|(_ & _ & _ & Hent)]; [by left|].
    apply Hent in Hm as [[-> _]|Hm]; [right; constructor|by left].
  - intros p [->|Hp%elem_of_nil]%elem_of_cons; [eauto|done].
Qed.

Lemma term_ok_grow buf t t' os next i term :
  labels_grow t t' os -> term_ok buf t next i term -> term_ok buf t' next i term.
Proof.
  intros (_ & _ & Hm & _) H. unfold term_ok in *. destruct (is_branch (i_op i)).
  - destruct H as (tgt & n & ? & Hn & ?). exists tgt, n. auto.
  - destruct (i_op i); try done.
    + destruct H as (cases & -> & HF & Hk). exists cases. split_and!; try done.
      eapply Forall2_impl; [exact HF|]. intros tgt c (n & Hn & ?). eauto.
    + destruct H as (n & Hn & ?). eauto.
Qed.

Lemma blocks_ok_grow buf t t' os k cs bs :
  labels_grow t t' os -> blocks_ok buf t k cs bs -> blocks_ok buf t' k cs bs.
Proof.
  intros Hg. revert k bs. induction cs as [|c cs IH]; intros k [|B bs] H; simpl in *; try done.
  destruct H as [(? & ? & Ht) H]. split; [|by apply IH].
  split_and!; try done. by eapply term_ok_grow.
Qed.

Lemma blocks_ok_snoc buf t k cs bs c B :
  blocks_ok buf t k cs bs -> block_ok buf t (S (k + length cs)) c B ->
  blocks_ok buf t k (cs ++ [c]) (bs ++ [B]).
Proof.
  revert k bs. induction cs as [|d cs IH]; intros k [|D bs] H Hb; simpl in *; try done.
  - rewrite Nat.add_0_r in Hb. done.
  - destruct H as [Hd H]. split; [done|]. apply IH; [done|].
    by replace (S (S k + length cs)) with (S (k + S (length cs))) by lia.
Qed.

(** ** The shape of the graph during the pass *)

(** Blocks in index order; the last one is the current one. *)
Definition shape (g : flow_graph) (ds : list block) (C : block) : Prop :=
  blocks g = ds ++ [C] /\ layout g = seq 0 (S (length ds)).

Lemma insert_after_seq k n :
  insert_after (seq k (S n)) (k + n) (S (k + n)) = seq k (S (S n)).
Proof.
  revert k. induction n as [|n IH]; intros k.
  - simpl. rewrite Nat.add_0_r. by rewrite Nat.eqb_refl.
  - change (seq k (S (S n))) with (k :: seq (S k) (S n)). cbn [insert_after].
    destruct (Nat.eqb_spec k (k + S n)); [lia|].
    replace (k + S n)%nat with (S k + n)%nat by lia. rewrite IH. done.
Qed.

Lemma alter_current f (ds : list block) (C : block) :
  alter f (length ds) (ds ++ [C]) = ds ++ [f C].
Proof. by rewrite alter_app_r_alt, Nat.sub_diag by lia. Qed.

Lemma set_term_shape g ds C t :
  shape g ds C -> shape (set_term (length ds) t g) ds (Block (bStart C) (bEnd C) (bRegion C) t).
Proof. intros [Hb Hl]. split; [|done]. unfold set_term. simpl. by rewrite Hb, alter_current. Qed.

Lemma set_end_shape g ds C o :
  shape g ds C ->
  shape (fgNodeSetEndMSILOffset (length ds) o g) ds (Block (bStart C) o (bRegion C) (bTerm C)).
Proof.
  intros [Hb Hl]. split; [|done]. unfold fgNodeSetEndMSILOffset. simpl.
  by rewrite Hb, alter_current.
Qed.

Lemma shape_current g ds C : shape g ds C -> blocks g !! length ds = Some C.
Proof. intros [-> _]. by rewrite lookup_app_r, Nat.sub_diag by lia. Qed.

(** What [end_block] does to the current block. *)
Lemma end_block_shape size g ds C Next :
  shape g ds C ->
  exists g' b', end_block size g (length ds) Next = Some (g', b') /\
    labels g' = labels g /\ leaves g' = leaves g /\
    if Next =? size then
      b' = length ds /\ shape g' ds (Block (bStart C) Next (bRegion C) (bTerm C))
    else
      b' = S (length ds) /\
      shape g' (ds ++ [Block (bStart C) Next (bRegion C)
                  (fst (split_terms (bTerm C) false (S (length ds))))])
        (Block Next Next (bRegion C) (snd (split_terms (bTerm C) false (S (length ds))))).
Proof.
  intros Hs. unfold end_block, fgSplitBlock.
  pose proof (set_end_shape g ds C Next Hs) as He. rewrite (shape_current _ _ _ He).
  cbn [mbind option_bind negb andb bStart bEnd bRegion bTerm].
  pose proof (set_end_shape _ ds _ Next He) as He2. simpl in He2.
  set (g2 := fgNodeSetEndMSILOffset (length ds) Next
               (fgNodeSetEndMSILOffset (length ds) Next g)) in *.
  destruct (Z.eqb_spec Next size) as [_|Hne]; [by eexists _, _; split_and!|].
  assert (Hlen : length (blocks g2) = S (length ds))
    by (rewrite (proj1 He2), length_app; simpl; lia).
  rewrite Hlen. destruct (split_terms (bTerm C) false (S (length ds))) as [t1 t2] eqn:Et.
  eexists _, _. split; [done|]. split; [done|]. split; [done|]. split; [done|].
  split; cbn [blocks layout set_layout set_blocks set_term fst snd].
  - rewrite (proj1 He2), alter_current. done.
  - rewrite (proj2 He2), length_app. simpl length.
    assert (H : insert_after (seq 0 (S (length ds))) (length ds) (S (length ds)) =
                seq 0 (S (S (length ds)))) by exact (insert_after_seq 0 (length ds)).
    rewrite H. f_equal. lia.
Qed.

(** ** One instruction *)

Section Step.

Context (sizes StackPop StackPush : OPCODE -> Z).
Context (Sig : OPCODE -> Z -> Z * bool * bool) (valid : Z -> bool) (void Sup : bool).
Context (Hsizes : sizes_ok sizes) (Hbr : branch_sizes sizes).
Context (buf : list Z) (Hbuf : il_ok buf).

Abbreviation size := (code_size buf).
Abbreviation opcode_step := (phase1_opcode false Sup None buf size).

Definition valid_instr (i : il_instr) : Prop :=
  instr_at sizes buf (i_off i) (i_op i) (i_operand i) (i_next i).

Lemma instr_len i : valid_instr i -> i_op i <> CEE_SWITCH ->
  i_next i = i_operand i + sizes (i_op i).
Proof.
  intros [len _ Hl _] Hne. unfold operand_length in Hl.
  apply op_is_false in Hne. rewrite Hne in Hl. by simplify_eq.
Qed.

Lemma instr_range i : valid_instr i ->
  0 <= i_off i < i_operand i /\ i_operand i <= i_next i <= size.
Proof. intros H. exact (instr_at_progress sizes Hsizes buf _ _ _ _ (proj1 Hbuf) H). Qed.

Lemma branch_target_total i :
  valid_instr i -> is_branch (i_op i) = true ->
  exists t, branch_target buf (i_op i) (i_operand i) (i_next i) = Some t /\ 0 <= t.
Proof.
  intros Hv Hb. pose proof (instr_range i Hv) as Hr. unfold branch_target.
  assert (Hne : i_op i <> CEE_SWITCH) by (intros E; by rewrite E in Hb).
  pose proof (instr_len i Hv Hne) as Hlen. destruct (Hbr (i_op i)) as [Hs Hl].
  unfold is_branch in Hb. unfold code_size in *.
  destruct (is_short_branch (i_op i)) eqn:Es.
  - rewrite Hs in Hlen by done.
    destruct (readValue_in_range buf 1 (i_operand i) ltac:(lia) ltac:(lia)) as [_ [v ->]].
    simpl. eexists. split; [done|]. apply u32_range.
  - simpl in Hb. rewrite Hl in Hlen by done.
    destruct (readValue_in_range buf 4 (i_operand i) ltac:(lia) ltac:(lia)) as [_ [v ->]].
    simpl. eexists. split; [done|]. apply u32_range.
Qed.

Definition room (t : node_table) (os : list Z) : Prop := Forall (label_room t) os.

Lemma label_room_grow t t' os o : labels_grow t t' os -> label_room t o -> label_room t' o.
Proof. intros (_ & Hl & _) [? ?]. unfold label_room. by rewrite Hl. Qed.

(** What one instruction does: its labels are added, and its block is ended
    with the right terminator when it is a block-ending instruction. *)
Definition step_ok (g : flow_graph) (ds : list block) (C : block) (i : il_instr)
    (g' : flow_graph) (b' : nat) : Prop :=
  labels_grow (labels g) (labels g') (instr_labels buf i) /\
  if ends_block buf i && (i_next i <? size) then
    b' = S (length ds) /\ exists D N, shape g' (ds ++ [D]) N /\
      block_ok buf (labels g') (S (length ds)) (bStart C, i) D /\
      bStart N = i_next i /\ bTerm N = NoTerm
  else
    b' = length ds /\ exists N, shape g' ds N /\ bStart N = bStart C /\
      (i_next i < size -> bTerm N = bTerm C).

(** Ending the block once its terminator is in place. *)
Lemma end_block_step g g0 ds C T i :
  shape g0 ds (Block (bStart C) (bEnd C) (bRegion C) T) ->
  labels_grow (labels g) (labels g0) (instr_labels buf i) ->
  ends_block buf i = true -> i_next i <= size ->
  snd (split_terms T false (S (length ds))) = NoTerm ->
  (i_next i < size ->
   term_ok buf (labels g0) (S (length ds)) i (fst (split_terms T false (S (length ds))))) ->
  exists g' b', end_block size g0 (length ds) (i_next i) = Some (g', b') /\
    labels g' = labels g0 /\ step_ok g ds C i g' b'.
Proof.
  intros Hs Hg He Hle Hno Ht.
  destruct (end_block_shape size g0 ds _ (i_next i) Hs) as (g' & b' & Heq & Hl & _ & Hcase).
  exists g', b'. split_and!; [done..|]. unfold step_ok. rewrite Hl, He. split; [done|]. simpl.
  destruct (Z.eqb_spec (i_next i) size) as [Hsz|Hsz].
  - destruct (Z.ltb_spec (i_next i) size); [lia|]. destruct Hcase as [-> Hsh].
    split; [done|]. eexists. split; [exact Hsh|]. split; [done|lia].
  - destruct (Z.ltb_spec (i_next i) size); [|lia]. destruct Hcase as [-> Hsh].
    split; [done|]. eexists _, _. split; [exact Hsh|].
    split; [|split; [done|exact Hno]]. split; [done|]. split; [done|]. simpl. by apply Ht.
Qed.

Lemma step_branch g ds C i :
  shape g ds C -> bTerm C = NoTerm -> valid_instr i -> table_ok (labels g) ->
  room (labels g) (instr_labels buf i) -> is_branch (i_op i) = true ->
  exists g' b', phase1_branch false Sup None buf size g (length ds) (i_op i) (i_operand i)
                  (i_off i) (i_next i) = Some (g', b') /\ step_ok g ds C i g' b'.
Proof.
  intros Hs HC Hv Hok Hroom Hb. pose proof (instr_range i Hv) as Hr.
  destruct (branch_target_total i Hv Hb) as (tgt & Ht & Ht0).
  assert (Hlab : instr_labels buf i = [tgt]) by (unfold instr_labels; by rewrite Hb, Ht).
  rewrite Hlab in Hroom. apply Forall_cons in Hroom as [Hroom _].
  unfold phase1_branch. rewrite Ht. cbn [mbind option_bind].
  set (g1 := check_target size tgt g).
  assert (Hg1 : labels g1 = labels g /\ shape g1 ds C)
    by (unfold g1, check_target; by case_match).
  destruct Hg1 as [Hl1 Hs1].
  assert (Hleave : (if is_leave (i_op i) then Some (tgt, g1) else Some (tgt, g1)) = Some (tgt, g1))
    by by case_match.
  rewrite Hleave. cbn [mbind option_bind].
  destruct (add_label_ok g1 tgt) as (n & t' & -> & Hg & Hn); [by rewrite Hl1..|].
  cbn [mbind option_bind]. unfold verifyRecordBranch.
  set (T := if is_conditional (i_op i) then CondBr (ToLabel n) None else Br (ToLabel n)).
  rewrite Hl1 in Hg.
  destruct (end_block_step g (set_term (length ds) T (set_labels t' g1)) ds C T i)
    as (g' & b' & He & _ & Hst).
  - apply (set_term_shape (set_labels t' g1) ds C). exact Hs1.
  - simpl. by rewrite Hlab.
  - unfold ends_block. by rewrite Hb.
  - lia.
  - unfold T. by destruct (is_conditional (i_op i)).
  - intros _. unfold term_ok. rewrite Hb. exists tgt, n. split_and!; [done..|].
    unfold T. by destruct (is_conditional (i_op i)).
  - exists g', b'. by split.
Qed.

Lemma alter_as_insert {A} (f : A -> A) i (l : list A) x :
  l !! i = Some x -> alter f i l = <[i := f x]> l.
Proof.
  intros H. apply lookup_lt_Some in H as Hlt. apply list_eq. intros j. rewrite list_lookup_alter.
  case_decide as Hd; [subst; by rewrite H, list_lookup_insert_eq|].
  by rewrite list_lookup_insert_ne.
Qed.

(** The labels of the cases and the cases added to the switch. *)
Definition cases_ok (t : node_table) (targets : list Z) (I : Z)
    (cases : list (Z * flow_target)) : Prop :=
  Forall2 (fun tgt c => exists n, node_at t tgt n /\ snd c = ToLabel n) targets cases /\
  fst <$> cases = (fun k => I + Z.of_nat k) <$> seq 0 (length cases).

Lemma switch_cases_ok src next n g sb SB d cs0 I cursor cvals :
  readSwitchCases n buf cursor = Some cvals ->
  blocks g !! sb = Some SB -> bTerm SB = Switch d cs0 ->
  table_ok (labels g) -> room (labels g) ((fun c => u32 (next + u32 c)) <$> cvals) ->
  exists g' new,
    switch_cases false buf size n g sb I cursor src next = Some g' /\
    blocks g' = <[sb := Block (bStart SB) (bEnd SB) (bRegion SB) (Switch d (cs0 ++ new))]> (blocks g) /\
    layout g' = layout g /\
    labels_grow (labels g) (labels g') ((fun c => u32 (next + u32 c)) <$> cvals) /\
    cases_ok (labels g') ((fun c => u32 (next + u32 c)) <$> cvals) I new.
Proof.
  revert g SB cs0 I cursor cvals.
  induction n as [|n IH]; intros g SB cs0 I cursor cvals Hrd HSB HT Hok Hroom;
    cbn [readSwitchCases] in Hrd.
  { simplify_eq. exists g, []. split; [done|]. rewrite app_nil_r.
    split; [symmetry; apply list_insert_id; by rewrite HSB, <- HT; destruct SB|].
    split; [done|]. split; [by apply labels_grow_refl|]. split; [constructor|done]. }
  destruct (readSwitchCase buf cursor) as [[c cursor']|] eqn:Ec; cbn [mbind option_bind] in Hrd; [|done].
  destruct (readSwitchCases n buf cursor') as [cs|] eqn:Ecs; cbn [mbind option_bind] in Hrd; [|done].
  injection Hrd as <-. rewrite fmap_cons in Hroom. apply Forall_cons in Hroom as [Hr1 Hroom].
  cbn [switch_cases]. rewrite Ec. cbn [mbind option_bind].
  set (tgt := u32 (next + u32 c)) in *. unfold switch_case.
  set (g1 := check_target size tgt g).
  assert (Hg1 : labels g1 = labels g /\ blocks g1 = blocks g /\ layout g1 = layout g)
    by (unfold g1, check_target; by case_match).
  destruct Hg1 as (Hl1 & Hb1 & Hlay1).
  destruct (add_label_ok g1 tgt) as (m & t' & -> & Hg & Hm); [by rewrite Hl1..|].
  rewrite Hl1 in Hg. cbn [mbind option_bind]. cbn [blocks set_labels set_blocks]. rewrite Hb1, HSB.
  cbn [mbind option_bind]. rewrite HT. unfold verifyRecordBranch.
  set (T := Switch d (cs0 ++ [(I, ToLabel m)])).
  set (g2 := set_term sb T (set_labels t' g1)).
  set (SB2 := Block (bStart SB) (bEnd SB) (bRegion SB) T).
  assert (Hb2 : blocks g2 = <[sb := SB2]> (blocks g)).
  { unfold g2. cbn [blocks set_term set_blocks set_labels]. rewrite Hb1.
    by rewrite (alter_as_insert _ _ _ SB). }
  assert (Hlt : (sb < length (blocks g))%nat) by (by eapply lookup_lt_Some).
  assert (Hg2 : labels g2 = t') by done.
  destruct (IH g2 SB2 (cs0 ++ [(I, ToLabel m)]) (I + 1) cursor' cs) as
    (g' & new & Hsw & Hbl & Hlay & Hgr & HF & Hk); try done.
  - rewrite Hb2. by apply list_lookup_insert_eq.
  - apply Hg.
  - unfold room in *. rewrite Hg2. eapply Forall_impl; [exact Hroom|].
    intros o. by apply (label_room_grow (labels g) t' [tgt]).
  - rewrite Hg2 in Hgr. exists g', ((I, ToLabel m) :: new). split; [exact Hsw|].
    split; [rewrite Hbl, Hb2, list_insert_insert_eq, <- app_assoc; done|].
    split; [rewrite Hlay; exact Hlay1|].
    split; [exact (labels_grow_trans _ _ _ [tgt] _ Hg Hgr)|]. split.
    + rewrite fmap_cons. constructor; [|done]. exists m. split; [by apply Hgr|done].
    + rewrite fmap_cons, Hk. simpl length. cbn [seq]. rewrite fmap_cons. simpl fst.
      f_equal; [lia|]. rewrite <- seq_shift. change (map S) with (fmap (M:=list) S).
      rewrite <- list_fmap_compose. apply list_fmap_ext. intros k x _. simpl. lia.
Qed.

Lemma insert_mid {A} (ds : list A) D D' N :
  <[length ds := D']> ((ds ++ [D]) ++ [N]) = (ds ++ [D']) ++ [N].
Proof.
  rewrite insert_app_l by (rewrite length_app; simpl; lia).
  by rewrite insert_app_r_alt, Nat.sub_diag by lia.
Qed.

Lemma insert_last {A} (ds : list A) C C' : <[length ds := C']> (ds ++ [C]) = ds ++ [C'].
Proof. by rewrite insert_app_r_alt, Nat.sub_diag by lia. Qed.

Lemma switch_total i :
  valid_instr i -> i_op i = CEE_SWITCH ->
  exists n cs, readNumberOfSwitchCases buf (i_operand i) = Some (n, i_operand i + 4) /\
    0 <= n /\ readSwitchCases (Z.to_nat n) buf (i_operand i + 4) = Some cs /\
    length cs = Z.to_nat n.
Proof.
  intros Hv Hop. pose proof (instr_range i Hv). destruct Hv as [len _ Hl Hle].
  unfold operand_length in Hl. rewrite Hop in Hl. simpl in Hl.
  destruct (readValue_u 4 buf (i_operand i)) as [n|] eqn:En; simplify_eq/=.
  pose proof (switch_count_range _ _ _ (proj1 Hbuf) En).
  destruct (readSwitchCases_in_range buf (Z.to_nat n) (i_operand i + 4)) as [cs Hcs]; [lia..|].
  exists n, cs. unfold readNumberOfSwitchCases. rewrite En.
  split; [done|]. split; [lia|]. split; [done|].
  clear -Hcs. revert cs Hcs. generalize (i_operand i + 4) as c. induction (Z.to_nat n) as [|k IH];
    intros c cs Hcs; cbn [readSwitchCases] in Hcs; [by simplify_eq|].
  destruct (readSwitchCase buf c) as [[v c']|]; cbn [mbind option_bind] in Hcs; [|done].
  destruct (readSwitchCases k buf c') as [r|] eqn:Er; cbn [mbind option_bind] in Hcs; [|done].
  injection Hcs as <-. simpl. by rewrite (IH _ _ Er).
Qed.

Lemma step_switch g ds C i :
  shape g ds C -> bTerm C = NoTerm -> valid_instr i -> table_ok (labels g) ->
  room (labels g) (instr_labels buf i) -> i_op i = CEE_SWITCH ->
  exists g' b', phase1_switch false buf size g (length ds) (i_operand i)
                  (i_off i) (i_next i) = Some (g', b') /\ step_ok g ds C i g' b'.
Proof.
  intros Hs HC Hv Hok Hroom Hop. pose proof (instr_range i Hv) as Hr.
  destruct (switch_total i Hv Hop) as (n & cs & Hnum & Hn0 & Hcs & Hlen).
  assert (Htg : switch_targets buf i = (fun c => u32 (i_next i + u32 c)) <$> cs)
    by (unfold switch_targets; by rewrite Hnum, Hcs).
  assert (Hnb : is_branch (i_op i) = false) by (by rewrite Hop).
  assert (Hlab : instr_labels buf i =
    match cs with [] => [] | _ => i_next i :: switch_targets buf i end).
  { unfold instr_labels. rewrite Hnb, Hop, Htg. by destruct cs. }
  assert (Hends : ends_block buf i = match cs with [] => false | _ => true end).
  { unfold ends_block. rewrite Hnb, Hop, Htg. by destruct cs. }
  unfold phase1_switch. rewrite Hnum. cbn [mbind option_bind].
  destruct (Z.eqb_spec n 0) as [->|Hne].
  { assert (cs = []) as -> by (by destruct cs). exists g, (length ds). split; [done|].
    unfold step_ok. rewrite Hends, Hlab. split; [by apply labels_grow_refl|].
    split; [done|]. by exists C. }
  destruct cs as [|c0 cs']; [simpl in Hlen; lia|].
  remember (c0 :: cs') as cs eqn:Ecs. rewrite ?Ecs in Hlab, Hends. rewrite Hlab in Hroom.
  apply Forall_cons in Hroom as [Hr1 Hroom].
  set (g1 := check_target size (i_next i) g).
  assert (Hg1 : labels g1 = labels g /\ shape g1 ds C)
    by (unfold g1, check_target; by case_match).
  destruct Hg1 as [Hl1 Hs1].
  destruct (add_label_ok g1 (i_next i)) as (m & t' & -> & Hg & Hm); [by rewrite Hl1..|].
  rewrite Hl1 in Hg. cbn [mbind option_bind].
  set (T := Switch (ToLabel m) []).
  pose proof (set_term_shape (set_labels t' g1) ds C T Hs1) as Hs2.
  destruct (end_block_shape size _ ds _ (i_next i) Hs2) as (g3 & b3 & -> & Hl3 & _ & Hcase).
  cbn [mbind option_bind]. cbn [labels set_term set_blocks set_labels] in Hl3.
  assert (Hroom3 : room (labels g3) ((fun c => u32 (i_next i + u32 c)) <$> cs)).
  { rewrite Hl3, <- Htg. eapply Forall_impl; [exact Hroom|].
    intros o. by apply (label_room_grow (labels g) t' [i_next i]). }
  assert (Hok3 : table_ok (labels g3)) by (rewrite Hl3; apply Hg).
  unfold step_ok. rewrite Hlab, Hends. simpl andb.
  destruct (Z.eqb_spec (i_next i) size) as [Hsz|Hsz]; destruct Hcase as [-> Hsh];
    cbn [bStart bEnd bRegion bTerm split_terms fst snd T] in Hsh.
  - destruct (switch_cases_ok (i_off i) (i_next i) (Z.to_nat n) g3 (length ds) _ (ToLabel m) []
      0 (i_operand i + 4) cs Hcs (shape_current _ _ _ Hsh) eq_refl Hok3 Hroom3)
      as (g' & new & Hsw & Hbl & Hlay & Hgr & _).
    rewrite Hsw. cbn [mbind option_bind]. eexists _, _. split; [done|].
    rewrite Hl3 in Hgr. split; [rewrite Htg; exact (labels_grow_trans _ _ _ [_] _ Hg Hgr)|].
    destruct (Z.ltb_spec (i_next i) size); [lia|]. split; [done|].
    eexists. split; [split; [rewrite Hbl, (proj1 Hsh), insert_last; done|
                             rewrite Hlay; apply Hsh]|]. split; [done|lia].
  - set (D := Block (bStart C) (i_next i) (bRegion C) (Switch (ToBlock (S (length ds))) [])) in *.
    assert (HD : blocks g3 !! length ds = Some D).
    { rewrite (proj1 Hsh), <- app_assoc. by rewrite lookup_app_r, Nat.sub_diag by lia. }
    destruct (switch_cases_ok (i_off i) (i_next i) (Z.to_nat n) g3 (length ds) D _ []
      0 (i_operand i + 4) cs Hcs HD eq_refl Hok3 Hroom3)
      as (g' & new & Hsw & Hbl & Hlay & Hgr & HF & Hk).
    rewrite Hsw. cbn [mbind option_bind]. eexists _, _. split; [done|].
    rewrite Hl3 in Hgr. split; [rewrite Htg; exact (labels_grow_trans _ _ _ [_] _ Hg Hgr)|].
    destruct (Z.ltb_spec (i_next i) size); [|lia]. split; [done|].
    eexists _, _. split; [split; [rewrite Hbl, (proj1 Hsh), insert_mid; done|
                                  rewrite Hlay, (proj2 Hsh), !length_app; done]|].
    split; [|done]. split; [done|]. split; [done|]. unfold term_ok. simpl bTerm.
    cbn [fst snd]. rewrite Hnb, Hop. exists new. split; [done|]. split; [by rewrite Htg|].
    rewrite Hk. apply list_fmap_ext. intros k x _. lia.
Qed.

(** Instructions other than branches and switches. *)
Lemma step_other g ds C i :
  shape g ds C -> bTerm C = NoTerm -> valid_instr i -> table_ok (labels g) ->
  room (labels g) (instr_labels buf i) ->
  is_branch (i_op i) = false -> i_op i <> CEE_SWITCH -> i_op i <> CEE_ENDFINALLY ->
  exists g' b', opcode_step g (length ds) (i_op i) (Some (i_operand i))
                  (i_off i) (i_next i) = Some (g', b') /\ step_ok g ds C i g' b'.
Proof.
  intros Hs HC Hv Hok Hroom Hnb Hns Hne. pose proof (instr_range i Hv) as Hr.
  unfold phase1_opcode. unfold is_branch in Hnb. rewrite Hnb.
  pose proof (labels_grow_refl _ Hok) as Hrefl.
  assert (Hlab : i_op i <> CEE_ENDFILTER -> instr_labels buf i = []).
  { intros Hf. unfold instr_labels, is_branch. rewrite Hnb. by destruct (i_op i). }
  assert (Hthrow : i_op i = CEE_THROW \/ i_op i = CEE_RETHROW ->
    exists g' b', phase1_throw size g (length ds) (i_next i) = Some (g', b') /\
      step_ok g ds C i g' b').
  { intros Hop. destruct (end_block_step g (set_term (length ds) Unreachable g) ds C Unreachable i)
      as (g' & b' & He & _ & Hst).
    - by apply set_term_shape.
    - rewrite Hlab by (destruct Hop; congruence). done.
    - unfold ends_block. by destruct Hop as [-> | ->].
    - lia.
    - done.
    - intros _. unfold term_ok, is_branch. rewrite Hnb. by destruct Hop as [-> | ->].
    - exists g', b'. by split. }
  assert (Hjmp : forall g0 C0, shape g0 ds C0 -> labels g0 = labels g -> bStart C0 = bStart C ->
    ends_block buf i = true -> i_op i <> CEE_ENDFILTER ->
    term_ok buf (labels g) (S (length ds)) i (bTerm C0) ->
    exists g' b', phase1_jmp size g0 (length ds) (i_next i) = Some (g', b') /\
      step_ok g ds C i g' b').
  { intros g0 C0 Hs0 Hl0 Hst0 Hends Hnf Ht. unfold phase1_jmp.
    pose proof (set_end_shape g0 ds C0 (i_next i) Hs0) as Hs1.
    unfold step_ok. rewrite Hends, (Hlab Hnf). simpl andb.
    destruct (Z.ltb_spec (i_next i) size) as [Hlt|Hge].
    - eexists _, _. split; [done|]. split; [cbn; by rewrite Hl0|].
      assert (Hlen : length (blocks (fgNodeSetEndMSILOffset (length ds) (i_next i) g0)) = S (length ds))
        by (rewrite (proj1 Hs1), length_app; simpl; lia).
      split; [done|]. eexists _, _. split; [split|].
      + cbn [blocks set_layout set_blocks]. rewrite (proj1 Hs1). done.
      + cbn [layout set_layout set_blocks]. rewrite Hlen, (proj2 Hs1), length_app. simpl length.
        assert (H : insert_after (seq 0 (S (length ds))) (length ds) (S (length ds)) =
                seq 0 (S (S (length ds)))) by exact (insert_after_seq 0 (length ds)).
        rewrite H. f_equal. lia.
      + split; [|done]. split; [exact Hst0|]. split; [done|]. cbn. by rewrite Hl0.
    - eexists _, _. split; [done|]. split; [cbn; by rewrite Hl0|]. split; [done|].
      eexists. split; [exact Hs1|]. split; [exact Hst0|lia]. }
  assert (Hstay : forall g0, labels g0 = labels g -> shape g0 ds C -> ends_block buf i = false ->
    i_op i <> CEE_ENDFILTER -> exists g' b', Some (g0, length ds) = Some (g', b') /\
      step_ok g ds C i g' b').
  { intros g0 Hl0 Hs0 Hends Hnf. exists g0, (length ds). split; [done|].
    unfold step_ok. rewrite Hends, (Hlab Hnf), Hl0. simpl. split; [done|]. split; [done|].
    by exists C. }
  assert (Hnoend : match i_op i with
    | CEE_THROW | CEE_RETHROW | CEE_ENDFILTER | CEE_JMP | CEE_RET => True
    | _ => ends_block buf i = false end).
  { unfold ends_block, is_branch. rewrite Hnb. by destruct (i_op i). }
  destruct (i_op i) eqn:Hop; try done; try (by apply Hstay); try (apply Hthrow; by auto).
  - apply (Hjmp g C); try done; unfold ends_block, term_ok, is_branch; by rewrite Hop.
  - apply (Hjmp (set_term (length ds) Unreachable g)
             (Block (bStart C) (bEnd C) (bRegion C) Unreachable)); try done;
      [by apply set_term_shape|unfold ends_block, is_branch; by rewrite Hop|].
    unfold term_ok, is_branch. by rewrite Hop.
  - unfold phase1_endfilter.
    assert (Hl : instr_labels buf i = [i_next i]) by (unfold instr_labels; by rewrite Hop).
    rewrite Hl in Hroom. apply Forall_cons in Hroom as [Hr1 _].
    destruct (add_label_ok g (i_next i) Hok Hr1) as (m & t' & -> & Hg & Hm).
    cbn [mbind option_bind].
    destruct (end_block_step g (set_term (length ds) (Br (ToLabel m)) (set_labels t' g)) ds C
                (Br (ToLabel m)) i) as (g' & b' & He & _ & Hst).
    + by apply (set_term_shape (set_labels t' g)).
    + by rewrite Hl.
    + unfold ends_block. by rewrite Hop.
    + lia.
    + done.
    + intros _. unfold term_ok. rewrite Hop. by exists m.
    + exists g', b'. by split.
Qed.

Lemma step_opcode g ds C i :
  shape g ds C -> bTerm C = NoTerm -> valid_instr i -> table_ok (labels g) ->
  room (labels g) (instr_labels buf i) -> i_op i <> CEE_ENDFINALLY ->
  exists g' b', opcode_step g (length ds) (i_op i) (Some (i_operand i))
                  (i_off i) (i_next i) = Some (g', b') /\ step_ok g ds C i g' b'.
Proof.
  intros Hs HC Hv Hok Hroom Hne. destruct (is_branch (i_op i)) eqn:Hb.
  - pose proof (step_branch g ds C i Hs HC Hv Hok Hroom Hb) as H.
    unfold phase1_opcode. unfold is_branch in Hb. by rewrite Hb.
  - destruct (decide (i_op i = CEE_SWITCH)) as [Hop|Hop]; [|by apply step_other].
    pose proof (step_switch g ds C i Hs HC Hv Hok Hroom Hop) as H.
    unfold phase1_opcode. unfold is_branch in Hb. rewrite Hb. by rewrite Hop.
Qed.

Abbreviation step := (phase1_step sizes StackPop StackPush Sig valid void false Sup None buf size).

(** The state between two instructions. *)
Definition at_instr (p : phase1_state) (off : Z) (ds : list block) (N : block) : Prop :=
  shape (p1_graph p) ds N /\ table_ok (labels (p1_graph p)) /\ p1_block p = length ds /\
  p1_offset p = off /\ (off < size -> bTerm N = NoTerm).

Lemma phase1_loop l : forall off p ds N,
  il_seq sizes buf off l -> at_instr p off ds N ->
  Forall (fun i => i_op i <> CEE_ENDFINALLY) l ->
  room (labels (p1_graph p)) (flat_map (instr_labels buf) l) ->
  exists p' ds2 N', while_fuel (S (length l)) step p = Some (Some p') /\
    at_instr p' size (ds ++ ds2) N' /\
    labels_grow (labels (p1_graph p)) (labels (p1_graph p')) (flat_map (instr_labels buf) l) /\
    blocks_ok buf (labels (p1_graph p')) (length ds) (fst (cut buf (bStart N) l)) ds2 /\
    bStart N' = snd (cut buf (bStart N) l).
Proof.
  induction l as [|i l IH]; intros off p ds N Hseq Hat Hne Hroom.
  - inversion Hseq as [Hoff|]. subst off. exists p, [], N. rewrite app_nil_r.
    destruct Hat as (Hs & Hok & Hb & Ho & Ht). split.
    + cbn [while_fuel length]. unfold phase1_step. rewrite Ho. unfold code_size.
      by rewrite Z.ltb_irrefl.
    + split; [|by split; [apply labels_grow_refl|]].
      split; [exact Hs|]. split; [exact Hok|]. split; [exact Hb|]. split; [exact Ho|].
      unfold code_size. lia.
  - inversion Hseq as [|off' op operand next l' Hi Hseq' E1 E2]. subst off' l'.
    destruct Hat as (Hs & Hok & Hb & Ho & Ht). apply Forall_cons in Hne as [Hne Hnes].
    set (j := ILInstr off op operand next) in *.
    assert (Hv : valid_instr j) by exact Hi.
    pose proof (instr_range j Hv) as Hr. cbn [i_off i_operand i_next j] in Hr.
    cbn [flat_map] in Hroom. subst i. apply Forall_app in Hroom as [Hr1 Hr2].
    destruct (step_opcode (p1_graph p) ds N j Hs (Ht ltac:(lia)) Hv Hok Hr1 Hne)
      as (g' & b' & Hst & Hgr & Hcase).
    cbn [i_off i_op i_operand i_next j] in Hst.
    set (p1 := Phase1 g' b' next (p1_region p) (p1_transition p) (is_prefix op) (p1_stack p) op).
    assert (Hstep : step p = inl p1).
    { unfold phase1_step. rewrite Ho. destruct (Z.ltb_spec off size); [|lia].
      unfold phase1_region. cbn [mbind option_bind]. rewrite Ho.
      pose proof (parse_complete sizes Hsizes buf off op operand next true true Hbuf Hi) as Hpe.
      fold (code_size buf) in Hpe. rewrite Hpe.
      cbn [mbind option_bind p_report p_opcode p_operand p_next andb].
      rewrite Hb, Hst. cbn [mbind option_bind]. unfold phase1_gv. done. }
    assert (Hnext : exists ds1 N1, at_instr p1 next (ds ++ ds1) N1 /\
      bStart N1 = (if ends_block buf j && (next <? size) then next else bStart N) /\
      blocks_ok buf (labels g') (length ds)
        (if ends_block buf j && (next <? size) then [(bStart N, j)] else []) ds1).
    { cbn [i_next j] in Hcase. destruct (ends_block buf j && (next <? size)) eqn:E.
      - destruct Hcase as (-> & D & N1 & Hs1 & HD & HN1 & HT1). exists [D], N1. split.
        + split; [exact Hs1|]. split; [apply Hgr|]. split; [|by split].
          rewrite length_app. simpl. lia.
        + split; [exact HN1|]. by split.
      - destruct Hcase as (-> & N1 & Hs1 & HN1 & HT1). exists [], N1. rewrite app_nil_r. split.
        + split; [exact Hs1|]. split; [apply Hgr|]. split; [done|]. split; [done|].
          intros Hlt. rewrite HT1 by done. apply Ht. lia.
        + split; [exact HN1|done]. }
    destruct Hnext as (ds1 & N1 & Hat1 & HN1 & Hb1).
    destruct (IH next p1 (ds ++ ds1) N1 Hseq' Hat1 Hnes) as (p' & ds2 & N' & Hrun & Hat' & Hgr2 & Hb2 & HN').
    { eapply Forall_impl; [exact Hr2|]. intros o. by apply (label_room_grow (labels (p1_graph p)) _ _ o Hgr). }
    exists p', (ds1 ++ ds2), N'. split.
    { cbn [length while_fuel]. rewrite Hstep. exact Hrun. }
    rewrite app_assoc. split; [exact Hat'|]. split; [exact (labels_grow_trans _ _ _ _ _ Hgr Hgr2)|].
    cbn [cut]. change (i_next j) with next. rewrite HN1 in Hb2, HN'.
    destruct (ends_block buf j && (next <? size)) eqn:E.
    + destruct (cut buf next l) as [bs last]. cbn [fst snd] in *. split; [|exact HN'].
      destruct ds1 as [|D [|]]; cbn [blocks_ok] in Hb1; try tauto.
      destruct Hb1 as [HD _]. cbn [app blocks_ok]. split.
      * destruct HD as (H1 & H2 & H3). split; [done|]. split; [done|].
        by apply (term_ok_grow buf (labels g') _ (flat_map (instr_labels buf) l)).
      * rewrite length_app in Hb2. simpl in Hb2.
        by replace (length ds + 1)%nat with (S (length ds)) in Hb2 by lia.
    + destruct ds1; [|done]. rewrite app_nil_r in Hb2. by split.
Qed.

End Step.

(** ** Properties *)

Lemma build_phase1_spec (sizes StackPop StackPush : OPCODE -> Z)
    (Sig : OPCODE -> Z -> Z * bool * bool) (valid : Z -> bool) (void Sup : bool)
    (buf : list Z) (l : list il_instr) (g : flow_graph) (B0 : block) :
  sizes_ok sizes -> branch_sizes sizes -> il_ok buf -> il_seq sizes buf 0 l ->
  Forall (fun i => i_op i <> CEE_ENDFINALLY) l ->
  blocks g = [B0] -> layout g = [0%nat] -> bStart B0 = 0 -> bTerm B0 = NoTerm ->
  table_ok (labels g) -> room (labels g) (flat_map (instr_labels buf) l) ->
  exists g' ds N,
    fgBuildPhase1 sizes StackPop StackPush Sig valid void false Sup None buf (code_size buf)
      (S (length l)) g 0 = Some (Some g') /\
    blocks g' = ds ++ [N] /\ layout g' = seq 0 (S (length ds)) /\
    blocks_ok buf (labels g') 0 (fst (cut buf 0 l)) ds /\
    bStart N = snd (cut buf 0 l) /\ bEnd N = code_size buf /\
    labels_grow (labels g) (labels g') (flat_map (instr_labels buf) l).
Proof.
  intros Hs Hbr Hbuf Hseq Hne Hb Hlay HB0 HT Hok Hroom.
  set (p0 := phase1_init false None (code_size buf) g 0).
  assert (Hat : at_instr buf p0 0 [] B0) by (by split_and!).
  destruct (phase1_loop sizes StackPop StackPush Sig valid void Sup Hs Hbr buf Hbuf l 0 p0 [] B0
              Hseq Hat Hne Hroom) as (p' & ds & N & Hrun & (Hsh & _ & Hbl & Ho & _) & Hg & Hbo & HN).
  unfold fgBuildPhase1. fold p0. rewrite Hrun. simpl option_map.
  eexists _, ds, _. split; [done|].
  destruct (set_end_shape (p1_graph p') ds N (code_size buf) Hsh) as [H1 H2].
  unfold phase1_finish. cbn [andb]. rewrite Hbl, Ho.
  split; [exact H1|]. split; [exact H2|]. rewrite HB0 in *. by split_and!.
Qed.

(** [fgBuildPhase1] is total and correct on every well-formed body without
    exception clauses whose branch targets fit the label table: it stops within
    one iteration per instruction; its blocks are, in layout order, exactly the
    pieces of the code cut after each block-ending instruction, each with the
    terminator of that instruction (labels for its targets, the next block as its
    fall-through); and the label table holds exactly the old labels and the
    targets of the body's branches. *)
Theorem fgBuildPhase1_correct (sizes StackPop StackPush : OPCODE -> Z)
    (Sig : OPCODE -> Z -> Z * bool * bool) (valid : Z -> bool) (void Sup : bool)
    (buf : list Z) (l : list il_instr) (g : flow_graph) (B0 : block) :
  sizes_ok sizes -> branch_sizes sizes -> il_ok buf -> il_seq sizes buf 0 l ->
  Forall (fun i => i_op i <> CEE_ENDFINALLY) l ->
  blocks g = [B0] -> layout g = [0%nat] -> bStart B0 = 0 -> bTerm B0 = NoTerm ->
  table_ok (labels g) -> room (labels g) (flat_map (instr_labels buf) l) ->
  exists g' ds N,
    fgBuildPhase1 sizes StackPop StackPush Sig valid void false Sup None buf (code_size buf)
      (S (length l)) g 0 = Some (Some g') /\
    blocks g' = ds ++ [N] /\ layout g' = seq 0 (S (length ds)) /\
    blocks_ok buf (labels g') 0 (fst (cut buf 0 l)) ds /\
    bStart N = snd (cut buf 0 l) /\ bEnd N = code_size buf /\
    labels_grow (labels g) (labels g') (flat_map (instr_labels buf) l).
Proof. apply build_phase1_spec. Qed.

(** ldarg.0; brtrue.s L; ret; L: ret *)
Definition demo_branch : list Z := [0x02; 0x2D; 1; 0x2A; 0x2A].
Definition demo_branch_instrs : list il_instr :=
  [ILInstr 0 CEE_LDARG_0 1 1; ILInstr 1 CEE_BRTRUE_S 2 3; ILInstr 3 CEE_RET 4 4;
   ILInstr 4 CEE_RET 5 5].

Definition demo_graph (size : Z) : flow_graph :=
  FlowGraph [Block 0 0 None NoTerm] [0%nat] (empty_table size) (LeaveState ∅ [] ∅ []) [] []
    (BV [] 0) [] [] false false.

Lemma demo_branch_seq : il_seq ecma_operand_size demo_branch 0 demo_branch_instrs.
Proof.
  assert (Hi : forall off b op operand len,
    byte_at demo_branch off = Some b -> b <> 0xFE -> ByteCodes !! Z.to_nat b = Some op ->
    op <> CEE_ILLEGAL -> operand = off + 1 ->
    operand_length ecma_operand_size op demo_branch operand = Some len ->
    operand + len <= 5 -> instr_at ecma_operand_size demo_branch off op operand (operand + len)).
  { intros off b op operand len H1 H2 H3 H4 -> H5 H6. apply instr_intro; [|done|done].
    by eapply opcode_short. }
  unfold demo_branch_instrs.
  apply il_seq_cons; [by apply (Hi 0 2 CEE_LDARG_0 1 0)|].
  apply il_seq_cons; [by apply (Hi 1 45 CEE_BRTRUE_S 2 1)|].
  apply il_seq_cons; [by apply (Hi 3 42 CEE_RET 4 0)|].
  apply il_seq_cons; [by apply (Hi 4 42 CEE_RET 5 0)|].
  apply il_seq_end.
Qed.

Lemma ecma_branch_sizes : branch_sizes ecma_operand_size.
Proof. by intros []. Qed.

Lemma fgBuildPhase1_correct_witness :
  exists g' ds N,
    fgBuildPhase1 ecma_operand_size (fun _ => 0) (fun _ => 0) (fun _ _ => (0, false, true))
      (fun _ => true) true false false None demo_branch 5 5 (demo_graph 5) 0 = Some (Some g') /\
    blocks g' = ds ++ [N] /\ length ds = 2%nat /\ bStart N = 4.
Proof.
  destruct (fgBuildPhase1_correct ecma_operand_size (fun _ => 0) (fun _ => 0)
    (fun _ _ => (0, false, true)) (fun _ => true) true false demo_branch demo_branch_instrs
    (demo_graph 5) (Block 0 0 None NoTerm) ecma_sizes_ok ecma_branch_sizes)
    as (g' & ds & N & Hrun & Hb & _ & Hbo & HN & _).
  - split; [decide_now|vm_compute; reflexivity].
  - exact demo_branch_seq.
  - decide_now.
  - reflexivity.
  - reflexivity.
  - reflexivity.
  - reflexivity.
  - apply empty_table_ok.
  - repeat constructor; vm_compute; congruence.
  - exists g', ds, N. split; [exact Hrun|]. split; [exact Hb|].
    vm_compute in Hrun. injection Hrun as <-. simpl in Hb. split; [|exact HN].
    apply (f_equal length) in Hb. rewrite length_app in Hb. simpl in Hb. lia.
Defined.
