(* ===== verification/Phase2.v ===== *)
(** * Correctness of the second flow-graph pass

    [fgReplaceBranchTargets] splits the blocks at the label offsets and
    replaces every label node by the block that starts there. *)

From S2P Require Import Prelude Opcodes NodeTable Leave FlowGraph Phase1.
Import ReaderBaseNS.

(** ** Partitions of the code *)

Definition span (g : flow_graph) (b : nat) : option (Z * Z) :=
  (fun B => (bStart B, bEnd B)) <$> blocks g !! b.

(** The listed blocks are not empty and follow each other from [a] to [z]. *)
Fixpoint covers (g : flow_graph) (ids : list nat) (a z : Z) : Prop :=
  match ids with
  | [] => a = z
  | b :: ids' => exists e, span g b = Some (a, e) /\ a < e /\ covers g ids' e z
  end.

Definition partition (g : flow_graph) (size : Z) : Prop :=
  NoDup (layout g) /\ covers g (layout g) 0 size.

Lemma covers_ext g g' ids a z :
  (forall b, b ∈ ids -> span g' b = span g b) -> covers g ids a z -> covers g' ids a z.
Proof.
  revert a. induction ids as [|b ids IH]; intros a Hs H; simpl in *; [done|].
  destruct H as (e & Hb & Hlt & H). exists e. rewrite Hs by constructor.
  split_and!; [done..|]. apply IH; [|done]. intros c Hc. apply Hs. by constructor.
Qed.

Lemma covers_le g ids a z : covers g ids a z -> a <= z.
Proof.
  revert a. induction ids as [|b ids IH]; intros a; simpl; [lia|].
  intros (e & _ & ? & H). apply IH in H. lia.
Qed.

Lemma covers_app g ids1 ids2 a z :
  covers g (ids1 ++ ids2) a z <-> exists m, covers g ids1 a m /\ covers g ids2 m z.
Proof.
  revert a. induction ids1 as [|b ids IH]; intros a; simpl.
  - split; [eauto|]. by intros (m & -> & H).
  - split.
    + intros (e & H1 & H2 & (m & H3 & H4)%IH). eauto 6.
    + intros (m & (e & H1 & H2 & H3) & H4). exists e. split_and!; [done..|]. apply IH. eauto.
Qed.

(** ** Terminators *)

(** Control from block [b] falls through split-off blocks to terminator [t],
    whose block ends at [e]. *)
Inductive runs_to (g : flow_graph) (t : terminator) (e : Z) : nat -> Prop :=
  | runs_here b B : blocks g !! b = Some B -> bTerm B = t -> bEnd B = e -> runs_to g t e b
  | runs_on b B c C : blocks g !! b = Some B -> bTerm B = Br (ToBlock c) ->
      blocks g !! c = Some C -> bStart C = bEnd B -> runs_to g t e c -> runs_to g t e b.

(** Resolving several labels. *)
Definition subst_term (s : list (nat * nat)) (t : terminator) : terminator :=
  foldl (fun t '(n, b) => replace_term n b t) t s.

Lemma subst_term_snoc s n b t : subst_term (s ++ [(n, b)]) t = replace_term n b (subst_term s t).
Proof. unfold subst_term. by rewrite foldl_app. Qed.

(** What has become of the blocks of [g]: every block keeps its start and
    region and still runs to its own terminator, with the labels resolved. *)
Definition evolves (g g' : flow_graph) (s : list (nat * nat)) : Prop :=
  forall b B, blocks g !! b = Some B ->
    (exists B', blocks g' !! b = Some B' /\ bStart B' = bStart B /\ bRegion B' = bRegion B) /\
    runs_to g' (subst_term s (bTerm B)) (bEnd B) b.

(** ** One split *)

Lemma insert_after_mid pre b post new :
  b ∉ pre -> insert_after (pre ++ b :: post) b new = pre ++ b :: new :: post.
Proof.
  induction pre as [|x pre IH]; intros Hb; simpl.
  - by rewrite Nat.eqb_refl.
  - apply not_elem_of_cons in Hb as [Hx Hb].
    destruct (Nat.eqb_spec x b); [by subst|]. by rewrite IH.
Qed.

Lemma layout_from_mid pre b post : b ∉ pre -> layout_from (pre ++ b :: post) b = b :: post.
Proof.
  induction pre as [|x pre IH]; intros Hb; simpl.
  - by rewrite Nat.eqb_refl.
  - apply not_elem_of_cons in Hb as [Hx Hb].
    destruct (Nat.eqb_spec x b); [by subst|]. by rewrite IH.
Qed.

(** The graph after splitting [b] at [o]. *)
Definition split_graph (g : flow_graph) (b : nat) (B : block) (o : Z) (l : list nat)
    : flow_graph :=
  set_layout (fun _ => l)
    (set_blocks (fun bs =>
       <[b := Block (bStart B) o (bRegion B) (Br (ToBlock (length bs)))]> bs ++
       [Block o (bEnd B) (bRegion B) (bTerm B)]) g).

Lemma split_at_inst size g b B o pre post :
  blocks g !! b = Some B -> layout g = pre ++ b :: post -> b ∉ pre -> o < size ->
  fgSplitBlock size g b o (has_insert_node g B) =
    Some (split_graph g b B o (pre ++ b :: length (blocks g) :: post), length (blocks g)).
Proof.
  intros HB Hl Hni Ho. unfold fgSplitBlock. rewrite HB. cbn [mbind option_bind].
  replace (negb (has_insert_node g B) && (o =? size)) with false
    by (destruct (Z.eqb_spec o size); [lia|by rewrite andb_false_r]).
  assert (Hlen : length (blocks (fgNodeSetEndMSILOffset b o g)) = length (blocks g))
    by (cbn; apply length_alter).
  rewrite Hlen.
  assert (Ht : split_terms (bTerm B) (has_insert_node g B) (length (blocks g)) =
    (Br (ToBlock (length (blocks g))), bTerm B)).
  { unfold split_terms, has_insert_node. destruct (ContinuationStoreMap (leaves g) !! bEnd B);
      [done|]. by destruct (bTerm B). }
  rewrite Ht. f_equal. f_equal. unfold split_graph, set_layout, set_blocks, set_term,
    fgNodeSetEndMSILOffset. cbn. rewrite Hl, insert_after_mid by done. f_equal. f_equal.
  rewrite (alter_as_insert _ b (blocks g) B HB).
  rewrite (alter_as_insert _ b _ (Block (bStart B) o (bRegion B) (bTerm B)))
    by (apply list_lookup_insert_eq; by eapply lookup_lt_Some).
  by rewrite list_insert_insert_eq.
Qed.

Lemma split_lookup g b B o l c C :
  blocks g !! b = Some B -> blocks g !! c = Some C ->
  blocks (split_graph g b B o l) !! c =
    Some (if decide (c = b) then Block (bStart B) o (bRegion B) (Br (ToBlock (length (blocks g))))
          else C).
Proof.
  intros HB HC. apply lookup_lt_Some in HC as Hlt, HB as Hltb. cbn [split_graph blocks set_layout set_blocks].
  rewrite lookup_app_l by (by rewrite length_insert). case_decide as Hd.
  - subst. by apply list_lookup_insert_eq.
  - by rewrite list_lookup_insert_ne.
Qed.

Lemma split_lookup_new g b B o l :
  blocks (split_graph g b B o l) !! length (blocks g) =
    Some (Block o (bEnd B) (bRegion B) (bTerm B)).
Proof.
  cbn [split_graph blocks set_layout set_blocks].
  rewrite lookup_app_r by (rewrite length_insert; lia).
  by rewrite length_insert, Nat.sub_diag.
Qed.

Lemma runs_to_split g b B o l t e c :
  blocks g !! b = Some B -> runs_to g t e c -> runs_to (split_graph g b B o l) t e c.
Proof.
  intros HB. induction 1 as [c C HC Ht He|c C d D HC Ht HD Hs _ IH].
  - destruct (decide (c = b)) as [->|Hne].
    + rewrite HB in HC. injection HC as <-.
      eapply runs_on; [by rewrite (split_lookup _ _ _ _ _ b B HB HB), decide_True by done|done
        |apply split_lookup_new|done|].
      by eapply runs_here; [apply split_lookup_new|..].
    + eapply runs_here; [rewrite (split_lookup _ _ _ _ _ c C HB HC), decide_False by done|..]; done.
  - assert (HD' : exists D', blocks (split_graph g b B o l) !! d = Some D' /\ bStart D' = bStart D).
    { rewrite (split_lookup _ _ _ _ _ d D HB HD). eexists. split; [done|].
      case_decide; [|done]. subst. rewrite HB in HD. by injection HD as <-. }
    destruct HD' as (D' & HD' & HsD). destruct (decide (c = b)) as [->|Hne].
    + rewrite HB in HC. injection HC as <-.
      eapply runs_on; [by rewrite (split_lookup _ _ _ _ _ b B HB HB), decide_True by done|done
        |apply split_lookup_new|done|].
      eapply runs_on; [apply split_lookup_new|exact Ht|exact HD'|simpl; congruence|done].
    + eapply runs_on; [rewrite (split_lookup _ _ _ _ _ c C HB HC), decide_False by done; done
        |exact Ht|exact HD'|congruence|done].
Qed.

Lemma replace_lookup g n b c :
  blocks (replaceFlowGraphNodeUses g n b) !! c =
    (fun B => Block (bStart B) (bEnd B) (bRegion B) (replace_term n b (bTerm B))) <$> blocks g !! c.
Proof. cbn. by rewrite list_lookup_fmap. Qed.

Lemma runs_to_replace g n b t e c :
  runs_to g t e c -> runs_to (replaceFlowGraphNodeUses g n b) (replace_term n b t) e c.
Proof.
  induction 1 as [c C HC Ht He|c C d D HC Ht HD Hs _ IH].
  - eapply runs_here; [rewrite replace_lookup, HC; done|by rewrite <- Ht|done].
  - eapply runs_on; [rewrite replace_lookup, HC; done|cbn; by rewrite Ht
      |rewrite replace_lookup, HD; done|done|done].
Qed.

Lemma span_replace g n b c : span (replaceFlowGraphNodeUses g n b) c = span g c.
Proof. unfold span. rewrite replace_lookup. by destruct (blocks g !! c). Qed.

(** ** One label *)

Definition mentions_target (n : nat) (t : flow_target) : Prop := t = ToLabel n.

Definition mentions (n : nat) (t : terminator) : Prop :=
  match t with
  | Br c => mentions_target n c
  | CondBr c f => mentions_target n c \/ exists d, f = Some d /\ mentions_target n d
  | Switch d cases => mentions_target n d \/ exists c, c ∈ cases /\ mentions_target n (snd c)
  | _ => False
  end.

Definition free_of (g : flow_graph) (n : nat) : Prop :=
  forall b B, blocks g !! b = Some B -> ~ mentions n (bTerm B).

Lemma replace_target_mentions n b m t :
  mentions_target m (replace_target n b t) -> m <> n /\ mentions_target m t.
Proof.
  unfold mentions_target. destruct t as [k|k]; simpl; [|done].
  destruct (Nat.eqb_spec k n); [done|]. intros [= ->]. done.
Qed.

Lemma replace_term_mentions n b m t : mentions m (replace_term n b t) -> m <> n /\ mentions m t.
Proof.
  destruct t as [| |c|c f|d cases|]; simpl; try done.
  - apply replace_target_mentions.
  - intros [H|(x & Hx & H)].
    + destruct (replace_target_mentions _ _ _ _ H). auto.
    + destruct f as [y|]; simplify_eq/=. destruct (replace_target_mentions _ _ _ _ H). eauto.
  - intros [H|(x & Hx & H)].
    + destruct (replace_target_mentions _ _ _ _ H). auto.
    + apply list_elem_of_fmap in Hx as ([v y] & -> & Hy).
      destruct (replace_target_mentions _ _ _ _ H). split; [done|]. right. by exists (v, y).
Qed.

Lemma free_of_replace g n b m : m = n \/ free_of g m -> free_of (replaceFlowGraphNodeUses g n b) m.
Proof.
  intros Hor c C HC Hm. rewrite replace_lookup in HC.
  destruct (blocks g !! c) as [D|] eqn:E; simplify_eq/=.
  destruct (replace_term_mentions _ _ _ _ Hm) as [Hne Hm'].
  destruct Hor as [->|Hf]; [done|]. by apply (Hf c D).
Qed.

Lemma free_of_split g b B o l m :
  blocks g !! b = Some B -> free_of g m -> free_of (split_graph g b B o l) m.
Proof.
  intros HB Hf c C HC Hm. destruct (decide (c = length (blocks g))) as [->|Hne].
  - rewrite split_lookup_new in HC. injection HC as <-. by apply (Hf b B).
  - destruct (blocks g !! c) as [D|] eqn:E.
    + rewrite (split_lookup _ _ _ _ _ c D HB E) in HC. injection HC as <-.
      case_decide; [done|]. by apply (Hf c D).
    + apply lookup_ge_None in E. apply lookup_lt_Some in HC.
      cbn in HC. rewrite length_app, length_insert in HC. simpl in HC. lia.
Qed.

Lemma span_lookup g b s e : span g b = Some (s, e) ->
  exists B, blocks g !! b = Some B /\ bStart B = s /\ bEnd B = e.
Proof. unfold span. destruct (blocks g !! b) as [B|]; [|done]. intros [= <- <-]. eauto. Qed.

(** Everything one call keeps and establishes. *)
Record step_done (size : Z) (g g' : flow_graph) (o : Z) (n b : nat) : Prop := {
  sd_partition : partition g' size;
  sd_layout : exists pre post, layout g' = pre ++ b :: post /\ covers g' (b :: post) o size;
  sd_evolves : evolves g g' [(n, b)];
  sd_start : exists B, blocks g' !! b = Some B /\ bStart B = o;
  sd_free : forall m, m = n \/ free_of g m -> free_of g' m }.

Lemma evolves_split_replace g b B o l n c :
  blocks g !! b = Some B ->
  evolves g (replaceFlowGraphNodeUses (split_graph g b B o l) n c) [(n, c)].
Proof.
  intros HB x X HX. split.
  - rewrite replace_lookup, (split_lookup _ _ _ _ _ x X HB HX). eexists. split; [done|].
    case_decide; [|done]. subst. rewrite HB in HX. by injection HX as <-.
  - apply runs_to_replace, runs_to_split; [done|]. by eapply runs_here.
Qed.

Lemma span_split g b B o l c : blocks g !! b = Some B -> c <> b -> is_Some (span g c) ->
  span (split_graph g b B o l) c = span g c.
Proof.
  intros HB Hne [[s e] Hc]. destruct (span_lookup _ _ _ _ Hc) as (C & HC & <- & <-).
  unfold span. by rewrite (split_lookup _ _ _ _ _ c C HB HC), decide_False, HC by done.
Qed.

Lemma covers_span g ids a z c : covers g ids a z -> c ∈ ids -> is_Some (span g c).
Proof.
  revert a. induction ids as [|b ids IH]; intros a; simpl; [by intros _ H%elem_of_nil|].
  intros (e & Hb & _ & H) [->|Hc]%elem_of_cons; [by rewrite Hb|by eapply IH].
Qed.

Lemma replace_split size g pre b post B s e o n :
  NoDup (pre ++ b :: post) -> layout g = pre ++ b :: post ->
  covers g pre 0 s -> blocks g !! b = Some B -> bStart B = s -> bEnd B = e ->
  s < o < e -> covers g post e size ->
  step_done size g
    (replaceFlowGraphNodeUses
       (split_graph g b B o (pre ++ b :: length (blocks g) :: post)) n (length (blocks g)))
    o n (length (blocks g)).
Proof.
  intros Hnd Hl Hpre HB Hs He Ho Hpost. set (new := length (blocks g)).
  set (g' := replaceFlowGraphNodeUses _ _ _).
  assert (Hlay : layout g' = pre ++ b :: new :: post) by done.
  apply NoDup_app in Hnd as (Hnd1 & Hdis & Hnd2). apply NoDup_cons in Hnd2 as [Hb Hnd2].
  assert (Hvalid : forall c, c ∈ pre \/ c ∈ post -> is_Some (span g c) /\ c <> b /\ c <> new).
  { intros c Hc. assert (Hsp : is_Some (span g c)).
    { destruct Hc as [Hc|Hc];
        [exact (covers_span _ _ _ _ _ Hpre Hc)|exact (covers_span _ _ _ _ _ Hpost Hc)]. }
    split_and!; [done| |].
    - intros ->. destruct Hc as [Hc|Hc]; [|done]. apply (Hdis b Hc). constructor.
    - intros ->. destruct Hsp as [[? ?] (C & HC & _)%span_lookup].
      apply lookup_lt_Some in HC. unfold new in HC. lia. }
  assert (Hkeep : forall c, c ∈ pre \/ c ∈ post -> span g' c = span g c).
  { intros c Hc. destruct (Hvalid c Hc) as (? & ? & ?). unfold g'.
    by rewrite span_replace, (span_split _ _ _ _ _ _ HB) by done. }
  assert (Hb' : span g' b = Some (s, o)).
  { unfold g'. rewrite span_replace. unfold span.
    by rewrite (split_lookup _ _ _ _ _ b B HB HB), decide_True, <- Hs by done. }
  assert (Hn' : span g' new = Some (o, e)).
  { unfold g'. rewrite span_replace. unfold span, new. by rewrite split_lookup_new, <- He. }
  assert (Hc2 : covers g' (new :: post) o size).
  { exists e. split_and!; [done|lia|]. eapply covers_ext; [|done]. intros c Hc. apply Hkeep. auto. }
  split.
  - split; rewrite Hlay.
    + apply NoDup_app. split_and!; [done| |].
      * intros c Hc. rewrite !not_elem_of_cons. destruct (Hvalid c (or_introl Hc)) as (_ & ? & ?).
        split_and!; [done..|]. intros Hc'. apply (Hdis c Hc). by constructor.
      * apply NoDup_cons. split.
        -- rewrite not_elem_of_cons. split; [|done]. intros ->. apply lookup_lt_Some in HB.
           unfold new in HB. lia.
        -- apply NoDup_cons. split; [|done]. intros Hc.
           by destruct (Hvalid new (or_intror Hc)) as (_ & _ & ?).
    + apply covers_app. exists s. split.
      * eapply covers_ext; [|done]. intros c Hc. apply Hkeep. auto.
      * exists o. split_and!; [done|lia|done].
  - exists (pre ++ [b]), post. rewrite Hlay, <- app_assoc. done.
  - by apply evolves_split_replace.
  - destruct (span_lookup _ _ _ _ Hn') as (N & HN & HsN & _). eauto.
  - intros m Hm. apply free_of_replace. destruct Hm; [by left|right]. by apply free_of_split.
Qed.

Lemma replace_whole size g pre b post B o n :
  partition g size -> layout g = pre ++ b :: post ->
  blocks g !! b = Some B -> bStart B = o -> covers g (b :: post) o size ->
  step_done size g (replaceFlowGraphNodeUses g n b) o n b.
Proof.
  intros [Hnd Hcov] Hl HB Hs Hc. split.
  - split; [done|]. eapply covers_ext; [|exact Hcov]. intros c _. apply span_replace.
  - exists pre, post. split; [done|]. eapply covers_ext; [|exact Hc]. intros c _. apply span_replace.
  - intros x X HX. split.
    + rewrite replace_lookup, HX. by eexists.
    + by eapply runs_to_replace, runs_here.
  - rewrite replace_lookup, HB. by eexists.
  - intros m Hm. by apply free_of_replace.
Qed.

Lemma replace_from_spec size g o n l : forall pre s,
  partition g size -> layout g = pre ++ l -> covers g pre 0 s -> covers g l s size ->
  s <= o < size ->
  exists g' b, replace_from size g l o n = Some (g', Some b) /\ step_done size g g' o n b.
Proof.
  induction l as [|b l IH]; intros pre s Hp Hl Hpre Hcov Ho; cbn [covers] in Hcov; [lia|].
  pose proof Hcov as (e & Hb & Hlt & Hrest). destruct (span_lookup _ _ _ _ Hb) as (B & HB & Hs & He).
  cbn [replace_from]. rewrite HB. cbn [mbind option_bind]. rewrite Hs, He.
  destruct Hp as [Hnd Hcv]. assert (Hni : b ∉ pre).
  { rewrite Hl in Hnd. apply NoDup_app in Hnd as (_ & Hdis & _). intros Hin.
    apply (Hdis b Hin). constructor. }
  destruct (Z.leb_spec s o); [|lia]. destruct (Z.ltb_spec o e) as [Hin|Hout]; simpl andb.
  - destruct (Z.eqb_spec o s) as [->|Hne]; cbn [mbind option_bind].
    + eexists _, _. split; [done|]. apply (replace_whole size g pre b l B s n); [by split|done|done|done|exact Hcov].
    + rewrite (split_at_inst size g b B o pre l HB Hl Hni) by lia. cbn [mbind option_bind].
      eexists _, _. split; [done|]. rewrite Hl in Hnd.
      apply (replace_split size g pre b l B s e o n); try done. lia.
  - apply (IH (pre ++ [b]) e); [by split|by rewrite <- app_assoc| |done|lia].
    apply covers_app. exists s. split; [done|]. by exists e.
Qed.

(** ** All labels *)

Lemma runs_to_trans g c t e1 e b C :
  runs_to g (Br (ToBlock c)) e1 b -> blocks g !! c = Some C -> bStart C = e1 ->
  runs_to g t e c -> runs_to g t e b.
Proof.
  induction 1 as [b B HB Ht He|b B d D HB Ht HD Hs _ IH]; intros HC Hs' Hr.
  - eapply runs_on; [done|exact Ht|exact HC|congruence|done].
  - eapply runs_on; [done|exact Ht|exact HD|done|by apply IH].
Qed.

Lemma subst_term_block s c : subst_term s (Br (ToBlock c)) = Br (ToBlock c).
Proof. unfold subst_term. by induction s as [|[n b] s IH]. Qed.

Lemma runs_to_evolves g g' s t e b :
  evolves g g' s -> runs_to g t e b -> runs_to g' (subst_term s t) e b.
Proof.
  intros Hev. induction 1 as [b B HB Ht He|b B d D HB Ht HD Hs _ IH].
  - subst. by apply Hev.
  - destruct (Hev b B HB) as [_ Hr]. rewrite Ht, subst_term_block in Hr.
    destruct (Hev d D HD) as [(D' & HD' & HsD & _) _].
    eapply runs_to_trans; [exact Hr|exact HD'|congruence|exact IH].
Qed.

Lemma evolves_trans g1 g2 g3 s n b :
  evolves g1 g2 s -> evolves g2 g3 [(n, b)] -> evolves g1 g3 (s ++ [(n, b)]).
Proof.
  intros H1 H2 x X HX. destruct (H1 x X HX) as [(X2 & HX2 & Hs & Hr) Hrun].
  destruct (H2 x X2 HX2) as [(X3 & HX3 & Hs' & Hr') _]. split.
  - exists X3. split_and!; congruence.
  - rewrite subst_term_snoc. by apply (runs_to_evolves g2 g3 [(n, b)]).
Qed.

(** The blocks that replaced the labels start at the labels' offsets. *)
Definition resolved (g : flow_graph) (entry : Z * nat) (r : nat * nat) : Prop :=
  fst r = snd entry /\ exists B, blocks g !! snd r = Some B /\ bStart B = fst entry.

Lemma resolved_evolves g g' s entry r : evolves g g' s -> resolved g entry r -> resolved g' entry r.
Proof.
  intros Hev [H1 (B & HB & Hs)]. split; [done|].
  destruct (Hev _ B HB) as [(B' & HB' & Hs' & _) _]. exists B'. split; [done|congruence].
Qed.

Lemma partition_suffix g size pre b post o :
  partition g size -> layout g = pre ++ b :: post -> covers g (b :: post) o size ->
  covers g pre 0 o.
Proof.
  intros [_ Hc] Hl Hs. rewrite Hl in Hc. apply covers_app in Hc as (m & Hpre & Hm).
  enough (m = o) by (by subst). simpl in Hm, Hs.
  destruct Hm as (e & H1 & _), Hs as (e' & H2 & _). congruence.
Qed.

Lemma replace_all_spec size g0 entries : forall g s done_ es b,
  partition g size -> evolves g0 g s -> Forall2 (resolved g) es s ->
  (forall n, n ∈ es.*2 -> free_of g n) ->
  StronglySorted Z.lt entries.*1 -> Forall (fun o => done_ <= o < size) entries.*1 ->
  match b with
  | None => done_ = 0
  | Some b => exists pre post, layout g = pre ++ b :: post /\ covers g (b :: post) done_ size
  end ->
  exists g' s', replace_all size g entries b = Some g' /\
    partition g' size /\ evolves g0 g' (s ++ s') /\ Forall2 (resolved g') (es ++ entries) (s ++ s') /\
    (forall n, n ∈ (es ++ entries).*2 -> free_of g' n).
Proof.
  induction entries as [|[o n] entries IH]; intros g s done_ es b Hp Hev Hres Hfree Hsort Hrange Hb.
  { exists g, []. rewrite !app_nil_r. done. }
  simpl in Hsort, Hrange. apply StronglySorted_inv in Hsort as [Hsort Hlt].
  apply Forall_cons in Hrange as [Ho Hrange].
  assert (Hstep : exists g' b', fgReplaceBranchTarget size g o n b = Some (g', Some b') /\
    step_done size g g' o n b').
  { unfold fgReplaceBranchTarget. destruct b as [b|].
    - destruct Hb as (pre & post & Hl & Hc).
      assert (Hni : b ∉ pre).
      { destruct Hp as [Hnd _]. rewrite Hl in Hnd. apply NoDup_app in Hnd as (_ & Hdis & _).
        intros Hin. apply (Hdis b Hin). constructor. }
      rewrite Hl, layout_from_mid by done.
      apply (replace_from_spec size g o n (b :: post) pre done_); try done.
      by eapply partition_suffix.
    - subst. apply (replace_from_spec size g o n (layout g) [] 0); try done. apply Hp. }
  destruct Hstep as (g' & b' & Heq & [Hp' (pre & post & Hl' & Hc') Hev' Hst' Hfr']).
  cbn [replace_all]. rewrite Heq. cbn [mbind option_bind].
  destruct (IH g' (s ++ [(n, b')]) o (es ++ [(o, n)]) (Some b')) as (g2 & s2 & -> & H1 & H2 & H3 & H4).
  - done.
  - by apply (evolves_trans g0 g g').
  - apply Forall2_app; [|by repeat constructor].
    eapply Forall2_impl; [exact Hres|]. intros x y. by apply resolved_evolves with (1 := Hev').
  - intros m Hm. apply Hfr'. rewrite fmap_app, elem_of_app in Hm. simpl in Hm.
    destruct Hm as [Hm|[->|Hm%elem_of_nil]%elem_of_cons]; [right; by apply Hfree|by left|done].
  - done.
  - rewrite Forall_forall in *. intros x Hx. specialize (Hlt x Hx). specialize (Hrange x Hx). lia.
  - by exists pre, post.
  - exists g2, ((n, b') :: s2). rewrite <- !app_assoc in H2, H3. rewrite <- app_assoc in H3, H4. done.
Qed.

Lemma concat_sorted (L : list (list (Z * nat))) (k : Z) :
  (forall i l, L !! i = Some l -> StronglySorted Z.lt l.*1 /\
     Forall (fun o => o / 32 = k + Z.of_nat i) l.*1) ->
  StronglySorted Z.lt (concat L).*1 /\ Forall (fun o => k <= o / 32) (concat L).*1.
Proof.
  revert k. induction L as [|l L IH]; intros k H; simpl; [by split; constructor|].
  destruct (H 0%nat l eq_refl) as [Hs Ha].
  destruct (IH (k + 1)) as [Hs' Ha'].
  { intros i m Hm. destruct (H (S i) m Hm) as [Hsm Ham]. split; [done|].
    eapply Forall_impl; [exact Ham|]. simpl. intros o Ho. lia. }
  rewrite fmap_app. split.
  - clear -Hs Ha Hs' Ha'. induction l.*1 as [|x xs IH]; simpl; [done|].
    apply StronglySorted_inv in Hs as [Hs Hx]. apply Forall_cons in Ha as [Hxk Ha].
    constructor; [by apply IH|]. apply Forall_app. split; [done|].
    eapply Forall_impl; [exact Ha'|]. simpl. intros o Ho.
    destruct (Z.lt_ge_cases x o) as [|Hge]; [done|].
    pose proof (Z.div_le_mono o x 32 ltac:(lia) Hge). lia.
  - apply Forall_app. split; eapply Forall_impl; try done; simpl; lia.
Qed.

Lemma entries_sorted t : table_ok t -> StronglySorted Z.lt (table_entries t).*1.
Proof.
  intros [Hs _]. apply (concat_sorted (NodeOffsetListArray t) 0). intros i l Hl.
  destruct (Hs i l Hl) as [H1 H2]. split; [done|].
  eapply Forall_impl; [exact H2|]. unfold FLOW_GRAPH_NODE_LIST_ARRAY_STRIDE. simpl. lia.
Qed.

Lemma replace_targets_spec size g :
  partition g size -> table_ok (labels g) ->
  Forall (fun o => 0 <= o < size) (table_entries (labels g)).*1 ->
  exists g' s, fgReplaceBranchTargets size g = Some g' /\
    partition g' size /\ evolves g g' s /\ Forall2 (resolved g') (table_entries (labels g)) s /\
    (forall n, n ∈ (table_entries (labels g)).*2 -> free_of g' n).
Proof.
  intros Hp Hok Hr.
  destruct (replace_all_spec size g (table_entries (labels g)) g [] 0 [] None)
    as (g' & s & H1 & H2 & H3 & H4 & H5); try done.
  - intros b B HB. split; [by exists B|]. by eapply runs_here.
  - intros n Hn. by apply elem_of_nil in Hn.
  - by apply entries_sorted.
  - exists g', s. by split_and!.
Qed.

(** ** Both passes *)

Definition subst_target (s : list (nat * nat)) (t : flow_target) : flow_target :=
  foldl (fun t '(n, b) => replace_target n b t) t s.

Lemma subst_target_block s b : subst_target s (ToBlock b) = ToBlock b.
Proof. unfold subst_target. by induction s as [|[n c] s IH]. Qed.

Lemma subst_br s c : subst_term s (Br c) = Br (subst_target s c).
Proof. unfold subst_term, subst_target. revert c. by induction s as [|[n b] s IH]; intros c; simpl. Qed.

Lemma subst_cond s c f :
  subst_term s (CondBr c f) = CondBr (subst_target s c) (subst_target s <$> f).
Proof.
  unfold subst_term, subst_target. revert c f. induction s as [|[n b] s IH]; intros c f; simpl.
  - by destruct f.
  - rewrite IH. by destruct f.
Qed.

(** A label of the table resolves to a block that starts at its offset. *)
Lemma subst_label g entries s o n :
  Forall2 (resolved g) entries s -> (o, n) ∈ entries ->
  (forall p, (p, n) ∈ entries -> p = o) ->
  exists b B, subst_target s (ToLabel n) = ToBlock b /\ blocks g !! b = Some B /\ bStart B = o.
Proof.
  induction 1 as [|[p m] [m' b] entries s [Hm (B & HB & HsB)] _ IH]; intros Hin Hfun;
    [by apply elem_of_nil in Hin|].
  simpl in Hm. subst m'. unfold subst_target. simpl. destruct (Nat.eqb_spec n m) as [<-|Hne].
  - exists b, B. rewrite (Hfun p) in HsB by constructor.
    change (foldl _ (ToBlock b) s) with (subst_target s (ToBlock b)).
    by rewrite subst_target_block.
  - apply elem_of_cons in Hin as [Hin|Hin]; [by simplify_eq|].
    apply IH; [done|]. intros q Hq. apply Hfun. by constructor.
Qed.

Lemma cut_progress sizes buf (l : list ILDecode.il_instr) : forall off start,
  ILDecode.sizes_ok sizes -> ILDecode.il_ok buf -> ILDecode.il_seq sizes buf off l ->
  start <= off -> start < code_size buf ->
  Forall (fun c => fst c < ILDecode.i_next (snd c)) (fst (cut buf start l)) /\
  snd (cut buf start l) < code_size buf.
Proof.
  induction l as [|i l IH]; intros off start Hs Hbuf Hseq Hle Hlt; simpl; [by split; [constructor|]|].
  inversion Hseq as [|? op operand next l' Hi Hseq']; subst. simpl.
  pose proof (ILDecode.instr_at_progress sizes Hs buf off op operand next (proj1 Hbuf) Hi) as Hr.
  destruct (ends_block _ _ && (next <? code_size buf)) eqn:E.
  - apply andb_true_iff in E as [_ E%Z.ltb_lt].
    destruct (IH next next Hs Hbuf Hseq' ltac:(lia) E) as [H1 H2].
    destruct (cut buf next l) as [bs last]. simpl in *. split; [|done].
    constructor; [simpl; lia|done].
  - apply (IH next); try done. lia.
Qed.

(** Consecutive cuts share their boundary. *)
Lemma cut_head buf start l :
  match fst (cut buf start l) with
  | c :: _ => fst c = start
  | [] => snd (cut buf start l) = start
  end.
Proof.
  induction l as [|i l IH]; simpl; [done|]. destruct (ends_block buf i && _); [|done].
  by destruct (cut buf (ILDecode.i_next i) l).
Qed.

Lemma cut_covers sizes buf g l : forall off start k ds N,
  ILDecode.sizes_ok sizes -> ILDecode.il_ok buf -> ILDecode.il_seq sizes buf off l ->
  start <= off -> start < code_size buf ->
  blocks_ok buf (labels g) k (fst (cut buf start l)) ds ->
  (forall j B, (ds ++ [N]) !! j = Some B -> blocks g !! (k + j)%nat = Some B) ->
  bStart N = snd (cut buf start l) -> bEnd N = code_size buf ->
  covers g (seq k (S (length ds))) start (code_size buf).
Proof.
  induction l as [|i l IH]; intros off start k ds N Hs Hbuf Hseq Hle Hlt Hbo Hb HsN HeN.
  - simpl in *. destruct ds; [|done]. simpl. exists (code_size buf).
    split_and!; [|done|done]. unfold span. specialize (Hb 0%nat N eq_refl).
    rewrite Nat.add_0_r in Hb. rewrite Hb. simpl. by rewrite HsN, HeN.
  - inversion Hseq as [|? op operand next l' Hi Hseq']; subst.
    pose proof (ILDecode.instr_at_progress sizes Hs buf off op operand next (proj1 Hbuf) Hi) as Hr.
    cbn [cut ILDecode.i_next] in *. destruct (ends_block _ _ && (next <? code_size buf)) eqn:E.
    + apply andb_true_iff in E as [_ E%Z.ltb_lt].
      specialize (IH next next (S k)). destruct (cut buf next l) as [bs last].
      cbn [fst snd] in *. destruct ds as [|D ds]; [done|]. destruct Hbo as [(H1 & H2 & _) Hbo].
      cbn [seq length covers]. exists next. simpl in H1, H2. split_and!; [|lia|].
      * unfold span. specialize (Hb 0%nat D eq_refl). rewrite Nat.add_0_r in Hb.
        rewrite Hb. simpl. by rewrite H1, H2.
      * apply (IH ds N); try done; try lia. intros j B HB. specialize (Hb (S j) B HB).
        by rewrite Nat.add_succ_comm.
    + apply (IH next start k ds N); try done. lia.
Qed.

Lemma blocks_ok_lookup buf t cs ds : forall k j c,
  blocks_ok buf t k cs ds -> cs !! j = Some c ->
  exists D, ds !! j = Some D /\ block_ok buf t (S (k + j)) c D.
Proof.
  revert ds. induction cs as [|d cs IH]; intros [|D ds] k j c Hb Hc; simpl in Hb; try done.
  destruct Hb as [HD Hb]. destruct j as [|j]; simpl in *.
  - simplify_eq. exists D. by rewrite Nat.add_0_r.
  - destruct (IH ds (S k) j c Hb Hc) as (D' & H1 & H2). exists D'.
    split; [done|]. by rewrite Nat.add_succ_r.
Qed.

(** The graph of phase 1 partitions the code and its labels lie inside it. *)
Lemma phase1_partition sizes buf l g1 ds N :
  ILDecode.sizes_ok sizes -> ILDecode.il_ok buf -> ILDecode.il_seq sizes buf 0 l ->
  0 < code_size buf ->
  blocks g1 = ds ++ [N] -> layout g1 = seq 0 (S (length ds)) ->
  blocks_ok buf (labels g1) 0 (fst (cut buf 0 l)) ds ->
  bStart N = snd (cut buf 0 l) -> bEnd N = code_size buf ->
  partition g1 (code_size buf).
Proof.
  intros Hs Hbuf Hseq Hpos Hb Hl Hbo HsN HeN. split; rewrite Hl; [apply NoDup_seq|].
  apply (cut_covers sizes buf g1 l 0 0 0 ds N); try done. intros j B HB. by rewrite Hb.
Qed.

Lemma labels_inside t os size :
  labels_grow (empty_table size) t os -> Forall (fun o => 0 <= o < size) os ->
  Forall (fun o => 0 <= o < size) (table_entries t).*1.
Proof.
  intros (_ & _ & _ & Hnew & _) Hos. rewrite Forall_forall in *. intros o Ho.
  apply list_elem_of_fmap in Ho as ([p n] & -> & Hp). simpl.
  destruct (Hnew p n Hp) as [He|Hin]; [|by apply Hos].
  exfalso. apply (to_nodes _ (empty_table_ok size)) in He. simpl in He; by rewrite lookup_nil in He.
Qed.

Lemma room_inside size os :
  0 <= size -> Forall (fun o => 0 <= o < size) os -> room (empty_table size) os.
Proof.
  intros Hs Hos. eapply Forall_impl; [exact Hos|]. simpl. intros o Ho. unfold label_room.
  rewrite length_empty_table by done. split; [lia|].
  pose proof (Z.div_le_mono o size 32 ltac:(lia) ltac:(lia)).
  pose proof (Z.div_pos o 32 ltac:(lia) ltac:(lia)). lia.
Qed.

(** The terminator of a branch once its label is resolved. *)
Lemma branch_resolved buf g' t s k i term :
  table_ok t -> Forall2 (resolved g') (table_entries t) s ->
  is_branch (ILDecode.i_op i) = true -> term_ok buf t (S k) i term ->
  exists tgt b T,
    branch_target buf (ILDecode.i_op i) (ILDecode.i_operand i) (ILDecode.i_next i) = Some tgt /\
    blocks g' !! b = Some T /\ bStart T = tgt /\
    subst_term s term = if is_conditional (ILDecode.i_op i)
                        then CondBr (ToBlock b) (Some (ToBlock (S k))) else Br (ToBlock b).
Proof.
  intros Hok Hres Hb Ht. unfold term_ok in Ht. rewrite Hb in Ht.
  destruct Ht as (tgt & n & Htg & Hn & ->).
  assert (Hfun : forall p, (p, n) ∈ table_entries t -> p = tgt).
  { intros p Hp. apply (to_nodes t Hok) in Hp, Hn. congruence. }
  destruct (subst_label g' _ s tgt n Hres Hn Hfun) as (b & T & Hsub & HT & HsT).
  exists tgt, b, T. split_and!; [done..|]. destruct (is_conditional (ILDecode.i_op i)).
  - rewrite subst_cond, Hsub. simpl. by rewrite subst_target_block.
  - by rewrite subst_br, Hsub.
Qed.

(** ** Branches of ECMA-335 *)

(** The branch instructions of ECMA-335 III.3: the bytes of the displacement
    and whether control may also fall through. *)
Definition ecma_branch (op : OPCODE) : option (nat * bool) :=
  match op with
  | CEE_BR_S | CEE_LEAVE_S => Some (1%nat, false)
  | CEE_BR | CEE_LEAVE => Some (4%nat, false)
  | CEE_BRFALSE_S | CEE_BRTRUE_S | CEE_BEQ_S | CEE_BGE_S | CEE_BGT_S | CEE_BLE_S | CEE_BLT_S
  | CEE_BNE_UN_S | CEE_BGE_UN_S | CEE_BGT_UN_S | CEE_BLE_UN_S | CEE_BLT_UN_S => Some (1%nat, true)
  | CEE_BRFALSE | CEE_BRTRUE | CEE_BEQ | CEE_BGE | CEE_BGT | CEE_BLE | CEE_BLT
  | CEE_BNE_UN | CEE_BGE_UN | CEE_BGT_UN | CEE_BLE_UN | CEE_BLT_UN => Some (4%nat, true)
  | _ => None
  end.

(** The little-endian two's complement number in the byte or the four bytes at
    [off]. *)
Definition displacement (buf : list Z) (off : Z) (n : nat) : option Z :=
  match n with
  | 1%nat => b ← byte_at buf off; Some (if b <? 128 then b else b - 256)
  | 4%nat =>
      b0 ← byte_at buf off; b1 ← byte_at buf (off + 1);
      b2 ← byte_at buf (off + 2); b3 ← byte_at buf (off + 3);
      let v := b0 + 256 * b1 + 65536 * b2 + 16777216 * b3 in
      Some (if b3 <? 128 then v else v - 4294967296)
  | _ => None
  end.

(** Where a branch goes: the displacement counts from the next instruction. *)
Definition ecma_target (buf : list Z) (i : ILDecode.il_instr) : option Z :=
  '(n, _) ← ecma_branch (ILDecode.i_op i);
  d ← displacement buf (ILDecode.i_operand i) n;
  Some (ILDecode.i_next i + d).

(** The displacement sizes of opcode.def. *)
Definition ecma_branch_operands (sizes : OPCODE -> Z) : Prop :=
  forall op n c, ecma_branch op = Some (n, c) -> sizes op = Z.of_nat n.

(** Every offset the instruction sends control to, the one behind a switch or
    an [endfilter] included, lies inside the code. *)
Definition targets_inside (buf : list Z) (i : ILDecode.il_instr) : Prop :=
  match ecma_branch (ILDecode.i_op i) with
  | Some _ => forall tgt, ecma_target buf i = Some tgt -> 0 <= tgt < code_size buf
  | None => Forall (fun o => 0 <= o < code_size buf) (instr_labels buf i)
  end.

Lemma ecma_branch_code op :
  match ecma_branch op with
  | Some (n, c) => is_branch op = true /\ is_conditional op = c /\
      n = (if is_short_branch op then 1 else 4)%nat
  | None => is_branch op = false
  end.
Proof. by destruct op. Qed.

Lemma ecma_branch_operands_sizes sizes : ecma_branch_operands sizes -> branch_sizes sizes.
Proof.
  intros H op. split; intros Hb.
  - by destruct op; try discriminate Hb; eapply (H _ 1%nat); reflexivity.
  - by destruct op; try discriminate Hb; eapply (H _ 4%nat); reflexivity.
Qed.

(** The code reads that displacement. *)
Lemma displacement_read buf off n :
  Forall is_byte buf -> n = 1%nat \/ n = 4%nat -> ILDecode.readValue_s n buf off = displacement buf off n.
Proof.
  intros Hb Hn. unfold ILDecode.readValue_s, ILDecode.readValue_u.
  assert (Hbyte : forall o b, byte_at buf o = Some b -> 0 <= b < 256)
    by (intros o b; by apply byte_at_is_byte).
  destruct Hn as [-> | ->]; cbn [read_bytes displacement]; unfold mbind, option_bind.
  - destruct (byte_at buf off) as [b|] eqn:E; [|done]. apply Hbyte in E. simpl. f_equal.
    unfold swrap. change (2 ^ (8 * Z.of_nat 1)) with 256. rewrite Z.add_0_r, Z.mod_small by lia. done.
  - rewrite (ltac:(lia) : off + 1 + 1 = off + 2), (ltac:(lia) : off + 2 + 1 = off + 3).
    destruct (byte_at buf off) as [b0|] eqn:E0; [|done].
    destruct (byte_at buf (off + 1)) as [b1|] eqn:E1; [|done].
    destruct (byte_at buf (off + 2)) as [b2|] eqn:E2; [|done].
    destruct (byte_at buf (off + 3)) as [b3|] eqn:E3; [|done].
    apply Hbyte in E0, E1, E2, E3. cbn [fmap option_fmap option_map le_val]. f_equal.
    unfold swrap. change (8 * Z.of_nat 4) with 32. change (2 ^ 32) with 4294967296.
    change (2 ^ (32 - 1)) with 2147483648. rewrite Z.mod_small by lia.
    destruct (Z.ltb_spec b3 128); destruct (Z.ltb_spec (b0 + 256 * (b1 + 256 * (b2 + 256 * (b3 + 256 * 0)))) 2147483648); lia.
Qed.

Lemma branch_target_ecma buf i tgt :
  ILDecode.il_ok buf -> is_branch (ILDecode.i_op i) = true ->
  (forall t, ecma_target buf i = Some t -> 0 <= t < code_size buf) ->
  branch_target buf (ILDecode.i_op i) (ILDecode.i_operand i) (ILDecode.i_next i) = Some tgt ->
  ecma_target buf i = Some tgt.
Proof.
  intros [Hb Hsz] Hbr Hin. unfold branch_target, ecma_target in *.
  pose proof (ecma_branch_code (ILDecode.i_op i)) as He.
  destruct (ecma_branch (ILDecode.i_op i)) as [[n c]|]; [|congruence].
  destruct He as (_ & _ & Hn).
  assert (Hn' : n = 1%nat \/ n = 4%nat) by (destruct (is_short_branch _); auto).
  unfold mbind, option_bind in Hin |- *. rewrite <- (displacement_read _ _ n Hb Hn') in Hin |- *.
  replace (if is_short_branch (ILDecode.i_op i) then ILDecode.readValue_s 1 buf (ILDecode.i_operand i)
           else ILDecode.readValue_s 4 buf (ILDecode.i_operand i))
    with (ILDecode.readValue_s n buf (ILDecode.i_operand i)) by (subst n; by destruct (is_short_branch _)).
  destruct (ILDecode.readValue_s n buf (ILDecode.i_operand i)) as [d|]; [|done].
  specialize (Hin _ eq_refl). intros [= <-]. f_equal. unfold code_size in Hin.
  unfold u32, wrap. rewrite Zplus_mod_idemp_r, Z.mod_small by lia. done.
Qed.

Lemma targets_inside_labels sizes buf off l :
  ILDecode.sizes_ok sizes -> ecma_branch_operands sizes -> ILDecode.il_ok buf ->
  ILDecode.il_seq sizes buf off l -> Forall (targets_inside buf) l ->
  Forall (fun o => 0 <= o < code_size buf) (flat_map (instr_labels buf) l).
Proof.
  intros Hs Hbr Hbuf. induction 1 as [|off op operand next l Hi _ IH]; [constructor|].
  intros [Ht Hl]%Forall_cons. simpl. apply Forall_app. split; [|by apply IH].
  unfold targets_inside in Ht. pose proof (ecma_branch_code op) as He. simpl in Ht.
  destruct (ecma_branch op) as [[n c]|] eqn:E; [|done]. destruct He as (Hb & _).
  unfold instr_labels. simpl. rewrite Hb.
  destruct (branch_target buf op operand next) as [t|] eqn:Et; [|constructor].
  apply Forall_singleton. apply Ht. by apply (branch_target_ecma buf (ILDecode.ILInstr off op operand next)).
Qed.

(** ** The block of a branch *)

Lemma blocks_ok_length buf t cs : forall ds k, blocks_ok buf t k cs ds -> length ds = length cs.
Proof.
  induction cs as [|c cs IH]; intros [|D ds] k H; try done. destruct H as [_ H].
  simpl. by rewrite (IH ds (S k) H).
Qed.

(** An instruction that ends a block and is followed by code: its block starts
    at or before it, and the next one right after it. *)
Lemma cut_member sizes buf l : forall off start i,
  ILDecode.sizes_ok sizes -> ILDecode.il_ok buf -> ILDecode.il_seq sizes buf off l ->
  start <= off -> i ∈ l -> ends_block buf i = true -> ILDecode.i_next i < code_size buf ->
  exists k c, fst (cut buf start l) !! k = Some (c, i) /\ c <= ILDecode.i_off i /\
    default (snd (cut buf start l)) (fst <$> fst (cut buf start l) !! S k) = ILDecode.i_next i /\
    (S k <= length (fst (cut buf start l)))%nat.
Proof.
  induction l as [|j l IH]; intros off start i Hs Hbuf Hseq Hle Hin He Hn; [by apply elem_of_nil in Hin|].
  inversion Hseq as [|? op operand next l' Hi Hseq']; subst.
  pose proof (ILDecode.instr_at_progress sizes Hs buf off op operand next (proj1 Hbuf) Hi) as Hr.
  cbn [cut ILDecode.i_next]. apply elem_of_cons in Hin as [-> |Hin].
  - cbn [ILDecode.i_next ILDecode.i_off] in *. rewrite He.
    destruct (Z.ltb_spec next (code_size buf)); [|lia]. cbn [andb].
    pose proof (cut_head buf next l) as Hh. destruct (cut buf next l) as [bs last]. simpl in *.
    exists 0%nat, start. split; [done|]. split; [lia|]. split; [|lia]. simpl. by destruct bs.
  - destruct (ends_block buf (ILDecode.ILInstr off op operand next) && (next <? code_size buf)) eqn:E.
    + destruct (IH next next i Hs Hbuf Hseq' ltac:(lia) Hin He Hn) as (k & c & H1 & H2 & H3 & H4).
      destruct (cut buf next l) as [bs last]. exists (S k), c. simpl in *. split_and!; try done. lia.
    + apply (IH next start i); try done. lia.
Qed.

(** The block laid out after the [k]-th. *)
Lemma next_block buf g1 ds N k l o :
  blocks g1 = ds ++ [N] -> blocks_ok buf (labels g1) 0 (fst (cut buf 0 l)) ds ->
  bStart N = snd (cut buf 0 l) ->
  default (snd (cut buf 0 l)) (fst <$> fst (cut buf 0 l) !! S k) = o ->
  (S k <= length (fst (cut buf 0 l)))%nat ->
  exists F, blocks g1 !! S k = Some F /\ bStart F = o.
Proof.
  intros Hb1 Hbo HsN Hfall Hlen. rewrite Hb1. pose proof (blocks_ok_length _ _ _ _ _ Hbo) as Hl.
  destruct (fst (cut buf 0 l) !! S k) as [c'|] eqn:Ec.
  - destruct (blocks_ok_lookup _ _ _ _ 0 (S k) c' Hbo Ec) as (D & HD & (H1 & _ & _)).
    exists D. split; [by apply lookup_app_l_Some|]. simpl in Hfall. congruence.
  - apply lookup_ge_None in Ec. exists N. replace (S k) with (length ds) by lia.
    rewrite lookup_app_r, Nat.sub_diag by lia. simpl in Hfall. split; [done|congruence].
Qed.

(** ** Properties *)

(** On every graph whose blocks partition the code and whose label table
    is well formed with offsets inside the code, [fgReplaceBranchTargets]
    succeeds: the blocks still partition the code, every block keeps its start
    and region and still runs, through the pieces split off it, to its own
    terminator, in which each label of the table is replaced by a block that
    starts exactly at the label's offset, and no terminator mentions a label of
    the table any more. *)
Theorem fgReplaceBranchTargets_correct (ILCodeSize : Z) (g : flow_graph) :
  partition g ILCodeSize -> table_ok (labels g) ->
  Forall (fun o => 0 <= o < ILCodeSize) (table_entries (labels g)).*1 ->
  exists g' s, fgReplaceBranchTargets ILCodeSize g = Some g' /\
    partition g' ILCodeSize /\ evolves g g' s /\
    Forall2 (resolved g') (table_entries (labels g)) s /\
    (forall n, n ∈ (table_entries (labels g)).*2 -> free_of g' n).
Proof. apply replace_targets_spec. Qed.

(** A two-block graph whose branch goes to offset 2 of the first block. *)
Definition demo_phase2 : flow_graph :=
  FlowGraph [Block 0 4 None (Br (ToLabel 0)); Block 4 6 None Unreachable] [0; 1]%nat
    (NodeTable [[(2, 0%nat)]] [2]) (LeaveState ∅ [] ∅ []) [] [] (BitVector.BV [] 0) [] []
    false false.

Lemma demo_phase2_partition : partition demo_phase2 6.
Proof.
  split; [decide_now|]. simpl. exists 4. split_and!; [done|lia|].
  exists 6. split_and!; [done|lia|done].
Qed.

Lemma demo_phase2_table : table_ok (labels demo_phase2).
Proof.
  split.
  - intros [|[|i]] l Hl; simplify_eq/=. split; [repeat constructor|].
    constructor; [split; [lia|reflexivity]|constructor].
  - intros o n. unfold table_entries. simpl. rewrite elem_of_cons, elem_of_nil. split.
    + by intros [[= -> ->]|[]].
    + destruct n as [|n]; simpl; [intros [= <-]; by left|done].
Qed.

Lemma fgReplaceBranchTargets_correct_witness :
  exists g' s, fgReplaceBranchTargets 6 demo_phase2 = Some g' /\ partition g' 6 /\
    evolves demo_phase2 g' s /\ layout g' = [0; 2; 1]%nat.
Proof.
  destruct (fgReplaceBranchTargets_correct 6 demo_phase2 demo_phase2_partition demo_phase2_table)
    as (g' & s & Hr & Hp & Hev & _).
  - repeat constructor; vm_compute; congruence.
  - exists g', s. split; [exact Hr|]. split; [exact Hp|]. split; [exact Hev|].
    vm_compute in Hr. injection Hr as <-. reflexivity.
Defined.

(** C1: the two passes together.  For every non-empty well-formed body without
    exception clauses whose branch targets lie inside the code, both passes
    succeed, the final blocks partition the code, and for every branch
    instruction that is followed by more code control runs from a block that
    starts at or before the branch to a terminator at the branch's end whose
    taken edge leads to a block that starts exactly at the branch's target,
    the offset of the next instruction plus the signed displacement in the
    byte or the four bytes of its operand; when the branch is conditional the
    other edge leads to a block that starts at the next instruction, and when
    it is not there is no other edge. *)
Theorem flow_graph_branches_correct (sizes StackPop StackPush : OPCODE -> Z)
    (Sig : OPCODE -> Z -> Z * bool * bool) (valid : Z -> bool) (void Sup : bool)
    (buf : list Z) (l : list ILDecode.il_instr) (g : flow_graph) (B0 : block) :
  ILDecode.sizes_ok sizes -> ecma_branch_operands sizes -> ILDecode.il_ok buf ->
  ILDecode.il_seq sizes buf 0 l -> 0 < code_size buf ->
  Forall (fun i => ILDecode.i_op i <> CEE_ENDFINALLY) l ->
  Forall (targets_inside buf) l ->
  blocks g = [B0] -> layout g = [0%nat] -> bStart B0 = 0 -> bTerm B0 = NoTerm ->
  labels g = empty_table (code_size buf) ->
  exists g1 g2,
    fgBuildPhase1 sizes StackPop StackPush Sig valid void false Sup None buf (code_size buf)
      (S (length l)) g 0 = Some (Some g1) /\
    fgReplaceBranchTargets (code_size buf) g1 = Some g2 /\
    partition g2 (code_size buf) /\
    forall i n conditional, i ∈ l -> ecma_branch (ILDecode.i_op i) = Some (n, conditional) ->
      ILDecode.i_next i < code_size buf ->
      exists k B b T f F, blocks g2 !! k = Some B /\ bStart B <= ILDecode.i_off i /\
        blocks g2 !! b = Some T /\ ecma_target buf i = Some (bStart T) /\
        blocks g2 !! f = Some F /\ bStart F = ILDecode.i_next i /\
        runs_to g2 (if conditional then CondBr (ToBlock b) (Some (ToBlock f)) else Br (ToBlock b))
          (ILDecode.i_next i) k.
Proof.
  intros Hs Hbr Hbuf Hseq Hpos Hne Htin Hb Hlay HB0 HT Hlab.
  pose proof (targets_inside_labels sizes buf 0 l Hs Hbr Hbuf Hseq Htin) as Hin.
  destruct (build_phase1_spec sizes StackPop StackPush Sig valid void Sup buf l g B0 Hs
    (ecma_branch_operands_sizes _ Hbr) Hbuf
    Hseq Hne Hb Hlay HB0 HT) as (g1 & ds & N & Hrun & Hb1 & Hl1 & Hbo & HsN & HeN & Hgr);
    [rewrite Hlab; apply empty_table_ok|rewrite Hlab; by apply room_inside; [lia|]|].
  rewrite Hlab in Hgr.
  destruct (replace_targets_spec (code_size buf) g1) as (g2 & s & Hrt & Hp2 & Hev & Hres & _).
  - by apply (phase1_partition sizes buf l g1 ds N).
  - apply Hgr.
  - by eapply labels_inside.
  - exists g1, g2. split; [done|]. split; [done|]. split; [done|].
    intros i n cnd Hil Hi Hnext.
    pose proof (ecma_branch_code (ILDecode.i_op i)) as He. rewrite Hi in He. destruct He as (Hbranch & <- & _).
    destruct (cut_member sizes buf l 0 0 i Hs Hbuf Hseq ltac:(lia) Hil) as (k & start & Hk & Hst & Hfall & Hlen);
      [unfold ends_block; by rewrite Hbranch|done|].
    destruct (blocks_ok_lookup _ _ _ _ 0 k (start, i) Hbo Hk) as (D & HD & (H1 & H2 & H3)).
    assert (HDk : blocks g1 !! k = Some D)
      by (rewrite Hb1; by apply lookup_app_l_Some).
    destruct (Hev k D HDk) as [(B & HB & HsB & _) Hrun2].
    destruct (branch_resolved buf g2 (labels g1) s k i (bTerm D)) as (tgt & b & T & Htg & HTb & HsT & Hsub);
      [apply Hgr|done|done|exact H3|].
    destruct (next_block buf g1 ds N k l (ILDecode.i_next i) Hb1 Hbo HsN Hfall Hlen) as (F1 & HF1 & HsF1).
    destruct (Hev (S k) F1 HF1) as [(F & HF & HsF & _) _].
    exists k, B, b, T, (S k), F. rewrite Hsub, H2 in Hrun2. simpl in H1. split_and!; try done; try lia.
    rewrite HsT. apply branch_target_ecma; try done.
    rewrite Forall_forall in Htin. specialize (Htin i Hil). unfold targets_inside in Htin. by rewrite Hi in Htin.
Qed.

Lemma ecma_displacements : ecma_branch_operands ILDecode.ecma_operand_size.
Proof. intros [] n c [= <- <-]; reflexivity. Qed.

Lemma demo_targets_inside : Forall (targets_inside demo_branch) demo_branch_instrs.
Proof.
  repeat apply Forall_cons_2; try apply Forall_nil_2; try (by apply Forall_nil_2).
  intros tgt [= <-]. done.
Qed.

Lemma flow_graph_branches_correct_witness :
  exists g1 g2,
    fgBuildPhase1 ILDecode.ecma_operand_size (fun _ => 0) (fun _ => 0) (fun _ _ => (0, false, true))
      (fun _ => true) true false false None demo_branch 5 5 (demo_graph 5) 0 = Some (Some g1) /\
    fgReplaceBranchTargets 5 g1 = Some g2 /\ partition g2 5 /\ layout g2 = [0; 1; 2]%nat.
Proof.
  destruct (flow_graph_branches_correct ILDecode.ecma_operand_size (fun _ => 0) (fun _ => 0)
    (fun _ _ => (0, false, true)) (fun _ => true) true false demo_branch demo_branch_instrs
    (demo_graph 5) (Block 0 0 None NoTerm) ILDecode.ecma_sizes_ok
    ecma_displacements)
    as (g1 & g2 & H1 & H2 & H3 & _).
  - split; [decide_now|vm_compute; reflexivity].
  - exact demo_branch_seq.
  - vm_compute. reflexivity.
  - decide_now.
  - exact demo_targets_inside.
  - reflexivity.
  - reflexivity.
  - reflexivity.
  - reflexivity.
  - reflexivity.
  - exists g1, g2. split; [exact H1|]. split; [exact H2|]. split; [exact H3|].
    vm_compute in H1. injection H1 as <-. vm_compute in H2. injection H2 as <-. reflexivity.
Defined.
