(* ===== verification/GlobalVerify.v ===== *)
(** * Global verification data (lib/Reader/reader.cpp)

    [fgAttachGlobalVerifyData] summarises the stack contributions of every
    block by watermarks; [getMSILInstrStackDelta], modelled in [FlowGraph],
    produces the contributions. *)

From S2P Require Import Prelude Opcodes ILDecode FlowGraph.
Import ReaderBaseNS.

Inductive InitState : Set :=
  | ThisUnreached | ThisUnInit | ThisInited | ThisInconsistent | ThisEHReached.

(** The fields of the record that the pass computes or resets; a stack depth
    of -1 means not visited. *)
Record GlobalVerifyData := GvData {
  MinStack : Z;
  MaxStack : Z;
  NetStack : Z;
  TOSTempsCount : Z;
  StkDepth : Z;
  IsOnWorklist : bool;
  ThisInitialized : InitState }.

(** [Current], [Min] and [Max] are C ints; [None] is a read outside an array. *)
Fixpoint gv_scan (n : nat) (GvStackPop GvStackPush : list Z) (I : nat)
    (Current Min Max : Z) : option (Z * Z * Z) :=
  match n with
  | O => Some (Current, Min, Max)
  | S n' =>
      pop ← GvStackPop !! I;
      push ← GvStackPush !! I;
      let Current := s32 (Current - pop) in
      let Min := if Current <? Min then Current else Min in
      let Current := s32 (Current + push) in
      let Max := if Max <? Current then Current else Max in
      gv_scan n' GvStackPop GvStackPush (S I) Current Min Max
  end.

Definition attach_block (GvStackPop GvStackPush : list Z) (ThisInit : InitState)
    (isRegionStart : bool) (Start End : Z) : option GlobalVerifyData :=
  let Current := if isRegionStart then 1 else 0 in
  '(Current, Min, Max) ←
    gv_scan (Z.to_nat (End - Start)) GvStackPop GvStackPush (Z.to_nat Start) Current Current Current;
  Some (GvData Min Max Current (s32 (Current - Min)) (-1) false ThisInit).

(** Over the blocks in layout order. *)
Definition fgAttachGlobalVerifyData (g : flow_graph) (verNeedsCtorTrack : bool)
    (isRegionStartBlock : nat -> bool) : option (list (nat * GlobalVerifyData)) :=
  let ThisInit := if verNeedsCtorTrack then ThisUnreached else ThisInited in
  mapM (fun b =>
          B ← blocks g !! b;
          d ← attach_block (GvStackPop g) (GvStackPush g) ThisInit (isRegionStartBlock b)
                (bStart B) (bEnd B);
          Some (b, d)) (layout g).

(** ** Specification: running the contributions *)

(** Stack depth along the block: an instruction pops, which must not
    underflow, and then pushes.  Final depth and the highest one reached. *)
Fixpoint run_stack (ds : list (Z * Z)) (depth peak : Z) : option (Z * Z) :=
  match ds with
  | [] => Some (depth, peak)
  | (pop, push) :: ds' =>
      if depth - pop <? 0 then None
      else run_stack ds' (depth - pop + push) (Z.max peak (depth - pop + push))
  end.

Definition deltas_ok (ds : list (Z * Z)) : Prop :=
  Forall (fun d => 0 <= fst d < 65536 /\ 0 <= snd d < 65536) ds.

Fixpoint contributions (n : nat) (pops pushes : list Z) (I : nat) : option (list (Z * Z)) :=
  match n with
  | O => Some []
  | S n' =>
      pop ← pops !! I; push ← pushes !! I;
      r ← contributions n' pops pushes (S I); Some ((pop, push) :: r)
  end.

(** The scan without the machine. *)
Fixpoint marks (ds : list (Z * Z)) (c mn mx : Z) : Z * Z * Z :=
  match ds with
  | [] => (c, mn, mx)
  | (pop, push) :: ds' =>
      marks ds' (c - pop + push) (Z.min mn (c - pop)) (Z.max mx (c - pop + push))
  end.

Lemma gv_scan_marks n pops pushes : forall I ds c mn mx,
  contributions n pops pushes I = Some ds -> deltas_ok ds ->
  - 2 ^ 31 + 65536 * Z.of_nat n <= c < 2 ^ 31 - 65536 * Z.of_nat n ->
  gv_scan n pops pushes I c mn mx = Some (marks ds c mn mx).
Proof.
  induction n as [|n IH]; intros I ds c mn mx Hc Hok Hr; simpl in *; [by simplify_eq|].
  destruct (pops !! I) as [p|]; simpl in *; [|done].
  destruct (pushes !! I) as [q|]; simpl in *; [|done].
  destruct (contributions n pops pushes (S I)) as [r|] eqn:E; simpl in *; [|done].
  simplify_eq. apply Forall_cons in Hok as [[Hp Hq] Hok]. simpl in Hp, Hq.
  rewrite !s32_small by (rewrite ?s32_small; lia). simpl.
  rewrite (IH (S I) r) by (done || lia). f_equal. f_equal.
  - destruct (Z.ltb_spec (c - p) mn); lia.
  - destruct (Z.ltb_spec mx (c - p + q)); lia.
Qed.

(** Closed forms: net change, lowest and highest point relative to entry. *)
Fixpoint net (ds : list (Z * Z)) : Z :=
  match ds with [] => 0 | (p, q) :: r => q - p + net r end.
Fixpoint low (ds : list (Z * Z)) : Z :=
  match ds with [] => 0 | (p, q) :: r => Z.min 0 (Z.min (- p) (q - p + low r)) end.
Fixpoint high (ds : list (Z * Z)) : Z :=
  match ds with [] => 0 | (p, q) :: r => Z.max 0 (q - p + high r) end.

Lemma high_nonneg ds : 0 <= high ds.
Proof. destruct ds as [|[p q] ds]; simpl; lia. Qed.

Lemma marks_closed ds : forall c mn mx,
  deltas_ok ds -> mn <= c <= mx ->
  marks ds c mn mx = (c + net ds, Z.min mn (c + low ds), Z.max mx (c + high ds)).
Proof.
  induction ds as [|[p q] ds IH]; intros c mn mx Hok Hc; simpl.
  { f_equal; [f_equal|]; lia. }
  apply Forall_cons in Hok as [[Hp Hq] Hok]. simpl in Hp, Hq. pose proof (high_nonneg ds).
  rewrite IH by (done || lia). f_equal; [f_equal|]; lia.
Qed.

Lemma run_stack_closed ds : forall depth peak,
  deltas_ok ds -> 0 <= depth <= peak ->
  run_stack ds depth peak =
    if 0 <=? depth + low ds then Some (depth + net ds, Z.max peak (depth + high ds)) else None.
Proof.
  induction ds as [|[p q] ds IH]; intros depth peak Hok Hd; simpl.
  { destruct (Z.leb_spec 0 (depth + 0)); [|lia]. f_equal; f_equal; lia. }
  apply Forall_cons in Hok as [[Hp Hq] Hok]. simpl in Hp, Hq.
  destruct (Z.ltb_spec (depth - p) 0) as [Hlt|Hge].
  - destruct (Z.leb_spec 0 (depth + Z.min 0 (Z.min (- p) (q - p + low ds)))); [lia|done].
  - pose proof (high_nonneg ds). rewrite IH by (done || lia). clear IH.
    destruct (Z.leb_spec 0 (depth - p + q + low ds));
      destruct (Z.leb_spec 0 (depth + Z.min 0 (Z.min (- p) (q - p + low ds)))); try lia; [|done].
    f_equal; f_equal; lia.
Qed.

(** ** Properties *)

(** The watermarks are what a stack check needs.  For a block that does not
    start a handler, entering it at any depth [d] runs without underflow exactly
    when [d + MinStack] is not negative, leaves [d + NetStack] items and never
    holds more than [d + MaxStack]; [TOSTempsCount] is [NetStack - MinStack] and
    is not negative. *)
Theorem attach_block_watermarks (pops pushes : list Z) (ThisInit : InitState)
    (Start End d : Z) (ds : list (Z * Z)) :
  0 <= Start -> 65536 * (End - Start) <= 2 ^ 29 -> 0 <= d ->
  contributions (Z.to_nat (End - Start)) pops pushes (Z.to_nat Start) = Some ds ->
  deltas_ok ds ->
  exists v, attach_block pops pushes ThisInit false Start End = Some v /\
    run_stack ds d d =
      (if 0 <=? d + MinStack v then Some (d + NetStack v, d + MaxStack v) else None) /\
    TOSTempsCount v = NetStack v - MinStack v /\ 0 <= TOSTempsCount v.
Proof.
  intros HS Hsz Hd Hc Hok.
  assert (Hb : forall n I r, contributions n pops pushes I = Some r -> deltas_ok r ->
    - 65536 * Z.of_nat n <= low r <= 0 /\ low r <= net r <= 65536 * Z.of_nat n).
  { induction n as [|n IH]; intros I r Hr Hr'; simpl in Hr; [simplify_eq; simpl; lia|].
    destruct (pops !! I) as [p|]; simpl in Hr; [|done].
    destruct (pushes !! I) as [q|]; simpl in Hr; [|done].
    destruct (contributions n pops pushes (S I)) as [r'|] eqn:E; simpl in Hr; [|done].
    simplify_eq. apply Forall_cons in Hr' as [[Hp Hq] Hr']. simpl in *.
    specialize (IH _ _ E Hr'). lia. }
  pose proof (Hb _ _ _ Hc Hok) as Hbd.
  unfold attach_block. rewrite (gv_scan_marks _ _ _ _ ds) by (done || lia).
  rewrite marks_closed by (done || lia). cbn [mbind option_bind].
  eexists. split; [done|]. cbn [MinStack MaxStack NetStack TOSTempsCount].
  rewrite run_stack_closed by (done || lia). rewrite s32_small by lia. split_and!; [|lia|lia].
  pose proof (high_nonneg ds).
  destruct (Z.leb_spec 0 (d + low ds)); destruct (Z.leb_spec 0 (d + Z.min 0 (0 + low ds)));
    try lia; [|done]. f_equal; f_equal; lia.
Qed.

Lemma attach_block_watermarks_witness :
  exists v, attach_block [2; 0; 0; 0; 2] [1; 1; 1; 1; 1] ThisInited false 0 5 = Some v /\
    MinStack v = -2 /\ MaxStack v = 2 /\ NetStack v = 1 /\ TOSTempsCount v = 3.
Proof.
  destruct (attach_block_watermarks [2; 0; 0; 0; 2] [1; 1; 1; 1; 1] ThisInited 0 5 2
              [(2, 1); (0, 1); (0, 1); (0, 1); (2, 1)]) as (v & Hv & _).
  - lia.
  - lia.
  - lia.
  - reflexivity.
  - repeat constructor; simpl; lia.
  - exists v. split; [exact Hv|]. vm_compute in Hv. injection Hv as <-.
    repeat split; reflexivity.
Defined.

(** Because the call-token check is a stub that answers no, every call,
    indirect call, virtual call and object creation contributes nothing to the
    stack, whatever its signature, instead of its arguments and result. *)
Theorem getMSILInstrStackDelta_ignores_calls (Pop Push : OPCODE -> Z)
    (Sig : OPCODE -> Z -> Z * bool * bool) (valid : Z -> bool) (void Ver : bool)
    (buf : list Z) (op : OPCODE) (operand Token : Z) :
  op_in op [CEE_CALL; CEE_CALLI; CEE_CALLVIRT; CEE_NEWOBJ] = true ->
  readValue_u 4 buf operand = Some Token ->
  getMSILInstrStackDelta Pop Push Sig valid void Ver buf op (Some operand) = Some (0, 0).
Proof.
  intros Hop Ht. unfold getMSILInstrStackDelta.
  destruct op; try discriminate Hop; cbn [mbind option_bind]; rewrite Ht; reflexivity.
Qed.

Lemma getMSILInstrStackDelta_ignores_calls_witness :
  getMSILInstrStackDelta (fun _ => 0) (fun _ => 0) (fun _ _ => (2, true, false)) (fun _ => true)
    true false [0x28; 1; 0; 0; 6] CEE_CALL (Some 1) = Some (0, 0).
Proof.
  apply (getMSILInstrStackDelta_ignores_calls (fun _ => 0) (fun _ => 0)
    (fun _ _ => (2, true, false)) (fun _ => true) true false [0x28; 1; 0; 0; 6] CEE_CALL 1 100663297);
    reflexivity.
Defined.
