(* ===== verification/Worklist.v ===== *)
(** * Traversal of the flow graph (lib/Reader/reader.cpp, readerir.cpp)

    The edge iterators of the reader, [fgPrependUnvisitedSuccToWorklist] and
    the parts of [msilToIR] that find the reachable blocks, order them by MSIL
    offset, translate each of them once while the translation adds blocks, and
    drop the unreachable ones.  Nodes are the blocks of the LLVM function; a
    node carries what the traversal reads of it.  LLVM's own iteration over a
    terminator's successors is the list [Terminator]; its predecessor
    iteration yields one entry for each use of the block by a terminator.
    A failed [ASSERTNR] is [None]. *)

From S2P Require Import Prelude.

(** ** State *)

Record fg_node := FgNode {
  Terminator : list nat;          (* successors, in the terminator's order *)
  HandlerPad : option nat;        (* block of the region's HandlerEHPad *)
  StartsWithEHPad : bool;
  StartMSILOffset : Z;
  EndMSILOffset : Z;
  PropagatesOperandStack : bool;
  NodeRegion : option nat }.

(** The function: its blocks and their order. *)
Record fg := Fg { nodes : gmap nat fg_node; order : list nat }.

Definition term_succs (g : fg) (n : nat) : list nat :=
  match nodes g !! n with Some N => Terminator N | None => [] end.

Definition preds (g : fg) (n : nat) : list nat :=
  '(p, N) ← map_to_list (nodes g); (fun _ => p) <$> filter (fun s => s = n) (Terminator N).

Definition region (g : fg) (n : nat) : option nat := N ← nodes g !! n; NodeRegion N.
Definition propagates (g : fg) (n : nat) : bool :=
  match nodes g !! n with Some N => PropagatesOperandStack N | None => false end.
Definition is_eh_pad (g : fg) (n : nat) : bool :=
  match nodes g !! n with Some N => StartsWithEHPad N | None => false end.

(** ** Edge iterators *)

(** The abstract base class of the iterators. *)
Class FlowGraphEdgeIteratorImpl (I : Type) := {
  isEnd : I -> bool;
  moveNext : I -> I;
  getSink : I -> option nat;
  getSource : I -> option nat }.

(** What a client may assume: the iterator runs through a list of edges. *)
Class EdgeIteratorLaws (I : Type) `{FlowGraphEdgeIteratorImpl I}
    (edges : I -> list (nat * nat)) : Prop := {
  end_nil : forall it, isEnd it = match edges it with [] => true | _ => false end;
  move_tail : forall it e l, edges it = e :: l -> edges (moveNext it) = l;
  sink_head : forall it s t l, edges it = (s, t) :: l -> getSink it = Some t;
  source_head : forall it s t l, edges it = (s, t) :: l -> getSource it = Some s }.

Record SuccessorEdgeIterator := SuccIt {
  SuccSource : nat; SuccIterator : list nat; NominalSucc : option nat }.

#[export] Instance SuccessorEdgeIteratorImpl : FlowGraphEdgeIteratorImpl SuccessorEdgeIterator := {
  isEnd it := match NominalSucc it with
              | Some _ => false
              | None => match SuccIterator it with [] => true | _ => false end
              end;
  moveNext it := match NominalSucc it with
                 | None => SuccIt (SuccSource it) (tail (SuccIterator it)) None
                 | Some _ => SuccIt (SuccSource it) (SuccIterator it) None
                 end;
  getSink it := match NominalSucc it with Some p => Some p | None => head (SuccIterator it) end;
  getSource it := Some (SuccSource it) }.

Record PredecessorEdgeIterator := PredIt { PredSink : nat; PredIterator : list nat }.

#[export] Instance PredecessorEdgeIteratorImpl :
    FlowGraphEdgeIteratorImpl PredecessorEdgeIterator := {
  isEnd it := match PredIterator it with [] => true | _ => false end;
  moveNext it := PredIt (PredSink it) (tail (PredIterator it));
  getSink it := Some (PredSink it);
  getSource it := head (PredIterator it) }.

(** The region's pad, if any, is the first (nominal) successor. *)
Definition fgNodeGetSuccessors (g : fg) (n : nat) : SuccessorEdgeIterator :=
  SuccIt n (term_succs g n)
    (match region g n with
     | Some _ => N ← nodes g !! n; HandlerPad N
     | None => None
     end).

Definition fgNodeGetPredecessors (g : fg) (n : nat) : PredecessorEdgeIterator :=
  PredIt n (preds g n).

(** A [for] loop over the edges of an iterator. *)
Fixpoint for_edges {I S : Type} `{FlowGraphEdgeIteratorImpl I} (fuel : nat) (it : I)
    (body : S -> I -> option S) (s : S) : option S :=
  match fuel with
  | O => None
  | S fuel' =>
      if isEnd it then Some s
      else s ← body s it; for_edges fuel' (moveNext it) body s
  end.

Definition fgEdgeIsNominal {I : Type} `{FlowGraphEdgeIteratorImpl I} (g : fg) (it : I) : bool :=
  match getSink it with Some s => is_eh_pad g s | None => false end.

(** Moves past nominal edges. *)
Fixpoint skip_nominal {I : Type} `{FlowGraphEdgeIteratorImpl I} (fuel : nat) (g : fg) (it : I) : I :=
  match fuel with
  | O => it
  | S fuel' => if negb (isEnd it) && fgEdgeIsNominal g it
               then skip_nominal fuel' g (moveNext it) else it
  end.

Definition pred_fuel (it : PredecessorEdgeIterator) : nat := S (length (PredIterator it)).
Definition succ_fuel (it : SuccessorEdgeIterator) : nat := S (S (length (SuccIterator it))).

Definition fgEdgeIteratorMoveNextSuccessorActual (g : fg) (it : SuccessorEdgeIterator) :=
  skip_nominal (succ_fuel it) g (moveNext it).
Definition fgEdgeIteratorMoveNextPredecessorActual (g : fg) (it : PredecessorEdgeIterator) :=
  skip_nominal (pred_fuel it) g (moveNext it).
Definition fgNodeGetSuccessorsActual (g : fg) (n : nat) : SuccessorEdgeIterator :=
  let it := fgNodeGetSuccessors g n in skip_nominal (succ_fuel it) g it.
Definition fgNodeGetPredecessorsActual (g : fg) (n : nat) : PredecessorEdgeIterator :=
  let it := fgNodeGetPredecessors g n in skip_nominal (pred_fuel it) g it.

(** ** Predecessors that propagate the operand stack *)

Fixpoint multiple_scan (fuel : nat) (g : fg) (it : PredecessorEdgeIterator) (count : nat) : bool :=
  match fuel with
  | O => false
  | S fuel' =>
      if isEnd it then false
      else
        let count :=
          match getSource it with Some p => if propagates g p then S count else count | None => count end in
        if (1 <? count)%nat then true
        else multiple_scan fuel' g (fgEdgeIteratorMoveNextPredecessorActual g it) count
  end.

Definition fgNodeHasMultiplePredsPropagatingStack (g : fg) (n : nat) : bool :=
  let it := fgNodeGetPredecessorsActual g n in multiple_scan (pred_fuel it) g it 0.

Fixpoint none_scan (fuel : nat) (g : fg) (it : PredecessorEdgeIterator) : bool :=
  match fuel with
  | O => true
  | S fuel' =>
      if isEnd it then true
      else
        match getSource it with
        | Some p => if propagates g p then false
                    else none_scan fuel' g (fgEdgeIteratorMoveNextPredecessorActual g it)
        | None => none_scan fuel' g (fgEdgeIteratorMoveNextPredecessorActual g it)
        end
  end.

Definition fgNodeHasNoPredsPropagatingStack (g : fg) (n : nat) : bool :=
  let it := fgNodeGetPredecessorsActual g n in none_scan (pred_fuel it) g it.

(** ** Immediate dominators (a conservative approximation) *)

Definition getNextIDom (g : fg) (n : nat) : option nat :=
  match preds g n with [p] => Some p | _ => None end.

Fixpoint idom_walk (fuel : nat) (g : fg) (EhRegionTree : option nat) (n : nat) (Idom : option nat)
    : option (option nat) :=
  match fuel with
  | O => None
  | S fuel' =>
      match Idom with
      | None => Some None
      | Some d =>
          if bool_decide (region g d <> EhRegionTree) && bool_decide (region g d <> region g n)
          then idom_walk fuel' g EhRegionTree n (getNextIDom g d)
          else Some (Some d)
      end
  end.

Definition fgNodeGetIDom (fuel : nat) (g : fg) (EhRegionTree : option nat) (n : nat)
    : option (option nat) :=
  idom_walk fuel g EhRegionTree n (getNextIDom g n).

(** ** Discovery of the reachable blocks *)

(** One element of the worklist: a block and the block it was reached from. *)
Record FlowGraphNodeWorkList := WorkItem { Block : nat; Parent : option nat }.

Definition walk_state : Type := list FlowGraphNodeWorkList * gset nat.

(** The body of the successor loop, with the debug check that no block is on
    the worklist twice. *)
Definition prepend_succ (CurrBlock : nat) (s : walk_state) (it : SuccessorEdgeIterator)
    : option walk_state :=
  let '(Worklist, Visited) := s in
  Successor ← getSink it;
  if bool_decide (Successor ∈ Visited) then Some s
  else if bool_decide (Successor ∈ Block <$> Worklist) then None
  else Some (WorkItem Successor (Some CurrBlock) :: Worklist, {[Successor]} ∪ Visited).

Definition fgPrependUnvisitedSuccToWorklist (g : fg) (s : walk_state) (CurrBlock : nat)
    : option walk_state :=
  let it := fgNodeGetSuccessors g CurrBlock in
  for_edges (succ_fuel it) it (prepend_succ CurrBlock) s.

Definition discover_step (g : fg) (s : walk_state) : walk_state + option (gset nat) :=
  match s.1 with
  | [] => inr (Some s.2)
  | top :: Next =>
      match fgPrependUnvisitedSuccToWorklist g (Next, s.2) (Block top) with
      | Some s' => inl s'
      | None => inr None
      end
  end.

Definition discover (fuel : nat) (g : fg) (FgHead : nat) : option (option (gset nat)) :=
  while_fuel fuel (discover_step g) ([WorkItem FgHead None], {[FgHead]}).

(** ** MSIL offset order *)

(** The blocks of the function from [b] on. *)
Fixpoint from_block (l : list nat) (b : nat) : list nat :=
  match l with
  | [] => []
  | x :: l' => if (x =? b)%nat then l else from_block l' b
  end.

(** The visited blocks, asserting that their offsets increase. *)
Fixpoint msil_order (g : fg) (Visited : gset nat) (l : list nat) (Last : Z) : option (list nat) :=
  match l with
  | [] => Some []
  | b :: l' =>
      if bool_decide (b ∈ Visited) then
        N ← nodes g !! b;
        if Last <=? StartMSILOffset N then
          r ← msil_order g Visited l' (EndMSILOffset N); Some (b :: r)
        else None
      else msil_order g Visited l' Last
  end.

(** ** Translation of the blocks *)

Section Process.

(** Translates one block; it may add blocks to the function and change the
    edges of the block. *)
Context (readBytesForFlowGraphNode : fg -> nat -> fg).

(** An import-only compilation and the two verification flags: the reader's
    constructor clears [VerificationNeeded] and sets [IsVerifiableCode], and
    nothing changes them. *)
Context (IsImportOnly VerificationNeeded IsVerifiableCode : bool).

(** The list being iterated is [Before ++ todo]; the iterator points at the
    head of [todo]. *)
Record process_state := Process {
  Graph : fg; VisitedBlocks : gset nat; Before : list nat; todo : list nat }.

(** A successor that is not visited yet is inserted right after the current
    block. *)
Definition insert_succ (g : fg) (CurrentNode : nat) (s : gset nat * list nat)
    (it : SuccessorEdgeIterator) : option (gset nat * list nat) :=
  let '(Visited, after) := s in
  Successor ← getSink it;
  if bool_decide (Successor ∈ Visited) then Some s
  else if fgNodeHasMultiplePredsPropagatingStack g Successor then None
  else if propagates g CurrentNode || fgNodeHasNoPredsPropagatingStack g Successor
  then Some ({[Successor]} ∪ Visited, Successor :: after)
  else None.

Definition process_step (s : process_state) : process_state + option process_state :=
  match todo s with
  | [] => inr (Some s)
  | CurrentNode :: after =>
      let g := readBytesForFlowGraphNode (Graph s) CurrentNode in
      let it := fgNodeGetSuccessors g CurrentNode in
      if IsImportOnly && negb VerificationNeeded then
        if IsVerifiableCode then inr None
        else inr (Some (Process g (VisitedBlocks s) (Before s) (todo s)))
      else
      match for_edges (succ_fuel it) it (insert_succ g CurrentNode) (VisitedBlocks s, after) with
      | Some (Visited, after) => inl (Process g Visited (Before s ++ [CurrentNode]) after)
      | None => inr None
      end
  end.

(** ** The traversal of [msilToIR] *)

(** What the generator does when all blocks are translated: it clones the
    finally bodies ([FinallyClone]), which adds blocks and marks clones as
    visited. *)
Context (readerPostVisit : fg -> gset nat -> fg * gset nat).

(** LLVM's removal of unreachable blocks, which [GenIR::fgRemoveUnusedBlocks]
    calls. *)
Context (removeUnreachableBlocks : fg -> fg).

(** The check that every block left was visited; its bit is cleared. *)
Fixpoint clear_visited (Visited : gset nat) (l : list nat) : option (gset nat) :=
  match l with
  | [] => Some Visited
  | b :: l' => if bool_decide (b ∈ Visited) then clear_visited (Visited ∖ {[b]}) l' else None
  end.

(** The outer [None] is a loop that outruns its fuel, the inner one a failed
    assertion; otherwise the final function, the blocks in the order they were
    translated and the visited bits left.  An import-only compilation returns
    before the flow graph is built.  The data-flow loop of the verifier runs
    over a worklist that nothing fills. *)
Definition msilToIR (fuel : nat) (g : fg) (FgHead : nat) : option (option (fg * list nat * gset nat)) :=
  if IsImportOnly then Some (Some (g, [], ∅)) else
  Visited ← discover fuel g FgHead;
  match V ← Visited; l ← msil_order g V (from_block (order g) FgHead) 0; Some (V, l) with
  | None => Some None
  | Some (V, l) =>
      r ← while_fuel fuel process_step (Process g V [] l);
      Some (s ← r;
            let '(gp, Vp) := readerPostVisit (Graph s) (VisitedBlocks s) in
            let g' := removeUnreachableBlocks gp in
            V' ← clear_visited Vp (from_block (order g') FgHead);
            Some (g', Before s, V'))
  end.

End Process.

(** ** Iterators run through the edges *)

Definition succ_edges (it : SuccessorEdgeIterator) : list (nat * nat) :=
  pair (SuccSource it) <$> option_list (NominalSucc it) ++ SuccIterator it.
Definition pred_edges (it : PredecessorEdgeIterator) : list (nat * nat) :=
  (fun p => (p, PredSink it)) <$> PredIterator it.

#[export] Instance succ_laws : EdgeIteratorLaws SuccessorEdgeIterator succ_edges.
Proof.
  split; intros [n [|s l] [p|]]; try reflexivity; unfold succ_edges; simpl; intros; simplify_eq/=;
    try reflexivity.
Qed.

#[export] Instance pred_laws : EdgeIteratorLaws PredecessorEdgeIterator pred_edges.
Proof.
  split; intros [n [|p l]]; try reflexivity; unfold pred_edges; simpl; intros; simplify_eq/=;
    try reflexivity.
Qed.

(** A left fold that may fail. *)
Fixpoint fold_opt {S A : Type} (f : S -> A -> option S) (s : S) (l : list A) : option S :=
  match l with
  | [] => Some s
  | a :: l' => s ← f s a; fold_opt f s l'
  end.

(** A loop whose body only looks at the sink is a fold over the sinks. *)
Lemma for_edges_sinks {I S : Type} `{EdgeIteratorLaws I edges} (body : S -> I -> option S)
    (f : S -> nat -> option S) :
  (forall s it t, getSink it = Some t -> body s it = f s t) ->
  forall fuel it s, (length (edges it) < fuel)%nat ->
  for_edges fuel it body s = fold_opt f s (snd <$> edges it).
Proof.
  intros Hf fuel. induction fuel as [|fuel IH]; intros it s Hl; [lia|]. simpl.
  rewrite end_nil. destruct (edges it) as [|[a t] l] eqn:He; [done|]. simpl.
  rewrite (Hf s it t (sink_head it a t l He)). destruct (f s t); [|done]. simpl in *.
  rewrite IH by (rewrite (move_tail it _ l He); lia). by rewrite (move_tail it _ l He).
Qed.

(** Successors as the reader sees them, the nominal one first. *)
Definition succs (g : fg) (n : nat) : list nat := snd <$> succ_edges (fgNodeGetSuccessors g n).
Definition edge (g : fg) (a b : nat) : Prop := b ∈ succs g a.
Definition term_edge (g : fg) (a b : nat) : Prop := b ∈ term_succs g a.

Lemma succ_fuel_enough (it : SuccessorEdgeIterator) : (length (succ_edges it) < succ_fuel it)%nat.
Proof.
  unfold succ_edges, succ_fuel. rewrite length_fmap, length_app.
  destruct (NominalSucc it); simpl; lia.
Qed.

Lemma for_succs {S : Type} (g : fg) (n : nat) (body : S -> SuccessorEdgeIterator -> option S) f s :
  (forall s it t, getSink it = Some t -> body s it = f s t) ->
  for_edges (succ_fuel (fgNodeGetSuccessors g n)) (fgNodeGetSuccessors g n) body s =
  fold_opt f s (succs g n).
Proof. intros Hf. apply (for_edges_sinks body f Hf). apply succ_fuel_enough. Qed.

Lemma elem_of_preds (g : fg) (p n : nat) : p ∈ preds g n <-> term_edge g p n.
Proof.
  unfold preds, term_edge, term_succs. rewrite list_elem_of_bind. split.
  - intros ([q N] & Hp & HN%elem_of_map_to_list). apply list_elem_of_fmap in Hp as (s & -> & Hs).
    apply list_elem_of_filter in Hs as [-> Hs]. by rewrite HN.
  - destruct (nodes g !! p) as [N|] eqn:HN; [|by rewrite elem_of_nil].
    intros Hn. exists (p, N). split; [|by apply elem_of_map_to_list].
    apply list_elem_of_fmap. exists n. split; [done|]. by apply list_elem_of_filter.
Qed.

(** ** Predecessors *)

Lemma skip_pred_nominal (g : fg) (n : nat) (ps : list nat) (fuel : nat) :
  (length ps < fuel)%nat ->
  skip_nominal fuel g (PredIt n ps) = if is_eh_pad g n then PredIt n [] else PredIt n ps.
Proof.
  revert ps. induction fuel as [|fuel IH]; intros ps Hl; [lia|].
  destruct ps as [|p ps]; cbn [skip_nominal isEnd PredecessorEdgeIteratorImpl PredIterator negb andb].
  - by destruct (is_eh_pad g n).
  - unfold fgEdgeIsNominal. cbn [getSink PredecessorEdgeIteratorImpl PredSink].
    destruct (is_eh_pad g n) eqn:He; [|done].
    cbn [moveNext PredecessorEdgeIteratorImpl PredIterator PredSink tail]. by rewrite IH by (simpl in Hl; lia).
Qed.

(** Predecessors along the edges that are not nominal. *)
Definition actual_preds (g : fg) (n : nat) : list nat := if is_eh_pad g n then [] else preds g n.

Lemma preds_actual (g : fg) (n : nat) :
  fgNodeGetPredecessorsActual g n = PredIt n (actual_preds g n).
Proof.
  unfold fgNodeGetPredecessorsActual, fgNodeGetPredecessors, actual_preds.
  rewrite skip_pred_nominal by (unfold pred_fuel; simpl; lia). by destruct (is_eh_pad g n).
Qed.

Lemma move_next_actual (g : fg) (n p : nat) (ps : list nat) :
  is_eh_pad g n = false ->
  fgEdgeIteratorMoveNextPredecessorActual g (PredIt n (p :: ps)) = PredIt n ps.
Proof.
  intros He. unfold fgEdgeIteratorMoveNextPredecessorActual. cbn [moveNext PredecessorEdgeIteratorImpl PredSink PredIterator tail].
  rewrite skip_pred_nominal by (unfold pred_fuel; simpl; lia). by rewrite He.
Qed.

Definition stack_preds (g : fg) (ps : list nat) : list nat := filter (fun p => propagates g p = true) ps.

Lemma multiple_scan_spec (g : fg) (n : nat) (He : is_eh_pad g n = false) (ps : list nat) :
  forall fuel count, (length ps < fuel)%nat -> (count <= 1)%nat ->
  multiple_scan fuel g (PredIt n ps) count = (1 <? count + length (stack_preds g ps))%nat.
Proof.
  induction ps as [|p ps IH]; intros [|fuel] count Hl Hc; try (simpl in Hl; lia).
  - symmetry. apply Nat.ltb_ge. simpl. lia.
  - cbn [multiple_scan isEnd PredecessorEdgeIteratorImpl PredIterator getSource head].
    unfold stack_preds. rewrite filter_cons, move_next_actual by done. fold (stack_preds g ps).
    destruct (propagates g p) eqn:Hp; destruct (decide (_ = true)); try congruence.
    + destruct (Nat.ltb_spec 1 (S count)) as [Hc1|Hc1].
      * symmetry. apply Nat.ltb_lt. simpl. lia.
      * rewrite IH by (simpl in *; lia). simpl length. f_equal. lia.
    + destruct (Nat.ltb_spec 1 count); [lia|]. apply IH; simpl in *; lia.
Qed.

Lemma none_scan_spec (g : fg) (n : nat) (He : is_eh_pad g n = false) (ps : list nat) :
  forall fuel, (length ps < fuel)%nat ->
  none_scan fuel g (PredIt n ps) = bool_decide (stack_preds g ps = []).
Proof.
  induction ps as [|p ps IH]; intros [|fuel] Hl; try (simpl in Hl; lia); [done|].
  cbn [none_scan isEnd PredecessorEdgeIteratorImpl PredIterator getSource head].
  unfold stack_preds. rewrite filter_cons, move_next_actual by done. fold (stack_preds g ps).
  destruct (propagates g p) eqn:Hp; destruct (decide (_ = true)); try congruence.
  - symmetry. by apply bool_decide_eq_false.
  - apply IH. simpl in *; lia.
Qed.

Lemma preds_propagating_spec (g : fg) (n : nat) :
  fgNodeHasMultiplePredsPropagatingStack g n =
    (1 <? length (stack_preds g (actual_preds g n)))%nat /\
  fgNodeHasNoPredsPropagatingStack g n = bool_decide (stack_preds g (actual_preds g n) = []).
Proof.
  unfold fgNodeHasMultiplePredsPropagatingStack, fgNodeHasNoPredsPropagatingStack.
  rewrite preds_actual. unfold pred_fuel, actual_preds. simpl PredIterator.
  destruct (is_eh_pad g n) eqn:He; [done|].
  rewrite (multiple_scan_spec g n He), (none_scan_spec g n He) by lia. done.
Qed.

(** ** Discovery *)

(** The fold over the successors pushes each unvisited one once. *)
Lemma prepend_fold (n : nat) (l : list nat) : forall wl V,
  Forall (fun w => Block w ∈ V) wl ->
  exists new, fold_opt (fun (s : walk_state) Successor =>
      let '(Worklist, Visited) := s in
      if bool_decide (Successor ∈ Visited) then Some s
      else if bool_decide (Successor ∈ Block <$> Worklist) then None
      else Some (WorkItem Successor (Some n) :: Worklist, {[Successor]} ∪ Visited)) (wl, V) l
    = Some (((fun s => WorkItem s (Some n)) <$> new) ++ wl, list_to_set new ∪ V) /\
    NoDup new /\ (forall s, s ∈ new -> s ∉ V /\ s ∈ l) /\ (forall s, s ∈ l -> s ∈ new \/ s ∈ V).
Proof.
  induction l as [|t l IH]; intros wl V Hwl; cbn [fold_opt].
  - exists []. split_and!; [simpl; do 2 f_equal; set_solver|constructor|set_solver..].
  - destruct (bool_decide_reflect (t ∈ V)) as [Ht|Ht]; cbn [mbind option_bind].
    + destruct (IH wl V Hwl) as (new & -> & Hnd & Hin & Hall). exists new. split; [done|]. split; [done|].
      split; [set_solver|]. intros s [->|Hs]%elem_of_cons; [by right|by apply Hall].
    + rewrite bool_decide_false; cbn [mbind option_bind].
      2:{ intros (w & -> & Hw)%list_elem_of_fmap. rewrite Forall_forall in Hwl. by apply Ht, Hwl. }
      destruct (IH (WorkItem t (Some n) :: wl) ({[t]} ∪ V)) as (new & -> & Hnd & Hin & Hall).
      { constructor; [set_solver|]. eapply Forall_impl; [exact Hwl|]. set_solver. }
      exists (new ++ [t]). split_and!.
      * rewrite fmap_app, <- app_assoc. simpl. do 2 f_equal. rewrite list_to_set_app_L. set_solver.
      * apply NoDup_app. split; [done|]. split; [|by apply NoDup_singleton].
        intros s Hs. destruct (Hin s Hs). set_solver.
      * intros s [Hs|Hs]%elem_of_app; [destruct (Hin s Hs); set_solver|set_solver].
      * intros s [->|Hs]%elem_of_cons; [set_solver|]. destruct (Hall s Hs); set_solver.
Qed.

Lemma prepend_spec (g : fg) (n : nat) (wl : list FlowGraphNodeWorkList) (V : gset nat) :
  Forall (fun w => Block w ∈ V) wl ->
  exists new, fgPrependUnvisitedSuccToWorklist g (wl, V) n
    = Some (((fun s => WorkItem s (Some n)) <$> new) ++ wl, list_to_set new ∪ V) /\
    NoDup new /\ (forall s, s ∈ new -> s ∉ V /\ edge g n s) /\ (forall s, edge g n s -> s ∈ new \/ s ∈ V).
Proof.
  intros Hwl. unfold fgPrependUnvisitedSuccToWorklist.
  rewrite (for_succs g n _ (fun (s : walk_state) Successor =>
      let '(Worklist, Visited) := s in
      if bool_decide (Successor ∈ Visited) then Some s
      else if bool_decide (Successor ∈ Block <$> Worklist) then None
      else Some (WorkItem Successor (Some n) :: Worklist, {[Successor]} ∪ Visited))).
  - by apply prepend_fold.
  - intros [w V'] it t Ht. unfold prepend_succ. by rewrite Ht.
Qed.

(** Edges stay inside the function. *)
Definition closed (g : fg) : Prop :=
  forall a b, a ∈ dom (nodes g) -> edge g a b -> b ∈ dom (nodes g).

Record discover_inv (g : fg) (FgHead : nat) (s : walk_state) : Prop := {
  di_head : FgHead ∈ s.2;
  di_dom : s.2 ⊆ dom (nodes g);
  di_reach : forall x, x ∈ s.2 -> rtc (edge g) FgHead x;
  di_work : Forall (fun w => Block w ∈ s.2) s.1;
  di_closed : forall x, x ∈ s.2 -> x ∈ Block <$> s.1 \/ forall y, edge g x y -> y ∈ s.2 }.

Definition discover_measure (g : fg) (s : walk_state) : nat :=
  size (dom (nodes g) ∖ s.2) + length s.1.

Lemma size_new (D V : gset nat) (new : list nat) :
  NoDup new -> (forall s, s ∈ new -> s ∉ V /\ s ∈ D) ->
  (size (D ∖ (list_to_set new ∪ V)) + length new = size (D ∖ V))%nat.
Proof.
  intros Hnd Hin. rewrite <- (size_list_to_set (C := gset nat) new) by done.
  rewrite Nat.add_comm, <- size_union by set_solver. f_equal. apply leibniz_equiv. intros x.
  rewrite elem_of_union, !elem_of_difference, elem_of_union, elem_of_list_to_set.
  destruct (decide (x ∈ new)) as [Hx|Hx]; [destruct (Hin x Hx)|]; naive_solver.
Qed.

Lemma discover_step_ok (g : fg) (FgHead : nat) (s : walk_state) :
  closed g -> discover_inv g FgHead s ->
  match discover_step g s with
  | inl s' => discover_inv g FgHead s' /\ (discover_measure g s' < discover_measure g s)%nat
  | inr r => r = Some s.2 /\ s.1 = []
  end.
Proof.
  intros Hc [Hh Hd Hr Hw Hcl]. destruct s as [[|[n p] wl] V]; unfold discover_step; simpl in *; [done|].
  apply Forall_cons in Hw as [Hn Hw]. simpl in Hn.
  destruct (prepend_spec g n wl V Hw) as (new & -> & Hnd & Hin & Hall). split.
  - split; simpl.
    + set_solver.
    + intros s [Hs%elem_of_list_to_set|Hs]%elem_of_union; [|by apply Hd].
      destruct (Hin s Hs). eapply Hc; [|done]. by apply Hd.
    + intros s [Hs%elem_of_list_to_set|Hs]%elem_of_union; [|by apply Hr].
      eapply rtc_r; [by apply Hr|]. by apply Hin.
    + apply Forall_app. split.
      * apply Forall_forall. intros w (s & -> & Hs)%list_elem_of_fmap. simpl. set_solver.
      * eapply Forall_impl; [exact Hw|]. set_solver.
    + rewrite fmap_app. intros x [Hx%elem_of_list_to_set|Hx]%elem_of_union.
      * left. apply elem_of_app. left. apply list_elem_of_fmap. exists (WorkItem x (Some n)).
        split; [done|]. apply list_elem_of_fmap. by exists x.
      * destruct (Hcl x Hx) as [Hxw|Hxc].
        -- apply elem_of_cons in Hxw as [->|Hxw].
           ++ right. intros y Hy. destruct (Hall y Hy); set_solver.
           ++ left. apply elem_of_app. by right.
        -- right. intros y Hy. specialize (Hxc y Hy). set_solver.
  - unfold discover_measure. simpl. rewrite length_app, length_fmap.
    pose proof (size_new (dom (nodes g)) V new Hnd) as Hs. simpl. rewrite <- Hs; [lia|].
    intros s Hs'. destruct (Hin s Hs'). split; [done|]. eapply Hc; [|done]. by apply Hd.
Qed.

Lemma discover_spec (g : fg) (FgHead : nat) :
  closed g -> FgHead ∈ dom (nodes g) ->
  exists V, discover (S (size (nodes g))) g FgHead = Some (Some V) /\
    forall n, n ∈ V <-> rtc (edge g) FgHead n.
Proof.
  intros Hc Hh.
  assert (Hinit : discover_inv g FgHead ([WorkItem FgHead None], {[FgHead]})).
  { split; simpl; [set_solver..| |].
    - constructor; [set_solver|constructor].
    - intros x ->%elem_of_singleton. left. set_solver. }
  assert (Hm : (discover_measure g ([WorkItem FgHead None], {[FgHead]}) < S (size (nodes g)))%nat).
  { unfold discover_measure. simpl. rewrite size_difference by set_solver.
    rewrite size_singleton, size_dom. assert (size (nodes g) <> 0)%nat; [|lia].
    intros H0%map_size_empty_inv. rewrite H0 in Hh. set_solver. }
  destruct (while_fuel_total (discover_step g) (discover_inv g FgHead) (discover_measure g))
    with (n := S (size (nodes g))) (s := ([WorkItem FgHead None], {[FgHead]} : gset nat)) as [r Hrun]; [|done..|].
  { intros s s' Hi Hs. pose proof (discover_step_ok g FgHead s Hc Hi) as Hok. by rewrite Hs in Hok. }
  apply (while_fuel_inv (discover_step g) (discover_inv g FgHead)
    (fun r => exists V, r = Some V /\ forall n, n ∈ V <-> rtc (edge g) FgHead n)) in Hrun as HQ; [| | |done].
  - destruct HQ as (V & -> & HV). by exists V.
  - intros s s' Hi Hs. pose proof (discover_step_ok g FgHead s Hc Hi) as Hok. rewrite Hs in Hok. apply Hok.
  - intros s r' Hi Hs. pose proof (discover_step_ok g FgHead s Hc Hi) as Hok. rewrite Hs in Hok.
    destruct Hok as [-> Hnil]. exists s.2. split; [done|]. intros n. split; [apply Hi|]. intros Hn.
    refine (rtc_ind_r (fun n => n ∈ s.2) FgHead (di_head _ _ _ Hi) _ n Hn). intros y z _ Hyz IH.
    destruct (di_closed g FgHead s Hi y IH) as [Hw|Hw]; [|by apply Hw].
    rewrite Hnil in Hw. set_solver.
Qed.

(** ** Offset order *)

(** [b] lies behind [a] in the MSIL. *)
Definition offset_before (g : fg) (a b : nat) : Prop :=
  match nodes g !! a, nodes g !! b with
  | Some A, Some B => EndMSILOffset A <= StartMSILOffset B
  | _, _ => False
  end.

Lemma msil_order_spec (g : fg) (V : gset nat) (l : list nat) : forall Last,
  (forall b, b ∈ l -> b ∈ V -> b ∈ dom (nodes g)) ->
  StronglySorted (offset_before g) l ->
  (forall b B, b ∈ l -> nodes g !! b = Some B -> Last <= StartMSILOffset B) ->
  msil_order g V l Last = Some (filter (fun b => b ∈ V) l).
Proof.
  induction l as [|b l IH]; intros Last Hd Hs Hl; [done|]. cbn [msil_order].
  inversion Hs as [|? ? Hs' Hb]; subst. rewrite filter_cons.
  destruct (bool_decide_reflect (b ∈ V)) as [HV|HV]; destruct (decide (b ∈ V)); try done.
  - pose proof (Hd b ltac:(constructor) HV) as [B HB]%elem_of_dom.
    rewrite HB. cbn [mbind option_bind]. specialize (Hl b B) as HlB.
    rewrite (proj2 (Z.leb_le _ _)) by (apply HlB; [constructor|done]).
    rewrite IH; [done| |done|].
    + intros c Hc. apply Hd. by constructor.
    + intros c C Hc HC. rewrite Forall_forall in Hb. specialize (Hb c Hc).
      unfold offset_before in Hb. by rewrite HB, HC in Hb.
  - apply IH; [|done|].
    + intros c Hc. apply Hd. by constructor.
    + intros c C Hc. apply Hl. by constructor.
Qed.

(** ** Translation *)

Section Translation.

Context (read : fg -> nat -> fg) (VN VC : bool).
Context (FgHead : nat) (U R0 : gset nat) (P : fg -> Prop) (l0 : list nat).

(** A successor the traversal may insert behind the block. *)
Definition fresh_ok (g : fg) (n s : nat) : Prop :=
  fgNodeHasMultiplePredsPropagatingStack g s = false /\
  propagates g n || fgNodeHasNoPredsPropagatingStack g s = true.

(** What the traversal relies on when it translates a block: the function
    stays closed and finite, only the block's own edges change, and each new
    edge leads to a block reachable before the translation or to one that may
    be inserted. *)
Record translation_ok : Prop := {
  tr_closed : forall g, P g -> closed g /\ dom (nodes g) ⊆ U;
  tr_step : forall g n, P g -> n ∈ dom (nodes g) ->
    P (read g n) /\ dom (nodes g) ⊆ dom (nodes (read g n));
  tr_frame : forall g n m, P g -> n ∈ dom (nodes g) -> m ∈ dom (nodes g) -> m <> n ->
    succs (read g n) m = succs g m;
  tr_fresh : forall g n s, P g -> n ∈ dom (nodes g) -> edge (read g n) n s ->
    s ∈ R0 \/ fresh_ok (read g n) n s }.

Context (Hread : translation_ok).

Record process_inv (s : process_state) : Prop := {
  pi_graph : P (Graph s);
  pi_nodup : NoDup (Before s ++ todo s);
  pi_visited : VisitedBlocks s = list_to_set (Before s ++ todo s);
  pi_dom : VisitedBlocks s ⊆ dom (nodes (Graph s));
  pi_sub : l0 `sublist_of` Before s ++ todo s;
  pi_old : R0 ⊆ VisitedBlocks s;
  pi_head : FgHead ∈ VisitedBlocks s;
  pi_closed : forall x y, x ∈ Before s -> edge (Graph s) x y -> y ∈ VisitedBlocks s }.

Definition process_measure (s : process_state) : nat :=
  size (U ∖ VisitedBlocks s) + length (todo s).

Lemma insert_fold (g : fg) (n : nat) (l : list nat) : forall V after,
  R0 ⊆ V -> (forall s, s ∈ l -> s ∈ R0 \/ fresh_ok g n s) ->
  exists new, fold_opt (fun (s : gset nat * list nat) Successor =>
      let '(Visited, after) := s in
      if bool_decide (Successor ∈ Visited) then Some s
      else if fgNodeHasMultiplePredsPropagatingStack g Successor then None
      else if propagates g n || fgNodeHasNoPredsPropagatingStack g Successor
      then Some ({[Successor]} ∪ Visited, Successor :: after)
      else None) (V, after) l = Some (list_to_set new ∪ V, new ++ after) /\
    NoDup new /\ (forall s, s ∈ new -> s ∉ V /\ s ∈ l) /\ (forall s, s ∈ l -> s ∈ new \/ s ∈ V).
Proof.
  induction l as [|t l IH]; intros V after HR Hok; cbn [fold_opt].
  - exists []. split_and!; [simpl; f_equal; f_equal; set_solver|constructor|set_solver..].
  - destruct (bool_decide_reflect (t ∈ V)) as [Ht|Ht]; cbn [mbind option_bind].
    + destruct (IH V after HR) as (new & -> & Hnd & Hin & Hall); [set_solver|].
      exists new. split; [done|]. split; [done|]. split; [set_solver|].
      intros s [->|Hs]%elem_of_cons; [by right|by apply Hall].
    + destruct (Hok t) as [Hr|[Hm Hp]]; [constructor|set_solver|]. rewrite Hm, Hp. cbn [mbind option_bind].
      destruct (IH ({[t]} ∪ V) (t :: after)) as (new & -> & Hnd & Hin & Hall); [set_solver..|].
      exists (new ++ [t]). split_and!.
      * rewrite <- app_assoc. simpl. do 2 f_equal. rewrite list_to_set_app_L. set_solver.
      * apply NoDup_app. split; [done|]. split; [|by apply NoDup_singleton].
        intros s Hs. destruct (Hin s Hs). set_solver.
      * intros s [Hs|Hs]%elem_of_app; [destruct (Hin s Hs); set_solver|set_solver].
      * intros s [->|Hs]%elem_of_cons; [set_solver|]. destruct (Hall s Hs); set_solver.
Qed.

Lemma process_step_ok (s : process_state) :
  process_inv s ->
  match process_step read false VN VC s with
  | inl s' => process_inv s' /\ (process_measure s' < process_measure s)%nat
  | inr r => r = Some s /\ todo s = []
  end.
Proof.
  intros [Hg Hnd Hv Hd Hsub Ho Hh Hc]. unfold process_step.
  destruct s as [g V bef [|n after]]; [done|].
  cbn [Graph VisitedBlocks Before todo] in *.
  assert (Hn : n ∈ dom (nodes g)) by (apply Hd; set_solver).
  destruct (tr_step Hread g n Hg Hn) as [Hg' Hgrow].
  destruct (tr_closed Hread (read g n) Hg') as [Hcl HU].
  rewrite (for_succs (read g n) n _ (fun (s : gset nat * list nat) Successor =>
      let '(Visited, after) := s in
      if bool_decide (Successor ∈ Visited) then Some s
      else if fgNodeHasMultiplePredsPropagatingStack (read g n) Successor then None
      else if propagates (read g n) n || fgNodeHasNoPredsPropagatingStack (read g n) Successor
      then Some ({[Successor]} ∪ Visited, Successor :: after)
      else None)) by (intros [w V'] it t Ht; unfold insert_succ; by rewrite Ht).
  destruct (insert_fold (read g n) n (succs (read g n) n) V after Ho) as (new & -> & Hndn & Hin & Hall).
  { intros s Hs. by apply (tr_fresh Hread g n s). }
  assert (Hdom : list_to_set new ∪ V ⊆ dom (nodes (read g n))).
  { intros s [Hs%elem_of_list_to_set|Hs]%elem_of_union; [|set_solver].
    destruct (Hin s Hs) as [_ He]. apply (Hcl n s); [set_solver|done]. }
  split.
  - split; simpl; [done| | |done| |set_solver..|].
    + rewrite <- app_assoc. simpl. apply NoDup_app in Hnd as (Hb & Hdis & Ha).
      apply NoDup_cons in Ha as [Hna Ha]. apply NoDup_app. split; [done|].
      assert (Hfresh : forall x, x ∈ new -> x ∉ bef /\ x <> n /\ x ∉ after).
      { intros x Hx. destruct (Hin x Hx) as [HxV _]. rewrite Hv in HxV. set_solver. }
      split.
      * intros x Hx [->|[Hy|Hy]%elem_of_app]%elem_of_cons;
          [apply (Hdis n Hx); set_solver|by destruct (Hfresh x Hy)|apply (Hdis x Hx); set_solver].
      * apply NoDup_cons. split.
        -- intros [Hy|Hy]%elem_of_app; [by destruct (Hfresh n Hy) as (_ & ? & _)|done].
        -- apply NoDup_app. split; [done|]. split; [|done]. intros x Hx. by destruct (Hfresh x Hx) as (_ & _ & ?).
    + rewrite Hv, !list_to_set_app_L, !list_to_set_cons. set_solver.
    + etrans; [exact Hsub|]. rewrite <- app_assoc. apply sublist_app; [done|]. simpl.
      apply sublist_skip, sublist_inserts_l. done.
    + intros x y [Hx|Hx]%elem_of_app Hxy.
      * unfold edge in Hxy. rewrite (tr_frame Hread g n x Hg Hn) in Hxy; [| |].
        -- apply elem_of_union_r. by apply (Hc x).
        -- apply Hd. rewrite Hv. set_solver.
        -- intros ->. apply NoDup_app in Hnd as (_ & Hdis & _). apply (Hdis n Hx). constructor.
      * apply list_elem_of_singleton in Hx as ->. destruct (Hall y Hxy); set_solver.
  - unfold process_measure. simpl. rewrite length_app.
    pose proof (size_new U V new Hndn) as Hs. simpl. rewrite <- Hs; [lia|].
    intros s Hs'. destruct (Hin s Hs') as [? ?]. split; [done|]. set_solver.
Qed.

Lemma process_spec (s : process_state) :
  process_inv s ->
  exists s', while_fuel (S (process_measure s)) (process_step read false VN VC) s = Some (Some s') /\
    process_inv s' /\ todo s' = [].
Proof.
  intros Hs.
  destruct (while_fuel_total (process_step read false VN VC) process_inv process_measure) with
    (n := S (process_measure s)) (s := s) as [r Hrun]; [|done|lia|].
  { intros t t' Hi Ht. pose proof (process_step_ok t Hi) as Hok. by rewrite Ht in Hok. }
  apply (while_fuel_inv (process_step read false VN VC) process_inv
    (fun r => exists s', r = Some s' /\ process_inv s' /\ todo s' = [])) in Hrun as HQ; [| | |done].
  - destruct HQ as (s' & -> & ?). by exists s'.
  - intros t t' Hi Ht. pose proof (process_step_ok t Hi) as Hok. rewrite Ht in Hok. apply Hok.
  - intros t r' Hi Ht. pose proof (process_step_ok t Hi) as Hok. rewrite Ht in Hok.
    destruct Hok as [-> Hnil]. by exists t.
Qed.

End Translation.

(** ** After the translation *)

(** What the traversal relies on of the actions after the last block: every
    block is one that was there or a clone of one, [orig]; an edge leads to the
    clone of an edge's end; and the clone of a visited block is visited. *)
Record post_ok (post : fg -> gset nat -> fg * gset nat) (orig : nat -> nat) (P : fg -> Prop)
    (FgHead : nat) : Prop := {
  po_closed : forall g V, P g -> closed (post g V).1 /\ FgHead ∈ dom (nodes (post g V).1);
  po_edge : forall g V a b, P g -> edge (post g V).1 a b -> edge g (orig a) (orig b);
  po_head : orig FgHead = FgHead;
  po_visited : forall g V b, P g -> b ∈ dom (nodes (post g V).1) -> orig b ∈ V -> b ∈ (post g V).2 }.

Lemma post_reach post orig P FgHead g V b :
  post_ok post orig P FgHead -> P g ->
  rtc (edge (post g V).1) FgHead b -> rtc (edge g) FgHead (orig b) /\ b ∈ dom (nodes (post g V).1).
Proof.
  intros Hp HP Hb. destruct (po_closed _ _ _ _ Hp g V HP) as [Hc Hh].
  refine (rtc_ind_r (fun b => rtc (edge g) FgHead (orig b) /\ b ∈ dom (nodes (post g V).1)) FgHead _ _ b Hb).
  - by rewrite (po_head _ _ _ _ Hp).
  - intros y z _ Hyz [Hy Hd]. split; [|by apply (Hc y)].
    eapply rtc_r; [exact Hy|]. by apply (po_edge _ _ _ _ Hp g V).
Qed.

(** ** Unreachable blocks *)

(** What the code relies on of LLVM: only blocks reachable from the head are
    left behind it, each once. *)
Definition removal_ok (removeUnreachableBlocks : fg -> fg) (FgHead : nat) : Prop := forall g,
  closed g -> FgHead ∈ dom (nodes g) ->
  NoDup (from_block (order (removeUnreachableBlocks g)) FgHead) /\
  forall b, b ∈ from_block (order (removeUnreachableBlocks g)) FgHead -> rtc (edge g) FgHead b.

Lemma clear_visited_spec (l : list nat) : forall V,
  NoDup l -> (forall b, b ∈ l -> b ∈ V) ->
  exists V', clear_visited V l = Some V' /\ forall b, b ∈ V' <-> b ∈ V /\ b ∉ l.
Proof.
  induction l as [|b l IH]; intros V Hnd Hin; cbn [clear_visited].
  - exists V. split; [done|]. set_solver.
  - apply NoDup_cons in Hnd as [Hb Hnd]. rewrite bool_decide_true by (apply Hin; constructor).
    destruct (IH (V ∖ {[b]}) Hnd) as (V' & -> & HV').
    + intros c Hc. assert (c <> b) by (intros ->; done). specialize (Hin c). set_solver.
    + exists V'. split; [done|]. intros c. rewrite HV'. set_solver.
Qed.

Lemma closed_reach (g : fg) (FgHead : nat) (V : gset nat) (b : nat) :
  FgHead ∈ V -> (forall x y, x ∈ V -> edge g x y -> y ∈ V) -> rtc (edge g) FgHead b -> b ∈ V.
Proof.
  intros Hh Hc Hb. refine (rtc_ind_r (fun b => b ∈ V) FgHead Hh _ b Hb).
  intros y z _ Hyz Hy. by apply (Hc y).
Qed.

(** ** Dominance *)

(** Paths along the terminators' edges, as the list of blocks visited. *)
Inductive path (g : fg) (a : nat) : list nat -> nat -> Prop :=
  | path_nil : path g a [a] a
  | path_snoc l b c : path g a l b -> term_edge g b c -> path g a (l ++ [c]) c.

Definition dominates (g : fg) (Entry d n : nat) : Prop := forall l, path g Entry l n -> d ∈ l.

Lemma getNextIDom_edge (g : fg) (n d : nat) :
  getNextIDom g n = Some d -> forall p, term_edge g p n -> p = d.
Proof.
  unfold getNextIDom. destruct (preds g n) as [|q [|? ?]] eqn:Hp; try done. intros [= ->] p He.
  apply elem_of_preds in He. rewrite Hp in He. by apply list_elem_of_singleton in He.
Qed.

Lemma getNextIDom_dominates (g : fg) (Entry n d m : nat) :
  Entry <> n -> getNextIDom g n = Some d -> dominates g Entry n m \/ n = m -> dominates g Entry d m.
Proof.
  intros Hn Hd Hm.
  assert (Hdn : forall l b, path g Entry l b -> n ∈ l -> d ∈ l).
  { intros l b Hp. induction Hp as [|l b c Hp IH He].
    - by intros ->%list_elem_of_singleton.
    - intros [Hl|Hc%list_elem_of_singleton]%elem_of_app; [apply elem_of_app; left; by apply IH|].
      subst c. apply (getNextIDom_edge g n d Hd) in He as ->. apply elem_of_app. left.
      clear -Hp. inversion Hp; subst; [constructor|apply elem_of_app; right; constructor]. }
  intros l Hp. apply (Hdn l m Hp). destruct Hm as [Hm|<-]; [by apply Hm|].
  inversion Hp; subst; [constructor|apply elem_of_app; right; constructor].
Qed.

(** Walking up from a block the entry reaches in [k] steps ends within them. *)
Lemma idom_walk_spec (g : fg) (T : option nat) (Entry n : nat) :
  preds g Entry = [] ->
  forall k m, nsteps (term_edge g) k Entry m -> (dominates g Entry m n \/ m = n) ->
  exists r, idom_walk (S (S k)) g T n (getNextIDom g m) = Some r /\
    forall d, r = Some d ->
      (dominates g Entry d n /\ (region g d = T \/ region g d = region g n)) /\
      exists j, (j < k)%nat /\ nsteps (term_edge g) j Entry d.
Proof.
  intros He k. induction k as [|k IH]; intros m Hk Hm.
  - inversion Hk; subst. unfold getNextIDom. rewrite He. simpl. exists None. done.
  - apply nsteps_inv_r in Hk as (b & Hk & Hb).
    destruct (getNextIDom g m) as [d|] eqn:Hd; [|exists None; done].
    assert (Hmd : Entry <> m).
    { intros <-. unfold getNextIDom in Hd. by rewrite He in Hd. }
    pose proof (getNextIDom_edge g m d Hd b Hb) as ->.
    pose proof (getNextIDom_dominates g Entry m d n Hmd Hd Hm) as Hdom.
    cbn [idom_walk].
    destruct (bool_decide_reflect (region g d <> T)); simpl.
    + destruct (bool_decide_reflect (region g d <> region g n)).
      * destruct (IH d Hk ltac:(by left)) as (r & Hr & Hd'). exists r. split; [done|].
        intros d2 Hrd. destruct (Hd' d2 Hrd) as [? (j & Hj & Hs)]. split; [done|].
        exists j. split; [lia|done].
      * eexists. split; [done|]. intros ? [= <-].
        split; [split; [done|right; by apply dec_stable]|exists k; split; [lia|done]].
    + eexists. split; [done|]. intros ? [= <-].
      split; [split; [done|left; by apply dec_stable]|exists k; split; [lia|done]].
Qed.

Lemma fgNodeGetIDom_fuel (g : fg) (T : option nat) (n k f : nat) (r : option nat) :
  fgNodeGetIDom k g T n = Some r -> (k <= f)%nat -> fgNodeGetIDom f g T n = Some r.
Proof.
  unfold fgNodeGetIDom. generalize (getNextIDom g n). intros i. revert i f.
  induction k as [|k IH]; intros i [|f] H Hle; [done..|lia|]. simpl in *.
  destruct i as [d|]; [|done]. destruct (_ && _); [|done]. apply IH; [done|lia].
Qed.

Lemma path_through (g : fg) (Entry d n : nat) (l : list nat) :
  path g Entry l n -> d ∈ l -> exists l', path g Entry l' d /\ l' ⊆ l.
Proof.
  intros Hp. induction Hp as [|l b c Hp IH He].
  - intros ->%list_elem_of_singleton. exists [Entry]. split; [constructor|done].
  - intros [Hd|Hd%list_elem_of_singleton]%elem_of_app.
    + destruct (IH Hd) as (l' & ? & ?). exists l'. split; [done|]. set_solver.
    + subst d. exists (l ++ [c]). split; [by econstructor|done].
Qed.

Lemma dominates_trans (g : fg) (Entry a b c : nat) :
  dominates g Entry a b -> dominates g Entry b c -> dominates g Entry a c.
Proof.
  intros Hab Hbc l Hl. destruct (path_through g Entry b c l Hl (Hbc l Hl)) as (l' & Hp & Hsub).
  by apply Hsub, Hab.
Qed.

(** ** Properties *)

(** The worklist loop of [msilToIR] terminates, its assertion that no block
    is on the worklist twice never fails, and the blocks it marks as visited
    are exactly those reachable from the head along terminator edges and the
    nominal edges to the handler pads of their regions. *)
Theorem discover_finds_reachable (g : fg) (FgHead : nat) :
  closed g -> FgHead ∈ dom (nodes g) ->
  exists V, discover (S (size (nodes g))) g FgHead = Some (Some V) /\
    forall n, n ∈ V <-> rtc (edge g) FgHead n.
Proof. apply discover_spec. Qed.

(** Block 0 branches to 1 or 2, both meet in 3, and 4 is unreachable. *)
Definition demo_node (succs : list nat) (s : Z) : fg_node :=
  FgNode succs None false s (s + 2) true None.
Definition demo_fg : fg :=
  Fg {[0%nat := demo_node [1; 2]%nat 0; 1%nat := demo_node [3%nat] 2; 2%nat := demo_node [3%nat] 4;
       3%nat := demo_node [] 6; 4%nat := demo_node [3%nat] 8]} [0; 1; 2; 3; 4]%nat.

Lemma demo_closed : closed demo_fg.
Proof.
  assert (Forall (fun a => Forall (fun b => b ∈ dom (nodes demo_fg)) (succs demo_fg a))
            (elements (dom (nodes demo_fg)))) as H by decide_now.
  intros a b Ha Hb. rewrite Forall_forall in H. apply elem_of_elements, H in Ha.
  rewrite Forall_forall in Ha. by apply Ha.
Qed.

Lemma discover_finds_reachable_witness :
  exists V, discover 6 demo_fg 0 = Some (Some V) /\ size V = 4%nat /\ ~ rtc (edge demo_fg) 0%nat 4%nat.
Proof.
  destruct (discover_finds_reachable demo_fg 0 demo_closed) as (V & Hd & HV); [decide_now|].
  exists V. split; [exact Hd|]. vm_compute in Hd. injection Hd as <-.
  split; [vm_compute; reflexivity|]. rewrite <- (HV 4%nat). refute_now.
Defined.

(** The two stack-propagation checks count the predecessor edges, one per
    use by a terminator, whose source propagates the operand stack: more than
    one of them, none of them.  A block that starts with an exception-handling
    pad has nominal predecessors only, and so none that count. *)
Theorem preds_propagating_correct (g : fg) (n : nat) :
  (fgNodeHasMultiplePredsPropagatingStack g n = true <->
     is_eh_pad g n = false /\ (1 < length (filter (fun p => propagates g p = true) (preds g n)))%nat) /\
  (fgNodeHasNoPredsPropagatingStack g n = true <->
     is_eh_pad g n = true \/ forall p, term_edge g p n -> propagates g p = false).
Proof.
  destruct (preds_propagating_spec g n) as [-> ->]. unfold stack_preds, actual_preds.
  rewrite Nat.ltb_lt, bool_decide_eq_true. destruct (is_eh_pad g n).
  - split; [split; [simpl; lia|by intros [? _]]|]. split; [by left|done].
  - split; [naive_solver|]. split.
    + intros Hf. right. intros p Hp%elem_of_preds. apply not_true_iff_false. intros Ht.
      assert (p ∈ filter (fun p => propagates g p = true) (preds g n)) as Hin
        by by apply list_elem_of_filter.
      rewrite Hf in Hin. by apply elem_of_nil in Hin.
    + intros [?|Hall]; [done|]. apply filter_none. intros p Hp%elem_of_preds.
      by rewrite (Hall p Hp).
Qed.

(** For every block the function's entry reaches, the walk of
    [fgNodeGetIDom] terminates within the length of any path to it, and the
    block it finds, if any, is on every path from the entry to the block and
    lies in the root region or in the region of the block. *)
Theorem fgNodeGetIDom_dominates (g : fg) (EhRegionTree : option nat) (Entry n k : nat) :
  preds g Entry = [] -> nsteps (term_edge g) k Entry n ->
  exists r, fgNodeGetIDom (S (S k)) g EhRegionTree n = Some r /\
    forall d, r = Some d ->
      dominates g Entry d n /\ (region g d = EhRegionTree \/ region g d = region g n).
Proof.
  intros He Hk. destruct (idom_walk_spec g EhRegionTree Entry n He k n Hk) as (r & Hr & Hd); [by right|].
  exists r. split; [done|]. intros d Hrd. by apply (Hd d Hrd).
Qed.

Lemma fgNodeGetIDom_dominates_witness :
  exists r, fgNodeGetIDom 3 demo_fg None 1 = Some r /\ r = Some 0%nat /\ dominates demo_fg 0 0 1.
Proof.
  destruct (fgNodeGetIDom_dominates demo_fg None 0 1 1) as (r & Hr & Hd).
  - vm_compute. reflexivity.
  - apply nsteps_once. unfold term_edge. decide_now.
  - exists r. split; [exact Hr|]. vm_compute in Hr. injection Hr as <-.
    split; [reflexivity|]. exact (proj1 (Hd 0%nat eq_refl)).
Defined.

(** What the traversal needs of the function the flow-graph construction
    leaves: its blocks from the head on are in MSIL order, and every block the
    head reaches is among them. *)
Record function_ok (g : fg) (FgHead : nat) : Prop := {
  fn_closed : closed g;
  fn_head : FgHead ∈ dom (nodes g);
  fn_nodup : NoDup (from_block (order g) FgHead);
  fn_sorted : StronglySorted (offset_before g) (from_block (order g) FgHead);
  fn_start : forall b B, nodes g !! b = Some B -> 0 <= StartMSILOffset B;
  fn_reach : forall b, rtc (edge g) FgHead b -> b ∈ from_block (order g) FgHead }.


(** A translation that splits block 1: its second half, block 5, goes to 3. *)
Definition demo_read (g : fg) (n : nat) : fg :=
  if bool_decide (n = 1%nat) && bool_decide (5%nat ∉ dom (nodes g))
  then Fg (<[1%nat := demo_node [5%nat] 2]> (<[5%nat := demo_node [3%nat] 3]> (nodes g)))
         [0; 1; 5; 2; 3; 4]%nat
  else g.

(** Keeps the blocks that are reachable from block 0. *)
Definition demo_remove (g : fg) : fg :=
  match discover (S (size (nodes g))) g 0 with
  | Some (Some V) => Fg (nodes g) (filter (fun b => b ∈ V) (remove_dups (order g)))
  | _ => Fg (nodes g) []
  end.

Lemma from_block_suffix (l : list nat) (b : nat) : from_block l b `suffix_of` l.
Proof.
  induction l as [|x l IH]; [done|]. simpl. destruct (x =? b)%nat; [done|by apply suffix_cons_r].
Qed.

Lemma demo_removal_ok : removal_ok demo_remove 0.
Proof.
  intros g Hc Hh. unfold demo_remove. destruct (discover_spec g 0 Hc Hh) as (V & -> & HV).
  cbn [order]. destruct (from_block_suffix (filter (fun b => b ∈ V) (remove_dups (order g))) 0) as [pre Hp].
  assert (Hnd : NoDup (filter (fun b => b ∈ V) (remove_dups (order g))))
    by apply NoDup_filter, NoDup_remove_dups.
  split.
  - rewrite Hp in Hnd. by apply NoDup_app in Hnd as (_ & _ & ?).
  - intros b Hb. apply HV. assert (b ∈ filter (fun b => b ∈ V) (remove_dups (order g))) as Hin
      by (rewrite Hp; apply elem_of_app; by right).
    by apply list_elem_of_filter in Hin as [? _].
Qed.

Definition demo_P (g : fg) : Prop := g = demo_fg \/ g = demo_read demo_fg 1.
Definition demo_R0 : gset nat := {[0; 1; 2; 3]}%nat.
Definition demo_U : gset nat := {[0; 1; 2; 3; 4; 5]}%nat.

(** Everything the contract asks of one graph, over its finitely many blocks. *)
Definition demo_contract (g : fg) : Prop :=
  Forall (fun n =>
    Forall (fun s => s ∈ dom (nodes g)) (succs g n) /\
    dom (nodes g) ⊆ dom (nodes (demo_read g n)) /\
    Forall (fun m => m = n \/ succs (demo_read g n) m = succs g m) (elements (dom (nodes g))) /\
    Forall (fun s => s ∈ demo_R0 \/
      (fgNodeHasMultiplePredsPropagatingStack (demo_read g n) s = false /\
       propagates (demo_read g n) n || fgNodeHasNoPredsPropagatingStack (demo_read g n) s = true))
      (succs (demo_read g n) n)) (elements (dom (nodes g))).

Lemma demo_contract_holds (g : fg) (n : nat) : demo_P g -> n ∈ dom (nodes g) ->
  (forall s, edge g n s -> s ∈ dom (nodes g)) /\ dom (nodes g) ⊆ dom (nodes (demo_read g n)) /\
  (forall m, m ∈ dom (nodes g) -> m <> n -> succs (demo_read g n) m = succs g m) /\
  (forall s, edge (demo_read g n) n s -> s ∈ demo_R0 \/ fresh_ok (demo_read g n) n s).
Proof.
  intros HP Hn.
  assert (demo_contract g) as H by (destruct HP as [-> | ->]; unfold demo_contract; decide_now).
  unfold demo_contract in H. rewrite Forall_forall in H.
  destruct (H n (proj2 (elem_of_elements _ _) Hn)) as (H1 & H2 & H3 & H4).
  rewrite Forall_forall in H1, H3, H4. split; [exact H1|]. split; [exact H2|]. split.
  - intros m Hm Hne. by destruct (H3 m (proj2 (elem_of_elements _ _) Hm)).
  - intros s Hs. exact (H4 s Hs).
Qed.

Lemma demo_translation_ok : translation_ok demo_read demo_U demo_R0 demo_P.
Proof.
  split.
  - intros g HP. split; [intros a b Ha; by apply demo_contract_holds|].
    destruct HP as [-> | ->]; decide_now.
  - intros g n HP Hn. split; [|by apply demo_contract_holds].
    unfold demo_read at 1. destruct (bool_decide_reflect (n = 1%nat)) as [->|Hne]; simpl; [|done].
    destruct HP as [-> | ->]; [by right|right; vm_compute; reflexivity].
  - intros g n m HP Hn. by apply demo_contract_holds.
  - intros g n s HP Hn. by apply demo_contract_holds.
Qed.

(** The block where the branches meet is cloned for one of them, as block 6. *)
Definition demo_post (g : fg) (V : gset nat) : fg * gset nat :=
  (Fg (<[2%nat := demo_node [6%nat] 4]> (<[6%nat := demo_node [] 6]> (nodes g))) (order g ++ [6%nat]),
   if bool_decide (3%nat ∈ V) then {[6%nat]} ∪ V else V).
Definition demo_orig (b : nat) : nat := if (b =? 6)%nat then 3%nat else b.

Definition demo_post_contract (g : fg) : Prop :=
  0%nat ∈ dom (nodes (demo_post g ∅).1) /\
  Forall (fun a => Forall (fun b => b ∈ dom (nodes (demo_post g ∅).1) /\
      demo_orig b ∈ succs g (demo_orig a)) (succs (demo_post g ∅).1 a))
    (elements (dom (nodes (demo_post g ∅).1))).

Lemma demo_post_ok : post_ok demo_post demo_orig demo_P 0.
Proof.
  assert (H : forall g V, demo_P g -> 0%nat ∈ dom (nodes (demo_post g V).1) /\
    forall a b, edge (demo_post g V).1 a b ->
      b ∈ dom (nodes (demo_post g V).1) /\ edge g (demo_orig a) (demo_orig b)).
  { intros g V HP. change (demo_post g V).1 with (demo_post g ∅).1.
    assert (demo_post_contract g) as [Hh H] by (destruct HP as [-> | ->]; unfold demo_post_contract; decide_now).
    split; [exact Hh|]. intros a b Hab.
    assert (Ha : a ∈ dom (nodes (demo_post g ∅).1)).
    { apply elem_of_dom. unfold edge, succs, succ_edges, fgNodeGetSuccessors, term_succs, region in Hab.
      destruct (nodes (demo_post g ∅).1 !! a); [by eexists|]. by apply elem_of_nil in Hab. }
    rewrite Forall_forall in H. specialize (H a (proj2 (elem_of_elements _ _) Ha)).
    rewrite Forall_forall in H. exact (H b Hab). }
  split.
  - intros g V HP. destruct (H g V HP) as [Hh He]. split; [|done]. intros a b _ Hab. by apply (He a).
  - intros g V a b HP Hab. by apply (proj2 (H g V HP)).
  - done.
  - intros g V b _ _ Hb. unfold demo_post, demo_orig in *. simpl.
    destruct (b =? 6)%nat eqn:E.
    + apply Nat.eqb_eq in E. rewrite E, bool_decide_true by done. set_solver.
    + destruct (bool_decide _); set_solver.
Qed.

Lemma demo_function_ok : function_ok demo_fg 0.
Proof.
  split; [exact demo_closed|decide_now..| | | ].
  - vm_compute. repeat constructor; congruence.
  - intros b B HB. assert (Forall (fun '(_, B) => 0 <= StartMSILOffset B) (map_to_list (nodes demo_fg))) as H.
    { vm_compute. repeat constructor; congruence. }
    rewrite Forall_forall in H. by apply (H (b, B)), elem_of_map_to_list.
  - destruct (discover_spec demo_fg 0 demo_closed ltac:(decide_now)) as (V & Hd & HV).
    intros b Hb%HV. vm_compute in Hd. injection Hd as <-.
    assert (forall b, b ∈ demo_R0 -> b ∈ from_block (order demo_fg) 0) as H.
    { unfold demo_R0. intros c Hc. assert (c = 0 \/ c = 1 \/ c = 2 \/ c = 3)%nat by set_solver.
      destruct_or!; subst; decide_now. }
    by apply H.
Qed.

