(* ===== verification/DomInfo.v ===== *)
(** * Block data and dominator queries (lib/Reader/reader.cpp)

    The reader remembers in each block which class initialisers the block has
    run and which shared static bases it has computed, and asks a block and its
    dominators before it emits either again.  A pointer is an integer, 0 the
    null pointer; the block data array is indexed by block number, which the
    client supplies. *)

From S2P Require Import Prelude Worklist.

(** The runtime's helper functions the queries distinguish. *)
Inductive CorInfoHelpFunc : Set :=
  | CORINFO_HELP_UNDEF
  | CORINFO_HELP_GETSHARED_GCSTATIC_BASE
  | CORINFO_HELP_GETSHARED_NONGCSTATIC_BASE
  | CORINFO_HELP_GETSHARED_GCSTATIC_BASE_NOCTOR
  | CORINFO_HELP_GETSHARED_NONGCSTATIC_BASE_NOCTOR
  | CORINFO_HELP_GETSHARED_GCTHREADSTATIC_BASE
  | CORINFO_HELP_GETSHARED_NONGCTHREADSTATIC_BASE
  | CORINFO_HELP_GETSHARED_GCTHREADSTATIC_BASE_NOCTOR
  | CORINFO_HELP_GETSHARED_NONGCTHREADSTATIC_BASE_NOCTOR
  | OtherHelper (n : Z).

#[export] Instance CorInfoHelpFunc_eq_dec : EqDecision CorInfoHelpFunc.
Proof. solve_decision. Defined.

(** ** The unsorted list of cached data *)

Record HashListNode := HashNode { Key1 : CorInfoHelpFunc; Key2 : Z; Data : Z }.

Definition FgDataListHash : Type := list HashListNode.

Definition hash_insert (h : FgDataListHash) (k1 : CorInfoHelpFunc) (k2 data : Z) : FgDataListHash :=
  HashNode k1 k2 data :: h.

Fixpoint hash_get (h : FgDataListHash) (k1 : CorInfoHelpFunc) (k2 : Z) : Z :=
  match h with
  | [] => 0
  | n :: h' => if bool_decide (Key1 n = k1) && (Key2 n =? k2) then Data n else hash_get h' k1 k2
  end.

Record FgData := MkFgData { StaticBaseHash : FgDataListHash; ClassInitHash : FgDataListHash }.

Definition empty_data : FgData := MkFgData [] [].

(** The helper that does not run the class constructor. *)
Definition noctor_variant (h : CorInfoHelpFunc) : option CorInfoHelpFunc :=
  match h with
  | CORINFO_HELP_GETSHARED_GCSTATIC_BASE => Some CORINFO_HELP_GETSHARED_GCSTATIC_BASE_NOCTOR
  | CORINFO_HELP_GETSHARED_NONGCSTATIC_BASE => Some CORINFO_HELP_GETSHARED_NONGCSTATIC_BASE_NOCTOR
  | CORINFO_HELP_GETSHARED_GCTHREADSTATIC_BASE =>
      Some CORINFO_HELP_GETSHARED_GCTHREADSTATIC_BASE_NOCTOR
  | CORINFO_HELP_GETSHARED_NONGCTHREADSTATIC_BASE =>
      Some CORINFO_HELP_GETSHARED_NONGCTHREADSTATIC_BASE_NOCTOR
  | _ => None
  end.

Definition class_inited (d : FgData) (c : Z) : bool :=
  negb (hash_get (ClassInitHash d) CORINFO_HELP_UNDEF c =? 0).

(** The base, and whether the class constructor is known to have run. *)
Definition getSharedStaticBase (d : FgData) (h : CorInfoHelpFunc) (c : Z) (NoCtor : bool) : Z * bool :=
  let RetVal := hash_get (StaticBaseHash d) h c in
  if negb (RetVal =? 0) then (RetVal, NoCtor)
  else
    match h with
    | CORINFO_HELP_GETSHARED_GCSTATIC_BASE_NOCTOR
    | CORINFO_HELP_GETSHARED_NONGCSTATIC_BASE_NOCTOR => (0, true)
    | _ =>
        match noctor_variant h with
        | None => (0, if negb NoCtor && class_inited d c then true else NoCtor)
        | Some OtherHelperID =>
            let RetVal := hash_get (StaticBaseHash d) OtherHelperID c in
            (RetVal, if negb (RetVal =? 0) || (negb NoCtor && class_inited d c) then true else NoCtor)
        end
    end.

(** The getters have one shape; this one ignores the flag. *)
Definition getClassInit (d : FgData) (h : CorInfoHelpFunc) (c : Z) (Key3 : bool) : Z * bool :=
  (hash_get (ClassInitHash d) CORINFO_HELP_UNDEF c, Key3).

Definition setSharedStaticBase (d : FgData) (h : CorInfoHelpFunc) (c base : Z) : FgData :=
  MkFgData (hash_insert (StaticBaseHash d) h c base) (ClassInitHash d).
Definition setClassInit (d : FgData) (c : Z) : FgData :=
  MkFgData (StaticBaseHash d) (hash_insert (ClassInitHash d) CORINFO_HELP_UNDEF c 1).

(** ** Queries *)

Section DomInfo.

Context (g : fg) (EhRegionTree : option nat) (fgNodeGetBlockNum : nat -> nat).
Context (generateDebugCode : bool).

(** [None] is the null array of a client that never calls [initBlockArray]. *)
Definition block_array : Type := option (gmap nat FgData).

Definition initBlockArray : block_array := Some ∅.

Definition domInfoGetBlockData (A : block_array) (Fg : nat) (DoCreate : bool)
    : block_array * option FgData :=
  match A with
  | None => (None, None)
  | Some m =>
      match m !! fgNodeGetBlockNum Fg with
      | Some d => (A, Some d)
      | None => if DoCreate then (Some (<[fgNodeGetBlockNum Fg := empty_data]> m), Some empty_data)
                else (A, None)
      end
  end.

(** The loop over a block and its dominators; [None] is out of fuel. *)
Fixpoint dominator_walk (fuel idom_fuel : nat) (A : block_array) (Fg : nat) (RequireSameRegion : bool)
    (Pmfn : FgData -> bool -> Z * bool) (FgCurrent : nat) (Key3 : bool) : option (Z * bool) :=
  match fuel with
  | O => None
  | S fuel' =>
      let '(RetVal, Key3) :=
        if RequireSameRegion && bool_decide (region g Fg <> region g FgCurrent) then (0, Key3)
        else match (domInfoGetBlockData A FgCurrent false).2 with
             | Some d => Pmfn d Key3
             | None => (0, Key3)
             end in
      if negb (RetVal =? 0) then Some (RetVal, Key3)
      else
        Idom ← fgNodeGetIDom idom_fuel g EhRegionTree FgCurrent;
        match Idom with
        | None => Some (0, Key3)
        | Some d => dominator_walk fuel' idom_fuel A Fg RequireSameRegion Pmfn d Key3
        end
  end.

Definition domInfoGetInfoFromDominator (fuel : nat) (A : block_array) (Fg : nat)
    (RequireSameRegion : bool) (Pmfn : FgData -> bool -> Z * bool) (Key3 : bool) : option (Z * bool) :=
  dominator_walk fuel fuel A Fg RequireSameRegion Pmfn Fg Key3.

(** The base, the helper to call instead, and the flag. *)
Definition domInfoDominatorDefinesSharedStaticBase (fuel : nat) (A : block_array) (Fg : nat)
    (h : CorInfoHelpFunc) (c : Z) : option (Z * CorInfoHelpFunc * bool) :=
  if generateDebugCode then Some (0, h, false)
  else
    '(RetVal, NoCtor) ← domInfoGetInfoFromDominator fuel A Fg true
                          (fun d => getSharedStaticBase d h c) false;
    Some (RetVal,
          if (NoCtor : bool) && (RetVal =? 0) then default h (noctor_variant h) else h,
          NoCtor).

Definition domInfoRecordSharedStaticBaseDefine (A : block_array) (Fg : nat) (h : CorInfoHelpFunc)
    (c base : Z) : block_array :=
  if generateDebugCode then A
  else
    match domInfoGetBlockData A Fg true with
    | (Some m, Some d) => Some (<[fgNodeGetBlockNum Fg := setSharedStaticBase d h c base]> m)
    | (A, _) => A
    end.

Definition domInfoDominatorHasClassInit (fuel : nat) (A : block_array) (Fg : nat) (c : Z) : option bool :=
  if generateDebugCode then Some false
  else
    '(RetVal, _) ← domInfoGetInfoFromDominator fuel A Fg false
                     (fun d => getClassInit d CORINFO_HELP_UNDEF c) false;
    Some (negb (RetVal =? 0)).

Definition domInfoRecordClassInit (A : block_array) (Fg : nat) (c : Z) : block_array :=
  if generateDebugCode then A
  else
    match domInfoGetBlockData A Fg true with
    | (Some m, Some d) => Some (<[fgNodeGetBlockNum Fg := setClassInit d c]> m)
    | (A, _) => A
    end.

End DomInfo.

(** ** What a query may answer *)

Section Walk.

Context (g : fg) (T : option nat) (num : nat -> nat) (Entry : nat) (Hentry : preds g Entry = []).
Context (A : block_array) (Fg : nat) (SameRegion : bool) (P : FgData -> bool -> Z * bool).

Definition block_data (A : block_array) (b : nat) : option FgData := m ← A; m !! num b.

Definition covers_block (D : nat) : Prop := D = Fg \/ dominates g Entry D Fg.

(** The blocks whose data a query looks at. *)
Definition answers (D : nat) (d : FgData) : Prop :=
  covers_block D /\ (SameRegion = true -> region g D = region g Fg) /\ block_data A D = Some d.

Lemma get_block_data b : (domInfoGetBlockData num A b false).2 = block_data A b.
Proof. unfold domInfoGetBlockData, block_data. destruct A as [m|]; [|done]. simpl. by destruct (m !! num b). Qed.

(** The walk ends; a property of the flag that every getter keeps holds at the
    end, and a non-null answer is a getter's. *)
Lemma dominator_walk_spec (J : bool -> Prop) (R : Z -> Prop) :
  (forall D d k r k', answers D d -> J k -> P d k = (r, k') -> J k' /\ (r <> 0 -> R r)) ->
  forall k f C key3, nsteps (term_edge g) k Entry C -> (S (S k) <= f)%nat -> covers_block C -> J key3 ->
  forall n, (k < n)%nat ->
  exists r k3, dominator_walk g T num n f A Fg SameRegion P C key3 = Some (r, k3) /\ J k3 /\ (r <> 0 -> R r).
Proof.
  intros HP k. induction k as [k IH] using lt_wf_ind. intros f C key3 Hk Hf HC HJ [|n] Hn; [lia|].
  cbn [dominator_walk]. rewrite get_block_data.
  assert (Hhere : exists r k3, (if SameRegion && bool_decide (region g Fg <> region g C) then (0, key3)
      else match block_data A C with Some d => P d key3 | None => (0, key3) end) = (r, k3) /\
      J k3 /\ (r <> 0 -> R r)).
  { destruct (SameRegion && bool_decide (region g Fg <> region g C)) eqn:Hr; [by exists 0, key3|].
    destruct (block_data A C) as [d|] eqn:Hd; [|by exists 0, key3].
    destruct (P d key3) as [r k3] eqn:Hp. exists r, k3. split; [done|].
    apply (HP C d key3 r k3); [|done|done]. split; [done|]. split; [|done].
    intros ->. simpl in Hr. apply bool_decide_eq_false in Hr. symmetry. by apply dec_stable. }
  destruct Hhere as (r & k3 & -> & HJ3 & HR).
  destruct (Z.eqb_spec r 0) as [->|Hr0]; simpl.
  - destruct (idom_walk_spec g T Entry C Hentry k C Hk) as (i & Hi & Hid); [by right|].
    rewrite (fgNodeGetIDom_fuel g T C (S (S k)) f i Hi Hf). cbn [mbind option_bind].
    destruct i as [d|]; [|by exists 0, k3].
    destruct (Hid d eq_refl) as [[Hdom _] (j & Hj & Hjs)].
    apply (IH j Hj); [done|lia| |done|lia].
    right. destruct HC as [->|HC]; [done|]. by eapply dominates_trans.
  - exists r, k3. by split_and!.
Qed.

End Walk.

(** ** Recorded facts *)

Inductive dom_event : Set :=
  | RecInit (Fg : nat) (c : Z)
  | RecBase (Fg : nat) (h : CorInfoHelpFunc) (c base : Z).

Definition record (num : nat -> nat) (debug : bool) (A : block_array) (e : dom_event) : block_array :=
  match e with
  | RecInit b c => domInfoRecordClassInit num debug A b c
  | RecBase b h c base => domInfoRecordSharedStaticBaseDefine num debug A b h c base
  end.

Definition replay (num : nat -> nat) (debug : bool) (l : list dom_event) : block_array :=
  foldl (record num debug) initBlockArray l.

(** The data of a block are exactly what was recorded for it. *)
Definition data_of (l : list dom_event) (b : nat) (d : FgData) : Prop :=
  (forall n, n ∈ ClassInitHash d <-> exists c, n = HashNode CORINFO_HELP_UNDEF c 1 /\ RecInit b c ∈ l) /\
  (forall n, n ∈ StaticBaseHash d <-> exists h c base, n = HashNode h c base /\ RecBase b h c base ∈ l).

Lemma data_of_nil b : data_of [] b empty_data.
Proof. split; intros n; set_solver. Qed.

Lemma record_data num `{!Inj (=) (=) num} l m e :
  (forall b, data_of l b (default empty_data (m !! num b))) ->
  exists m', record num false (Some m) e = Some m' /\
    forall b, data_of (l ++ [e]) b (default empty_data (m' !! num b)).
Proof.
  intros Hm.
  assert (Hd : forall b0, exists m0,
    domInfoGetBlockData num (Some m) b0 true = (Some m0, Some (default empty_data (m !! num b0))) /\
    (forall b, b <> b0 -> m0 !! num b = m !! num b)).
  { intros b0. unfold domInfoGetBlockData. destruct (m !! num b0) eqn:E.
    - exists m. by split.
    - exists (<[num b0 := empty_data]> m). split; [done|]. intros b Hb.
      rewrite lookup_insert_ne; [done|]. intros Heq. by apply Hb, (inj num). }
  destruct e as [b0 c|b0 h c base]; destruct (Hd b0) as (m0 & H0 & Hne);
    unfold record, domInfoRecordClassInit, domInfoRecordSharedStaticBaseDefine; rewrite H0;
    (eexists; split; [reflexivity|]); intros b; specialize (Hm b); destruct Hm as [H1 H2];
    (destruct (decide (b = b0)) as [->|Hb];
      [rewrite lookup_insert_eq|rewrite lookup_insert_ne by (intros Heq; by apply Hb, (inj num)); rewrite Hne by done]);
    simpl; split; intros n; simpl; unfold hash_insert; rewrite ?elem_of_cons, ?H1, ?H2; set_solver.
Qed.

Lemma replay_data num `{!Inj (=) (=) num} l :
  exists m, replay num false l = Some m /\ forall b, data_of l b (default empty_data (m !! num b)).
Proof.
  induction l as [|e l (m & Hm & Hd)] using rev_ind.
  - exists ∅. split; [done|]. intros b. rewrite lookup_empty. apply data_of_nil.
  - unfold replay in *. rewrite foldl_app, Hm. simpl.
    apply (record_data num l m e Hd).
Qed.

Lemma hash_get_in h k1 k2 : hash_get h k1 k2 <> 0 -> HashNode k1 k2 (hash_get h k1 k2) ∈ h.
Proof.
  induction h as [|[a b d] h IH]; simpl; [done|].
  destruct (bool_decide_reflect (a = k1)) as [->|]; simpl; [|intros; right; by apply IH].
  destruct (Z.eqb_spec b k2) as [->|]; [intros; left|intros; right; by apply IH].
Qed.

Lemma hash_get_found h k1 k2 :
  (forall n, n ∈ h -> Data n <> 0) -> (exists d, HashNode k1 k2 d ∈ h) -> hash_get h k1 k2 <> 0.
Proof.
  induction h as [|[a b d] h IH]; intros Hnz [x Hx]; simpl; [by apply elem_of_nil in Hx|].
  destruct (bool_decide (a = k1) && (b =? k2)) eqn:E.
  - apply (Hnz (HashNode a b d)). constructor.
  - apply elem_of_cons in Hx as [Hx|Hx].
    + injection Hx as <- <- <-. by rewrite bool_decide_true, Z.eqb_refl in E.
    + apply IH; [|by exists x]. intros n Hn. apply Hnz. by constructor.
Qed.

Lemma replay_block num `{!Inj (=) (=) num} l b d :
  block_data num (replay num false l) b = Some d -> data_of l b d.
Proof.
  destruct (replay_data num l) as (m & -> & Hd). unfold block_data. simpl. intros Hb.
  specialize (Hd b). by rewrite Hb in Hd.
Qed.

(** ** Properties *)

(** The class-initialiser cache is sound.  For every block the function's
    entry reaches, after any sequence of recorded facts, the query ends, and a
    positive answer means that the block itself or a block on every path from
    the entry to it was recorded as having run the initialiser of the class;
    conversely a block that recorded it answers positively itself. *)
Theorem domInfoDominatorHasClassInit_sound (g : fg) (T : option nat) (num : nat -> nat)
    (Entry Fg k : nat) (l : list dom_event) (c : Z) :
  Inj (=) (=) num -> preds g Entry = [] -> nsteps (term_edge g) k Entry Fg ->
  exists r, domInfoDominatorHasClassInit g T num false (S (S k)) (replay num false l) Fg c = Some r /\
    (r = true -> exists D, RecInit D c ∈ l /\ (D = Fg \/ dominates g Entry D Fg)) /\
    (RecInit Fg c ∈ l -> r = true).
Proof.
  intros Hinj He Hk. unfold domInfoDominatorHasClassInit, domInfoGetInfoFromDominator.
  set (R := fun r : Z => exists D, RecInit D c ∈ l /\ (D = Fg \/ dominates g Entry D Fg)).
  destruct (dominator_walk_spec g T num Entry He (replay num false l) Fg false
    (fun d => getClassInit d CORINFO_HELP_UNDEF c) (fun _ => True) R) with
    (k := k) (f := S (S k)) (C := Fg) (key3 := false) (n := S (S k)) as (r & k3 & Hw & _ & HR);
    [|done|lia|by left|done|lia|].
  - intros D d k0 r k' (HD & _ & Hd) _ [= <- _]. split; [done|]. intros Hr.
    apply hash_get_in in Hr. apply (replay_block num) in Hd as [Hd _]. apply Hd in Hr as (c' & [= <- Hdat] & Hin).
    exists D. by split.
  - exists (negb (r =? 0)). rewrite Hw. split; [done|]. split.
    + intros Hr%negb_true_iff%Z.eqb_neq. by apply HR.
    + intros Hin. apply negb_true_iff, Z.eqb_neq.
      cbn [dominator_walk] in Hw. rewrite get_block_data in Hw. simpl in Hw.
      destruct (replay_data num l) as (m & Hm & Hd). rewrite Hm in Hw. unfold block_data in Hw. simpl in Hw.
      destruct (Hd Fg) as [Hci _].
      destruct (m !! num Fg) as [d|] eqn:Hmd; simpl in *.
      * assert (Hg : hash_get (ClassInitHash d) CORINFO_HELP_UNDEF c <> 0).
        { apply hash_get_found.
          - intros n Hn. apply Hci in Hn as (? & -> & _). done.
          - exists 1. apply Hci. by exists c. }
        rewrite (proj2 (Z.eqb_neq _ _) Hg) in Hw. simpl in Hw. by injection Hw as <- _.
      * assert (HashNode CORINFO_HELP_UNDEF c 1 ∈ ([] : list HashListNode)) as Hf by (apply Hci; by exists c).
        by apply elem_of_nil in Hf.
Qed.

(** Entry 0 falls through to 1. *)
Definition demo_dom : fg :=
  Fg {[0%nat := FgNode [1%nat] None false 0 2 true None; 1%nat := FgNode [] None false 2 4 true None]}
    [0; 1]%nat.

Lemma demo_dom_step : nsteps (term_edge demo_dom) 1 0%nat 1%nat.
Proof. apply nsteps_once. unfold term_edge. decide_now. Qed.

Lemma domInfoDominatorHasClassInit_sound_witness :
  exists D, RecInit D 7 ∈ [RecInit 0 7] /\ (D = 1%nat \/ dominates demo_dom 0 D 1).
Proof.
  destruct (domInfoDominatorHasClassInit_sound demo_dom None (fun b => b) 0 1 1 [RecInit 0 7] 7
    (fun x y H => H) ltac:(vm_compute; reflexivity) demo_dom_step) as (r & Hr & Hs & _).
  vm_compute in Hr. injection Hr as <-. exact (Hs eq_refl).
Defined.

(** The static-base cache is sound.  The query ends; a base it returns was
    recorded for the class, under the helper asked for or its variant without
    constructor, in the block or in a dominator of it that lies in the same
    exception region; it announces that the constructor has run only if the
    helper asked for implies it, or the block or a dominator ran it or used the
    variant; and it replaces the helper only by that variant. *)
Theorem domInfoDominatorDefinesSharedStaticBase_sound (g : fg) (T : option nat) (num : nat -> nat)
    (Entry Fg k : nat) (l : list dom_event) (h : CorInfoHelpFunc) (c : Z) :
  Inj (=) (=) num -> preds g Entry = [] -> nsteps (term_edge g) k Entry Fg ->
  exists base h' NoCtor,
    domInfoDominatorDefinesSharedStaticBase g T num false (S (S k)) (replay num false l) Fg h c
      = Some (base, h', NoCtor) /\
    (base <> 0 -> exists D h0, RecBase D h0 c base ∈ l /\ (h0 = h \/ noctor_variant h = Some h0) /\
       (D = Fg \/ dominates g Entry D Fg) /\ region g D = region g Fg) /\
    (NoCtor = true ->
       h = CORINFO_HELP_GETSHARED_GCSTATIC_BASE_NOCTOR \/
       h = CORINFO_HELP_GETSHARED_NONGCSTATIC_BASE_NOCTOR \/
       exists D, (D = Fg \/ dominates g Entry D Fg) /\
         (RecInit D c ∈ l \/ exists h0 b, noctor_variant h = Some h0 /\ RecBase D h0 c b ∈ l)) /\
    (h' <> h -> NoCtor = true /\ base = 0 /\ noctor_variant h = Some h').
Proof.
  intros Hinj He Hk. unfold domInfoDominatorDefinesSharedStaticBase, domInfoGetInfoFromDominator.
  set (R := fun base : Z => exists D h0, RecBase D h0 c base ∈ l /\ (h0 = h \/ noctor_variant h = Some h0) /\
       (D = Fg \/ dominates g Entry D Fg) /\ region g D = region g Fg).
  set (J := fun NoCtor : bool => NoCtor = true ->
       h = CORINFO_HELP_GETSHARED_GCSTATIC_BASE_NOCTOR \/
       h = CORINFO_HELP_GETSHARED_NONGCSTATIC_BASE_NOCTOR \/
       exists D, (D = Fg \/ dominates g Entry D Fg) /\
         (RecInit D c ∈ l \/ exists h0 b, noctor_variant h = Some h0 /\ RecBase D h0 c b ∈ l)).
  destruct (dominator_walk_spec g T num Entry He (replay num false l) Fg true
    (fun d => getSharedStaticBase d h c) J R) with
    (k := k) (f := S (S k)) (C := Fg) (key3 := false) (n := S (S k)) as (r & k3 & Hw & HJ & HR);
    [|done|lia|by left|done|lia|].
  - intros D d k0 r k' (HD & Hreg & Hd) HJ Hp. specialize (Hreg eq_refl).
    apply (replay_block num) in Hd as [Hci Hsb].
    assert (Hbase : forall h0, hash_get (StaticBaseHash d) h0 c <> 0 ->
      RecBase D h0 c (hash_get (StaticBaseHash d) h0 c) ∈ l).
    { intros h0 Hn%hash_get_in. apply Hsb in Hn as (? & ? & ? & [= <- <- <-] & ?). done. }
    assert (Hinit : class_inited d c = true -> RecInit D c ∈ l).
    { unfold class_inited. intros Hn%negb_true_iff%Z.eqb_neq%hash_get_in.
      apply Hci in Hn as (? & [= <- _] & ?). done. }
    unfold getSharedStaticBase in Hp.
    destruct (Z.eqb_spec (hash_get (StaticBaseHash d) h c) 0) as [H0|H0]; simpl in Hp.
    2:{ injection Hp as <- <-. split; [done|]. intros _. exists D, h. auto using Hbase. }
    destruct (noctor_variant h) as [h0|] eqn:Hv.
    + assert (Hp' : (hash_get (StaticBaseHash d) h0 c,
        if negb (hash_get (StaticBaseHash d) h0 c =? 0) || (negb k0 && class_inited d c) then true else k0) = (r, k'))
        by (destruct h; try done; simpl in Hv; injection Hv as <-; exact Hp).
      injection Hp' as <- <-. split.
      * destruct (Z.eqb_spec (hash_get (StaticBaseHash d) h0 c) 0) as [Hz|Hz]; simpl.
        -- destruct (negb k0 && class_inited d c) eqn:E; [|done]. apply andb_true_iff in E as [_ E].
           intros _. right. right. exists D. auto.
        -- intros _. right. right. exists D. split; [done|]. right. exists h0. eauto.
      * intros Hr. exists D, h0. auto.
    + assert (Hp' : r = 0 /\ (k' = true -> k0 = true \/ class_inited d c = true \/
        h = CORINFO_HELP_GETSHARED_GCSTATIC_BASE_NOCTOR \/
        h = CORINFO_HELP_GETSHARED_NONGCSTATIC_BASE_NOCTOR)).
      { destruct h; simplify_eq; try (split; [done|by auto]);
          (split; [done|]; destruct k0, (class_inited d c); simpl; auto). }
      destruct Hp' as [-> Hk']. split; [|done]. intros Ht.
      destruct (Hk' Ht) as [Hk0|[Hc|[Hc|Hc]]]; [by apply HJ|right; right; exists D; auto|auto..].
  - rewrite Hw. cbn [mbind option_bind]. eexists _, _, _. split; [reflexivity|].
    split; [exact HR|]. split; [exact HJ|].
    destruct k3; simpl; [|done]. destruct (Z.eqb_spec r 0) as [->|]; [|done].
    destruct (noctor_variant h); simpl; [|done]. done.
Qed.

Lemma domInfoDominatorDefinesSharedStaticBase_sound_witness :
  exists D h0, RecBase D h0 7 99 ∈ [RecBase 0 CORINFO_HELP_GETSHARED_GCSTATIC_BASE_NOCTOR 7 99] /\
    region demo_dom D = region demo_dom 1.
Proof.
  destruct (domInfoDominatorDefinesSharedStaticBase_sound demo_dom None (fun b => b) 0 1 1
    [RecBase 0 CORINFO_HELP_GETSHARED_GCSTATIC_BASE_NOCTOR 7 99]
    CORINFO_HELP_GETSHARED_GCSTATIC_BASE 7 (fun x y H => H) ltac:(vm_compute; reflexivity) demo_dom_step)
    as (b & h' & nc & Hr & Hb & _).
  vm_compute in Hr. injection Hr as <- <- <-.
  destruct (Hb ltac:(discriminate)) as (D & h0 & Hin & _ & _ & Hreg). exists D, h0. split; assumption.
Defined.
