(* ===== verification/TailCall.v ===== *)
(** * Tail-call recognition (lib/Reader/reader.cpp)

    The two scans that decide whether a call is followed by a return:
    [checkExplicitTailCall] for calls with the tail prefix and
    [isUnmarkedTailCall] for all others.  The runtime's answers about method
    signatures are parameters; a token the runtime cannot resolve raises an
    exception, which the filter of [isUnmarkedTailCall] turns into [false]. *)

From S2P Require Import Prelude Opcodes ILDecode.
Import ReaderBaseNS.

(** Size of a call instruction with its token. *)
Definition SizeOfCEECall : Z := 5.

(** What [BADCODE] leaves: the scan reports and gives up. *)
Inductive tail_check : Set := TailOk | TailBad (e : MVER).

Section Scans.

Context (OperandSizeMap : OPCODE -> Z).
Context (ILInput : list Z) (ILInputSize : Z).

(** ** Explicit tail calls *)

(** One round of the [do] loop: the state is the offset and whether a pop may
    still be skipped. *)
Definition explicit_step (s : Z * bool) : Z * bool + option OPCODE :=
  let '(Offset, AllowPop) := s in
  match parseILOpcode OperandSizeMap ILInput Offset ILInputSize true false with
  | None => inr None
  | Some p =>
      let '(Opcode, AllowPop) :=
        if AllowPop && op_is (p_opcode p) CEE_POP then (CEE_NOP, false)
        else (p_opcode p, AllowPop) in
      if (p_next p <? ILInputSize) && op_is Opcode CEE_NOP then inl (p_next p, AllowPop)
      else inr (Some Opcode)
  end.

Definition checkExplicitTailCall (fuel : nat) (ILOffset : Z) (AllowPop : bool)
    : option (option tail_check) :=
  r ← while_fuel fuel explicit_step (u32 (ILOffset + SizeOfCEECall), AllowPop);
  Some (Opcode ← r;
        Some (if negb (op_is Opcode CEE_RET) then TailBad MVER_E_TAIL_RET else TailOk)).

(** ** Unmarked tail calls *)

(** The state is the offset and the number of pops seen. *)
Definition unmarked_step (s : Z * Z) : Z * Z + option (OPCODE * Z) :=
  let '(Offset, NumPops) := s in
  match parseILOpcode OperandSizeMap ILInput Offset ILInputSize true false with
  | None => inr None
  | Some p =>
      let Opcode := p_opcode p in
      if p_next p <? ILInputSize then
        if op_is Opcode CEE_NOP then inl (p_next p, NumPops)
        else if op_is Opcode CEE_POP then
          let NumPops := u32 (NumPops + 1) in
          if NumPops =? 1 then inl (p_next p, NumPops) else inr (Some (Opcode, NumPops))
        else inr (Some (Opcode, NumPops))
      else inr (Some (Opcode, NumPops))
  end.

(** Return type and class of a method. *)
Record ret_sig := RetSig { retType : Z; retTypeClass : Z }.

#[export] Instance ret_sig_eq_dec : EqDecision ret_sig.
Proof. solve_decision. Defined.

Context (CORINFO_TYPE_VALUECLASS CORINFO_TYPE_VOID : Z).

(** The build flag that widens the test; no build file of the repository
    defines it. *)
Context (TAMD64 : bool).

(** The return signature of the method a token names, or an exception, and
    that of the method being compiled. *)
Context (TargetSig : Z -> option ret_sig) (CurrentSig : ret_sig).

Definition is_valueclass (s : ret_sig) : bool := retType s =? CORINFO_TYPE_VALUECLASS.

(** The test of the two signatures, once a return has been found. *)
Definition returns_match (Target : ret_sig) (NumPops : Z) : bool :=
  if negb TAMD64 && (is_valueclass Target || is_valueclass CurrentSig) then false
  else if TAMD64 then
    if NumPops =? 1 then
      negb (negb (retType CurrentSig =? CORINFO_TYPE_VOID) || (retType Target =? CORINFO_TYPE_VOID))
    else bool_decide (Target = CurrentSig)
  else if 0 <? NumPops then false
  else bool_decide (Target = CurrentSig).

(** Outer [None]: out of fuel; then an access outside the buffer; the inner
    [None] is the runtime's exception. *)
Definition isUnmarkedTailCallHelper (fuel : nat) (Offset Token : Z)
    : option (option (option bool)) :=
  r ← while_fuel fuel unmarked_step (Offset, 0);
  Some ('(Opcode, NumPops) ← r;
        Some (if op_is Opcode CEE_RET && (NumPops <=? 1) then
                Target ← TargetSig Token; Some (returns_match Target NumPops)
              else Some false)).

Definition isUnmarkedTailCall (fuel : nat) (NextOffset Token : Z) : option (option bool) :=
  r ← isUnmarkedTailCallHelper fuel NextOffset Token;
  Some (h ← r; Some (default false h)).

End Scans.

(** ** What a scan accepts *)

Definition is_pop (i : il_instr) : bool := op_is (i_op i) CEE_POP.

(** [k] pops among no-ops, then a return. *)
Definition returns_after (l : list il_instr) (k : Z) : Prop :=
  exists pre i post, l = pre ++ i :: post /\ i_op i = CEE_RET /\
    Forall (fun j => i_op j = CEE_NOP \/ i_op j = CEE_POP) pre /\
    Z.of_nat (length (filter (fun j => is_pop j = true) pre)) = k.

Lemma returns_after_ret i l k : i_op i = CEE_RET -> returns_after (i :: l) k <-> k = 0.
Proof.
  intros Hi. split.
  - intros ([|j pre] & r & post & Heq & Hr & Hp & Hk); [done|]. simplify_eq/=.
    apply Forall_cons in Hp as [Hj _]. rewrite Hi in Hj. by destruct Hj.
  - intros ->. exists [], i, l. by split_and!; [..|constructor|].
Qed.

Lemma returns_after_skip i l k :
  i_op i = CEE_NOP \/ i_op i = CEE_POP ->
  returns_after (i :: l) k <-> returns_after l (k - if is_pop i then 1 else 0).
Proof.
  intros Hi. split.
  - intros ([|j pre] & r & post & Heq & Hr & Hp & Hk); simplify_eq/=.
    + rewrite Hr in Hi. by destruct Hi.
    + apply Forall_cons in Hp as [_ Hp]. exists pre, r, post. split_and!; try done.
      rewrite filter_cons. destruct (is_pop j) eqn:E; destruct (decide (_ = true)); try done; simpl; lia.
  - intros (pre & r & post & -> & Hr & Hp & Hk). exists (i :: pre), r, post.
    split_and!; [done|done|by constructor|]. rewrite filter_cons.
    destruct (is_pop i) eqn:E; destruct (decide (_ = true)); try done; simpl in *; lia.
Qed.

Lemma returns_after_other i l k :
  i_op i <> CEE_NOP -> i_op i <> CEE_POP -> i_op i <> CEE_RET -> ~ returns_after (i :: l) k.
Proof.
  intros H1 H2 H3 ([|j pre] & r & post & Heq & Hr & Hp & Hk); simplify_eq/=.
  apply Forall_cons in Hp as [[?|?] _]; done.
Qed.

Lemma returns_after_nil k : ~ returns_after [] k.
Proof. intros ([|] & ? & ? & ? & _); done. Qed.

Lemma returns_after_neg l k : k < 0 -> ~ returns_after l k.
Proof. intros Hk (pre & i & post & _ & _ & _ & H). lia. Qed.

Lemma while_fuel_S {S R : Type} (n : nat) (body : S -> S + R) (s : S) :
  while_fuel (Datatypes.S n) body s =
  match body s with inl s' => while_fuel n body s' | inr r => Some r end.
Proof. reflexivity. Qed.

(** Where the next instruction starts. *)
Lemma il_seq_next sizes buf off i l :
  sizes_ok sizes -> il_ok buf -> il_seq sizes buf off (i :: l) ->
  instr_at sizes buf off (i_op i) (i_operand i) (i_next i) /\ il_seq sizes buf (i_next i) l /\
  (i_next i <? Z.of_nat (length buf)) = match l with [] => false | _ => true end.
Proof.
  intros Hs Hb H. inversion H as [|? op operand next ? Hi Hl]; subst. simpl. split; [done|]. split; [done|].
  inversion Hl as [|? ? ? ? ? Hi2]; subst; [apply Z.ltb_irrefl|].
  apply Z.ltb_lt. apply (instr_at_progress sizes Hs) in Hi2; [lia|apply Hb].
Qed.

Section Scan.

Context (sizes : OPCODE -> Z) (Hsizes : sizes_ok sizes) (buf : list Z) (Hbuf : il_ok buf).

Notation size := (Z.of_nat (length buf)).

Lemma explicit_loop (l : list il_instr) : forall off AllowPop,
  il_seq sizes buf off l ->
  exists op, while_fuel (S (length l)) (explicit_step sizes buf size) (off, AllowPop) = Some (Some op) /\
    (op = CEE_RET <-> returns_after l 0 \/ (AllowPop = true /\ returns_after l 1)).
Proof.
  induction l as [|i l IH]; intros off AllowPop Hseq.
  - inversion Hseq; subst. rewrite while_fuel_S. unfold explicit_step.
    assert (Hp : parseILOpcode sizes buf size size true false =
      Some (parse_fail true false size size MVER_E_METHOD_END "parseILOpcode: Underflow")).
    { unfold parseILOpcode, parse_opcode_bytes. by rewrite (proj2 (Z.leb_le size size)) by lia. }
    rewrite Hp. simpl. rewrite andb_false_r, Z.ltb_irrefl. simpl. eexists. split; [done|].
    split; [done|]. intros [?%returns_after_nil|[_ ?%returns_after_nil]]; done.
  - destruct (il_seq_next sizes buf off i l Hsizes Hbuf Hseq) as (Hi & Hl & Hlt).
    change (length (i :: l)) with (S (length l)). rewrite while_fuel_S. unfold explicit_step at 1.
    rewrite (parse_complete sizes Hsizes buf off _ _ _ true false Hbuf Hi). cbn [p_opcode p_next].
    rewrite Hlt.
    destruct (AllowPop && op_is (i_op i) CEE_POP) eqn:Hap.
    + apply andb_true_iff in Hap as [-> Hpop]. apply op_is_true in Hpop as Hpop'.
      assert (Hip : is_pop i = true) by done.
      pose proof (fun k => returns_after_skip i l k ltac:(auto)) as Hsk; rewrite Hip in Hsk; setoid_rewrite Hsk. destruct l as [|j l]; rewrite ?op_is_refl; cbn [andb].
      * eexists. split; [done|]. split; [done|].
        intros [?%returns_after_nil|[_ ?%returns_after_nil]]; done.
      * destruct (IH (i_next i) false Hl) as (op & -> & Hop). exists op. split; [done|].
        rewrite Hop. simpl. split; [intros [?|[? _]]; [by right|done]|].
        intros [H|[_ H]]; [by apply returns_after_neg in H|by left].
    + destruct (decide (i_op i = CEE_NOP)) as [Hnop|Hnop].
      * assert (Hip : is_pop i = false) by (unfold is_pop; by rewrite Hnop).
        pose proof (fun k => returns_after_skip i l k ltac:(auto)) as Hsk; rewrite Hip in Hsk; setoid_rewrite Hsk. rewrite Hnop.
        destruct l as [|j l]; rewrite ?op_is_refl; cbn [andb].
        -- eexists. split; [done|]. split; [done|].
           intros [?%returns_after_nil|[_ ?%returns_after_nil]]; done.
        -- destruct (IH (i_next i) AllowPop Hl) as (op & -> & Hop). by exists op.
      * apply op_is_false in Hnop as Hnop'. rewrite Hnop', andb_false_r. eexists. split; [done|].
        destruct (decide (i_op i = CEE_RET)) as [Hret|Hret].
        -- rewrite !returns_after_ret by done. split; [by left|done].
        -- split; [done|]. destruct (decide (i_op i = CEE_POP)) as [Hpop|Hpop].
           ++ assert (Hip : is_pop i = true) by (unfold is_pop; by rewrite Hpop).
              pose proof (fun k => returns_after_skip i l k ltac:(auto)) as Hsk; rewrite Hip in Hsk; setoid_rewrite Hsk. rewrite Hpop in Hap. simpl in Hap.
              destruct AllowPop; [done|]. intros [H|[? _]]; [by apply returns_after_neg in H|done].
           ++ intros [H|[_ H]]; by apply returns_after_other in H.
Qed.

Lemma unmarked_loop (l : list il_instr) : forall off n,
  il_seq sizes buf off l -> 0 <= n <= 1 ->
  exists op n', while_fuel (S (length l)) (unmarked_step sizes buf size) (off, n) = Some (Some (op, n')) /\
    forall k, op = CEE_RET /\ n' = k /\ k <= 1 <-> returns_after l (k - n) /\ k <= 1.
Proof.
  induction l as [|i l IH]; intros off n Hseq Hn.
  - inversion Hseq; subst. rewrite while_fuel_S. unfold unmarked_step.
    assert (Hp : parseILOpcode sizes buf size size true false =
      Some (parse_fail true false size size MVER_E_METHOD_END "parseILOpcode: Underflow")).
    { unfold parseILOpcode, parse_opcode_bytes. by rewrite (proj2 (Z.leb_le size size)) by lia. }
    rewrite Hp. simpl. rewrite Z.ltb_irrefl. eexists _, _. split; [done|]. intros k.
    split; [by intros [? _]|]. intros [?%returns_after_nil _]; done.
  - destruct (il_seq_next sizes buf off i l Hsizes Hbuf Hseq) as (Hi & Hl & Hlt).
    change (length (i :: l)) with (S (length l)). rewrite while_fuel_S. unfold unmarked_step at 1.
    rewrite (parse_complete sizes Hsizes buf off _ _ _ true false Hbuf Hi). cbn [p_opcode p_next].
    rewrite Hlt.
    assert (Hstop : (forall k, ~ (returns_after (i :: l) (k - n) /\ k <= 1)) -> i_op i <> CEE_RET ->
      forall n', exists op n'', Some (Some (i_op i, n')) = Some (Some (op, n'')) /\
      forall k, op = CEE_RET /\ n'' = k /\ k <= 1 <-> returns_after (i :: l) (k - n) /\ k <= 1).
    { intros Hno Hr n'. eexists _, _. split; [done|]. intros k. split; [by intros [? _]|].
      intros H. by destruct (Hno k). }
    destruct (decide (i_op i = CEE_RET)) as [Hret|Hret].
    { rewrite Hret. destruct l; simpl; eexists _, _; (split; [done|]); intros k;
        rewrite returns_after_ret by done; intuition lia. }
    destruct (decide (i_op i = CEE_NOP)) as [Hnop|Hnop].
    { assert (Hip : is_pop i = false) by (unfold is_pop; by rewrite Hnop).
      destruct l as [|j l].
      - apply Hstop; [|done]. intros k. rewrite returns_after_skip, Hip by auto.
        by intros [?%returns_after_nil _].
      - rewrite (proj2 (op_is_true _ _) Hnop). destruct (IH (i_next i) n Hl Hn) as (op & n' & -> & Hop).
        exists op, n'. split; [done|]. intros k. rewrite Hop, (returns_after_skip i), Hip by auto.
        by rewrite Z.sub_0_r. }
    apply op_is_false in Hnop as Hnop'. rewrite Hnop'.
    destruct (decide (i_op i = CEE_POP)) as [Hpop|Hpop].
    + assert (Hip : is_pop i = true) by (unfold is_pop; by rewrite Hpop).
      destruct l as [|j l].
      { apply Hstop; [|done]. intros k. rewrite returns_after_skip, Hip by auto.
        by intros [?%returns_after_nil _]. }
      rewrite (proj2 (op_is_true _ _) Hpop). unwrap. destruct (Z.eqb_spec (n + 1) 1) as [Hn1|Hn1].
      * destruct (IH (i_next i) (n + 1) Hl ltac:(lia)) as (op & n' & -> & Hop).
        exists op, n'. split; [done|]. intros k. rewrite Hop, (returns_after_skip i), Hip by auto.
        by replace (k - (n + 1)) with (k - n - 1) by lia.
      * apply Hstop; [|done]. intros k. rewrite returns_after_skip, Hip by auto.
        intros [H Hk]. apply returns_after_neg in H; [done|lia].
    + apply op_is_false in Hpop as Hpop'. rewrite Hpop'. destruct l; (apply Hstop; [|done]);
        intros k [H _]; by apply returns_after_other in H.
Qed.

End Scan.

(** ** Properties *)

(** On a body whose instructions after the call are [l],
    [checkExplicitTailCall] terminates and accepts the tail prefix exactly when
    a return follows after any number of no-ops and, if a pop is allowed, at
    most one pop among them. *)
Theorem checkExplicitTailCall_correct (sizes : OPCODE -> Z) (buf : list Z)
    (l : list il_instr) (ILOffset : Z) (AllowPop : bool) :
  sizes_ok sizes -> il_ok buf -> 0 <= ILOffset ->
  il_seq sizes buf (ILOffset + SizeOfCEECall) l ->
  exists r, checkExplicitTailCall sizes buf (Z.of_nat (length buf)) (S (length l)) ILOffset AllowPop
      = Some (Some r) /\
    (r = TailOk <-> returns_after l 0 \/ (AllowPop = true /\ returns_after l 1)).
Proof.
  intros Hs Hb Ho Hl. unfold checkExplicitTailCall.
  assert (Hle : ILOffset + SizeOfCEECall <= Z.of_nat (length buf)).
  { inversion Hl as [|? ? ? ? ? Hi]; subst; [done|].
    apply (instr_at_progress sizes Hs) in Hi; [lia|apply Hb]. }
  unfold SizeOfCEECall in *. destruct Hb as [Hb Hsz]. unwrap.
  destruct (explicit_loop sizes Hs buf (conj Hb Hsz) l (ILOffset + 5) AllowPop Hl) as (op & Hrun & Hop).
  rewrite Hrun. cbn [mbind option_bind]. eexists. split; [done|]. rewrite <- Hop.
  destruct (op_is op CEE_RET) eqn:E; simpl; [by apply op_is_true in E|apply op_is_false in E]. done.
Qed.

(** call; nop; pop; ret *)
Definition demo_tail : list Z := [0x28; 0; 0; 0; 6; 0x00; 0x26; 0x2A].
Definition demo_tail_instrs : list il_instr :=
  [ILInstr 5 CEE_NOP 6 6; ILInstr 6 CEE_POP 7 7; ILInstr 7 CEE_RET 8 8].

Lemma demo_tail_seq : il_seq ecma_operand_size demo_tail 5 demo_tail_instrs.
Proof.
  apply (il_seq_cons _ _ 5 CEE_NOP 6 6).
  { apply (instr_intro ecma_operand_size demo_tail 5 CEE_NOP 6 0);
      [by eapply (opcode_short demo_tail 5 0)|reflexivity|vm_compute; discriminate]. }
  apply (il_seq_cons _ _ 6 CEE_POP 7 7).
  { apply (instr_intro ecma_operand_size demo_tail 6 CEE_POP 7 0);
      [by eapply (opcode_short demo_tail 6 0x26)|reflexivity|vm_compute; discriminate]. }
  apply (il_seq_cons _ _ 7 CEE_RET 8 8).
  { apply (instr_intro ecma_operand_size demo_tail 7 CEE_RET 8 0);
      [by eapply (opcode_short demo_tail 7 0x2A)|reflexivity|vm_compute; discriminate]. }
  apply (il_seq_end ecma_operand_size demo_tail).
Qed.

Lemma demo_tail_ok : il_ok demo_tail.
Proof. split; [decide_now|vm_compute; reflexivity]. Qed.

Lemma demo_tail_returns : returns_after demo_tail_instrs 1.
Proof.
  exists [ILInstr 5 CEE_NOP 6 6; ILInstr 6 CEE_POP 7 7], (ILInstr 7 CEE_RET 8 8), [].
  split_and!; try reflexivity. constructor; [by left|]. constructor; [by right|constructor].
Qed.

Lemma checkExplicitTailCall_correct_witness :
  checkExplicitTailCall ecma_operand_size demo_tail 8 4 0 true = Some (Some TailOk) /\
  checkExplicitTailCall ecma_operand_size demo_tail 8 4 0 false =
    Some (Some (TailBad MVER_E_TAIL_RET)).
Proof.
  destruct (checkExplicitTailCall_correct ecma_operand_size demo_tail demo_tail_instrs 0 true
    ecma_sizes_ok demo_tail_ok ltac:(lia) demo_tail_seq) as (r & Hr & Hok).
  rewrite (proj2 Hok) in Hr by (right; split; [reflexivity|exact demo_tail_returns]).
  split; [exact Hr|vm_compute; reflexivity].
Defined.

(** [isUnmarkedTailCall] terminates and accepts a call exactly when it is
    followed by no-ops and a return, the runtime resolves the token, and both
    methods return the same type and class, which is not a value class.  A
    build with the TAMD64 flag would accept value classes too, and one pop
    before the return when the caller returns nothing and the callee does. *)
Theorem isUnmarkedTailCall_correct (sizes : OPCODE -> Z) (buf : list Z) (l : list il_instr)
    (ValueClass Void NextOffset Token : Z) (AMD64 : bool) (Target : Z -> option ret_sig)
    (Current : ret_sig) :
  sizes_ok sizes -> il_ok buf -> il_seq sizes buf NextOffset l ->
  exists b, isUnmarkedTailCall sizes buf (Z.of_nat (length buf)) ValueClass Void AMD64 Target Current
      (S (length l)) NextOffset Token = Some (Some b) /\
    (b = true <-> exists T, Target Token = Some T /\
      if AMD64 then
        (returns_after l 0 /\ T = Current) \/
        (returns_after l 1 /\ retType Current = Void /\ retType T <> Void)
      else returns_after l 0 /\ T = Current /\ retType T <> ValueClass).
Proof.
  intros Hs Hb Hl. unfold isUnmarkedTailCall, isUnmarkedTailCallHelper.
  destruct (unmarked_loop sizes Hs buf Hb l NextOffset 0 Hl ltac:(lia)) as (op & n & Hrun & Hop).
  rewrite Hrun. cbn [mbind option_bind]. eexists. split; [done|].
  pose proof (Hop n) as Hn. pose proof (Hop 0) as H0. pose proof (Hop 1) as H1.
  rewrite Z.sub_0_r in *. change (0 - 0) with 0 in H0.
  assert (Hnn : forall k, returns_after l k -> 0 <= k).
  { intros k Hk. destruct (Z.lt_ge_cases k 0) as [Hneg|?]; [|done]. by apply returns_after_neg in Hk. }
  destruct (op_is op CEE_RET && (n <=? 1)) eqn:E.
  - apply andb_true_iff in E as [->%op_is_true Hle%Z.leb_le].
    assert (Hra : returns_after l n) by (apply Hn; auto). specialize (Hnn n Hra).
    destruct (Target Token) as [T|]; cbn [mbind option_bind default];
      [|split; [done|by intros (? & ? & _)]].
    unfold returns_match, is_valueclass. destruct AMD64; simpl.
    + destruct (Z.eqb_spec n 1) as [->|Hn1].
      * rewrite negb_true_iff, orb_false_iff, negb_false_iff, Z.eqb_eq, Z.eqb_neq. naive_solver lia.
      * rewrite bool_decide_eq_true. assert (n = 0) as -> by lia. naive_solver lia.
    + destruct (Z.eqb_spec (retType T) ValueClass); destruct (Z.eqb_spec (retType Current) ValueClass); simpl;
        try (split; [done|]; naive_solver).
      destruct (Z.ltb_spec 0 n).
      * split; [done|]. assert (n = 1) as -> by lia. naive_solver lia.
      * rewrite bool_decide_eq_true. assert (n = 0) as -> by lia. naive_solver.
  - cbn [default]. split; [done|]. intros (T & _ & HT). apply andb_false_iff in E.
    assert (returns_after l 0 \/ returns_after l 1) as Hr by (destruct AMD64; naive_solver).
    assert (op = CEE_RET /\ n <= 1) as [-> Hle] by (destruct Hr; naive_solver lia).
    destruct E as [E|E]; [by apply op_is_false in E|apply Z.leb_gt in E; lia].
Qed.

Lemma isUnmarkedTailCall_correct_witness :
  isUnmarkedTailCall ecma_operand_size demo_tail 8 17 1 true (fun _ => Some (RetSig 8 0)) (RetSig 1 0) 4 5 0
    = Some (Some true) /\
  isUnmarkedTailCall ecma_operand_size demo_tail 8 17 1 false (fun _ => Some (RetSig 8 0)) (RetSig 1 0) 4 5 0
    = Some (Some false).
Proof.
  destruct (isUnmarkedTailCall_correct ecma_operand_size demo_tail demo_tail_instrs 17 1 5 0 true
    (fun _ => Some (RetSig 8 0)) (RetSig 1 0) ecma_sizes_ok demo_tail_ok demo_tail_seq) as (b & Hb & Hok).
  assert (b = true) as ->.
  { apply Hok. exists (RetSig 8 0). split; [reflexivity|]. right.
    split; [exact demo_tail_returns|split; [reflexivity|discriminate]]. }
  split; [exact Hb|vm_compute; reflexivity].
Defined.
