(* ===== verification/CorDisTools.v ===== *)
(** * Disassembly tools (lib/CoreDisTools/coredistools.cpp)

    Block iterators, instruction-wise disassembly past x86 prefixes, block
    dumps and the near-equality of two code blocks.  LLVM's disassembler is a
    parameter; a block's pointer is the memory from it on, as a list of bytes,
    and addresses are 64-bit. *)

From S2P Require Import Prelude.

Inductive TargetArch : Set := Target_Host | Target_X86 | Target_X64 | Target_Thumb | Target_Arm64.

#[export] Instance TargetArch_eq_dec : EqDecision TargetArch.
Proof. solve_decision. Defined.

(** The operand kinds the comparison tells apart; an immediate is 64-bit, a
    floating-point immediate is its bit pattern. *)
Inductive MCOperand : Set :=
  | OpInvalid
  | OpReg (r : Z)
  | OpImm (v : Z)
  | OpFPImm (bits : Z)
  | OpExpr
  | OpInst.

Record MCInst := MkInst { getOpcode : Z; Operands : list MCOperand }.

Definition isExpr (o : MCOperand) : bool := match o with OpExpr => true | _ => false end.
Definition isInst (o : MCOperand) : bool := match o with OpInst => true | _ => false end.

(** ** Block iterators *)

Record BlockIterator := BlockIter {
  Ptr : list Z;
  BlockSize : Z;
  Addr : Z;
  Inst : MCInst;
  InstrSize : Z;
  BlockStartAddr : Z }.

Definition no_inst : MCInst := MkInst 0 [].

(** The constructors: nothing is decoded yet. *)
Definition block_iterator (p : list Z) (size addr : Z) : BlockIterator :=
  BlockIter p size addr no_inst 0 addr.

Definition isEmpty (b : BlockIterator) : bool := BlockSize b =? 0.
Definition isDecoded (b : BlockIterator) : bool := negb (InstrSize b =? 0).
Definition BlockOffset (b : BlockIterator) : Z := u64 (Addr b - BlockStartAddr b).

(** [None] is a failed assertion. *)
Definition advance (b : BlockIterator) : option BlockIterator :=
  if isDecoded b && (InstrSize b <=? BlockSize b) then
    Some (BlockIter (drop (Z.to_nat (InstrSize b)) (Ptr b)) (u64 (BlockSize b - InstrSize b))
            (u64 (Addr b + InstrSize b)) (Inst b) 0 (BlockStartAddr b))
  else None.

(** [memcmp] over the left iterator's instruction. *)
Definition isBitwiseEqual (l r : BlockIterator) : bool :=
  bool_decide (take (Z.to_nat (InstrSize l)) (Ptr l) = take (Z.to_nat (InstrSize l)) (Ptr r)).

(** ** Instruction-wise disassembly *)

Section CorDisasm.

(** LLVM's [getInstruction]: the instruction and its size for the bytes at an
    address. *)
Context (getInstruction : list Z -> Z -> option (MCInst * Z)).

(** The iterator after decoding; [None] is a failed assertion on the size. *)
Definition decodeInstruction (b : BlockIterator) : option (BlockIterator * bool) :=
  match getInstruction (take (Z.to_nat (BlockSize b)) (Ptr b)) (Addr b) with
  | None => Some (BlockIter (Ptr b) (BlockSize b) (Addr b) (Inst b) 0 (BlockStartAddr b), false)
  | Some (i, n) =>
      if (n <=? BlockSize b) && (0 <? n)
      then Some (BlockIter (Ptr b) (BlockSize b) (Addr b) i n (BlockStartAddr b), true)
      else None
  end.

(** Machine opcodes of the prefix table. *)
Definition X86Prefix : list Z :=
  [0xF0; 0xF2; 0xF3; 0x66; 0x2E; 0x3E; 0x26; 0x64; 0x65; 0x36; 0x67;
   0x48; 0x49; 0x4A; 0x4B; 0x4C; 0x4D; 0x4E; 0x4F].

(** Whether the instruction just decoded is a prefix byte. *)
Definition is_prefix_byte (Arch : TargetArch) (b : BlockIterator) : bool :=
  match Arch with
  | Target_X86 | Target_X64 =>
      (InstrSize b =? 1) &&
      match Ptr b with byte :: _ => existsb (Z.eqb byte) X86Prefix | [] => false end
  | _ => false
  end.

Fixpoint disasm_loop (fuel : nat) (Arch : TargetArch) (b : BlockIterator) (TotalSize : Z)
    : option (BlockIterator * Z) :=
  match fuel with
  | O => None
  | S fuel' =>
      '(b, ok) ← decodeInstruction b;
      if (ok : bool) then
        let TotalSize := u64 (TotalSize + InstrSize b) in
        if is_prefix_byte Arch b then
          b ← advance b; disasm_loop fuel' Arch b TotalSize
        else Some (b, TotalSize)
      else Some (b, 0)
  end.

(** Every prefix consumes a byte, which bounds the fuel. *)
Definition disasmInstruction (Arch : TargetArch) (b : BlockIterator) : option (BlockIterator * Z) :=
  disasm_loop (S (Z.to_nat (BlockSize b))) Arch b 0.

Definition DisasmInstruction (Arch : TargetArch) (Address : Z) (Bytes : list Z) (Maxlength : Z)
    : option Z :=
  '(_, DecodeLength) ← disasmInstruction Arch (block_iterator Bytes Maxlength Address);
  Some DecodeLength.

(** The addresses at which a dump starts a new line of output. *)
Fixpoint dump_loop (fuel : nat) (Arch : TargetArch) (b : BlockIterator) (out : list Z)
    : option (list Z) :=
  match fuel with
  | O => None
  | S fuel' =>
      if isEmpty b then Some out
      else
        '(b', _) ← disasmInstruction Arch b;
        if negb (isDecoded b') then Some out
        else b'' ← advance b'; dump_loop fuel' Arch b'' (out ++ [Addr b])
  end.

Definition dumpBlock (Arch : TargetArch) (Bytes : list Z) (Size Address : Z) : option (list Z) :=
  dump_loop (S (Z.to_nat Size)) Arch (block_iterator Bytes Size Address) [].

(** ** Near equality of code blocks *)

(** The client's heuristic: block offset, instruction length, two immediates. *)
Context (Comparator : Z -> Z -> Z -> Z -> bool).

(** Equality of doubles on their bits. *)
Context (fp_eq : Z -> Z -> bool).

(** [Some msg] is a mismatch. *)
Definition compare_operand (Offset Size : Z) (OperandL OperandR : MCOperand) : option string :=
  if isExpr OperandL || isExpr OperandR || isInst OperandL || isInst OperandR
  then Some "Unexpected Operand Kind"%string
  else
    match OperandL with
    | OpReg l =>
        match OperandR with
        | OpReg r => if negb (l =? r) then Some "Operand Register Mismatch"%string else None
        | _ => Some "Operand Kind Mismatch"%string
        end
    | OpFPImm l =>
        match OperandR with
        | OpFPImm r => if negb (fp_eq l r) then Some "Operand FP value Mismatch"%string else None
        | _ => Some "Operand Kind Mismatch"%string
        end
    | OpImm ImmL =>
        match OperandR with
        | OpImm ImmR =>
            if ImmL =? ImmR then None
            else if Comparator Offset Size ImmL ImmR then None
            else Some "Immediate Operand Value Mismatch"%string
        | _ => Some "Operand Kind Mismatch"%string
        end
    | _ => None
    end.

Inductive diff_result : Set :=
  | Same
  | Mismatch (msg : string)
  | DecodeFailed
  | OperandOutOfRange.

(** The operand loop, by the left instruction's operand count. *)
Fixpoint compare_operands (Offset Size : Z) (l r : list MCOperand) : diff_result :=
  match l, r with
  | [], _ => Same
  | _ :: _, [] => OperandOutOfRange
  | ol :: l', or :: r' =>
      match compare_operand Offset Size ol or with
      | Some msg => Mismatch msg
      | None => compare_operands Offset Size l' r'
      end
  end.

(** Both checks compare the left instruction with itself, as in the code. *)
Definition compare_inst (Offset Size : Z) (InstL InstR : MCInst) : diff_result :=
  if negb (getOpcode InstL =? getOpcode InstL) then Mismatch "OpCode Mismatch"%string
  else
    let numOperands := length (Operands InstL) in
    if negb (numOperands =? length (Operands InstL))%nat then Mismatch "Operand Count Mismatch"%string
    else compare_operands Offset Size (Operands InstL) (Operands InstR).

(** [None] of the result is a failed assertion. *)
Definition diff_step (s : BlockIterator * BlockIterator)
    : BlockIterator * BlockIterator + option diff_result :=
  let '(Left, Right) := s in
  if negb (isEmpty Left) && negb (isEmpty Right) then
    match decodeInstruction Left, decodeInstruction Right with
    | Some (Left, _), Some (Right, _) =>
        if negb (isDecoded Left) || negb (isDecoded Right) then inr (Some DecodeFailed)
        else if negb (InstrSize Left =? InstrSize Right)
        then inr (Some (Mismatch "Instruction Size Mismatch"))
        else
          match (if isBitwiseEqual Left Right then Same
                 else compare_inst (BlockOffset Left) (InstrSize Left) (Inst Left) (Inst Right)) with
          | Same =>
              match advance Left, advance Right with
              | Some Left, Some Right => inl (Left, Right)
              | _, _ => inr None
              end
          | d => inr (Some d)
          end
    | _, _ => inr None
    end
  else inr (Some Same).

Definition nearDiff (Left Right : BlockIterator) : option (option diff_result) :=
  if negb (BlockSize Left =? BlockSize Right) then Some (Some (Mismatch "Code Size mismatch"))
  else while_fuel (S (Z.to_nat (BlockSize Left))) diff_step (Left, Right).

Definition NearDiffCodeBlocks (Address1 : Z) (Bytes1 : list Z) (Size1 : Z)
    (Address2 : Z) (Bytes2 : list Z) (Size2 : Z) : option (option diff_result) :=
  nearDiff (block_iterator Bytes1 Size1 Address1) (block_iterator Bytes2 Size2 Address2).

End CorDisasm.

(** ** Specification *)

Section Spec.

Context (getInstruction : list Z -> Z -> option (MCInst * Z)).

(** What the code asserts of LLVM's disassembler: an instruction takes at
    least one byte and no more than it was given. *)
Definition disassembler_ok : Prop := forall bs a i n,
  getInstruction bs a = Some (i, n) -> 0 < n <= Z.of_nat (length bs).

Context (Hdis : disassembler_ok).

(** The bytes of the block an iterator still covers. *)
Definition block_bytes (b : BlockIterator) : list Z := take (Z.to_nat (BlockSize b)) (Ptr b).

Definition block_ok (b : BlockIterator) : Prop :=
  0 <= BlockSize b <= Z.of_nat (length (Ptr b)) /\ BlockSize b < 2 ^ 64.

Lemma block_bytes_length b : block_ok b -> Z.of_nat (length (block_bytes b)) = BlockSize b.
Proof. intros [H _]. unfold block_bytes. rewrite length_take. lia. Qed.

(** An iterator at an instruction that has been decoded. *)
Definition decoded_at (b b' : BlockIterator) (i : MCInst) (n : Z) : Prop :=
  b' = BlockIter (Ptr b) (BlockSize b) (Addr b) i n (BlockStartAddr b) /\ 0 < n <= BlockSize b /\
  getInstruction (block_bytes b) (Addr b) = Some (i, n).

Lemma decode_cases b :
  block_ok b ->
  (exists b' i n, decodeInstruction getInstruction b = Some (b', true) /\ decoded_at b b' i n) \/
  (exists b', decodeInstruction getInstruction b = Some (b', false) /\ isDecoded b' = false /\
     getInstruction (block_bytes b) (Addr b) = None).
Proof.
  intros Hb. unfold decodeInstruction. fold (block_bytes b).
  destruct (getInstruction (block_bytes b) (Addr b)) as [[i n]|] eqn:E.
  - left. pose proof (Hdis _ _ _ _ E) as Hn. rewrite block_bytes_length in Hn by done.
    rewrite (proj2 (Z.leb_le _ _)), (proj2 (Z.ltb_lt _ _)) by lia. simpl.
    eexists _, i, n. split; [reflexivity|]. by split.
  - right. eexists. by split_and!.
Qed.

Lemma drop_take_comm (l : list Z) (n m : nat) : (n <= m)%nat -> drop n (take m l) = take (m - n) (drop n l).
Proof. intros H. rewrite skipn_firstn_comm. done. Qed.

(** Advancing past a decoded instruction drops its bytes. *)
Lemma advance_decoded b b' i n :
  block_ok b -> decoded_at b b' i n ->
  exists b'', advance b' = Some b'' /\ block_ok b'' /\ block_bytes b'' = drop (Z.to_nat n) (block_bytes b) /\
    BlockSize b'' = BlockSize b - n /\ Addr b'' = u64 (Addr b + n) /\ BlockStartAddr b'' = BlockStartAddr b.
Proof.
  intros Hb (-> & Hn & _). destruct Hb as [Hb H64]. unfold advance, isDecoded. simpl.
  rewrite (proj2 (Z.eqb_neq n 0)), (proj2 (Z.leb_le _ _)) by lia. simpl.
  eexists. split; [reflexivity|]. unwrap. unfold block_ok, block_bytes. simpl. unwrap.
  rewrite length_drop. split; [lia|]. split.
  - rewrite drop_take_comm by lia. f_equal. lia.
  - done.
Qed.

(** *** Instruction sizes past prefixes *)

Definition is_x86 (Arch : TargetArch) : bool :=
  match Arch with Target_X86 | Target_X64 => true | _ => false end.

Definition prefix_at (Arch : TargetArch) (bs : list Z) (n : Z) : Prop :=
  is_x86 Arch = true /\ n = 1 /\ exists p r, bs = p :: r /\ p ∈ X86Prefix.

(** Prefix bytes and one instruction, [n] bytes in all. *)
Inductive insn_size (Arch : TargetArch) : Z -> list Z -> Z -> Prop :=
  | size_last a bs i n : getInstruction bs a = Some (i, n) -> ~ prefix_at Arch bs n ->
      insn_size Arch a bs n
  | size_prefix a bs i n k : getInstruction bs a = Some (i, n) -> prefix_at Arch bs n ->
      insn_size Arch (u64 (a + 1)) (drop 1 bs) k -> insn_size Arch a bs (1 + k).

Lemma is_prefix_byte_spec Arch b b' i n :
  decoded_at b b' i n -> is_prefix_byte Arch b' = true <-> prefix_at Arch (block_bytes b) n.
Proof.
  intros (-> & Hn & _). unfold is_prefix_byte, prefix_at, block_bytes. simpl.
  assert (Hg : (n =? 1) && match Ptr b with byte :: _ => existsb (Z.eqb byte) X86Prefix | [] => false end = true <->
    n = 1 /\ exists p r, take (Z.to_nat (BlockSize b)) (Ptr b) = p :: r /\ p ∈ X86Prefix).
  { rewrite andb_true_iff, Z.eqb_eq. f_equiv. destruct (Ptr b) as [|p r].
    - rewrite take_nil. split; [done|by intros (? & ? & ? & _)].
    - destruct (Z.to_nat (BlockSize b)) as [|m] eqn:Em; [lia|]. simpl take. rewrite existsb_exists. split.
      + intros (x & Hx & ->%Z.eqb_eq). exists x, (take m r). split; [done|by apply list_elem_of_In].
      + intros (? & ? & [= <- _] & Hp). exists p. rewrite Z.eqb_refl. split; [by apply list_elem_of_In|done]. }
  destruct Arch; simpl; rewrite ?Hg; naive_solver.
Qed.

Lemma insn_size_range Arch a bs n : insn_size Arch a bs n -> 0 < n <= Z.of_nat (length bs).
Proof.
  induction 1 as [a bs i n Hi|a bs i n k Hi (_ & -> & p & r & -> & _) Hk IH].
  - by eapply Hdis.
  - simpl in *. rewrite drop_0 in IH. lia.
Qed.

Lemma disasm_loop_spec Arch (fuel : nat) : forall b Total,
  block_ok b -> BlockSize b < Z.of_nat fuel -> 0 <= Total -> Total + BlockSize b < 2 ^ 64 ->
  exists b' r, disasm_loop getInstruction fuel Arch b Total = Some (b', r) /\
    ((isDecoded b' = true /\ exists n, r = Total + n /\ insn_size Arch (Addr b) (block_bytes b) n) \/
     (isDecoded b' = false /\ r = 0 /\ forall n, ~ insn_size Arch (Addr b) (block_bytes b) n)).
Proof.
  induction fuel as [|fuel IH]; intros b Total Hb Hf HT H64; [destruct Hb; lia|]. cbn [disasm_loop].
  destruct (decode_cases b Hb) as [(b' & i & n & -> & Hd)|(b' & -> & Hnd & Hnone)]; cbn [mbind option_bind].
  - pose proof Hd as (Hb' & Hn & Hi).
    assert (HSz : InstrSize b' = n) by by subst b'. rewrite HSz. unwrap.
    destruct (is_prefix_byte Arch b') eqn:Ep.
    + apply (is_prefix_byte_spec Arch b b' i n Hd) in Ep. pose proof Ep as (_ & -> & _).
      destruct (advance_decoded b b' i 1 Hb Hd) as (b2 & -> & Hb2 & Hby & Hs2 & Ha2 & _).
      cbn [mbind option_bind]. destruct (IH b2 (Total + 1) Hb2) as (b3 & r & -> & Hr); [lia..|].
      exists b3, r. split; [done|]. rewrite Ha2, Hby in Hr.
      destruct Hr as [(Hd3 & k & -> & Hk)|(Hd3 & -> & Hno)]; [left|right].
      * split; [done|]. exists (1 + k). split; [lia|]. by apply (size_prefix Arch _ _ i 1).
      * split; [done|]. split; [done|]. intros k Hk.
        inversion Hk as [? ? ? ? Hi2 Hnp|? ? ? ? k' Hi2 _ Hk']; simplify_eq; [done|by apply (Hno k')].
    + exists b', (Total + n). split; [done|]. left. split.
      * subst b'. unfold isDecoded. simpl. rewrite (proj2 (Z.eqb_neq n 0)) by lia. done.
      * exists n. split; [done|]. apply (size_last Arch _ _ i n); [done|].
        rewrite <- (is_prefix_byte_spec Arch b b' i n Hd). by rewrite Ep.
  - exists b', 0. split; [done|]. right. split; [done|]. split; [done|]. intros n Hk.
    inversion Hk; simplify_eq.
Qed.

(** *** Matching blocks *)

Context (Comparator : Z -> Z -> Z -> Z -> bool) (fp_eq : Z -> Z -> bool).

(** A whole block as its instructions with their bytes. *)
Inductive decodes : Z -> list Z -> list (MCInst * list Z) -> Prop :=
  | decodes_nil a : decodes a [] []
  | decodes_cons a bs i n l : getInstruction bs a = Some (i, n) -> bs <> [] ->
      decodes (u64 (a + n)) (drop (Z.to_nat n) bs) l ->
      decodes a bs ((i, take (Z.to_nat n) bs) :: l).

Definition operand_match (Offset Size : Z) (l r : MCOperand) : Prop :=
  isExpr r = false /\ isInst r = false /\
  match l with
  | OpInvalid => True
  | OpReg x => r = OpReg x
  | OpFPImm x => exists y, r = OpFPImm y /\ fp_eq x y = true
  | OpImm x => exists y, r = OpImm y /\ (x = y \/ Comparator Offset Size x y = true)
  | OpExpr | OpInst => False
  end.

(** The operands of the left instruction match the first ones of the right. *)
Definition operands_match (Offset Size : Z) (l r : list MCOperand) : Prop :=
  exists rl rest, r = rl ++ rest /\ Forall2 (operand_match Offset Size) l rl.

Inductive blocks_match : Z -> list (MCInst * list Z) -> list (MCInst * list Z) -> Prop :=
  | match_nil o : blocks_match o [] []
  | match_cons o i j bs cs l r :
      length bs = length cs ->
      bs = cs \/ operands_match o (Z.of_nat (length bs)) (Operands i) (Operands j) ->
      blocks_match (u64 (o + Z.of_nat (length bs))) l r ->
      blocks_match o ((i, bs) :: l) ((j, cs) :: r).

Lemma compare_operand_spec Offset Size l r :
  compare_operand Comparator fp_eq Offset Size l r = None <-> operand_match Offset Size l r.
Proof.
  unfold compare_operand, operand_match.
  destruct l as [|x|x|x| |], r as [|y|y|y| |]; simpl;
    try (split; [done|naive_solver]); try (destruct (Z.eqb_spec x y) as [->|]; simpl; naive_solver).
  - destruct (Z.eqb_spec x y) as [->|]; simpl; [naive_solver|].
    destruct (Comparator Offset Size x y) eqn:E; split; [|done..|].
    + intros _. split_and!; [done..|]. exists y. auto.
    + intros (_ & _ & z & [= <-] & [?|?]); congruence.
  - destruct (fp_eq x y) eqn:E; split; [|done..|].
    + intros _. split_and!; [done..|]. exists y. auto.
    + intros (_ & _ & z & [= <-] & ?). congruence.
Qed.

Lemma compare_operands_spec Offset Size l : forall r,
  compare_operands Comparator fp_eq Offset Size l r = Same <-> operands_match Offset Size l r.
Proof.
  unfold operands_match. induction l as [|x l IH]; intros r; simpl.
  - split; [|by destruct r]. intros _. exists [], r. by split; [|constructor].
  - destruct r as [|y r].
    + split; [done|]. intros ([|] & ? & Heq & Hf); [by inversion Hf|done].
    + destruct (compare_operand Comparator fp_eq Offset Size x y) as [m|] eqn:E.
      * split; [done|]. intros (rl & rest & Heq & Hf). inversion Hf as [|? y' ? ? Hm _]; subst.
        simpl in Heq. injection Heq as -> _. apply compare_operand_spec in Hm. congruence.
      * apply compare_operand_spec in E. rewrite IH. split.
        -- intros (rl & rest & -> & Hf). exists (y :: rl), rest. by split; [|constructor].
        -- intros (rl & rest & Heq & Hf). inversion Hf as [|? y' ? rl' ? ? Hf']; subst.
           injection Heq as <- ->. by exists rl', rest.
Qed.

Lemma decodes_inv a bs i n l :
  getInstruction bs a = Some (i, n) -> bs <> [] -> decodes a bs l ->
  exists l', l = (i, take (Z.to_nat n) bs) :: l' /\ decodes (u64 (a + n)) (drop (Z.to_nat n) bs) l'.
Proof. intros Hi Hne Hd. inversion Hd; subst; [done|]. simplify_eq. eauto. Qed.

Lemma decodes_none a bs l : getInstruction bs a = None -> bs <> [] -> ~ decodes a bs l.
Proof. intros Hi Hne Hd. inversion Hd; subst; [done|]. congruence. Qed.

Lemma block_bytes_empty b : block_ok b -> isEmpty b = true <-> block_bytes b = [].
Proof.
  intros Hb. unfold isEmpty. rewrite Z.eqb_eq, <- (block_bytes_length b Hb), <- length_zero_iff_nil. lia.
Qed.

Lemma take_full_eq (l : list Z) (n : nat) b :
  (n <= Z.to_nat (BlockSize b))%nat -> l = Ptr b -> take n l = take n (block_bytes b).
Proof. intros Hn ->. unfold block_bytes. rewrite take_take. f_equal. lia. Qed.

(** One round of the comparison, when both sides decode. *)
Lemma diff_step_decoded l r l' r' i j n m :
  block_ok l -> block_ok r -> isEmpty l = false -> isEmpty r = false ->
  decodeInstruction getInstruction l = Some (l', true) -> decoded_at l l' i n ->
  decodeInstruction getInstruction r = Some (r', true) -> decoded_at r r' j m ->
  match diff_step getInstruction Comparator fp_eq (l, r) with
  | inl (l2, r2) => n = m /\ (take (Z.to_nat n) (block_bytes l) = take (Z.to_nat n) (block_bytes r) \/
        operands_match (BlockOffset l) n (Operands i) (Operands j)) /\
      advance l' = Some l2 /\ advance r' = Some r2
  | inr d => exists x, d = Some x /\ x <> Same /\ (n = m ->
        take (Z.to_nat n) (block_bytes l) <> take (Z.to_nat n) (block_bytes r) /\
        ~ operands_match (BlockOffset l) n (Operands i) (Operands j))
  end.
Proof.
  intros Hl Hr El Er Hdl Hal Hdr Har. unfold diff_step. rewrite El, Er, Hdl, Hdr. simpl.
  destruct (advance_decoded l l' i n Hl Hal) as (l2 & Hl2 & _).
  destruct (advance_decoded r r' j m Hr Har) as (r2 & Hr2 & _). rewrite Hl2, Hr2.
  destruct Hal as (-> & Hn & _), Har as (-> & Hm & _). unfold isDecoded, isBitwiseEqual, BlockOffset. simpl.
  rewrite (proj2 (Z.eqb_neq n 0)), (proj2 (Z.eqb_neq m 0)) by lia. simpl.
  destruct (Z.eqb_spec n m) as [<-|Hne]; simpl; [|eexists; by split_and!].
  rewrite (take_full_eq (Ptr l) (Z.to_nat n) l), (take_full_eq (Ptr r) (Z.to_nat n) r) by (done || lia).
  destruct (bool_decide_reflect (take (Z.to_nat n) (block_bytes l) = take (Z.to_nat n) (block_bytes r)));
    [by auto|].
  unfold compare_inst. rewrite Z.eqb_refl, Nat.eqb_refl. simpl.
  pose proof (compare_operands_spec (u64 (Addr l - BlockStartAddr l)) n (Operands i) (Operands j)) as Hc.
  destruct (compare_operands _ _ _ _ _ _); [split_and!; [done|right; by apply Hc|done..]|..];
    (eexists; split_and!; [done..|]; intros _; split; [done|]; by rewrite <- Hc).
Qed.

Lemma diff_loop_spec (fuel : nat) : forall l r,
  block_ok l -> block_ok r -> BlockSize l = BlockSize r -> BlockSize l < Z.of_nat fuel ->
  exists d, while_fuel fuel (diff_step getInstruction Comparator fp_eq) (l, r) = Some (Some d) /\
    (d = Same <-> exists ll lr, decodes (Addr l) (block_bytes l) ll /\ decodes (Addr r) (block_bytes r) lr /\
       blocks_match (BlockOffset l) ll lr).
Proof.
  induction fuel as [|fuel IH]; intros l r Hl Hr Hsz Hf; [destruct Hl; lia|]. cbn [while_fuel].
  assert (Hee : isEmpty r = isEmpty l) by (unfold isEmpty; by rewrite Hsz).
  destruct (isEmpty l) eqn:El.
  { unfold diff_step. rewrite El. simpl. eexists. split; [done|]. split; [|done]. intros _.
    apply block_bytes_empty in El as ->; [|done]. apply block_bytes_empty in Hee as ->; [|done].
    exists [], []. repeat split; constructor. }
  assert (Hnl : block_bytes l <> []) by (rewrite <- block_bytes_empty by done; by rewrite El).
  assert (Hnr : block_bytes r <> []) by (rewrite <- block_bytes_empty by done; by rewrite Hee).
  destruct (decode_cases l Hl) as [(l' & i & n & Hdl & Hal)|(l' & Hdl & Hul & Hgl)].
  2:{ unfold diff_step. rewrite El, Hee, Hdl. simpl.
      destruct (decode_cases r Hr) as [(r' & j & m & -> & _)|(r' & -> & _)];
        rewrite Hul; simpl; (eexists; split; [done|]; split; [done|];
        intros (ll & _ & Hd & _); by apply decodes_none in Hd). }
  destruct (decode_cases r Hr) as [(r' & j & m & Hdr & Har)|(r' & Hdr & Hur & Hgr)].
  2:{ unfold diff_step. rewrite El, Hee, Hdl, Hdr, Hur. simpl. rewrite orb_true_r.
      eexists; split; [done|]; split; [done|]. intros (_ & lr & _ & Hd & _). by apply decodes_none in Hd. }
  pose proof (diff_step_decoded l r l' r' i j n m Hl Hr El Hee Hdl Hal Hdr Har) as Hstep.
  pose proof Hal as (_ & Hn & Hgl). pose proof Har as (_ & Hm & Hgr).
  assert (Hlen : forall b, block_ok b -> n <= BlockSize b -> Z.of_nat (length (take (Z.to_nat n) (block_bytes b))) = n).
  { intros b Hb Hnb. rewrite length_take. pose proof (block_bytes_length b Hb). lia. }
  destruct (diff_step _ _ _ (l, r)) as [[l2 r2]|d].
  - destruct Hstep as (<- & Hmatch & Hl2 & Hr2).
    destruct (advance_decoded l l' i n Hl Hal) as (l3 & Hl3 & Hlok & Hlb & Hls & Hla & Hlst).
    destruct (advance_decoded r r' j n Hr Har) as (r3 & Hr3 & Hrok & Hrb & Hrs & Hra & Hrst). simplify_eq.
    destruct (IH l2 r2 Hlok Hrok) as (d & -> & Hd); [lia..|]. exists d. split; [done|]. rewrite Hd.
    assert (Hoff : u64 (BlockOffset l + n) = BlockOffset l2).
    { unfold BlockOffset. rewrite Hla, Hlst. unfold u64, wrap. rewrite Zplus_mod_idemp_l, Zminus_mod_idemp_l.
      f_equal. lia. }
    rewrite Hla, Hra, Hlb, Hrb. split.
    + intros (ll & lr & Hdl' & Hdr' & Hbm).
      exists ((i, take (Z.to_nat n) (block_bytes l)) :: ll), ((j, take (Z.to_nat n) (block_bytes r)) :: lr).
      split; [by apply decodes_cons|]. split; [by apply decodes_cons|].
      constructor; [apply Nat2Z.inj; rewrite !Hlen by (done || lia); done|rewrite Hlen by (done || lia); done|].
      rewrite Hlen by (done || lia). by rewrite Hoff.
    + intros (ll & lr & Hdl' & Hdr' & Hbm).
      apply (decodes_inv _ _ i n) in Hdl' as (ll' & -> & Hdl'); [|done..].
      apply (decodes_inv _ _ j n) in Hdr' as (lr' & -> & Hdr'); [|done..].
      exists ll', lr'. split; [done|]. split; [done|]. inversion Hbm as [|? ? ? ? ? ? ? ? ? Hrest]; subst.
      rewrite Hlen in Hrest by (done || lia). by rewrite <- Hoff.
  - destruct Hstep as (x & -> & Hx & Hno). exists x. split; [done|]. split; [done|].
    intros (ll & lr & Hdl' & Hdr' & Hbm).
    apply (decodes_inv _ _ i n) in Hdl' as (ll' & -> & _); [|done..].
    apply (decodes_inv _ _ j m) in Hdr' as (lr' & -> & _); [|done..].
    inversion Hbm as [|? ? ? ? ? ? ? Hlb Hor _]; subst.
    rewrite Hlen in Hor by (done || lia).
    assert (n = m) as ->.
    { apply (f_equal Z.of_nat) in Hlb. rewrite Hlen in Hlb by (done || lia). rewrite length_take in Hlb.
      pose proof (block_bytes_length r Hr). lia. }
    destruct (Hno eq_refl) as [H1 H2]. by destruct Hor.
Qed.

End Spec.

Lemma NearDiffCodeBlocks_spec (get : list Z -> Z -> option (MCInst * Z))
    (Comparator : Z -> Z -> Z -> Z -> bool) (fp_eq : Z -> Z -> bool)
    (A1 A2 : Z) (B1 B2 : list Z) (S1 S2 : Z) :
  disassembler_ok get -> 0 <= S1 <= Z.of_nat (length B1) -> 0 <= S2 <= Z.of_nat (length B2) ->
  S1 < 2 ^ 64 -> S2 < 2 ^ 64 ->
  exists d, NearDiffCodeBlocks get Comparator fp_eq A1 B1 S1 A2 B2 S2 = Some (Some d) /\
    (d = Same <-> S1 = S2 /\ exists l1 l2, decodes get A1 (take (Z.to_nat S1) B1) l1 /\
       decodes get A2 (take (Z.to_nat S2) B2) l2 /\ blocks_match Comparator fp_eq 0 l1 l2).
Proof.
  intros Hd H1 H2 H3 H4. unfold NearDiffCodeBlocks, nearDiff. simpl BlockSize.
  destruct (Z.eqb_spec S1 S2) as [->|Hne]; cbn [negb].
  - destruct (diff_loop_spec get Hd Comparator fp_eq (S (Z.to_nat S2)) (block_iterator B1 S2 A1)
      (block_iterator B2 S2 A2)) as (d & -> & Hdd); [by split|by split|done|simpl; lia|].
    exists d. split; [done|]. rewrite Hdd. unfold BlockOffset. simpl. rewrite Z.sub_diag. by intuition.
  - eexists. split; [done|]. split; [done|by intros [? _]].
Qed.

(** ** Properties *)

(** The size [DisasmInstruction] returns.  For every disassembler whose
    instructions take between one byte and what is left, it is the length of
    the prefix bytes, if the target is an x86, and of the instruction behind
    them; it is 0 exactly when one of these does not decode within the bytes
    given. *)
Theorem DisasmInstruction_correct (get : list Z -> Z -> option (MCInst * Z)) (Arch : TargetArch)
    (Address : Z) (Bytes : list Z) (Maxlength : Z) :
  disassembler_ok get -> 0 <= Maxlength <= Z.of_nat (length Bytes) -> Maxlength < 2 ^ 64 ->
  exists r, DisasmInstruction get Arch Address Bytes Maxlength = Some r /\
    (forall n, 0 < n -> r = n <-> insn_size get Arch Address (take (Z.to_nat Maxlength) Bytes) n).
Proof.
  intros Hd Hm H64. unfold DisasmInstruction, disasmInstruction. simpl BlockSize.
  destruct (disasm_loop_spec get Hd Arch (S (Z.to_nat Maxlength)) (block_iterator Bytes Maxlength Address) 0)
    as (b' & r & -> & Hr); [by split|simpl; lia|lia|simpl; lia|].
  cbn [mbind option_bind]. exists r. split; [done|]. unfold block_bytes in Hr. simpl in Hr.
  intros n Hn. destruct Hr as [(_ & k & -> & Hk)|(_ & -> & Hno)].
  - rewrite Z.add_0_l. split; [by intros <-|]. intros Hk'. revert n Hn Hk'.
    clear Hm H64. induction Hk as [a bs i n Hi Hnp|a bs i n k Hi Hp Hk IH]; intros m Hm Hk'.
    + inversion Hk'; simplify_eq; done.
    + inversion Hk' as [|? ? ? ? k' Hi' Hp' Hk2]; simplify_eq; [done|].
      pose proof (insn_size_range get Hd _ _ _ _ Hk2). by rewrite (IH k') by (done || lia).
  - split; [lia|]. intros Hk. by destruct (Hno n).
Qed.

(** A toy disassembler: 0x90 and the prefixes are one byte, 0xB8 takes a byte
    immediate, 0x00 is no instruction. *)
Definition demo_dis (bs : list Z) (a : Z) : option (MCInst * Z) :=
  match bs with
  | 0x00 :: _ => None
  | 0xB8 :: v :: _ => Some (MkInst 7 [OpReg 1; OpImm v], 2)
  | 0xB8 :: [] => None
  | p :: _ => Some (MkInst p [], 1)
  | [] => None
  end.

Lemma demo_dis_ok : disassembler_ok demo_dis.
Proof.
  intros bs a i n H. unfold demo_dis in H. repeat case_match; simplify_eq; simpl; lia.
Qed.

Lemma DisasmInstruction_correct_witness :
  DisasmInstruction demo_dis Target_X64 0 [0x48; 0xB8; 5; 0x90] 4 = Some 3 /\
  insn_size demo_dis Target_X64 0 [0x48; 0xB8; 5; 0x90] 3.
Proof.
  destruct (DisasmInstruction_correct demo_dis Target_X64 0 [0x48; 0xB8; 5; 0x90] 4 demo_dis_ok) as (r & Hr & Hs).
  - simpl. lia.
  - lia.
  - split; [vm_compute; reflexivity|]. vm_compute in Hr. injection Hr as <-.
    by apply (Hs 3 ltac:(lia)).
Defined.

(** [NearDiffCodeBlocks] always ends with an answer, and the answer is that
    the blocks are the same exactly when they have the same size and decode
    completely, instruction by instruction with equal sizes, into instructions
    with equal bytes or with operands that agree: registers and floating-point
    immediates equal, other immediates equal or equivalent to the client's
    comparator. *)
Theorem NearDiffCodeBlocks_correct (get : list Z -> Z -> option (MCInst * Z))
    (Comparator : Z -> Z -> Z -> Z -> bool) (fp_eq : Z -> Z -> bool)
    (A1 A2 : Z) (B1 B2 : list Z) (S1 S2 : Z) :
  disassembler_ok get -> 0 <= S1 <= Z.of_nat (length B1) -> 0 <= S2 <= Z.of_nat (length B2) ->
  S1 < 2 ^ 64 -> S2 < 2 ^ 64 ->
  exists d, NearDiffCodeBlocks get Comparator fp_eq A1 B1 S1 A2 B2 S2 = Some (Some d) /\
    (d = Same <-> S1 = S2 /\ exists l1 l2, decodes get A1 (take (Z.to_nat S1) B1) l1 /\
       decodes get A2 (take (Z.to_nat S2) B2) l2 /\ blocks_match Comparator fp_eq 0 l1 l2).
Proof. apply NearDiffCodeBlocks_spec. Qed.

Lemma demo_decodes : decodes demo_dis 0 [0xB8; 5; 0x90] [(MkInst 7 [OpReg 1; OpImm 5], [0xB8; 5]); (MkInst 0x90 [], [0x90])] /\
  decodes demo_dis 64 [0xB8; 6; 0x90] [(MkInst 7 [OpReg 1; OpImm 6], [0xB8; 6]); (MkInst 0x90 [], [0x90])].
Proof.
  split.
  - apply (decodes_cons demo_dis 0 [0xB8; 5; 0x90] (MkInst 7 [OpReg 1; OpImm 5]) 2); [reflexivity|discriminate|].
    apply (decodes_cons demo_dis 2 [0x90] (MkInst 0x90 []) 1); [reflexivity|discriminate|constructor].
  - apply (decodes_cons demo_dis 64 [0xB8; 6; 0x90] (MkInst 7 [OpReg 1; OpImm 6]) 2); [reflexivity|discriminate|].
    apply (decodes_cons demo_dis 66 [0x90] (MkInst 0x90 []) 1); [reflexivity|discriminate|constructor].
Qed.

(** Immediates 5 and 6 are equivalent to the client. *)
Definition demo_comparator (o s l r : Z) : bool := (l =? r) || ((l =? 5) && (r =? 6)).

Lemma NearDiffCodeBlocks_correct_witness :
  NearDiffCodeBlocks demo_dis demo_comparator Z.eqb 0 [0xB8; 5; 0x90] 3 64 [0xB8; 6; 0x90] 3
    = Some (Some Same).
Proof.
  destruct (NearDiffCodeBlocks_correct demo_dis demo_comparator Z.eqb 0 64 [0xB8; 5; 0x90] [0xB8; 6; 0x90] 3 3
    demo_dis_ok) as (d & Hd & Hs); [simpl; lia..|].
  rewrite Hd. do 2 f_equal. apply Hs. split; [reflexivity|]. destruct demo_decodes as [H1 H2].
  eexists _, _. split; [exact H1|]. split; [exact H2|].
  constructor; [reflexivity| |constructor; [reflexivity|by left|constructor]].
  right. exists [OpReg 1; OpImm 6], []. split; [reflexivity|].
  constructor; [repeat split|]. constructor; [|constructor]. split; [reflexivity|]. split; [reflexivity|].
  exists 6. split; [reflexivity|by right].
Defined.

(** The opcode check of [nearDiff] compares the left instruction with
    itself, so opcodes never matter: replacing the opcodes a disassembler
    reports by arbitrary others, different ones for the two blocks' bytes, does
    not change which blocks are found to be the same. *)
Theorem nearDiff_ignores_opcodes (get get' : list Z -> Z -> option (MCInst * Z))
    (f : list Z -> Z -> Z) (Comparator : Z -> Z -> Z -> Z -> bool) (fp_eq : Z -> Z -> bool)
    (A1 A2 : Z) (B1 B2 : list Z) (S1 S2 : Z) :
  disassembler_ok get -> 0 <= S1 <= Z.of_nat (length B1) -> 0 <= S2 <= Z.of_nat (length B2) ->
  S1 < 2 ^ 64 -> S2 < 2 ^ 64 ->
  (forall bs a, get' bs a = (fun '(i, n) => (MkInst (f bs a) (Operands i), n)) <$> get bs a) ->
  NearDiffCodeBlocks get Comparator fp_eq A1 B1 S1 A2 B2 S2 = Some (Some Same) ->
  NearDiffCodeBlocks get' Comparator fp_eq A1 B1 S1 A2 B2 S2 = Some (Some Same).
Proof.
  intros Hd H1 H2 H3 H4 Hf Hsame.
  assert (Hd' : disassembler_ok get').
  { intros bs a i n. rewrite Hf. destruct (get bs a) as [[j m]|] eqn:E; [|done]. intros [= _ <-]. by eapply Hd. }
  assert (Hdec : forall a bs l, decodes get a bs l ->
    exists l', decodes get' a bs l' /\ Forall2 (fun x y => x.2 = y.2 /\ Operands x.1 = Operands y.1) l l').
  { intros a bs l Hl. induction Hl as [a|a bs i n l Hi Hne Hl (l' & Hl' & HF)].
    - exists []. repeat constructor.
    - exists ((MkInst (f bs a) (Operands i), take (Z.to_nat n) bs) :: l'). split; [|by repeat constructor].
      apply decodes_cons; [by rewrite Hf, Hi|done..]. }
  assert (Hmatch : forall o l1 l2 l1' l2', blocks_match Comparator fp_eq o l1 l2 ->
    Forall2 (fun x y => x.2 = y.2 /\ Operands x.1 = Operands y.1) l1 l1' ->
    Forall2 (fun x y => x.2 = y.2 /\ Operands x.1 = Operands y.1) l2 l2' ->
    blocks_match Comparator fp_eq o l1' l2').
  { intros o l1 l2 l1' l2' Hm. revert l1' l2'. induction Hm as [o|o i j bs cs l r Hlen Hor Hm IH]; intros l1' l2' F1 F2.
    - inversion F1; inversion F2; constructor.
    - inversion F1 as [|? [i' bs'] ? ? [Hb Ho] F1']; inversion F2 as [|? [j' cs'] ? ? [Hb' Ho'] F2']; simplify_eq/=.
      constructor; [done|by rewrite <- Ho, <- Ho'|by apply IH]. }
  destruct (NearDiffCodeBlocks_spec get Comparator fp_eq A1 A2 B1 B2 S1 S2 Hd H1 H2 H3 H4) as (d & Hr & Hs).
  rewrite Hsame in Hr. injection Hr as <-. destruct (proj1 Hs eq_refl) as (HS & l1 & l2 & D1 & D2 & Hm).
  destruct (Hdec _ _ _ D1) as (l1' & D1' & F1). destruct (Hdec _ _ _ D2) as (l2' & D2' & F2).
  destruct (NearDiffCodeBlocks_spec get' Comparator fp_eq A1 A2 B1 B2 S1 S2 Hd' H1 H2 H3 H4) as (d & -> & Hs').
  do 2 f_equal. apply Hs'. eauto 10.
Qed.

(** 0x01 and 0x02 stand for different instructions without operands. *)
Lemma nearDiff_ignores_opcodes_witness :
  NearDiffCodeBlocks (fun bs a => (fun '(i, n) => (MkInst (hd 0 bs) (Operands i), n)) <$> demo_dis bs a)
    demo_comparator Z.eqb 0 [0x01] 1 0 [0x02] 1 = Some (Some Same).
Proof.
  apply (nearDiff_ignores_opcodes demo_dis _ (fun bs _ => hd 0 bs) demo_comparator Z.eqb 0 0 [1] [2] 1 1 demo_dis_ok);
    [simpl; lia..|reflexivity|vm_compute; reflexivity].
Defined.
