(* ===== verification/EEMemory.v ===== *)
(** * The execution engine's memory (lib/Jit/EEMemoryManager.cpp)

    Sections are placed in the blocks the runtime hands out, and the unwind
    information of a method and its funclets is reserved before loading and
    registered after it.  Addresses are 64-bit; the .xdata contents are a list
    of bytes read by offset, and the reports to the runtime are a trace.  A
    failed assertion, or a read outside the contents, is [None].  The format of
    an UNWIND_INFO structure is stated on its own ([unwind_bytes]). *)

From S2P Require Import Prelude.

(** ** State *)

Record ee_memory := EEMemory {
  Prejit : bool;
  HotCodeBlock : Z;
  ColdCodeBlock : Z;
  ReadOnlyDataBlock : Z;
  ReadOnlyDataUnallocated : Z;
  StackMapBlock : Z;
  HotCodeSize : Z;
  ColdCodeSize : Z;
  ReadOnlyDataSize : Z;
  StackMapSize : Z }.

Definition allocateCodeSection (m : ee_memory) (Size Alignment : Z) : Z := HotCodeBlock m.
Definition getCodeSection (m : ee_memory) : Z := HotCodeBlock m.

(** Padding is relative to the block when pre-compiling, whose image is
    16-byte aligned, and to the address otherwise.  An alignment of zero
    divides by zero. *)
Definition padding_offset (m : ee_memory) (Alignment : Z) : option Z :=
  if Alignment =? 0 then None
  else if Prejit m then
    if Alignment <=? 16
    then Some (u32 (u64 (ReadOnlyDataUnallocated m - ReadOnlyDataBlock m) mod Alignment))
    else None
  else Some (u32 (ReadOnlyDataUnallocated m mod Alignment)).

Definition allocateDataSection (m : ee_memory) (Size Alignment : Z) (SectionName : string)
    (IsReadOnly : bool) : option (Z * ee_memory) :=
  if negb IsReadOnly then None
  else
    Offset ← padding_offset m Alignment;
    let Result := if 0 <? Offset then u64 (ReadOnlyDataUnallocated m + u32 (Alignment - Offset))
                  else ReadOnlyDataUnallocated m in
    let Unallocated := u64 (Result + Size) in
    if u64 (ReadOnlyDataBlock m + ReadOnlyDataSize m) <? Unallocated then None
    else if bool_decide (SectionName = ".llvm_stackmaps"%string) then
      if negb (StackMapBlock m =? 0) then None
      else Some (Result, EEMemory (Prejit m) (HotCodeBlock m) (ColdCodeBlock m) (ReadOnlyDataBlock m)
                   Unallocated Result (HotCodeSize m) (ColdCodeSize m) (ReadOnlyDataSize m) Size)
    else Some (Result, EEMemory (Prejit m) (HotCodeBlock m) (ColdCodeBlock m) (ReadOnlyDataBlock m)
                 Unallocated (StackMapBlock m) (HotCodeSize m) (ColdCodeSize m) (ReadOnlyDataSize m)
                 (StackMapSize m)).

(** Which 16-byte alignment flags go to the runtime. *)
Record CorJitAllocMemFlag := AllocFlags { Flg16ByteAlign : bool; FlgRODATA16ByteAlign : bool }.

Section Reserve.

(** The runtime's [allocMem]: hot, cold and read-only blocks. *)
Context (allocMem : Z -> Z -> Z -> Z -> CorJitAllocMemFlag -> Z * Z * Z).

Definition reserveAllocationSpace (m : ee_memory) (CodeSize CodeAlign RODataSize RODataAlign RWDataSize : Z)
    : option ee_memory :=
  if negb (RWDataSize =? 0) || negb (CodeAlign <=? 16) || negb (RODataAlign <=? 16) then None
  else
    let '(HotBlock, ColdBlock, RODataBlock) :=
      allocMem CodeSize 0 RODataSize 0 (AllocFlags (CodeAlign =? 16) (RODataAlign =? 16)) in
    if negb (ColdBlock =? 0) then None
    else Some (EEMemory (Prejit m) HotBlock ColdBlock RODataBlock RODataBlock (StackMapBlock m)
                 CodeSize 0 RODataSize (StackMapSize m)).

End Reserve.

(** ** Unwind information *)

(** Reported and total size of the unwind info at [p]. *)
Definition getXdataSize (buf : list Z) (p : Z) : option (Z * Z) :=
  NumCodes ← byte_at buf (p + 2);
  let ReportedBytes := 4 + 2 * NumCodes in
  let UnreportedBytes := if Z.land ReportedBytes 2 =? 0 then 0 else 2 in
  Version ← byte_at buf p;
  let UnreportedBytes := if Version =? 1 then UnreportedBytes else UnreportedBytes + 4 in
  let TotalBytes := ReportedBytes + UnreportedBytes in
  Some (ReportedBytes, if TotalBytes <? 8 then 8 else TotalBytes).

Inductive CorJitFuncKind : Set := CORJIT_FUNC_ROOT | CORJIT_FUNC_HANDLER.

#[export] Instance CorJitFuncKind_eq_dec : EqDecision CorJitFuncKind.
Proof. solve_decision. Defined.

(** Calls of the runtime; unwind blocks and clauses by their offset. *)
Inductive ee_call : Set :=
  | ReserveUnwindInfo (IsHandler : bool) (Size : Z)
  | AllocUnwindInfo (StartOffset EndOffset UnwindSize UnwindBlock : Z) (Kind : CorJitFuncKind)
  | SetEHcount (n : Z)
  | SetEHinfo (i Clause : Z).

Definition read32 (buf : list Z) (p : Z) : option Z := le_val <$> read_bytes buf p 4.

(** The loop of [reserveUnwindSpace] over one .xdata section. *)
Fixpoint reserve_walk (fuel : nat) (buf : list Z) (p : Z) (IsHandler : bool) : option (list ee_call) :=
  match fuel with
  | O => None
  | S fuel' =>
      '(Reported, Total) ← getXdataSize buf p;
      b ← byte_at buf p;
      if Z.land b 0x20 =? 0x10 then None
      else
        let p := p + Total in
        if p =? Z.of_nat (length buf) then Some [ReserveUnwindInfo IsHandler Reported]
        else
          next ← byte_at buf p;
          if Z.land next 0x7 =? 1 then
            r ← reserve_walk fuel' buf p true;
            Some (ReserveUnwindInfo IsHandler Reported :: r)
          else if next =? 0xff then Some [ReserveUnwindInfo IsHandler Reported]
          else None
  end.

Definition reserveUnwindSpace (xdata : list Z) : option (list ee_call) :=
  reserve_walk (S (length xdata)) xdata 0 false.

(** The first loop of [registerEHFrames]: offsets and sizes of the unwind
    blocks, and where it stops, at the end or behind the last entry. *)
Fixpoint unwind_blocks (fuel : nat) (buf : list Z) (p : Z) (Kind : CorJitFuncKind)
    : option (list (Z * Z) * Z * CorJitFuncKind) :=
  match fuel with
  | O => None
  | S fuel' =>
      '(Reported, Total) ← getXdataSize buf p;
      let q := p + Total in
      if q =? Z.of_nat (length buf) then
        if bool_decide (Kind = CORJIT_FUNC_ROOT) then Some ([(p, Reported)], q, Kind) else None
      else
        next ← byte_at buf q;
        if Z.land next 0x7 =? 1 then
          '(l, e, k) ← unwind_blocks fuel' buf q CORJIT_FUNC_HANDLER; Some ((p, Reported) :: l, e, k)
        else Some ([(p, Reported)], q, CORJIT_FUNC_HANDLER)
  end.

(** One [allocUnwindInfo] per function and funclet. *)
Fixpoint alloc_funclets (n : nat) (buf : list Z) (DataPtr : Z) (UnwindBlocks : list (Z * Z))
    (StartOffset : Z) (Kind : CorJitFuncKind) : option (list ee_call * Z) :=
  match n with
  | O => Some ([], DataPtr)
  | S n' =>
      EndOffset ← read32 buf DataPtr;
      '(UnwindBlock, UnwindSize) ← head UnwindBlocks;
      '(r, DataPtr) ← alloc_funclets n' buf (DataPtr + 4) (tail UnwindBlocks) EndOffset CORJIT_FUNC_HANDLER;
      Some (AllocUnwindInfo StartOffset EndOffset UnwindSize UnwindBlock Kind :: r, DataPtr)
  end.

Section Register.

(** Size of the runtime's [CORINFO_EH_CLAUSE]. *)
Context (sizeof_CORINFO_EH_CLAUSE : Z).

Definition eh_clauses (n : nat) (Clauses : Z) : list ee_call :=
  (fun I => SetEHinfo (Z.of_nat I) (Clauses + Z.of_nat I * sizeof_CORINFO_EH_CLAUSE)) <$> seq 0 n.

Definition registerEHFrames (m : ee_memory) (xdata : list Z) : option (list ee_call) :=
  if negb (ColdCodeBlock m =? 0) then None
  else
    '(UnwindBlocks, XdataPtr, FuncKind) ← unwind_blocks (S (length xdata)) xdata 0 CORJIT_FUNC_ROOT;
    match FuncKind with
    | CORJIT_FUNC_ROOT =>
        match UnwindBlocks with
        | [(UnwindBlock, UnwindSize)] =>
            Some [AllocUnwindInfo 0 (HotCodeSize m) UnwindSize UnwindBlock CORJIT_FUNC_ROOT]
        | _ => None
        end
    | CORJIT_FUNC_HANDLER =>
        sentinel ← read32 xdata XdataPtr;
        if negb (sentinel =? 0xffffffff) then None
        else
          NumFunclets ← read32 xdata (XdataPtr + 4);
          '(allocs, DataPtr) ← alloc_funclets (S (Z.to_nat NumFunclets)) xdata (XdataPtr + 8) UnwindBlocks 0
                                 CORJIT_FUNC_ROOT;
          NumClauses ← read32 xdata DataPtr;
          Some (allocs ++ SetEHcount NumClauses :: eh_clauses (Z.to_nat NumClauses) (DataPtr + 4))
    end.

End Register.

(** ** The layout of unwind information *)

(** An UNWIND_INFO structure (x64 exception handling, version 1): flags, the size
    of the prolog, the two bytes of each unwind code, frame register and offset,
    and the address of a language-specific handler. *)
Record UNWIND_INFO := MkUnwindInfo {
  UnwindFlags : Z;
  SizeOfProlog : Z;
  FrameByte : Z;
  UnwindCodes : list (Z * Z);
  ExceptionHandler : option (list Z) }.

(** The handler is there just if a flag asks for it: UNW_FLAG_EHANDLER (1),
    UNW_FLAG_UHANDLER (2) or both; nothing is chained (4). *)
Record unwind_ok (u : UNWIND_INFO) : Prop := {
  uw_flags : 0 <= UnwindFlags u < 4;
  uw_count : (length (UnwindCodes u) < 256)%nat;
  uw_handler : match ExceptionHandler u with
    | Some h => UnwindFlags u <> 0 /\ length h = 4%nat
    | None => UnwindFlags u = 0
    end }.

(** The structure in memory: the codes are padded to an even number, and one
    without codes and handler still has eight bytes. *)
Definition unwind_bytes (u : UNWIND_INFO) : list Z :=
  [1 + 8 * UnwindFlags u; SizeOfProlog u; Z.of_nat (length (UnwindCodes u)); FrameByte u] ++
  concat ((fun c => [c.1; c.2]) <$> UnwindCodes u) ++
  (if Nat.even (length (UnwindCodes u)) then [] else [0; 0]) ++
  match ExceptionHandler u, UnwindCodes u with
  | Some h, _ => h
  | None, [] => [0; 0; 0; 0]
  | None, _ => []
  end.

(** Header and codes: what the runtime is told of. *)
Definition UnwindSize (u : UNWIND_INFO) : Z := 4 + 2 * Z.of_nat (length (UnwindCodes u)).

(** Offsets and sizes of consecutive structures. *)
Fixpoint placed (p : Z) (us : list UNWIND_INFO) : list (Z * Z) :=
  match us with
  | [] => []
  | u :: us => (p, UnwindSize u) :: placed (p + Z.of_nat (length (unwind_bytes u))) us
  end.

(** What the walks rely on: the version, and the length the header implies. *)
Definition reported_size (e : list Z) : Z :=
  match e with _ :: _ :: n :: _ => 4 + 2 * n | _ => 0 end.

Definition xdata_entry (e : list Z) : Prop :=
  exists v s n r, e = v :: s :: n :: r /\ is_byte n /\ Z.land v 0x7 = 1 /\
    Z.of_nat (length e) = Z.max 8 (4 + 2 * (n + n mod 2) + if v =? 1 then 0 else 4).

Lemma code_bytes_length (l : list (Z * Z)) :
  length (concat ((fun c => [c.1; c.2]) <$> l)) = (2 * length l)%nat.
Proof. induction l as [|c l IH]; [done|]. rewrite fmap_cons. cbn [concat app length]. rewrite IH. lia. Qed.

Lemma unwind_entry (u : UNWIND_INFO) :
  unwind_ok u -> xdata_entry (unwind_bytes u) /\ reported_size (unwind_bytes u) = UnwindSize u.
Proof.
  intros [Hf Hn Hh]. split; [|done]. unfold unwind_bytes. do 4 eexists. split; [reflexivity|].
  set (n := length (UnwindCodes u)) in *.
  assert (Hc : length (concat ((fun c => [c.1; c.2]) <$> UnwindCodes u)) = (2 * n)%nat).
  { apply code_bytes_length. }
  split; [unfold is_byte; lia|]. split.
  { assert (Hv : UnwindFlags u = 0 \/ UnwindFlags u = 1 \/ UnwindFlags u = 2 \/ UnwindFlags u = 3) by lia.
    by destruct Hv as [-> |[-> |[-> | ->]]]. }
  cbn [app length]. rewrite !length_app, Hc.
  assert (Hpad : Z.of_nat (length (if Nat.even n then [] else [0; 0])) = 2 * (Z.of_nat n mod 2)).
  { destruct (Nat.even n) eqn:E.
    - apply Nat.even_spec in E as [k ->]. replace (Z.of_nat (2 * k)) with (Z.of_nat k * 2) by lia. by rewrite Z.mod_mul by lia.
    - assert (Ho : Nat.odd n = true) by (by rewrite <- Nat.negb_even, E). apply Nat.odd_spec in Ho as [k ->].
      replace (Z.of_nat (2 * k + 1)) with (1 + Z.of_nat k * 2) by lia. by rewrite Z.mod_add by lia. }
  destruct (ExceptionHandler u) as [h|]; cbn [length].
  - destruct Hh as [Hf0 Hh]. destruct (Z.eqb_spec (1 + 8 * UnwindFlags u) 1); [lia|]. lia.
  - destruct (Z.eqb_spec (1 + 8 * UnwindFlags u) 1); [|lia].
    assert (Hz : Z.of_nat (length (match UnwindCodes u with [] => [0; 0; 0; 0] | _ => [] end)) =
      if (n =? 0)%nat then 4 else 0) by (unfold n; by destruct (UnwindCodes u)).
    pose proof (Z.mod_pos_bound (Z.of_nat n) 2 ltac:(lia)). pose proof (Z.div_mod (Z.of_nat n) 2 ltac:(lia)).
    destruct (Nat.eqb_spec n 0) as [Hn0|Hn0]; lia.
Qed.

Definition le32 (v : Z) : list Z := [v mod 256; v / 256 mod 256; v / 65536 mod 256; v / 16777216 mod 256].

(** Offsets and reported sizes of consecutive entries. *)
Fixpoint entry_blocks (p : Z) (es : list (list Z)) : list (Z * Z) :=
  match es with
  | [] => []
  | e :: es' => (p, reported_size e) :: entry_blocks (p + Z.of_nat (length e)) es'
  end.

(** The CLR information behind the entries: sentinel, funclet count, end
    offsets, clause count and clauses. *)
Definition clr_info (ends : list Z) (NumClauses : Z) (clauses : list Z) : list Z :=
  le32 0xffffffff ++ le32 (Z.of_nat (length ends) - 1) ++ concat (le32 <$> ends) ++ le32 NumClauses ++ clauses.

Fixpoint function_calls (Start : Z) (Kind : CorJitFuncKind) (ends : list Z) (bl : list (Z * Z)) : list ee_call :=
  match ends, bl with
  | e :: ends', (o, s) :: bl' => AllocUnwindInfo Start e s o Kind :: function_calls e CORJIT_FUNC_HANDLER ends' bl'
  | _, _ => []
  end.

(** *** Reading inside a concatenation *)

Lemma byte_at_app (pre mid post : list Z) (k : Z) :
  0 <= k < Z.of_nat (length mid) ->
  byte_at (pre ++ mid ++ post) (Z.of_nat (length pre) + k) = byte_at mid k.
Proof.
  intros Hk. unfold byte_at. rewrite (proj2 (Z.ltb_ge _ _)) by lia. rewrite (proj2 (Z.ltb_ge k 0)) by lia.
  rewrite lookup_app_r by lia. replace (Z.to_nat _ - length pre)%nat with (Z.to_nat k) by lia.
  apply lookup_app_l. lia.
Qed.

Lemma read_bytes_app (pre mid post : list Z) (n : nat) : forall k,
  0 <= k -> k + Z.of_nat n <= Z.of_nat (length mid) ->
  read_bytes (pre ++ mid ++ post) (Z.of_nat (length pre) + k) n = read_bytes mid k n.
Proof.
  induction n as [|n IH]; intros k H1 H2; [done|]. cbn [read_bytes].
  rewrite byte_at_app by lia. rewrite <- Z.add_assoc, IH by lia. done.
Qed.

Lemma le_val_le32 (v : Z) : 0 <= v < 2 ^ 32 -> le_val (le32 v) = v.
Proof.
  intros Hv. unfold le32. cbn [le_val].
  replace (v / 65536) with (v / 256 / 256) by (rewrite Z.div_div by lia; done).
  replace (v / 16777216) with (v / 256 / 256 / 256) by (rewrite !Z.div_div by lia; done).
  assert (v / 256 / 256 / 256 < 256) by (rewrite !Z.div_div by lia; apply Z.div_lt_upper_bound; lia).
  assert (0 <= v / 256 / 256 / 256) by (rewrite !Z.div_div by lia; apply Z.div_pos; lia).
  rewrite (Z.mod_small (v / 256 / 256 / 256)) by lia.
  pose proof (Z.div_mod v 256). pose proof (Z.div_mod (v / 256) 256). pose proof (Z.div_mod (v / 256 / 256) 256).
  lia.
Qed.

Lemma read32_app (pre post : list Z) (v : Z) :
  0 <= v < 2 ^ 32 -> read32 (pre ++ le32 v ++ post) (Z.of_nat (length pre)) = Some v.
Proof.
  intros Hv. unfold read32. rewrite <- (Z.add_0_r (Z.of_nat (length pre))).
  rewrite read_bytes_app by (simpl; lia).
  change (read_bytes (le32 v) 0 4) with (Some (le32 v)). cbn [fmap option_fmap option_map].
  by rewrite le_val_le32.
Qed.

(** The size of any entry: header, codes padded to four bytes, and the runtime
    function pointer unless the first byte is a bare version. *)
Lemma getXdataSize_spec (buf : list Z) (p n v : Z) :
  0 <= n < 256 -> byte_at buf (p + 2) = Some n -> byte_at buf p = Some v ->
  getXdataSize buf p = Some (4 + 2 * n, Z.max 8 (4 + 2 * (n + n mod 2) + if v =? 1 then 0 else 4)).
Proof.
  intros Hn H2 H0. unfold getXdataSize. rewrite H2, H0. cbn [mbind option_bind]. do 2 f_equal.
  assert (Hl : (if Z.land (4 + 2 * n) 2 =? 0 then 0 else 2) = 2 * (n mod 2)).
  { assert (Forall (fun n => (if Z.land (4 + 2 * n) 2 =? 0 then 0 else 2) = 2 * (n mod 2)) (seqZ 0 256)) as H
      by decide_now.
    rewrite Forall_forall in H. apply H, elem_of_seqZ. lia. }
  rewrite Hl. destruct (v =? 1); match goal with |- context [?a <? 8] => destruct (Z.ltb_spec a 8) end; lia.
Qed.

Lemma entry_size_at (pre e post : list Z) : xdata_entry e ->
  getXdataSize (pre ++ e ++ post) (Z.of_nat (length pre)) = Some (reported_size e, Z.of_nat (length e)) /\
  exists v, byte_at (pre ++ e ++ post) (Z.of_nat (length pre)) = Some v /\ Z.land v 0x7 = 1.
Proof.
  intros He. destruct He as (v & s & n & r & Heq & Hn & Hv & Hlen).
  assert (Hl8 : 8 <= Z.of_nat (length e)) by lia.
  assert (H0 : byte_at (pre ++ e ++ post) (Z.of_nat (length pre)) = Some v).
  { rewrite <- (Z.add_0_r (Z.of_nat (length pre))), byte_at_app by lia. by subst e. }
  split; [|by exists v].
  rewrite (getXdataSize_spec _ _ n v Hn); [|rewrite byte_at_app by lia; by subst e|done].
  rewrite Hlen. by subst e.
Qed.

(** What follows the entries: the end, or something that is no entry. *)
Definition xdata_tail (t : list Z) : Prop :=
  t = [] \/ exists v r, t = v :: r /\ Z.land v 0x7 <> 1.

Lemma tail_at (pre t : list Z) v r : t = v :: r -> byte_at (pre ++ t) (Z.of_nat (length pre)) = Some v.
Proof.
  intros ->. replace (pre ++ v :: r) with (pre ++ [v] ++ r) by done.
  rewrite <- (Z.add_0_r (Z.of_nat (length pre))), byte_at_app by (simpl; lia). done.
Qed.

(** The byte behind the entry at the head of [e :: es]. *)
Lemma next_entry (pre e : list Z) (es : list (list Z)) (t : list Z) :
  Forall xdata_entry es -> xdata_tail t ->
  let q := Z.of_nat (length pre) + Z.of_nat (length e) in
  let buf := pre ++ e ++ concat es ++ t in
  match es with
  | [] => (t = [] /\ q = Z.of_nat (length buf)) \/
          (exists v r, t = v :: r /\ q <> Z.of_nat (length buf) /\ byte_at buf q = Some v /\ Z.land v 0x7 <> 1)
  | _ => q <> Z.of_nat (length buf) /\ exists v, byte_at buf q = Some v /\ Z.land v 0x7 = 1
  end.
Proof.
  intros Hes Ht q buf. unfold q, buf.
  replace (Z.of_nat (length pre) + Z.of_nat (length e)) with (Z.of_nat (length (pre ++ e)))
    by (rewrite length_app; lia).
  rewrite (app_assoc pre e). destruct es as [|e2 es].
  - simpl. destruct Ht as [->|(v & r & -> & Hv)]; [left|right].
    + by rewrite app_nil_r.
    + exists v, r. split; [done|]. split; [rewrite !length_app; simpl; lia|].
      split; [by eapply tail_at|done].
  - apply Forall_cons in Hes as [He2 _]. simpl. rewrite <- (app_assoc e2).
    destruct (entry_size_at (pre ++ e) e2 (concat es ++ t) He2) as [_ (v & H1 & H2)].
    split; [|by exists v]. rewrite !length_app.
    destruct He2 as (? & ? & ? & ? & -> & _). simpl. lia.
Qed.

Lemma no_chained_test (v : Z) : (Z.land v 0x20 =? 0x10) = false.
Proof.
  apply Z.eqb_neq. intros Hc. apply (f_equal (fun z => Z.testbit z 4)) in Hc.
  rewrite Z.land_spec in Hc. simpl in Hc. by rewrite andb_false_r in Hc.
Qed.

Lemma reserve_walk_spec (es : list (list Z)) : forall fuel pre e t IsHandler,
  Forall xdata_entry (e :: es) -> (t = [] \/ exists r, t = 0xff :: r) -> (length es < fuel)%nat ->
  reserve_walk fuel (pre ++ e ++ concat es ++ t) (Z.of_nat (length pre)) IsHandler =
    Some (ReserveUnwindInfo IsHandler (reported_size e) :: (ReserveUnwindInfo true <$> (reported_size <$> es))).
Proof.
  induction es as [|e2 es IH]; intros [|fuel] pre e t IsHandler Hes Ht Hf; try (simpl in Hf; lia);
    apply Forall_cons in Hes as [He Hes]; cbn [reserve_walk];
    (assert (Htt : xdata_tail t) by (destruct Ht as [->|(r & ->)]; [by left|right; by exists 255, r])).
  - destruct (entry_size_at pre e (concat [] ++ t) He) as [-> (v & -> & _)].
    cbn [mbind option_bind]. rewrite no_chained_test.
    destruct (next_entry pre e [] t Hes Htt) as [[-> ->]|(v' & r & -> & Hne & -> & Hv')];
      [by rewrite Z.eqb_refl|].
    rewrite (proj2 (Z.eqb_neq _ _) Hne). cbn [mbind option_bind].
    destruct Ht as [?|(r' & [= -> _])]; [done|]. done.
  - destruct (entry_size_at pre e (concat (e2 :: es) ++ t) He) as [-> (v & -> & _)].
    cbn [mbind option_bind]. rewrite no_chained_test.
    destruct (next_entry pre e (e2 :: es) t Hes Htt) as (Hne & v' & -> & Hv').
    rewrite (proj2 (Z.eqb_neq _ _) Hne). cbn [mbind option_bind]. rewrite Hv'. cbn [Z.eqb Pos.eqb].
    replace (pre ++ e ++ concat (e2 :: es) ++ t) with ((pre ++ e) ++ e2 ++ concat es ++ t)
      by (simpl; by rewrite <- !app_assoc).
    replace (Z.of_nat (length pre) + Z.of_nat (length e)) with (Z.of_nat (length (pre ++ e)))
      by (rewrite length_app; lia).
    rewrite IH; [done|done|done|simpl in Hf; lia].
Qed.

Lemma unwind_blocks_spec (es : list (list Z)) : forall fuel pre e t Kind,
  Forall xdata_entry (e :: es) -> xdata_tail t -> (length es < fuel)%nat ->
  (t = [] -> es = [] /\ Kind = CORJIT_FUNC_ROOT) ->
  unwind_blocks fuel (pre ++ e ++ concat es ++ t) (Z.of_nat (length pre)) Kind =
    Some (entry_blocks (Z.of_nat (length pre)) (e :: es),
          Z.of_nat (length (pre ++ e ++ concat es)),
          match t with [] => CORJIT_FUNC_ROOT | _ => CORJIT_FUNC_HANDLER end).
Proof.
  induction es as [|e2 es IH]; intros [|fuel] pre e t Kind Hes Ht Hf Hk; try (simpl in Hf; lia);
    apply Forall_cons in Hes as [He Hes]; cbn [unwind_blocks].
  - destruct (entry_size_at pre e (concat [] ++ t) He) as [-> _]. cbn [mbind option_bind].
    assert (Hlen : Z.of_nat (length pre) + Z.of_nat (length e) = Z.of_nat (length (pre ++ e ++ concat [])))
      by (simpl; rewrite app_nil_r, length_app; lia).
    destruct (next_entry pre e [] t Hes Ht) as [[-> Hq]|(v' & r & -> & Hne & Hb & Hv')].
    + destruct (Hk eq_refl) as [_ ->]. rewrite Hq, Z.eqb_refl. simpl. by rewrite app_nil_r.
    + rewrite (proj2 (Z.eqb_neq _ _) Hne), Hb. cbn [mbind option_bind].
      rewrite (proj2 (Z.eqb_neq _ _) Hv'). by rewrite Hlen.
  - destruct (entry_size_at pre e (concat (e2 :: es) ++ t) He) as [-> _]. cbn [mbind option_bind].
    destruct (next_entry pre e (e2 :: es) t Hes Ht) as (Hne & v' & -> & Hv').
    rewrite (proj2 (Z.eqb_neq _ _) Hne). cbn [mbind option_bind]. rewrite Hv'. cbn [Z.eqb Pos.eqb].
    replace (pre ++ e ++ concat (e2 :: es) ++ t) with ((pre ++ e) ++ e2 ++ concat es ++ t)
      by (simpl; by rewrite <- !app_assoc).
    replace (Z.of_nat (length pre) + Z.of_nat (length e)) with (Z.of_nat (length (pre ++ e)))
      by (rewrite length_app; lia).
    destruct t as [|v r]; [by destruct (Hk eq_refl)|].
    rewrite IH; [|done..|simpl in Hf; lia|done]. cbn [mbind option_bind]. cbn [entry_blocks].
    replace (Z.of_nat (length pre) + Z.of_nat (length e)) with (Z.of_nat (length (pre ++ e)))
      by (rewrite length_app; lia).
    cbn [concat]. by rewrite <- !app_assoc.
Qed.

Lemma alloc_funclets_spec (ends : list Z) : forall buf pre post bl Start Kind,
  Forall (fun v => 0 <= v < 2 ^ 32) ends -> (length ends <= length bl)%nat ->
  buf = pre ++ concat (le32 <$> ends) ++ post ->
  alloc_funclets (length ends) buf (Z.of_nat (length pre)) bl Start Kind =
    Some (function_calls Start Kind ends bl, Z.of_nat (length (pre ++ concat (le32 <$> ends)))).
Proof.
  induction ends as [|e ends IH]; intros buf pre post bl Start Kind Hr Hl ->; cbn [length alloc_funclets].
  - simpl. by rewrite app_nil_r.
  - apply Forall_cons in Hr as [He Hr]. rewrite fmap_cons. cbn [concat]. rewrite <- app_assoc.
    rewrite read32_app by done. cbn [mbind option_bind].
    destruct bl as [|[o s] bl]; [simpl in Hl; lia|]. cbn [head tail mbind option_bind].
    replace (Z.of_nat (length pre) + 4) with (Z.of_nat (length (pre ++ le32 e)))
      by (rewrite length_app; change (length (le32 e)) with 4%nat; lia).
    rewrite (IH _ (pre ++ le32 e) post bl) by (done || (simpl in Hl; lia) || by rewrite <- !app_assoc).
    cbn [mbind option_bind function_calls]. by rewrite <- !app_assoc.
Qed.

(** ** Placement of data sections *)

Definition request : Type := Z * Z * string.

Fixpoint alloc_all (m : ee_memory) (reqs : list request) : option (list Z * ee_memory) :=
  match reqs with
  | [] => Some ([], m)
  | (Size, Alignment, Name) :: reqs' =>
      '(p, m) ← allocateDataSection m Size Alignment Name true;
      '(ps, m) ← alloc_all m reqs';
      Some (p :: ps, m)
  end.

(** What a list of requests needs at most. *)
Definition room_needed (reqs : list request) : Z :=
  foldr (fun '(Size, Alignment, _) acc => Size + Alignment - 1 + acc) 0 reqs.

Definition stack_maps (reqs : list request) : nat :=
  length (filter (fun r : request => r.2 = ".llvm_stackmaps"%string) reqs).

Definition request_ok (Prejit : bool) (r : request) : Prop :=
  0 <= r.1.1 /\ 0 < r.1.2 < 2 ^ 32 /\ (Prejit = true -> r.1.2 <= 16).

(** Sections in order, aligned relative to [Base], with less than an alignment
    of padding in front of each, ending by [hi]. *)
Fixpoint laid_out (Base lo hi : Z) (reqs : list request) (ps : list Z) : Prop :=
  match reqs, ps with
  | [], [] => lo <= hi
  | (Size, Alignment, _) :: reqs', p :: ps' =>
      lo <= p < lo + Alignment /\ (p - Base) mod Alignment = 0 /\ laid_out Base (p + Size) hi reqs' ps'
  | _, _ => False
  end.

(** The aligned address, in unbounded integers. *)
Lemma pad_spec (x a : Z) : 0 < a ->
  let r := x mod a in let y := if 0 <? r then x + (a - r) else x in
  x <= y < x + a /\ y mod a = 0.
Proof.
  intros Ha r y. unfold y, r. pose proof (Z.mod_pos_bound x a Ha).
  destruct (Z.ltb_spec 0 (x mod a)); [|split; lia]. split; [lia|].
  rewrite (Z.div_mod x a) at 1 by lia.
  replace (a * (x / a) + x mod a + (a - x mod a)) with (0 + (x / a + 1) * a) by lia.
  by rewrite Z.mod_add, Z.mod_0_l by lia.
Qed.

Definition base_of (m : ee_memory) : Z := if Prejit m then ReadOnlyDataBlock m else 0.

Definition memory_ok (m : ee_memory) (need : Z) : Prop :=
  0 < ReadOnlyDataBlock m <= ReadOnlyDataUnallocated m /\
  ReadOnlyDataUnallocated m + need <= ReadOnlyDataBlock m + ReadOnlyDataSize m < 2 ^ 64.

Lemma allocate_spec (m : ee_memory) (Size Alignment : Z) (Name : string) (need : Z) :
  request_ok (Prejit m) (Size, Alignment, Name) -> 0 <= need ->
  memory_ok m (Size + Alignment - 1 + need) ->
  (Name = ".llvm_stackmaps"%string -> StackMapBlock m = 0) ->
  exists p m', allocateDataSection m Size Alignment Name true = Some (p, m') /\
    ReadOnlyDataUnallocated m <= p < ReadOnlyDataUnallocated m + Alignment /\
    (p - base_of m) mod Alignment = 0 /\
    ReadOnlyDataUnallocated m' = p + Size /\ memory_ok m' need /\
    Prejit m' = Prejit m /\ ReadOnlyDataBlock m' = ReadOnlyDataBlock m /\
    ReadOnlyDataSize m' = ReadOnlyDataSize m /\
    (Name <> ".llvm_stackmaps"%string -> StackMapBlock m' = StackMapBlock m) /\
    (Name = ".llvm_stackmaps"%string -> StackMapBlock m' = p /\ StackMapSize m' = Size).
Proof.
  intros (Hs & Ha & Hp) Hneed [Hb Hr] Hname. simpl in Hs, Ha, Hp.
  set (U := ReadOnlyDataUnallocated m). fold U in Hb, Hr.
  pose proof (pad_spec (U - base_of m) Alignment ltac:(lia)) as Hpad. cbv zeta in Hpad.
  pose proof (Z.mod_pos_bound (U - base_of m) Alignment ltac:(lia)) as Hmod.
  assert (Hoff : padding_offset m Alignment = Some ((U - base_of m) mod Alignment)).
  { unfold padding_offset. rewrite (proj2 (Z.eqb_neq _ _)) by lia. unfold base_of in *. fold U.
    destruct (Prejit m).
    - rewrite (proj2 (Z.leb_le _ _)) by (by apply Hp). unwrap. done.
    - rewrite Z.sub_0_r in *. by unwrap. }
  unfold allocateDataSection. cbn [negb]. rewrite Hoff. cbn [mbind option_bind].
  set (p := if 0 <? (U - base_of m) mod Alignment then U + (Alignment - (U - base_of m) mod Alignment) else U).
  assert (Hpb : U <= p < U + Alignment /\ (p - base_of m) mod Alignment = 0).
  { unfold p. revert Hpad. destruct (Z.ltb_spec 0 ((U - base_of m) mod Alignment)); intros [Hle Hz].
    - split; [lia|]. by replace (U + (Alignment - (U - base_of m) mod Alignment) - base_of m)
        with (U - base_of m + (Alignment - (U - base_of m) mod Alignment)) by lia.
    - split; [lia|done]. }
  destruct Hpb as [Hpb Hpz].
  assert (Hres : (if 0 <? (U - base_of m) mod Alignment
      then u64 (ReadOnlyDataUnallocated m + u32 (Alignment - (U - base_of m) mod Alignment))
      else ReadOnlyDataUnallocated m) = p).
  { fold U. unfold p. destruct (Z.ltb_spec 0 ((U - base_of m) mod Alignment)); [|done]. by unwrap. }
  rewrite Hres. rewrite (u64_small (p + Size)), (u64_small (ReadOnlyDataBlock m + ReadOnlyDataSize m)) by lia.
  rewrite (proj2 (Z.ltb_ge _ _)) by lia.
  destruct (bool_decide_reflect (Name = ".llvm_stackmaps"%string)) as [Hn|Hn].
  - rewrite (Hname Hn). cbn [Z.eqb negb]. eexists _, _. split; [reflexivity|]. unfold memory_ok. simpl.
    split_and!; try done; lia.
  - eexists _, _. split; [reflexivity|]. unfold memory_ok. simpl. split_and!; try done; lia.
Qed.

Lemma room_needed_nonneg (Prejit : bool) (reqs : list request) :
  Forall (request_ok Prejit) reqs -> 0 <= room_needed reqs.
Proof.
  induction 1 as [|[[s a] n] reqs (H1 & H2 & _) _ IH]; unfold room_needed in *; simpl in *; lia.
Qed.

Lemma alloc_all_spec (reqs : list request) : forall m,
  Forall (request_ok (Prejit m)) reqs -> memory_ok m (room_needed reqs) ->
  (stack_maps reqs + (if (StackMapBlock m =? 0)%Z then 0 else 1) <= 1)%nat ->
  exists ps m', alloc_all m reqs = Some (ps, m') /\
    laid_out (base_of m) (ReadOnlyDataUnallocated m) (ReadOnlyDataBlock m + ReadOnlyDataSize m) reqs ps.
Proof.
  induction reqs as [|[[s a] n] reqs IH]; intros m Hok Hm Hst.
  - exists [], m. split; [done|]. unfold memory_ok, room_needed in Hm. simpl in *. lia.
  - apply Forall_cons in Hok as [Hr Hok]. pose proof (room_needed_nonneg _ _ Hok) as Hnn.
    unfold stack_maps in Hst. rewrite filter_cons in Hst. fold (stack_maps reqs) in Hst. cbn [snd] in Hst.
    destruct (allocate_spec m s a n (room_needed reqs) Hr Hnn Hm) as
      (p & m' & Hal & Hp & Hz & Hu & Hm' & Hpj & Hbl & Hsz & Hno & Hyes).
    { intros ->. destruct (decide (_ = _)) in Hst; [|done]. simpl in Hst.
      destruct (Z.eqb_spec (StackMapBlock m) 0); [done|]. fold (stack_maps reqs) in Hst. lia. }
    destruct (IH m') as (ps & m2 & Hal2 & Hlay).
    + by rewrite Hpj.
    + done.
    + destruct (decide (n = ".llvm_stackmaps"%string)) as [Hn|Hn].
      * simpl in Hst. fold (stack_maps reqs) in Hst. destruct (StackMapBlock m' =? 0); lia.
      * rewrite (Hno Hn). exact Hst.
    + exists (p :: ps), m2. cbn [alloc_all]. rewrite Hal. cbn [mbind option_bind]. rewrite Hal2.
      split; [done|]. cbn [laid_out]. split; [done|]. split; [done|].
      unfold base_of in *. rewrite Hpj, Hbl, Hsz, Hu in Hlay. exact Hlay.
Qed.

(** Both walks over a section made of entries. *)
Lemma entries_registered (sizeof : Z) (m : ee_memory) (e : list Z) (es : list (list Z))
    (ends : list Z) (NumClauses : Z) (clauses : list Z) :
  Forall xdata_entry (e :: es) -> ColdCodeBlock m = 0 -> length ends = S (length es) ->
  Z.of_nat (length ends) < 2 ^ 32 -> Forall (fun v => 0 <= v < 2 ^ 32) ends -> 0 <= NumClauses < 2 ^ 32 ->
  let xdata := concat (e :: es) ++ clr_info ends NumClauses clauses in
  reserveUnwindSpace xdata =
    Some (ReserveUnwindInfo false (reported_size e) :: (ReserveUnwindInfo true <$> (reported_size <$> es))) /\
  (exists Clauses, registerEHFrames sizeof m xdata =
    Some (function_calls 0 CORJIT_FUNC_ROOT ends (entry_blocks 0 (e :: es)) ++
          SetEHcount NumClauses :: eh_clauses sizeof (Z.to_nat NumClauses) Clauses) /\
    drop (Z.to_nat Clauses) xdata = clauses) /\
  registerEHFrames sizeof m e = Some [AllocUnwindInfo 0 (HotCodeSize m) (reported_size e) 0 CORJIT_FUNC_ROOT].
Proof.
  intros Hes Hcold Hlen Hnum Hends Hcl xdata.
  set (t := clr_info ends NumClauses clauses) in xdata.
  assert (Hx : xdata = [] ++ e ++ concat es ++ t) by (unfold xdata; simpl; by rewrite <- app_assoc).
  assert (Hlx : (length es < S (length xdata))%nat).
  { assert (length es <= length (concat es))%nat; [|rewrite Hx, !length_app; lia].
    apply Forall_cons in Hes as [_ Hes]. clear -Hes. induction Hes as [|x es Hx _ IH]; [done|].
    simpl. rewrite length_app. destruct Hx as (? & ? & ? & ? & -> & _). simpl. lia. }
  clearbody xdata. split; [|split].
  - unfold reserveUnwindSpace.
    rewrite Hx at 2.
    apply (reserve_walk_spec es _ [] e t false Hes); [|done]. right. by eexists.
  - unfold registerEHFrames. rewrite Hcold. cbn [negb Z.eqb].
    assert (Ht : xdata_tail t) by (right; exists 255; eexists; split; [reflexivity|done]).
    pose proof (unwind_blocks_spec es (S (length xdata)) [] e t CORJIT_FUNC_ROOT Hes Ht Hlx) as Hu.
    rewrite <- Hx in Hu. change (Z.of_nat (length [])) with 0 in Hu. rewrite Hu by done.
    cbn [mbind option_bind]. change (match t with [] => CORJIT_FUNC_ROOT | _ => CORJIT_FUNC_HANDLER end)
      with CORJIT_FUNC_HANDLER. cbv iota.
    set (P := [] ++ e ++ concat es).
    assert (HxP : xdata = P ++ t) by (rewrite Hx; unfold P; by rewrite <- !app_assoc).
    rewrite HxP. unfold t, clr_info.
    rewrite read32_app by lia. cbn [mbind option_bind]. rewrite Z.eqb_refl. cbn [negb].
    replace (Z.of_nat (length P) + 4) with (Z.of_nat (length (P ++ le32 0xffffffff)))
      by (rewrite length_app; change (length (le32 0xffffffff)) with 4%nat; lia).
    rewrite (app_assoc P), read32_app by lia. cbn [mbind option_bind].
    set (P2 := (P ++ le32 0xffffffff) ++ le32 (Z.of_nat (length ends) - 1)).
    replace (Z.of_nat (length P) + 8) with (Z.of_nat (length P2))
      by (unfold P2; rewrite !length_app; change (length (le32 _)) with 4%nat; lia).
    replace (S (Z.to_nat (Z.of_nat (length ends) - 1))) with (length ends) by lia.
    rewrite (alloc_funclets_spec ends _ P2 (le32 NumClauses ++ clauses)); [|done| |].
    + cbn [mbind option_bind]. set (P3 := P2 ++ concat (le32 <$> ends)).
      assert (HP3 : (P ++ le32 0xffffffff) ++ le32 (Z.of_nat (length ends) - 1) ++ concat (le32 <$> ends) ++
        le32 NumClauses ++ clauses = P3 ++ le32 NumClauses ++ clauses)
        by (unfold P3, P2; by rewrite <- !app_assoc).
      rewrite HP3, read32_app by lia. cbn [mbind option_bind].
      eexists. split; [reflexivity|].
      replace (Z.to_nat (Z.of_nat (length P3) + 4)) with (length (P3 ++ le32 NumClauses))
        by (rewrite length_app; change (length (le32 _)) with 4%nat; lia).
      rewrite app_assoc. apply drop_app_length.
    + assert (Hel : forall p l, length (entry_blocks p l) = length l)
        by (intros p l; revert p; induction l; intros p; simpl; [done|by f_equal]).
      rewrite Hel. simpl. lia.
    + unfold P2. by rewrite <- !app_assoc.
  - unfold registerEHFrames. rewrite Hcold. cbn [negb Z.eqb]. apply Forall_cons in Hes as [He _].
    pose proof (unwind_blocks_spec [] (S (length e)) [] e [] CORJIT_FUNC_ROOT) as Hu. simpl concat in Hu.
    rewrite !app_nil_r in Hu. cbn [app] in Hu. change (Z.of_nat (length [])) with 0 in Hu. rewrite Hu; [done|by constructor|by left|simpl; lia|done].
Qed.

Lemma placed_entries (us : list UNWIND_INFO) : Forall unwind_ok us ->
  Forall xdata_entry (unwind_bytes <$> us) /\
  reported_size <$> (unwind_bytes <$> us) = UnwindSize <$> us /\
  forall p, entry_blocks p (unwind_bytes <$> us) = placed p us.
Proof.
  induction 1 as [|u us Hu _ (IH1 & IH2 & IH3)]; [by repeat constructor|].
  destruct (unwind_entry u Hu) as [He Hs]. split; [by constructor|]. split; [by rewrite !fmap_cons, Hs, IH2|].
  intros p. rewrite fmap_cons. cbn [entry_blocks placed]. by rewrite Hs, IH3.
Qed.

(** ** Properties *)

(** C39: what [reserveUnwindSpace] reserves is what [registerEHFrames] later
    registers.  For every .xdata section made of UNWIND_INFO structures (version
    1, not chained), for the function and its funclets, and the CLR information
    behind them, both walks succeed; the first reserves header and unwind codes
    of each structure in order, the function's as no handler and the others as
    handlers; the second registers for each structure its place and that size
    with a code range that starts where the previous one ended, then the clause
    count and each clause.  A section with one structure and nothing behind it
    is registered for the whole code. *)
Theorem unwind_info_roundtrip (sizeof : Z) (m : ee_memory) (u : UNWIND_INFO) (us : list UNWIND_INFO)
    (ends : list Z) (NumClauses : Z) (clauses : list Z) :
  Forall unwind_ok (u :: us) -> ColdCodeBlock m = 0 -> length ends = S (length us) ->
  Z.of_nat (length ends) < 2 ^ 32 -> Forall (fun v => 0 <= v < 2 ^ 32) ends -> 0 <= NumClauses < 2 ^ 32 ->
  let xdata := concat (unwind_bytes <$> u :: us) ++ clr_info ends NumClauses clauses in
  reserveUnwindSpace xdata =
    Some (ReserveUnwindInfo false (UnwindSize u) :: (ReserveUnwindInfo true <$> (UnwindSize <$> us))) /\
  (exists Clauses, registerEHFrames sizeof m xdata =
    Some (function_calls 0 CORJIT_FUNC_ROOT ends (placed 0 (u :: us)) ++
          SetEHcount NumClauses :: eh_clauses sizeof (Z.to_nat NumClauses) Clauses) /\
    drop (Z.to_nat Clauses) xdata = clauses) /\
  registerEHFrames sizeof m (unwind_bytes u) =
    Some [AllocUnwindInfo 0 (HotCodeSize m) (UnwindSize u) 0 CORJIT_FUNC_ROOT].
Proof.
  intros Hus Hcold Hlen Hnum Hends Hcl xdata. destruct (placed_entries (u :: us) Hus) as (H1 & _ & H3).
  rewrite !fmap_cons in H1, H3. pose proof Hus as [Hu Hus']%Forall_cons.
  destruct (unwind_entry u Hu) as [_ Hs], (placed_entries us Hus') as (_ & H2 & _).
  destruct (entries_registered sizeof m (unwind_bytes u) (unwind_bytes <$> us) ends NumClauses clauses H1 Hcold
    ltac:(by rewrite length_fmap) Hnum Hends Hcl) as (R1 & (Clauses & R2) & R3).
  rewrite Hs, H2 in R1. rewrite H3 in R2. rewrite Hs in R3.
  split; [exact R1|]. split; [by exists Clauses|exact R3].
Qed.

(** A structure without unwind codes and one with a code and a handler. *)
Definition demo_entry0 : UNWIND_INFO := MkUnwindInfo 0 0 0 [] None.
Definition demo_entry1 : UNWIND_INFO := MkUnwindInfo 1 0 0 [(7, 7)] (Some [1; 2; 3; 4]).
Definition demo_memory : ee_memory := EEMemory false 4096 0 8192 8195 0 100 0 64 0.

Lemma unwind_info_roundtrip_witness :
  registerEHFrames 24 demo_memory ([1; 0; 0; 0; 0; 0; 0; 0] ++ [9; 0; 1; 0; 7; 7; 0; 0; 1; 2; 3; 4] ++
      clr_info [60; 100] 1 [5; 6]) =
    Some [AllocUnwindInfo 0 60 4 0 CORJIT_FUNC_ROOT; AllocUnwindInfo 60 100 6 8 CORJIT_FUNC_HANDLER;
          SetEHcount 1; SetEHinfo 0 40].
Proof.
  destruct (unwind_info_roundtrip 24 demo_memory demo_entry0 [demo_entry1] [60; 100] 1 [5; 6])
    as (_ & (Clauses & Hr & Hc) & _).
  - repeat constructor; cbn; try lia; done.
  - reflexivity.
  - reflexivity.
  - simpl. lia.
  - repeat constructor; lia.
  - lia.
  - vm_compute. reflexivity.
Defined.

(** [allocateDataSection] lays the read-only sections out in order: when
    the reserved block has room for the sections and the padding their
    alignments can cost, every request succeeds; each section starts at or
    behind the end of the previous one, by less than its alignment, at an
    address aligned absolutely, or relative to the block when pre-compiling,
    and the last one ends inside the block. *)
Theorem allocateDataSection_lays_out (m : ee_memory) (reqs : list request) :
  Forall (request_ok (Prejit m)) reqs -> (stack_maps reqs <= 1)%nat -> StackMapBlock m = 0 ->
  0 < ReadOnlyDataBlock m -> ReadOnlyDataUnallocated m = ReadOnlyDataBlock m ->
  room_needed reqs <= ReadOnlyDataSize m -> ReadOnlyDataBlock m + ReadOnlyDataSize m < 2 ^ 64 ->
  exists ps m', alloc_all m reqs = Some (ps, m') /\
    laid_out (if Prejit m then ReadOnlyDataBlock m else 0) (ReadOnlyDataBlock m)
      (ReadOnlyDataBlock m + ReadOnlyDataSize m) reqs ps.
Proof.
  intros Hok Hst Hs0 Hb Hu Hroom H64.
  destruct (alloc_all_spec reqs m Hok) as (ps & m' & Hal & Hlay).
  - unfold memory_ok. rewrite Hu. lia.
  - rewrite Hs0. simpl. lia.
  - exists ps, m'. split; [done|]. by rewrite Hu in Hlay.
Qed.

Definition demo_reserved : ee_memory := EEMemory false 4096 0 8195 8195 0 100 0 64 0.
Definition demo_requests : list request :=
  [(10, 16, ".rdata"%string); (8, 4, ".llvm_stackmaps"%string)].

Lemma allocateDataSection_lays_out_witness :
  fst <$> alloc_all demo_reserved demo_requests = Some [8208; 8220].
Proof.
  destruct (allocateDataSection_lays_out demo_reserved demo_requests) as (ps & m' & Hal & Hlay).
  - repeat constructor; simpl; try lia; discriminate.
  - vm_compute. lia.
  - reflexivity.
  - reflexivity.
  - reflexivity.
  - vm_compute. discriminate.
  - reflexivity.
  - rewrite Hal. vm_compute in Hal. injection Hal as <- _. reflexivity.
Defined.
