(* ===== verification/MethodSet.v ===== *)
(** * Method sets of the JIT's configuration (lib/Jit/utility.cpp)

    The patterns that select methods for the alternative JIT: their parser, the
    membership test and the lock-free initialisation of a set.  A string is a
    list of characters, a [size_t] index an [option nat] with [None] for
    [npos]; the exceptions of [std::string] and the undefined cases of [atoi]
    are values of the error type. *)

From Stdlib Require Import Ascii.
From S2P Require Import Prelude.

(** ** Errors *)

Inductive error : Set := OutOfRange | IntOverflow.

Inductive exc (A : Type) : Type := Val (a : A) | Throw (e : error).
Arguments Val {_} _.
Arguments Throw {_} _.

#[export] Instance exc_bind : MBind exc := fun A B f x =>
  match x with Val a => f a | Throw e => Throw e end.

(** ** Strings *)

Abbreviation text := (list ascii).
Definition str (s : String.string) : text := String.list_ascii_of_string s.

Fixpoint find_first (p : ascii -> bool) (l : text) : option nat :=
  match l with
  | [] => None
  | c :: l' => if p c then Some O else S <$> find_first p l'
  end.

(** [find_first_of] and [find_first_not_of] from an index. *)
Definition find_from (p : ascii -> bool) (S : text) (Ix : option nat) : option nat :=
  i ← Ix; (fun k => (i + k)%nat) <$> find_first p (drop i S).

Definition char_in (set : text) (c : ascii) : bool := bool_decide (c ∈ set).
Definition find_first_of (S set : text) (Ix : option nat) : option nat := find_from (char_in set) S Ix.
Definition find_first_not_of (S set : text) (Ix : option nat) : option nat :=
  find_from (fun c => negb (char_in set c)) S Ix.

(** [string(S, Pos, Len)]; the length is a wrapped difference, which is large
    when negative and then runs to the end. *)
Definition substr (S : text) (Start Ix : option nat) : exc text :=
  match Start with
  | Some s => if (length S <? s)%nat then Throw OutOfRange
              else match Ix with
                   | Some i => Val (take (i - s) (drop s S))
                   | None => Val (drop s S)
                   end
  | None => Throw OutOfRange
  end.

(** [S[I]]: the terminator at the end. *)
Definition char_at (S : text) (Ix : option nat) : option ascii := i ← Ix; S !! i.

Definition past_end (S : text) (Ix : option nat) : bool :=
  match Ix with Some i => (length S <=? i)%nat | None => true end.

Definition is_char (S : text) (Ix : option nat) (c : ascii) : bool := bool_decide (char_at S Ix = Some c).

(** *** atoi *)

Definition digit (c : ascii) : option Z :=
  let v := Z.of_nat (nat_of_ascii c) - 48 in
  if (0 <=? v) && (v <=? 9) then Some v else None.

Fixpoint digits (l : text) (acc : Z) : Z :=
  match l with
  | [] => acc
  | c :: l' => match digit c with Some d => digits l' (10 * acc + d) | None => acc end
  end.

Fixpoint skip_blanks (l : text) : text :=
  match l with
  | c :: l' => if char_in (str " ") c || (Z.of_nat (nat_of_ascii c) - 9 <=? 4) && (9 <=? Z.of_nat (nat_of_ascii c))
               then skip_blanks l' else l
  | [] => []
  end.

Definition atoi (l : text) : exc Z :=
  let l := skip_blanks l in
  let v := match l with
           | "-"%char :: l' => - digits l' 0
           | "+"%char :: l' => digits l' 0
           | _ => digits l 0
           end in
  if (- 2 ^ 31 <=? v) && (v <? 2 ^ 31) then Val v else Throw IntOverflow.

(** ** Patterns *)

Definition AnyArgs : Z := -1.

Record MethodID := MkMethodID {
  ClassName : option text; MethodName : option text; NumArgs : Z }.

(** The next token and the index behind it. *)
Definition scan (S : text) (Ix : option nat) : exc (text * option nat) :=
  if past_end S Ix then Val ([], Ix)
  else
    let Start := find_first_not_of S (str " " ++ [ascii_of_nat 9]) Ix in
    let Ix := find_first_of S (str " :()") Start in
    let Ix := match Ix with None => Some (length S) | Some _ => Ix end in
    Token ← substr S Start Ix;
    Val (Token, Ix).

Definition incr (Ix : option nat) : option nat := match Ix with Some i => Some (S i) | None => Some O end.

Definition parseArgs (S : text) (Ix : option nat) : exc (Z * option nat) :=
  let Start := incr Ix in
  let Ix := find_first_of S (str ")") Start in
  match Ix with
  | None => Val (AnyArgs, None)
  | Some _ => Num ← substr S Start Ix; NArgs ← atoi Num; Val (NArgs, incr Ix)
  end.

(** A pattern, or [None] for the null pointer, and the index behind it. *)
Definition parse (S : text) (Ix : option nat) : exc (option MethodID * option nat) :=
  '(Token, Ix) ← scan S Ix;
  if bool_decide (Token = []) then Val (None, Ix)
  else if bool_decide (Token = str "*") then Val (Some (MkMethodID (Some Token) None AnyArgs), Ix)
  else
    '(Class, Token, Ix) ←
      (if is_char S Ix ":"%char then
         '(M, Ix) ← scan S (incr Ix); Val (Some Token, M, Ix)
       else Val (None, Token, Ix));
    if past_end S Ix || is_char S Ix " "%char then Val (Some (MkMethodID Class (Some Token) AnyArgs), Ix)
    else if negb (is_char S Ix "("%char) then Val (None, Ix)
    else '(n, Ix) ← parseArgs S Ix; Val (Some (MkMethodID Class (Some Token) n), Ix).

(** The loop of [MethodSet::insert]; [None] is out of fuel. *)
Fixpoint parse_all (fuel : nat) (Str : text) (Ix : option nat) : option (exc (list MethodID)) :=
  match fuel with
  | O => None
  | S fuel' =>
      match parse Str Ix with
      | Throw e => Some (Throw e)
      | Val (None, _) => Some (Val [])
      | Val (Some m, Ix) => r ← parse_all fuel' Str Ix; Some (l ← r; Val (m :: l))
      end
  end.

Definition parse_patterns (S : text) : option (exc (list MethodID)) :=
  parse_all (Datatypes.S (length S)) S (Some O).

(** ** Membership *)

(** [NumArgs] is the count of the signature, if one is given. *)
Definition matches_pattern (P : MethodID) (Method Class : text) (Args : Z) : bool :=
  if bool_decide (ClassName P = Some (str "*")) then true
  else if negb (NumArgs P =? AnyArgs) && negb (NumArgs P =? Args) then false
  else
    match MethodName P with
    | Some m => if negb (bool_decide (m = Method)) then false
                else match ClassName P with None => true | Some c => bool_decide (c = Class) end
    | None => match ClassName P with None => true | Some c => bool_decide (c = Class) end
    end.

Fixpoint contains (l : list MethodID) (Method Class : text) (Sig : option Z) : bool :=
  match l with
  | [] => false
  | P :: l' => if matches_pattern P Method Class (default AnyArgs Sig) then true
               else contains l' Method Class Sig
  end.

(** ** Initialisation *)

(** A thread inside [init] and [insert]: it has not looked at the set yet, it
    has parsed its own list, it has won the exchange of the flag, or it is
    back from [init]. *)
Inductive pc : Set := Start | Parsed | Won | Done.

#[export] Instance pc_eq_dec : EqDecision pc.
Proof. solve_decision. Defined.

(** The shared flag, the published list by its thread, and the threads. *)
Record set_state := SetState { Initialized : bool; MethodIDList : option nat; threads : gmap nat pc }.

Definition isInitialized (s : set_state) : bool := bool_decide (is_Some (MethodIDList s)).

Inductive step : set_state -> set_state -> Prop :=
  | step_skip s t : threads s !! t = Some Start -> isInitialized s = true ->
      step s (SetState (Initialized s) (MethodIDList s) (<[t := Done]> (threads s)))
  | step_parse s t : threads s !! t = Some Start -> isInitialized s = false ->
      step s (SetState (Initialized s) (MethodIDList s) (<[t := Parsed]> (threads s)))
  | step_win s t : threads s !! t = Some Parsed -> Initialized s = false ->
      step s (SetState true (MethodIDList s) (<[t := Won]> (threads s)))
  | step_lose s t : threads s !! t = Some Parsed -> Initialized s = true ->
      step s (SetState (Initialized s) (MethodIDList s) (<[t := Done]> (threads s)))
  | step_publish s t : threads s !! t = Some Won ->
      step s (SetState (Initialized s) (Some t) (<[t := Done]> (threads s))).

Definition initial (n : nat) : set_state :=
  SetState false None (list_to_map ((fun t => (t, Start)) <$> seq 0 n)).

(** ** Scanning *)

Definition blank (c : ascii) : bool := char_in (str " " ++ [ascii_of_nat 9]) c.
Definition delimiter (c : ascii) : bool := char_in (str " :()") c.

(** A class or method name of a pattern. *)
Definition name_ok (t : text) : Prop :=
  t <> [] /\ Forall (fun c => delimiter c = false) t /\ forall c r, t = c :: r -> blank c = false.

Lemma find_first_skip (p : ascii -> bool) (l1 l2 : text) :
  Forall (fun c => p c = false) l1 ->
  find_first p (l1 ++ l2) = (fun k => (length l1 + k)%nat) <$> find_first p l2.
Proof.
  induction 1 as [|c l1 Hc _ IH]; simpl; [by destruct (find_first p l2)|].
  rewrite Hc, IH. by destruct (find_first p l2).
Qed.

Lemma find_from_skip (p : ascii -> bool) (pre l1 l2 : text) (i : nat) :
  Forall (fun c => p c = false) l1 -> i = length pre ->
  find_from p (pre ++ l1 ++ l2) (Some i) =
    (fun k => (length pre + length l1 + k)%nat) <$> find_first p l2.
Proof.
  intros Hl ->. unfold find_from. cbn [mbind option_bind]. rewrite drop_app_length, find_first_skip by done.
  destruct (find_first p l2); [|done]. simpl. f_equal. lia.
Qed.

Lemma take_mid (a b c : text) : take (length b) (drop (length a) (a ++ b ++ c)) = b.
Proof. by rewrite drop_app_length, take_app_length. Qed.

(** What follows a token. *)
Definition token_end (rest : text) : Prop := rest = [] \/ exists c r, rest = c :: r /\ delimiter c = true.

Lemma blanks_not (b : text) : Forall (fun c => blank c = true) b ->
  Forall (fun c => negb (char_in (str " " ++ [ascii_of_nat 9]) c) = false) b.
Proof. intros Hb. eapply Forall_impl; [exact Hb|]. intros c Hc. unfold blank in Hc. by rewrite Hc. Qed.

Lemma scan_token (pre b tok rest : text) :
  Forall (fun c => blank c = true) b -> name_ok tok -> token_end rest ->
  scan (pre ++ b ++ tok ++ rest) (Some (length pre)) = Val (tok, Some (length pre + length b + length tok)%nat).
Proof.
  intros Hb (Hne & Htok & Hhd) Hrest. unfold scan.
  assert (Hl : length (pre ++ b ++ tok ++ rest) = (length pre + length b + length tok + length rest)%nat)
    by (rewrite !length_app; lia).
  assert (Ht : (0 < length tok)%nat) by (destruct tok; [done|simpl; lia]).
  unfold past_end. rewrite Hl, (proj2 (Nat.leb_gt _ _)) by lia.
  unfold find_first_not_of. fold blank.
  rewrite (find_from_skip _ pre b (tok ++ rest) (length pre)) by (done || by apply blanks_not).
  assert (Hf : find_first (fun c => negb (blank c)) (tok ++ rest) = Some O).
  { destruct tok as [|c t]; [done|]. simpl. by rewrite (Hhd c t eq_refl). }
  fold blank in Hf. change (fun c => negb (char_in (str " " ++ [ascii_of_nat 9]) c)) with (fun c => negb (blank c)).
  rewrite Hf. cbn [fmap option_fmap option_map]. rewrite Nat.add_0_r.
  assert (Hd : find_first_of (pre ++ b ++ tok ++ rest) (str " :()") (Some (length pre + length b)%nat) =
    (fun k => (length pre + length b + length tok + k)%nat) <$> find_first delimiter rest).
  { unfold find_first_of. rewrite app_assoc.
    rewrite (find_from_skip _ (pre ++ b) tok rest) by (done || by rewrite length_app).
    rewrite length_app. done. }
  rewrite Hd.
  assert (He : match (fun k => (length pre + length b + length tok + k)%nat) <$> find_first delimiter rest with
      | Some _ => (fun k => (length pre + length b + length tok + k)%nat) <$> find_first delimiter rest
      | None => Some (length pre + length b + length tok + length rest)%nat
      end = Some (length pre + length b + length tok)%nat).
  { destruct Hrest as [->|(c & r & -> & Hc)]; simpl; [f_equal; lia|]. rewrite Hc. simpl. f_equal. lia. }
  rewrite He. unfold substr. rewrite Hl, (proj2 (Nat.ltb_ge _ _)) by lia. cbn [mbind exc_bind].
  replace (length pre + length b + length tok - (length pre + length b))%nat with (length tok) by lia.
  rewrite app_assoc. replace (length pre + length b)%nat with (length (pre ++ b)) at 1 by by rewrite length_app.
  by rewrite take_mid.
Qed.

Lemma scan_blanks (pre b : text) :
  b <> [] -> Forall (fun c => blank c = true) b ->
  scan (pre ++ b) (Some (length pre)) = Throw OutOfRange.
Proof.
  intros Hne Hb. unfold scan, past_end.
  assert (Hl : (length pre < length (pre ++ b))%nat) by (rewrite length_app; destruct b; [done|simpl; lia]).
  rewrite (proj2 (Nat.leb_gt _ _)) by done.
  unfold find_first_not_of. change (fun c => negb (char_in (str " " ++ [ascii_of_nat 9]) c)) with (fun c => negb (blank c)).
  assert (Hn : find_from (fun c => negb (blank c)) (pre ++ b) (Some (length pre)) = None).
  { rewrite <- (app_nil_r b).
    rewrite (find_from_skip _ pre b []) by (done || by apply blanks_not). done. }
  rewrite Hn. done.
Qed.

Lemma scan_end (Str : text) (i : nat) : (length Str <= i)%nat -> scan Str (Some i) = Val ([], Some i).
Proof. intros H. unfold scan, past_end. by rewrite (proj2 (Nat.leb_le _ _)). Qed.

(** ** The text of a pattern *)

Definition class_prefix (c : option text) : text := match c with Some c => c ++ str ":" | None => [] end.
Definition class_ok (c : option text) (m : text) : Prop :=
  match c with Some c => name_ok c /\ c <> str "*" | None => m <> str "*" end.

Inductive pattern_text : MethodID -> text -> Prop :=
  | text_star : pattern_text (MkMethodID (Some (str "*")) None AnyArgs) (str "*")
  | text_plain c m : class_ok c m -> name_ok m ->
      pattern_text (MkMethodID c (Some m) AnyArgs) (class_prefix c ++ m)
  | text_args c m d n : class_ok c m -> name_ok m -> Forall (fun x => char_in (str ")") x = false) d ->
      atoi d = Val n -> pattern_text (MkMethodID c (Some m) n) (class_prefix c ++ m ++ str "(" ++ d ++ str ")").

Lemma char_at_app (pre : text) (c : ascii) (r : text) (i : nat) :
  i = length pre -> is_char (pre ++ c :: r) (Some i) c = true.
Proof. intros ->. unfold is_char, char_at. cbn [mbind option_bind]. by rewrite list_lookup_middle by done; rewrite bool_decide_true. Qed.

Lemma is_char_ne (pre : text) (c d : ascii) (r : text) (i : nat) :
  i = length pre -> c <> d -> is_char (pre ++ c :: r) (Some i) d = false.
Proof.
  intros -> Hne. unfold is_char, char_at. cbn [mbind option_bind]. rewrite list_lookup_middle by done.
  apply bool_decide_eq_false. by intros [= ?].
Qed.

Lemma is_char_end (pre : text) (d : ascii) (i : nat) : i = length pre -> is_char pre (Some i) d = false.
Proof.
  intros ->. unfold is_char, char_at. cbn [mbind option_bind]. rewrite lookup_ge_None_2 by lia. by apply bool_decide_eq_false.
Qed.

(** The part of [parse] behind the class and method names. *)
Definition parse_rest (Str : text) (c : option text) (m : text) (i : option nat)
    : exc (option MethodID * option nat) :=
  if past_end Str i || is_char Str i " "%char then Val (Some (MkMethodID c (Some m) AnyArgs), i)
  else if negb (is_char Str i "("%char) then Val (None, i)
  else '(n, i) ← parseArgs Str i; Val (Some (MkMethodID c (Some m) n), i).

Lemma parse_names (pre b rest m : text) (c : option text) :
  Forall (fun x => blank x = true) b -> class_ok c m -> name_ok m -> token_end rest ->
  (forall r, rest <> ":"%char :: r) ->
  let Str := pre ++ b ++ class_prefix c ++ m ++ rest in
  parse Str (Some (length pre)) =
    parse_rest Str c m (Some (length pre + length b + length (class_prefix c) + length m)%nat).
Proof.
  intros Hb Hc Hm Hr Hcol. destruct c as [k|]; cbn [class_prefix class_ok] in *; cbv zeta; unfold parse.
  - destruct Hc as [Hk Hks].
    replace (pre ++ b ++ (k ++ str ":") ++ m ++ rest) with (pre ++ b ++ k ++ ":"%char :: m ++ rest)
      by (by rewrite <- !app_assoc).
    rewrite scan_token by (done || (right; eexists _, _; split; reflexivity)). cbn [mbind exc_bind].
    rewrite bool_decide_false by apply Hk. rewrite (bool_decide_false (k = _)) by done.
    replace (pre ++ b ++ k ++ ":"%char :: m ++ rest) with ((pre ++ b ++ k) ++ ":"%char :: m ++ rest)
      by (by rewrite <- !app_assoc).
    rewrite char_at_app by (rewrite !length_app; lia). cbn [incr].
    replace ((pre ++ b ++ k) ++ ":"%char :: m ++ rest) with ((pre ++ b ++ k ++ str ":") ++ [] ++ m ++ rest)
      by (by rewrite <- !app_assoc).
    replace (S (length pre + length b + length k)) with (length (pre ++ b ++ k ++ str ":"))
      by (rewrite !length_app; simpl; lia).
    rewrite scan_token by (done || constructor). cbn [mbind exc_bind length]. rewrite Nat.add_0_r.
    replace (length (pre ++ b ++ k ++ str ":") + length m)%nat with
      (length pre + length b + length (k ++ str ":") + length m)%nat by (rewrite !length_app; lia).
    done.
  - rewrite app_nil_l. rewrite scan_token by done. cbn [mbind exc_bind length].
    rewrite bool_decide_false by apply Hm. rewrite (bool_decide_false (m = _)) by done.
    assert (Hn : is_char (pre ++ b ++ m ++ rest) (Some (length pre + length b + length m)%nat) ":"%char = false).
    { replace (pre ++ b ++ m ++ rest) with ((pre ++ b ++ m) ++ rest) by (by rewrite <- !app_assoc).
      destruct rest as [|x r].
      - rewrite app_nil_r. apply is_char_end. rewrite !length_app. lia.
      - apply is_char_ne; [rewrite !length_app; lia|]. intros ->. by apply (Hcol r). }
    rewrite Hn. cbn [mbind exc_bind]. by rewrite Nat.add_0_r.
Qed.

(** A pattern is followed by a blank or the end. *)
Definition pattern_end (rest : text) : Prop := rest = [] \/ exists r, rest = " "%char :: r.

Lemma parse_pattern (pre b txt rest : text) (p : MethodID) :
  Forall (fun x => blank x = true) b -> pattern_text p txt -> pattern_end rest ->
  parse (pre ++ b ++ txt ++ rest) (Some (length pre)) =
    Val (Some p, Some (length pre + length b + length txt)%nat).
Proof.
  intros Hb Hp Hr.
  assert (Ht : token_end rest) by (destruct Hr as [->|(r & ->)]; [by left|right; by eexists _, _]).
  destruct Hp as [|c m Hc Hm|c m d n Hc Hm Hd Hn].
  - unfold parse. rewrite scan_token; [|done| |done].
    + done.
    + split; [done|]. split; [by repeat constructor|]. by intros ? ? [= <- <-].
  - rewrite <- app_assoc. rewrite parse_names by (done || (destruct Hr as [->|(? & ->)]; done)).
    rewrite length_app. unfold parse_rest.
    replace (pre ++ b ++ class_prefix c ++ m ++ rest) with ((pre ++ b ++ class_prefix c ++ m) ++ rest)
      by (by rewrite <- !app_assoc).
    assert (Hcond : past_end ((pre ++ b ++ class_prefix c ++ m) ++ rest)
        (Some (length pre + length b + length (class_prefix c) + length m)%nat)
      || is_char ((pre ++ b ++ class_prefix c ++ m) ++ rest)
        (Some (length pre + length b + length (class_prefix c) + length m)%nat) " "%char = true).
    { destruct Hr as [->|(r & ->)]; apply orb_true_iff; [left|right].
      - apply Nat.leb_le. rewrite !length_app. simpl. lia.
      - apply char_at_app. rewrite !length_app. lia. }
    rewrite Hcond. do 3 f_equal. lia.
  - replace (pre ++ b ++ (class_prefix c ++ m ++ str "(" ++ d ++ str ")") ++ rest)
      with (pre ++ b ++ class_prefix c ++ m ++ "("%char :: d ++ ")"%char :: rest)
      by (by rewrite <- !app_assoc).
    rewrite parse_names by (done || (right; eexists _, _; split; reflexivity)). unfold parse_rest.
    set (P := pre ++ b ++ class_prefix c ++ m).
    replace (pre ++ b ++ class_prefix c ++ m ++ "("%char :: d ++ ")"%char :: rest)
      with (P ++ "("%char :: d ++ ")"%char :: rest) by (unfold P; by rewrite <- !app_assoc).
    replace (length pre + length b + length (class_prefix c) + length m)%nat with (length P)
      by (unfold P; rewrite !length_app; lia).
    unfold past_end. rewrite (proj2 (Nat.leb_gt _ _)) by (rewrite length_app; simpl; lia).
    rewrite is_char_ne by done. rewrite char_at_app by done. cbn [orb negb].
    unfold parseArgs. cbn [incr].
    replace (P ++ "("%char :: d ++ ")"%char :: rest) with ((P ++ str "(") ++ d ++ ")"%char :: rest)
      by (by rewrite <- !app_assoc).
    replace (S (length P)) with (length (P ++ str "(")) by (rewrite length_app; simpl; lia).
    unfold find_first_of. rewrite find_from_skip by done.
    change (find_first (char_in (str ")")) (")"%char :: rest)) with (Some O).
    cbn [fmap option_fmap option_map]. unfold substr.
    rewrite (proj2 (Nat.ltb_ge _ _)) by (rewrite !length_app; lia). cbn [mbind exc_bind].
    replace (length (P ++ str "(") + length d + 0 - length (P ++ str "("))%nat with (length d) by lia.
    rewrite take_mid, Hn. cbn [mbind exc_bind incr]. do 3 f_equal.
    rewrite !length_app. simpl. unfold P. rewrite !length_app. lia.
Qed.

Inductive patterns_text : list MethodID -> text -> Prop :=
  | texts_nil : patterns_text [] []
  | texts_cons p ps b t r : Forall (fun x => blank x = true) b -> pattern_text p t ->
      patterns_text ps r -> pattern_end r -> patterns_text (p :: ps) (b ++ t ++ r).

Lemma pattern_text_length p t : pattern_text p t -> (0 < length t)%nat.
Proof.
  intros [|c m _ [Hm _]|c m d n _ [Hm _] _ _]; simpl; rewrite ?length_app; [lia|..];
    (destruct m; [done|simpl; lia]).
Qed.

(** Parsing a list of patterns that blanks may follow. *)
Lemma parse_all_spec (ps : list MethodID) (t : text) : patterns_text ps t ->
  forall fuel pre b, Forall (fun x => blank x = true) b -> (b = [] \/ ps = [] \/ exists r, b = " "%char :: r) ->
  (length ps < fuel)%nat ->
  parse_all fuel (pre ++ t ++ b) (Some (length pre)) =
    Some (if bool_decide (b = []) then Val ps else Throw OutOfRange).
Proof.
  induction 1 as [|p ps b0 t r Hb0 Hp Hps IH Hr]; intros [|fuel] pre b Hb Hsep Hf; try (simpl in Hf; lia);
    cbn [parse_all].
  - cbn [app]. destruct (bool_decide_reflect (b = [])) as [->|Hne].
    + rewrite app_nil_r. unfold parse. by rewrite scan_end.
    + unfold parse. by rewrite scan_blanks.
  - assert (Hend : pattern_end (r ++ b)).
    { destruct Hr as [->|(r' & ->)]; [|right; by eexists].
      destruct Hsep as [->|[?|(r' & ->)]]; [by left|done|right; by eexists]. }
    replace (pre ++ (b0 ++ t ++ r) ++ b) with (pre ++ b0 ++ t ++ r ++ b) by (by rewrite <- !app_assoc).
    rewrite (parse_pattern pre b0 t (r ++ b) p) by done. cbv iota beta.
    replace (pre ++ b0 ++ t ++ r ++ b) with ((pre ++ b0 ++ t) ++ r ++ b) by (by rewrite <- !app_assoc).
    replace (length pre + length b0 + length t)%nat with (length (pre ++ b0 ++ t)) by (rewrite !length_app; lia).
    rewrite IH; [|done| |simpl in Hf; lia].
    + cbn [mbind option_bind]. by case_bool_decide.
    + destruct Hsep as [?|[?|?]]; [by left|done|by right; right].
Qed.

Lemma patterns_text_length ps t : patterns_text ps t -> (length ps <= length t)%nat.
Proof.
  induction 1 as [|p ps b t r _ Hp _ IH _]; [done|]. apply pattern_text_length in Hp.
  rewrite !length_app. simpl. lia.
Qed.

(** ** Every string parses or throws *)

(** Characters left behind an index. *)
Definition rank (Str : text) (i : option nat) : nat := match i with Some i => length Str - i | None => 0 end.

Lemma find_first_lt (p : ascii -> bool) (l : text) (k : nat) : find_first p l = Some k -> (k < length l)%nat.
Proof.
  revert k. induction l as [|c l IH]; intros k; simpl; [done|]. destruct (p c); [intros [= <-]; lia|].
  destruct (find_first p l) as [j|]; [|done]. intros [= <-]. specialize (IH j eq_refl). lia.
Qed.

Lemma find_from_range (p : ascii -> bool) (Str : text) (i : option nat) (k : nat) :
  find_from p Str i = Some k -> exists j, i = Some j /\ (j <= k < length Str)%nat.
Proof.
  unfold find_from. destruct i as [j|]; [|done]. cbn [mbind option_bind].
  destruct (find_first p (drop j Str)) as [m|] eqn:E; [|done]. intros [= <-].
  apply find_first_lt in E. rewrite length_drop in E. exists j. split; [done|lia].
Qed.

Lemma scan_rank (Str tok : text) (i j : option nat) :
  scan Str i = Val (tok, j) -> (rank Str j <= rank Str i)%nat /\ (tok <> [] -> (rank Str j < rank Str i)%nat).
Proof.
  unfold scan. destruct (past_end Str i) eqn:Hp; [intros [= <- <-]; by split|].
  destruct (find_first_not_of Str _ i) as [s|] eqn:Hs; [|done].
  unfold find_first_not_of in Hs. apply find_from_range in Hs as (k & -> & Hk). unfold substr.
  destruct (Nat.ltb_spec (length Str) s); [lia|].
  destruct (find_first_of Str _ (Some s)) as [e|] eqn:He; cbn [mbind exc_bind]; intros [= <- <-]; simpl.
  - unfold find_first_of in He; apply find_from_range in He as (? & [= <-] & He). split; [lia|]. intros Hne.
    destruct (decide (e = s)) as [->|]; [|lia]. rewrite Nat.sub_diag, take_0 in Hne. done.
  - split; lia.
Qed.

Lemma parse_rank (Str : text) (i j : option nat) (m : MethodID) :
  parse Str i = Val (Some m, j) -> (rank Str j < rank Str i)%nat.
Proof.
  unfold parse. destruct (scan Str i) as [[tok k]|] eqn:Hs; [|done]. cbn [mbind exc_bind].
  apply scan_rank in Hs as [_ Hlt]. destruct (bool_decide_reflect (tok = [])) as [->|Hne]; [done|].
  specialize (Hlt Hne). destruct (bool_decide (tok = str "*")); [by intros [= _ <-]|].
  assert (Hnames : forall r, (if is_char Str k ":"%char then '(M, I') ← scan Str (incr k); Val (Some tok, M, I')
      else Val (None, tok, k)) = Val r -> (rank Str r.2 <= rank Str k)%nat).
  { intros r. destruct (is_char Str k ":"%char) eqn:Hc; [|by intros [= <-]].
    destruct (scan Str (incr k)) as [[M k']|] eqn:Hs2; [|done]. intros [= <-]. simpl.
    apply scan_rank in Hs2 as [Hle _]. etrans; [exact Hle|]. destruct k as [k|]; [simpl; lia|].
    unfold is_char, char_at in Hc. by apply bool_decide_eq_true in Hc. }
  destruct (if is_char Str k ":"%char then _ else _) as [[[c M] k']|] eqn:Hn; [|done].
  specialize (Hnames _ eq_refl). simpl in Hnames. cbn [mbind exc_bind].
  destruct (past_end Str k' || _); [intros [= _ <-]; lia|].
  destruct (negb _) eqn:Hopen; [done|]. unfold parseArgs.
  destruct (find_first_of Str _ (incr k')) as [e|] eqn:He; cbn [mbind exc_bind];
    [|intros [= _ <-]; cbn [rank]; lia].
  destruct (substr Str (incr k') (Some e)); cbn [mbind exc_bind]; [|done].
  destruct (atoi _); cbn [mbind exc_bind]; [|done]. intros [= _ <-].
  unfold find_first_of in He; apply find_from_range in He as (q & Hq & He). destruct k' as [k'|]; [injection Hq as <-; simpl in *; lia|].
  apply negb_false_iff in Hopen. unfold is_char, char_at in Hopen. by apply bool_decide_eq_true in Hopen.
Qed.

Lemma parse_all_total (Str : text) (fuel : nat) : forall i,
  (rank Str i < fuel)%nat -> is_Some (parse_all fuel Str i).
Proof.
  induction fuel as [|fuel IH]; intros i Hf; [lia|]. cbn [parse_all].
  destruct (parse Str i) as [[[m|] j]|] eqn:Hp; [|eauto..].
  apply parse_rank in Hp. destruct (IH j ltac:(lia)) as [r ->]. eauto.
Qed.

(** ** Properties *)

(** The pattern parser.  It ends on every configuration string, and a
    string made of patterns ([*], a method name, or a class, a colon and a
    method name, the latter two with or without an argument count in
    parentheses), each with any blanks in front and separated by a space,
    parses into exactly these patterns. *)
Theorem parse_patterns_correct (t : text) (ps : list MethodID) :
  is_Some (parse_patterns t) /\ (patterns_text ps t -> parse_patterns t = Some (Val ps)).
Proof.
  split; [apply parse_all_total; simpl; lia|]. intros Ht. unfold parse_patterns.
  pose proof (parse_all_spec ps t Ht (S (length t)) [] []) as Hs.
  rewrite app_nil_r, app_nil_l in Hs. etrans; [apply Hs; [constructor|by left|]|done].
  apply patterns_text_length in Ht. lia.
Qed.

Definition demo_patterns : list MethodID :=
  [MkMethodID None (Some (str "foo")) AnyArgs; MkMethodID (Some (str "Ns.C")) (Some (str "bar")) 2].

Lemma demo_patterns_text : patterns_text demo_patterns (str "  foo Ns.C:bar(2)").
Proof.
  apply (texts_cons _ _ (str "  ") (str "foo") (str " Ns.C:bar(2)")).
  - by repeat constructor.
  - apply (text_plain None (str "foo")); [done|]. split; [done|]. split; [by repeat constructor|].
    by intros ? ? [= <- <-].
  - rewrite <- (app_nil_r (str " Ns.C:bar(2)")).
    apply (texts_cons _ _ (str " ") (str "Ns.C:bar(2)") []); [by repeat constructor| |constructor|by left].
    apply (text_args (Some (str "Ns.C")) (str "bar") (str "2") 2); [|..|by repeat constructor|reflexivity].
    + split; [|done]. split; [done|]. split; [by repeat constructor|]. by intros ? ? [= <- <-].
    + split; [done|]. split; [by repeat constructor|]. by intros ? ? [= <- <-].
  - right. by eexists.
Qed.

Lemma parse_patterns_correct_witness :
  parse_patterns (str "  foo Ns.C:bar(2)") = Some (Val demo_patterns).
Proof. exact (proj2 (parse_patterns_correct _ demo_patterns) demo_patterns_text). Defined.

(** Blanks behind the last pattern, as in the example of the parser's own
    documentation, make the scanner build a string from [npos]: the parse
    throws [std::out_of_range], whatever the patterns in front. *)
Theorem trailing_blank_throws (t b : text) (ps : list MethodID) :
  patterns_text ps t -> b <> [] -> Forall (fun x => blank x = true) b ->
  (ps = [] \/ exists r, b = " "%char :: r) ->
  parse_patterns (t ++ b) = Some (Throw OutOfRange).
Proof.
  intros Ht Hb Hbb Hsep. unfold parse_patterns.
  pose proof (parse_all_spec ps t Ht (S (length (t ++ b))) [] b Hbb) as Hs.
  rewrite app_nil_l in Hs. rewrite bool_decide_false in Hs by done. apply Hs; [by right|].
  apply patterns_text_length in Ht. rewrite length_app. lia.
Qed.

Lemma trailing_blank_throws_witness :
  parse_patterns (str "  foo Ns.C:bar(2)" ++ str " ") = Some (Throw OutOfRange).
Proof.
  apply (trailing_blank_throws _ (str " ") demo_patterns demo_patterns_text);
    [discriminate|by repeat constructor|right; by exists []].
Defined.

(** [contains] holds exactly of the methods that some pattern selects: the
    pattern [*], or one whose argument count, if given, is the signature's,
    whose method name, if given, is the method's, and whose class, if given, is
    the method's class. *)
Theorem contains_correct (l : list MethodID) (Method Class : text) (Sig : option Z) :
  contains l Method Class Sig = true <->
  exists P, P ∈ l /\ (ClassName P = Some (str "*") \/
    ((NumArgs P = AnyArgs \/ NumArgs P = default AnyArgs Sig) /\
     (forall m, MethodName P = Some m -> m = Method) /\ (forall c, ClassName P = Some c -> c = Class))).
Proof.
  assert (Hm : forall P, matches_pattern P Method Class (default AnyArgs Sig) = true <->
    (ClassName P = Some (str "*") \/ ((NumArgs P = AnyArgs \/ NumArgs P = default AnyArgs Sig) /\
     (forall m, MethodName P = Some m -> m = Method) /\ (forall c, ClassName P = Some c -> c = Class)))).
  { intros [c m n]. unfold matches_pattern. cbn [ClassName MethodName NumArgs].
    destruct (bool_decide_reflect (c = Some (str "*"))) as [Hs|Hs]; [by intuition|].
    destruct (Z.eqb_spec n AnyArgs); destruct (Z.eqb_spec n (default AnyArgs Sig)); cbn [negb andb];
      try (split; [done|naive_solver]);
      (destruct m as [m|]; [destruct (bool_decide_reflect (m = Method)) as [->|]; cbn [negb]; [|split; [done|naive_solver]]|]);
      (destruct c as [c|]; [rewrite bool_decide_eq_true|]; naive_solver). }
  induction l as [|P l IH]; simpl.
  - split; [done|]. by intros (? & ?%elem_of_nil & _).
  - destruct (matches_pattern P Method Class (default AnyArgs Sig)) eqn:E.
    + split; [|done]. intros _. exists P. split; [constructor|by apply Hm].
    + rewrite IH. split.
      * intros (Q & HQ & ?). exists Q. split; [by constructor|done].
      * intros (Q & [->|HQ]%elem_of_cons & Hq); [apply Hm in Hq; congruence|by exists Q].
Qed.

(** *** Concurrent initialisation *)

Record init_inv (s : set_state) : Prop := {
  ii_flag : is_Some (MethodIDList s) \/ (exists t, threads s !! t = Some Won) -> Initialized s = true;
  ii_won : forall t, threads s !! t = Some Won -> MethodIDList s = None /\
    forall t', threads s !! t' = Some Won -> t' = t }.

Lemma init_inv_step s s' : init_inv s -> step s s' -> init_inv s'.
Proof.
  intros [Hf Hw] Hstep.
  assert (Hold : forall t p t', p <> Won -> <[t := p]> (threads s) !! t' = Some Won -> threads s !! t' = Some Won).
  { intros t p t' Hp. destruct (decide (t' = t)) as [->|]; [rewrite lookup_insert_eq; by intros [= ->]|].
    by rewrite lookup_insert_ne. }
  destruct Hstep as [s t Ht Hi|s t Ht Hi|s t Ht Hi|s t Ht Hi|s t Ht]; split; cbn [Initialized MethodIDList threads];
    try (intros [?|[t' Ht']]; [by apply Hf; left|apply Hf; right; exists t'; eapply Hold; [|exact Ht']; done]);
    try (intros t1 H1; apply Hold in H1; [|done]; destruct (Hw t1 H1) as [Hn Hu]; split; [done|];
         intros t2 H2; apply Hold in H2; [|done]; by apply Hu).
  - done.
  - assert (Hnone : forall t', threads s !! t' <> Some Won).
    { intros t' Ht'. assert (Initialized s = true) by (apply Hf; right; by exists t'). congruence. }
    assert (Hnl : MethodIDList s = None).
    { destruct (MethodIDList s) eqn:E; [|done]. assert (Initialized s = true) by (apply Hf; left; by eexists). congruence. }
    intros t1 H1. split; [done|]. intros t2 H2.
    destruct (decide (t1 = t)) as [->|]; [|by rewrite lookup_insert_ne in H1; [apply Hnone in H1|]].
    destruct (decide (t2 = t)) as [->|]; [done|]. by rewrite lookup_insert_ne in H2; [apply Hnone in H2|].
  - intros _. apply Hf. right. by exists t.
  - intros t1 H1. destruct (decide (t1 = t)) as [->|Hne]; [by rewrite lookup_insert_eq in H1|].
    rewrite lookup_insert_ne in H1 by done. destruct (Hw t Ht) as [_ Hu]. by specialize (Hu t1 H1).
Qed.

Lemma init_inv_initial (n : nat) : init_inv (initial n).
Proof.
  assert (Hn : forall t, threads (initial n) !! t <> Some Won).
  { intros t Ht. simpl in Ht. apply elem_of_list_to_map_2, list_elem_of_fmap in Ht as (? & [=] & _). }
  split; simpl; [intros [[? ?]|[t Ht]]; [done|by apply Hn in Ht]|]. intros t Ht. by apply Hn in Ht.
Qed.

Lemma init_inv_reachable (n : nat) (s : set_state) : rtc step (initial n) s -> init_inv s.
Proof.
  intros Hr. refine (rtc_ind_r init_inv (initial n) (init_inv_initial n) _ s Hr).
  intros y z _ Hyz Hy. by eapply init_inv_step.
Qed.

(** Concurrent initialisation publishes one list.  From any number of
    threads that enter [init] at the same time, once a list is published it is
    the set's list for good, whatever the threads do next; and a list is only
    published with the flag already set, by the one thread that won it. *)
Theorem init_publishes_once (n : nat) (s s' : set_state) (t : nat) :
  rtc step (initial n) s -> rtc step s s' -> MethodIDList s = Some t ->
  MethodIDList s' = Some t /\ Initialized s' = true.
Proof.
  intros Hr Hrs Hl. pose proof (init_inv_reachable n s Hr) as Hi.
  assert (H : init_inv s' /\ MethodIDList s' = Some t).
  { refine (rtc_ind_r (fun s' => init_inv s' /\ MethodIDList s' = Some t) s (conj Hi Hl) _ s' Hrs).
    intros y z _ Hyz [Hy Hyl]. split; [by eapply init_inv_step|].
    destruct Hyz as [| | | |y u Hu]; try done. apply (ii_won _ Hy) in Hu as [Hn _]. congruence. }
  split; [apply H|]. apply (ii_flag _ (proj1 H)). left. rewrite (proj2 H). by eexists.
Qed.

(** The steps of two threads of which the first wins. *)
Definition raced : set_state :=
  SetState true None {[0%nat := Won; 1%nat := Done]}.

Lemma raced_reachable : rtc step (initial 2) raced.
Proof.
  assert (H2 : initial 2 = SetState false None {[0%nat := Start; 1%nat := Start]}) by reflexivity.
  rewrite H2.
  eapply rtc_l; [apply (step_parse _ 0); reflexivity|]. simpl.
  eapply rtc_l; [apply (step_parse _ 1); reflexivity|]. simpl.
  eapply rtc_l; [apply (step_win _ 0); reflexivity|]. simpl.
  eapply rtc_l; [apply (step_lose _ 1); reflexivity|]. simpl.
  replace raced with (SetState true None (<[1%nat:=Done]> (<[0%nat:=Won]> (<[1%nat:=Parsed]>
    (<[0%nat:=Parsed]> {[0%nat := Start; 1%nat := Start]}))))) by (vm_compute; reflexivity).
  constructor.
Qed.

Lemma init_publishes_once_witness :
  MethodIDList (SetState true (Some 0%nat) {[0%nat := Done; 1%nat := Done]}) = Some 0%nat /\
  Initialized (SetState true (Some 0%nat) {[0%nat := Done; 1%nat := Done]}) = true.
Proof.
  apply (init_publishes_once 2 (SetState true (Some 0%nat) {[0%nat := Done; 1%nat := Done]})).
  - eapply rtc_r; [exact raced_reachable|].
    replace (SetState true (Some 0%nat) {[0%nat := Done; 1%nat := Done]}) with
      (SetState (Initialized raced) (Some 0%nat) (<[0%nat := Done]> (threads raced)))
      by (vm_compute; reflexivity).
    apply (step_publish raced 0). reflexivity.
  - constructor.
  - reflexivity.
Defined.

(** The flag is set before the list is stored, so a thread that loses the
    exchange can be back from [init] while no list is published yet; the
    assertion of [contains] that the set is initialised then fails. *)
Theorem init_returns_uninitialized :
  exists s, rtc step (initial 2) s /\ threads s !! 1%nat = Some Done /\ isInitialized s = false.
Proof. exists raced. split; [exact raced_reachable|]. by vm_compute. Qed.
