(* ===== verification/IRBuilder.v ===== *)
(** * The IR the reader emits, and what it computes

    The reader's arithmetic handlers (lib/Reader/readerir.cpp) are compilers:
    they call LLVM's IRBuilder, and the code it builds runs later.  The model
    keeps both sides.  [emit] records the builder calls of a handler in order,
    each with its operands and the type of its result; [run] executes the
    recorded calls on concrete arguments.  What an LLVM instruction or a
    runtime helper computes is not in the repository: it is the class [LLVM],
    whose laws are the ones of the LLVM language reference and of the
    runtime's documentation of its helpers. *)

From S2P Require Import Prelude.

(** ** Types and values *)

(** The LLVM types the handlers tell apart ([Type::TypeID]); a structure or a
    function type is known by a number. *)
Inductive Ty : Set :=
  | VoidTy
  | IntegerTy (BitWidth : Z)
  | FloatTy
  | DoubleTy
  | PointerTy (ElementType : Ty) (AddressSpace : Z)
  | VectorTy (ElementType : Ty) (NumElements : Z)
  | ArrayTy (ElementType : Ty) (NumElements : Z)
  | StructTy (id : Z)
  | FunctionTy (id : Z).

#[export] Instance Ty_eq_dec : EqDecision Ty.
Proof. solve_decision. Defined.

Definition isIntegerTy (T : Ty) : bool := match T with IntegerTy _ => true | _ => false end.
Definition isPointerTy (T : Ty) : bool := match T with PointerTy _ _ => true | _ => false end.
Definition isFloatTy (T : Ty) : bool := match T with FloatTy => true | _ => false end.
Definition isDoubleTy (T : Ty) : bool := match T with DoubleTy => true | _ => false end.
Definition isFloatingPointTy (T : Ty) : bool := isFloatTy T || isDoubleTy T.

(** [getIntegerBitWidth]; on another type the cast asserts. *)
Definition getIntegerBitWidth (T : Ty) : option Z :=
  match T with IntegerTy w => Some w | _ => None end.

(** [getPrimitiveSizeInBits] of the scalar types; 0 for a pointer. *)
Definition getPrimitiveSizeInBits (T : Ty) : Z :=
  match T with IntegerTy w => w | FloatTy => 32 | DoubleTy => 64 | _ => 0 end.

(** An SSA value: an argument of the handler, a constant, or the result of
    the n-th recorded builder call. *)
Inductive Def : Set := Arg (n : nat) | Const (bits : Z) | Reg (n : nat).

Record Value := MkValue { def : Def; getType : Ty }.

Inductive Predicate : Set :=
  | ICMP_EQ | ICMP_NE | ICMP_SGT | ICMP_SGE | ICMP_SLT | ICMP_SLE
  | ICMP_UGT | ICMP_UGE | ICMP_ULT | ICMP_ULE
  | FCMP_OEQ | FCMP_OGT | FCMP_OGE | FCMP_OLT | FCMP_OLE
  | FCMP_UGT | FCMP_UGE | FCMP_ULT | FCMP_ULE | FCMP_UNE | FCMP_ONE.

Inductive BinaryOps : Set :=
  | IAdd | FAdd | ISub | FSub | IMul | FMul | UDiv | SDiv | FDiv
  | URem | SRem | FRem | Shl | LShr | AShr | IAnd | IOr | IXor.

Inductive IntrinsicID : Set :=
  | sadd_with_overflow | uadd_with_overflow | ssub_with_overflow
  | usub_with_overflow | smul_with_overflow | umul_with_overflow.

(** The intrinsics of one operand. *)
Inductive UnaryIntrinsic : Set := fabs | sqrt.

(** The runtime helpers these handlers call; the last constructor is one that
    the runtime chose and the reader knows by its number only. *)
Inductive CorInfoHelpFunc : Set :=
  | CORINFO_HELP_OVERFLOW | CORINFO_HELP_THROWDIVZERO
  | CORINFO_HELP_RNGCHKFAIL | CORINFO_HELP_THROWNULLREF
  | CORINFO_HELP_DBL2INT_OVF | CORINFO_HELP_DBL2UINT_OVF
  | CORINFO_HELP_DBL2LNG_OVF | CORINFO_HELP_DBL2ULNG_OVF
  | CORINFO_HELP_FLTREM | CORINFO_HELP_DBLREM
  | CORINFO_HELP_ARRADDR_ST | CORINFO_HELP_LDELEMA_REF
  | CORINFO_HELP_ASSIGN_REF | CORINFO_HELP_CHECKED_ASSIGN_REF
  | CORINFO_HELP_ASSIGN_STRUCT | CORINFO_HELP_MEMCPY | CORINFO_HELP_MEMSET
  | CORINFO_HELP_VIRTUAL_FUNC_PTR | CORINFO_HELP_READYTORUN_VIRTUAL_FUNC_PTR
  | CORINFO_HELP_READYTORUN_DELEGATE_CTOR
  | CORINFO_HELP_GETFIELDSTRUCT | CORINFO_HELP_SETFIELDSTRUCT
  | CORINFO_HELP_SETFIELD8 | CORINFO_HELP_SETFIELD16 | CORINFO_HELP_SETFIELD32
  | CORINFO_HELP_SETFIELD64 | CORINFO_HELP_SETFIELDOBJ
  | CORINFO_HELP_SETFIELDFLOAT | CORINFO_HELP_SETFIELDDOUBLE
  | CORINFO_HELP_GETREFANY | CORINFO_HELP_GETCLASSFROMMETHODPARAM
  | CORINFO_HELP_GETSYNCFROMCLASSHANDLE | CORINFO_HELP_METHODDESC_TO_STUBRUNTIMEMETHOD
  | CORINFO_HELP_FIELDDESC_TO_STUBRUNTIMEFIELD | CORINFO_HELP_TYPEHANDLE_TO_RUNTIMETYPE
  | CORINFO_HELP_READYTORUN_STATIC_BASE
  | CORINFO_HELP_STRCNS | CORINFO_HELP_MON_ENTER_STATIC | CORINFO_HELP_MON_EXIT_STATIC
  | CORINFO_HELP_MON_ENTER | CORINFO_HELP_MON_EXIT
  | CORINFO_HELP_GETSHARED_GCSTATIC_BASE | CORINFO_HELP_GETSHARED_NONGCSTATIC_BASE
  | CORINFO_HELP_GETSHARED_GCSTATIC_BASE_NOCTOR | CORINFO_HELP_GETSHARED_NONGCSTATIC_BASE_NOCTOR
  | CORINFO_HELP_GETSHARED_GCSTATIC_BASE_DYNAMICCLASS
  | CORINFO_HELP_GETSHARED_NONGCSTATIC_BASE_DYNAMICCLASS
  | CORINFO_HELP_GETSHARED_GCTHREADSTATIC_BASE | CORINFO_HELP_GETSHARED_NONGCTHREADSTATIC_BASE
  | CORINFO_HELP_GETSHARED_GCTHREADSTATIC_BASE_NOCTOR
  | CORINFO_HELP_GETSHARED_NONGCTHREADSTATIC_BASE_NOCTOR
  | CORINFO_HELP_GETSHARED_GCTHREADSTATIC_BASE_DYNAMICCLASS
  | CORINFO_HELP_GETSHARED_NONGCTHREADSTATIC_BASE_DYNAMICCLASS
  | CORINFO_HELP_NEW_MDARR | CORINFO_HELP_READYTORUN_NEW | CORINFO_HELP_READYTORUN_NEWARR_1
  | CORINFO_HELP_CHKCASTCLASS | CORINFO_HELP_CHKCASTCLASS_SPECIAL | CORINFO_HELP_ISINSTANCEOFCLASS
  | CORINFO_HELP_READYTORUN_CHKCAST | CORINFO_HELP_READYTORUN_ISINSTANCEOF
  | CORINFO_HELP_UNBOX | CORINFO_HELP_UNBOX_NULLABLE | CORINFO_HELP_THROW | CORINFO_HELP_RETHROW
  | CORINFO_HELP_USER_BREAKPOINT | CORINFO_HELP_INITCLASS | CORINFO_HELP_INITINSTCLASS
  | CORINFO_HELP_GETGENERICS_NONGCSTATIC_BASE | CORINFO_HELP_DELEGATE_SECURITY_CHECK
  | CORINFO_HELP_POLL_GC | CORINFO_HELP_TYPEHANDLE_TO_RUNTIMETYPE_MAYBENULL
  | CORINFO_HELP_OF_RUNTIME (Number : Z).

#[export] Instance CorInfoHelpFunc_eq_dec : EqDecision CorInfoHelpFunc.
Proof. solve_decision. Defined.

(** A recorded builder call.  [ConditionalThrow c h] is [genConditionalThrow]:
    a point block that calls the throwing helper [h] and is entered exactly
    when [c] holds; the code continues in a fresh block otherwise.
    [ConditionalCall] and [ConditionalLoad] are a point block that returns to
    the code, and the PHI of its result and another value.  A store ends a
    handler's work on memory: no handler loads behind one. *)
Inductive Instr : Set :=
  | CreateICmp (P : Predicate) (A B : Value)
  | CreateFCmp (P : Predicate) (A B : Value)
  | CreateIsNull (A : Value)
  | CreateIntCast (A : Value) (T : Ty) (IsSigned : bool)
  | CreatePtrToInt (A : Value) (T : Ty)
  | CreateIntToPtr (A : Value) (T : Ty)
  | CreatePointerCast (A : Value) (T : Ty)
  | CreateSIToFP (A : Value) (T : Ty)
  | CreateUIToFP (A : Value) (T : Ty)
  | CreateFPToSI (A : Value) (T : Ty)
  | CreateFPToUI (A : Value) (T : Ty)
  | CreateFPCast (A : Value) (T : Ty)
  | CreateFPExt (A : Value) (T : Ty)
  | CreateBitCast (A : Value) (T : Ty)
  | CreateBinOp (Op : BinaryOps) (A B : Value)
  | CreateNeg (A : Value)
  | CreateFNeg (A : Value)
  | CreateNot (A : Value)
  | CreateGEP (InBounds : bool) (Base Offset : Value)
  | CreateIndexedGEP (Base : Value) (Indices : list Value)
  | CreateElementGEP (Base Index : Value)
  | CreateLoad (Address : Value) (T : Ty) (IsVolatile : bool) (Align : option Z)
  | CreateStore (A Address : Value) (IsVolatile : bool) (Align : option Z)
  | CreateFence
  | CreateAlloca (T : Ty)
  | CreateAddrSpaceCast (A : Value) (T : Ty)
  | CallIntrinsic (Id : IntrinsicID) (A B : Value)
  | UndefVector (T : Ty)
  | CreateExtractElement (A Index : Value)
  | CreateInsertElement (A E : Value) (Index : Z)
  | VectorBinOp (Op : BinaryOps) (A B : Value)
  | VectorICmp (P : Predicate) (A B : Value)
  | VectorFCmp (P : Predicate) (A B : Value)
  | CreateSelect (C A B : Value)
  | VectorUnary (Op : UnaryIntrinsic) (A : Value)
  | VectorBitCast (A : Value) (T : Ty)
  | CallIndirect (Target : Value) (Args : list Value)
  | CreateAtomicCmpXchg (Address Expected New : Value)
  | CreateAtomicRMW (IsAdd : bool) (Address A : Value)
  | CreateArrayAlloca (T : Ty) (Count : Value)
  | CreateExtractValue (A : Value) (Index : Z)
  | CallHelper (H : CorInfoHelpFunc) (Args : list Value)
  | ConditionalThrow (Condition : Value) (H : CorInfoHelpFunc)
  | ConditionalCall (Condition : Value) (H : CorInfoHelpFunc) (Args : list Value) (Otherwise : Value)
  | ConditionalLoad (Condition Address : Value) (T : Ty) (Otherwise : Value).

(** ** Emission: a state monad over the recorded calls; [None] is a failed
    assertion of the compiler. *)

Definition M (A : Type) : Type := list Instr -> option (list Instr * A).

Definition ret {A} (a : A) : M A := fun s => Some (s, a).
Definition bind {A B} (m : M A) (f : A -> M B) : M B :=
  fun s => match m s with Some (s', a) => f a s' | None => None end.
Definition fail {A} : M A := fun _ => None.
Definition assert (b : bool) : M unit := if b then ret tt else fail.
Definition lift {A} (o : option A) : M A :=
  match o with Some a => ret a | None => fail end.

Declare Scope emit_scope.
Delimit Scope emit_scope with emit.
Notation "'let*' x := m 'in' k" := (bind m (fun x => k))
  (at level 200, x pattern, m at level 100, k at level 200) : emit_scope.
Notation "m ;* k" := (bind m (fun _ => k)) (at level 100, right associativity) : emit_scope.

(** Records a call whose result has type [T]. *)
Definition emit (i : Instr) (T : Ty) : M Value :=
  fun s => Some (s ++ [i], MkValue (Reg (length s)) T).

Definition genConditionalThrow (Condition : Value) (H : CorInfoHelpFunc) : M unit :=
  fun s => Some (s ++ [ConditionalThrow Condition H], tt).

Definition i1 : Ty := IntegerTy 1.
Definition getNullValue (T : Ty) : Value := MkValue (Const 0) T.
Definition ConstantInt (w bits : Z) : Value := MkValue (Const (wrap w bits)) (IntegerTy w).

(** ** Execution *)

(** A run-time value: an integer or an address by its bits, a floating-point
    value, or the pair an overflow intrinsic returns. *)
Inductive RVal (FP : Type) : Type :=
  | RInt (bits : Z)
  | RFP (f : FP)
  | RPair (bits : Z) (ovf : bool)
  | RVec (lanes : list (RVal FP))
  | RUndef.
Arguments RInt {FP}. Arguments RFP {FP}. Arguments RPair {FP}.
Arguments RVec {FP}. Arguments RUndef {FP}.

Inductive Outcome (FP : Type) : Type :=
  | Returns (v : RVal FP)
  | Throws (H : CorInfoHelpFunc)
  | Undefined.
Arguments Returns {FP}. Arguments Throws {FP}. Arguments Undefined {FP}.

Definition in_signed (w z : Z) : bool := (- 2 ^ (w - 1) <=? z) && (z <? 2 ^ (w - 1)).
Definition in_unsigned (w z : Z) : bool := (0 <=? z) && (z <? 2 ^ w).

(** The operations of the target: integers by their bits and width, pointers
    as integers of pointer width.  [None] is undefined behaviour or poison. *)
Class LLVM := {
  FP : Type;
  icmp : Predicate -> Z -> Z -> Z -> bool;
  fcmp : Predicate -> FP -> FP -> bool;
  int_cast : bool -> Z -> Z -> Z -> Z;
  si_to_fp : Ty -> Z -> Z -> FP;
  ui_to_fp : Ty -> Z -> Z -> FP;
  fp_to_si : Z -> FP -> option Z;
  fp_to_ui : Z -> FP -> option Z;
  fp_cast : Ty -> FP -> FP;
  fp_bits : FP -> Z;
  fp_of_bits : Ty -> Z -> FP;
  fp_neg : FP -> FP;
  fp_unary : UnaryIntrinsic -> FP -> FP;
  fp_binop : BinaryOps -> FP -> FP -> FP;
  int_binop : BinaryOps -> Z -> Z -> Z -> option Z;
  with_overflow : IntrinsicID -> Z -> Z -> Z -> Z * bool;
  gep : bool -> Z -> Z -> Z -> Z -> option Z;
  (** the elements and the layout of a structure, by its number; the content
      of the memory when the code starts, where an object of the type can be
      read; the address of a temporary; the objects in the memory *)
  struct_elements : Z -> list Ty;
  struct_packed : Z -> bool;
  struct_size : Z -> Z -> Z;
  struct_offset : Z -> Z -> Z -> Z;
  load : Ty -> Z -> option (RVal FP);
  (** whether the target does an access that breaks the alignment it promises:
      the language reference leaves it undefined, the scalar instructions of
      x86-64 do it *)
  misaligned_ok : bool;
  stack_slot : nat -> Z;
  allocated : Z -> Z -> bool;
  helper : CorInfoHelpFunc -> list (RVal FP) -> Outcome FP;
  (** the code at an address *)
  callee : Z -> list (RVal FP) -> Outcome FP;
  (** what the laws speak about: the integral part of a finite number, the
      rounding of an integer, and comparison with [None] for unordered *)
  fp_trunc : FP -> option Z;
  fp_round : Ty -> Z -> FP;
  fp_compare : FP -> FP -> option comparison
}.

(** [getTypeAllocSize], in bytes, for pointers of [P] bits and structures of
    the given sizes. *)
Fixpoint type_size (sizes : Z -> Z) (P : Z) (T : Ty) : Z :=
  match T with
  | VoidTy | FunctionTy _ => 0
  | IntegerTy w => if w <? 8 then 1 else w / 8
  | FloatTy => 4
  | DoubleTy => 8
  | PointerTy _ _ => P / 8
  | VectorTy E n | ArrayTy E n => n * type_size sizes P E
  | StructTy id => sizes id
  end.

Definition alloc_size {L : LLVM} (P : Z) : Ty -> Z := type_size (struct_size P) P.

Definition sum_sizes (l : list Z) : Z := foldr Z.add 0 l.

(** The byte offset of a getelementptr behind its first index: an index of an
    array or a vector is signed and counts elements, one of a structure
    selects an element. *)
Fixpoint gep_walk {L : LLVM} (P : Z) (T : Ty) (Indices : list Z) : option Z :=
  match Indices with
  | [] => Some 0
  | i :: Indices =>
      match T with
      | ArrayTy E _ | VectorTy E _ =>
          o ← gep_walk P E Indices; Some (i * alloc_size P E + o)
      | StructTy id =>
          E ← (if i <? 0 then None else struct_elements id !! Z.to_nat i);
          o ← gep_walk P E Indices; Some (struct_offset P id i + o)
      | _ => None
      end
  end.

Definition gep_offset {L : LLVM} (P : Z) (T : Ty) (Indices : list Z) : option Z :=
  match Indices with
  | [] => None
  | i :: Indices => o ← gep_walk P T Indices; Some (i * alloc_size P T + o)
  end.

(** The order of two integers a predicate asks for. *)
Definition icmp_spec (P : Predicate) (w x y : Z) : bool :=
  let sx := swrap w x in
  let sy := swrap w y in
  match P with
  | ICMP_EQ => x =? y
  | ICMP_NE => negb (x =? y)
  | ICMP_SGT => sy <? sx
  | ICMP_SGE => sy <=? sx
  | ICMP_SLT => sx <? sy
  | ICMP_SLE => sx <=? sy
  | ICMP_UGT => y <? x
  | ICMP_UGE => y <=? x
  | ICMP_ULT => x <? y
  | ICMP_ULE => x <=? y
  | _ => false
  end.

(** Ordered predicates are false and unordered ones true on a NaN. *)
Definition fcmp_spec (P : Predicate) (c : option comparison) : bool :=
  match P, c with
  | FCMP_OEQ, Some Eq => true
  | FCMP_OGT, Some Gt => true
  | FCMP_OGE, Some (Gt | Eq) => true
  | FCMP_OLT, Some Lt => true
  | FCMP_OLE, Some (Lt | Eq) => true
  | FCMP_UGT, (None | Some Gt) => true
  | FCMP_UGE, (None | Some (Gt | Eq)) => true
  | FCMP_ULT, (None | Some Lt) => true
  | FCMP_ULE, (None | Some (Lt | Eq)) => true
  | FCMP_UNE, (None | Some (Lt | Gt)) => true
  | FCMP_ONE, Some (Lt | Gt) => true
  | _, _ => false
  end.

(** Division overflows on the least integer and -1. *)
Definition division_overflows (w x y : Z) : bool :=
  (swrap w x =? - 2 ^ (w - 1)) && (swrap w y =? -1).

Definition int_binop_spec (Op : BinaryOps) (w x y : Z) : option Z :=
  let sx := swrap w x in
  let sy := swrap w y in
  match Op with
  | IAdd => Some (wrap w (x + y))
  | ISub => Some (wrap w (x - y))
  | IMul => Some (wrap w (x * y))
  | IAnd => Some (Z.land x y)
  | IOr => Some (Z.lor x y)
  | IXor => Some (Z.lxor x y)
  | UDiv => if y =? 0 then None else Some (x / y)
  | URem => if y =? 0 then None else Some (x mod y)
  | SDiv => if (y =? 0) || division_overflows w x y then None
            else Some (wrap w (Z.quot sx sy))
  | SRem => if (y =? 0) || division_overflows w x y then None
            else Some (wrap w (Z.rem sx sy))
  | Shl => if y <? w then Some (wrap w (Z.shiftl x y)) else None
  | LShr => if y <? w then Some (Z.shiftr x y) else None
  | AShr => if y <? w then Some (wrap w (Z.shiftr sx y)) else None
  | FAdd | FSub | FMul | FDiv | FRem => None
  end.

Definition with_overflow_spec (Id : IntrinsicID) (w x y : Z) : Z * bool :=
  let sx := swrap w x in
  let sy := swrap w y in
  match Id with
  | sadd_with_overflow => (wrap w (sx + sy), negb (in_signed w (sx + sy)))
  | uadd_with_overflow => (wrap w (x + y), negb (in_unsigned w (x + y)))
  | ssub_with_overflow => (wrap w (sx - sy), negb (in_signed w (sx - sy)))
  | usub_with_overflow => (wrap w (x - y), negb (in_unsigned w (x - y)))
  | smul_with_overflow => (wrap w (sx * sy), negb (in_signed w (sx * sy)))
  | umul_with_overflow => (wrap w (x * y), negb (in_unsigned w (x * y)))
  end.

(** A checked conversion helper: the integral part of the argument when it is
    in range, an overflow exception otherwise (NaN and infinities included). *)
Definition checked_double (in_range : Z -> bool) (w : Z) (t : option Z) {FP} : Outcome FP :=
  match t with
  | Some z => if in_range z then Returns (RInt (wrap w z)) else Throws CORINFO_HELP_OVERFLOW
  | None => Throws CORINFO_HELP_OVERFLOW
  end.

(** The documented behaviour the handlers rely on. *)
Class LLVMLaws (L : LLVM) : Prop := {
  icmp_law : forall P w x y, icmp P w x y = icmp_spec P w x y;
  fcmp_law : forall P f g, fcmp P f g = fcmp_spec P (fp_compare f g);
  int_cast_law : forall s w w' x,
    int_cast s w w' x = wrap w' (if s then swrap w x else x);
  si_to_fp_law : forall T w x, si_to_fp T w x = fp_round T (swrap w x);
  ui_to_fp_law : forall T w x, ui_to_fp T w x = fp_round T x;
  fp_to_si_law : forall w f,
    fp_to_si w f = z ← fp_trunc f; if in_signed w z then Some (wrap w z) else None;
  fp_to_ui_law : forall w f,
    fp_to_ui w f = z ← fp_trunc f; if in_unsigned w z then Some z else None;
  fp_widen_law : forall f, fp_trunc (fp_cast DoubleTy f) = fp_trunc f;
  int_binop_law : forall Op w x y, int_binop Op w x y = int_binop_spec Op w x y;
  with_overflow_law : forall Id w x y, with_overflow Id w x y = with_overflow_spec Id w x y;
  gep_law : forall inb P p w x r,
    gep inb P p w x = Some r -> r = wrap P (p + swrap w x);
  gep_defined : forall P p w x, is_Some (gep false P p w x);
  gep_inbounds_law : forall P a n p w x,
    allocated a n = true -> a <= p <= a + n -> a <= wrap P (p + swrap w x) <= a + n ->
    is_Some (gep true P p w x);
  struct_offset_law : forall P id i, struct_packed id = true ->
    0 <= i <= Z.of_nat (length (struct_elements id)) ->
    struct_offset P id i = sum_sizes (alloc_size P <$> take (Z.to_nat i) (struct_elements id));
  dbl2int_law : forall f,
    helper CORINFO_HELP_DBL2INT_OVF [RFP f] = checked_double (in_signed 32) 32 (fp_trunc f);
  dbl2uint_law : forall f,
    helper CORINFO_HELP_DBL2UINT_OVF [RFP f] = checked_double (in_unsigned 32) 32 (fp_trunc f);
  dbl2lng_law : forall f,
    helper CORINFO_HELP_DBL2LNG_OVF [RFP f] = checked_double (in_signed 64) 64 (fp_trunc f);
  dbl2ulng_law : forall f,
    helper CORINFO_HELP_DBL2ULNG_OVF [RFP f] = checked_double (in_unsigned 64) 64 (fp_trunc f);
  fltrem_law : forall f g,
    helper CORINFO_HELP_FLTREM [RFP f; RFP g] = Returns (RFP (fp_binop FRem f g));
  dblrem_law : forall f g,
    helper CORINFO_HELP_DBLREM [RFP f; RFP g] = Returns (RFP (fp_binop FRem f g))
}.

(** The recorded calls run in order.  Every call fills a register, an effect
    with a dummy, so that register numbers are positions. *)
Section run.
Context {L : LLVM} (TargetPointerSizeInBits : Z) (args : list (RVal FP)).

Definition value_of (regs : list (RVal FP)) (v : Value) : option (RVal FP) :=
  match def v with
  | Arg n => args !! n
  | Const z => Some (RInt z)
  | Reg n => regs !! n
  end.

Definition width (T : Ty) : Z :=
  match T with IntegerTy w => w | PointerTy _ _ => TargetPointerSizeInBits | _ => 0 end.

Definition int_of (regs : list (RVal FP)) (v : Value) : option Z :=
  match value_of regs v with Some (RInt z) => Some z | _ => None end.
Definition fp_of (regs : list (RVal FP)) (v : Value) : option FP :=
  match value_of regs v with Some (RFP f) => Some f | _ => None end.

(** An access that promises an alignment, at an address; 0 promises nothing. *)
Definition promise_kept (Align : option Z) (p : Z) : bool :=
  match Align with Some n => (n =? 0) || (p mod n =? 0) | None => true end.

Definition access_defined (Align : option Z) (p : Z) : bool := promise_kept Align p || misaligned_ok.

(** Is the value held in a floating-point register? *)
Definition is_fp (v : Value) : bool := isFloatingPointTy (getType v).

Definition outcome_of (o : option (RVal FP)) : Outcome FP :=
  match o with Some v => Returns v | None => Undefined end.

(** ** Vectors, lane by lane *)

Definition lanes_of (regs : list (RVal FP)) (v : Value) : option (list (RVal FP)) :=
  match value_of regs v with Some (RVec l) => Some l | _ => None end.

Definition element_type (T : Ty) : Ty := match T with VectorTy E _ => E | _ => VoidTy end.

(** An operation on each pair of lanes of two vectors of one length. *)
Fixpoint map_lanes (f : RVal FP -> RVal FP -> option (RVal FP)) (xs ys : list (RVal FP)) :
    option (list (RVal FP)) :=
  match xs, ys with
  | [], [] => Some []
  | x :: xs, y :: ys => z ← f x y; zs ← map_lanes f xs ys; Some (z :: zs)
  | _, _ => None
  end.

Definition lane_op (Op : BinaryOps) (E : Ty) (x y : RVal FP) : option (RVal FP) :=
  match x, y with
  | RInt x, RInt y => z ← int_binop Op (width E) x y; Some (RInt z)
  | RFP f, RFP g => Some (RFP (fp_binop Op f g))
  | _, _ => None
  end.

Definition lane_cmp (P : Predicate) (E : Ty) (x y : RVal FP) : option (RVal FP) :=
  match x, y with
  | RInt x, RInt y => Some (RInt (Z.b2z (icmp P (width E) x y)))
  | RFP f, RFP g => Some (RInt (Z.b2z (fcmp P f g)))
  | _, _ => None
  end.

(** The lanes of the first vector where the condition holds. *)
Fixpoint select_lanes (cs xs ys : list (RVal FP)) : option (list (RVal FP)) :=
  match cs, xs, ys with
  | [], [], [] => Some []
  | RInt c :: cs, x :: xs, y :: ys =>
      zs ← select_lanes cs xs ys; Some ((if c =? 0 then y else x) :: zs)
  | _, _, _ => None
  end.

(** *** Casts between vectors of one size, for elements of 32 bits and doubles:
    the words of 32 bits of a vector, lower ones first, and the vector of given
    words. *)

Definition lane_words (E : Ty) (x : RVal FP) : option (list Z) :=
  match E, x with
  | IntegerTy w, RInt z => if w =? 32 then Some [z] else None
  | FloatTy, RFP f => Some [fp_bits f]
  | DoubleTy, RFP f => Some [fp_bits f mod 2 ^ 32; fp_bits f / 2 ^ 32]
  | _, _ => None
  end.

Fixpoint vector_words (E : Ty) (xs : list (RVal FP)) : option (list Z) :=
  match xs with
  | [] => Some []
  | x :: xs => w ← lane_words E x; ws ← vector_words E xs; Some (w ++ ws)
  end.

Fixpoint lanes_from (E : Ty) (ws : list Z) : option (list (RVal FP)) :=
  match ws with
  | [] => Some []
  | w :: ws =>
      match E with
      | IntegerTy n => if n =? 32 then l ← lanes_from E ws; Some (RInt w :: l) else None
      | FloatTy => l ← lanes_from E ws; Some (RFP (fp_of_bits FloatTy w) :: l)
      | DoubleTy =>
          match ws with
          | w' :: ws => l ← lanes_from E ws; Some (RFP (fp_of_bits DoubleTy (w + 2 ^ 32 * w')) :: l)
          | [] => None
          end
      | _ => None
      end
  end.

Definition bitcast_lanes (A T : Ty) (xs : list (RVal FP)) : option (list (RVal FP)) :=
  match T with
  | VectorTy E n =>
      ws ← vector_words (element_type A) xs; l ← lanes_from E ws;
      if Z.of_nat (length l) =? n then Some l else None
  | _ => None
  end.

Definition exec_instr (regs : list (RVal FP)) (i : Instr) : Outcome FP :=
  match i with
  | CreateICmp P A B => outcome_of
      (x ← int_of regs A; y ← int_of regs B;
       Some (RInt (Z.b2z (icmp P (width (getType A)) x y))))
  | CreateFCmp P A B => outcome_of
      (f ← fp_of regs A; g ← fp_of regs B; Some (RInt (Z.b2z (fcmp P f g))))
  | CreateIsNull A => outcome_of
      (x ← int_of regs A; Some (RInt (Z.b2z (icmp ICMP_EQ (width (getType A)) x 0))))
  | CreateFence => Returns (RInt 0)
  | CreateAlloca _ => Returns (RInt (stack_slot (length regs)))
  | CreateAddrSpaceCast A _ => outcome_of (value_of regs A)
  | CreateIntCast A T s => outcome_of
      (x ← int_of regs A; Some (RInt (int_cast s (width (getType A)) (width T) x)))
  | CreatePtrToInt A T | CreateIntToPtr A T | CreatePointerCast A T => outcome_of
      (x ← int_of regs A; Some (RInt (int_cast false (width (getType A)) (width T) x)))
  | CreateSIToFP A T => outcome_of
      (x ← int_of regs A; Some (RFP (si_to_fp T (width (getType A)) x)))
  | CreateUIToFP A T => outcome_of
      (x ← int_of regs A; Some (RFP (ui_to_fp T (width (getType A)) x)))
  | CreateFPToSI A T => outcome_of
      (f ← fp_of regs A; z ← fp_to_si (width T) f; Some (RInt z))
  | CreateFPToUI A T => outcome_of
      (f ← fp_of regs A; z ← fp_to_ui (width T) f; Some (RInt z))
  | CreateFPCast A T | CreateFPExt A T => outcome_of (f ← fp_of regs A; Some (RFP (fp_cast T f)))
  | CreateBitCast A T =>
      if is_fp A then outcome_of (f ← fp_of regs A; Some (RInt (fp_bits f)))
      else outcome_of (value_of regs A)
  | CreateBinOp Op A B =>
      if is_fp A
      then outcome_of (f ← fp_of regs A; g ← fp_of regs B; Some (RFP (fp_binop Op f g)))
      else outcome_of (x ← int_of regs A; y ← int_of regs B;
             z ← int_binop Op (width (getType A)) x y; Some (RInt z))
  | CreateNeg A => outcome_of
      (x ← int_of regs A; z ← int_binop ISub (width (getType A)) 0 x; Some (RInt z))
  | CreateFNeg A => outcome_of (f ← fp_of regs A; Some (RFP (fp_neg f)))
  | CreateNot A => outcome_of
      (x ← int_of regs A;
       z ← int_binop IXor (width (getType A)) x (2 ^ width (getType A) - 1); Some (RInt z))
  | CreateGEP inb Base Offset => outcome_of
      (p ← int_of regs Base; x ← int_of regs Offset;
       z ← gep inb TargetPointerSizeInBits p (width (getType Offset)) x; Some (RInt z))
  | CreateIndexedGEP Base Indices => outcome_of
      (p ← int_of regs Base;
       Is ← mapM (fun v => x ← int_of regs v; Some (swrap (width (getType v)) x)) Indices;
       match getType Base with
       | PointerTy T _ =>
           x ← gep_offset TargetPointerSizeInBits T Is;
           z ← gep true TargetPointerSizeInBits p TargetPointerSizeInBits
                 (wrap TargetPointerSizeInBits x);
           Some (RInt z)
       | _ => None
       end)
  | CreateElementGEP Base Index => outcome_of
      (p ← int_of regs Base; x ← int_of regs Index;
       match getType Base with
       | PointerTy T _ =>
           z ← gep false TargetPointerSizeInBits p TargetPointerSizeInBits
                 (wrap TargetPointerSizeInBits
                    (swrap (width (getType Index)) x * alloc_size TargetPointerSizeInBits T));
           Some (RInt z)
       | _ => None
       end)
  | CreateLoad A T _ Align => outcome_of
      (p ← int_of regs A; if access_defined Align p then load T p else None)
  | CreateStore A B _ Align => outcome_of
      (_ ← value_of regs A; p ← int_of regs B;
       if access_defined Align p then Some (RInt 0) else None)
  | CallIntrinsic Id A B => outcome_of
      (x ← int_of regs A; y ← int_of regs B;
       Some (let '(z, o) := with_overflow Id (width (getType A)) x y in RPair z o))
  | CreateExtractValue A Index => outcome_of
      (match value_of regs A with
       | Some (RPair z o) => Some (RInt (if Index =? 0 then z else Z.b2z o))
       | _ => None
       end)
  | UndefVector T => outcome_of
      (match T with VectorTy _ n => Some (RVec (replicate (Z.to_nat n) RUndef)) | _ => None end)
  | CreateExtractElement A Index => outcome_of
      (l ← lanes_of regs A; i ← int_of regs Index; if i <? 0 then None else l !! Z.to_nat i)
  | CreateInsertElement A E Index => outcome_of
      (l ← lanes_of regs A; x ← value_of regs E;
       if (0 <=? Index) && (Index <? Z.of_nat (length l))
       then Some (RVec (<[Z.to_nat Index := x]> l)) else None)
  | VectorBinOp Op A B => outcome_of
      (xs ← lanes_of regs A; ys ← lanes_of regs B;
       l ← map_lanes (lane_op Op (element_type (getType A))) xs ys; Some (RVec l))
  | VectorICmp P A B | VectorFCmp P A B => outcome_of
      (xs ← lanes_of regs A; ys ← lanes_of regs B;
       l ← map_lanes (lane_cmp P (element_type (getType A))) xs ys; Some (RVec l))
  | CreateSelect C A B => outcome_of
      (cs ← lanes_of regs C; xs ← lanes_of regs A; ys ← lanes_of regs B;
       l ← select_lanes cs xs ys; Some (RVec l))
  | VectorUnary Op A => outcome_of
      (match value_of regs A with
       | Some (RVec xs) =>
           l ← mapM (fun x => match x with RFP f => Some (RFP (fp_unary Op f)) | _ => None end) xs;
           Some (RVec l)
       | Some (RFP f) => Some (RFP (fp_unary Op f))
       | _ => None
       end)
  | VectorBitCast A T => outcome_of
      (xs ← lanes_of regs A; l ← bitcast_lanes (getType A) T xs; Some (RVec l))
  | CallIndirect Target As =>
      match int_of regs Target, mapM (value_of regs) As with
      | Some t, Some vs => callee t vs
      | _, _ => Undefined
      end
  | CreateAtomicCmpXchg A E New => outcome_of
      (p ← int_of regs A; x ← int_of regs E; _ ← int_of regs New;
       match load (getType E) p with Some (RInt z) => Some (RPair z (z =? x)) | _ => None end)
  | CreateAtomicRMW _ A B => outcome_of
      (p ← int_of regs A; _ ← int_of regs B; load (getType B) p)
  | CreateArrayAlloca _ Count => outcome_of
      (_ ← int_of regs Count; Some (RInt (stack_slot (length regs))))
  | CallHelper H As =>
      match mapM (value_of regs) As with
      | Some vs => helper H vs
      | None => Undefined
      end
  | ConditionalThrow C H =>
      match int_of regs C with
      | Some c => if c =? 0 then Returns (RInt 0) else Throws H
      | None => Undefined
      end
  | ConditionalCall C H As Otherwise =>
      match int_of regs C, mapM (value_of regs) As with
      | Some c, Some vs => if c =? 0 then outcome_of (value_of regs Otherwise) else helper H vs
      | _, _ => Undefined
      end
  | ConditionalLoad C A T Otherwise => outcome_of
      (c ← int_of regs C; p ← int_of regs A;
       if c =? 0 then value_of regs Otherwise else load T p)
  end.

Fixpoint exec (code : list Instr) (regs : list (RVal FP)) : list (RVal FP) + Outcome FP :=
  match code with
  | [] => inl regs
  | i :: code' =>
      match exec_instr regs i with
      | Returns v => exec code' (regs ++ [v])
      | o => inr o
      end
  end.

(** Compiles with [m] and runs what it emitted; the result is the value
    [m] returned.  [None]: the compiler's assertion failed. *)
Definition run (m : M Value) : option (Outcome FP) :=
  match m [] with
  | Some (code, v) =>
      Some (match exec code [] with
            | inl regs => outcome_of (value_of regs v)
            | inr o => o
            end)
  | None => None
  end.
End run.

(** ** Running recorded code *)

Lemma run_eq {L : LLVM} (P : Z) (args : list (RVal FP)) (m : M Value) (code : list Instr) (v : Value) :
  m [] = Some (code, v) ->
  run P args m = Some (match exec P args code [] with
                       | inl regs => outcome_of (value_of args regs v)
                       | inr o => o
                       end).
Proof. intros H. unfold run. by rewrite H. Qed.

(** Replaces a [run] whose compilation is closed by the run of its code. *)
Ltac compile :=
  match goal with
  | |- context [run ?P ?args ?m] =>
      let r := eval vm_compute in (m []) in
      match r with
      | Some (?code, ?v) => rewrite (run_eq P args m code v) by (vm_compute; reflexivity)
      end
  end.

Create HintDb llvm.
#[export] Hint Rewrite @icmp_law @fcmp_law @int_cast_law @si_to_fp_law @ui_to_fp_law
  @fp_to_si_law @fp_to_ui_law @fp_widen_law @int_binop_law @with_overflow_law
  @dbl2int_law @dbl2uint_law @dbl2lng_law @dbl2ulng_law @fltrem_law @dblrem_law
  using assumption : llvm.

(** ** Signed and unsigned readings *)

Lemma swrap_cases (w x : Z) :
  0 < w -> 0 <= x < 2 ^ w ->
  swrap w x = if x <? 2 ^ (w - 1) then x else x - 2 ^ w.
Proof. intros Hw Hx. unfold swrap. by rewrite Z.mod_small by lia. Qed.

Lemma in_signed_spec (w z : Z) : in_signed w z = true <-> - 2 ^ (w - 1) <= z < 2 ^ (w - 1).
Proof. unfold in_signed. rewrite andb_true_iff, Z.leb_le, Z.ltb_lt. done. Qed.

Lemma in_unsigned_spec (w z : Z) : in_unsigned w z = true <-> 0 <= z < 2 ^ w.
Proof. unfold in_unsigned. rewrite andb_true_iff, Z.leb_le, Z.ltb_lt. done. Qed.

(** Cutting to fewer bits forgets an earlier cut to more. *)
Lemma wrap_wrap_le (w w' z : Z) : 0 <= w' <= w -> wrap w' (wrap w z) = wrap w' z.
Proof.
  intros H. unfold wrap. symmetry.
  rewrite (Z.mod_eq z (2 ^ w)) by lia.
  replace (2 ^ w) with (2 ^ w' * 2 ^ (w - w')) by (rewrite <- Z.pow_add_r by lia; f_equal; lia).
  rewrite <- Z.mul_assoc, Zminus_mod, (Z.mul_comm (2 ^ w')), Z_mod_mult, Z.sub_0_r.
  by rewrite Z.mod_mod by lia.
Qed.

Lemma wrap_swrap_le (w w' z : Z) : 0 <= w' <= w -> wrap w' (swrap w z) = wrap w' z.
Proof.
  intros H. rewrite <- (wrap_wrap_le w w' z) by done.
  unfold swrap. fold (wrap w z). destruct (wrap w z <? 2 ^ (w - 1)); [done|].
  rewrite <- (wrap_wrap_le w w' (_ - _)), <- (wrap_wrap_le w w' (wrap w z)) by done. f_equal.
  unfold wrap. rewrite Zminus_mod, Z_mod_same_full, Z.sub_0_r. apply Z.mod_mod. lia.
Qed.

Lemma swrap_of_wrap (w z : Z) : swrap w z = let r := wrap w z in if r <? 2 ^ (w - 1) then r else r - 2 ^ w.
Proof. done. Qed.

Lemma swrap_wrap_le (w w' z : Z) : 0 <= w' <= w -> swrap w' (wrap w z) = swrap w' z.
Proof. intros H. by rewrite !swrap_of_wrap, wrap_wrap_le. Qed.

Lemma swrap_swrap_le (w w' z : Z) : 0 <= w' <= w -> swrap w' (swrap w z) = swrap w' z.
Proof. intros H. by rewrite (swrap_of_wrap w'), wrap_swrap_le. Qed.

Lemma swrap_range (w z : Z) : 0 < w -> - 2 ^ (w - 1) <= swrap w z < 2 ^ (w - 1).
Proof.
  intros H. rewrite swrap_of_wrap. cbn zeta.
  pose proof (wrap_range w z ltac:(lia)).
  assert (2 ^ w = 2 * 2 ^ (w - 1)) by (rewrite <- Z.pow_succ_r by lia; f_equal; lia).
  destruct (Z.ltb_spec (wrap w z) (2 ^ (w - 1))); lia.
Qed.

Lemma wrap_negative (w z : Z) : 0 <= w -> - 2 ^ w <= z < 0 -> wrap w z = z + 2 ^ w.
Proof. intros Hw Hz. symmetry. apply (Z.mod_unique _ _ (-1)); lia. Qed.

(** Operations on cut operands. *)
Lemma wrap_add (w a b : Z) : wrap w (wrap w a + wrap w b) = wrap w (a + b).
Proof. unfold wrap. symmetry. apply Zplus_mod. Qed.
Lemma wrap_sub (w a b : Z) : wrap w (wrap w a - wrap w b) = wrap w (a - b).
Proof. unfold wrap. symmetry. apply Zminus_mod. Qed.
Lemma wrap_mul (w a b : Z) : wrap w (wrap w a * wrap w b) = wrap w (a * b).
Proof. unfold wrap. symmetry. apply Zmult_mod. Qed.

Lemma wrap_testbit (w z i : Z) : 0 <= w -> 0 <= i -> Z.testbit (wrap w z) i = (i <? w) && Z.testbit z i.
Proof.
  intros Hw Hi. unfold wrap. destruct (Z.ltb_spec i w); cbn [andb].
  - by apply Z.mod_pow2_bits_low.
  - by apply Z.mod_pow2_bits_high.
Qed.

Ltac bitwise := intros; apply Z.bits_inj'; intros;
  rewrite ?Z.land_spec, ?Z.lor_spec, ?Z.lxor_spec, ?wrap_testbit, ?Z.land_spec, ?Z.lor_spec,
    ?Z.lxor_spec by lia;
  repeat match goal with |- context [Z.testbit ?z ?i] => destruct (Z.testbit z i) end;
  by repeat match goal with |- context [?a <? ?b] => destruct (a <? b) end.

Lemma wrap_land (w a b : Z) : 0 <= w -> Z.land (wrap w a) (wrap w b) = wrap w (Z.land a b).
Proof. bitwise. Qed.
Lemma wrap_lor (w a b : Z) : 0 <= w -> Z.lor (wrap w a) (wrap w b) = wrap w (Z.lor a b).
Proof. bitwise. Qed.
Lemma wrap_lxor (w a b : Z) : 0 <= w -> Z.lxor (wrap w a) (wrap w b) = wrap w (Z.lxor a b).
Proof. bitwise. Qed.

(** A value in the signed or the unsigned range is zero when its bits are. *)
Lemma wrap_eqb_0 (w z : Z) : 0 <= w -> - 2 ^ w < z < 2 ^ w -> (wrap w z =? 0) = (z =? 0).
Proof.
  intros Hw Hz. destruct (Z.lt_ge_cases z 0).
  - rewrite wrap_negative by lia. destruct (Z.eqb_spec (z + 2 ^ w) 0), (Z.eqb_spec z 0); lia.
  - by rewrite wrap_small by lia.
Qed.

Create HintDb modular.
#[export] Hint Rewrite wrap_add wrap_sub wrap_mul : modular.
#[export] Hint Rewrite wrap_land wrap_lor wrap_lxor wrap_eqb_0 using lia : modular.
#[export] Hint Rewrite wrap_wrap_le wrap_swrap_le swrap_wrap_le swrap_swrap_le
  using lia : modular.

Lemma swrap_large (w z : Z) : 0 < w -> 2 ^ (w - 1) <= z < 2 ^ w -> swrap w z = z - 2 ^ w.
Proof.
  intros Hw Hz. rewrite swrap_cases by (assert (0 < 2 ^ (w - 1)) by lia; lia).
  destruct (Z.ltb_spec z (2 ^ (w - 1))); lia.
Qed.

(** Removes cuts whose value the context determines. *)
Ltac uncut := repeat match goal with
  | |- context [swrap ?w ?z] => rewrite (swrap_small w z) by lia
  | |- context [wrap ?w ?z] => rewrite (wrap_small w z) by lia
  | |- context [wrap ?w ?z] => rewrite (wrap_negative w z) by lia
  | |- context [swrap ?w ?z] => rewrite (swrap_large w z) by lia
  end.

(** Merges nested cuts wherever the inner one is at least as wide. *)
Ltac merge_cuts := repeat match goal with
  | |- context [wrap ?w' (swrap ?w ?z)] => rewrite (wrap_swrap_le w w' z) by lia
  | |- context [wrap ?w' (wrap ?w ?z)] => rewrite (wrap_wrap_le w w' z) by lia
  | |- context [swrap ?w' (swrap ?w ?z)] => rewrite (swrap_swrap_le w w' z) by lia
  | |- context [swrap ?w' (wrap ?w ?z)] => rewrite (swrap_wrap_le w w' z) by lia
  end.

(** A Boolean cast to an integer and tested again. *)
Lemma b2z_eqb_0 (b : bool) : (Z.b2z b =? 0) = negb b.
Proof. by destruct b. Qed.

(** ** An instance: the operations as the laws give them, with the integers
    and a NaN for floating-point numbers. *)

Definition demo_compare (f g : option Z) : option comparison :=
  match f, g with Some a, Some b => Some (a ?= b) | _, _ => None end.

Definition demo_binop (Op : BinaryOps) (f g : option Z) : option Z :=
  a ← f; b ← g;
  match Op with
  | FAdd => Some (a + b)
  | FSub => Some (a - b)
  | FMul => Some (a * b)
  | FDiv => if b =? 0 then None else Some (Z.quot a b)
  | FRem => if b =? 0 then None else Some (Z.rem a b)
  | _ => None
  end.

Definition demo_helper (H : CorInfoHelpFunc) (args : list (RVal (option Z))) : Outcome (option Z) :=
  match H, args with
  | CORINFO_HELP_DBL2INT_OVF, [RFP f] => checked_double (in_signed 32) 32 f
  | CORINFO_HELP_DBL2UINT_OVF, [RFP f] => checked_double (in_unsigned 32) 32 f
  | CORINFO_HELP_DBL2LNG_OVF, [RFP f] => checked_double (in_signed 64) 64 f
  | CORINFO_HELP_DBL2ULNG_OVF, [RFP f] => checked_double (in_unsigned 64) 64 f
  | (CORINFO_HELP_FLTREM | CORINFO_HELP_DBLREM), [RFP f; RFP g] => Returns (RFP (demo_binop FRem f g))
  | (CORINFO_HELP_MEMCPY | CORINFO_HELP_ASSIGN_REF | CORINFO_HELP_CHECKED_ASSIGN_REF), _ => Returns (RInt 0)
  | _, _ => Throws H
  end.

(** The instance has a memory (what an address holds for a type), objects and
    packed structures that do not contain each other. *)
Definition DemoMemory (elements : Z -> list Ty) (mem : Ty -> Z -> option (RVal (option Z)))
    (objects : Z -> Z -> bool) : LLVM := {|
  FP := option Z;
  icmp := icmp_spec;
  fcmp := fun P f g => fcmp_spec P (demo_compare f g);
  int_cast := fun s w w' x => wrap w' (if s then swrap w x else x);
  si_to_fp := fun _ w x => Some (swrap w x);
  ui_to_fp := fun _ _ x => Some x;
  fp_to_si := fun w f => z ← f; if in_signed w z then Some (wrap w z) else None;
  fp_to_ui := fun w f => z ← f; if in_unsigned w z then Some z else None;
  fp_cast := fun _ f => f;
  fp_bits := fun f => match f with Some _ => 0 | None => 0x7FF8000000000000 end;
  fp_of_bits := fun _ z => if z =? 0 then Some 0 else None;
  fp_neg := fun f => z ← f; Some (- z);
  fp_unary := fun Op f => z ← f; Some (match Op with fabs => Z.abs z | sqrt => Z.sqrt z end);
  fp_binop := demo_binop;
  int_binop := int_binop_spec;
  with_overflow := with_overflow_spec;
  gep := fun _ P p w x => Some (wrap P (p + swrap w x));
  struct_elements := elements;
  struct_packed := fun _ => true;
  struct_size := fun _ _ => 0;
  struct_offset := fun P id i =>
    sum_sizes (type_size (fun _ => 0) P <$> take (Z.to_nat i) (elements id));
  load := mem;
  misaligned_ok := true;
  stack_slot := fun n => 2 ^ 20 + 16 * Z.of_nat n;
  allocated := objects;
  helper := demo_helper;
  callee := fun t _ => Returns (RInt t);
  fp_trunc := fun f => f;
  fp_round := fun _ z => Some z;
  fp_compare := demo_compare
|}.

Lemma DemoMemory_laws elements mem objects : LLVMLaws (DemoMemory elements mem objects).
Proof. split; try done. intros inb P p w x r H. by injection H as <-. Qed.

Definition DemoLLVM : LLVM := DemoMemory (fun _ => []) (fun _ _ => None) (fun _ _ => false).

Lemma DemoLLVM_laws : LLVMLaws DemoLLVM.
Proof. apply DemoMemory_laws. Qed.
