(* ===== verification/GenIRTypes.v ===== *)
(** * Types on the evaluation stack (lib/Reader/readerir.cpp)

    The runtime's primitive types, their sizes in memory and on the stack, and
    the conversions between a stack slot and a variable: [getType] for the
    types without a class, [stackSize], [size], [isSigned],
    [convertToStackType] and [convertFromStackType]. *)

From S2P Require Import Prelude IRBuilder.

Module GenIR.

(** The constructors of the runtime's [CorInfoType] that the reader names. *)
Inductive CorInfoType : Set :=
  | CORINFO_TYPE_UNDEF | CORINFO_TYPE_VOID | CORINFO_TYPE_BOOL | CORINFO_TYPE_CHAR
  | CORINFO_TYPE_BYTE | CORINFO_TYPE_UBYTE | CORINFO_TYPE_SHORT | CORINFO_TYPE_USHORT
  | CORINFO_TYPE_INT | CORINFO_TYPE_UINT | CORINFO_TYPE_LONG | CORINFO_TYPE_ULONG
  | CORINFO_TYPE_NATIVEINT | CORINFO_TYPE_NATIVEUINT | CORINFO_TYPE_FLOAT
  | CORINFO_TYPE_DOUBLE | CORINFO_TYPE_PTR | CORINFO_TYPE_BYREF
  | CORINFO_TYPE_VALUECLASS | CORINFO_TYPE_CLASS | CORINFO_TYPE_REFANY
  | CORINFO_TYPE_STRING | CORINFO_TYPE_VAR.

#[export] Instance CorInfoType_eq_dec : EqDecision CorInfoType.
Proof. solve_decision. Defined.

(** [GcInfo::ManagedAddressSpace]. *)
Definition ManagedAddressSpace : Z := 1.

Definition isGcPointer (T : Ty) : bool :=
  match T with PointerTy _ s => s =? ManagedAddressSpace | _ => false end.

(** [GcInfo::UnmanagedAddressSpace] is 0. *)
Definition getManagedPointerType (T : Ty) : Ty := PointerTy T ManagedAddressSpace.
Definition getUnmanagedPointerType (T : Ty) : Ty := PointerTy T 0.

Definition isUnmanagedPointer (T : Ty) : bool := isPointerTy T && negb (isGcPointer T).

Section types.
Variable TargetPointerSizeInBits : Z.

(** [getType] for a null class handle; the types that need one assert. *)
Definition getType (CorType : CorInfoType) : option Ty :=
  match CorType with
  | CORINFO_TYPE_VOID => Some VoidTy
  | CORINFO_TYPE_BOOL | CORINFO_TYPE_BYTE | CORINFO_TYPE_UBYTE => Some (IntegerTy 8)
  | CORINFO_TYPE_SHORT | CORINFO_TYPE_USHORT | CORINFO_TYPE_CHAR => Some (IntegerTy 16)
  | CORINFO_TYPE_INT | CORINFO_TYPE_UINT => Some (IntegerTy 32)
  | CORINFO_TYPE_LONG | CORINFO_TYPE_ULONG => Some (IntegerTy 64)
  | CORINFO_TYPE_NATIVEINT | CORINFO_TYPE_NATIVEUINT =>
      Some (IntegerTy TargetPointerSizeInBits)
  | CORINFO_TYPE_FLOAT => Some FloatTy
  | CORINFO_TYPE_DOUBLE => Some DoubleTy
  | _ => None
  end.

Definition isValidStackType (Node : Value) : option bool :=
  match IRBuilder.getType Node with
  | IntegerTy Size => Some ((Size =? 32) || (Size =? 64))
  | PointerTy _ _ | FloatTy | DoubleTy | VectorTy _ _ => Some true
  | _ => None
  end.

Definition stackSize (CorType : CorInfoType) : option Z :=
  match CorType with
  | CORINFO_TYPE_BOOL | CORINFO_TYPE_CHAR | CORINFO_TYPE_BYTE | CORINFO_TYPE_UBYTE
  | CORINFO_TYPE_SHORT | CORINFO_TYPE_USHORT | CORINFO_TYPE_INT | CORINFO_TYPE_UINT
  | CORINFO_TYPE_FLOAT => Some 32
  | CORINFO_TYPE_LONG | CORINFO_TYPE_ULONG | CORINFO_TYPE_DOUBLE => Some 64
  | CORINFO_TYPE_NATIVEINT | CORINFO_TYPE_NATIVEUINT | CORINFO_TYPE_PTR
  | CORINFO_TYPE_BYREF | CORINFO_TYPE_CLASS => Some TargetPointerSizeInBits
  | _ => None
  end.

Definition size (CorType : CorInfoType) : option Z :=
  match CorType with
  | CORINFO_TYPE_BOOL | CORINFO_TYPE_CHAR | CORINFO_TYPE_BYTE => Some 8
  | CORINFO_TYPE_UBYTE | CORINFO_TYPE_SHORT | CORINFO_TYPE_USHORT => Some 16
  | CORINFO_TYPE_INT | CORINFO_TYPE_UINT | CORINFO_TYPE_FLOAT => Some 32
  | CORINFO_TYPE_LONG | CORINFO_TYPE_ULONG | CORINFO_TYPE_DOUBLE => Some 64
  | CORINFO_TYPE_NATIVEINT | CORINFO_TYPE_NATIVEUINT | CORINFO_TYPE_PTR
  | CORINFO_TYPE_BYREF | CORINFO_TYPE_CLASS => Some TargetPointerSizeInBits
  | _ => None
  end.

Definition isSigned (CorType : CorInfoType) : option bool :=
  match CorType with
  | CORINFO_TYPE_BOOL | CORINFO_TYPE_CHAR | CORINFO_TYPE_UBYTE | CORINFO_TYPE_USHORT
  | CORINFO_TYPE_UINT | CORINFO_TYPE_ULONG | CORINFO_TYPE_NATIVEUINT
  | CORINFO_TYPE_PTR | CORINFO_TYPE_BYREF | CORINFO_TYPE_CLASS => Some false
  | CORINFO_TYPE_BYTE | CORINFO_TYPE_SHORT | CORINFO_TYPE_INT | CORINFO_TYPE_LONG
  | CORINFO_TYPE_NATIVEINT => Some true
  | _ => None
  end.

Definition isSignedIntegralType (CorType : CorInfoType) : option bool :=
  match CorType with
  | CORINFO_TYPE_UNDEF | CORINFO_TYPE_VOID | CORINFO_TYPE_FLOAT | CORINFO_TYPE_DOUBLE
  | CORINFO_TYPE_VALUECLASS | CORINFO_TYPE_REFANY => Some false
  | _ => isSigned CorType
  end.

Definition getStackType (CorType : CorInfoType) : option Ty :=
  Size ← stackSize CorType; Some (IntegerTy Size).

#[local] Open Scope emit_scope.

Definition convertToStackType (Node : Value) (CorType : CorInfoType) : M Value :=
  match IRBuilder.getType Node with
  | IntegerTy Size =>
      let* DesiredSize := lift (stackSize CorType) in
      assert (Size <=? DesiredSize) ;*
      if Size <? DesiredSize then
        let* ResultTy := lift (getStackType CorType) in
        let* IsSigned := lift (isSigned CorType) in
        emit (CreateIntCast Node ResultTy IsSigned) ResultTy
      else ret Node
  | PointerTy _ _ | FloatTy | DoubleTy | VectorTy _ _ => ret Node
  | _ => fail
  end.

(** [convertFromStackType]; [RepresentsStruct] is what the reader recorded of
    the node, and the second result what it records of the converted one.
    [LayoutIdentical] is LLVM's comparison of two structure types. *)
Definition convertFromStackType (LayoutIdentical : Ty -> Ty -> bool) (Node : Value)
    (RepresentsStruct : bool) (CorType : CorInfoType) (ResultTy : Ty) : M (Value * bool) :=
  match IRBuilder.getType Node with
  | IntegerTy Size =>
      let* DesiredSize := lift (size CorType) in
      let NeedsReinterpret :=
        bool_decide (CorType = CORINFO_TYPE_PTR) || bool_decide (CorType = CORINFO_TYPE_BYREF) in
      if DesiredSize <? Size then
        assert (negb NeedsReinterpret) ;*
        let* IsSigned := lift (isSigned CorType) in
        let* Result := emit (CreateIntCast Node ResultTy IsSigned) ResultTy in
        ret (Result, false)
      else if Size <? DesiredSize then
        assert (negb NeedsReinterpret) ;*
        assert (bool_decide (CorType = CORINFO_TYPE_NATIVEINT) ||
                bool_decide (CorType = CORINFO_TYPE_NATIVEUINT)) ;*
        let IsSigned := bool_decide (CorType = CORINFO_TYPE_NATIVEINT) in
        let* Result := emit (CreateIntCast Node ResultTy IsSigned) ResultTy in
        ret (Result, false)
      else if NeedsReinterpret then
        let* Result := emit (CreateIntToPtr Node ResultTy) ResultTy in
        ret (Result, false)
      else ret (Node, false)
  | FloatTy | DoubleTy =>
      let* DesiredSize := lift (size CorType) in
      if getPrimitiveSizeInBits (IRBuilder.getType Node) =? DesiredSize then ret (Node, false)
      else
        let* ResultTy := lift (getType CorType) in
        let* Result := emit (CreateFPCast Node ResultTy) ResultTy in
        ret (Result, false)
  | PointerTy ElementType AddressSpace as T =>
      if RepresentsStruct && bool_decide (ElementType = ResultTy) then ret (Node, true)
      else
        (if RepresentsStruct then assert (LayoutIdentical ResultTy ElementType) else ret tt) ;*
        let ResultTy :=
          if RepresentsStruct then PointerTy ResultTy AddressSpace else ResultTy in
        if bool_decide (T = ResultTy) then ret (Node, RepresentsStruct)
        else
          let* Result := emit (CreatePointerCast Node ResultTy) ResultTy in
          ret (Result, RepresentsStruct)
  | VectorTy _ _ => ret (Node, false)
  | _ => fail
  end.
End types.

End GenIR.
