(* ===== verification/Conv.v ===== *)
(** * Conversions (lib/Reader/readerir.cpp)

    [genConvertOverflowCheck], the conversion table and [conv], and [convert],
    which aligns the operands of a binary operation.  The theorems run the
    emitted code: a checked conversion throws exactly when the value does not
    fit the target type. *)

From S2P Require Import Prelude Opcodes IRBuilder GenIRTypes.
Import ReaderBaseNS.

Module Convert.
Import GenIR.
#[local] Open Scope emit_scope.

Record ConvertInfo := MkConvertInfo {
  CorType : CorInfoType;
  CheckForOverflow : bool;
  SourceIsUnsigned : bool
}.

Definition Map : list ConvertInfo :=
  [MkConvertInfo CORINFO_TYPE_BYTE false false;
   MkConvertInfo CORINFO_TYPE_SHORT false false;
   MkConvertInfo CORINFO_TYPE_INT false false;
   MkConvertInfo CORINFO_TYPE_LONG false false;
   MkConvertInfo CORINFO_TYPE_FLOAT false false;
   MkConvertInfo CORINFO_TYPE_DOUBLE false false;
   MkConvertInfo CORINFO_TYPE_UBYTE false false;
   MkConvertInfo CORINFO_TYPE_USHORT false false;
   MkConvertInfo CORINFO_TYPE_UINT false false;
   MkConvertInfo CORINFO_TYPE_ULONG false false;
   MkConvertInfo CORINFO_TYPE_NATIVEINT false false;
   MkConvertInfo CORINFO_TYPE_NATIVEUINT false false;
   MkConvertInfo CORINFO_TYPE_BYTE true false;
   MkConvertInfo CORINFO_TYPE_SHORT true false;
   MkConvertInfo CORINFO_TYPE_INT true false;
   MkConvertInfo CORINFO_TYPE_LONG true false;
   MkConvertInfo CORINFO_TYPE_UBYTE true false;
   MkConvertInfo CORINFO_TYPE_USHORT true false;
   MkConvertInfo CORINFO_TYPE_UINT true false;
   MkConvertInfo CORINFO_TYPE_ULONG true false;
   MkConvertInfo CORINFO_TYPE_NATIVEINT true false;
   MkConvertInfo CORINFO_TYPE_NATIVEUINT true false;
   MkConvertInfo CORINFO_TYPE_BYTE true true;
   MkConvertInfo CORINFO_TYPE_SHORT true true;
   MkConvertInfo CORINFO_TYPE_INT true true;
   MkConvertInfo CORINFO_TYPE_LONG true true;
   MkConvertInfo CORINFO_TYPE_UBYTE true true;
   MkConvertInfo CORINFO_TYPE_USHORT true true;
   MkConvertInfo CORINFO_TYPE_UINT true true;
   MkConvertInfo CORINFO_TYPE_ULONG true true;
   MkConvertInfo CORINFO_TYPE_NATIVEINT true true;
   MkConvertInfo CORINFO_TYPE_NATIVEUINT true true;
   MkConvertInfo CORINFO_TYPE_DOUBLE false true].

Section conv.
Variable TargetPointerSizeInBits : Z.

(** The helper for a floating-point source, and the width of its result. *)
Definition checked_helper (TargetBitWidth : Z) (DestIsSigned : bool) : CorInfoHelpFunc * Z :=
  if TargetBitWidth =? 64
  then (if DestIsSigned then CORINFO_HELP_DBL2LNG_OVF else CORINFO_HELP_DBL2ULNG_OVF, 64)
  else (if DestIsSigned then CORINFO_HELP_DBL2INT_OVF else CORINFO_HELP_DBL2UINT_OVF, 32).

(** Brings the source to an integer; the second result is whether it is
    signed from then on. *)
Definition checked_source (Source : Value) (TargetBitWidth : Z)
    (SourceIsSigned DestIsSigned : bool) : M (Value * bool) :=
  let SourceTy := IRBuilder.getType Source in
  if isFloatingPointTy SourceTy then
    let '(Helper, w) := checked_helper TargetBitWidth DestIsSigned in
    let* Source :=
      if isFloatTy SourceTy then emit (CreateFPCast Source DoubleTy) DoubleTy
      else assert (isDoubleTy SourceTy) ;* ret Source in
    let* Source := emit (CallHelper Helper [Source]) (IntegerTy w) in
    ret (Source, DestIsSigned)
  else if isPointerTy SourceTy then
    let NativeIntTy := IntegerTy TargetPointerSizeInBits in
    let* Source := emit (CreatePtrToInt Source NativeIntTy) NativeIntTy in
    ret (Source, SourceIsSigned)
  else ret (Source, SourceIsSigned).

Definition throw_if (P : Predicate) (A B : Value) : M unit :=
  let* Ovf := emit (CreateICmp P A B) i1 in
  genConditionalThrow Ovf CORINFO_HELP_OVERFLOW.

(** [genConvertOverflowCheck]: the checked source and the updated
    [SourceIsSigned]. *)
Definition genConvertOverflowCheck (Source : Value) (TargetTy : Ty)
    (SourceIsSigned DestIsSigned : bool) : M (Value * bool) :=
  let* TargetBitWidth := lift (getIntegerBitWidth TargetTy) in
  let* (Source, SourceIsSigned) :=
    checked_source Source TargetBitWidth SourceIsSigned DestIsSigned in
  let SourceTy := IRBuilder.getType Source in
  let* SourceBitWidth := lift (getIntegerBitWidth SourceTy) in
  (if SourceBitWidth <? TargetBitWidth then
     if SourceIsSigned && negb DestIsSigned
     then throw_if ICMP_SLT Source (getNullValue SourceTy)
     else ret tt
   else if TargetBitWidth =? SourceBitWidth then
     if negb (Bool.eqb SourceIsSigned DestIsSigned)
     then throw_if ICMP_SLT Source (getNullValue SourceTy)
     else ret tt
   else if DestIsSigned then
     if SourceIsSigned then
       throw_if ICMP_SLT Source (ConstantInt SourceBitWidth (- 2 ^ (TargetBitWidth - 1))) ;*
       throw_if ICMP_SGT Source (ConstantInt SourceBitWidth (2 ^ (TargetBitWidth - 1) - 1))
     else throw_if ICMP_UGT Source (ConstantInt SourceBitWidth (2 ^ (TargetBitWidth - 1) - 1))
   else throw_if ICMP_UGT Source (ConstantInt SourceBitWidth (2 ^ TargetBitWidth - 1))) ;*
  ret (Source, SourceIsSigned).

(** The conversion proper, once the source has been checked. *)
Definition emit_conversion (Source : Value) (TargetTy : Ty)
    (SourceIsSigned DestIsSigned : bool) : M Value :=
  let SourceTy := IRBuilder.getType Source in
  if bool_decide (SourceTy = TargetTy) then ret Source
  else if isIntegerTy SourceTy && isIntegerTy TargetTy then
    emit (CreateIntCast Source TargetTy DestIsSigned) TargetTy
  else if isPointerTy SourceTy && isIntegerTy TargetTy then
    emit (CreatePtrToInt Source TargetTy) TargetTy
  else if isIntegerTy SourceTy && isFloatingPointTy TargetTy then
    emit (if SourceIsSigned then CreateSIToFP Source TargetTy
          else CreateUIToFP Source TargetTy) TargetTy
  else if isFloatingPointTy SourceTy && isIntegerTy TargetTy then
    let* TargetBitWidth := lift (getIntegerBitWidth TargetTy) in
    let convert_to T := if DestIsSigned then CreateFPToSI Source T else CreateFPToUI Source T in
    if TargetBitWidth <? 64 then
      let* Conversion := emit (convert_to (IntegerTy 64)) (IntegerTy 64) in
      emit (CreateIntCast Conversion TargetTy DestIsSigned) TargetTy
    else emit (convert_to TargetTy) TargetTy
  else if isFloatingPointTy SourceTy && isFloatingPointTy TargetTy then
    emit (CreateFPCast Source TargetTy) TargetTy
  else fail.

Definition conv (Opcode : ConvOpcode) (Source : Value) : M Value :=
  let* Info := lift (Map !! Z.to_nat (ConvOpcode_Z Opcode)) in
  let* TargetTy := lift (getType TargetPointerSizeInBits (CorType Info)) in
  let SourceIsSigned := negb (SourceIsUnsigned Info) in
  let* DestIsSigned :=
    if isIntegerTy TargetTy then lift (isSigned (CorType Info)) else ret false in
  let* (Source, SourceIsSigned) :=
    if CheckForOverflow Info then
      genConvertOverflowCheck Source TargetTy SourceIsSigned DestIsSigned
    else ret (Source, SourceIsSigned) in
  let* Conversion := emit_conversion Source TargetTy SourceIsSigned DestIsSigned in
  convertToStackType TargetPointerSizeInBits Conversion (CorType Info).

(** [convert]: the conversions a binary operation needs. *)
Definition convert (T : Ty) (Node : Value) (SourceIsSigned : bool) : M Value :=
  let SourceTy := IRBuilder.getType Node in
  if bool_decide (T = SourceTy) then ret Node
  else if isIntegerTy SourceTy && isIntegerTy T then
    emit (CreateIntCast Node T SourceIsSigned) T
  else if isFloatingPointTy SourceTy && isFloatingPointTy T then
    emit (CreateFPCast Node T) T
  else if isPointerTy SourceTy && isIntegerTy T then
    emit (CreatePtrToInt Node T) T
  else fail.
End conv.

(** ** What the opcodes mean *)

(** The target of a conversion: an integer of some signedness and width, or a
    floating-point type. *)
Inductive Target : Set := TInt (Signed : bool) (w : Z) | TReal (T : Ty).

Definition conv_target (native : Z) (Opcode : ConvOpcode) : Target :=
  match Opcode with
  | ConvI1 | ConvOvfI1 | ConvOvfI1Un => TInt true 8
  | ConvI2 | ConvOvfI2 | ConvOvfI2Un => TInt true 16
  | ConvI4 | ConvOvfI4 | ConvOvfI4Un => TInt true 32
  | ConvI8 | ConvOvfI8 | ConvOvfI8Un => TInt true 64
  | ConvU1 | ConvOvfU1 | ConvOvfU1Un => TInt false 8
  | ConvU2 | ConvOvfU2 | ConvOvfU2Un => TInt false 16
  | ConvU4 | ConvOvfU4 | ConvOvfU4Un => TInt false 32
  | ConvU8 | ConvOvfU8 | ConvOvfU8Un => TInt false 64
  | ConvI | ConvOvfI | ConvOvfIUn => TInt true native
  | ConvU | ConvOvfU | ConvOvfUUn => TInt false native
  | ConvR4 => TReal FloatTy
  | ConvR8 | ConvRUn | LastConvOpcode => TReal DoubleTy
  end.

Definition conv_ovf : list ConvOpcode :=
  [ConvOvfI1; ConvOvfI2; ConvOvfI4; ConvOvfI8; ConvOvfI;
   ConvOvfU1; ConvOvfU2; ConvOvfU4; ConvOvfU8; ConvOvfU].
Definition conv_ovf_un : list ConvOpcode :=
  [ConvOvfI1Un; ConvOvfI2Un; ConvOvfI4Un; ConvOvfI8Un; ConvOvfIUn;
   ConvOvfU1Un; ConvOvfU2Un; ConvOvfU4Un; ConvOvfU8Un; ConvOvfUUn].
Definition conv_int : list ConvOpcode :=
  [ConvI1; ConvI2; ConvI4; ConvI8; ConvI; ConvU1; ConvU2; ConvU4; ConvU8; ConvU].
Definition conv_real : list ConvOpcode := [ConvR4; ConvR8; ConvRUn].

Definition reading (Signed : bool) (w x : Z) : Z := if Signed then swrap w x else wrap w x.
Definition in_target (Signed : bool) (w z : Z) : bool :=
  if Signed then in_signed w z else in_unsigned w z.

Section spec.
Context {L : LLVM} (native : Z).

(** [r] is a value of the stack type [T]. *)
Definition stack_value (T : Ty) (r : RVal FP) : Prop :=
  match T, r with
  | IntegerTy w, RInt x => (w = 32 \/ w = 64) /\ 0 <= x < 2 ^ w
  | PointerTy _ _, RInt x => 0 <= x < 2 ^ native
  | (FloatTy | DoubleTy), RFP _ => True
  | _, _ => False
  end.

(** The integer a value stands for, read as signed or unsigned; the integral
    part of a floating-point number. *)
Definition integral_value (Signed : bool) (T : Ty) (r : RVal FP) : option Z :=
  match r with
  | RInt x => Some (reading Signed (width native T) x)
  | RFP f => fp_trunc f
  | RPair _ _ | RVec _ | RUndef => None
  end.

(** What is left on the stack when a value of width [w] is the result. *)
Definition on_stack (w z : Z) : RVal FP := RInt (wrap (Z.max 32 w) z).

Definition checked_result (Opcode : ConvOpcode) (v : option Z) : Outcome FP :=
  match conv_target native Opcode, v with
  | TInt s w, Some z =>
      if in_target s w z then Returns (on_stack w z) else Throws CORINFO_HELP_OVERFLOW
  | _, _ => Throws CORINFO_HELP_OVERFLOW
  end.
End spec.

(** Evaluates the emitted code down to arithmetic. *)
Ltac run_code :=
  compile;
  cbn -[Z.pow Z.add Z.sub Z.opp Z.leb Z.ltb Z.eqb Z.max Z.min Z.modulo Z.of_nat swrap wrap in_signed
        in_unsigned icmp_spec checked_double with_overflow_spec int_binop_spec];
  autorewrite with llvm.

(** The exception to the rule: an unsigned source with its top bit set that
    is widened to a signed target. *)
Definition sign_extended (native : Z) (Opcode : ConvOpcode) (Signed : bool) (T : Ty) (x : Z) : bool :=
  negb Signed &&
  match conv_target native Opcode with
  | TInt true w => (width native T <? w) && (2 ^ (width native T - 1) <=? x)
  | _ => false
  end.

(** Evaluates cuts and maxima of constants. *)
Ltac eval_constants := repeat match goal with
  | |- context [swrap ?w (Zpos ?c)] =>
      let r := eval vm_compute in (swrap w (Zpos c)) in change (swrap w (Zpos c)) with r
  | |- context [wrap ?w (Zpos ?c)] =>
      let r := eval vm_compute in (wrap w (Zpos c)) in change (wrap w (Zpos c)) with r
  | |- context [Z.min (Zpos ?a) (Zpos ?b)] =>
      let r := eval vm_compute in (Z.min (Zpos a) (Zpos b)) in
      change (Z.min (Zpos a) (Zpos b)) with r
  | |- context [swrap ?w 0] => change (swrap w 0) with 0
  | |- context [Z.max (Zpos ?a) (Zpos ?b)] =>
      let r := eval vm_compute in (Z.max (Zpos a) (Zpos b)) in
      change (Z.max (Zpos a) (Zpos b)) with r
  end.

Ltac each_opcode H :=
  unfold conv_ovf, conv_ovf_un, conv_int, conv_real in H; set_unfold in H; destruct_or! H; subst.

Ltac unfold_checks :=
  unfold checked_result, in_target, on_stack, in_signed, in_unsigned, icmp_spec, checked_double;
  cbn -[Z.pow Z.add Z.sub Z.opp Z.leb Z.ltb Z.eqb Z.modulo Z.max Z.min swrap wrap].

Ltac split_checks :=
  repeat match goal with
  | |- context [?a <? ?b] => destruct (Z.ltb_spec a b)
  | |- context [?a <=? ?b] => destruct (Z.leb_spec a b)
  end;
  cbn -[Z.pow Z.add Z.sub Z.opp Z.modulo Z.max Z.min swrap wrap].

(** Decides the comparisons of the emitted code one by one; what is left is a
    value that was cut to its own width. *)
Ltac decide_checks :=
  unfold_checks; eval_constants; autorewrite with modular; uncut; eval_constants; rewrite ?b2z_eqb_0;
  split_checks; autorewrite with modular; uncut; first [done | lia | idtac].

Definition int_like (T : Ty) : Prop :=
  T = IntegerTy 32 \/ T = IntegerTy 64 \/ exists E A, T = PointerTy E A.

Section run.
Context {L : LLVM} {LS : LLVMLaws L} (native : Z) (Hnative : native = 32 \/ native = 64).

Lemma conv_ovf_run (Opcode : ConvOpcode) (T : Ty) (v : Z) :
  Opcode ∈ conv_ovf -> int_like T ->
  - 2 ^ (width native T - 1) <= v < 2 ^ (width native T - 1) ->
  run native [RInt (wrap (width native T) v)] (conv native Opcode (MkValue (Arg 0) T))
    = Some (checked_result native Opcode (Some v)).
Proof using All.
  intros HO HT Hv.
  destruct Hnative as [-> | ->]; destruct HT as [-> | [-> | (E & A & ->)]]; cbn in Hv |- *;
    destruct (Z.lt_ge_cases v 0); each_opcode HO.
  all: run_code; decide_checks.
Qed.

Lemma conv_ovf_un_run (Opcode : ConvOpcode) (T : Ty) (v : Z) :
  Opcode ∈ conv_ovf_un -> int_like T -> 0 <= v < 2 ^ width native T ->
  sign_extended native Opcode false T v = false ->
  run native [RInt v] (conv native Opcode (MkValue (Arg 0) T))
    = Some (checked_result native Opcode (Some v)).
Proof using All.
  intros HO HT Hv. pose proof (Z.lt_ge_cases v (2 ^ (width native T - 1))) as Hc.
  destruct Hnative as [-> | ->]; destruct HT as [-> | [-> | (E & A & ->)]]; cbn in Hv, Hc |- *;
    destruct Hc; each_opcode HO; unfold sign_extended; cbn -[Z.pow]; intros Hs; try (exfalso; lia).
  all: run_code; decide_checks.
Qed.

Lemma conv_ovf_un_extends (Opcode : ConvOpcode) (T : Ty) (v : Z) :
  Opcode ∈ conv_ovf_un -> int_like T -> 0 <= v < 2 ^ width native T ->
  sign_extended native Opcode false T v = true ->
  run native [RInt v] (conv native Opcode (MkValue (Arg 0) T))
    = Some (Returns (RInt (wrap 64 (swrap (width native T) v)))).
Proof using All.
  intros HO HT Hv. pose proof (Z.lt_ge_cases v (2 ^ (width native T - 1))) as Hc.
  destruct Hnative as [-> | ->]; destruct HT as [-> | [-> | (E & A & ->)]]; cbn in Hv, Hc |- *;
    destruct Hc; each_opcode HO; unfold sign_extended; cbn -[Z.pow]; intros Hs; try (exfalso; lia).
  all: run_code; decide_checks.
Qed.

Lemma conv_checked_real (Opcode : ConvOpcode) (T : Ty) (f : FP) :
  Opcode ∈ conv_ovf \/ Opcode ∈ conv_ovf_un -> T = FloatTy \/ T = DoubleTy ->
  run native [RFP f] (conv native Opcode (MkValue (Arg 0) T))
    = Some (checked_result native Opcode (fp_trunc f)).
Proof using All.
  intros HO HT.
  destruct Hnative as [-> | ->]; destruct HT as [-> | ->]; destruct HO as [HO|HO]; each_opcode HO.
  all: run_code; destruct (fp_trunc f) as [z|]; [destruct (Z.lt_ge_cases z 0)|];
    unfold_checks; split_checks; autorewrite with llvm; decide_checks.
Qed.
End run.

(** The bits of a stack value, from the integer it is read as. *)
Lemma wrap_reading (Signed : bool) (w x : Z) : 0 < w -> 0 <= x < 2 ^ w -> wrap w (reading Signed w x) = x.
Proof.
  intros Hw Hx. unfold reading. destruct Signed; autorewrite with modular; by apply wrap_small.
Qed.

Lemma stack_value_int {L : LLVM} (native : Z) (T : Ty) (r : RVal FP) :
  native = 32 \/ native = 64 -> stack_value native T r ->
  (exists x, r = RInt x /\ int_like T /\ 0 < width native T /\ 0 <= x < 2 ^ width native T) \/
  (exists f, r = RFP f /\ (T = FloatTy \/ T = DoubleTy)).
Proof.
  unfold stack_value, int_like. intros Hn Hr.
  destruct T as [|w| | |E A| | | |], r as [x|f| | |]; try done; [..|right; eauto|right; eauto|];
    left; exists x; cbn; naive_solver lia.
Qed.

(** C31: a checked conversion throws exactly when it should. For every
    conv.ovf opcode, on 32- and 64-bit targets, and for every value the
    evaluation stack can hold (an integer, a pointer or a floating-point
    number), the code [conv] emits throws the overflow exception if the value,
    read as signed or, for the .un forms, unsigned, or truncated toward zero,
    is outside the target type, and otherwise leaves exactly that value on the
    stack; the inputs of [sign_extended] are the only exception. *)
Theorem conv_checked_correct {L : LLVM} (LS : LLVMLaws L) (native : Z) (Opcode : ConvOpcode)
    (Signed : bool) (T : Ty) (r : RVal FP)
    (Hnative : native = 32 \/ native = 64)
    (HO : Opcode ∈ if Signed then conv_ovf else conv_ovf_un)
    (Hr : stack_value native T r)
    (Hext : forall x, r = RInt x -> sign_extended native Opcode Signed T x = false) :
  run native [r] (conv native Opcode (MkValue (Arg 0) T))
    = Some (checked_result native Opcode (integral_value native Signed T r)).
Proof.
  destruct (stack_value_int native T r Hnative Hr) as [(x & -> & HT & Hw & Hx) | (f & -> & HT)].
  - specialize (Hext x eq_refl). cbn [integral_value]. destruct Signed; cbn [reading].
    + rewrite <- (wrap_reading true (width native T) x) at 1 by done.
      apply conv_ovf_run; try done. by apply swrap_range.
    + rewrite (wrap_small _ x) by done. by apply conv_ovf_un_run.
  - cbn [integral_value]. apply conv_checked_real; [done| |done]. destruct Signed; auto.
Qed.

(** The exception. A conv.ovf.i8.un (or conv.ovf.i.un on a 64-bit target)
    of a 32-bit value with its top bit set does not throw and leaves the
    sign-extended value, 2^64 - 2^32 too much: the overflow check treats the
    source as unsigned and the cast behind it as signed. *)
Theorem conv_ovf_un_sign_extends {L : LLVM} (LS : LLVMLaws L) (native : Z) (Opcode : ConvOpcode)
    (T : Ty) (x : Z)
    (Hnative : native = 32 \/ native = 64) (HO : Opcode ∈ conv_ovf_un)
    (Hr : stack_value native T (RInt x)) (Hext : sign_extended native Opcode false T x = true) :
  run native [RInt x] (conv native Opcode (MkValue (Arg 0) T))
    = Some (Returns (RInt (x + 2 ^ 64 - 2 ^ 32))) /\
  checked_result native Opcode (integral_value native false T (RInt x)) = Returns (RInt x).
Proof.
  destruct (stack_value_int native T _ Hnative Hr) as [(x' & [= <-] & HT & Hw & Hx) | (f & ? & _)]; [|done].
  split; [rewrite (conv_ovf_un_extends native Hnative Opcode T x HO HT Hx Hext)|];
    destruct Hnative as [-> | ->]; destruct HT as [-> | [-> | (E & A & ->)]]; each_opcode HO;
    revert Hext; unfold sign_extended; cbn -[Z.pow]; intros Hext; cbn in Hx; try (exfalso; lia).
  all: try (f_equal; f_equal; f_equal; uncut; lia).
  all: unfold reading; decide_checks.
Qed.

Lemma conv_checked_correct_witness :
  run (L := DemoLLVM) 64 [RInt 200] (conv 64 ConvOvfI1 (MkValue (Arg 0) (IntegerTy 32)))
    = Some (Throws CORINFO_HELP_OVERFLOW) /\
  run (L := DemoLLVM) 64 [RFP (Some (-7))] (conv 64 ConvOvfI1 (MkValue (Arg 0) DoubleTy))
    = Some (Returns (RInt (2 ^ 32 - 7))).
Proof.
  split.
  - apply (conv_checked_correct DemoLLVM_laws 64 ConvOvfI1 true (IntegerTy 32) (RInt 200));
      [by right|set_solver|cbn; lia|done].
  - apply (conv_checked_correct DemoLLVM_laws 64 ConvOvfI1 true DoubleTy (RFP (Some (-7))));
      [by right|set_solver|done|done].
Defined.

Lemma conv_ovf_un_sign_extends_witness :
  run (L := DemoLLVM) 64 [RInt (2 ^ 32 - 1)] (conv 64 ConvOvfI8Un (MkValue (Arg 0) (IntegerTy 32)))
    = Some (Returns (RInt (2 ^ 64 - 1))).
Proof.
  apply (conv_ovf_un_sign_extends DemoLLVM_laws 64 ConvOvfI8Un (IntegerTy 32) (2 ^ 32 - 1));
    [by right|set_solver|cbn; lia|done].
Defined.

(** ** Conversions without an overflow check *)

(** A pointer is widened as an unsigned integer. *)
Definition widens_pointer (native : Z) (T : Ty) (w : Z) : bool := isPointerTy T && (native <? w).

(** What an unchecked conversion leaves: an integer is cut or extended by the
    target's signedness, a number is truncated to 64 bits (undefined outside
    them) and then cut, and an integer is rounded from its signed reading,
    unsigned for conv.r.un. *)
Definition unchecked_result {L : LLVM} (native : Z) (Opcode : ConvOpcode) (T : Ty) (r : RVal FP) : Outcome FP :=
  match conv_target native Opcode, r with
  | TInt s w, RInt x => 
      Returns (on_stack w
        (reading (s && negb (widens_pointer native T w)) (Z.min (width native T) w) x))
  | TInt s w, RFP f =>
      match fp_trunc f with
      | Some z => if in_target s 64 z then Returns (on_stack w (reading s w z)) else Undefined
      | None => Undefined
      end
  | TReal T', RInt x =>
      Returns (RFP (fp_round T' (reading (bool_decide (Opcode <> ConvRUn)) (width native T) x)))
  | TReal T', RFP f => Returns (RFP (if bool_decide (T = T') then f else fp_cast T' f))
  | _, (RPair _ _ | RVec _ | RUndef) => Undefined
  end.

Section unchecked.
Context {L : LLVM} {LS : LLVMLaws L} (native : Z) (Hnative : native = 32 \/ native = 64).

Lemma conv_int_run (Opcode : ConvOpcode) (T : Ty) (x : Z) :
  Opcode ∈ conv_int -> int_like T -> 0 <= x < 2 ^ width native T ->
  run native [RInt x] (conv native Opcode (MkValue (Arg 0) T))
    = Some (unchecked_result native Opcode T (RInt x)).
Proof using All.
  intros HO HT Hx.
  destruct Hnative as [-> | ->]; destruct HT as [-> | [-> | (E & A & ->)]]; cbn in Hx;
    each_opcode HO; unfold unchecked_result, reading.
  all: run_code; decide_checks.
Qed.

Lemma conv_int_real_run (Opcode : ConvOpcode) (T : Ty) (f : FP) :
  Opcode ∈ conv_int -> T = FloatTy \/ T = DoubleTy ->
  run native [RFP f] (conv native Opcode (MkValue (Arg 0) T))
    = Some (unchecked_result native Opcode T (RFP f)).
Proof using All.
  intros HO HT. destruct Hnative as [-> | ->]; destruct HT as [-> | ->]; each_opcode HO;
    unfold unchecked_result, reading.
  all: run_code; destruct (fp_trunc f) as [z|]; [destruct (Z.lt_ge_cases z 0)|done];
    unfold_checks; split_checks; autorewrite with llvm; decide_checks.
Qed.

Lemma conv_real_run (Opcode : ConvOpcode) (T : Ty) (r : RVal FP) :
  Opcode ∈ conv_real -> stack_value native T r -> isPointerTy T = false ->
  run native [r] (conv native Opcode (MkValue (Arg 0) T))
    = Some (unchecked_result native Opcode T r).
Proof using All.
  intros HO Hr HT.
  destruct Hnative as [-> | ->]; destruct T as [|w| | | | | | |], r as [x|f| | |]; try done;
    try destruct Hr as [[-> | ->] Hx]; each_opcode HO; unfold unchecked_result, reading.
  all: run_code; decide_checks.
Qed.
End unchecked.

(** What the unchecked conversions compute. For every opcode without an
    overflow check, on 32- and 64-bit targets: an integer is cut to the target
    or extended by the target's signedness (a pointer always by zeros), conv.r4
    and conv.r8 round the signed and conv.r.un the unsigned reading, a
    floating-point number goes through a 64-bit integer, where it must fit,
    and is then cut, and the result is extended to a stack slot. *)
Theorem conv_unchecked_correct {L : LLVM} (LS : LLVMLaws L) (native : Z) (Opcode : ConvOpcode)
    (T : Ty) (r : RVal FP)
    (Hnative : native = 32 \/ native = 64)
    (HO : Opcode ∈ conv_int \/ Opcode ∈ conv_real /\ isPointerTy T = false)
    (Hr : stack_value native T r) :
  run native [r] (conv native Opcode (MkValue (Arg 0) T)) = Some (unchecked_result native Opcode T r).
Proof.
  destruct HO as [HO | [HO HT]]; [|by apply conv_real_run].
  destruct (stack_value_int native T r Hnative Hr) as [(x & -> & HT & _ & Hx) | (f & -> & HT)].
  - by apply conv_int_run.
  - by apply conv_int_real_run.
Qed.

Lemma conv_unchecked_correct_witness :
  run (L := DemoLLVM) 64 [RInt 200] (conv 64 ConvI1 (MkValue (Arg 0) (IntegerTy 32)))
    = Some (Returns (RInt (2 ^ 32 - 56))) /\
  run (L := DemoLLVM) 64 [RInt (2 ^ 32 - 1)] (conv 64 ConvRUn (MkValue (Arg 0) (IntegerTy 32)))
    = Some (Returns (RFP (Some (2 ^ 32 - 1)))).
Proof.
  split.
  - apply (conv_unchecked_correct DemoLLVM_laws 64 ConvI1 (IntegerTy 32) (RInt 200));
      [by right|left; set_solver|cbn; lia].
  - apply (conv_unchecked_correct DemoLLVM_laws 64 ConvRUn (IntegerTy 32) (RInt (2 ^ 32 - 1)));
      [by right|right; split; [set_solver|done]|cbn; lia].
Defined.

End Convert.
