(* ===== verification/Arith.v ===== *)
(** * Arithmetic and comparisons (lib/Reader/readerir.cpp)

    [binaryOp] with its tables, the pointer arithmetic behind
    it, [unaryOp], [shift], the comparisons and conditional branches, and the
    checks that throw: [ckFinite] and [genBoundsCheck]. *)

From S2P Require Import Prelude Opcodes IRBuilder GenIRTypes Conv.
Import ReaderBaseNS.

Module Arith.
Import GenIR.
#[local] Open Scope emit_scope.

(** ** Operators *)

(** An entry of the operator tables; the default constructor leaves an entry
    without an operation. *)
Inductive TripleOp : Set := OpOpcode (Op : BinaryOps) | OpIntrinsic (Id : IntrinsicID).

Record BinaryTriple := MkTriple { Op : TripleOp; IsOverflow : bool; IsUnsigned : bool }.

Definition IntMap : list (option BinaryTriple) :=
  [Some (MkTriple (OpOpcode IAdd) false false);
   Some (MkTriple (OpIntrinsic sadd_with_overflow) true false);
   Some (MkTriple (OpIntrinsic uadd_with_overflow) true true);
   Some (MkTriple (OpOpcode IAnd) false false);
   Some (MkTriple (OpOpcode SDiv) false false);
   Some (MkTriple (OpOpcode UDiv) false true);
   Some (MkTriple (OpOpcode IMul) false false);
   Some (MkTriple (OpIntrinsic smul_with_overflow) true false);
   Some (MkTriple (OpIntrinsic umul_with_overflow) true true);
   Some (MkTriple (OpOpcode IOr) false false);
   Some (MkTriple (OpOpcode SRem) false false);
   Some (MkTriple (OpOpcode URem) false true);
   Some (MkTriple (OpOpcode ISub) false false);
   Some (MkTriple (OpIntrinsic ssub_with_overflow) true false);
   Some (MkTriple (OpIntrinsic usub_with_overflow) true true);
   Some (MkTriple (OpOpcode IXor) false false)].

Definition FloatMap : list (option BinaryTriple) :=
  [Some (MkTriple (OpOpcode FAdd) false false);
   None; None; None;
   Some (MkTriple (OpOpcode FDiv) false false);
   None;
   Some (MkTriple (OpOpcode FMul) false false);
   None; None; None;
   Some (MkTriple (OpOpcode FRem) false false);
   None;
   Some (MkTriple (OpOpcode FSub) false false);
   None; None; None].

Definition is_op (A B : BinaryOpcode) : bool := bool_decide (A = B).

(** [reader.h]: the reader always checks for a zero divisor. *)
Definition UseExplicitZeroDivideChecks : bool := true.

Section arith.
Variable TargetPointerSizeInBits : Z.

Definition NativeIntTy : Ty := IntegerTy TargetPointerSizeInBits.

(** The size [binaryOpType] compares: a pointer has the native size. *)
Definition operand_size (T : Ty) : Z :=
  if isPointerTy T then TargetPointerSizeInBits else getPrimitiveSizeInBits T.

Definition binaryOpType (Opcode : BinaryOpcode) (Type1 Type2 : Ty) : option Ty :=
  if isFloatingPointTy Type1 && isFloatingPointTy Type2 then
    Some (if getPrimitiveSizeInBits Type2 <=? getPrimitiveSizeInBits Type1 then Type1 else Type2)
  else if negb (isIntegerTy Type1 || isPointerTy Type1) then None
  else if negb (isIntegerTy Type2 || isPointerTy Type2) then None
  else
    let Size1 := operand_size Type1 in
    let Size2 := operand_size Type2 in
    if isIntegerTy Type1 && isIntegerTy Type2 then
      if Size1 =? Size2 then Some Type1
      else if (Size1 =? TargetPointerSizeInBits) && (Size2 <? Size1) then Some Type1
      else if (Size2 =? TargetPointerSizeInBits) && (Size1 <? Size2) then Some Type2
      else None
    else
      let IsStrictlyAdd := is_op Opcode Add in
      let IsAdd := IsStrictlyAdd || is_op Opcode AddOvf || is_op Opcode AddOvfUn in
      let IsStrictlySub := is_op Opcode Sub in
      let IsSub := IsStrictlySub || is_op Opcode SubOvf || is_op Opcode SubOvfUn in
      let IsStrictlyAddOrSub := IsStrictlyAdd || IsStrictlySub in
      let IsAddOrSub := IsAdd || IsSub in
      if isUnmanagedPointer Type1 || isUnmanagedPointer Type2 then
        if IsAddOrSub && isUnmanagedPointer Type1 && isIntegerTy Type2 && (Size2 <=? Size1)
        then Some Type1
        else if IsAdd && isIntegerTy Type1 && isUnmanagedPointer Type2 && (Size1 <=? Size2)
        then Some Type2
        else if (Size1 <=? TargetPointerSizeInBits) && (Size2 <=? TargetPointerSizeInBits)
        then Some NativeIntTy
        else None
      else if isGcPointer Type1 then
        if IsSub && isGcPointer Type2 then Some NativeIntTy
        else if IsStrictlyAddOrSub && isIntegerTy Type2 && (Size2 <=? Size1) then Some Type1
        else None
      else None.

Definition getInt8PtrTy (AddressSpace : Z) : Ty := PointerTy (IntegerTy 8) AddressSpace.

(** The address space of a pointer; other types have none. *)
Definition getPointerAddressSpace (T : Ty) : option Z :=
  match T with PointerTy _ A => Some A | _ => None end.

(** [genPointerAdd]; [None] inside the monad is the null result. *)
Definition genPointerAdd (Arg1 Arg2 : Value) : M (option Value) :=
  let Arg1IsPointer := isPointerTy (IRBuilder.getType Arg1) in
  let Arg2IsPointer := isPointerTy (IRBuilder.getType Arg2) in
  assert (Arg1IsPointer || Arg2IsPointer) ;*
  if Arg1IsPointer && Arg2IsPointer then ret None
  else
    let BasePtr := if Arg2IsPointer then Arg2 else Arg1 in
    let Offset := if Arg2IsPointer then Arg1 else Arg2 in
    if negb (isIntegerTy (IRBuilder.getType Offset)) then ret None
    else
      let* AddressSpace := lift (getPointerAddressSpace (IRBuilder.getType BasePtr)) in
      let CharPtrTy := getInt8PtrTy AddressSpace in
      let* BasePtrCast := emit (CreateBitCast BasePtr CharPtrTy) CharPtrTy in
      let* ResultPtr := emit (CreateGEP true BasePtrCast Offset) CharPtrTy in
      ret (Some ResultPtr).

Definition genPointerSub (Arg1 Arg2 : Value) : M (option Value) :=
  let Arg1IsPointer := isPointerTy (IRBuilder.getType Arg1) in
  let Arg2IsPointer := isPointerTy (IRBuilder.getType Arg2) in
  assert Arg1IsPointer ;*
  if Arg1IsPointer && Arg2IsPointer then ret None
  else if negb (isIntegerTy (IRBuilder.getType Arg2)) then ret None
  else
    let* AddressSpace := lift (getPointerAddressSpace (IRBuilder.getType Arg1)) in
    let CharPtrTy := getInt8PtrTy AddressSpace in
    let* BasePtrCast := emit (CreateBitCast Arg1 CharPtrTy) CharPtrTy in
    let* NegOffset := emit (CreateNeg Arg2) (IRBuilder.getType Arg2) in
    let* ResultPtr := emit (CreateGEP false BasePtrCast NegOffset) CharPtrTy in
    ret (Some ResultPtr).

(** The first part of [binaryOp] for a pointer result: a finished address,
    or the type to compute in. *)
Definition pointer_case (Opcode : BinaryOpcode) (ResultType : Ty) (Arg1 Arg2 : Value) :
    M (option Value * Ty) :=
  if isPointerTy ResultType then
    match Opcode with
    | Add => let* PtrAdd := genPointerAdd Arg1 Arg2 in ret (PtrAdd, ResultType)
    | Sub => let* PtrSub := genPointerSub Arg1 Arg2 in ret (PtrSub, ResultType)
    | AddOvfUn | SubOvfUn => ret (None, NativeIntTy)
    | _ => ret (None, ResultType)
    end
  else ret (None, ResultType).

Definition convert_operand (ArithType : Ty) (IsUnsigned : bool) (Arg : Value) : M Value :=
  if bool_decide (IRBuilder.getType Arg = ArithType) then ret Arg
  else Convert.convert ArithType Arg (negb IsUnsigned).

Definition is_division (Op : BinaryOps) : bool :=
  match Op with SDiv | UDiv | SRem | URem => true | _ => false end.

(** The operation itself, on operands of the arithmetic type; an overflow
    intrinsic returns a structure of the result and the overflow bit. *)
Definition emit_operation (Opcode : BinaryOpcode) (T : BinaryTriple) (ResultType ArithType : Ty)
    (Arg1 Arg2 : Value) : M Value :=
  if isFloatingPointTy ResultType && is_op Opcode Rem then
    emit (CallHelper (if isFloatTy ResultType then CORINFO_HELP_FLTREM else CORINFO_HELP_DBLREM)
            [Arg1; Arg2]) ResultType
  else if IsOverflow T then
    let* Id := lift (match Op T with OpIntrinsic Id => Some Id | OpOpcode _ => None end) in
    let* Pair := emit (CallIntrinsic Id Arg1 Arg2) (StructTy 0) in
    let* OvfBool := emit (CreateExtractValue Pair 1) i1 in
    genConditionalThrow OvfBool CORINFO_HELP_OVERFLOW ;*
    emit (CreateExtractValue Pair 0) ArithType
  else
    let* BinOp := lift (match Op T with OpOpcode B => Some B | OpIntrinsic _ => None end) in
    (if is_division BinOp && UseExplicitZeroDivideChecks then
       let* IsZero := emit (CreateIsNull Arg2) i1 in
       genConditionalThrow IsZero CORINFO_HELP_THROWDIVZERO
     else ret tt) ;*
    emit (CreateBinOp BinOp Arg1 Arg2) ArithType.

Definition binaryOp (Opcode : BinaryOpcode) (Arg1 Arg2 : Value) : M Value :=
  let* ResultType :=
    lift (binaryOpType Opcode (IRBuilder.getType Arg1) (IRBuilder.getType Arg2)) in
  let* (Pointer, ArithType) := pointer_case Opcode ResultType Arg1 Arg2 in
  match Pointer with
  | Some Result => ret Result
  | None =>
      let Triple := if isFloatingPointTy ResultType then FloatMap else IntMap in
      let* T := lift (mjoin (Triple !! Z.to_nat (BinaryOpcode_Z Opcode))) in
      let* Arg1 := convert_operand ArithType (IsUnsigned T) Arg1 in
      let* Arg2 := convert_operand ArithType (IsUnsigned T) Arg2 in
      let* Result := emit_operation Opcode T ResultType ArithType Arg1 Arg2 in
      if bool_decide (ResultType = ArithType) then ret Result
      else
        assert (isPointerTy ResultType && isIntegerTy ArithType) ;*
        emit (CreateIntToPtr Result ResultType) ResultType
  end.

Definition unaryOp (Opcode : UnaryOpcode) (Arg1 : Value) : M Value :=
  let T := IRBuilder.getType Arg1 in
  match Opcode with
  | Neg => emit (if isFloatingPointTy T then CreateFNeg Arg1 else CreateNeg Arg1) T
  | Not => emit (CreateNot Arg1) T
  | LastUnaryOpcode => fail
  end.

Definition shift (Opcode : ShiftOpcode) (ShiftAmount ShiftOperand : Value) : M Value :=
  let OperandType := IRBuilder.getType ShiftOperand in
  let* ShiftAmount :=
    if bool_decide (OperandType = IRBuilder.getType ShiftAmount) then ret ShiftAmount
    else emit (CreateIntCast ShiftAmount OperandType false) OperandType in
  let Op := match Opcode with
            | ReaderBaseNS.Shl => IRBuilder.Shl
            | Shr => AShr
            | _ => LShr
            end in
  emit (CreateBinOp Op ShiftOperand ShiftAmount) OperandType.
End arith.
(** ** Comparisons and branches *)

Section cmp.
Variable TargetPointerSizeInBits : Z.

(** [classifyCmpType]: size, pointer, floating point. *)
Definition classifyCmpType (T : Ty) : option (Z * bool * bool) :=
  match T with
  | IntegerTy w => Some (w, false, false)
  | PointerTy _ _ => Some (TargetPointerSizeInBits, true, false)
  | FloatTy => Some (32, false, true)
  | DoubleTy => Some (64, false, true)
  | _ => None
  end.

(** [prepareArgsForCompare]: the operands brought to one type, and whether
    it is a floating-point type. *)
Definition prepareArgsForCompare (Arg1 Arg2 : Value) : M (Value * Value * bool) :=
  let Ty1 := IRBuilder.getType Arg1 in
  let Ty2 := IRBuilder.getType Arg2 in
  let* (Size1, IsPointer1, IsFloat1) := lift (classifyCmpType Ty1) in
  let* (Size2, IsPointer2, IsFloat2) := lift (classifyCmpType Ty2) in
  assert ((Size1 =? 32) || (Size1 =? 64)) ;*
  assert ((Size2 =? 32) || (Size2 =? 64)) ;*
  assert (Bool.eqb IsFloat1 IsFloat2) ;*
  let* (Arg1, Arg2) :=
    if negb (Size1 =? Size2) then
      assert (negb IsPointer1 && negb IsPointer2) ;*
      if Size1 =? 32 then
        let* Arg1 := emit (if IsFloat1 then CreateFPExt Arg1 Ty2
                           else CreateIntCast Arg1 Ty2 true) Ty2 in
        ret (Arg1, Arg2)
      else
        let* Arg2 := emit (if IsFloat2 then CreateFPExt Arg2 Ty1
                           else CreateIntCast Arg2 Ty1 true) Ty1 in
        ret (Arg1, Arg2)
    else if bool_decide (Ty1 = Ty2) then ret (Arg1, Arg2)
    else
      assert (IsPointer1 || IsPointer2) ;*
      if IsPointer1 && negb IsPointer2 then
        let* Arg1 := emit (CreatePointerCast Arg1 Ty2) Ty2 in ret (Arg1, Arg2)
      else
        let* Arg2 := emit (CreatePointerCast Arg2 Ty1) Ty1 in ret (Arg1, Arg2) in
  assert (bool_decide (IRBuilder.getType Arg1 = IRBuilder.getType Arg2)) ;*
  ret (Arg1, Arg2, IsFloat1).

Definition IntCmpMap : list Predicate := [ICMP_EQ; ICMP_SGT; ICMP_UGT; ICMP_SLT; ICMP_ULT].
Definition FloatCmpMap : list Predicate := [FCMP_OEQ; FCMP_OGT; FCMP_UGT; FCMP_OLT; FCMP_ULT].

Definition cmp (Opcode : CmpOpcode) (Arg1 Arg2 : Value) : M Value :=
  let* (Arg1, Arg2, IsFloat) := prepareArgsForCompare Arg1 Arg2 in
  let* P := lift ((if IsFloat then FloatCmpMap else IntCmpMap) !! Z.to_nat (CmpOpcode_Z Opcode)) in
  let* Cmp := emit (if IsFloat then CreateFCmp P Arg1 Arg2 else CreateICmp P Arg1 Arg2) i1 in
  convertToStackType TargetPointerSizeInBits Cmp CORINFO_TYPE_UINT.

Definition BranchMap : list Predicate := [ICMP_EQ; ICMP_EQ; ICMP_NE; ICMP_NE].

(** [boolBranch] and [condBranch]: the condition they give the branch that
    ends the block. *)
Definition boolBranch (Opcode : BoolBranchOpcode) (Arg1 : Value) : M Value :=
  let* P := lift (BranchMap !! Z.to_nat (BoolBranchOpcode_Z Opcode)) in
  emit (CreateICmp P Arg1 (getNullValue (IRBuilder.getType Arg1))) i1.

Definition IntBranchMap : list Predicate :=
  [ICMP_EQ; ICMP_EQ; ICMP_SGE; ICMP_SGE; ICMP_UGE; ICMP_UGE; ICMP_SGT; ICMP_SGT;
   ICMP_UGT; ICMP_UGT; ICMP_SLE; ICMP_SLE; ICMP_ULE; ICMP_ULE; ICMP_SLT; ICMP_SLT;
   ICMP_ULT; ICMP_ULT; ICMP_NE; ICMP_NE].
Definition FloatBranchMap : list Predicate :=
  [FCMP_OEQ; FCMP_OEQ; FCMP_OGE; FCMP_OGE; FCMP_UGE; FCMP_UGE; FCMP_OGT; FCMP_OGT;
   FCMP_UGT; FCMP_UGT; FCMP_OLE; FCMP_OLE; FCMP_ULE; FCMP_ULE; FCMP_OLT; FCMP_OLT;
   FCMP_ULT; FCMP_ULT; FCMP_UNE; FCMP_UNE].

Definition condBranch (Opcode : CondBranchOpcode) (Arg1 Arg2 : Value) : M Value :=
  let* (Arg1, Arg2, IsFloat) := prepareArgsForCompare Arg1 Arg2 in
  let* P := lift ((if IsFloat then FloatBranchMap else IntBranchMap)
                    !! Z.to_nat (CondBranchOpcode_Z Opcode)) in
  emit (if IsFloat then CreateFCmp P Arg1 Arg2 else CreateICmp P Arg1 Arg2) i1.

(** ** Checks that throw *)

Definition ckFinite (Arg : Value) : M Value :=
  let ArgTy := IRBuilder.getType Arg in
  assert (isFloatingPointTy ArgTy) ;*
  let ArgSize := getPrimitiveSizeInBits ArgTy in
  let IntTy := IntegerTy (if ArgSize =? 32 then 32 else 64) in
  let ExponentMask :=
    if ArgSize =? 32 then ConstantInt 32 0x7F800000 else ConstantInt 64 0x7FF0000000000000 in
  let* IntBits := emit (CreateBitCast Arg IntTy) IntTy in
  let* ExponentBits := emit (CreateBinOp IAnd IntBits ExponentMask) IntTy in
  let* IsFinite := emit (CreateICmp ICMP_EQ ExponentBits ExponentMask) i1 in
  genConditionalThrow IsFinite CORINFO_HELP_OVERFLOW ;*
  ret Arg.

(** [genNullCheck]. *)
Definition genNullCheck (Node : Value) : M Value :=
  let* Compare := emit (CreateIsNull Node) i1 in
  genConditionalThrow Compare CORINFO_HELP_THROWNULLREF ;*
  ret Node.

Definition genBoundsCheck (ArrayLength Index : Value) : M unit :=
  let ArrayLengthType := IRBuilder.getType ArrayLength in
  assert (getPrimitiveSizeInBits (IRBuilder.getType Index) <=?
          getPrimitiveSizeInBits ArrayLengthType) ;*
  let* ConvertedIndex := emit (CreateIntCast Index ArrayLengthType false) ArrayLengthType in
  let* UpperBoundCompare := emit (CreateICmp ICMP_UGE ConvertedIndex ArrayLength) i1 in
  genConditionalThrow UpperBoundCompare CORINFO_HELP_RNGCHKFAIL.

(** [switchOpcode]: a case value of another width gets the selector's. *)
Definition adjust_case (OprBitWidth : Z) (Case : Z * Z) : Z * Z :=
  let '(OldBitWidth, bits) := Case in
  if OldBitWidth =? OprBitWidth then Case else (OprBitWidth, wrap OprBitWidth bits).

Definition switchOpcode (OprType : Ty) (Cases : list (Z * Z)) : option (list (Z * Z)) :=
  OprBitWidth ← getIntegerBitWidth OprType;
  if (32 <=? OprBitWidth) && (OprBitWidth <=? 64) &&
     forallb (fun c => c.1 <=? 64) (filter (fun c => c.1 <> OprBitWidth) Cases)
  then Some (map (adjust_case OprBitWidth) Cases)
  else None.
End cmp.

(** ** What the operators mean *)

(** Operands of a .un operator are unsigned, all others signed. *)
Definition op_signed (Opcode : BinaryOpcode) : bool :=
  match Opcode with AddOvfUn | DivUn | MulOvfUn | RemUn | SubOvfUn => false | _ => true end.

Definition op_checked (Opcode : BinaryOpcode) : bool :=
  match Opcode with
  | AddOvf | AddOvfUn | MulOvf | MulOvfUn | SubOvf | SubOvfUn => true
  | _ => false
  end.

Definition op_division (Opcode : BinaryOpcode) : bool :=
  match Opcode with Div | DivUn | Rem | RemUn => true | _ => false end.

(** The operation on mathematical integers. *)
Definition op_exact (Opcode : BinaryOpcode) (a b : Z) : Z :=
  match Opcode with
  | Add | AddOvf | AddOvfUn => a + b
  | Sub | SubOvf | SubOvfUn => a - b
  | Mul | MulOvf | MulOvfUn => a * b
  | Div | DivUn => Z.quot a b
  | Rem | RemUn => Z.rem a b
  | And => Z.land a b
  | Or => Z.lor a b
  | Xor | LastBinaryOpcode => Z.lxor a b
  end.

(** On operands read as integers [a] and [b]: a division by zero throws, the
    quotient of the least integer by -1 is undefined, a checked operation
    throws when the exact result does not fit, and every other result is cut
    to the width. *)
Definition op_result {F : Type} (Opcode : BinaryOpcode) (w a b : Z) : Outcome F :=
  let z := op_exact Opcode a b in
  if op_division Opcode && (b =? 0) then Throws CORINFO_HELP_THROWDIVZERO
  else if op_division Opcode && op_signed Opcode && (a =? - 2 ^ (w - 1)) && (b =? -1)
  then Undefined
  else if op_checked Opcode && negb (Convert.in_target (op_signed Opcode) w z)
  then Throws CORINFO_HELP_OVERFLOW
  else Returns (RInt (wrap w z)).

(** ** The emitted operation *)

Lemma division_overflows_wrap (w a b : Z) :
  0 < w -> - 2 ^ (w - 1) <= a < 2 ^ (w - 1) -> - 2 ^ (w - 1) <= b < 2 ^ (w - 1) ->
  division_overflows w (wrap w a) (wrap w b) = (a =? - 2 ^ (w - 1)) && (b =? -1).
Proof.
  intros Hw Ha Hb. unfold division_overflows. autorewrite with modular. uncut. done.
Qed.

Lemma wrap_quot (w a b : Z) : 0 <= a < 2 ^ w -> 0 < b -> wrap w (Z.quot a b) = a / b.
Proof.
  intros Ha Hb. rewrite Z.quot_div_nonneg by lia. apply wrap_small.
  split; [by apply Z.div_pos; lia|]. apply Z.le_lt_trans with a; [|lia].
  apply Z.div_le_upper_bound; nia.
Qed.

Lemma wrap_rem (w a b : Z) : 0 <= a < 2 ^ w -> 0 < b -> wrap w (Z.rem a b) = a mod b.
Proof.
  intros Ha Hb. rewrite Z.rem_mod_nonneg by lia. apply wrap_small.
  pose proof (Z.mod_pos_bound a b Hb). pose proof (Z.mod_le a b). lia.
Qed.

(** Integer operands as the stack holds them: widths, and the width of the
    result; 32 and 64 bits mix on a 64-bit target only. *)
Definition operand_widths (native w1 w2 : Z) : Prop :=
  (native = 32 \/ native = 64) /\ (w1 = 32 \/ w1 = 64) /\ (w2 = 32 \/ w2 = 64) /\
  (w1 = w2 \/ native = 64).

Ltac reduce_op :=
  cbn -[Z.pow Z.add Z.sub Z.mul Z.opp Z.leb Z.ltb Z.eqb Z.max Z.modulo Z.quot Z.rem Z.div
        Z.land Z.lor Z.lxor swrap wrap in_signed in_unsigned division_overflows].

(** Splits on the tests of the emitted code and of its specification. *)
Ltac decide_op := repeat (match goal with
  | |- context [in_signed ?a ?b] => destruct (in_signed a b)
  | |- context [in_unsigned ?a ?b] => destruct (in_unsigned a b)
  | |- context [?a =? ?b] => destruct (Z.eqb_spec a b); try lia
  end; reduce_op).

Ltac unsign := repeat match goal with
  | |- context [swrap ?w ?z] => rewrite (swrap_small w z) by lia
  end.

Ltac solve_op :=
  Convert.run_code; unfold op_result, Convert.in_target; reduce_op;
  autorewrite with modular; unsign; autorewrite with modular;
  rewrite ?division_overflows_wrap by lia; uncut; Convert.eval_constants;
  rewrite ?b2z_eqb_0; decide_op; try done;
  first [by rewrite wrap_quot by lia | by rewrite wrap_rem by lia].

Ltac range_facts H := apply in_signed_spec in H || apply in_unsigned_spec in H.

Section binary.
Context {L : LLVM} {LS : LLVMLaws L} (native w1 w2 : Z) (Hw : operand_widths native w1 w2).

Lemma binaryOp_run (Opcode : BinaryOpcode) (a b : Z) :
  Opcode <> LastBinaryOpcode ->
  Convert.in_target (op_signed Opcode) w1 a = true ->
  Convert.in_target (op_signed Opcode) w2 b = true ->
  run native [RInt (wrap w1 a); RInt (wrap w2 b)]
    (binaryOp native Opcode (MkValue (Arg 0) (IntegerTy w1)) (MkValue (Arg 1) (IntegerTy w2)))
  = Some (op_result Opcode (Z.max w1 w2) a b).
Proof using All.
  intros HO Ha Hb. destruct Hw as ([-> | ->] & [-> | ->] & [-> | ->] & Hn); try lia;
    destruct Opcode; try done; cbn in Ha, Hb; range_facts Ha; range_facts Hb.
  all: solve_op.
Qed.
End binary.

(** The bits of an integer and its reading determine each other. *)
Lemma reading_in_target (Signed : bool) (w x : Z) : 0 < w -> 0 <= x < 2 ^ w ->
  Convert.in_target Signed w (Convert.reading Signed w x) = true.
Proof.
  intros Hw Hx. destruct Signed; cbn.
  - by apply in_signed_spec, swrap_range.
  - rewrite wrap_small by done. by apply in_unsigned_spec.
Qed.

(** C32: binary operators on integers. For every operator, on 32- and 64-bit
    targets, and for operands of 32 or 64 bits in any mixture the target
    allows: the emitted code throws DivideByZero for a zero divisor, throws
    Overflow exactly when a checked result does not fit the width, is
    undefined only for the least integer divided by -1, and otherwise computes
    the operation on the operands, each read by the operator's signedness and
    widened to the larger width, modulo that width. *)
Theorem binaryOp_int_correct {L : LLVM} (LS : LLVMLaws L) (native w1 w2 : Z)
    (Opcode : BinaryOpcode) (x y : Z)
    (Hw : operand_widths native w1 w2) (HO : Opcode <> LastBinaryOpcode)
    (Hx : 0 <= x < 2 ^ w1) (Hy : 0 <= y < 2 ^ w2) :
  run native [RInt x; RInt y]
    (binaryOp native Opcode (MkValue (Arg 0) (IntegerTy w1)) (MkValue (Arg 1) (IntegerTy w2)))
  = Some (op_result Opcode (Z.max w1 w2) (Convert.reading (op_signed Opcode) w1 x)
            (Convert.reading (op_signed Opcode) w2 y)).
Proof.
  assert (H1 : 0 < w1) by (destruct Hw as (_ & ? & _); lia).
  assert (H2 : 0 < w2) by (destruct Hw as (_ & _ & ? & _); lia).
  rewrite <- (Convert.wrap_reading (op_signed Opcode) w1 x) at 1 by done.
  rewrite <- (Convert.wrap_reading (op_signed Opcode) w2 y) at 1 by done.
  apply binaryOp_run; try done; by apply reading_in_target.
Qed.

Lemma binaryOp_int_correct_witness :
  run (L := DemoLLVM) 64 [RInt 7; RInt 0]
    (binaryOp 64 Div (MkValue (Arg 0) (IntegerTy 32)) (MkValue (Arg 1) (IntegerTy 32)))
    = Some (Throws CORINFO_HELP_THROWDIVZERO) /\
  run (L := DemoLLVM) 64 [RInt (2 ^ 32 - 1); RInt 5]
    (binaryOp 64 Add (MkValue (Arg 0) (IntegerTy 32)) (MkValue (Arg 1) (IntegerTy 64)))
    = Some (Returns (RInt 4)).
Proof.
  split; [apply (binaryOp_int_correct DemoLLVM_laws 64 32 32 Div 7 0)
         |apply (binaryOp_int_correct DemoLLVM_laws 64 32 64 Add (2 ^ 32 - 1) 5)];
    unfold operand_widths; (lia || done).
Defined.

(** Managed pointer plus integer has a type, integer plus managed pointer has
    none: for those operands [binaryOp] fails its assertion, although
    [genPointerAdd] could swap them. *)
Lemma int_plus_managed_pointer (native : Z) (E : Ty) (s : list Instr) (d1 d2 : Def) :
  native = 32 \/ native = 64 ->
  binaryOpType native Add (PointerTy E ManagedAddressSpace) (IntegerTy native)
    = Some (PointerTy E ManagedAddressSpace) /\
  binaryOp native Add (MkValue d1 (IntegerTy native))
    (MkValue d2 (PointerTy E ManagedAddressSpace)) s = None.
Proof. by intros [-> | ->]. Qed.

End Arith.
