(* ===== verification/Compare.v ===== *)
(** * Correctness of comparisons, branches, shifts and checks

    The theorems about the code that [cmp], [condBranch], [boolBranch],
    [shift], [ckFinite] and [genBoundsCheck] of [Arith] emit. *)

From S2P Require Import Prelude Opcodes IRBuilder GenIRTypes Conv Arith.
Import ReaderBaseNS Arith.

(** ** Comparisons *)

(** Operands that may be compared: integers of 32 or 64 bits in any mixture,
    pointers with pointers and with native integers, and floating-point
    numbers in any mixture. *)
Inductive comparable (native : Z) : Ty -> Ty -> Prop :=
  | comparable_int w1 w2 :
      w1 = 32 \/ w1 = 64 -> w2 = 32 \/ w2 = 64 ->
      comparable native (IntegerTy w1) (IntegerTy w2)
  | comparable_ptr E A E' A' : comparable native (PointerTy E A) (PointerTy E' A')
  | comparable_ptr_int E A : comparable native (PointerTy E A) (IntegerTy native)
  | comparable_int_ptr E A : comparable native (IntegerTy native) (PointerTy E A)
  | comparable_fp T1 T2 :
      T1 = FloatTy \/ T1 = DoubleTy -> T2 = FloatTy \/ T2 = DoubleTy ->
      comparable native T1 T2.

(** The bits of an operand brought to [w] bits. *)
Definition extended (native : Z) (T : Ty) (w x : Z) : Z := wrap w (swrap (width native T) x).

(** How two operands compare, integers by their signed or unsigned reading
    after the narrower one has been sign-extended, numbers after a float has
    been widened; [None] is unordered. *)
Definition compare_values {L : LLVM} (native : Z) (Signed : bool) (T1 T2 : Ty) (r1 r2 : RVal FP) :
    option comparison :=
  match r1, r2 with
  | RInt x, RInt y =>
      let w := Z.max (width native T1) (width native T2) in
      Some (Convert.reading Signed w (extended native T1 w x)
              ?= Convert.reading Signed w (extended native T2 w y))
  | RFP f, RFP g =>
      let widen T T' f := if isFloatTy T && isDoubleTy T' then fp_cast DoubleTy f else f in
      fp_compare (widen T1 T2 f) (widen T2 T1 g)
  | _, _ => None
  end.

(** cgt and clt order by the signed reading, ceq compares the bits. *)
Definition cmp_signed (Opcode : CmpOpcode) : bool :=
  match Opcode with Cgt | Clt => true | _ => false end.

(** A .un comparison is also true of unordered operands. *)
Definition cmp_holds (Opcode : CmpOpcode) (c : option comparison) : bool :=
  match Opcode, c with
  | Ceq, Some Eq => true
  | Cgt, Some Gt => true
  | CgtUn, (Some Gt | None) => true
  | Clt, Some Lt => true
  | CltUn, (Some Lt | None) => true
  | _, _ => false
  end.

(** The comparison a conditional branch stands for, and whether the branch is
    taken when it fails; for floating-point operands an ordered branch that is
    taken on failure stands for the unordered comparison, and the other way
    round. *)
Definition branch_cmp (IsFloat : bool) (Opcode : CondBranchOpcode) : CmpOpcode * bool :=
  match Opcode with
  | Beq | BeqS => (Ceq, false)
  | Bge | BgeS => (if IsFloat then CltUn else Clt, true)
  | BgeUn | BgeUnS => (if IsFloat then Clt else CltUn, true)
  | Bgt | BgtS => (Cgt, false)
  | BgtUn | BgtUnS => (CgtUn, false)
  | Ble | BleS => (if IsFloat then CgtUn else Cgt, true)
  | BleUn | BleUnS => (if IsFloat then Cgt else CgtUn, true)
  | Blt | BltS => (Clt, false)
  | BltUn | BltUnS => (CltUn, false)
  | BneUn | BneUnS | LastCondBranchOpcode => (Ceq, true)
  end.

(** The comparison emitted for a pair of pointers of different types. *)
Lemma prepare_pointers (native : Z) (d1 d2 : Def) (E E' : Ty) (A A' : Z) :
  native = 32 \/ native = 64 -> PointerTy E A <> PointerTy E' A' ->
  forall s, prepareArgsForCompare native (MkValue d1 (PointerTy E A)) (MkValue d2 (PointerTy E' A')) s =
    Some (s ++ [CreatePointerCast (MkValue d2 (PointerTy E' A')) (PointerTy E A)],
          (MkValue d1 (PointerTy E A), MkValue (Reg (length s)) (PointerTy E A), false)).
Proof.
  intros Hn HE s. unfold prepareArgsForCompare, bind.
  destruct Hn as [-> | ->]; cbn -[bool_decide];
    rewrite (bool_decide_false (PointerTy E A = PointerTy E' A')) by done; cbn -[bool_decide];
    by rewrite bool_decide_true.
Qed.

(** On pointers of one type nothing is emitted. *)
Lemma prepare_pointers_same (native : Z) (d1 d2 : Def) (E : Ty) (A : Z) :
  native = 32 \/ native = 64 ->
  forall s, prepareArgsForCompare native (MkValue d1 (PointerTy E A)) (MkValue d2 (PointerTy E A)) s =
    Some (s, (MkValue d1 (PointerTy E A), MkValue d2 (PointerTy E A), false)).
Proof.
  intros Hn s. unfold prepareArgsForCompare, bind.
  destruct Hn as [-> | ->]; cbn -[bool_decide]; repeat (rewrite bool_decide_true by done; cbn -[bool_decide]); reflexivity.
Qed.

(** Compiles a comparison of operands of concrete types, or of two pointers. *)
Ltac compile_compare :=
  first
    [ compile
    | match goal with
      | |- context [run ?P ?args ?m] =>
          erewrite (run_eq P args m)
            by (unfold cmp, condBranch, bind;
                (rewrite prepare_pointers by (done || lia)) || rewrite prepare_pointers_same by lia;
                vm_compute; reflexivity)
      end ].

Lemma wrap_b2z (w : Z) (b : bool) : 0 < w -> wrap w (Z.b2z b) = Z.b2z b.
Proof.
  intros H. apply wrap_small. assert (2 ^ 1 <= 2 ^ w) by (apply Z.pow_le_mono_r; lia).
  destruct b; cbn in *; lia.
Qed.

Ltac reduce_compare :=
  cbn -[Z.pow Z.add Z.sub Z.mul Z.opp Z.leb Z.ltb Z.eqb Z.max Z.modulo Z.compare swrap wrap].

(** Decides an order test against a three-way comparison. *)
Ltac decide_compare := repeat (match goal with
  | |- context [?a =? ?b] => destruct (Z.eqb_spec a b)
  | |- context [?a <? ?b] => destruct (Z.ltb_spec a b)
  | |- context [?a <=? ?b] => destruct (Z.leb_spec a b)
  | |- context [?a ?= ?b] => destruct (Z.compare_spec a b)
  | |- context [fp_compare ?f ?g] => destruct (fp_compare f g) as [[]|]
  end; try lia; reduce_compare); try done.

(** Runs a comparison down to an order test against its specification. *)
Ltac run_compare :=
  compile_compare; reduce_compare; autorewrite with llvm; unfold icmp_spec, extended;
  reduce_compare; rewrite ?wrap_b2z by lia; Convert.eval_constants; merge_cuts; uncut; decide_compare.

(** One goal for each pair of operand types; pointers of the same type apart. *)
Ltac each_type Hn HT := destruct HT as [w1 w2 H1 H2 | E A E' A' | E A | E A | T1 T2 H1 H2];
  destruct Hn as [-> | ->];
  [ destruct H1 as [-> | ->]; destruct H2 as [-> | ->]
  | destruct H1 as [-> | ->]; destruct H2 as [-> | ->]
  | destruct (decide (PointerTy E A = PointerTy E' A')) as [HE|HE]; [injection HE as <- <-|]
  | destruct (decide (PointerTy E A = PointerTy E' A')) as [HE|HE]; [injection HE as <- <-|]
  | idtac | idtac | idtac | idtac
  | destruct H1 as [-> | ->]; destruct H2 as [-> | ->]
  | destruct H1 as [-> | ->]; destruct H2 as [-> | ->] ].

Section compare.
Context {L : LLVM} {LS : LLVMLaws L} (native : Z) (Hn : native = 32 \/ native = 64).

Lemma cmp_run (Opcode : CmpOpcode) (T1 T2 : Ty) (r1 r2 : RVal FP) :
  Opcode <> LastCmpOpcode -> comparable native T1 T2 ->
  Convert.stack_value native T1 r1 -> Convert.stack_value native T2 r2 ->
  run native [r1; r2] (cmp native Opcode (MkValue (Arg 0) T1) (MkValue (Arg 1) T2))
    = Some (Returns (RInt (Z.b2z (cmp_holds Opcode
        (compare_values native (cmp_signed Opcode) T1 T2 r1 r2))))).
Proof using All.
  intros HO HT Hx Hy. each_type Hn HT; destruct r1 as [x|f| | |], r2 as [y|g| | |]; try done; cbn in Hx, Hy;
    destruct Opcode; try done.
  all: run_compare.
Qed.

Lemma condBranch_run (Opcode : CondBranchOpcode) (T1 T2 : Ty) (r1 r2 : RVal FP) :
  Opcode <> LastCondBranchOpcode -> comparable native T1 T2 ->
  Convert.stack_value native T1 r1 -> Convert.stack_value native T2 r2 ->
  let '(c, negated) := branch_cmp (isFloatingPointTy T1) Opcode in
  run native [r1; r2] (condBranch native Opcode (MkValue (Arg 0) T1) (MkValue (Arg 1) T2))
    = Some (Returns (RInt (Z.b2z (xorb negated (cmp_holds c
        (compare_values native (cmp_signed c) T1 T2 r1 r2)))))).
Proof using All.
  intros HO HT Hx Hy. each_type Hn HT; destruct r1 as [x|f| | |], r2 as [y|g| | |]; try done; cbn in Hx, Hy;
    destruct Opcode; try done; cbn [branch_cmp isFloatingPointTy isFloatTy isDoubleTy orb].
  all: run_compare.
Qed.
End compare.

(** Comparisons. On 32- and 64-bit targets and for every pair of
    comparable operands, [cmp] leaves 1 or 0: the order of the signed
    readings for cgt and clt, of the unsigned ones for their .un forms, after
    a 32-bit operand has been sign-extended to the width of the other; for
    numbers the .un forms hold of unordered operands as well. *)
Theorem cmp_correct {L : LLVM} (LS : LLVMLaws L) (native : Z) (Opcode : CmpOpcode) (T1 T2 : Ty)
    (r1 r2 : RVal FP)
    (Hn : native = 32 \/ native = 64) (HO : Opcode <> LastCmpOpcode)
    (HT : comparable native T1 T2)
    (H1 : Convert.stack_value native T1 r1) (H2 : Convert.stack_value native T2 r2) :
  run native [r1; r2] (cmp native Opcode (MkValue (Arg 0) T1) (MkValue (Arg 1) T2))
    = Some (Returns (RInt (Z.b2z (cmp_holds Opcode
        (compare_values native (cmp_signed Opcode) T1 T2 r1 r2))))).
Proof. by apply cmp_run. Qed.

Lemma cmp_correct_witness :
  run (L := DemoLLVM) 64 [RInt (2 ^ 32 - 1); RInt 1]
    (cmp 64 Clt (MkValue (Arg 0) (IntegerTy 32)) (MkValue (Arg 1) (IntegerTy 64)))
  = Some (Returns (RInt 1)).
Proof.
  apply (cmp_correct DemoLLVM_laws 64 Clt (IntegerTy 32) (IntegerTy 64) (RInt (2 ^ 32 - 1)) (RInt 1));
    [by right|done|constructor; lia|cbn; lia|cbn; lia].
Defined.

(** C34: a conditional branch is a comparison and a branch on its result. For
    every opcode and comparable operands, [condBranch] takes the branch
    exactly when the code of [cmp] for the comparison the instruction stands
    for, followed by the code of [boolBranch] for brtrue or, where the
    instruction branches on failure, brfalse, takes it. *)
Theorem condBranch_equiv_cmp {L : LLVM} (LS : LLVMLaws L) (native : Z) (Opcode : CondBranchOpcode)
    (T1 T2 : Ty) (r1 r2 : RVal FP)
    (Hn : native = 32 \/ native = 64) (HO : Opcode <> LastCondBranchOpcode)
    (HT : comparable native T1 T2)
    (H1 : Convert.stack_value native T1 r1) (H2 : Convert.stack_value native T2 r2) :
  let '(c, negated) := branch_cmp (isFloatingPointTy T1) Opcode in
  exists r, run native [r1; r2] (cmp native c (MkValue (Arg 0) T1) (MkValue (Arg 1) T2))
              = Some (Returns r) /\
    run native [r1; r2] (condBranch native Opcode (MkValue (Arg 0) T1) (MkValue (Arg 1) T2))
      = run native [r] (boolBranch (if negated then BrFalse else BrTrue) (MkValue (Arg 0) (IntegerTy 32))).
Proof.
  pose proof (condBranch_run native Hn Opcode T1 T2 r1 r2 HO HT H1 H2) as Hb.
  destruct (branch_cmp _ Opcode) as [c negated] eqn:E.
  assert (Hc : c <> LastCmpOpcode)
    by (destruct Opcode; cbn in E; destruct (isFloatingPointTy T1); congruence).
  eexists. split; [by apply cmp_run|]. rewrite Hb.
  destruct negated; compile; reduce_compare; autorewrite with llvm; cbn;
    by destruct (cmp_holds c _).
Qed.

Lemma condBranch_equiv_cmp_witness :
  run (L := DemoLLVM) 64 [RFP None; RFP (Some 1)]
    (condBranch 64 Bge (MkValue (Arg 0) DoubleTy) (MkValue (Arg 1) DoubleTy)) = Some (Returns (RInt 0)).
Proof.
  pose proof (condBranch_equiv_cmp DemoLLVM_laws 64 Bge DoubleTy DoubleTy (RFP None) (RFP (Some 1))
    (or_intror eq_refl) ltac:(done) ltac:(constructor; auto) I I) as H.
  cbn [branch_cmp isFloatingPointTy isFloatTy isDoubleTy orb] in H. destruct H as (r & Hc & Hb).
  refine (eq_trans Hb _). vm_compute in Hc. injection Hc as <-. vm_compute. reflexivity.
Defined.

(** ** Shifts *)

Definition shift_signed (Opcode : ShiftOpcode) : bool := match Opcode with ReaderBaseNS.Shr => true | _ => false end.

Definition shift_exact (Opcode : ShiftOpcode) (z n : Z) : Z :=
  match Opcode with ReaderBaseNS.Shl => z * 2 ^ n | _ => z / 2 ^ n end.

Lemma shiftr_nonneg (w x n : Z) : 0 <= x < 2 ^ w -> 0 <= n -> wrap w (x / 2 ^ n) = x / 2 ^ n.
Proof.
  intros Hx Hn. apply wrap_small. split; [by apply Z.div_pos; lia|].
  apply Z.le_lt_trans with x; [|lia]. apply Z.div_le_upper_bound; [lia|].
  assert (1 <= 2 ^ n) by lia. nia.
Qed.

(** Shifts. For operands and amounts of 32 or 64 bits, as long as the
    amount is less than the operand's width, the emitted code multiplies by a
    power of two modulo the width, or divides by it, rounding down, the
    operand's signed reading for shr and its unsigned one for shr.un; the
    amount is widened or cut as an unsigned integer. *)
Theorem shift_correct {L : LLVM} (LS : LLVMLaws L) (native w wa : Z) (Opcode : ShiftOpcode) (x n : Z)
    (HO : Opcode <> LastShiftOpcode)
    (Hw : w = 32 \/ w = 64) (Hwa : wa = 32 \/ wa = 64)
    (Hx : 0 <= x < 2 ^ w) (Hn : 0 <= n < w) :
  run native [RInt n; RInt x]
    (shift Opcode (MkValue (Arg 0) (IntegerTy wa)) (MkValue (Arg 1) (IntegerTy w)))
  = Some (Returns (RInt (wrap w
      (shift_exact Opcode (Convert.reading (shift_signed Opcode) w x) n)))).
Proof.
  assert (H64 : w < 2 ^ 32) by lia.
  destruct Hw as [-> | ->], Hwa as [-> | ->], Opcode; try done; compile; reduce_compare;
    autorewrite with llvm; cbn -[Z.pow Z.ltb Z.mul Z.div wrap swrap Z.shiftl Z.shiftr]; uncut;
    rewrite ?(proj2 (Z.ltb_lt n _)) by lia;
    cbn -[Z.pow Z.ltb Z.mul Z.div wrap swrap Z.shiftl Z.shiftr];
    rewrite ?Z.shiftl_mul_pow2, ?Z.shiftr_div_pow2 by lia; unfold Convert.reading;
    cbn -[Z.pow Z.mul Z.div wrap swrap]; rewrite ?(wrap_small _ x) by lia; try done;
    by rewrite ?shiftr_nonneg by lia.
Qed.

Lemma shift_correct_witness :
  run (L := DemoLLVM) 64 [RInt 3; RInt (2 ^ 32 - 16)]
    (shift ReaderBaseNS.Shr (MkValue (Arg 0) (IntegerTy 32)) (MkValue (Arg 1) (IntegerTy 32)))
  = Some (Returns (RInt (2 ^ 32 - 2))).
Proof.
  apply (shift_correct DemoLLVM_laws 64 32 32 ReaderBaseNS.Shr (2 ^ 32 - 16) 3); (done || lia).
Defined.

(** ** Checks *)

(** Array bounds. For an array length of less than 2^31 elements and any
    32-bit index, or any 64-bit one when the length is a 64-bit number, the
    emitted check throws exactly when the index, read as a signed integer, is
    negative or not less than the length. *)
Theorem genBoundsCheck_correct {L : LLVM} (LS : LLVMLaws L) (native wl wi len x : Z)
    (Hwl : wl = 32 \/ wl = 64) (Hwi : wi = 32 \/ wi = wl)
    (Hlen : 0 <= len < 2 ^ 31) (Hx : 0 <= x < 2 ^ wi) :
  run native [RInt len; RInt x]
    (bind (genBoundsCheck (MkValue (Arg 0) (IntegerTy wl)) (MkValue (Arg 1) (IntegerTy wi)))
       (fun _ => ret (MkValue (Arg 1) (IntegerTy wi))))
  = Some (if (0 <=? swrap wi x) && (swrap wi x <? len) then Returns (RInt x)
          else Throws CORINFO_HELP_RNGCHKFAIL).
Proof.
  assert (Hs : swrap wi x = if x <? 2 ^ (wi - 1) then x else x - 2 ^ wi)
    by (apply swrap_cases; lia).
  rewrite Hs. destruct Hwl as [-> | ->], Hwi as [-> | ->]; compile; reduce_compare;
    autorewrite with llvm; unfold icmp_spec; reduce_compare; uncut;
    rewrite b2z_eqb_0; decide_compare.
Qed.

Lemma genBoundsCheck_correct_witness :
  run (L := DemoLLVM) 64 [RInt 10; RInt (2 ^ 32 - 1)]
    (bind (genBoundsCheck (MkValue (Arg 0) (IntegerTy 64)) (MkValue (Arg 1) (IntegerTy 32)))
       (fun _ => ret (MkValue (Arg 1) (IntegerTy 32))))
  = Some (Throws CORINFO_HELP_RNGCHKFAIL).
Proof. apply (genBoundsCheck_correct DemoLLVM_laws 64 64 32 10 (2 ^ 32 - 1)); lia. Defined.

(** The mask of a bit field compares equal exactly when the field is full. *)
Lemma land_mask (b lo n : Z) : 0 <= lo -> 0 <= n ->
  (Z.land b (2 ^ lo * (2 ^ n - 1)) =? 2 ^ lo * (2 ^ n - 1)) = (b / 2 ^ lo mod 2 ^ n =? 2 ^ n - 1).
Proof.
  intros Hlo Hn.
  replace (2 ^ n - 1) with (Z.ones n) by (rewrite Z.ones_equiv; lia).
  rewrite (Z.mul_comm (2 ^ lo)), <- (Z.shiftl_mul_pow2 (Z.ones n) lo) by lia.
  rewrite <- (Z.shiftr_div_pow2 b lo), <- Z.land_ones by lia.
  assert (E : Z.land b (Z.shiftl (Z.ones n) lo)
              = Z.shiftl (Z.land (Z.shiftr b lo) (Z.ones n)) lo).
  { apply Z.bits_inj'. intros i Hi. rewrite Z.land_spec, !Z.shiftl_spec, Z.land_spec by lia.
    destruct (Z.lt_ge_cases i lo).
    - rewrite !(Z.testbit_neg_r _ (i - lo)) by lia. by rewrite !andb_false_r.
    - by rewrite Z.shiftr_spec, Z.sub_add by lia. }
  rewrite E, !Z.shiftl_mul_pow2 by lia. assert (0 < 2 ^ lo) by lia.
  set (y := Z.land _ _). destruct (Z.eqb_spec (y * 2 ^ lo) (Z.ones n * 2 ^ lo)) as [H1|H1],
    (Z.eqb_spec y (Z.ones n)) as [H2|H2]; try done.
  - apply Z.mul_cancel_r in H1; [done|lia].
  - by rewrite H2 in H1.
Qed.

(** The exponent field of a floating-point number, and its greatest value. *)
Definition exponent {L : LLVM} (T : Ty) (f : FP) : Z :=
  if isFloatTy T then fp_bits f / 2 ^ 23 mod 2 ^ 8 else fp_bits f / 2 ^ 52 mod 2 ^ 11.
Definition exponent_max (T : Ty) : Z := if isFloatTy T then 2 ^ 8 - 1 else 2 ^ 11 - 1.

(** Ckfinite. On a float or a double the emitted code throws exactly when
    the exponent field is all ones, which is the encoding of the infinities
    and of NaN, and otherwise leaves the operand as it is. *)
Theorem ckFinite_correct {L : LLVM} (LS : LLVMLaws L) (native : Z) (T : Ty) (f : FP)
    (HT : T = FloatTy \/ T = DoubleTy) :
  run native [RFP f] (ckFinite (MkValue (Arg 0) T))
  = Some (if exponent T f =? exponent_max T then Throws CORINFO_HELP_OVERFLOW
          else Returns (RFP f)).
Proof.
  destruct HT as [-> | ->]; compile;
    cbn -[Z.pow Z.eqb Z.land Z.div Z.modulo]; autorewrite with llvm;
    cbn -[Z.pow Z.eqb Z.land Z.div Z.modulo]; autorewrite with llvm; cbn [icmp_spec];
    rewrite b2z_eqb_0; unfold exponent, exponent_max; cbn [isFloatTy].
  - rewrite <- (land_mask (fp_bits f) 23 8) by lia.
    change (2 ^ 23 * (2 ^ 8 - 1)) with 2139095040. by destruct (_ =? _).
  - rewrite <- (land_mask (fp_bits f) 52 11) by lia.
    change (2 ^ 52 * (2 ^ 11 - 1)) with 9218868437227405312. by destruct (_ =? _).
Qed.

Lemma ckFinite_correct_witness :
  run (L := DemoLLVM) 64 [RFP None] (ckFinite (MkValue (Arg 0) DoubleTy))
  = Some (Throws CORINFO_HELP_OVERFLOW).
Proof. apply (ckFinite_correct DemoLLVM_laws 64 DoubleTy None). by right. Defined.
