(* ===== verification/StackTypes.v ===== *)
(** * The types of the emitted arithmetic

    LLVM's typing rules for the instructions that the arithmetic handlers emit,
    stated for the recorded code and without regard to the type that a handler
    expects of a builder call; and the theorem that the code of the handlers of
    [Arith] and [Conv] is well typed and leaves values of stack types. *)

From S2P Require Import Prelude Opcodes IRBuilder GenIRTypes Conv Arith.
Import ReaderBaseNS GenIR Arith.
#[local] Open Scope emit_scope.

(** ** LLVM's typing rules *)

(** What a register holds: a value of a type, or the pair of a value and a bit
    that an overflow intrinsic returns. *)
Inductive LType : Set := Plain (T : Ty) | WithOverflow (T : Ty).

(** The type of an operand: that of the instruction that has filled its
    register; constants are integers and null pointers. *)
Definition operand (G : list LType) (v : Value) : option LType :=
  match def v with
  | Arg _ => Some (Plain (IRBuilder.getType v))
  | Const _ =>
      if isIntegerTy (IRBuilder.getType v) || isPointerTy (IRBuilder.getType v)
      then Some (Plain (IRBuilder.getType v)) else None
  | Reg n => G !! n
  end.

Definition plain (G : list LType) (v : Value) : option Ty :=
  match operand G v with Some (Plain T) => Some T | _ => None end.

Definition compares_integers (P : Predicate) : bool :=
  match P with
  | ICMP_EQ | ICMP_NE | ICMP_SGT | ICMP_SGE | ICMP_SLT | ICMP_SLE
  | ICMP_UGT | ICMP_UGE | ICMP_ULT | ICMP_ULE => true
  | _ => false
  end.

Definition on_floats (Op : BinaryOps) : bool :=
  match Op with FAdd | FSub | FMul | FDiv | FRem => true | _ => false end.

(** The result where the condition on the operands holds. *)
Definition typed_if (b : bool) (T : Ty) : option LType := if b then Some (Plain T) else None.

(** A cast from types of one kind to types of another. *)
Definition cast_typed (From To : Ty -> bool) (S T : Ty) : option LType := typed_if (From S && To T) T.

(** The types of the runtime's helpers for floating-point numbers. *)
Definition helper_type (H : CorInfoHelpFunc) : option (list Ty * Ty) :=
  match H with
  | CORINFO_HELP_FLTREM => Some ([FloatTy; FloatTy], FloatTy)
  | CORINFO_HELP_DBLREM => Some ([DoubleTy; DoubleTy], DoubleTy)
  | CORINFO_HELP_DBL2INT_OVF | CORINFO_HELP_DBL2UINT_OVF => Some ([DoubleTy], IntegerTy 32)
  | CORINFO_HELP_DBL2LNG_OVF | CORINFO_HELP_DBL2ULNG_OVF => Some ([DoubleTy], IntegerTy 64)
  | _ => None
  end.

(** The type of an instruction from those of its operands (LLVM language
    reference); none if it is ill typed, or no instruction of arithmetic. *)
Definition llvm_type (G : list LType) (i : Instr) : option LType :=
  match i with
  | CreateICmp P A B =>
      S ← plain G A; T ← plain G B;
      typed_if (compares_integers P && bool_decide (S = T) && (isIntegerTy S || isPointerTy S)) i1
  | CreateFCmp P A B =>
      S ← plain G A; T ← plain G B;
      typed_if (negb (compares_integers P) && bool_decide (S = T) && isFloatingPointTy S) i1
  | CreateIsNull A => S ← plain G A; typed_if (isIntegerTy S || isPointerTy S) i1
  | CreateIntCast A T _ => S ← plain G A; cast_typed isIntegerTy isIntegerTy S T
  | CreatePtrToInt A T => S ← plain G A; cast_typed isPointerTy isIntegerTy S T
  | CreateIntToPtr A T => S ← plain G A; cast_typed isIntegerTy isPointerTy S T
  | CreatePointerCast A T =>
      S ← plain G A; cast_typed isPointerTy (fun T => isIntegerTy T || isPointerTy T) S T
  | CreateSIToFP A T | CreateUIToFP A T => S ← plain G A; cast_typed isIntegerTy isFloatingPointTy S T
  | CreateFPToSI A T | CreateFPToUI A T => S ← plain G A; cast_typed isFloatingPointTy isIntegerTy S T
  | CreateFPCast A T => S ← plain G A; cast_typed isFloatingPointTy isFloatingPointTy S T
  | CreateFPExt A T => S ← plain G A; cast_typed isFloatTy isDoubleTy S T
  | CreateBitCast A T =>
      S ← plain G A;
      match S, T with
      | PointerTy _ a, PointerTy _ b => typed_if (a =? b) T
      | _, _ =>
          typed_if (negb (isPointerTy S) && negb (isPointerTy T) && (0 <? getPrimitiveSizeInBits S) &&
                    (getPrimitiveSizeInBits S =? getPrimitiveSizeInBits T)) T
      end
  | CreateBinOp Op A B =>
      S ← plain G A; T ← plain G B;
      typed_if (bool_decide (S = T) && (if on_floats Op then isFloatingPointTy S else isIntegerTy S)) S
  | CreateNeg A | CreateNot A => S ← plain G A; typed_if (isIntegerTy S) S
  | CreateFNeg A => S ← plain G A; typed_if (isFloatingPointTy S) S
  | CreateGEP _ A B => S ← plain G A; T ← plain G B; typed_if (isPointerTy S && isIntegerTy T) S
  | CallIntrinsic _ A B =>
      S ← plain G A; T ← plain G B;
      if bool_decide (S = T) && isIntegerTy S then Some (WithOverflow S) else None
  | CreateExtractValue A n =>
      match operand G A with
      | Some (WithOverflow T) =>
          if n =? 0 then Some (Plain T) else if n =? 1 then Some (Plain i1) else None
      | _ => None
      end
  | CallHelper H As =>
      Ts ← mapM (plain G) As; p ← helper_type H; typed_if (bool_decide (Ts = p.1)) p.2
  | ConditionalThrow C _ => S ← plain G C; typed_if (bool_decide (S = i1)) VoidTy
  | _ => None
  end.

Fixpoint llvm_types (G : list LType) (code : list Instr) : option (list LType) :=
  match code with
  | [] => Some G
  | i :: code => T ← llvm_type G i; llvm_types (G ++ [T]) code
  end.

(** ** Emitters *)

(** Whenever its assertions hold, the emitter records well typed code behind
    registers of the types [G], and [Q] holds of its result and of the types
    that the registers have then. *)
Definition emits_typed {A} (m : M A) (G : list LType) (Q : A -> list LType -> Prop) : Prop :=
  forall s s' a, length s = length G -> m s = Some (s', a) ->
  exists new G', s' = s ++ new /\ llvm_types G new = Some G' /\ Q a G'.

(** The value has the type that the handler takes it to have. *)
Definition sound (G : list LType) (v : Value) : Prop := plain G v = Some (IRBuilder.getType v).

Lemma llvm_types_app (G : list LType) (l1 l2 : list Instr) :
  llvm_types G (l1 ++ l2) = G' ← llvm_types G l1; llvm_types G' l2.
Proof.
  revert G. induction l1 as [|i l1 IH]; intros G; [done|]. cbn.
  destruct (llvm_type G i); cbn; [apply IH|done].
Qed.

Lemma llvm_types_length (G G' : list LType) (l : list Instr) :
  llvm_types G l = Some G' -> length G' = (length G + length l)%nat.
Proof.
  revert G. induction l as [|i l IH]; cbn; intros G H.
  - injection H as <-. lia.
  - destruct (llvm_type G i); cbn in H; [|done]. apply IH in H. rewrite H, length_app. cbn. lia.
Qed.

Lemma emits_ret {A} (a : A) (G : list LType) (Q : A -> list LType -> Prop) : Q a G -> emits_typed (ret a) G Q.
Proof. intros H s s' b _ [= <- <-]. exists [], G. by rewrite app_nil_r. Qed.

Lemma emits_fail {A} (G : list LType) (Q : A -> list LType -> Prop) : emits_typed fail G Q.
Proof. by intros s s' a _ E. Qed.

Lemma emits_bind {A B} (m : M A) (f : A -> M B) (G : list LType) (Q : B -> list LType -> Prop) :
  emits_typed m G (fun a G' => emits_typed (f a) G' Q) -> emits_typed (bind m f) G Q.
Proof.
  intros Hm s s' b Hl H. unfold bind in H. destruct (m s) as [[s1 a]|] eqn:E; [|done].
  destruct (Hm _ _ _ Hl E) as (n1 & G1 & -> & H1 & Hf).
  assert (Hl1 : length (s ++ n1) = length G1).
  { rewrite length_app, (llvm_types_length _ _ _ H1). lia. }
  destruct (Hf _ _ _ Hl1 H) as (n2 & G2 & -> & H2 & HQ).
  exists (n1 ++ n2), G2. rewrite app_assoc, llvm_types_app, H1. done.
Qed.

Lemma emits_mono {A} (m : M A) (G : list LType) (Q Q' : A -> list LType -> Prop) :
  emits_typed m G Q -> (forall a G', Q a G' -> Q' a G') -> emits_typed m G Q'.
Proof. intros Hm HQ s s' a Hl H. destruct (Hm _ _ _ Hl H) as (new & G' & H1 & H2 & H3). eauto 6. Qed.

Lemma emits_lift {A} (o : option A) (G : list LType) (Q : A -> list LType -> Prop) :
  (forall a, o = Some a -> Q a G) -> emits_typed (lift o) G Q.
Proof. intros H. destruct o; [by apply emits_ret, H|apply emits_fail]. Qed.

Lemma emits_assert (b : bool) (G : list LType) (Q : unit -> list LType -> Prop) :
  (b = true -> Q tt G) -> emits_typed (assert b) G Q.
Proof. intros H. destruct b; [by apply emits_ret, H|apply emits_fail]. Qed.

(** A register that a call has just filled. *)
Lemma emits_any (i : Instr) (T : Ty) (L : LType) (G : list LType) (Q : Value -> list LType -> Prop) :
  llvm_type G i = Some L ->
  (forall v, IRBuilder.getType v = T -> operand (G ++ [L]) v = Some L -> Q v (G ++ [L])) ->
  emits_typed (emit i T) G Q.
Proof.
  intros Hi HQ s s' a Hl [= <- <-]. exists [i], (G ++ [L]). split; [done|]. cbn. rewrite Hi. split; [done|].
  apply HQ; [done|]. unfold operand. cbn. rewrite Hl. by apply list_lookup_middle.
Qed.

Lemma emits_emit (i : Instr) (T : Ty) (G : list LType) (Q : Value -> list LType -> Prop) :
  llvm_type G i = Some (Plain T) ->
  (forall v G', IRBuilder.getType v = T -> G `prefix_of` G' -> sound G' v -> Q v G') ->
  emits_typed (emit i T) G Q.
Proof.
  intros Hi HQ. eapply emits_any; [exact Hi|]. intros v HT Hv. apply HQ; [done|by apply prefix_app_r|].
  unfold sound, plain. by rewrite Hv, HT.
Qed.

Lemma emits_throw (C : Value) (H : CorInfoHelpFunc) (G : list LType) (Q : unit -> list LType -> Prop) :
  sound G C -> IRBuilder.getType C = i1 -> (forall G', G `prefix_of` G' -> Q tt G') ->
  emits_typed (genConditionalThrow C H) G Q.
Proof.
  intros HC HT HQ s s' a Hl [= <- <-]. exists [ConditionalThrow C H], (G ++ [Plain VoidTy]).
  split; [done|]. cbn. unfold sound in HC. rewrite HC, HT. split; [done|]. apply HQ. by apply prefix_app_r.
Qed.

Lemma sound_prefix (G G' : list LType) (v : Value) : G `prefix_of` G' -> sound G v -> sound G' v.
Proof.
  unfold sound, plain, operand. intros HG. destruct (def v); try done.
  destruct (G !! n) as [L|] eqn:HL; [|done]. by rewrite (prefix_lookup_Some _ _ _ _ HL HG).
Qed.

(** A sound result of a given type, behind what was recorded before. *)
Definition gives (G : list LType) (T : Ty) (v : Value) (G' : list LType) : Prop :=
  G `prefix_of` G' /\ sound G' v /\ IRBuilder.getType v = T.

(** Types are only added. *)
Ltac prefixes := solve
  [ repeat match goal with H : _ ++ _ `prefix_of` _ |- _ => apply prefix_app_l in H end;
    repeat first [eassumption | reflexivity | etransitivity; [eassumption|]] ].

(** Operands are sound in later states. *)
Ltac sounds := solve
  [ eassumption
  | eapply sound_prefix; [|eassumption]; repeat first [eassumption | reflexivity | etransitivity; [eassumption|]] ].

(** The type of an instruction whose operands are sound and have known types. *)
Ltac llvm_typed := cbn [llvm_type];
  repeat match goal with
  | |- context [plain ?G ?v] =>
      let H := fresh in assert (H : sound G v) by sounds; unfold sound in H; rewrite H; clear H;
      cbn [mbind option_bind]
  end;
  repeat match goal with H : IRBuilder.getType ?v = _ |- context [IRBuilder.getType ?v] => rewrite H end;
  cbn; rewrite ?bool_decide_eq_true_2 by done; try done.

Lemma gives_ret (G : list LType) (v : Value) (T : Ty) :
  sound G v -> IRBuilder.getType v = T -> gives G T v G.
Proof. done. Qed.

(** A conversion gives a value of its type. *)
Lemma convert_typed (T : Ty) (v : Value) (Signed : bool) (G : list LType) :
  sound G v -> emits_typed (Convert.convert T v Signed) G (gives G T).
Proof.
  intros Hv. unfold Convert.convert.
  destruct (bool_decide_reflect (T = IRBuilder.getType v)) as [->|_]; [by apply emits_ret|].
  repeat match goal with |- emits_typed (if ?b then _ else _) _ _ => destruct b eqn:? end; try apply emits_fail.
  all: eapply emits_emit; [|intros r G' HT HG Hr; by repeat split].
  all: llvm_typed; by unfold cast_typed, typed_if; rewrite ?andb_true_iff in *; 
    repeat match goal with H : _ /\ _ |- _ => destruct H | H : _ = true |- _ => rewrite H; clear H end.
Qed.

Lemma convert_operand_typed (T : Ty) (Unsigned : bool) (v : Value) (G : list LType) :
  sound G v -> emits_typed (convert_operand T Unsigned v) G (gives G T).
Proof.
  intros Hv. unfold convert_operand. case_bool_decide as HT; [by apply emits_ret|]. by apply convert_typed.
Qed.

(** ** Binary operations *)

(** The operand types of the evaluation stack. *)
Definition stack_type (T : Ty) : bool :=
  match T with
  | IntegerTy w => (w =? 32) || (w =? 64)
  | FloatTy | DoubleTy | PointerTy _ _ => true
  | _ => false
  end.

(** The value has type [T], or is a byte address in the same space. *)
Definition typed_as (T : Ty) (v : Value) : Prop :=
  IRBuilder.getType v = T \/
  exists E A, T = PointerTy E A /\ IRBuilder.getType v = PointerTy (IntegerTy 8) A.

(** The pointer of a pair of operands that are not both pointers. *)
Definition pointer_operand (T1 T2 : Ty) : Ty := if isPointerTy T2 then T2 else T1.

(** A computed address, if there is one. *)
Definition gives_address (G : list LType) (T : Ty) (o : option Value) (G' : list LType) : Prop :=
  G `prefix_of` G' /\
  match o with Some v => sound G' v /\ typed_as T v | None => True end.

Lemma genPointerAdd_typed (A B : Value) (G : list LType) :
  sound G A -> sound G B ->
  emits_typed (genPointerAdd A B) G
    (gives_address G (pointer_operand (IRBuilder.getType A) (IRBuilder.getType B))).
Proof.
  intros HA HB. unfold genPointerAdd. apply emits_bind, emits_assert.
  destruct (IRBuilder.getType A) eqn:TA, (IRBuilder.getType B) eqn:TB; try (by intros); intros _;
    cbn [isPointerTy orb andb]; rewrite ?TA, ?TB; cbn [isIntegerTy negb]; try (by apply emits_ret); cbn [getPointerAddressSpace].
  all: apply emits_bind, emits_ret, emits_bind; eapply emits_emit; [by llvm_typed; rewrite Z.eqb_refl|intros c G1 Hc HG1 Sc].
  all: apply emits_bind; eapply emits_emit; [by llvm_typed|intros r G2 Hr HG2 Sr].
  all: apply emits_ret; split; [by etransitivity|split; [done|right; by do 2 eexists]].
Qed.

Lemma genPointerSub_typed (A B : Value) (G : list LType) :
  sound G A -> sound G B ->
  emits_typed (genPointerSub A B) G (gives_address G (IRBuilder.getType A)).
Proof.
  intros HA HB. unfold genPointerSub. apply emits_bind, emits_assert.
  destruct (IRBuilder.getType A) eqn:TA, (IRBuilder.getType B) eqn:TB; try (by intros); intros _;
    cbn [isPointerTy orb andb isIntegerTy negb]; try (by apply emits_ret); cbn [getPointerAddressSpace].
  apply emits_bind, emits_ret, emits_bind; eapply emits_emit; [by llvm_typed; rewrite Z.eqb_refl|intros c G1 Hc HG1 Sc].
  apply emits_bind; eapply emits_emit; [by llvm_typed|intros n G2 Hn HG2 Sn].
  apply emits_bind; eapply emits_emit; [by llvm_typed|intros r G3 Hr HG3 Sr].
  apply emits_ret; split; [by do 2 (etransitivity; [eassumption|])|split; [done|right; by do 2 eexists]].
Qed.

(** An entry of the operator tables fits the type it is chosen for. *)
Definition fits (T : BinaryTriple) (AT : Ty) : Prop :=
  if isFloatingPointTy AT
  then IsOverflow T = false /\ exists B, Op T = OpOpcode B /\ on_floats B = true /\ is_division B = false
  else isIntegerTy AT = true /\ exists O, Op T = O /\ forall B, O = OpOpcode B -> on_floats B = false.

Lemma FloatMap_fits (Opcode : BinaryOpcode) (T : BinaryTriple) (AT : Ty) :
  mjoin (FloatMap !! Z.to_nat (BinaryOpcode_Z Opcode)) = Some T -> isFloatingPointTy AT = true -> fits T AT.
Proof.
  intros H HF. unfold fits. rewrite HF. destruct Opcode; vm_compute in H; simplify_eq; (split; [done|by eexists]).
Qed.

Lemma IntMap_fits (Opcode : BinaryOpcode) (T : BinaryTriple) (AT : Ty) :
  mjoin (IntMap !! Z.to_nat (BinaryOpcode_Z Opcode)) = Some T -> isIntegerTy AT = true -> fits T AT.
Proof.
  intros H HI. unfold fits. destruct AT; try done. cbn. split; [done|].
  destruct Opcode; vm_compute in H; simplify_eq; eexists; (split; [reflexivity|]); by intros ? [= <-].
Qed.

Lemma emit_operation_typed (Opcode : BinaryOpcode) (T : BinaryTriple) (RT AT : Ty) (A B : Value) (G : list LType) :
  sound G A -> sound G B -> IRBuilder.getType A = AT -> IRBuilder.getType B = AT -> fits T AT ->
  (if isFloatingPointTy RT then RT = AT else isFloatingPointTy AT = false) ->
  emits_typed (emit_operation Opcode T RT AT A B) G (gives G AT).
Proof.
  intros HA HB TA TB HT HR. unfold emit_operation.
  destruct (isFloatingPointTy RT && is_op Opcode Rem) eqn:HRem.
  { apply andb_true_iff in HRem as [HF _]. rewrite HF in HR. subst RT.
    eapply emits_emit; [|intros r G' ? ? ?; by repeat split].
    cbn [llvm_type mapM]. unfold sound in HA, HB. rewrite HA, HB, TA, TB. cbn.
    destruct AT; try done; cbn; by rewrite bool_decide_eq_true_2. }
  unfold fits in HT. destruct (isFloatingPointTy AT) eqn:HF.
  - destruct HT as (HO & Bo & HB' & Hfl & Hdiv). rewrite HO, HB'.
    apply emits_bind, emits_ret, emits_bind. rewrite Hdiv. apply emits_ret.
    eapply emits_emit; [|intros r G' ? ? ?; by repeat split]. llvm_typed. by rewrite Hfl, HF.
  - destruct HT as (HI & O & HO & Hfl). destruct AT as [|w| | | | | | |]; try done.
    destruct (IsOverflow T).
    + apply emits_bind, emits_lift. intros Id _. apply emits_bind.
      eapply emits_any; [by llvm_typed|]. intros pair _ Hpair.
      apply emits_bind. eapply emits_emit; [cbn; by rewrite Hpair|]. intros o G1 To HG1 So.
      apply emits_bind, emits_throw; [done|done|]. intros G2 HG2.
      assert (Hpair2 : operand G2 pair = Some (WithOverflow (IntegerTy w))).
      { revert Hpair. unfold operand. destruct (def pair); try done. intros Hl.
        eapply prefix_lookup_Some; [exact Hl|]. by etransitivity. }
      eapply emits_emit; [cbn; by rewrite Hpair2|]. intros r G3 Tr HG3 Sr. repeat split; try done. prefixes.
    + apply emits_bind, emits_lift. intros Bo HBo.
      assert (Hn : on_floats Bo = false).
      { rewrite HO in HBo. destruct O; [|done]. injection HBo as ->. by apply Hfl. }
      apply emits_bind. eapply (emits_mono _ _ (fun _ G' => G `prefix_of` G')).
      { destruct (is_division Bo && UseExplicitZeroDivideChecks); [|by apply emits_ret].
        apply emits_bind. eapply emits_emit; [by llvm_typed|]. intros z G1 Tz HG1 Sz.
        apply emits_throw; [done|done|]. intros G2 HG2. by etransitivity. }
      intros _ G1 HG1. eapply emits_emit; [|intros r G' ? ? ?; by repeat split; [prefixes|..]].
      llvm_typed. by rewrite Hn.
Qed.

(** A pointer result comes from the pointer operand. *)
Lemma binaryOpType_pointer (native : Z) (Opcode : BinaryOpcode) (T1 T2 E : Ty) (A : Z) :
  binaryOpType native Opcode T1 T2 = Some (PointerTy E A) ->
  (isPointerTy T1 = false \/ isPointerTy T2 = false) /\
  pointer_operand T1 T2 = PointerTy E A /\
  (is_op Opcode Sub = true -> T1 = PointerTy E A).
Proof.
  intros H. unfold binaryOpType, isUnmanagedPointer, NativeIntTy in H.
  destruct T1, T2; cbn -[Z.eqb Z.leb Z.ltb isGcPointer] in H; try done;
    repeat match type of H with
    | context [if ?b then _ else _] => destruct b eqn:?; try done
    end; simplify_eq; cbn; rewrite ?andb_false_r in *; try done;
    (split; [by eauto|split; [done|]]); try done; destruct Opcode; cbn in *; done.
Qed.

(** The result type of a binary operation on stack types is a stack type. *)
Lemma binaryOpType_stack (native : Z) (Opcode : BinaryOpcode) (T1 T2 T : Ty) :
  native = 32 \/ native = 64 -> stack_type T1 = true -> stack_type T2 = true ->
  binaryOpType native Opcode T1 T2 = Some T -> stack_type T = true.
Proof.
  intros Hn H1 H2 H. unfold binaryOpType, NativeIntTy in H.
  repeat match type of H with
  | (if ?b then _ else _) = _ => destruct b; try done
  | (let _ := _ in _) = _ => cbv zeta in H
  end; simplify_eq; try done; first [by destruct Hn as [-> | ->] | by case_match].
Qed.

Lemma pointer_case_typed (native : Z) (Opcode : BinaryOpcode) (T : Ty) (A B : Value) (G : list LType) :
  sound G A -> sound G B ->
  binaryOpType native Opcode (IRBuilder.getType A) (IRBuilder.getType B) = Some T ->
  emits_typed (pointer_case native Opcode T A B) G (fun p G' =>
    gives_address G T p.1 G' /\ (p.2 = T \/ isPointerTy T = true /\ p.2 = NativeIntTy native)).
Proof.
  intros HA HB HT. unfold pointer_case.
  destruct (isPointerTy T) eqn:EP; [|apply emits_ret; split; [done|by left]].
  destruct T as [| | | |E a| | | |]; try done.
  destruct (binaryOpType_pointer _ _ _ _ _ _ HT) as (_ & Hp & Hs).
  destruct Opcode; try (apply emits_ret; split; [done|by (left + right)]).
  - apply emits_bind. eapply emits_mono; [by apply genPointerAdd_typed|]. rewrite Hp. intros o G' Ho.
    apply emits_ret. split; [done|by left].
  - apply emits_bind. eapply emits_mono; [by apply genPointerSub_typed|]. rewrite Hs by done. intros o G' Ho.
    apply emits_ret. split; [done|by left].
Qed.

(** No integer is converted to a pointer. *)
Lemma convert_to_pointer (E : Ty) (a : Z) (v : Value) (Signed : bool) (s : list Instr) :
  isPointerTy (IRBuilder.getType v) = false -> convert_operand (PointerTy E a) Signed v s = None.
Proof.
  intros Hv. unfold convert_operand, Convert.convert. rewrite !bool_decide_eq_false_2 by (intros HT; by rewrite <- HT in Hv || rewrite HT in Hv).
  by rewrite !andb_false_r.
Qed.

Lemma binaryOp_typed (native : Z) (Opcode : BinaryOpcode) (A B : Value) (T : Ty) (G : list LType) :
  sound G A -> sound G B -> stack_type T = true ->
  binaryOpType native Opcode (IRBuilder.getType A) (IRBuilder.getType B) = Some T ->
  emits_typed (binaryOp native Opcode A B) G (fun v G' => G `prefix_of` G' /\ sound G' v /\ typed_as T v).
Proof.
  intros HA HB HS HT. unfold binaryOp. apply emits_bind, emits_lift. intros T' HT'.
  rewrite HT in HT'. injection HT' as <-. apply emits_bind.
  eapply emits_mono; [by apply pointer_case_typed|]. intros [[v|] AT] G1 [[HG1 Ho] HAT]; cbn in *; [by apply emits_ret|].
  apply emits_bind, emits_lift. intros Tr HTr.
  assert (Hcase : isPointerTy AT = true \/ fits Tr AT /\
    (if isFloatingPointTy T then T = AT else isFloatingPointTy AT = false)).
  { destruct HAT as [-> | [HP ->]].
    - destruct T as [|w| | | | | | |]; try done; [right|right|right|by left].
      + split; [by eapply IntMap_fits|done].
      + split; [by eapply FloatMap_fits|done].
      + split; [by eapply FloatMap_fits|done].
    - right. destruct T; try done. split; [by eapply IntMap_fits|done]. }
  destruct Hcase as [HP|[Hfit HR]].
  - assert (HAT' : AT = T) by (destruct HAT as [->|[_ ->]]; done). subst AT. destruct T as [| | | |E a| | | |]; try done.
    destruct (binaryOpType_pointer _ _ _ _ _ _ HT) as ([Hp|Hp] & _).
    + intros s s' r _ Hr. unfold bind at 1 in Hr. by rewrite (convert_to_pointer _ _ _ _ _ Hp) in Hr.
    + apply emits_bind. eapply (emits_mono _ _ (fun _ _ => True)); [|].
      { eapply emits_mono; [by apply convert_operand_typed; sounds|done]. }
      intros A' G2 _ s s' r _ Hr. unfold bind at 1 in Hr. by rewrite (convert_to_pointer _ _ _ _ _ Hp) in Hr.
  - apply emits_bind. eapply emits_mono; [by apply convert_operand_typed; sounds|]. intros A' G2 (HG2 & SA & TA).
    apply emits_bind. eapply emits_mono; [by apply convert_operand_typed; sounds|]. intros B' G3 (HG3 & SB & TB).
    apply emits_bind. eapply emits_mono; [apply emit_operation_typed; [sounds|done|done|done|done|done]|].
    intros r G4 (HG4 & Sr & HTr'). assert (HG : G `prefix_of` G4) by prefixes.
    case_bool_decide as Heq.
    { apply emits_ret. split; [done|split; [done|left]]. by rewrite Heq. }
    apply emits_bind, emits_assert. intros [HP HI]%andb_prop.
    eapply emits_emit; [|intros v G5 Tv HG5 Sv; split; [by etransitivity|split; [done|by left]]].
    llvm_typed. unfold cast_typed, typed_if. by rewrite HP, HI.
Qed.

(** ** Conversions *)

Lemma convertToStackType_typed (native : Z) (v : Value) (C : CorInfoType) (w : Z) (G : list LType) :
  sound G v -> stackSize native C = Some w ->
  emits_typed (convertToStackType native v C) G
    (gives G (match IRBuilder.getType v with IntegerTy _ => IntegerTy w | T => T end)).
Proof.
  intros Hv Hw. unfold convertToStackType.
  destruct (IRBuilder.getType v) as [|Size| | | | | | |] eqn:ET; try (by apply emits_ret); try apply emits_fail.
  rewrite Hw. apply emits_bind, emits_ret, emits_bind, emits_assert. intros Hle%Z.leb_le.
  destruct (Z.ltb_spec Size w) as [Hlt|Hge].
  - unfold getStackType. rewrite Hw. apply emits_bind, emits_ret, emits_bind, emits_lift. intros s _.
    eapply emits_emit; [by llvm_typed|intros r G' ? ? ?; by repeat split].
  - apply emits_ret. repeat split; [done|done|]. rewrite ET. f_equal. lia.
Qed.

Lemma emit_conversion_typed (v : Value) (T : Ty) (s d : bool) (G : list LType) :
  sound G v -> emits_typed (Convert.emit_conversion v T s d) G (gives G T).
Proof.
  intros Hv. unfold Convert.emit_conversion. case_bool_decide as HT; [by apply emits_ret|].
  destruct (IRBuilder.getType v) as [|w| | |E a| | | |] eqn:ET, T as [|w'| | |E' a'| | | |];
    cbn [isIntegerTy isPointerTy isFloatingPointTy isFloatTy isDoubleTy andb orb]; try apply emits_fail;
    try (eapply emits_emit; [by (destruct s || idtac); llvm_typed|intros r G' ? ? ?; by repeat split]).
  all: apply emits_bind, emits_ret; destruct (w' <? 64);
    [apply emits_bind; eapply emits_emit; [by destruct d; llvm_typed|intros c G1 Tc HG1 Sc];
     eapply emits_emit; [by llvm_typed|intros r G' ? ? ?; by repeat split; [prefixes|..]]
    |eapply emits_emit; [by destruct d; llvm_typed|intros r G' ? ? ?; by repeat split]].
Qed.

(** A checked source is an integer. *)
Definition gives_integer (G : list LType) (p : Value * bool) (G' : list LType) : Prop :=
  G `prefix_of` G' /\ sound G' p.1 /\ isIntegerTy (IRBuilder.getType p.1) = true.

Lemma checked_source_typed (native w : Z) (v : Value) (s d : bool) (G : list LType) :
  sound G v -> stack_type (IRBuilder.getType v) = true ->
  emits_typed (Convert.checked_source native v w s d) G (gives_integer G).
Proof.
  intros Hv Hst. unfold Convert.checked_source, Convert.checked_helper.
  destruct (IRBuilder.getType v) as [|w0| | |E a| | | |] eqn:ET; try done;
    cbn [isFloatingPointTy isFloatTy isDoubleTy isPointerTy orb].
  - apply emits_ret. split; [done|split; [done|]]. cbn. by rewrite ET.
  - destruct (w =? 64); apply emits_bind; (eapply emits_emit; [by llvm_typed|intros c G1 Tc HG1 Sc]);
      apply emits_bind; (eapply emits_emit;
        [cbn [llvm_type mapM]; unfold sound in Sc; rewrite Sc, Tc; by destruct d|]);
      intros r G' Tr ? ?; apply emits_ret; (split; [prefixes|split; [done|cbn; by rewrite Tr]]).
  - destruct (w =? 64); apply emits_bind, emits_bind, emits_ret, emits_ret, emits_bind; (eapply emits_emit;
        [cbn [llvm_type mapM]; unfold sound in Hv; rewrite Hv, ET; by destruct d|]);
      intros r G' Tr ? ?; apply emits_ret; (split; [prefixes|split; [done|cbn; by rewrite Tr]]).
  - apply emits_bind. eapply emits_emit; [by llvm_typed|intros r G' Tr ? ?].
    apply emits_ret. split; [prefixes|split; [done|cbn; by rewrite Tr]].
Qed.

Lemma throw_if_typed (P : Predicate) (A B : Value) (w : Z) (G : list LType) :
  sound G A -> sound G B -> IRBuilder.getType A = IntegerTy w -> IRBuilder.getType B = IntegerTy w ->
  compares_integers P = true ->
  emits_typed (Convert.throw_if P A B) G (fun _ G' => G `prefix_of` G').
Proof.
  intros HA HB TA TB HP. unfold Convert.throw_if. apply emits_bind.
  eapply emits_emit; [llvm_typed; by rewrite HP|intros c G1 Tc HG1 Sc].
  apply emits_throw; [done|done|]. intros G2 HG2. prefixes.
Qed.

Lemma sound_constant (G : list LType) (w z : Z) : sound G (ConstantInt w z).
Proof. done. Qed.

Lemma sound_null (G : list LType) (w : Z) : sound G (getNullValue (IntegerTy w)).
Proof. done. Qed.

Lemma genConvertOverflowCheck_typed (native : Z) (v : Value) (T : Ty) (s d : bool) (G : list LType) :
  sound G v -> stack_type (IRBuilder.getType v) = true ->
  emits_typed (Convert.genConvertOverflowCheck native v T s d) G (gives_integer G).
Proof.
  intros Hv Hst. unfold Convert.genConvertOverflowCheck. apply emits_bind, emits_lift. intros w _.
  apply emits_bind. eapply emits_mono; [by apply checked_source_typed|]. intros [r s'] G1 (HG1 & Sr & Ir).
  cbn [fst] in *. destruct (IRBuilder.getType r) as [|wr| | | | | | |] eqn:Tr; try done.
  apply emits_bind, emits_ret, emits_bind. eapply (emits_mono _ _ (fun _ G' => G1 `prefix_of` G')).
  - destruct (wr <? w), (w =? wr), d, s'; cbn [andb negb Bool.eqb]; try (by apply emits_ret);
      try (by eapply throw_if_typed).
    apply emits_bind. eapply emits_mono; [by eapply throw_if_typed|]. intros [] G2 HG2.
    eapply emits_mono; [eapply throw_if_typed; [sounds|done|exact Tr|done|done]|]. intros [] G3 HG3. prefixes.
  - intros _ G2 HG2. apply emits_ret. split; [prefixes|split; [sounds|cbn; by rewrite Tr]].
Qed.

(** The type of the target of a conversion, on the stack. *)
Definition target_type (t : Convert.Target) : Ty :=
  match t with Convert.TInt _ w => IntegerTy (Z.max 32 w) | Convert.TReal T => T end.

(** An entry of the conversion table leaves the type the opcode asks for. *)
Lemma Map_target (native : Z) (Opcode : ConvOpcode) (Info : Convert.ConvertInfo) :
  native = 32 \/ native = 64 ->
  Convert.Map !! Z.to_nat (ConvOpcode_Z Opcode) = Some Info ->
  exists T w, GenIR.getType native (Convert.CorType Info) = Some T /\
    stackSize native (Convert.CorType Info) = Some w /\
    target_type (Convert.conv_target native Opcode) =
      match T with IntegerTy _ => IntegerTy w | _ => T end.
Proof. intros [-> | ->] H; destruct Opcode; vm_compute in H; simplify_eq;
  (do 2 eexists; split; [reflexivity|split; reflexivity]). Qed.

Lemma conv_typed (native : Z) (Opcode : ConvOpcode) (v : Value) (G : list LType) :
  native = 32 \/ native = 64 -> sound G v -> stack_type (IRBuilder.getType v) = true ->
  emits_typed (Convert.conv native Opcode v) G (gives G (target_type (Convert.conv_target native Opcode))).
Proof.
  intros Hn Hv Hst. unfold Convert.conv. apply emits_bind, emits_lift. intros Info HI.
  destruct (Map_target native Opcode Info Hn HI) as (T & w & HT & Hw & ->).
  apply emits_bind, emits_lift. intros T'. rewrite HT. intros [= <-].
  apply emits_bind. eapply (emits_mono _ _ (fun _ G' => G' = G)).
  { destruct (isIntegerTy T); [apply emits_lift; done|by apply emits_ret]. }
  intros d G' ->. apply emits_bind. eapply (emits_mono _ _ (fun p G' => G `prefix_of` G' /\ sound G' p.1)).
  { destruct (Convert.CheckForOverflow Info); [|by apply emits_ret].
    eapply emits_mono; [by apply genConvertOverflowCheck_typed|]. by intros p G' (? & ? & _). }
  intros [v' s'] G1 [HG1 Sv]. apply emits_bind. eapply emits_mono; [by apply emit_conversion_typed|].
  intros c G2 (HG2 & Sc & Tc). eapply emits_mono; [by apply (convertToStackType_typed native c _ w)|].
  intros r G3 (HG3 & Sr & Tr). split; [prefixes|split; [done|]]. rewrite Tr, Tc. by destruct T.
Qed.

(** ** Comparisons, shifts and unary operations *)

Lemma prepareArgsForCompare_typed (native : Z) (A B : Value) (G : list LType) :
  sound G A -> sound G B ->
  emits_typed (prepareArgsForCompare native A B) G (fun p G' =>
    G `prefix_of` G' /\ sound G' p.1.1 /\ sound G' p.1.2 /\
    IRBuilder.getType p.1.1 = IRBuilder.getType p.1.2 /\
    (if p.2 then isFloatingPointTy (IRBuilder.getType p.1.1) = true
     else isIntegerTy (IRBuilder.getType p.1.1) || isPointerTy (IRBuilder.getType p.1.1) = true)).
Proof.
  intros HA HB. unfold prepareArgsForCompare, classifyCmpType.
  apply emits_bind, emits_lift. intros [[z1 p1] f1] H1. apply emits_bind, emits_lift. intros [[z2 p2] f2] H2.
  do 2 (apply emits_bind, emits_assert; intros _). apply emits_bind, emits_assert. intros HF.
  apply emits_bind. eapply (emits_mono _ _ (fun p G' => G `prefix_of` G' /\ sound G' p.1 /\ sound G' p.2 /\
    (IRBuilder.getType p.1 = IRBuilder.getType A \/ IRBuilder.getType p.1 = IRBuilder.getType B))).
  - destruct (IRBuilder.getType A) as [|w1| | |E1 a1| | | |] eqn:TA, (IRBuilder.getType B) as [|w2| | |E2 a2| | | |] eqn:TB;
      try done; injection H1 as <- <- <-; injection H2 as <- <- <-; try done; cbn [negb andb orb Z.eqb Pos.eqb];
      repeat match goal with |- emits_typed (if ?b then _ else _) _ _ => destruct b eqn:? end;
      try (by apply emits_ret; eauto);
      try (apply emits_bind, emits_assert; intros ?; try done);
      repeat match goal with |- emits_typed (if ?b then _ else _) _ _ => destruct b eqn:? end.
    all: try (apply emits_bind; eapply emits_emit;
      [by llvm_typed|intros r G' Tr ? Sr; apply emits_ret; cbn; rewrite ?Tr, ?TA;
         repeat split; first [done|sounds|by eauto]]).
  - intros [A' B'] G1 (HG1 & SA & SB & HT). cbn in *. apply emits_bind, emits_assert. intros Heq%bool_decide_eq_true_1.
    apply emits_ret. cbn. repeat split; try done.
    destruct HT as [-> | ->], (IRBuilder.getType A), (IRBuilder.getType B); try done; by simplify_eq/=.
Qed.

Lemma cmp_typed (native : Z) (Opcode : CmpOpcode) (A B : Value) (G : list LType) :
  sound G A -> sound G B -> emits_typed (cmp native Opcode A B) G (gives G (IntegerTy 32)).
Proof.
  intros HA HB. unfold cmp. apply emits_bind. eapply emits_mono; [by apply prepareArgsForCompare_typed|].
  intros [[A' B'] f] G1 (HG1 & SA & SB & HT & HF). cbn in *. apply emits_bind, emits_lift. intros P HP.
  apply emits_bind. eapply (emits_emit _ i1); [|intros c G2 Tc HG2 Sc].
  - destruct f; llvm_typed; rewrite <- HT, HF;
      destruct Opcode; vm_compute in HP; by simplify_eq.
  - eapply emits_mono; [by apply (convertToStackType_typed native c _ 32)|].
    intros r G3 (HG3 & Sr & Tr). split; [prefixes|split; [done|]]. by rewrite Tr, Tc.
Qed.

Lemma shift_typed (Opcode : ShiftOpcode) (A B : Value) (G : list LType) :
  sound G A -> sound G B -> isIntegerTy (IRBuilder.getType A) = true -> isIntegerTy (IRBuilder.getType B) = true ->
  emits_typed (shift Opcode A B) G (gives G (IRBuilder.getType B)).
Proof.
  intros HA HB IA IB. unfold shift.
  destruct (IRBuilder.getType A) as [|wa| | | | | | |] eqn:TA; try done.
  destruct (IRBuilder.getType B) as [|wb| | | | | | |] eqn:TB; try done.
  apply emits_bind. eapply (emits_mono _ _ (gives G (IntegerTy wb))).
  - case_bool_decide as HT; [injection HT as ->; by apply emits_ret|].
    eapply emits_emit; [by llvm_typed|intros r G' ? ? ?; by repeat split].
  - intros C G1 (HG1 & SC & TC). eapply emits_emit; [|intros r G' ? ? ?; by repeat split; [prefixes|..]].
    by destruct Opcode; llvm_typed.
Qed.

Lemma unaryOp_typed (Opcode : UnaryOpcode) (A : Value) (G : list LType) :
  sound G A -> isIntegerTy (IRBuilder.getType A) || bool_decide (Opcode = Neg) && isFloatingPointTy (IRBuilder.getType A) = true ->
  emits_typed (unaryOp Opcode A) G (gives G (IRBuilder.getType A)).
Proof.
  intros HA HT. unfold unaryOp. destruct (IRBuilder.getType A) eqn:TA, Opcode; try done; try apply emits_fail;
    (eapply emits_emit; [by cbn [isFloatingPointTy isFloatTy isDoubleTy orb]; llvm_typed|intros r G' ? ? ?; by repeat split]).
Qed.

(** C33: the code of the arithmetic handlers is well typed by LLVM's rules, and
    keeps the stack well typed.  On 32- and 64-bit targets, for operands of
    stack types whose registers have these types, whatever well typed code was
    recorded before: if the handler's assertions hold, every instruction it
    adds has operands of the types that LLVM asks for, and the register of its
    result has the type that the handler gives it, which is a stack type.  It
    is for a binary operation the one of [binaryOpType], or a byte pointer of
    the same address space; for a conversion the type of its target; for a
    comparison int32; for a shift of an integer by an integer and for a unary
    operation (not of an integer, neg of an integer or a floating-point number)
    the type of the operand. *)
Theorem emitters_well_typed (native : Z) (A B : Value) (before : list Instr) (G : list LType)
    (Hn : native = 32 \/ native = 64) (Hcode : llvm_types [] before = Some G)
    (HA : stack_type (IRBuilder.getType A) = true) (HB : stack_type (IRBuilder.getType B) = true)
    (SA : plain G A = Some (IRBuilder.getType A)) (SB : plain G B = Some (IRBuilder.getType B)) :
  let well_typed (m : M Value) (P : Ty -> Prop) := forall code v, m before = Some (code, v) ->
    exists G', llvm_types [] code = Some G' /\ plain G' v = Some (IRBuilder.getType v) /\
      stack_type (IRBuilder.getType v) = true /\ P (IRBuilder.getType v) in
  let TA := IRBuilder.getType A in
  let TB := IRBuilder.getType B in
  (forall Opcode, well_typed (binaryOp native Opcode A B) (fun T =>
     exists R, binaryOpType native Opcode TA TB = Some R /\
       (T = R \/ exists E a, R = PointerTy E a /\ T = PointerTy (IntegerTy 8) a))) /\
  (forall Opcode, well_typed (Convert.conv native Opcode A) (fun T =>
     T = target_type (Convert.conv_target native Opcode))) /\
  (forall Opcode, well_typed (cmp native Opcode A B) (fun T => T = IntegerTy 32)) /\
  (forall Opcode, isIntegerTy TA = true -> isIntegerTy TB = true ->
     well_typed (shift Opcode A B) (fun T => T = TB)) /\
  (forall Opcode, isIntegerTy TA || bool_decide (Opcode = Neg) && isFloatingPointTy TA = true ->
     well_typed (unaryOp Opcode A) (fun T => T = TA)).
Proof.
  intros well_typed TA TB.
  assert (Hlen : length before = length G) by (by rewrite (llvm_types_length _ _ _ Hcode)).
  assert (HW : forall m (P : Ty -> Prop), emits_typed m G (fun v G' => sound G' v /\
    stack_type (IRBuilder.getType v) = true /\ P (IRBuilder.getType v)) -> well_typed m P).
  { intros m P Hm code v Hv. destruct (Hm _ _ _ Hlen Hv) as (new & G' & -> & HG' & HQ).
    exists G'. by rewrite llvm_types_app, Hcode. }
  split; [|split; [|split; [|split]]]; intros Opcode; [| | |intros IA IB|intros IA]; apply HW.
  - destruct (binaryOpType native Opcode (IRBuilder.getType A) (IRBuilder.getType B)) as [R|] eqn:HR; [|by intros s s' v _; unfold binaryOp; rewrite HR].
    pose proof (binaryOpType_stack _ _ _ _ _ Hn HA HB HR) as HS.
    eapply emits_mono; [by apply (binaryOp_typed native Opcode A B R)|]. intros v G' (_ & Sv & HT).
    split; [done|split; [|by exists R]]. destruct HT as [-> | (E & a & -> & ->)]; done.
  - eapply emits_mono; [by apply conv_typed|]. intros v G' (_ & Sv & ->). split; [done|split; [|done]].
    by destruct Hn as [-> | ->]; destruct Opcode.
  - eapply emits_mono; [by apply cmp_typed|]. by intros v G' (_ & Sv & ->).
  - eapply emits_mono; [by apply shift_typed|]. by intros v G' (_ & Sv & ->).
  - eapply emits_mono; [by apply unaryOp_typed|]. by intros v G' (_ & Sv & ->).
Qed.

(** A checked sum behind a comparison, of its result and a 64-bit number: the
    result is widened and the overflow bit tested. *)
Lemma emitters_well_typed_witness :
  exists code v G', binaryOp 64 AddOvf (MkValue (Reg 1) (IntegerTy 32)) (MkValue (Arg 0) (IntegerTy 64))
      [CreateICmp ICMP_EQ (MkValue (Arg 0) (IntegerTy 64)) (MkValue (Arg 1) (IntegerTy 64));
       CreateIntCast (MkValue (Reg 0) i1) (IntegerTy 32) false] = Some (code, v) /\
    length code = 7%nat /\ llvm_types [] code = Some G' /\ plain G' v = Some (IntegerTy 64).
Proof.
  destruct (emitters_well_typed 64 (MkValue (Reg 1) (IntegerTy 32)) (MkValue (Arg 0) (IntegerTy 64))
    [CreateICmp ICMP_EQ (MkValue (Arg 0) (IntegerTy 64)) (MkValue (Arg 1) (IntegerTy 64));
     CreateIntCast (MkValue (Reg 0) i1) (IntegerTy 32) false]
    [Plain i1; Plain (IntegerTy 32)] (or_intror eq_refl) eq_refl eq_refl eq_refl eq_refl eq_refl) as [H _].
  destruct (H AddOvf _ _ eq_refl) as (G' & HG & Hv & _ & _). do 3 eexists. split; [vm_compute; reflexivity|].
  split; [vm_compute; reflexivity|]. split; [exact HG|exact Hv].
Defined.
