(* ===== verification/StackSlot.v ===== *)
(** * Values between variables and the evaluation stack

    Storing to a variable converts from the stack type, loading extends to it
    ([convertFromStackType], [convertToStackType] of [GenIRTypes]); [size]
    and [getType] disagree for two types, without effect here. *)

From S2P Require Import Prelude IRBuilder GenIRTypes Conv.
Import GenIR Convert.
#[local] Open Scope emit_scope.

(** Stores a stack value to a variable of the given type and loads it back;
    the variable itself keeps what was stored. *)
Definition store_and_load (native : Z) (LayoutIdentical : Ty -> Ty -> bool) (Node : Value)
    (CorType : CorInfoType) (VarTy : Ty) : M Value :=
  let* (Stored, RepresentsStruct) :=
    convertFromStackType native LayoutIdentical Node false CorType VarTy in
  convertToStackType native Stored CorType.

Definition integral_types : list CorInfoType :=
  [CORINFO_TYPE_BOOL; CORINFO_TYPE_CHAR; CORINFO_TYPE_BYTE; CORINFO_TYPE_UBYTE;
   CORINFO_TYPE_SHORT; CORINFO_TYPE_USHORT; CORINFO_TYPE_INT; CORINFO_TYPE_UINT;
   CORINFO_TYPE_LONG; CORINFO_TYPE_ULONG; CORINFO_TYPE_NATIVEINT; CORINFO_TYPE_NATIVEUINT].

(** The range of an integral type, from its signedness and its LLVM type. *)
Definition in_type (native : Z) (CorType : CorInfoType) (v : Z) : Prop :=
  match isSigned CorType, getType native CorType with
  | Some s, Some T => in_target s (width native T) v = true
  | _, _ => False
  end.

(** A variable gives back what was stored. For every integral type, on 32-
    and 64-bit targets, storing the stack representation of a value of the
    type and loading it again leaves the same representation, although [size]
    reports 8 bits for char and 16 for unsigned byte. *)
Theorem store_load_roundtrip {L : LLVM} (LS : LLVMLaws L) (native v w : Z)
    (LayoutIdentical : Ty -> Ty -> bool) (CorType : CorInfoType) (VarTy : Ty)
    (Hn : native = 32 \/ native = 64) (HC : CorType ∈ integral_types)
    (HT : getType native CorType = Some VarTy) (Hw : stackSize native CorType = Some w)
    (Hv : in_type native CorType v) :
  run native [RInt (wrap w v)]
    (store_and_load native LayoutIdentical (MkValue (Arg 0) (IntegerTy w)) CorType VarTy)
  = Some (Returns (RInt (wrap w v))).
Proof.
  unfold integral_types in HC. set_unfold in HC. destruct (Z.lt_ge_cases v 0);
    destruct Hn as [-> | ->]; destruct_or! HC; subst CorType; cbn in HT, Hw; simplify_eq;
    unfold in_type in Hv; cbn -[Z.pow] in Hv;
    (apply in_signed_spec in Hv || apply in_unsigned_spec in Hv).
  all: run_code; decide_checks.
Qed.

Lemma store_load_roundtrip_witness :
  run (L := DemoLLVM) 64 [RInt (wrap 32 (-5))]
    (store_and_load 64 (fun _ _ => true) (MkValue (Arg 0) (IntegerTy 32)) CORINFO_TYPE_SHORT (IntegerTy 16))
  = Some (Returns (RInt (wrap 32 (-5)))).
Proof.
  apply (store_load_roundtrip DemoLLVM_laws 64 (-5) 32); [by right|set_solver|done|done|reflexivity].
Defined.

(** [size] disagrees with the LLVM type of exactly two integral types. *)
Lemma size_disagrees (native : Z) (CorType : CorInfoType) :
  native = 32 \/ native = 64 -> CorType ∈ integral_types ->
  (size native CorType <> width native <$> getType native CorType) <->
  CorType = CORINFO_TYPE_CHAR \/ CorType = CORINFO_TYPE_UBYTE.
Proof.
  unfold integral_types. intros Hn HC. set_unfold in HC.
  destruct Hn as [-> | ->]; destruct_or! HC; subst CorType; cbn; naive_solver.
Qed.
