(* ===== verification/Dispatch.v ===== *)
(** * The main reader loop (lib/Reader/reader.cpp)

    [readBytesForFlowGraphNodeHelper] decodes the instructions of a block and
    drives the code generator, [GenIR], through virtual methods.  The model
    keeps the operand stack, the prefix state and the tokens the loop carries
    from one instruction to the next, and records every call of the generator
    in order.  The generator is any function from the calls made so far to a
    reply: it stands for the methods of [GenIR], which keep their own state.
    The verifier's hooks are stubs that do nothing (GenIRStubs.cpp) and are
    left out; [BADCODE] is [verGlobalError], which reports and returns. *)

From S2P Require Import Prelude Opcodes ILDecode Regions TailCall.
Import ReaderBaseNS.

Declare Scope reader_scope.
Delimit Scope reader_scope with reader.

(** ** The generator's interface *)

Inductive TokenKind : Set :=
  | TOKENKIND_Class | TOKENKIND_Method | TOKENKIND_Field | TOKENKIND_Box
  | TOKENKIND_Casting | TOKENKIND_Newarr | TOKENKIND_Ldtoken.

(** A call of a virtual method, with its arguments; a resolved token is named
    by the token, [None] where the loop passes an uninitialised one. *)
Inductive ClientCall {IRNode : Type} : Type :=
  | SetDebugLocation (Offset : Z) (IsCall : bool)
  | VerGlobalErrorCall (Message : MVER + string)
  | ResolveToken (Token : Z) (Kind : TokenKind)
  | GetCallInfo (Token : Z) (IsCallVirt : bool)
  | HandleClassAccess (Token : Z)
  | HandleMemberAccess (Token : Z)
  | RemoveStackInterference
  | RemoveStackInterferenceForLocalStore (Opcode : OPCODE) (Ordinal : Z)
  | MaintainOperandStack (Stack : list IRNode)
  | BeginFlowGraphNode (Offset : Z) (VerifyOnly : bool)
  | EndFlowGraphNode (Offset : Z)
  | Nop
  | BinaryOp (Op : BinaryOpcode) (Arg1 Arg2 : IRNode)
  | UnaryOp (Op : UnaryOpcode) (Arg1 : IRNode)
  | ShiftOp (Op : ShiftOpcode) (Amount Operand : IRNode)
  | CmpOp (Op : CmpOpcode) (Arg1 Arg2 : IRNode)
  | ConvOp (Op : ConvOpcode) (Source : IRNode)
  | CkFinite (Arg1 : IRNode)
  | CondBranch (Op : CondBranchOpcode) (Arg1 Arg2 : IRNode)
  | BoolBranch (Op : BoolBranchOpcode) (Arg1 : IRNode)
  | Branch
  | SwitchOp (Opr : IRNode)
  | LeaveOp (TargetOffset : Z)
  | EndFilterOp (Arg1 : IRNode)
  | ThrowOp (Arg1 : IRNode)
  | Rethrow
  | ReturnOp (Opr : option IRNode) (IsSynchronized : bool)
  | JmpOp (Op : CallOpcode) (Token : Z)
  | BreakOp
  | CallOp (Op : CallOpcode) (Token ConstraintTypeRef LoadFtnToken : Z)
      (ReadOnly TailCall Unmarked : bool) (CurrOffset : Z)
  | NewObjOp (Token LoadFtnToken CurrOffset : Z)
  | ArgList
  | LoadArg (Ordinal : Z) | LoadLocal (Ordinal : Z)
  | LoadArgAddress (Ordinal : Z) | LoadLocalAddress (Ordinal : Z)
  | StoreArg (Ordinal : Z) (Arg1 : IRNode) (Alignment : Z) (IsVolatile : bool)
  | StoreLocal (Ordinal : Z) (Arg1 : IRNode) (Alignment : Z) (IsVolatile : bool)
  | LoadConstantI4 (v : Z) | LoadConstantI8 (v : Z)
  | LoadConstantR4 (bits : Z) | LoadConstantR8 (bits : Z)
  | LoadNull | LoadStr (Token : Z) | LoadToken (Token : Z)
  | LoadElem (Op : LdElemOpcode) (Token : option Z) (Arg1 Arg2 : IRNode)
  | LoadElemA (Token : Z) (Arg1 Arg2 : IRNode) (IsReadOnly : bool)
  | StoreElem (Op : StElemOpcode) (Token : option Z) (Arg1 Arg2 Arg3 : IRNode)
  | LoadIndir (Op : LdIndirOpcode) (Arg1 : IRNode) (Alignment : Z) (IsVolatile : bool)
  | StoreIndir (Op : StIndirOpcode) (Arg1 Arg2 : IRNode) (Alignment : Z) (IsVolatile : bool)
  | LoadLen (Arg1 : IRNode)
  | LoadField (Token : Z) (Arg1 : IRNode) (Alignment : Z) (IsVolatile : bool)
  | LoadFieldAddress (Token : Z) (Arg1 : IRNode)
  | LoadStaticField (Token : Z) (IsVolatile : bool)
  | GetStaticFieldAddress (Token : Z)
  | StoreField (Token : Z) (Arg1 Arg2 : IRNode) (Alignment : Z) (IsVolatile : bool)
  | StoreStaticField (Token : Z) (Arg1 : IRNode) (IsVolatile : bool)
  | LoadObj (Token : Z) (Arg1 : IRNode) (Alignment : Z) (IsVolatile : bool)
  | StoreObj (Token : Z) (Arg1 Arg2 : IRNode) (Alignment : Z) (IsVolatile : bool)
  | CpObj (Token : Z) (Arg1 Arg2 : IRNode) (Alignment : Z) (IsVolatile : bool)
  | InitObj (Token : Z) (Arg1 : IRNode)
  | CpBlk (Arg1 Arg2 Arg3 : IRNode) (Alignment : Z) (IsVolatile : bool)
  | InitBlk (Arg1 Arg2 Arg3 : IRNode) (Alignment : Z) (IsVolatile : bool)
  | BoxOp (Token : Z) (Arg1 : IRNode)
  | UnboxOp (Token : Z) (Arg1 : IRNode)
  | UnboxAnyOp (Token : Z) (Arg1 : IRNode) (Alignment : Z) (IsVolatile : bool)
  | CastClass (Token : Z) (Arg1 : IRNode) | IsInst (Token : Z) (Arg1 : IRNode)
  | NewArr (Token : Z) (Arg1 : IRNode)
  | MakeRefAny (Token : Z) (Arg1 : IRNode)
  | RefAnyType (Arg1 : IRNode) | RefAnyVal (Arg1 : IRNode) (Token : Z)
  | SizeOf (Token : Z)
  | MakeLdFtnTarget (Token : Z) | LoadVirtFunc (Arg1 : IRNode) (Token : Z)
  | LocalAlloc (Arg1 : IRNode) (ZeroInit : bool)
  | PopOp (Opr : IRNode).
Arguments ClientCall : clear implicits.

(** The node a method returns ([None] is null or a void method), the number of
    operands a call took from the stack, and whether the call kind of
    [getCallInfo] is a plain call. *)
Record reply {IRNode : Type} := Reply {
  r_node : option IRNode;
  r_pops : nat;
  r_plain_call : bool
}.
Arguments reply : clear implicits.
Arguments Reply {IRNode}.

(** The generator: [None] raises an exception that leaves the loop. *)
Class Client (IRNode : Type) :=
  answer : list (ClientCall IRNode) -> ClientCall IRNode -> option (reply IRNode).

(** The part of [CORINFO_SIG_INFO] that a jump compares. *)
Record SIG_INFO := SigInfo {
  numArgs : Z;
  isVarArg : bool;
  hasTypeArg : bool;
  hasThis : bool
}.

Definition jmp_signatures_match (Sig Sig2 : SIG_INFO) : bool :=
  negb (negb (numArgs Sig =? numArgs Sig2) ||
        negb (eqb (isVarArg Sig) (isVarArg Sig2)) ||
        negb (eqb (hasTypeArg Sig) (hasTypeArg Sig2)) ||
        negb (eqb (hasThis Sig) (hasThis Sig2))).

(** What the loop reads of the method and the runtime: the byte code and the
    operand sizes of opcode.def, the kind of the current region ([None] is the
    null region), the return type, the signatures that a jump compares, the
    tail calls found by [isUnmarkedTailCall], the exception of the current
    handler and the options. *)
Class Method (IRNode : Type) := {
  OperandSizeMap : OPCODE -> Z;
  ILInput : list Z;
  ILSize : Z;
  IsVerifyOnly : bool;
  CurrentRegionType : option RegionKind;
  ReturnsVoid : bool;
  Synchronized : bool;
  InitLocals : bool;
  CallSiteSignature : Z -> SIG_INFO;
  CurrentSignature : SIG_INFO;
  isUnmarkedTail : Z -> Z -> bool;
  doTailCallOpt : bool;
  ReadyToRun : bool;
  HandlerException : option IRNode
}.

(** ** The reader's state *)

(** [ReaderAlignType]: [Reader_AlignNatural] is the byte 255. *)
Definition Reader_AlignNatural : Z := 255.
Definition mdTokenNil : Z := 0.

Record reader {IRNode : Type} := Reader {
  stack : list IRNode;           (* top first *)
  AlignmentPrefix : Z;
  HasVolatilePrefix : bool;
  HasTailCallPrefix : bool;
  HasReadOnlyPrefix : bool;
  HasConstrainedPrefix : bool;
  ConstraintTypeRef : Z;
  LoadFtnToken : Z;
  LastLoadToken : Z;
  HasFallThrough : bool;
  VerifiedEndBlock : bool;
  NextOffset : Z;
  trace : list (ClientCall IRNode)  (* newest first *)
}.
Arguments reader : clear implicits.
Arguments Reader {IRNode}.

Inductive stop : Set := StackUnderflow | AssertFailed | ClientRaised | ReadOutside.

Section Dispatch.

Context {IRNode : Type} {C : Client IRNode} {M : Method IRNode}.
#[local] Notation reader := (reader IRNode).
#[local] Notation ClientCall := (ClientCall IRNode).
#[local] Notation reply := (reply IRNode).

Definition R (A : Type) : Type := reader -> (reader * A) + stop.

Definition rret {A} (a : A) : R A := fun r => inl (r, a).
Definition rbind {A B} (m : R A) (f : A -> R B) : R B :=
  fun r => match m r with inl (r', a) => f a r' | inr e => inr e end.
Definition rstop {A} (e : stop) : R A := fun _ => inr e.
Definition get : R reader := fun r => inl (r, r).
Definition modify (f : reader -> reader) : R unit := fun r => inl (f r, tt).
Definition read {A} (o : option A) : R A :=
  match o with Some a => rret a | None => rstop ReadOutside end.

#[local] Notation "'let!' x := m 'in' k" := (rbind m (fun x => k))
  (at level 200, x pattern, m at level 100, k at level 200) : reader_scope.
#[local] Notation "m ;! k" := (rbind m (fun _ => k)) (at level 100, right associativity) : reader_scope.
#[local] Open Scope reader_scope.

Definition set_stack (s : list IRNode) (r : reader) : reader :=
  Reader s (AlignmentPrefix r) (HasVolatilePrefix r) (HasTailCallPrefix r) (HasReadOnlyPrefix r)
    (HasConstrainedPrefix r) (ConstraintTypeRef r) (LoadFtnToken r) (LastLoadToken r)
    (HasFallThrough r) (VerifiedEndBlock r) (NextOffset r) (trace r).
Definition set_prefixes (a : Z) (v t ro c : bool) (ct : Z) (r : reader) : reader :=
  Reader (stack r) a v t ro c ct (LoadFtnToken r) (LastLoadToken r)
    (HasFallThrough r) (VerifiedEndBlock r) (NextOffset r) (trace r).
Definition set_tokens (ftn last : Z) (r : reader) : reader :=
  Reader (stack r) (AlignmentPrefix r) (HasVolatilePrefix r) (HasTailCallPrefix r) (HasReadOnlyPrefix r)
    (HasConstrainedPrefix r) (ConstraintTypeRef r) ftn last
    (HasFallThrough r) (VerifiedEndBlock r) (NextOffset r) (trace r).
Definition set_end (fall verified : bool) (r : reader) : reader :=
  Reader (stack r) (AlignmentPrefix r) (HasVolatilePrefix r) (HasTailCallPrefix r) (HasReadOnlyPrefix r)
    (HasConstrainedPrefix r) (ConstraintTypeRef r) (LoadFtnToken r) (LastLoadToken r)
    fall verified (NextOffset r) (trace r).
Definition set_next (n : Z) (r : reader) : reader :=
  Reader (stack r) (AlignmentPrefix r) (HasVolatilePrefix r) (HasTailCallPrefix r) (HasReadOnlyPrefix r)
    (HasConstrainedPrefix r) (ConstraintTypeRef r) (LoadFtnToken r) (LastLoadToken r)
    (HasFallThrough r) (VerifiedEndBlock r) n (trace r).
Definition set_trace (t : list ClientCall) (r : reader) : reader :=
  Reader (stack r) (AlignmentPrefix r) (HasVolatilePrefix r) (HasTailCallPrefix r) (HasReadOnlyPrefix r)
    (HasConstrainedPrefix r) (ConstraintTypeRef r) (LoadFtnToken r) (LastLoadToken r)
    (HasFallThrough r) (VerifiedEndBlock r) (NextOffset r) t.

(** [GenStack]: popping an empty stack is fatal, pushing null asserts. *)
Definition pop : R IRNode := fun r =>
  match stack r with
  | v :: s => inl (set_stack s r, v)
  | [] => inr StackUnderflow
  end.
Definition push (v : option IRNode) : R unit := fun r =>
  match v with
  | Some v => inl (set_stack (v :: stack r) r, tt)
  | None => inr AssertFailed
  end.
Definition stack_clear : R unit := modify (set_stack []).
Definition stack_empty : R bool := fun r => inl (r, match stack r with [] => true | _ => false end).

(** A call of the generator, and its recorded reply. *)
Definition gen_reply (c : ClientCall) : R reply := fun r =>
  match answer (trace r) c with
  | Some a => inl (set_trace (c :: trace r) r, a)
  | None => inr ClientRaised
  end.
Definition gen (c : ClientCall) : R (option IRNode) :=
  let! a := gen_reply c in rret (r_node a).
Definition gen_ (c : ClientCall) : R unit := gen_reply c ;! rret tt.

(** [ReaderBase::clearStack] hands every operand to [GenIR::pop]. *)
Fixpoint pop_all (s : list IRNode) : R unit :=
  match s with
  | [] => rret tt
  | v :: s' => modify (set_stack s') ;! gen_ (PopOp v) ;! pop_all s'
  end.
Definition clearStack : R unit := fun r => pop_all (stack r) r.

(** [BADCODE]. *)
Definition badcode (Message : MVER + string) : R unit := gen_ (VerGlobalErrorCall Message).

(** [GenIR::maintainOperandStack] is handed the operands, bottom first; the
    loop calls it only when there are some, and it leaves none. *)
Definition maintainOperandStack : R unit :=
  let! r := get in
  match stack r with
  | [] => rret tt
  | s => gen_ (MaintainOperandStack (rev s)) ;! stack_clear
  end.

(** A cast to an enumeration; [all] lists it in order. *)
Definition as_enum {E} (all : list E) (v : Z) : R E :=
  if v <? 0 then rstop AssertFailed
  else match all !! Z.to_nat v with Some e => rret e | None => rstop AssertFailed end.

(** ** One instruction *)

Record instr := Instr {
  Opcode : OPCODE;
  Operand : Z;
  CurrentOffset : Z
}.

Definition MappedValue (i : instr) : Z := OpcodeRemap (Opcode i).

Definition operand_u (n : nat) (i : instr) : R Z := read (readValue_u n ILInput (Operand i)).
Definition operand_s (n : nat) (i : instr) : R Z := read (readValue_s n ILInput (Operand i)).
Definition operand_token (i : instr) : R Z := operand_u 4 i.

(** [BREAK_ON_VERIFY_ONLY]: the rest of a case is skipped in a verify-only
    pass; the block's local fault is only set after the loop. *)
Definition unless_verify_only (m : R unit) : R unit := if IsVerifyOnly then rret tt else m.

(** The target of a branch with a displacement of [n] bytes. *)
Definition branch_offset (n : nat) (i : instr) : R Z :=
  let! d := operand_s n i in
  let! r := get in
  rret (u32 (NextOffset r + u32 d)).

Definition verify_end_block (fall : bool) : R unit := modify (fun r => set_end (fall && HasFallThrough r) true r).
Definition no_fall_through : R unit := modify (fun r => set_end false (VerifiedEndBlock r) r).

(** ** Operators *)

Definition read_binary (i : instr) : R unit :=
  unless_verify_only (
    let! Arg2 := pop in
    let! Arg1 := pop in
    let! op := as_enum BinaryOpcode_all (MappedValue i) in
    let! ResultIR := gen (BinaryOp op Arg1 Arg2) in
    push ResultIR).

Definition read_cmp (i : instr) : R unit :=
  unless_verify_only (
    let! Arg2 := pop in
    let! Arg1 := pop in
    let! op := as_enum CmpOpcode_all (MappedValue i) in
    let! ResultIR := gen (CmpOp op Arg1 Arg2) in
    push ResultIR).

Definition read_ckfinite (i : instr) : R unit :=
  unless_verify_only (
    let! Arg1 := pop in
    gen_ RemoveStackInterference ;!
    let! ResultIR := gen (CkFinite Arg1) in
    push ResultIR).

Definition read_conv (i : instr) : R unit :=
  unless_verify_only (
    let! Arg1 := pop in
    let! op := as_enum ConvOpcode_all (MappedValue i) in
    let! ResultIR := gen (ConvOp op Arg1) in
    push ResultIR).

Definition read_unary (i : instr) : R unit :=
  unless_verify_only (
    let! Arg1 := pop in
    let! op := as_enum UnaryOpcode_all (MappedValue i) in
    let! ResultIR := gen (UnaryOp op Arg1) in
    push ResultIR).

Definition read_shift (i : instr) : R unit :=
  unless_verify_only (
    let! Arg1 := pop in
    let! Arg2 := pop in
    let! op := as_enum ShiftOpcode_all (MappedValue i) in
    let! ResultIR := gen (ShiftOp op Arg1 Arg2) in
    push ResultIR).

(** ** Control flow *)

(** The tail of a branch: operands that stay go to the successors. *)
Definition usher_stack : R unit :=
  let! Empty := stack_empty in
  if Empty then rret tt else maintainOperandStack ;! stack_clear.

Definition read_cond_branch (n : nat) (i : instr) : R unit :=
  branch_offset n i ;!
  verify_end_block true ;!
  unless_verify_only (
    let! Arg2 := pop in
    let! Arg1 := pop in
    usher_stack ;!
    let! op := as_enum CondBranchOpcode_all (MappedValue i) in
    gen_ (CondBranch op Arg1 Arg2)).

Definition read_bool_branch (n : nat) (i : instr) : R unit :=
  branch_offset n i ;!
  verify_end_block true ;!
  unless_verify_only (
    let! Arg1 := pop in
    usher_stack ;!
    let! op := as_enum BoolBranchOpcode_all (MappedValue i) in
    gen_ (BoolBranch op Arg1)).

Definition read_branch (n : nat) (i : instr) : R unit :=
  branch_offset n i ;!
  gen_ Nop ;!
  verify_end_block false ;!
  unless_verify_only (usher_stack ;! gen_ Branch).

Definition read_switch (i : instr) : R unit :=
  let! NumCases := operand_u 4 i in
  verify_end_block true ;!
  unless_verify_only (
    let! Arg1 := pop in
    (if negb (NumCases =? 0) then
       gen_ (SwitchOp Arg1) ;!
       let! Empty := stack_empty in
       if Empty then rret tt else maintainOperandStack
     else gen_ (PopOp Arg1)) ;!
    stack_clear).

Definition read_leave (n : nat) (i : instr) : R unit :=
  let! TargetOffset := branch_offset n i in
  no_fall_through ;!
  unless_verify_only (clearStack ;! gen_ (LeaveOp TargetOffset)).

(** [GenIR::endFilter] pushes the exception after its conditional rethrow. *)
Definition read_endfilter (i : instr) : R unit :=
  no_fall_through ;!
  unless_verify_only (
    let! Arg1 := pop in
    gen_ (EndFilterOp Arg1) ;!
    push HandlerException).

Definition read_endfinally (i : instr) : R unit :=
  no_fall_through ;! unless_verify_only clearStack.

Definition read_throw (i : instr) : R unit :=
  no_fall_through ;!
  unless_verify_only (
    let! Arg1 := pop in
    gen_ (ThrowOp Arg1) ;!
    clearStack).

Definition read_rethrow (i : instr) : R unit :=
  clearStack ;!
  no_fall_through ;!
  unless_verify_only (gen_ Rethrow).

(** [ICorDebugInfo::EPILOG]. *)
Definition EPILOG : Z := -2.

Definition read_ret (i : instr) : R unit :=
  gen_ Nop ;!
  gen_ (SetDebugLocation EPILOG false) ;!
  no_fall_through ;!
  unless_verify_only (
    let! Arg1 := if ReturnsVoid then rret None else (let! v := pop in rret (Some v)) in
    gen_ (ReturnOp Arg1 Synchronized)).

Definition read_jmp (i : instr) : R unit :=
  (match CurrentRegionType with
   | None | Some RGN_Root => rret tt
   | Some _ => badcode (inr "MVER_E_TAILCALL_INSIDE_EH"%string)
   end) ;!
  no_fall_through ;!
  unless_verify_only (
    let! Token := operand_token i in
    gen_ (ResolveToken Token TOKENKIND_Method) ;!
    clearStack ;!
    (if jmp_signatures_match (CallSiteSignature Token) CurrentSignature then rret tt
     else badcode (inr "Signature of jump target inconsistent with current routine"%string)) ;!
    let! op := as_enum CallOpcode_all (MappedValue i) in
    gen_ (JmpOp op Token)).

(** ** Calls and objects *)

Definition set_tail_prefix (r : reader) : reader :=
  set_prefixes (AlignmentPrefix r) (HasVolatilePrefix r) true (HasReadOnlyPrefix r)
    (HasConstrainedPrefix r) (ConstraintTypeRef r) r.

(** [isUnmarkedTailCall] scans from the next instruction. *)
Definition unmarked_tail_call (i : instr) (Token : Z) (r : reader) : bool :=
  negb (HasTailCallPrefix r) && negb (op_is (Opcode i) CEE_CALLI) && doTailCallOpt &&
  isUnmarkedTail (NextOffset r) Token.

(** A call takes its own operands from the stack, and may return no node. *)
Definition pop_many (n : nat) : R unit := fun r =>
  if (n <=? length (stack r))%nat then inl (set_stack (drop n (stack r)) r, tt)
  else inr StackUnderflow.
Definition push_if (v : option IRNode) : R unit :=
  match v with Some _ => push v | None => rret tt end.

Definition read_call (i : instr) : R unit :=
  gen_ (SetDebugLocation (CurrentOffset i) true) ;!
  let! Token := operand_token i in
  unless_verify_only (
    let! r := get in
    let IsUnmarkedTailCall := unmarked_tail_call i Token r in
    (if IsUnmarkedTailCall then modify set_tail_prefix else rret tt) ;!
    let! r := get in
    let! op := as_enum CallOpcode_all (MappedValue i) in
    let! a := gen_reply (CallOp op Token (ConstraintTypeRef r) mdTokenNil (HasReadOnlyPrefix r)
                           (HasTailCallPrefix r) IsUnmarkedTailCall (CurrentOffset i)) in
    pop_many (r_pops a) ;!
    push_if (r_node a) ;!
    modify (fun r => set_tokens (LoadFtnToken r) mdTokenNil r)).

Definition read_newobj (i : instr) : R unit :=
  let! Token := operand_token i in
  gen_ (ResolveToken Token TOKENKIND_Method) ;!
  unless_verify_only (
    let! r := get in
    let! a := gen_reply (NewObjOp Token (LoadFtnToken r) (CurrentOffset i)) in
    pop_many (r_pops a) ;!
    push_if (r_node a) ;!
    modify (fun r => set_tokens mdTokenNil (LastLoadToken r) r)).

(** [ReaderBase::box] takes the next offset by address and leaves it alone. *)
Definition read_box (i : instr) : R unit :=
  let! Token := operand_token i in
  gen_ (ResolveToken Token TOKENKIND_Box) ;!
  unless_verify_only (
    let! Arg1 := pop in
    gen_ RemoveStackInterference ;!
    gen_ (HandleClassAccess Token) ;!
    let! ResultIR := gen (BoxOp Token Arg1) in
    push ResultIR).

Definition read_castclass (c : Z -> IRNode -> ClientCall) (i : instr) : R unit :=
  let! Token := operand_token i in
  gen_ (ResolveToken Token TOKENKIND_Casting) ;!
  unless_verify_only (
    let! Arg1 := pop in
    gen_ (HandleClassAccess Token) ;!
    gen_ RemoveStackInterference ;!
    let! ResultIR := gen (c Token Arg1) in
    push ResultIR).

Definition read_newarr (i : instr) : R unit :=
  let! Token := operand_token i in
  gen_ (ResolveToken Token TOKENKIND_Newarr) ;!
  unless_verify_only (
    gen_ (HandleClassAccess Token) ;!
    let! Arg1 := pop in
    gen_ RemoveStackInterference ;!
    let! ResultIR := gen (NewArr Token Arg1) in
    push ResultIR).

(** [mkrefany] and [unbox]: the class access check follows the interference
    removal. *)
Definition read_class_access (c : Z -> IRNode -> ClientCall) (i : instr) : R unit :=
  let! Token := operand_token i in
  gen_ (ResolveToken Token TOKENKIND_Class) ;!
  unless_verify_only (
    let! Arg1 := pop in
    gen_ RemoveStackInterference ;!
    gen_ (HandleClassAccess Token) ;!
    let! ResultIR := gen (c Token Arg1) in
    push ResultIR).

Definition read_unbox_any (i : instr) : R unit :=
  let! r := get in
  read_class_access
    (fun Token Arg1 => UnboxAnyOp Token Arg1 (AlignmentPrefix r) (HasVolatilePrefix r)) i.

Definition read_sizeof (i : instr) : R unit :=
  let! Token := operand_token i in
  gen_ (ResolveToken Token TOKENKIND_Class) ;!
  unless_verify_only (let! ResultIR := gen (SizeOf Token) in push ResultIR).

Definition read_refanytype (i : instr) : R unit :=
  unless_verify_only (
    let! Arg1 := pop in
    gen_ RemoveStackInterference ;!
    let! ResultIR := gen (RefAnyType Arg1) in
    push ResultIR).

Definition read_refanyval (i : instr) : R unit :=
  let! Token := operand_token i in
  gen_ (ResolveToken Token TOKENKIND_Class) ;!
  unless_verify_only (
    let! Arg1 := pop in
    gen_ RemoveStackInterference ;!
    let! ResultIR := gen (RefAnyVal Arg1 Token) in
    push ResultIR).

(** ** Memory blocks and objects *)

Definition read_cpblk (i : instr) : R unit :=
  unless_verify_only (
    let! Arg1 := pop in
    let! Arg2 := pop in
    let! Arg3 := pop in
    gen_ RemoveStackInterference ;!
    let! r := get in
    gen_ (CpBlk Arg1 Arg2 Arg3 (AlignmentPrefix r) (HasVolatilePrefix r))).

Definition read_initblk (i : instr) : R unit :=
  unless_verify_only (
    let! Arg1 := pop in
    let! Arg2 := pop in
    let! Arg3 := pop in
    gen_ RemoveStackInterference ;!
    let! r := get in
    gen_ (InitBlk Arg1 Arg2 Arg3 (AlignmentPrefix r) (HasVolatilePrefix r))).

Definition read_cpobj (i : instr) : R unit :=
  let! Token := operand_token i in
  gen_ (ResolveToken Token TOKENKIND_Class) ;!
  unless_verify_only (
    let! Arg1 := pop in
    let! Arg2 := pop in
    gen_ RemoveStackInterference ;!
    let! r := get in
    gen_ (CpObj Token Arg1 Arg2 (AlignmentPrefix r) (HasVolatilePrefix r))).

Definition read_initobj (i : instr) : R unit :=
  let! Token := operand_token i in
  gen_ (ResolveToken Token TOKENKIND_Class) ;!
  unless_verify_only (
    let! Arg1 := pop in
    gen_ RemoveStackInterference ;!
    gen_ (InitObj Token Arg1)).

Definition read_ldobj (i : instr) : R unit :=
  let! Token := operand_token i in
  gen_ (ResolveToken Token TOKENKIND_Class) ;!
  unless_verify_only (
    let! Arg1 := pop in
    gen_ RemoveStackInterference ;!
    let! r := get in
    let! ResultIR := gen (LoadObj Token Arg1 (AlignmentPrefix r) (HasVolatilePrefix r)) in
    push ResultIR).

Definition read_stobj (i : instr) : R unit :=
  let! Token := operand_token i in
  gen_ (ResolveToken Token TOKENKIND_Class) ;!
  unless_verify_only (
    let! Arg1 := pop in
    let! Arg2 := pop in
    gen_ RemoveStackInterference ;!
    let! r := get in
    gen_ (StoreObj Token Arg1 Arg2 (AlignmentPrefix r) (HasVolatilePrefix r))).

(** ** Arguments, locals and constants *)

(** The argument or local number: in the operand, or in the opcode. *)
Definition ordinal (i : instr) : R Z :=
  match Opcode i with
  | CEE_LDARG | CEE_LDLOC | CEE_STLOC | CEE_LDARGA | CEE_LDLOCA | CEE_STARG => operand_u 2 i
  | CEE_LDARG_S | CEE_LDLOC_S | CEE_STLOC_S | CEE_LDARGA_S | CEE_LDLOCA_S | CEE_STARG_S =>
      operand_u 1 i
  | _ => rret (MappedValue i)
  end.

(** [LOAD_ARG], [LOAD_LOCAL] and the forms that load an address. *)
Definition read_load_var (c : Z -> ClientCall) (i : instr) : R unit :=
  let! n := ordinal i in
  unless_verify_only (let! ResultIR := gen (c n) in push ResultIR).

(** [STARG] and [STORE_LOC]. *)
Definition read_store_var (c : Z -> IRNode -> Z -> bool -> ClientCall) (i : instr) : R unit :=
  let! n := ordinal i in
  unless_verify_only (
    let! Arg1 := pop in
    gen_ (RemoveStackInterferenceForLocalStore (Opcode i) n) ;!
    let! r := get in
    gen_ (c n Arg1 (AlignmentPrefix r) (HasVolatilePrefix r))).

(** [LOAD_CONSTANT]: the nop that records the source location is inserted in
    a verify-only pass too. *)
Definition read_ldc_i4 (i : instr) : R unit :=
  let! v := match Opcode i with
            | CEE_LDC_I4 => operand_s 4 i
            | CEE_LDC_I4_S => operand_s 1 i
            | _ => rret (MappedValue i)
            end in
  gen_ Nop ;!
  unless_verify_only (let! ResultIR := gen (LoadConstantI4 v) in push ResultIR).

Definition read_ldc_i8 (i : instr) : R unit :=
  unless_verify_only (
    let! v := operand_s 8 i in
    let! ResultIR := gen (LoadConstantI8 v) in push ResultIR).
Definition read_ldc_r4 (i : instr) : R unit :=
  unless_verify_only (
    let! bits := operand_u 4 i in
    let! ResultIR := gen (LoadConstantR4 bits) in push ResultIR).
Definition read_ldc_r8 (i : instr) : R unit :=
  unless_verify_only (
    let! bits := operand_u 8 i in
    let! ResultIR := gen (LoadConstantR8 bits) in push ResultIR).

(** [ldnull] and [arglist]. *)
Definition read_load (c : ClientCall) (i : instr) : R unit :=
  unless_verify_only (let! ResultIR := gen c in push ResultIR).

Definition read_ldstr (i : instr) : R unit :=
  let! Token := operand_token i in
  unless_verify_only (let! ResultIR := gen (LoadStr Token) in push ResultIR).

Definition read_ldtoken (i : instr) : R unit :=
  let! Token := operand_token i in
  gen_ (ResolveToken Token TOKENKIND_Ldtoken) ;!
  modify (fun r => set_tokens (LoadFtnToken r) Token r) ;!
  unless_verify_only (let! ResultIR := gen (LoadToken Token) in push ResultIR).

(** ** Arrays, fields and indirections *)

(** The token is resolved only for the forms that carry one. *)
Definition element_token (generic : bool) (i : instr) : R (option Z) :=
  if generic then
    let! Token := operand_token i in
    gen_ (ResolveToken Token TOKENKIND_Class) ;!
    rret (Some Token)
  else rret None.

Definition read_ldelem (i : instr) : R unit :=
  let! Token := element_token (op_is (Opcode i) CEE_LDELEM) i in
  unless_verify_only (
    let! Arg1 := pop in
    let! Arg2 := pop in
    let! op := as_enum LdElemOpcode_all (MappedValue i) in
    let! ResultIR := gen (LoadElem op Token Arg1 Arg2) in
    push ResultIR).

Definition read_ldelema (i : instr) : R unit :=
  let! Token := operand_token i in
  gen_ (ResolveToken Token TOKENKIND_Class) ;!
  unless_verify_only (
    let! Arg1 := pop in
    let! Arg2 := pop in
    let! r := get in
    let! ResultIR := gen (LoadElemA Token Arg1 Arg2 (HasReadOnlyPrefix r)) in
    push ResultIR).

Definition read_stelem (i : instr) : R unit :=
  let! Token := element_token (op_is (Opcode i) CEE_STELEM) i in
  unless_verify_only (
    let! Arg1 := pop in
    let! Arg2 := pop in
    let! Arg3 := pop in
    gen_ RemoveStackInterference ;!
    let! op := as_enum StElemOpcode_all (MappedValue i) in
    gen_ (StoreElem op Token Arg1 Arg2 Arg3)).

Definition read_ldind (i : instr) : R unit :=
  unless_verify_only (
    let! Arg1 := pop in
    let! op := as_enum LdIndirOpcode_all (MappedValue i) in
    let! r := get in
    let! ResultIR := gen (LoadIndir op Arg1 (AlignmentPrefix r) (HasVolatilePrefix r)) in
    push ResultIR).

Definition read_stind (i : instr) : R unit :=
  unless_verify_only (
    let! Arg1 := pop in
    let! Arg2 := pop in
    gen_ RemoveStackInterference ;!
    let! op := as_enum StIndirOpcode_all (MappedValue i) in
    let! r := get in
    gen_ (StoreIndir op Arg1 Arg2 (AlignmentPrefix r) (HasVolatilePrefix r))).

Definition read_ldlen (i : instr) : R unit :=
  unless_verify_only (
    let! Arg1 := pop in
    let! ResultIR := gen (LoadLen Arg1) in
    push ResultIR).

Definition field_token (i : instr) : R Z :=
  let! Token := operand_token i in
  gen_ (ResolveToken Token TOKENKIND_Field) ;!
  rret Token.

Definition read_ldfld (i : instr) : R unit :=
  let! Token := field_token i in
  unless_verify_only (
    let! Arg1 := pop in
    let! r := get in
    let! ResultIR := gen (LoadField Token Arg1 (AlignmentPrefix r) (HasVolatilePrefix r)) in
    push ResultIR).

Definition read_ldflda (i : instr) : R unit :=
  let! Token := field_token i in
  unless_verify_only (
    let! Arg1 := pop in
    let! ResultIR := gen (LoadFieldAddress Token Arg1) in
    push ResultIR).

Definition read_ldsfld (i : instr) : R unit :=
  let! Token := field_token i in
  unless_verify_only (
    let! r := get in
    let! ResultIR := gen (LoadStaticField Token (HasVolatilePrefix r)) in
    push ResultIR).

Definition read_ldsflda (i : instr) : R unit :=
  let! Token := field_token i in
  unless_verify_only (let! ResultIR := gen (GetStaticFieldAddress Token) in push ResultIR).

Definition read_stfld (i : instr) : R unit :=
  let! Token := field_token i in
  unless_verify_only (
    let! Arg1 := pop in
    let! Arg2 := pop in
    gen_ RemoveStackInterference ;!
    let! r := get in
    gen_ (StoreField Token Arg1 Arg2 (AlignmentPrefix r) (HasVolatilePrefix r))).

Definition read_stsfld (i : instr) : R unit :=
  let! Token := field_token i in
  unless_verify_only (
    let! Arg1 := pop in
    gen_ RemoveStackInterference ;!
    let! r := get in
    gen_ (StoreStaticField Token Arg1 (HasVolatilePrefix r))).

(** ** Function pointers *)

(** The token is kept for a delegate constructor that follows at once; in
    ReadyToRun code only for a plain call. *)
Definition load_ftn_token (IsVirtual : bool) (i : instr) : R Z :=
  let! Token := operand_token i in
  modify (fun r => set_tokens Token (LastLoadToken r) r) ;!
  gen_ (ResolveToken Token TOKENKIND_Method) ;!
  let! a := gen_reply (GetCallInfo Token IsVirtual) in
  (if ReadyToRun && negb (r_plain_call a)
   then modify (fun r => set_tokens mdTokenNil (LastLoadToken r) r) else rret tt) ;!
  rret Token.

Definition read_ldftn (i : instr) : R unit :=
  let! Token := load_ftn_token false i in
  unless_verify_only (
    gen_ (HandleMemberAccess Token) ;!
    let! ResultIR := gen (MakeLdFtnTarget Token) in
    push ResultIR).

Definition read_ldvirtftn (i : instr) : R unit :=
  let! Token := load_ftn_token true i in
  unless_verify_only (
    gen_ (HandleMemberAccess Token) ;!
    let! Arg1 := pop in
    let! ResultIR := gen (LoadVirtFunc Arg1 Token) in
    push ResultIR).

(** ** Stack operations *)

(** [GenIR::dup] returns its operand twice. *)
Definition read_dup (i : instr) : R unit :=
  unless_verify_only (
    let! Arg1 := pop in
    push (Some Arg1) ;!
    push (Some Arg1)).

Definition read_pop (i : instr) : R unit :=
  unless_verify_only (let! Arg1 := pop in gen_ (PopOp Arg1)).

(** [break] and [nop]. *)
Definition read_effect (c : ClientCall) (i : instr) : R unit := unless_verify_only (gen_ c).

Definition read_localloc (i : instr) : R unit :=
  unless_verify_only (
    let! Arg1 := pop in
    let! Empty := stack_empty in
    (if Empty then rret tt else badcode (inr "LOCALLOC requires that the evaluation stack be empty"%string)) ;!
    (match CurrentRegionType with
     | None | Some RGN_Root | Some RGN_Try => rret tt
     | Some _ => badcode (inr "LOCALLOC cannot occur within an exception block"%string)
     end) ;!
    let! ResultIR := gen (LocalAlloc Arg1 InitLocals) in
    push ResultIR).

(** ** Prefixes *)

Definition set_volatile_prefix (r : reader) : reader :=
  set_prefixes (AlignmentPrefix r) true (HasTailCallPrefix r) (HasReadOnlyPrefix r)
    (HasConstrainedPrefix r) (ConstraintTypeRef r) r.
Definition set_readonly_prefix (r : reader) : reader :=
  set_prefixes (AlignmentPrefix r) (HasVolatilePrefix r) (HasTailCallPrefix r) true
    (HasConstrainedPrefix r) (ConstraintTypeRef r) r.
Definition set_constrained_prefix (Token : Z) (r : reader) : reader :=
  set_prefixes (AlignmentPrefix r) (HasVolatilePrefix r) (HasTailCallPrefix r)
    (HasReadOnlyPrefix r) true Token r.
Definition set_alignment_prefix (a : Z) (r : reader) : reader :=
  set_prefixes a (HasVolatilePrefix r) (HasTailCallPrefix r) (HasReadOnlyPrefix r)
    (HasConstrainedPrefix r) (ConstraintTypeRef r) r.

Definition read_constrained (i : instr) : R unit :=
  let! Token := operand_token i in modify (set_constrained_prefix Token).
Definition read_unaligned (i : instr) : R unit :=
  let! a := operand_u 1 i in modify (set_alignment_prefix a).

(** ** The switch *)

Definition dispatch (i : instr) : R unit :=
  match Opcode i with
  | CEE_ADD_OVF_UN | CEE_ADD | CEE_ADD_OVF | CEE_AND | CEE_DIV | CEE_DIV_UN | CEE_MUL
  | CEE_MUL_OVF | CEE_MUL_OVF_UN | CEE_OR | CEE_REM | CEE_REM_UN | CEE_SUB | CEE_SUB_OVF
  | CEE_SUB_OVF_UN | CEE_XOR => read_binary i
  | CEE_ARGLIST => read_load ArgList i
  | CEE_BOX => read_box i
  | CEE_BEQ | CEE_BGE | CEE_BGE_UN | CEE_BGT | CEE_BGT_UN | CEE_BLE | CEE_BLE_UN | CEE_BLT
  | CEE_BLT_UN | CEE_BNE_UN => read_cond_branch 4 i
  | CEE_BEQ_S | CEE_BGE_S | CEE_BGE_UN_S | CEE_BGT_S | CEE_BGT_UN_S | CEE_BLE_S
  | CEE_BLE_UN_S | CEE_BLT_S | CEE_BLT_UN_S | CEE_BNE_UN_S => read_cond_branch 1 i
  | CEE_BRTRUE | CEE_BRFALSE => read_bool_branch 4 i
  | CEE_BRTRUE_S | CEE_BRFALSE_S => read_bool_branch 1 i
  | CEE_BR => read_branch 4 i
  | CEE_BR_S => read_branch 1 i
  | CEE_BREAK => read_effect BreakOp i
  | CEE_CALL | CEE_CALLI | CEE_CALLVIRT => read_call i
  | CEE_CASTCLASS => read_castclass CastClass i
  | CEE_ISINST => read_castclass IsInst i
  | CEE_CEQ | CEE_CGT | CEE_CGT_UN | CEE_CLT | CEE_CLT_UN => read_cmp i
  | CEE_CKFINITE => read_ckfinite i
  | CEE_CONV_I1 | CEE_CONV_I2 | CEE_CONV_I4 | CEE_CONV_I8 | CEE_CONV_R4 | CEE_CONV_R8
  | CEE_CONV_U1 | CEE_CONV_U2 | CEE_CONV_U4 | CEE_CONV_U8 | CEE_CONV_I | CEE_CONV_U
  | CEE_CONV_OVF_I1 | CEE_CONV_OVF_I2 | CEE_CONV_OVF_I4 | CEE_CONV_OVF_I8
  | CEE_CONV_OVF_U1 | CEE_CONV_OVF_U2 | CEE_CONV_OVF_U4 | CEE_CONV_OVF_U8
  | CEE_CONV_OVF_I | CEE_CONV_OVF_U
  | CEE_CONV_OVF_I1_UN | CEE_CONV_OVF_I2_UN | CEE_CONV_OVF_I4_UN | CEE_CONV_OVF_I8_UN
  | CEE_CONV_OVF_U1_UN | CEE_CONV_OVF_U2_UN | CEE_CONV_OVF_U4_UN | CEE_CONV_OVF_U8_UN
  | CEE_CONV_OVF_I_UN | CEE_CONV_OVF_U_UN | CEE_CONV_R_UN => read_conv i
  | CEE_CPBLK => read_cpblk i
  | CEE_CPOBJ => read_cpobj i
  | CEE_DUP => read_dup i
  | CEE_ENDFILTER => read_endfilter i
  | CEE_ENDFINALLY => read_endfinally i
  | CEE_INITOBJ => read_initobj i
  | CEE_INITBLK => read_initblk i
  | CEE_JMP => read_jmp i
  | CEE_LDARG | CEE_LDARG_S | CEE_LDARG_0 | CEE_LDARG_1 | CEE_LDARG_2 | CEE_LDARG_3 =>
      read_load_var LoadArg i
  | CEE_LDLOC | CEE_LDLOC_S | CEE_LDLOC_0 | CEE_LDLOC_1 | CEE_LDLOC_2 | CEE_LDLOC_3 =>
      read_load_var LoadLocal i
  | CEE_LDARGA | CEE_LDARGA_S => read_load_var LoadArgAddress i
  | CEE_LDLOCA | CEE_LDLOCA_S => read_load_var LoadLocalAddress i
  | CEE_LDC_I8 => read_ldc_i8 i
  | CEE_LDC_R4 => read_ldc_r4 i
  | CEE_LDC_R8 => read_ldc_r8 i
  | CEE_LDC_I4 | CEE_LDC_I4_S | CEE_LDC_I4_0 | CEE_LDC_I4_1 | CEE_LDC_I4_2 | CEE_LDC_I4_3
  | CEE_LDC_I4_4 | CEE_LDC_I4_5 | CEE_LDC_I4_6 | CEE_LDC_I4_7 | CEE_LDC_I4_8
  | CEE_LDC_I4_M1 => read_ldc_i4 i
  | CEE_LDELEM | CEE_LDELEM_I1 | CEE_LDELEM_U1 | CEE_LDELEM_I2 | CEE_LDELEM_U2
  | CEE_LDELEM_I4 | CEE_LDELEM_U4 | CEE_LDELEM_I8 | CEE_LDELEM_I | CEE_LDELEM_R4
  | CEE_LDELEM_R8 | CEE_LDELEM_REF => read_ldelem i
  | CEE_LDELEMA => read_ldelema i
  | CEE_LDFLD => read_ldfld i
  | CEE_LDFTN => read_ldftn i
  | CEE_LDIND_I1 | CEE_LDIND_U1 | CEE_LDIND_I2 | CEE_LDIND_U2 | CEE_LDIND_I4 | CEE_LDIND_U4
  | CEE_LDIND_I8 | CEE_LDIND_I | CEE_LDIND_R4 | CEE_LDIND_R8 | CEE_LDIND_REF => read_ldind i
  | CEE_LDLEN => read_ldlen i
  | CEE_LDNULL => read_load LoadNull i
  | CEE_LDSTR => read_ldstr i
  | CEE_LDSFLD => read_ldsfld i
  | CEE_LDSFLDA => read_ldsflda i
  | CEE_LDFLDA => read_ldflda i
  | CEE_LDOBJ => read_ldobj i
  | CEE_LDTOKEN => read_ldtoken i
  | CEE_LDVIRTFTN => read_ldvirtftn i
  | CEE_LEAVE => read_leave 4 i
  | CEE_LEAVE_S => read_leave 1 i
  | CEE_LOCALLOC => read_localloc i
  | CEE_MKREFANY => read_class_access MakeRefAny i
  | CEE_NEG | CEE_NOT => read_unary i
  | CEE_NEWARR => read_newarr i
  | CEE_NEWOBJ => read_newobj i
  | CEE_NOP => read_effect Nop i
  | CEE_POP => read_pop i
  | CEE_REFANYTYPE => read_refanytype i
  | CEE_REFANYVAL => read_refanyval i
  | CEE_RETHROW => read_rethrow i
  | CEE_RET => read_ret i
  | CEE_SHL | CEE_SHR | CEE_SHR_UN => read_shift i
  | CEE_SIZEOF => read_sizeof i
  | CEE_STARG | CEE_STARG_S => read_store_var StoreArg i
  | CEE_STELEM | CEE_STELEM_I | CEE_STELEM_I1 | CEE_STELEM_I2 | CEE_STELEM_I4
  | CEE_STELEM_I8 | CEE_STELEM_R4 | CEE_STELEM_R8 | CEE_STELEM_REF => read_stelem i
  | CEE_STFLD => read_stfld i
  | CEE_STLOC | CEE_STLOC_S | CEE_STLOC_0 | CEE_STLOC_1 | CEE_STLOC_2 | CEE_STLOC_3 =>
      read_store_var StoreLocal i
  | CEE_STIND_I1 | CEE_STIND_I2 | CEE_STIND_I4 | CEE_STIND_I8 | CEE_STIND_I | CEE_STIND_R4
  | CEE_STIND_R8 | CEE_STIND_REF => read_stind i
  | CEE_STOBJ => read_stobj i
  | CEE_STSFLD => read_stsfld i
  | CEE_SWITCH => read_switch i
  | CEE_TAILCALL => modify set_tail_prefix
  | CEE_CONSTRAINED => read_constrained i
  | CEE_READONLY => modify set_readonly_prefix
  | CEE_THROW => read_throw i
  | CEE_UNALIGNED => read_unaligned i
  | CEE_UNBOX => read_class_access UnboxOp i
  | CEE_UNBOX_ANY => read_unbox_any i
  | CEE_VOLATILE => modify set_volatile_prefix
  | _ => badcode (inl MVER_E_UNKNOWN_OPCODE)
  end.

(** ** The loop *)

Definition keeps_prefixes (Op : OPCODE) : bool :=
  op_in Op [CEE_VOLATILE; CEE_TAILCALL; CEE_UNALIGNED; CEE_READONLY; CEE_CONSTRAINED].

Definition reset_prefixes : reader -> reader :=
  set_prefixes Reader_AlignNatural false false false false mdTokenNil.

(** The cached tokens survive only into a [newobj] and a [call]. *)
Definition clear_cached_tokens (Op : OPCODE) (r : reader) : reader :=
  set_tokens (if op_is Op CEE_NEWOBJ then LoadFtnToken r else mdTokenNil)
    (if op_is Op CEE_CALL then LastLoadToken r else mdTokenNil) r.

(** [parseILOpcode] with its error report. *)
Definition report_error (p : parsed) : R unit :=
  match p_report p with
  | VerGlobalError e => badcode (inl e)
  | Silent | DbPrint _ => rret tt
  end.

Definition parse (CurrentOffset : Z) : R parsed :=
  let! p := read (parseILOpcode OperandSizeMap ILInput CurrentOffset ILSize true true) in
  report_error p ;!
  rret p.

(** One round of the loop; the operand pointer of a failed parse is null, and
    no case of the switch reads it. *)
Definition execute (CurrentOffset : Z) (p : parsed) : R Z :=
  modify (set_next (p_next p)) ;!
  let! Empty := stack_empty in
  (if Empty then gen_ (SetDebugLocation CurrentOffset false) else rret tt) ;!
  modify (clear_cached_tokens (p_opcode p)) ;!
  dispatch (Instr (p_opcode p) (default (-1) (p_operand p)) CurrentOffset) ;!
  (if keeps_prefixes (p_opcode p) then rret tt else modify reset_prefixes) ;!
  let! r := get in
  rret (NextOffset r).

Definition read_instruction (CurrentOffset : Z) : R Z :=
  let! p := parse CurrentOffset in
  execute CurrentOffset p.

Definition loop_state : Type := reader * Z.

(** The end offset of the block is the flow graph's, and the generator changes
    it: a call that splits the block which is being read ends it after the
    current instruction ([splitCurrentBlock]).  Like the replies it is a
    function of the calls made so far, and every round asks for it again. *)
Definition end_offsets : Type := list ClientCall -> Z.

Definition loop_body (fgNodeGetEndMSILOffset : end_offsets) (s : loop_state)
    : loop_state + (reader * Z + stop) :=
  let '(r, CurrentOffset) := s in
  if CurrentOffset <? fgNodeGetEndMSILOffset (trace r) then
    match read_instruction CurrentOffset r with
    | inl s' => inl s'
    | inr e => inr (inr e)
    end
  else inr (inl (r, CurrentOffset)).

(** The state at the head of the loop: no prefix and no cached token. *)
Definition initialize_block (StartOffset : Z) (r : reader) : reader :=
  set_next StartOffset (set_tokens mdTokenNil mdTokenNil (reset_prefixes r)).

Definition readBytesForFlowGraphNodeHelper (fuel : nat) (StartOffset : Z) (EndOffset : end_offsets)
    (r : reader) : option (reader + stop) :=
  res ← while_fuel fuel (loop_body EndOffset) (initialize_block StartOffset r, StartOffset);
  Some (match res with
        | inl (r, _) => inl (set_end (HasFallThrough r) true r)
        | inr e => inr e
        end).

(** [readBytesForFlowGraphNode]: the block starts from its own operands, none
    if no predecessor passes any; what is left at the end goes to the
    successors.  The helper advances a copy of the offset, so both client calls
    see the start of the block.  The exception handler only runs for a
    verification failure, which the stubs never raise. *)
Definition enter_block (OperandStack : option (list IRNode)) (StartOffset : Z) : R unit :=
  (if IsVerifyOnly then rret tt
   else match OperandStack with
        | Some s => modify (set_stack s)
        | None =>
            let! Empty := stack_empty in
            if Empty then rret tt else rstop AssertFailed
        end) ;!
  gen_ (BeginFlowGraphNode StartOffset IsVerifyOnly).

Definition leave_block (StartOffset : Z) : R unit :=
  if IsVerifyOnly then rret tt
  else gen_ (EndFlowGraphNode StartOffset) ;! maintainOperandStack.

Definition readBytesForFlowGraphNode (fuel : nat) (OperandStack : option (list IRNode))
    (StartOffset : Z) (EndOffset : end_offsets) (r : reader) : option (reader * unit + stop) :=
  match enter_block OperandStack StartOffset (set_end true false r) with
  | inr e => Some (inr e)
  | inl (r, _) =>
      res ← readBytesForFlowGraphNodeHelper fuel StartOffset EndOffset r;
      Some (match res with
            | inl r => leave_block StartOffset r
            | inr e => inr e
            end)
  end.

End Dispatch.
