(* ===== verification/StackEffect.v ===== *)
(** * What the reader loop does to the operand stack

    A typing discipline for the reader's monad: [effect n m c] says that [c]
    takes [n] operands, leaves [m] results on top of the rest and fails, with
    an underflow, exactly when there are fewer operands.  Every case of the
    switch is typed against the stack transitions of ECMA-335, partition III,
    and a block whose transitions are consistent is read to its end. *)

From S2P Require Import Prelude Opcodes ILDecode Regions TailCall Dispatch.
Import ReaderBaseNS.

(** ** The stack transitions of ECMA-335 *)

(** Operands and results of the instructions with a fixed transition that do
    not end a block; a call's depends on its signature. *)
Definition ecma_transition (op : OPCODE) : option (nat * nat) :=
  match op with
  | CEE_NOP | CEE_BREAK | CEE_TAILCALL | CEE_CONSTRAINED | CEE_READONLY | CEE_UNALIGNED
  | CEE_VOLATILE => Some (0, 0)%nat
  | CEE_ADD | CEE_ADD_OVF | CEE_ADD_OVF_UN | CEE_SUB | CEE_SUB_OVF | CEE_SUB_OVF_UN
  | CEE_MUL | CEE_MUL_OVF | CEE_MUL_OVF_UN | CEE_DIV | CEE_DIV_UN | CEE_REM | CEE_REM_UN
  | CEE_AND | CEE_OR | CEE_XOR | CEE_SHL | CEE_SHR | CEE_SHR_UN
  | CEE_CEQ | CEE_CGT | CEE_CGT_UN | CEE_CLT | CEE_CLT_UN => Some (2, 1)%nat
  | CEE_NEG | CEE_NOT | CEE_CKFINITE
  | CEE_CONV_I1 | CEE_CONV_I2 | CEE_CONV_I4 | CEE_CONV_I8 | CEE_CONV_R4 | CEE_CONV_R8
  | CEE_CONV_U1 | CEE_CONV_U2 | CEE_CONV_U4 | CEE_CONV_U8 | CEE_CONV_I | CEE_CONV_U
  | CEE_CONV_OVF_I1 | CEE_CONV_OVF_I2 | CEE_CONV_OVF_I4 | CEE_CONV_OVF_I8
  | CEE_CONV_OVF_U1 | CEE_CONV_OVF_U2 | CEE_CONV_OVF_U4 | CEE_CONV_OVF_U8
  | CEE_CONV_OVF_I | CEE_CONV_OVF_U
  | CEE_CONV_OVF_I1_UN | CEE_CONV_OVF_I2_UN | CEE_CONV_OVF_I4_UN | CEE_CONV_OVF_I8_UN
  | CEE_CONV_OVF_U1_UN | CEE_CONV_OVF_U2_UN | CEE_CONV_OVF_U4_UN | CEE_CONV_OVF_U8_UN
  | CEE_CONV_OVF_I_UN | CEE_CONV_OVF_U_UN | CEE_CONV_R_UN => Some (1, 1)%nat
  | CEE_ARGLIST | CEE_LDNULL | CEE_LDSTR | CEE_LDTOKEN | CEE_SIZEOF | CEE_LDFTN
  | CEE_LDARG | CEE_LDARG_S | CEE_LDARG_0 | CEE_LDARG_1 | CEE_LDARG_2 | CEE_LDARG_3
  | CEE_LDLOC | CEE_LDLOC_S | CEE_LDLOC_0 | CEE_LDLOC_1 | CEE_LDLOC_2 | CEE_LDLOC_3
  | CEE_LDARGA | CEE_LDARGA_S | CEE_LDLOCA | CEE_LDLOCA_S
  | CEE_LDC_I4 | CEE_LDC_I4_S | CEE_LDC_I4_0 | CEE_LDC_I4_1 | CEE_LDC_I4_2 | CEE_LDC_I4_3
  | CEE_LDC_I4_4 | CEE_LDC_I4_5 | CEE_LDC_I4_6 | CEE_LDC_I4_7 | CEE_LDC_I4_8 | CEE_LDC_I4_M1
  | CEE_LDC_I8 | CEE_LDC_R4 | CEE_LDC_R8 | CEE_LDSFLD | CEE_LDSFLDA => Some (0, 1)%nat
  | CEE_BOX | CEE_UNBOX | CEE_UNBOX_ANY | CEE_CASTCLASS | CEE_ISINST | CEE_NEWARR
  | CEE_MKREFANY | CEE_REFANYTYPE | CEE_REFANYVAL | CEE_LDOBJ | CEE_LDLEN | CEE_LDFLD
  | CEE_LDFLDA | CEE_LDVIRTFTN | CEE_LOCALLOC
  | CEE_LDIND_I1 | CEE_LDIND_U1 | CEE_LDIND_I2 | CEE_LDIND_U2 | CEE_LDIND_I4 | CEE_LDIND_U4
  | CEE_LDIND_I8 | CEE_LDIND_I | CEE_LDIND_R4 | CEE_LDIND_R8 | CEE_LDIND_REF => Some (1, 1)%nat
  | CEE_LDELEM | CEE_LDELEM_I1 | CEE_LDELEM_U1 | CEE_LDELEM_I2 | CEE_LDELEM_U2
  | CEE_LDELEM_I4 | CEE_LDELEM_U4 | CEE_LDELEM_I8 | CEE_LDELEM_I | CEE_LDELEM_R4
  | CEE_LDELEM_R8 | CEE_LDELEM_REF | CEE_LDELEMA => Some (2, 1)%nat
  | CEE_DUP => Some (1, 2)%nat
  | CEE_POP | CEE_INITOBJ | CEE_STSFLD | CEE_STARG | CEE_STARG_S
  | CEE_STLOC | CEE_STLOC_S | CEE_STLOC_0 | CEE_STLOC_1 | CEE_STLOC_2 | CEE_STLOC_3 =>
      Some (1, 0)%nat
  | CEE_CPOBJ | CEE_STOBJ | CEE_STFLD
  | CEE_STIND_I1 | CEE_STIND_I2 | CEE_STIND_I4 | CEE_STIND_I8 | CEE_STIND_I | CEE_STIND_R4
  | CEE_STIND_R8 | CEE_STIND_REF => Some (2, 0)%nat
  | CEE_CPBLK | CEE_INITBLK
  | CEE_STELEM | CEE_STELEM_I | CEE_STELEM_I1 | CEE_STELEM_I2 | CEE_STELEM_I4
  | CEE_STELEM_I8 | CEE_STELEM_R4 | CEE_STELEM_R8 | CEE_STELEM_REF => Some (3, 0)%nat
  | _ => None
  end.

(** Operands of the instructions that end a block and hand the rest of the
    stack to its successors. *)
Definition ecma_branch_pops (op : OPCODE) : option nat :=
  match op with
  | CEE_BR | CEE_BR_S => Some 0%nat
  | CEE_BRTRUE | CEE_BRFALSE | CEE_BRTRUE_S | CEE_BRFALSE_S => Some 1%nat
  | CEE_BEQ | CEE_BGE | CEE_BGE_UN | CEE_BGT | CEE_BGT_UN | CEE_BLE | CEE_BLE_UN | CEE_BLT
  | CEE_BLT_UN | CEE_BNE_UN
  | CEE_BEQ_S | CEE_BGE_S | CEE_BGE_UN_S | CEE_BGT_S | CEE_BGT_UN_S | CEE_BLE_S
  | CEE_BLE_UN_S | CEE_BLT_S | CEE_BLT_UN_S | CEE_BNE_UN_S => Some 2%nat
  | _ => None
  end.

(** Operands left at the end of a block entered with [d]; [None] is an
    underflow. *)
Fixpoint depth_after (l : list il_instr) (d : nat) : option nat :=
  match l with
  | [] => Some d
  | i :: l =>
      match ecma_transition (i_op i), ecma_branch_pops (i_op i) with
      | Some (n, m), _ => if (n <=? d)%nat then depth_after l (m + (d - n)) else None
      | None, Some n => if (n <=? d)%nat then Some (d - n)%nat else None
      | None, None => None
      end
  end.

(** Instructions with fixed transitions, the last of which may be a branch. *)
Fixpoint straight (l : list il_instr) : bool :=
  match l with
  | [] => true
  | i :: l =>
      match ecma_transition (i_op i), ecma_branch_pops (i_op i), l with
      | Some _, _, _ => straight l
      | None, Some _, [] => true
      | _, _, _ => false
      end
  end.

Section Effects.

Context {IRNode : Type} {C : Client IRNode} {M : Method IRNode}.
#[local] Notation R := (R (IRNode := IRNode)).

(** A generator that never raises, always has a node to return. *)
Definition obliging : Prop := forall t c, exists v n p, answer t c = Some (Reply (Some v) n p).

(** The bytes of an instruction's operand are inside the method. *)
Definition operand_readable (i : instr) : Prop :=
  forall n, Z.of_nat n <= ecma_operand_size (Opcode i) ->
  is_Some (readValue_u n ILInput (Operand i)).

(** The operand stacks handed to the successors so far, newest first. *)
Definition handed_stack (c : ClientCall IRNode) : option (list IRNode) :=
  match c with MaintainOperandStack s => Some s | _ => None end.
Definition handed (r : reader IRNode) : list (list IRNode) := omap handed_stack (trace r).

(** ** The typing judgement *)

(** What every case that stays in the block leaves alone. *)
Definition frame (r : reader IRNode) : Z * list (list IRNode) := (NextOffset r, handed r).

(** The number of operands decides between a result and an underflow; the
    frame stays. *)
Lemma frame_eq (r r' : reader IRNode) :
  frame r' = frame r -> NextOffset r' = NextOffset r /\ handed r' = handed r.
Proof. by intros [= ? ?]. Qed.

Definition effect {A} (n m : nat) (c : R A) : Prop :=
  forall r,
    if decide (n <= length (stack r))%nat then
      exists r' a res, c r = inl (r', a) /\ stack r' = res ++ drop n (stack r) /\ length res = m /\
        frame r' = frame r
    else c r = inr StackUnderflow.

Lemma effect_eq {A} (n m n' m' : nat) (c : R A) :
  effect n m c -> n = n' -> m = m' -> effect n' m' c.
Proof. by intros ? -> ->. Qed.

Lemma effect_ret {A} (a : A) : effect 0 0 (rret a).
Proof. intros r. case_decide; [|lia]. by exists r, a, []. Qed.

Lemma effect_bind {A B} (n1 m1 n2 m2 : nat) (c : R A) (f : A -> R B) :
  effect n1 m1 c -> (forall a, effect n2 m2 (f a)) ->
  effect (n1 + (n2 - m1)) (m2 + (m1 - n2)) (rbind c f).
Proof.
  unfold effect, rbind. intros Hc Hf r. specialize (Hc r).
  destruct (decide (n1 <= length (stack r))%nat) as [Hn1|Hn1];
    [|rewrite decide_False by lia; by rewrite Hc].
  destruct Hc as (r1 & a & res & -> & Hs & Hl & Hx). specialize (Hf a r1).
  rewrite Hs, length_app, length_drop, Hl in Hf.
  destruct (decide (n2 <= _)%nat) as [Hn2|Hn2]; [|by rewrite decide_False by lia].
  rewrite decide_True by lia. destruct Hf as (r2 & b & res2 & -> & Hs2 & Hl2 & Hx2).
  exists r2, b, (res2 ++ drop n2 res).
  rewrite Hs2, drop_app, drop_drop, length_app, length_drop, Hl.
  split; [done|]. split; [by rewrite <- app_assoc|]. split; [lia|congruence].
Qed.

Lemma effect_modify (f : reader IRNode -> reader IRNode) :
  (forall r, stack (f r) = stack r /\ frame (f r) = frame r) -> effect 0 0 (modify f).
Proof. intros Hf r. case_decide; [|lia]. destruct (Hf r). by exists (f r), tt, []. Qed.

Lemma effect_get : effect 0 0 (get (IRNode := IRNode)).
Proof. intros r. case_decide; [|lia]. by exists r, r, []. Qed.

Lemma effect_pop : effect 1 0 (pop (IRNode := IRNode)).
Proof.
  intros r. unfold pop. destruct (stack r) as [|v s] eqn:E; [done|].
  case_decide; simpl in *; [|lia]. exists (set_stack s r), v, []. done.
Qed.

Lemma effect_push (v : IRNode) : effect 0 1 (push (Some v)).
Proof. intros r. case_decide; [|lia]. by exists (set_stack (v :: stack r) r), tt, [v]. Qed.

Lemma effect_stack_empty : effect 0 0 (stack_empty (IRNode := IRNode)).
Proof. intros r. case_decide; [|lia]. by exists r, (match stack r with [] => true | _ => false end), []. Qed.

Context (Hobliging : obliging).

Lemma frame_call (c : ClientCall IRNode) (r : reader IRNode) :
  handed_stack c = None -> frame (set_trace (c :: trace r) r) = frame r.
Proof. unfold frame, handed. simpl. by intros ->. Qed.

Lemma effect_gen_reply (c : ClientCall IRNode) :
  handed_stack c = None -> effect 0 0 (gen_reply c).
Proof.
  intros Hh r. case_decide; [|lia]. destruct (Hobliging (trace r) c) as (v & n & p & Ha).
  unfold gen_reply. rewrite Ha. eexists _, _, []. by rewrite frame_call.
Qed.

Lemma effect_gen_ (c : ClientCall IRNode) : handed_stack c = None -> effect 0 0 (gen_ c).
Proof.
  intros Hh. apply (effect_bind 0 0 0 0); [by apply effect_gen_reply|]. intros. apply effect_ret.
Qed.

(** A continuation sees a node in every reply. *)
Lemma effect_reply {B} (n m : nat) (c : ClientCall IRNode) (f : reply IRNode -> R B) :
  handed_stack c = None ->
  (forall v k p, effect n m (f (Reply (Some v) k p))) -> effect n m (rbind (gen_reply c) f).
Proof.
  intros Hh Hf r. destruct (Hobliging (trace r) c) as (v & k & p & Ha).
  unfold rbind, gen_reply. rewrite Ha.
  pose proof (Hf v k p (set_trace (c :: trace r) r)) as H. by rewrite frame_call in H.
Qed.

Lemma effect_value {B} (n m : nat) (c : ClientCall IRNode) (f : option IRNode -> R B) :
  handed_stack c = None -> (forall v, effect n m (f (Some v))) -> effect n m (rbind (gen c) f).
Proof.
  intros Hh Hf r. pose proof (effect_reply n m c (fun a => f (r_node a)) Hh ltac:(intros; apply Hf) r) as H.
  unfold gen, rbind, gen_reply in *. by destruct (answer (trace r) c).
Qed.

Lemma effect_enum {E} (all : list E) (v : Z) :
  0 <= v -> is_Some (all !! Z.to_nat v) -> effect 0 0 (as_enum (IRNode := IRNode) all v).
Proof.
  intros Hv [e He]. unfold as_enum. rewrite He. destruct (Z.ltb_spec v 0); [lia|]. apply effect_ret.
Qed.

Lemma effect_unless (n m : nat) (c : R unit) :
  IsVerifyOnly = false -> effect n m c -> effect n m (unless_verify_only c).
Proof. intros Hv. unfold unless_verify_only. by rewrite Hv. Qed.

Lemma effect_if {A} (b : bool) n m (c d : R A) :
  effect n m c -> effect n m d -> effect n m (if b then c else d).
Proof. by destruct b. Qed.

Lemma effect_read {A} (o : option A) : is_Some o -> effect 0 0 (read (IRNode := IRNode) o).
Proof. intros [a ->]. apply effect_ret. Qed.

Lemma effect_operand_u (n : nat) (i : instr) :
  operand_readable i -> Z.of_nat n <= ecma_operand_size (Opcode i) -> effect 0 0 (operand_u n i).
Proof. intros Hi Hn. apply effect_read. by apply Hi. Qed.

Lemma effect_operand_s (n : nat) (i : instr) :
  operand_readable i -> Z.of_nat n <= ecma_operand_size (Opcode i) -> effect 0 0 (operand_s n i).
Proof. intros Hi Hn. apply effect_read, fmap_is_Some. by apply Hi. Qed.

Context (Hcode : IsVerifyOnly = false).

(** Typing by the shape of the code; the transitions are synthesised. *)
Ltac type_effect :=
  lazymatch goal with
  | |- forall _, _ => intro; type_effect
  | |- effect _ _ (rbind (gen_reply _) _) => apply effect_reply; [reflexivity|type_effect]
  | |- effect _ _ (rbind (gen _) _) => apply effect_value; [reflexivity|type_effect]
  | |- effect _ _ (rbind _ _) => eapply effect_bind; type_effect
  | |- effect _ _ (unless_verify_only _) => apply (effect_unless _ _ _ Hcode); type_effect
  | |- effect _ _ (rret _) => apply effect_ret
  | |- effect _ _ (modify _) => by apply effect_modify
  | |- effect _ _ get => apply effect_get
  | |- effect _ _ pop => apply effect_pop
  | |- effect _ _ (push _) => apply effect_push
  | |- effect _ _ stack_empty => apply effect_stack_empty
  | |- effect _ _ (gen_ _) => by apply effect_gen_
  | |- effect _ _ (badcode _) => by apply effect_gen_
  | |- effect _ _ (if op_is ?a ?b then _ else _) =>
      let v := eval vm_compute in (op_is a b) in
      change (op_is a b) with v; cbv iota; type_effect
  | |- effect _ _ (if _ then _ else _) => apply effect_if; type_effect
  | |- effect _ _ (operand_u _ _) => apply effect_operand_u; [done|by vm_compute]
  | |- effect _ _ (operand_s _ _) => apply effect_operand_s; [done|by vm_compute]
  | |- effect _ _ (as_enum _ _) => apply effect_enum; [by vm_compute|by vm_compute; eexists]
  | |- effect _ _ (match CurrentRegionType with _ => _ end) =>
      destruct CurrentRegionType as [[]|]; type_effect
  end.

Ltac typed := eapply effect_eq; [type_effect|reflexivity|reflexivity].

#[local] Ltac unfold_case :=
  cbv beta iota delta
    [dispatch Opcode read_binary read_cmp read_ckfinite read_conv read_unary read_shift read_box
     read_castclass read_newarr read_class_access read_unbox_any read_sizeof read_refanytype
     read_refanyval read_cpblk read_initblk read_cpobj read_initobj read_ldobj read_stobj ordinal
     read_load_var read_store_var read_ldc_i4 read_ldc_i8 read_ldc_r4 read_ldc_r8 read_load
     read_ldstr read_ldtoken element_token read_ldelem read_ldelema read_stelem read_ldind
     read_stind read_ldlen field_token read_ldfld read_ldflda read_ldsfld read_ldsflda read_stfld
     read_stsfld load_ftn_token read_ldftn read_ldvirtftn read_dup read_pop read_effect
     read_localloc read_constrained read_unaligned operand_token].

Lemma dispatch_effect (i : instr) (n m : nat) :
  ecma_transition (Opcode i) = Some (n, m) -> operand_readable i -> effect n m (dispatch i).
Proof.
  destruct i as [op operand off]. simpl Opcode.
  destruct op; intros [= <- <-] Hi; unfold_case; typed.
Qed.

(** ** Branches *)

(** The rest of the stack goes to the successors, once if there is any. *)
Definition handover (s : list IRNode) : list (list IRNode) :=
  match s with [] => [] | _ => [rev s] end.

Definition ends_block (n : nat) (c : R unit) : Prop :=
  forall r,
    if decide (n <= length (stack r))%nat then
      exists r', c r = inl (r', tt) /\ stack r' = [] /\ NextOffset r' = NextOffset r /\
        handed r' = handover (drop n (stack r)) ++ handed r
    else c r = inr StackUnderflow.

Lemma ends_bind {A} (n k : nat) (c : R A) (f : A -> R unit) :
  effect n 0 c -> (forall a, ends_block k (f a)) -> ends_block (n + k) (rbind c f).
Proof.
  unfold effect, ends_block, rbind. intros Hc Hf r. specialize (Hc r).
  destruct (decide (n <= length (stack r))%nat) as [Hn|Hn];
    [|rewrite decide_False by lia; by rewrite Hc].
  destruct Hc as (r1 & a & res & -> & Hs & Hl & [Hx Hh]%frame_eq). specialize (Hf a r1).
  apply length_zero_iff_nil in Hl as ->. simpl in Hs. rewrite Hs, length_drop in Hf.
  destruct (decide (k <= _)%nat) as [Hk|Hk]; [|by rewrite decide_False by lia].
  rewrite decide_True by lia. destruct Hf as (r2 & -> & Hs2 & Hx2 & Hh2). exists r2.
  rewrite drop_drop, Hh in Hh2. split; [done|]. split; [done|]. split; [congruence|done].
Qed.

Lemma ends_then (n : nat) (c d : R unit) :
  ends_block n c -> effect 0 0 d -> ends_block n (rbind c (fun _ => d)).
Proof.
  unfold effect, ends_block, rbind. intros Hc Hd r. specialize (Hc r).
  destruct (decide (n <= length (stack r))%nat); [|by rewrite Hc].
  destruct Hc as (r1 & -> & Hs & Hx & Hh). specialize (Hd r1). rewrite decide_True in Hd by lia.
  destruct Hd as (r2 & [] & res & -> & Hs2 & Hl & [Hx2 Hh2]%frame_eq). exists r2.
  apply length_zero_iff_nil in Hl as ->. rewrite Hs in Hs2. split; [done|]. split; [done|].
  split; congruence.
Qed.

Lemma ends_maintain : ends_block 0 maintainOperandStack.
Proof.
  intros r. case_decide; [|lia]. unfold maintainOperandStack, rbind, get.
  destruct (stack r) as [|v s] eqn:E; [by exists r|]. unfold gen_, gen_reply, rbind.
  destruct (Hobliging (trace r) (MaintainOperandStack (rev (v :: s)))) as (w & k & p & ->).
  by eexists.
Qed.

Lemma ends_usher : ends_block 0 usher_stack.
Proof.
  intros r. case_decide; [|lia]. unfold usher_stack, stack_empty, rbind at 1.
  destruct (stack r) eqn:E; [by exists r|]. pose proof (ends_maintain r) as H1.
  rewrite decide_True in H1 by lia. destruct H1 as (r1 & H1 & Hs & Hx & Hh).
  unfold rbind. rewrite H1. exists (set_stack [] r1). rewrite E in Hh. done.
Qed.

Lemma dispatch_ends (i : instr) (n : nat) :
  ecma_branch_pops (Opcode i) = Some n -> operand_readable i -> ends_block n (dispatch i).
Proof.
  destruct i as [op operand off]. simpl Opcode.
  destruct op; intros [= <-] Hi;
    cbv beta iota delta [dispatch Opcode read_cond_branch read_bool_branch read_branch
                         branch_offset verify_end_block unless_verify_only]; rewrite Hcode;
    repeat match goal with
    | |- ends_block _ (rbind usher_stack _) => apply ends_then; [apply ends_usher|typed]
    | |- ends_block 1 (rbind pop _) => apply (ends_bind 1 0); [typed|intros]
    | |- ends_block 2 (rbind pop _) => apply (ends_bind 1 1); [typed|intros]
    | |- ends_block ?n (rbind _ _) => apply (ends_bind 0 n); [typed|intros]
    end.
Qed.

(** ** A block of instructions *)

Context (Hsizes : OperandSizeMap = ecma_operand_size).
Context (Hbuf : il_ok ILInput) (HILSize : ILSize = Z.of_nat (length ILInput)).

Lemma instr_readable (off : Z) op operand next :
  instr_at OperandSizeMap ILInput off op operand next ->
  operand_readable (Instr op operand off).
Proof.
  intros Hi n Hn. simpl in *.
  assert (Hp : 0 <= operand <= Z.of_nat (length ILInput)).
  { destruct Hi as [len Ho _ _]. apply opcode_at_range in Ho. lia. }
  apply readValue_in_range; [lia|]. rewrite Hsizes in Hi. destruct Hi as [len _ Hl Hle].
  unfold operand_length in Hl. destruct (op_is op CEE_SWITCH) eqn:E; simplify_eq; [|lia].
  apply op_is_true in E as ->. simpl in Hn. lia.
Qed.

(** The state in which the switch is entered. *)
Definition at_switch (off next : Z) (op : OPCODE) (r : reader IRNode) : reader IRNode :=
  clear_cached_tokens op
    (match stack r with
     | [] => set_trace (SetDebugLocation off false :: trace r) (set_next next r)
     | _ => set_next next r
     end).

Lemma read_instruction_step (off : Z) op operand next (r : reader IRNode) :
  instr_at OperandSizeMap ILInput off op operand next ->
  read_instruction off r =
    match dispatch (Instr op operand off) (at_switch off next op r) with
    | inl (r', _) => let r'' := if keeps_prefixes op then r' else reset_prefixes r' in
                     inl (r'', NextOffset r'')
    | inr e => inr e
    end.
Proof.
  intros Hi. unfold read_instruction, execute, parse, report_error. rewrite HILSize.
  rewrite (parse_complete OperandSizeMap (eq_ind_r sizes_ok ecma_sizes_ok Hsizes) ILInput off op operand
             next true true Hbuf Hi).
  unfold read, rbind, rret, stack_empty, modify, get, at_switch. cbn [p_report p_next p_opcode p_operand default].
  change (stack (set_next next r)) with (stack r). destruct (stack r) eqn:E.
  - unfold gen_, gen_reply, rbind. change (trace (set_next next r)) with (trace r).
    destruct (Hobliging (trace r) (SetDebugLocation off false)) as (v & k & p & ->).
    unfold rret. destruct (dispatch _ _) as [[r' []]|]; [|done]. by destruct (keeps_prefixes op).
  - destruct (dispatch _ _) as [[r' []]|]; [|done]. by destruct (keeps_prefixes op).
Qed.

Lemma at_switch_frame (off next : Z) op (r : reader IRNode) :
  stack (at_switch off next op r) = stack r /\ NextOffset (at_switch off next op r) = next /\
  handed (at_switch off next op r) = handed r.
Proof. unfold at_switch, handed. by destruct (stack r) eqn:E. Qed.

Lemma reset_frame (op : OPCODE) (r : reader IRNode) :
  let r' := if keeps_prefixes op then r else reset_prefixes r in
  stack r' = stack r /\ NextOffset r' = NextOffset r /\ handed r' = handed r.
Proof. by destruct (keeps_prefixes op). Qed.

(** The instructions from an offset to the end of the block. *)
Inductive block_seq (EndOffset : Z) : Z -> list il_instr -> Prop :=
  | block_seq_end : block_seq EndOffset EndOffset []
  | block_seq_cons off op operand next l :
      off < EndOffset -> instr_at OperandSizeMap ILInput off op operand next ->
      block_seq EndOffset next l ->
      block_seq EndOffset off (ILInstr off op operand next :: l).

(** Reading consecutive instructions. *)
Fixpoint read_all (l : list il_instr) : R unit :=
  match l with
  | [] => rret tt
  | i :: l => rbind (read_instruction (i_off i)) (fun _ => read_all l)
  end.

(** Each instruction of [l] starts before the end that the block has once the
    instructions in front of it are read. *)
Definition read_before_end (EndOffset : end_offsets) (r : reader IRNode) (l : list il_instr) : Prop :=
  forall p i q, l = p ++ i :: q ->
    exists r', read_all p r = inl (r', tt) /\ i_off i < EndOffset (trace r').

(** The end that the block has after the instructions read leaves none of
    [l], which starts before the first end of the block. *)
Definition cut_off (EndOffset : end_offsets) (FirstEnd : Z) (r : reader IRNode) (l : list il_instr) : Prop :=
  match l with
  | [] => True
  | i :: _ => EndOffset (trace r) <= i_off i < FirstEnd
  end.

Lemma read_before_end_nil EndOffset (r : reader IRNode) : read_before_end EndOffset r [].
Proof. intros p i q H. by destruct p. Qed.

Lemma read_before_end_cons EndOffset (r r' : reader IRNode) i l x :
  i_off i < EndOffset (trace r) -> read_instruction (i_off i) r = inl (r', x) ->
  read_before_end EndOffset r' l -> read_before_end EndOffset r (i :: l).
Proof.
  intros Hi Hr Hl [|j p] k q [= <- H]; [by exists r|].
  destruct (Hl p k q H) as (r2 & H2 & Hk). exists r2. simpl. unfold rbind. by rewrite Hr.
Qed.

Lemma read_before_end_one EndOffset (r : reader IRNode) i :
  i_off i < EndOffset (trace r) -> read_before_end EndOffset r [i].
Proof. intros Hi [|j p] k q [= <- H]; [by exists r|]. by destruct p. Qed.

Lemma loop_stops (n : nat) (EndOffset : end_offsets) (off : Z) (r : reader IRNode) :
  EndOffset (trace r) <= off ->
  while_fuel (S n) (loop_body EndOffset) (r, off) = Some (inl (r, off)).
Proof. intros H. simpl. by destruct (Z.ltb_spec off (EndOffset (trace r))); [lia|]. Qed.

Lemma block_seq_off EndOffset off i l : block_seq EndOffset off (i :: l) -> i_off i = off /\ off < EndOffset.
Proof. by inversion 1. Qed.

(** One instruction with a fixed stack transition, and one branch. *)
Lemma read_transition (off next : Z) op operand n m (r : reader IRNode) :
  instr_at OperandSizeMap ILInput off op operand next -> ecma_transition op = Some (n, m) ->
  if (n <=? length (stack r))%nat then
    exists r', read_instruction off r = inl (r', next) /\
      length (stack r') = (m + (length (stack r) - n))%nat /\ handed r' = handed r
  else read_instruction off r = inr StackUnderflow.
Proof.
  intros Hi Et. erewrite !read_instruction_step by done.
  destruct (at_switch_frame off next op r) as (Hs & Hn & Hh).
  set (r1 := at_switch off next op r) in *.
  pose proof (dispatch_effect (Instr op operand off) n m Et ltac:(by eapply instr_readable) r1) as Hd.
  rewrite Hs in Hd. destruct (Nat.leb_spec n (length (stack r)));
    [rewrite decide_True in Hd by lia|rewrite decide_False in Hd by lia; by rewrite Hd].
  destruct Hd as (r2 & [] & res & -> & Hs2 & Hl2 & [Hn2 Hh2]%frame_eq).
  destruct (reset_frame op r2) as (Hs3 & Hn3 & Hh3). cbv zeta. eexists. split; [by rewrite Hn3, Hn2, Hn|].
  rewrite Hs3, Hs2, length_app, length_drop, Hl2, Hh3, Hh2, Hh. done.
Qed.

Lemma read_ending (off next : Z) op operand n (r : reader IRNode) :
  instr_at OperandSizeMap ILInput off op operand next -> ecma_branch_pops op = Some n ->
  if (n <=? length (stack r))%nat then
    exists r', read_instruction off r = inl (r', next) /\ stack r' = [] /\
      handed r' = handover (drop n (stack r)) ++ handed r
  else read_instruction off r = inr StackUnderflow.
Proof.
  intros Hi Eb. erewrite !read_instruction_step by done.
  destruct (at_switch_frame off next op r) as (Hs & Hn & Hh).
  set (r1 := at_switch off next op r) in *.
  pose proof (dispatch_ends (Instr op operand off) n Eb ltac:(by eapply instr_readable) r1) as Hd.
  rewrite Hs in Hd. destruct (Nat.leb_spec n (length (stack r)));
    [rewrite decide_True in Hd by lia|rewrite decide_False in Hd by lia; by rewrite Hd].
  destruct Hd as (r2 & -> & Hs2 & Hn2 & Hh2).
  destruct (reset_frame op r2) as (Hs3 & Hn3 & Hh3). cbv zeta. eexists. split; [by rewrite Hn3, Hn2, Hn|].
  by rewrite Hs3, Hs2, Hh3, Hh2, Hh.
Qed.

(** What the loop does with the instructions from [off] on. *)
Definition loop_result (EndOffset : end_offsets) (FirstEnd : Z) (fuel : nat) (off : Z) (r : reader IRNode)
    (l1 l2 : list il_instr) : Prop :=
  read_before_end EndOffset r l1 /\
  match depth_after l1 (length (stack r)) with
  | Some d => exists r' off' left,
      while_fuel fuel (loop_body EndOffset) (r, off) = Some (inl (r', off')) /\
      read_all l1 r = inl (r', tt) /\ cut_off EndOffset FirstEnd r' l2 /\
      length left = d /\ handover (stack r') ++ handed r' = handover left ++ handed r
  | None => while_fuel fuel (loop_body EndOffset) (r, off) = Some (inr StackUnderflow)
  end.

Lemma loop_result_stop EndOffset FirstEnd fuel off r l :
  EndOffset (trace r) <= off -> cut_off EndOffset FirstEnd r l ->
  loop_result EndOffset FirstEnd (S fuel) off r [] l.
Proof.
  intros Hle Hc. split; [apply read_before_end_nil|]. simpl depth_after.
  eexists r, _, (stack r). by rewrite loop_stops.
Qed.

Lemma loop_reads (EndOffset : end_offsets) (FirstEnd : Z) (HEnd : forall t, EndOffset t <= FirstEnd)
    (l : list il_instr) : forall off (r : reader IRNode) fuel,
  block_seq FirstEnd off l -> straight l = true -> (length l < fuel)%nat ->
  exists l1 l2, l = l1 ++ l2 /\ loop_result EndOffset FirstEnd fuel off r l1 l2.
Proof.
  induction l as [|i l IH]; intros off r fuel Hseq Hst Hfuel;
    (destruct fuel as [|fuel]; [simpl in Hfuel; lia|]).
  { inversion Hseq; subst. exists [], []. split; [done|]. by apply loop_result_stop. }
  destruct (block_seq_off _ _ _ _ Hseq) as [Hoff Hlt0].
  destruct (Z.lt_ge_cases off (EndOffset (trace r))) as [Hoe|Hoe];
    [|exists [], (i :: l); split; [done|]; apply loop_result_stop; [lia|simpl; lia]].
  clear Hoff. inversion Hseq as [|? op operand next ? Hlt Hi Hrest]; subst.
  unfold loop_result. rewrite while_fuel_S. unfold loop_body at 1 3.
  destruct (Z.ltb_spec off (EndOffset (trace r))); [|lia]. cbn [straight i_op] in Hst.
  destruct (ecma_transition op) as [[n m]|] eqn:Et.
  - pose proof (read_transition off next op operand n m r Hi Et) as Hd.
    destruct (Nat.leb_spec n (length (stack r))).
    + destruct Hd as (r1 & Hr1 & Hs & Hh). rewrite Hr1.
      destruct (IH next r1 fuel Hrest Hst ltac:(simpl in Hfuel; lia)) as (l1 & l2 & -> & Hb & HI).
      eexists (_ :: l1), l2. split; [done|]. split; [by eapply read_before_end_cons|].
      cbn [depth_after i_op]. rewrite Et. destruct (Nat.leb_spec n (length (stack r))); [|lia].
      rewrite Hs in HI. destruct (depth_after l1 _) as [d|]; [|done].
      destruct HI as (r' & off' & left & HW & HR & HC & HL & HH). exists r', off', left.
      split; [done|]. split; [cbn [read_all i_off]; unfold rbind; by rewrite Hr1|].
      split; [done|]. split; [done|]. congruence.
    + rewrite Hd. eexists [_], l. split; [done|]. split; [by apply read_before_end_one|].
      cbn [depth_after i_op]. rewrite Et. by destruct (Nat.leb_spec n (length (stack r))); [lia|].
  - destruct (ecma_branch_pops op) as [n|] eqn:Eb; [|done]. destruct l; [|done].
    inversion Hrest; subst. eexists [_], []. split; [done|]. split; [by apply read_before_end_one|].
    pose proof (read_ending off _ op operand n r Hi Eb) as Hd.
    cbn [depth_after i_op]. rewrite Et, Eb. destruct (Nat.leb_spec n (length (stack r))); [|by rewrite Hd].
    destruct Hd as (r1 & Hr1 & Hs & Hh). rewrite Hr1. destruct fuel; [simpl in Hfuel; lia|].
    rewrite loop_stops by done. eexists r1, _, (drop n (stack r)).
    split; [done|]. split; [cbn [read_all i_off]; unfold rbind; by rewrite Hr1|].
    rewrite length_drop, Hs, Hh. done.
Qed.

Lemma leave_block_reads (off : Z) (r : reader IRNode) :
  exists r', leave_block off r = inl (r', tt) /\ stack r' = [] /\
    handed r' = handover (stack r) ++ handed r.
Proof.
  unfold leave_block. rewrite Hcode.
  pose proof (ends_bind 0 0 (gen_ (EndFlowGraphNode off)) (fun _ => maintainOperandStack)
                ltac:(by apply effect_gen_) (fun _ => ends_maintain) r) as H.
  rewrite decide_True in H by lia. destruct H as (r' & ? & ? & ? & ?). by exists r'.
Qed.

Lemma enter_block_reads (entry : option (list IRNode)) (off : Z) (r : reader IRNode) :
  (entry = None -> stack r = []) ->
  exists r', enter_block entry off r = inl (r', tt) /\ stack r' = default [] entry /\
    handed r' = handed r.
Proof.
  intros He. unfold enter_block. rewrite Hcode.
  assert (Hgen : forall r1, exists r', gen_ (BeginFlowGraphNode off false) r1 = inl (r', tt) /\
            stack r' = stack r1 /\ handed r' = handed r1).
  { intros r1. pose proof (effect_gen_ (BeginFlowGraphNode off false) eq_refl r1) as H.
    rewrite decide_True in H by lia. destruct H as (r' & [] & res & ? & Hs & Hl & [_ Hh]%frame_eq).
    apply length_zero_iff_nil in Hl as ->. by exists r'. }
  destruct entry as [s|]; unfold rbind, modify, stack_empty, rret; [apply (Hgen (set_stack s r))|].
  rewrite (He eq_refl). destruct (Hgen r) as (r' & Hg & Hs & Hh). exists r'.
  by rewrite He in Hs.
Qed.

(** C3: a basic block of instructions with fixed stack transitions, ended or
    not by a branch, is read from its start up to the end that the block has
    at that moment: the end offset is asked for before each instruction, since
    the generator's splits bring it forward, and if it never moves all of the
    block is read.  No instruction at or behind the end is read, and none
    before it is left.  The reading succeeds exactly when the transitions of
    ECMA-335 never take more operands than there are, from the operands the
    block is entered with; otherwise the reader stops with a stack underflow.
    In the first case the operands that are left go to the successors, in one
    call and only if there are any, and the operand stack is empty when the
    next block starts. *)
Theorem readBytesForFlowGraphNode_correct (entry : option (list IRNode)) (StartOffset FirstEnd : Z)
    (EndOffset : end_offsets) (l : list il_instr) (r : reader IRNode) (fuel : nat) :
  (forall t, EndOffset t <= FirstEnd) ->
  block_seq FirstEnd StartOffset l -> straight l = true -> (length l < fuel)%nat ->
  (entry = None -> stack r = []) ->
  exists r1 l1 l2,
    enter_block entry StartOffset (set_end true false r) = inl (r1, tt) /\
    l = l1 ++ l2 /\ read_before_end EndOffset (initialize_block StartOffset r1) l1 /\
    match depth_after l1 (length (default [] entry)) with
    | Some d => exists r2 r' left,
        read_all l1 (initialize_block StartOffset r1) = inl (r2, tt) /\
        cut_off EndOffset FirstEnd r2 l2 /\
        readBytesForFlowGraphNode fuel entry StartOffset EndOffset r = Some (inl (r', tt)) /\
        stack r' = [] /\ length left = d /\ handed r' = handover left ++ handed r
    | None =>
        readBytesForFlowGraphNode fuel entry StartOffset EndOffset r = Some (inr StackUnderflow)
    end.
Proof.
  intros HEnd Hseq Hst Hfuel He. unfold readBytesForFlowGraphNode, readBytesForFlowGraphNodeHelper.
  destruct (enter_block_reads entry StartOffset (set_end true false r) He) as (r1 & -> & Hs & Hh).
  destruct (loop_reads EndOffset FirstEnd HEnd l StartOffset (initialize_block StartOffset r1) fuel Hseq Hst Hfuel)
    as (l1 & l2 & -> & Hb & H).
  exists r1, l1, l2. split; [done|]. split; [done|]. split; [done|].
  change (stack (initialize_block StartOffset r1)) with (stack r1) in H. rewrite Hs in H.
  destruct (depth_after _ _) as [d|]; [|by rewrite H].
  destruct H as (r2 & off' & left & -> & Hr & Hc & Hl & Hh2). cbn [mbind option_bind].
  destruct (leave_block_reads StartOffset (set_end (HasFallThrough r2) true r2)) as (r3 & H3 & Hs3 & Hh3).
  exists r2, r3, left. rewrite H3. repeat (split; [done|]).
  etransitivity; [exact Hh3|]. etransitivity; [exact Hh2|].
  change (handed (initialize_block StartOffset r1)) with (handed r1). by rewrite Hh.
Qed.

End Effects.

(** A method of a constant test and a branch over a [nop], and a generator
    that numbers its nodes. *)
#[local] Instance demo_client : Client nat :=
  fun t _ => Some (Reply (Some (length t)) 0 false).

Definition demo_method_of (il : list Z) (VerifyOnly : bool) : Method nat := {|
  OperandSizeMap := ecma_operand_size;
  ILInput := il;
  ILSize := Z.of_nat (length il);
  IsVerifyOnly := VerifyOnly;
  CurrentRegionType := Some RGN_Root;
  ReturnsVoid := false;
  Synchronized := false;
  InitLocals := true;
  CallSiteSignature := fun _ => SigInfo 0 false false false;
  CurrentSignature := SigInfo 0 false false false;
  isUnmarkedTail := fun _ _ => false;
  doTailCallOpt := false;
  ReadyToRun := false;
  HandlerException := None
|}.

#[local] Instance demo_method : Method nat :=
  demo_method_of [0x16; 0x17; 0x18; 0x58; 0x2D; 0x01; 0x00; 0x2A] false.

Definition demo_block : list il_instr :=
  [ILInstr 0 CEE_LDC_I4_0 1 1; ILInstr 1 CEE_LDC_I4_1 2 2; ILInstr 2 CEE_LDC_I4_2 3 3;
   ILInstr 3 CEE_ADD 4 4; ILInstr 4 CEE_BRTRUE_S 5 6].

Definition demo_reader : reader nat :=
  Reader [] Reader_AlignNatural false false false false mdTokenNil mdTokenNil mdTokenNil true false 0 [].

Lemma demo_obliging : obliging.
Proof. intros t c. by eexists _, _, _. Qed.

Lemma demo_method_ok : il_ok ILInput.
Proof. split; [|by simpl]. repeat constructor; by simpl. Qed.

Lemma demo_block_seq : block_seq 6 0 demo_block.
Proof.
  apply (block_seq_cons 6 0 CEE_LDC_I4_0 1 1); [done| |].
  { apply (instr_intro _ _ 0 CEE_LDC_I4_0 1 0); [|done|vm_compute; discriminate].
    by apply (opcode_short _ 0 0x16). }
  apply (block_seq_cons 6 1 CEE_LDC_I4_1 2 2); [done| |].
  { apply (instr_intro _ _ 1 CEE_LDC_I4_1 2 0); [|done|vm_compute; discriminate].
    by apply (opcode_short _ 1 0x17). }
  apply (block_seq_cons 6 2 CEE_LDC_I4_2 3 3); [done| |].
  { apply (instr_intro _ _ 2 CEE_LDC_I4_2 3 0); [|done|vm_compute; discriminate].
    by apply (opcode_short _ 2 0x18). }
  apply (block_seq_cons 6 3 CEE_ADD 4 4); [done| |].
  { apply (instr_intro _ _ 3 CEE_ADD 4 0); [|done|vm_compute; discriminate].
    by apply (opcode_short _ 3 0x58). }
  apply (block_seq_cons 6 4 CEE_BRTRUE_S 5 6); [done| |].
  { apply (instr_intro _ _ 4 CEE_BRTRUE_S 5 1); [|done|vm_compute; discriminate].
    by apply (opcode_short _ 4 0x2D). }
  apply block_seq_end.
Qed.

(** The addition splits the block, as a checked one does. *)
Definition demo_ends (t : list (ClientCall nat)) : Z :=
  if existsb (fun c => match c with BinaryOp _ _ _ => true | _ => false end) t then 4 else 6.

Lemma demo_ends_bounded : forall t, demo_ends t <= 6.
Proof. intros t. unfold demo_ends. by case_match. Qed.

Lemma readBytesForFlowGraphNode_correct_witness :
  exists r1 l1 l2,
    enter_block None 0 (set_end true false demo_reader) = inl (r1, tt) /\
    demo_block = l1 ++ l2 /\ read_before_end demo_ends (initialize_block 0 r1) l1 /\
    match depth_after l1 0 with
    | Some d => exists r2 r' left,
        read_all l1 (initialize_block 0 r1) = inl (r2, tt) /\ cut_off demo_ends 6 r2 l2 /\
        readBytesForFlowGraphNode 6 None 0 demo_ends demo_reader = Some (inl (r', tt)) /\
        stack r' = [] /\ length left = d /\ handed r' = handover left ++ []
    | None => readBytesForFlowGraphNode 6 None 0 demo_ends demo_reader = Some (inr StackUnderflow)
    end.
Proof.
  exact (readBytesForFlowGraphNode_correct demo_obliging eq_refl eq_refl demo_method_ok eq_refl
           None 0 6 demo_ends demo_block demo_reader 6 demo_ends_bounded demo_block_seq eq_refl
           ltac:(simpl; lia) ltac:(done)).
Defined.
