(* ===== verification/ReaderLoop.v ===== *)
(** * Prefixes, cached tokens and termination of the reader loop

    A logic for the calls a case makes: [respects I Q c] says that [c] keeps
    the reader in [I] and makes only calls that satisfy [Q].  With it: the
    [volatile.], [unaligned.], [readonly.] and [constrained.] prefixes reach
    the next instruction and no other; the token of a function pointer reaches
    a delegate constructor only from the instruction just before it; a
    verify-only pass generates nothing but [nop]s; and the loop ends. *)

From S2P Require Import Prelude Opcodes ILDecode Regions TailCall Dispatch StackEffect.
Import ReaderBaseNS.

Section Calls.

Context {IRNode : Type} {C : Client IRNode} {M : Method IRNode}.
#[local] Notation R := (R (IRNode := IRNode)).
#[local] Notation reader := (reader IRNode).

(** ** The calls of a computation *)

Definition respects {A} (I : reader -> Prop) (Q : ClientCall IRNode -> Prop) (c : R A) : Prop :=
  forall r, I r ->
    match c r with
    | inl (r', _) => I r' /\ exists new, trace r' = new ++ trace r /\ Forall Q new
    | inr _ => True
    end.

(** Invariants that do not look at the operands, or at the calls. *)
Class StackStable (I : reader -> Prop) : Prop :=
  stable_stack s r : I r -> I (set_stack s r).
Class TraceStable (I : reader -> Prop) : Prop :=
  stable_trace t r : I r -> I (set_trace t r).

Context (I : reader -> Prop) (Q : ClientCall IRNode -> Prop) {HS : StackStable I} {HT : TraceStable I}.

Lemma respects_ret {A} (a : A) : respects I Q (rret a).
Proof. intros r Hr. split; [done|]. by exists []. Qed.

Lemma respects_stop {A} (e : stop) : respects I Q (rstop (A := A) e).
Proof. done. Qed.

Lemma respects_read {A} (o : option A) : respects I Q (read o).
Proof. destruct o; [apply respects_ret|apply respects_stop]. Qed.

Lemma respects_enum {E} (all : list E) (v : Z) : respects I Q (as_enum all v).
Proof.
  unfold as_enum. destruct (v <? 0); [done|]. destruct (all !! _); [apply respects_ret|done].
Qed.

Lemma respects_bind {A B} (c : R A) (f : A -> R B) :
  respects I Q c -> (forall a, respects I Q (f a)) -> respects I Q (rbind c f).
Proof.
  intros Hc Hf r Hr. unfold rbind. specialize (Hc r Hr). destruct (c r) as [[r1 a]|]; [|done].
  destruct Hc as (Hr1 & new1 & Ht1 & Hq1). specialize (Hf a r1 Hr1).
  destruct (f a r1) as [[r2 b]|]; [|done]. destruct Hf as (Hr2 & new2 & Ht2 & Hq2).
  split; [done|]. exists (new2 ++ new1). rewrite Ht2, Ht1, app_assoc.
  split; [done|]. by apply Forall_app.
Qed.

Lemma respects_get {B} (f : reader -> R B) :
  (forall r, I r -> respects I Q (f r)) -> respects I Q (rbind get f).
Proof. intros Hf r Hr. by apply (Hf r Hr r Hr). Qed.

Lemma respects_modify (f : reader -> reader) :
  (forall r, I r -> I (f r)) -> (forall r, trace (f r) = trace r) -> respects I Q (modify f).
Proof. intros Hf Ht r Hr. split; [by apply Hf|]. exists []. by rewrite Ht. Qed.

Lemma respects_pop : respects I Q pop.
Proof.
  intros r Hr. unfold pop. destruct (stack r); [done|]. split; [by apply stable_stack|].
  by exists [].
Qed.

Lemma respects_push (v : option IRNode) : respects I Q (push v).
Proof.
  intros r Hr. destruct v; [|done]. split; [by apply stable_stack|]. by exists [].
Qed.

Lemma respects_push_if (v : option IRNode) : respects I Q (push_if v).
Proof. destruct v; [apply respects_push|apply respects_ret]. Qed.

Lemma respects_pop_many (n : nat) : respects I Q (pop_many n).
Proof.
  intros r Hr. unfold pop_many. destruct (_ <=? _)%nat; [|done].
  split; [by apply stable_stack|]. by exists [].
Qed.

Lemma respects_stack_empty : respects I Q stack_empty.
Proof. intros r Hr. split; [done|]. by exists []. Qed.

Lemma respects_gen_reply (c : ClientCall IRNode) : Q c -> respects I Q (gen_reply c).
Proof.
  intros Hq r Hr. unfold gen_reply. destruct (answer (trace r) c); [|done].
  split; [by apply stable_trace|]. exists [c]. by repeat constructor.
Qed.

Lemma respects_gen (c : ClientCall IRNode) : Q c -> respects I Q (gen c).
Proof. intros Hq. apply respects_bind; [by apply respects_gen_reply|]. intros. apply respects_ret. Qed.

Lemma respects_gen_ (c : ClientCall IRNode) : Q c -> respects I Q (gen_ c).
Proof. intros Hq. apply respects_bind; [by apply respects_gen_reply|]. intros. apply respects_ret. Qed.

Lemma respects_stack_clear : respects I Q stack_clear.
Proof. intros r Hr. split; [by apply stable_stack|]. by exists []. Qed.

Lemma respects_clearStack : (forall v, Q (PopOp v)) -> respects I Q clearStack.
Proof.
  intros Hq r Hr. unfold clearStack.
  assert (H : forall s, respects I Q (pop_all s)); [|by apply (H (stack r))].
  induction s as [|v s IH]; [apply respects_ret|]. simpl. apply respects_bind.
  { apply respects_modify; [|done]. intros; by apply stable_stack. }
  intros. apply respects_bind; [by apply respects_gen_|done].
Qed.

Lemma respects_maintain :
  (forall s, Q (MaintainOperandStack s)) -> respects I Q maintainOperandStack.
Proof.
  intros Hq. unfold maintainOperandStack. apply respects_get. intros r Hr.
  destruct (stack r); [apply respects_ret|]. apply respects_bind; [by apply respects_gen_|].
  intros. apply respects_stack_clear.
Qed.

Lemma respects_if {A} (b : bool) (c d : R A) :
  respects I Q c -> respects I Q d -> respects I Q (if b then c else d).
Proof. by destruct b. Qed.

End Calls.

(** [respect side] proves that the code of a case respects an invariant, the
    primitive facts about the invariant and the calls being left to [side]. *)
Ltac respect side :=
  lazymatch goal with
  | |- forall _, _ => intro; respect side
  | |- respects _ _ (rbind get _) => apply respects_get; intros ? ?; respect side
  | |- respects _ _ (rbind _ _) => apply respects_bind; respect side
  | |- respects _ _ (rret _) => apply respects_ret
  | |- respects _ _ (operand_u _ _) => apply respects_read
  | |- respects _ _ (operand_s _ _) => apply respects_read
  | |- respects _ _ (as_enum _ _) => apply respects_enum
  | |- respects _ _ pop => apply respects_pop; apply _
  | |- respects _ _ (push _) => apply respects_push; apply _
  | |- respects _ _ (push_if _) => apply respects_push_if; apply _
  | |- respects _ _ (pop_many _) => apply respects_pop_many; apply _
  | |- respects _ _ stack_empty => apply respects_stack_empty
  | |- respects _ _ stack_clear => apply respects_stack_clear; apply _
  | |- respects _ _ clearStack => apply respects_clearStack; [apply _|apply _|side]
  | |- respects _ _ maintainOperandStack => apply respects_maintain; [apply _|apply _|side]
  | |- respects _ _ (gen_reply _) => apply respects_gen_reply; [apply _|side]
  | |- respects _ _ (gen _) => apply respects_gen; [apply _|side]
  | |- respects _ _ (gen_ _) => apply respects_gen_; [apply _|side]
  | |- respects _ _ (badcode _) => apply respects_gen_; [apply _|side]
  | |- respects _ _ (modify _) => apply respects_modify; [side|done]
  | |- respects _ _ (if _ then _ else _) => apply respects_if; respect side
  | |- respects _ _ (match ?x with _ => _ end) => destruct x; respect side
  end.

Ltac unfold_dispatch :=
  cbv beta iota zeta delta
    [dispatch Opcode unless_verify_only branch_offset verify_end_block no_fall_through usher_stack
     read_binary read_cmp read_ckfinite read_conv read_unary read_shift read_cond_branch
     read_bool_branch read_branch read_switch read_leave read_endfilter read_endfinally read_throw
     read_rethrow read_ret read_jmp read_call read_newobj read_box
     read_castclass read_newarr read_class_access read_unbox_any read_sizeof read_refanytype
     read_refanyval read_cpblk read_initblk read_cpobj read_initobj read_ldobj read_stobj ordinal
     read_load_var read_store_var read_ldc_i4 read_ldc_i8 read_ldc_r4 read_ldc_r8 read_load
     read_ldstr read_ldtoken element_token read_ldelem read_ldelema read_stelem read_ldind
     read_stind read_ldlen field_token read_ldfld read_ldflda read_ldsfld read_ldsflda read_stfld
     read_stsfld load_ftn_token read_ldftn read_ldvirtftn read_dup read_pop read_effect
     read_localloc read_constrained read_unaligned operand_token].

(** An equation between a projection of the reader before and after, and the
    arguments of a call read from it. *)
Ltac same :=
  intros; cbv beta in *; subst;
  first [done | match goal with H : _ = _ |- _ => injection H end; intros; split; simpl; congruence].

Section Loop.

Context {IRNode : Type} {C : Client IRNode} {M : Method IRNode}.
#[local] Notation R := (R (IRNode := IRNode)).
#[local] Notation reader := (reader IRNode).

(** ** Prefixes *)

Record prefixes := Prefixes {
  p_alignment : Z;
  p_volatile : bool;
  p_readonly : bool;
  p_constrained : bool;
  p_constraint : Z
}.

Definition prefixes_of (r : reader) : prefixes :=
  Prefixes (AlignmentPrefix r) (HasVolatilePrefix r) (HasReadOnlyPrefix r)
    (HasConstrainedPrefix r) (ConstraintTypeRef r).

(** A call that takes prefixes takes these. *)
Definition carries (p : prefixes) (c : ClientCall IRNode) : Prop :=
  match c with
  | LoadIndir _ _ a v | StoreIndir _ _ _ a v | LoadField _ _ a v | StoreField _ _ _ a v
  | LoadObj _ _ a v | StoreObj _ _ _ a v | CpObj _ _ _ a v | CpBlk _ _ _ a v
  | InitBlk _ _ _ a v | UnboxAnyOp _ _ a v | StoreArg _ _ a v | StoreLocal _ _ a v =>
      a = p_alignment p /\ v = p_volatile p
  | LoadStaticField _ v | StoreStaticField _ _ v => v = p_volatile p
  | LoadElemA _ _ _ ro => ro = p_readonly p
  | CallOp _ _ ct _ ro _ _ _ => ct = p_constraint p /\ ro = p_readonly p
  | _ => True
  end.

#[local] Instance prefixes_stack_stable p : StackStable (fun r => prefixes_of r = p).
Proof. intros ? ? H; exact H. Qed.
#[local] Instance prefixes_trace_stable p : TraceStable (fun r => prefixes_of r = p).
Proof. intros ? ? H; exact H. Qed.
#[local] Instance next_stack_stable n : StackStable (fun r : reader => NextOffset r = n).
Proof. intros ? ? H; exact H. Qed.
#[local] Instance next_trace_stable n : TraceStable (fun r : reader => NextOffset r = n).
Proof. intros ? ? H; exact H. Qed.
#[local] Instance ftn_stack_stable n : StackStable (fun r : reader => LoadFtnToken r = n).
Proof. intros ? ? H; exact H. Qed.
#[local] Instance ftn_trace_stable n : TraceStable (fun r : reader => LoadFtnToken r = n).
Proof. intros ? ? H; exact H. Qed.
#[local] Instance anything_stack_stable : StackStable (fun _ : reader => True).
Proof. intros ? ? H; exact H. Qed.
#[local] Instance anything_trace_stable : TraceStable (fun _ : reader => True).
Proof. intros ? ? H; exact H. Qed.

Lemma dispatch_carries (p : prefixes) (i : instr) :
  keeps_prefixes (Opcode i) = false ->
  respects (fun r => prefixes_of r = p) (carries p) (dispatch i).
Proof.
  destruct i as [op operand off]. simpl Opcode.
  destruct op; intros Hp; try discriminate Hp;
    unfold_dispatch; respect same.
Qed.

Lemma dispatch_keeps_next (n : Z) (i : instr) :
  respects (fun r => NextOffset r = n) (fun _ => True) (dispatch i).
Proof.
  destruct i as [op operand off].
  destruct op; unfold_dispatch; respect same.
Qed.

(** ** One instruction *)

Context (Hsizes : sizes_ok OperandSizeMap) (Hbuf : il_ok ILInput).
Context (HILSize : ILSize = Z.of_nat (length ILInput)).

Definition is_debug_location (c : ClientCall IRNode) : Prop :=
  match c with SetDebugLocation _ _ => True | _ => False end.

(** A successful round: the switch runs between the state [r1], which differs
    from [r] in the next offset and the cached tokens, and [r2]. *)
Definition ran (i : instr) (next : Z) (r r' : reader) : Prop :=
  exists r1 r2 dbg,
    dispatch i r1 = inl (r2, tt) /\
    prefixes_of r1 = prefixes_of r /\ NextOffset r1 = next /\
    LoadFtnToken r1 = (if op_is (Opcode i) CEE_NEWOBJ then LoadFtnToken r else mdTokenNil) /\
    trace r1 = dbg ++ trace r /\ Forall is_debug_location dbg /\
    r' = (if keeps_prefixes (Opcode i) then r2 else reset_prefixes r2).

Lemma dispatch_ran (i : instr) (r r0 r' : reader) (dbg : list (ClientCall IRNode)) (x : Z) :
  prefixes_of r0 = prefixes_of r -> LoadFtnToken r0 = LoadFtnToken r ->
  trace r0 = dbg ++ trace r -> Forall is_debug_location dbg ->
  rbind (modify (clear_cached_tokens (Opcode i))) (fun _ =>
    rbind (dispatch i) (fun _ =>
      rbind (if keeps_prefixes (Opcode i) then rret tt else modify reset_prefixes) (fun _ =>
        rbind get (fun r => rret (NextOffset r))))) r0 = inl (r', x) ->
  ran i (NextOffset r0) r r' /\ x = NextOffset r'.
Proof.
  intros Hp Hl Ht Hd. unfold rbind, modify, get, rret. intros H.
  destruct (dispatch i _) as [[r2 []]|] eqn:E; [|done].
  split; [|by destruct (keeps_prefixes (Opcode i)); injection H as <- <-].
  exists (clear_cached_tokens (Opcode i) r0), r2, dbg. rewrite E. cbn -[keeps_prefixes op_is].
  rewrite Hl. repeat (split; [done|]). by destruct (keeps_prefixes (Opcode i)); injection H as <- <-.
Qed.

Lemma read_instruction_inv (off : Z) op operand next (r r' : reader) (x : Z) :
  instr_at OperandSizeMap ILInput off op operand next ->
  read_instruction off r = inl (r', x) ->
  ran (Instr op operand off) next r r' /\ x = NextOffset r'.
Proof.
  intros Hi. unfold read_instruction, execute, parse, report_error, stack_empty. rewrite HILSize.
  rewrite (parse_complete OperandSizeMap Hsizes ILInput off op operand next true true Hbuf Hi).
  unfold read, rbind at 1 2 3 4 5, rret, modify at 1.
  cbn [p_report p_next p_opcode p_operand]. change (default (-1) (Some operand)) with operand.
  change (stack (set_next next r)) with (stack r). destruct (stack r) eqn:E.
  - unfold gen_, gen_reply. unfold rbind at 1 2. change (trace (set_next next r)) with (trace r).
    destruct (answer _ _); [|done]. unfold rret at 1.
    apply (dispatch_ran (Instr op operand off) r
             (set_trace (SetDebugLocation off false :: trace r) (set_next next r)) r'
             [SetDebugLocation off false]); [done..|].
    constructor; [done|constructor].
  - apply (dispatch_ran (Instr op operand off) r (set_next next r) r' []); [done..|constructor].
Qed.

(** ** Prefixes reach the next instruction *)

(** The prefix instructions of ECMA-335 III.2 that opcode.def has. *)
Definition ecma_prefix (op : OPCODE) : bool :=
  match op with
  | CEE_CONSTRAINED | CEE_READONLY | CEE_TAILCALL | CEE_UNALIGNED | CEE_VOLATILE => true
  | _ => false
  end.

Lemma keeps_prefixes_ecma (op : OPCODE) : keeps_prefixes op = ecma_prefix op.
Proof. by destruct op. Qed.

(** The prefixes that a run of prefix instructions sets: flags by presence,
    values by the last one. *)
Definition last_value (op : OPCODE) (n : nat) (pre : list il_instr) : option Z :=
  last (omap (fun i => if op_is (i_op i) op then readValue_u n ILInput (i_operand i) else None) pre).

Definition has_prefix (op : OPCODE) (pre : list il_instr) : bool :=
  existsb (fun i => op_is (i_op i) op) pre.

Definition prefixes_in (pre : list il_instr) : prefixes :=
  Prefixes (default Reader_AlignNatural (last_value CEE_UNALIGNED 1 pre))
    (has_prefix CEE_VOLATILE pre) (has_prefix CEE_READONLY pre)
    (has_prefix CEE_CONSTRAINED pre) (default mdTokenNil (last_value CEE_CONSTRAINED 4 pre)).

Definition decoded (i : il_instr) : Prop :=
  instr_at OperandSizeMap ILInput (i_off i) (i_op i) (i_operand i) (i_next i).

Lemma read_all_app (l1 l2 : list il_instr) (r : reader) :
  read_all (l1 ++ l2) r =
    match read_all l1 r with inl (r', _) => read_all l2 r' | inr e => inr e end.
Proof.
  revert r. induction l1 as [|i l1 IH]; intros r; [done|]. simpl. unfold rbind.
  destruct (read_instruction _ _) as [[r1 x]|]; [apply IH|done].
Qed.

Lemma prefix_step (pre : list il_instr) (i : il_instr) (r1 r2 : reader) :
  keeps_prefixes (i_op i) = true -> prefixes_of r1 = prefixes_in pre ->
  dispatch (Instr (i_op i) (i_operand i) (i_off i)) r1 = inl (r2, tt) ->
  prefixes_of r2 = prefixes_in (pre ++ [i]).
Proof.
  intros Hp Hr. unfold prefixes_in, last_value, has_prefix. rewrite !omap_app, !existsb_app.
  destruct i as [off op operand next]. injection Hr as Ha Hv Hro Hc Hct. simpl i_op in *.
  destruct op; try discriminate Hp;
    unfold dispatch, read_constrained, read_unaligned, operand_token, operand_u, read, rbind, modify;
    simpl; try destruct (readValue_u _ ILInput operand) as [v|]; intros [= <-];
    unfold prefixes_of; simpl;
    rewrite ?last_snoc, ?app_nil_r, ?orb_true_r, ?orb_false_r; simpl; by f_equal.
Qed.

(** A run of prefixes leaves exactly its own, anything else leaves none. *)
Lemma read_prefixes (pre : list il_instr) (r r' : reader) :
  Forall (fun i => decoded i /\ keeps_prefixes (i_op i) = true) pre ->
  prefixes_of r = prefixes_in [] -> read_all pre r = inl (r', tt) ->
  prefixes_of r' = prefixes_in pre.
Proof.
  intros Hpre Hr. revert r'. induction pre as [|i pre IH] using rev_ind; intros r'.
  { by intros [= <-]. }
  apply Forall_app in Hpre as [Hpre Hi]. apply Forall_singleton in Hi as [Hd Hp].
  rewrite read_all_app. destruct (read_all pre r) as [[r1 []]|]; [|done].
  simpl. unfold rbind. destruct (read_instruction (i_off i) r1) as [[r2 x]|] eqn:E; [|done].
  intros [= <-].
  destruct (read_instruction_inv _ _ _ _ _ _ _ Hd E) as [(r3 & r4 & dbg & Hdis & Hp3 & _ & _ & _ & _ & ->) _].
  simpl Opcode. rewrite Hp. eapply prefix_step; [done| |exact Hdis].
  rewrite Hp3. by apply (IH Hpre).
Qed.

(** C23: the [unaligned.], [volatile.], [readonly.] and [constrained.] prefixes
    that stand just before an instruction are those of every call it makes of
    the generator: the memory accesses take the last alignment and are
    volatile exactly if [volatile.] is among the prefixes, an element address
    is read-only exactly if [readonly.] is, and a call takes the last
    constraint; the instruction consumes them, so the next one starts with
    none.  This holds for any generator. *)
Theorem prefixes_reach_next_instruction (pre : list il_instr) (i : il_instr) (r r1 r2 : reader) (x : Z) :
  Forall (fun i => decoded i /\ ecma_prefix (i_op i) = true) pre ->
  decoded i -> ecma_prefix (i_op i) = false ->
  prefixes_of r = prefixes_in [] ->
  read_all pre r = inl (r1, tt) -> read_instruction (i_off i) r1 = inl (r2, x) ->
  prefixes_of r2 = prefixes_in [] /\
  exists new, trace r2 = new ++ trace r1 /\ Forall (carries (prefixes_in pre)) new.
Proof.
  intros Hpre Hd Hi Hr Hall Hread. rewrite <- keeps_prefixes_ecma in Hi.
  assert (Hpre' : Forall (fun i => decoded i /\ keeps_prefixes (i_op i) = true) pre).
  { eapply Forall_impl; [exact Hpre|]. intros j [? ?]. by rewrite keeps_prefixes_ecma. }
  pose proof (read_prefixes pre r r1 Hpre' Hr Hall) as Hr1.
  destruct (read_instruction_inv _ _ _ _ _ _ _ Hd Hread)
    as [(r3 & r4 & dbg & Hdis & Hp3 & _ & _ & Ht & Hdbg & ->) _].
  simpl Opcode. rewrite Hi. split; [done|].
  pose proof (dispatch_carries (prefixes_in pre) (Instr (i_op i) (i_operand i) (i_off i)) Hi r3
                ltac:(congruence)) as H.
  rewrite Hdis in H. destruct H as (_ & new & Hnew & Hc). exists (new ++ dbg).
  simpl. rewrite Hnew, Ht, app_assoc. split; [done|]. apply Forall_app. split; [done|].
  eapply Forall_impl; [exact Hdbg|]. by intros [].
Qed.

(** ** Termination *)

Lemma execute_next (off : Z) (p : parsed) (r r' : reader) (x : Z) :
  execute off p r = inl (r', x) -> x = p_next p.
Proof.
  assert (Hk : respects (fun r => NextOffset r = p_next p) (fun _ => True)
    (rbind stack_empty (fun Empty =>
      rbind (if Empty then gen_ (SetDebugLocation off false) else rret tt) (fun _ =>
      rbind (modify (clear_cached_tokens (p_opcode p))) (fun _ =>
      rbind (dispatch (Instr (p_opcode p) (default (-1) (p_operand p)) off)) (fun _ =>
      rbind (if keeps_prefixes (p_opcode p) then rret tt else modify reset_prefixes) (fun _ =>
      rret tt))))))).
  { repeat (apply respects_bind; [|intros]); try apply respects_if;
      first [apply dispatch_keeps_next|respect same]. }
  specialize (Hk (set_next (p_next p) r) eq_refl). unfold execute, rbind, modify, get, rret in *.
  repeat match goal with
  | H : match (match ?m with _ => _ end) with _ => _ end |- _ => destruct m as [[? ?]|]; [|done]
  end.
  intros [= _ <-]. exact (proj1 Hk).
Qed.

(** A round moves the offset to the end of the instruction. *)
Lemma read_instruction_advances (off : Z) (r r' : reader) (x : Z) :
  no_wrap ILInput -> 0 <= off < Z.of_nat (length ILInput) ->
  read_instruction off r = inl (r', x) -> off < x <= Z.of_nat (length ILInput).
Proof.
  intros Hnw Hoff. unfold read_instruction, parse, rbind, read. rewrite HILSize.
  destruct (parseILOpcode _ _ _ _ _ _) as [p|] eqn:Ep; [|done]. unfold rret.
  destruct (report_error p r) as [[r0 []]|]; [|done]. intros ->%execute_next.
  pose proof (parse_progress _ Hsizes ILInput off _ _ p Hbuf Hoff Ep) as [Hr [Hlt|(o & Ho & Hw)]]; [lia|].
  by destruct (Hnw off o Ho).
Qed.

(** C25: the loop of a block stops, whatever the generator answers and however
    its splits bring the end of the block forward, within as many rounds as the
    block has bytes to begin with, unless the length of a switch wraps. *)
Theorem readBytesForFlowGraphNode_terminates (entry : option (list IRNode)) (StartOffset FirstEnd : Z)
    (EndOffset : end_offsets) (r : reader) (fuel : nat) :
  no_wrap ILInput -> 0 <= StartOffset ->
  (forall t, EndOffset t <= FirstEnd) -> FirstEnd <= Z.of_nat (length ILInput) ->
  (Z.to_nat (FirstEnd - StartOffset) < fuel)%nat ->
  is_Some (readBytesForFlowGraphNode fuel entry StartOffset EndOffset r).
Proof.
  intros Hnw Hs HE He Hf. unfold readBytesForFlowGraphNode, readBytesForFlowGraphNodeHelper.
  destruct (enter_block _ _ _) as [[r1 []]|]; [|eauto].
  destruct (while_fuel_total (loop_body EndOffset)
              (fun s => 0 <= s.2) (fun s => Z.to_nat (FirstEnd - s.2))) with
    (n := fuel) (s := (initialize_block StartOffset r1, StartOffset)) as [res ->]; [|done..|by eexists].
  intros [r0 off] [r2 off2] Hoff. simpl in *. destruct (Z.ltb_spec off (EndOffset (trace r0))); [|done].
  destruct (read_instruction off r0) as [[r3 x]|] eqn:E; [|done]. intros [= <- <-].
  specialize (HE (trace r0)).
  pose proof (read_instruction_advances off r0 r3 x Hnw ltac:(lia) E). lia.
Qed.

(** ** The cached function-pointer token *)

Definition newobj_takes (ftn : Z) (c : ClientCall IRNode) : Prop :=
  match c with NewObjOp _ t _ => t = ftn | _ => True end.

Definition loads_ftn (op : OPCODE) : bool := op_in op [CEE_LDFTN; CEE_LDVIRTFTN].

#[local] Instance ftn_in_stack_stable (l : list Z) : StackStable (fun r : reader => LoadFtnToken r ∈ l).
Proof. intros ? ? H; exact H. Qed.
#[local] Instance ftn_in_trace_stable (l : list Z) : TraceStable (fun r : reader => LoadFtnToken r ∈ l).
Proof. intros ? ? H; exact H. Qed.

Lemma dispatch_keeps_ftn (ftn : Z) (i : instr) :
  loads_ftn (Opcode i) = false -> Opcode i <> CEE_NEWOBJ ->
  respects (fun r => LoadFtnToken r = ftn) (newobj_takes ftn) (dispatch i).
Proof.
  destruct i as [op operand off]. simpl Opcode.
  destruct op; intros Hp Hn; try discriminate Hp; try congruence;
    unfold_dispatch; respect same.
Qed.

Lemma dispatch_newobj (ftn : Z) (i : instr) (r r' : reader) :
  Opcode i = CEE_NEWOBJ -> IsVerifyOnly = false -> LoadFtnToken r = ftn ->
  dispatch i r = inl (r', tt) ->
  LoadFtnToken r' = mdTokenNil /\
  exists new, trace r' = new ++ trace r /\ Forall (newobj_takes ftn) new.
Proof.
  intros Hi Hv Hr. unfold dispatch, read_newobj, unless_verify_only. rewrite Hi, Hv.
  assert (H : forall (c : R unit), respects (fun r => LoadFtnToken r = ftn) (newobj_takes ftn) c ->
    forall r, LoadFtnToken r = ftn ->
    match rbind c (fun _ => modify (fun r => set_tokens mdTokenNil (LastLoadToken r) r)) r with
    | inl (r', _) => LoadFtnToken r' = mdTokenNil /\
        exists new, trace r' = new ++ trace r /\ Forall (newobj_takes ftn) new
    | inr _ => True
    end).
  { intros c Hc r0 Hr0. specialize (Hc r0 Hr0). unfold rbind, modify.
    destruct (c r0) as [[r1 []]|]; [|done]. by split; [|apply Hc]. }
  specialize (H (rbind (operand_token i) (fun Token =>
    rbind (gen_ (ResolveToken Token TOKENKIND_Method)) (fun _ =>
    rbind get (fun r =>
    rbind (gen_reply (NewObjOp Token (LoadFtnToken r) (CurrentOffset i))) (fun a =>
    rbind (pop_many (r_pops a)) (fun _ => push_if (r_node a))))))) ltac:(unfold operand_token; respect same) r Hr).
  unfold rbind, modify in *.
  repeat match goal with
  | |- (match ?m with _ => _ end) = _ -> _ => destruct m as [[? ?]|] eqn:?; [|done]
  | Hm : ?m = inl _, H : context [?m] |- _ => rewrite Hm in H
  end.
  by intros [= <-].
Qed.

(** What [ldftn] and [ldvirtftn] leave cached. *)
Lemma dispatch_loads_ftn (i : instr) (r r' : reader) :
  loads_ftn (Opcode i) = true -> dispatch i r = inl (r', tt) ->
  exists Token, readValue_u 4 ILInput (Operand i) = Some Token /\
    (LoadFtnToken r' = Token \/ ReadyToRun = true /\ LoadFtnToken r' = mdTokenNil).
Proof.
  intros Hi Hd.
  assert (Hc : exists v (k : Z -> R unit),
    dispatch i = rbind (load_ftn_token v i) k /\
    forall t ftn, respects (fun r => LoadFtnToken r = ftn) (fun _ => True) (k t)).
  { destruct i as [op operand off]. simpl Opcode in Hi. destruct op; try discriminate Hi;
      unfold dispatch, Opcode, read_ldftn, read_ldvirtftn; eexists _, _; (split; [reflexivity|]);
      intros; cbv beta; unfold unless_verify_only; respect same. }
  destruct Hc as (v & k & Hk & Hkeep). rewrite Hk in Hd. unfold load_ftn_token, operand_token, operand_u in Hd.
  destruct (readValue_u 4 ILInput (Operand i)) as [Token|]; [|done]. exists Token. split; [done|].
  unfold read, rret, rbind at 1 2 3, modify at 1 in Hd.
  unfold gen_, gen_reply, rbind, rret, modify in Hd. simpl trace in Hd.
  destruct (answer _ _) as [a1|]; [|done]. simpl trace in Hd.
  destruct (answer (_ :: _) _) as [a2|]; [|done].
  destruct (ReadyToRun && negb (r_plain_call a2)) eqn:Er.
  - apply andb_true_iff in Er as [Hr2r _]. right. split; [done|].
    match type of Hd with k _ ?s = _ => pose proof (Hkeep Token mdTokenNil s eq_refl) as H end.
    rewrite Hd in H. apply H.
  - left. match type of Hd with k _ ?s = _ => pose proof (Hkeep Token Token s eq_refl) as H end.
    rewrite Hd in H. apply H.
Qed.

(** The constructor call of a [newobj] is given the token of a function
    pointer exactly when the instruction just before it loaded one: after any
    other instruction the token is nil, after [ldftn] or [ldvirtftn] it is
    their method token, except that a ReadyToRun compilation may drop it. *)
Theorem newobj_takes_adjacent_ftn (j i : il_instr) (r r1 r2 : reader) (x y : Z) :
  IsVerifyOnly = false -> decoded j -> decoded i -> i_op i = CEE_NEWOBJ ->
  read_instruction (i_off j) r = inl (r1, x) -> read_instruction (i_off i) r1 = inl (r2, y) ->
  exists ftn new, trace r2 = new ++ trace r1 /\ Forall (newobj_takes ftn) new /\
    if loads_ftn (i_op j) then
      exists Token, readValue_u 4 ILInput (i_operand j) = Some Token /\
        (ftn = Token \/ ReadyToRun = true /\ ftn = mdTokenNil)
    else ftn = mdTokenNil.
Proof.
  intros Hv Hj Hi Hnew Hr1 Hr2.
  destruct (read_instruction_inv _ _ _ _ _ _ _ Hj Hr1) as [(a & b & da & Hda & _ & _ & Ha & _ & _ & Hb) _].
  destruct (read_instruction_inv _ _ _ _ _ _ _ Hi Hr2) as [(c & d & dc & Hdc & _ & _ & Hc & Htc & Hdbg & Hd) _].
  simpl Opcode in *. rewrite Hnew in *. cbn in Hc, Hd. subst r2.
  destruct (dispatch_newobj (LoadFtnToken r1) (Instr CEE_NEWOBJ (i_operand i) (i_off i)) c d eq_refl Hv Hc Hdc)
    as (_ & new & Hnt & Hq).
  exists (LoadFtnToken r1), (new ++ dc). simpl. rewrite Hnt, Htc, app_assoc. split; [done|]. split.
  { apply Forall_app. split; [done|]. eapply Forall_impl; [exact Hdbg|]. by intros []. }
  assert (Hkeep : LoadFtnToken r1 = LoadFtnToken b) by (subst r1; by destruct (keeps_prefixes (i_op j))).
  rewrite Hkeep. destruct (loads_ftn (i_op j)) eqn:El.
  - by eapply (dispatch_loads_ftn (Instr (i_op j) (i_operand j) (i_off j))).
  - destruct (decide (i_op j = CEE_NEWOBJ)) as [Hjn|Hjn].
    + eapply (dispatch_newobj _ (Instr (i_op j) (i_operand j) (i_off j)) a b Hjn Hv eq_refl Hda).
    + pose proof (dispatch_keeps_ftn mdTokenNil (Instr (i_op j) (i_operand j) (i_off j)) El Hjn a) as H.
      rewrite Hda in H. apply H. rewrite Ha.
      destruct (op_is (i_op j) CEE_NEWOBJ) eqn:E; [by apply op_is_true in E|done].
Qed.

(** ** Verify-only passes *)

(** Calls that generate no code but a [nop]. *)
Definition bookkeeping (c : ClientCall IRNode) : Prop :=
  match c with
  | Nop | SetDebugLocation _ _ | ResolveToken _ _ | GetCallInfo _ _ | VerGlobalErrorCall _ => True
  | _ => False
  end.

#[local] Instance stack_trace_stable s : TraceStable (fun r : reader => stack r = s).
Proof. intros ? ? H; exact H. Qed.

(** In a verify-only pass an instruction other than [rethrow] leaves the
    operand stack alone, asks the runtime about its token and generates
    nothing but a [nop], which only a branch, a return and the loading of a
    32-bit constant do. *)
Theorem verify_only_generates_nops (i : instr) (r r' : reader) :
  IsVerifyOnly = true -> Opcode i <> CEE_RETHROW -> dispatch i r = inl (r', tt) ->
  stack r' = stack r /\
  exists new, trace r' = new ++ trace r /\ Forall bookkeeping new /\
    (Nop ∈ new ->
     ecma_branch_pops (Opcode i) = Some 0%nat \/ Opcode i = CEE_RET \/
     op_in (Opcode i) [CEE_LDC_I4; CEE_LDC_I4_S; CEE_LDC_I4_0; CEE_LDC_I4_1; CEE_LDC_I4_2;
       CEE_LDC_I4_3; CEE_LDC_I4_4; CEE_LDC_I4_5; CEE_LDC_I4_6; CEE_LDC_I4_7; CEE_LDC_I4_8;
       CEE_LDC_I4_M1] = true).
Proof.
  intros Hv Hop Hd.
  assert (H : respects (fun r0 => stack r0 = stack r)
    (fun c => bookkeeping c /\ (c = Nop ->
      ecma_branch_pops (Opcode i) = Some 0%nat \/ Opcode i = CEE_RET \/
      op_in (Opcode i) [CEE_LDC_I4; CEE_LDC_I4_S; CEE_LDC_I4_0; CEE_LDC_I4_1; CEE_LDC_I4_2;
       CEE_LDC_I4_3; CEE_LDC_I4_4; CEE_LDC_I4_5; CEE_LDC_I4_6; CEE_LDC_I4_7; CEE_LDC_I4_8;
       CEE_LDC_I4_M1] = true)) (dispatch i)).
  { destruct i as [op operand off]. simpl Opcode in *.
    destruct op; try done; unfold_dispatch; rewrite ?Hv; cbv iota;
      respect ltac:(first [by intros|by split; [|auto]]). }
  specialize (H r eq_refl). rewrite Hd in H. destruct H as (Hs & new & Ht & Hq).
  split; [done|]. exists new. split; [done|]. split.
  - eapply Forall_impl; [exact Hq|]. by intros c [].
  - intros Hn. rewrite Forall_forall in Hq. by apply (Hq Nop).
Qed.

End Loop.

(** ** Concrete methods *)

#[local] Existing Instance demo_client.

Definition demo_prefixed : Method nat :=
  demo_method_of [0xFE; 0x13; 0xFE; 0x12; 1; 0x4A; 0x4A; 0x2A] false.

Definition demo_pre : list il_instr :=
  [ILInstr 0 CEE_VOLATILE 2 2; ILInstr 2 CEE_UNALIGNED 4 5].
Definition demo_ldind : il_instr := ILInstr 5 CEE_LDIND_I4 6 6.

Lemma demo_prefixed_ok : il_ok (ILInput (Method := demo_prefixed)).
Proof. split; [|by vm_compute]. decide_now. Qed.

Lemma demo_pre_decoded :
  Forall (fun i => decoded (M := demo_prefixed) i /\ ecma_prefix (i_op i) = true) demo_pre /\
  decoded (M := demo_prefixed) demo_ldind.
Proof.
  split; [|apply (instr_intro _ _ 5 CEE_LDIND_I4 6 0); [by apply (opcode_short _ 5 0x4A)|done|by vm_compute]].
  apply Forall_cons; split; [split; [|done]|apply Forall_singleton; split; [|done]].
  - apply (instr_intro _ _ 0 CEE_VOLATILE 2 0); [by apply (opcode_prefixed _ 0 0x13)|done|by vm_compute].
  - apply (instr_intro _ _ 2 CEE_UNALIGNED 4 1); [by apply (opcode_prefixed _ 2 0x12)|done|by vm_compute].
Qed.

Definition demo_loaded : reader nat := set_stack [3%nat] demo_reader.

Definition state_after {A} (c : R A) (r : reader nat) : reader nat :=
  match c r with inl (r', _) => r' | inr _ => r end.

Definition demo_before_ldind : reader nat :=
  Eval vm_compute in state_after (read_all (M := demo_prefixed) demo_pre) demo_loaded.
Definition demo_after_ldind : reader nat :=
  Eval vm_compute in state_after (read_instruction (M := demo_prefixed) 5) demo_before_ldind.

Lemma prefixes_reach_next_instruction_witness :
  exists new, trace demo_after_ldind = new ++ trace demo_before_ldind /\
    Forall (carries (prefixes_in (M := demo_prefixed) demo_pre)) new.
Proof.
  assert (H1 : read_all (M := demo_prefixed) demo_pre demo_loaded = inl (demo_before_ldind, tt)) by by vm_compute.
  assert (H2 : read_instruction (M := demo_prefixed) 5 demo_before_ldind = inl (demo_after_ldind, 6)) by by vm_compute.
  exact (proj2 (prefixes_reach_next_instruction (M := demo_prefixed) ecma_sizes_ok demo_prefixed_ok eq_refl
    demo_pre demo_ldind demo_loaded demo_before_ldind demo_after_ldind 6
    (proj1 demo_pre_decoded) (proj2 demo_pre_decoded) eq_refl eq_refl H1 H2)).
Defined.

Lemma demo_prefixed_no_wrap : no_wrap (ILInput (Method := demo_prefixed)).
Proof. apply no_wrap_small. by vm_compute. Qed.

(** A load that splits the block after the instruction. *)
Definition demo_shrinking (t : list (ClientCall nat)) : Z :=
  if existsb (fun c => match c with LoadIndir _ _ _ _ => true | _ => false end) t then 6 else 8.

Lemma readBytesForFlowGraphNode_terminates_witness :
  is_Some (readBytesForFlowGraphNode (M := demo_prefixed) 9 None 0 demo_shrinking demo_reader).
Proof.
  apply (readBytesForFlowGraphNode_terminates (M := demo_prefixed) ecma_sizes_ok demo_prefixed_ok eq_refl
           None 0 8 demo_shrinking demo_reader 9 demo_prefixed_no_wrap).
  - lia.
  - intros t. unfold demo_shrinking. by case_match.
  - vm_compute. discriminate.
  - vm_compute. lia.
Defined.

Definition demo_delegate : Method nat :=
  demo_method_of [0xFE; 0x06; 5; 0; 0; 6; 0x73; 7; 0; 0; 6] false.

Lemma demo_delegate_ok : il_ok (ILInput (Method := demo_delegate)).
Proof. split; [|by vm_compute]. decide_now. Qed.

Definition demo_after_ldftn : reader nat :=
  Eval vm_compute in state_after (read_instruction (M := demo_delegate) 0) demo_reader.
Definition demo_after_newobj : reader nat :=
  Eval vm_compute in state_after (read_instruction (M := demo_delegate) 6) demo_after_ldftn.

Lemma newobj_takes_adjacent_ftn_witness :
  exists ftn new, trace demo_after_newobj = new ++ trace demo_after_ldftn /\
    Forall (newobj_takes ftn) new /\
    exists Token, readValue_u 4 (ILInput (Method := demo_delegate)) 2 = Some Token /\
      (ftn = Token \/ false = true /\ ftn = mdTokenNil).
Proof.
  assert (H1 : read_instruction (M := demo_delegate) 0 demo_reader = inl (demo_after_ldftn, 6)) by by vm_compute.
  assert (H2 : read_instruction (M := demo_delegate) 6 demo_after_ldftn = inl (demo_after_newobj, 11)) by by vm_compute.
  apply (newobj_takes_adjacent_ftn (M := demo_delegate) ecma_sizes_ok demo_delegate_ok eq_refl
    (ILInstr 0 CEE_LDFTN 2 6) (ILInstr 6 CEE_NEWOBJ 7 11) demo_reader demo_after_ldftn demo_after_newobj 6 11
    eq_refl); [| |reflexivity|exact H1|exact H2].
  - apply (instr_intro _ _ 0 CEE_LDFTN 2 4); [by apply (opcode_prefixed _ 0 6)|done|by vm_compute].
  - apply (instr_intro _ _ 6 CEE_NEWOBJ 7 4); [by apply (opcode_short _ 6 0x73)|done|by vm_compute].
Defined.

Definition demo_verify : Method nat := demo_method_of [0x17] true.

Lemma verify_only_generates_nops_witness :
  exists r', dispatch (M := demo_verify) (Instr CEE_LDC_I4_1 1 0) demo_reader = inl (r', tt) /\
    stack r' = [] /\ exists new, trace r' = new ++ [] /\ Forall bookkeeping new.
Proof.
  eexists. edestruct (verify_only_generates_nops (M := demo_verify) (Instr CEE_LDC_I4_1 1 0) demo_reader)
    as (Hs & new & Ht & Hq & _); [reflexivity|discriminate|reflexivity|].
  split; [reflexivity|]. split; [exact Hs|]. by exists new.
Defined.
