(* ===== verification/Operators.v ===== *)
(** * The generator calls of operators, and the switch without cases

    The switch of the reader picks an operator by a table of integers and a
    cast; the calls are compared with a table by name and operand order. *)

From S2P Require Import Prelude Opcodes ILDecode Regions TailCall Dispatch StackEffect.
Import ReaderBaseNS.

Section Operators.

Context {IRNode : Type} {C : Client IRNode} {M : Method IRNode}.
#[local] Notation reader := (reader IRNode).

(** The call of an operator on its operands, in the order in which they were
    pushed: a shift and an element access hand them over in reverse. *)
Definition operator_call (op : OPCODE) (operands : list IRNode) : option (ClientCall IRNode) :=
  match op, operands with
  | CEE_ADD, [a; b] => Some (BinaryOp Add a b)
  | CEE_SUB, [a; b] => Some (BinaryOp Sub a b)
  | CEE_MUL, [a; b] => Some (BinaryOp Mul a b)
  | CEE_DIV, [a; b] => Some (BinaryOp Div a b)
  | CEE_DIV_UN, [a; b] => Some (BinaryOp DivUn a b)
  | CEE_REM, [a; b] => Some (BinaryOp Rem a b)
  | CEE_REM_UN, [a; b] => Some (BinaryOp RemUn a b)
  | CEE_AND, [a; b] => Some (BinaryOp And a b)
  | CEE_OR, [a; b] => Some (BinaryOp Or a b)
  | CEE_XOR, [a; b] => Some (BinaryOp Xor a b)
  | CEE_ADD_OVF, [a; b] => Some (BinaryOp AddOvf a b)
  | CEE_ADD_OVF_UN, [a; b] => Some (BinaryOp AddOvfUn a b)
  | CEE_MUL_OVF, [a; b] => Some (BinaryOp MulOvf a b)
  | CEE_MUL_OVF_UN, [a; b] => Some (BinaryOp MulOvfUn a b)
  | CEE_SUB_OVF, [a; b] => Some (BinaryOp SubOvf a b)
  | CEE_SUB_OVF_UN, [a; b] => Some (BinaryOp SubOvfUn a b)
  | CEE_SHL, [v; n] => Some (ShiftOp Shl n v)
  | CEE_SHR, [v; n] => Some (ShiftOp Shr n v)
  | CEE_SHR_UN, [v; n] => Some (ShiftOp ShrUn n v)
  | CEE_CEQ, [a; b] => Some (CmpOp Ceq a b)
  | CEE_CGT, [a; b] => Some (CmpOp Cgt a b)
  | CEE_CGT_UN, [a; b] => Some (CmpOp CgtUn a b)
  | CEE_CLT, [a; b] => Some (CmpOp Clt a b)
  | CEE_CLT_UN, [a; b] => Some (CmpOp CltUn a b)
  | CEE_NEG, [a] => Some (UnaryOp Neg a)
  | CEE_NOT, [a] => Some (UnaryOp Not a)
  | CEE_CONV_I1, [a] => Some (ConvOp ConvI1 a)
  | CEE_CONV_I2, [a] => Some (ConvOp ConvI2 a)
  | CEE_CONV_I4, [a] => Some (ConvOp ConvI4 a)
  | CEE_CONV_I8, [a] => Some (ConvOp ConvI8 a)
  | CEE_CONV_R4, [a] => Some (ConvOp ConvR4 a)
  | CEE_CONV_R8, [a] => Some (ConvOp ConvR8 a)
  | CEE_CONV_U4, [a] => Some (ConvOp ConvU4 a)
  | CEE_CONV_U8, [a] => Some (ConvOp ConvU8 a)
  | CEE_CONV_R_UN, [a] => Some (ConvOp ConvRUn a)
  | CEE_CONV_OVF_I1_UN, [a] => Some (ConvOp ConvOvfI1Un a)
  | CEE_CONV_OVF_I2_UN, [a] => Some (ConvOp ConvOvfI2Un a)
  | CEE_CONV_OVF_I4_UN, [a] => Some (ConvOp ConvOvfI4Un a)
  | CEE_CONV_OVF_I8_UN, [a] => Some (ConvOp ConvOvfI8Un a)
  | CEE_CONV_OVF_U1_UN, [a] => Some (ConvOp ConvOvfU1Un a)
  | CEE_CONV_OVF_U2_UN, [a] => Some (ConvOp ConvOvfU2Un a)
  | CEE_CONV_OVF_U4_UN, [a] => Some (ConvOp ConvOvfU4Un a)
  | CEE_CONV_OVF_U8_UN, [a] => Some (ConvOp ConvOvfU8Un a)
  | CEE_CONV_OVF_I_UN, [a] => Some (ConvOp ConvOvfIUn a)
  | CEE_CONV_OVF_U_UN, [a] => Some (ConvOp ConvOvfUUn a)
  | CEE_CONV_OVF_I1, [a] => Some (ConvOp ConvOvfI1 a)
  | CEE_CONV_OVF_U1, [a] => Some (ConvOp ConvOvfU1 a)
  | CEE_CONV_OVF_I2, [a] => Some (ConvOp ConvOvfI2 a)
  | CEE_CONV_OVF_U2, [a] => Some (ConvOp ConvOvfU2 a)
  | CEE_CONV_OVF_I4, [a] => Some (ConvOp ConvOvfI4 a)
  | CEE_CONV_OVF_U4, [a] => Some (ConvOp ConvOvfU4 a)
  | CEE_CONV_OVF_I8, [a] => Some (ConvOp ConvOvfI8 a)
  | CEE_CONV_OVF_U8, [a] => Some (ConvOp ConvOvfU8 a)
  | CEE_CONV_U2, [a] => Some (ConvOp ConvU2 a)
  | CEE_CONV_U1, [a] => Some (ConvOp ConvU1 a)
  | CEE_CONV_I, [a] => Some (ConvOp ConvI a)
  | CEE_CONV_OVF_I, [a] => Some (ConvOp ConvOvfI a)
  | CEE_CONV_OVF_U, [a] => Some (ConvOp ConvOvfU a)
  | CEE_CONV_U, [a] => Some (ConvOp ConvU a)
  | CEE_LDELEM_I1, [arr; ix] => Some (LoadElem LdelemI1 None ix arr)
  | CEE_LDELEM_U1, [arr; ix] => Some (LoadElem LdelemU1 None ix arr)
  | CEE_LDELEM_I2, [arr; ix] => Some (LoadElem LdelemI2 None ix arr)
  | CEE_LDELEM_U2, [arr; ix] => Some (LoadElem LdelemU2 None ix arr)
  | CEE_LDELEM_I4, [arr; ix] => Some (LoadElem LdelemI4 None ix arr)
  | CEE_LDELEM_U4, [arr; ix] => Some (LoadElem LdelemU4 None ix arr)
  | CEE_LDELEM_I8, [arr; ix] => Some (LoadElem LdelemI8 None ix arr)
  | CEE_LDELEM_I, [arr; ix] => Some (LoadElem LdelemI None ix arr)
  | CEE_LDELEM_R4, [arr; ix] => Some (LoadElem LdelemR4 None ix arr)
  | CEE_LDELEM_R8, [arr; ix] => Some (LoadElem LdelemR8 None ix arr)
  | CEE_LDELEM_REF, [arr; ix] => Some (LoadElem LdelemRef None ix arr)
  | _, _ => None
  end.

(** The call that ends a block. *)
Definition branch_call (op : OPCODE) (operands : list IRNode) : option (ClientCall IRNode) :=
  match op, operands with
  | CEE_BEQ_S, [a; b] => Some (CondBranch BeqS a b)
  | CEE_BGE_S, [a; b] => Some (CondBranch BgeS a b)
  | CEE_BGT_S, [a; b] => Some (CondBranch BgtS a b)
  | CEE_BLE_S, [a; b] => Some (CondBranch BleS a b)
  | CEE_BLT_S, [a; b] => Some (CondBranch BltS a b)
  | CEE_BNE_UN_S, [a; b] => Some (CondBranch BneUnS a b)
  | CEE_BGE_UN_S, [a; b] => Some (CondBranch BgeUnS a b)
  | CEE_BGT_UN_S, [a; b] => Some (CondBranch BgtUnS a b)
  | CEE_BLE_UN_S, [a; b] => Some (CondBranch BleUnS a b)
  | CEE_BLT_UN_S, [a; b] => Some (CondBranch BltUnS a b)
  | CEE_BEQ, [a; b] => Some (CondBranch Beq a b)
  | CEE_BGE, [a; b] => Some (CondBranch Bge a b)
  | CEE_BGT, [a; b] => Some (CondBranch Bgt a b)
  | CEE_BLE, [a; b] => Some (CondBranch Ble a b)
  | CEE_BLT, [a; b] => Some (CondBranch Blt a b)
  | CEE_BNE_UN, [a; b] => Some (CondBranch BneUn a b)
  | CEE_BGE_UN, [a; b] => Some (CondBranch BgeUn a b)
  | CEE_BGT_UN, [a; b] => Some (CondBranch BgtUn a b)
  | CEE_BLE_UN, [a; b] => Some (CondBranch BleUn a b)
  | CEE_BLT_UN, [a; b] => Some (CondBranch BltUn a b)
  | CEE_BRFALSE_S, [a] => Some (BoolBranch BrFalseS a)
  | CEE_BRTRUE_S, [a] => Some (BoolBranch BrTrueS a)
  | CEE_BRFALSE, [a] => Some (BoolBranch BrFalse a)
  | CEE_BRTRUE, [a] => Some (BoolBranch BrTrue a)
  | CEE_BR, [] | CEE_BR_S, [] => Some Branch
  | _, _ => None
  end.

(** C24: an arithmetic, logic, shift, comparison or conversion instruction and
    the loading of an array element call the generator once, with the operator
    their name says and the operands in the generator's order, and push the
    reply in place of the operands. *)
Theorem operator_calls_generator (i : instr) (operands rest : list IRNode) (r : reader)
    (c : ClientCall IRNode) :
  IsVerifyOnly = false -> stack r = rev operands ++ rest ->
  operator_call (Opcode i) operands = Some c ->
  dispatch i r = rbind (gen c) push (set_stack rest r).
Proof.
  intros Hv Hs Hc. destruct i as [op operand off]. simpl Opcode in *.
  destruct op; try discriminate Hc;
    (destruct operands as [|a [|b [|? ?]]]; try discriminate Hc); injection Hc as <-;
    unfold dispatch, Opcode, read_binary, read_cmp, read_conv, read_unary, read_shift, read_ldelem,
      unless_verify_only; rewrite Hv; destruct r; simpl in Hs; subst; reflexivity.
Qed.

(** A switch pops its operand; with cases the rest of the stack goes to the
    successors, without cases it is dropped. *)
Definition switch_handover (NumCases : Z) (rest : list IRNode) : list (list IRNode) :=
  if NumCases =? 0 then [] else handover rest.

(** A switch takes one operand and leaves the operand stack empty; with
    cases the remaining operands go to the successors.  A switch without cases
    does not end its block ([fgBuildPhase1] ignores it), and the remaining
    operands, which the next instruction should find, are dropped without
    being handed to any block. *)
Theorem read_switch_drops_operands (i : instr) (NumCases : Z) (v : IRNode) (rest : list IRNode)
    (r : reader) :
  obliging -> IsVerifyOnly = false -> Opcode i = CEE_SWITCH ->
  readValue_u 4 ILInput (Operand i) = Some NumCases -> stack r = v :: rest ->
  exists r', dispatch i r = inl (r', tt) /\ stack r' = [] /\ NextOffset r' = NextOffset r /\
    handed r' = switch_handover NumCases rest ++ handed r.
Proof.
  intros Ho Hv Hop Hn Hs. destruct r as [st ? ? ? ? ? ? ? ? ? ? ? t]. simpl in Hs. subst st.
  unfold dispatch, read_switch, unless_verify_only, operand_u. rewrite Hop, Hv, Hn.
  unfold switch_handover, handover. destruct (NumCases =? 0) eqn:En.
  - cbv [read rret rbind verify_end_block modify pop stack_empty gen_ gen_reply stack_clear]. simpl. rewrite En. simpl.
    destruct (Ho t (PopOp v)) as (w & k & p & ->). by eexists.
  - cbv [read rret rbind verify_end_block modify pop stack_empty gen_ gen_reply stack_clear]. simpl. rewrite En. simpl.
    destruct (Ho t (SwitchOp v)) as (w & k & p & ->). simpl. destruct rest as [|a rest]; [by eexists|].
    cbv [maintainOperandStack rret rbind gen_ gen_reply stack_clear get modify]. simpl.
    match goal with |- context [answer ?t ?c] => destruct (Ho t c) as (w' & k' & p' & ->) end.
    by eexists.
Qed.

End Operators.

#[local] Existing Instance demo_client.
#[local] Instance demo_switch : Method nat := demo_method_of [0x45; 0; 0; 0; 0] false.

Lemma operator_calls_generator_witness :
  dispatch (Instr CEE_SHR 4 3) (set_stack [7; 5; 1]%nat demo_reader)
  = rbind (gen (ShiftOp Shr 7 5)%nat) push (set_stack [1]%nat (set_stack [7; 5; 1]%nat demo_reader)).
Proof.
  apply (operator_calls_generator (Instr CEE_SHR 4 3) [5; 7]%nat [1]%nat); reflexivity.
Defined.

Lemma read_switch_drops_operands_witness :
  exists r', dispatch (Instr CEE_SWITCH 1 0) (set_stack [7; 5; 1]%nat demo_reader)
    = inl (r', tt) /\ stack r' = [] /\ NextOffset r' = 0 /\
    handed r' = switch_handover 0 [5; 1]%nat ++ [].
Proof.
  apply (read_switch_drops_operands (Instr CEE_SWITCH 1 0) 0 7%nat [5; 1]%nat
           (set_stack [7; 5; 1]%nat demo_reader) demo_obliging); reflexivity.
Defined.
