(* ===== verification/StackMerge.v ===== *)
(** * Operand stacks at block boundaries (lib/Reader/readerir.cpp)

    [maintainOperandStack] hands the operands that a block leaves to its
    successors: a successor with one predecessor gets a copy, a join gets PHI
    instructions, whose type is widened when a later predecessor brings another
    type.  Values live in a heap, so that a PHI that changes its type does so
    for everybody who refers to it. *)

From S2P Require Import Prelude IRBuilder GenIRTypes Worklist.

(** ** State *)

Inductive CastOp : Set := IntCast | PtrToInt | FPCast | PointerCast.

(** A value: computed elsewhere, a PHI with its operands ([None] is undef) and
    their blocks, or a cast at the end of a block. *)
Inductive cell : Set :=
  | Plain (T : Ty) (IsStruct : bool)
  | PHINode (T : Ty) (IsStruct : bool) (Incoming : list (option nat * nat))
  | CastInst (Op : CastOp) (T : Ty) (Src Block : nat).

(** The heap, the PHIs at the head of each block in order, and the operand
    stacks of the blocks, bottom first. *)
Record merge_state := MergeState {
  cells : gmap nat cell;
  next_value : nat;
  block_phis : gmap nat (list nat);
  NodeOperandStack : gmap nat (list nat)
}.

Definition cell_type (c : cell) : Ty :=
  match c with Plain T _ => T | PHINode T _ _ => T | CastInst _ T _ _ => T end.

Definition type_of (s : merge_state) (v : nat) : option Ty := cell_type <$> cells s !! v.

(** Membership in the set of values that represent structures; a cast is a
    new value and not in it. *)
Definition doesValueRepresentStruct (s : merge_state) (v : nat) : bool :=
  match cells s !! v with
  | Some (Plain _ b) | Some (PHINode _ b _) => b
  | _ => false
  end.

Definition set_cell (v : nat) (c : cell) (s : merge_state) : merge_state :=
  MergeState (<[v := c]> (cells s)) (next_value s) (block_phis s) (NodeOperandStack s).

Definition new_cell (c : cell) (s : merge_state) : merge_state * nat :=
  (MergeState (<[next_value s := c]> (cells s)) (S (next_value s)) (block_phis s) (NodeOperandStack s),
   next_value s).

Definition fgNodeSetOperandStack (b : nat) (l : list nat) (s : merge_state) : merge_state :=
  MergeState (cells s) (next_value s) (block_phis s) (<[b := l]> (NodeOperandStack s)).

Definition fgNodeGetOperandStack (s : merge_state) (b : nat) : option (list nat) :=
  NodeOperandStack s !! b.

(** ** The type of a join *)

(** What the runtime and the type tables answer: the class of a pointer type,
    the closest common superclass, System.Object, the type of a class, whether
    two structures have the same layout and which function type is the
    placeholder. *)
Class ClassInfo := {
  TargetPointerSizeInBits : Z;
  ReverseClassTypeMap : Ty -> option nat;
  mergeClasses : nat -> nat -> nat;
  SystemObject : nat;
  class_type : nat -> option Ty;
  isLayoutIdentical : Z -> Z -> bool;
  PlaceholderType : Z
}.

Import GenIR.

Section Merge.

Context {CI : ClassInfo}.

Definition TheNativeIntTy : Ty := IntegerTy TargetPointerSizeInBits.

Definition mergeGcPointers (Ty1 Ty2 : Ty) : option Ty :=
  class_type
    (match ReverseClassTypeMap Ty1, ReverseClassTypeMap Ty2 with
     | Some Class1, Some Class2 => mergeClasses Class1 Class2
     | _, _ => SystemObject
     end).

(** [None]: an assertion fails, or the element type of a type that is not a
    pointer is taken. *)
Definition getStackMergeType (Ty1 Ty2 : Ty) (IsStruct1 IsStruct2 : bool) : option Ty :=
  let same a b := bool_decide (a = b) in
  let Int32Ty := IntegerTy 32 in
  if same Ty1 Ty2 then Some Ty1
  else if negb (eqb IsStruct1 IsStruct2) then None
  else if same Ty1 TheNativeIntTy && same Ty2 Int32Ty || same Ty2 TheNativeIntTy && same Ty1 Int32Ty then Some Ty1
  else if same Ty1 FloatTy && same Ty2 DoubleTy || same Ty2 FloatTy && same Ty1 DoubleTy then Some DoubleTy
  else if isUnmanagedPointer Ty1 && same Ty2 TheNativeIntTy || isUnmanagedPointer Ty2 && same Ty1 TheNativeIntTy
  then Some TheNativeIntTy
  else if isGcPointer Ty1 && isGcPointer Ty2 then mergeGcPointers Ty1 Ty2
  else
    let layout :=
      if IsStruct1 && IsStruct2 then
        match Ty1, Ty2 with
        | PointerTy (StructTy s1) _, PointerTy (StructTy s2) _ => Some (isLayoutIdentical s1 s2)
        | _, _ => None
        end
      else Some false in
    match layout with
    | None => None
    | Some true => Some Ty1
    | Some false =>
        match Ty1, Ty2 with
        | PointerTy ReferentType1 _, PointerTy ReferentType2 _ =>
            match ReferentType1, ReferentType2 with
            | FunctionTy f1, FunctionTy _ =>
                if negb (f1 =? PlaceholderType) then Some Ty1 else Some Ty2
            | _, _ => None
            end
        | _, _ => None
        end
    end.

(** ** PHI operands *)

(** The builder returns the value itself when it has the type already. *)
Definition CreateCast (Op : CastOp) (v : nat) (NewTy : Ty) (Block : nat) (s : merge_state)
    : option (merge_state * nat) :=
  T ← type_of s v;
  if bool_decide (T = NewTy) then Some (s, v) else Some (new_cell (CastInst Op NewTy v Block) s).

Definition changePHIOperandType (Operand OperandBlock : nat) (NewTy : Ty) (s : merge_state)
    : option (merge_state * nat) :=
  OperandTy ← type_of s Operand;
  if isIntegerTy NewTy then
    if isIntegerTy OperandTy then CreateCast IntCast Operand NewTy OperandBlock s
    else if isUnmanagedPointer OperandTy then CreateCast PtrToInt Operand NewTy OperandBlock s
    else None
  else if isFloatingPointTy NewTy then
    if isFloatingPointTy OperandTy then CreateCast FPCast Operand NewTy OperandBlock s else None
  else
    if isPointerTy OperandTy && (isPointerTy NewTy || isIntegerTy NewTy)
    then CreateCast PointerCast Operand NewTy OperandBlock s else None.

(** The loop over the operands of a PHI that changes its type. *)
Fixpoint change_operands (NewTy : Ty) (l : list (option nat * nat)) (s : merge_state)
    : option (merge_state * list (option nat * nat)) :=
  match l with
  | [] => Some (s, [])
  | (None, b) :: l =>
      '(s, l') ← change_operands NewTy l s; Some (s, (None, b) :: l')
  | (Some v, b) :: l =>
      '(s, v') ← changePHIOperandType v b NewTy s;
      '(s, l') ← change_operands NewTy l s;
      Some (s, (Some v', b) :: l')
  end.

Definition mutatePHI (Phi : nat) (NewPHITy : Ty) (s : merge_state) : option merge_state :=
  match cells s !! Phi with
  | Some (PHINode _ IsStruct Incoming) =>
      '(s', Incoming') ← change_operands NewPHITy Incoming
        (set_cell Phi (PHINode NewPHITy IsStruct Incoming) s);
      Some (set_cell Phi (PHINode NewPHITy IsStruct Incoming') s')
  | _ => None
  end.

(** The first undef operand of the block becomes the new one; operands of the
    block before it must be the same value. *)
Fixpoint fill_operand (NewOperand NewBlock : nat) (l : list (option nat * nat))
    : option (list (option nat * nat)) :=
  match l with
  | [] => None
  | (v, b) :: l =>
      if (b =? NewBlock)%nat then
        match v with
        | None => Some ((Some NewOperand, b) :: l)
        | Some CurrentOperand =>
            if (CurrentOperand =? NewOperand)%nat
            then cons (v, b) <$> fill_operand NewOperand NewBlock l else None
        end
      else cons (v, b) <$> fill_operand NewOperand NewBlock l
  end.

Definition adjust_types (Phi NewOperand NewBlock : nat) (s : merge_state)
    : option (merge_state * nat) :=
  PHITy ← type_of s Phi;
  NewOperandTy ← type_of s NewOperand;
  if bool_decide (PHITy = NewOperandTy) then Some (s, NewOperand)
  else
    NewPHITy ← getStackMergeType PHITy NewOperandTy (doesValueRepresentStruct s Phi)
                 (doesValueRepresentStruct s NewOperand);
    s ← (if bool_decide (NewPHITy = PHITy) then Some s else mutatePHI Phi NewPHITy s);
    if bool_decide (NewPHITy = NewOperandTy) then Some (s, NewOperand)
    else changePHIOperandType NewOperand NewBlock NewPHITy s.

Definition addPHIOperand (Phi NewOperand NewBlock : nat) (s : merge_state) : option merge_state :=
  '(s, NewOperand) ← adjust_types Phi NewOperand NewBlock s;
  match cells s !! Phi with
  | Some (PHINode T IsStruct Incoming) =>
      Incoming' ← fill_operand NewOperand NewBlock Incoming;
      Some (set_cell Phi (PHINode T IsStruct Incoming') s)
  | _ => None
  end.

(** ** [maintainOperandStack] *)

Section Maintain.

Context (g : fg) (Degenerate : nat -> bool).

Fixpoint pred_blocks (fuel : nat) (it : PredecessorEdgeIterator) : list nat :=
  match fuel with
  | O => []
  | S fuel' =>
      if isEnd it then []
      else option_list (getSource it) ++
           pred_blocks fuel' (fgEdgeIteratorMoveNextPredecessorActual g it)
  end.

(** A new PHI goes behind the PHIs of the block, with an undef operand for
    every predecessor edge. *)
Definition createPHINode (Block Like : nat) (s : merge_state) : option (merge_state * nat) :=
  T ← type_of s Like;
  let it := fgNodeGetPredecessorsActual g Block in
  let Incoming := pair None <$> pred_blocks (pred_fuel it) it in
  let '(s', Phi) := new_cell (PHINode T (doesValueRepresentStruct s Like) Incoming) s in
  Some (MergeState (cells s') (next_value s')
          (<[Block := default [] (block_phis s' !! Block) ++ [Phi]]> (block_phis s'))
          (NodeOperandStack s'), Phi).

(** The loop over the operands, with the new PHIs pushed. *)
Fixpoint create_phis (CurrentBlock SuccessorBlock : nat) (stack : list nat) (s : merge_state)
    : option (merge_state * list nat) :=
  match stack with
  | [] => Some (s, [])
  | Current :: stack =>
      '(s, Phi) ← createPHINode SuccessorBlock Current s;
      s ← addPHIOperand Phi Current CurrentBlock s;
      '(s, l) ← create_phis CurrentBlock SuccessorBlock stack s;
      Some (s, Phi :: l)
  end.

(** The loop over the operands when the PHIs exist: they are the instructions
    at the head of the block, and the PHIs left over are returned. *)
Fixpoint extend_phis (CurrentBlock : nat) (stack insts : list nat) (s : merge_state)
    : option (merge_state * list nat) :=
  match stack with
  | [] => Some (s, insts)
  | Current :: stack =>
      match insts with
      | [] => None
      | Phi :: insts =>
          s ← addPHIOperand Phi Current CurrentBlock s;
          extend_phis CurrentBlock stack insts s
      end
  end.

Definition maintain_join (CurrentBlock SuccessorBlock : nat) (stack : list nat) (s : merge_state)
    : option merge_state :=
  match fgNodeGetOperandStack s SuccessorBlock with
  | None =>
      '(s, l) ← create_phis CurrentBlock SuccessorBlock stack s;
      Some (fgNodeSetOperandStack SuccessorBlock l s)
  | Some _ =>
      '(s, rest) ← extend_phis CurrentBlock stack (default [] (block_phis s !! SuccessorBlock)) s;
      if Degenerate SuccessorBlock || bool_decide (rest = []) then Some s else None
  end.

Definition maintain_edge (CurrentBlock SuccessorBlock : nat) (stack : list nat) (s : merge_state)
    : option merge_state :=
  if negb (fgNodeHasMultiplePredsPropagatingStack g SuccessorBlock) then
    if negb (propagates g SuccessorBlock) then Some s
    else if propagates g CurrentBlock then Some (fgNodeSetOperandStack SuccessorBlock stack s)
    else if fgNodeHasNoPredsPropagatingStack g SuccessorBlock
    then Some (fgNodeSetOperandStack SuccessorBlock [] s) else None
  else maintain_join CurrentBlock SuccessorBlock stack s.

Fixpoint maintain_edges (fuel : nat) (CurrentBlock : nat) (stack : list nat)
    (it : SuccessorEdgeIterator) (s : merge_state) : option merge_state :=
  match fuel with
  | O => None
  | S fuel' =>
      if isEnd it then Some s
      else
        SuccessorBlock ← getSink it;
        s ← maintain_edge CurrentBlock SuccessorBlock stack s;
        maintain_edges fuel' CurrentBlock stack (fgEdgeIteratorMoveNextSuccessorActual g it) s
  end.

(** The operand stack itself is empty afterwards. *)
Definition maintainOperandStack (CurrentBlock : nat) (stack : list nat) (s : merge_state)
    : option merge_state :=
  match stack with
  | [] => Some s
  | _ =>
      let it := fgNodeGetSuccessorsActual g CurrentBlock in
      maintain_edges (succ_fuel it) CurrentBlock stack it s
  end.

End Maintain.

End Merge.

(** ** The edges a block is followed by *)

Definition actual_succs (g : fg) (p : nat) : list nat :=
  filter (fun b => is_eh_pad g b = false) (succs g p).

Lemma skip_nominal_fuel (g : fg) (it : SuccessorEdgeIterator) : forall n m,
  (length (succ_edges it) < n)%nat -> (length (succ_edges it) < m)%nat ->
  skip_nominal n g it = skip_nominal m g it.
Proof.
  remember (succ_edges it) as l eqn:El. symmetry in El. revert it El.
  induction l as [|[a t] l IH]; intros it El [|n] [|m] Hn Hm; simpl in Hn, Hm; try lia;
    cbn [skip_nominal]; rewrite (end_nil (edges := succ_edges) it), El; [done|].
  destruct (negb false && fgEdgeIsNominal g it); [|done].
  apply IH; [by rewrite (move_tail (edges := succ_edges) it _ l El)|lia..].
Qed.

Lemma skip_nominal_shorter (g : fg) (it : SuccessorEdgeIterator) : forall n,
  (length (succ_edges (skip_nominal n g it)) <= length (succ_edges it))%nat.
Proof.
  intros n. revert it. induction n as [|n IH]; intros it; [done|]. cbn [skip_nominal].
  rewrite (end_nil (edges := succ_edges) it). destruct (succ_edges it) as [|e l] eqn:El; cbn [negb andb];
    [by rewrite El|]. destruct (fgEdgeIsNominal g it); [|by rewrite El].
  specialize (IH (moveNext it)). rewrite (move_tail (edges := succ_edges) it _ l El) in IH.
  etransitivity; [exact IH|cbn [length]; lia].
Qed.

Lemma maintain_edges_fold {CI : ClassInfo} (g : fg) (Degenerate : nat -> bool) (p : nat)
    (stack : list nat) (it : SuccessorEdgeIterator) : forall fuel n s,
  (length (succ_edges (skip_nominal n g it)) < fuel)%nat -> (length (succ_edges it) < n)%nat ->
  maintain_edges g Degenerate fuel p stack (skip_nominal n g it) s =
  fold_opt (fun s b => maintain_edge g Degenerate p b stack s) s
    (filter (fun b => is_eh_pad g b = false) (snd <$> succ_edges it)).
Proof.
  remember (succ_edges it) as l eqn:El. symmetry in El. revert it El.
  induction l as [|[a t] l IH]; intros it El [|fuel] [|n] s Hf Hn; simpl in Hn; try lia;
    cbn [skip_nominal] in *; rewrite (end_nil (edges := succ_edges) it), El in *; cbn [negb andb] in *.
  - cbn [maintain_edges]. by rewrite (end_nil (edges := succ_edges) it), El.
  - pose proof (move_tail (edges := succ_edges) it _ l El) as Hmv.
    unfold fgEdgeIsNominal in *. rewrite (sink_head (edges := succ_edges) it a t l El) in *.
    rewrite fmap_cons, filter_cons. simpl snd. destruct (is_eh_pad g t) eqn:Eh.
    + rewrite decide_False by done. apply IH; [done|lia..].
    + rewrite decide_True by done. cbn [maintain_edges fold_opt].
      rewrite (end_nil (edges := succ_edges) it), El, (sink_head (edges := succ_edges) it a t l El).
      cbn [mbind option_bind]. destruct (maintain_edge _ _ _ _ _ _) as [s'|]; [|done].
      cbn [mbind option_bind]. rewrite El in Hf. simpl in Hf.
      apply IH; [done| |].
      * pose proof (skip_nominal_shorter g (moveNext it) (succ_fuel it)) as Hsk. rewrite Hmv in Hsk. lia.
      * pose proof (succ_fuel_enough it) as Hsf. rewrite El in Hsf. simpl in Hsf. lia.
Qed.

Lemma maintainOperandStack_fold {CI : ClassInfo} (g : fg) (Degenerate : nat -> bool) (p : nat)
    (stack : list nat) (s : merge_state) :
  stack <> [] ->
  maintainOperandStack g Degenerate p stack s =
  fold_opt (fun s b => maintain_edge g Degenerate p b stack s) s (actual_succs g p).
Proof.
  intros Hs. unfold maintainOperandStack. destruct stack as [|v stack]; [done|].
  apply maintain_edges_fold; apply succ_fuel_enough.
Qed.

(** ** Filling the operands of one block *)

(** The first [k] operands of block [p] hold [v]. *)
Fixpoint occ_fill (k v p : nat) (l : list (option nat * nat)) : list (option nat * nat) :=
  match l with
  | [] => []
  | (o, b) :: l =>
      if (b =? p)%nat then
        match k with
        | O => (o, b) :: occ_fill O v p l
        | S k => (Some v, b) :: occ_fill k v p l
        end
      else (o, b) :: occ_fill k v p l
  end.

Definition occurrences (p : nat) (l : list nat) : nat := length (filter (fun b => b = p) l).

Lemma occ_fill_0 (v p : nat) (l : list (option nat * nat)) : occ_fill 0 v p l = l.
Proof. induction l as [|[o b] l IH]; [done|]. simpl. rewrite IH. by destruct (b =? p)%nat. Qed.

Definition undef_at (p : nat) (l : list (option nat * nat)) : Prop :=
  Forall (fun e => e.2 = p -> e.1 = None) l.

Lemma fill_operand_spec (v p : nat) (l : list (option nat * nat)) : forall k,
  undef_at p l -> (k < occurrences p (snd <$> l))%nat ->
  fill_operand v p (occ_fill k v p l) = Some (occ_fill (S k) v p l).
Proof.
  induction l as [|[o b] l IH]; intros k Hu Hk; [unfold occurrences in Hk; simpl in Hk; lia|].
  apply Forall_cons in Hu as [Ho Hu]. simpl in Ho. unfold occurrences in *. rewrite fmap_cons, filter_cons in Hk.
  simpl snd in Hk. cbn [occ_fill]. destruct (Nat.eqb_spec b p) as [->|Hb].
  - rewrite decide_True in Hk by done. simpl in Hk. rewrite Ho by done. destruct k as [|k].
    + cbn [fill_operand]. by rewrite Nat.eqb_refl.
    + cbn [fill_operand]. rewrite !Nat.eqb_refl, IH by (done || lia). done.
  - rewrite decide_False in Hk by done. cbn [fill_operand].
    destruct (Nat.eqb_spec b p); [done|]. by rewrite IH.
Qed.

Lemma occ_fill_all (v p : nat) (l : list (option nat * nat)) : forall k,
  (occurrences p (snd <$> l) <= k)%nat ->
  occ_fill k v p l = (fun e => if (e.2 =? p)%nat then (Some v, e.2) else e) <$> l.
Proof.
  induction l as [|[o b] l IH]; intros k Hk; [done|]. unfold occurrences in *. rewrite fmap_cons, filter_cons in Hk.
  cbn [occ_fill]. rewrite fmap_cons. simpl snd in *. destruct (Nat.eqb_spec b p) as [->|Hb].
  - rewrite decide_True in Hk by done. simpl in Hk. destruct k as [|k]; [lia|]. by rewrite IH by lia.
  - rewrite decide_False in Hk by done. by rewrite IH by lia.
Qed.

(** ** Adding an operand of the same type *)

Definition slot : Type := Ty * bool.

Definition typed (s : merge_state) (v : nat) (t : slot) : Prop :=
  (v < next_value s)%nat /\ type_of s v = Some t.1 /\ doesValueRepresentStruct s v = t.2.

Lemma addPHIOperand_same {CI : ClassInfo} (Phi v p : nat) (t : slot) Inc Inc' (s : merge_state) :
  cells s !! Phi = Some (PHINode t.1 t.2 Inc) -> typed s v t ->
  fill_operand v p Inc = Some Inc' ->
  addPHIOperand Phi v p s = Some (set_cell Phi (PHINode t.1 t.2 Inc') s).
Proof.
  intros Hphi (_ & Hv & _) Hf. unfold addPHIOperand, adjust_types.
  rewrite Hv. unfold type_of at 1. rewrite Hphi. cbn [fmap option_fmap option_map mbind option_bind cell_type].
  rewrite bool_decide_true by done. cbn [mbind option_bind]. rewrite Hphi, Hf. done.
Qed.

Lemma typed_set_phi (Phi u : nat) (t t' : slot) Inc Inc' (s : merge_state) :
  cells s !! Phi = Some (PHINode t.1 t.2 Inc) -> typed s u t' ->
  typed (set_cell Phi (PHINode t.1 t.2 Inc') s) u t'.
Proof.
  intros Hphi (Hlt & Hty & Hst). unfold typed, type_of, doesValueRepresentStruct in *. simpl.
  destruct (decide (Phi = u)) as [->|Hne].
  - rewrite lookup_insert_eq. rewrite Hphi in Hty, Hst. done.
  - by rewrite lookup_insert_ne.
Qed.

(** One PHI and what is added to it. *)
Record item := Item { it_phi : nat; it_val : nat; it_ty : slot;
                      it_inc : list (option nat * nat); it_inc' : list (option nat * nat) }.

Definition item_ok (p : nat) (s : merge_state) (i : item) : Prop :=
  cells s !! it_phi i = Some (PHINode (it_ty i).1 (it_ty i).2 (it_inc i)) /\
  typed s (it_val i) (it_ty i) /\ fill_operand (it_val i) p (it_inc i) = Some (it_inc' i).

Definition item_done (s : merge_state) (i : item) : Prop :=
  cells s !! it_phi i = Some (PHINode (it_ty i).1 (it_ty i).2 (it_inc' i)).

(** What a call may change besides the PHIs [changed]. *)
Record preserves (changed : list nat) (s s' : merge_state) : Prop := {
  pr_cells u : (u < next_value s)%nat -> u ∉ changed -> cells s' !! u = cells s !! u;
  pr_typed u t : typed s u t -> typed s' u t;
  pr_next : (next_value s <= next_value s')%nat;
  pr_heap : (forall v, is_Some (cells s !! v) -> (v < next_value s)%nat) ->
            forall v, is_Some (cells s' !! v) -> (v < next_value s')%nat
}.

Lemma preserves_refl (c : list nat) (s : merge_state) : preserves c s s.
Proof. by split. Qed.

Lemma preserves_stack (b : nat) (l : list nat) (s : merge_state) :
  preserves [] s (fgNodeSetOperandStack b l s).
Proof. split; [done|intros u t H; exact H|done|intros H; exact H]. Qed.

Lemma preserves_trans (c c' : list nat) (s1 s2 s3 : merge_state) :
  preserves c s1 s2 -> preserves c' s2 s3 -> preserves (c ++ c') s1 s3.
Proof.
  intros [H1 H2 H3 H7] [H4 H5 H6 H8]. split; [|by eauto|lia|by eauto].
  intros u Hu Hn. apply not_elem_of_app in Hn as [? ?]. rewrite H4, H1 by (done || lia). done.
Qed.

Lemma preserves_set_phi (Phi : nat) (t : slot) Inc Inc' (s : merge_state) :
  cells s !! Phi = Some (PHINode t.1 t.2 Inc) ->
  preserves [Phi] s (set_cell Phi (PHINode t.1 t.2 Inc') s).
Proof.
  intros Hphi. split; [|intros; by eapply typed_set_phi|done|].
  2:{ intros Hwf v. simpl. rewrite lookup_insert_is_Some'. intros [<-|?]; [apply Hwf; by rewrite Hphi|by apply Hwf]. }
  intros u _ Hu. simpl. rewrite lookup_insert_ne; [done|]. intros ->. apply Hu. set_solver.
Qed.

Lemma item_ok_preserved (p : nat) (c : list nat) (s s' : merge_state) (i : item) :
  preserves c s s' -> (it_phi i < next_value s)%nat -> it_phi i ∉ c ->
  item_ok p s i -> item_ok p s' i.
Proof.
  intros [Hc Ht _ _] Hlt Hn (H1 & H2 & H3). split; [by rewrite Hc|]. split; [by apply Ht|done].
Qed.

Lemma extend_phis_spec {CI : ClassInfo} (p : nat) (items : list item) : forall s,
  (forall v, is_Some (cells s !! v) -> (v < next_value s)%nat) ->
  NoDup (it_phi <$> items) -> Forall (item_ok p s) items ->
  exists s', extend_phis p (it_val <$> items) (it_phi <$> items) s = Some (s', []) /\
    preserves (it_phi <$> items) s s' /\ Forall (item_done s') items /\
    next_value s' = next_value s /\ block_phis s' = block_phis s /\
    NodeOperandStack s' = NodeOperandStack s.
Proof.
  induction items as [|i items IH]; intros s Hwf Hnd Hok; [by exists s|].
  apply Forall_cons in Hok as [(Hphi & Hv & Hf) Hok]. rewrite fmap_cons in Hnd.
  apply NoDup_cons in Hnd as [Hni Hnd]. rewrite !fmap_cons. cbn [extend_phis].
  rewrite (addPHIOperand_same _ _ _ _ _ _ _ Hphi Hv Hf). cbn [mbind option_bind].
  set (s1 := set_cell _ _ s). pose proof (preserves_set_phi _ _ _ (it_inc' i) _ Hphi) as Hp1.
  destruct (IH s1) as (s' & -> & Hp & Hd & Hn & Hb & Hs); [| done | |].
  { intros v. simpl. rewrite lookup_insert_is_Some'. intros [<-|?]; [|by apply Hwf]. apply Hwf. by rewrite Hphi. }
  { rewrite Forall_forall in *. intros j Hj. eapply item_ok_preserved; [exact Hp1| |..|by apply Hok].
    - destruct (Hok j Hj) as (Hj1 & _). apply Hwf. by rewrite Hj1.
    - intros Hin%list_elem_of_singleton. apply Hni. rewrite <- Hin. by apply list_elem_of_fmap_2. }
  exists s'. split; [done|]. split; [by eapply (preserves_trans [it_phi i])|]. split; [|done].
  constructor; [|done]. unfold item_done. rewrite (pr_cells _ _ _ Hp); [|apply Hwf; by rewrite Hphi|done].
  simpl. by rewrite lookup_insert_eq.
Qed.

(** ** Creating the PHIs of a join *)

Lemma pred_blocks_spec (g : fg) (n : nat) : 
  pred_blocks g (pred_fuel (fgNodeGetPredecessorsActual g n)) (fgNodeGetPredecessorsActual g n)
  = actual_preds g n.
Proof.
  rewrite preds_actual. unfold pred_fuel. cbn [PredIterator].
  destruct (is_eh_pad g n) eqn:He.
  { unfold actual_preds. by rewrite He. }
  assert (H : forall ps fuel, (length ps < fuel)%nat -> pred_blocks g fuel (PredIt n ps) = ps); [|apply H; lia].
  induction ps as [|q ps IH]; intros [|fuel] Hf; simpl in Hf; try lia; [done|].
  cbn [pred_blocks isEnd PredecessorEdgeIteratorImpl PredIterator getSource head option_list].
  rewrite move_next_actual by done. rewrite IH by lia. done.
Qed.

Definition undef_operands (g : fg) (b : nat) : list (option nat * nat) :=
  pair None <$> actual_preds g b.

Definition set_phis (b : nat) (l : list nat) (s : merge_state) : merge_state :=
  MergeState (cells s) (next_value s) (<[b := l]> (block_phis s)) (NodeOperandStack s).

Lemma undef_operands_fill (g : fg) (p b v : nat) :
  (0 < occurrences p (actual_preds g b))%nat ->
  fill_operand v p (undef_operands g b) = Some (occ_fill 1 v p (undef_operands g b)).
Proof.
  intros Hocc. rewrite <- (occ_fill_0 v p (undef_operands g b)) at 1. apply fill_operand_spec.
  - unfold undef_at, undef_operands. by apply Forall_fmap, Forall_forall.
  - unfold undef_operands. rewrite <- list_fmap_compose. simpl. by rewrite list_fmap_id.
Qed.

(** A new PHI with its first operand. *)
Lemma create_phi_step {CI : ClassInfo} (g : fg) (p b v : nat) (t : slot) (s : merge_state) :
  (forall v, is_Some (cells s !! v) -> (v < next_value s)%nat) ->
  (0 < occurrences p (actual_preds g b))%nat -> typed s v t ->
  exists s1 s2, createPHINode g b v s = Some (s1, next_value s) /\
    addPHIOperand (next_value s) v p s1 = Some s2 /\
    preserves [] s s2 /\ next_value s2 = S (next_value s) /\
    cells s2 !! next_value s = Some (PHINode t.1 t.2 (occ_fill 1 v p (undef_operands g b))) /\
    block_phis s2 = <[b := default [] (block_phis s !! b) ++ [next_value s]]> (block_phis s) /\
    NodeOperandStack s2 = NodeOperandStack s.
Proof.
  intros Hwf Hocc Hv. pose proof Hv as (Hlt & Htv & Hst).
  set (n := next_value s).
  set (s1 := MergeState (<[n := PHINode t.1 t.2 (undef_operands g b)]> (cells s)) (S n)
               (<[b := default [] (block_phis s !! b) ++ [n]]> (block_phis s)) (NodeOperandStack s)).
  assert (Hp1 : preserves [] s s1).
  { split; [|intros u t' (H1 & H2 & H3)|simpl; lia|].
    - intros u Hu _. simpl. rewrite lookup_insert_ne; [done|]. subst n. lia.
    - split; [simpl; lia|]. unfold type_of, doesValueRepresentStruct. simpl.
      by rewrite lookup_insert_ne by (subst n; lia).
    - intros _ u. simpl. rewrite lookup_insert_is_Some'. intros [<-|Hu]; [lia|]. apply Hwf in Hu. subst n. lia. }
  assert (Hphi : cells s1 !! n = Some (PHINode t.1 t.2 (undef_operands g b))) by (simpl; apply lookup_insert_eq).
  exists s1, (set_cell n (PHINode t.1 t.2 (occ_fill 1 v p (undef_operands g b))) s1).
  split; [unfold createPHINode; rewrite pred_blocks_spec, Htv; cbn [mbind option_bind]; by rewrite Hst|].
  split; [apply (addPHIOperand_same _ _ _ _ _ _ _ Hphi (pr_typed _ _ _ Hp1 _ _ Hv)), undef_operands_fill, Hocc|].
  split; [|split; [done|]; split; [simpl; by rewrite lookup_insert_eq|done]].
  pose proof (preserves_trans _ _ _ _ _ Hp1 (preserves_set_phi _ _ _ (occ_fill 1 v p (undef_operands g b)) _ Hphi))
    as [_ H2 H3 H4].
  split; [|done..]. intros u Hu _. simpl. rewrite !lookup_insert_ne by (subst n; lia). done.
Qed.

Lemma create_phis_spec {CI : ClassInfo} (g : fg) (p b : nat) (items : list (nat * slot)) : forall s,
  (forall v, is_Some (cells s !! v) -> (v < next_value s)%nat) ->
  (0 < occurrences p (actual_preds g b))%nat ->
  Forall (fun i => typed s i.1 i.2) items ->
  exists s' l, create_phis g p b items.*1 s = Some (s', l) /\
    preserves [] s s' /\ length l = length items /\ NoDup l /\
    (forall phi, phi ∈ l -> (next_value s <= phi < next_value s')%nat) /\
    (forall i phi v t, l !! i = Some phi -> items !! i = Some (v, t) ->
      cells s' !! phi = Some (PHINode t.1 t.2 (occ_fill 1 v p (undef_operands g b)))) /\
    block_phis s' = (if items is [] then block_phis s
                     else <[b := default [] (block_phis s !! b) ++ l]> (block_phis s)) /\
    NodeOperandStack s' = NodeOperandStack s.
Proof.
  induction items as [|[v t] items IH]; intros s Hwf Hocc Hty.
  { exists s, []. split; [done|]. split; [apply preserves_refl|]. split; [done|]. split; [constructor|].
    split; [set_solver|]. done. }
  apply Forall_cons in Hty as [Hv Hty]. rewrite fmap_cons. cbn [fst create_phis].
  destruct (create_phi_step g p b v t s Hwf Hocc Hv) as (s1 & s2 & -> & Hadd & Hp2 & Hn2 & Hc2 & Hb2 & Hs2).
  cbn [mbind option_bind]. rewrite Hadd. cbn [mbind option_bind].
  destruct (IH s2) as (s' & l & -> & Hp & Hlen & Hnd & Hrange & Hcell & Hbp & Hns); [|done| |].
  { by apply (pr_heap _ _ _ Hp2). }
  { eapply Forall_impl; [exact Hty|]. intros [u tu] Hu. by apply (pr_typed _ _ _ Hp2). }
  cbn [mbind option_bind]. exists s', (next_value s :: l). split; [done|].
  pose proof (pr_next _ _ _ Hp) as Hnx.
  split; [by apply (preserves_trans _ _ _ _ _ Hp2 Hp)|]. split; [simpl; lia|].
  split; [constructor; [intros Hin%Hrange; lia|done]|].
  split; [intros phi [->|Hin%Hrange]%elem_of_cons; lia|].
  split.
  { intros [|i] phi w tw; simpl; [intros [= <-] [= <- <-]|apply Hcell].
    rewrite (pr_cells _ _ _ Hp) by (lia || set_solver). exact Hc2. }
  split; [|by rewrite Hns].
  rewrite Hbp, Hb2. destruct items; destruct l; try discriminate Hlen; [done|].
  rewrite lookup_insert_eq, insert_insert_eq. simpl. by rewrite <- app_assoc.
Qed.

(** ** The joins of a function *)

Section Joins.

Context {CI : ClassInfo} (g : fg) (Degenerate : nat -> bool).

(** The types of the operands each block is entered with. *)
Context (sig : nat -> list slot).

Definition join (b : nat) : Prop := fgNodeHasMultiplePredsPropagatingStack g b = true.

(** Operand [i] of block [b], as far as the predecessors have been read: the
    operands that [out] gives for them. *)
Definition operand_table (out : gmap nat (list nat)) (b i : nat) : list (option nat * nat) :=
  (fun q => (stack ← out !! q; stack !! i, q)) <$> actual_preds g b.

Definition phi_at (s : merge_state) (b i phi : nat) : Prop :=
  join b /\ exists phis, NodeOperandStack s !! b = Some phis /\ phis !! i = Some phi.

(** The state while block [p] hands over [stack] and has reached block [b]
    [k b] times; [fun _ => 0] between the blocks. *)
Record join_inv (out : gmap nat (list nat)) (p : nat) (stack : list nat) (k : nat -> nat)
    (s : merge_state) : Prop := {
  ji_heap v : is_Some (cells s !! v) -> (v < next_value s)%nat;
  ji_none b : join b -> NodeOperandStack s !! b = None ->
    block_phis s !! b = None /\ k b = 0%nat /\ forall q, q ∈ actual_preds g b -> out !! q = None;
  ji_some b phis : join b -> NodeOperandStack s !! b = Some phis ->
    block_phis s !! b = Some phis /\ length phis = length (sig b);
  ji_phi b i phi t : phi_at s b i phi -> sig b !! i = Some t ->
    cells s !! phi =
      Some (PHINode t.1 t.2 (occ_fill (k b) (default 0%nat (stack !! i)) p (operand_table out b i)));
  ji_inj b c i j phi : phi_at s b i phi -> phi_at s c j phi -> b = c /\ i = j
}.

Lemma operand_table_blocks out b i : snd <$> operand_table out b i = actual_preds g b.
Proof. unfold operand_table. rewrite <- list_fmap_compose. apply list_fmap_id. Qed.

Lemma operand_table_undef out b i p : out !! p = None -> undef_at p (operand_table out b i).
Proof. intros Ho. apply Forall_fmap, Forall_forall. intros q _ Hq. simpl in *. subst q. by rewrite Ho. Qed.

Definition bump (k : nat -> nat) (b : nat) : nat -> nat := fun c => if decide (c = b) then S (k c) else k c.

Lemma phi_at_set (s s' : merge_state) (b c i phi : nat) (phis : list nat) :
  NodeOperandStack s' = <[c := phis]> (NodeOperandStack s) -> b <> c ->
  phi_at s' b i phi <-> phi_at s b i phi.
Proof. intros Hs Hbc. unfold phi_at. rewrite Hs. by setoid_rewrite lookup_insert_ne; [|congruence]. Qed.

(** A block that is no join. *)
Lemma maintain_edge_single (out : gmap nat (list nat)) (p b : nat) (stack : list nat) k (s : merge_state) :
  ~ join b -> propagates g p = true -> propagates g b = true ->
  join_inv out p stack k s ->
  exists s', maintain_edge g Degenerate p b stack s = Some s' /\ join_inv out p stack (bump k b) s' /\
    preserves [] s s' /\ NodeOperandStack s' = <[b := stack]> (NodeOperandStack s).
Proof.
  intros Hb Hp Hpb [H1 H2 H3 H4 H5]. unfold join in Hb. unfold maintain_edge.
  destruct (fgNodeHasMultiplePredsPropagatingStack g b) eqn:Hm; [done|]. rewrite Hpb, Hp.
  simpl negb. cbv iota. eexists. split; [done|].
  assert (Hne : forall c, join c -> c <> b) by (intros c Hc ->; unfold join in Hc; congruence).
  assert (Hat : forall c i phi, phi_at (fgNodeSetOperandStack b stack s) c i phi -> phi_at s c i phi).
  { intros c i phi Hc. apply (phi_at_set s _ c b i phi stack) in Hc as Hc'; [exact Hc'|done|apply Hne, Hc]. }
  split; [|split; [apply preserves_stack|done]].
  split; [done| | | |by eauto].
  - intros c Hc. simpl. rewrite lookup_insert_ne by (symmetry; by apply Hne). unfold bump.
    rewrite decide_False by (by apply Hne). exact (H2 c Hc).
  - intros c phis Hc. simpl. rewrite lookup_insert_ne by (symmetry; by apply Hne). exact (H3 c phis Hc).
  - intros c i phi t Hc Ht. unfold bump. rewrite decide_False by (apply Hne, Hc). apply (H4 c); [by apply Hat|done].
Qed.

Lemma phi_at_in_heap out p stack k s b i phi :
  join_inv out p stack k s -> phi_at s b i phi -> (phi < next_value s)%nat.
Proof.
  intros HI Hphi. pose proof Hphi as (Hb & phis & Hs & Hi).
  destruct (ji_some _ _ _ _ _ HI b phis Hb Hs) as [_ Hlen].
  destruct (lookup_lt_is_Some_2 (sig b) i) as [t Ht]; [rewrite <- Hlen; by eapply lookup_lt_Some|].
  apply (ji_heap _ _ _ _ _ HI). rewrite (ji_phi _ _ _ _ _ HI b i phi t Hphi Ht). by eexists.
Qed.

(** What a step of one join keeps of the others. *)
Lemma join_inv_step out p stack k (b : nat) (phis : list nat) (s s' : merge_state) :
  join_inv out p stack k s -> join b ->
  (forall v, is_Some (cells s' !! v) -> (v < next_value s')%nat) ->
  preserves phis s s' ->
  NodeOperandStack s' = <[b := phis]> (NodeOperandStack s) ->
  (forall c, c <> b -> block_phis s' !! c = block_phis s !! c) ->
  block_phis s' !! b = Some phis -> length phis = length (sig b) -> NoDup phis ->
  (forall i phi, phis !! i = Some phi -> (next_value s <= phi)%nat \/ phi_at s b i phi) ->
  (forall i phi t, phis !! i = Some phi -> sig b !! i = Some t ->
    cells s' !! phi = Some (PHINode t.1 t.2
      (occ_fill (S (k b)) (default 0%nat (stack !! i)) p (operand_table out b i)))) ->
  join_inv out p stack (bump k b) s'.
Proof.
  intros HI Hb Hheap Hpres Hstk Hbp Hbpb Hlen Hnd Hold Hcells.
  assert (Hother : forall c i phi, c <> b -> phi_at s' c i phi -> phi_at s c i phi).
  { intros c i phi Hc. by apply (phi_at_set s s' c b i phi phis). }
  assert (Hthis : forall i phi, phi_at s' b i phi -> phis !! i = Some phi).
  { intros i phi (_ & l & Hl & Hi). rewrite Hstk, lookup_insert_eq in Hl. by injection Hl as ->. }
  assert (Hdisj : forall c i j phi, c <> b -> phi_at s c i phi -> phis !! j = Some phi -> False).
  { intros c i j phi Hc Hphi Hj. pose proof (phi_at_in_heap _ _ _ _ _ _ _ _ HI Hphi).
    destruct (Hold j phi Hj) as [?|Hj']; [lia|]. by destruct (ji_inj _ _ _ _ _ HI _ _ _ _ _ Hphi Hj'). }
  split.
  - exact Hheap.
  - intros c Hc Hn. rewrite Hstk in Hn. destruct (decide (c = b)) as [->|Hne].
    { by rewrite lookup_insert_eq in Hn. }
    rewrite lookup_insert_ne in Hn by done. unfold bump. rewrite decide_False, Hbp by done.
    by apply (ji_none _ _ _ _ _ HI).
  - intros c l Hc Hl. rewrite Hstk in Hl. destruct (decide (c = b)) as [->|Hne].
    { rewrite lookup_insert_eq in Hl. by injection Hl as <-. }
    rewrite lookup_insert_ne in Hl by done. rewrite Hbp by done. by apply (ji_some _ _ _ _ _ HI).
  - intros c i phi t Hphi Ht. unfold bump. destruct (decide (c = b)) as [->|Hne].
    { apply Hcells; [by apply Hthis|done]. }
    apply Hother in Hphi; [|done]. rewrite (pr_cells _ _ _ Hpres).
    + by apply (ji_phi _ _ _ _ _ HI).
    + by eapply phi_at_in_heap.
    + intros [j Hj]%list_elem_of_lookup_1. by eapply Hdisj.
  - intros c d i j phi Hc Hd. destruct (decide (c = b)) as [->|Hcb], (decide (d = b)) as [->|Hdb].
    + split; [done|]. eapply NoDup_lookup; [done|by apply Hthis..].
    + exfalso. by eapply (Hdisj d); [|apply Hother|apply Hthis].
    + exfalso. by eapply (Hdisj c); [|apply Hother|apply Hthis].
    + apply (ji_inj _ _ _ _ _ HI _ _ _ _ phi); by apply Hother.
Qed.

(** The PHIs and the operands of an existing join, slot by slot. *)
Definition join_items (out : gmap nat (list nat)) (p : nat) (k b : nat)
    (phis stack : list nat) : list item :=
  imap (fun i '(phi, (v, t)) =>
          Item phi v t (occ_fill k v p (operand_table out b i)) (occ_fill (S k) v p (operand_table out b i)))
    (zip phis (zip stack (sig b))).

Lemma join_items_lookup out p k b phis stack i it :
  join_items out p k b phis stack !! i = Some it ->
  phis !! i = Some (it_phi it) /\ stack !! i = Some (it_val it) /\ sig b !! i = Some (it_ty it) /\
  it_inc it = occ_fill k (it_val it) p (operand_table out b i) /\
  it_inc' it = occ_fill (S k) (it_val it) p (operand_table out b i).
Proof.
  unfold join_items. rewrite list_lookup_imap, !lookup_zip_with.
  destruct (phis !! i) as [phi|]; [|done]. destruct (stack !! i) as [v|]; [|done].
  destruct (sig b !! i) as [t|]; [|done]. simpl. by intros [= <-].
Qed.

Lemma join_items_proj out p k b phis stack :
  length phis = length (sig b) -> length stack = length (sig b) ->
  it_phi <$> join_items out p k b phis stack = phis /\
  it_val <$> join_items out p k b phis stack = stack.
Proof.
  intros H1 H2. unfold join_items. split; apply list_eq; intros i;
    rewrite list_lookup_fmap, list_lookup_imap, !lookup_zip_with;
    (destruct (decide (i < length (sig b))%nat) as [Hi|Hi];
     [destruct (lookup_lt_is_Some_2 phis i) as [phi Hp]; [lia|];
      destruct (lookup_lt_is_Some_2 stack i) as [v Hv]; [lia|];
      destruct (lookup_lt_is_Some_2 (sig b) i) as [t Ht]; [lia|]; by rewrite Hp, Hv, Ht
     |by rewrite (lookup_ge_None_2 phis), (lookup_ge_None_2 stack) by lia]).
Qed.

Lemma maintain_edge_extend out p stack k b phis (s : merge_state) :
  join b -> out !! p = None -> (k b < occurrences p (actual_preds g b))%nat ->
  Forall2 (typed s) stack (sig b) -> NodeOperandStack s !! b = Some phis ->
  join_inv out p stack k s ->
  exists s', maintain_edge g Degenerate p b stack s = Some s' /\ join_inv out p stack (bump k b) s' /\
    (forall u t, typed s u t -> typed s' u t) /\ NodeOperandStack s' = NodeOperandStack s.
Proof.
  intros Hb Hout Hk Hty Hs HI. unfold maintain_edge. rewrite Hb. simpl negb. cbv iota.
  unfold maintain_join, fgNodeGetOperandStack. rewrite Hs.
  destruct (ji_some _ _ _ _ _ HI b phis Hb Hs) as [Hbp Hlen]. rewrite Hbp. cbn [default from_option id].
  destruct (join_items_proj out p (k b) b phis stack Hlen (Forall2_length _ _ _ Hty)) as [Hphis Hstack].
  pose proof (join_items_lookup out p (k b) b phis stack) as Hlook.
  set (items := join_items out p (k b) b phis stack) in *.
  assert (Hat : forall i phi, phis !! i = Some phi -> phi_at s b i phi) by (intros; split; [done|by exists phis]).
  assert (Hnd : NoDup phis).
  { apply NoDup_alt. intros i j x Hi Hj. by eapply (ji_inj _ _ _ _ _ HI b b); apply Hat. }
  destruct (extend_phis_spec p items s) as (s' & He & Hp & Hd & Hn & Hb' & Hs').
  { apply (ji_heap _ _ _ _ _ HI). }
  { by rewrite Hphis. }
  { apply Forall_lookup. intros i it Hit. destruct (Hlook i it Hit) as (Hi1 & Hi2 & Hi3 & Hi4 & Hi5).
    split; [|split].
    - rewrite (ji_phi _ _ _ _ _ HI b i _ _ (Hat _ _ Hi1) Hi3), Hi2, Hi4. done.
    - by eapply (Forall2_lookup_lr _ _ _ i).
    - rewrite Hi4, Hi5. apply fill_operand_spec; [by apply operand_table_undef|by rewrite operand_table_blocks]. }
  rewrite Hphis, Hstack in He. rewrite He. cbn [mbind option_bind]. rewrite bool_decide_true, orb_true_r by done.
  exists s'. split; [done|]. split; [|split; [apply (pr_typed _ _ _ Hp)|done]].
  rewrite Hphis in Hp. eapply (join_inv_step out p stack k b phis s s' HI Hb); try done.
  - apply (pr_heap _ _ _ Hp), (ji_heap _ _ _ _ _ HI).
  - by rewrite Hs', insert_id.
  - by rewrite Hb'.
  - by rewrite Hb'.
  - intros i phi Hi. right. by apply Hat.
  - intros i phi t Hi Ht. rewrite Forall_lookup in Hd.
    destruct (lookup_lt_is_Some_2 items i) as [it Hit].
    { rewrite <- (length_fmap it_phi), Hphis. by eapply lookup_lt_Some. }
    destruct (Hlook i it Hit) as (Hi1 & Hi2 & Hi3 & Hi4 & Hi5). specialize (Hd i it Hit). unfold item_done in Hd.
    assert (phi = it_phi it) as -> by congruence. assert (t = it_ty it) as -> by (apply (inj Some); exact (eq_trans (eq_sym Ht) Hi3)).
    by rewrite Hi2, Hd, Hi5.
Qed.

Lemma maintain_edge_create out p stack k b (s : merge_state) :
  join b -> (0 < occurrences p (actual_preds g b))%nat -> stack <> [] ->
  Forall2 (typed s) stack (sig b) -> NodeOperandStack s !! b = None ->
  join_inv out p stack k s ->
  exists s' phis, maintain_edge g Degenerate p b stack s = Some s' /\ join_inv out p stack (bump k b) s' /\
    (forall u t, typed s u t -> typed s' u t) /\ NodeOperandStack s' = <[b := phis]> (NodeOperandStack s).
Proof.
  intros Hb Hocc Hne Hty Hs HI. unfold maintain_edge. rewrite Hb. simpl negb. cbv iota.
  unfold maintain_join, fgNodeGetOperandStack. rewrite Hs.
  destruct (ji_none _ _ _ _ _ HI b Hb Hs) as (Hbp & Hk & Hout).
  assert (Hlen : length stack = length (sig b)) by by eapply Forall2_length.
  destruct (create_phis_spec g p b (zip stack (sig b)) s) as
    (s1 & l & Hc & Hp & Hl & Hnd & Hrange & Hcells & Hbp1 & Hs1); [apply (ji_heap _ _ _ _ _ HI)|done| |].
  { apply Forall_lookup. intros i [v t] Hi. apply lookup_zip_with_Some in Hi as (x & y & [= -> ->] & Hx & Hy).
    by eapply (Forall2_lookup_lr _ _ _ i). }
  rewrite fst_zip in Hc by lia. rewrite Hc. cbn [mbind option_bind].
  rewrite length_zip_with in Hl. exists (fgNodeSetOperandStack b l s1), l. split; [done|].
  split; [|split; [intros u t Hu; by apply (pr_typed _ _ _ Hp)|by rewrite <- Hs1]].
  assert (Hbpl : block_phis s1 = <[b := l]> (block_phis s)).
  { rewrite Hbp1, Hbp. destruct stack; [done|]. destruct (sig b); [done|]. done. }
  apply (join_inv_step out p stack k b l s _ HI Hb); simpl; try done.
  - apply (pr_heap _ _ _ Hp), (ji_heap _ _ _ _ _ HI).
  - pose proof (preserves_trans _ _ _ _ _ Hp (preserves_stack b l s1)) as [H1 H2 H3 H4].
    split; [|done..]. intros u Hu _. apply H1; [done|set_solver].
  - by rewrite Hs1.
  - intros c Hcb. rewrite Hbpl. by apply lookup_insert_ne.
  - rewrite Hbpl. apply lookup_insert_eq.
  - lia.
  - intros i phi Hi. left. apply Hrange. by eapply list_elem_of_lookup_2.
  - intros i phi t Hi Ht. destruct (lookup_lt_is_Some_2 stack i) as [v Hv].
    { rewrite Hlen. by eapply lookup_lt_Some. }
    rewrite (Hcells i phi v t Hi), Hv, Hk; [|apply lookup_zip_with_Some; by exists v, t]. simpl default.
    do 3 f_equal. unfold undef_operands, operand_table. apply list_fmap_ext. intros j q Hq.
    rewrite Hout; [done|]. by eapply list_elem_of_lookup_2.
Qed.

(** ** A block's edges, seen from both ends *)

(** The nominal successor of a block is an exception pad. *)
Definition pads_ok (p : nat) : Prop :=
  forall h, NominalSucc (fgNodeGetSuccessors g p) = Some h -> is_eh_pad g h = true.

Lemma occurrences_app x l l' : occurrences x (l ++ l') = (occurrences x l + occurrences x l')%nat.
Proof. unfold occurrences. by rewrite filter_app, length_app. Qed.

Lemma occurrences_none x l : (forall y, y ∈ l -> y <> x) -> occurrences x l = 0%nat.
Proof. intros H. unfold occurrences. by rewrite filter_none. Qed.

Lemma occurrences_perm x (l l' : list nat) : l ≡ₚ l' -> occurrences x l = occurrences x l'.
Proof. intros H. unfold occurrences. by rewrite H. Qed.

Lemma occurrences_const {A} (p : nat) (l : list A) : occurrences p ((fun _ => p) <$> l) = length l.
Proof.
  induction l as [|a l IH]; [done|]. unfold occurrences in *. rewrite fmap_cons, filter_cons_True by done.
  simpl. by rewrite IH.
Qed.

Lemma preds_occurrences (p b : nat) : occurrences p (preds g b) = occurrences b (term_succs g p).
Proof.
  unfold preds, term_succs. set (f := fun e : nat * fg_node => _).
  assert (Hother : forall l : list (nat * fg_node), (forall e, e ∈ l -> e.1 <> p) -> occurrences p (l ≫= f) = 0%nat).
  { intros l Hl. apply occurrences_none. intros y ([q Nd] & Hy & Hq)%list_elem_of_bind.
    apply list_elem_of_fmap in Hy as (_ & -> & _). by apply (Hl _ Hq). }
  destruct (nodes g !! p) as [Nd|] eqn:HN.
  - rewrite <- (insert_delete_id (nodes g) p Nd HN).
    rewrite (occurrences_perm p _ (((p, Nd) :: map_to_list (delete p (nodes g))) ≫= f)).
    2:{ apply bind_Permutation, map_to_list_insert, lookup_delete_eq. }
    cbn [mbind list_bind]. rewrite occurrences_app.
    rewrite (Hother (map_to_list (delete p (nodes g)))).
    + rewrite Nat.add_0_r. apply occurrences_const.
    + intros [q Nd'] Hq%elem_of_map_to_list Heq. simpl in Heq. subst q. by rewrite lookup_delete_eq in Hq.
  - apply Hother. intros [q Nd] Hq%elem_of_map_to_list Heq. simpl in Heq. subst q. congruence.
Qed.

Lemma succs_split (p : nat) :
  succs g p = option_list (NominalSucc (fgNodeGetSuccessors g p)) ++ term_succs g p.
Proof.
  unfold succs, succ_edges. rewrite <- list_fmap_compose. apply list_fmap_id.
Qed.

Lemma edge_occurrences (p b : nat) :
  pads_ok p -> is_eh_pad g b = false ->
  occurrences b (actual_succs g p) = occurrences p (actual_preds g b).
Proof.
  intros Hp Hb. unfold actual_succs, actual_preds. rewrite Hb, preds_occurrences, succs_split.
  rewrite filter_app, occurrences_app, occurrences_none.
  - simpl. unfold occurrences. rewrite list_filter_filter. f_equal. apply list_filter_iff.
    intros x. split; [by intros []|by intros ->].
  - intros y [Hy Hin]%list_elem_of_filter. intros ->.
    unfold pads_ok in Hp. destruct (NominalSucc _) as [h|]; simpl in Hin; [|set_solver].
    apply list_elem_of_singleton in Hin as ->. by rewrite (Hp h eq_refl) in Hb.
Qed.

Lemma join_not_pad (b : nat) : join b -> is_eh_pad g b = false.
Proof.
  unfold join. rewrite (proj1 (preds_propagating_spec g b)). unfold actual_preds.
  by destruct (is_eh_pad g b).
Qed.

(** ** A block hands over its operands *)

(** The joins between two blocks: the predecessors in [out] have handed over
    their operands, which the PHIs hold for their edges; the operands of the
    other predecessors are undefined. *)
Record joins_ok (out : gmap nat (list nat)) (s : merge_state) : Prop := {
  jo_heap v : is_Some (cells s !! v) -> (v < next_value s)%nat;
  jo_none b : join b -> NodeOperandStack s !! b = None ->
    block_phis s !! b = None /\ forall q, q ∈ actual_preds g b -> out !! q = None;
  jo_some b phis : join b -> NodeOperandStack s !! b = Some phis ->
    block_phis s !! b = Some phis /\ length phis = length (sig b);
  jo_phi b i phi t : phi_at s b i phi -> sig b !! i = Some t ->
    cells s !! phi = Some (PHINode t.1 t.2 (operand_table out b i));
  jo_inj b c i j phi : phi_at s b i phi -> phi_at s c j phi -> b = c /\ i = j
}.

Lemma joins_begin out p stack (s : merge_state) :
  joins_ok out s -> join_inv out p stack (fun _ => 0%nat) s.
Proof.
  intros [H1 H2 H3 H4 H5]. split; [done| |done| |done].
  - intros b Hb Hs. by destruct (H2 b Hb Hs).
  - intros b i phi t Hphi Ht. rewrite occ_fill_0. by apply H4.
Qed.

Lemma joins_end out p stack k (s : merge_state) :
  (forall b, join b -> k b = occurrences p (actual_preds g b)) ->
  (forall b, join b -> p ∈ actual_preds g b -> length stack = length (sig b)) ->
  join_inv out p stack k s -> joins_ok (<[p := stack]> out) s.
Proof.
  intros Hk Hlen [H1 H2 H3 H4 H5]. split; [done| |done| |done].
  - intros b Hb Hs. destruct (H2 b Hb Hs) as (Hbp & Hk0 & Hout). split; [done|].
    intros q Hq. rewrite lookup_insert_ne; [by apply Hout|]. intros ->.
    rewrite (Hk b Hb) in Hk0. apply length_zero_iff_nil in Hk0.
    assert (q ∈ filter (fun b => b = q) (actual_preds g b)) as Hin by (by apply list_elem_of_filter).
    rewrite Hk0 in Hin. set_solver.
  - intros b i phi t Hphi Ht. rewrite (H4 b i phi t Hphi Ht). do 2 f_equal.
    rewrite occ_fill_all by (rewrite operand_table_blocks; rewrite Hk; [done|apply Hphi]).
    unfold operand_table. rewrite <- list_fmap_compose. apply list_fmap_ext. intros j q Hq. simpl.
    destruct (Nat.eqb_spec q p) as [->|Hne]; [|by rewrite lookup_insert_ne].
    rewrite lookup_insert_eq. simpl. f_equal.
    destruct (lookup_lt_is_Some_2 stack i) as [v ->]; [|done].
    rewrite (Hlen b); [by eapply lookup_lt_Some|apply Hphi|by eapply list_elem_of_lookup_2].
Qed.

(** One edge, of any kind. *)
Lemma maintain_edge_ok out p stack k b (s : merge_state) :
  propagates g p = true -> out !! p = None -> stack <> [] ->
  (join b -> Forall2 (typed s) stack (sig b) /\ (k b < occurrences p (actual_preds g b))%nat) ->
  join_inv out p stack k s ->
  exists s', maintain_edge g Degenerate p b stack s = Some s' /\ join_inv out p stack (bump k b) s' /\
    (forall u t, typed s u t -> typed s' u t) /\
    (forall c, ~ join c -> propagates g c = true ->
      NodeOperandStack s' !! c = if decide (c = b) then Some stack else NodeOperandStack s !! c).
Proof.
  intros Hp Hout Hne Hjoin HI. destruct (fgNodeHasMultiplePredsPropagatingStack g b) eqn:Hb.
  - destruct (Hjoin Hb) as [Hty Hk].
    assert (Hc : forall c, ~ join c -> c <> b) by (intros c Hc ->; done).
    destruct (NodeOperandStack s !! b) as [phis|] eqn:Hs.
    + destruct (maintain_edge_extend out p stack k b phis s) as (s' & ? & ? & ? & Hs'); [done..|].
      exists s'. split; [done|]. split; [done|]. split; [done|]. intros c Hnc _.
      rewrite decide_False by (by apply Hc). by rewrite Hs'.
    + destruct (maintain_edge_create out p stack k b s) as (s' & phis & ? & ? & ? & Hs'); [done|lia|done..|].
      exists s'. split; [done|]. split; [done|]. split; [done|]. intros c Hnc _.
      rewrite decide_False by (by apply Hc). rewrite Hs'. apply lookup_insert_ne. intros ->. by apply (Hc c).
  - assert (Hnb : ~ join b) by (unfold join; congruence). destruct (propagates g b) eqn:Hpb.
    + destruct (maintain_edge_single out p b stack k s) as (s' & ? & ? & Hpr & Hs'); [done..|].
      exists s'. split; [done|]. split; [done|]. split; [apply (pr_typed _ _ _ Hpr)|]. intros c _ _.
      rewrite Hs'. destruct (decide (c = b)) as [->|]; [apply lookup_insert_eq|by apply lookup_insert_ne].
    + exists s. unfold maintain_edge. rewrite Hb, Hpb. simpl. split; [done|]. split.
      * destruct HI as [H1 H2 H3 H4 H5]. split; [done| |done| |done].
        -- intros c Hc. unfold bump. rewrite decide_False by (intros ->; done). by apply H2.
        -- intros c i phi t Hphi. unfold bump. rewrite decide_False by (intros ->; by apply Hnb, Hphi). by apply H4.
      * split; [done|]. intros c _ Hpc. by rewrite decide_False by congruence.
Qed.

Lemma maintain_edges_ok out p stack (l : list nat) : forall k (s : merge_state),
  propagates g p = true -> out !! p = None -> stack <> [] ->
  (forall b, b ∈ l -> join b -> Forall2 (typed s) stack (sig b)) ->
  (forall b, join b -> (k b + occurrences b l)%nat = occurrences p (actual_preds g b)) ->
  join_inv out p stack k s ->
  exists s', fold_opt (fun s b => maintain_edge g Degenerate p b stack s) s l = Some s' /\
    (exists k', (forall b, join b -> k' b = occurrences p (actual_preds g b)) /\ join_inv out p stack k' s') /\
    (forall u t, typed s u t -> typed s' u t) /\
    (forall c, ~ join c -> propagates g c = true ->
      NodeOperandStack s' !! c = if decide (c ∈ l) then Some stack else NodeOperandStack s !! c).
Proof.
  induction l as [|b l IH]; intros k s Hp Hout Hne Hty Hk HI.
  { exists s. split; [done|]. split; [exists k; split; [|done]|]. { intros b Hb. rewrite <- Hk by done. unfold occurrences. simpl. lia. }
    split; [done|]. intros c _ _. rewrite decide_False by set_solver. done. }
  destruct (maintain_edge_ok out p stack k b s) as (s1 & He & HI1 & Ht1 & Hs1); [done..| |done|].
  { intros Hb. split; [apply Hty; [set_solver|done]|]. specialize (Hk b Hb).
    unfold occurrences at 1 in Hk. rewrite filter_cons_True in Hk by done. simpl in Hk. lia. }
  cbn [fold_opt]. rewrite He. cbn [mbind option_bind].
  destruct (IH (bump k b) s1 Hp Hout Hne) as (s' & Hf & Hk' & Ht' & Hs'); [| |done|].
  { intros c Hc Hj. eapply Forall2_impl; [apply Hty; [set_solver|done]|]. intros; by apply Ht1. }
  { intros c Hj. specialize (Hk c Hj). unfold occurrences at 1 in Hk. rewrite filter_cons in Hk. unfold bump.
    unfold occurrences at 1. destruct (decide (c = b)) as [->|Hcb].
    - rewrite decide_True in Hk by done. simpl in Hk. lia.
    - rewrite decide_False in Hk by congruence. done. }
  exists s'. split; [done|]. split; [done|]. split; [intros; by apply Ht', Ht1|].
  intros c Hj Hpc. rewrite Hs', Hs1 by done.
  destruct (decide (c ∈ l)), (decide (c = b)), (decide (c ∈ b :: l)); set_solver.
Qed.

(** C26: when a block has read its last instruction, its remaining operands
    reach every successor in order: a successor with one predecessor starts
    from them, and in a join each slot is a PHI whose operand for every edge
    from the block is the block's operand of that slot, also when several
    edges lead from the block to the join.  The operands that other blocks
    have handed over before stay, and no assertion fails, as long as the types
    of the operands agree with those the join is entered with. *)
Theorem maintainOperandStack_correct (out : gmap nat (list nat)) (p : nat) (stack : list nat)
    (s : merge_state) :
  joins_ok out s -> out !! p = None -> propagates g p = true -> pads_ok p -> stack <> [] ->
  (forall b, b ∈ actual_succs g p -> join b -> Forall2 (typed s) stack (sig b)) ->
  exists s', maintainOperandStack g Degenerate p stack s = Some s' /\
    joins_ok (<[p := stack]> out) s' /\
    (forall b, b ∈ actual_succs g p -> join b -> is_Some (NodeOperandStack s' !! b)) /\
    (forall b, b ∈ actual_succs g p -> ~ join b -> propagates g b = true ->
      NodeOperandStack s' !! b = Some stack).
Proof.
  intros Hok Hout Hp Hpads Hne Hty. rewrite maintainOperandStack_fold by done.
  assert (Hocc : forall b, join b -> occurrences b (actual_succs g p) = occurrences p (actual_preds g b)).
  { intros b Hb. by apply edge_occurrences, join_not_pad. }
  assert (Hmem : forall b, join b -> p ∈ actual_preds g b <-> b ∈ actual_succs g p).
  { intros b Hb. specialize (Hocc b Hb). split; intros Hin; apply dec_stable; intros Hn.
    - rewrite (occurrences_none b) in Hocc by (intros y Hy ->; done). symmetry in Hocc.
      apply length_zero_iff_nil in Hocc. assert (p ∈ filter (fun b => b = p) (actual_preds g b)) as Hf by
        (by apply list_elem_of_filter). rewrite Hocc in Hf. set_solver.
    - rewrite (occurrences_none p) in Hocc by (intros y Hy ->; done).
      apply length_zero_iff_nil in Hocc. assert (b ∈ filter (fun c => c = b) (actual_succs g p)) as Hf by
        (by apply list_elem_of_filter). rewrite Hocc in Hf. set_solver. }
  destruct (maintain_edges_ok out p stack (actual_succs g p) (fun _ => 0%nat) s Hp Hout Hne)
    as (s' & -> & (k' & Hk' & HI) & _ & Hs'); [done|done|by apply joins_begin|].
  exists s'. split; [done|].
  assert (Hend : joins_ok (<[p := stack]> out) s').
  { eapply joins_end; [exact Hk'| |exact HI]. intros b Hb Hin%Hmem; [|done]. eapply Forall2_length. by apply Hty. }
  split; [done|]. split.
  - intros b Hb Hj. destruct (NodeOperandStack s' !! b) eqn:Hn; [done|].
    destruct (jo_none _ _ Hend b Hj Hn) as [_ H]. specialize (H p ltac:(by apply Hmem)).
    by rewrite lookup_insert_eq in H.
  - intros b Hb Hj Hpb. rewrite Hs' by done. by rewrite decide_True.
Qed.

End Joins.

(** ** A concrete join *)

Definition demo_classes : ClassInfo := {|
  TargetPointerSizeInBits := 64;
  ReverseClassTypeMap := fun _ => None;
  mergeClasses := fun c _ => c;
  SystemObject := 0;
  class_type := fun _ => None;
  isLayoutIdentical := fun _ _ => false;
  PlaceholderType := 0
|}.

(** Two blocks that meet in a third. *)
Definition demo_diamond : fg :=
  Fg (<[0 := FgNode [2] None false 0 1 true None]>
       (<[1 := FgNode [2] None false 1 2 true None]>
         (<[2 := FgNode [] None false 2 3 true None]> ∅)))%nat [0; 1; 2]%nat.

Definition demo_sig (b : nat) : list slot := [(IntegerTy 32, false)].

Definition demo_values : merge_state := MergeState (<[0%nat := Plain (IntegerTy 32) false]> ∅) 1 ∅ ∅.

Lemma demo_joins_ok : joins_ok demo_diamond demo_sig ∅ demo_values.
Proof.
  assert (Hnone : forall b i phi, ~ phi_at demo_diamond demo_values b i phi).
  { by intros b i phi (_ & phis & Hs & _). }
  split.
  - intros v. simpl. rewrite lookup_insert_is_Some'. intros [<-|[? ?]]; [lia|done].
  - done.
  - done.
  - intros b i phi t Hphi. by destruct (Hnone b i phi).
  - intros b c i j phi Hphi. by destruct (Hnone b i phi).
Qed.

Lemma maintainOperandStack_correct_witness :
  exists s', maintainOperandStack (CI := demo_classes) demo_diamond (fun _ => false) 0 [0%nat] demo_values = Some s' /\
    joins_ok demo_diamond demo_sig (<[0 := [0]]> ∅)%nat s'.
Proof.
  destruct (maintainOperandStack_correct (CI := demo_classes) demo_diamond (fun _ => false) demo_sig ∅ 0 [0%nat] demo_values
    demo_joins_ok) as (s' & Hm & Hj & _); [reflexivity|reflexivity|done|done| |by exists s'].
  intros b _ _. repeat constructor.
Defined.
