(* ===== verification/PhiTypes.v ===== *)
(** * The types of PHI operands (lib/Reader/readerir.cpp)

    [addPHIOperand] merges the type of a PHI with that of a new operand.  The
    operands keep the type of their PHI when the PHI keeps its own, or nothing
    takes it yet; a PHI that is widened in place breaks the PHIs that take it. *)

From S2P Require Import Prelude IRBuilder GenIRTypes Worklist StackMerge.

(** ** Joins of operands of different types *)

Definition heap_ok (s : merge_state) : Prop :=
  forall v, is_Some (cells s !! v) -> (v < next_value s)%nat.

(** The operands of a PHI have its type. *)
Definition well_typed (s : merge_state) : Prop :=
  forall phi T b Inc v q,
    cells s !! phi = Some (PHINode T b Inc) -> (Some v, q) ∈ Inc -> type_of s v = Some T.

(** No PHI takes the value. *)
Definition unused (u : nat) (s : merge_state) : Prop :=
  forall phi T b Inc q, cells s !! phi = Some (PHINode T b Inc) -> (Some u, q) ∉ Inc.

(** Only casts are added. *)
Record casts_added (s s' : merge_state) : Prop := {
  ca_old u c : cells s !! u = Some c -> cells s' !! u = Some c;
  ca_phi u T b Inc : cells s' !! u = Some (PHINode T b Inc) -> cells s !! u = Some (PHINode T b Inc);
  ca_heap : heap_ok s -> heap_ok s'
}.

Lemma casts_added_refl s : casts_added s s.
Proof. by split. Qed.
Lemma casts_added_trans s1 s2 s3 : casts_added s1 s2 -> casts_added s2 s3 -> casts_added s1 s3.
Proof. intros [] []. split; eauto. Qed.

Lemma casts_added_type s s' v T : casts_added s s' -> type_of s v = Some T -> type_of s' v = Some T.
Proof.
  intros Hc. unfold type_of. destruct (cells s !! v) eqn:E; [|done]. by rewrite (ca_old _ _ Hc _ _ E).
Qed.

Lemma CreateCast_spec Op v NewTy b s s' v' :
  heap_ok s -> CreateCast Op v NewTy b s = Some (s', v') ->
  casts_added s s' /\ type_of s' v' = Some NewTy.
Proof.
  intros Hh. unfold CreateCast. destruct (type_of s v) as [T|] eqn:ET; [|done]. cbn [mbind option_bind].
  destruct (bool_decide_reflect (T = NewTy)) as [->|]; [intros [= <- <-]; by split; [apply casts_added_refl|]|].
  intros [= <- <-]. unfold type_of. simpl. rewrite lookup_insert_eq. split; [|done].
  assert (Hn : cells s !! next_value s = None).
  { destruct (cells s !! next_value s) eqn:E; [|done]. specialize (Hh (next_value s) ltac:(by eexists)). lia. }
  split; simpl.
  - intros u c Hu. rewrite lookup_insert_ne; [done|]. intros <-. congruence.
  - intros u T' b' Inc. destruct (decide (u = next_value s)) as [->|]; [by rewrite lookup_insert_eq|by rewrite lookup_insert_ne].
  - intros _ u. simpl. rewrite lookup_insert_is_Some'. intros [<-|Hu]; [lia|]. specialize (Hh u Hu). lia.
Qed.

Lemma changePHIOperandType_spec v b NewTy s s' v' :
  heap_ok s -> changePHIOperandType v b NewTy s = Some (s', v') ->
  casts_added s s' /\ type_of s' v' = Some NewTy.
Proof.
  intros Hh. unfold changePHIOperandType. destruct (type_of s v) as [T|]; [|done]. cbn [mbind option_bind].
  repeat case_match; try done; by apply CreateCast_spec.
Qed.

Lemma change_operands_spec NewTy l : forall s s' l',
  heap_ok s -> change_operands NewTy l s = Some (s', l') ->
  casts_added s s' /\ forall v q, (Some v, q) ∈ l' -> type_of s' v = Some NewTy.
Proof.
  induction l as [|[[v|] b] l IH]; intros s s' l' Hh; cbn [change_operands].
  - intros [= <- <-]. split; [apply casts_added_refl|set_solver].
  - destruct (changePHIOperandType v b NewTy s) as [[s1 v1]|] eqn:E1; [|done].
    destruct (changePHIOperandType_spec _ _ _ _ _ _ Hh E1) as [Hc1 Ht1]. cbn [mbind option_bind].
    destruct (change_operands NewTy l s1) as [[s2 l2]|] eqn:E2; [|done]. cbn [mbind option_bind].
    destruct (IH s1 s2 l2 (ca_heap _ _ Hc1 Hh) E2) as [Hc2 Ht2]. intros [= <- <-].
    split; [by eapply casts_added_trans|].
    intros u q [[= -> ->]|Hu]%elem_of_cons; [by eapply casts_added_type|by eapply Ht2].
  - destruct (change_operands NewTy l s) as [[s2 l2]|] eqn:E2; [|done]. cbn [mbind option_bind].
    destruct (IH s s2 l2 Hh E2) as [Hc2 Ht2]. intros [= <- <-]. split; [done|].
    intros u q [[= ]|Hu]%elem_of_cons. by eapply Ht2.
Qed.

(** Retyping a PHI that nothing refers to. *)
Lemma mutatePHI_spec Phi NewTy s s' T b Inc :
  heap_ok s -> well_typed s -> unused Phi s -> cells s !! Phi = Some (PHINode T b Inc) ->
  mutatePHI Phi NewTy s = Some s' ->
  heap_ok s' /\ well_typed s' /\ (exists Inc', cells s' !! Phi = Some (PHINode NewTy b Inc')) /\
  forall v T', v <> Phi -> type_of s v = Some T' -> type_of s' v = Some T'.
Proof.
  intros Hh Hw Hu Hphi. unfold mutatePHI. rewrite Hphi.
  set (s0 := set_cell Phi (PHINode NewTy b Inc) s).
  assert (Hh0 : heap_ok s0).
  { intros v. simpl. rewrite lookup_insert_is_Some'. intros [<-|?]; apply Hh; [by rewrite Hphi|done]. }
  destruct (change_operands NewTy Inc s0) as [[s1 Inc']|] eqn:E; [|done]. cbn [mbind option_bind].
  destruct (change_operands_spec _ _ _ _ _ Hh0 E) as [Hc Ht]. intros [= <-].
  assert (Hphi1 : cells s1 !! Phi = Some (PHINode NewTy b Inc)).
  { apply (ca_old _ _ Hc). simpl. apply lookup_insert_eq. }
  assert (Htype : forall v T', type_of s1 v = Some T' -> type_of (set_cell Phi (PHINode NewTy b Inc') s1) v = Some T').
  { intros v T'. unfold type_of. simpl. destruct (decide (v = Phi)) as [->|];
      [by rewrite lookup_insert_eq, Hphi1|by rewrite lookup_insert_ne]. }
  assert (Hkeep : forall v T', v <> Phi -> type_of s v = Some T' -> type_of s1 v = Some T').
  { intros v T' Hv HT. eapply casts_added_type; [exact Hc|]. unfold type_of in *. simpl.
    by rewrite lookup_insert_ne. }
  split; [|split; [|split; [|by eauto]]].
  - intros v. simpl. rewrite lookup_insert_is_Some'. intros [<-|?]; apply (ca_heap _ _ Hc Hh0); [by rewrite Hphi1|done].
  - intros phi T' b' Inc0 v q. simpl. destruct (decide (phi = Phi)) as [->|Hne].
    + rewrite lookup_insert_eq. intros [= <- <- <-] Hin. by eapply Htype, Ht.
    + rewrite lookup_insert_ne by done. intros Hp Hin. apply (ca_phi _ _ Hc) in Hp. simpl in Hp.
      rewrite lookup_insert_ne in Hp by done. apply Htype, Hkeep; [|by eapply Hw].
      intros ->. by eapply (Hu phi).
  - exists Inc'. simpl. apply lookup_insert_eq.
Qed.

Lemma fill_operand_elem v p l l' e : fill_operand v p l = Some l' -> e ∈ l' -> e ∈ l \/ e.1 = Some v.
Proof.
  revert l'. induction l as [|[o b] l IH]; intros l'; [done|]. cbn [fill_operand].
  destruct (b =? p)%nat; [destruct o as [u|]; [destruct (u =? v)%nat; [|done]|intros [= <-]]|].
  2:{ intros [->|He]%elem_of_cons; [by right|left; set_solver]. }
  all: destruct (fill_operand v p l) as [l1|]; [|done]; intros [= <-];
    (intros [->|He]%elem_of_cons; [left; set_solver|destruct (IH l1 eq_refl He); [left; set_solver|by right]]).
Qed.

Lemma casts_added_well_typed s s' : casts_added s s' -> well_typed s -> well_typed s'.
Proof.
  intros Hc Hw phi T b Inc v q Hp Hin. eapply casts_added_type; [done|].
  eapply Hw; [by eapply (ca_phi _ _ Hc)|done].
Qed.

Lemma adjust_types_spec {CI : ClassInfo} Phi v p s T b Inc T2 T' s' v' :
  heap_ok s -> well_typed s -> cells s !! Phi = Some (PHINode T b Inc) -> type_of s v = Some T2 ->
  getStackMergeType T T2 b (doesValueRepresentStruct s v) = Some T' ->
  T' = T \/ unused Phi s ->
  adjust_types Phi v p s = Some (s', v') ->
  well_typed s' /\ (exists Inc', cells s' !! Phi = Some (PHINode T' b Inc')) /\ type_of s' v' = Some T'.
Proof.
  intros Hh Hw Hphi Hv Hm Hu. unfold adjust_types. rewrite Hv. unfold type_of at 1, doesValueRepresentStruct at 1.
  rewrite Hphi. cbn [fmap option_fmap option_map mbind option_bind cell_type].
  destruct (bool_decide_reflect (T = T2)) as [->|Hne].
  { intros [= <- <-]. unfold getStackMergeType in Hm. rewrite bool_decide_true in Hm by done. simplify_eq.
    split; [done|]. split; [by eexists|done]. }
  rewrite Hm. cbn [mbind option_bind].
  assert (Hmut : forall s1, (if bool_decide (T' = T) then Some s else mutatePHI Phi T' s) = Some s1 ->
    heap_ok s1 /\ well_typed s1 /\ (exists Inc', cells s1 !! Phi = Some (PHINode T' b Inc')) /\
    type_of s1 v = Some T2).
  { intros s1. destruct (bool_decide_reflect (T' = T)) as [->|Hne2].
    - intros [= <-]. split; [done|]. split; [done|]. split; [by eexists|done].
    - destruct Hu as [?|Hu]; [done|]. intros Hmu.
      destruct (mutatePHI_spec _ _ _ _ _ _ _ Hh Hw Hu Hphi Hmu) as (? & ? & ? & Hk).
      split; [done|]. split; [done|]. split; [done|]. apply Hk; [|done].
      intros ->. unfold type_of in Hv. rewrite Hphi in Hv. simpl in Hv. congruence. }
  destruct (if bool_decide (T' = T) then Some s else mutatePHI Phi T' s) as [s1|]; [|done].
  destruct (Hmut s1 eq_refl) as (Hh1 & Hw1 & (Inc' & Hphi1) & Hv1). cbn [mbind option_bind].
  destruct (bool_decide_reflect (T' = T2)) as [->|].
  - intros [= <- <-]. split; [done|]. split; [by eexists|done].
  - intros Hch. destruct (changePHIOperandType_spec _ _ _ _ _ _ Hh1 Hch) as [Hc Ht].
    split; [by eapply casts_added_well_typed|]. split; [exists Inc'; by apply (ca_old _ _ Hc)|done].
Qed.

(** Adding an operand to a PHI keeps every PHI's operands of the PHI's
    type, casting the operands that need it, and gives the PHI the merged
    type, provided that the PHI keeps its type or no other PHI takes it yet. *)
Theorem addPHIOperand_well_typed {CI : ClassInfo} (Phi v p : nat) (s s' : merge_state) T b Inc T2 T' :
  heap_ok s -> well_typed s -> cells s !! Phi = Some (PHINode T b Inc) -> type_of s v = Some T2 ->
  getStackMergeType T T2 b (doesValueRepresentStruct s v) = Some T' ->
  T' = T \/ unused Phi s ->
  addPHIOperand Phi v p s = Some s' ->
  well_typed s' /\ type_of s' Phi = Some T'.
Proof.
  intros Hh Hw Hphi Hv Hm Hu. unfold addPHIOperand.
  destruct (adjust_types Phi v p s) as [[s1 v1]|] eqn:Ea; [|done].
  destruct (adjust_types_spec _ _ _ _ _ _ _ _ _ _ _ Hh Hw Hphi Hv Hm Hu Ea) as (Hw1 & (Inc1 & Hphi1) & Ht1).
  cbn [mbind option_bind]. rewrite Hphi1.
  destruct (fill_operand v1 p Inc1) as [Inc2|] eqn:Ef; [|done]. intros [= <-].
  assert (Htype : forall u T0, type_of s1 u = Some T0 -> type_of (set_cell Phi (PHINode T' b Inc2) s1) u = Some T0).
  { intros u T0. unfold type_of. simpl. destruct (decide (u = Phi)) as [->|];
      [by rewrite lookup_insert_eq, Hphi1|by rewrite lookup_insert_ne]. }
  split; [|unfold type_of; simpl; by rewrite lookup_insert_eq].
  intros phi T0 b0 Inc0 u q. simpl. destruct (decide (phi = Phi)) as [->|Hne].
  - rewrite lookup_insert_eq. intros [= <- <- <-] Hin. apply Htype.
    destruct (fill_operand_elem _ _ _ _ _ Ef Hin) as [Hold|[= ->]]; [by eapply Hw1|done].
  - rewrite lookup_insert_ne by done. intros Hp Hin. by eapply Htype, Hw1.
Qed.

(** ** A widened PHI that is in use *)

(** The head of a loop (block 1) and a block behind it (block 2) each have a
    PHI; the second takes the first.  Block 3 closes the loop. *)
Definition demo_merge : merge_state :=
  MergeState
    (<[0 := Plain FloatTy false]>
      (<[1 := PHINode FloatTy false [(Some 0, 0); (None, 3)]]>
        (<[2 := PHINode FloatTy false [(Some 1, 1); (None, 3)]]>
          (<[3 := Plain DoubleTy false]> ∅))))%nat
    4 ∅ ∅.

Lemma demo_heap_ok : heap_ok demo_merge.
Proof.
  intros v. simpl. rewrite !lookup_insert_is_Some'. intros [<-|[<-|[<-|[<-|[? ?]]]]]; try lia. done.
Qed.

Lemma demo_phis phi T b Inc :
  cells demo_merge !! phi = Some (PHINode T b Inc) ->
  phi = 1%nat /\ T = FloatTy /\ Inc = [(Some 0, 0); (None, 3)]%nat \/
  phi = 2%nat /\ T = FloatTy /\ Inc = [(Some 1, 1); (None, 3)]%nat.
Proof.
  intros H. assert (Hlt : (phi < 4)%nat) by (apply demo_heap_ok; by rewrite H).
  do 4 (destruct phi as [|phi]; [vm_compute in H; simplify_eq; auto|]). lia.
Qed.

Lemma demo_well_typed : well_typed demo_merge.
Proof.
  intros phi T b Inc v q [(-> & -> & ->)|(-> & -> & ->)]%demo_phis Hin; set_unfold; destruct_or!; by simplify_eq.
Qed.

Lemma demo_unused : unused 2 demo_merge.
Proof.
  intros phi T b Inc q [(-> & -> & ->)|(-> & -> & ->)]%demo_phis Hin; set_unfold; destruct_or!; by simplify_eq.
Qed.

(** A PHI that is widened while another PHI takes it leaves that PHI with
    an operand of the wrong type: when the back edge of a loop brings a double
    to a slot that the loop was entered with as a float, the PHI at the head
    becomes a double in place, and the PHI that already takes it stays a
    float. *)
Theorem addPHIOperand_breaks_users :
  heap_ok demo_merge /\ well_typed demo_merge /\
  exists s', addPHIOperand (CI := demo_classes) 1 3 3 demo_merge = Some s' /\ ~ well_typed s'.
Proof.
  split; [exact demo_heap_ok|]. split; [exact demo_well_typed|].
  eexists. split; [vm_compute; reflexivity|]. intros Hw.
  specialize (Hw 2%nat FloatTy false [(Some 1, 1); (None, 3)]%nat 1%nat 1%nat eq_refl ltac:(set_solver)).
  vm_compute in Hw. discriminate.
Qed.

Lemma addPHIOperand_well_typed_witness :
  exists s', addPHIOperand (CI := demo_classes) 2 3 3 demo_merge = Some s' /\
    well_typed s' /\ type_of s' 2 = Some DoubleTy.
Proof.
  eexists. split; [vm_compute; reflexivity|].
  apply (addPHIOperand_well_typed (CI := demo_classes) 2 3 3 demo_merge _ FloatTy false
           [(Some 1, 1); (None, 3)]%nat DoubleTy DoubleTy demo_heap_ok demo_well_typed);
    [reflexivity..|right; exact demo_unused|vm_compute; reflexivity].
Defined.

(** Two edges from one block to a join, and an operand that needs a cast: the
    operand of the first edge is the cast, and the second edge makes another. *)
Definition demo_two_edges : merge_state :=
  MergeState
    (<[0 := Plain FloatTy false]> (<[1 := PHINode DoubleTy false [(None, 5); (None, 5)]]> ∅))%nat 2 ∅ ∅.

Lemma addPHIOperand_second_edge_asserts :
  exists s', addPHIOperand (CI := demo_classes) 1 0 5 demo_two_edges = Some s' /\
    addPHIOperand (CI := demo_classes) 1 0 5 s' = None.
Proof. eexists. split; vm_compute; reflexivity. Qed.

(** The type of a slot that one predecessor enters with a native and another
    with a 32-bit integer is the first one's, so it depends on the order. *)
Lemma getStackMergeType_first_wins :
  getStackMergeType (CI := demo_classes) (IntegerTy 64) (IntegerTy 32) false false = Some (IntegerTy 64) /\
  getStackMergeType (CI := demo_classes) (IntegerTy 32) (IntegerTy 64) false false = Some (IntegerTy 32).
Proof. done. Qed.
