(* ===== verification/Signature.v ===== *)
(** * Method and call signatures (lib/Reader/reader.cpp, include/Reader/reader.h)

    The runtime signature of a method has arguments that its metadata does not
    show: the secret parameter of a stub, [this], the vararg cookie and the
    instantiation parameter.  [initMethodInfo] computes the signature of the
    method being compiled and [call_arguments] (the first half of [rdrCall])
    the one of a call together with the values passed.  The theorems show that
    the two agree: what a caller pushes for an IL argument arrives at the index
    where the callee looks that argument up. *)

From S2P Require Import Prelude GenIRTypes.
Import GenIR.

Module Signatures.

(** The calling conventions of the runtime; the ones the reader does not name
    are known by their number. *)
Inductive CorInfoCallConv : Set :=
  | CORINFO_CALLCONV_DEFAULT | CORINFO_CALLCONV_C | CORINFO_CALLCONV_STDCALL
  | CORINFO_CALLCONV_THISCALL | CORINFO_CALLCONV_FASTCALL | CORINFO_CALLCONV_VARARG
  | CORINFO_CALLCONV_UNNAMED (n : Z).

#[export] Instance CorInfoCallConv_eq_dec : EqDecision CorInfoCallConv.
Proof. solve_decision. Defined.

(** [CallArgType]; a null class handle is [None]. *)
Record CallArgType := MkCallArgType { CorType : CorInfoType; ClassHandle : option Z }.

#[export] Instance CallArgType_eq_dec : EqDecision CallArgType.
Proof. solve_decision. Defined.

(** A value-initialised [CallArgType]. *)
Definition no_type : CallArgType := MkCallArgType CORINFO_TYPE_UNDEF None.

(** The runtime's description of a signature.  [numArgs] is a 16-bit count, so
    the sums of the reader stay far below 2^32 and indices are naturals. *)
Record CORINFO_SIG_INFO := MkSigInfo {
  callConv : CorInfoCallConv; retType : CorInfoType; retTypeClass : option Z;
  sigHasThis : bool; sigIsVarArg : bool; sigHasTypeArg : bool;
  numArgs : nat; args : Z }.

Record CorInfoTypeWithMod := MkTypeWithMod { strip : CorInfoType; pinned : bool }.

(** What these functions ask the runtime; [valueClassAttrib] is the flag
    [CORINFO_FLG_VALUECLASS] of [getClassAttribs]. *)
Class ICorJitInfo := {
  getArgNext : Z -> Z;
  getArgType : CORINFO_SIG_INFO -> Z -> CorInfoTypeWithMod;
  getArgClass : CORINFO_SIG_INFO -> Z -> option Z;
  typedByRefClass : option Z;
  argumentHandleClass : option Z;
  systemObjectClass : option Z;
  valueClassAttrib : option Z -> bool;
  isValueClass : Z -> bool }.

(** [ReaderMethodSignature]. *)
Record ReaderMethodSignature := MkMethodSignature {
  HasThis : bool; CallingConvention : CorInfoCallConv; ResultType : CallArgType;
  ArgumentTypes : list CallArgType; IsVarArg : bool; HasTypeArg : bool;
  HasSecretParameter : bool }.

Definition setArgumentTypes (S : ReaderMethodSignature) (l : list CallArgType) :=
  MkMethodSignature (HasThis S) (CallingConvention S) (ResultType S) l (IsVarArg S)
    (HasTypeArg S) (HasSecretParameter S).

(** [(b ? 1 : 0)]. *)
Definition b2n (b : bool) : nat := if b then 1%nat else 0%nat.

Definition assert (b : bool) : option unit := if b then Some tt else None.

(** ** Where an argument is: the getters of [ReaderMethodSignature]; a getter
    of an argument that the method does not have asserts. *)

Section getters.
Variable Sig : ReaderMethodSignature.

Definition getSecretParameterIndex : option nat :=
  _ ← assert (HasSecretParameter Sig); Some 0%nat.

Definition getThisIndex : option nat :=
  _ ← assert (HasThis Sig); Some (b2n (HasSecretParameter Sig)).

Definition getVarArgIndex : option nat :=
  _ ← assert (IsVarArg Sig);
  Some (b2n (HasSecretParameter Sig) + b2n (HasThis Sig))%nat.

Definition getTypeArgIndex : option nat :=
  _ ← assert (HasTypeArg Sig);
  Some (b2n (HasSecretParameter Sig) + b2n (HasThis Sig) + b2n (IsVarArg Sig))%nat.

Definition getNormalParamStart : nat :=
  (b2n (HasSecretParameter Sig) + b2n (HasThis Sig) + b2n (IsVarArg Sig)
   + b2n (HasTypeArg Sig))%nat.

Definition getNormalParamEnd : nat := length (ArgumentTypes Sig).

Definition getArgIndexForILArg (Ordinal : nat) : option nat :=
  if HasThis Sig && (Ordinal =? 0)%nat then getThisIndex
  else
    let Index := (Ordinal + b2n (HasSecretParameter Sig) + b2n (IsVarArg Sig)
                  + b2n (HasTypeArg Sig))%nat in
    _ ← assert (getNormalParamStart <=? Index)%nat;
    _ ← assert (Index <? getNormalParamEnd)%nat;
    Some Index.

Definition getILArgForArgIndex (Index : nat) : option nat :=
  if HasThis Sig && bool_decide (getThisIndex = Some Index) then Some 0%nat
  else
    _ ← assert (getNormalParamStart <=? Index)%nat;
    _ ← assert (Index <? getNormalParamEnd)%nat;
    Some (Index - b2n (HasSecretParameter Sig) - b2n (IsVarArg Sig)
          - b2n (HasTypeArg Sig))%nat.

End getters.

(** An element assignment of a [std::vector]; outside it is undefined. *)
Definition store {A} (l : list A) (i : nat) (x : A) : option (list A) :=
  if (i <? length l)%nat then Some (<[i := x]> l) else None.

Section runtime.
Context {JitInfo : ICorJitInfo}.

(** The class a signature gives an argument, as both readers of argument lists
    compute it. *)
Definition arg_class (Sig : CORINFO_SIG_INFO) (ArgListHandle : Z) (TheCorType : CorInfoType) :
    option Z :=
  match TheCorType with
  | CORINFO_TYPE_CLASS | CORINFO_TYPE_VALUECLASS | CORINFO_TYPE_BYREF | CORINFO_TYPE_PTR =>
      getArgClass Sig ArgListHandle
  | CORINFO_TYPE_REFANY => typedByRefClass
  | _ => None
  end.

(** The next handle, the argument's type and whether it is pinned. *)
Definition argListNext (ArgListHandle : Z) (Sig : CORINFO_SIG_INFO) : Z * CallArgType * bool :=
  let NextArg := getArgNext ArgListHandle in
  let TheCorTypeWithMod := getArgType Sig ArgListHandle in
  let TheCorType := strip TheCorTypeWithMod in
  (NextArg, MkCallArgType TheCorType (arg_class Sig ArgListHandle TheCorType),
   pinned TheCorTypeWithMod).

(** ** The signature of the method being compiled *)

Section method.
Variable VerificationNeeded : bool.
Variable MethodArgs MethodLocals : CORINFO_SIG_INFO.
Variable CurrentMethodClass : option Z.

(** One synthesized argument: [assert(ParamIndex == Signature.get..Index());
    ArgumentTypes[ParamIndex++] = Arg]. *)
Definition synthesize (Present : bool) (Index : option nat) (Arg : CallArgType)
    (st : nat * list CallArgType) : option (nat * list CallArgType) :=
  if Present then
    _ ← assert (bool_decide (Index = Some st.1));
    l ← store st.2 st.1 Arg;
    Some (S st.1, l)
  else Some st.

(** The type of [this]: a reference to the class, or a byref to it. *)
Definition this_type : CallArgType :=
  MkCallArgType (if valueClassAttrib CurrentMethodClass then CORINFO_TYPE_BYREF else CORINFO_TYPE_CLASS)
    CurrentMethodClass.

(** The loop over the arguments of the metadata; [n] is
    [NormalParamEnd - ParamIndex]. *)
Fixpoint normal_params (Sig : ReaderMethodSignature) (n : nat) (Args : Z) (ParamIndex : nat)
    (l : list CallArgType) : option (list CallArgType) :=
  match n with
  | 0%nat => Some l
  | S n' =>
      _ ← (if VerificationNeeded then getILArgForArgIndex Sig ParamIndex else Some 0%nat);
      let '(Args', Arg, _) := argListNext Args MethodArgs in
      l' ← store l ParamIndex Arg;
      normal_params Sig n' Args' (S ParamIndex) l'
  end.

(** The signature and the number of locals.  The verifier's maps, which only its
    stubs would fill, are left out. *)
Definition initMethodInfo (HasSecretParameter : bool) : option (ReaderMethodSignature * nat) :=
  let SigInfo := MethodArgs in
  let NormalArgs := numArgs SigInfo in
  let HasThis := sigHasThis SigInfo in
  let IsVarArg := sigIsVarArg SigInfo in
  let HasTypeArg := sigHasTypeArg SigInfo in
  let NumArgs := (b2n HasSecretParameter + b2n HasThis + b2n IsVarArg + b2n HasTypeArg
                  + NormalArgs)%nat in
  let NumAutos := numArgs MethodLocals in
  let Signature :=
    MkMethodSignature HasThis (callConv SigInfo)
      (MkCallArgType (retType SigInfo) (retTypeClass SigInfo)) (replicate NumArgs no_type)
      IsVarArg HasTypeArg HasSecretParameter in
  st ← synthesize HasSecretParameter (getSecretParameterIndex Signature)
         (MkCallArgType CORINFO_TYPE_NATIVEINT None) (0%nat, ArgumentTypes Signature);
  st ← synthesize HasThis (getThisIndex Signature) this_type st;
  st ← synthesize IsVarArg (getVarArgIndex Signature)
         (MkCallArgType CORINFO_TYPE_PTR argumentHandleClass) st;
  st ← synthesize HasTypeArg (getTypeArgIndex Signature)
         (MkCallArgType CORINFO_TYPE_NATIVEINT None) st;
  _ ← assert (st.1 =? getNormalParamStart Signature)%nat;
  let NormalParamEnd := getNormalParamEnd Signature in
  l ← normal_params Signature (NormalParamEnd - st.1) (args SigInfo) st.1 st.2;
  Some (setArgumentTypes Signature l, NumAutos).

(** ** The symbols of parameters and locals *)

Inductive ReaderSpecialSymbolType : Set :=
  | Reader_NotSpecialSymbol | Reader_ThisPtr | Reader_InstParam | Reader_VarArgsToken
  | Reader_SecretParam.

(** A call of [createSym], which LLVM's side of the reader implements. *)
Record Sym := MkSym {
  symNum : nat; symIsAuto : bool; symType : CallArgType; symIsPinned : bool;
  symSpecial : ReaderSpecialSymbolType }.

Definition param_sym (Args : list CallArgType) (Special : ReaderSpecialSymbolType)
    (Index : nat) : option Sym :=
  Arg ← Args !! Index; Some (MkSym Index false Arg false Special).

Definition special_param (Args : list CallArgType) (Present : bool) (Index : option nat)
    (Special : ReaderSpecialSymbolType) : option (list Sym) :=
  if Present then I ← Index; s ← param_sym Args Special I; Some [s] else Some [].

Definition buildUpParams (Signature : ReaderMethodSignature) : option (list Sym) :=
  let Args := ArgumentTypes Signature in
  s1 ← special_param Args (HasSecretParameter Signature) (getSecretParameterIndex Signature)
         Reader_SecretParam;
  s2 ← special_param Args (HasThis Signature) (getThisIndex Signature) Reader_ThisPtr;
  s3 ← special_param Args (IsVarArg Signature) (getVarArgIndex Signature) Reader_VarArgsToken;
  s4 ← special_param Args (HasTypeArg Signature) (getTypeArgIndex Signature) Reader_InstParam;
  let Start := getNormalParamStart Signature in
  s5 ← mapM (param_sym Args Reader_NotSpecialSymbol)
         (seq Start (getNormalParamEnd Signature - Start));
  Some (s1 ++ s2 ++ s3 ++ s4 ++ s5).

Fixpoint build_autos (n I : nat) (Locs : Z) : list Sym :=
  match n with
  | 0%nat => []
  | S n' =>
      let '(Locs', Arg, IsPinned) := argListNext Locs MethodLocals in
      MkSym I true Arg IsPinned Reader_NotSpecialSymbol :: build_autos n' (S I) Locs'
  end.

Definition buildUpAutos : list Sym := build_autos (numArgs MethodLocals) 0 (args MethodLocals).

Definition initParamsAndAutos (Signature : ReaderMethodSignature) : option (list Sym) :=
  Params ← buildUpParams Signature; Some (Params ++ buildUpAutos).

End method.

(** ** The signature of a call and the values it passes *)

Section call.
Context {IRNode : Type}.

(** What [rdrCall] reads of its [ReaderCallTargetData].  [LdVirtFtn] says that
    the target is found by a runtime helper ([CORINFO_VIRTUALCALL_LDVIRTFTN]),
    [TypeContextNode] is the instantiation argument, [NewObjThisArg] the fresh
    object of a [newobj], [applyThisTransform] the boxing or dereferencing a
    constrained call needs, and [inferThisClass] looks at the value's type. *)
Record CallData := MkCallData {
  SigInfo : CORINFO_SIG_INFO; hasThis : bool; LdVirtFtn : bool; isNewObj : bool;
  isCallI : bool; methodHandle : option Z; classHandle : option Z;
  TypeContextNode : option IRNode; NewObjThisArg : CallArgType -> IRNode;
  applyThisTransform : IRNode -> IRNode; inferThisClass : IRNode -> option Z }.

Section target.
Variable Data : CallData.

Definition callHasTypeArg : bool := sigHasTypeArg (SigInfo Data) && negb (LdVirtFtn Data).
Definition callIsVarArg : bool := sigIsVarArg (SigInfo Data).

Definition TotalArgs : nat :=
  (b2n (hasThis Data) + b2n callIsVarArg + b2n callHasTypeArg + numArgs (SigInfo Data))%nat.

Definition FirstArgNum : nat := b2n (isNewObj Data).

(** -1 when there is none. *)
Definition VarArgNum : option nat :=
  if callIsVarArg then Some (b2n (hasThis Data)) else None.
Definition TypeArgNum : option nat :=
  if callHasTypeArg then Some (b2n (hasThis Data) + b2n callIsVarArg)%nat else None.

(** The rest of the argument list, in the runtime's order.  A generic variable
    asserts; the signature of a call has none. *)
Fixpoint call_params (n : nat) (Args : Z) (Index : nat) (l : list CallArgType) :
    option (list CallArgType) :=
  match n with
  | 0%nat => Some l
  | S n' =>
      let CorType := strip (getArgType (SigInfo Data) Args) in
      l' ← store l Index (MkCallArgType CorType (arg_class (SigInfo Data) Args CorType));
      call_params n' (getArgNext Args) (S Index) l'
  end.

(** The types, and whether that of [this] is still to be inferred. *)
Definition call_types : option (list CallArgType * bool) :=
  let l := replicate TotalArgs no_type in
  let Known := bool_decide (is_Some (methodHandle Data)) in
  l ← (if hasThis Data && Known then
         store l 0 (MkCallArgType
           (if valueClassAttrib (classHandle Data) then CORINFO_TYPE_BYREF else CORINFO_TYPE_CLASS)
           (classHandle Data))
       else Some l);
  let Index := (b2n (hasThis Data) + b2n callIsVarArg)%nat in
  l ← (if callHasTypeArg then store l Index (MkCallArgType CORINFO_TYPE_NATIVEINT None)
       else Some l);
  let Index := (Index + b2n callHasTypeArg)%nat in
  l ← call_params (TotalArgs - Index) (args (SigInfo Data)) Index l;
  Some (l, hasThis Data && negb Known).

(** The loop that pops the arguments, last one first: [n] is [Index + 1 -
    FirstArgNum].  The head of the operand stack is its top; popping an empty
    stack asserts. *)
Fixpoint pop_arguments (n : nat) (Arguments : list (option IRNode)) (Stack : list IRNode) :
    option (list (option IRNode) * list IRNode) :=
  match n with
  | 0%nat => Some (Arguments, Stack)
  | S n' =>
      let Index := (FirstArgNum + n')%nat in
      if bool_decide (VarArgNum = Some Index) then pop_arguments n' Arguments Stack
      else if bool_decide (TypeArgNum = Some Index) then
        Node ← TypeContextNode Data;
        _ ← assert (negb (isCallI Data));
        l ← store Arguments Index (Some Node);
        pop_arguments n' l Stack
      else
        match Stack with
        | [] => None
        | Node :: Rest => l ← store Arguments Index (Some Node); pop_arguments n' l Rest
        end
  end.

(** The argument for [this] and, for a [calli], its type. *)
Definition this_argument (l : list CallArgType) (Inferred : bool)
    (Arguments : list (option IRNode)) : option (list CallArgType * list (option IRNode)) :=
  if hasThis Data then
    ThisType ← l !! 0%nat;
    Node ← (if isNewObj Data then Some (NewObjThisArg Data ThisType)
            else Popped ← Arguments !! 0%nat; Node ← Popped; Some (applyThisTransform Data Node));
    Arguments' ← store Arguments 0 (Some Node);
    l' ← (if Inferred then
            store l 0
              match inferThisClass Data Node with
              | None => MkCallArgType CORINFO_TYPE_CLASS systemObjectClass
              | Some C =>
                  MkCallArgType
                    (if isValueClass C then CORINFO_TYPE_BYREF else CORINFO_TYPE_CLASS)
                    (Some C)
              end
          else Some l);
    Some (l', Arguments')
  else Some (l, Arguments).

(** The types, the values and the operand stack that is left. *)
Definition call_arguments (Stack : list IRNode) :
    option (list CallArgType * list (option IRNode) * list IRNode) :=
  _ ← assert (negb (isNewObj Data) || hasThis Data);
  let Arguments := replicate TotalArgs None in
  if (0 <? TotalArgs)%nat then
    '(l, Inferred) ← call_types;
    '(Arguments, Rest) ← pop_arguments (TotalArgs - FirstArgNum) Arguments Stack;
    '(l, Arguments) ← this_argument l Inferred Arguments;
    Some (l, Arguments, Rest)
  else Some ([], Arguments, Stack).

End target.
End call.
End runtime.

(** ** Lemmas *)

(** [x] if the flag is set. *)
Definition opt {A} (b : bool) (x : A) : list A := if b then [x] else [].

Lemma length_opt {A} (b : bool) (x : A) : length (opt b x) = b2n b.
Proof. by destruct b. Qed.

Lemma store_app {A} (l1 l2 : list A) (x y : A) (i : nat) :
  i = length l1 -> store (l1 ++ x :: l2) i y = Some (l1 ++ y :: l2).
Proof.
  intros ->. unfold store.
  destruct (Nat.ltb_spec (length l1) (length (l1 ++ x :: l2))) as [_|H].
  - rewrite insert_app_r_alt by done. by rewrite Nat.sub_diag.
  - rewrite length_app in H. simpl in H. lia.
Qed.

Section signature_lemmas.
Context {JitInfo : ICorJitInfo}.

(** The argument types of the metadata, in order. *)
Fixpoint il_types (Sig : CORINFO_SIG_INFO) (n : nat) (Args : Z) : list CallArgType :=
  match n with
  | 0%nat => []
  | S n' => (argListNext Args Sig).1.2 :: il_types Sig n' (getArgNext Args)
  end.

Lemma length_il_types (Sig : CORINFO_SIG_INFO) (n : nat) (Args : Z) :
  length (il_types Sig n Args) = n.
Proof. revert Args. induction n as [|n IH]; intros; simpl; [done|]. by rewrite IH. Qed.

Lemma normal_params_spec (V : bool) (MethodArgs : CORINFO_SIG_INFO)
    (Sig : ReaderMethodSignature) (n : nat) (Args : Z) (i : nat) (pre : list CallArgType) :
  i = length pre -> (getNormalParamStart Sig <= i)%nat ->
  (i + n <= getNormalParamEnd Sig)%nat ->
  normal_params V MethodArgs Sig n Args i (pre ++ replicate n no_type) =
    Some (pre ++ il_types MethodArgs n Args).
Proof.
  revert Args i pre. induction n as [|n IH]; intros Args i pre Hi Hs He; simpl; [done|].
  assert (Hil : is_Some (getILArgForArgIndex Sig i)).
  { unfold getILArgForArgIndex. destruct (HasThis Sig && _); [by eexists|].
    rewrite (proj2 (Nat.leb_le _ _)) by lia. rewrite (proj2 (Nat.ltb_lt _ _)) by lia.
    by eexists. }
  destruct Hil as [o Hil]. rewrite Hil.
  assert (Hg : (if V then Some o else Some 0%nat) = Some (if V then o else 0%nat))
    by by destruct V.
  rewrite Hg. cbn [mbind option_bind]. rewrite store_app by done. cbn [mbind option_bind].
  rewrite (cons_middle _ pre), app_assoc. rewrite IH; [by rewrite <- app_assoc|..].
  - rewrite length_app. simpl. lia.
  - lia.
  - lia.
Qed.

Lemma call_params_spec {IRNode} (Data : @CallData IRNode) (n : nat) (Args : Z) (i : nat)
    (pre : list CallArgType) :
  i = length pre ->
  call_params Data n Args i (pre ++ replicate n no_type) =
    Some (pre ++ il_types (SigInfo Data) n Args).
Proof.
  revert Args i pre. induction n as [|n IH]; intros Args i pre Hi; simpl; [done|].
  rewrite store_app by done. cbn [mbind option_bind].
  rewrite (cons_middle _ pre), app_assoc. rewrite IH; [by rewrite <- app_assoc|].
  rewrite length_app. simpl. lia.
Qed.

Lemma synthesize_spec (Present : bool) (Index : option nat) (TheArg : CallArgType)
    (pre : list CallArgType) (n : nat) :
  (Present = true -> Index = Some (length pre)) ->
  synthesize Present Index TheArg (length pre, pre ++ replicate (b2n Present + n) no_type) =
    Some (length (pre ++ opt Present TheArg), (pre ++ opt Present TheArg) ++ replicate n no_type).
Proof.
  intros H. unfold synthesize. destruct Present; simpl.
  - rewrite (bool_decide_eq_true_2 _ (H eq_refl)). cbn [mbind option_bind assert].
    rewrite store_app by done. cbn [mbind option_bind].
    rewrite length_app, <- app_assoc. simpl. by rewrite Nat.add_1_r.
  - by rewrite app_nil_r.
Qed.

Section method_lemmas.
Variable V : bool.
Variable MethodArgs MethodLocals : CORINFO_SIG_INFO.
Variable CurrentMethodClass : option Z.

(** The arguments the metadata knows: [this] and the normal ones. *)
Definition metadata_types : list CallArgType :=
  opt (sigHasThis MethodArgs) (this_type CurrentMethodClass)
  ++ il_types MethodArgs (numArgs MethodArgs) (args MethodArgs).

(** The specification of a signature. *)
Definition method_types (Secret : bool) : list CallArgType :=
  opt Secret (MkCallArgType CORINFO_TYPE_NATIVEINT None)
  ++ opt (sigHasThis MethodArgs) (this_type CurrentMethodClass)
  ++ opt (sigIsVarArg MethodArgs) (MkCallArgType CORINFO_TYPE_PTR argumentHandleClass)
  ++ opt (sigHasTypeArg MethodArgs) (MkCallArgType CORINFO_TYPE_NATIVEINT None)
  ++ il_types MethodArgs (numArgs MethodArgs) (args MethodArgs).

Definition method_signature (Secret : bool) : ReaderMethodSignature :=
  MkMethodSignature (sigHasThis MethodArgs) (callConv MethodArgs)
    (MkCallArgType (retType MethodArgs) (retTypeClass MethodArgs)) (method_types Secret)
    (sigIsVarArg MethodArgs) (sigHasTypeArg MethodArgs) Secret.

Lemma length_method_types (Secret : bool) :
  length (method_types Secret) =
    (b2n Secret + b2n (sigHasThis MethodArgs) + b2n (sigIsVarArg MethodArgs)
     + b2n (sigHasTypeArg MethodArgs) + numArgs MethodArgs)%nat.
Proof.
  unfold method_types. rewrite !length_app, !length_opt, length_il_types. lia.
Qed.

Lemma initMethodInfo_spec (Secret : bool) :
  initMethodInfo V MethodArgs MethodLocals CurrentMethodClass Secret =
    Some (method_signature Secret, numArgs MethodLocals).
Proof.
  unfold initMethodInfo. cbn [ArgumentTypes].
  set (Sig0 := MkMethodSignature _ _ _ _ _ _ _).
  rewrite <- !Nat.add_assoc.
  match goal with |- context [(0%nat, replicate ?n no_type)] =>
    change (0%nat, replicate n no_type) with (length (@nil CallArgType), [] ++ replicate n no_type)
  end.
  rewrite (synthesize_spec _ _ _ []) by (intros ->; done). cbn [mbind option_bind].
  rewrite synthesize_spec by (intros E; subst Sig0; unfold getThisIndex; simpl;
    rewrite E; simpl; by rewrite length_opt).
  cbn [mbind option_bind].
  rewrite synthesize_spec by (intros E; subst Sig0; unfold getVarArgIndex; simpl;
    rewrite E; simpl; by rewrite !length_app, !length_opt).
  cbn [mbind option_bind].
  rewrite synthesize_spec by (intros E; subst Sig0; unfold getTypeArgIndex; simpl;
    rewrite E; simpl; by rewrite !length_app, !length_opt).
  cbn [mbind option_bind fst snd].
  assert (Hs : length (((([] ++ opt Secret (MkCallArgType CORINFO_TYPE_NATIVEINT None))
      ++ opt (sigHasThis MethodArgs) (this_type CurrentMethodClass))
      ++ opt (sigIsVarArg MethodArgs) (MkCallArgType CORINFO_TYPE_PTR argumentHandleClass))
      ++ opt (sigHasTypeArg MethodArgs) (MkCallArgType CORINFO_TYPE_NATIVEINT None)) =
    getNormalParamStart Sig0).
  { subst Sig0. unfold getNormalParamStart. rewrite !length_app, !length_opt. simpl. lia. }
  rewrite Hs, Nat.eqb_refl. cbn [mbind option_bind assert].
  assert (He : getNormalParamEnd Sig0 = (getNormalParamStart Sig0 + numArgs MethodArgs)%nat).
  { subst Sig0. unfold getNormalParamEnd, getNormalParamStart. simpl. rewrite length_replicate.
    lia. }
  replace (getNormalParamEnd Sig0 - getNormalParamStart Sig0)%nat with (numArgs MethodArgs) by lia.
  rewrite normal_params_spec by (done || lia). cbn [mbind option_bind].
  unfold setArgumentTypes, method_signature, method_types. subst Sig0. simpl.
  by rewrite <- !app_assoc.
Qed.


Lemma method_types_metadata (Secret : bool) (o : nat) :
  (o < b2n (sigHasThis MethodArgs) + numArgs MethodArgs)%nat ->
  exists i, getArgIndexForILArg (method_signature Secret) o = Some i /\
    method_types Secret !! i = metadata_types !! o.
Proof.
  intros Ho. unfold getArgIndexForILArg. cbn [HasThis method_signature].
  destruct (sigHasThis MethodArgs && (o =? 0)%nat) eqn:E.
  - apply andb_true_iff in E as [E1 ->%Nat.eqb_eq].
    exists (b2n Secret). unfold getThisIndex, method_types, metadata_types. cbn [HasThis HasSecretParameter method_signature].
    rewrite E1. split; [done|]. by destruct Secret.
  - exists (o + b2n Secret + b2n (sigIsVarArg MethodArgs) + b2n (sigHasTypeArg MethodArgs))%nat.
    unfold getNormalParamStart, getNormalParamEnd. cbn [HasThis HasSecretParameter IsVarArg
      HasTypeArg ArgumentTypes method_signature]. rewrite length_method_types.
    assert (Hp : sigHasThis MethodArgs = true -> (0 < o)%nat)
      by (intros H; rewrite H in E; destruct o; [done|lia]).
    rewrite (proj2 (Nat.leb_le _ _)), (proj2 (Nat.ltb_lt _ _));
      [|lia|destruct (sigHasThis MethodArgs); simpl; [specialize (Hp eq_refl)|]; lia].
    split; [done|]. unfold method_types, metadata_types.
    destruct (sigHasThis MethodArgs) eqn:E1; [destruct o as [|o]; [by specialize (Hp eq_refl); lia|]|];
      destruct Secret, (sigIsVarArg MethodArgs), (sigHasTypeArg MethodArgs); simpl;
      rewrite ?Nat.add_0_r, ?Nat.add_1_r; done.
Qed.

Lemma il_arg_roundtrip (Secret : bool) (o i : nat) :
  getArgIndexForILArg (method_signature Secret) o = Some i <->
  getILArgForArgIndex (method_signature Secret) i = Some o.
Proof.
  unfold getArgIndexForILArg, getILArgForArgIndex, getThisIndex, getNormalParamStart,
    getNormalParamEnd, assert. cbn [HasThis HasSecretParameter IsVarArg HasTypeArg ArgumentTypes
      method_signature]. rewrite length_method_types.
  destruct (sigHasThis MethodArgs), (sigIsVarArg MethodArgs), (sigHasTypeArg MethodArgs), Secret;
    cbn [andb b2n mbind option_bind];
    split; intros H; unfold mbind, option_bind in *; repeat (case_match; simplify_eq/=);
    repeat match goal with
    | H : bool_decide _ = true |- _ => apply bool_decide_eq_true in H
    | H : bool_decide _ = false |- _ => apply bool_decide_eq_false in H
    | H : (_ =? _)%nat = true |- _ => apply Nat.eqb_eq in H
    | H : (_ =? _)%nat = false |- _ => apply Nat.eqb_neq in H
    | H : (_ <=? _)%nat = true |- _ => apply Nat.leb_le in H
    | H : (_ <=? _)%nat = false |- _ => apply Nat.leb_gt in H
    | H : (_ <? _)%nat = true |- _ => apply Nat.ltb_lt in H
    | H : (_ <? _)%nat = false |- _ => apply Nat.ltb_ge in H
    end; simplify_eq; try (f_equal; lia); try lia; try done.
Qed.
End method_lemmas.

(** ** Lemmas about calls *)

Section call_lemmas.
Context {IRNode : Type}.
Variable Data : @CallData IRNode.

Lemma pop_plain (n k : nat) (vs : list IRNode) (pre post : list (option IRNode))
    (Rest : list IRNode) :
  length vs = n -> length pre = (FirstArgNum Data + k)%nat ->
  (forall j, (j < n)%nat -> VarArgNum Data <> Some (FirstArgNum Data + (k + j))%nat /\
    TypeArgNum Data <> Some (FirstArgNum Data + (k + j))%nat) ->
  pop_arguments Data (k + n) (pre ++ replicate n None ++ post) (reverse vs ++ Rest) =
  pop_arguments Data k (pre ++ (Some <$> vs) ++ post) Rest.
Proof.
  revert post Rest n. induction vs as [|v vs IH] using rev_ind; intros post Rest n Hn Hp Hj.
  - simpl in Hn. subst n. by rewrite Nat.add_0_r.
  - rewrite length_app in Hn. simpl in Hn. destruct n as [|n]; [lia|].
    rewrite reverse_snoc, Nat.add_succ_r. cbn [pop_arguments app].
    destruct (Hj n ltac:(lia)) as [Hv Ht].
    rewrite (bool_decide_eq_false_2 _ Hv), (bool_decide_eq_false_2 _ Ht).
    rewrite replicate_S_end, <- app_assoc. cbn [app]. rewrite (app_assoc pre).
    rewrite store_app by (rewrite length_app, length_replicate; lia).
    cbn [mbind option_bind]. rewrite <- app_assoc, IH; [|lia|done|intros j ?; apply Hj; lia].
    rewrite fmap_app, <- !app_assoc. done.
Qed.

(** The values of a call in the runtime's order: [this], the instantiation
    argument, then what was pushed. *)
Definition call_values (This : list IRNode) (Pushed : list IRNode) : list IRNode :=
  This ++ (if callHasTypeArg Data then option_list (TypeContextNode Data) else []) ++ Pushed.

Lemma pop_arguments_spec (This Pushed Rest : list IRNode) :
  callIsVarArg Data = false ->
  (callHasTypeArg Data = true -> is_Some (TypeContextNode Data) /\ isCallI Data = false) ->
  (isNewObj Data = true -> hasThis Data = true) ->
  length Pushed = numArgs (SigInfo Data) ->
  length This = (b2n (hasThis Data) - b2n (isNewObj Data))%nat ->
  pop_arguments Data (TotalArgs Data - FirstArgNum Data) (replicate (TotalArgs Data) None)
    (reverse (This ++ Pushed) ++ Rest) =
  Some (replicate (FirstArgNum Data) None ++ (Some <$> call_values This Pushed), Rest).
Proof.
  intros Hv Hc Hn Hp Ht. unfold TotalArgs, call_values. rewrite Hv, reverse_app, <- app_assoc.
  set (f := FirstArgNum Data). set (t := b2n (callHasTypeArg Data)).
  assert (Hf : (b2n (hasThis Data) = f + length This)%nat).
  { rewrite Ht. unfold f, FirstArgNum. destruct (isNewObj Data); [rewrite Hn by done|]; simpl; lia. }
  assert (HV : VarArgNum Data = None) by (unfold VarArgNum; by rewrite Hv).
  assert (HT : TypeArgNum Data = if callHasTypeArg Data then Some (f + length This)%nat else None).
  { unfold TypeArgNum. rewrite Hv, Hf. simpl. by rewrite Nat.add_0_r. }
  replace (b2n (hasThis Data) + b2n false + t + numArgs (SigInfo Data) - f)%nat
    with (length This + t + length Pushed)%nat by (rewrite Hf, Hp; simpl; lia).
  replace (b2n (hasThis Data) + b2n false + t + numArgs (SigInfo Data))%nat
    with ((f + (length This + t)) + length Pushed)%nat by (rewrite Hf, Hp; simpl; lia).
  rewrite replicate_add, <- (app_nil_r (replicate (length Pushed) None)).
  rewrite pop_plain; [|done|by rewrite length_replicate|].
  2:{ intros j Hj. rewrite HV, HT. split; [done|]. unfold t.
      destruct (callHasTypeArg Data); [|done]. simpl. intros [=]. lia. }
  assert (Hthis : forall post, pop_arguments Data (length This)
      (replicate f None ++ replicate (length This) None ++ post) (reverse This ++ Rest) =
    Some (replicate f None ++ (Some <$> This) ++ post, Rest)).
  { intros post. rewrite <- (Nat.add_0_l (length This)) at 1. rewrite pop_plain; [done|done|..].
    - by rewrite length_replicate, Nat.add_0_r.
    - intros j Hj. rewrite HV, HT. split; [done|]. destruct (callHasTypeArg Data); [|done].
      intros [=]. lia. }
  rewrite app_nil_r. unfold t. destruct (callHasTypeArg Data) eqn:E; cbn [b2n].
  - destruct (Hc eq_refl) as [[c Hctx] Hci].
    rewrite Nat.add_1_r. cbn [pop_arguments]. fold f.
    rewrite HV, HT. rewrite (bool_decide_eq_false_2 (None = _)) by done.
    rewrite bool_decide_eq_true_2 by done. rewrite Hctx, Hci. cbn [mbind option_bind assert negb].
    rewrite Nat.add_succ_r, replicate_S_end, <- app_assoc. cbn [app].
    rewrite store_app by (rewrite length_replicate; done). cbn [mbind option_bind].
    rewrite replicate_add, <- app_assoc, Hthis. rewrite !fmap_app. done.
  - rewrite !Nat.add_0_r, replicate_add, <- app_assoc, Hthis. by rewrite !fmap_app.
Qed.

Lemma call_types_spec :
  callIsVarArg Data = false -> is_Some (methodHandle Data) ->
  call_types Data =
    Some (opt (hasThis Data) (this_type (classHandle Data))
          ++ opt (callHasTypeArg Data) (MkCallArgType CORINFO_TYPE_NATIVEINT None)
          ++ il_types (SigInfo Data) (numArgs (SigInfo Data)) (args (SigInfo Data)), false).
Proof.
  intros Hv Hk. unfold call_types, TotalArgs. rewrite Hv, (bool_decide_eq_true_2 _ Hk).
  cbn [b2n]. rewrite andb_true_r, andb_false_r, Nat.add_0_r.
  replace (b2n (hasThis Data) + b2n (callHasTypeArg Data) + numArgs (SigInfo Data)
           - (b2n (hasThis Data) + b2n (callHasTypeArg Data)))%nat
    with (numArgs (SigInfo Data)) by lia.
  assert (Hc : forall i pre l, i = length pre ->
    l = pre ++ replicate (numArgs (SigInfo Data)) no_type ->
    call_params Data (numArgs (SigInfo Data)) (args (SigInfo Data)) i l =
      Some (pre ++ il_types (SigInfo Data) (numArgs (SigInfo Data)) (args (SigInfo Data))))
    by (intros i pre l Hi ->; by apply call_params_spec).
  destruct (hasThis Data), (callHasTypeArg Data); cbn [b2n Nat.add opt app];
    unfold store; simpl; cbn [mbind option_bind].
  - by erewrite (Hc 2%nat [_; _]) by reflexivity.
  - by erewrite (Hc 1%nat [_]) by reflexivity.
  - by erewrite (Hc 1%nat [_]) by reflexivity.
  - by erewrite (Hc 0%nat []) by reflexivity.
Qed.

(** What the callee is to find for [this]. *)
Definition passed_this (This : IRNode) : IRNode :=
  if isNewObj Data then NewObjThisArg Data (this_type (classHandle Data))
  else applyThisTransform Data This.

Lemma call_arguments_spec (This : IRNode) (Pushed Rest : list IRNode) :
  callIsVarArg Data = false -> is_Some (methodHandle Data) ->
  (callHasTypeArg Data = true -> is_Some (TypeContextNode Data) /\ isCallI Data = false) ->
  (isNewObj Data = true -> hasThis Data = true) ->
  length Pushed = numArgs (SigInfo Data) ->
  call_arguments Data (reverse (opt (hasThis Data && negb (isNewObj Data)) This ++ Pushed) ++ Rest) =
    Some (opt (hasThis Data) (this_type (classHandle Data))
          ++ opt (callHasTypeArg Data) (MkCallArgType CORINFO_TYPE_NATIVEINT None)
          ++ il_types (SigInfo Data) (numArgs (SigInfo Data)) (args (SigInfo Data)),
          Some <$> call_values (opt (hasThis Data) (passed_this This)) Pushed, Rest).
Proof.
  intros Hv Hk Hc Hn Hp. unfold call_arguments.
  assert (Ha : negb (isNewObj Data) || hasThis Data = true)
    by (destruct (isNewObj Data); simpl; auto).
  rewrite Ha. cbn [mbind option_bind assert].
  destruct (Nat.ltb_spec 0 (TotalArgs Data)) as [Hpos|Hz].
  - rewrite (call_types_spec Hv Hk), pop_arguments_spec by
      (done || (rewrite length_opt; destruct (hasThis Data), (isNewObj Data); simpl; auto)).
    unfold mbind, option_bind, this_argument, passed_this, FirstArgNum, call_values.
    destruct (isNewObj Data); [rewrite (Hn eq_refl); done|].
    by destruct (hasThis Data).
  - assert (HT : TotalArgs Data = 0%nat) by lia. rewrite HT.
    unfold TotalArgs in Hz. rewrite Hv in Hz. unfold call_values.
    destruct (hasThis Data), (callHasTypeArg Data); simpl in *; try lia.
    assert (H0 : numArgs (SigInfo Data) = 0%nat) by lia. rewrite H0 in *.
    by destruct Pushed.
Qed.

End call_lemmas.
End signature_lemmas.

(** ** Lemmas about symbols *)

Definition param_syms (l : list Sym) (start : nat) (Types : list CallArgType) : Prop :=
  symNum <$> l = seq start (length Types) /\ symType <$> l = Types /\
  Forall (fun s => symIsAuto s = false) l.

Lemma param_syms_app (l1 l2 : list Sym) (start : nat) (T1 T2 : list CallArgType) :
  param_syms l1 start T1 -> param_syms l2 (start + length T1) T2 ->
  param_syms (l1 ++ l2) start (T1 ++ T2).
Proof.
  intros (HN1 & HT1 & HF1) (HN2 & HT2 & HF2). unfold param_syms.
  rewrite length_app, seq_app, !fmap_app, HN1, HN2, HT1, HT2. split_and!; try done.
  by apply Forall_app.
Qed.

Lemma special_param_spec (Args pre post : list CallArgType) (Present : bool) (Index : option nat)
    (Special : ReaderSpecialSymbolType) (T : CallArgType) (i : nat) :
  Args = pre ++ opt Present T ++ post -> i = length pre ->
  (Present = true -> Index = Some i) ->
  exists l, special_param Args Present Index Special = Some l /\
    param_syms l i (opt Present T) /\ symSpecial <$> l = opt Present Special.
Proof.
  intros HA -> HI. unfold special_param. destruct Present; [|by exists []].
  rewrite (HI eq_refl), HA. cbn [mbind option_bind]. unfold param_sym. simpl.
  rewrite list_lookup_middle by done. cbn [mbind option_bind].
  eexists. split; [done|]. unfold param_syms. simpl.
  split_and!; try done. by repeat constructor.
Qed.

Lemma normal_syms_spec (pre l : list CallArgType) (Special : ReaderSpecialSymbolType) (i : nat) :
  i = length pre ->
  exists syms, mapM (param_sym (pre ++ l) Special) (seq i (length l)) = Some syms /\
    param_syms syms i l /\ symSpecial <$> syms = replicate (length l) Special.
Proof.
  revert pre i. induction l as [|T l IH]; intros pre i Hi; simpl; [by exists []|].
  assert (E : param_sym (pre ++ T :: l) Special i = Some (MkSym i false T false Special))
    by (unfold param_sym; by rewrite list_lookup_middle).
  rewrite E. cbn [mbind option_bind].
  destruct (IH (pre ++ [T]) (S i)) as (syms & Hm & (HN & HT & HF) & HS).
  { rewrite length_app. simpl. lia. }
  rewrite <- app_assoc in Hm. cbn [app] in Hm. rewrite Hm. cbn [mbind option_bind].
  eexists. split; [done|]. split; [split_and!|].
  - exact (f_equal (cons i) HN).
  - exact (f_equal (cons T) HT).
  - by constructor.
  - exact (f_equal (cons Special) HS).
Qed.

Lemma buildUpParams_spec `{ICorJitInfo} (MethodArgs : CORINFO_SIG_INFO) (Cls : option Z)
    (Secret : bool) :
  exists Params, buildUpParams (method_signature MethodArgs Cls Secret) = Some Params /\
    param_syms Params 0 (method_types MethodArgs Cls Secret) /\
    symSpecial <$> Params =
      opt Secret Reader_SecretParam ++ opt (sigHasThis MethodArgs) Reader_ThisPtr
      ++ opt (sigIsVarArg MethodArgs) Reader_VarArgsToken
      ++ opt (sigHasTypeArg MethodArgs) Reader_InstParam
      ++ replicate (numArgs MethodArgs) Reader_NotSpecialSymbol.
Proof.
  unfold buildUpParams. set (Sig := method_signature MethodArgs Cls Secret).
  set (Args := ArgumentTypes Sig).
  set (T1 := opt Secret (MkCallArgType CORINFO_TYPE_NATIVEINT None)).
  set (T2 := opt (sigHasThis MethodArgs) (this_type Cls)).
  set (T3 := opt (sigIsVarArg MethodArgs) (MkCallArgType CORINFO_TYPE_PTR argumentHandleClass)).
  set (T4 := opt (sigHasTypeArg MethodArgs) (MkCallArgType CORINFO_TYPE_NATIVEINT None)).
  set (T5 := il_types MethodArgs (numArgs MethodArgs) (args MethodArgs)).
  assert (HA : Args = T1 ++ T2 ++ T3 ++ T4 ++ T5) by done.
  assert (HL : getNormalParamStart Sig = length (T1 ++ T2 ++ T3 ++ T4)).
  { unfold T1, T2, T3, T4, getNormalParamStart. rewrite !length_app, !length_opt. simpl. lia. }
  destruct (special_param_spec Args [] (T2 ++ T3 ++ T4 ++ T5) (HasSecretParameter Sig)
    (getSecretParameterIndex Sig) Reader_SecretParam _ 0 HA eq_refl) as (l1 & -> & P1 & S1).
  { unfold Sig, getSecretParameterIndex. simpl. intros E. by rewrite E. }
  destruct (special_param_spec Args T1 (T3 ++ T4 ++ T5) (HasThis Sig)
    (getThisIndex Sig) Reader_ThisPtr _ (length T1) HA eq_refl) as (l2 & -> & P2 & S2).
  { unfold Sig, getThisIndex, T1. simpl. intros E. rewrite E, length_opt. done. }
  destruct (special_param_spec Args (T1 ++ T2) (T4 ++ T5) (IsVarArg Sig)
    (getVarArgIndex Sig) Reader_VarArgsToken
    (MkCallArgType CORINFO_TYPE_PTR argumentHandleClass) (length (T1 ++ T2)))
    as (l3 & -> & P3 & S3).
  { by rewrite HA, <- app_assoc. }
  { done. }
  { unfold Sig, getVarArgIndex, T1, T2. simpl. intros E.
    rewrite E, length_app, !length_opt. done. }
  destruct (special_param_spec Args (T1 ++ T2 ++ T3) T5 (HasTypeArg Sig)
    (getTypeArgIndex Sig) Reader_InstParam
    (MkCallArgType CORINFO_TYPE_NATIVEINT None) (length (T1 ++ T2 ++ T3)))
    as (l4 & -> & P4 & S4).
  { by rewrite HA, <- !app_assoc. }
  { done. }
  { unfold Sig, getTypeArgIndex, T1, T2, T3. simpl. intros E.
    rewrite E, !length_app, !length_opt. by rewrite Nat.add_assoc. }
  destruct (normal_syms_spec (T1 ++ T2 ++ T3 ++ T4) T5 Reader_NotSpecialSymbol
    (getNormalParamStart Sig) HL) as (l5 & M5 & P5 & S5).
  assert (HE : (getNormalParamEnd Sig - getNormalParamStart Sig)%nat = length T5).
  { unfold getNormalParamEnd. rewrite HL. change (ArgumentTypes Sig) with Args.
    rewrite HA, !length_app. lia. }
  assert (HA' : (T1 ++ T2 ++ T3 ++ T4) ++ T5 = Args) by (by rewrite HA, <- !app_assoc).
  cbn [mbind option_bind]. rewrite HE. rewrite HA' in M5. rewrite M5. cbn [mbind option_bind].
  eexists. split; [done|]. split.
  - change (method_types MethodArgs Cls Secret) with (T1 ++ T2 ++ T3 ++ T4 ++ T5).
    rewrite HL in P5. rewrite !length_app, ?Nat.add_assoc in *.
    apply param_syms_app; [exact P1|]. apply param_syms_app; [exact P2|].
    apply param_syms_app; [exact P3|]. apply param_syms_app; [exact P4|exact P5].
  - rewrite !fmap_app, S1, S2, S3, S4, S5. unfold T5. by rewrite length_il_types.
Qed.

Lemma build_autos_spec `{ICorJitInfo} (Locals : CORINFO_SIG_INFO) (n i : nat) (Locs : Z) :
  symNum <$> build_autos Locals n i Locs = seq i n /\
  symType <$> build_autos Locals n i Locs = il_types Locals n Locs /\
  Forall (fun s => symIsAuto s = true) (build_autos Locals n i Locs).
Proof.
  revert i Locs. induction n as [|n IH]; intros i Locs; simpl; [done|].
  destruct (IH (S i) (getArgNext Locs)) as (HN & HT & HF). split_and!.
  - exact (f_equal (cons i) HN).
  - exact (f_equal (cons _) HT).
  - by constructor.
Qed.

Lemma il_value_index {IRNode} `{ICorJitInfo} (MethodArgs : CORINFO_SIG_INFO) (Cls : option Z)
    (Secret : bool) (This : IRNode) (Context Pushed : list IRNode) (o : nat) (v : IRNode) :
  sigIsVarArg MethodArgs = false ->
  (sigHasTypeArg MethodArgs = true -> length Context = 1%nat) ->
  length Pushed = numArgs MethodArgs ->
  (opt (sigHasThis MethodArgs) This ++ Pushed) !! o = Some v ->
  exists i, getArgIndexForILArg (method_signature MethodArgs Cls Secret) o =
      Some (b2n Secret + i)%nat /\
    (opt (sigHasThis MethodArgs) This
     ++ (if sigHasTypeArg MethodArgs then Context else []) ++ Pushed) !! i = Some v.
Proof.
  intros Hv Hc Hp Ho.
  assert (Hlt : (o < b2n (sigHasThis MethodArgs) + numArgs MethodArgs)%nat).
  { apply lookup_lt_Some in Ho. by rewrite length_app, length_opt, Hp in Ho. }
  unfold getArgIndexForILArg, getThisIndex, getNormalParamStart, getNormalParamEnd.
  cbn [HasThis HasSecretParameter IsVarArg HasTypeArg ArgumentTypes method_signature].
  rewrite length_method_types, Hv.
  destruct (sigHasThis MethodArgs) eqn:Et; [destruct o as [|o]|]; cbn [andb Nat.eqb].
  - exists 0%nat. simpl in *. by rewrite Nat.add_0_r.
  - exists (S o + b2n (sigHasTypeArg MethodArgs))%nat. simpl in Ho, Hlt.
    rewrite (proj2 (Nat.leb_le _ _)), (proj2 (Nat.ltb_lt _ _)) by (simpl; lia).
    cbn [assert mbind option_bind]. split; [f_equal; simpl; lia|]. simpl.
    destruct (sigHasTypeArg MethodArgs); [|by rewrite Nat.add_0_r].
    rewrite lookup_app_r by (rewrite Hc by done; simpl; lia).
    rewrite Hc by done. simpl. by rewrite Nat.add_sub.
  - exists (o + b2n (sigHasTypeArg MethodArgs))%nat. simpl in Ho, Hlt.
    rewrite (proj2 (Nat.leb_le _ _)), (proj2 (Nat.ltb_lt _ _)) by (simpl; lia).
    cbn [assert mbind option_bind]. split; [f_equal; simpl; lia|]. simpl.
    destruct (sigHasTypeArg MethodArgs); [|by rewrite Nat.add_0_r].
    rewrite lookup_app_r by (rewrite Hc by done; simpl; lia).
    rewrite Hc by done. simpl. by rewrite Nat.add_sub.
Qed.

(** ** Properties *)

(** For every signature, [initMethodInfo] succeeds and lays the arguments
    out as the runtime expects them: secret parameter, [this], vararg cookie,
    instantiation parameter, then the metadata's arguments in order; each
    getter answers the index of its argument. *)
Theorem initMethodInfo_lays_out `{ICorJitInfo} (V : bool)
    (MethodArgs MethodLocals : CORINFO_SIG_INFO) (Cls : option Z) (Secret : bool) :
  exists Sig, initMethodInfo V MethodArgs MethodLocals Cls Secret =
      Some (Sig, numArgs MethodLocals) /\
    ArgumentTypes Sig = method_types MethodArgs Cls Secret /\
    getSecretParameterIndex Sig = (if Secret then Some 0%nat else None) /\
    (forall i, getThisIndex Sig = Some i -> ArgumentTypes Sig !! i = Some (this_type Cls)) /\
    (forall i, getVarArgIndex Sig = Some i ->
       ArgumentTypes Sig !! i = Some (MkCallArgType CORINFO_TYPE_PTR argumentHandleClass)) /\
    (forall i, getTypeArgIndex Sig = Some i ->
       ArgumentTypes Sig !! i = Some (MkCallArgType CORINFO_TYPE_NATIVEINT None)) /\
    drop (getNormalParamStart Sig) (ArgumentTypes Sig) =
      il_types MethodArgs (numArgs MethodArgs) (args MethodArgs).
Proof.
  eexists. split; [apply initMethodInfo_spec|].
  unfold getSecretParameterIndex, getThisIndex, getVarArgIndex, getTypeArgIndex,
    getNormalParamStart. cbn [HasThis HasSecretParameter IsVarArg HasTypeArg ArgumentTypes
    method_signature]. unfold method_types.
  destruct Secret, (sigHasThis MethodArgs), (sigIsVarArg MethodArgs), (sigHasTypeArg MethodArgs);
    repeat split; intros; simplify_eq/=; by rewrite ?drop_0.
Qed.

(** C30: the mapping between the arguments of the metadata and those of the
    runtime signature is a round trip, defined on every argument of the
    metadata, and respects their types. *)
Theorem il_argument_roundtrip `{ICorJitInfo} (V : bool)
    (MethodArgs MethodLocals : CORINFO_SIG_INFO) (Cls : option Z) (Secret : bool)
    (Sig : ReaderMethodSignature) (n : nat) :
  initMethodInfo V MethodArgs MethodLocals Cls Secret = Some (Sig, n) ->
  (forall o i, getArgIndexForILArg Sig o = Some i <-> getILArgForArgIndex Sig i = Some o) /\
  (forall o T, metadata_types MethodArgs Cls !! o = Some T ->
     exists i, getArgIndexForILArg Sig o = Some i /\ ArgumentTypes Sig !! i = Some T).
Proof.
  rewrite initMethodInfo_spec. intros [= <- _]. split; [intros; apply il_arg_roundtrip|].
  intros o T Ho. destruct (method_types_metadata MethodArgs Cls Secret o) as (i & Hi & Hl).
  - apply lookup_lt_Some in Ho. unfold metadata_types in Ho.
    by rewrite length_app, length_opt, length_il_types in Ho.
  - exists i. split; [done|]. by rewrite <- Ho, <- Hl.
Qed.

(** The reader creates one symbol for each argument and each local, in
    order and with its type, and marks the hidden arguments. *)
Theorem initParamsAndAutos_complete `{ICorJitInfo} (V : bool)
    (MethodArgs MethodLocals : CORINFO_SIG_INFO) (Cls : option Z) (Secret : bool)
    (Sig : ReaderMethodSignature) (n : nat) :
  initMethodInfo V MethodArgs MethodLocals Cls Secret = Some (Sig, n) ->
  exists Params Autos, initParamsAndAutos MethodLocals Sig = Some (Params ++ Autos) /\
    symNum <$> Params = seq 0 (length (ArgumentTypes Sig)) /\
    symType <$> Params = ArgumentTypes Sig /\
    symSpecial <$> Params =
      opt Secret Reader_SecretParam ++ opt (sigHasThis MethodArgs) Reader_ThisPtr
      ++ opt (sigIsVarArg MethodArgs) Reader_VarArgsToken
      ++ opt (sigHasTypeArg MethodArgs) Reader_InstParam
      ++ replicate (numArgs MethodArgs) Reader_NotSpecialSymbol /\
    symNum <$> Autos = seq 0 n /\
    symType <$> Autos = il_types MethodLocals n (args MethodLocals) /\
    Forall (fun s => symIsAuto s = false) Params /\ Forall (fun s => symIsAuto s = true) Autos.
Proof.
  rewrite initMethodInfo_spec. intros [= <- <-]. unfold initParamsAndAutos.
  destruct (buildUpParams_spec MethodArgs Cls Secret) as (Params & -> & (HN & HT & HF) & HS).
  destruct (build_autos_spec MethodLocals (numArgs MethodLocals) 0 (args MethodLocals))
    as (AN & AT & AF).
  by exists Params, (buildUpAutos MethodLocals).
Qed.

(** What an IL caller passes for each argument of the metadata. *)
Definition metadata_values {IRNode} `{ICorJitInfo} (Data : @CallData IRNode) (This : IRNode)
    (Pushed : list IRNode) : list IRNode :=
  opt (hasThis Data) (passed_this Data This) ++ Pushed.

(** C29: caller and callee agree. When the target of a call is the method whose
    signature is [MethodArgs], a method without variable arguments called by
    its handle and not through LDVIRTFTN (and, if it takes a type argument, not
    by CALLI and with the runtime's context at hand), the call computes the
    types that [initMethodInfo] computes for the method, less the secret
    parameter; and the value pushed for the o-th IL argument is passed where
    the method looks its o-th IL argument up. The rest of the operand stack is
    left alone. *)
Theorem call_arguments_reach_parameters {IRNode} `{ICorJitInfo} (V : bool)
    (MethodArgs MethodLocals : CORINFO_SIG_INFO) (Secret : bool) (Data : @CallData IRNode)
    (This : IRNode) (Pushed Rest : list IRNode) :
  SigInfo Data = MethodArgs -> hasThis Data = sigHasThis MethodArgs ->
  sigIsVarArg MethodArgs = false -> LdVirtFtn Data = false -> is_Some (methodHandle Data) ->
  (sigHasTypeArg MethodArgs = true -> is_Some (TypeContextNode Data) /\ isCallI Data = false) ->
  (isNewObj Data = true -> hasThis Data = true) ->
  length Pushed = numArgs MethodArgs ->
  exists Sig n Types Values,
    initMethodInfo V MethodArgs MethodLocals (classHandle Data) Secret = Some (Sig, n) /\
    call_arguments Data
      (reverse (opt (hasThis Data && negb (isNewObj Data)) This ++ Pushed) ++ Rest) =
      Some (Types, Some <$> Values, Rest) /\
    ArgumentTypes Sig = opt Secret (MkCallArgType CORINFO_TYPE_NATIVEINT None) ++ Types /\
    length Values = length Types /\
    forall o v, metadata_values Data This Pushed !! o = Some v ->
      exists i, getArgIndexForILArg Sig o = Some (b2n Secret + i)%nat /\ Values !! i = Some v.
Proof.
  intros <- Ht Hv Hl Hk Hc Hn Hp.
  assert (HT : callHasTypeArg Data = sigHasTypeArg (SigInfo Data))
    by (unfold callHasTypeArg; by rewrite Hl, andb_true_r).
  eexists _, _, _, _. split; [apply initMethodInfo_spec|].
  split; [apply call_arguments_spec; try done; by rewrite HT|].
  unfold call_values, metadata_values. rewrite HT, Ht. split; [|split].
  - cbn [ArgumentTypes method_signature]. unfold method_types. by rewrite Hv.
  - rewrite !length_app, !length_opt, length_il_types, Hp.
    destruct (sigHasTypeArg (SigInfo Data)); [|done].
    destruct (Hc eq_refl) as [[c ->] _]. done.
  - intros o v Ho. apply il_value_index; try done.
    intros E. destruct (Hc E) as [[c ->] _]. done.
Qed.

(** ** Witnesses: a shared generic instance method of a value class with two
    arguments, compiled with a secret parameter and called. *)

#[local] Instance demo_jit : ICorJitInfo := {|
  getArgNext h := h + 1;
  getArgType _ h :=
    MkTypeWithMod (if h =? 10 then CORINFO_TYPE_SHORT else CORINFO_TYPE_VALUECLASS) (h =? 10);
  getArgClass _ h := Some (700 + h);
  typedByRefClass := None; argumentHandleClass := Some 5; systemObjectClass := Some 6;
  valueClassAttrib c := bool_decide (c = Some 77);
  isValueClass c := c =? 77 |}.

Definition demo_args : CORINFO_SIG_INFO :=
  MkSigInfo CORINFO_CALLCONV_DEFAULT CORINFO_TYPE_INT None true false true 2 10.
Definition demo_locals : CORINFO_SIG_INFO :=
  MkSigInfo CORINFO_CALLCONV_DEFAULT CORINFO_TYPE_VOID None false false false 1 10.

Definition demo_signature : ReaderMethodSignature :=
  Eval vm_compute in method_signature demo_args (Some 77) true.

Lemma demo_signature_ok :
  initMethodInfo true demo_args demo_locals (Some 77) true = Some (demo_signature, 1%nat).
Proof. by vm_compute. Qed.

Definition demo_call : @CallData Z :=
  MkCallData demo_args true false false false (Some 3) (Some 77) (Some 500) (fun _ => 0)
    (fun v => v + 1000) (fun _ => None).

Lemma il_argument_roundtrip_witness :
  getArgIndexForILArg demo_signature 2 = Some 4%nat /\
  getILArgForArgIndex demo_signature 4 = Some 2%nat.
Proof.
  destruct (il_argument_roundtrip true demo_args demo_locals (Some 77) true demo_signature 1
    demo_signature_ok) as [H _].
  split; [by vm_compute|]. apply H. by vm_compute.
Defined.

Lemma initParamsAndAutos_complete_witness : exists Params Autos,
  initParamsAndAutos demo_locals demo_signature = Some (Params ++ Autos) /\
  length Params = 5%nat.
Proof.
  destruct (initParamsAndAutos_complete true demo_args demo_locals (Some 77) true demo_signature 1
    demo_signature_ok) as (Params & Autos & HP & HN & _).
  exists Params, Autos. split; [exact HP|].
  apply (f_equal length) in HN. by rewrite length_fmap in HN.
Defined.

Lemma call_arguments_reach_parameters_witness : exists Types Values,
  call_arguments demo_call [22; 21; 20; 99] = Some (Types, Some <$> Values, [99]) /\
  length Values = length Types.
Proof.
  destruct (call_arguments_reach_parameters true demo_args demo_locals true demo_call 20 [21; 22]
    [99]) as (Sig & n & Types & Values & _ & HC & _ & HL & _);
    [done|done|done|done|by eexists|intros _; split; [by eexists|done]|done|done|].
  exists Types, Values. split; [exact HC|exact HL].
Defined.

End Signatures.
