(* ===== verification/ABI.v ===== *)
(** * How arguments and results are passed (lib/Reader/abi.cpp)

    [X86_64_Win64] and [X86_64_SysV] classify each argument of a signature:
    directly, extended, expanded into its eightbytes, or behind a hidden
    pointer.  [X86_64ABIInfo] chooses between them.  The theorems relate the
    System V classification to the register assignment of the psABI: no
    structure ends up half in registers. *)

From S2P Require Import Prelude IRBuilder.

Module ABI.

Definition isVoidTy (T : Ty) : bool := match T with VoidTy => true | _ => false end.
Definition isStructTy (T : Ty) : bool := match T with StructTy _ => true | _ => false end.
Definition isVectorTy (T : Ty) : bool := match T with VectorTy _ _ => true | _ => false end.

(** Structures are the aggregates the reader passes; LLVM arrays stand only
    inside the structures of array objects. *)
Definition isAggregateType : Ty -> bool := isStructTy.

Record Expansion := MkExpansion { TheType : Ty; Offset : Z }.

(** [ABIArgInfo], a tagged union. *)
Inductive ABIArgInfo :=
  | Direct (T : Ty)
  | Expand (Expansions : list Expansion)
  | ZeroExtend (T : Ty)
  | SignExtend (T : Ty)
  | Indirect (T : Ty).

(** [getType]; an expanded argument has none (the union holds its records). *)
Definition getType (Info : ABIArgInfo) : option Ty :=
  match Info with
  | Direct T | ZeroExtend T | SignExtend T | Indirect T => Some T
  | Expand _ => None
  end.

Definition isIndirect (Info : ABIArgInfo) : bool :=
  match Info with Indirect _ => true | _ => false end.

Record ABIType := MkABIType { abiType : Ty; abiClass : option Z; abiIsSigned : bool }.

(** The runtime's description of a structure on System V: the eightbytes with
    their classes.  The reader names three of the classes. *)
Inductive SystemVClassificationType : Set :=
  | SystemVClassificationTypeInteger
  | SystemVClassificationTypeIntegerReference
  | SystemVClassificationTypeSSE
  | SystemVClassificationTypeUnnamed.

Record StructDescriptor := MkDescriptor {
  passedInRegisters : bool;
  eightByteCount : nat;
  eightByteClassifications : list SystemVClassificationType;
  eightByteSizes : list Z;
  eightByteOffsets : list Z }.

(** What the classifiers ask of LLVM's data layout and of the runtime. *)
Class Target := {
  getTypeSizeInBits : Ty -> Z;
  getSystemVAmd64PassStructInRegisterDescriptor : option Z -> option StructDescriptor }.

(** [llvm::isPowerOf2_64]. *)
Definition isPowerOf2_64 (Value : Z) : bool :=
  (0 <? Value) && (Z.land Value (Value - 1) =? 0).

Definition assert (b : bool) : option unit := if b then Some tt else None.

(** The common end of both classifiers: integers narrower than 32 bits are
    extended for managed code. *)
Definition extend_small (ABITy : ABIType) (Width : Z) (IsManagedCallingConv : bool) : ABIArgInfo :=
  let T := abiType ABITy in
  if IsManagedCallingConv && (Width <? 32) then
    if abiIsSigned ABITy then SignExtend T else ZeroExtend T
  else Direct T.

Module X86_64_Win64.

Definition classify `{Target} (ABITy : ABIType) (IsManagedCallingConv : bool) : option ABIArgInfo :=
  let T := abiType ABITy in
  _ ← assert (negb (isVoidTy T));
  if isAggregateType T || isVectorTy T then
    let SizeInBits := getTypeSizeInBits T in
    let SizeInBytes := SizeInBits / 8 in
    if (SizeInBytes <=? 8) && isPowerOf2_64 SizeInBytes then
      Some (Direct (IntegerTy SizeInBits))
    else Some (Indirect T)
  else
    match T with
    | IntegerTy Width =>
        _ ← assert (Width <=? 64); Some (extend_small ABITy Width IsManagedCallingConv)
    | FloatTy | DoubleTy => Some (Direct T)
    | _ => _ ← assert (isPointerTy T); Some (Direct T)
    end.

Definition classifyResult `{Target} (ABITy : ABIType) (IsManagedCallingConv : bool) :
    option ABIArgInfo :=
  if isVoidTy (abiType ABITy) then Some (Direct (abiType ABITy))
  else classify ABITy IsManagedCallingConv.

Definition computeSignatureInfo `{Target} (IsManagedCallingConv : bool) (ResultType : ABIType)
    (ArgTypes : list ABIType) : option (ABIArgInfo * list ABIArgInfo) :=
  ResultInfo ← classifyResult ResultType IsManagedCallingConv;
  ArgInfos ← mapM (fun TheArg => classify TheArg IsManagedCallingConv) ArgTypes;
  Some (ResultInfo, ArgInfos).

End X86_64_Win64.

Module X86_64_SysV.

(** One eightbyte: its type and the registers it needs. *)
Definition expand_eightbyte (Desc : StructDescriptor) (Index : nat) : option (Expansion * Z * Z) :=
  Size ← eightByteSizes Desc !! Index;
  Class_ ← eightByteClassifications Desc !! Index;
  Offset ← eightByteOffsets Desc !! Index;
  match Class_ with
  | SystemVClassificationTypeInteger => Some (MkExpansion (IntegerTy (Size * 8)) Offset, 1, 0)
  | SystemVClassificationTypeSSE =>
      Some (MkExpansion (if Size <=? 4 then FloatTy else DoubleTy) Offset, 0, 1)
  | SystemVClassificationTypeIntegerReference =>
      _ ← assert (Size =? 8);
      Some (MkExpansion (PointerTy (IntegerTy 8) 1) Offset, 1, 0)
  | SystemVClassificationTypeUnnamed => None
  end.

(** The loop over the eightbytes; [n] are left, [Index] is the next. *)
Fixpoint expand_struct (Desc : StructDescriptor) (n Index : nat) (Expansions : list Expansion)
    (RequiredIntRegs RequiredSSERegs : Z) : option (list Expansion * Z * Z) :=
  match n with
  | 0%nat => Some (Expansions, RequiredIntRegs, RequiredSSERegs)
  | S n' =>
      '(Exp, Int, SSE) ← expand_eightbyte Desc Index;
      expand_struct Desc n' (S Index) (Expansions ++ [Exp]) (RequiredIntRegs + Int)
        (RequiredSSERegs + SSE)
  end.

(** The classification, [RequiredIntRegs] and [RequiredSSERegs]. *)
Definition classify `{Target} (ABITy : ABIType) (IsManagedCallingConv IsResult : bool) :
    option (ABIArgInfo * Z * Z) :=
  let T := abiType ABITy in
  _ ← assert (negb (isVoidTy T));
  if isAggregateType T || isVectorTy T then
    Desc ← getSystemVAmd64PassStructInRegisterDescriptor (abiClass ABITy);
    if negb (passedInRegisters Desc) then
      if IsResult then Some (Indirect T, 1, 0) else Some (Direct T, 0, 0)
    else
      '(Expansions, Int, SSE) ← expand_struct Desc (eightByteCount Desc) 0 [] 0 0;
      Some (Expand Expansions, Int, SSE)
  else
    match T with
    | IntegerTy Width =>
        _ ← assert (Width <=? 64); Some (extend_small ABITy Width IsManagedCallingConv, 1, 0)
    | FloatTy | DoubleTy => Some (Direct T, 0, 1)
    | _ => _ ← assert (isPointerTy T); Some (Direct T, 1, 0)
    end.

Definition classifyArgument `{Target} (ABITy : ABIType) (IsManagedCallingConv : bool) :
    option (ABIArgInfo * Z * Z) := classify ABITy IsManagedCallingConv false.

Definition classifyResult `{Target} (ABITy : ABIType) (IsManagedCallingConv : bool) :
    option ABIArgInfo :=
  if isVoidTy (abiType ABITy) then Some (Direct (abiType ABITy))
  else '(Info, _, _) ← classify ABITy IsManagedCallingConv true; Some Info.

(** The registers left after an argument, and how it is passed in the end. *)
Definition take_registers (TheArg : ABIType) (Info : ABIArgInfo)
    (RequiredIntRegs RequiredSSERegs FreeIntRegs FreeSSERegs : Z) : ABIArgInfo * Z * Z :=
  let Spill := (FreeIntRegs <? RequiredIntRegs) || (FreeSSERegs <? RequiredSSERegs) in
  match Info, Spill with
  | Expand _, true => (Direct (abiType TheArg), FreeIntRegs, FreeSSERegs)
  | _, _ =>
      (Info,
       if (0 <? RequiredIntRegs) && (RequiredIntRegs <=? FreeIntRegs)
       then FreeIntRegs - RequiredIntRegs else FreeIntRegs,
       if (0 <? RequiredSSERegs) && (RequiredSSERegs <=? FreeSSERegs)
       then FreeSSERegs - RequiredSSERegs else FreeSSERegs)
  end.

(** The loop over the arguments. *)
Fixpoint arg_infos `{Target} (IsManagedCallingConv : bool) (FreeIntRegs FreeSSERegs : Z)
    (ArgTypes : list ABIType) : option (list ABIArgInfo) :=
  match ArgTypes with
  | [] => Some []
  | TheArg :: Rest =>
      '(Info, RequiredIntRegs, RequiredSSERegs) ← classifyArgument TheArg IsManagedCallingConv;
      let '(Info, FreeIntRegs, FreeSSERegs) :=
        take_registers TheArg Info RequiredIntRegs RequiredSSERegs FreeIntRegs FreeSSERegs in
      Infos ← arg_infos IsManagedCallingConv FreeIntRegs FreeSSERegs Rest;
      Some (Info :: Infos)
  end.

Definition computeSignatureInfo `{Target} (IsManagedCallingConv : bool) (ResultType : ABIType)
    (ArgTypes : list ABIType) : option (ABIArgInfo * list ABIArgInfo) :=
  ResultInfo ← classifyResult ResultType IsManagedCallingConv;
  let FreeIntRegs := if isIndirect ResultInfo then 5 else 6 in
  ArgInfos ← arg_infos IsManagedCallingConv FreeIntRegs 8 ArgTypes;
  Some (ResultInfo, ArgInfos).

End X86_64_SysV.

(** LLVM's calling conventions that the reader names. *)
Inductive CallingConvID : Set :=
  | CC_C | CC_X86_StdCall | CC_X86_ThisCall | CC_X86_FastCall | CC_X86_64_Win64
  | CC_X86_64_SysV | CC_CLR_VirtualDispatchStub | CC_CLR_SecretParameter.

(** [X86_64ABIInfo::computeSignatureInfo]; any other convention asserts. *)
Definition computeSignatureInfo `{Target} (IsWindows : bool) (CC : CallingConvID)
    (IsManagedCallingConv : bool) (ResultType : ABIType) (ArgTypes : list ABIType) :
    option (ABIArgInfo * list ABIArgInfo) :=
  let CC :=
    match CC with CC_C => if IsWindows then CC_X86_64_Win64 else CC_X86_64_SysV | _ => CC end in
  match CC with
  | CC_X86_64_Win64 =>
      X86_64_Win64.computeSignatureInfo IsManagedCallingConv ResultType ArgTypes
  | CC_X86_64_SysV =>
      X86_64_SysV.computeSignatureInfo IsManagedCallingConv ResultType ArgTypes
  | _ => None
  end.


(** ** Specification: the register assignment of the System V psABI.  A scalar
    takes the next free register of its class, or a stack slot; a structure
    passed by value in memory takes no register. *)

Inductive RegClass : Set := INTEGER | SSE.
Inductive Slot : Set := Scalar (c : RegClass) | Memory.
Inductive Location : Set := InRegister (c : RegClass) | OnStack.

#[export] Instance RegClass_eq_dec : EqDecision RegClass.
Proof. solve_decision. Defined.

Definition class_of (T : Ty) : RegClass :=
  match T with FloatTy | DoubleTy => SSE | _ => INTEGER end.

(** The parameters of the LLVM function that an argument becomes. *)
Definition slots (Info : ABIArgInfo) : list Slot :=
  match Info with
  | Direct T => if isStructTy T || isVectorTy T then [Memory] else [Scalar (class_of T)]
  | Expand l => (fun e => Scalar (class_of (TheType e))) <$> l
  | ZeroExtend T | SignExtend T => [Scalar (class_of T)]
  | Indirect _ => [Scalar INTEGER]
  end.

(** Free registers: general purpose and SSE. *)
Definition Free : Set := (Z * Z)%type.

Definition assign_slot (s : Slot) (free : Free) : Location * Free :=
  match s with
  | Memory => (OnStack, free)
  | Scalar INTEGER =>
      if 0 <? free.1 then (InRegister INTEGER, (free.1 - 1, free.2)) else (OnStack, free)
  | Scalar SSE =>
      if 0 <? free.2 then (InRegister SSE, (free.1, free.2 - 1)) else (OnStack, free)
  end.

Fixpoint assign (l : list Slot) (free : Free) : list Location * Free :=
  match l with
  | [] => ([], free)
  | s :: l' =>
      let '(loc, free) := assign_slot s free in
      let '(locs, free) := assign l' free in
      (loc :: locs, free)
  end.

(** The same for a list of arguments, each of several slots. *)
Fixpoint assign_args (l : list (list Slot)) (free : Free) : list (list Location) * Free :=
  match l with
  | [] => ([], free)
  | s :: l' =>
      let '(loc, free) := assign s free in
      let '(locs, free) := assign_args l' free in
      (loc :: locs, free)
  end.

(** The arguments in the order in which they are passed: the pointer to the
    result comes first, or after [this]. *)
Definition passed (HasThis : bool) (Result : ABIArgInfo) (Infos : list ABIArgInfo) :
    list (list Slot) :=
  let k := if HasThis then 1%nat else 0%nat in
  if isIndirect Result then
    (slots <$> take k Infos) ++ slots Result :: (slots <$> drop k Infos)
  else slots <$> Infos.

Definition position (HasThis : bool) (Result : ABIArgInfo) (i : nat) : nat :=
  if isIndirect Result && (negb HasThis || (0 <? i)%nat) then S i else i.

Definition all_free : Free := (6, 8).

(** ** Lemmas *)

Definition count (c : RegClass) (l : list Expansion) : Z :=
  Z.of_nat (length (filter (fun e => class_of (TheType e) = c) l)).

Lemma count_cons (c : RegClass) (e : Expansion) (l : list Expansion) :
  count c (e :: l) = (if bool_decide (class_of (TheType e) = c) then 1 else 0) + count c l.
Proof.
  unfold count. rewrite filter_cons. case_decide; [rewrite bool_decide_eq_true_2 by done|
    rewrite bool_decide_eq_false_2 by done]; simpl; lia.
Qed.

Lemma count_snoc (c : RegClass) (e : Expansion) (l : list Expansion) :
  count c (l ++ [e]) = count c l + (if bool_decide (class_of (TheType e) = c) then 1 else 0).
Proof.
  induction l as [|e' l IH]; [simpl; rewrite count_cons; unfold count; simpl; lia|].
  cbn [app]. rewrite !count_cons, IH. lia.
Qed.

Lemma count_nonneg (c : RegClass) (l : list Expansion) : 0 <= count c l.
Proof. unfold count. lia. Qed.

Lemma expand_struct_counts (Desc : StructDescriptor) (n i : nat) (l l' : list Expansion)
    (ri rs ri' rs' : Z) :
  X86_64_SysV.expand_struct Desc n i l ri rs = Some (l', ri', rs') ->
  count INTEGER l = ri -> count SSE l = rs ->
  count INTEGER l' = ri' /\ count SSE l' = rs'.
Proof.
  revert i l ri rs. induction n as [|n IH]; intros i l ri rs H Hi Hs; simpl in H.
  - by simplify_eq.
  - destruct (X86_64_SysV.expand_eightbyte Desc i) as [[[e int] sse]|] eqn:E; [|done].
    cbn [mbind option_bind] in H. apply IH in H; [done|..]; rewrite count_snoc;
      unfold X86_64_SysV.expand_eightbyte in E; unfold mbind, option_bind, assert in E;
      case_hyp E; simplify_eq/=; try lia;
      match goal with |- context [?z <=? 4] => destruct (z <=? 4) end; simpl; lia.
Qed.

(** An expanded structure that fits is in registers as a whole. *)
Lemma assign_fits (l : list Expansion) (free : Free) :
  count INTEGER l <= free.1 -> count SSE l <= free.2 ->
  assign (slots (Expand l)) free =
    ((fun e => InRegister (class_of (TheType e))) <$> l,
     (free.1 - count INTEGER l, free.2 - count SSE l)).
Proof.
  revert free. induction l as [|e l IH]; intros [fi fs] Hi Hs; cbn [fst snd] in *.
  - unfold count. simpl. f_equal. f_equal; lia.
  - rewrite !count_cons in *. pose proof (count_nonneg INTEGER l).
    pose proof (count_nonneg SSE l). simpl.
    destruct (class_of (TheType e)) eqn:E; simpl in *.
    + destruct (Z.ltb_spec 0 fi); [|lia].
      change ((fun e => Scalar (class_of (TheType e))) <$> l) with (slots (Expand l)).
      rewrite IH by (simpl; lia). simpl. f_equal. f_equal; lia.
    + destruct (Z.ltb_spec 0 fs); [|lia].
      change ((fun e => Scalar (class_of (TheType e))) <$> l) with (slots (Expand l)).
      rewrite IH by (simpl; lia). simpl. f_equal. f_equal; lia.
Qed.

Lemma assign_args_app (l1 l2 : list (list Slot)) (free : Free) :
  assign_args (l1 ++ l2) free =
    ((assign_args l1 free).1 ++ (assign_args l2 (assign_args l1 free).2).1,
     (assign_args l2 (assign_args l1 free).2).2).
Proof.
  revert free. induction l1 as [|s l1 IH]; intros free; simpl.
  - by destruct (assign_args l2 free).
  - destruct (assign s free) as [loc f]. rewrite IH.
    by destruct (assign_args l1 f) as [? ?].
Qed.

Lemma assign_args_cons (s : list Slot) (l : list (list Slot)) (free : Free) :
  (assign_args (s :: l) free).2 = (assign_args l (assign s free).2).2.
Proof. simpl. destruct (assign s free) as [? f]. simpl. by destruct (assign_args l f). Qed.

Lemma length_assign_args (l : list (list Slot)) (free : Free) :
  length (assign_args l free).1 = length l.
Proof.
  revert free. induction l as [|s l IH]; intros free; simpl; [done|].
  destruct (assign s free) as [loc f]. specialize (IH f).
  destruct (assign_args l f). simpl in *. by rewrite IH.
Qed.

Lemma assign_args_lookup (l : list (list Slot)) (free : Free) (i : nat) (s : list Slot) :
  l !! i = Some s ->
  (assign_args l free).1 !! i = Some (assign s (assign_args (take i l) free).2).1.
Proof.
  intros H. rewrite <- (take_drop_middle l i s H) at 1. rewrite assign_args_app. simpl.
  rewrite lookup_app_r by (rewrite length_assign_args, length_take; lia).
  rewrite length_assign_args, length_take_le by (apply lookup_lt_Some in H; lia).
  rewrite Nat.sub_diag. destruct (assign s _) as [loc f]. simpl.
  by destruct (assign_args (drop (S i) l) f).
Qed.

(** What a classified argument needs is what its slots need. *)
Definition needs (Info : ABIArgInfo) (ri rs : Z) : Prop :=
  match Info with
  | Expand l => count INTEGER l = ri /\ count SSE l = rs
  | _ => exists s, slots Info = [s] /\
      match s with
      | Memory => ri = 0 /\ rs = 0
      | Scalar INTEGER => ri = 1 /\ rs = 0
      | Scalar SSE => ri = 0 /\ rs = 1
      end
  end.

Lemma classifyArgument_needs `{Target} (TheArg : ABIType) (M : bool) (Info : ABIArgInfo) (ri rs : Z) :
  X86_64_SysV.classifyArgument TheArg M = Some (Info, ri, rs) ->
  needs Info ri rs /\
  (forall l, Info = Expand l -> isStructTy (abiType TheArg) || isVectorTy (abiType TheArg) = true).
Proof.
  unfold X86_64_SysV.classifyArgument, X86_64_SysV.classify, assert, extend_small.
  intros HC. unfold mbind, option_bind in HC.
  destruct (abiType TheArg) eqn:ET; simpl in HC; case_hyp HC; simplify_eq/=;
    (split; [|intros ? ?; repeat case_match; simplify_eq; done]);
    repeat case_match; simplify_eq/=;
    try (eexists; split; [reflexivity|done]);
    match goal with H : X86_64_SysV.expand_struct _ _ _ _ _ _ = _ |- _ =>
      exact (expand_struct_counts _ _ _ _ _ _ _ _ _ H eq_refl eq_refl) end.
Qed.

(** One argument: the code's register counts follow the assignment. *)
Lemma take_registers_step (TheArg : ABIType) (Info : ABIArgInfo) (ri rs fi fs : Z) :
  needs Info ri rs -> 0 <= fi -> 0 <= fs ->
  (forall l, Info = Expand l -> isStructTy (abiType TheArg) || isVectorTy (abiType TheArg) = true) ->
  let '(Info', fi', fs') := X86_64_SysV.take_registers TheArg Info ri rs fi fs in
  (assign (slots Info') (fi, fs)).2 = (fi', fs') /\ 0 <= fi' /\ 0 <= fs'.
Proof.
  intros HN Hi Hs Hm. unfold X86_64_SysV.take_registers.
  assert (Hone : forall s, match s with
      | Memory => ri = 0 /\ rs = 0 | Scalar INTEGER => ri = 1 /\ rs = 0
      | Scalar SSE => ri = 0 /\ rs = 1 end ->
    let fi' := if (0 <? ri) && (ri <=? fi) then fi - ri else fi in
    let fs' := if (0 <? rs) && (rs <=? fs) then fs - rs else fs in
    (assign [s] (fi, fs)).2 = (fi', fs') /\ 0 <= fi' /\ 0 <= fs').
  { intros [[]|] [-> ->]; simpl; [destruct (Z.ltb_spec 0 fi), (Z.leb_spec 1 fi)|
      destruct (Z.ltb_spec 0 fs), (Z.leb_spec 1 fs)|]; simpl; try lia; split_and!; done || lia. }
  destruct Info as [T|l|T|T|T]; cbn [needs] in HN;
    try (destruct HN as (s & -> & HN); exact (Hone s HN)).
  destruct HN as [Hri Hrs]. destruct ((fi <? ri) || (fs <? rs)) eqn:E.
  - simpl. rewrite (Hm l eq_refl). done.
  - zbool. rewrite assign_fits by (simpl; lia). cbn [fst snd].
    pose proof (count_nonneg INTEGER l). pose proof (count_nonneg SSE l).
    rewrite Hri, Hrs in *.
    destruct (Z.ltb_spec 0 ri), (Z.leb_spec ri fi), (Z.ltb_spec 0 rs), (Z.leb_spec rs fs);
      simpl; try lia; split_and!; try lia; f_equal; lia.
Qed.

(** All arguments: each one is decided by the registers its predecessors
    leave. *)
Lemma arg_infos_spec `{Target} (M : bool) (ArgTypes : list ABIType) (Infos : list ABIArgInfo)
    (fi fs : Z) :
  X86_64_SysV.arg_infos M fi fs ArgTypes = Some Infos -> 0 <= fi -> 0 <= fs ->
  forall i TheArg, ArgTypes !! i = Some TheArg -> exists Info ri rs,
    X86_64_SysV.classifyArgument TheArg M = Some (Info, ri, rs) /\
    let free := (assign_args (slots <$> take i Infos) (fi, fs)).2 in
    Infos !! i =
      Some (X86_64_SysV.take_registers TheArg Info ri rs free.1 free.2).1.1.
Proof.
  revert fi fs Infos. induction ArgTypes as [|A ArgTypes IH]; intros fi fs Infos HI Hi Hs i TheArg Ha;
    [done|].
  simpl in HI. destruct (X86_64_SysV.classifyArgument A M) as [[[Info ri] rs]|] eqn:EC; [|done].
  cbn [mbind option_bind] in HI.
  destruct (classifyArgument_needs A M Info ri rs EC) as [HN Hm].
  pose proof (take_registers_step A Info ri rs fi fs HN Hi Hs Hm) as Hstep.
  destruct (X86_64_SysV.take_registers A Info ri rs fi fs) as [[Info' fi'] fs'] eqn:ET.
  destruct (X86_64_SysV.arg_infos M fi' fs' ArgTypes) as [Infos'|] eqn:EI; [|done].
  simplify_eq/=. destruct Hstep as (Hass & Hi' & Hs').
  destruct i as [|i].
  - simplify_eq/=. exists Info, ri, rs. by rewrite ET.
  - destruct (IH fi' fs' Infos' EI Hi' Hs' i TheArg Ha) as (Info1 & ri1 & rs1 & HC & HL).
    exists Info1, ri1, rs1. split; [done|]. cbv zeta.
    change (slots <$> take (S i) (Info' :: Infos')) with (slots Info' :: (slots <$> take i Infos')).
    rewrite assign_args_cons, Hass. exact HL.
Qed.

Lemma slots_indirect (Info : ABIArgInfo) : isIndirect Info = true -> slots Info = [Scalar INTEGER].
Proof. by destruct Info. Qed.

(** The result pointer counted in advance is the result pointer passed. *)
Lemma passed_before (HasThis : bool) (R : ABIArgInfo) (Infos : list ABIArgInfo) (i : nat)
    (Info : ABIArgInfo) :
  (HasThis = true -> (0 < i)%nat /\ exists A, Infos !! 0%nat = Some A /\ slots A = [Scalar INTEGER]) ->
  Infos !! i = Some Info ->
  passed HasThis R Infos !! position HasThis R i = Some (slots Info) /\
  (assign_args (take (position HasThis R i) (passed HasThis R Infos)) all_free).2 =
    (assign_args (slots <$> take i Infos) (if isIndirect R then 5 else 6, 8)).2.
Proof.
  intros Ht Hi. unfold passed, position. destruct (isIndirect R) eqn:ER; cbn [andb].
  2:{ by rewrite list_lookup_fmap, Hi, <- fmap_take. }
  rewrite (slots_indirect _ ER). destruct HasThis; cbn [negb orb].
  - destruct (Ht eq_refl) as (Hpos & A & HA & HS).
    destruct Infos as [|A' Infos]; [done|]. injection HA as ->. destruct i as [|i]; [lia|].
    change ((slots <$> take 1 (A :: Infos)) ++ [Scalar INTEGER] :: (slots <$> drop 1 (A :: Infos)))
      with (slots A :: [Scalar INTEGER] :: (slots <$> Infos)).
    change (if (0 <? S i)%nat then S (S i) else S i) with (S (S i)).
    change ((slots A :: [Scalar INTEGER] :: (slots <$> Infos)) !! S (S i))
      with ((slots <$> Infos) !! i).
    change (slots <$> take (S i) (A :: Infos)) with (slots A :: (slots <$> take i Infos)).
    rewrite list_lookup_fmap. simpl in Hi. rewrite Hi. split; [done|].
    cbn [take]. by rewrite HS, !assign_args_cons, fmap_take.
  - change ((slots <$> take 0 Infos) ++ [Scalar INTEGER] :: (slots <$> drop 0 Infos))
      with ([Scalar INTEGER] :: (slots <$> Infos)).
    change (([Scalar INTEGER] :: (slots <$> Infos)) !! S i) with ((slots <$> Infos) !! i).
    rewrite list_lookup_fmap, Hi. split; [done|].
    cbn [take]. by rewrite assign_args_cons, fmap_take.
Qed.

Lemma this_slots `{Target} (M : bool) (A : ABIType) (Info : ABIArgInfo) (ri rs f1 f2 : Z) :
  isPointerTy (abiType A) = true ->
  X86_64_SysV.classifyArgument A M = Some (Info, ri, rs) ->
  slots (X86_64_SysV.take_registers A Info ri rs f1 f2).1.1 = [Scalar INTEGER].
Proof.
  unfold X86_64_SysV.classifyArgument, X86_64_SysV.classify.
  destruct (abiType A) eqn:E; try done. simpl. intros _ [= <- <- <-]. done.
Qed.

Lemma isPowerOf2_small (n : Z) : n <= 8 -> isPowerOf2_64 n = true -> n ∈ [1; 2; 4; 8].
Proof.
  intros Hn HP. unfold isPowerOf2_64 in HP. apply andb_true_iff in HP as [H1 H2]. zbool.
  assert (Hc : n = 1 \/ n = 2 \/ n = 3 \/ n = 4 \/ n = 5 \/ n = 6 \/ n = 7 \/ n = 8) by lia.
  repeat destruct Hc as [->|Hc]; try done; try (subst; done); set_solver.
Qed.

(** A block of whole bytes on Windows. *)
Lemma win64_block (T : Ty) (Size k : Z) :
  Size = k * 8 ->
  exists Info,
    (if (Size / 8 <=? 8) && isPowerOf2_64 (Size / 8) then Some (Direct (IntegerTy Size))
     else Some (Indirect T)) = Some Info /\
    if decide (Size ∈ [8; 16; 32; 64]) then Info = Direct (IntegerTy Size) else Info = Indirect T.
Proof.
  intros ->. rewrite Z.div_mul by lia.
  destruct (Z.leb_spec k 8) as [Hk|Hk]; cbn [andb].
  - destruct (isPowerOf2_64 k) eqn:E.
    + eexists. split; [done|]. rewrite decide_True; [done|].
      apply isPowerOf2_small in E; [|done]. set_solver by lia.
    + eexists. split; [done|]. rewrite decide_False; [done|]. intros Hin.
      assert (Hc : k = 1 \/ k = 2 \/ k = 4 \/ k = 8) by set_solver by lia.
      destruct Hc as [->|[->|[->| ->]]]; done.
  - eexists. split; [done|]. rewrite decide_False; [done|]. set_solver by lia.
Qed.

(** ** Properties *)

(** On System V a structure that the runtime allows in registers is
    expanded exactly if all its eightbytes find a free register, given what the
    arguments before it and the hidden result pointer take; then the psABI
    assignment of the expanded signature puts every eightbyte in a register of
    its class, and otherwise the whole structure is in memory. *)
Theorem sysv_structs_not_split `{Target} (M HasThis : bool) (ResultType : ABIType)
    (ArgTypes : list ABIType) (R : ABIArgInfo) (Infos : list ABIArgInfo) (i : nat) (A : ABIType)
    (Desc : StructDescriptor) (l : list Expansion) (ri rs : Z) :
  X86_64_SysV.computeSignatureInfo M ResultType ArgTypes = Some (R, Infos) ->
  (HasThis = true -> exists A0, ArgTypes !! 0%nat = Some A0 /\ isPointerTy (abiType A0) = true) ->
  ArgTypes !! i = Some A -> isStructTy (abiType A) || isVectorTy (abiType A) = true ->
  getSystemVAmd64PassStructInRegisterDescriptor (abiClass A) = Some Desc ->
  passedInRegisters Desc = true ->
  X86_64_SysV.expand_struct Desc (eightByteCount Desc) 0 [] 0 0 = Some (l, ri, rs) ->
  let order := passed HasThis R Infos in
  let p := position HasThis R i in
  let free := (assign_args (take p order) all_free).2 in
  let where_ := (assign_args order all_free).1 !! p in
  if (ri <=? free.1) && (rs <=? free.2) then
    Infos !! i = Some (Expand l) /\
    where_ = Some ((fun e => InRegister (class_of (TheType e))) <$> l)
  else Infos !! i = Some (Direct (abiType A)) /\ where_ = Some [OnStack].
Proof.
  intros HC Hthis HA Hagg HD HP HE. cbv zeta.
  unfold X86_64_SysV.computeSignatureInfo in HC.
  destruct (X86_64_SysV.classifyResult ResultType M) as [R'|]; [|done].
  cbn [mbind option_bind] in HC.
  destruct (X86_64_SysV.arg_infos M _ 8 ArgTypes) as [Infos'|] eqn:EI; [|done].
  simplify_eq/=.
  pose proof (arg_infos_spec M ArgTypes Infos _ _ EI ltac:(destruct (isIndirect R); lia)
    ltac:(lia)) as Hspec.
  destruct (Hspec i A HA) as (Info & ri' & rs' & Hcl & Hl).
  assert (Hc : (Info, ri', rs') = (Expand l, ri, rs)).
  { unfold X86_64_SysV.classifyArgument, X86_64_SysV.classify in Hcl.
    destruct (abiType A); try done; simpl in Hcl; rewrite HD in Hcl;
      cbn [mbind option_bind] in Hcl; rewrite HP in Hcl; cbn [negb] in Hcl;
      rewrite HE in Hcl; by injection Hcl as <- <- <-. }
  injection Hc as -> -> ->.
  destruct (expand_struct_counts Desc _ 0 [] l 0 0 ri rs HE eq_refl eq_refl) as [Hri Hrs].
  assert (Hb : HasThis = true -> (0 < i)%nat /\
    exists A', Infos !! 0%nat = Some A' /\ slots A' = [Scalar INTEGER]).
  { intros HT. destruct (Hthis HT) as (A0 & HA0 & Hp0). split.
    - destruct i; [|lia]. rewrite HA0 in HA. injection HA as ->. by destruct (abiType A).
    - destruct (Hspec 0%nat A0 HA0) as (I0 & r1 & r2 & Hc0 & Hl0).
      eexists. split; [exact Hl0|]. by eapply this_slots. }
  destruct (passed_before HasThis R Infos i _ Hb Hl) as [Hat Hfree].
  rewrite Hfree, (assign_args_lookup _ _ _ _ Hat), Hfree.
  destruct (assign_args (slots <$> take i Infos) _).2 as [fi fs] eqn:EF.
  rewrite Hl. unfold X86_64_SysV.take_registers. cbn [fst snd].
  destruct (Z.leb_spec ri fi), (Z.leb_spec rs fs), (Z.ltb_spec fi ri), (Z.ltb_spec fs rs);
    try lia; cbn [andb orb fst]; (split; [done|]); simpl; rewrite ?Hagg; try done.
  change ((fun e => Scalar (class_of (TheType e))) <$> l) with (slots (Expand l)).
  by rewrite assign_fits by (simpl; lia).
Qed.

(** On Windows every argument whose value is not void, a function or an
    LLVM array is
    passed in one 64-bit slot: a structure of 1, 2, 4 or 8 bytes as an integer
    of exactly its size, any other structure behind a pointer, a scalar as
    itself, and an integer below 32 bits extended when the call is managed. *)
Theorem win64_classify_correct `{Target} (M : bool) (A : ABIType) :
  isVoidTy (abiType A) = false ->
  (forall id, abiType A <> FunctionTy id) ->
  (forall E n, abiType A <> ArrayTy E n) ->
  (forall w, abiType A = IntegerTy w -> w <= 64) ->
  (8 | getTypeSizeInBits (abiType A)) ->
  exists Info, X86_64_Win64.classify A M = Some Info /\
    if isStructTy (abiType A) || isVectorTy (abiType A) then
      if decide (getTypeSizeInBits (abiType A) ∈ [8; 16; 32; 64])
      then Info = Direct (IntegerTy (getTypeSizeInBits (abiType A)))
      else Info = Indirect (abiType A)
    else
      getType Info = Some (abiType A) /\ isIndirect Info = false /\
      (match Info with Direct _ => false | _ => true end = true <->
       M = true /\ exists w, abiType A = IntegerTy w /\ w < 32).
Proof.
  intros Hv Hf Ha Hw [k Hk]. unfold X86_64_Win64.classify.
  destruct (abiType A) eqn:E; try done; try (by specialize (Hf _ eq_refl));
    try (by specialize (Ha _ _ eq_refl)); simpl in *.
  - rewrite (proj2 (Z.leb_le _ _)) by (by apply Hw). simpl. eexists. split; [done|].
    unfold extend_small. rewrite E. destruct M; simpl.
    + destruct (Z.ltb_spec BitWidth 32); [destruct (abiIsSigned A)|]; simpl;
        naive_solver lia.
    + naive_solver.
  - naive_solver.
  - naive_solver.
  - naive_solver.
  - by eapply win64_block.
  - by eapply win64_block.
Qed.

(** ** Witnesses: [this], four integers and two structures of two eightbytes,
    the second of which no longer fits. *)

#[local] Instance demo_target : Target := {|
  getTypeSizeInBits T := match T with IntegerTy w => w | StructTy n => 8 * n | _ => 64 end;
  getSystemVAmd64PassStructInRegisterDescriptor _ :=
    Some (MkDescriptor true 2
      [SystemVClassificationTypeInteger; SystemVClassificationTypeIntegerReference] [8; 8] [0; 8]) |}.

Definition demo_this : ABIType := MkABIType (PointerTy (StructTy 1) 1) None false.
Definition demo_int : ABIType := MkABIType (IntegerTy 16) None true.
Definition demo_struct : ABIType := MkABIType (StructTy 16) (Some 1) false.
Definition demo_types : list ABIType :=
  [demo_this; demo_int; demo_int; demo_struct; demo_struct; demo_int].
Definition demo_expansions : list Expansion :=
  [MkExpansion (IntegerTy 64) 0; MkExpansion (PointerTy (IntegerTy 8) 1) 8].
Definition demo_infos : ABIArgInfo * list ABIArgInfo :=
  Eval vm_compute in
    default (Direct VoidTy, [])
      (X86_64_SysV.computeSignatureInfo true (MkABIType VoidTy None false) demo_types).

Lemma sysv_structs_not_split_witness :
  demo_infos.2 !! 3%nat = Some (Expand demo_expansions) /\
  demo_infos.2 !! 4%nat = Some (Direct (StructTy 16)).
Proof.
  pose proof (sysv_structs_not_split true true (MkABIType VoidTy None false) demo_types
    demo_infos.1 demo_infos.2 3 demo_struct _ demo_expansions 2 0 eq_refl
    (fun _ => ex_intro _ demo_this (conj eq_refl eq_refl)) eq_refl eq_refl eq_refl eq_refl
    eq_refl) as [H3 _].
  pose proof (sysv_structs_not_split true true (MkABIType VoidTy None false) demo_types
    demo_infos.1 demo_infos.2 4 demo_struct _ demo_expansions 2 0 eq_refl
    (fun _ => ex_intro _ demo_this (conj eq_refl eq_refl)) eq_refl eq_refl eq_refl eq_refl
    eq_refl) as [H4 _].
  split; [exact H3|exact H4].
Defined.

Lemma win64_classify_correct_witness :
  exists Info, X86_64_Win64.classify demo_struct true = Some Info.
Proof.
  destruct (win64_classify_correct true demo_struct) as (Info & H & _);
    [done|done|done|done|by exists 16|].
  exists Info. exact H.
Defined.

End ABI.
