(* ===== verification/ABISignature.v ===== *)
(** * Lowering a signature (lib/Reader/abisignature.cpp, readerir.cpp)

    [createFunction] lays the parameters of the function being compiled out
    and [emitCall] the arguments of a call; [readerPrePass] then moves the
    parameters to the variables of the method.  The theorems show that the
    three agree slot by slot, and on which signatures they do not. *)

From S2P Require Import Prelude IRBuilder GenIRTypes Signature ABI.
Import ABI Signatures.

Module ABISignatures.

(** ** Calling conventions *)

(** The convention and [IsManagedCallingConv] after the call. *)
Definition getLLVMCallingConv (CC : CorInfoCallConv) (IsManagedCallingConv : bool) :
    CallingConvID * bool :=
  match CC with
  | CORINFO_CALLCONV_STDCALL => (CC_X86_StdCall, IsManagedCallingConv)
  | CORINFO_CALLCONV_THISCALL => (CC_X86_ThisCall, IsManagedCallingConv)
  | CORINFO_CALLCONV_FASTCALL => (CC_X86_FastCall, IsManagedCallingConv)
  | CORINFO_CALLCONV_DEFAULT => (CC_C, true)
  | _ => (CC_C, IsManagedCallingConv)
  end.

Definition getNormalizedCallingConvention (CC : CorInfoCallConv) : CorInfoCallConv :=
  match CC with
  | CORINFO_CALLCONV_STDCALL | CORINFO_CALLCONV_THISCALL | CORINFO_CALLCONV_FASTCALL =>
      CORINFO_CALLCONV_C
  | _ => CC
  end.

(** ** [ABISignature] *)

Record ABISignature := MkABISignature {
  Result : ABIArgInfo; Args : list ABIArgInfo; FuncResultType : Ty }.

Section lowering.
(** LLVM's literal structure types, the reader's [getType] for a type with its
    class, and the host. *)
Context {TheTarget : Target}.
Variable StructTypeOf : list Ty -> Ty.
Variable Reader_getType : CallArgType -> Ty.
Variable IsWindows : bool.

Definition getExpandedResultType (Expansions : list Expansion) : option Ty :=
  _ ← assert (0 <? length Expansions)%nat; Some (StructTypeOf (TheType <$> Expansions)).

Definition abi_type (T : CallArgType) : option ABIType :=
  IsSigned ← GenIR.isSignedIntegralType (CorType T);
  Some (MkABIType (Reader_getType T) (ClassHandle T) IsSigned).

(** The constructor. *)
Definition makeABISignature (CallConv : CorInfoCallConv) (TheResultType : CallArgType)
    (ArgTypes : list CallArgType) : option ABISignature :=
  ABIResultType ← abi_type TheResultType;
  ABIArgTypes ← mapM abi_type ArgTypes;
  let '(CC, IsManagedCallingConv) :=
    getLLVMCallingConv (getNormalizedCallingConvention CallConv) false in
  '(R, Infos) ← computeSignatureInfo IsWindows CC IsManagedCallingConv ABIResultType ABIArgTypes;
  FuncTy ← match R with
           | Indirect T => Some (GenIR.getManagedPointerType T)
           | Expand l => getExpandedResultType l
           | Direct T | ZeroExtend T | SignExtend T => Some T
           end;
  Some (MkABISignature R Infos FuncTy).

Definition num_slots (Info : ABIArgInfo) : nat :=
  match Info with Expand l => length l | _ => 1%nat end.

Definition getNumABIArgs (Sig : ABISignature) : nat :=
  foldl (fun NumArgs Info => (NumArgs + num_slots Info)%nat) 0%nat (Args Sig).

Definition hasIndirectResultOrArg (Sig : ABISignature) : bool :=
  if isIndirect (Result Sig) then true else existsb isIndirect (Args Sig).

(** ** The parameters of the function: [createFunction] *)

Inductive Attribute : Set := ZExt | SExt | ByVal.

(** A parameter slot: its type and the attribute set of its index. *)
Record Param := MkParam { pTy : Ty; pAttrs : list Attribute }.

Definition direct_param (Attrs : list Attribute) (T : Ty) : Param :=
  if isStructTy T then MkParam (PointerTy T 0) (Attrs ++ [ByVal]) else MkParam T Attrs.

(** The switch over the kind of an argument: the slots it fills. *)
Definition argument_params (Info : ABIArgInfo) : list Param :=
  match Info with
  | Indirect T => [MkParam (GenIR.getManagedPointerType T) []]
  | Expand l => (fun Exp => MkParam (TheType Exp) []) <$> l
  | ZeroExtend T => [direct_param [ZExt] T]
  | SignExtend T => [direct_param [SExt] T]
  | Direct T => [direct_param [] T]
  end.

(** Writes consecutive elements of an array of [NumArgs] null entries. *)
Fixpoint store_all {A} (v : list (option A)) (I : nat) (l : list A) : option (list (option A)) :=
  match l with
  | [] => Some v
  | x :: l' => v' ← store v I (Some x); store_all v' (S I) l'
  end.

(** [if (ResultIndex >= 0 && I == ResultIndex) I++]. *)
Definition skip_result (ResultIndex : option nat) (I : nat) : nat :=
  if bool_decide (ResultIndex = Some I) then S I else I.

(** The loop over the arguments; the index recorded for an argument is that of
    its last slot. *)
Fixpoint create_loop (ResultIndex : option nat) (Infos : list ABIArgInfo) (I : nat)
    (v : list (option Param)) : option (list (option Param) * list Z) :=
  match Infos with
  | [] => Some (v, [])
  | Info :: Rest =>
      let I := skip_result ResultIndex I in
      let l := argument_params Info in
      v' ← store_all v I l;
      let Index := u32 (Z.of_nat I + Z.of_nat (length l) - 1) in
      '(v'', Indices) ← create_loop ResultIndex Rest (I + length l) v';
      Some (v'', Index :: Indices)
  end.

Record FunctionDesc := MkFunction {
  fnParams : list Param; fnRetAttrs : list Attribute; fnResultIndex : option nat;
  fnIndices : list Z; fnCC : CallingConvID }.

Definition ret_attrs (R : ABIArgInfo) : list Attribute :=
  match R with ZeroExtend _ => [ZExt] | SignExtend _ => [SExt] | _ => [] end.

(** LLVM rejects a null parameter type. *)
Definition createFunction (Sig : ABISignature) (HasThis HasSecretParameter : bool) :
    option FunctionDesc :=
  let NumExtraArgs := if isIndirect (Result Sig) then 1%nat else 0%nat in
  let NumArgs := (getNumABIArgs Sig + NumExtraArgs)%nat in
  let v := replicate NumArgs None in
  '(ResultIndex, v) ←
    match Result Sig with
    | Indirect T =>
        let ResultIndex := if HasThis then 1%nat else 0%nat in
        v ← store v ResultIndex (Some (MkParam (GenIR.getManagedPointerType T) []));
        Some (Some ResultIndex, v)
    | _ => Some (None, v)
    end;
  '(v, Indices) ← create_loop ResultIndex (Args Sig) 0 v;
  Params ← mapM id v;
  Some (MkFunction Params (ret_attrs (Result Sig)) ResultIndex Indices
          (if HasSecretParameter then CC_CLR_SecretParameter else CC_C)).

(** ** The arguments of a call: [emitCall] *)

(** What an argument slot holds: the special argument, the buffer for the
    result, a part of the j-th argument, or all of it (its value, or a
    pointer to it). *)
Inductive Component : Set :=
  | SpecialArg | ResultBuffer | Whole (j : nat) | Field (j e : nat).

(** An argument of the call: the type of its value and whether the value is a
    pointer that stands for a structure. *)
Record ActualArg := MkActual { actualType : Ty; RepresentsStruct : bool }.

Record Passed := MkPassed { passedParam : Param; passedValue : Component }.

Definition getPointerElementType (T : Ty) : option Ty :=
  match T with PointerTy E _ => Some E | _ => None end.

Definition direct_passed (Attrs : list Attribute) (T : Ty) (j : nat) : option (list Passed) :=
  _ ← assert (negb (isVoidTy T));
  Some [MkPassed (if isStructTy T || isVectorTy T
                  then MkParam (PointerTy T 0) (Attrs ++ [ByVal]) else MkParam T Attrs)
          (Whole j)].

(** The switch over the kind of the j-th argument. *)
Definition pass_argument (IsJmp : bool) (Info : ABIArgInfo) (TheArg : ActualArg) (j : nat) :
    option (list Passed) :=
  match Info with
  | Indirect _ =>
      if IsJmp then Some [MkPassed (MkParam (actualType TheArg) []) (Whole j)]
      else if RepresentsStruct TheArg then
        Element ← getPointerElementType (actualType TheArg);
        _ ← assert (isStructTy Element);
        Some [MkPassed (MkParam (actualType TheArg) []) (Whole j)]
      else Some [MkPassed (MkParam (PointerTy (actualType TheArg) 0) []) (Whole j)]
  | Expand l =>
      _ ← assert (isPointerTy (actualType TheArg) && RepresentsStruct TheArg);
      _ ← assert (0 <? length l)%nat;
      Some (imap (fun e Exp => MkPassed (MkParam (TheType Exp) []) (Field j e)) l)
  | ZeroExtend T => direct_passed [ZExt] T j
  | SignExtend T => direct_passed [SExt] T j
  | Direct T => direct_passed [] T j
  end.

(** The loop over the values of the call; [this->Args[J]] is the classification
    of the value. *)
Fixpoint call_loop (IsJmp : bool) (ResultIndex : option nat) (Infos : list ABIArgInfo)
    (Values : list ActualArg) (I J : nat) (v : list (option Passed)) :
    option (list (option Passed)) :=
  match Values with
  | [] => Some v
  | TheArg :: Rest =>
      let I := skip_result ResultIndex I in
      Info ← Infos !! J;
      l ← pass_argument IsJmp Info TheArg J;
      v' ← store_all v I l;
      call_loop IsJmp ResultIndex Infos Rest (I + length l) (S J) v'
  end.

(** The call site as [emitCall] sees it: the type of the indirection cell, if
    any, and of the caller's secret parameter, if it has one. *)
Record CallSite := MkCallSite {
  siteHasThis : bool; siteCallConv : CorInfoCallConv; IndirectionCell : option Ty;
  CallerSecretParam : option Ty; IsJmp : bool }.

(** A word of the target, x86-64. *)
Definition TargetPointerSizeInBits : Z := 64.

Definition special_arg (Site : CallSite) : option Ty :=
  match IndirectionCell Site with
  | Some T => Some T
  | None => if IsJmp Site then CallerSecretParam Site else None
  end.

(** The slots of the call instruction and its convention. *)
Definition emitCall (Sig : ABISignature) (Site : CallSite) (Values : list ActualArg) :
    option (list Passed * CallingConvID) :=
  let HasIndirectionCell := bool_decide (is_Some (IndirectionCell Site)) in
  let IsUnmanagedCall := negb (bool_decide (siteCallConv Site = CORINFO_CALLCONV_DEFAULT)) in
  let IsJmpWithSecretParam := IsJmp Site && bool_decide (is_Some (CallerSecretParam Site)) in
  _ ← assert (b2n HasIndirectionCell + b2n IsUnmanagedCall + b2n IsJmpWithSecretParam <=? 1)%nat;
  let NumSpecialArgs := b2n (HasIndirectionCell || IsJmpWithSecretParam) in
  let NumExtraArgs := (b2n (isIndirect (Result Sig)) + NumSpecialArgs)%nat in
  let v := replicate (getNumABIArgs Sig + NumExtraArgs) None in
  _ ← match IndirectionCell Site with
      | Some T => assert (bool_decide (T = IntegerTy TargetPointerSizeInBits))
      | None => Some tt
      end;
  v ← match special_arg Site with
      | Some T => store v 0 (Some (MkPassed (MkParam T []) SpecialArg))
      | None => Some v
      end;
  '(ResultIndex, v) ←
    match Result Sig with
    | Indirect T =>
        let ResultIndex := (NumSpecialArgs + b2n (siteHasThis Site))%nat in
        let ResultTy :=
          if IsJmp Site then GenIR.getManagedPointerType T else GenIR.getUnmanagedPointerType T in
        v ← store v ResultIndex (Some (MkPassed (MkParam ResultTy []) ResultBuffer));
        Some (Some ResultIndex, v)
    | _ => Some (None, v)
    end;
  v ← call_loop (IsJmp Site) ResultIndex (Args Sig) Values NumSpecialArgs 0 v;
  Slots ← mapM id v;
  CC ← (if HasIndirectionCell then
          _ ← assert (bool_decide (siteCallConv Site = CORINFO_CALLCONV_DEFAULT));
          Some CC_CLR_VirtualDispatchStub
        else if IsJmpWithSecretParam then
          _ ← assert (bool_decide (siteCallConv Site = CORINFO_CALLCONV_DEFAULT));
          Some CC_CLR_SecretParameter
        else
          Some (getLLVMCallingConv (getNormalizedCallingConvention (siteCallConv Site)) false).1);
  Some (Slots, CC).

(** ** The parameters inside the function: [readerPrePass] and [createSym] *)

Definition doesArgumentHaveHome (Info : ABIArgInfo) : bool :=
  match Info with
  | Indirect _ => false
  | Direct T => negb (isStructTy T) && negb (isVectorTy T)
  | _ => true
  end.

(** Where the reader finds an argument: a variable of the given type, or the
    parameter itself. *)
Inductive Home : Set := Alloca (T : Ty) | FunctionArg (Index : nat).

(** [functionArgAt]; past the end it is undefined. *)
Definition functionArgAt (F : FunctionDesc) (I : nat) : option nat :=
  _ ← fnParams F !! I; Some I.

(** [getArgumentInfo(I).getIndex()]. *)
Definition getIndex (F : FunctionDesc) (I : nat) : option nat := Z.to_nat <$> fnIndices F !! I.

(** [createSym] on a parameter. *)
Definition createSym (F : FunctionDesc) (Infos : list ABIArgInfo) (Arguments : list (option Home))
    (s : Sym) : option (list (option Home)) :=
  Info ← Infos !! symNum s;
  if doesArgumentHaveHome Info then
    store Arguments (symNum s) (Some (Alloca (Reader_getType (symType s))))
  else
    Index ← getIndex F (symNum s);
    A ← functionArgAt F Index;
    store Arguments (symNum s) (Some (FunctionArg A)).

Fixpoint create_syms (F : FunctionDesc) (Infos : list ABIArgInfo) (Arguments : list (option Home))
    (l : list Sym) : option (list (option Home)) :=
  match l with
  | [] => Some Arguments
  | s :: l' => Arguments' ← createSym F Infos Arguments s; create_syms F Infos Arguments' l'
  end.

(** One round of the loop that homes the parameters: which parts of the J-th
    argument the slots from [I] hold. *)
Definition home_argument (F : FunctionDesc) (Info : ABIArgInfo) (I J : nat) :
    option (list Component) :=
  match Info with
  | Indirect _ => _ ← assert (negb (doesArgumentHaveHome Info)); Some [Whole J]
  | Expand l =>
      _ ← assert (0 <? length l)%nat;
      _ ← assert (I + length l <=? length (fnParams F))%nat;
      Some (imap (fun e _ => Field J e) l)
  | Direct T | ZeroExtend T | SignExtend T =>
      if isStructTy T || isVectorTy T then
        _ ← assert (negb (doesArgumentHaveHome Info));
        P ← fnParams F !! I;
        Element ← getPointerElementType (pTy P);
        _ ← assert (bool_decide (Element = T));
        _ ← assert (existsb (fun a => match a with ByVal => true | _ => false end) (pAttrs P));
        Some [Whole J]
      else Some [Whole J]
  end.

(** The loop itself; running out of fuel is [None]. *)
Fixpoint home_loop (fuel : nat) (F : FunctionDesc) (Infos : list ABIArgInfo) (I J : nat) :
    option (list Component) :=
  match fuel with
  | 0%nat => None
  | S fuel' =>
      if (I =? length (fnParams F))%nat then Some []
      else if bool_decide (fnResultIndex F = Some I) then
        Rest ← home_loop fuel' F Infos (S I) J; Some (ResultBuffer :: Rest)
      else
        Info ← Infos !! J;
        l ← home_argument F Info I J;
        Rest ← home_loop fuel' F Infos (I + length l) (S J);
        Some (l ++ Rest)
  end.

(** What each parameter slot is taken for. *)
Definition home_arguments (F : FunctionDesc) (Infos : list ABIArgInfo) : option (list Component) :=
  home_loop (S (length (fnParams F))) F Infos 0 0.

(** [thisObj], [instParam] and [secretParam]: the parameters they answer. *)
Definition thisObj (F : FunctionDesc) (Sig : ReaderMethodSignature) : option nat :=
  I ← getThisIndex Sig; Index ← getIndex F I; functionArgAt F Index.
Definition instParam (F : FunctionDesc) (Sig : ReaderMethodSignature) : option nat :=
  I ← getTypeArgIndex Sig; Index ← getIndex F I; functionArgAt F Index.
Definition argList (F : FunctionDesc) (Sig : ReaderMethodSignature) : option nat :=
  I ← getVarArgIndex Sig; Index ← getIndex F I; functionArgAt F Index.
Definition secretParam (F : FunctionDesc) (Sig : ReaderMethodSignature) : option nat :=
  I ← getSecretParameterIndex Sig; _ ← assert (I =? 0)%nat; functionArgAt F 0.

End lowering.

(** ** Specification: the slots of a signature in order *)

(** The parts of the j-th argument. *)
Definition components (j : nat) (Info : ABIArgInfo) : list Component :=
  match Info with Expand l => imap (fun e _ => Field j e) l | _ => [Whole j] end.

(** The items in order, with what belongs to the result in front of them or
    behind the first one. *)
Definition in_order {A} (HasThis : bool) (R : option A) (items : list (list A)) : list A :=
  match R with
  | None => concat items
  | Some x =>
      let k := if HasThis then 1%nat else 0%nat in
      concat (take k items) ++ x :: concat (drop k items)
  end.

Definition signature_components (HasThis : bool) (Sig : ABISignature) : list Component :=
  in_order HasThis (if isIndirect (Result Sig) then Some ResultBuffer else None)
    (imap components (Args Sig)).

(** ** Lemmas: filling an array from left to right around the result slot *)

Fixpoint layout_loop {A} (R : option nat) (items : list (list A)) (I : nat) (v : list (option A)) :
    option (list (option A)) :=
  match items with
  | [] => Some v
  | l :: rest =>
      let I := skip_result R I in
      v' ← store_all v I l; layout_loop R rest (I + length l) v'
  end.

Lemma store_all_spec {A} (l : list A) (pre post : list (option A)) (I : nat) :
  I = length pre ->
  store_all (pre ++ replicate (length l) None ++ post) I l = Some (pre ++ (Some <$> l) ++ post).
Proof.
  revert pre I. induction l as [|x l IH]; intros pre I ->; [done|].
  cbn [length replicate app store_all]. rewrite store_app by done. cbn [mbind option_bind].
  rewrite (cons_middle _ pre), app_assoc, IH by (rewrite length_app; simpl; lia).
  by rewrite <- app_assoc.
Qed.

Lemma skip_after (R : option nat) (I : nat) :
  (forall r, R = Some r -> (r < I)%nat) -> skip_result R I = I.
Proof.
  intros H. unfold skip_result. case_bool_decide as E; [|done]. specialize (H I E). lia.
Qed.

Lemma layout_tail {A} (R : option nat) (items : list (list A)) (pre : list (option A)) (I : nat) :
  I = length pre -> (forall r, R = Some r -> (r < I)%nat) ->
  layout_loop R items I (pre ++ replicate (length (concat items)) None) =
    Some (pre ++ (Some <$> concat items)).
Proof.
  revert pre I. induction items as [|l items IH]; intros pre I HI HR.
  - by simpl.
  - cbn [layout_loop concat]. rewrite skip_after by done. rewrite length_app, replicate_add.
    rewrite store_all_spec by done. cbn [mbind option_bind].
    rewrite app_assoc, IH.
    + by rewrite fmap_app, <- app_assoc.
    + rewrite length_app, length_fmap. lia.
    + intros r Hr. specialize (HR r Hr). lia.
Qed.

(** The first step past the result slot. *)
Lemma layout_skip {A} (items : list (list A)) (I : nat) (v : list (option A)) :
  layout_loop (Some I) items I v =
  match items with [] => Some v | _ => layout_loop (Some I) items (S I) v end.
Proof.
  destruct items as [|l items]; [done|]. cbn [layout_loop].
  assert (E : skip_result (Some I) I = S I)
    by (unfold skip_result; by rewrite bool_decide_eq_true_2).
  rewrite E, (skip_after (Some I) (S I)); [done|]. intros r [= <-]. lia.
Qed.

Lemma layout_skip_tail {A} (items : list (list A)) (pre : list (option A)) (x : A) (I : nat) :
  I = length pre ->
  layout_loop (Some I) items I
    (pre ++ Some x :: replicate (length (concat items)) None) =
  Some (pre ++ Some x :: (Some <$> concat items)).
Proof.
  intros ->. rewrite layout_skip. destruct items as [|l items]; [done|].
  rewrite (cons_middle _ pre), app_assoc. rewrite layout_tail; [by rewrite <- app_assoc|..].
  - rewrite length_app. simpl. lia.
  - intros r [= <-]. lia.
Qed.

(** The whole loop, behind [pre] entries for special arguments. *)
Lemma layout_spec {A} (HasThis : bool) (R : option A) (items : list (list A)) (pre : list A) :
  (HasThis = true -> is_Some R -> exists a rest, items = [a] :: rest) ->
  let k := if HasThis then 1%nat else 0%nat in
  let n := length (concat items) in
  let v := (Some <$> pre) ++ replicate (n + match R with Some _ => 1%nat | None => 0%nat end) None in
  (v' ← match R with
        | Some x => store v (length pre + k) (Some x)
        | None => Some v
        end;
   layout_loop (match R with Some _ => Some (length pre + k)%nat | None => None end) items
     (length pre) v') =
  Some (Some <$> (pre ++ in_order HasThis R items)).
Proof.
  intros Ht k n v. unfold in_order. fold k. destruct R as [x|].
  2:{ subst v n. cbn [mbind option_bind]. rewrite Nat.add_0_r, layout_tail, fmap_app; [done|..].
      - by rewrite length_fmap.
      - done. }
  destruct HasThis; subst k; cbn [mbind option_bind].
  - destruct (Ht eq_refl ltac:(by eexists)) as (a & rest & Hitems).
    subst v n. rewrite Hitems. cbn [concat app length take drop].
    rewrite (Nat.add_1_r (S _)). cbn [replicate].
    rewrite (cons_middle _ (Some <$> pre)), app_assoc.
    rewrite store_app by (rewrite length_app, length_fmap; simpl; lia).
    cbn [mbind option_bind layout_loop].
    assert (E : skip_result (Some (length pre + 1)%nat) (length pre) = length pre).
    { unfold skip_result. rewrite bool_decide_eq_false_2; [done|]. intros [=]. lia. }
    rewrite E.
    rewrite <- app_assoc. cbn [app].
    change (None :: Some x :: replicate (length (concat rest)) None)
      with (replicate (length [a]) None ++ Some x :: replicate (length (concat rest)) None).
    rewrite (store_all_spec [a]); [|by rewrite length_fmap]. cbn [mbind option_bind length].
    rewrite app_assoc, layout_skip_tail by (rewrite length_app, !length_fmap; simpl; lia).
    rewrite !fmap_app. cbn [fmap list_fmap]. by rewrite <- !app_assoc.
  - subst v n. rewrite !Nat.add_0_r, (Nat.add_1_r (length (concat items))). cbn [replicate].
    rewrite store_app by by rewrite length_fmap. cbn [mbind option_bind].
    rewrite layout_skip_tail by by rewrite length_fmap.
    cbn [take drop concat app]. by rewrite fmap_app.
Qed.

Lemma mapM_id_some {A} (l : list A) : mapM id (Some <$> l) = Some l.
Proof. induction l as [|x l IH]; [done|]. cbn. cbn in IH. by rewrite IH. Qed.

(** ** Lemmas: the parameters *)

Lemma length_argument_params (Info : ABIArgInfo) :
  length (argument_params Info) = num_slots Info.
Proof. destruct Info; simpl; rewrite ?length_fmap; done. Qed.

Lemma length_components (j : nat) (Info : ABIArgInfo) : length (components j Info) = num_slots Info.
Proof. destruct Info; simpl; rewrite ?length_imap; done. Qed.

Lemma getNumABIArgs_sum {A} (f : ABIArgInfo -> list A) (Sig : ABISignature) :
  (forall Info, length (f Info) = num_slots Info) ->
  getNumABIArgs Sig = length (concat (f <$> Args Sig)).
Proof.
  intros Hf. unfold getNumABIArgs.
  assert (H : forall l n, foldl (fun NumArgs Info => (NumArgs + num_slots Info)%nat) n l =
    (n + length (concat (f <$> l)))%nat); [|by rewrite H].
  induction l as [|Info l IH]; intros n; [simpl; lia|].
  cbn [foldl fmap list_fmap concat]. rewrite IH, length_app, Hf. lia.
Qed.

(** The indices [create_loop] records. *)
Fixpoint indices (R : option nat) (Infos : list ABIArgInfo) (I : nat) : list Z :=
  match Infos with
  | [] => []
  | Info :: Rest =>
      let I := skip_result R I in
      u32 (Z.of_nat I + Z.of_nat (num_slots Info) - 1) :: indices R Rest (I + num_slots Info)
  end.

Lemma create_loop_layout (R : option nat) (Infos : list ABIArgInfo) (I : nat)
    (v v' : list (option Param)) :
  layout_loop R (argument_params <$> Infos) I v = Some v' ->
  create_loop R Infos I v = Some (v', indices R Infos I).
Proof.
  revert I v. induction Infos as [|Info Infos IH]; intros I v H.
  - by injection H as <-.
  - cbn [create_loop indices]. cbn [fmap list_fmap layout_loop] in H.
    destruct (store_all v (skip_result R I) (argument_params Info)) as [w|]; [|done].
    cbn [mbind option_bind] in *. rewrite length_argument_params in *.
    by rewrite (IH _ _ H).
Qed.

Definition result_param (R : ABIArgInfo) : option Param :=
  match R with Indirect T => Some (MkParam (GenIR.getManagedPointerType T) []) | _ => None end.

Definition result_index (HasThis : bool) (R : ABIArgInfo) : option nat :=
  if isIndirect R then Some (b2n HasThis) else None.

(** [this] is a pointer, which takes one slot. *)
Definition this_is_scalar (HasThis : bool) (Sig : ABISignature) : Prop :=
  HasThis = true -> exists Info Rest, Args Sig = Info :: Rest /\ num_slots Info = 1%nat.

Definition function_of (Sig : ABISignature) (HasThis HasSecret : bool) : FunctionDesc :=
  MkFunction (in_order HasThis (result_param (Result Sig)) (argument_params <$> Args Sig))
    (ret_attrs (Result Sig)) (result_index HasThis (Result Sig))
    (indices (result_index HasThis (Result Sig)) (Args Sig) 0)
    (if HasSecret then CC_CLR_SecretParameter else CC_C).

Lemma one_slot {A} (l : list A) : length l = 1%nat -> exists a, l = [a].
Proof. destruct l as [|a [|]]; simpl; intros; try lia. by exists a. Qed.

Lemma createFunction_spec (Sig : ABISignature) (HasThis HasSecret : bool) :
  this_is_scalar HasThis Sig ->
  createFunction Sig HasThis HasSecret = Some (function_of Sig HasThis HasSecret).
Proof.
  intros Ht. unfold createFunction, function_of.
  rewrite (getNumABIArgs_sum argument_params Sig length_argument_params).
  assert (HT1 : HasThis = true -> is_Some (result_param (Result Sig)) ->
    exists a rest, argument_params <$> Args Sig = [a] :: rest).
  { intros HT _. destruct (Ht HT) as (Info & Rest & -> & H1).
    rewrite <- length_argument_params in H1. apply one_slot in H1 as [a Ha].
    exists a, (argument_params <$> Rest). cbn [fmap list_fmap]. by rewrite Ha. }
  pose proof (layout_spec HasThis (result_param (Result Sig)) (argument_params <$> Args Sig) []
    HT1) as HL. cbv zeta in HL.
  cbn [app length fmap list_fmap Nat.add] in HL.
  destruct (Result Sig) as [T|l|T|T|T]; cbn [isIndirect result_param mbind option_bind] in *;
    try (rewrite (create_loop_layout _ _ _ _ _ HL); cbn [mbind option_bind];
         by rewrite mapM_id_some).
  change (if HasThis then 1%nat else 0%nat) with (b2n HasThis) in *.
  destruct (store _ (b2n HasThis) _) as [v|]; [|done].
  cbn [mbind option_bind] in *. rewrite (create_loop_layout _ _ _ _ _ HL).
  cbn [mbind option_bind]. by rewrite mapM_id_some.
Qed.

(** ** Lemmas: homing *)

(** A value of the type can be homed: vectors passed directly cannot. *)
Definition homeable (Info : ABIArgInfo) : Prop :=
  match Info with
  | Direct T => isVectorTy T = false
  | ZeroExtend T | SignExtend T => isVectorTy T = false /\ isStructTy T = false
  | Expand l => l <> []
  | Indirect _ => True
  end.

Lemma home_argument_spec (F : FunctionDesc) (Info : ABIArgInfo) (I J : nat)
    (pre post : list Param) :
  homeable Info -> fnParams F = pre ++ argument_params Info ++ post -> I = length pre ->
  home_argument F Info I J = Some (components J Info).
Proof.
  intros Hh HF ->. destruct Info as [T|l|T|T|T]; cbn [homeable] in Hh; unfold home_argument.
  - rewrite Hh, orb_false_r. destruct (isStructTy T) eqn:E; [|done].
    unfold doesArgumentHaveHome. rewrite E. cbn [negb andb mbind option_bind assert].
    rewrite HF. cbn [argument_params]. unfold direct_param. rewrite E. cbn [app].
    rewrite list_lookup_middle by done. cbn [mbind option_bind pTy getPointerElementType].
    by rewrite bool_decide_eq_true_2.
  - destruct l as [|e l]; [done|]. cbn [length Nat.ltb Nat.leb assert mbind option_bind].
    rewrite (proj2 (Nat.leb_le _ _)); [done|].
    rewrite HF, !length_app. simpl. rewrite length_fmap. lia.
  - destruct Hh as [-> ->]. done.
  - destruct Hh as [-> ->]. done.
  - done.
Qed.

Lemma homeable_slots (Info : ABIArgInfo) : homeable Info -> (0 < num_slots Info)%nat.
Proof. destruct Info as [|[]| | |]; simpl; intros; try done; lia. Qed.

(** The components of arguments numbered from [j]. *)
Definition components_from (j : nat) (Infos : list ABIArgInfo) : list Component :=
  concat (imap (fun k => components (j + k)) Infos).

Lemma components_from_cons (j : nat) (Info : ABIArgInfo) (Infos : list ABIArgInfo) :
  components_from j (Info :: Infos) = components j Info ++ components_from (S j) Infos.
Proof.
  unfold components_from. cbn [imap concat]. rewrite Nat.add_0_r. f_equal. f_equal.
  apply imap_ext. intros k x _. simpl. f_equal. lia.
Qed.

Lemma home_tail (F : FunctionDesc) (Done Infos : list ABIArgInfo) (pre : list Param) (I J fuel : nat) :
  Forall homeable Infos -> fnParams F = pre ++ concat (argument_params <$> Infos) ->
  I = length pre -> J = length Done -> (forall r, fnResultIndex F = Some r -> (r < I)%nat) ->
  (length (concat (argument_params <$> Infos)) < fuel)%nat ->
  home_loop fuel F (Done ++ Infos) I J = Some (components_from J Infos).
Proof.
  revert Done pre I J fuel. induction Infos as [|Info Infos IH];
    intros Done pre I J fuel Hh HF -> -> HR Hfuel; (destruct fuel as [|fuel]; [lia|]).
  - cbn [home_loop]. rewrite HF, length_app. cbn [fmap list_fmap concat length].
    by rewrite Nat.add_0_r, Nat.eqb_refl.
  - apply Forall_cons_1 in Hh as [Hi Hh].
    cbn [fmap list_fmap concat] in *. rewrite length_app, length_argument_params in Hfuel.
    pose proof (homeable_slots Info Hi) as Hpos.
    cbn [home_loop].
    assert (Hlen : (length pre < length (fnParams F))%nat)
      by (rewrite HF, !length_app, length_argument_params; lia).
    rewrite (proj2 (Nat.eqb_neq _ _)) by lia.
    rewrite bool_decide_eq_false_2 by (intros E; specialize (HR _ E); lia).
    rewrite list_lookup_middle by done. cbn [mbind option_bind].
    rewrite (home_argument_spec F Info _ _ pre _ Hi HF eq_refl). cbn [mbind option_bind].
    rewrite length_components, (cons_middle _ Done), app_assoc.
    rewrite (IH (Done ++ [Info]) (pre ++ argument_params Info)); [|done|..].
    + cbn [mbind option_bind]. by rewrite components_from_cons.
    + by rewrite HF, <- app_assoc.
    + by rewrite length_app, length_argument_params.
    + rewrite length_app. simpl. lia.
    + intros r Hr. specialize (HR r Hr). lia.
    + lia.
Qed.

Lemma in_order_first {A} (x : A) (items : list (list A)) :
  in_order false (Some x) items = x :: concat items.
Proof. done. Qed.

Lemma in_order_second {A} (x : A) (l : list A) (items : list (list A)) :
  in_order true (Some x) (l :: items) = l ++ x :: concat items.
Proof. unfold in_order. cbn [take drop concat]. by rewrite take_0, app_nil_r. Qed.

Lemma signature_components_spec (HasThis : bool) (Sig : ABISignature) :
  this_is_scalar HasThis Sig ->
  signature_components HasThis Sig =
  match HasThis, Args Sig with
  | true, Info :: Rest =>
      if isIndirect (Result Sig)
      then components 0 Info ++ ResultBuffer :: components_from 1 Rest
      else components_from 0 (Args Sig)
  | _, _ =>
      if isIndirect (Result Sig) then ResultBuffer :: components_from 0 (Args Sig)
      else components_from 0 (Args Sig)
  end.
Proof.
  intros Ht. unfold signature_components. destruct HasThis.
  - destruct (Ht eq_refl) as (Info & Rest & -> & _).
    destruct (isIndirect (Result Sig)); [|done]. cbn [imap]. by rewrite in_order_second.
  - by destruct (isIndirect (Result Sig)).
Qed.

Lemma home_loop_S (fuel : nat) (F : FunctionDesc) (Infos : list ABIArgInfo) (I J : nat) :
  home_loop (S fuel) F Infos I J =
  if (I =? length (fnParams F))%nat then Some []
  else if bool_decide (fnResultIndex F = Some I) then
    Rest ← home_loop fuel F Infos (S I) J; Some (ResultBuffer :: Rest)
  else
    Info ← Infos !! J;
    l ← home_argument F Info I J;
    Rest ← home_loop fuel F Infos (I + length l) (S J);
    Some (l ++ Rest).
Proof. done. Qed.

Lemma home_arguments_spec (Sig : ABISignature) (HasThis HasSecret : bool) :
  this_is_scalar HasThis Sig -> Forall homeable (Args Sig) ->
  home_arguments (function_of Sig HasThis HasSecret) (Args Sig) =
    Some (signature_components HasThis Sig).
Proof.
  intros Ht Hh. rewrite signature_components_spec by done. unfold home_arguments.
  set (F := function_of Sig HasThis HasSecret).
  destruct (isIndirect (Result Sig)) eqn:ER.
  2:{ assert (HF : fnParams F = [] ++ concat (argument_params <$> Args Sig)).
      { subst F. unfold function_of. destruct (Result Sig); done. }
      rewrite (home_tail F [] (Args Sig) [] 0 0) by
        (done || (intros r Hr; subst F; unfold function_of, result_index in Hr; simpl in Hr;
                  by rewrite ER in Hr) || (rewrite HF; simpl; lia)).
      destruct HasThis; [|done]. by destruct (Ht eq_refl) as (? & ? & -> & _). }
  destruct (Result Sig) as [| | | |T] eqn:ET; try done.
  assert (HR : fnResultIndex F = Some (b2n HasThis)).
  { subst F. unfold function_of, result_index. by rewrite ET. }
  destruct HasThis.
  - destruct (Ht eq_refl) as (Info & Rest & HA & H1). rewrite HA in *.
    apply Forall_cons_1 in Hh as [Hi Hh].
    assert (HF : fnParams F = argument_params Info
      ++ MkParam (GenIR.getManagedPointerType T) [] :: concat (argument_params <$> Rest)).
    { subst F. unfold function_of. rewrite ET, HA. cbn [result_param fnParams fmap list_fmap].
      by rewrite in_order_second. }
    rewrite <- length_argument_params in H1.
    assert (HL : length (fnParams F) = S (S (length (concat (argument_params <$> Rest))))).
    { rewrite HF, length_app, H1. done. }
    rewrite HL, home_loop_S, HL, HR. cbn [Nat.eqb].
    rewrite bool_decide_eq_false_2 by done. cbn [lookup list_lookup mbind option_bind].
    rewrite (home_argument_spec F Info 0 0 [] _ Hi HF eq_refl). cbn [mbind option_bind].
    rewrite length_components, <- length_argument_params, H1. cbn [Nat.add b2n].
    rewrite home_loop_S, HL, HR. cbn [Nat.eqb b2n]. rewrite bool_decide_eq_true_2 by done.
    change (Info :: Rest) with ([Info] ++ Rest).
    rewrite (home_tail F [Info] Rest (argument_params Info ++ [MkParam (GenIR.getManagedPointerType T) []]));
      [done|done|by rewrite HF, <- app_assoc|by rewrite length_app, H1|done| |simpl; lia].
    intros r Hr. rewrite HR in Hr. injection Hr as <-. simpl. lia.
  - assert (HF : fnParams F = [MkParam (GenIR.getManagedPointerType T) []]
      ++ concat (argument_params <$> Args Sig)).
    { subst F. unfold function_of. by rewrite ET. }
    assert (HL : length (fnParams F) = S (length (concat (argument_params <$> Args Sig))))
      by (by rewrite HF).
    rewrite HL, home_loop_S, HL, HR. cbn [Nat.eqb b2n]. rewrite bool_decide_eq_true_2 by done.
    rewrite (home_tail F [] (Args Sig) [MkParam (GenIR.getManagedPointerType T) []]);
      [done|done|done|done|done| |lia].
    intros r Hr. rewrite HR in Hr. injection Hr as <-. simpl. lia.
Qed.

(** ** Lemmas: the call *)

Fixpoint passed_items (IsJmp : bool) (j : nat) (Infos : list ABIArgInfo)
    (Values : list ActualArg) : option (list (list Passed)) :=
  match Infos, Values with
  | [], [] => Some []
  | Info :: Infos', V :: Values' =>
      l ← pass_argument IsJmp Info V j; r ← passed_items IsJmp (S j) Infos' Values'; Some (l :: r)
  | _, _ => None
  end.

Lemma call_loop_layout (IsJmp : bool) (R : option nat) (Done Infos : list ABIArgInfo)
    (Values : list ActualArg) (items : list (list Passed)) (I J : nat)
    (v v' : list (option Passed)) :
  passed_items IsJmp J Infos Values = Some items -> J = length Done ->
  layout_loop R items I v = Some v' ->
  call_loop IsJmp R (Done ++ Infos) Values I J v = Some v'.
Proof.
  revert Done Infos items I J v. induction Values as [|V Values IH];
    intros Done Infos items I J v HP HJ HL; destruct Infos as [|Info Infos]; simpl in HP; try done.
  - injection HP as <-. done.
  - destruct (pass_argument IsJmp Info V J) as [l|] eqn:El; [|done].
    cbn [mbind option_bind] in HP.
    destruct (passed_items IsJmp (S J) Infos Values) as [r|] eqn:Er; [|done].
    injection HP as <-. cbn [layout_loop] in HL. cbn [call_loop].
    rewrite list_lookup_middle by done. cbn [mbind option_bind]. rewrite El.
    cbn [mbind option_bind].
    destruct (store_all v (skip_result R I) l) as [w|]; [|done]. cbn [mbind option_bind] in *.
    rewrite (cons_middle _ Done), app_assoc. eapply IH; [exact Er| |exact HL].
    rewrite length_app. simpl. lia.
Qed.

(** The value given for an argument has the type the signature says. *)
Definition conforms (IsJmp : bool) (Info : ABIArgInfo) (V : ActualArg) : Prop :=
  match Info with
  | Direct T | ZeroExtend T | SignExtend T => isVoidTy T = false
  | Expand l => isPointerTy (actualType V) = true /\ RepresentsStruct V = true
  | Indirect T =>
      if IsJmp || RepresentsStruct V
      then isStructTy T = true /\ exists s, actualType V = PointerTy T s
      else actualType V = T
  end.

(** The same parameter, up to the address space of a pointer. *)
Definition same_param (P Q : Param) : Prop :=
  pAttrs P = pAttrs Q /\
  (pTy P = pTy Q \/ exists T s s', pTy P = PointerTy T s /\ pTy Q = PointerTy T s').

Lemma pass_argument_spec (IsJmp : bool) (Info : ABIArgInfo) (V : ActualArg) (j : nat) :
  conforms IsJmp Info V -> homeable Info ->
  exists l, pass_argument IsJmp Info V j = Some l /\ passedValue <$> l = components j Info /\
    Forall2 (fun p => same_param (passedParam p)) l (argument_params Info).
Proof.
  assert (Hd : forall Attrs T, isVoidTy T = false -> isVectorTy T = false ->
    exists l, direct_passed Attrs T j = Some l /\ passedValue <$> l = [Whole j] /\
      Forall2 (fun p => same_param (passedParam p)) l [direct_param Attrs T]).
  { intros Attrs T H1 H2. unfold direct_passed, direct_param. rewrite H1, H2, orb_false_r.
    eexists. split; [done|]. split; [done|]. constructor; [|constructor]. simpl.
    destruct (isStructTy T); by split; [|left]. }
  destruct Info as [T|l|T|T|T]; cbn [conforms homeable pass_argument components argument_params].
  - auto.
  - intros [H1 H2] Hl. rewrite H1, H2. destruct l as [|e l]; [done|].
    eexists. split; [reflexivity|]. split.
    + rewrite fmap_imap. done.
    + apply Forall2_same_length_lookup. rewrite length_imap, length_fmap. split; [done|].
      intros i p q Hp Hq. rewrite list_lookup_imap in Hp. rewrite list_lookup_fmap in Hq.
      destruct ((e :: l) !! i) as [e'|]; [|done]. simplify_eq/=. by split; [|left].
  - intros H1 [H2 _]. auto.
  - intros H1 [H2 _]. auto.
  - intros H _. destruct IsJmp; cbn [orb] in H.
    + destruct H as [Hs [s Hty]]. eexists. split; [done|]. split; [done|].
      constructor; [|constructor]. split; [done|]. right. eexists _, _, _. split; [exact Hty|done].
    + destruct (RepresentsStruct V); cbn [orb] in H.
      * destruct H as [Hs [s Hty]]. rewrite Hty. cbn [getPointerElementType mbind option_bind].
        rewrite Hs. eexists. split; [done|]. split; [done|].
        constructor; [|constructor]. split; [done|]. right. eexists _, _, _. by split.
      * eexists. split; [done|]. split; [done|]. constructor; [|constructor]. split; [done|].
        right. rewrite H. eexists _, _, _. by split.
Qed.

Lemma passed_items_spec (IsJmp : bool) (Infos : list ABIArgInfo) (Values : list ActualArg) (j : nat) :
  Forall2 (conforms IsJmp) Infos Values -> Forall homeable Infos ->
  exists items, passed_items IsJmp j Infos Values = Some items /\
    (fun l : list Passed => passedValue <$> l) <$> items = imap (fun k => components (j + k)) Infos /\
    Forall2 (Forall2 (fun p => same_param (passedParam p))) items (argument_params <$> Infos).
Proof.
  intros H. revert j. induction H as [|Info V Infos Values HC H IH]; intros j Hh.
  - exists []. by split_and!.
  - apply Forall_cons_1 in Hh as [Hi Hh].
    destruct (pass_argument_spec IsJmp Info V j HC Hi) as (l & Hl & Hc & Hp).
    destruct (IH (S j) Hh) as (items & HI & HC2 & HP2).
    exists (l :: items). cbn [passed_items]. rewrite Hl. cbn [mbind option_bind]. rewrite HI.
    split; [done|]. split.
    + cbn [fmap list_fmap imap]. rewrite Nat.add_0_r. f_equal; [exact Hc|].
      etrans; [exact HC2|]. apply imap_ext. intros k x _. cbn. by rewrite Nat.add_succ_r.
    + by constructor.
Qed.

Lemma fmap_in_order {A B} (f : A -> B) (HasThis : bool) (R : option A) (items : list (list A)) :
  f <$> in_order HasThis R items =
  in_order HasThis (f <$> R) ((fun l : list A => f <$> l) <$> items).
Proof.
  assert (Hc : forall l : list (list A), f <$> concat l = concat ((fun l : list A => f <$> l) <$> l)).
  { induction l as [|x l IH]; [done|]. cbn [concat]. rewrite fmap_app, IH. done. }
  unfold in_order. destruct R as [x|]; [|apply Hc].
  cbn [fmap option_fmap option_map]. rewrite fmap_app, Hc, fmap_take. f_equal.
  cbn [fmap list_fmap]. f_equal. rewrite <- fmap_drop. apply Hc.
Qed.

Lemma Forall2_concat {A B} (P : A -> B -> Prop) (l : list (list A)) (k : list (list B)) :
  Forall2 (Forall2 P) l k -> Forall2 P (concat l) (concat k).
Proof. induction 1; [constructor|]. simpl. by apply Forall2_app. Qed.

Lemma Forall2_in_order {A B} (P : A -> B -> Prop) (HasThis : bool) (R : option A) (Q : option B)
    (l : list (list A)) (k : list (list B)) :
  match R, Q with Some x, Some y => P x y | None, None => True | _, _ => False end ->
  Forall2 (Forall2 P) l k -> Forall2 P (in_order HasThis R l) (in_order HasThis Q k).
Proof.
  intros HR H. unfold in_order. destruct R, Q; try done; [|by apply Forall2_concat].
  apply Forall2_app; [by apply Forall2_concat, Forall2_take|].
  constructor; [done|]. by apply Forall2_concat, Forall2_drop.
Qed.

(** The special arguments [emitCall] accepts: at most one of an indirection
    cell, an unmanaged target and a jump from a method with a secret
    parameter; the cell is a word. *)
Definition site_ok (Site : CallSite) : Prop :=
  (forall T, IndirectionCell Site = Some T -> T = IntegerTy TargetPointerSizeInBits) /\
  (b2n (bool_decide (is_Some (IndirectionCell Site)))
   + b2n (negb (bool_decide (siteCallConv Site = CORINFO_CALLCONV_DEFAULT)))
   + b2n (IsJmp Site && bool_decide (is_Some (CallerSecretParam Site))) <= 1)%nat.

Definition special_passed (Site : CallSite) : list Passed :=
  match special_arg Site with
  | Some T => [MkPassed (MkParam T []) SpecialArg]
  | None => []
  end.

Lemma special_count (Site : CallSite) :
  b2n (bool_decide (is_Some (IndirectionCell Site))
       || IsJmp Site && bool_decide (is_Some (CallerSecretParam Site))) =
    length (special_passed Site).
Proof.
  unfold special_passed, special_arg.
  by destruct (IndirectionCell Site), (IsJmp Site), (CallerSecretParam Site).
Qed.

Definition result_passed (Site : CallSite) (R : ABIArgInfo) : option Passed :=
  match R with
  | Indirect T =>
      Some (MkPassed (MkParam (if IsJmp Site then GenIR.getManagedPointerType T
                               else GenIR.getUnmanagedPointerType T) []) ResultBuffer)
  | _ => None
  end.

Lemma emitCall_spec (Sig : ABISignature) (Site : CallSite) (Values : list ActualArg)
    (items : list (list Passed)) :
  site_ok Site -> passed_items (IsJmp Site) 0 (Args Sig) Values = Some items ->
  length (concat items) = getNumABIArgs Sig ->
  (siteHasThis Site = true -> is_Some (result_passed Site (Result Sig)) ->
     exists a rest, items = [a] :: rest) ->
  exists CC, emitCall Sig Site Values =
    Some (special_passed Site
          ++ in_order (siteHasThis Site) (result_passed Site (Result Sig)) items, CC).
Proof.
  intros Hs HP Hn Ht. unfold emitCall. rewrite special_count.
  destruct Hs as [Hcell Hs]. rewrite (proj2 (Nat.leb_le _ _) Hs). cbn [assert mbind option_bind].
  assert (HT : match IndirectionCell Site with
    | Some T => assert (bool_decide (T = IntegerTy TargetPointerSizeInBits))
    | None => Some tt end = Some tt).
  { destruct (IndirectionCell Site) as [T|]; [|done].
    by rewrite bool_decide_eq_true_2 by by apply Hcell. }
  rewrite HT. cbn [mbind option_bind]. clear HT.
  pose proof (layout_spec (siteHasThis Site) (result_passed Site (Result Sig)) items
    (special_passed Site) Ht) as HL. cbv zeta in HL. rewrite Hn in HL.
  assert (Hv : match special_arg Site with
    | Some T => store (replicate (getNumABIArgs Sig + (b2n (isIndirect (Result Sig))
        + length (special_passed Site))) None) 0 (Some (MkPassed (MkParam T []) SpecialArg))
    | None => Some (replicate (getNumABIArgs Sig + (b2n (isIndirect (Result Sig))
        + length (special_passed Site))) None)
    end = Some ((Some <$> special_passed Site) ++
      replicate (getNumABIArgs Sig + match result_passed Site (Result Sig) with
        | Some _ => 1%nat | None => 0%nat end) None)).
  { assert (Hb : b2n (isIndirect (Result Sig)) = match result_passed Site (Result Sig) with
        | Some _ => 1%nat | None => 0%nat end) by by destruct (Result Sig).
    rewrite Hb. unfold special_passed. destruct (special_arg Site) as [T|].
    - cbn [length]. rewrite (Nat.add_assoc (getNumABIArgs Sig)), Nat.add_1_r. done.
    - cbn [length]. by rewrite Nat.add_0_r. }
  rewrite Hv. cbn [mbind option_bind].
  assert (HCC : exists CC, (if bool_decide (is_Some (IndirectionCell Site)) then
      _ ← assert (bool_decide (siteCallConv Site = CORINFO_CALLCONV_DEFAULT));
      Some CC_CLR_VirtualDispatchStub
    else if IsJmp Site && bool_decide (is_Some (CallerSecretParam Site)) then
      _ ← assert (bool_decide (siteCallConv Site = CORINFO_CALLCONV_DEFAULT));
      Some CC_CLR_SecretParameter
    else Some (getLLVMCallingConv (getNormalizedCallingConvention (siteCallConv Site)) false).1)
    = Some CC).
  { destruct (bool_decide (is_Some (IndirectionCell Site))),
      (bool_decide (siteCallConv Site = CORINFO_CALLCONV_DEFAULT)),
      (IsJmp Site && bool_decide (is_Some (CallerSecretParam Site))); simpl in *;
      try lia; by eexists. }
  destruct HCC as [CC HCC]. exists CC.
  destruct (Result Sig) as [T|l|T|T|T] eqn:ER; cbn [result_passed mbind option_bind] in *;
    try (change (Args Sig) with ([] ++ Args Sig);
         rewrite (call_loop_layout _ _ [] _ _ _ _ 0 _ _ HP eq_refl HL);
         cbn [mbind option_bind]; rewrite mapM_id_some; cbn [mbind option_bind];
         by rewrite HCC).
  change (if siteHasThis Site then 1%nat else 0%nat) with (b2n (siteHasThis Site)) in HL.
  destruct (store _ (length (special_passed Site) + b2n (siteHasThis Site)) _) as [v|]; [|done].
  cbn [mbind option_bind] in *. change (Args Sig) with ([] ++ Args Sig).
  rewrite (call_loop_layout _ _ [] _ _ _ _ 0 _ _ HP eq_refl HL).
  cbn [mbind option_bind]. rewrite mapM_id_some. cbn [mbind option_bind]. by rewrite HCC.
Qed.

(** ** Lemmas: the recorded indices *)

Lemma store_lookup {A} (v v' : list A) (I i : nat) (x : A) :
  store v I x = Some v' ->
  v' !! i = if decide (i = I) then Some x else v !! i.
Proof.
  unfold store. destruct (Nat.ltb_spec I (length v)); [|done]. intros [= <-].
  destruct (decide (i = I)) as [->|Hn].
  - by apply list_lookup_insert_eq.
  - by apply list_lookup_insert_ne.
Qed.

Lemma store_all_lookup {A} (l : list A) (v v' : list (option A)) (I : nat) :
  store_all v I l = Some v' ->
  (forall i, (i < I)%nat -> v' !! i = v !! i) /\
  (forall k x, l !! k = Some x -> v' !! (I + k)%nat = Some (Some x)).
Proof.
  revert v I. induction l as [|y l IH]; intros v I H; cbn [store_all] in H.
  - injection H as <-. split; [done|]. intros k x. by rewrite lookup_nil.
  - destruct (store v I (Some y)) as [w|] eqn:E; [|done]. cbn [mbind option_bind] in H.
    destruct (IH w (S I) H) as [Hlow Hat]. split.
    + intros i Hi. rewrite Hlow by lia. rewrite (store_lookup _ _ _ i _ E).
      rewrite decide_False by lia. done.
    + intros [|k] x Hk.
      * injection Hk as ->. rewrite Nat.add_0_r, Hlow by lia.
        rewrite (store_lookup _ _ _ I _ E). by rewrite decide_True.
      * rewrite Nat.add_succ_r. apply (Hat k x Hk).
Qed.

Lemma skip_le (R : option nat) (I : nat) : (I <= skip_result R I)%nat.
Proof. unfold skip_result. case_bool_decide; lia. Qed.

Lemma layout_below {A} (R : option nat) (items : list (list A)) (I : nat)
    (v v' : list (option A)) (i : nat) :
  layout_loop R items I v = Some v' -> (i < I)%nat -> v' !! i = v !! i.
Proof.
  revert I v. induction items as [|l items IH]; intros I v H Hi; cbn [layout_loop] in H.
  - by injection H as <-.
  - pose proof (skip_le R I). destruct (store_all v (skip_result R I) l) as [w|] eqn:E; [|done].
    cbn [mbind option_bind] in H. rewrite (IH _ w H) by lia.
    apply (store_all_lookup l v w _ E). lia.
Qed.

Lemma layout_index {A} (R : option nat) (items : list (list A)) (Infos : list ABIArgInfo)
    (I : nat) (v v' : list (option A)) (j : nat) (l : list A) (x : A) :
  Forall2 (fun l Info => length l = num_slots Info) items Infos ->
  layout_loop R items I v = Some v' -> items !! j = Some (l ++ [x]) ->
  exists i, indices R Infos I !! j = Some (u32 (Z.of_nat i)) /\ v' !! i = Some (Some x).
Proof.
  intros HF. revert I v j. induction HF as [|l0 Info items Infos H0 HF IH];
    intros I v j H Hj; [by rewrite lookup_nil in Hj|].
  cbn [layout_loop] in H. destruct (store_all v (skip_result R I) l0) as [w|] eqn:E; [|done].
  cbn [mbind option_bind] in H. cbn [indices]. rewrite <- H0. destruct j as [|j].
  - injection Hj as ->. exists (skip_result R I + length l)%nat. split.
    + simpl. rewrite length_app. simpl. do 2 f_equal. lia.
    + rewrite (layout_below R items _ w v' _ H) by (rewrite length_app; simpl; lia).
      apply (store_all_lookup _ _ _ _ E). by rewrite list_lookup_middle.
  - destruct (IH _ w j H Hj) as (i & Hi & Hv). by exists i.
Qed.

(** The last part of an argument is at its recorded index. *)
Lemma recorded_index (Sig : ABISignature) (HasThis HasSecret : bool) (j : nat)
    (Info : ABIArgInfo) (l : list Component) (c : Component) :
  this_is_scalar HasThis Sig -> Args Sig !! j = Some Info -> components j Info = l ++ [c] ->
  exists i, fnIndices (function_of Sig HasThis HasSecret) !! j = Some (u32 (Z.of_nat i)) /\
    signature_components HasThis Sig !! i = Some c.
Proof.
  intros Ht Hj Hc. cbn [function_of fnIndices].
  set (R := if isIndirect (Result Sig) then Some ResultBuffer else None).
  assert (HT : HasThis = true -> is_Some R ->
    exists a rest, imap components (Args Sig) = [a] :: rest).
  { intros HT _. destruct (Ht HT) as (Info0 & Rest & -> & H1).
    rewrite <- (length_components 0) in H1. apply one_slot in H1 as [a Ha].
    eexists a, _. cbn [imap]. by rewrite Ha. }
  pose proof (layout_spec HasThis R (imap components (Args Sig)) [] HT) as HL.
  cbn [app length fmap list_fmap Nat.add] in HL.
  assert (HI : imap components (Args Sig) !! j = Some (l ++ [c]))
    by (rewrite list_lookup_imap, Hj; simpl; by rewrite Hc).
  assert (HF : Forall2 (fun l Info => length l = num_slots Info) (imap components (Args Sig))
    (Args Sig)).
  { apply Forall2_same_length_lookup. rewrite length_imap. split; [done|].
    intros k x y Hx Hy. rewrite list_lookup_imap, Hy in Hx. injection Hx as <-.
    apply length_components. }
  assert (HR : result_index HasThis (Result Sig) =
    match R with Some _ => Some (if HasThis then 1%nat else 0%nat) | None => None end).
  { unfold result_index, R. by destruct (isIndirect (Result Sig)). }
  rewrite HR. cbv zeta in HL.
  assert (Hv : exists v, layout_loop
      (match R with Some _ => Some (if HasThis then 1%nat else 0%nat) | None => None end)
      (imap components (Args Sig)) 0 v = Some (Some <$> signature_components HasThis Sig)).
  { destruct R as [x|] eqn:ER.
    - destruct (store _ (if HasThis then 1%nat else 0%nat) _) as [v|]; [|done].
      cbn [mbind option_bind] in HL. exists v. rewrite HL. unfold signature_components.
      fold R. by rewrite ER.
    - cbn [mbind option_bind] in HL. eexists. rewrite HL. unfold signature_components.
      fold R. by rewrite ER. }
  destruct Hv as [v Hv].
  destruct (layout_index _ _ _ _ _ _ _ _ _ HF Hv HI) as (i & Hi & Hat).
  exists i. split; [exact Hi|]. rewrite list_lookup_fmap in Hat.
  destruct (signature_components HasThis Sig !! i); by simplify_eq/=.
Qed.

Lemma length_signature_components (HasThis : bool) (Sig : ABISignature) :
  this_is_scalar HasThis Sig ->
  length (signature_components HasThis Sig) =
    length (fnParams (function_of Sig HasThis false)).
Proof.
  intros Ht. cbn [function_of fnParams]. unfold signature_components.
  apply (Forall2_length (fun _ _ => True)). apply Forall2_in_order.
  - by destruct (Result Sig).
  - apply Forall2_same_length_lookup. rewrite length_imap, length_fmap. split; [done|].
    intros k x y Hx Hy. rewrite list_lookup_imap in Hx. rewrite list_lookup_fmap in Hy.
    destruct (Args Sig !! k) as [Info|]; [|done]. simplify_eq/=.
    apply Forall2_same_length_lookup. rewrite length_components, length_argument_params.
    by split.
Qed.

Lemma function_slot (Sig : ABISignature) (HasThis HasSecret : bool) (i : nat) (c : Component) :
  this_is_scalar HasThis Sig -> signature_components HasThis Sig !! i = Some c ->
  functionArgAt (function_of Sig HasThis HasSecret) i = Some i.
Proof.
  intros Ht Hi. unfold functionArgAt.
  assert (Hlt : (i < length (fnParams (function_of Sig HasThis HasSecret)))%nat).
  { change (fnParams (function_of Sig HasThis HasSecret))
      with (fnParams (function_of Sig HasThis false)).
    rewrite <- length_signature_components by done. by eapply lookup_lt_Some. }
  by destruct (lookup_lt_is_Some_2 _ _ Hlt) as [P ->].
Qed.

(** The signature is small enough for 32-bit indices. *)
Definition small_signature (HasThis : bool) (Sig : ABISignature) : Prop :=
  Z.of_nat (length (signature_components HasThis Sig)) < 2 ^ 32.

Lemma unhomed_index (Sig : ABISignature) (HasThis HasSecret : bool) (j : nat) (Info : ABIArgInfo) :
  this_is_scalar HasThis Sig -> small_signature HasThis Sig -> Args Sig !! j = Some Info ->
  components j Info = [Whole j] ->
  exists i, getIndex (function_of Sig HasThis HasSecret) j = Some i /\
    functionArgAt (function_of Sig HasThis HasSecret) i = Some i /\
    signature_components HasThis Sig !! i = Some (Whole j).
Proof.
  intros Ht Hs Hj Hc.
  destruct (recorded_index Sig HasThis HasSecret j Info [] (Whole j) Ht Hj Hc) as (i & Hi & Hat).
  exists i. split_and!; [|by eapply function_slot|done].
  unfold getIndex. rewrite Hi. cbn [fmap option_fmap option_map]. f_equal.
  apply lookup_lt_Some in Hat. unfold small_signature in Hs. unwrap. lia.
Qed.

Lemma create_syms_spec (getTy : CallArgType -> Ty) (Sig : ABISignature) (HasThis HasSecret : bool)
    (syms : list Sym) (Done : list Home) :
  this_is_scalar HasThis Sig -> small_signature HasThis Sig ->
  symNum <$> syms = seq (length Done) (length syms) ->
  (length Done + length syms)%nat = length (Args Sig) ->
  exists Homes,
    create_syms getTy (function_of Sig HasThis HasSecret) (Args Sig)
      ((Some <$> Done) ++ replicate (length syms) None) syms = Some (Some <$> (Done ++ Homes)) /\
    forall j Info s, Args Sig !! (length Done + j)%nat = Some Info -> syms !! j = Some s ->
      if doesArgumentHaveHome Info then Homes !! j = Some (Alloca (getTy (symType s)))
      else exists i, Homes !! j = Some (FunctionArg i) /\
        signature_components HasThis Sig !! i = Some (Whole (length Done + j)%nat).
Proof.
  intros Ht Hs. revert Done. induction syms as [|s syms IH]; intros Done HN Hlen.
  - exists []. simpl. rewrite !app_nil_r. split; [done|]. intros j Info s _. by rewrite lookup_nil.
  - cbn [length fmap list_fmap seq] in HN, Hlen. injection HN as HN1 HN2.
    destruct (lookup_lt_is_Some_2 (Args Sig) (length Done) ltac:(lia)) as [Info HI].
    assert (Hone : exists h, createSym getTy (function_of Sig HasThis HasSecret) (Args Sig)
        ((Some <$> Done) ++ None :: replicate (length syms) None) s =
        Some ((Some <$> Done) ++ Some h :: replicate (length syms) None) /\
      if doesArgumentHaveHome Info then h = Alloca (getTy (symType s))
      else exists i, h = FunctionArg i /\
        signature_components HasThis Sig !! i = Some (Whole (length Done))).
    { unfold createSym. rewrite HN1, HI. cbn [mbind option_bind].
      destruct (doesArgumentHaveHome Info) eqn:EH.
      - rewrite store_app by by rewrite length_fmap. by eexists.
      - assert (Hc : components (length Done) Info = [Whole (length Done)])
          by by destruct Info.
        destruct (unhomed_index Sig HasThis HasSecret _ Info Ht Hs HI Hc) as (i & Hi & Hf & Hat).
        rewrite Hi. cbn [mbind option_bind]. rewrite Hf. cbn [mbind option_bind].
        rewrite store_app by by rewrite length_fmap. eexists. split; [done|]. by exists i. }
    destruct Hone as (h & Hh & Hspec).
    destruct (IH (Done ++ [h])) as (Homes & HC & HA).
    { rewrite length_app. simpl. by rewrite Nat.add_1_r. }
    { rewrite length_app. simpl. lia. }
    exists (h :: Homes). split.
    + cbn [create_syms length replicate]. rewrite Hh. cbn [mbind option_bind].
      rewrite fmap_app, <- app_assoc in HC. cbn [fmap list_fmap app] in HC.
      etrans; [exact HC|]. by rewrite <- app_assoc.
    + intros [|j] Info' s' HI' Hs'.
      * rewrite Nat.add_0_r in *. simplify_eq/=.
        destruct (doesArgumentHaveHome Info); [by rewrite Hspec|].
        destruct Hspec as (i & -> & Hat). by exists i.
      * simpl in Hs'. specialize (HA j Info' s'). rewrite length_app in HA. simpl in HA.
        rewrite <- Nat.add_assoc in HA. simpl in HA. exact (HA HI' Hs').
Qed.

(** ** Lemmas: what the classifiers answer can be lowered *)

Lemma win64_homeable `{Target} (A : ABIType) (M : bool) (Info : ABIArgInfo) :
  X86_64_Win64.classify A M = Some Info -> homeable Info.
Proof.
  unfold X86_64_Win64.classify, ABI.assert, extend_small, mbind, option_bind. intros HC.
  destruct (abiType A); simpl in HC; case_hyp HC; simplify_eq/=;
    repeat case_match; done.
Qed.

Lemma expand_struct_length (Desc : StructDescriptor) (n i : nat) (l l' : list Expansion)
    (ri rs ri' rs' : Z) :
  X86_64_SysV.expand_struct Desc n i l ri rs = Some (l', ri', rs') ->
  length l' = (length l + n)%nat.
Proof.
  revert i l ri rs. induction n as [|n IH]; intros i l ri rs H; simpl in H.
  - injection H as <- <- <-. lia.
  - destruct (X86_64_SysV.expand_eightbyte Desc i) as [[[e int] sse]|]; [|done].
    cbn [mbind option_bind] in H. apply IH in H. rewrite H, length_app. simpl. lia.
Qed.

(** The runtime describes a structure in registers by at least one
    eightbyte. *)
Definition eightbytes_exist `{Target} : Prop :=
  forall c D, getSystemVAmd64PassStructInRegisterDescriptor c = Some D ->
    passedInRegisters D = true -> (0 < eightByteCount D)%nat.

Lemma sysv_homeable `{Target} (A : ABIType) (M : bool) (Info : ABIArgInfo) (ri rs f1 f2 : Z) :
  eightbytes_exist -> isVectorTy (abiType A) = false ->
  X86_64_SysV.classifyArgument A M = Some (Info, ri, rs) ->
  homeable (X86_64_SysV.take_registers A Info ri rs f1 f2).1.1.
Proof.
  intros He Hv HC. assert (Hi : homeable Info).
  { unfold X86_64_SysV.classifyArgument, X86_64_SysV.classify, ABI.assert, extend_small, mbind,
      option_bind in HC.
    destruct (abiType A); simpl in HC, Hv; case_hyp HC; simplify_eq/=;
      try (repeat case_match; done).
    intros ->. match goal with H : X86_64_SysV.expand_struct _ _ _ _ _ _ = _ |- _ =>
      apply expand_struct_length in H; simpl in H end.
    match goal with H : getSystemVAmd64PassStructInRegisterDescriptor _ = Some ?D |- _ =>
      specialize (He _ _ H) end.
    match goal with H : negb _ = false |- _ => apply negb_false_iff in H end.
    intuition lia. }
  unfold X86_64_SysV.take_registers.
  destruct Info; simpl in *; try done.
  by destruct ((f1 <? ri) || (f2 <? rs)).
Qed.

Lemma arg_infos_homeable `{Target} (M : bool) (ArgTypes : list ABIType) (Infos : list ABIArgInfo)
    (fi fs : Z) :
  eightbytes_exist -> Forall (fun A => isVectorTy (abiType A) = false) ArgTypes ->
  X86_64_SysV.arg_infos M fi fs ArgTypes = Some Infos -> Forall homeable Infos.
Proof.
  intros He Hv. revert fi fs Infos. induction Hv as [|A ArgTypes HA Hv IH]; intros fi fs Infos HI.
  - injection HI as <-. constructor.
  - simpl in HI. destruct (X86_64_SysV.classifyArgument A M) as [[[Info ri] rs]|] eqn:EC; [|done].
    cbn [mbind option_bind] in HI.
    pose proof (sysv_homeable A M Info ri rs fi fs He HA EC) as HH.
    destruct (X86_64_SysV.take_registers A Info ri rs fi fs) as [[Info' fi'] fs'].
    destruct (X86_64_SysV.arg_infos M fi' fs' ArgTypes) as [Infos'|] eqn:EI; [|done].
    injection HI as <-. constructor; [exact HH|]. by eapply IH.
Qed.

Lemma length_slots (Info : ABIArgInfo) : length (slots Info) = num_slots Info.
Proof. destruct Info; simpl; rewrite ?length_fmap; try done. by case_match. Qed.

(** A pointer takes one slot on either target. *)
Lemma pointer_first `{Target} (IsWindows : bool) (CC : CallingConvID) (M : bool)
    (ResultType A : ABIType) (Rest : list ABIType) (R : ABIArgInfo) (Infos : list ABIArgInfo) :
  isPointerTy (abiType A) = true ->
  computeSignatureInfo IsWindows CC M ResultType (A :: Rest) = Some (R, Infos) ->
  exists Info Infos', Infos = Info :: Infos' /\ num_slots Info = 1%nat.
Proof.
  intros HA HC. unfold computeSignatureInfo in HC.
  assert (Hw : X86_64_Win64.computeSignatureInfo M ResultType (A :: Rest) = Some (R, Infos) ->
    exists Info Infos', Infos = Info :: Infos' /\ num_slots Info = 1%nat).
  { assert (HD : X86_64_Win64.classify A M = Some (Direct (abiType A)))
      by (unfold X86_64_Win64.classify; by destruct (abiType A)).
    unfold X86_64_Win64.computeSignatureInfo.
    destruct (X86_64_Win64.classifyResult ResultType M); [|done].
    cbn [mbind option_bind mapM]. rewrite HD. cbn [mbind option_bind].
    destruct (mapM _ Rest) as [l|]; [|done]. cbn. intros [= <- <-]. by eexists _, _. }
  assert (Hs : X86_64_SysV.computeSignatureInfo M ResultType (A :: Rest) = Some (R, Infos) ->
    exists Info Infos', Infos = Info :: Infos' /\ num_slots Info = 1%nat).
  { unfold X86_64_SysV.computeSignatureInfo.
    destruct (X86_64_SysV.classifyResult ResultType M) as [R0|]; [|done].
    cbn [mbind option_bind X86_64_SysV.arg_infos].
    destruct (X86_64_SysV.classifyArgument A M) as [[[Info ri] rs]|] eqn:EC; [|done].
    cbn [mbind option_bind].
    match goal with |- context [X86_64_SysV.take_registers A Info ri rs ?a ?b] =>
      pose proof (this_slots M A Info ri rs a b HA EC) as HS;
      destruct (X86_64_SysV.take_registers A Info ri rs a b) as [[Info' fi] fs] end.
    destruct (X86_64_SysV.arg_infos M fi fs Rest); [|done]. intros [= <- <-].
    eexists _, _. split; [done|]. rewrite <- length_slots. simpl in HS. by rewrite HS. }
  destruct CC; try done; try (by apply Hw); try (by apply Hs).
  destruct IsWindows; [by apply Hw|by apply Hs].
Qed.

Lemma computeSignatureInfo_homeable `{Target} (IsWindows : bool) (M : bool) (ResultType : ABIType)
    (ArgTypes : list ABIType) (R : ABIArgInfo) (Infos : list ABIArgInfo) :
  eightbytes_exist ->
  (IsWindows = false -> Forall (fun A => isVectorTy (abiType A) = false) ArgTypes) ->
  computeSignatureInfo IsWindows CC_C M ResultType ArgTypes = Some (R, Infos) ->
  Forall homeable Infos.
Proof.
  intros He Hv HC. unfold computeSignatureInfo in HC. destruct IsWindows.
  - unfold X86_64_Win64.computeSignatureInfo in HC.
    destruct (X86_64_Win64.classifyResult ResultType M); [|done]. cbn [mbind option_bind] in HC.
    destruct (mapM _ ArgTypes) as [l|] eqn:EM; [|done]. injection HC as <- <-.
    apply mapM_Some in EM. clear -EM. induction EM as [|A Info ArgTypes l HA EM IH]; [constructor|].
    constructor; [|exact IH]. by eapply win64_homeable.
  - unfold X86_64_SysV.computeSignatureInfo in HC.
    destruct (X86_64_SysV.classifyResult ResultType M); [|done]. cbn [mbind option_bind] in HC.
    destruct (X86_64_SysV.arg_infos M _ 8 ArgTypes) as [l|] eqn:EI; [|done].
    injection HC as <- <-. eapply arg_infos_homeable; [exact He|by apply Hv|exact EI].
Qed.

Lemma normalized_conv (CC : CorInfoCallConv) :
  (getLLVMCallingConv (getNormalizedCallingConvention CC) false).1 = CC_C.
Proof. by destruct CC. Qed.

(** ** Properties *)

(** Caller and callee lay a signature out alike.  For every classified
    signature, and a call that passes values of the signature's types, the call
    instruction has one slot per parameter of the function, after its special
    argument; corresponding slots have the same attributes and the same type up
    to the address space of a pointer; and the part of an argument that the
    call puts in a slot is the part that the callee's prologue takes from it. *)
Theorem lowering_agrees (Sig : ABISignature) (Site : CallSite) (HasSecret : bool)
    (Values : list ActualArg) :
  this_is_scalar (siteHasThis Site) Sig -> Forall homeable (Args Sig) -> site_ok Site ->
  Forall2 (conforms (IsJmp Site)) (Args Sig) Values ->
  exists F Slots CC,
    createFunction Sig (siteHasThis Site) HasSecret = Some F /\
    emitCall Sig Site Values = Some (special_passed Site ++ Slots, CC) /\
    home_arguments F (Args Sig) = Some (passedValue <$> Slots) /\
    Forall2 (fun p => same_param (passedParam p)) Slots (fnParams F).
Proof.
  intros Ht Hh Hs HV.
  destruct (passed_items_spec (IsJmp Site) (Args Sig) Values 0 HV Hh) as (items & HP & HC & HT).
  assert (Hn : length (concat items) = getNumABIArgs Sig).
  { rewrite (getNumABIArgs_sum argument_params Sig length_argument_params).
    by apply Forall2_concat, Forall2_length in HT. }
  destruct (emitCall_spec Sig Site Values items Hs HP Hn) as [CC HE].
  { intros HT1 _. destruct (Ht HT1) as (Info & Rest & HA & H1). rewrite HA in HT.
    cbn [fmap list_fmap] in HT. apply Forall2_cons_inv_r in HT as (l & rest & Hl & _ & ->).
    apply Forall2_length in Hl. rewrite length_argument_params, H1 in Hl.
    apply one_slot in Hl as [a ->]. by exists a, rest. }
  eexists _, _, _. split; [by apply createFunction_spec|]. split; [exact HE|].
  split; [rewrite home_arguments_spec by done|].
  - rewrite fmap_in_order, HC. unfold signature_components. by destruct (Result Sig).
  - cbn [function_of fnParams]. apply Forall2_in_order; [|exact HT].
    destruct (Result Sig); try done. simpl. split; [done|]. right.
    destruct (IsJmp Site); by eexists _, _, _.
Qed.

(** Every argument of the method is found.  After [createFunction], the
    symbols of the parameters give each argument either a variable of its type
    or the parameter that carries it, which is the right one. *)
Theorem arguments_have_homes (getTy : CallArgType -> Ty) (Sig : ABISignature)
    (HasThis HasSecret : bool) (F : FunctionDesc) (syms : list Sym) :
  this_is_scalar HasThis Sig -> small_signature HasThis Sig ->
  createFunction Sig HasThis HasSecret = Some F ->
  symNum <$> syms = seq 0 (length (Args Sig)) ->
  exists Homes,
    create_syms getTy F (Args Sig) (replicate (length (Args Sig)) None) syms =
      Some (Some <$> Homes) /\
    forall j Info s, Args Sig !! j = Some Info -> syms !! j = Some s ->
      if doesArgumentHaveHome Info then Homes !! j = Some (Alloca (getTy (symType s)))
      else exists i, Homes !! j = Some (FunctionArg i) /\
        signature_components HasThis Sig !! i = Some (Whole j).
Proof.
  intros Ht Hs HF HN. rewrite createFunction_spec in HF by done. injection HF as <-.
  assert (Hlen : length syms = length (Args Sig)).
  { apply (f_equal length) in HN. by rewrite length_fmap, length_seq in HN. }
  destruct (create_syms_spec getTy Sig HasThis HasSecret syms [] Ht Hs) as (Homes & HC & HA).
  - by rewrite Hlen.
  - done.
  - exists Homes. rewrite <- Hlen. split; [exact HC|]. exact HA.
Qed.

(** A method without [this] that has a secret parameter and returns through
    a hidden buffer takes the buffer for its secret parameter: the buffer is
    parameter 0, which is what [secretParam] answers. *)
Theorem secret_parameter_is_result_buffer (Sig : ABISignature) (MSig : ReaderMethodSignature)
    (F : FunctionDesc) (i : nat) :
  isIndirect (Result Sig) = true -> HasThis MSig = false -> HasSecretParameter MSig = true ->
  Forall homeable (Args Sig) ->
  createFunction Sig (HasThis MSig) true = Some F -> secretParam F MSig = Some i ->
  exists Comps, home_arguments F (Args Sig) = Some Comps /\ Comps !! i = Some ResultBuffer.
Proof.
  intros HR Ht Hsec Hh HF Hi. rewrite Ht in HF.
  assert (Hts : this_is_scalar false Sig) by done.
  rewrite createFunction_spec in HF by done. injection HF as <-.
  exists (signature_components false Sig). split; [by apply home_arguments_spec|].
  unfold secretParam, getSecretParameterIndex in Hi. rewrite Hsec in Hi.
  unfold functionArgAt in Hi. cbn [assert mbind option_bind Signatures.assert Nat.eqb] in Hi.
  destruct (fnParams (function_of Sig false true) !! 0%nat); [|done].
  injection Hi as <-. unfold signature_components. by rewrite HR.
Qed.

(** A vector passed directly does not get through: the call passes a
    pointer to it, the function declares the vector itself, and homing the
    parameter fails. *)
Theorem direct_vector_disagrees (E : Ty) (n : Z) (R : Ty) (V : ActualArg) (CallConv : CorInfoCallConv) :
  let T := VectorTy E n in
  let Sig := MkABISignature (Direct R) [Direct T] R in
  exists F CC,
    createFunction Sig false false = Some F /\ fnParams F = [MkParam T []] /\
    emitCall Sig (MkCallSite false CallConv None None false) [V] =
      Some ([MkPassed (MkParam (PointerTy T 0) [ByVal]) (Whole 0)], CC) /\
    home_arguments F (Args Sig) = None.
Proof.
  intros T Sig.
  exists (function_of Sig false false),
    (getLLVMCallingConv (getNormalizedCallingConvention CallConv) false).1.
  split_and!; [done|done| |done].
  unfold emitCall. cbn [siteCallConv IndirectionCell IsJmp CallerSecretParam siteHasThis andb].
  rewrite (bool_decide_eq_false_2 (is_Some None)) by (intros [? ?]; done).
  by destruct (bool_decide (CallConv = CORINFO_CALLCONV_DEFAULT)).
Qed.

(** What the constructor of [ABISignature] computes can always be lowered:
    provided that a signature with [this] starts with a pointer, and that no
    vector is passed on System V, [createFunction] succeeds and the prologue
    takes every slot for the part of the signature that it is. *)
Theorem constructed_signature_lowers `{Target} (StructTypeOf : list Ty -> Ty)
    (getTy : CallArgType -> Ty) (IsWindows : bool) (CallConv : CorInfoCallConv)
    (TheResult : CallArgType) (ArgTypes : list CallArgType) (Sig : ABISignature)
    (HasThis HasSecret : bool) :
  eightbytes_exist ->
  (IsWindows = false -> Forall (fun T => isVectorTy (getTy T) = false) ArgTypes) ->
  (HasThis = true -> exists T Rest, ArgTypes = T :: Rest /\ isPointerTy (getTy T) = true) ->
  makeABISignature StructTypeOf getTy IsWindows CallConv TheResult ArgTypes = Some Sig ->
  exists F, createFunction Sig HasThis HasSecret = Some F /\
    home_arguments F (Args Sig) = Some (signature_components HasThis Sig).
Proof.
  intros He Hv Ht HM. unfold makeABISignature in HM.
  destruct (abi_type getTy TheResult) as [RT|]; [|done]. cbn [mbind option_bind] in HM.
  destruct (mapM (abi_type getTy) ArgTypes) as [Types|] eqn:ET; [|done].
  cbn [mbind option_bind] in HM.
  pose proof (normalized_conv CallConv) as HN.
  destruct (getLLVMCallingConv _ false) as [CC M]. simpl in HN. subst CC.
  destruct (computeSignatureInfo IsWindows CC_C M RT Types) as [[R Infos]|] eqn:EC; [|done].
  cbn [mbind option_bind] in HM.
  assert (HA : Args Sig = Infos).
  { destruct R; cbn [mbind option_bind] in HM; try (by injection HM as <-).
    destruct (getExpandedResultType StructTypeOf Expansions); [|done]. by injection HM as <-. }
  apply mapM_Some in ET.
  assert (Htypes : forall k A, Types !! k = Some A -> exists T, ArgTypes !! k = Some T /\
    abiType A = getTy T).
  { intros k A Hk. destruct (Forall2_lookup_r _ _ _ _ _ ET Hk) as (T & HT & HAT).
    exists T. split; [done|]. unfold abi_type in HAT.
    destruct (GenIR.isSignedIntegralType _); [|done]. by injection HAT as <-. }
  assert (Hh : Forall homeable (Args Sig)).
  { rewrite HA. eapply computeSignatureInfo_homeable; [exact He| |exact EC].
    intros HW. apply Forall_lookup. intros k A Hk. destruct (Htypes k A Hk) as (T & HT & ->).
    exact (proj1 (Forall_lookup _ _) (Hv HW) k T HT). }
  assert (Hthis : this_is_scalar HasThis Sig).
  { intros HT. destruct (Ht HT) as (T & Rest & -> & HP). rewrite HA.
    destruct Types as [|A Types]; [by apply Forall2_length in ET|].
    eapply pointer_first; [|exact EC]. destruct (Htypes 0%nat A eq_refl) as (T' & [= <-] & ->).
    exact HP. }
  eexists. split; [by apply createFunction_spec|]. by apply home_arguments_spec.
Qed.

(** ** Witnesses *)

Definition demo_struct : Ty := StructTy 3.
Definition demo_pointer : Ty := PointerTy demo_struct 1.

(** [this], a structure in two eightbytes, a 16-bit integer and a structure by
    reference; the result is returned through a buffer. *)
Definition demo_sig : ABISignature :=
  MkABISignature (Indirect demo_struct)
    [Direct demo_pointer;
     Expand [MkExpansion (IntegerTy 64) 0; MkExpansion DoubleTy 8];
     ZeroExtend (IntegerTy 16); Indirect demo_struct]
    (PointerTy demo_struct 1).

Definition demo_values : list ActualArg :=
  [MkActual demo_pointer false; MkActual (PointerTy demo_struct 0) true;
   MkActual (IntegerTy 16) false; MkActual (PointerTy demo_struct 0) true].

Definition demo_site : CallSite :=
  MkCallSite true CORINFO_CALLCONV_DEFAULT (Some (IntegerTy 64)) None false.

Lemma demo_this : this_is_scalar true demo_sig.
Proof. intros _. by eexists _, _. Qed.

Lemma demo_homeable : Forall homeable (Args demo_sig).
Proof. by repeat constructor. Qed.

Lemma lowering_agrees_witness : exists F Slots CC,
  createFunction demo_sig true false = Some F /\
  emitCall demo_sig demo_site demo_values =
    Some (MkPassed (MkParam (IntegerTy 64) []) SpecialArg :: Slots, CC) /\
  home_arguments F (Args demo_sig) = Some (passedValue <$> Slots).
Proof.
  destruct (lowering_agrees demo_sig demo_site false demo_values demo_this demo_homeable)
    as (F & Slots & CC & HF & HE & HH & _).
  - split; [by intros T [= <-]|vm_compute; lia].
  - repeat constructor; try done; by eexists.
  - exists F, Slots, CC. split; [exact HF|]. split; [exact HE|exact HH].
Defined.

Definition demo_syms : list Sym :=
  (fun k => MkSym k false (MkCallArgType GenIR.CORINFO_TYPE_CLASS None) false
              Reader_NotSpecialSymbol) <$> seq 0 4.

Definition demo_function : FunctionDesc := Eval vm_compute in function_of demo_sig true false.

Lemma arguments_have_homes_witness : exists Homes,
  create_syms (fun _ => demo_pointer) demo_function (Args demo_sig) (replicate 4 None) demo_syms =
    Some (Some <$> Homes) /\
  exists i, Homes !! 3%nat = Some (FunctionArg i).
Proof.
  destruct (arguments_have_homes (fun _ => demo_pointer) demo_sig true false demo_function demo_syms
    demo_this) as (Homes & HC & HA); [done|by vm_compute|by vm_compute|].
  exists Homes. split; [exact HC|].
  destruct (HA 3%nat _ _ eq_refl eq_refl) as (i & Hi & _). exists i. exact Hi.
Defined.

Definition demo_stub_sig : ABISignature :=
  MkABISignature (Indirect demo_struct) [Direct (IntegerTy 64); Direct DoubleTy]
    (PointerTy demo_struct 1).
Definition demo_stub_method : ReaderMethodSignature :=
  MkMethodSignature false CORINFO_CALLCONV_DEFAULT no_type [no_type; no_type] false false true.

Lemma secret_parameter_is_result_buffer_witness : exists F Comps,
  createFunction demo_stub_sig false true = Some F /\ secretParam F demo_stub_method = Some 0%nat /\
  home_arguments F (Args demo_stub_sig) = Some Comps /\ Comps !! 0%nat = Some ResultBuffer.
Proof.
  destruct (secret_parameter_is_result_buffer demo_stub_sig demo_stub_method
    (function_of demo_stub_sig false true) 0) as (Comps & HH & HC);
    [done|done|done|by repeat constructor|done|done|].
  exists (function_of demo_stub_sig false true), Comps.
  split; [done|]. split; [done|]. split; [exact HH|exact HC].
Defined.

Definition demo_getTy (T : CallArgType) : Ty :=
  match CorType T with
  | GenIR.CORINFO_TYPE_CLASS => demo_pointer
  | GenIR.CORINFO_TYPE_VALUECLASS => demo_struct
  | _ => IntegerTy 16
  end.

Definition demo_target : Target := {|
  getTypeSizeInBits _ := 128;
  getSystemVAmd64PassStructInRegisterDescriptor _ :=
    Some (MkDescriptor true 2
      [SystemVClassificationTypeInteger; SystemVClassificationTypeSSE] [8; 8] [0; 8]) |}.

Definition demo_arg_types : list CallArgType :=
  [MkCallArgType GenIR.CORINFO_TYPE_CLASS (Some 1); MkCallArgType GenIR.CORINFO_TYPE_VALUECLASS (Some 2);
   MkCallArgType GenIR.CORINFO_TYPE_SHORT None].

Definition demo_constructed : option ABISignature :=
  @makeABISignature demo_target (fun _ => demo_struct) demo_getTy false CORINFO_CALLCONV_DEFAULT
    (MkCallArgType GenIR.CORINFO_TYPE_INT None) demo_arg_types.

Lemma constructed_signature_lowers_witness : exists Sig F,
  demo_constructed = Some Sig /\ createFunction Sig true false = Some F /\
  home_arguments F (Args Sig) = Some [Whole 0; Field 1 0; Field 1 1; Whole 2].
Proof.
  destruct (@constructed_signature_lowers demo_target (fun _ => demo_struct) demo_getTy false
    CORINFO_CALLCONV_DEFAULT (MkCallArgType GenIR.CORINFO_TYPE_INT None) demo_arg_types
    (default demo_sig demo_constructed) true false) as (F & HF & HH).
  - intros c D [= <-] _. simpl. lia.
  - intros _. by repeat constructor.
  - intros _. by eexists _, _.
  - done.
  - exists (default demo_sig demo_constructed), F. split; [done|]. split; [exact HF|exact HH].
Defined.

(** The secret parameter is counted as an argument of the callee only: four
    integers and a structure of two eightbytes fit the registers for the
    caller, and the callee expects the structure in memory. *)
Lemma secret_parameter_spills_struct :
  let int := MkABIType (IntegerTy 64) None true in
  let pair := MkABIType demo_struct (Some 1) false in
  let Two : Target := {|
    getTypeSizeInBits _ := 128;
    getSystemVAmd64PassStructInRegisterDescriptor _ :=
      Some (MkDescriptor true 2
        [SystemVClassificationTypeInteger; SystemVClassificationTypeInteger] [8; 8] [0; 8]) |} in
  let caller := @X86_64_SysV.arg_infos Two true 6 8 [int; int; int; int; pair] in
  let callee := @X86_64_SysV.arg_infos Two true 6 8 [int; int; int; int; int; pair] in
  exists l, (caller ≫= last) = Some (Expand l) /\ (callee ≫= last) = Some (Direct demo_struct).
Proof. eexists. split; vm_compute; reflexivity. Qed.

End ABISignatures.
