(* ===== verification/TypeLayout.v ===== *)
(** * The layout of .NET objects as LLVM structures (lib/Reader/readerir.cpp,
      lib/GcInfo/GcInfo.cpp)

    The reader describes a class to LLVM by a packed structure in which padding
    is explicit, so that every field is at the offset where the runtime puts
    it.  This file has the pure part: one step of the loop over the fields of a
    class ([place_field]), overlapping fields ([addFieldsRecursively],
    [createOverlapFields]), arrays ([addArrayFields], [isArrayType]) and the GC
    pointers of a structure ([getGcPointers]). *)

From stdpp Require Import sorting.
From S2P Require Import Prelude.

Module TypeLayout.

(** ** LLVM types.  A structure that is complete carries its name and body; a
    structure behind a pointer, or one that is still opaque, is only named. *)
Inductive LTy : Set :=
  | LVoid
  | LInt (BitWidth : Z)
  | LFloat
  | LDouble
  | LPtr (AddressSpace : Z) (Referent : LTy)
  | LArr (Elem : LTy) (NumElements : Z)
  | LVec (Elem : LTy) (NumElements : Z)
  | LStruct (Name : Z) (Body : list LTy)
  | LNamed (Name : Z).

(** Equality of types, as a Boolean function. *)
Fixpoint LTy_eqb (T U : LTy) : bool :=
  match T, U with
  | LVoid, LVoid | LFloat, LFloat | LDouble, LDouble => true
  | LInt v, LInt w => v =? w
  | LPtr a T, LPtr b U => (a =? b) && LTy_eqb T U
  | LArr T n, LArr U m | LVec T n, LVec U m => (n =? m) && LTy_eqb T U
  | LStruct i Ts, LStruct j Us =>
      (i =? j) && (fix go Ts Us := match Ts, Us with
                   | [], [] => true
                   | T :: Ts, U :: Us => LTy_eqb T U && go Ts Us
                   | _, _ => false
                   end) Ts Us
  | LNamed i, LNamed j => i =? j
  | _, _ => false
  end.

Section LTy_ind'.
Variable P : LTy -> Prop.
Hypothesis HVoid : P LVoid.
Hypothesis HInt : forall w, P (LInt w).
Hypothesis HFloat : P LFloat.
Hypothesis HDouble : P LDouble.
Hypothesis HPtr : forall a T, P T -> P (LPtr a T).
Hypothesis HArr : forall T n, P T -> P (LArr T n).
Hypothesis HVec : forall T n, P T -> P (LVec T n).
Hypothesis HStruct : forall i Ts, Forall P Ts -> P (LStruct i Ts).
Hypothesis HNamed : forall i, P (LNamed i).

Fixpoint LTy_ind' (T : LTy) : P T :=
  match T with
  | LVoid => HVoid
  | LInt w => HInt w
  | LFloat => HFloat
  | LDouble => HDouble
  | LPtr a T => HPtr a T (LTy_ind' T)
  | LArr T n => HArr T n (LTy_ind' T)
  | LVec T n => HVec T n (LTy_ind' T)
  | LStruct i Ts =>
      HStruct i Ts ((fix go Ts : Forall P Ts :=
        match Ts with
        | [] => Forall_nil_2 P
        | T :: Ts => Forall_cons_2 P T Ts (LTy_ind' T) (go Ts)
        end) Ts)
  | LNamed i => HNamed i
  end.
End LTy_ind'.

Lemma LTy_eqb_eq (T U : LTy) : LTy_eqb T U = true <-> T = U.
Proof.
  revert U. induction T as [| | | |a T IH|T n IH|T n IH|i Ts IH|] using LTy_ind';
    intros []; simpl; try (split; (done || congruence)).
  - rewrite Z.eqb_eq. naive_solver.
  - rewrite andb_true_iff, Z.eqb_eq, IH. naive_solver.
  - rewrite andb_true_iff, Z.eqb_eq, IH. naive_solver.
  - rewrite andb_true_iff, Z.eqb_eq, IH. naive_solver.
  - rename Body into Us. rewrite andb_true_iff, Z.eqb_eq.
    assert (H : forall Us, (fix go Ts Us := match Ts, Us with
                   | [], [] => true
                   | T :: Ts, U :: Us => LTy_eqb T U && go Ts Us
                   | _, _ => false
                   end) Ts Us = true <-> Ts = Us).
    { clear Us. induction IH as [|T Ts HT _ IHTs]; intros [|U Us]; try done.
      rewrite andb_true_iff, HT, IHTs. naive_solver. }
    rewrite H. naive_solver.
  - rewrite Z.eqb_eq. naive_solver.
Qed.

#[export] Instance LTy_eq_dec : EqDecision LTy.
Proof.
  intros T U. destruct (LTy_eqb T U) eqn:E.
  - left. by apply LTy_eqb_eq.
  - right. intros H. apply LTy_eqb_eq in H. congruence.
Defined.

(** ** The GC types of lib/GcInfo *)

Definition UnmanagedAddressSpace : Z := 0.
Definition ManagedAddressSpace : Z := 1.

Definition isGcPointer (T : LTy) : bool :=
  match T with LPtr AddressSpace _ => AddressSpace =? ManagedAddressSpace | _ => false end.

(** [isGcType]; [isGcAggregate] is its case for aggregates. *)
Fixpoint isGcType (T : LTy) : bool :=
  match T with
  | LPtr _ _ => isGcPointer T
  | LVec Elem _ | LArr Elem _ => isGcPointer Elem
  | LStruct _ Body => existsb isGcType Body
  | _ => false
  end.

Definition isGcAggregate (T : LTy) : bool :=
  match T with LPtr _ _ => false | _ => isGcType T end.

Definition getManagedPointerType (T : LTy) : LTy := LPtr ManagedAddressSpace T.
Definition getUnmanagedPointerType (T : LTy) : LTy := LPtr UnmanagedAddressSpace T.

(** ** LLVM's data layout; the last three questions are about the layout of a
    packed structure with the given body. *)
Class DataLayout := {
  getTypeSizeInBits : LTy -> Z;
  getTypeAllocSize : LTy -> Z;
  getPointerSizeInBits : Z;
  getStructSize : list LTy -> Z;
  getElementOffset : list LTy -> nat -> Z;
  getElementContainingOffset : list LTy -> Z -> nat }.

Definition assert (b : bool) : option unit := if b then Some tt else None.

Section layout.
Context {DL : DataLayout}.

Definition bytes (T : LTy) : Z := getTypeSizeInBits T / 8.
Definition getPointerByteSize : Z := getPointerSizeInBits / 8.

(** The types whose elements follow each other without gaps: no vector, whose
    allocation size LLVM rounds up, and no empty type. *)
Fixpoint solid (T : LTy) : bool :=
  match T with
  | LInt w => (w =? 8) || (w =? 16) || (w =? 32) || (w =? 64)
  | LFloat | LDouble | LPtr _ _ => true
  | LArr Elem n => (0 <? n) && solid Elem
  | LStruct _ Body => negb (bool_decide (Body = [])) && forallb solid Body
  | _ => false
  end.

(** The total of a body under a measure of its elements. *)
Definition total (size : LTy -> Z) (Body : list LTy) : Z := foldr Z.add 0 (size <$> Body).

(** The rules of the LLVM language reference and of its data layout strings for
    the targets of the JIT: the sizes, elements of a packed structure one
    behind the other, and the element an offset falls into. *)
Class DataLayoutLaws : Prop := {
  pointer_law : getPointerSizeInBits = 32 \/ getPointerSizeInBits = 64;
  int_law : forall w, 0 <= w -> getTypeSizeInBits (LInt w) = w;
  float_law : getTypeSizeInBits LFloat = 32;
  double_law : getTypeSizeInBits LDouble = 64;
  ptr_law : forall a T, getTypeSizeInBits (LPtr a T) = getPointerSizeInBits;
  array_law : forall T n, 0 <= n -> getTypeSizeInBits (LArr T n) = 8 * (n * getTypeAllocSize T);
  struct_law : forall i Body,
    getTypeSizeInBits (LStruct i Body) = 8 * total getTypeAllocSize Body;
  alloc_law : forall T, solid T = true -> 8 * getTypeAllocSize T = getTypeSizeInBits T;
  struct_size_law : forall Body, getStructSize Body = total getTypeAllocSize Body;
  offset_law : forall Body i, getElementOffset Body i = total getTypeAllocSize (take i Body);
  empty_law : forall T, getTypeAllocSize (LArr T 0) = 0;
  containing_law : forall Body o, 0 <= o < total getTypeAllocSize Body ->
    let i := getElementContainingOffset Body o in
    is_Some (Body !! i) /\
    total getTypeAllocSize (take i Body) <= o < total getTypeAllocSize (take (S i) Body) }.

(** ** Overlapping fields *)

(** Pushes the primitive parts of a type that starts at [Offset]. *)
Fixpoint addFieldsRecursively (Fields : list (Z * LTy)) (Offset : Z) (T : LTy) : list (Z * LTy) :=
  match T with
  | LStruct _ Body =>
      (fix go Fields Offset Body :=
         match Body with
         | [] => Fields
         | SubTy :: Rest => go (addFieldsRecursively Fields Offset SubTy) (Offset + bytes SubTy) Rest
         end) Fields Offset Body
  | _ => Fields ++ [(Offset, T)]
  end.

Variable getBuiltInObjectType : LTy.
(** The address of the type object, by which [std::sort] orders pairs with
    equal offsets. *)
Variable TypeAddr : LTy -> Z.

Definition overlap_le (F G : Z * LTy) : Prop :=
  F.1 < G.1 \/ (F.1 = G.1 /\ TypeAddr F.2 <= TypeAddr G.2).

#[global] Instance overlap_le_dec (F G : Z * LTy) : Decision (overlap_le F G).
Proof. unfold overlap_le. apply _. Defined.

(** The first walk: the distinct offsets of references and the end. *)
Definition scan_overlap (st : list Z * Z) (OverlapField : Z * LTy) : option (list Z * Z) :=
  let '(GcOffsets, OverlapEndOffset) := st in
  let '(Offset, T) := OverlapField in
  let Size := bytes T in
  let OverlapEndOffset := Z.max OverlapEndOffset (Offset + Size) in
  if isGcPointer T then
    _ ← assert (Offset mod getPointerByteSize =? 0);
    match last GcOffsets with
    | None => Some (GcOffsets ++ [Offset], OverlapEndOffset)
    | Some LastOffset =>
        _ ← assert (LastOffset <=? Offset);
        Some (if LastOffset <? Offset then GcOffsets ++ [Offset] else GcOffsets, OverlapEndOffset)
    end
  else Some (GcOffsets, OverlapEndOffset).

Definition bytes_type (n : Z) : LTy := LArr (LInt 8) n.

(** The second walk: the representative fields and the offset it ends at. *)
Fixpoint gc_fields (GcOffsets : list Z) (CurrentOffset : Z) (Fields : list LTy) :
    option (list LTy * Z) :=
  match GcOffsets with
  | [] => Some (Fields, CurrentOffset)
  | GcOffset :: Rest =>
      _ ← assert (CurrentOffset <=? GcOffset);
      let NonGcPreambleSize := GcOffset - CurrentOffset in
      let Fields :=
        if 0 <? NonGcPreambleSize then Fields ++ [bytes_type NonGcPreambleSize] else Fields in
      gc_fields Rest (CurrentOffset + getPointerByteSize) (Fields ++ [getBuiltInObjectType])
  end.

(** A [foldlM] over the option monad. *)
Fixpoint foldM {A B} (f : A -> B -> option A) (a : A) (l : list B) : option A :=
  match l with
  | [] => Some a
  | b :: Rest => a' ← f a b; foldM f a' Rest
  end.

(** The new list of fields; the set of overlapping fields is emptied. *)
Definition createOverlapFields (OverlapFields : list (Z * LTy)) (Fields : list LTy) :
    option (list LTy) :=
  let OverlapFields := merge_sort overlap_le OverlapFields in
  '(GcOffsets, OverlapEndOffset) ← foldM scan_overlap ([], 0) OverlapFields;
  First ← head OverlapFields;
  let FirstOffset := First.1 in
  '(Fields, CurrentOffset) ← gc_fields GcOffsets FirstOffset Fields;
  _ ← assert (CurrentOffset <=? OverlapEndOffset);
  Some (if CurrentOffset <? OverlapEndOffset
        then Fields ++ [bytes_type (OverlapEndOffset - CurrentOffset)] else Fields).

(** ** Placing the fields of a class *)

(** What the loop knows of the class: the special cases, and the first and
    the last of its fields (in order of offsets). *)
Record ClassKind := MkKind {
  IsUnion : bool; IsTypedByref : bool; IsString : bool;
  FirstField : option Z; LastField : option Z }.

Record LayoutState := MkLayout {
  Fields : list LTy; ByteOffset : Z; OverlappingFields : list (Z * LTy);
  FieldIndexMap : gmap Z nat }.

(** Creates the fields of a pending overlap set. *)
Definition flush_overlap (st : LayoutState) : option LayoutState :=
  match OverlappingFields st with
  | [] => Some st
  | _ => Fields' ← createOverlapFields (OverlappingFields st) (Fields st);
         Some (MkLayout Fields' (ByteOffset st) [] (FieldIndexMap st))
  end.

(** The type the field gets: the first field of a typed reference is a
    reference, the last one of a string the start of its characters. *)
Definition tweak (K : ClassKind) (FieldHandle : Z) (FieldTy : LTy) : LTy :=
  let FieldTy :=
    if IsTypedByref K && bool_decide (FirstField K = Some FieldHandle)
    then getManagedPointerType FieldTy else FieldTy in
  if IsString K && bool_decide (LastField K = Some FieldHandle) then LArr FieldTy 0 else FieldTy.

(** Validates or records the index of a field. *)
Definition record_index (m : gmap Z nat) (FieldHandle : Z) (Index : nat) : option (gmap Z nat) :=
  match m !! FieldHandle with
  | Some Old => _ ← assert (Old =? Index)%nat; Some m
  | None => Some (<[FieldHandle := Index]> m)
  end.

(** A field at or behind the current offset. *)
Definition append_field (K : ClassKind) (st : LayoutState) (FieldOffset FieldHandle : Z)
    (FieldTy : LTy) : option LayoutState :=
  st ← flush_overlap st;
  let '(Fields, ByteOffset) :=
    if ByteOffset st <? FieldOffset then
      let PadTy := bytes_type (FieldOffset - ByteOffset st) in
      (Fields st ++ [PadTy], ByteOffset st + bytes PadTy)
    else (Fields st, ByteOffset st) in
  _ ← assert (FieldOffset =? ByteOffset);
  FieldIndexMap ← record_index (FieldIndexMap st) FieldHandle (length Fields);
  let FieldTy := tweak K FieldHandle FieldTy in
  Some (MkLayout (Fields ++ [FieldTy]) (ByteOffset + bytes FieldTy) (OverlappingFields st)
          FieldIndexMap).

(** A field before the current offset joins the overlap set; the first one
    takes the field before it along. *)
Definition overlap_field (K : ClassKind) (st : LayoutState) (FieldOffset : Z) (FieldTy : LTy) :
    option LayoutState :=
  _ ← assert (IsUnion K);
  _ ← assert (negb (IsTypedByref K));
  _ ← assert (negb (IsString K));
  '(Kept, Overlap) ←
    match OverlappingFields st with
    | [] =>
        PreviousFieldTy ← last (Fields st);
        let PreviousOffset := ByteOffset st - bytes PreviousFieldTy in
        Some (removelast (Fields st), addFieldsRecursively [] PreviousOffset PreviousFieldTy)
    | Overlap => Some (Fields st, Overlap)
    end;
  Some (MkLayout Kept (Z.max (ByteOffset st) (FieldOffset + bytes FieldTy))
          (addFieldsRecursively Overlap FieldOffset FieldTy) (FieldIndexMap st)).

Definition place_field (K : ClassKind) (st : LayoutState) (F : Z * Z * LTy) : option LayoutState :=
  let '(FieldOffset, FieldHandle, FieldTy) := F in
  if FieldOffset <? ByteOffset st then overlap_field K st FieldOffset FieldTy
  else append_field K st FieldOffset FieldHandle FieldTy.

(** The padding at the end of a value class whose size is known. *)
Definition end_padding (EEClassSize : option Z) (st : LayoutState) : option LayoutState :=
  match EEClassSize with
  | None => Some st
  | Some Size =>
      _ ← assert (ByteOffset st <=? Size);
      let EndPadSize := Size - ByteOffset st in
      Some (if 0 <? EndPadSize then
              let PadTy := bytes_type EndPadSize in
              MkLayout (Fields st ++ [PadTy]) (ByteOffset st + bytes PadTy) (OverlappingFields st)
                (FieldIndexMap st)
            else st)
  end.

(** The fields a class adds behind those of its parent, given their types. *)
Definition place_fields (K : ClassKind) (EEClassSize : option Z) (st : LayoutState)
    (DerivedFields : list (Z * Z * LTy)) : option LayoutState :=
  st ← foldM (place_field K) st DerivedFields;
  st ← flush_overlap st;
  end_padding EEClassSize st.

(** ** Arrays *)

(** The fields behind those of System.Array, and their size. *)
Definition addArrayFields (Fields : list LTy) (IsVector : bool) (ArrayRank : Z) (ElementTy : LTy) :
    list LTy * Z :=
  let ArrayLengthTy := LInt 32 in
  let Fields := Fields ++ [ArrayLengthTy] in
  let FieldByteSize := bytes ArrayLengthTy in
  let '(Fields, FieldByteSize) :=
    if getPointerSizeInBits =? 64 then
      let ArrayPadTy := bytes_type 4 in
      (Fields ++ [ArrayPadTy], FieldByteSize + bytes ArrayPadTy)
    else (Fields, FieldByteSize) in
  let '(Fields, FieldByteSize) :=
    if negb IsVector then
      let ArrayOfDimLengthsTy := LArr (LInt 32) ArrayRank in
      let ArrayOfDimLowerBoundsTy := LArr (LInt 32) ArrayRank in
      (Fields ++ [ArrayOfDimLengthsTy] ++ [ArrayOfDimLowerBoundsTy],
       FieldByteSize + bytes ArrayOfDimLengthsTy + bytes ArrayOfDimLowerBoundsTy)
    else (Fields, FieldByteSize) in
  (Fields ++ [LArr ElementTy 0], FieldByteSize).

(** A pointer to the method table, the first field of every object. *)
Definition VtablePtrTy : LTy :=
  LPtr UnmanagedAddressSpace
    (LArr (LPtr UnmanagedAddressSpace (LInt getPointerSizeInBits)) 0).

(** The body of the structure [createArrayOfElementType] makes. *)
Definition createArrayOfElementType (ElementTy : LTy) : list LTy :=
  (addArrayFields [VtablePtrTy] true 1 ElementTy).1.

(** The body of a structure type, [None] for another type. *)
Variable struct_body : LTy -> option (list LTy).

Definition isArrayType (ArrayTy : LTy) (ElementTy : option LTy) : option bool :=
  _ ← assert (isGcPointer ArrayTy);
  match ArrayTy with
  | LPtr _ T =>
      match struct_body T with
      | None => Some false
      | Some Body =>
          let IndexOfElements := if getPointerByteSize =? 4 then 2%nat else 3%nat in
          if negb (length Body =? S IndexOfElements)%nat then Some false
          else
            match Body !! IndexOfElements with
            | Some (LArr ActualElementTy n) =>
                Some ((n =? 0) &&
                      match ElementTy with
                      | Some E => LTy_eqb E ActualElementTy
                      | None => true
                      end)
            | _ => Some false
            end
      end
  | _ => None
  end.

(** ** The GC pointers of a structure *)

(** The primitive field at an offset, through nested value classes. *)
Fixpoint field_at (T : LTy) (Offset : Z) : option LTy :=
  match T with
  | LStruct _ Body =>
      let Index := getElementContainingOffset Body Offset in
      let BaseOffset := getElementOffset Body Index in
      _ ← assert (BaseOffset <=? Offset);
      Inner ← map field_at Body !! Index;
      Inner (Offset - BaseOffset)
  | _ => Some T
  end.

(** The walk in pointer-sized jumps; [n] bounds the rounds. *)
Fixpoint gc_pointers_from (n : nat) (Body : list LTy) (GcOffset : Z) : option (list Z) :=
  match n with
  | 0%nat => Some []
  | S n' =>
      if GcOffset <? getStructSize Body then
        FieldTy ← field_at (LStruct 0 Body) GcOffset;
        Pointers ← gc_pointers_from n' Body (GcOffset + getPointerByteSize);
        Some (if isGcPointer FieldTy then GcOffset :: Pointers else Pointers)
      else Some []
  end.

Definition getGcPointers (Body : list LTy) : option (list Z) :=
  gc_pointers_from (S (Z.to_nat (getStructSize Body))) Body 0.
End layout.

(** ** Sizes *)

#[local] Notation alloc := getTypeAllocSize.

Lemma total_cons {f : LTy -> Z} (T : LTy) (l : list LTy) : total f (T :: l) = f T + total f l.
Proof. done. Qed.

Lemma total_app {f : LTy -> Z} (k l : list LTy) : total f (k ++ l) = total f k + total f l.
Proof.
  induction k as [|T k IH]; simpl; [done|]. rewrite !total_cons, IH. lia.
Qed.

Section laws.
Context `{DataLayoutLaws}.

Lemma bytes_mul (T : LTy) (n : Z) : getTypeSizeInBits T = 8 * n -> bytes T = n.
Proof. intros HT. unfold bytes. by rewrite HT, Z.mul_comm, Z.div_mul. Qed.

Lemma solid_alloc (T : LTy) : solid T = true -> 0 < alloc T.
Proof.
  intros HS. pose proof (alloc_law T HS) as HA. revert HS HA.
  induction T as [| | | |a T IH|T n IH|T n IH|i Ts IH|] using LTy_ind'; intros HS HA; try done.
  - simpl in HS. rewrite !orb_true_iff, !Z.eqb_eq in HS. rewrite int_law in HA by lia. lia.
  - rewrite float_law in HA. lia.
  - rewrite double_law in HA. lia.
  - rewrite ptr_law in HA. destruct pointer_law; lia.
  - simpl in HS. apply andb_prop in HS as [Hn HT]. apply Z.ltb_lt in Hn.
    rewrite array_law in HA by lia. specialize (IH HT (alloc_law T HT)). nia.
  - rewrite struct_law in HA. simpl in HS. apply andb_prop in HS as [Hn HT].
    assert (HP : forall U, U ∈ Ts -> 0 < alloc U).
    { intros U HU. rewrite Forall_forall in IH. rewrite forallb_forall in HT.
      apply IH; [done| |apply alloc_law]; apply HT; by apply list_elem_of_In. }
    clear -HA HP Hn. destruct Ts as [|T Ts]; [done|].
    assert (0 < alloc T) by (apply HP; constructor).
    assert (0 <= total alloc Ts); [|rewrite total_cons in HA; lia].
    assert (HP' : forall U, U ∈ Ts -> 0 < alloc U) by (intros; apply HP; by constructor).
    clear -HP'. induction Ts as [|U Us IH]; [done|]. rewrite total_cons.
    assert (0 < alloc U) by (apply HP'; constructor).
    assert (0 <= total alloc Us); [|lia]. apply IH. intros. apply HP'. by constructor.
Qed.

Lemma solid_bytes (T : LTy) : solid T = true -> 0 < bytes T /\ alloc T = bytes T.
Proof.
  intros HS. pose proof (solid_alloc T HS). pose proof (alloc_law T HS) as HA.
  by rewrite (bytes_mul T (alloc T)).
Qed.

Lemma bytes_struct (i : Z) (Body : list LTy) : bytes (LStruct i Body) = total alloc Body.
Proof. by apply bytes_mul, struct_law. Qed.

Lemma bytes_bytes_type (n : Z) : 0 <= n -> bytes (bytes_type n) = n.
Proof.
  intros Hn. apply bytes_mul. unfold bytes_type. rewrite array_law by done.
  pose proof (alloc_law (LInt 8) eq_refl) as HA. rewrite int_law in HA by done. nia.
Qed.

Lemma alloc_bytes_type (n : Z) : 0 < n -> alloc (bytes_type n) = n.
Proof.
  intros Hn. destruct (solid_bytes (bytes_type n)) as [_ ->].
  - simpl. rewrite andb_true_iff, Z.ltb_lt. done.
  - apply bytes_bytes_type. lia.
Qed.

Lemma pointer_bytes (a : Z) (T : LTy) : bytes (LPtr a T) = getPointerByteSize.
Proof. unfold bytes, getPointerByteSize. by rewrite ptr_law. Qed.

(** ** The primitive parts of a type *)

Definition leaves (Offset : Z) (T : LTy) : list (Z * LTy) := addFieldsRecursively [] Offset T.

Fixpoint body_leaves (Offset : Z) (Body : list LTy) : list (Z * LTy) :=
  match Body with
  | [] => []
  | T :: Rest => leaves Offset T ++ body_leaves (Offset + bytes T) Rest
  end.

Lemma addFieldsRecursively_app (T : LTy) (l : list (Z * LTy)) (o : Z) :
  addFieldsRecursively l o T = l ++ leaves o T.
Proof.
  unfold leaves. revert l o.
  induction T as [| | | |a T _|T n _|T n _|i Ts IH|] using LTy_ind'; intros l o; try done.
  simpl. revert l o. induction IH as [|T Ts HT _ IHTs]; intros l o.
  - by rewrite app_nil_r.
  - rewrite IHTs, (IHTs (addFieldsRecursively [] o T)), HT. by rewrite <- app_assoc.
Qed.

Lemma leaves_struct (i : Z) (Body : list LTy) (o : Z) :
  leaves o (LStruct i Body) = body_leaves o Body.
Proof.
  unfold leaves. simpl.
  assert (HG : forall l, (fix go Fields Offset Body := match Body with
         | [] => Fields
         | SubTy :: Rest => go (addFieldsRecursively Fields Offset SubTy) (Offset + bytes SubTy) Rest
         end) l o Body = l ++ body_leaves o Body); [|apply HG].
  revert o. induction Body as [|T Body IH]; intros o l; simpl.
  - by rewrite app_nil_r.
  - by rewrite IH, addFieldsRecursively_app, <- app_assoc.
Qed.

(** The parts [l] fill the range from [a] to [b]. *)
Definition covers (l : list (Z * LTy)) (a b : Z) : Prop :=
  (forall p, p ∈ l -> a <= p.1 /\ p.1 + bytes p.2 <= b /\ solid p.2 = true) /\
  (exists p, p ∈ l /\ p.1 = a) /\ (exists p, p ∈ l /\ p.1 + bytes p.2 = b).

Lemma covers_range (l : list (Z * LTy)) (a b : Z) : covers l a b -> a < b.
Proof.
  intros (HA & (p & Hp & <-) & _). destruct (HA p Hp) as (_ & Hb & HS).
  pose proof (solid_bytes p.2 HS). lia.
Qed.

(** Joining two sets of parts of which the second does not begin before the
    first. *)
Lemma layout_covers_app (l k : list (Z * LTy)) (a b c d : Z) :
  covers l a b -> covers k c d -> a <= c -> covers (l ++ k) a (Z.max b d).
Proof.
  intros (HA & (p & Hp & Ha) & (q & Hq & Hb)) (KA & _ & (r & Hr & Hd)) Hac. split_and!.
  - intros x [Hx|Hx]%elem_of_app.
    + destruct (HA x Hx) as (? & ? & ?). split_and!; [done|lia|done].
    + destruct (KA x Hx) as (? & ? & ?). split_and!; [lia|lia|done].
  - exists p. rewrite elem_of_app. auto.
  - destruct (Z.max_spec b d) as [[_ ->]|[_ ->]]; [exists r|exists q]; rewrite elem_of_app; auto.
Qed.

Lemma covers_leaf (o : Z) (T : LTy) : solid T = true -> covers [(o, T)] o (o + bytes T).
Proof.
  intros HT. split_and!.
  - intros p ->%list_elem_of_singleton. simpl. split_and!; [lia|lia|done].
  - exists (o, T). rewrite list_elem_of_singleton. done.
  - exists (o, T). rewrite list_elem_of_singleton. done.
Qed.

Lemma solid_struct (i : Z) (Body : list LTy) :
  solid (LStruct i Body) = true <-> Body <> [] /\ Forall (fun T => solid T = true) Body.
Proof.
  simpl. rewrite andb_true_iff, negb_true_iff, bool_decide_eq_false, forallb_forall, Forall_forall.
  split; (intros [Hn HF]; split; [done|]; intros T HT; apply HF; by apply list_elem_of_In).
Qed.

Lemma total_solid (Body : list LTy) :
  Forall (fun T => solid T = true) Body -> total alloc Body = total bytes Body.
Proof.
  induction 1 as [|T Ts HT _ IH]; [done|]. rewrite !total_cons, IH.
  by destruct (solid_bytes T HT) as [_ ->].
Qed.

Lemma body_leaves_cover (Body : list LTy) (o : Z) :
  Body <> [] -> Forall (fun T => solid T = true) Body ->
  Forall (fun T => forall o, solid T = true -> covers (leaves o T) o (o + bytes T)) Body ->
  covers (body_leaves o Body) o (o + total bytes Body).
Proof.
  intros Hn HS HC. revert o Hn. induction Body as [|T Rest IH]; intros o Hn; [done|].
  inversion_clear HS. inversion_clear HC as [|? ? HT HR]. simpl. rewrite total_cons.
  destruct Rest as [|U Rest].
  - simpl. rewrite app_nil_r. replace (o + (bytes T + 0)) with (o + bytes T) by lia. by apply HT.
  - assert (HK : covers (body_leaves (o + bytes T) (U :: Rest)) (o + bytes T)
      (o + bytes T + total bytes (U :: Rest))) by (by apply IH).
    pose proof (covers_range _ _ _ HK). pose proof (solid_bytes T ltac:(done)).
    replace (o + (bytes T + total bytes (U :: Rest)))
      with (Z.max (o + bytes T) (o + bytes T + total bytes (U :: Rest))) by lia.
    eapply layout_covers_app; [by apply HT|exact HK|lia].
Qed.

Lemma leaves_cover (T : LTy) (o : Z) : solid T = true -> covers (leaves o T) o (o + bytes T).
Proof.
  revert o. induction T as [| | | |a T _|T n _|T n _|i Ts IH|] using LTy_ind'; intros o HS;
    try (by apply covers_leaf); try done.
  rewrite leaves_struct, bytes_struct. apply solid_struct in HS as [Hn HS].
  rewrite total_solid by done. by apply body_leaves_cover.
Qed.

Lemma leaves_gc (T : LTy) (o : Z) :
  isGcType T = false -> forall p, p ∈ leaves o T -> isGcPointer p.2 = false.
Proof.
  revert o. induction T as [| | | |a T _|T n _|T n _|i Ts IH|] using LTy_ind'; intros o HG p Hp;
    try (by apply list_elem_of_singleton in Hp as ->).
  rewrite leaves_struct in Hp. simpl in HG. revert o Hp.
  induction IH as [|T Ts HT _ IHTs]; intros o Hp; simpl in Hp.
  - by apply not_elem_of_nil in Hp.
  - simpl in HG. apply orb_false_iff in HG as [HGT HGTs].
    apply elem_of_app in Hp as [Hp|Hp]; [by eapply HT|by eapply IHTs].
Qed.

(** ** Overlap sets *)

Section overlap.
Variable ObjectTy : LTy.
Variable TypeAddr : LTy -> Z.

#[local] Instance overlap_le_trans : Transitive (overlap_le TypeAddr).
Proof. intros x y z. unfold overlap_le. lia. Qed.
#[local] Instance overlap_le_total : Total (overlap_le TypeAddr).
Proof. intros x y. unfold overlap_le. lia. Qed.

Definition sorted_overlap (O : list (Z * LTy)) : list (Z * LTy) :=
  merge_sort (overlap_le TypeAddr) O.

Lemma elem_of_sorted_overlap (O : list (Z * LTy)) (p : Z * LTy) :
  p ∈ sorted_overlap O <-> p ∈ O.
Proof. unfold sorted_overlap. by rewrite merge_sort_Permutation. Qed.

Lemma sorted_overlap_sorted (O : list (Z * LTy)) :
  StronglySorted (overlap_le TypeAddr) (sorted_overlap O).
Proof. apply StronglySorted_merge_sort; apply _. Qed.

Lemma sorted_overlap_head (O : list (Z * LTy)) (a b : Z) :
  covers O a b -> exists T, head (sorted_overlap O) = Some (a, T).
Proof.
  intros (HA & (p & Hp & Ha) & _). apply elem_of_sorted_overlap in Hp.
  pose proof (sorted_overlap_sorted O) as HS.
  destruct (sorted_overlap O) as [|[o T] l] eqn:E; [by apply not_elem_of_nil in Hp|].
  exists T. simpl. do 2 f_equal.
  assert (Ho : a <= o).
  { apply (HA (o, T)). rewrite <- elem_of_sorted_overlap, E. constructor. }
  apply elem_of_cons in Hp as [->|Hp]; [done|].
  inversion_clear HS as [|? ? _ HF]. rewrite Forall_forall in HF.
  specialize (HF p Hp). unfold overlap_le in HF. simpl in HF. lia.
Qed.

(** Without references, the first walk only finds the end. *)
Lemma scan_overlap_plain (l : list (Z * LTy)) (gs : list Z) (e : Z) :
  (forall p, p ∈ l -> isGcPointer p.2 = false) ->
  exists e', foldM scan_overlap (gs, e) l = Some (gs, e') /\ e <= e' /\
    (forall p, p ∈ l -> p.1 + bytes p.2 <= e') /\
    (e' = e \/ exists p, p ∈ l /\ p.1 + bytes p.2 = e').
Proof.
  revert e. induction l as [|[o T] l IH]; intros e HG.
  - exists e. split_and!; [done|lia| |by left]. intros p []%not_elem_of_nil.
  - assert (HT : isGcPointer T = false) by (apply (HG (o, T)); constructor).
    destruct (IH (Z.max e (o + bytes T))) as (e' & HE & He & HA & HL).
    { intros p Hp. apply HG. by constructor. }
    exists e'. simpl. rewrite HT. simpl. split_and!; [done|lia| |].
    + intros p [->|Hp]%elem_of_cons; [simpl; lia|by apply HA].
    + destruct HL as [->|(p & Hp & HL)].
      * destruct (Z.max_spec e (o + bytes T)) as [[_ ->]|[_ ->]]; [|by left].
        right. exists (o, T). split; [constructor|done].
      * right. exists p. split; [by constructor|done].
Qed.

(** An overlap set without references becomes one block of bytes. *)
Lemma createOverlapFields_plain (O : list (Z * LTy)) (a b : Z) (Fs : list LTy) :
  covers O a b -> 0 <= a -> (forall p, p ∈ O -> isGcPointer p.2 = false) ->
  createOverlapFields ObjectTy TypeAddr O Fs = Some (Fs ++ [bytes_type (b - a)]).
Proof.
  intros HC Ha HG. pose proof (covers_range _ _ _ HC) as Hab.
  destruct (sorted_overlap_head O a b HC) as (T & HT).
  destruct HC as (HA & _ & (q & Hq & Hb)). unfold createOverlapFields. fold (sorted_overlap O).
  destruct (scan_overlap_plain (sorted_overlap O) [] 0) as (e & -> & He & HL & HX).
  { intros p Hp. by apply HG, elem_of_sorted_overlap. }
  assert (e = b) as ->.
  { specialize (HL q (proj2 (elem_of_sorted_overlap O q) Hq)).
    destruct HX as [->|(p & Hp & <-)]; [destruct (HA q Hq) as (? & _); pose proof (solid_bytes q.2 ltac:(apply (HA q Hq))); lia|].
    destruct (HA p (proj1 (elem_of_sorted_overlap O p) Hp)) as (_ & ? & _). lia. }
  cbn [mbind option_bind]. rewrite HT. cbn [mbind option_bind fst gc_fields].
  rewrite (proj2 (Z.leb_le a b)), (proj2 (Z.ltb_lt a b)) by lia. done.
Qed.

End overlap.

(** ** The loop over the fields of a class *)

(** The j-th field shares no byte with another one. *)
Definition isolated (D : list (Z * Z * LTy)) (j : nat) : Prop :=
  forall F, D !! j = Some F -> forall k G, k <> j -> D !! k = Some G ->
    F.1.1 + bytes F.2 <= G.1.1 \/ G.1.1 + bytes G.2 <= F.1.1.

(** What the loop relies on: the fields are sorted by offset and lie behind the
    parent's; their types are complete; the first field of a typed reference
    has the size of a pointer; and only the fields of a class that the runtime
    flags as a union share bytes, none of them with references in it. *)
Record class_ok (K : ClassKind) (ParentSize : Z) (m0 : gmap Z nat) (D : list (Z * Z * LTy)) :
    Prop := {
  fields_sorted : forall j k F G, (j < k)%nat -> D !! j = Some F -> D !! k = Some G ->
    F.1.1 <= G.1.1;
  fields_behind : forall F, F ∈ D -> ParentSize <= F.1.1;
  fields_solid : forall F, F ∈ D -> solid F.2 = true;
  typed_reference : IsTypedByref K = true -> forall F, F ∈ D -> FirstField K = Some F.1.2 ->
    bytes F.2 = getPointerByteSize;
  overlaps_in_union : forall j F, D !! j = Some F -> ~ isolated D j ->
    IsUnion K = true /\ IsTypedByref K = false /\ IsString K = false /\ isGcType F.2 = false;
  handles_distinct : forall j k F G, D !! j = Some F -> D !! k = Some G -> F.1.2 = G.1.2 -> j = k;
  handles_new : forall F, F ∈ D -> m0 !! F.1.2 = None }.

Definition tight (T : LTy) : Prop := alloc T = bytes T.

Section place.
Variable ObjectTy : LTy.
Variable TypeAddr : LTy -> Z.
Variables (K : ClassKind) (Fields0 : list LTy) (B0 : Z) (m0 : gmap Z nat) (D : list (Z * Z * LTy)).
Hypothesis HB0 : 0 <= B0.
Hypothesis Htight0 : Forall tight Fields0.
Hypothesis Htotal0 : total alloc Fields0 = B0.
Hypothesis HD : class_ok K B0 m0 D.

(** The type a placed field has. *)
Definition placed (F : Z * Z * LTy) : LTy := tweak K F.1.2 F.2.

Lemma placed_bytes (F : Z * Z * LTy) :
  F ∈ D -> tight (placed F) /\ 0 <= bytes (placed F) <= bytes F.2.
Proof.
  intros HF. destruct (solid_bytes F.2 (fields_solid _ _ _ _ HD F HF)) as [Hp Ha].
  unfold placed, tweak. set (T := if IsTypedByref K && _ then _ else _).
  assert (HT : tight T /\ bytes T = bytes F.2).
  { unfold T. destruct (IsTypedByref K) eqn:ET; simpl; [|done].
    destruct (bool_decide_reflect (FirstField K = Some F.1.2)) as [EF|]; [|done].
    rewrite (typed_reference _ _ _ _ HD ET F HF EF). unfold getManagedPointerType.
    split; [|apply pointer_bytes]. by apply solid_bytes. }
  destruct (IsString K && _); [|split; [apply HT|lia]].
  unfold tight. rewrite empty_law. replace (bytes (LArr T 0)) with 0; [lia|].
  symmetry. apply bytes_mul. by rewrite array_law.
Qed.

Lemma placed_union (F : Z * Z * LTy) :
  IsTypedByref K = false -> IsString K = false -> placed F = F.2.
Proof. intros HT HS. unfold placed, tweak. by rewrite HT, HS. Qed.

(** The state after the first [n] fields. *)
Record placed_upto (n : nat) (st : LayoutState) : Prop := {
  up_tight : Forall tight (Fields st);
  up_prefix : exists New, Fields st = Fields0 ++ New;
  up_fields :
    (OverlappingFields st = [] /\ total alloc (Fields st) = ByteOffset st /\
     ((n = 0%nat /\ ByteOffset st = B0) \/
      exists m F New, n = S m /\ D !! m = Some F /\ Fields st = Fields0 ++ New ++ [placed F] /\
        ByteOffset st = F.1.1 + bytes (placed F))) \/
    (covers (OverlappingFields st) (total alloc (Fields st)) (ByteOffset st) /\
     (exists j F, (j < n)%nat /\ D !! j = Some F /\ total alloc (Fields st) = F.1.1) /\
     forall p, p ∈ OverlappingFields st -> isGcPointer p.2 = false);
  up_end : ByteOffset st = B0 \/
    exists j F, (j < n)%nat /\ D !! j = Some F /\ ByteOffset st = F.1.1 + bytes (placed F);
  up_index : forall j F, (j < n)%nat -> D !! j = Some F -> isolated D j ->
    exists i, FieldIndexMap st !! F.1.2 = Some i /\ Fields st !! i = Some (placed F) /\
      total alloc (take i (Fields st)) = F.1.1;
  up_domain : forall h i, FieldIndexMap st !! h = Some i ->
    m0 !! h = Some i \/ exists j F, (j < n)%nat /\ D !! j = Some F /\ F.1.2 = h;
  up_old : forall h i, m0 !! h = Some i -> FieldIndexMap st !! h = Some i }.

Lemma field_in (j : nat) (F : Z * Z * LTy) : D !! j = Some F -> F ∈ D.
Proof. apply list_elem_of_lookup_2. Qed.

(** A field before the current offset shares bytes with an earlier one. *)
Lemma meets_earlier (n : nat) (st : LayoutState) (F : Z * Z * LTy) :
  placed_upto n st -> D !! n = Some F -> F.1.1 < ByteOffset st ->
  ~ isolated D n /\
  exists j G, (j < n)%nat /\ D !! j = Some G /\ G.1.1 <= F.1.1 < G.1.1 + bytes (placed G) /\
    ByteOffset st = G.1.1 + bytes (placed G).
Proof.
  intros Hst HF Hlt. destruct (up_end _ _ Hst) as [E|(j & G & Hj & HG & E)].
  { pose proof (fields_behind _ _ _ _ HD F (field_in _ _ HF)). lia. }
  pose proof (fields_sorted _ _ _ _ HD j n G F Hj HG HF) as Hs. split.
  - intros HI. pose proof (solid_bytes F.2 (fields_solid _ _ _ _ HD F (field_in _ _ HF))) as [Hp _].
    destruct (placed_bytes G (field_in _ _ HG)) as [_ Hb].
    destruct (HI F HF j G ltac:(lia) HG); lia.
  - exists j, G. split_and!; [done|done|lia|lia|done].
Qed.

(** A field with which a later one shares bytes is not isolated. *)
Lemma met_by_later (j n : nat) (G F : Z * Z * LTy) :
  (j < n)%nat -> D !! j = Some G -> D !! n = Some F ->
  F.1.1 < G.1.1 + bytes (placed G) -> ~ isolated D j.
Proof.
  intros Hj HG HF Hlt HI.
  pose proof (fields_sorted _ _ _ _ HD j n G F Hj HG HF) as Hs.
  pose proof (solid_bytes F.2 (fields_solid _ _ _ _ HD F (field_in _ _ HF))) as [Hp _].
  destruct (placed_bytes G (field_in _ _ HG)) as [_ Hb].
  destruct (HI G HG n F ltac:(lia) HF); lia.
Qed.

(** Two isolated fields do not begin at the same offset. *)
Lemma isolated_offset (j k : nat) (F G : Z * Z * LTy) :
  isolated D j -> D !! j = Some F -> D !! k = Some G -> F.1.1 = G.1.1 -> j = k.
Proof.
  intros HI HF HG E. destruct (decide (j = k)) as [|Hjk]; [done|].
  pose proof (solid_bytes F.2 (fields_solid _ _ _ _ HD F (field_in _ _ HF))) as [Hp _].
  pose proof (solid_bytes G.2 (fields_solid _ _ _ _ HD G (field_in _ _ HG))) as [Hp' _].
  destruct (HI F HF k G ltac:(done) HG); lia.
Qed.

(** The first overlapping field takes the field before it out of the list. *)
Lemma take_previous (n : nat) (st : LayoutState) (F : Z * Z * LTy) :
  placed_upto n st -> D !! n = Some F -> F.1.1 < ByteOffset st -> OverlappingFields st = [] ->
  IsTypedByref K = false -> IsString K = false ->
  exists m G New, n = S m /\ D !! m = Some G /\ ~ isolated D m /\
    last (Fields st) = Some G.2 /\ removelast (Fields st) = Fields0 ++ New /\
    Fields st = (Fields0 ++ New) ++ [placed G] /\
    ByteOffset st - bytes G.2 = G.1.1 /\ total alloc (Fields0 ++ New) = G.1.1.
Proof.
  intros Hst HF Hlt HO HT HS.
  destruct (up_fields _ _ Hst) as [(_ & Htot & [[-> HB]|(m & G & New & -> & HG & HFs & HB)])|(HC & _)].
  - pose proof (fields_behind _ _ _ _ HD F (field_in _ _ HF)). lia.
  - exists m, G, New. rewrite HFs, app_assoc in *. rewrite placed_union in * by done.
    rewrite last_snoc, removelast_last.
    pose proof (solid_bytes G.2 (fields_solid _ _ _ _ HD G (field_in _ _ HG))) as [_ Ha].
    rewrite total_app in Htot. change (total alloc [G.2]) with (alloc G.2 + 0) in Htot.
    split_and!; try done; [|lia|lia].
    apply (met_by_later m (S m) G F); [lia|done|done|]. rewrite placed_union by done. lia.
  - rewrite HO in HC. destruct HC as (_ & (p & Hp & _) & _). by apply not_elem_of_nil in Hp.
Qed.

(** What is left of [up_index] when the list of fields is cut or extended. *)
Lemma index_kept (n : nat) (st : LayoutState) (Fs : list LTy) (m' : gmap Z nat) :
  placed_upto n st ->
  (forall h i, FieldIndexMap st !! h = Some i -> m' !! h = Some i) ->
  (forall j F i, (j < n)%nat -> D !! j = Some F -> isolated D j -> Fields st !! i = Some (placed F) ->
     total alloc (take i (Fields st)) = F.1.1 ->
     Fs !! i = Some (placed F) /\ total alloc (take i Fs) = F.1.1) ->
  forall j F, (j < n)%nat -> D !! j = Some F -> isolated D j ->
    exists i, m' !! F.1.2 = Some i /\ Fs !! i = Some (placed F) /\ total alloc (take i Fs) = F.1.1.
Proof.
  intros Hst Hm Hk j F Hj HF HI. destruct (up_index _ _ Hst j F Hj HF HI) as (i & Hi & Hl & Ht).
  destruct (Hk j F i Hj HF HI Hl Ht). exists i. eauto.
Qed.

(** The range of an overlap set that a field joins. *)
Lemma overlap_joined (Overlap : list (Z * LTy)) (a b : Z) (F : Z * Z * LTy) :
  covers Overlap a b -> a <= F.1.1 -> solid F.2 = true -> isGcType F.2 = false ->
  (forall p, p ∈ Overlap -> isGcPointer p.2 = false) ->
  let Joined := addFieldsRecursively Overlap F.1.1 F.2 in
  covers Joined a (Z.max b (F.1.1 + bytes F.2)) /\
  forall p, p ∈ Joined -> isGcPointer p.2 = false.
Proof.
  intros HC Ha HS HG HO. cbn zeta. rewrite addFieldsRecursively_app. split.
  - apply (layout_covers_app _ _ a b F.1.1 _ HC); [by apply leaves_cover|done].
  - intros p [Hp|Hp]%elem_of_app; [by apply HO|by eapply leaves_gc].
Qed.

Lemma end_advances (n : nat) (st : LayoutState) (F : Z * Z * LTy) :
  placed_upto n st -> D !! n = Some F -> placed F = F.2 ->
  let B := Z.max (ByteOffset st) (F.1.1 + bytes F.2) in
  B = B0 \/ exists j G, (j < S n)%nat /\ D !! j = Some G /\ B = G.1.1 + bytes (placed G).
Proof.
  intros Hst HF HP. cbn zeta.
  destruct (Z.max_spec (ByteOffset st) (F.1.1 + bytes F.2)) as [[_ ->]|[_ ->]].
  - right. exists n, F. rewrite HP. auto with lia.
  - destruct (up_end _ _ Hst) as [|(j & G & Hj & HG & E)]; [by left|].
    right. exists j, G. auto with lia.
Qed.

Lemma domain_grows (n : nat) (st : LayoutState) (h : Z) (i : nat) :
  placed_upto n st -> FieldIndexMap st !! h = Some i ->
  m0 !! h = Some i \/ exists j F, (j < S n)%nat /\ D !! j = Some F /\ F.1.2 = h.
Proof.
  intros Hst Hh. destruct (up_domain _ _ Hst h i Hh) as [|(j & F & Hj & HF & E)]; [by left|].
  right. exists j, F. auto with lia.
Qed.

Lemma step_overlap (n : nat) (st : LayoutState) (F : Z * Z * LTy) :
  placed_upto n st -> D !! n = Some F -> F.1.1 < ByteOffset st ->
  exists st', overlap_field K st F.1.1 F.2 = Some st' /\ placed_upto (S n) st'.
Proof.
  intros Hst HF Hlt. destruct (meets_earlier n st F Hst HF Hlt) as (HI & j & G & Hj & HG & Ho & HB).
  destruct (overlaps_in_union _ _ _ _ HD n F HF HI) as (HU & HT & HS & Hgc).
  pose proof (fields_solid _ _ _ _ HD F (field_in _ _ HF)) as HSF.
  assert (HPF : placed F = F.2) by (by apply placed_union).
  assert (HnI : forall k H, (k < S n)%nat -> D !! k = Some H -> isolated D k -> (k < n)%nat).
  { intros k H' Hk _ HIk. destruct (decide (k = n)) as [->|]; [done|lia]. }
  unfold overlap_field. rewrite HU, HT, HS. cbn [assert negb mbind option_bind].
  destruct (up_fields _ _ Hst) as [(HO & Htot & _)|(HC & (k0 & F0 & Hk0n & HF0 & Hk0) & Hng)].
  - destruct (take_previous n st F Hst HF Hlt HO HT HS)
      as (m & P & New & Hn & HP & HIm & HL & HR & HFs & HPo & Htot').
    destruct (overlaps_in_union _ _ _ _ HD m P HP HIm) as (_ & _ & _ & Pgc).
    pose proof (fields_solid _ _ _ _ HD P (field_in _ _ HP)) as HSP.
    rewrite HO, HL. cbn [mbind option_bind]. rewrite HR, HPo.
    eexists. split; [done|].
    destruct (overlap_joined (leaves P.1.1 P.2) P.1.1 (P.1.1 + bytes P.2) F) as [HC Hng];
      [by apply leaves_cover| |done|done|by apply leaves_gc|].
    { apply (fields_sorted _ _ _ _ HD m n P F); [lia|done|done]. }
    pose proof (up_tight _ _ Hst) as Htight. rewrite HFs in Htight.
    apply Forall_app in Htight as [Htight _].
    split; simpl; [done|by eexists| |by apply end_advances| |by intros; eapply domain_grows|apply Hst].
    + right. rewrite Htot'. replace (ByteOffset st) with (P.1.1 + bytes P.2) by lia.
      split; [done|]. split; [|done]. exists m, P. auto with lia.
    + intros k H' Hk HH HIk. apply (index_kept n st) with (j := k); try done; [|by apply (HnI k H')].
      intros k' F' i Hk' HF' HI' Hl Ht. rewrite HFs in Hl, Ht.
      destruct (decide (i < length (Fields0 ++ New))%nat) as [Hi|Hi].
      * by rewrite lookup_app_l in Hl by done; rewrite take_app_le in Ht by lia.
      * apply lookup_app_Some in Hl as [Hl|[_ Hl]]; [by apply lookup_lt_Some in Hl|].
        assert (i = length (Fields0 ++ New)) as -> by (apply lookup_lt_Some in Hl; simpl in Hl; lia).
        rewrite take_app_length in Ht. destruct HIm.
        by rewrite <- (isolated_offset k' m F' P HI' HF' HP ltac:(congruence)).
  - destruct (OverlappingFields st) as [|p0 O0] eqn:HO.
    { destruct HC as (_ & (p & Hp & _) & _). by apply not_elem_of_nil in Hp. }
    rewrite <- HO in *. cbn [mbind option_bind]. eexists. split; [done|].
    assert (Hlow : total alloc (Fields st) <= F.1.1) by (rewrite Hk0; by apply (fields_sorted _ _ _ _ HD k0 n F0 F)).
    destruct (overlap_joined _ _ _ F HC Hlow HSF Hgc Hng) as [HC' Hng'].
    split; simpl; [apply Hst|apply Hst| |by apply end_advances| |
      by intros; eapply domain_grows|apply Hst].
    { right. split; [done|]. split; [|done]. exists k0, F0. auto with lia. }
    intros k H' Hk HH HIk. apply (index_kept n st) with (j := k); try done. by apply (HnI k H').
Qed.

Lemma tight_bytes_type (n : Z) : 0 < n -> tight (bytes_type n).
Proof. intros Hn. unfold tight. by rewrite alloc_bytes_type, bytes_bytes_type by lia. Qed.

(** Emptying the overlap set brings the fields up to the offset. *)
Lemma flush_spec (n : nat) (st : LayoutState) :
  placed_upto n st ->
  exists Extra, flush_overlap ObjectTy TypeAddr st =
      Some (MkLayout (Fields st ++ Extra) (ByteOffset st) [] (FieldIndexMap st)) /\
    Forall tight Extra /\ total alloc (Fields st ++ Extra) = ByteOffset st.
Proof.
  intros Hst. unfold flush_overlap.
  destruct (up_fields _ _ Hst) as [(HO & Htot & _)|(HC & (k & F & _ & HF & Hk) & Hng)].
  - exists []. rewrite HO, app_nil_r. split; [|done]. by destruct st; simpl in *; subst.
  - pose proof (covers_range _ _ _ HC) as Hlt.
    destruct (OverlappingFields st) as [|p O] eqn:HO.
    { destruct HC as (_ & (p & Hp & _) & _). by apply not_elem_of_nil in Hp. }
    pose proof (fields_behind _ _ _ _ HD F (field_in _ _ HF)) as HFB.
    rewrite (createOverlapFields_plain ObjectTy TypeAddr _ _ _ (Fields st) HC) by (done || lia).
    eexists. split; [done|]. split.
    + apply Forall_singleton, tight_bytes_type. lia.
    + rewrite total_app. cbn [total foldr fmap list_fmap]. rewrite alloc_bytes_type by lia. lia.
Qed.

Lemma record_index_new (n : nat) (st : LayoutState) (F : Z * Z * LTy) (i : nat) :
  placed_upto n st -> D !! n = Some F ->
  record_index (FieldIndexMap st) F.1.2 i = Some (<[F.1.2 := i]> (FieldIndexMap st)) /\
  FieldIndexMap st !! F.1.2 = None.
Proof.
  intros Hst HF. unfold record_index.
  destruct (FieldIndexMap st !! F.1.2) as [i'|] eqn:E; [|done]. exfalso.
  destruct (up_domain _ _ Hst _ _ E) as [Hm|(j & G & Hj & HG & Hh)].
  - by rewrite (handles_new _ _ _ _ HD F (field_in _ _ HF)) in Hm.
  - pose proof (handles_distinct _ _ _ _ HD j n G F HG HF Hh). lia.
Qed.

(** The fields after the padding in front of the n-th field. *)
Lemma append_padded (n : nat) (st : LayoutState) (F : Z * Z * LTy) :
  placed_upto n st -> D !! n = Some F -> ByteOffset st <= F.1.1 ->
  exists Extra, Forall tight Extra /\ total alloc (Fields st ++ Extra) = F.1.1 /\
    append_field ObjectTy TypeAddr K st F.1.1 F.1.2 F.2 =
      Some (MkLayout ((Fields st ++ Extra) ++ [placed F]) (F.1.1 + bytes (placed F)) []
              (<[F.1.2 := length (Fields st ++ Extra)]> (FieldIndexMap st))).
Proof.
  intros Hst HF Hle. destruct (flush_spec n st Hst) as (Extra & HE & Ht & Htot).
  unfold append_field. rewrite HE. cbn [mbind option_bind]. simpl.
  destruct (Z.ltb_spec (ByteOffset st) (F.1.1)) as [Hlt|Hge].
  - exists (Extra ++ [bytes_type (F.1.1 - ByteOffset st)]).
    rewrite app_assoc, bytes_bytes_type by lia. rewrite (proj2 (Z.eqb_eq _ _)) by lia.
    cbn [assert mbind option_bind].
    destruct (record_index_new n st F (length ((Fields st ++ Extra) ++
      [bytes_type (F.1.1 - ByteOffset st)])) Hst HF) as [-> _]. split_and!.
    + apply Forall_app. split; [done|]. apply Forall_singleton, tight_bytes_type. lia.
    + rewrite total_app, Htot. cbn [total foldr fmap list_fmap]. rewrite alloc_bytes_type by lia. lia.
    + replace (ByteOffset st + (F.1.1 - ByteOffset st)) with F.1.1 by lia. done.
  - exists Extra. rewrite (proj2 (Z.eqb_eq _ _)) by lia. cbn [assert mbind option_bind].
    destruct (record_index_new n st F (length (Fields st ++ Extra)) Hst HF) as [-> _].
    split_and!; [done|lia|]. replace (ByteOffset st) with F.1.1 by lia. done.
Qed.

Lemma step_append (n : nat) (st : LayoutState) (F : Z * Z * LTy) :
  placed_upto n st -> D !! n = Some F -> ByteOffset st <= F.1.1 ->
  exists st', append_field ObjectTy TypeAddr K st F.1.1 F.1.2 F.2 = Some st' /\
    placed_upto (S n) st'.
Proof.
  intros Hst HF Hle. destruct (append_padded n st F Hst HF Hle) as (Extra & Ht & Htot & HE).
  eexists. split; [exact HE|]. destruct (placed_bytes F (field_in _ _ HF)) as [HtF HbF].
  destruct (record_index_new n st F (length (Fields st ++ Extra)) Hst HF) as [_ Hnone].
  destruct (up_prefix _ _ Hst) as [New HNew].
  split; simpl.
  - rewrite !Forall_app. split; [split; [apply Hst|done]|]. by apply Forall_singleton.
  - exists (New ++ Extra ++ [placed F]). by rewrite HNew, <- !app_assoc.
  - left. split; [done|]. rewrite total_app, Htot. cbn [total foldr fmap list_fmap].
    rewrite HtF. split; [lia|]. right. exists n, F, (New ++ Extra).
    by rewrite HNew, <- !app_assoc.
  - right. exists n, F. auto with lia.
  - intros j G Hj HG HI. destruct (decide (j = n)) as [->|Hjn].
    + assert (G = F) as -> by congruence. exists (length (Fields st ++ Extra)).
      rewrite lookup_insert_eq, list_lookup_middle, take_app_length by done. done.
    + destruct (up_index _ _ Hst j G ltac:(lia) HG HI) as (i & Hi & Hl & Htk).
      pose proof (lookup_lt_Some _ _ _ Hl). exists i.
      rewrite lookup_insert_ne by congruence. rewrite <- app_assoc, lookup_app_l, take_app_le by lia.
      done.
  - intros h i [[<- <-]|[Hne Hh]]%lookup_insert_Some.
    + right. exists n, F. auto with lia.
    + by apply (domain_grows n st).
  - intros h i Hh. pose proof (up_old _ _ Hst h i Hh). rewrite lookup_insert_ne; congruence.
Qed.

Lemma place_all (n : nat) (st : LayoutState) :
  placed_upto n st -> (n <= length D)%nat ->
  exists st', foldM (place_field ObjectTy TypeAddr K) st (drop n D) = Some st' /\
    placed_upto (length D) st'.
Proof.
  intros Hst Hn. remember (length D - n)%nat as k eqn:Hk. revert n st Hst Hn Hk.
  induction k as [|k IH]; intros n st Hst Hn Hk.
  - replace n with (length D) in * by lia. rewrite drop_all. by exists st.
  - destruct (lookup_lt_is_Some_2 D n) as [F HF]; [lia|].
    rewrite (drop_S _ _ _ HF). destruct F as [[o h] T] eqn:EF. cbn [foldM place_field].
    destruct (Z.ltb_spec o (ByteOffset st)).
    + destruct (step_overlap n st (o, h, T) Hst HF) as (st' & HE & Hst'); [done|].
      cbn [fst snd] in HE. rewrite HE. cbn [mbind option_bind]. apply IH; [done|lia|lia].
    + destruct (step_append n st (o, h, T) Hst HF) as (st' & HE & Hst'); [simpl; lia|].
      cbn [fst snd] in HE. rewrite HE. cbn [mbind option_bind]. apply IH; [done|lia|lia].
Qed.

Lemma placed_upto_0 : placed_upto 0 (MkLayout Fields0 B0 [] m0).
Proof.
  split; simpl; [done| | |by left| | |done].
  - exists []. by rewrite app_nil_r.
  - left. auto.
  - lia.
  - by left.
Qed.

End place.

Lemma end_padding_spec (EEClassSize : option Z) (st : LayoutState) :
  total alloc (Fields st) = ByteOffset st ->
  (forall Size, EEClassSize = Some Size -> ByteOffset st <= Size) ->
  exists Pad B, end_padding EEClassSize st =
      Some (MkLayout (Fields st ++ Pad) B (OverlappingFields st) (FieldIndexMap st)) /\
    total alloc (Fields st ++ Pad) = B /\ (forall Size, EEClassSize = Some Size -> B = Size).
Proof.
  intros Ht HL. unfold end_padding. destruct EEClassSize as [Size|].
  - specialize (HL Size eq_refl). rewrite (proj2 (Z.leb_le _ _)) by done. cbn [assert mbind option_bind].
    destruct (Z.ltb_spec 0 (Size - ByteOffset st)).
    + exists [bytes_type (Size - ByteOffset st)], Size. rewrite total_app, bytes_bytes_type by lia.
      cbn [total foldr fmap list_fmap]. rewrite alloc_bytes_type by lia.
      split_and!; [do 2 f_equal; lia|lia|by intros ? [= <-]].
    + exists [], (ByteOffset st). rewrite app_nil_r.
      split_and!; [by destruct st|done|intros ? [= <-]; lia].
  - exists [], (ByteOffset st). rewrite app_nil_r. split_and!; [by destruct st|done|done].
Qed.

(** ** Overlap sets with references *)

Lemma StronglySorted_snoc (l : list Z) (x : Z) :
  StronglySorted Z.lt l -> (forall y, y ∈ l -> y < x) -> StronglySorted Z.lt (l ++ [x]).
Proof.
  induction 1 as [|y l HS IH HF]; intros Hx; simpl; [by repeat constructor|].
  constructor.
  - apply IH. intros z Hz. apply Hx. by constructor.
  - apply Forall_app. split; [done|]. apply Forall_singleton, Hx. constructor.
Qed.

Lemma StronglySorted_last (l : list Z) (x : Z) :
  StronglySorted Z.lt l -> last l = Some x -> forall y, y ∈ l -> y <= x.
Proof.
  induction 1 as [|z l HS IH HF]; intros Hl y Hy; [done|].
  rewrite last_cons in Hl. destruct (last l) as [w|] eqn:E.
  - simplify_eq. apply elem_of_cons in Hy as [->|Hy]; [|by apply IH].
    rewrite Forall_forall in HF. apply last_Some in E as [l' ->].
    specialize (HF x ltac:(apply elem_of_app; right; constructor)). lia.
  - apply last_None in E as ->. simplify_eq. by apply list_elem_of_singleton in Hy as ->.
Qed.

(** The first walk over a sorted set collects the offsets of its references. *)
Record scanned (gs : list Z) (e : Z) (l : list (Z * LTy)) (gs' : list Z) (e' : Z) : Prop := {
  scan_sorted : StronglySorted Z.lt gs';
  scan_gs : forall g, g ∈ gs' <-> g ∈ gs \/ exists T, (g, T) ∈ l /\ isGcPointer T = true;
  scan_end : e <= e' /\ (forall p, p ∈ l -> p.1 + bytes p.2 <= e') /\
    (e' = e \/ exists p, p ∈ l /\ p.1 + bytes p.2 = e') }.

Lemma scan_one (gs : list Z) (e : Z) (p : Z * LTy) (gs1 : list Z) (e1 : Z) :
  StronglySorted Z.lt gs -> (forall g, g ∈ gs -> g <= p.1) ->
  scan_overlap (gs, e) p = Some (gs1, e1) ->
  StronglySorted Z.lt gs1 /\ e1 = Z.max e (p.1 + bytes p.2) /\ (forall g, g ∈ gs1 -> g <= p.1) /\
  (forall g, g ∈ gs1 <-> g ∈ gs \/ (g = p.1 /\ isGcPointer p.2 = true)).
Proof.
  intros HS Hle HE. destruct p as [o T]. cbn [scan_overlap fst snd] in *.
  destruct (isGcPointer T) eqn:HT; [|simplify_eq; split_and!; naive_solver].
  destruct (o mod getPointerByteSize =? 0); [|done]. cbn [assert mbind option_bind] in HE.
  destruct (last gs) as [x|] eqn:EL.
  - destruct (Z.leb_spec x o); [|done]. cbn [assert mbind option_bind] in HE.
    assert (Hx : x ∈ gs).
    { apply last_Some in EL as [l' ->]. apply elem_of_app. right. constructor. }
    destruct (Z.ltb_spec x o); simplify_eq.
    + split_and!; [|done| |].
      * apply StronglySorted_snoc; [done|]. intros y Hy.
        pose proof (StronglySorted_last gs x HS EL y Hy). lia.
      * intros g. rewrite elem_of_app, list_elem_of_singleton. intros [Hg| ->]; [by apply Hle|done].
      * intros g. rewrite elem_of_app, list_elem_of_singleton. naive_solver.
    + assert (x = o) as -> by (specialize (Hle x Hx); lia). split_and!; naive_solver.
  - apply last_None in EL as ->. simplify_eq/=. split_and!; [by repeat constructor|done| |].
    + intros g ->%list_elem_of_singleton. done.
    + intros g. rewrite list_elem_of_singleton. set_solver.
Qed.

Lemma scan_overlap_spec (TypeAddr : LTy -> Z) (l : list (Z * LTy)) (gs gs' : list Z) (e e' : Z) :
  StronglySorted (overlap_le TypeAddr) l -> StronglySorted Z.lt gs ->
  (forall g p, g ∈ gs -> p ∈ l -> g <= p.1) ->
  foldM scan_overlap (gs, e) l = Some (gs', e') -> scanned gs e l gs' e'.
Proof.
  intros HS. revert gs e. induction HS as [|p l HS IH HF]; intros gs e Hgs Hle HE.
  - simpl in HE. simplify_eq. split; [done| |]; [|split_and!; [lia| |by left]]; set_solver.
  - cbn [foldM] in HE. destruct (scan_overlap (gs, e) p) as [[gs1 e1]|] eqn:E1; [|done].
    destruct (scan_one gs e p gs1 e1 Hgs) as (Hgs1 & -> & Hle1 & Hin); [|done|].
    { intros g Hg. apply Hle; [done|constructor]. }
    rewrite Forall_forall in HF.
    assert (Hle2 : forall g q, g ∈ gs1 -> q ∈ l -> g <= q.1).
    { intros g q Hg Hq. specialize (Hle1 g Hg). specialize (HF q Hq). unfold overlap_le in HF. lia. }
    destruct (IH gs1 _ Hgs1 Hle2 HE) as [HA HB (HC1 & HC2 & HC3)].
    split; [done| |split_and!; [lia| |]].
    + intros g. rewrite HB, Hin. destruct p as [o T]. simpl. split.
      * intros [[?|[-> ?]]|(U & HU & ?)]; [by left| |]; right.
        -- exists T. split; [constructor|done].
        -- exists U. split; [by constructor|done].
      * intros [?|(U & [HU|HU]%elem_of_cons & ?)]; [by left; left| |]; simplify_eq; eauto.
    + intros q [->|Hq]%elem_of_cons; [lia|by apply HC2].
    + destruct HC3 as [->|(q & Hq & Hqe)].
      * destruct (Z.max_spec e (p.1 + bytes p.2)) as [[_ ->]|[_ ->]]; [|by left].
        right. exists p. split; [constructor|done].
      * right. exists q. split; [by constructor|done].
Qed.

(** The bytes that the second walk adds in excess: it moves its offset by the
    size of a reference from where it was, not from where the reference is. *)
Fixpoint slack (gs : list Z) (Current : Z) : Z :=
  match gs with
  | [] => 0
  | g :: Rest => (g - Current) + slack Rest (Current + getPointerByteSize)
  end.

(** The references follow each other from [a] on. *)
Fixpoint contiguous (gs : list Z) (a : Z) : Prop :=
  match gs with
  | [] => True
  | g :: Rest => g = a /\ contiguous Rest (a + getPointerByteSize)
  end.

Lemma gc_fields_spec (ObjectTy : LTy) (gs : list Z) (c c' : Z) (Fs Fs' : list LTy) :
  alloc ObjectTy = getPointerByteSize -> gc_fields ObjectTy gs c Fs = Some (Fs', c') ->
  total alloc Fs' = total alloc Fs + (c' - c) + slack gs c /\ 0 <= slack gs c /\
  (slack gs c = 0 <-> contiguous gs c).
Proof.
  intros HO. revert c Fs. induction gs as [|g gs IH]; intros c Fs HE; simpl in HE.
  - simplify_eq. simpl. split_and!; [lia|lia|done].
  - destruct (Z.leb_spec c g); [|done]. cbn [assert mbind option_bind] in HE.
    apply IH in HE as (HT & HP & HC). simpl.
    assert (HX : total alloc ((if 0 <? g - c then Fs ++ [bytes_type (g - c)] else Fs) ++ [ObjectTy]) =
      total alloc Fs + (g - c) + getPointerByteSize).
    { rewrite total_app. cbn [total foldr fmap list_fmap]. rewrite HO.
      destruct (Z.ltb_spec 0 (g - c)); [|lia].
      rewrite total_app. cbn [total foldr fmap list_fmap]. rewrite alloc_bytes_type by lia. lia. }
    rewrite HX in HT. split_and!; [lia|lia|]. split; [|naive_solver lia].
    intros. assert (g = c) by lia. split; [done|]. apply HC. lia.
Qed.

(** ** References found by offset *)

Lemma leaves_shift (T : LTy) (o d g : Z) (L : LTy) :
  (g, L) ∈ leaves o T <-> (g + d, L) ∈ leaves (o + d) T.
Proof.
  revert o g. induction T as [| | | |a T _|T n _|T n _|i Ts IH|] using LTy_ind'; intros o g;
    try (unfold leaves; simpl; rewrite !list_elem_of_singleton; split; intros; simplify_eq;
         [done|f_equal; lia]).
  rewrite !leaves_struct. revert o. induction IH as [|T Ts HT _ IHTs]; intros o; simpl.
  - split; by intros ?%not_elem_of_nil.
  - rewrite !elem_of_app, HT, IHTs. by replace (o + bytes T + d) with (o + d + bytes T) by lia.
Qed.

Lemma elem_of_body_leaves (Body : list LTy) (o g : Z) (L : LTy) :
  (g, L) ∈ body_leaves o Body <->
  exists i T, Body !! i = Some T /\ (g, L) ∈ leaves (o + total bytes (take i Body)) T.
Proof.
  revert o. induction Body as [|U Body IH]; intros o; simpl.
  - split; [by intros ?%not_elem_of_nil|by intros (i & T & ? & _)].
  - rewrite elem_of_app, IH. split.
    + intros [HU|(i & T & Hi & HT)].
      * exists 0%nat, U. simpl. by rewrite Z.add_0_r.
      * exists (S i), T. simpl. rewrite total_cons. by rewrite Z.add_assoc.
    + intros ([|i] & T & Hi & HT); simpl in *.
      * left. simplify_eq. by rewrite Z.add_0_r in HT.
      * right. exists i, T. by rewrite total_cons, Z.add_assoc in HT.
Qed.

Lemma take_solid (Body : list LTy) (i : nat) :
  Forall (fun T => solid T = true) Body -> Forall (fun T => solid T = true) (take i Body).
Proof. apply Forall_take. Qed.

Lemma total_nonneg (Body : list LTy) :
  Forall (fun T => solid T = true) Body -> 0 <= total bytes Body.
Proof.
  induction 1 as [|T Ts HT _ IH]; [done|]. rewrite total_cons.
  pose proof (solid_bytes T HT). lia.
Qed.

Lemma total_take_S (f : LTy -> Z) (Body : list LTy) (i : nat) (T : LTy) :
  Body !! i = Some T -> total f (take (S i) Body) = total f (take i Body) + f T.
Proof.
  intros Hi. rewrite (take_S_r _ _ _ Hi), total_app. unfold total at 2. simpl. lia.
Qed.

Lemma total_take_mono (Body : list LTy) (i j : nat) :
  Forall (fun T => solid T = true) Body -> (i <= j)%nat ->
  total bytes (take i Body) <= total bytes (take j Body).
Proof.
  intros HS Hij. replace (take i Body) with (take i (take j Body)) by (rewrite take_take; f_equal; lia).
  rewrite <- (take_drop i (take j Body)) at 2. rewrite total_app.
  pose proof (total_nonneg (drop i (take j Body)) ltac:(by apply Forall_drop, Forall_take)). lia.
Qed.

(** The element an offset falls into is the one whose range it is in. *)
Lemma containing_unique (Body : list LTy) (i : nat) (T : LTy) (o : Z) :
  Forall (fun T => solid T = true) Body -> Body !! i = Some T ->
  total bytes (take i Body) <= o < total bytes (take i Body) + bytes T ->
  getElementContainingOffset Body o = i.
Proof.
  intros HS Hi Ho. rewrite <- (total_take_S _ _ _ _ Hi) in Ho.
  assert (Hr : 0 <= o < total alloc Body).
  { rewrite total_solid by done.
    pose proof (total_nonneg (take i Body) ltac:(by apply Forall_take)).
    pose proof (total_take_mono Body (S i) (length Body) HS ltac:(apply lookup_lt_Some in Hi; lia)) as HM.
    rewrite firstn_all in HM. lia. }
  destruct (containing_law Body o Hr) as [_ HC]. revert HC.
  rewrite !total_solid by (by apply Forall_take).
  set (j := getElementContainingOffset Body o). intros HC.
  destruct (lt_eq_lt_dec j i) as [[Hlt|]|Hlt]; [|done|].
  - pose proof (total_take_mono Body (S j) i HS Hlt). lia.
  - pose proof (total_take_mono Body (S i) j HS Hlt). lia.
Qed.

Lemma field_at_leaf (T L : LTy) (g o : Z) :
  solid T = true -> (g, L) ∈ leaves 0 T -> g <= o < g + bytes L -> field_at T o = Some L.
Proof.
  revert g o. induction T as [| | | |a T _|T n _|T n _|i Ts IH|] using LTy_ind'; intros g o HS HL Ho;
    try (by apply list_elem_of_singleton in HL; simplify_eq); try done.
  apply solid_struct in HS as [_ HS]. rewrite leaves_struct in HL.
  apply elem_of_body_leaves in HL as (k & U & Hk & HU). cbn [Z.add] in HU.
  pose proof (proj1 (Forall_lookup _ _) HS k U Hk) as HSU. cbn beta in HSU.
  destruct (leaves_cover U (total bytes (take k Ts)) HSU) as (HC & _).
  destruct (HC _ HU) as (Hg1 & Hg2 & _). cbn [fst snd] in Hg1, Hg2.
  assert (HE : getElementContainingOffset Ts o = k).
  { apply (containing_unique Ts k U); [done|done|lia]. }
  cbn [field_at]. rewrite HE, offset_law, total_solid by (by apply Forall_take).
  rewrite (proj2 (Z.leb_le _ _)) by lia. cbn [assert mbind option_bind].
  rewrite list_lookup_fmap, Hk. cbn [fmap option_fmap option_map mbind option_bind].
  apply (proj1 (Forall_lookup _ _) IH k U Hk (g - total bytes (take k Ts))); [done| |lia].
  apply (leaves_shift U 0 (total bytes (take k Ts))).
  by rewrite Z.sub_add, Z.add_0_l.
Qed.

Lemma leaf_exists (T : LTy) (o : Z) :
  solid T = true -> 0 <= o < bytes T -> exists g L, (g, L) ∈ leaves 0 T /\ g <= o < g + bytes L.
Proof.
  revert o. induction T as [| | | |a T _|T n _|T n _|i Ts IH|] using LTy_ind'; intros o HS Ho;
    try (eexists 0, _; split; [apply list_elem_of_singleton; reflexivity|lia]); try done.
  apply solid_struct in HS as [_ HS]. rewrite bytes_struct in Ho.
  destruct (containing_law Ts o Ho) as [[U HU] HC]. revert HC HU.
  rewrite !total_solid by (by apply Forall_take).
  set (k := getElementContainingOffset Ts o). intros HC HU.
  rewrite (total_take_S _ _ _ _ HU) in HC.
  destruct (proj1 (Forall_lookup _ _) IH k U HU (o - total bytes (take k Ts))) as (g & L & HL & Hg);
    [by apply (proj1 (Forall_lookup _ _) HS k U HU)|lia|].
  exists (g + total bytes (take k Ts)), L. split; [|lia].
  rewrite leaves_struct. apply elem_of_body_leaves. exists k, U. split; [done|].
  rewrite <- leaves_shift. done.
Qed.

Lemma pointer_size_pos : 0 < getPointerByteSize.
Proof. unfold getPointerByteSize. by destruct pointer_law as [-> | ->]. Qed.

Lemma gc_leaf_bytes (L : LTy) : isGcPointer L = true -> bytes L = getPointerByteSize.
Proof. destruct L; try done. intros _. apply pointer_bytes. Qed.

(** Multiples of [P] closer than [P] are equal. *)
Lemma multiples_close (P a b : Z) :
  0 < P -> a mod P = 0 -> b mod P = 0 -> a <= b < a + P -> a = b.
Proof.
  intros HP Ha Hb Hab. apply Z.mod_divide in Ha as [k ->]; [|lia].
  apply Z.mod_divide in Hb as [m ->]; [|lia].
  assert (k <= m) by (apply (Z.mul_le_mono_pos_r _ _ P); lia).
  assert (m < k + 1) by (apply (Z.mul_lt_mono_pos_r P); lia). f_equal. lia.
Qed.

(** The primitive field at a pointer-aligned offset is a reference exactly when
    a reference begins there. *)
Lemma field_at_gc (Body : list LTy) (o : Z) :
  Body <> [] -> Forall (fun T => solid T = true) Body ->
  (forall g L, (g, L) ∈ body_leaves 0 Body -> isGcPointer L = true -> g mod getPointerByteSize = 0) ->
  0 <= o < total bytes Body -> o mod getPointerByteSize = 0 ->
  exists T, field_at (LStruct 0 Body) o = Some T /\
    (isGcPointer T = true <-> exists L, (o, L) ∈ body_leaves 0 Body /\ isGcPointer L = true).
Proof.
  intros Hn HS HA Ho Hm. assert (HSS : solid (LStruct 0 Body) = true) by (by apply solid_struct).
  destruct (leaf_exists (LStruct 0 Body) o HSS) as (g & T & HT & Hg).
  { by rewrite bytes_struct, total_solid. }
  exists T. split; [by eapply field_at_leaf|]. rewrite leaves_struct in HT. split.
  - intros HG. exists T. split; [|done]. pose proof (HA g T HT HG).
    rewrite (gc_leaf_bytes T HG) in Hg.
    by rewrite <- (multiples_close getPointerByteSize g o) by (done || apply pointer_size_pos).
  - intros (L & HL & HG).
    assert (E : field_at (LStruct 0 Body) o = Some L).
    { apply (field_at_leaf _ L o); [done|by rewrite leaves_struct|].
      rewrite (gc_leaf_bytes L HG). pose proof pointer_size_pos. lia. }
    rewrite <- (leaves_struct 0) in HT. rewrite (field_at_leaf _ T g o HSS HT Hg) in E.
    by simplify_eq.
Qed.

Lemma gc_pointers_from_spec (n : nat) (Body : list LTy) (o : Z) :
  Body <> [] -> Forall (fun T => solid T = true) Body ->
  (forall g L, (g, L) ∈ body_leaves 0 Body -> isGcPointer L = true -> g mod getPointerByteSize = 0) ->
  0 <= o -> o mod getPointerByteSize = 0 -> total bytes Body < o + Z.of_nat n * getPointerByteSize ->
  exists Ps, gc_pointers_from n Body o = Some Ps /\
    StronglySorted Z.lt Ps /\
    forall x, x ∈ Ps <-> o <= x /\ exists L, (x, L) ∈ body_leaves 0 Body /\ isGcPointer L = true.
Proof.
  intros Hn HS HA. revert o.
  assert (HE : forall o, total bytes Body <= o -> forall x,
    x ∈ [] <-> o <= x /\ exists L, (x, L) ∈ body_leaves 0 Body /\ isGcPointer L = true).
  { intros o Ho x. split; [by intros ?%not_elem_of_nil|]. intros (Hx & L & HL & HG).
    rewrite <- (leaves_struct 0) in HL.
    destruct (leaves_cover (LStruct 0 Body) 0) as (HC & _); [by apply solid_struct|].
    rewrite bytes_struct, total_solid in HC by done.
    destruct (HC _ HL) as (_ & Hb & HL'). pose proof (solid_bytes L HL'). simpl in *. lia. }
  pose proof pointer_size_pos as HP.
  induction n as [|n IH]; intros o Ho Hm Hlt.
  - exists []. split_and!; [done|constructor|]. apply HE. lia.
  - cbn [gc_pointers_from]. rewrite struct_size_law, total_solid by done.
    destruct (Z.ltb_spec o (total bytes Body)) as [Hin|]; [|exists []; split_and!; [done|constructor|by apply HE]].
    destruct (field_at_gc Body o Hn HS HA) as (T & -> & HT); [lia|done|].
    destruct (IH (o + getPointerByteSize)) as (Ps & -> & HSort & HPs); [lia| |nia|].
    { rewrite <- (Z.mul_1_l getPointerByteSize) at 1. by rewrite Z.mod_add by lia. }
    cbn [mbind option_bind].
    assert (Hnext : forall x, (o <= x /\ exists L, (x, L) ∈ body_leaves 0 Body /\ isGcPointer L = true) <->
      (x = o /\ isGcPointer T = true) \/ x ∈ Ps).
    { intros x. rewrite HPs, HT. split.
      - intros (Hx & L & HL & HG). destruct (Z.lt_ge_cases x (o + getPointerByteSize)).
        + left. assert (o = x) as ->; [|by eauto].
          apply (multiples_close getPointerByteSize); eauto.
        + right. eauto.
      - intros [[-> (L & HL & HG)]|(Hx & L & HL & HG)]; split; try lia; eauto. }
    eexists. split; [done|]. destruct (isGcPointer T) eqn:HGT; (split; [|intros x; rewrite Hnext]).
    + constructor; [done|]. apply Forall_forall. intros x Hx. apply HPs in Hx. lia.
    + rewrite elem_of_cons. naive_solver.
    + done.
    + naive_solver.
Qed.

(** ** Array types *)

Definition header_size : Z := if getPointerSizeInBits =? 64 then 8 else 4.

Lemma bytes_dims (Rank : Z) : 0 <= Rank -> bytes (LArr (LInt 32) Rank) = 4 * Rank.
Proof.
  intros HR. apply bytes_mul. rewrite array_law by done.
  pose proof (alloc_law (LInt 32) eq_refl) as HA. rewrite int_law in HA by done. lia.
Qed.

Lemma alloc_dims (Rank : Z) : 0 < Rank -> alloc (LArr (LInt 32) Rank) = 4 * Rank.
Proof.
  intros HR. destruct (solid_bytes (LArr (LInt 32) Rank)) as [_ ->].
  - simpl. by rewrite andb_true_r, Z.ltb_lt.
  - apply bytes_dims. lia.
Qed.

Lemma bytes_int32 : bytes (LInt 32) = 4 /\ alloc (LInt 32) = 4.
Proof.
  assert (HB : bytes (LInt 32) = 4) by (apply bytes_mul; by rewrite int_law).
  destruct (solid_bytes (LInt 32) eq_refl) as [_ ->]. done.
Qed.

(** The array fields of a 64-bit and of a 32-bit target. *)
Definition array_tail (IsVector : bool) (Rank : Z) (E : LTy) : list LTy :=
  [LInt 32] ++ (if getPointerSizeInBits =? 64 then [bytes_type 4] else [])
  ++ (if IsVector then [] else [LArr (LInt 32) Rank; LArr (LInt 32) Rank]) ++ [LArr E 0].

Lemma addArrayFields_spec (Parent : list LTy) (IsVector : bool) (Rank : Z) (E : LTy) :
  0 <= Rank ->
  addArrayFields Parent IsVector Rank E =
    (Parent ++ array_tail IsVector Rank E, header_size + if IsVector then 0 else 8 * Rank).
Proof.
  intros HR. unfold addArrayFields, array_tail, header_size.
  destruct bytes_int32 as [-> _]. rewrite bytes_bytes_type, bytes_dims by lia.
  destruct (getPointerSizeInBits =? 64), IsVector; cbn [negb app];
    rewrite <- ?app_assoc; cbn [app]; f_equal; lia.
Qed.

(** ** Properties *)

(** C27: the structure LLVM gets for a class has the runtime's layout, when the
    fields come in the order of their offsets, behind the parent's and inside
    the size of a value class, no field is a vector or an empty structure, and
    only fields that hold no reference, in a class that is neither a typed
    reference nor a string, overlap others ([class_ok]). The loop over the
    fields never fails an assertion; the parent's fields stay in front; every
    field that shares no byte with another one has a recorded index, the
    element at that index has the field's type and begins at the offset the
    runtime gave, also behind and between overlapping fields; and a value class
    of this kind has the size the runtime gave. *)
Theorem class_layout_matches_runtime (ObjectTy : LTy) (TypeAddr : LTy -> Z) (K : ClassKind)
    (EEClassSize : option Z) (Parent : list LTy) (ParentSize : Z) (m : gmap Z nat)
    (D : list (Z * Z * LTy)) :
  0 <= ParentSize -> Forall tight Parent -> total alloc Parent = ParentSize ->
  class_ok K ParentSize m D ->
  (forall Size, EEClassSize = Some Size ->
     ParentSize <= Size /\ forall F, F ∈ D -> F.1.1 + bytes F.2 <= Size) ->
  exists st, place_fields ObjectTy TypeAddr K EEClassSize (MkLayout Parent ParentSize [] m) D = Some st /\
    OverlappingFields st = [] /\ (exists New, Fields st = Parent ++ New) /\
    getStructSize (Fields st) = ByteOffset st /\
    (forall Size, EEClassSize = Some Size -> getStructSize (Fields st) = Size) /\
    (forall j F, D !! j = Some F -> isolated D j ->
       exists i, FieldIndexMap st !! F.1.2 = Some i /\ Fields st !! i = Some (tweak K F.1.2 F.2) /\
         getElementOffset (Fields st) i = F.1.1) /\
    (forall h i, m !! h = Some i -> FieldIndexMap st !! h = Some i).
Proof.
  intros HB Ht HT HD HS. unfold place_fields.
  destruct (place_all ObjectTy TypeAddr K Parent ParentSize m D HB HD 0
    (MkLayout Parent ParentSize [] m)) as (st & HE & Hst); [by apply placed_upto_0|lia|].
  rewrite drop_0 in HE. rewrite HE. cbn [mbind option_bind].
  destruct (flush_spec ObjectTy TypeAddr K Parent ParentSize m D HB HD _ st Hst)
    as (Extra & -> & HtE & Htot). cbn [mbind option_bind].
  destruct (up_prefix _ _ _ _ _ _ _ Hst) as [New HNew].
  assert (HI : forall Tail j F, D !! j = Some F -> isolated D j ->
    exists i, FieldIndexMap st !! F.1.2 = Some i /\
      (Fields st ++ Tail) !! i = Some (tweak K F.1.2 F.2) /\
      getElementOffset (Fields st ++ Tail) i = F.1.1).
  { intros Tail j F HF HI. destruct (up_index _ _ _ _ _ _ _ Hst j F) as (i & Hi & Hl & Htk); [by eapply lookup_lt_Some|done|done|].
    pose proof (lookup_lt_Some _ _ _ Hl). exists i.
    rewrite offset_law, lookup_app_l, take_app_le by lia. done. }
  assert (HL : forall Size, EEClassSize = Some Size -> ByteOffset st <= Size).
  { intros Size ES. destruct (HS Size ES) as [HP HF].
    destruct (up_end _ _ _ _ _ _ _ Hst) as [-> |(j & F & _ & Hj & ->)]; [done|].
    apply list_elem_of_lookup_2 in Hj. destruct (placed_bytes K ParentSize m D HD F Hj) as [_ ?].
    specialize (HF F Hj). lia. }
  destruct (end_padding_spec EEClassSize (MkLayout (Fields st ++ Extra) (ByteOffset st) []
    (FieldIndexMap st)) Htot HL) as (Pad & B & -> & HP & HSz).
  simpl in *. eexists. split; [done|]. simpl. rewrite struct_size_law, HP.
  split_and!; [done|rewrite HNew, <- !app_assoc; by eexists|done|done| |apply (up_old _ _ _ _ _ _ _ Hst)].
  rewrite <- app_assoc. apply HI.
Qed.

(** A set of overlapping fields becomes elements of the size of the range
    they occupy when their references follow each other from its first byte
    on, and only then; otherwise the elements are too large, by the bytes
    skipped in front of references. *)
Theorem overlap_size_exact (ObjectTy : LTy) (TypeAddr : LTy -> Z) (O : list (Z * LTy))
    (a b : Z) (Fs Fs' : list LTy) :
  alloc ObjectTy = getPointerByteSize -> 0 <= a -> covers O a b ->
  createOverlapFields ObjectTy TypeAddr O Fs = Some Fs' ->
  exists gs, StronglySorted Z.lt gs /\
    (forall g, g ∈ gs <-> exists T, (g, T) ∈ O /\ isGcPointer T = true) /\
    total alloc Fs' = total alloc Fs + (b - a) + slack gs a /\ 0 <= slack gs a /\
    (total alloc Fs' = total alloc Fs + (b - a) <-> contiguous gs a).
Proof.
  intros HO Ha HC HE. destruct (sorted_overlap_head TypeAddr O a b HC) as (T & HT).
  unfold createOverlapFields in HE. fold (sorted_overlap TypeAddr O) in HE.
  destruct (foldM scan_overlap ([], 0) (sorted_overlap TypeAddr O)) as [[gs e]|] eqn:ES; [|done].
  cbn [mbind option_bind] in HE. rewrite HT in HE. cbn [mbind option_bind fst] in HE.
  destruct (gc_fields ObjectTy gs a Fs) as [[Fs1 c]|] eqn:EG; [|done]. cbn [mbind option_bind] in HE.
  destruct (Z.leb_spec c e) as [Hce|]; [|done]. cbn [assert mbind option_bind] in HE.
  destruct (scan_overlap_spec TypeAddr _ [] gs 0 e (sorted_overlap_sorted TypeAddr O)
    (SSorted_nil _) ltac:(set_solver) ES) as [HSort Hgs He].
  destruct (gc_fields_spec ObjectTy gs a c Fs Fs1 HO EG) as (Htot & Hpos & Hzero).
  assert (e = b) as ->.
  { destruct HC as (HA & _ & (q & Hq & Hb)). destruct He as (_ & HL & HX).
    specialize (HL q (proj2 (elem_of_sorted_overlap TypeAddr O q) Hq)).
    destruct HX as [->|(p & Hp & <-)].
    - destruct (HA q Hq) as (? & _ & Hs). pose proof (solid_bytes q.2 Hs). lia.
    - destruct (HA p (proj1 (elem_of_sorted_overlap TypeAddr O p) Hp)) as (_ & ? & _). lia. }
  assert (HT' : total alloc Fs' = total alloc Fs + (b - a) + slack gs a).
  { destruct (Z.ltb_spec c b); simplify_eq; [|lia].
    rewrite total_app. cbn [total foldr fmap list_fmap]. rewrite alloc_bytes_type by lia. lia. }
  exists gs. split_and!; [done| |done|done|rewrite <- Hzero; lia].
  intros g. rewrite Hgs. split.
  - intros [?%not_elem_of_nil|(U & HU & HG)]; [done|]. exists U. by rewrite <- (elem_of_sorted_overlap TypeAddr).
  - intros (U & HU & HG). right. exists U. by rewrite (elem_of_sorted_overlap TypeAddr).
Qed.

(** C28: the walk in pointer-sized jumps reports exactly the references of a
    structure without vectors and without empty structures, through nested
    value classes and in increasing order, when the references are aligned. *)
Theorem getGcPointers_exact (Body : list LTy) :
  Forall (fun T => solid T = true) Body ->
  (forall g L, (g, L) ∈ body_leaves 0 Body -> isGcPointer L = true -> g mod getPointerByteSize = 0) ->
  exists Ps, getGcPointers Body = Some Ps /\ StronglySorted Z.lt Ps /\
    forall o, o ∈ Ps <-> exists L, (o, L) ∈ body_leaves 0 Body /\ isGcPointer L = true.
Proof.
  intros HS HA. unfold getGcPointers. rewrite struct_size_law, total_solid by done.
  destruct (decide (Body = [])) as [->|Hn].
  - exists []. split_and!; [|constructor|].
    + cbn [gc_pointers_from]. by rewrite struct_size_law.
    + intros o. split; [by intros ?%not_elem_of_nil|by intros (? & ?%not_elem_of_nil & _)].
  - pose proof pointer_size_pos. pose proof (total_nonneg Body HS).
    destruct (gc_pointers_from_spec (S (Z.to_nat (total bytes Body))) Body 0) as (Ps & HE & HSort & HP);
      try done; [nia|].
    exists Ps. split_and!; [done|done|]. intros o. rewrite HP. split; [naive_solver|].
    intros (L & HL & HG). split; [|by exists L].
    rewrite <- (leaves_struct 0) in HL.
    destruct (leaves_cover (LStruct 0 Body) 0) as (HC & _); [by apply solid_struct|].
    by destruct (HC _ HL).
Qed.

(** The elements of an array structure are where the runtime and the
    accesses of the generated code expect them: behind the header of
    System.Array the length, for arrays with lower bounds the lengths and the
    lower bounds of the dimensions, and last the data, at the returned size. *)
Theorem array_fields_at_runtime_offsets (Parent : list LTy) (IsVector : bool) (Rank : Z) (E : LTy) :
  0 < Rank ->
  let H := total alloc Parent in
  let '(Fs, Size) := addArrayFields Parent IsVector Rank E in
  let n := length Fs in
  getElementOffset Fs (length Parent) = H /\ Fs !! length Parent = Some (LInt 32) /\
  (IsVector = false ->
     Fs !! (n - 3)%nat = Some (LArr (LInt 32) Rank) /\ getElementOffset Fs (n - 3) = H + header_size /\
     Fs !! (n - 2)%nat = Some (LArr (LInt 32) Rank) /\
     getElementOffset Fs (n - 2) = H + header_size + 4 * Rank) /\
  Fs !! (n - 1)%nat = Some (LArr E 0) /\ getElementOffset Fs (n - 1) = H + Size /\
  getStructSize Fs = H + Size.
Proof.
  intros HR. cbn zeta. rewrite addArrayFields_spec by lia.
  assert (HL : forall k, (Parent ++ array_tail IsVector Rank E) !! (length Parent + k)%nat =
      array_tail IsVector Rank E !! k).
  { intros k. by rewrite lookup_app_r, Nat.add_sub' by lia. }
  assert (HT : forall k, getElementOffset (Parent ++ array_tail IsVector Rank E) (length Parent + k) =
      total alloc Parent + total alloc (take k (array_tail IsVector Rank E))).
  { intros k. by rewrite offset_law, take_app_add, total_app. }
  rewrite struct_size_law, total_app, length_app.
  pose proof (HL 0%nat) as HL0. pose proof (HT 0%nat) as HT0. rewrite Nat.add_0_r in HL0, HT0.
  rewrite HL0, HT0. unfold array_tail, header_size in *. destruct bytes_int32 as [_ HI].
  assert (HS : forall k, (length Parent + S k - 1)%nat = (length Parent + k)%nat) by lia.
  split; [cbn; lia|]. split; [by destruct (getPointerSizeInBits =? 64)|].
  destruct (getPointerSizeInBits =? 64), IsVector; cbn [app length] in *;
    (split; [try done; intros _; rewrite <- ?Nat.add_sub_assoc by lia|]); rewrite ?HS, ?HL, ?HT;
    cbn [Nat.sub lookup list_lookup take total foldr fmap list_fmap];
    rewrite ?HI, ?alloc_bytes_type, ?alloc_dims, ?empty_law by lia; split_and!; (done || lia).
Qed.

End laws.

(** ** The data layout of a 64-bit target *)

Definition scalar_bits (T : LTy) : Z :=
  match T with LInt w => w | LFloat => 32 | LDouble | LPtr _ _ => 64 | _ => 0 end.

(** A vector's allocation size is its size rounded up to a power of two. *)
Fixpoint x64_alloc (T : LTy) : Z :=
  match T with
  | LInt w => w / 8
  | LFloat => 4
  | LDouble | LPtr _ _ => 8
  | LArr T n => n * x64_alloc T
  | LVec T n => 2 ^ Z.log2_up (n * scalar_bits T / 8)
  | LStruct _ Body => total x64_alloc Body
  | _ => 0
  end.

Definition x64_bits (T : LTy) : Z :=
  match T with
  | LVec T n => n * scalar_bits T
  | LArr _ _ | LStruct _ _ => 8 * x64_alloc T
  | _ => scalar_bits T
  end.

Fixpoint x64_containing (Body : list LTy) (o : Z) : nat :=
  match Body with
  | [] => 0
  | T :: Rest => if o <? x64_alloc T then 0 else S (x64_containing Rest (o - x64_alloc T))
  end.

#[local] Instance x64 : DataLayout := {|
  getTypeSizeInBits := x64_bits;
  getTypeAllocSize := x64_alloc;
  getPointerSizeInBits := 64;
  getStructSize := total x64_alloc;
  getElementOffset Body i := total x64_alloc (take i Body);
  getElementContainingOffset := x64_containing |}.

Lemma x64_containing_spec (Body : list LTy) (o : Z) :
  0 <= o < total x64_alloc Body ->
  is_Some (Body !! x64_containing Body o) /\
  total x64_alloc (take (x64_containing Body o) Body) <= o
    < total x64_alloc (take (S (x64_containing Body o)) Body).
Proof.
  revert o. induction Body as [|T Body IH]; intros o Ho; [unfold total in Ho; simpl in Ho; lia|].
  rewrite total_cons in Ho. cbn [x64_containing]. destruct (Z.ltb_spec o (x64_alloc T)).
  - split; [by eexists|]. unfold total. simpl. lia.
  - destruct (IH (o - x64_alloc T)) as [HL HB]; [lia|]. split; [done|].
    cbn [take] in *. rewrite !total_cons in *. lia.
Qed.

Lemma x64_laws : DataLayoutLaws.
Proof.
  split; try done; [by right| |by intros; apply x64_containing_spec].
  intros [] HT; try done.
  simpl in HT. rewrite !orb_true_iff, !Z.eqb_eq in HT. cbn.
  destruct HT as [[[-> | ->]| ->]| ->]; done.
Qed.

(** ** Witnesses and examples *)

Definition object_ref : LTy := LPtr ManagedAddressSpace (LNamed 9).

(** A union: an integer and a float share bytes 4 to 8; 20 bytes are used of 24. *)
Definition union_kind : ClassKind := MkKind true false false (Some 1) (Some 5).
Definition union_fields : list (Z * Z * LTy) :=
  [(0, 1, LInt 32); (4, 2, LInt 32); (4, 3, LFloat); (8, 4, object_ref); (16, 5, LInt 32)].

Lemma union_isolated (j : nat) : j <> 1%nat -> j <> 2%nat -> isolated union_fields j.
Proof.
  intros H1 H2 F HF k G Hk HG.
  destruct j as [|[|[|[|[|]]]]], k as [|[|[|[|[|]]]]]; simplify_eq/=;
    (left; vm_compute; congruence) || (right; vm_compute; congruence).
Qed.

Lemma union_ok : class_ok union_kind 0 ∅ union_fields.
Proof.
  split.
  - intros [|[|[|[|[|j]]]]] [|[|[|[|[|k]]]]] F G Hjk HF HG; simplify_eq/=; lia.
  - intros F HF. unfold union_fields in HF. set_unfold. naive_solver lia.
  - intros F HF. unfold union_fields in HF. set_unfold. naive_solver.
  - done.
  - intros j F HF HI.
    destruct j as [|[|[|[|[|]]]]]; simplify_eq/=; try done; destruct HI; by apply union_isolated.
  - intros [|[|[|[|[|j]]]]] [|[|[|[|[|k]]]]] F G HF HG E; simplify_eq/=; done.
  - done.
Qed.

Lemma class_layout_matches_runtime_witness : exists st,
  place_fields object_ref (fun _ => 0) union_kind (Some 24) (MkLayout [] 0 [] ∅) union_fields = Some st /\
  getStructSize (Fields st) = 24 /\
  exists i, FieldIndexMap st !! 4 = Some i /\ getElementOffset (Fields st) i = 8.
Proof.
  destruct (@class_layout_matches_runtime x64 x64_laws object_ref (fun _ => 0) union_kind (Some 24) [] 0 ∅
    union_fields) as (st & HE & _ & _ & _ & HS & HF & _);
    [done|done|done|exact union_ok| |].
  { intros ? [= <-]. split; [done|]. intros F HF. unfold union_fields in HF. set_unfold.
    naive_solver (vm_compute; congruence). }
  exists st. split; [exact HE|]. split; [by apply HS|].
  destruct (HF 3%nat (8, 4, object_ref) eq_refl) as (i & Hi & _ & Ho); [by apply union_isolated|].
  exists i. split; [exact Hi|exact Ho].
Defined.

(** A pair of an integer and a reference that overlaps an integer. *)
Definition overlap_pair : list (Z * LTy) :=
  addFieldsRecursively (addFieldsRecursively [] 0 (LStruct 7 [LInt 64; object_ref])) 0 (LInt 64).

Lemma overlap_pair_covers : covers overlap_pair 0 16.
Proof.
  change (covers (leaves 0 (LStruct 7 [LInt 64; object_ref]) ++ leaves 0 (LInt 64)) 0 (Z.max 16 8)).
  apply (@layout_covers_app x64 _ _ 0 16 0 8); [| |done].
  - apply (@leaves_cover x64 x64_laws (LStruct 7 [LInt 64; object_ref]) 0 eq_refl).
  - apply (@leaves_cover x64 x64_laws (LInt 64) 0 eq_refl).
Qed.

(** The reference is behind an integer: the 16 bytes become elements of 24. *)
Definition overlap_pair_fields : list LTy := [bytes_type 8; object_ref; bytes_type 8].

Lemma overlap_pair_created :
  createOverlapFields object_ref (fun _ => 0) overlap_pair [] = Some overlap_pair_fields /\
  getStructSize overlap_pair_fields = 24.
Proof. by vm_compute. Qed.

Lemma overlap_size_exact_witness : exists gs,
  (forall g, g ∈ gs <-> exists T, (g, T) ∈ overlap_pair /\ isGcPointer T = true) /\
  24 = 0 + (16 - 0) + slack gs 0 /\ ~ contiguous gs 0.
Proof.
  destruct (@overlap_size_exact x64 x64_laws object_ref (fun _ => 0) overlap_pair 0 16 []
    overlap_pair_fields) as (gs & _ & HG & HT & _ & HC);
    [done|done|exact overlap_pair_covers|exact (proj1 overlap_pair_created)|].
  exists gs. split; [exact HG|]. split; [exact HT|].
  intros H. apply HC in H. vm_compute in H. discriminate.
Defined.

(** A value class nested in another one. *)
Definition nested_body : list LTy :=
  [LInt 64; LStruct 7 [LInt 32; bytes_type 4; object_ref]; object_ref].

Lemma nested_aligned (g : Z) (L : LTy) :
  (g, L) ∈ body_leaves 0 nested_body -> isGcPointer L = true -> g mod getPointerByteSize = 0.
Proof.
  intros H HG. vm_compute in H.
  repeat (apply elem_of_cons in H as [[= -> ->]|H]; [done|]). by apply not_elem_of_nil in H.
Qed.

Lemma getGcPointers_exact_witness : exists Ps,
  getGcPointers nested_body = Some Ps /\ StronglySorted Z.lt Ps /\ 16 ∈ Ps.
Proof.
  destruct (@getGcPointers_exact x64 x64_laws nested_body) as (Ps & HE & HS & HP).
  - by repeat constructor.
  - exact nested_aligned.
  - exists Ps. split; [exact HE|]. split; [exact HS|]. apply HP. exists object_ref.
    split; [|done]. vm_compute. do 3 right. left.
Defined.

Lemma array_fields_at_runtime_offsets_witness :
  let Fs := (addArrayFields [VtablePtrTy] false 2 LDouble).1 in
  getElementOffset Fs (length Fs - 1) = 32 /\ Fs !! (length Fs - 1)%nat = Some (LArr LDouble 0).
Proof.
  destruct (@array_fields_at_runtime_offsets x64 x64_laws [VtablePtrTy] false 2 LDouble)
    as (_ & _ & _ & HL & HO & _); [lia|].
  split; [exact HO|exact HL].
Defined.

(** A vector of three floats: LLVM gives it 16 bytes where the reader counts 12,
    so the field behind it, which the runtime puts at 12, is at 16. *)
Lemma vector3_misplaces_fields : exists st,
  place_fields object_ref (fun _ => 0) (MkKind false false false (Some 1) (Some 2)) None
    (MkLayout [] 0 [] ∅) [(0, 1, LVec LFloat 3); (12, 2, LInt 32)] = Some st /\
  FieldIndexMap st !! 2 = Some 1%nat /\ getElementOffset (Fields st) 1 = 16.
Proof. eexists. split; [vm_compute; reflexivity|]. done. Qed.

(** The two kinds of array structures, and how the reader tells them apart. *)
Example isArrayType_vector (E : LTy) :
  isArrayType (fun _ => Some (createArrayOfElementType E)) (LPtr 1 (LNamed 0)) None = Some true.
Proof. reflexivity. Qed.

Example isArrayType_md (Rank : Z) (E : LTy) :
  isArrayType (fun _ => Some ((addArrayFields [VtablePtrTy] false Rank E).1)) (LPtr 1 (LNamed 0)) None
  = Some false.
Proof. reflexivity. Qed.

End TypeLayout.
