(* ===== verification/SIMDTypes.v ===== *)
(** * The vector types of System.Numerics (lib/Reader/readerir.cpp)

    The JIT recognises the SIMD classes of the framework by their names and
    remembers the class handles it has recognised in static variables.  The
    theorem shows that the handles are only a cache: the answer is the one the
    name gives. *)

From stdpp Require Import strings.
From S2P Require Import Prelude TypeLayout.
Import TypeLayout.

Module SIMDTypes.
#[local] Open Scope string_scope.
#[local] Open Scope Z_scope.

(** The static handles, one for each kind of class. *)
Inductive SIMDKind : Set :=
  | SIMDFloat | SIMDDouble | SIMDInt | SIMDUShort | SIMDUByte | SIMDShort | SIMDByte
  | SIMDLong | SIMDUInt | SIMDULong | SIMDVector2 | SIMDVector3 | SIMDVector4.

#[export] Instance SIMDKind_eq_dec : EqDecision SIMDKind.
Proof. solve_decision. Defined.

(** The handle remembered for each kind; 0 before the first. *)
Definition Handles : Type := SIMDKind -> Z.
Definition no_handles : Handles := fun _ => 0.
Definition set_handle (k : SIMDKind) (Class : Z) (h : Handles) : Handles :=
  fun k' => if decide (k' = k) then Class else h k'.

(** What the comparisons with the remembered handles answer: the element type,
    the length (0 for a generic vector) and the signedness. *)
Definition kind_entry (k : SIMDKind) : LTy * Z * bool :=
  match k with
  | SIMDFloat => (LFloat, 0, true)
  | SIMDDouble => (LDouble, 0, true)
  | SIMDInt => (LInt 32, 0, true)
  | SIMDUShort => (LInt 16, 0, false)
  | SIMDUByte => (LInt 8, 0, false)
  | SIMDShort => (LInt 16, 0, true)
  | SIMDByte => (LInt 8, 0, true)
  | SIMDLong => (LInt 64, 0, true)
  | SIMDUInt => (LInt 32, 0, false)
  | SIMDULong => (LInt 64, 0, false)
  | SIMDVector2 => (LFloat, 2, true)
  | SIMDVector3 => (LFloat, 3, true)
  | SIMDVector4 => (LFloat, 4, true)
  end.

(** The order of the comparisons. *)
Definition kinds : list SIMDKind :=
  [SIMDFloat; SIMDDouble; SIMDInt; SIMDUShort; SIMDUByte; SIMDShort; SIMDByte; SIMDLong;
   SIMDUInt; SIMDULong; SIMDVector2; SIMDVector3; SIMDVector4].

Definition cached_kind (h : Handles) (Class : Z) : option SIMDKind :=
  find (fun k => Class =? h k) kinds.

(** [Name.compare(Pos, Len, Literal) == 0]; the standard library throws when
    [Pos] is behind the end. *)
Definition compare_at (Pos Len : nat) (Name Literal : string) : option bool :=
  if (Pos <=? String.length Name)%nat
  then Some (bool_decide (String.substring Pos Len Name = Literal)) else None.

(** The first name of a list that is found at position 25. *)
Fixpoint element_kind (Name : string) (l : list (string * SIMDKind)) : option (option SIMDKind) :=
  match l with
  | [] => Some None
  | (Literal, k) :: Rest =>
      Found ← compare_at 25 (String.length Literal) Name Literal;
      if (Found : bool) then Some (Some k) else element_kind Name Rest
  end.

Definition element_names : list (string * SIMDKind) :=
  [("System.Single", SIMDFloat); ("System.Int32", SIMDInt); ("System.UInt16", SIMDUShort);
   ("System.Byte", SIMDUByte); ("System.Double", SIMDDouble); ("System.Int64", SIMDLong);
   ("System.Int16", SIMDShort); ("System.SByte", SIMDByte); ("System.UInt32", SIMDUInt);
   ("System.UInt64", SIMDULong)].

(** The kind a class name denotes, [None] inside the option for another class. *)
Definition parse_class_name (ClassName : string) : option (option SIMDKind) :=
  IsVector ← compare_at 0 22 ClassName "System.Numerics.Vector";
  if (IsVector : bool) then
    Generic ← compare_at 22 3 ClassName "`1[";
    if (Generic : bool) then element_kind ClassName element_names
    else
      Two ← compare_at 22 2 ClassName "2";
      if (Two : bool) then Some (Some SIMDVector2)
      else
        Three ← compare_at 22 2 ClassName "3";
        if (Three : bool) then Some (Some SIMDVector3)
        else
          Four ← compare_at 22 2 ClassName "4";
          Some (if (Four : bool) then Some SIMDVector4 else None)
  else Some None.

Section simd.
(** The runtime's name and size of a class and the option for the length. *)
Variable appendClassNameAsString : Z -> string.
Variable getClassSize : Z -> Z.
Variable PreferredIntrinsicSIMDVectorLength : Z.

Definition getMaxIntrinsicSIMDVectorLength (Class : Z) : Z :=
  if PreferredIntrinsicSIMDVectorLength =? 0 then getClassSize Class
  else PreferredIntrinsicSIMDVectorLength.

(** The answer: the element type ([None] for null), and the three results. *)
Record SIMDInfo := MkSIMD {
  ElementType : option LTy; VectorLength : Z; IsGeneric : bool; IsSigned : bool }.

(** LLVM's [getPrimitiveSizeInBits] of the element types. *)
Definition primitive_bits (T : LTy) : Z :=
  match T with LInt w => w | LFloat => 32 | LDouble => 64 | _ => 0 end.

(** The last part: fixed-size vectors keep their length. *)
Definition finish (h : Handles) (Class : Z) (T : LTy) (Length : Z) (Signed : bool) : SIMDInfo :=
  if (Class =? h SIMDVector2) || (Class =? h SIMDVector3) || (Class =? h SIMDVector4)
  then MkSIMD (Some T) Length false Signed
  else MkSIMD (Some T) (getMaxIntrinsicSIMDVectorLength Class * 8 / primitive_bits T) true Signed.

Definition getBaseTypeAndSizeOfSIMDType (h : Handles) (Class : Z) : option (Handles * SIMDInfo) :=
  match cached_kind h Class with
  | Some k =>
      let '(T, Length, Signed) := kind_entry k in Some (h, finish h Class T Length Signed)
  | None =>
      Parsed ← parse_class_name (appendClassNameAsString Class);
      match Parsed with
      | None => Some (h, MkSIMD None 0 false true)
      | Some k =>
          let '(T, Length, Signed) := kind_entry k in
          let h := set_handle k Class h in
          match k with
          | SIMDVector2 | SIMDVector3 | SIMDVector4 => Some (h, MkSIMD (Some T) Length false Signed)
          | _ => Some (h, finish h Class T Length Signed)
          end
      end
  end.

Definition getElementCountOfSIMDType (h : Handles) (Class : Z) : option (Handles * Z) :=
  '(h, Info) ← getBaseTypeAndSizeOfSIMDType h Class; Some (h, VectorLength Info).

Definition getIsSigned (h : Handles) (Class : Z) : option (Handles * bool) :=
  '(h, Info) ← getBaseTypeAndSizeOfSIMDType h Class; Some (h, IsSigned Info).

(** ** Specification: the answer for a name *)

Definition simd_info (Class : Z) (k : option SIMDKind) : SIMDInfo :=
  match k with
  | None => MkSIMD None 0 false true
  | Some k =>
      let '(T, Length, Signed) := kind_entry k in
      if Length =? 0
      then MkSIMD (Some T) (getMaxIntrinsicSIMDVectorLength Class * 8 / primitive_bits T) true Signed
      else MkSIMD (Some T) Length false Signed
  end.

(** Every remembered handle is one of a class of its kind. *)
Definition handles_ok (h : Handles) : Prop :=
  forall k, h k <> 0 -> parse_class_name (appendClassNameAsString (h k)) = Some (Some k).

Lemma no_handles_ok : handles_ok no_handles.
Proof. intros k H. by destruct H. Qed.

Lemma set_handle_ok (h : Handles) (k : SIMDKind) (Class : Z) :
  handles_ok h -> parse_class_name (appendClassNameAsString Class) = Some (Some k) ->
  handles_ok (set_handle k Class h).
Proof.
  intros Hh Hk k'. unfold set_handle. destruct (decide (k' = k)) as [->|]; [done|]. apply Hh.
Qed.

(** The handles of the fixed-size vectors tell exactly those apart. *)
Lemma finish_spec (h : Handles) (Class : Z) (k : SIMDKind) :
  handles_ok h -> Class <> 0 -> Class = h k ->
  let '(T, Length, Signed) := kind_entry k in
  finish h Class T Length Signed = simd_info Class (Some k).
Proof.
  intros Hh HC Hk.
  assert (HV : forall k', (Class =? h k') = bool_decide (k' = k)).
  { intros k'. case_bool_decide as E.
    - apply Z.eqb_eq. congruence.
    - apply Z.eqb_neq. intros E'.
      pose proof (Hh k ltac:(congruence)) as H1. pose proof (Hh k' ltac:(congruence)) as H2.
      congruence. }
  unfold finish, simd_info. rewrite !HV. by destruct k.
Qed.

Lemma cached_kind_spec (h : Handles) (Class : Z) (k : SIMDKind) :
  cached_kind h Class = Some k -> Class = h k.
Proof. intros [_ HE]%find_some. by apply Z.eqb_eq. Qed.

Lemma compare_at_total (Pos Len : nat) (Name Literal : string) :
  (Pos <= String.length Name)%nat -> is_Some (compare_at Pos Len Name Literal).
Proof. intros H. unfold compare_at. rewrite (proj2 (Nat.leb_le _ _)) by done. by eexists. Qed.

(** A literal found at a position reaches behind it. *)
Lemma compare_at_length (Pos Len : nat) (Name Literal : string) :
  compare_at Pos Len Name Literal = Some true ->
  (Pos + String.length Literal <= String.length Name)%nat.
Proof.
  unfold compare_at. destruct (Nat.leb_spec Pos (String.length Name)) as [Hle|]; [|done].
  intros [= H%bool_decide_eq_true]. rewrite <- H.
  clear H Literal. revert Name Hle. induction Pos as [|Pos IH]; intros Name Hle; simpl.
  - revert Name Hle. induction Len as [|Len IH]; intros [|c Name] Hle; simpl; try lia.
    specialize (IH Name ltac:(lia)). lia.
  - destruct Name as [|c Name]; simpl in *; [lia|]. specialize (IH Name ltac:(lia)). lia.
Qed.

Lemma element_kind_total (Name : string) (l : list (string * SIMDKind)) :
  (25 <= String.length Name)%nat -> is_Some (element_kind Name l).
Proof.
  intros H. induction l as [|[Literal k] l IH]; [by eexists|]. cbn [element_kind].
  destruct (compare_at_total 25 (String.length Literal) Name Literal H) as [[] ->];
    cbn [mbind option_bind]; [by eexists|done].
Qed.

(** No comparison begins behind the end of a name. *)
Lemma parse_class_name_total (Name : string) : is_Some (parse_class_name Name).
Proof.
  unfold parse_class_name.
  destruct (compare_at_total 0 22 Name "System.Numerics.Vector") as [[] E]; [lia| |];
    rewrite E; cbn [mbind option_bind]; [|by eexists].
  apply compare_at_length in E. change (String.length "System.Numerics.Vector") with 22%nat in E.
  destruct (compare_at_total 22 3 Name "`1[") as [[] E']; [lia| |];
    rewrite E'; cbn [mbind option_bind].
  - apply compare_at_length in E'. change (String.length "`1[") with 3%nat in E'.
    apply element_kind_total. lia.
  - destruct (compare_at_total 22 2 Name "2") as [[] ->]; [lia|by eexists|]. cbn [mbind option_bind].
    destruct (compare_at_total 22 2 Name "3") as [[] ->]; [lia|by eexists|]. cbn [mbind option_bind].
    destruct (compare_at_total 22 2 Name "4") as [b ->]; [lia|]. cbn [mbind option_bind]. by eexists.
Qed.

(** ** Property *)

(** The remembered handles are a cache.  Whatever classes were asked for
    before, the answer for a class is the one its name gives, no comparison of
    the name throws, and the handles stay consistent with the names. *)
Theorem simd_handles_are_a_cache (h : Handles) (Class : Z) :
  handles_ok h -> Class <> 0 ->
  exists h' k, parse_class_name (appendClassNameAsString Class) = Some k /\
    getBaseTypeAndSizeOfSIMDType h Class = Some (h', simd_info Class k) /\ handles_ok h'.
Proof.
  intros Hh HC. unfold getBaseTypeAndSizeOfSIMDType.
  destruct (cached_kind h Class) as [k|] eqn:EC.
  - apply cached_kind_spec in EC. exists h, (Some k). pose proof (finish_spec h Class k Hh HC EC) as HF.
    destruct (kind_entry k) as [[T Length] Signed]. rewrite HF.
    split; [|done]. rewrite EC. apply Hh. congruence.
  - destruct (parse_class_name_total (appendClassNameAsString Class)) as [k EP]. rewrite EP.
    cbn [mbind option_bind]. destruct k as [k|]; [|by exists h, None].
    pose proof (set_handle_ok h k Class Hh EP) as Hh'.
    assert (E : Class = set_handle k Class h k) by (unfold set_handle; by rewrite decide_True).
    pose proof (finish_spec (set_handle k Class h) Class k Hh' HC E) as HF.
    exists (set_handle k Class h), (Some k). split; [done|].
    destruct k; cbn [kind_entry] in *; rewrite ?HF; split; done.
Qed.

End simd.

(** ** Witness: Vector<UInt32>, after Vector3 was remembered. *)

Definition demo_name (Class : Z) : string :=
  if Class =? 7 then "System.Numerics.Vector3"
  else "System.Numerics.Vector`1[System.UInt32]".

Lemma simd_handles_are_a_cache_witness : exists h',
  getBaseTypeAndSizeOfSIMDType demo_name (fun _ => 16) 0 (set_handle SIMDVector3 7 no_handles) 8 =
    Some (h', MkSIMD (Some (LInt 32)) 4 true false).
Proof.
  destruct (simd_handles_are_a_cache demo_name (fun _ => 16) 0 (set_handle SIMDVector3 7 no_handles) 8)
    as (h' & k & HP & HE & _).
  - apply set_handle_ok; [apply no_handles_ok|by vm_compute].
  - done.
  - exists h'. rewrite HE. vm_compute in HP. injection HP as <-. by vm_compute.
Defined.

End SIMDTypes.
