(* ===== verification/IRLogic.v ===== *)
(** * A program logic for emitted code

    [wp] relates a handler to what its code does.  A state is the recorded
    code together with the state of its run: the registers, or the outcome
    that ended the run, and the helpers called so far with their arguments.  [wp m s Q] says that the handler compiles without a
    failed assertion, and that [Q] holds of its result and of the state behind
    the calls it has added.  The rules follow the emission monad, so the proof
    about a handler follows its text. *)

From S2P Require Import Prelude IRBuilder.

Section logic.
Context {L : LLVM} (P : Z) (args : list (RVal FP)).

(** ** States *)

Definition helper_call : Type := CorInfoHelpFunc * list (RVal FP).

Record state := State {
  code : list Instr;
  running : list (RVal FP) + Outcome FP;
  called : list helper_call }.

(** The helpers that code calls, one after the other. *)
Definition call_of (regs : list (RVal FP)) (i : Instr) : list helper_call :=
  match i with
  | CallHelper H As =>
      match mapM (value_of args regs) As with Some vs => [(H, vs)] | None => [] end
  | _ => []
  end.

Fixpoint calls (new : list Instr) (regs : list (RVal FP)) : list helper_call :=
  match new with
  | [] => []
  | i :: new =>
      call_of regs i ++
      match exec_instr P args regs i with Returns v => calls new (regs ++ [v]) | _ => [] end
  end.

Definition advance (new : list Instr) (s : state) : state :=
  State (code s ++ new)
    (match running s with inl regs => exec P args new regs | inr o => inr o end)
    (called s ++ match running s with inl regs => calls new regs | inr _ => [] end).

Definition start : state := State [] (inl []) [].

(** The outcome that ended the run, if one has. *)
Definition stop (s : state) : option (Outcome FP) :=
  match running s with inl _ => None | inr o => Some o end.

Definition registers (s : state) : list (RVal FP) :=
  match running s with inl regs => regs | inr _ => [] end.

(** Every recorded call has filled a register. *)
Definition wf (s : state) : Prop :=
  forall regs, running s = inl regs -> length regs = length (code s).

(** As long as the code runs, [v] holds [r]. *)
Definition has (s : state) (v : Value) (r : RVal FP) : Prop :=
  stop s = None -> value_of args (registers s) v = Some r.

(** [s'] is reached from [s] by more code. *)
Definition ext (s s' : state) : Prop := exists new, s' = advance new s.

Lemma exec_app (l1 l2 : list Instr) (regs : list (RVal FP)) :
  exec P args (l1 ++ l2) regs =
  match exec P args l1 regs with inl regs' => exec P args l2 regs' | inr o => inr o end.
Proof.
  revert regs. induction l1 as [|i l1 IH]; intros regs; [done|]. simpl.
  destruct (exec_instr P args regs i); [apply IH|done|done].
Qed.

(** Running adds registers and keeps those there are. *)
Lemma exec_regs (l : list Instr) (regs regs' : list (RVal FP)) :
  exec P args l regs = inl regs' ->
  regs `prefix_of` regs' /\ length regs' = (length regs + length l)%nat.
Proof.
  revert regs. induction l as [|i l IH]; simpl; intros regs H.
  - injection H as ->. split; [done|lia].
  - destruct (exec_instr P args regs i); [|done|done]. destruct (IH _ H) as [H1 H2].
    split.
    + etrans; [|exact H1]. by apply prefix_app_r.
    + rewrite H2, length_app. simpl. lia.
Qed.

Lemma calls_app (l1 l2 : list Instr) (regs : list (RVal FP)) :
  calls (l1 ++ l2) regs = calls l1 regs ++
  match exec P args l1 regs with inl regs' => calls l2 regs' | inr o => [] end.
Proof.
  revert regs. induction l1 as [|i l1 IH]; intros regs; [done|]. simpl. rewrite <- app_assoc.
  f_equal. destruct (exec_instr P args regs i); [apply IH|done|done].
Qed.

Lemma advance_nil (s : state) : advance [] s = s.
Proof. destruct s as [c [r|o] l]; unfold advance; simpl; by rewrite !app_nil_r. Qed.

Lemma advance_app (l1 l2 : list Instr) (s : state) :
  advance l2 (advance l1 s) = advance (l1 ++ l2) s.
Proof.
  unfold advance. simpl. rewrite app_assoc. destruct (running s) as [regs|o].
  - rewrite exec_app, calls_app, app_assoc. by destruct (exec P args l1 regs).
  - by rewrite app_nil_r.
Qed.

#[export] Instance ext_preorder : PreOrder ext.
Proof.
  split.
  - intros s. exists []. by rewrite advance_nil.
  - intros s1 s2 s3 [l1 ->] [l2 ->]. exists (l1 ++ l2). by rewrite advance_app.
Qed.

Lemma wf_start : wf start.
Proof. intros regs. simpl. by intros [= <-]. Qed.

Lemma wf_advance (new : list Instr) (s : state) : wf s -> wf (advance new s).
Proof.
  intros Hw regs. unfold advance. simpl. destruct (running s) as [r|o] eqn:E; [|done].
  intros H%exec_regs. rewrite length_app, (proj2 H). by rewrite (Hw r E).
Qed.

Lemma value_of_prefix (regs regs' : list (RVal FP)) (v : Value) (r : RVal FP) :
  regs `prefix_of` regs' -> value_of args regs v = Some r -> value_of args regs' v = Some r.
Proof.
  unfold value_of. destruct (def v); intros Hp H; [done|done|]. by eapply prefix_lookup_Some.
Qed.

(** What a value holds does not change. *)
Lemma has_advance (new : list Instr) (s : state) (v : Value) (r : RVal FP) :
  has s v r -> has (advance new s) v r.
Proof.
  unfold has, stop, registers, advance. simpl. destruct (running s) as [regs|o] eqn:E; [|done].
  intros H. destruct (exec P args new regs) as [regs'|o] eqn:HE; [|done]. intros _.
  eapply value_of_prefix; [by apply (exec_regs new)|by apply H].
Qed.

(** The state has stopped, or goes on with the registers it had. *)
Lemma stop_advance (new : list Instr) (s : state) (o : Outcome FP) :
  stop s = Some o -> stop (advance new s) = Some o.
Proof. unfold stop, advance. simpl. by destruct (running s). Qed.

(** ** The predicate and its rules *)

Definition wp {A} (m : M A) (s : state) (Q : A -> state -> Prop) : Prop :=
  exists new a, m (code s) = Some (code s ++ new, a) /\ Q a (advance new s).

Lemma wp_ret {A} (a : A) (s : state) (Q : A -> state -> Prop) : Q a s -> wp (ret a) s Q.
Proof. intros H. exists [], a. rewrite app_nil_r, advance_nil. done. Qed.

Lemma wp_bind {A B} (m : M A) (f : A -> M B) (s : state) (Q : B -> state -> Prop) :
  wp m s (fun a s' => wp (f a) s' Q) -> wp (bind m f) s Q.
Proof.
  intros (new & a & Hm & new' & b & Hf & HQ). exists (new ++ new'), b. unfold bind. rewrite Hm.
  simpl in Hf. rewrite Hf, <- advance_app, app_assoc. done.
Qed.

Lemma wp_mono {A} (m : M A) (s : state) (Q Q' : A -> state -> Prop) :
  wp m s Q -> (forall a s', Q a s' -> Q' a s') -> wp m s Q'.
Proof. intros (new & a & Hm & HQ) H. exists new, a. auto. Qed.

Lemma wp_lift {A} (o : option A) (a : A) (s : state) (Q : A -> state -> Prop) :
  o = Some a -> Q a s -> wp (lift o) s Q.
Proof. intros ->. apply wp_ret. Qed.

Lemma wp_assert (b : bool) (s : state) (Q : unit -> state -> Prop) :
  b = true -> Q tt s -> wp (assert b) s Q.
Proof. intros ->. apply wp_ret. Qed.

(** What an instruction adds to the helpers called. *)
Definition calls_of (s : state) (i : Instr) : list helper_call :=
  match stop s with None => call_of (registers s) i | Some _ => [] end.

(** An instruction that returns [r]: its result holds [r], and the run goes on. *)
Lemma wp_emit_call (i : Instr) (T : Ty) (r : RVal FP) (s : state) (Q : Value -> state -> Prop) :
  wf s ->
  (stop s = None -> exec_instr P args (registers s) i = Returns r) ->
  (forall v s', getType v = T -> wf s' -> ext s s' ->
     stop s' = stop s -> called s' = called s ++ calls_of s i -> has s' v r -> Q v s') ->
  wp (emit i T) s Q.
Proof.
  intros Hw Hi HQ. exists [i], (MkValue (Reg (length (code s))) T). split; [done|].
  apply HQ; [done|by apply wf_advance|by eexists| | |].
  - unfold stop, registers, advance in *. simpl in *. destruct (running s) as [regs|o]; [|done].
    by rewrite Hi.
  - unfold calls_of, stop, registers, advance in *. simpl in *.
    destruct (running s) as [regs|o]; [|done]. rewrite Hi by done. by rewrite app_nil_r.
  - unfold has, stop, registers, advance in *. simpl in *.
    destruct (running s) as [regs|o] eqn:E; [|done]. rewrite Hi by done. intros _.
    unfold value_of. simpl. rewrite <- (Hw regs E). by apply list_lookup_middle.
Qed.

(** The same where the helpers called do not matter. *)
Lemma wp_emit (i : Instr) (T : Ty) (r : RVal FP) (s : state) (Q : Value -> state -> Prop) :
  wf s ->
  (stop s = None -> exec_instr P args (registers s) i = Returns r) ->
  (forall v s', getType v = T -> wf s' -> ext s s' ->
     stop s' = stop s -> has s' v r -> Q v s') ->
  wp (emit i T) s Q.
Proof. intros Hw Hi HQ. apply wp_emit_call with (r := r); auto. Qed.

(** An instruction that is no call of a helper adds none. *)
Lemma calls_of_other (s : state) (i : Instr) (l : list helper_call) :
  (forall H As, i <> CallHelper H As) -> l ++ calls_of s i = l.
Proof.
  intros Hi. unfold calls_of. destruct (stop s); [by rewrite app_nil_r|].
  destruct i; try (simpl; by rewrite app_nil_r). by destruct (Hi H Args).
Qed.

(** An instruction that calls no helper. *)
Lemma wp_quiet (i : Instr) (T : Ty) (r : RVal FP) (s : state) (Q : Value -> state -> Prop) :
  wf s -> (forall H As, i <> CallHelper H As) ->
  (stop s = None -> exec_instr P args (registers s) i = Returns r) ->
  (forall v s', getType v = T -> wf s' -> ext s s' ->
     stop s' = stop s -> called s' = called s -> has s' v r -> Q v s') ->
  wp (emit i T) s Q.
Proof.
  intros Hw Hq Hi HQ. apply wp_emit_call with (r := r); [done..|].
  intros v s' H1 H2 H3 H4 H5 H6. apply HQ; try done.
  by rewrite H5, calls_of_other.
Qed.

(** A call of a helper with values that are known. *)
Lemma calls_of_helper (s : state) (H : CorInfoHelpFunc) (As : list Value) (vs : list (RVal FP)) :
  Forall2 (has s) As vs -> stop s = None ->
  calls_of s (CallHelper H As) = [(H, vs)].
Proof.
  intros HA Hs. unfold calls_of. rewrite Hs. simpl.
  assert (mapM (value_of args (registers s)) As = Some vs) as ->; [|done].
  apply mapM_Some. eapply Forall2_impl; [exact HA|]. intros v r Hv. by apply Hv.
Qed.

(** The outcome behind a check that throws [H] unless [ok]. *)
Definition check (ok : bool) (H : CorInfoHelpFunc) (o : option (Outcome FP)) : option (Outcome FP) :=
  match o with Some o => Some o | None => if ok then None else Some (Throws H) end.

Lemma wp_quiet_throw (C : Value) (H : CorInfoHelpFunc) (c : Z) (s : state)
    (Q : unit -> state -> Prop) :
  wf s -> has s C (RInt c) ->
  (forall s', wf s' -> ext s s' -> stop s' = check (c =? 0) H (stop s) -> called s' = called s ->
     Q tt s') ->
  wp (genConditionalThrow C H) s Q.
Proof.
  intros Hw Hc HQ. exists [ConditionalThrow C H], tt. split; [done|].
  apply HQ; [by apply wf_advance|by eexists| |].
  - unfold has, stop, registers, advance in *. simpl in *. destruct (running s) as [regs|o]; [|done].
    unfold int_of. rewrite Hc by done. simpl. by destruct (c =? 0).
  - unfold advance. simpl. destruct (running s) as [regs|o]; [|by rewrite app_nil_r].
    by destruct (int_of args regs C) as [z|]; [destruct (z =? 0)|]; rewrite app_nil_r.
Qed.

Lemma wp_throw (C : Value) (H : CorInfoHelpFunc) (c : Z) (s : state) (Q : unit -> state -> Prop) :
  wf s -> has s C (RInt c) ->
  (forall s', wf s' -> ext s s' -> stop s' = check (c =? 0) H (stop s) -> Q tt s') ->
  wp (genConditionalThrow C H) s Q.
Proof. intros Hw Hc HQ. apply wp_quiet_throw with (c := c); auto. Qed.

(** ** Running a handler *)

(** From the beginning: the outcome that stopped the code, or its value. *)
Lemma run_wp (m : M Value) (o : option (Outcome FP)) (r : RVal FP) :
  wp m start (fun v s => stop s = o /\ has s v r) ->
  run P args m = Some (match o with Some o => o | None => Returns r end).
Proof.
  intros (new & v & Hm & Ho & Hv). unfold run. simpl in Hm. rewrite Hm. f_equal.
  unfold has, stop, registers, advance in *. simpl in *.
  destruct (exec P args new []) as [regs|o']; subst o; [|done]. by rewrite Hv.
Qed.

(** Arguments and constants hold their values in every state. *)
Lemma has_arg (s : state) (n : nat) (T : Ty) (r : RVal FP) :
  args !! n = Some r -> has s (MkValue (Arg n) T) r.
Proof. by intros H _. Qed.

Lemma has_const (s : state) (z : Z) (T : Ty) : has s (MkValue (Const z) T) (RInt z).
Proof. done. Qed.

Lemma has_int (s : state) (v : Value) (z : Z) :
  has s v (RInt z) -> stop s = None -> int_of args (registers s) v = Some z.
Proof. intros H Hs. unfold int_of. by rewrite H. Qed.

Lemma has_ext (s s' : state) (v : Value) (r : RVal FP) : ext s s' -> has s v r -> has s' v r.
Proof. intros [new ->]. apply has_advance. Qed.

End logic.

Arguments wp {L} P args {A} m s Q.

(** [s'] is reached from [s] by the steps in the context. *)
Ltac reach := first [eassumption | reflexivity | etransitivity; [eassumption|]; reach].

(** What held in an earlier state holds in this one. *)
Ltac held := first
  [ eassumption
  | eapply has_ext; [|eassumption]; reach ].
