(* ===== verification/Memory.v ===== *)
(** * Memory accesses (lib/Reader/readerir.cpp, reader.cpp)

    The loads, stores and addresses that the reader emits for array elements,
    strings and runtime data.  The theorems about them are in
    [ArrayAccess]; [Objects] and [Elements] build on these definitions. *)

From S2P Require Import Prelude Opcodes IRBuilder GenIRTypes Conv Arith.
Import ReaderBaseNS.

(** The structures the reader has built: the elements of a structure by its
    number with its size and the offsets LLVM's data layout gives it, the class
    of arrays it keeps for an element type ([ElementToArrayTypeMap]), the
    types of two built-in classes, and LLVM's comparison of structures. *)
Class ReaderTypes := {
  StructElements : Z -> list Ty;
  StructSize : Z -> Z;
  ElementOffset : Z -> nat -> Z;
  getArrayOfElementType : Ty -> Ty;
  getBuiltInObjectType : Ty;
  getBuiltInStringType : Ty;
  isLayoutIdentical : Ty -> Ty -> bool
}.

Module Memory.
Import GenIR Arith.
#[local] Open Scope emit_scope.

(** [reader.h]. *)
Definition UseExplicitNullChecks : bool := true.

Definition getPointerElementType (T : Ty) : option Ty :=
  match T with PointerTy E _ => Some E | _ => None end.

Definition isStructTy (T : Ty) : bool := match T with StructTy _ => true | _ => false end.
Definition isVectorTy (T : Ty) : bool := match T with VectorTy _ _ => true | _ => false end.

Section memory.
Variable TargetPointerSizeInBits : Z.
Context `{ReaderTypes}.

#[local] Notation NativeIntTy := (NativeIntTy TargetPointerSizeInBits).
#[local] Notation convertToStackType := (convertToStackType TargetPointerSizeInBits).
#[local] Notation binaryOp := (binaryOp TargetPointerSizeInBits).

Definition getPointerByteSize : Z := TargetPointerSizeInBits / 8.

Definition loadConstantI4 (Constant : Z) : Value := ConstantInt 32 Constant.
Definition loadConstantI (Constant : Z) : Value := ConstantInt TargetPointerSizeInBits Constant.

(** [convertReaderAlignment]; [Reader_AlignNatural] is 255. *)
Definition convertReaderAlignment (ReaderAlignment : Z) : Z :=
  if ReaderAlignment =? 255 then TargetPointerSizeInBits / 8 else ReaderAlignment.

(** ** Loads and stores *)

(** The alignment of a load or a store: the one its caller sets on the
    instruction, or else 1 for a vector. *)
Definition access_alignment (T : Ty) (Align : option Z) : option Z :=
  match Align with
  | Some a => Some a
  | None => if isVectorTy T then Some 1 else None
  end.

Definition makeLoad (Address : Value) (IsVolatile AddressMayBeNull : bool) (Align : option Z) :
    M Value :=
  let* Address :=
    if AddressMayBeNull && UseExplicitNullChecks then genNullCheck Address else ret Address in
  let* T := lift (getPointerElementType (IRBuilder.getType Address)) in
  emit (CreateLoad Address T IsVolatile (access_alignment T Align)) T.

Definition makeStore (ValueToStore Address : Value) (IsVolatile AddressMayBeNull : bool)
    (Align : option Z) : M unit :=
  let* Address :=
    if AddressMayBeNull && UseExplicitNullChecks then genNullCheck Address else ret Address in
  emit (CreateStore ValueToStore Address IsVolatile
          (access_alignment (IRBuilder.getType ValueToStore) Align)) VoidTy ;*
  ret tt.

(** [getelementptr]s with several indices; the type of the result follows the
    indices, which are constants where they select an element of a structure. *)
Fixpoint indexed_type (T : Ty) (Indices : list Value) : option Ty :=
  match Indices with
  | [] => Some T
  | i :: Indices =>
      match T with
      | ArrayTy E _ | VectorTy E _ => indexed_type E Indices
      | StructTy id =>
          match def i with
          | Const c =>
              E ← (if c <? 0 then None else StructElements id !! Z.to_nat c);
              indexed_type E Indices
          | _ => None
          end
      | _ => None
      end
  end.

Definition CreateInBoundsGEP (Base : Value) (Indices : list Value) : M Value :=
  let* (T, A) :=
    lift (match IRBuilder.getType Base with PointerTy T A => Some (T, A) | _ => None end) in
  let* E := lift (indexed_type T (tail Indices)) in
  emit (CreateIndexedGEP Base Indices) (PointerTy E A).

Definition CreateStructGEP (Base : Value) (Index : Z) : M Value :=
  CreateInBoundsGEP Base [ConstantInt 32 0; ConstantInt 32 Index].

(** [derefAddress]: a pointer-sized load from the runtime's data. *)
Definition derefAddress (Address : Value) (DstIsGCPtr AddressMayBeNull : bool) : M Value :=
  let ReferentTy := if DstIsGCPtr then getManagedPointerType (IntegerTy 8) else NativeIntTy in
  let* Address :=
    match IRBuilder.getType Address with
    | PointerTy E A =>
        if bool_decide (E = ReferentTy) then ret Address
        else
          let CastTy := if A =? ManagedAddressSpace then getManagedPointerType ReferentTy
                        else getUnmanagedPointerType ReferentTy in
          emit (CreatePointerCast Address CastTy) CastTy
    | _ =>
        let CastTy := getUnmanagedPointerType ReferentTy in
        emit (CreateIntToPtr Address CastTy) CastTy
    end in
  makeLoad Address false AddressMayBeNull None.

Definition derefAddressNonNull (Address : Value) (DstIsGCPtr : bool) : M Value :=
  derefAddress Address DstIsGCPtr false.

(** [conditionalDerefAddress]: an address whose low bit is set stands for the
    word it points to. *)
Definition conditionalDerefAddress (Address : Value) : M Value :=
  let AddressTy := IRBuilder.getType Address in
  let* AddressAsInt := emit (CreatePtrToInt Address NativeIntTy) NativeIntTy in
  let One := loadConstantI 1 in
  let* TestValue := emit (CreateBinOp IAnd AddressAsInt One) NativeIntTy in
  let* TestPredicate := emit (CreateICmp ICMP_EQ TestValue One) i1 in
  let* Mask := emit (CreateNot One) NativeIntTy in
  let* ConditionalAddressAsInt := emit (CreateBinOp IAnd AddressAsInt Mask) NativeIntTy in
  let CastTy := getUnmanagedPointerType AddressTy in
  let* ConditionalAddress := emit (CreateIntToPtr ConditionalAddressAsInt CastTy) CastTy in
  emit (ConditionalLoad TestPredicate ConditionalAddress AddressTy Address) AddressTy.

(** ** Helpers *)

Definition isNonVolatileWriteHelperCall (HelperId : CorInfoHelpFunc) : bool :=
  match HelperId with
  | CORINFO_HELP_ASSIGN_REF | CORINFO_HELP_CHECKED_ASSIGN_REF | CORINFO_HELP_ASSIGN_STRUCT
  | CORINFO_HELP_SETFIELD8 | CORINFO_HELP_SETFIELD16 | CORINFO_HELP_SETFIELD32
  | CORINFO_HELP_SETFIELD64 | CORINFO_HELP_SETFIELDOBJ | CORINFO_HELP_SETFIELDSTRUCT
  | CORINFO_HELP_SETFIELDFLOAT | CORINFO_HELP_SETFIELDDOUBLE
  | CORINFO_HELP_MEMSET | CORINFO_HELP_MEMCPY => true
  | _ => false
  end.

(** [callHelperImpl]: the arguments end at the first that is missing. *)
Definition callHelperImpl (HelperID : CorInfoHelpFunc) (ReturnType : Ty) (Args : list Value)
    (IsVolatile : bool) : M Value :=
  let* Result := emit (CallHelper HelperID Args) ReturnType in
  (if IsVolatile && isNonVolatileWriteHelperCall HelperID
   then emit CreateFence VoidTy ;* ret tt else ret tt) ;*
  ret Result.

Definition callHelper (HelperID : CorInfoHelpFunc) (Dst : option Ty) (Args : list Value)
    (IsVolatile : bool) : M Value :=
  callHelperImpl HelperID (match Dst with Some T => T | None => VoidTy end) Args IsVolatile.

(** [callHelper] for a helper whose address is at hand. *)
Definition callHelperAt (HelperID : CorInfoHelpFunc) (Address : Value) (Dst : option Ty)
    (Args : list Value) (IsVolatile : bool) : M Value :=
  let* Target := emit (CreateIntToPtr Address (getUnmanagedPointerType (FunctionTy 0)))
                   (getUnmanagedPointerType (FunctionTy 0)) in
  let* Result :=
    emit (CallIndirect Target Args) (match Dst with Some T => T | None => VoidTy end) in
  (if IsVolatile && isNonVolatileWriteHelperCall HelperID
   then emit CreateFence VoidTy ;* ret tt else ret tt) ;*
  ret Result.

(** [callRuntimeHandleHelper]: with a value to check, the helper is called
    only when that value is null. *)
Definition isConstantNull (Node : Value) : bool :=
  match def Node with Const z => z =? 0 | _ => false end.

Definition callRuntimeHandleHelper (Helper : CorInfoHelpFunc) (Arg1 Arg2 : Value)
    (NullCheckArg : option Value) : M Value :=
  match NullCheckArg with
  | Some Check =>
      if isConstantNull Check then callHelperImpl Helper NativeIntTy [Arg1; Arg2] false
      else
        let* Compare := emit (CreateIsNull Check) i1 in
        emit (ConditionalCall Compare Helper [Arg1; Arg2] Check) (IRBuilder.getType Check)
  | None => callHelperImpl Helper NativeIntTy [Arg1; Arg2] false
  end.

(** [handleToIRNode]: a relocatable handle is a global that the loader places
    at the handle's address, any other one is a constant. *)
Definition handleToIRNode (EmbHandle : Z) (IsIndirect IsRelocatable : bool) : M Value :=
  let* HandleValue :=
    if IsRelocatable then
      emit (CreatePtrToInt (MkValue (Const EmbHandle) (getUnmanagedPointerType NativeIntTy))
              NativeIntTy) NativeIntTy
    else ret (ConstantInt TargetPointerSizeInBits EmbHandle) in
  if IsIndirect then
    let HandlePtrTy := getUnmanagedPointerType NativeIntTy in
    let* HandlePtr := emit (CreateIntToPtr HandleValue HandlePtrTy) HandlePtrTy in
    emit (CreateLoad HandlePtr NativeIntTy false None) NativeIntTy
  else ret HandleValue.

(** ** Arrays *)

(** The index of the elements in the structure of a vector. *)
Definition IndexOfElements : nat := if getPointerByteSize =? 4 then 2%nat else 3%nat.

(** [isArrayType]; [None] is a null element type. *)
Definition isArrayType (T : Ty) (ElementTy : option Ty) : option bool :=
  match T with
  | PointerTy T A =>
      if A =? ManagedAddressSpace then
        match T with
        | StructTy id =>
            if negb (length (StructElements id) =? IndexOfElements + 1)%nat then Some false
            else
              match StructElements id !! IndexOfElements with
              | Some (IRBuilder.ArrayTy ActualElementTy NumElements) =>
                  if negb (NumElements =? 0) then Some false
                  else
                    match ElementTy with
                    | Some E => Some (bool_decide (E = ActualElementTy))
                    | None => Some true
                    end
              | _ => Some false
              end
        | _ => Some false
        end
      else None
  | _ => None
  end.

Definition ensureIsArray (Array : Value) (ElementTy : option Ty) : M Value :=
  let* IsArray := lift (isArrayType (IRBuilder.getType Array) ElementTy) in
  if IsArray then ret Array
  else
    let ElementTy := match ElementTy with Some E => E | None => getBuiltInObjectType end in
    let DesiredArrayType := getArrayOfElementType ElementTy in
    emit (CreatePointerCast Array DesiredArrayType) DesiredArrayType.

Definition loadLen (Array : Value) (ArrayMayBeNull : bool) : M Value :=
  let* Array := ensureIsArray Array None in
  let* Array := if ArrayMayBeNull && UseExplicitNullChecks then genNullCheck Array else ret Array in
  let ArrayMayBeNull := ArrayMayBeNull && negb UseExplicitNullChecks in
  let* LengthFieldAddress := CreateStructGEP Array 1 in
  let* Length := makeLoad LengthFieldAddress false ArrayMayBeNull None in
  convertToStackType Length CORINFO_TYPE_NATIVEUINT.

(** The fields of the structure a pointer points to. *)
Definition struct_fields (T : Ty) : option (list Ty) :=
  match T with PointerTy (StructTy id) _ => Some (StructElements id) | _ => None end.

Definition genArrayElemAddress (Array Index : Value) (ElementTy : Ty) : M Value :=
  let* Array := ensureIsArray Array (Some ElementTy) in
  let* ArrayLength := loadLen Array true in
  genBoundsCheck ArrayLength Index ;*
  let* Fields := lift (struct_fields (IRBuilder.getType Array)) in
  let RawArrayStructFieldIndex := Z.of_nat (length Fields) - 1 in
  let* LastFieldTy := lift (last Fields) in
  assert (match LastFieldTy with
          | IRBuilder.ArrayTy E _ => bool_decide (E = ElementTy)
          | _ => false
          end) ;*
  CreateInBoundsGEP Array
    [ConstantInt 32 0; ConstantInt 32 RawArrayStructFieldIndex; Index].

(** ** Strings *)

(** The common part of [loadStringLen] and [stringGetChar]: the checked
    address at the type of strings. *)
Definition string_address (Address : Value) : M Value :=
  let AddressTy := IRBuilder.getType Address in
  assert (isGcPointer AddressTy) ;*
  let* Address := if UseExplicitNullChecks then genNullCheck Address else ret Address in
  if bool_decide (AddressTy = getBuiltInStringType) then ret Address
  else emit (CreatePointerCast Address getBuiltInStringType) getBuiltInStringType.

Definition loadStringLen (Address : Value) : M Value :=
  let* Address := string_address Address in
  let* LengthFieldAddress := CreateStructGEP Address 1 in
  makeLoad LengthFieldAddress false (negb UseExplicitNullChecks) None.

Definition stringGetChar (Address Index : Value) : M Value :=
  let* Address := string_address Address in
  let* CharAddress :=
    CreateInBoundsGEP Address [ConstantInt 32 0; ConstantInt 32 2; Index] in
  let* Char := makeLoad CharAddress false (negb UseExplicitNullChecks) None in
  convertToStackType Char CORINFO_TYPE_CHAR.

(** ** Multi-dimensional arrays *)

(** [ArrayIntrinMaxRank], [MDArrayStructNumElements] and the like. *)
Definition ArrayIntrinMaxRank : Z := 3.
Definition DimensionLengthsIndex : Z := 3.
Definition SystemArrayStructNumElements : nat := 1.
Definition VectorStructNumElements : nat := 4.
Definition MDArrayStructNumElements : nat := 6.

Definition Int32Ty : Ty := IntegerTy 32.
Definition NaturalAlignment : option Z := Some (convertReaderAlignment 255).

Definition mdArrayGetDimensionLength (Array Dimension : Value) : M Value :=
  let* DimensionLengthAddress :=
    CreateInBoundsGEP Array [ConstantInt 32 0; ConstantInt 32 DimensionLengthsIndex; Dimension] in
  makeLoad DimensionLengthAddress false false NaturalAlignment.

(** The loop of [mdArrayRefAddr] from dimension [I]: every index is checked
    against its dimension, and the offset of the element accumulates. *)
Fixpoint md_element_offset (Array : Value) (DimensionBoundsIndex I : Z) (Indices : list Value)
    (ElementOffset : option Value) : M (option Value) :=
  match Indices with
  | [] => ret ElementOffset
  | Index :: Rest =>
      let* (Index, RepresentsStruct) :=
        convertFromStackType TargetPointerSizeInBits isLayoutIdentical Index false
          CORINFO_TYPE_INT Int32Ty in
      let* LowerBoundAddress :=
        CreateInBoundsGEP Array
          [ConstantInt 32 0; ConstantInt 32 DimensionBoundsIndex; ConstantInt 32 I] in
      let* LowerBound := makeLoad LowerBoundAddress false false NaturalAlignment in
      let* Index := emit (CreateBinOp ISub Index LowerBound) Int32Ty in
      let* DimensionLength := mdArrayGetDimensionLength Array (ConstantInt 32 I) in
      genBoundsCheck DimensionLength Index ;*
      let* ElementOffset :=
        match ElementOffset with
        | None => ret Index
        | Some Offset =>
            let* MulResult := emit (CreateBinOp IMul Offset DimensionLength) Int32Ty in
            emit (CreateBinOp IAdd MulResult Index) Int32Ty
        end in
      md_element_offset Array DimensionBoundsIndex (I + 1) Rest (Some ElementOffset)
  end.

(** The top of the operand stack, popped [n] times; the first popped last. *)
Fixpoint pop_operands (n : nat) (Stack Popped : list Value) : option (list Value * list Value) :=
  match n, Stack with
  | O, _ => Some (Popped, Stack)
  | S n, v :: Stack => pop_operands n Stack (v :: Popped)
  | S _, [] => None
  end.

(** [mdArrayRefAddr], with the operand stack, top first. *)
Definition mdArrayRefAddr (Rank : nat) (ElemType : Ty) (Stack : list Value) :
    M (Value * list Value) :=
  let* (Indices, Stack) := lift (pop_operands Rank Stack []) in
  let* (Popped, Stack) := lift (pop_operands 1 Stack []) in
  let* Array := lift (head Popped) in
  assert (negb (isStructTy ElemType)) ;*
  let* Array := if UseExplicitNullChecks then genNullCheck Array else ret Array in
  let* Fields := lift (struct_fields (IRBuilder.getType Array)) in
  let ArrayDataIndex := Z.of_nat (length Fields) - 1 in
  let DimensionBoundsIndex := ArrayDataIndex - 1 in
  let* Offset := md_element_offset Array DimensionBoundsIndex 0 Indices None in
  let* ElementOffset := lift Offset in
  let* ElementAddress :=
    CreateInBoundsGEP Array [ConstantInt 32 0; ConstantInt 32 ArrayDataIndex; ElementOffset] in
  ret (ElementAddress, Stack).

(** [arrayGetDimLength]; [None] asks for the helper instead. *)
Definition arrayGetDimLength (Dimension Array : Value) : M (option Value) :=
  let* Fields := lift (struct_fields (IRBuilder.getType Array)) in
  let ArrayStructNumElements := length Fields in
  if (ArrayStructNumElements =? SystemArrayStructNumElements)%nat then ret None
  else if (ArrayStructNumElements =? VectorStructNumElements)%nat then
    genBoundsCheck (ConstantInt 32 1) Dimension ;*
    let* Length := loadLen Array true in
    ret (Some Length)
  else if (ArrayStructNumElements =? MDArrayStructNumElements)%nat then
    let* Array := if UseExplicitNullChecks then genNullCheck Array else ret Array in
    let* ArrayRank :=
      lift (match Fields !! Z.to_nat DimensionLengthsIndex with
            | Some (ArrayTy _ n) => Some n
            | _ => None
            end) in
    genBoundsCheck (ConstantInt 32 ArrayRank) Dimension ;*
    let* Length := mdArrayGetDimensionLength Array Dimension in
    ret (Some Length)
  else fail.

End memory.
End Memory.
