(* ===== verification/MemoryRules.v ===== *)
(** * Rules for memory accesses

    The rules of the program logic for the checks, loads and address
    computations that the handlers share. *)

From S2P Require Import Prelude Opcodes IRBuilder GenIRTypes Conv Arith IRLogic Memory.
Import ReaderBaseNS GenIR Arith Memory.

Section rules.
Context {L : LLVM} {LS : LLVMLaws L} {native : Z} {args : list (RVal FP)}.
Hypothesis Hnative : native = 32 \/ native = 64.

#[local] Notation state := (@state L).
#[local] Notation wp := (wp native args).
#[local] Notation has := (has args).
#[local] Notation ext := (ext native args).

Lemma check_None (ok : bool) (H : CorInfoHelpFunc) (o : option (Outcome FP)) :
  check ok H o = None -> ok = true /\ o = None.
Proof. by destruct o, ok. Qed.

Lemma has_ConstantInt (s : state) (c : Z) :
  0 <= c < 2 ^ 31 -> exists x, has s (ConstantInt 32 c) (RInt x) /\
    swrap (width native (IRBuilder.getType (ConstantInt 32 c))) x = c.
Proof.
  intros Hc. eexists. split; [apply has_const|]. simpl. rewrite wrap_small by lia.
  apply (swrap_small 32); lia.
Qed.

Lemma wp_quiet_null_check (v : Value) (p : Z) (s : state) (Q : Value -> state -> Prop) :
  wf s -> has s v (RInt p) ->
  (forall s', wf s' -> ext s s' ->
     stop s' = check (negb (p =? 0)) CORINFO_HELP_THROWNULLREF (stop s) ->
     called s' = called s -> Q v s') ->
  wp (genNullCheck v) s Q.
Proof.
  intros Hw Hv HQ. unfold genNullCheck. apply wp_bind.
  apply wp_quiet with (r := RInt (Z.b2z (p =? 0))); [done|done| |].
  { intros Hs. simpl. rewrite (has_int _ _ _ _ Hv Hs). simpl. by rewrite icmp_law. }
  intros c s1 _ Hw1 He1 Hs1 Hl1 Hc. apply wp_bind. eapply wp_quiet_throw; [done|done|].
  intros s2 Hw2 He2 Hs2 Hl2. apply wp_ret. apply HQ; [done| | |].
  - reach.
  - by rewrite Hs2, Hs1, b2z_eqb_0.
  - by rewrite Hl2.
Qed.

Lemma wp_null_check (v : Value) (p : Z) (s : state) (Q : Value -> state -> Prop) :
  wf s -> has s v (RInt p) ->
  (forall s', wf s' -> ext s s' ->
     stop s' = check (negb (p =? 0)) CORINFO_HELP_THROWNULLREF (stop s) -> Q v s') ->
  wp (genNullCheck v) s Q.
Proof. intros Hw Hv HQ. apply wp_quiet_null_check with (p := p); auto. Qed.

Lemma wp_bounds_check (Len Index : Value) (n x wl wi : Z) (s : state) (Q : unit -> state -> Prop) :
  wf s -> IRBuilder.getType Len = IntegerTy wl -> IRBuilder.getType Index = IntegerTy wi ->
  wi <= wl -> 0 <= x < 2 ^ wl ->
  has s Len (RInt n) -> has s Index (RInt x) ->
  (forall s', wf s' -> ext s s' ->
     stop s' = check (x <? n) CORINFO_HELP_RNGCHKFAIL (stop s) -> Q tt s') ->
  wp (genBoundsCheck Len Index) s Q.
Proof.
  intros Hw HL HI Hle Hx Hn Hi HQ. unfold genBoundsCheck. rewrite HL, HI. simpl.
  apply wp_bind, wp_assert; [by apply Z.leb_le|].
  apply wp_bind, wp_emit with (r := RInt x); [done| |].
  { intros Hs. simpl. rewrite (has_int _ _ _ _ Hi Hs). simpl.
    by rewrite int_cast_law, wrap_small. }
  intros c s1 Hct Hw1 He1 Hs1 Hc.
  apply wp_bind, wp_emit with (r := RInt (Z.b2z (n <=? x))); [done| |].
  { intros Hs. simpl. rewrite (has_int _ _ _ _ Hc Hs).
    rewrite (has_int _ _ _ _ (has_ext _ _ _ _ _ _ He1 Hn) Hs). simpl. by rewrite icmp_law. }
  intros d s2 _ Hw2 He2 Hs2 Hd. eapply wp_throw; [done|done|].
  intros s3 Hw3 He3 Hs3. apply HQ; [done| |].
  - reach.
  - rewrite Hs3, Hs2, Hs1, b2z_eqb_0. f_equal. by rewrite Z.ltb_antisym.
Qed.

(** A load that is not checked for null, where the alignment that it promises
    is kept or does not matter to the target. *)
Lemma wp_aligned_load (A : Value) (T : Ty) (sp p : Z) (r : RVal FP) (V : bool) (al : option Z)
    (s : state) (Q : Value -> state -> Prop) :
  wf s -> IRBuilder.getType A = PointerTy T sp -> has s A (RInt p) ->
  (stop s = None -> access_defined (access_alignment T al) p = true /\ load T p = Some r) ->
  (forall v s', IRBuilder.getType v = T -> wf s' -> ext s s' -> stop s' = stop s ->
     called s' = called s -> has s' v r -> Q v s') ->
  wp (makeLoad A V false al) s Q.
Proof.
  intros Hw HT HA Hl HQ. unfold makeLoad. cbn [andb].
  apply wp_bind, wp_ret, wp_bind. eapply wp_lift; [by rewrite HT|].
  apply wp_quiet with (r := r); [done|done| |done].
  intros Hs. simpl. rewrite (has_int _ _ _ _ HA Hs). simpl.
  destruct (Hl Hs) as [Hal Hr]. by rewrite Hal, Hr.
Qed.

(** Without a promise of the caller there is none, or for a vector that of 1. *)
Lemma no_promise (T : Ty) (p : Z) : access_defined (access_alignment T None) p = true.
Proof.
  unfold access_alignment, access_defined, promise_kept. destruct (isVectorTy T); [|done].
  by rewrite Z.mod_1_r.
Qed.

Lemma wp_quiet_load (A : Value) (T : Ty) (sp p : Z) (r : RVal FP) (V : bool) (s : state)
    (Q : Value -> state -> Prop) :
  wf s -> IRBuilder.getType A = PointerTy T sp -> has s A (RInt p) ->
  (stop s = None -> load T p = Some r) ->
  (forall v s', IRBuilder.getType v = T -> wf s' -> ext s s' -> stop s' = stop s ->
     called s' = called s -> has s' v r -> Q v s') ->
  wp (makeLoad A V false None) s Q.
Proof.
  intros Hw HT HA Hl HQ. apply (wp_aligned_load A T sp p r); try done.
  intros Hs. split; [apply no_promise|by apply Hl].
Qed.

Lemma wp_load (A : Value) (T : Ty) (sp p : Z) (r : RVal FP) (V : bool) (s : state)
    (Q : Value -> state -> Prop) :
  wf s -> IRBuilder.getType A = PointerTy T sp -> has s A (RInt p) ->
  (stop s = None -> load T p = Some r) ->
  (forall v s', IRBuilder.getType v = T -> wf s' -> ext s s' -> stop s' = stop s -> has s' v r ->
     Q v s') ->
  wp (makeLoad A V false None) s Q.
Proof. intros Hw HT HA Hl HQ. apply (wp_quiet_load A T sp p r); auto. Qed.

(** A helper that writes to the memory and returns; in a state that has
    stopped nothing is called. *)
Definition calls_when (s : state) (l : list (@helper_call L)) : list (@helper_call L) :=
  match stop s with None => l | Some _ => [] end.

Lemma wp_callHelper_any (H : CorInfoHelpFunc) (T : option Ty) (As : list Value)
    (vs : list (RVal FP)) (r : RVal FP) (V : bool) (s : state) (Q : Value -> state -> Prop) :
  wf s -> Forall2 (has s) As vs -> (stop s = None -> helper H vs = Returns r) ->
  (forall v s', IRBuilder.getType v = match T with Some T => T | None => VoidTy end ->
     wf s' -> ext s s' -> stop s' = stop s -> called s' = called s ++ calls_when s [(H, vs)] ->
     has s' v r -> Q v s') ->
  wp (callHelper H T As V) s Q.
Proof.
  intros Hw HA Hh HQ. unfold callHelper, callHelperImpl.
  apply wp_bind, wp_emit_call with (r := r); [done| |].
  { intros Hs. simpl. assert (mapM (value_of args (registers s)) As = Some vs) as ->.
    { apply mapM_Some. eapply Forall2_impl; [exact HA|]. intros v x Hv. by apply Hv. }
    by apply Hh. }
  intros v s1 HvT Hw1 He1 Hs1 Hl1 Hv.
  assert (Hl : called s1 = called s ++ calls_when s [(H, vs)]).
  { rewrite Hl1. unfold calls_when. destruct (stop s) as [o|] eqn:Hs.
    - unfold calls_of. by rewrite Hs.
    - by rewrite (calls_of_helper args s H As vs HA Hs). }
  apply wp_bind. destruct (V && isNonVolatileWriteHelperCall H).
  - apply wp_bind, wp_quiet with (r := RInt 0); [done|done|done|].
    intros w s2 _ Hw2 He2 Hs2 Hl2 _. apply wp_ret, wp_ret, HQ; [done|done|reach| | |held].
    + by rewrite Hs2, Hs1.
    + by rewrite Hl2.
  - by apply wp_ret, wp_ret, HQ.
Qed.

Lemma wp_callHelper (H : CorInfoHelpFunc) (As : list Value) (vs : list (RVal FP)) (r : RVal FP)
    (V : bool) (s : state) (Q : Value -> state -> Prop) :
  wf s -> stop s = None -> Forall2 (has s) As vs -> helper H vs = Returns r ->
  (forall v s', wf s' -> ext s s' -> stop s' = None -> called s' = called s ++ [(H, vs)] ->
     has s' v r -> Q v s') ->
  wp (callHelper H None As V) s Q.
Proof.
  intros Hw Hs HA Hh HQ. apply (wp_callHelper_any H None As vs r); [done|done|done|].
  intros v s1 _ Hw1 He1 Hs1 Hl1 Hv. unfold calls_when in Hl1. rewrite Hs in Hs1, Hl1. by apply HQ.
Qed.

(** An address computed from a base and indices, inside an object. *)
Lemma wp_gep `{ReaderTypes} (Base : Value) (Indices : list Value) (zs : list Z) (T E : Ty)
    (sp p off : Z) (s : state) (Q : Value -> state -> Prop) :
  wf s -> IRBuilder.getType Base = PointerTy T sp -> has s Base (RInt p) ->
  indexed_type T (tail Indices) = Some E ->
  Forall2 (fun i z => exists x, has s i (RInt x) /\ swrap (width native (IRBuilder.getType i)) x = z)
    Indices zs ->
  (stop s = None -> gep_offset native T zs = Some off /\
     exists a n, allocated a n = true /\ 0 <= a /\ a + n < 2 ^ native /\
       a <= p <= a + n /\ a <= p + off <= a + n) ->
  (forall v s', IRBuilder.getType v = PointerTy E sp -> wf s' -> ext s s' -> stop s' = stop s ->
     has s' v (RInt (p + off)) -> Q v s') ->
  wp (CreateInBoundsGEP Base Indices) s Q.
Proof.
  intros Hw HT HB HE HI Hoff HQ. unfold CreateInBoundsGEP. rewrite HT.
  apply wp_bind, wp_ret, wp_bind. eapply wp_lift; [exact HE|].
  apply wp_emit with (r := RInt (p + off)); [done| |done].
  intros Hs. destruct (Hoff Hs) as (Ho & a & n & Ha & Ha0 & Han & Hp & Hpo).
  cbn [exec_instr]. rewrite (has_int _ _ _ _ HB Hs), HT. cbn [mbind option_bind].
  assert (HM : mapM (fun v => x ← int_of args (registers s) v;
                 Some (swrap (width native (IRBuilder.getType v)) x)) Indices = Some zs).
  { apply mapM_Some. eapply Forall2_impl; [exact HI|]. intros i z (x & Hx & <-). simpl.
    by rewrite (has_int _ _ _ _ Hx Hs). }
  rewrite HM. cbn [mbind option_bind]. rewrite Ho. cbn [mbind option_bind].
  assert (Hn : 0 < native) by (destruct Hnative; lia).
  assert (HW : wrap native (p + swrap native (wrap native off)) = p + off).
  { rewrite swrap_of_wrap. cbn zeta. rewrite wrap_idemp.
    assert (HW : wrap native (p + wrap native off) = p + off).
    { rewrite <- (wrap_small native p) at 1 by lia. rewrite wrap_add. apply wrap_small. lia. }
    destruct (wrap native off <? 2 ^ (native - 1)); [done|].
    unfold wrap at 1. rewrite Z.add_sub_assoc.
    rewrite Zminus_mod, Z_mod_same_full, Z.sub_0_r, Z.mod_mod by lia. exact HW. }
  destruct (gep_inbounds_law native a n p native (wrap native off) Ha Hp) as [z Hz]; [by rewrite HW|].
  rewrite Hz. cbn [mbind option_bind outcome_of]. do 2 f_equal.
  apply gep_law in Hz. by subst z.
Qed.

(** Widening an integer to the type of a stack slot. *)
Definition widened (Signed : bool) (w W z : Z) : Z := wrap W (if Signed then swrap w z else z).

Lemma wp_convertToStackType (v : Value) (C : CorInfoType) (w W z : Z) (sg : bool) (s : state)
    (Q : Value -> state -> Prop) :
  wf s -> IRBuilder.getType v = IntegerTy w -> stackSize native C = Some W ->
  isSigned C = Some sg -> 0 < w <= W -> has s v (RInt z) -> (stop s = None -> 0 <= z < 2 ^ w) ->
  (forall r s', IRBuilder.getType r = IntegerTy W -> wf s' -> ext s s' -> stop s' = stop s ->
     has s' r (RInt (widened sg w W z)) -> Q r s') ->
  wp (convertToStackType native v C) s Q.
Proof.
  intros Hw HT HW Hsg Hle Hv Hz HQ. unfold convertToStackType. rewrite HT.
  apply wp_bind. eapply wp_lift; [exact HW|]. apply wp_bind, wp_assert; [apply Z.leb_le; lia|].
  destruct (Z.ltb_spec w W).
  - unfold getStackType. rewrite HW. apply wp_bind, wp_ret, wp_bind. eapply wp_lift; [exact Hsg|].
    apply wp_emit with (r := RInt (widened sg w W z)); [done| |done].
    intros Hs. cbn [exec_instr]. rewrite (has_int _ _ _ _ Hv Hs), HT. simpl.
    by rewrite int_cast_law.
  - assert (W = w) as -> by lia. apply wp_ret, HQ; [done|done|done|done|].
    intros Hs. rewrite (Hv Hs). do 2 f_equal. specialize (Hz Hs). unfold widened.
    destruct sg; [rewrite (wrap_swrap_le w w) by lia|]; symmetry; by apply wrap_small.
Qed.

(** Adding an offset to a pointer, inside an object. *)
Lemma wp_pointer_add (Base Offset : Value) (E : Ty) (A p c w : Z) (s : state)
    (Q : Value -> state -> Prop) :
  wf s -> IRBuilder.getType Base = PointerTy E A -> A = 0 \/ A = ManagedAddressSpace ->
  IRBuilder.getType Offset = IntegerTy w -> w <= native ->
  has s Base (RInt p) -> has s Offset (RInt c) -> swrap w c = c ->
  (stop s = None -> exists a n, allocated a n = true /\ 0 <= a /\ a + n < 2 ^ native /\
     a <= p <= a + n /\ a <= p + c <= a + n) ->
  (forall v s', IRBuilder.getType v = getInt8PtrTy A -> wf s' -> ext s s' -> stop s' = stop s ->
     called s' = called s -> has s' v (RInt (p + c)) -> Q v s') ->
  wp (binaryOp native Add Base Offset) s Q.
Proof.
  intros Hw HT HA HO Hwn HB Hc Hcs Hin HQ. unfold binaryOp. rewrite HT, HO.
  assert (binaryOpType native Add (PointerTy E A) (IntegerTy w) = Some (PointerTy E A)) as ->.
  { unfold binaryOpType, operand_size, isUnmanagedPointer. simpl.
    destruct HA as [-> | ->]; simpl; by rewrite (proj2 (Z.leb_le w native) Hwn). }
  apply wp_bind, wp_ret, wp_bind. unfold pointer_case. cbn [isPointerTy]. apply wp_bind.
  unfold genPointerAdd. rewrite HT, HO. cbn [isPointerTy andb orb].
  apply wp_bind, wp_assert; [done|]. rewrite HO. cbn [isIntegerTy negb].
  rewrite HT. cbn [getPointerAddressSpace]. apply wp_bind, wp_ret, wp_bind. apply wp_quiet with (r := RInt p); [done|done| |].
  { intros Hs. cbn [exec_instr]. unfold is_fp. rewrite HT. simpl. by rewrite (HB Hs). }
  intros B s1 HBT Hw1 He1 Hs1 Hl1 HB1. apply wp_bind.
  apply wp_quiet with (r := RInt (p + c)); [done|done| |].
  { intros Hs. cbn [exec_instr]. rewrite (has_int _ _ _ _ HB1 Hs).
    rewrite (has_int _ _ _ _ (has_ext _ _ _ _ _ _ He1 Hc) Hs), HO. cbn [mbind option_bind width].
    rewrite Hs1 in Hs. destruct (Hin Hs) as (a & n & Ha & Ha0 & Han & Hp & Hpc).
    assert (HW : wrap native (p + swrap w c) = p + c) by (rewrite Hcs; apply wrap_small; lia).
    destruct (gep_inbounds_law native a n p w c Ha Hp) as [z Hz]; [by rewrite HW|].
    rewrite Hz. simpl. apply gep_law in Hz. by rewrite Hz, HW. }
  intros v s2 Hvt Hw2 He2 Hs2 Hl2 Hv. apply wp_ret, wp_ret, wp_ret.
  apply HQ; [done|done|reach|by rewrite Hs2|by rewrite Hl2|done].
Qed.

End rules.
