(* ===== verification/ArrayAccess.v ===== *)
(** * Array elements and string characters

    The theorems about vectors and strings: an element's address is computed
    exactly when the index is in bounds. *)

From S2P Require Import Prelude Opcodes IRBuilder GenIRTypes Conv Arith IRLogic Memory MemoryRules.
Import ReaderBaseNS GenIR Arith Memory.

(** The fields of the structure of a vector: the method table, the length, on
    64-bit targets a padding, and the elements. *)
Definition vector_fields (native : Z) (Vtable E : Ty) : list Ty :=
  [PointerTy Vtable 0; IntegerTy 32] ++ (if native =? 32 then [] else [ArrayTy (IntegerTy 8) 4])
    ++ [ArrayTy E 0].

(** What the reader promises about the structures it has built: LLVM has the
    elements that the reader gave it, the class of arrays of an element type
    is a vector, and so is every structure that looks like one. *)
Class ReaderTypesOk (L : LLVM) (RT : ReaderTypes) (native : Z) : Prop := {
  elements_agree : forall id, StructElements id = struct_elements id;
  array_class : forall E, exists id Vtable,
    getArrayOfElementType E = PointerTy (StructTy id) ManagedAddressSpace /\
    struct_packed id = true /\ struct_elements id = vector_fields native Vtable E;
  array_like : forall id E,
    length (struct_elements id) = (IndexOfElements native + 1)%nat ->
    struct_elements id !! IndexOfElements native = Some (ArrayTy E 0) ->
    struct_packed id = true /\ exists Vtable, struct_elements id = vector_fields native Vtable E
}.

Section access.
Context {L : LLVM} {LS : LLVMLaws L} {native : Z} {args : list (RVal FP)}.
Hypothesis Hnative : native = 32 \/ native = 64.

#[local] Notation state := (@state L).
#[local] Notation wp := (wp native args).
#[local] Notation has := (has args).
#[local] Notation ext := (ext native args).

(** ** Vectors *)

Context `{RT : ReaderTypes} (OK : ReaderTypesOk L RT native).

(** Where the elements of a vector start. *)
Definition data_offset (P : Z) : Z := if P =? 32 then 8 else 16.

(** A vector of [len] elements of [size] bytes in the memory. *)
Definition vector_object (P a len size : Z) : Prop :=
  load (IntegerTy 32) (a + P / 8) = Some (RInt len) /\ 0 <= len < 2 ^ 31 /\ 0 <= size /\
  0 <= a /\ allocated a (data_offset P + len * size) = true /\
  a + (data_offset P + len * size) < 2 ^ P.

(** The type of a pointer to a vector of elements of type [E]. *)
Definition vector_type (T E : Ty) : Prop := exists id Vtable,
  T = PointerTy (StructTy id) ManagedAddressSpace /\ struct_packed id = true /\
  struct_elements id = vector_fields native Vtable E.

Lemma isArrayType_spec (T : Ty) (E : option Ty) :
  isGcPointer T = true ->
  exists b, isArrayType native T E = Some b /\
    (b = true -> exists E', vector_type T E' /\ forall X, E = Some X -> X = E').
Proof.
  intros HT. destruct T; try done. simpl in HT. unfold isArrayType. rewrite HT.
  destruct T; try (by eexists). rewrite (elements_agree id).
  destruct (Nat.eqb_spec (length (struct_elements id)) (IndexOfElements native + 1));
    [|by eexists]. simpl.
  destruct (struct_elements id !! IndexOfElements native) as [[| | | | | |E' n| |]|] eqn:HE;
    try (by eexists).
  destruct (Z.eqb_spec n 0) as [->|]; [|by eexists]. simpl.
  destruct (array_like id E') as (Hp & V & HV); [done|done|].
  assert (Hv : vector_type (PointerTy (StructTy id) AddressSpace) E').
  { exists id, V. by apply Z.eqb_eq in HT as ->. }
  destruct E as [X|]; eexists; (split; [reflexivity|]); intros Hb.
  - apply bool_decide_eq_true in Hb. exists E'. split; [done|]. by intros ? [= <-].
  - exists E'. done.
Qed.

Lemma array_class_type (E : Ty) : vector_type (getArrayOfElementType E) E.
Proof. destruct (array_class E) as (id & V & H1 & H2 & H3). by exists id, V. Qed.

Lemma wp_ensureIsArray (Array : Value) (E : option Ty) (a : Z) (s : state)
    (Q : Value -> state -> Prop) :
  wf s -> isGcPointer (IRBuilder.getType Array) = true -> has s Array (RInt a) ->
  0 <= a < 2 ^ native ->
  (forall v s' E', vector_type (IRBuilder.getType v) E' -> (forall X, E = Some X -> X = E') ->
     wf s' -> ext s s' -> stop s' = stop s -> has s' v (RInt a) -> Q v s') ->
  wp (ensureIsArray native Array E) s Q.
Proof.
  intros Hw HT HA Ha HQ. destruct (isArrayType_spec _ E HT) as (b & Hb & HE).
  unfold ensureIsArray. apply wp_bind. eapply wp_lift; [exact Hb|].
  destruct b; cbn [negb].
  - destruct HE as (E' & Hv & HX); [done|]. apply wp_ret. by eapply HQ.
  - set (E0 := match E with Some E => E | None => getBuiltInObjectType end).
    destruct (array_class_type E0) as (id & V & HG & Hv). rewrite HG.
    apply wp_emit with (r := RInt a); [done| |].
    { intros Hs. simpl. rewrite (has_int _ _ _ _ HA Hs). simpl. rewrite int_cast_law.
      destruct (IRBuilder.getType Array); try done. simpl. by rewrite wrap_small. }
    intros v s' Hvt Hw' He Hs Hv'. apply (HQ v s' E0); try done.
    + rewrite Hvt. by exists id, V.
    + by intros X ->.
Qed.

(** The offsets of a vector's length and elements. *)
Lemma vector_offsets (id : Z) (V E : Ty) :
  struct_packed id = true -> struct_elements id = vector_fields native V E ->
  struct_offset native id 1 = native / 8 /\
  struct_offset native id (Z.of_nat (length (struct_elements id)) - 1) = data_offset native.
Proof.
  intros Hp He. rewrite !struct_offset_law by (first [done | rewrite He; unfold vector_fields;
    destruct Hnative as [-> | ->]; simpl; lia]).
  rewrite He. unfold vector_fields, data_offset. by destruct Hnative as [-> | ->].
Qed.

(** Selecting an element of a structure by a constant. *)
Lemma indexed_field (id c : Z) (E : Ty) (Rest : list Value) :
  0 <= c < 2 ^ 32 -> struct_elements id !! Z.to_nat c = Some E ->
  indexed_type (StructTy id) (ConstantInt 32 c :: Rest) = indexed_type E Rest.
Proof.
  intros Hc HE. cbn [indexed_type def ConstantInt]. rewrite wrap_small by done.
  destruct (Z.ltb_spec c 0); [lia|]. by rewrite elements_agree, HE.
Qed.

Lemma walk_field (id c : Z) (E : Ty) (zs : list Z) :
  0 <= c -> struct_elements id !! Z.to_nat c = Some E ->
  gep_offset native (StructTy id) (0 :: c :: zs) =
    o ← gep_walk native E zs; Some (struct_offset native id c + o).
Proof.
  intros Hc HE. cbn [gep_offset gep_walk]. destruct (Z.ltb_spec c 0); [lia|]. rewrite HE.
  cbn [mbind option_bind]. by destruct (gep_walk native E zs).
Qed.

(** [loadLen] leaves the length as an unsigned native integer, or throws on a
    null reference. *)
Lemma wp_loadLen (Array : Value) (a len size : Z) (s : state) (Q : Value -> state -> Prop) :
  wf s -> isGcPointer (IRBuilder.getType Array) = true -> has s Array (RInt a) ->
  0 <= a < 2 ^ native -> (a <> 0 -> vector_object native a len size) ->
  (forall v s', IRBuilder.getType v = IntegerTy native -> wf s' -> ext s s' ->
     stop s' = check (negb (a =? 0)) CORINFO_HELP_THROWNULLREF (stop s) ->
     has s' v (RInt len) -> Q v s') ->
  wp (loadLen native Array true) s Q.
Proof.
  intros Hw HT HA Ha Hobj HQ. unfold loadLen. cbn [andb negb UseExplicitNullChecks].
  apply wp_bind, (wp_ensureIsArray Array None a); [done..|].
  intros A s1 E' (id & V & HAT & Hp & Hf) _ Hw1 He1 Hs1 HA1. apply wp_bind.
  apply (wp_null_check A a); [done..|]. intros s2 Hw2 He2 Hs2.
  destruct (vector_offsets id V E' Hp Hf) as [H1 _].
  assert (Hlive : stop s2 = None -> vector_object native a len size).
  { intros Hs. rewrite Hs2 in Hs. apply check_None in Hs as [Hs _].
    apply Hobj. by apply negb_true_iff, Z.eqb_neq in Hs. }
  assert (He : struct_elements id !! 1%nat = Some (IntegerTy 32)) by by rewrite Hf.
  apply wp_bind. unfold CreateStructGEP.
  eapply (wp_gep Hnative A _ [0; 1] (StructTy id) (IntegerTy 32) _ a (native / 8));
    [done|exact HAT|held| | | |].
  { cbn [tail]. by rewrite (indexed_field id 1 (IntegerTy 32)). }
  { repeat constructor; by apply has_ConstantInt. }
  { intros Hs. destruct (Hlive Hs) as (_ & Hlen & Hsz & Ha0 & Hal & Hb).
    split; [rewrite (walk_field id 1 _ [] ltac:(lia) He), H1; simpl; f_equal; lia|].
    assert (native / 8 <= data_offset native) by by destruct Hnative as [-> | ->].
    exists a, (data_offset native + len * size). split; [done|].
    assert (0 <= native / 8) by by destruct Hnative as [-> | ->]. nia. }
  intros G s3 HGT Hw3 He3 Hs3 HG. apply wp_bind.
  eapply (wp_load G (IntegerTy 32) _ (a + native / 8) (RInt len)); [done|exact HGT|done| |].
  { intros Hs. rewrite Hs3 in Hs. by destruct (Hlive Hs). }
  intros R s4 HRT Hw4 He4 Hs4 HR. unfold GenIR.convertToStackType. rewrite HRT. cbn [stackSize].
  apply wp_bind, wp_ret, wp_bind, wp_assert; [by destruct Hnative as [-> | ->]|].
  destruct (Z.ltb_spec 32 native).
  - apply wp_bind, wp_ret, wp_bind, wp_ret. apply wp_emit with (r := RInt len); [done| |].
    { intros Hs. cbn [exec_instr]. rewrite (has_int _ _ _ _ HR Hs). simpl. rewrite int_cast_law.
      rewrite Hs4, Hs3 in Hs. destruct (Hlive Hs) as (_ & Hlen & _). simpl.
      rewrite wrap_small; [done|]. assert (2 ^ 31 < 2 ^ native) by (apply Z.pow_lt_mono_r; lia). lia. }
    intros v s5 HvT Hw5 He5 Hs5 Hv. apply HQ; [done|done|reach| |done].
    by rewrite Hs5, Hs4, Hs3, Hs2, Hs1.
  - assert (native = 32) as -> by (destruct Hnative; lia).
    apply wp_ret, HQ; [done|done|reach| |done]. by rewrite Hs4, Hs3, Hs2, Hs1.
Qed.

(** The address of an element of a vector, where the index is known to be in
    bounds. *)
Lemma wp_vector_element (A Index : Value) (id : Z) (V E : Ty) (a len x wi : Z) (s : state)
    (Q : Value -> state -> Prop) :
  wf s -> IRBuilder.getType A = PointerTy (StructTy id) ManagedAddressSpace ->
  struct_packed id = true -> struct_elements id = vector_fields native V E ->
  IRBuilder.getType Index = IntegerTy wi -> wi = 32 \/ wi = native -> 0 <= x < 2 ^ wi ->
  has s A (RInt a) -> has s Index (RInt x) ->
  (stop s = None -> vector_object native a len (alloc_size native E) /\ x < len) ->
  (forall v s', IRBuilder.getType v = PointerTy E ManagedAddressSpace -> wf s' -> ext s s' ->
     stop s' = stop s ->
     has s' v (RInt (a + (data_offset native + x * alloc_size native E))) -> Q v s') ->
  wp (CreateInBoundsGEP A
        [ConstantInt 32 0; ConstantInt 32 (Z.of_nat (length (struct_elements id)) - 1); Index]) s Q.
Proof.
  intros Hw HAT Hp Hf HI Hwi Hx HA HX Hlive HQ.
  destruct (vector_offsets id V E Hp Hf) as [_ Hlast].
  set (c := Z.of_nat (length (struct_elements id)) - 1) in *.
  assert (Hc : 0 <= c < 2 ^ 31 /\ struct_elements id !! Z.to_nat c = Some (ArrayTy E 0)).
  { unfold c. rewrite Hf. unfold vector_fields. by destruct Hnative as [-> | ->]. }
  destruct Hc as (Hc & Hel).
  apply (wp_gep Hnative A _ [0; c; swrap wi x] (StructTy id) E ManagedAddressSpace a
           (data_offset native + x * alloc_size native E)); [done|exact HAT|held| | | |done].
  { cbn [tail]. by rewrite (indexed_field id c (ArrayTy E 0)) by (done || lia). }
  { constructor; [by apply has_ConstantInt|]. constructor; [by apply has_ConstantInt|].
    constructor; [|constructor]. exists x. split; [held|]. by rewrite HI. }
  intros Hs. destruct (Hlive Hs) as ((_ & Hlen & Hsz & Ha0 & Hal & Hb) & Hlt).
  rewrite (walk_field id c _ _ (proj1 Hc) Hel), Hlast. cbn [gep_walk mbind option_bind].
  assert (0 < wi /\ 2 ^ 31 <= 2 ^ (wi - 1)).
  { destruct Hwi as [-> | ->]; [done|]. by destruct Hnative as [-> | ->]. }
  rewrite swrap_small by lia.
  split; [f_equal; lia|]. exists a, (data_offset native + len * alloc_size native E).
  split; [done|]. assert (0 <= data_offset native) by by destruct Hnative as [-> | ->].
  assert (0 <= x * alloc_size native E <= len * alloc_size native E); [|lia].
  split; [|apply Z.mul_le_mono_nonneg_r]; lia.
Qed.

(** The address of an element: the check of the reference and of the index,
    and then an address inside the object. *)
Lemma wp_genArrayElemAddress (Array Index : Value) (E : Ty) (a len x wi : Z) (s : state)
    (Q : Value -> state -> Prop) :
  wf s -> isGcPointer (IRBuilder.getType Array) = true ->
  IRBuilder.getType Index = IntegerTy wi -> wi = 32 \/ wi = native -> 0 <= x < 2 ^ wi ->
  has s Array (RInt a) -> has s Index (RInt x) ->
  0 <= a < 2 ^ native -> (a <> 0 -> vector_object native a len (alloc_size native E)) ->
  (forall v s', IRBuilder.getType v = PointerTy E ManagedAddressSpace -> wf s' -> ext s s' ->
     stop s' = check (x <? len) CORINFO_HELP_RNGCHKFAIL
                 (check (negb (a =? 0)) CORINFO_HELP_THROWNULLREF (stop s)) ->
     has s' v (RInt (a + (data_offset native + x * alloc_size native E))) -> Q v s') ->
  wp (genArrayElemAddress native Array Index E) s Q.
Proof.
  intros Hw HT HI Hwi Hx HA HX Ha Hobj HQ. unfold genArrayElemAddress.
  apply wp_bind, (wp_ensureIsArray Array (Some E) a); [done..|].
  intros A s1 E' (id & V & HAT & Hp & Hf) HE Hw1 He1 Hs1 HA1.
  assert (E = E') as <- by by apply HE.
  apply wp_bind, (wp_loadLen A a len (alloc_size native E)); [done|by rewrite HAT|done..|].
  intros N s2 HNT Hw2 He2 Hs2 HN. apply wp_bind.
  assert (Hwn : wi <= native /\ 2 ^ wi <= 2 ^ native).
  { destruct Hnative as [-> | ->], Hwi as [-> | ->]; lia. }
  apply (wp_bounds_check N Index len x native wi); [done|done|done|lia|lia|held|held|].
  intros s3 Hw3 He3 Hs3. rewrite HAT. cbn [struct_fields]. rewrite elements_agree.
  assert (HL : last (struct_elements id) = Some (ArrayTy E 0)).
  { rewrite Hf. unfold vector_fields. by destruct Hnative as [-> | ->]. }
  apply wp_bind, wp_ret, wp_bind. eapply wp_lift; [exact HL|].
  apply wp_bind, wp_assert; [by apply bool_decide_eq_true|].
  apply (wp_vector_element A Index id V E a len x wi); try done; [held|held| |].
  - intros Hs. rewrite Hs3 in Hs. apply check_None in Hs as [Hlt Hs].
    rewrite Hs2, Hs1 in Hs. apply check_None in Hs as [Hs _].
    apply Z.ltb_lt in Hlt. split; [|done]. by apply Hobj, Z.eqb_neq, negb_true_iff.
  - intros v s4 HvT Hw4 He4 Hs4 Hv. apply HQ; [done|done|reach| |done].
    by rewrite Hs4, Hs3, Hs2, Hs1.
Qed.

(** ** Strings *)

(** A string of [len] characters; the runtime ends it with a null character,
    which is part of the object. *)
Definition string_offset (P : Z) : Z := P / 8 + 4.

Definition string_object (P a len : Z) (char : Z -> Z) : Prop :=
  load (IntegerTy 32) (a + P / 8) = Some (RInt len) /\ 0 <= len < 2 ^ 31 - 1 /\
  (forall i, 0 <= i <= len ->
     load (IntegerTy 16) (a + (string_offset P + i * 2)) = Some (RInt (char i)) /\
     0 <= char i < 2 ^ 16) /\
  0 <= a /\ allocated a (string_offset P + (len + 1) * 2) = true /\
  a + (string_offset P + (len + 1) * 2) < 2 ^ P.

(** The structure of strings: the method table, the length, the characters. *)
Definition string_type (id : Z) : Prop := exists Vtable,
  getBuiltInStringType = PointerTy (StructTy id) ManagedAddressSpace /\ struct_packed id = true /\
  struct_elements id = [PointerTy Vtable 0; IntegerTy 32; ArrayTy (IntegerTy 16) 0].

Lemma wp_string_address (Address : Value) (a : Z) (s : state) (Q : Value -> state -> Prop) :
  wf s -> isGcPointer (IRBuilder.getType Address) = true -> has s Address (RInt a) ->
  0 <= a < 2 ^ native -> isPointerTy getBuiltInStringType = true ->
  (forall v s', IRBuilder.getType v = getBuiltInStringType -> wf s' -> ext s s' ->
     stop s' = check (negb (a =? 0)) CORINFO_HELP_THROWNULLREF (stop s) ->
     has s' v (RInt a) -> Q v s') ->
  wp (string_address Address) s Q.
Proof.
  intros Hw HT HA Ha HP HQ. unfold string_address. cbn [UseExplicitNullChecks].
  apply wp_bind, wp_assert; [done|]. apply wp_bind, (wp_null_check Address a); [done..|].
  intros s1 Hw1 He1 Hs1. destruct (bool_decide _) eqn:HB.
  - apply wp_ret, HQ; [by apply bool_decide_eq_true in HB|done|done|done|held].
  - assert (HA1 : has s1 Address (RInt a)) by held.
    apply wp_emit with (r := RInt a); [done| |].
    { intros Hs. simpl. rewrite (has_int _ _ _ _ HA1 Hs). simpl. rewrite int_cast_law.
      destruct getBuiltInStringType; try done. simpl. by rewrite wrap_small. }
    intros v s2 Hvt Hw2 He2 Hs2 Hv. apply HQ; [done|done|reach|by rewrite Hs2|done].
Qed.

Lemma string_offsets (id : Z) :
  string_type id -> struct_offset native id 1 = native / 8 /\
                    struct_offset native id 2 = string_offset native.
Proof.
  intros (V & _ & Hp & He).
  rewrite !struct_offset_law by (first [done | rewrite He; simpl; lia]).
  rewrite He. by destruct Hnative as [-> | ->].
Qed.

Lemma wp_loadStringLen (Address : Value) (a len id : Z) (char : Z -> Z) (s : state)
    (Q : Value -> state -> Prop) :
  wf s -> isGcPointer (IRBuilder.getType Address) = true -> has s Address (RInt a) ->
  0 <= a < 2 ^ native -> string_type id -> (a <> 0 -> string_object native a len char) ->
  (forall v s', IRBuilder.getType v = IntegerTy 32 -> wf s' -> ext s s' ->
     stop s' = check (negb (a =? 0)) CORINFO_HELP_THROWNULLREF (stop s) ->
     has s' v (RInt len) -> Q v s') ->
  wp (loadStringLen Address) s Q.
Proof.
  intros Hw HT HA Ha Hst Hobj HQ. destruct (string_offsets id Hst) as [H1 _].
  destruct Hst as (V & HS & Hp & Hf). unfold loadStringLen.
  apply wp_bind, (wp_string_address Address a); [done..|by rewrite HS|].
  intros A s1 HAT Hw1 He1 Hs1 HA1. rewrite HS in HAT.
  assert (Hlive : stop s1 = None -> string_object native a len char).
  { intros Hs. rewrite Hs1 in Hs. apply check_None in Hs as [Hs _].
    by apply Hobj, Z.eqb_neq, negb_true_iff. }
  assert (He : struct_elements id !! 1%nat = Some (IntegerTy 32)) by by rewrite Hf.
  apply wp_bind. unfold CreateStructGEP.
  eapply (wp_gep Hnative A _ [0; 1] (StructTy id) (IntegerTy 32) _ a (native / 8));
    [done|exact HAT|held| | | |].
  { cbn [tail]. by rewrite (indexed_field id 1 (IntegerTy 32)). }
  { repeat constructor; by apply has_ConstantInt. }
  { intros Hs. destruct (Hlive Hs) as (_ & Hlen & _ & Ha0 & Hal & Hb).
    split; [rewrite (walk_field id 1 _ [] ltac:(lia) He), H1; simpl; f_equal; lia|].
    exists a, (string_offset native + (len + 1) * 2). unfold string_offset in *.
    assert (0 <= native / 8) by by destruct Hnative as [-> | ->]. split; [done|lia]. }
  intros G s2 HGT Hw2 He2 Hs2 HG. cbn [negb UseExplicitNullChecks].
  eapply (wp_load G (IntegerTy 32) _ (a + native / 8) (RInt len)); [done|exact HGT|done| |].
  { intros Hs. rewrite Hs2 in Hs. by destruct (Hlive Hs). }
  intros R s3 HRT Hw3 He3 Hs3 HR. apply HQ; [done|done|reach| |done]. by rewrite Hs3, Hs2, Hs1.
Qed.

(** A character is read without a check of the index. *)
Lemma wp_stringGetChar (Address Index : Value) (a len id i : Z) (char : Z -> Z) (s : state)
    (Q : Value -> state -> Prop) :
  wf s -> isGcPointer (IRBuilder.getType Address) = true -> has s Address (RInt a) ->
  IRBuilder.getType Index = IntegerTy 32 -> has s Index (RInt i) ->
  0 <= a < 2 ^ native -> string_type id -> (a <> 0 -> string_object native a len char) ->
  0 <= i <= len ->
  (forall v s', IRBuilder.getType v = IntegerTy 32 -> wf s' -> ext s s' ->
     stop s' = check (negb (a =? 0)) CORINFO_HELP_THROWNULLREF (stop s) ->
     has s' v (RInt (char i)) -> Q v s') ->
  wp (stringGetChar native Address Index) s Q.
Proof.
  intros Hw HT HA HIT HI Ha Hst Hobj Hi HQ. destruct (string_offsets id Hst) as [_ H2].
  destruct Hst as (V & HS & Hp & Hf). unfold stringGetChar.
  apply wp_bind, (wp_string_address Address a); [done..|by rewrite HS|].
  intros A s1 HAT Hw1 He1 Hs1 HA1. rewrite HS in HAT.
  assert (Hlive : stop s1 = None -> string_object native a len char).
  { intros Hs. rewrite Hs1 in Hs. apply check_None in Hs as [Hs _].
    by apply Hobj, Z.eqb_neq, negb_true_iff. }
  assert (He : struct_elements id !! 2%nat = Some (ArrayTy (IntegerTy 16) 0)) by by rewrite Hf.
  apply wp_bind.
  eapply (wp_gep Hnative A _ [0; 2; swrap 32 i] (StructTy id) (IntegerTy 16) _ a
            (string_offset native + i * 2)); [done|exact HAT|held| | | |].
  { cbn [tail]. by rewrite (indexed_field id 2 (ArrayTy (IntegerTy 16) 0)). }
  { constructor; [by apply has_ConstantInt|]. constructor; [by apply has_ConstantInt|].
    constructor; [|constructor]. exists i. split; [held|]. by rewrite HIT. }
  { intros Hs. destruct (Hlive Hs) as (_ & Hlen & _ & Ha0 & Hal & Hb).
    rewrite (walk_field id 2 _ _ ltac:(lia) He), H2. simpl. rewrite (swrap_small 32) by lia.
    change (alloc_size native (IntegerTy 16)) with 2. split; [f_equal; lia|]. exists a, (string_offset native + (len + 1) * 2).
    unfold string_offset in *.
    assert (0 <= native / 8) by by destruct Hnative as [-> | ->]. split; [done|lia]. }
  intros G s2 HGT Hw2 He2 Hs2 HG. cbn [negb UseExplicitNullChecks]. apply wp_bind.
  eapply (wp_load G (IntegerTy 16) _ _ (RInt (char i))); [done|exact HGT|exact HG| |].
  { intros Hs. rewrite Hs2 in Hs. destruct (Hlive Hs) as (_ & _ & Hc & _). by apply Hc. }
  intros R s3 HRT Hw3 He3 Hs3 HR. unfold GenIR.convertToStackType. rewrite HRT. cbn [stackSize].
  apply wp_bind, wp_ret, wp_bind, wp_assert; [done|]. cbn [Z.ltb Z.compare].
  apply wp_bind, wp_ret, wp_bind, wp_ret. apply wp_emit with (r := RInt (char i)); [done| |].
  { intros Hs. cbn [exec_instr]. rewrite (has_int _ _ _ _ HR Hs). simpl. rewrite int_cast_law.
    rewrite Hs3, Hs2 in Hs. destruct (Hlive Hs) as (_ & _ & Hc & _).
    destruct (Hc i Hi). rewrite wrap_small; [done|lia]. }
  intros v s4 HvT Hw4 He4 Hs4 Hv. apply HQ; [done|done|reach| |done].
  by rewrite Hs4, Hs3, Hs2, Hs1.
Qed.

End access.

(** C5: genArrayElemAddress is memory safe: run on a vector, the emitted code
    throws NullReferenceException for a null reference and
    IndexOutOfRangeException for an index that is not below the length (a
    negative index is a large one), and otherwise gives the address of the
    element, inside the object. *)
Theorem array_element_in_bounds {L : LLVM} (LS : LLVMLaws L) (native : Z)
    (RT : ReaderTypes) (OK : ReaderTypesOk L RT native) (T E : Ty) (a len x wi : Z)
    (Hnative : native = 32 \/ native = 64) (HT : isGcPointer T = true)
    (Hwi : wi = 32 \/ wi = native) (Hx : 0 <= x < 2 ^ wi) (Ha : 0 <= a < 2 ^ native)
    (Hobj : a <> 0 -> vector_object native a len (alloc_size native E)) :
  run native [RInt a; RInt x]
    (genArrayElemAddress native (MkValue (Arg 0) T) (MkValue (Arg 1) (IntegerTy wi)) E) =
  Some (if a =? 0 then Throws CORINFO_HELP_THROWNULLREF
        else if x <? len then Returns (RInt (a + (data_offset native + x * alloc_size native E)))
        else Throws CORINFO_HELP_RNGCHKFAIL).
Proof.
  rewrite (run_wp native _ _
    (check (x <? len) CORINFO_HELP_RNGCHKFAIL (check (negb (a =? 0)) CORINFO_HELP_THROWNULLREF None))
    (RInt (a + (data_offset native + x * alloc_size native E)))).
  - by destruct (a =? 0), (x <? len).
  - apply (wp_genArrayElemAddress Hnative OK _ _ E a len x wi); try done.
    apply wf_start.
Qed.

(** The intrinsics of strings: String.Length and String.Chars throw
    NullReferenceException for a null reference and otherwise give the length
    and the character.  The index of a character is not compared with the
    length: the emitted code has no other way to end, and behind the last
    character it reads the null character that ends the object. *)
Theorem string_access {L : LLVM} (LS : LLVMLaws L) (native : Z) (RT : ReaderTypes)
    (OK : ReaderTypesOk L RT native) (T : Ty) (a len id i : Z) (char : Z -> Z)
    (Hnative : native = 32 \/ native = 64) (HT : isGcPointer T = true)
    (Ha : 0 <= a < 2 ^ native) (Hst : string_type id) (Hi : 0 <= i <= len)
    (Hobj : a <> 0 -> string_object native a len char) :
  run native [RInt a; RInt i] (loadStringLen (MkValue (Arg 0) T)) =
    Some (if a =? 0 then Throws CORINFO_HELP_THROWNULLREF else Returns (RInt len)) /\
  run native [RInt a; RInt i]
    (stringGetChar native (MkValue (Arg 0) T) (MkValue (Arg 1) (IntegerTy 32))) =
    Some (if a =? 0 then Throws CORINFO_HELP_THROWNULLREF else Returns (RInt (char i))).
Proof.
  split.
  - rewrite (run_wp native _ _ (check (negb (a =? 0)) CORINFO_HELP_THROWNULLREF None) (RInt len)).
    + by destruct (a =? 0).
    + apply (wp_loadStringLen Hnative OK _ a len id char); try done. apply wf_start.
  - rewrite (run_wp native _ _ (check (negb (a =? 0)) CORINFO_HELP_THROWNULLREF None)
               (RInt (char i))).
    + by destruct (a =? 0).
    + apply (wp_stringGetChar Hnative OK _ _ a len id i char); try done. apply wf_start.
Qed.

(** ** An instance: a structure of its own for every element type *)

Fixpoint type_tree (T : Ty) : gen_tree Z :=
  match T with
  | VoidTy => GenLeaf 0
  | FloatTy => GenLeaf 1
  | DoubleTy => GenLeaf 2
  | IntegerTy w => GenNode 0 [GenLeaf w]
  | StructTy id => GenNode 1 [GenLeaf id]
  | FunctionTy id => GenNode 2 [GenLeaf id]
  | PointerTy E A => GenNode 3 [type_tree E; GenLeaf A]
  | VectorTy E n => GenNode 4 [type_tree E; GenLeaf n]
  | ArrayTy E n => GenNode 5 [type_tree E; GenLeaf n]
  end.

Fixpoint tree_type (t : gen_tree Z) : Ty :=
  match t with
  | GenLeaf 1 => FloatTy
  | GenLeaf 2 => DoubleTy
  | GenNode 0 [GenLeaf w] => IntegerTy w
  | GenNode 1 [GenLeaf id] => StructTy id
  | GenNode 2 [GenLeaf id] => FunctionTy id
  | GenNode 3 [E; GenLeaf A] => PointerTy (tree_type E) A
  | GenNode 4 [E; GenLeaf n] => VectorTy (tree_type E) n
  | GenNode 5 [E; GenLeaf n] => ArrayTy (tree_type E) n
  | _ => VoidTy
  end.

#[export] Instance Ty_countable : Countable Ty.
Proof.
  apply (inj_countable' type_tree tree_type). intros T.
  induction T; simpl; congruence.
Defined.

Definition vector_of (P id : Z) : list Ty :=
  match decode (Z.to_pos id) with
  | Some E => vector_fields P (IntegerTy 8) E
  | None => []
  end.

Definition VectorReader (P : Z) : ReaderTypes := {|
  StructElements := vector_of P;
  StructSize := fun _ => data_offset P;
  ElementOffset := fun id i => sum_sizes (type_size (fun _ => 0) P <$> take i (vector_of P id));
  getArrayOfElementType := fun E => PointerTy (StructTy (Zpos (encode E))) ManagedAddressSpace;
  getBuiltInObjectType := PointerTy (IntegerTy 8) ManagedAddressSpace;
  getBuiltInStringType := PointerTy (IntegerTy 8) ManagedAddressSpace;
  isLayoutIdentical := fun _ _ => false
|}.

Lemma VectorReader_ok (P : Z) mem objects :
  ReaderTypesOk (DemoMemory (vector_of P) mem objects) (VectorReader P) P.
Proof.
  split; [done| |].
  - intros E. exists (Zpos (encode E)), (IntegerTy 8). split; [done|]. split; [done|].
    simpl. unfold vector_of. cbn [Z.to_pos]. by rewrite decode_encode.
  - intros id E _. simpl. unfold vector_of. destruct (decode (Z.to_pos id)) as [E'|]; [|done].
    intros HE. split; [done|]. exists (IntegerTy 8). f_equal.
    unfold vector_fields, IndexOfElements, getPointerByteSize in HE.
    revert HE. destruct (Z.eqb_spec P 32) as [->|]; simpl; [by intros [= ->]|].
    by destruct (P / 8 =? 4); intros [= ->].
Qed.

(** A vector of three 32-bit integers at address 1000. *)
Lemma array_element_in_bounds_witness :
  run (L := DemoMemory (vector_of 64) (fun _ p => if p =? 1008 then Some (RInt 3) else None)
              (fun a n => (a =? 1000) && (n =? 28)))
    64 [RInt 1000; RInt 2]
    (genArrayElemAddress (H := VectorReader 64) 64
       (MkValue (Arg 0) (PointerTy (StructTy 9) ManagedAddressSpace))
       (MkValue (Arg 1) (IntegerTy 32)) (IntegerTy 32)) = Some (Returns (RInt 1024)).
Proof.
  apply (array_element_in_bounds (DemoMemory_laws _ _ _) 64 (VectorReader 64)
    (VectorReader_ok 64 _ _) (PointerTy (StructTy 9) ManagedAddressSpace) (IntegerTy 32) 1000 3 2 32);
    [by right|done|by left|done|done|]. intros _. by split.
Defined.

(** The string of two characters at address 1000, its end included. *)
Definition string_structure (id : Z) : list Ty :=
  if id =? 0 then [PointerTy (IntegerTy 8) 0; IntegerTy 32; ArrayTy (IntegerTy 16) 0]
  else vector_of 64 id.

Definition StringReader : ReaderTypes := {|
  StructElements := string_structure;
  StructSize := fun _ => 12;
  ElementOffset := fun _ i => 8 * Z.of_nat i;
  getArrayOfElementType := fun E => PointerTy (StructTy (Zpos (encode E))) ManagedAddressSpace;
  getBuiltInObjectType := PointerTy (IntegerTy 8) ManagedAddressSpace;
  getBuiltInStringType := PointerTy (StructTy 0) ManagedAddressSpace;
  isLayoutIdentical := fun _ _ => false
|}.

Definition string_memory : LLVM :=
  DemoMemory string_structure
    (fun _ p => if p =? 1008 then Some (RInt 2) else
                if p =? 1012 then Some (RInt 72) else if p =? 1014 then Some (RInt 105) else
                if p =? 1016 then Some (RInt 0) else None)
    (fun a n => (a =? 1000) && (n =? 18)).

Lemma string_access_witness :
  run (L := string_memory) 64 [RInt 1000; RInt 2]
    (loadStringLen (H := StringReader) (MkValue (Arg 0) (PointerTy (StructTy 0) ManagedAddressSpace)))
    = Some (Returns (RInt 2)) /\
  run (L := string_memory) 64 [RInt 1000; RInt 2]
    (stringGetChar (H := StringReader) 64
       (MkValue (Arg 0) (PointerTy (StructTy 0) ManagedAddressSpace))
       (MkValue (Arg 1) (IntegerTy 32))) = Some (Returns (RInt 0)).
Proof.
  assert (OK : ReaderTypesOk string_memory StringReader 64).
  { destruct (VectorReader_ok 64 (fun _ _ => None) (fun _ _ => false)) as [_ H1 H2]. split.
    - done.
    - intros E. destruct (H1 E) as (id & V & Hg & Hp & He). injection Hg as <-.
      by exists (Zpos (encode E)), V.
    - intros id E. simpl. unfold string_structure. destruct (id =? 0); [done|]. apply H2. }
  refine (string_access (DemoMemory_laws _ _ _) 64 StringReader OK
    (PointerTy (StructTy 0) ManagedAddressSpace) 1000 2 0 2
    (fun i => if i =? 0 then 72 else if i =? 1 then 105 else 0) _ _ _ _ _ _).
  - by right.
  - done.
  - done.
  - by eexists.
  - done.
  - intros _. split; [done|]. split; [done|]. split; [|done].
    intros i Hi. assert (i = 0 \/ i = 1 \/ i = 2) as [->|[->| ->]] by lia; done.
Defined.
