(* ===== verification/MDArray.v ===== *)
(** * Elements of multi-dimensional arrays

    The theorem about [mdArrayRefAddr] of [Memory] on 64-bit targets: every
    index is compared with its dimension, lower bounds included, and the
    address is that of the row-major order. *)

From S2P Require Import Prelude Opcodes IRBuilder GenIRTypes Conv Arith IRLogic Memory MemoryRules ArrayAccess.
Import ReaderBaseNS GenIR Arith Memory.

(** ** The row-major order *)

(** A dimension: its length and its lower bound. *)
Definition dimension : Type := Z * Z.

(** The number of the element with the indices [xs] behind the [acc] blocks
    before it, if every index is in its dimension. *)
Fixpoint row_major (dims : list dimension) (xs : list Z) (acc : Z) : option Z :=
  match dims, xs with
  | [], [] => Some acc
  | (d, b) :: dims, x :: xs =>
      if (b <=? x) && (x <? b + d) then row_major dims xs (acc * d + (x - b)) else None
  | _, _ => None
  end.

Fixpoint elements_of (dims : list dimension) : Z :=
  match dims with [] => 1 | (d, _) :: dims => d * elements_of dims end.

Lemma elements_nonneg (dims : list dimension) :
  Forall (fun p => 0 <= p.1) dims -> 0 <= elements_of dims.
Proof. induction 1 as [|[d b] dims Hd _ IH]; simpl in *; [lia|]. by apply Z.mul_nonneg_nonneg. Qed.

Lemma row_major_bound (dims : list dimension) (xs : list Z) (acc o : Z) :
  Forall (fun p => 0 <= p.1) dims -> row_major dims xs acc = Some o ->
  acc * elements_of dims <= o < (acc + 1) * elements_of dims.
Proof.
  intros Hd. revert xs acc. induction Hd as [|[d b] dims Hd Hds IH]; intros [|x xs] acc H; try done.
  - injection H as <-. simpl. lia.
  - cbn [row_major] in H. destruct (Z.leb_spec b x), (Z.ltb_spec x (b + d)); try done.
    apply IH in H. simpl. pose proof (elements_nonneg dims Hds). simpl in Hd. nia.
Qed.

(** The comparison the emitted code makes: unsigned, of the difference to the
    lower bound. *)
Lemma index_check (d b x : Z) :
  in_signed 32 x = true -> in_signed 32 b = true -> 0 <= d -> b + d <= 2 ^ 31 ->
  (wrap 32 (wrap 32 x - wrap 32 b) <? d) = (b <=? x) && (x <? b + d) /\
  (b <= x < b + d -> wrap 32 (wrap 32 x - wrap 32 b) = x - b).
Proof.
  unfold in_signed. intros [H1 H2]%andb_prop [H3 H4]%andb_prop Hd Hb.
  apply Z.leb_le in H1, H3. apply Z.ltb_lt in H2, H4. rewrite wrap_sub.
  destruct (Z.leb_spec b x); simpl.
  - rewrite wrap_small by lia. destruct (Z.ltb_spec (x - b) d), (Z.ltb_spec x (b + d)); lia.
  - rewrite wrap_negative by lia. destruct (Z.ltb_spec (x - b + 2 ^ 32) d); lia.
Qed.

(** ** The structure in memory *)

(** The fields: the method table, the number of elements, a padding, the
    lengths, the lower bounds, the elements. *)
Definition md_fields (Vtable E : Ty) (rank : Z) : list Ty :=
  [PointerTy Vtable 0; IntegerTy 32; ArrayTy (IntegerTy 8) 4; ArrayTy (IntegerTy 32) rank;
   ArrayTy (IntegerTy 32) rank; ArrayTy E 0].

Section md.
Context {L : LLVM} {LS : LLVMLaws L} {args : list (RVal FP)}.

#[local] Notation native := 64.
#[local] Notation state := (@state L).
#[local] Notation wp := (wp native args).
#[local] Notation has := (has args).
#[local] Notation ext := (ext native args).

Context `{RT : ReaderTypes} (OK : ReaderTypesOk L RT native).

Definition md_size (rank count size : Z) : Z := 16 + 8 * rank + count * size.

(** A word from which the loads of [mdArrayRefAddr] get a number: they promise
    the alignment of a pointer, which the word has or the target ignores. *)
Definition slot_holds (p r : Z) : Prop :=
  access_defined (NaturalAlignment native) p = true /\ load (IntegerTy 32) p = Some (RInt r).

Record md_object (a : Z) (dims : list dimension) (size : Z) : Prop := {
  md_address : 0 <= a;
  md_element : 0 <= size;
  md_count : elements_of dims < 2 ^ 31;
  md_dimension : forall k d b, dims !! k = Some (d, b) ->
    0 <= d /\ in_signed 32 b = true /\ b + d <= 2 ^ 31 /\
    slot_holds (a + (16 + 4 * Z.of_nat k)) d /\
    slot_holds (a + (16 + 4 * Z.of_nat (length dims) + 4 * Z.of_nat k)) (wrap 32 b);
  md_allocated :
    allocated a (md_size (Z.of_nat (length dims)) (elements_of dims) size) = true;
  md_end : a + md_size (Z.of_nat (length dims)) (elements_of dims) size < 2 ^ 64
}.

Variables (id rank : Z) (Vtable E : Ty).
Hypothesis Hpacked : struct_packed id = true.
Hypothesis Hfields : struct_elements id = md_fields Vtable E rank.

Lemma md_offsets :
  struct_offset native id 3 = 16 /\ struct_offset native id 4 = 16 + 4 * rank /\
  struct_offset native id 5 = 16 + 8 * rank.
Proof.
  rewrite !struct_offset_law by (first [done | rewrite Hfields; simpl; lia]).
  rewrite Hfields. unfold sum_sizes, alloc_size. simpl.
  change (64 / 8) with 8. change (32 / 8) with 4. change (8 / 8) with 1. repeat split; lia.
Qed.

Lemma md_field (c : Z) (T : Ty) (Rest : list Value) (zs : list Z) :
  0 <= c < 2 ^ 31 -> md_fields Vtable E rank !! Z.to_nat c = Some T ->
  indexed_type (StructTy id) (ConstantInt 32 c :: Rest) = indexed_type T Rest /\
  gep_offset native (StructTy id) (0 :: c :: zs) =
    o ← gep_walk native T zs; Some (struct_offset native id c + o).
Proof.
  intros Hc HT. rewrite <- Hfields in HT. split.
  - apply (indexed_field OK id c T Rest); [lia|done].
  - apply walk_field; [lia|done].
Qed.

Variables (Array : Value) (a : Z) (dims : list dimension).
Hypothesis HArray :
  IRBuilder.getType Array = PointerTy (StructTy id) ManagedAddressSpace.
Hypothesis Hrank : rank = Z.of_nat (length dims).
Hypothesis Hrank_small : rank < 2 ^ 31.

Lemma md_inside (o size : Z) :
  md_object a dims size -> 0 <= o <= md_size rank (elements_of dims) size ->
  exists b n, allocated b n = true /\ 0 <= b /\ b + n < 2 ^ native /\
    b <= a <= b + n /\ b <= a + o <= b + n.
Proof.
  intros Ho. destruct Ho. rewrite <- Hrank in *.
  exists a, (md_size rank (elements_of dims) size). repeat split; (done || lia).
Qed.

(** Reading a slot of the lengths ([c] = 3) or of the lower bounds ([c] = 4). *)
Lemma wp_md_slot (c k r : Z) (size : Z) (s : state) (Q : Value -> state -> Prop) :
  wf s -> has s Array (RInt a) -> c = 3 \/ c = 4 -> 0 <= k < rank ->
  (stop s = None -> md_object a dims size /\
     slot_holds (a + (struct_offset native id c + 4 * k)) r) ->
  (forall v s', IRBuilder.getType v = IntegerTy 32 -> wf s' -> ext s s' -> stop s' = stop s ->
     has s' v (RInt r) -> Q v s') ->
  wp (CreateInBoundsGEP Array [ConstantInt 32 0; ConstantInt 32 c; ConstantInt 32 k]) s
    (fun A s1 => wp (makeLoad A false false (NaturalAlignment native)) s1 Q).
Proof.
  intros Hw HA Hc Hk Hlive HQ. destruct md_offsets as (H3 & H4 & _).
  destruct (md_field c (ArrayTy (IntegerTy 32) rank) [ConstantInt 32 k] [k]) as [HT HG];
    [lia|by destruct Hc as [-> | ->]|].
  apply (wp_gep (or_intror eq_refl) Array _ [0; c; k] (StructTy id) (IntegerTy 32)
    ManagedAddressSpace a
    (struct_offset native id c + 4 * k)); [done|exact HArray|done|exact HT| | |].
  { repeat constructor; apply has_ConstantInt; lia. }
  { intros Hs. destruct (Hlive Hs) as [Ho _]. rewrite HG. split.
    - simpl. f_equal. change (alloc_size 64 (IntegerTy 32)) with 4. lia.
    - apply (md_inside _ size); [done|]. unfold md_size.
      pose proof (md_element _ _ _ Ho). assert (0 <= elements_of dims).
      { apply elements_nonneg, Forall_lookup_2. intros i [d b] Hi.
        by apply (md_dimension _ _ _ Ho i d b). }
      assert (0 <= elements_of dims * size) by by apply Z.mul_nonneg_nonneg.
      destruct Hc as [-> | ->]; lia. }
  intros A s1 HAT Hw1 He1 Hs1 HA1.
  eapply (wp_aligned_load A (IntegerTy 32)); [done|exact HAT|done| |].
  { intros Hs. rewrite Hs1 in Hs. by apply Hlive. }
  intros v s2 HvT Hw2 He2 Hs2 _ Hv. apply HQ; [done|done|reach|by rewrite Hs2|done].
Qed.
Lemma wp_then {A B C} (m : M A) (k : A -> M B) (f : B -> M C) (s : state) (Q : C -> state -> Prop) :
  wp m s (fun x s1 => wp (k x) s1 (fun y s2 => wp (f y) s2 Q)) ->
  wp (bind m (fun x => bind (k x) f)) s Q.
Proof.
  intros H. apply wp_bind. eapply wp_mono; [exact H|]. intros x s1. apply wp_bind.
Qed.

Lemma wp_md_dimension (k d b size : Z) (s : state) (Q : Value -> state -> Prop) :
  wf s -> has s Array (RInt a) -> dims !! Z.to_nat k = Some (d, b) -> 0 <= k ->
  (stop s = None -> md_object a dims size) ->
  (forall v s', IRBuilder.getType v = IntegerTy 32 -> wf s' -> ext s s' -> stop s' = stop s ->
     has s' v (RInt d) -> Q v s') ->
  wp (mdArrayGetDimensionLength native Array (ConstantInt 32 k)) s Q.
Proof.
  intros Hw HA Hk Hk0 Hlive HQ. unfold mdArrayGetDimensionLength, DimensionLengthsIndex.
  destruct md_offsets as (H3 & _ & _). apply wp_bind.
  assert (Hlt : (Z.to_nat k < length dims)%nat) by by eapply lookup_lt_Some.
  apply (wp_md_slot 3 k d size); [done|done|by left|lia| |done].
  intros Hs. specialize (Hlive Hs). split; [done|]. rewrite H3.
  destruct (md_dimension _ _ _ Hlive _ _ _ Hk) as (_ & _ & _ & Hl & _).
  by rewrite Z2Nat.id in Hl.
Qed.

Lemma wp_md_lower_bound (k d b size : Z) (s : state) (Q : Value -> state -> Prop) :
  wf s -> has s Array (RInt a) -> dims !! Z.to_nat k = Some (d, b) -> 0 <= k ->
  (stop s = None -> md_object a dims size) ->
  (forall v s', IRBuilder.getType v = IntegerTy 32 -> wf s' -> ext s s' -> stop s' = stop s ->
     has s' v (RInt (wrap 32 b)) -> Q v s') ->
  wp (CreateInBoundsGEP Array [ConstantInt 32 0; ConstantInt 32 4; ConstantInt 32 k]) s
    (fun A s1 => wp (makeLoad A false false (NaturalAlignment native)) s1 Q).
Proof.
  intros Hw HA Hk Hk0 Hlive HQ. destruct md_offsets as (_ & H4 & _).
  assert (Hlt : (Z.to_nat k < length dims)%nat) by by eapply lookup_lt_Some.
  apply (wp_md_slot 4 k (wrap 32 b) size); [done|done|by right|lia| |done].
  intros Hs. specialize (Hlive Hs). split; [done|]. rewrite H4, Hrank.
  destruct (md_dimension _ _ _ Hlive _ _ _ Hk) as (_ & _ & _ & _ & Hl).
  by rewrite Z2Nat.id in Hl.
Qed.

(** An operation on two 32-bit values. *)
Lemma wp_int_binop (Op : BinaryOps) (A B : Value) (x y z : Z) (s : state)
    (Q : Value -> state -> Prop) :
  wf s -> IRBuilder.getType A = IntegerTy 32 -> has s A (RInt x) -> has s B (RInt y) ->
  int_binop_spec Op 32 x y = Some z ->
  (forall v s', IRBuilder.getType v = IntegerTy 32 -> wf s' -> ext s s' -> stop s' = stop s ->
     has s' v (RInt z) -> Q v s') ->
  wp (emit (CreateBinOp Op A B) (IntegerTy 32)) s Q.
Proof.
  intros Hw HT HA HB Hz HQ. apply wp_emit with (r := RInt z); [done| |done].
  intros Hs. cbn [exec_instr]. unfold is_fp. rewrite HT. cbn.
  rewrite (has_int _ _ _ _ HA Hs), (has_int _ _ _ _ HB Hs). cbn [mbind option_bind].
  rewrite int_binop_law. cbn in Hz. by rewrite Hz.
Qed.

(** The indices of the stack, and the offset that has accumulated. *)
Definition holds_index (s : state) (v : Value) (x : Z) : Prop :=
  IRBuilder.getType v = IntegerTy 32 /\ has s v (RInt (wrap 32 x)) /\ in_signed 32 x = true.

Definition holds_offset (s : state) (Offset : option Value) (acc : Z) : Prop :=
  match Offset with
  | None => acc = 0
  | Some v => IRBuilder.getType v = IntegerTy 32 /\ has s v (RInt (wrap 32 acc))
  end.

Lemma holds_index_ext (s s' : state) (v : Value) (x : Z) :
  ext s s' -> holds_index s v x -> holds_index s' v x.
Proof. intros He (HT & Hv & Hx). split; [done|]. split; [held|done]. Qed.

Lemma wp_md_element_offset (size : Z) (Indices : list Value) (xs : list Z)
    (before rest : list dimension) (Offset : option Value) (acc : Z) (s : state)
    (Q : option Value -> state -> Prop) :
  wf s -> has s Array (RInt a) -> (stop s = None -> md_object a dims size) ->
  dims = before ++ rest -> length rest = length xs -> Forall2 (holds_index s) Indices xs ->
  holds_offset s Offset acc ->
  (forall O' s', wf s' -> ext s s' ->
     stop s' = check (bool_decide (is_Some (row_major rest xs acc))) CORINFO_HELP_RNGCHKFAIL
                 (stop s) ->
     (Offset <> None \/ xs <> [] -> O' <> None) ->
     (forall o, row_major rest xs acc = Some o -> holds_offset s' O' o) -> Q O' s') ->
  wp (md_element_offset native Array 4 (Z.of_nat (length before)) Indices Offset) s Q.
Proof.
  revert xs before rest Offset acc s Q. induction Indices as [|Index Indices IH];
    intros xs before rest Offset acc s Q Hw HA Hlive Hdims Hlen HI HO HQ.
  - apply Forall2_nil_inv_l in HI as ->. destruct rest; [|done]. apply wp_ret, HQ.
    + done.
    + done.
    + by destruct (stop s).
    + naive_solver.
    + by intros o [= <-].
  - apply Forall2_cons_inv_l in HI as (x & xs' & (HIT & HIx & Hx) & HI & ->).
    destruct rest as [|[d b] rest]; [done|]. cbn [md_element_offset].
    assert (Hk : dims !! Z.to_nat (Z.of_nat (length before)) = Some (d, b)).
    { rewrite Nat2Z.id, Hdims. by apply list_lookup_middle. }
    unfold convertFromStackType at 1. rewrite HIT. cbn [GenIR.size mbind].
    apply wp_bind, wp_bind, wp_ret. cbn [Z.ltb Z.compare Pos.compare Pos.compare_cont].
    apply wp_ret, wp_then, (wp_md_lower_bound _ d b size); [done|done|done|lia|done|].
    intros LB s1 HLT Hw1 He1 Hs1 HLB. apply wp_bind.
    apply (wp_int_binop ISub Index LB (wrap 32 x) (wrap 32 b)
      (wrap 32 (wrap 32 x - wrap 32 b))); [done|done|held|done|done|].
    intros Idx s2 HXT Hw2 He2 Hs2 HX. rewrite wrap_sub in HX. apply wp_bind.
    apply (wp_md_dimension _ d b size); [done|held|done|lia| |].
    { intros Hs. apply Hlive. by rewrite <- Hs1, <- Hs2. }
    intros Dim s3 HDT Hw3 He3 Hs3 HD. apply wp_bind.
    apply (wp_bounds_check Dim Idx d (wrap 32 (x - b)) 32 32); [done|done|done|done| |done|held|].
    { apply wrap_range; lia. }
    intros s4 Hw4 He4 Hs4. rewrite Hs3, Hs2, Hs1 in Hs4.
    assert (Hcheck : stop s4 = check ((b <=? x) && (x <? b + d)) CORINFO_HELP_RNGCHKFAIL (stop s)).
    { rewrite Hs4. destruct (stop s) as [o|]; [done|].
      destruct (md_dimension _ _ _ (Hlive eq_refl) _ _ _ Hk) as (Hd0 & Hb & Hbd & _).
      destruct (index_check d b x Hx Hb Hd0 Hbd) as [Hc _]. by rewrite wrap_sub in Hc; rewrite Hc. }
    assert (Hnext : forall v s5, wf s5 -> ext s4 s5 -> stop s5 = stop s4 ->
      holds_offset s5 (Some v) (acc * d + (x - b)) ->
      wp (md_element_offset native Array 4 (Z.of_nat (length before) + 1) Indices (Some v)) s5 Q).
    { intros v s5 Hw5 He5 Hs5 Hv.
      replace (Z.of_nat (length before) + 1) with (Z.of_nat (length (before ++ [(d, b)])))
        by (rewrite length_app; simpl; lia).
      apply (IH xs' (before ++ [(d, b)]) rest (Some v) (acc * d + (x - b))); try done.
      - held.
      - intros Hs. rewrite Hs5, Hcheck in Hs. apply check_None in Hs as [_ Hs]. by apply Hlive.
      - by rewrite <- app_assoc.
      - by injection Hlen.
      - eapply Forall2_impl; [exact HI|]. intros i y. apply holds_index_ext. reach.
      - intros O' s6 Hw6 He6 Hs6 Hsome Hval. apply HQ; [done|reach| | |].
        + rewrite Hs6, Hs5, Hcheck. cbn [row_major]. by destruct ((b <=? x) && (x <? b + d)), (stop s).
        + intros _. apply Hsome. by left.
        + cbn [row_major]. destruct ((b <=? x) && (x <? b + d)); [exact Hval|done]. }
    apply wp_bind. destruct Offset as [Offset|]; cbn [holds_offset] in HO.
    + destruct HO as [HOT HO]. apply wp_bind.
      apply (wp_int_binop IMul Offset Dim (wrap 32 acc) d (wrap 32 (wrap 32 acc * d)));
        [done|done|held|held|done|].
      intros M1 s5 HMT Hw5 He5 Hs5 HM.
      apply (wp_int_binop IAdd M1 Idx (wrap 32 (wrap 32 acc * d)) (wrap 32 (x - b))
               (wrap 32 (acc * d + (x - b)))); [done|done|done|held| |].
      { cbn [int_binop_spec]. f_equal. rewrite <- (wrap_mul 32 (wrap 32 acc)), wrap_idemp, wrap_mul.
        by rewrite wrap_add. }
      intros v s6 HvT Hw6 He6 Hs6 Hv. apply Hnext; [done|reach|by rewrite Hs6|done].
    + subst acc. apply wp_ret, Hnext; [done|done|done|]. split; [done|].
      rewrite Z.mul_0_l, Z.add_0_l. held.
Qed.
Lemma pop_operands_app (l Stack Popped : list Value) :
  pop_operands (length l) (reverse l ++ Stack) Popped = Some (l ++ Popped, Stack).
Proof.
  revert Popped. induction l as [|v l IH] using rev_ind; intros Popped; [done|].
  rewrite length_app, reverse_app. simpl. rewrite Nat.add_1_r. simpl.
  rewrite IH, <- app_assoc. done.
Qed.

Lemma wp_mdArrayRefAddr (size : Z) (Indices Stack : list Value) (xs : list Z) (s : state)
    (Q : Value * list Value -> state -> Prop) :
  wf s -> has s Array (RInt a) -> size = alloc_size native E -> isStructTy E = false ->
  (a <> 0 -> md_object a dims size) -> dims <> [] -> length dims = length xs ->
  Forall2 (holds_index s) Indices xs ->
  (forall v s', wf s' ->
     stop s' = check (bool_decide (is_Some (row_major dims xs 0))) CORINFO_HELP_RNGCHKFAIL
                 (check (negb (a =? 0)) CORINFO_HELP_THROWNULLREF (stop s)) ->
     (forall o, row_major dims xs 0 = Some o -> has s' v (RInt (a + (16 + 8 * rank + o * size)))) ->
     Q (v, Stack) s') ->
  wp (mdArrayRefAddr native (length dims) E (reverse Indices ++ Array :: Stack)) s Q.
Proof.
  intros Hw HA Hsize HE Hobj Hne Hlen HI HQ. unfold mdArrayRefAddr.
  assert (Hlen' : length dims = length Indices) by by rewrite (Forall2_length _ _ _ HI).
  apply wp_bind. eapply wp_lift; [rewrite Hlen'; apply pop_operands_app|].
  apply wp_bind, wp_ret, wp_bind, wp_ret, wp_bind, wp_assert; [by rewrite HE|].
  apply wp_bind, (wp_null_check Array a); [done..|]. intros s1 Hw1 He1 Hs1.
  assert (Hlive : stop s1 = None -> md_object a dims size).
  { intros Hs. rewrite Hs1 in Hs. apply check_None in Hs as [Hs _].
    by apply Hobj, Z.eqb_neq, negb_true_iff. }
  rewrite HArray. cbn [struct_fields]. rewrite (elements_agree id), Hfields.
  apply wp_bind, wp_ret, wp_bind. rewrite app_nil_r.
  apply (wp_md_element_offset size Indices xs [] dims None 0); [done|held|done|done|done| |done|].
  { eapply Forall2_impl; [exact HI|]. intros i y. by apply holds_index_ext. }
  intros O' s2 Hw2 He2 Hs2 Hsome Hval. apply wp_bind.
  destruct O' as [v|]; [|destruct Hsome; [right|done]; by destruct xs, dims].
  apply wp_ret, wp_bind. cbn [holds_offset] in Hval.
  destruct (row_major dims xs 0) as [o|] eqn:Ho.
  - destruct (Hval o eq_refl) as [HvT Hv].
    destruct (md_field 5 (ArrayTy E 0) [v] [swrap 32 (wrap 32 o)]) as [HT HG]; [done|done|].
    apply (wp_gep (or_intror eq_refl) Array _ [0; 5; swrap 32 (wrap 32 o)] (StructTy id) E
      ManagedAddressSpace a (16 + 8 * rank + o * size));
      [done|exact HArray|held|exact HT| | |].
    { constructor; [by apply has_ConstantInt|]. constructor; [by apply has_ConstantInt|].
      constructor; [|constructor]. exists (wrap 32 o). by rewrite HvT. }
    { intros Hs. rewrite Hs2 in Hs. apply check_None in Hs as [_ Hs].
      specialize (Hlive Hs). destruct md_offsets as (_ & _ & H5).
      assert (Hd : Forall (fun p => 0 <= p.1) dims).
      { apply Forall_lookup_2. intros i [d b] Hi. by apply (md_dimension _ _ _ Hlive i d b). }
      pose proof (row_major_bound dims xs 0 o Hd Ho) as Hb.
      pose proof (md_count _ _ _ Hlive). pose proof (md_element _ _ _ Hlive).
      assert (swrap 32 (wrap 32 o) = o) as Hsw.
      { rewrite swrap_wrap_le by lia. apply swrap_small; lia. }
      rewrite HG, H5, Hsw. split; [simpl; f_equal; rewrite Hsize; lia|].
      apply (md_inside _ size); [done|]. unfold md_size.
      assert (0 <= o * size <= elements_of dims * size); [|lia].
      split; [apply Z.mul_nonneg_nonneg; lia|apply Z.mul_le_mono_nonneg_r; lia]. }
    intros w s3 HwT Hw3 He3 Hs3 Hwv. apply wp_ret, HQ; [done|by rewrite Hs3, Hs2, Hs1|].
    by intros ? [= <-].
  - assert (Hdead : stop s2 <> None).
    { rewrite Hs2. by destruct (stop s1). }
    destruct (md_field 5 (ArrayTy E 0) [v] [0]) as [HT _]; [done|done|].
    unfold CreateInBoundsGEP. rewrite HArray. apply wp_bind, wp_ret, wp_bind.
    eapply wp_lift; [exact HT|]. apply wp_emit with (r := RInt 0); [done|done|].
    intros w s3 HwT Hw3 He3 Hs3 Hwv. apply wp_ret, HQ; [done|by rewrite Hs3, Hs2, Hs1|done].
Qed.

End md.

(** The indices as arguments behind the array. *)
Definition index_arguments (n : nat) : list Value :=
  (fun k => MkValue (Arg (1 + k)) (IntegerTy 32)) <$> seq 0 n.

Lemma index_arguments_hold {L : LLVM} (r : RVal FP) (xs : list Z) :
  Forall (fun x => in_signed 32 x = true) xs ->
  Forall2 (holds_index (args := r :: ((fun x => RInt (wrap 32 x)) <$> xs)) start)
    (index_arguments (length xs)) xs.
Proof.
  intros Hx. apply Forall2_same_length_lookup_2.
  { unfold index_arguments. by rewrite length_fmap, length_seq. }
  intros k v x Hv Hk. unfold index_arguments in Hv.
  apply list_lookup_fmap_Some in Hv as (j & -> & Hj). apply lookup_seq in Hj as [-> _].
  split; [done|]. split; [|by eapply Forall_lookup_1 in Hx].
  apply has_arg. simpl. by rewrite list_lookup_fmap, Hk.
Qed.

(** On a target that insists on the alignment that a load promises, no array of
    two dimensions or more is such an object: the length of the second dimension
    is 4 bytes behind that of the first. *)
Lemma md_promise_broken {L : LLVM} (a : Z) (dims : list dimension) (size : Z) :
  misaligned_ok = false -> (2 <= length dims)%nat -> ~ md_object a dims size.
Proof.
  intros Hstrict Hn Ho.
  assert (HA : forall k, (k < length dims)%nat -> (a + (16 + 4 * Z.of_nat k)) mod 8 = 0).
  { intros k Hk. apply lookup_lt_is_Some_2 in Hk as [[d b] Hk].
    destruct (md_dimension _ _ _ Ho _ _ _ Hk) as (_ & _ & _ & [HA _] & _).
    unfold access_defined, promise_kept, NaturalAlignment, convertReaderAlignment in HA.
    rewrite Hstrict, orb_false_r in HA. by apply Z.eqb_eq in HA. }
  pose proof (HA 0%nat ltac:(lia)). pose proof (HA 1%nat ltac:(lia)). Z.div_mod_to_equations. lia.
Qed.

(** C22: On 64-bit targets mdArrayRefAddr implements the row-major addressing
    of multi-dimensional arrays with lower bounds, for elements that are no
    structures: it takes the array and its indices off the stack, and the
    emitted code throws NullReferenceException for a null array,
    IndexOutOfRangeException as soon as one index lies outside its dimension,
    and gives the address of the element otherwise.  No overflow of the 32-bit
    computation reaches the address, whatever the indices are.  The loads of
    the lengths and lower bounds promise the alignment of a pointer, which every
    second of these words has not: the theorem supposes that the target does
    them all the same, as x86-64 does (md_promise_broken shows that it has to). *)
Theorem md_array_element {L : LLVM} (LS : LLVMLaws L) (RT : ReaderTypes)
    (OK : ReaderTypesOk L RT 64) (id : Z) (Vtable E : Ty) (a : Z) (dims : list dimension)
    (xs : list Z) (Stack : list Value)
    (Hpacked : struct_packed id = true)
    (Hfields : struct_elements id = md_fields Vtable E (Z.of_nat (length dims)))
    (Hrank : Z.of_nat (length dims) < 2 ^ 31) (Hne : dims <> [])
    (HE : isStructTy E = false) (Hlen : length dims = length xs)
    (Hxs : Forall (fun x => in_signed 32 x = true) xs)
    (Hobj : a <> 0 -> md_object a dims (alloc_size 64 E)) :
  let Array := MkValue (Arg 0) (PointerTy (StructTy id) ManagedAddressSpace) in
  let Operands := reverse (index_arguments (length xs)) ++ Array :: Stack in
  let args := RInt a :: ((fun x => RInt (wrap 32 x)) <$> xs) in
  (exists new v, mdArrayRefAddr 64 (length dims) E Operands [] = Some (new, (v, Stack))) /\
  run 64 args (let* (v, Rest) := mdArrayRefAddr 64 (length dims) E Operands in ret v)%emit =
  Some (if a =? 0 then Throws CORINFO_HELP_THROWNULLREF
        else match row_major dims xs 0 with
             | Some o =>
                 Returns (RInt (a + (16 + 8 * Z.of_nat (length dims) + o * alloc_size 64 E)))
             | None => Throws CORINFO_HELP_RNGCHKFAIL
             end).
Proof.
  intros Array Operands args. set (size := alloc_size 64 E) in *.
  set (off := match row_major dims xs 0 with Some o => o | None => 0 end).
  set (outcome := check (bool_decide (is_Some (row_major dims xs 0))) CORINFO_HELP_RNGCHKFAIL
                    (check (negb (a =? 0)) CORINFO_HELP_THROWNULLREF None)).
  assert (HW : forall Q : Value * list Value -> state -> Prop,
    (forall v s', stop s' = outcome ->
       has args s' v (RInt (a + (16 + 8 * Z.of_nat (length dims) + off * size))) ->
       Q (v, Stack) s') ->
    wp 64 args (mdArrayRefAddr 64 (length dims) E Operands) start Q).
  { intros Q HQ. apply (wp_mdArrayRefAddr OK id (Z.of_nat (length dims)) Vtable E Hpacked Hfields
      Array a dims eq_refl eq_refl Hrank size (index_arguments (length xs)) Stack xs); try done.
    - apply wf_start.
    - by apply index_arguments_hold.
    - intros v s' _ Hs Hv. apply HQ; [done|]. unfold off.
      destruct (row_major dims xs 0) as [o|] eqn:Ho; [by apply Hv|].
      intros Hstop. rewrite Hs in Hstop. by destruct (a =? 0). }
  split.
  - destruct (HW (fun p _ => p.2 = Stack)) as (new & [v st] & Hrun & Hst); [done|].
    simpl in Hst. subst st. by exists new, v.
  - rewrite (run_wp 64 args _ outcome
      (RInt (a + (16 + 8 * Z.of_nat (length dims) + off * size)))).
    + unfold outcome, off. by destruct (a =? 0), (row_major dims xs 0).
    + apply wp_bind, HW. intros v s' Hs Hv. by apply wp_ret.
Qed.

(** A 2 by 3 array of 32-bit integers with the lower bounds 5 and 0 at address
    1000. *)
Definition matrix_structure (id : Z) : list Ty :=
  if id =? 0 then md_fields (IntegerTy 8) (IntegerTy 32) 2 else vector_of 64 id.

Definition MatrixReader : ReaderTypes := {|
  StructElements := matrix_structure;
  StructSize := fun _ => 32;
  ElementOffset := fun _ i => 8 * Z.of_nat i;
  getArrayOfElementType := fun E => PointerTy (StructTy (Zpos (encode E))) ManagedAddressSpace;
  getBuiltInObjectType := PointerTy (IntegerTy 8) ManagedAddressSpace;
  getBuiltInStringType := PointerTy (IntegerTy 8) ManagedAddressSpace;
  isLayoutIdentical := fun _ _ => false
|}.

Definition matrix_memory : LLVM :=
  DemoMemory matrix_structure
    (fun _ p => if p =? 1016 then Some (RInt 2) else if p =? 1020 then Some (RInt 3) else
                if p =? 1024 then Some (RInt 5) else if p =? 1028 then Some (RInt 0) else None)
    (fun a n => (a =? 1000) && (n =? 56)).

Lemma md_array_element_witness :
  let Array := MkValue (Arg 0) (PointerTy (StructTy 0) ManagedAddressSpace) in
  let Operands := reverse (index_arguments 2) ++ [Array] in
  (exists new v, mdArrayRefAddr (H := MatrixReader) 64 2 (IntegerTy 32) Operands [] =
     Some (new, (v, []))) /\
  run (L := matrix_memory) 64 [RInt 1000; RInt 6; RInt 2]
    (let* (v, Rest) := mdArrayRefAddr (H := MatrixReader) 64 2 (IntegerTy 32) Operands in ret v)%emit
  = Some (Returns (RInt 1052)).
Proof.
  assert (OK : ReaderTypesOk matrix_memory MatrixReader 64).
  { destruct (VectorReader_ok 64 (fun _ _ => None) (fun _ _ => false)) as [_ H1 H2]. split.
    - done.
    - intros E. destruct (H1 E) as (id & V & Hg & Hp & He). injection Hg as <-.
      by exists (Zpos (encode E)), V.
    - intros id E. simpl. unfold matrix_structure. destruct (id =? 0); [done|]. apply H2. }
  refine (md_array_element (L := matrix_memory) (DemoMemory_laws _ _ _) MatrixReader OK 0
    (IntegerTy 8) (IntegerTy 32) 1000 [(2, 5); (3, 0)] [6; 2] [] _ _ _ _ _ _ _ _); try done.
  - by repeat constructor.
  - intros _. split; try done. intros [|[|k]] d b Hk; try done; by injection Hk as <- <-.
Defined.
