(* ===== verification/Objects.v ===== *)
(** * Objects in memory (lib/Reader/reader.cpp, readerir.cpp)

    Indirect loads and stores, structures and their copies, and the write
    barriers.  The theorem about [copyStruct] is in [StructCopy]. *)

From S2P Require Import Prelude Opcodes IRBuilder GenIRTypes Conv Arith IRLogic Memory.
Import ReaderBaseNS.

(** What these functions ask of the runtime about classes and fields. *)
Class ObjectRuntime := {
  isValueClass : Z -> bool;            (* [CORINFO_FLG_VALUECLASS] *)
  asCorInfoType : Z -> GenIR.CorInfoType;
  getClassSize : Z -> Z;
  getClassAlignmentRequirement : Z -> Z;
  getClassGClayout : Z -> list Z;      (* one byte for every pointer-sized slot *)
  getFieldType : Z -> GenIR.CorInfoType * Z;
  getTypeOfClass : GenIR.CorInfoType -> option Z -> option Ty;
  SystemObjectClass : Z
}.

(** A resolved token: the class and the field it names. *)
Record ResolvedToken := MkToken { hClass : Z; hField : option Z }.

Module Objects.
Import GenIR Arith Memory.
#[local] Open Scope emit_scope.

(** [CorInfoGCType]. *)
Definition TYPE_GC_NONE : Z := 0.

(** [Reader_AlignNatural]. *)
Definition AlignNatural : Z := 255.

Section objects.
Variable TargetPointerSizeInBits : Z.
Context `{ReaderTypes} `{ObjectRuntime}.

#[local] Notation NativeIntTy := (NativeIntTy TargetPointerSizeInBits).
#[local] Notation convertToStackType := (convertToStackType TargetPointerSizeInBits).
#[local] Notation binaryOp := (binaryOp TargetPointerSizeInBits).
#[local] Notation PointerSize := (getPointerByteSize TargetPointerSizeInBits).

(** A value with what the reader has recorded of it: whether it represents a
    structure ([doesValueRepresentStruct]). *)
Definition Operand : Type := Value * bool.

(** [isPrimitiveType]: from [CORINFO_TYPE_BOOL] to [CORINFO_TYPE_DOUBLE]. *)
Definition isPrimitiveType (C : CorInfoType) : bool :=
  match C with
  | CORINFO_TYPE_UNDEF | CORINFO_TYPE_VOID | CORINFO_TYPE_PTR | CORINFO_TYPE_BYREF
  | CORINFO_TYPE_VALUECLASS | CORINFO_TYPE_CLASS | CORINFO_TYPE_REFANY | CORINFO_TYPE_STRING
  | CORINFO_TYPE_VAR => false
  | _ => true
  end.

(** ** The layout of references *)

(** [getClassGCLayout]: no layout for a class without references. *)
Definition is_reference (b : Z) : bool := negb (b =? TYPE_GC_NONE).

Definition getClassGCLayout (Class : Z) : option (list Z) :=
  let GCPointers := getClassGClayout Class in
  if existsb is_reference GCPointers then Some GCPointers else None.

Definition classHasGCPointers (Class : Z) : bool := bool_decide (is_Some (getClassGCLayout Class)).

Definition getMinimumClassAlignment (Class Alignment : Z) : Z :=
  let AlignRequired := u8 (getClassAlignmentRequirement Class) in
  let Alignment :=
    if negb (AlignRequired =? 0) && ((Alignment =? AlignNatural) || (AlignRequired <? Alignment))
    then AlignRequired else Alignment in
  if classHasGCPointers Class then AlignNatural else Alignment.

(** ** Blocks *)

Definition cpBlk (Count SrcAddr DestAddr : Value) (IsVolatile : bool) : M unit :=
  callHelper CORINFO_HELP_MEMCPY None [DestAddr; SrcAddr; Count] IsVolatile ;* ret tt.

Definition initBlk (Count Val DestAddr : Value) (IsVolatile : bool) : M unit :=
  callHelper CORINFO_HELP_MEMSET None [DestAddr; Val; Count] IsVolatile ;* ret tt.

Definition initObj (Token : ResolvedToken) (ObjectAddr : Value) : M unit :=
  initBlk (loadConstantI4 (getClassSize (hClass Token))) (loadConstantI4 0) ObjectAddr false.

Definition createTemporary (T : Ty) : M Value := emit (CreateAlloca T) (PointerTy T 0).

(** [addressOfValue]. *)
Definition addressOfValue (Leaf : Operand) : M Value :=
  let '(Leaf, RepresentsStruct) := Leaf in
  let LeafTy := IRBuilder.getType Leaf in
  match LeafTy with
  | IntegerTy _ | FloatTy | DoubleTy | VectorTy _ _ =>
      let* Alloc := createTemporary LeafTy in
      emit (CreateStore Leaf Alloc false None) VoidTy ;* ret Alloc
  | PointerTy _ _ =>
      assert RepresentsStruct ;*
      let* Alloc := createTemporary LeafTy in
      emit (CreateStore Leaf Alloc false None) VoidTy ;*
      emit (CreateLoad Alloc LeafTy false None) LeafTy
  | _ => fail
  end.

(** [copyStructNoBarrier]. *)
Definition copyStructNoBarrier (StructId : Z) (DestinationAddress SourceAddress : Value)
    (IsVolatile : bool) : M unit :=
  cpBlk (loadConstantI4 (StructSize StructId)) SourceAddress DestinationAddress IsVolatile.

(** ** Copies with write barriers *)

(** [getElementContainingOffset]: the last element that starts at or before
    the offset. *)
Fixpoint element_containing (id : Z) (Offset : Z) (n : nat) : nat :=
  match n with
  | O => O
  | S n' => if ElementOffset id n' <=? Offset then n' else element_containing id Offset n'
  end.

(** The descent into nested structures to the reference at an offset, with the
    depth of the nesting as fuel. *)
Fixpoint gc_element_type (fuel : nat) (T : Ty) (Offset : Z) : option Ty :=
  match fuel, T with
  | S fuel, StructTy id =>
      let ElementIndex := element_containing id Offset (length (StructElements id)) in
      E ← StructElements id !! ElementIndex;
      if isGcPointer E then Some E
      else gc_element_type fuel E (u32 (Offset - ElementOffset id ElementIndex))
  | _, _ => None
  end.

(** The two addresses at an offset. *)
Definition both_at (Src Dst : Value) (Offset : Z) : M (Value * Value) :=
  let* SrcAddr := binaryOp Add Src (loadConstantI4 Offset) in
  let* DstAddr := binaryOp Add Dst (loadConstantI4 Offset) in
  ret (SrcAddr, DstAddr).

(** A block between two references, or behind the last one. *)
Definition copy_block (Src Dst : Value) (From To : Z) (IsVolatile : bool) : M unit :=
  let* (NonGCSrcAddr, NonGCDstAddr) := both_at Src Dst From in
  cpBlk (loadConstantI4 (To - From)) NonGCSrcAddr NonGCDstAddr IsVolatile.

(** One reference, with a write barrier. *)
Definition copy_reference (fuel : nat) (StructId : Z) (Src Dst : Value) (CurrentOffset : Z)
    (IsVolatile IsUnchecked : bool) : M unit :=
  let* (GCSrcAddr, GCDstAddr) := both_at Src Dst CurrentOffset in
  let* ElementType := lift (gc_element_type fuel (StructTy StructId) CurrentOffset) in
  let* AddressSpace := lift (getPointerAddressSpace (IRBuilder.getType GCSrcAddr)) in
  let ElementTypePointer := PointerTy ElementType AddressSpace in
  let* GCSrcAddr := emit (CreatePointerCast GCSrcAddr ElementTypePointer) ElementTypePointer in
  let* GCSrc := makeLoad GCSrcAddr IsVolatile false None in
  callHelper (if IsUnchecked then CORINFO_HELP_ASSIGN_REF else CORINFO_HELP_CHECKED_ASSIGN_REF)
    None [GCDstAddr; GCSrc] IsVolatile ;*
  ret tt.

(** The loop over the slots from [I] on; the result is
    [OffsetAfterLastGCPointer]. *)
Fixpoint copy_slots (fuel : nat) (StructId : Z) (Src Dst : Value) (IsVolatile IsUnchecked : bool)
    (GCPointers : list Z) (CurrentOffset OffsetAfterLastGCPointer : Z) : M Z :=
  if StructSize StructId <=? CurrentOffset then ret OffsetAfterLastGCPointer
  else
    match GCPointers with
    | [] => fail
    | Slot :: GCPointers =>
        let* After :=
          if is_reference Slot then
            (if negb (CurrentOffset =? OffsetAfterLastGCPointer)
             then copy_block Src Dst OffsetAfterLastGCPointer CurrentOffset IsVolatile
             else ret tt) ;*
            copy_reference fuel StructId Src Dst CurrentOffset IsVolatile IsUnchecked ;*
            ret (CurrentOffset + PointerSize)
          else ret OffsetAfterLastGCPointer in
        copy_slots fuel StructId Src Dst IsVolatile IsUnchecked GCPointers
          (CurrentOffset + PointerSize) After
    end.

Definition copyStruct (fuel : nat) (Class : Z) (Dst Src : Value) (IsVolatile IsUnchecked : bool) :
    M unit :=
  match getClassGCLayout Class with
  | Some GCPointers =>
      let* T := lift (getTypeOfClass CORINFO_TYPE_VALUECLASS (Some Class)) in
      let* StructId := lift (match T with StructTy id => Some id | _ => None end) in
      let* After :=
        copy_slots fuel StructId Src Dst IsVolatile IsUnchecked GCPointers 0 0 in
      if After <? StructSize StructId
      then copy_block Src Dst After (StructSize StructId) IsVolatile
      else ret tt
  | None => cpBlk (loadConstantI4 (getClassSize Class)) Src Dst IsVolatile
  end.

(** [rdrCallWriteBarrierHelper]. *)
Definition rdrCallWriteBarrierHelper (fuel : nat) (Dst : Value) (Src : Operand)
    (IsVolatile : bool) (Token : option ResolvedToken)
    (IsNotValueClass IsValueIsPointer IsFieldToken IsUnchecked : bool) : M unit :=
  if IsNotValueClass then
    callHelper (if IsUnchecked then CORINFO_HELP_ASSIGN_REF else CORINFO_HELP_CHECKED_ASSIGN_REF)
      None [Dst; Src.1] IsVolatile ;*
    ret tt
  else
    let* Source := if IsValueIsPointer then ret Src.1 else addressOfValue Src in
    let* Token := lift Token in
    let* Class :=
      if IsFieldToken then let* Field := lift (hField Token) in ret (getFieldType Field).2
      else ret (hClass Token) in
    copyStruct fuel Class Dst Source IsVolatile IsUnchecked.

(** ** Typed addresses *)

(** [getTypedAddress], with the alignment it gives the access.  The exception
    for an unexpected type is a failure here. *)
Definition getTypedAddress (Addr : Value) (CorType : CorInfoType) (Class : option Z)
    (Alignment : Z) : M (Value * Z) :=
  let AddressTy := IRBuilder.getType Addr in
  let Align := convertReaderAlignment TargetPointerSizeInBits in
  match CorType with
  | CORINFO_TYPE_REFANY =>
      match AddressTy with
      | PointerTy ReferentTy _ =>
          (if isStructTy ReferentTy then
             let* ExpectedTy := lift (getTypeOfClass CorType Class) in
             assert (bool_decide (ReferentTy = ExpectedTy))
           else
             let* E := lift (getPointerElementType ReferentTy) in
             assert (isGcPointer ReferentTy && isStructTy E)) ;*
          ret (Addr, Align AlignNatural)
      | _ =>
          assert (bool_decide (AddressTy = NativeIntTy)) ;*
          let T := getUnmanagedPointerType getBuiltInObjectType in
          let* TypedAddr := emit (CreateIntToPtr Addr T) T in
          ret (TypedAddr, Align AlignNatural)
      end
  | _ =>
      let* ExpectedTy := lift (getTypeOfClass CorType Class) in
      let* TypedAddr :=
        match AddressTy with
        | PointerTy ReferentTy A =>
            if bool_decide (ReferentTy = ExpectedTy) then ret Addr
            else
              let T := if A =? ManagedAddressSpace then getManagedPointerType ExpectedTy
                       else getUnmanagedPointerType ExpectedTy in
              emit (CreatePointerCast Addr T) T
        | _ =>
            assert (isIntegerTy AddressTy) ;*
            let T := getUnmanagedPointerType ExpectedTy in
            emit (CreateIntToPtr Addr T) T
        end in
      ret (TypedAddr, Align Alignment)
  end.

Definition loadPrimitiveType (Addr : Value) (CorType : CorInfoType) (Alignment : Z)
    (IsVolatile AddressMayBeNull : bool) : M Value :=
  let NeedsCoercion :=
    bool_decide (CorType = CORINFO_TYPE_REFANY) &&
    match IRBuilder.getType Addr with
    | PointerTy ReferentTy _ => negb (isGcPointer ReferentTy)
    | _ => true
    end in
  let CorType := if NeedsCoercion then CORINFO_TYPE_CLASS else CorType in
  let Class := if NeedsCoercion then Some SystemObjectClass else None in
  let* (TypedAddr, Align) := getTypedAddress Addr CorType Class Alignment in
  let* Load := makeLoad TypedAddr IsVolatile AddressMayBeNull (Some Align) in
  convertToStackType Load CorType.

Definition storePrimitiveType (Val : Value) (Addr : Value) (CorType : CorInfoType) (Alignment : Z)
    (IsVolatile AddressMayBeNull : bool) : M unit :=
  assert (isPrimitiveType CorType) ;*
  let* (TypedAddr, Align) := getTypedAddress Addr CorType None Alignment in
  let* ExpectedTy := lift (getPointerElementType (IRBuilder.getType TypedAddr)) in
  let* (ValueToStore, RepresentsStruct) :=
    convertFromStackType TargetPointerSizeInBits isLayoutIdentical Val false CorType ExpectedTy in
  makeStore ValueToStore TypedAddr IsVolatile AddressMayBeNull (Some Align).

(** [loadNonPrimitiveObj] at a structure type: a copy in a temporary. *)
Definition loadStruct (StructId : Z) (Address : Value) (IsVolatile AddressMayBeNull : bool) :
    M Operand :=
  let* Address :=
    if AddressMayBeNull && UseExplicitNullChecks then genNullCheck Address else ret Address in
  let* Copy := createTemporary (StructTy StructId) in
  copyStructNoBarrier StructId Copy Address IsVolatile ;*
  ret (Copy, true).

(** [loadNonPrimitiveObj] for a class; a vector is loaded from the address as
    it came. *)
Definition loadNonPrimitiveObj (Addr : Value) (Class Alignment : Z)
    (IsVolatile AddressMayBeNull : bool) : M Operand :=
  let CorType := asCorInfoType Class in
  let* (TypedAddr, Align) := getTypedAddress Addr CorType (Some Class) Alignment in
  let* T := lift (getTypeOfClass CorType (Some Class)) in
  if isVectorTy T then
    let* Load := makeLoad Addr IsVolatile AddressMayBeNull None in ret (Load, false)
  else
    let* StructId := lift (match T with StructTy id => Some id | _ => None end) in
    loadStruct StructId TypedAddr IsVolatile AddressMayBeNull.

Definition storeNonPrimitiveType (fuel : nat) (Val : Operand) (Addr : Value) (Class : Z)
    (IsVolatile : bool) (Token : ResolvedToken) (IsField : bool) : M unit :=
  let IsVector := isVectorTy (IRBuilder.getType Val.1) in
  assert (IsVector || Val.2) ;*
  rdrCallWriteBarrierHelper fuel Addr Val IsVolatile (Some Token) false (negb IsVector) IsField false.

(** ** Indirect and object opcodes *)

Definition StIndirMap : list CorInfoType :=
  [CORINFO_TYPE_BYTE; CORINFO_TYPE_SHORT; CORINFO_TYPE_INT; CORINFO_TYPE_LONG;
   CORINFO_TYPE_NATIVEINT; CORINFO_TYPE_FLOAT; CORINFO_TYPE_DOUBLE; CORINFO_TYPE_REFANY].

Definition LdIndirMap : list CorInfoType :=
  [CORINFO_TYPE_BYTE; CORINFO_TYPE_UBYTE; CORINFO_TYPE_SHORT; CORINFO_TYPE_USHORT;
   CORINFO_TYPE_INT; CORINFO_TYPE_UINT; CORINFO_TYPE_LONG; CORINFO_TYPE_NATIVEINT;
   CORINFO_TYPE_FLOAT; CORINFO_TYPE_DOUBLE; CORINFO_TYPE_REFANY].

Definition storeIndir (fuel : nat) (Opcode : StIndirOpcode) (Val : Operand) (Address : Value)
    (Alignment : Z) (IsVolatile AddressMayBeNull : bool) : M unit :=
  let* CorType := lift (StIndirMap !! Z.to_nat (StIndirOpcode_Z Opcode)) in
  if bool_decide (CorType = CORINFO_TYPE_REFANY)
  then rdrCallWriteBarrierHelper fuel Address Val IsVolatile None true false false false
  else storePrimitiveType Val.1 Address CorType Alignment IsVolatile AddressMayBeNull.

Definition loadIndir (Opcode : LdIndirOpcode) (Address : Value) (Alignment : Z)
    (IsVolatile AddressMayBeNull : bool) : M Value :=
  let* CorType := lift (LdIndirMap !! Z.to_nat (LdIndirOpcode_Z Opcode)) in
  loadPrimitiveType Address CorType Alignment IsVolatile AddressMayBeNull.

(** The class and the type an object access is about. *)
Definition object_class (Token : ResolvedToken) (IsField : bool) : M (Z * CorInfoType) :=
  if IsField then
    let* Field := lift (hField Token) in
    let '(CorType, Class) := getFieldType Field in
    assert (bool_decide (CorType = CORINFO_TYPE_VALUECLASS)) ;*
    ret (Class, CorType)
  else ret (hClass Token, asCorInfoType (hClass Token)).

(** [storeObj] asks the class whether it is primitive, [loadObj] the type. *)
Definition storeObj (fuel : nat) (Token : ResolvedToken) (Val : Operand) (Address : Value)
    (Alignment : Z) (IsVolatile IsField AddressMayBeNull : bool) : M unit :=
  let* (Class, CorType) := object_class Token IsField in
  if negb (isValueClass Class) then
    storeIndir fuel StindRef Val Address Alignment IsVolatile AddressMayBeNull
  else if isPrimitiveType (asCorInfoType Class) then
    storePrimitiveType Val.1 Address CorType Alignment IsVolatile AddressMayBeNull
  else storeNonPrimitiveType fuel Val Address Class IsVolatile Token IsField.

Definition loadObj (Token : ResolvedToken) (Address : Value) (Alignment : Z)
    (IsVolatile IsField AddressMayBeNull : bool) : M Operand :=
  let* (Class, CorType) := object_class Token IsField in
  if negb (isValueClass Class) then
    let* Load := loadIndir LdindRef Address Alignment IsVolatile AddressMayBeNull in
    ret (Load, false)
  else if isPrimitiveType CorType then
    let* Load := loadPrimitiveType Address CorType Alignment IsVolatile AddressMayBeNull in
    ret (Load, false)
  else loadNonPrimitiveObj Address Class Alignment IsVolatile AddressMayBeNull.

Definition cpObj (fuel : nat) (Token : ResolvedToken) (Src Dst : Value) (Alignment : Z)
    (IsVolatile : bool) : M unit :=
  let* Val := loadObj Token Src Alignment IsVolatile false true in
  storeObj fuel Token Val Dst Alignment IsVolatile false true.

(** [loadAtAddress] with a token, and without one. *)
Definition loadAtAddress (Address : Value) (T : Ty) (CorType : CorInfoType)
    (Token : option ResolvedToken) (AlignmentPrefix : Z) (IsVolatile AddressMayBeNull : bool) :
    M Operand :=
  if isStructTy T then
    let* Token := lift Token in
    loadObj Token Address AlignmentPrefix IsVolatile (bool_decide (is_Some (hField Token)))
      AddressMayBeNull
  else
    let* Load := makeLoad Address IsVolatile AddressMayBeNull
                   (Some (convertReaderAlignment TargetPointerSizeInBits AlignmentPrefix)) in
    let* Result := convertToStackType Load CorType in
    ret (Result, false).

Definition loadAtAddressOfType (Address : Value) (T : Ty) (CorType : CorInfoType)
    (AlignmentPrefix : Z) (IsVolatile AddressMayBeNull : bool) : M Operand :=
  match T with
  | StructTy id => loadStruct id Address IsVolatile AddressMayBeNull
  | _ =>
      let* Load := makeLoad Address IsVolatile AddressMayBeNull
                     (Some (convertReaderAlignment TargetPointerSizeInBits AlignmentPrefix)) in
      let* Result := convertToStackType Load CorType in
      ret (Result, false)
  end.

Definition storeAtAddress (fuel : nat) (Address : Value) (ValueToStore : Operand) (T : Ty)
    (Token : option ResolvedToken) (Alignment : Z) (IsVolatile IsField AddressMayBeNull : bool) :
    M unit :=
  if isStructTy T then
    let* Token := lift Token in
    storeObj fuel Token ValueToStore Address Alignment IsVolatile IsField AddressMayBeNull
  else
    makeStore ValueToStore.1 Address IsVolatile AddressMayBeNull
      (Some (convertReaderAlignment TargetPointerSizeInBits Alignment)).

Definition storeAtAddressNoBarrierNonNull (Address : Value) (ValueToStore : Operand) (T : Ty)
    (IsVolatile : bool) : M unit :=
  match T with
  | StructTy id =>
      let* E := lift (getPointerElementType (IRBuilder.getType ValueToStore.1)) in
      assert (bool_decide (E = T)) ;*
      assert ValueToStore.2 ;*
      copyStructNoBarrier id Address ValueToStore.1 IsVolatile
  | _ => makeStore ValueToStore.1 Address IsVolatile false None
  end.

End objects.
End Objects.
