(* ===== verification/StructCopy.v ===== *)
(** * Structures are copied completely

    The theorem about [copyStruct] of [Objects]: the helper calls that the
    emitted code makes cover a structure with references once from its first
    byte to its last, the references and only those through the write
    barrier. *)

From S2P Require Import Prelude Opcodes IRBuilder GenIRTypes Conv Arith IRLogic Memory MemoryRules Objects.
Import ReaderBaseNS GenIR Arith Memory Objects.
#[local] Open Scope emit_scope.

(** ** The parts of a copy *)

(** A block of bytes without references, or one reference. *)
Inductive segment : Set := Block (From To : Z) | Reference (Offset : Z).

(** The parts follow one another from [From] to [To], for references of [n]
    bytes. *)
Fixpoint tiles (n : Z) (l : list segment) (From To : Z) : Prop :=
  match l with
  | [] => From = To
  | Block a b :: l => a = From /\ a < b /\ tiles n l b To
  | Reference a :: l => a = From /\ tiles n l (a + n) To
  end.

(** A reference is one of the runtime's layout, a block has none inside. *)
Definition respects (n : Z) (GCPointers : list Z) (S : segment) : Prop :=
  match S with
  | Reference a => exists I b, GCPointers !! I = Some b /\ is_reference b = true /\ a = n * Z.of_nat I
  | Block a b => forall I c, GCPointers !! I = Some c -> is_reference c = true ->
      n * Z.of_nat I + n <= a \/ b <= n * Z.of_nat I
  end.

(** The parts the loop finds, and the end of the last reference. *)
Fixpoint slot_parts (n : Z) (GCPointers : list Z) (Current After : Z) : list segment * Z :=
  match GCPointers with
  | [] => ([], After)
  | b :: GCPointers =>
      if is_reference b then
        let '(l, a) := slot_parts n GCPointers (Current + n) (Current + n) in
        ((if Current =? After then [] else [Block After Current]) ++ Reference Current :: l, a)
      else slot_parts n GCPointers (Current + n) After
  end.

Definition parts (n : Z) (GCPointers : list Z) (Size : Z) : list segment :=
  let '(l, a) := slot_parts n GCPointers 0 0 in l ++ if a <? Size then [Block a Size] else [].

Section parts.
Variable n : Z.
Hypothesis Hn : 0 < n.

Lemma tiles_app (l1 l2 : list segment) (a b c : Z) :
  tiles n l1 a b -> tiles n l2 b c -> tiles n (l1 ++ l2) a c.
Proof.
  revert a. induction l1 as [|[x y|x] l1 IH]; simpl; intros a H1 H2; [by subst| |];
    naive_solver.
Qed.

Lemma slot_parts_tiles (slots : list Z) (cur after : Z) (l : list segment) (a : Z) :
  after <= cur -> slot_parts n slots cur after = (l, a) ->
  tiles n l after a /\ after <= a <= cur + n * Z.of_nat (length slots).
Proof.
  revert cur after l a. induction slots as [|b slots IH]; simpl; intros cur after l a Hle H.
  - injection H as <- <-. split; [done|lia].
  - destruct (is_reference b).
    + destruct (slot_parts n slots (cur + n) (cur + n)) as [l' a'] eqn:E. injection H as <- <-.
      destruct (IH (cur + n) (cur + n) l' a' ltac:(lia) E) as [H1 H2].
      split; [|lia]. destruct (Z.eqb_spec cur after) as [->|]; simpl; [done|].
      split; [done|]. split; [lia|]. done.
    + destruct (IH (cur + n) after l a ltac:(lia) H). split; [done|lia].
Qed.

(** The slots before [k] have been seen; what lies between [After] and the
    current slot has no references. *)
Lemma slot_parts_respects (all seen slots : list Z) (after : Z) (l : list segment) (a : Z) :
  all = seen ++ slots ->
  (forall I c, seen !! I = Some c -> is_reference c = true -> n * Z.of_nat I + n <= after) ->
  after <= n * Z.of_nat (length seen) ->
  slot_parts n slots (n * Z.of_nat (length seen)) after = (l, a) ->
  Forall (respects n all) l /\
  (forall I c, all !! I = Some c -> is_reference c = true -> n * Z.of_nat I + n <= a).
Proof.
  revert seen after l a. induction slots as [|b slots IH]; intros seen after l a -> Hseen Hle H.
  - simpl in H. injection H as <- <-. rewrite app_nil_r. by split; [constructor|].
  - assert (Hlen : n * Z.of_nat (length (seen ++ [b])) = n * Z.of_nat (length seen) + n).
    { rewrite length_app. simpl. lia. }
    assert (Hlast : forall P : Z -> Z -> Prop,
      (forall I c, seen !! I = Some c -> is_reference c = true -> P (Z.of_nat I) c) ->
      (is_reference b = true -> P (Z.of_nat (length seen)) b) ->
      forall I c, (seen ++ [b]) !! I = Some c -> is_reference c = true -> P (Z.of_nat I) c).
    { intros P H1 H2 I c HI Hc. apply lookup_app_Some in HI as [HI|[Hge HI]]; [by apply H1|].
      apply list_lookup_singleton_Some in HI as [HI <-].
      replace I with (length seen) by lia. by apply H2. }
    cbn [slot_parts] in H. destruct (is_reference b) eqn:Hb.
    + destruct (slot_parts n slots (n * Z.of_nat (length seen) + n)
                  (n * Z.of_nat (length seen) + n)) as [l' a'] eqn:E. injection H as <- <-.
      rewrite <- Hlen in E.
      assert (H0 : forall I c, (seen ++ [b]) !! I = Some c -> is_reference c = true ->
                n * Z.of_nat I + n <= n * Z.of_nat (length (seen ++ [b]))).
      { apply (Hlast (fun I _ => n * I + n <= n * Z.of_nat (length (seen ++ [b]))));
          [|by rewrite Hlen].
        intros I c HI Hc. specialize (Hseen I c HI Hc). rewrite Hlen. lia. }
      destruct (IH (seen ++ [b]) _ l' a' (app_assoc seen [b] slots) H0 (Z.le_refl _) E)
        as [H1 H2].
      split; [|done]. apply Forall_app. split.
      * destruct (Z.eqb_spec (n * Z.of_nat (length seen)) after); constructor; [|constructor].
        intros I c HI Hc. apply lookup_app_Some in HI as [HI|[Hge HI]].
        -- left. by eapply Hseen.
        -- right. nia.
      * constructor; [|done]. exists (length seen), b. by rewrite list_lookup_middle.
    + rewrite <- Hlen in H.
      apply (IH (seen ++ [b]) after l a (app_assoc seen [b] slots)); [|lia|done].
      apply (Hlast (fun I _ => n * I + n <= after)); [done|congruence].
Qed.

(** The parts cover the structure and follow the runtime's layout. *)
Lemma parts_correct (slots : list Z) (Size : Z) :
  Size = n * Z.of_nat (length slots) ->
  tiles n (parts n slots Size) 0 Size /\ Forall (respects n slots) (parts n slots Size).
Proof.
  intros ->. unfold parts. destruct (slot_parts n slots 0 0) as [l a] eqn:E.
  destruct (slot_parts_tiles slots 0 0 l a ltac:(lia) E) as [H1 H2].
  destruct (slot_parts_respects slots [] slots 0 l a eq_refl) as [H3 H4];
    [by intros I c; rewrite lookup_nil|simpl; lia|by rewrite Z.mul_0_r|].
  destruct (Z.ltb_spec a (n * Z.of_nat (length slots))).
  - split.
    + eapply tiles_app; [exact H1|]. simpl. lia.
    + apply Forall_app. split; [done|]. constructor; [|constructor].
      intros I c HI Hc. left. by eapply H4.
  - rewrite app_nil_r. split; [|done]. by replace (n * Z.of_nat (length slots)) with a by lia.
Qed.
End parts.

(** ** What the emitted code calls *)

Section copy.
Context {L : LLVM} {LS : LLVMLaws L} {native : Z} {args : list (RVal FP)}.
Hypothesis Hnative : native = 32 \/ native = 64.
Context `{RT : ReaderTypes} `{OR : ObjectRuntime}.

#[local] Notation state := (@state L).
#[local] Notation wp := (wp native args).
#[local] Notation has := (has args).
#[local] Notation ext := (ext native args).
#[local] Notation n := (getPointerByteSize native).

(** The addresses of the source and the destination, and the references that
    the source holds. *)
Variables (src dst : Z) (reference : Z -> Z).

Definition barrier (IsUnchecked : bool) : CorInfoHelpFunc :=
  if IsUnchecked then CORINFO_HELP_ASSIGN_REF else CORINFO_HELP_CHECKED_ASSIGN_REF.

(** The helper that copies a part. *)
Definition copy_call (IsUnchecked : bool) (S : segment) : helper_call :=
  match S with
  | Block a b => (CORINFO_HELP_MEMCPY, [RInt (dst + a); RInt (src + a); RInt (b - a)])
  | Reference a => (barrier IsUnchecked, [RInt (dst + a); RInt (reference a)])
  end.

(** An object of [Size] bytes at [a]. *)
Definition object_at (a Size : Z) : Prop :=
  0 <= a /\ a + Size < 2 ^ native /\ allocated a Size = true.

(** A pointer to it in a value. *)
Definition holds_pointer (s : state) (V : Value) (a : Z) : Prop :=
  (exists E A, IRBuilder.getType V = PointerTy E A /\ (A = 0 \/ A = ManagedAddressSpace)) /\
  has s V (RInt a).

Lemma holds_ext (s s' : state) (V : Value) (a : Z) :
  ext s s' -> holds_pointer s V a -> holds_pointer s' V a.
Proof. intros He [HT HV]. split; [done|held]. Qed.

Variables (Src Dst : Value) (Size : Z).
Hypothesis HSize : 0 <= Size < 2 ^ 31.
Hypothesis Hsrc : object_at src Size.
Hypothesis Hdst : object_at dst Size.

(** The state goes on, with the pointers and the calls [l]. *)
Record goes_on (s s' : state) (l : list helper_call) : Prop := {
  on_wf : wf s';
  on_ext : ext s s';
  on_stop : stop s' = None;
  on_called : called s' = called s ++ l
}.

Record ready (s : state) : Prop := {
  ready_wf : wf s;
  ready_stop : stop s = None;
  ready_src : holds_pointer s Src src;
  ready_dst : holds_pointer s Dst dst
}.

Lemma ready_on (s s' : state) (l : list helper_call) : ready s -> goes_on s s' l -> ready s'.
Proof. intros [] []. split; [done|done|by eapply holds_ext..]. Qed.

Lemma goes_on_refl (s : state) : ready s -> goes_on s s [].
Proof. intros []. split; [done|done|done|]. by rewrite app_nil_r. Qed.

Lemma goes_on_trans (s1 s2 s3 : state) (l1 l2 : list helper_call) :
  goes_on s1 s2 l1 -> goes_on s2 s3 l2 -> goes_on s1 s3 (l1 ++ l2).
Proof.
  intros [] [Hw He Hs Hc]. split; [done|reach|done|]. by rewrite Hc, on_called0, app_assoc.
Qed.

Lemma wp_offset (V : Value) (a c : Z) (s : state) (Q : Value -> state -> Prop) :
  wf s -> stop s = None -> holds_pointer s V a -> object_at a Size -> 0 <= c <= Size ->
  (forall v s', (exists A, IRBuilder.getType v = getInt8PtrTy A) -> goes_on s s' [] ->
     has s' v (RInt (a + c)) -> Q v s') ->
  wp (binaryOp native Add V (loadConstantI4 c)) s Q.
Proof.
  intros Hw Hs [(E & A & HT & HA) HV] (Ha0 & Hlt & Hal) Hc HQ.
  apply (wp_pointer_add Hnative V _ E A a c 32); try done.
  - by destruct Hnative as [-> | ->].
  - unfold loadConstantI4, ConstantInt. rewrite wrap_small by lia. apply has_const.
  - apply swrap_small; lia.
  - intros _. exists a, Size. split; [done|lia].
  - intros v s' HvT Hw' He' Hs' Hl' Hv. apply HQ; [by eexists| |done].
    split; [done|done|by rewrite Hs'|by rewrite Hl', app_nil_r].
Qed.

Lemma wp_both_at (c : Z) (s : state) (Q : Value * Value -> state -> Prop) :
  ready s -> 0 <= c <= Size ->
  (forall a b s', (exists A, IRBuilder.getType a = getInt8PtrTy A) -> goes_on s s' [] ->
     has s' a (RInt (src + c)) -> has s' b (RInt (dst + c)) -> Q (a, b) s') ->
  wp (both_at native Src Dst c) s Q.
Proof.
  intros Hr Hc HQ. unfold both_at. apply wp_bind.
  apply (wp_offset Src src c); [apply Hr..|done|done|]. intros a s1 HaT H1 Ha. apply wp_bind.
  assert (Hr1 : ready s1) by by eapply ready_on.
  apply (wp_offset Dst dst c); [apply Hr1..|done|done|]. intros b s2 _ H2 Hb. apply wp_ret, HQ.
  - done.
  - by apply (goes_on_trans s s1 s2 [] []).
  - destruct H2. held.
  - done.
Qed.

(** The helpers return. *)
Variables (IsVolatile IsUnchecked : bool).
Hypothesis Hmemcpy : forall a b c, exists r,
  helper CORINFO_HELP_MEMCPY [RInt a; RInt b; RInt c] = Returns r.
Hypothesis Hbarrier : forall a b, exists r,
  helper (barrier IsUnchecked) [RInt a; RInt b] = Returns r.

Lemma wp_copy_block (From To : Z) (s : state) (Q : unit -> state -> Prop) :
  ready s -> 0 <= From <= To -> To <= Size ->
  (forall s', goes_on s s' [copy_call IsUnchecked (Block From To)] -> Q tt s') ->
  wp (copy_block native Src Dst From To IsVolatile) s Q.
Proof.
  intros Hr Hf Ht HQ. unfold copy_block. apply wp_bind, wp_both_at; [done|lia|].
  intros a b s1 _ H1 Ha Hb. unfold cpBlk. apply wp_bind.
  destruct (Hmemcpy (dst + From) (src + From) (To - From)) as [r Hh].
  apply (wp_callHelper _ _ [RInt (dst + From); RInt (src + From); RInt (To - From)] r); try apply H1.
  - constructor; [done|]. constructor; [done|]. constructor; [|constructor].
    unfold loadConstantI4, ConstantInt. rewrite wrap_small by lia. apply has_const.
  - done.
  - intros v s2 Hw2 He2 Hs2 Hl2 _. apply wp_ret, HQ. destruct H1. split; [done|reach|done|].
    by rewrite Hl2, on_called0, app_nil_r.
Qed.

Variables (fuel : nat) (id : Z).
Hypothesis HStructSize : StructSize id = Size.

(** The reference at an offset: its type, and that the source holds it. *)
Definition reference_at (o : Z) : Prop := exists E,
  gc_element_type fuel (StructTy id) o = Some E /\
  load E (src + o) = Some (RInt (reference o)).

Lemma wp_copy_reference (o : Z) (s : state) (Q : unit -> state -> Prop) :
  ready s -> 0 <= o <= Size -> reference_at o ->
  (forall s', goes_on s s' [copy_call IsUnchecked (Reference o)] -> Q tt s') ->
  wp (copy_reference native fuel id Src Dst o IsVolatile IsUnchecked) s Q.
Proof.
  intros Hr Ho (E & HE & Hl) HQ. unfold copy_reference. apply wp_bind, wp_both_at; [done|lia|].
  intros a b s1 (A & HaT) H1 Ha Hb. apply wp_bind. eapply wp_lift; [exact HE|].
  rewrite HaT. apply wp_bind, wp_ret, wp_bind.
  apply wp_quiet with (r := RInt (src + o)); [apply H1|done| |].
  { intros Hs. cbn [exec_instr]. rewrite (has_int _ _ _ _ Ha Hs). cbn [mbind option_bind].
    rewrite HaT. simpl. rewrite int_cast_law, wrap_small; [done|].
    destruct Hsrc as (? & ? & _). lia. }
  intros p s2 HpT Hw2 He2 Hs2 Hl2 Hp. apply wp_bind.
  eapply (wp_quiet_load p E _ (src + o) (RInt (reference o))); [done|exact HpT|done|done|].
  intros g s3 _ Hw3 He3 Hs3 Hl3 Hg. destruct H1 as [_ He1 Hs1 Hl1].
  destruct (Hbarrier (dst + o) (reference o)) as [r Hh]. apply wp_bind.
  apply (wp_callHelper _ _ [RInt (dst + o); RInt (reference o)] r); [done| | |done|].
  - by rewrite Hs3, Hs2.
  - constructor; [held|]. constructor; [done|constructor].
  - intros v s4 Hw4 He4 Hs4 Hl4 _. apply wp_ret, HQ. split; [done|reach|done|].
    by rewrite Hl4, Hl3, Hl2, Hl1, app_nil_r.
Qed.

Lemma Hpos : 0 < n.
Proof. by destruct Hnative as [-> | ->]. Qed.

(** The loop makes the calls of [slot_parts]. *)
Lemma wp_copy_slots (slots : list Z) (cur after : Z) (s : state) (Q : Z -> state -> Prop) :
  ready s -> 0 <= after <= cur -> cur + n * Z.of_nat (length slots) = Size ->
  (forall I b, slots !! I = Some b -> is_reference b = true ->
     reference_at (cur + n * Z.of_nat I)) ->
  (forall l a s', slot_parts n slots cur after = (l, a) ->
     goes_on s s' (copy_call IsUnchecked <$> l) -> Q a s') ->
  wp (copy_slots native fuel id Src Dst IsVolatile IsUnchecked slots cur after) s Q.
Proof.
  pose proof Hpos as Hn. revert cur after s Q.
  induction slots as [|b slots IH]; intros cur after s Q Hr Ha Hsz Href HQ.
  - cbn [copy_slots]. rewrite HStructSize. simpl in Hsz. rewrite (proj2 (Z.leb_le Size cur)) by lia.
    apply wp_ret, (HQ [] after); [done|by apply goes_on_refl].
  - cbn [copy_slots]. rewrite HStructSize. cbn [length] in Hsz.
    destruct (Z.leb_spec Size cur); [lia|]. apply wp_bind.
    assert (Hrest : forall I b, slots !! I = Some b -> is_reference b = true ->
      reference_at ((cur + n) + n * Z.of_nat I)).
    { intros I c HI Hc. replace (cur + n + n * Z.of_nat I) with (cur + n * Z.of_nat (S I)) by lia.
      by apply (Href (S I) c). }
    cbn [slot_parts] in HQ. destruct (is_reference b) eqn:Hb.
    + assert (Hat : reference_at cur).
      { specialize (Href 0%nat b eq_refl Hb). by rewrite Z.mul_0_r, Z.add_0_r in Href. }
      assert (Hone : forall s1 l1, ready s1 -> goes_on s s1 (copy_call IsUnchecked <$> l1) ->
        l1 = (if cur =? after then [] else [Block after cur]) ->
        wp (copy_reference native fuel id Src Dst cur IsVolatile IsUnchecked;* ret (cur + n)) s1
          (fun After s' => wp (copy_slots native fuel id Src Dst IsVolatile IsUnchecked slots
             (cur + n) After) s' Q)).
      { intros s1 l1 Hr1 H1 El. apply wp_bind, wp_copy_reference; [done|lia|done|].
        intros s2 H2. apply wp_ret, IH; [by eapply ready_on|lia|lia|done|].
        intros l a s3 E H3. rewrite E in HQ. eapply HQ; [by rewrite <- El|].
        rewrite fmap_app. cbn [fmap list_fmap].
        change (?x :: ?y) with ([x] ++ y). eapply goes_on_trans; [done|].
        by eapply goes_on_trans. }
      apply wp_bind. destruct (Z.eqb_spec cur after); cbn [negb].
      * apply wp_ret, (Hone s []); [done|by apply goes_on_refl|done].
      * apply wp_copy_block; [done|lia|lia|]. intros s1 H1.
        apply (Hone s1 [Block after cur]); [by eapply ready_on|done|done].
    + apply wp_ret, IH; [done|lia|lia|done|]. intros l a s' E. by apply HQ.
Qed.

Lemma wp_copyStruct (Class : Z) (slots : list Z) (s : state) (Q : unit -> state -> Prop) :
  ready s -> getClassGCLayout Class = Some slots ->
  getTypeOfClass CORINFO_TYPE_VALUECLASS (Some Class) = Some (StructTy id) ->
  Size = n * Z.of_nat (length slots) ->
  (forall I b, slots !! I = Some b -> is_reference b = true -> reference_at (n * Z.of_nat I)) ->
  (forall s', goes_on s s' (copy_call IsUnchecked <$> parts n slots Size) -> Q tt s') ->
  wp (copyStruct native fuel Class Dst Src IsVolatile IsUnchecked) s Q.
Proof.
  intros Hr HG HT Hsz Href HQ. unfold copyStruct. rewrite HG. apply wp_bind.
  eapply wp_lift; [exact HT|]. apply wp_bind, wp_ret, wp_bind.
  apply wp_copy_slots; [done|lia|lia|by intros I b; apply Href|].
  intros l a s1 E H1. unfold parts in HQ. rewrite E in HQ. rewrite HStructSize.
  destruct (slot_parts_tiles n Hpos slots 0 0 l a ltac:(lia) E) as [_ [Ha _]].
  destruct (Z.ltb_spec a Size).
  - apply wp_copy_block; [by eapply ready_on|lia|lia|]. intros s2 H2. apply HQ.
    rewrite fmap_app. by eapply goes_on_trans.
  - apply wp_ret, HQ. by rewrite app_nil_r.
Qed.
End copy.

(** ** The theorem *)

(** C21: The code that copyStruct emits for a class with references copies the
    whole structure.  The helper calls it makes are those of a list of parts
    that follow one another from byte 0 to the last: every reference that the
    runtime's layout gives is a part of its own, copied by the write barrier
    with the reference the source holds, and everything between the references
    is copied in blocks in which no reference lies. *)
Theorem copyStruct_complete {L : LLVM} (LS : LLVMLaws L) (native : Z)
    (RT : ReaderTypes) (OR : ObjectRuntime) (src dst Size : Z) (reference : Z -> Z)
    (E1 E2 : Ty) (A1 A2 : Z) (fuel : nat) (Class id : Z) (slots : list Z)
    (IsVolatile IsUnchecked : bool)
    (Hnative : native = 32 \/ native = 64)
    (HA1 : A1 = 0 \/ A1 = ManagedAddressSpace) (HA2 : A2 = 0 \/ A2 = ManagedAddressSpace)
    (Hlayout : getClassGCLayout Class = Some slots)
    (Htype : getTypeOfClass CORINFO_TYPE_VALUECLASS (Some Class) = Some (StructTy id))
    (Hsize : StructSize id = Size)
    (Hslots : Size = getPointerByteSize native * Z.of_nat (length slots))
    (Hbound : 0 <= Size < 2 ^ 31)
    (Hsrc : object_at (native := native) src Size) (Hdst : object_at (native := native) dst Size)
    (Href : forall I b, slots !! I = Some b -> is_reference b = true ->
       reference_at src reference fuel id (getPointerByteSize native * Z.of_nat I))
    (Hmemcpy : forall a b c, exists r,
       helper CORINFO_HELP_MEMCPY [RInt a; RInt b; RInt c] = Returns r)
    (Hbarrier : forall a b, exists r,
       helper (barrier IsUnchecked) [RInt a; RInt b] = Returns r) :
  exists new l,
    copyStruct native fuel Class (MkValue (Arg 0) (PointerTy E1 A1))
      (MkValue (Arg 1) (PointerTy E2 A2)) IsVolatile IsUnchecked [] = Some (new, tt) /\
    (exists regs, exec native [RInt dst; RInt src] new [] = inl regs) /\
    calls native [RInt dst; RInt src] new [] = copy_call src dst reference IsUnchecked <$> l /\
    tiles (getPointerByteSize native) l 0 Size /\
    Forall (respects (getPointerByteSize native) slots) l.
Proof.
  set (n := getPointerByteSize native) in *. set (args := [RInt dst; RInt src]).
  assert (Hready : ready (args := args) src dst (MkValue (Arg 1) (PointerTy E2 A2))
                     (MkValue (Arg 0) (PointerTy E1 A1)) start).
  { split; [apply wf_start|done|split..]; try done; by repeat eexists. }
  destruct (wp_copyStruct (native := native) (args := args) Hnative src dst reference _ _ Size
    Hbound Hsrc Hdst IsVolatile IsUnchecked Hmemcpy Hbarrier fuel id Hsize Class slots start
    (fun _ s => goes_on (args := args) (native := native) start s
       (copy_call src dst reference IsUnchecked <$> parts n slots Size)) Hready Hlayout Htype
    Hslots Href) as (new & [] & Hrun & [_ _ Hstop Hcalled]); [done|].
  exists new, (parts n slots Size). split; [done|]. simpl in Hstop, Hcalled.
  split; [|split; [done|]].
  - unfold stop, advance in Hstop. simpl in Hstop.
    destruct (exec native args new []) as [regs|o]; [by eexists|done].
  - apply parts_correct; [|done]. by destruct Hnative as [-> | ->].
Qed.

(** A structure of a reference, a number and a reference at address 1000. *)
Definition pair_types : Z -> list Ty := fun _ =>
  [PointerTy (IntegerTy 8) ManagedAddressSpace; IntegerTy 64;
   PointerTy (IntegerTy 8) ManagedAddressSpace].

Definition PairReader : ReaderTypes := {|
  StructElements := pair_types;
  StructSize := fun _ => 24;
  ElementOffset := fun _ i => 8 * Z.of_nat i;
  getArrayOfElementType := fun E => E;
  getBuiltInObjectType := PointerTy (IntegerTy 8) ManagedAddressSpace;
  getBuiltInStringType := PointerTy (IntegerTy 8) ManagedAddressSpace;
  isLayoutIdentical := fun _ _ => false
|}.

Definition PairRuntime : ObjectRuntime := {|
  isValueClass := fun _ => true;
  asCorInfoType := fun _ => CORINFO_TYPE_VALUECLASS;
  getClassSize := fun _ => 24;
  getClassAlignmentRequirement := fun _ => 8;
  getClassGClayout := fun _ => [1; 0; 1];
  getFieldType := fun _ => (CORINFO_TYPE_VALUECLASS, 0);
  getTypeOfClass := fun _ _ => Some (StructTy 0);
  SystemObjectClass := 0
|}.

Definition PairMemory : LLVM :=
  DemoMemory pair_types (fun _ a => Some (RInt (a + 7)))
    (fun a size => ((a =? 1000) || (a =? 2000)) && (size =? 24)).

Lemma copyStruct_complete_witness :
  exists new l,
    copyStruct (H := PairReader) (H0 := PairRuntime) 64 2 0
      (MkValue (Arg 0) (PointerTy (StructTy 0) 0))
      (MkValue (Arg 1) (PointerTy (StructTy 0) ManagedAddressSpace)) true false [] = Some (new, tt) /\
    (exists regs, exec (L := PairMemory) 64 [RInt 2000; RInt 1000] new [] = inl regs) /\
    calls (L := PairMemory) 64 [RInt 2000; RInt 1000] new [] =
      copy_call (L := PairMemory) 1000 2000 (fun o => 1007 + o) false <$> l /\
    tiles 8 l 0 24 /\ Forall (respects 8 [1; 0; 1]) l.
Proof.
  apply (copyStruct_complete (L := PairMemory) (DemoMemory_laws _ _ _) 64 PairReader PairRuntime
           1000 2000 24 (fun o => 1007 + o) (StructTy 0) (StructTy 0) 0 ManagedAddressSpace 2 0 0
           [1; 0; 1] true false); try done; try (by right); try (by left).
  - intros I b HI Hb. eexists. split; [|simpl; do 2 f_equal; lia].
    destruct I as [|[|[|I]]]; try done. injection HI as <-. done.
  - intros a b c. by eexists.
  - intros a b. by eexists.
Defined.
