(* ===== verification/Elements.v ===== *)
(** * Array elements and accessors (lib/Reader/readerir.cpp, reader.cpp)

    The opcodes that load and store array elements, and the accessors of
    multi-dimensional arrays that are expanded in line. *)

From S2P Require Import Prelude Opcodes IRBuilder GenIRTypes Conv Arith IRLogic Memory MemoryRules ArrayAccess Objects.
Import ReaderBaseNS GenIR Arith Memory Objects.

(** ** The array intrinsics *)

(** The signature of an accessor of multi-dimensional arrays: the types and
    classes of the arguments behind the array, and of the result. *)
Record AccessorSig := MkAccessorSig {
  sigArgs : list (CorInfoType * option Z);
  sigRetType : CorInfoType;
  sigRetTypeClass : option Z }.

(** What [canExpandMDArrayRef] asks the runtime: the class of typed
    references, the type behind a managed pointer, and whether a class is
    final. *)
Class ArrayRuntime := {
  TypedByrefClass : option Z;
  getChildType : option Z -> CorInfoType * option Z;
  isFinalClass : option Z -> bool
}.

Module Elements.
#[local] Open Scope emit_scope.
Section elements.
Variable TargetPointerSizeInBits : Z.
Context `{ReaderTypes} `{ObjectRuntime} `{ArrayRuntime}.

Definition is_int (C : CorInfoType) : bool := bool_decide (C = CORINFO_TYPE_INT).

(** The element type of an accessor, [None] in the option if a store's
    signature is not the expected one. *)
Definition accessor_element (Sig : AccessorSig) (IsStore : bool) (Rank : nat) :
    option (CorInfoType * option Z) :=
  if IsStore then
    if forallb (fun A => is_int A.1) (take Rank (sigArgs Sig)) then
      '(CorType, ArgClass) ← sigArgs Sig !! Rank;
      if bool_decide (CorType = CORINFO_TYPE_VAR) then None
      else Some (CorType, match CorType with
                          | CORINFO_TYPE_CLASS | CORINFO_TYPE_VALUECLASS => ArgClass
                          | CORINFO_TYPE_REFANY => TypedByrefClass
                          | _ => None
                          end)
    else None
  else Some (sigRetType Sig, sigRetTypeClass Sig).

(** [canExpandMDArrayRef]: the rank and the element type of an access that is
    expanded, [None] inside for one that is left to the runtime. *)
Definition canExpandMDArrayRef (Sig : AccessorSig) (IsStore IsLoadAddr : bool) :
    option (option (nat * CorInfoType * Ty)) :=
  let numArgs := Z.of_nat (length (sigArgs Sig)) in
  let Rank := wrap 32 (if IsStore then numArgs - 1 else numArgs) in
  if (ArrayIntrinMaxRank <? Rank) || (Rank <=? 1) then Some None
  else
    let Rank := Z.to_nat Rank in
    '(CorType, Class) ← accessor_element Sig IsStore Rank;
    if bool_decide (CorType = CORINFO_TYPE_VALUECLASS) then Some None
    else
      let '(GCCorType, GCClass) :=
        match CorType with CORINFO_TYPE_BYREF => getChildType Class | _ => (CorType, Class) end in
      let Refused :=
        match GCCorType with
        | CORINFO_TYPE_STRING | CORINFO_TYPE_CLASS => negb (isFinalClass GCClass)
        | _ => false
        end in
      if (IsStore || IsLoadAddr) && Refused then Some None
      else
        T ← getTypeOfClass CorType Class;
        Some (Some (Rank, CorType, T)).

(** The accessors with the operand stack, top first; [None] leaves the call
    to the runtime, with the stack untouched. *)
Definition arrayGet (Sig : AccessorSig) (Stack : list Value) : M (option (Value * list Value)) :=
  let* Expansion := lift (canExpandMDArrayRef Sig false false) in
  match Expansion with
  | None => ret None
  | Some (Rank, ElemCorType, ElementTy) =>
      let* (ElementAddress, Stack) :=
        mdArrayRefAddr TargetPointerSizeInBits Rank ElementTy Stack in
      assert (negb (isStructTy ElementTy)) ;*
      let* Load :=
        makeLoad ElementAddress false false (NaturalAlignment TargetPointerSizeInBits) in
      let* RetVal := convertToStackType TargetPointerSizeInBits Load ElemCorType in
      ret (Some (RetVal, Stack))
  end.

Definition arraySet (fuel : nat) (Sig : AccessorSig) (Stack : list Value) :
    M (option (list Value)) :=
  let* Expansion := lift (canExpandMDArrayRef Sig true false) in
  match Expansion with
  | None => ret None
  | Some (Rank, ElemCorType, ElementTy) =>
      let* (Popped, Stack) := lift (pop_operands 1 Stack []) in
      let* Operand := lift (head Popped) in
      let* (Stored, RepresentsStruct) :=
        convertFromStackType TargetPointerSizeInBits isLayoutIdentical Operand false
          ElemCorType ElementTy in
      let* (ElementAddress, Stack) :=
        mdArrayRefAddr TargetPointerSizeInBits Rank ElementTy Stack in
      (if isGcPointer ElementTy then
         rdrCallWriteBarrierHelper TargetPointerSizeInBits fuel ElementAddress (Stored, false)
           false None true false false true
       else
         assert (negb (isStructTy ElementTy)) ;*
         makeStore Stored ElementAddress false false None) ;*
      ret (Some Stack)
  end.

Definition arrayAddress (Sig : AccessorSig) (Stack : list Value) :
    M (option (Value * list Value)) :=
  let* Expansion := lift (canExpandMDArrayRef Sig false true) in
  match Expansion with
  | None => ret None
  | Some (Rank, _, ElementTy) =>
      let* Result := mdArrayRefAddr TargetPointerSizeInBits Rank ElementTy Stack in
      ret (Some Result)
  end.

(** ** Element opcodes *)

Definition LdElemMap : list CorInfoType :=
  [CORINFO_TYPE_BYTE; CORINFO_TYPE_UBYTE; CORINFO_TYPE_SHORT; CORINFO_TYPE_USHORT;
   CORINFO_TYPE_INT; CORINFO_TYPE_UINT; CORINFO_TYPE_LONG; CORINFO_TYPE_NATIVEINT;
   CORINFO_TYPE_FLOAT; CORINFO_TYPE_DOUBLE; CORINFO_TYPE_CLASS; CORINFO_TYPE_UNDEF].

Definition StElemMap : list CorInfoType :=
  [CORINFO_TYPE_NATIVEINT; CORINFO_TYPE_BYTE; CORINFO_TYPE_SHORT; CORINFO_TYPE_INT;
   CORINFO_TYPE_LONG; CORINFO_TYPE_FLOAT; CORINFO_TYPE_DOUBLE; CORINFO_TYPE_CLASS;
   CORINFO_TYPE_UNDEF].

(** [getMSILArrayElementType]: the type of the elements, with the type and the
    alignment it may replace. *)
Definition getMSILArrayElementType (Array : Value) (Token : option ResolvedToken)
    (CorType : CorInfoType) (Alignment : Z) : option (Ty * CorInfoType * Z) :=
  if bool_decide (CorType = CORINFO_TYPE_CLASS) then
    IsArray ← isArrayType TargetPointerSizeInBits (IRBuilder.getType Array) None;
    if (IsArray : bool) then
      Fields ← struct_fields (IRBuilder.getType Array);
      match last Fields with
      | Some (ArrayTy E _) => Some (E, CorType, Alignment)
      | _ => None
      end
    else Some (getBuiltInObjectType, CorType, Alignment)
  else
    let '(CorType, Class, Alignment) :=
      match Token with
      | Some T =>
          let CorType := asCorInfoType (hClass T) in
          (CorType, Some (hClass T),
           match CorType with
           | CORINFO_TYPE_VALUECLASS | CORINFO_TYPE_REFANY =>
               getMinimumClassAlignment (hClass T) AlignNatural
           | _ => Alignment
           end)
      | None => (CorType, None, Alignment)
      end in
    _ ← (if bool_decide (CorType = CORINFO_TYPE_UNDEF) then None else Some tt);
    T ← getTypeOfClass CorType Class;
    Some (T, CorType, Alignment).

Definition loadElem (Opcode : LdElemOpcode) (Token : option ResolvedToken) (Index Array : Value) :
    M Operand :=
  let* CorType := lift (LdElemMap !! Z.to_nat (LdElemOpcode_Z Opcode)) in
  let Token := match Opcode with Ldelem => Token | _ => None end in
  let* (ElementTy, CorType, Alignment) :=
    lift (getMSILArrayElementType Array Token CorType AlignNatural) in
  let* ElementAddress := genArrayElemAddress TargetPointerSizeInBits Array Index ElementTy in
  loadAtAddress TargetPointerSizeInBits ElementAddress ElementTy CorType Token Alignment false false.

(** [loadElemA]; [HandleNode] is what [genericTokenToNode] emits for the
    token. *)
Definition loadElemA (Token : ResolvedToken) (HandleNode : M Value) (Index Array : Value)
    (IsReadOnly : bool) : M Value :=
  let* ElementTy := lift (getTypeOfClass (asCorInfoType (hClass Token)) (Some (hClass Token))) in
  if negb IsReadOnly && negb (isValueClass (hClass Token)) then
    let* Handle := HandleNode in
    callHelperImpl CORINFO_HELP_LDELEMA_REF (getManagedPointerType ElementTy)
      [Array; Index; Handle] false
  else genArrayElemAddress TargetPointerSizeInBits Array Index ElementTy.

Definition storeElemRefAny (Val Index Obj : Value) : M unit :=
  callHelper CORINFO_HELP_ARRADDR_ST None [Obj; Index; Val] false ;* ret tt.

(** [storeElem]: a reference that is not the null constant goes through the
    helper, which checks its type. *)
Definition storeElem (fuel : nat) (Opcode : StElemOpcode) (Token : option ResolvedToken)
    (ValueToStore : Operand) (Index Array : Value) : M unit :=
  let* CorType := lift (StElemMap !! Z.to_nat (StElemOpcode_Z Opcode)) in
  let Token := match Opcode with Stelem => Token | _ => None end in
  let* (ElementTy, CorType, Alignment) :=
    lift (getMSILArrayElementType Array Token CorType AlignNatural) in
  if bool_decide (CorType = CORINFO_TYPE_CLASS) && negb (isConstantNull ValueToStore.1) then
    storeElemRefAny ValueToStore.1 Index Array
  else
    let* ElementAddress := genArrayElemAddress TargetPointerSizeInBits Array Index ElementTy in
    let* Stored :=
      convertFromStackType TargetPointerSizeInBits isLayoutIdentical ValueToStore.1 ValueToStore.2
        CorType ElementTy in
    if isStructTy ElementTy then
      rdrCallWriteBarrierHelper TargetPointerSizeInBits fuel ElementAddress Stored false Token
        false false false false
    else
      storeAtAddress TargetPointerSizeInBits fuel ElementAddress Stored ElementTy Token Alignment
        false false false.
End elements.
End Elements.

(** ** Loading an element *)

(** The integer types that an element can have. *)
Definition integer_element (native : Z) (C : CorInfoType) (w W : Z) (Signed : bool) : Prop :=
  GenIR.getType native C = Some (IntegerTy w) /\ stackSize native C = Some W /\
  isSigned C = Some Signed.

Lemma integer_element_widths (native : Z) (C : CorInfoType) (w W : Z) (Signed : bool) :
  native = 32 \/ native = 64 -> integer_element native C w W Signed -> 0 < w <= W.
Proof.
  intros Hn (H1 & H2 & _). destruct C; simpl in H1, H2; try done;
    injection H1 as <-; injection H2 as <-; lia.
Qed.

(** Ldelem of an integer type on a vector: the emitted code throws for a
    null reference and for an index out of range, and otherwise loads the
    element at that index, sign-extended or zero-extended to the stack type of
    its opcode. *)
Theorem loadElem_correct {L : LLVM} (LS : LLVMLaws L) (native : Z) (RT : ReaderTypes)
    (OR : ObjectRuntime) (OK : ReaderTypesOk L RT native) (Opcode : LdElemOpcode)
    (Token : option ResolvedToken) (C : CorInfoType) (T : Ty) (a len x w W wi : Z) (Signed : bool)
    (element : Z -> Z)
    (Hnative : native = 32 \/ native = 64) (HT : isGcPointer T = true)
    (Hop : Elements.LdElemMap !! Z.to_nat (LdElemOpcode_Z Opcode) = Some C)
    (Hnot : Opcode <> Ldelem) (HC : integer_element native C w W Signed)
    (Htype : getTypeOfClass C None = GenIR.getType native C)
    (Hwi : wi = 32 \/ wi = native) (Hx : 0 <= x < 2 ^ wi) (Ha : 0 <= a < 2 ^ native)
    (Hobj : a <> 0 -> vector_object native a len (alloc_size native (IntegerTy w)) /\
       forall i, 0 <= i < len -> 0 <= element i < 2 ^ w /\
         access_defined (Some (convertReaderAlignment native AlignNatural))
           (a + (data_offset native + i * alloc_size native (IntegerTy w))) = true /\
         load (IntegerTy w) (a + (data_offset native + i * alloc_size native (IntegerTy w))) =
           Some (RInt (element i))) :
  run native [RInt a; RInt x]
    (let* Result := Elements.loadElem native Opcode Token (MkValue (Arg 1) (IntegerTy wi))
                      (MkValue (Arg 0) T) in ret Result.1)%emit =
  Some (if a =? 0 then Throws CORINFO_HELP_THROWNULLREF
        else if x <? len then Returns (RInt (widened Signed w W (element x)))
        else Throws CORINFO_HELP_RNGCHKFAIL).
Proof.
  pose proof (integer_element_widths native C w W Signed Hnative HC) as Hwidth.
  destruct HC as (HC & HW & Hs).
  rewrite (run_wp native _ _
    (check (x <? len) CORINFO_HELP_RNGCHKFAIL (check (negb (a =? 0)) CORINFO_HELP_THROWNULLREF None))
    (RInt (widened Signed w W (element x)))); [by destruct (a =? 0), (x <? len)|].
  apply wp_bind. unfold Elements.loadElem. apply wp_bind. eapply wp_lift; [exact Hop|].
  assert (HG : Elements.getMSILArrayElementType native (MkValue (Arg 0) T)
    (match Opcode with Ldelem => Token | _ => None end) C AlignNatural =
    Some (IntegerTy w, C, AlignNatural)).
  { assert (match Opcode with Ldelem => Token | _ => None end = None) as -> by by destruct Opcode.
    unfold Elements.getMSILArrayElementType.
    rewrite bool_decide_eq_false_2 by (intros ->; done).
    rewrite bool_decide_eq_false_2 by (intros ->; done).
    cbn [mbind option_bind]. by rewrite Htype, HC. }
  apply wp_bind. eapply wp_lift; [exact HG|]. apply wp_bind.
  apply (wp_genArrayElemAddress Hnative OK _ _ (IntegerTy w) a len x wi);
    [apply wf_start|done|done|done|done|done|done|done|intros Hne; by apply Hobj|].
  intros A s1 HAT Hw1 He1 Hs1 HA. unfold loadAtAddress. cbn [isStructTy].
  assert (Hlive : stop s1 = None -> 0 <= element x < 2 ^ w /\
    access_defined (Some (convertReaderAlignment native AlignNatural))
      (a + (data_offset native + x * alloc_size native (IntegerTy w))) = true /\
    load (IntegerTy w) (a + (data_offset native + x * alloc_size native (IntegerTy w))) =
      Some (RInt (element x))).
  { intros Hn. rewrite Hs1 in Hn. apply check_None in Hn as [Hlt Hn].
    apply check_None in Hn as [Hn _]. apply Hobj; [by apply Z.eqb_neq, negb_true_iff|].
    apply Z.ltb_lt in Hlt. lia. }
  apply wp_bind. eapply (wp_aligned_load A (IntegerTy w)); [done|exact HAT|exact HA| |].
  { intros Hn. by apply Hlive. }
  intros R s2 HRT Hw2 He2 Hs2 _ HR. apply wp_bind.
  apply (wp_convertToStackType R C w W (element x) Signed); try done.
  { rewrite Hs2. intros Hn. by apply Hlive. }
  intros r s3 _ Hw3 He3 Hs3 Hr. apply wp_ret, wp_ret. split; [|done].
  by rewrite Hs3, Hs2, Hs1.
Qed.

(** A runtime without classes. *)
Definition NoClasses (native : Z) : ObjectRuntime := {|
  isValueClass := fun _ => false;
  asCorInfoType := fun _ => CORINFO_TYPE_CLASS;
  getClassSize := fun _ => 0;
  getClassAlignmentRequirement := fun _ => 0;
  getClassGClayout := fun _ => [];
  getFieldType := fun _ => (CORINFO_TYPE_CLASS, 0);
  getTypeOfClass := fun C _ => GenIR.getType native C;
  SystemObjectClass := 0
|}.

(** The signed bytes 1, -1 at address 1000. *)
Lemma loadElem_correct_witness :
  run (L := DemoMemory (vector_of 64)
              (fun _ p => if p =? 1008 then Some (RInt 2) else
                          if p =? 1016 then Some (RInt 1) else
                          if p =? 1017 then Some (RInt 255) else None)
              (fun a n => (a =? 1000) && (n =? 18)))
    64 [RInt 1000; RInt 1]
    (let* Result := Elements.loadElem (H := VectorReader 64) (H0 := NoClasses 64) 64 LdelemI1 None
       (MkValue (Arg 1) (IntegerTy 32))
       (MkValue (Arg 0) (PointerTy (StructTy 9) ManagedAddressSpace)) in ret Result.1)%emit
  = Some (Returns (RInt (2 ^ 32 - 1))).
Proof.
  refine (loadElem_correct (DemoMemory_laws _ _ _) 64 (VectorReader 64) (NoClasses 64)
    (VectorReader_ok 64 _ _) LdelemI1 None CORINFO_TYPE_BYTE
    (PointerTy (StructTy 9) ManagedAddressSpace) 1000 2 1 8 32 32 true
    (fun i => if i =? 0 then 1 else 255) _ _ _ _ _ _ _ _ _ _); try done.
  - by right.
  - by left.
  - intros _. split; [by split|]. intros i Hi.
    assert (i = 0 \/ i = 1) as [-> | ->] by lia; done.
Defined.
