(* ===== verification/Generics.v ===== *)
(** * Runtime handles of shared generic code (lib/Reader/reader.cpp)

    [genericTokenToNode] and [runtimeLookupToNode]: the code that finds a type
    or method handle, from a constant or along a path through the runtime's
    dictionaries.  The theorem at the end gives the handle that the code of a
    lookup finds. *)

From S2P Require Import Prelude Opcodes IRBuilder GenIRTypes Conv Arith IRLogic Memory MemoryRules.
Import ReaderBaseNS.

(** ** What the runtime says about a token *)

Inductive CORINFO_RUNTIME_LOOKUP_KIND : Set :=
  | CORINFO_LOOKUP_THISOBJ | CORINFO_LOOKUP_METHODPARAM | CORINFO_LOOKUP_CLASSPARAM.

#[export] Instance lookup_kind_eq_dec : EqDecision CORINFO_RUNTIME_LOOKUP_KIND.
Proof. solve_decision. Defined.

(** [indirections] is [None] for [CORINFO_USEHELPER]. *)
Record CORINFO_RUNTIME_LOOKUP := MkLookup {
  signature : Z;
  lookupHelper : CorInfoHelpFunc;
  indirections : option nat;
  testForNull : bool;
  testForFixup : bool;
  offsets : list Z
}.

Inductive CorInfoGenericHandleType : Set :=
  | CORINFO_HANDLETYPE_UNKNOWN | CORINFO_HANDLETYPE_CLASS
  | CORINFO_HANDLETYPE_METHOD | CORINFO_HANDLETYPE_FIELD.

(** A constant handle: its value, the address of a word that holds it, or the
    address of such an address. *)
Inductive CORINFO_CONST_LOOKUP : Set :=
  | IAT_VALUE (handle : Z) | IAT_PVALUE (addr : Z) | IAT_PPVALUE (addr : Z).

Record CORINFO_GENERICHANDLE_RESULT := MkGenericHandle {
  needsRuntimeLookup : bool;
  runtimeLookupKind : CORINFO_RUNTIME_LOOKUP_KIND;
  constLookup : CORINFO_CONST_LOOKUP;
  runtimeLookup : CORINFO_RUNTIME_LOOKUP;
  compileTimeHandle : Z;
  handleType : CorInfoGenericHandleType
}.

(** The loads the runtime is asked for before the code runs. *)
Inductive RestoreRequest : Set := LoadClass (Class : Z) | LoadMethod (Method : Z).

Module Generics.
Import GenIR Arith Memory.
#[local] Open Scope emit_scope.

Section generics.
Variable TargetPointerSizeInBits : Z.

(** The arguments of the method that carry its generic context. *)
Variables (instParam thisObj : Value).

#[local] Notation derefAddress := (derefAddress TargetPointerSizeInBits).
#[local] Notation derefAddressNonNull := (derefAddressNonNull TargetPointerSizeInBits).
#[local] Notation handleToIRNode := (handleToIRNode TargetPointerSizeInBits).

(** The first argument of the helper and the start of the indirections. *)
Definition lookup_context (Kind : CORINFO_RUNTIME_LOOKUP_KIND) : M Value :=
  match Kind with
  | CORINFO_LOOKUP_METHODPARAM | CORINFO_LOOKUP_CLASSPARAM => ret instParam
  | CORINFO_LOOKUP_THISOBJ => derefAddress thisObj false true
  end.

(** The loop over the indirections from [I] on. *)
Fixpoint follow (offsets : list Z) (I n : nat) (SlotPointerNode : Value) : M Value :=
  match n with
  | O => ret SlotPointerNode
  | S n =>
      let* SlotPointerNode :=
        if (I =? 0)%nat then ret SlotPointerNode else derefAddressNonNull SlotPointerNode false in
      let* Offset := lift (offsets !! I) in
      let* SlotPointerNode :=
        if Offset =? 0 then ret SlotPointerNode
        else binaryOp TargetPointerSizeInBits Add SlotPointerNode
               (loadConstantI TargetPointerSizeInBits Offset) in
      follow offsets (S I) n SlotPointerNode
  end.

Definition runtimeLookupToNode (Kind : CORINFO_RUNTIME_LOOKUP_KIND)
    (Lookup : CORINFO_RUNTIME_LOOKUP) : M Value :=
  match indirections Lookup with
  | None =>
      let* Arg2 := handleToIRNode (signature Lookup) false true in
      let* Arg1 := lookup_context Kind in
      callRuntimeHandleHelper TargetPointerSizeInBits (lookupHelper Lookup) Arg1 Arg2 None
  | Some n =>
      let* VTableNode := lookup_context Kind in
      let* SlotPointerNode := follow (offsets Lookup) 0 n VTableNode in
      if negb (testForNull Lookup) then
        if (n =? 0)%nat then ret SlotPointerNode
        else
          let* SlotPointerNode := derefAddressNonNull SlotPointerNode false in
          if negb (testForFixup Lookup) then ret SlotPointerNode
          else conditionalDerefAddress TargetPointerSizeInBits SlotPointerNode
      else
        assert (negb (n =? 0)%nat) ;*
        let* HandleNode := derefAddressNonNull SlotPointerNode false in
        let* SignatureNode := handleToIRNode (signature Lookup) false true in
        callRuntimeHandleHelper TargetPointerSizeInBits (lookupHelper Lookup) VTableNode
          SignatureNode (Some HandleNode)
  end.

(** [genericTokenToNode]; [Inlining] is a method handle other than the
    compiled method's, [FieldClass] the runtime's [getFieldClass].  Besides the
    node the caller can ask for the static handle and for whether there is a
    runtime lookup, which are fields of [Result]. *)
Definition restore_requests (FieldClass : Z -> Z) (Result : CORINFO_GENERICHANDLE_RESULT) :
    list RestoreRequest :=
  match handleType Result with
  | CORINFO_HANDLETYPE_CLASS => [LoadClass (compileTimeHandle Result)]
  | CORINFO_HANDLETYPE_METHOD => [LoadMethod (compileTimeHandle Result)]
  | CORINFO_HANDLETYPE_FIELD => [LoadClass (FieldClass (compileTimeHandle Result))]
  | CORINFO_HANDLETYPE_UNKNOWN => []
  end.

Definition genericTokenToNode (Inlining : bool) (FieldClass : Z -> Z)
    (Result : CORINFO_GENERICHANDLE_RESULT) (MustRestoreHandle NeedResult : bool) :
    M (option Value * list RestoreRequest) :=
  assert (negb (needsRuntimeLookup Result && Inlining)) ;*
  let Requests :=
    if MustRestoreHandle && negb (needsRuntimeLookup Result)
    then restore_requests FieldClass Result else [] in
  if negb (needsRuntimeLookup Result) then
    if NeedResult then
      let* Node :=
        match constLookup Result with
        | IAT_VALUE handle => assert (negb (handle =? 0)) ;* handleToIRNode handle false true
        | IAT_PVALUE addr => handleToIRNode addr true true
        | IAT_PPVALUE _ => fail
        end in
      ret (Some Node, Requests)
    else ret (None, Requests)
  else
    let* Node := runtimeLookupToNode (runtimeLookupKind Result) (runtimeLookup Result) in
    ret (Some Node, Requests).
End generics.
End Generics.
Import GenIR Arith Memory Generics.
#[local] Open Scope emit_scope.

(** ** What a lookup finds *)

Section paths.
Context {L : LLVM}.
Variable native : Z.

(** The word at an address. *)
Definition word (p : Z) : option Z :=
  match load (IntegerTy native) p with
  | Some (RInt w) => if (0 <=? w) && (w <? 2 ^ native) then Some w else None
  | _ => None
  end.

(** From [p], the address behind the offsets: a load between any two. *)
Fixpoint chase (loaded : bool) (offs : list Z) (p : Z) : option Z :=
  match offs with
  | [] => Some p
  | o :: offs =>
      p ← (if loaded then word p else Some p); chase true offs (wrap native (p + o))
  end.

(** The handle a lookup gives; [asked] is what the runtime's helper answers. *)
Definition lookup_result (Lookup : CORINFO_RUNTIME_LOOKUP) (asked : RVal FP) (context : Z) :
    option (RVal FP) :=
  match indirections Lookup with
  | None => Some asked
  | Some n =>
      slot ← chase false (take n (offsets Lookup)) context;
      if (n =? 0)%nat then Some (RInt slot)
      else
        h ← word slot;
        if testForNull Lookup then Some (if h =? 0 then asked else RInt h)
        else if testForFixup Lookup && Z.odd h then
          target ← word (h - 1); Some (RInt target)
        else Some (RInt h)
  end.
End paths.

Lemma land_low (h : Z) : Z.land h 1 = Z.b2z (Z.odd h).
Proof. change 1 with (Z.ones 1). rewrite Z.land_ones by lia. apply Zmod_odd. Qed.

Lemma land_clear_low (n h : Z) :
  0 < n -> 0 <= h < 2 ^ n -> Z.land h (Z.lxor 1 (2 ^ n - 1)) = h - Z.b2z (Z.odd h).
Proof.
  intros Hn Hh. replace (2 ^ n - 1) with (Z.ones n) by (rewrite Z.ones_equiv; lia).
  transitivity (Z.ldiff h (Z.ones 1)).
  - apply Z.bits_inj'. intros i Hi. rewrite Z.land_spec, Z.lxor_spec, Z.ldiff_spec.
    destruct (Z.lt_ge_cases i n).
    + rewrite (Z.ones_spec_low n) by lia. by rewrite xorb_true_r.
    + rewrite <- (Z.mod_small h (2 ^ n)) by lia. by rewrite Z.mod_pow2_bits_high by lia.
  - rewrite Z.ldiff_ones_r, Z.shiftl_mul_pow2, Z.shiftr_div_pow2 by lia.
    rewrite (Z.div2_odd h) at 2. rewrite Z.div2_div. change (2 ^ 1) with 2. lia.
Qed.

(** ** The rules *)

Section rules.
Context {L : LLVM} {LS : LLVMLaws L} {native : Z} {args : list (RVal FP)}.
Hypothesis Hnative : native = 32 \/ native = 64.

#[local] Notation state := (@state L).
#[local] Notation wp := (wp native args).
#[local] Notation has := (has args).
#[local] Notation ext := (ext native args).
#[local] Notation word := (word native).
#[local] Notation chase := (chase native).

Lemma word_load (p w : Z) : word p = Some w -> load (IntegerTy native) p = Some (RInt w) /\
  0 <= w < 2 ^ native.
Proof.
  unfold word. destruct (load (IntegerTy native) p) as [[x| | | |]|]; try done.
  destruct (Z.leb_spec 0 x), (Z.ltb_spec x (2 ^ native)); simpl; try done. intros [= <-]. done.
Qed.

(** A value of the native integer type, or an unmanaged pointer. *)
Definition native_value (s : state) (v : Value) (p : Z) : Prop :=
  IRBuilder.getType v = IntegerTy native /\ has s v (RInt p) /\ 0 <= p < 2 ^ native.

Lemma native_ext (s s' : state) (v : Value) (p : Z) :
  ext s s' -> native_value s v p -> native_value s' v p.
Proof. intros He (HT & Hv & Hp). split; [done|]. split; [held|done]. Qed.

(** Loading the word behind an address. *)
Lemma wp_derefNonNull (v : Value) (p w : Z) (s : state) (Q : Value -> state -> Prop) :
  wf s -> native_value s v p -> (stop s = None -> word p = Some w) -> 0 <= w < 2 ^ native ->
  (forall r s', wf s' -> ext s s' -> stop s' = stop s -> native_value s' r w -> Q r s') ->
  wp (derefAddressNonNull native v false) s Q.
Proof.
  intros Hw (HT & Hv & Hp) Hl Hr HQ. unfold derefAddressNonNull, derefAddress. rewrite HT.
  apply wp_bind, wp_emit with (r := RInt p); [done| |].
  { intros Hs. cbn [exec_instr]. rewrite (has_int _ _ _ _ Hv Hs), HT. simpl.
    by rewrite int_cast_law, wrap_small. }
  intros a s1 HaT Hw1 He1 Hs1 Ha.
  eapply (wp_load a (IntegerTy native)); [done|exact HaT|exact Ha| |].
  { intros Hs. rewrite Hs1 in Hs. by apply word_load, Hl. }
  intros r s2 HrT Hw2 He2 Hs2 Hrv. apply HQ; [done|reach|by rewrite Hs2|]. done.
Qed.

(** Adding two native integers. *)
Lemma wp_native_add (v : Value) (p o : Z) (s : state) (Q : Value -> state -> Prop) :
  wf s -> native_value s v p ->
  (forall r s', wf s' -> ext s s' -> stop s' = stop s ->
     native_value s' r (wrap native (p + o)) -> Q r s') ->
  wp (binaryOp native Add v (loadConstantI native o)) s Q.
Proof.
  intros Hw (HT & Hv & Hp) HQ. unfold binaryOp. rewrite HT.
  assert (binaryOpType native Add (IntegerTy native) (IRBuilder.getType (loadConstantI native o)) =
    Some (IntegerTy native)) as ->.
  { unfold binaryOpType, operand_size. simpl. by rewrite Z.eqb_refl. }
  apply wp_bind, wp_ret, wp_bind. unfold pointer_case. cbn [isPointerTy].
  apply wp_ret, wp_bind. cbn [isFloatingPointTy].
  eapply wp_lift; [reflexivity|]. cbn [IsUnsigned IsOverflow].
  apply wp_bind. unfold convert_operand. rewrite HT.
  rewrite bool_decide_eq_true_2 by done. apply wp_ret, wp_bind.
  simpl IRBuilder.getType. rewrite bool_decide_eq_true_2 by done. apply wp_ret, wp_bind.
  unfold emit_operation. cbn [isFloatingPointTy andb IsOverflow Op].
  apply wp_bind, wp_ret, wp_bind. cbn [is_division andb]. apply wp_ret.
  apply wp_emit with (r := RInt (wrap native (p + o))); [done| |].
  { intros Hs. cbn [exec_instr]. unfold is_fp. rewrite HT. cbn [isFloatingPointTy].
    rewrite (has_int _ _ _ _ Hv Hs). cbn [mbind option_bind].
    unfold int_of, value_of. cbn [loadConstantI ConstantInt def]. cbn [mbind option_bind].
    rewrite int_binop_law. simpl. do 2 f_equal. unfold wrap. by rewrite Zplus_mod_idemp_r. }
  intros r s' HrT Hw' He' Hs' Hr. apply wp_ret.
  apply HQ; [done|done|done|]. split; [done|]. split; [done|].
  apply wrap_range. destruct Hnative; lia.
Qed.

(** The path through the runtime's data. *)
Lemma wp_follow (all : list Z) (n I : nat) (v : Value) (p q : Z) (s : state)
    (Q : Value -> state -> Prop) :
  wf s -> native_value s v p -> (I + n <= length all)%nat ->
  chase (negb (I =? 0)%nat) (take n (drop I all)) p = Some q ->
  (forall r s', wf s' -> ext s s' -> stop s' = stop s -> native_value s' r q -> Q r s') ->
  wp (follow native all I n v) s Q.
Proof.
  revert I v p s Q. induction n as [|n IH]; intros I v p s Q Hw Hv Hlen Hc HQ.
  - rewrite take_0 in Hc. injection Hc as <-. by apply wp_ret, HQ.
  - destruct (lookup_lt_is_Some_2 all I ltac:(lia)) as [o Ho].
    rewrite (drop_S _ o) in Hc by done. cbn [take Generics.chase] in Hc.
    cbn [follow]. apply wp_bind.
    set (k := fun v => (let* Offset := lift (all !! I) in
      let* SlotPointerNode :=
        if Offset =? 0 then ret v else binaryOp native Add v (loadConstantI native Offset) in
      follow native all (S I) n SlotPointerNode)).
    assert (Hrest : forall r s1 p1, wf s1 -> ext s s1 -> stop s1 = stop s -> native_value s1 r p1 ->
      chase true (take n (drop (S I) all)) (wrap native (p1 + o)) = Some q -> wp (k r) s1 Q).
    { intros r s1 p1 Hw1 He1 Hs1 Hr Hq. unfold k. apply wp_bind. eapply wp_lift; [exact Ho|].
      apply wp_bind. destruct (Z.eqb_spec o 0) as [->|].
      - apply wp_ret, (IH (S I) r p1); [done|done|lia| |].
        + rewrite Z.add_0_r, wrap_small in Hq by apply Hr. exact Hq.
        + intros r' s2 Hw2 He2 Hs2. apply HQ; [done|reach|by rewrite Hs2].
      - apply wp_native_add with (p := p1); [done|done|].
        intros r1 s2 Hw2 He2 Hs2 Hr1. apply (IH (S I) r1 (wrap native (p1 + o))); [done|done|lia|done|].
        intros r' s3 Hw3 He3 Hs3. apply HQ; [done|reach|by rewrite Hs3, Hs2]. }
    destruct (Nat.eqb_spec I 0) as [->|]; cbn [negb] in Hc.
    + apply wp_ret. by apply (Hrest v s p).
    + destruct (word p) as [w|] eqn:Hword; [|done]. cbn [mbind option_bind] in Hc.
      destruct (word_load p w Hword) as [_ Hwr].
      apply (wp_derefNonNull v p w); [done|done|done|done|].
      intros r s1 Hw1 He1 Hs1 Hr. by apply (Hrest r s1 w).
Qed.

Lemma chase_range (loaded : bool) (offs : list Z) (p q : Z) :
  0 <= p < 2 ^ native -> chase loaded offs p = Some q -> 0 <= q < 2 ^ native.
Proof.
  assert (0 <= native) by (destruct Hnative; lia).
  revert loaded p. induction offs as [|o offs IH]; intros loaded p Hp H'; simpl in H'.
  - by injection H' as <-.
  - destruct loaded.
    + destruct (word p) as [w|]; [|done]. cbn [mbind option_bind] in H'.
      apply (IH true _ (wrap_range native _ ltac:(lia)) H').
    + apply (IH true _ (wrap_range native _ ltac:(lia)) H').
Qed.

(** A handle that the loader places. *)
Lemma wp_handle (h : Z) (s : state) (Q : Value -> state -> Prop) :
  wf s ->
  (forall r s', wf s' -> ext s s' -> stop s' = stop s -> native_value s' r (wrap native h) -> Q r s') ->
  wp (handleToIRNode native h false true) s Q.
Proof.
  intros Hw HQ. unfold handleToIRNode. apply wp_bind.
  apply wp_emit with (r := RInt (wrap native h)); [done| |].
  { intros Hs. cbn [exec_instr]. unfold int_of. simpl. by rewrite int_cast_law. }
  intros r s1 HrT Hw1 He1 Hs1 Hr. apply wp_ret, HQ; [done|done|done|].
  split; [done|]. split; [done|]. apply wrap_range. destruct Hnative; lia.
Qed.

(** The virtual method table of an object, behind a null check. *)
Lemma wp_method_table (v : Value) (E : Ty) (A p w : Z) (s : state) (Q : Value -> state -> Prop) :
  wf s -> IRBuilder.getType v = PointerTy E A -> has s v (RInt p) -> 0 <= p < 2 ^ native ->
  (stop s = None -> p <> 0 -> word p = Some w) -> 0 <= w < 2 ^ native ->
  (forall r s', wf s' -> ext s s' ->
     stop s' = check (negb (p =? 0)) CORINFO_HELP_THROWNULLREF (stop s) ->
     native_value s' r w -> Q r s') ->
  wp (derefAddress native v false true) s Q.
Proof.
  intros Hw HT Hv Hp Hl Hr HQ. unfold derefAddress. rewrite HT.
  assert (Hload : forall a s1 B, wf s1 -> ext s s1 -> stop s1 = stop s ->
    IRBuilder.getType a = PointerTy (IntegerTy native) B -> has s1 a (RInt p) ->
    wp (makeLoad a false true None) s1 Q).
  { intros a s1 B Hw1 He1 Hs1 HaT Ha. unfold makeLoad. cbn [andb UseExplicitNullChecks].
    apply wp_bind, (wp_null_check a p); [done|done|]. intros s2 Hw2 He2 Hs2. rewrite HaT.
    apply wp_bind, wp_ret. apply wp_emit with (r := RInt w); [done| |].
    { intros Hs. cbn [exec_instr]. rewrite (has_int _ _ _ _ (has_ext _ _ _ _ _ _ He2 Ha) Hs).
      rewrite Hs2 in Hs. apply check_None in Hs as [Hne Hs]. rewrite Hs1 in Hs.
      cbn [mbind option_bind]. destruct (word_load p w) as [-> _]; [|done].
      apply Hl; [done|]. by apply Z.eqb_neq, negb_true_iff. }
    intros r s3 HrT Hw3 He3 Hs3 Hrv. apply HQ; [done|reach|by rewrite Hs3, Hs2, Hs1|done]. }
  apply wp_bind. destruct (bool_decide_reflect (E = Arith.NativeIntTy native)) as [->|].
  - by apply wp_ret, (Hload v s A).
  - set (T := if A =? ManagedAddressSpace then _ else _).
    assert (HTp : exists B, T = PointerTy (IntegerTy native) B).
    { unfold T. destruct (A =? ManagedAddressSpace); by eexists. }
    destruct HTp as [B HB]. apply wp_emit with (r := RInt p); [done| |].
    { intros Hs. cbn [exec_instr]. rewrite (has_int _ _ _ _ Hv Hs), HT, HB. simpl.
      by rewrite int_cast_law, wrap_small. }
    intros a s1 HaT Hw1 He1 Hs1 Ha. by apply (Hload a s1 B); try rewrite HaT.
Qed.

(** A handle whose low bit says that it stands for another one. *)
Lemma wp_conditional_deref (v : Value) (h r : Z) (s : state) (Q : Value -> state -> Prop) :
  wf s -> native_value s v h ->
  (if Z.odd h then word (h - 1) = Some r else r = h) ->
  (forall r' s', wf s' -> ext s s' -> stop s' = stop s -> has s' r' (RInt r) -> Q r' s') ->
  wp (conditionalDerefAddress native v) s Q.
Proof.
  intros Hw (HT & Hv & Hh) Hr HQ. unfold conditionalDerefAddress.
  assert (Hn : 1 < native) by (destruct Hnative; lia).
  assert (H2 : 2 ^ 1 < 2 ^ native) by (apply Z.pow_lt_mono_r; lia).
  apply wp_bind, wp_emit with (r := RInt h); [done| |].
  { intros Hs. cbn [exec_instr]. rewrite (has_int _ _ _ _ Hv Hs), HT. simpl.
    by rewrite int_cast_law, wrap_small. }
  intros a s1 HaT Hw1 He1 Hs1 Ha. apply wp_bind.
  apply wp_emit with (r := RInt (Z.land h 1)); [done| |].
  { intros Hs. cbn [exec_instr]. unfold is_fp. rewrite HaT. cbn.
    rewrite (has_int _ _ _ _ Ha Hs). cbn [mbind option_bind]. unfold int_of. simpl.
    by rewrite int_binop_law, (wrap_small native 1) by lia. }
  intros t s2 HtT Hw2 He2 Hs2 Ht. apply wp_bind.
  apply wp_emit with (r := RInt (Z.b2z (Z.odd h))); [done| |].
  { intros Hs. cbn [exec_instr]. rewrite (has_int _ _ _ _ Ht Hs). cbn [mbind option_bind].
    unfold int_of. simpl. rewrite icmp_law, (wrap_small native 1) by lia. simpl.
    do 4 f_equal. rewrite land_low. by destruct (Z.odd h). }
  intros c s3 HcT Hw3 He3 Hs3 Hc. apply wp_bind.
  apply wp_emit with (r := RInt (Z.lxor 1 (2 ^ native - 1))); [done| |].
  { intros Hs. cbn [exec_instr]. unfold int_of. simpl.
    by rewrite int_binop_law, (wrap_small native 1) by lia. }
  intros m s4 HmT Hw4 He4 Hs4 Hm. apply wp_bind.
  assert (Hmask : Z.land h (Z.lxor 1 (2 ^ native - 1)) = h - Z.b2z (Z.odd h))
    by (apply land_clear_low; lia).
  apply wp_emit with (r := RInt (h - Z.b2z (Z.odd h))); [done| |].
  { intros Hs. cbn [exec_instr]. unfold is_fp. rewrite HaT. cbn.
    rewrite (has_int _ _ _ _ (has_ext _ _ _ _ _ _ (transitivity He2 (transitivity He3 He4)) Ha) Hs),
      (has_int _ _ _ _ Hm Hs). cbn [mbind option_bind]. by rewrite int_binop_law; simpl; rewrite Hmask. }
  intros x s5 HxT Hw5 He5 Hs5 Hx. apply wp_bind.
  assert (Hodd : 0 <= h - Z.b2z (Z.odd h) < 2 ^ native).
  { destruct (Z.odd h) eqn:Ho; simpl; [|lia]. destruct (Z.eq_dec h 0) as [->|]; [done|lia]. }
  apply wp_emit with (r := RInt (h - Z.b2z (Z.odd h))); [done| |].
  { intros Hs. cbn [exec_instr]. rewrite (has_int _ _ _ _ Hx Hs), HxT. simpl.
    by rewrite int_cast_law, wrap_small. }
  intros d s6 HdT Hw6 He6 Hs6 Hd.
  assert (Hall : ext s s6 /\ ext s3 s6) by (split; reach). destruct Hall as [Hs06 Hs36].
  apply wp_emit with (r := RInt r); [done| |].
  { intros Hs. cbn [exec_instr]. rewrite (has_int _ _ _ _ (has_ext _ _ _ _ _ _ Hs36 Hc) Hs),
      (has_int _ _ _ _ Hd Hs), HT. cbn [mbind option_bind].
    destruct (Z.odd h); simpl in *.
    - by destruct (word_load _ _ Hr) as [-> _].
    - subst r. by rewrite (has_ext _ _ _ _ _ _ Hs06 Hv Hs). }
  intros v' s7 _ Hw7 He7 Hs7 Hv'. apply HQ; [done|reach| |done].
  by rewrite Hs7, Hs6, Hs5, Hs4, Hs3, Hs2, Hs1.
Qed.

(** The helper, asked at once or when the handle is null. *)
Lemma wp_ask (H : CorInfoHelpFunc) (A B : Value) (x y : Z) (asked : RVal FP) (Check : option Value)
    (h : Z) (s : state) (Q : Value -> state -> Prop) :
  wf s -> has s A (RInt x) -> has s B (RInt y) -> helper H [RInt x; RInt y] = Returns asked ->
  (forall C, Check = Some C -> native_value s C h) ->
  (forall r s', wf s' -> ext s s' -> stop s' = stop s ->
     has s' r (match Check with Some _ => if h =? 0 then asked else RInt h | None => asked end) ->
     Q r s') ->
  wp (callRuntimeHandleHelper native H A B Check) s Q.
Proof.
  intros Hw HA HB Hh HC HQ.
  assert (HM : forall s', ext s s' -> stop s' = None ->
    mapM (value_of args (registers s')) [A; B] = Some [RInt x; RInt y]).
  { intros s' He Hs. simpl. rewrite (has_ext _ _ _ _ _ _ He HA Hs).
    by rewrite (has_ext _ _ _ _ _ _ He HB Hs). }
  assert (Hcall : forall Q', (forall r s', wf s' -> ext s s' -> stop s' = stop s ->
    has s' r asked -> Q' r s') ->
    wp (callHelperImpl H (Arith.NativeIntTy native) [A; B] false) s Q').
  { intros Q' HQ'. unfold callHelperImpl. cbn [andb]. apply wp_bind.
    apply wp_emit with (r := asked); [done| |].
    { intros Hs. cbn [exec_instr]. by rewrite HM by done. }
    intros r s1 _ Hw1 He1 Hs1 Hr. by apply wp_bind, wp_ret, wp_ret, HQ'. }
  unfold callRuntimeHandleHelper. destruct Check as [C|]; [|by apply Hcall].
  destruct (HC C eq_refl) as (HT & Hv & Hr). destruct (isConstantNull C) eqn:Hnull.
  - apply Hcall. intros r s1 Hw1 He1 Hs1 Hra. apply HQ; [done|done|done|].
    intros Hs. rewrite (Hra Hs). rewrite Hs1 in Hs. specialize (Hv Hs).
    unfold isConstantNull in Hnull. unfold value_of in Hv. destruct (def C); try done.
    apply Z.eqb_eq in Hnull as ->. by injection Hv as <-.
  - apply wp_bind, wp_emit with (r := RInt (Z.b2z (h =? 0))); [done| |].
    { intros Hs. cbn [exec_instr]. rewrite (has_int _ _ _ _ Hv Hs). simpl. by rewrite icmp_law. }
    intros c s1 _ Hw1 He1 Hs1 Hc.
    apply wp_emit with (r := if h =? 0 then asked else RInt h); [done| |].
    { intros Hs. cbn [exec_instr]. rewrite (has_int _ _ _ _ Hc Hs), HM by done.
      destruct (h =? 0); simpl; [done|]. by rewrite (has_ext _ _ _ _ _ _ He1 Hv Hs). }
    intros r s2 _ Hw2 He2 Hs2 Hrv. apply HQ; [done|reach|by rewrite Hs2|done].
Qed.

Lemma wp_runtimeLookupToNode (instParam thisObj : Value) (Kind : CORINFO_RUNTIME_LOOKUP_KIND)
    (Lookup : CORINFO_RUNTIME_LOOKUP) (E : Ty) (A context this : Z) (asked r : RVal FP)
    (s : state) (Q : Value -> state -> Prop) :
  wf s -> 0 <= context < 2 ^ native -> 0 <= this < 2 ^ native ->
  (Kind <> CORINFO_LOOKUP_THISOBJ -> native_value s instParam context) ->
  (Kind = CORINFO_LOOKUP_THISOBJ -> IRBuilder.getType thisObj = PointerTy E A /\
     has s thisObj (RInt this) /\ (this <> 0 -> word this = Some context)) ->
  helper (lookupHelper Lookup) [RInt context; RInt (wrap native (signature Lookup))] =
    Returns asked ->
  (forall n, indirections Lookup = Some n ->
     (n <= length (offsets Lookup))%nat /\ (testForNull Lookup = true -> n <> O)) ->
  lookup_result native Lookup asked context = Some r ->
  (forall v s', wf s' -> ext s s' ->
     stop s' = check (negb (bool_decide (Kind = CORINFO_LOOKUP_THISOBJ) && (this =? 0)))
                 CORINFO_HELP_THROWNULLREF (stop s) ->
     has s' v r -> Q v s') ->
  wp (runtimeLookupToNode native instParam thisObj Kind Lookup) s Q.
Proof.
  intros Hw Hctx Hthis Hinst Hobj Hh Hn Hr HQ.
  set (ok := negb (bool_decide (Kind = CORINFO_LOOKUP_THISOBJ) && (this =? 0))) in *.
  assert (Hcontext : forall s0 Q', wf s0 -> ext s s0 -> stop s0 = stop s ->
    (forall v s', wf s' -> ext s0 s' -> stop s' = check ok CORINFO_HELP_THROWNULLREF (stop s) ->
       native_value s' v context -> Q' v s') ->
    wp (lookup_context native instParam thisObj Kind) s0 Q').
  { intros s0 Q' Hw0 He0 Hs0 HQ'.
    assert (Hplain : check true CORINFO_HELP_THROWNULLREF (stop s) = stop s)
      by by destruct (stop s).
    unfold lookup_context. destruct Kind; simpl in ok; subst ok.
    - destruct (Hobj eq_refl) as (HT & Hv & Hword). simpl.
      apply (wp_method_table thisObj E A this context); [done|done|held|done|by intros _|done|].
      intros v s1 Hw1 He1 Hs1. apply HQ'; [done|done|by rewrite Hs1, Hs0].
    - apply wp_ret, HQ'; [done|done|by rewrite Hplain|]. by apply (native_ext s), Hinst.
    - apply wp_ret, HQ'; [done|done|by rewrite Hplain|]. by apply (native_ext s), Hinst. }
  unfold runtimeLookupToNode. unfold lookup_result in Hr.
  destruct (indirections Lookup) as [n|] eqn:Hi.
  - destruct (chase false (take n (offsets Lookup)) context) as [slot|] eqn:Hc; [|done].
    cbn [mbind option_bind] in Hr. destruct (Hn n eq_refl) as [Hlen Hnull].
    apply wp_bind, Hcontext; [done|done|done|]. intros V s1 Hw1 He1 Hs1 HV.
    apply wp_bind. apply (wp_follow (offsets Lookup) n 0 V context slot);
      [done|done|lia|by rewrite drop_0|].
    intros S s2 Hw2 He2 Hs2 HS. rewrite Hs1 in Hs2.
    destruct (Nat.eqb_spec n 0) as [->|Hn0].
    + destruct (testForNull Lookup); [by destruct (Hnull eq_refl)|]. cbn [negb].
      injection Hr as <-. apply wp_ret, HQ; [done|reach|done|apply HS].
    + destruct (word slot) as [h|] eqn:Hword; [|done]. cbn [mbind option_bind] in Hr.
      destruct (word_load slot h Hword) as [_ Hhr].
      destruct (testForNull Lookup); cbn [negb].
      * apply wp_bind, wp_assert; [done|]. apply wp_bind.
        apply (wp_derefNonNull S slot h); [done|done|done|done|].
        intros HN s3 Hw3 He3 Hs3 HHN. apply wp_bind, wp_handle; [done|].
        intros Sig s4 Hw4 He4 Hs4 (_ & HSig & _). injection Hr as <-.
        apply (wp_ask _ V Sig context (wrap native (signature Lookup)) asked (Some HN) h);
          [done| |done|done| |].
        -- destruct HV as (_ & HV & _). held.
        -- intros C [= <-]. by apply (native_ext s3).
        -- intros v s5 Hw5 He5 Hs5 Hv. apply HQ; [done|reach| |done].
           by rewrite Hs5, Hs4, Hs3, Hs2.
      * apply wp_bind, (wp_derefNonNull S slot h); [done|done|done|done|].
        intros HN s3 Hw3 He3 Hs3 HHN. destruct (testForFixup Lookup); cbn [negb andb] in *.
        -- destruct (Z.odd h) eqn:Ho.
           ++ destruct (word (h - 1)) as [target|] eqn:Ht; [|done]. injection Hr as <-.
              apply (wp_conditional_deref HN h target); [done|done|by rewrite Ho|].
              intros v s4 Hw4 He4 Hs4 Hv. apply HQ; [done|reach|by rewrite Hs4, Hs3, Hs2|done].
           ++ injection Hr as <-.
              apply (wp_conditional_deref HN h h); [done|done|by rewrite Ho|].
              intros v s4 Hw4 He4 Hs4 Hv. apply HQ; [done|reach|by rewrite Hs4, Hs3, Hs2|done].
        -- injection Hr as <-. apply wp_ret, HQ; [done|reach|by rewrite Hs3, Hs2|apply HHN].
  - injection Hr as <-. apply wp_bind, wp_handle; [done|].
    intros Sig s1 Hw1 He1 Hs1 (_ & HSig & _). apply wp_bind, Hcontext; [done|done|done|].
    intros V s2 Hw2 He2 Hs2 (_ & HV & _).
    apply (wp_ask _ V Sig context (wrap native (signature Lookup)) asked None 0);
      [done|done|held|done|done|].
    intros v s3 Hw3 He3 Hs3 Hv. apply HQ; [done|reach|by rewrite Hs3|done].
Qed.

End rules.

(** C20: The code of a runtime lookup finds the handle of the exact instantiation.
    It starts from the generic context of the method (the instantiation
    argument, or the method table of this, behind a null check), follows the
    path the runtime gives with one load between two offsets, and ends in the
    handle the last word holds: behind one more indirection if a fixup is
    pending, or from the runtime's helper if the word is null or there is no
    path. *)
Theorem runtime_lookup_correct {L : LLVM} (LS : LLVMLaws L) (native : Z)
    (Kind : CORINFO_RUNTIME_LOOKUP_KIND) (Lookup : CORINFO_RUNTIME_LOOKUP) (E : Ty)
    (A context this : Z) (asked r : RVal FP)
    (Hnative : native = 32 \/ native = 64)
    (Hcontext : 0 <= context < 2 ^ native) (Hthis : 0 <= this < 2 ^ native)
    (Htable : Kind = CORINFO_LOOKUP_THISOBJ -> this <> 0 -> word native this = Some context)
    (Hhelper : helper (lookupHelper Lookup)
       [RInt context; RInt (wrap native (signature Lookup))] = Returns asked)
    (Hoffsets : forall n, indirections Lookup = Some n ->
       (n <= length (offsets Lookup))%nat /\ (testForNull Lookup = true -> n <> O))
    (Hresult : lookup_result native Lookup asked context = Some r) :
  run native [RInt context; RInt this]
    (runtimeLookupToNode native (MkValue (Arg 0) (IntegerTy native))
       (MkValue (Arg 1) (PointerTy E A)) Kind Lookup) =
  Some (if bool_decide (Kind = CORINFO_LOOKUP_THISOBJ) && (this =? 0)
        then Throws CORINFO_HELP_THROWNULLREF else Returns r).
Proof.
  rewrite (run_wp native _ _
    (check (negb (bool_decide (Kind = CORINFO_LOOKUP_THISOBJ) && (this =? 0)))
       CORINFO_HELP_THROWNULLREF None) r).
  - by destruct (bool_decide _ && _).
  - apply (wp_runtimeLookupToNode Hnative _ _ Kind Lookup E A context this asked r); try done.
    + apply wf_start.
    + intros HK. split; [done|]. split; [by apply has_arg|]. by apply Htable.
Qed.

(** The method table of this is at 512; its word at 512 + 16 is 640, and the
    word at 640 + 8 holds the handle 777, which is another one's fixup. *)
Lemma runtime_lookup_correct_witness :
  run (L := DemoMemory (fun _ => [])
              (fun _ p => if p =? 1000 then Some (RInt 512) else
                          if p =? 528 then Some (RInt 640) else
                          if p =? 648 then Some (RInt 777) else
                          if p =? 776 then Some (RInt 42) else None) (fun _ _ => false))
    64 [RInt 512; RInt 1000]
    (runtimeLookupToNode 64 (MkValue (Arg 0) (IntegerTy 64))
       (MkValue (Arg 1) (PointerTy (StructTy 3) ManagedAddressSpace)) CORINFO_LOOKUP_THISOBJ
       (MkLookup 99 CORINFO_HELP_MEMCPY (Some 2%nat) false true [16; 8])) =
  Some (Returns (RInt 42)).
Proof.
  refine (runtime_lookup_correct (DemoMemory_laws _ _ _) 64 CORINFO_LOOKUP_THISOBJ
    (MkLookup 99 CORINFO_HELP_MEMCPY (Some 2%nat) false true [16; 8]) (StructTy 3)
    ManagedAddressSpace 512 1000 (RInt 0) (RInt 42) _ _ _ _ _ _ _); try done.
  - by right.
  - intros n [= <-]. by split; [simpl; lia|].
Defined.
