(* ===== verification/Fields.v ===== *)
(** * Fields (lib/Reader/readerir.cpp, reader.cpp)

    Addresses of instance and static fields, their loads and stores, and the
    helper calls the runtime may ask for instead. *)

From S2P Require Import Prelude Opcodes IRBuilder GenIRTypes Conv Arith IRLogic Memory Objects Generics.
Import ReaderBaseNS.

(** ** What the runtime says about a field *)

Inductive CORINFO_FIELD_ACCESSOR : Set :=
  | CORINFO_FIELD_INSTANCE | CORINFO_FIELD_INSTANCE_WITH_BASE
  | CORINFO_FIELD_INSTANCE_HELPER | CORINFO_FIELD_INSTANCE_ADDR_HELPER
  | CORINFO_FIELD_STATIC_ADDRESS | CORINFO_FIELD_STATIC_RVA_ADDRESS
  | CORINFO_FIELD_STATIC_SHARED_STATIC_HELPER | CORINFO_FIELD_STATIC_GENERICS_STATIC_HELPER
  | CORINFO_FIELD_STATIC_ADDR_HELPER | CORINFO_FIELD_STATIC_TLS
  | CORINFO_FIELD_INTRINSIC_ZERO | CORINFO_FIELD_INTRINSIC_EMPTY_STRING.

#[export] Instance field_accessor_eq_dec : EqDecision CORINFO_FIELD_ACCESSOR.
Proof. solve_decision. Defined.

(** An argument of the helper that checks an access: a handle, whether it is
    behind an indirection, or a constant. *)
Inductive CORINFO_HELPER_ARG : Set :=
  | HelperHandle (Handle : Z) (IsIndirect : bool)
  | HelperConst (constant : Z).

Record CORINFO_HELPER_DESC := MkHelperDesc {
  helperNum : CorInfoHelpFunc; helperArgs : list CORINFO_HELPER_ARG }.

(** [fieldFlags] as the two flags the reader tests; no callout for an access
    that is allowed. *)
Record CORINFO_FIELD_INFO := MkFieldInfo {
  fieldAccessor : CORINFO_FIELD_ACCESSOR;
  fieldStatic : bool;
  fieldInHeap : bool;
  fieldHelper : CorInfoHelpFunc;
  fieldOffset : Z;
  fieldType : GenIR.CorInfoType;
  structType : option Z;
  accessCallout : option CORINFO_HELPER_DESC;
  fieldLookup : option CORINFO_CONST_LOOKUP
}.

(** Why the reader asks; [CORINFO_ACCESS_ANY], which it adds for instance
    fields, is 0. *)
Inductive CORINFO_ACCESS_FLAGS : Set :=
  | CORINFO_ACCESS_GET | CORINFO_ACCESS_SET | CORINFO_ACCESS_ADDRESS.

(** What field accesses ask of the runtime and of the reader's own tables: a
    class handle is a value or the address of one, the static data has an
    address, and a field its index in the structure of its class. *)
Class FieldRuntime := {
  getFieldInfo : ResolvedToken -> CORINFO_ACCESS_FLAGS -> CORINFO_FIELD_INFO;
  emptyStringLiteral : CORINFO_CONST_LOOKUP;
  constructStringLiteral : Z -> CORINFO_CONST_LOOKUP;
  isReadyToRun : bool;
  MAX_UNCHECKED_OFFSET_FOR_NULL_OBJECT : Z;
  embedGenericHandle : ResolvedToken -> bool -> CORINFO_GENERICHANDLE_RESULT;
  embedClassHandle : Z -> Z * bool;
  getEmbedModuleDomainIDForStatics : Z -> Z * bool;
  getEmbedClassDomainID : Z -> Z * bool;
  isWriteBarrierHelperRequired : Z -> bool;
  accessStaticFieldRequiresClassConstructor : Z -> bool;
  getSharedCCtorHelper : Z -> CorInfoHelpFunc;
  getStaticFieldAddress : Z -> Z * bool;
  FieldIndexMap : Z -> option Z;
  StructName : Z -> string;
  VectorTypeToStructType : Ty -> option Ty;
  doSimdIntrinsicOpt : bool
}.

(** The answers of the dominator caches of [DomInfo] at the current block, and
    the records that the access leaves there. *)
Record DominatorFacts := MkFacts {
  hasClassInit : Z -> bool;
  definesSharedStaticBase : CorInfoHelpFunc -> Z -> option Value * CorInfoHelpFunc * bool
}.

Inductive DominatorRecord : Type :=
  | ClassInit (Class : Z)
  | SharedStaticBase (HelperId : CorInfoHelpFunc) (Class : Z) (Base : Value).

Module Fields.
Import GenIR Arith Memory Objects Generics.
#[local] Open Scope emit_scope.

Section fields.
Variable TargetPointerSizeInBits : Z.
Context `{ReaderTypes} `{ObjectRuntime} `{FieldRuntime}.
Variables (instParam thisObj : Value).

#[local] Notation NativeIntTy := (NativeIntTy TargetPointerSizeInBits).
#[local] Notation handleToIRNode := (handleToIRNode TargetPointerSizeInBits).
#[local] Notation loadConstantI := (loadConstantI TargetPointerSizeInBits).
#[local] Notation binaryOp := (binaryOp TargetPointerSizeInBits).

(** [loadNull]; [makePtrNode] and [makePtrDstGCOperand] give it too, for the
    type of a helper's result. *)
Definition NullType : Ty := getManagedPointerType (IntegerTy 8).

Definition tokenNode (Token : ResolvedToken) (EmbedParent : bool) : M Value :=
  let* (Node, Requests) :=
    genericTokenToNode TargetPointerSizeInBits instParam thisObj false (fun _ => 0)
      (embedGenericHandle Token EmbedParent) false true in
  lift Node.

(** ** Access checks *)

Definition helper_argument (A : CORINFO_HELPER_ARG) : M Value :=
  match A with
  | HelperHandle Handle IsIndirect => handleToIRNode Handle IsIndirect true
  | HelperConst constant => ret (ConstantInt 64 (s32 constant))
  end.

Fixpoint helper_arguments (l : list CORINFO_HELPER_ARG) : M (list Value) :=
  match l with
  | [] => ret []
  | A :: l =>
      let* Node := helper_argument A in
      let* Nodes := helper_arguments l in
      ret (Node :: Nodes)
  end.

Definition insertHelperCall (AccessAllowedInfo : CORINFO_HELPER_DESC) : M unit :=
  assert (length (helperArgs AccessAllowedInfo) <=? 4)%nat ;*
  let* HelperArgNodes := helper_arguments (helperArgs AccessAllowedInfo) in
  callHelper (helperNum AccessAllowedInfo) None HelperArgNodes false ;* ret tt.

Definition handleMemberAccess (AccessHelper : option CORINFO_HELPER_DESC) : M unit :=
  match AccessHelper with None => ret tt | Some D => insertHelperCall D end.

(** ** Instance fields *)

(** The path through the structure type, where the field's index is known and
    fits the type at hand. *)
Definition struct_field_index (FieldHandle : option Z) (BaseObjTy : Ty) : option Z :=
  match FieldHandle, BaseObjTy with
  | Some F, StructTy id =>
      FieldIndex ← FieldIndexMap F;
      if FieldIndex <? Z.of_nat (length (StructElements id)) then Some FieldIndex else None
  | _, _ => None
  end.

Definition simpleFieldAddress (BaseAddress : Value) (Token : ResolvedToken)
    (FieldInfo : CORINFO_FIELD_INFO) : M Value :=
  let* FieldIndex :=
    if negb isReadyToRun then
      let* BaseObjTy := lift (getPointerElementType (IRBuilder.getType BaseAddress)) in
      match struct_field_index (hField Token) BaseObjTy with
      | Some FieldIndex =>
          assert (match BaseObjTy with
                  | StructTy id =>
                      ElementOffset id (Z.to_nat FieldIndex) =? fieldOffset FieldInfo
                  | _ => false
                  end) ;*
          ret (Some FieldIndex)
      | None => ret None
      end
    else ret None in
  match FieldIndex with
  | Some FieldIndex => CreateStructGEP BaseAddress FieldIndex
  | None =>
      let* BaseAddress :=
        if isReadyToRun &&
           bool_decide (fieldAccessor FieldInfo = CORINFO_FIELD_INSTANCE_WITH_BASE) then
          match fieldLookup FieldInfo with
          | Some (IAT_VALUE EmbHandle | IAT_PPVALUE EmbHandle) =>
              let* BaseClassSize := handleToIRNode EmbHandle false true in
              binaryOp Add BaseAddress BaseClassSize
          | Some (IAT_PVALUE EmbHandle) =>
              let* BaseClassSize := handleToIRNode EmbHandle true true in
              binaryOp Add BaseAddress BaseClassSize
          | None => ret BaseAddress
          end
        else ret BaseAddress in
      if negb (fieldOffset FieldInfo =? 0)
      then binaryOp Add BaseAddress (loadConstantI (fieldOffset FieldInfo))
      else ret BaseAddress
  end.

(** ** Static fields *)

Definition rdrCallGetStaticBase (Class : Z) (HelperId : CorInfoHelpFunc) (Dst : option Ty) : M Value :=
  let '(EmbedModuleDomainID, IsIndirect) := getEmbedModuleDomainIDForStatics Class in
  let '(EmbedClassDomainID, IsIndirect2) := getEmbedClassDomainID Class in
  assert (negb (Z.testbit Class 1)) ;*
  let* ModuleDomainIDNode := handleToIRNode EmbedModuleDomainID IsIndirect IsIndirect in
  assert (negb (Z.testbit Class 0)) ;*
  let* ClassDomainIDNode := handleToIRNode EmbedClassDomainID IsIndirect2 IsIndirect2 in
  callHelper HelperId Dst [ModuleDomainIDNode; ClassDomainIDNode] false.

(** The helpers a shared static base may come from. *)
Definition shared_base_helper (HelperId : CorInfoHelpFunc) : bool :=
  match HelperId with
  | CORINFO_HELP_GETSHARED_GCSTATIC_BASE | CORINFO_HELP_GETSHARED_NONGCSTATIC_BASE
  | CORINFO_HELP_GETSHARED_GCSTATIC_BASE_NOCTOR | CORINFO_HELP_GETSHARED_NONGCSTATIC_BASE_NOCTOR
  | CORINFO_HELP_GETSHARED_GCSTATIC_BASE_DYNAMICCLASS
  | CORINFO_HELP_GETSHARED_NONGCSTATIC_BASE_DYNAMICCLASS
  | CORINFO_HELP_GETSHARED_GCTHREADSTATIC_BASE | CORINFO_HELP_GETSHARED_NONGCTHREADSTATIC_BASE
  | CORINFO_HELP_GETSHARED_GCTHREADSTATIC_BASE_NOCTOR
  | CORINFO_HELP_GETSHARED_NONGCTHREADSTATIC_BASE_NOCTOR
  | CORINFO_HELP_GETSHARED_GCTHREADSTATIC_BASE_DYNAMICCLASS
  | CORINFO_HELP_GETSHARED_NONGCTHREADSTATIC_BASE_DYNAMICCLASS
  | CORINFO_HELP_READYTORUN_STATIC_BASE => true
  | _ => false
  end.

(** A boxed static: the data is behind the header of the object that the
    field's address holds. *)
Definition boxed_static (FieldInfo : CORINFO_FIELD_INFO) (AddressNode : Value) : M Value :=
  if fieldInHeap FieldInfo then
    let* BoxedAddressNode := derefAddressNonNull TargetPointerSizeInBits AddressNode true in
    binaryOp Add BoxedAddressNode (loadConstantI (getPointerByteSize TargetPointerSizeInBits))
  else ret AddressNode.

(** The base of the shared statics, from the caches or from a helper. *)
Definition shared_static_base (Dom : DominatorFacts) (Token : ResolvedToken)
    (FieldInfo : CORINFO_FIELD_INFO) : M (Value * list DominatorRecord) :=
  if bool_decide (fieldAccessor FieldInfo = CORINFO_FIELD_STATIC_GENERICS_STATIC_HELPER) then
    let* ClassHandleNode := tokenNode Token true in
    let* Base := callHelper (fieldHelper FieldInfo) (Some NullType) [ClassHandleNode] false in
    ret (Base, [])
  else
    assert (shared_base_helper (fieldHelper FieldInfo)) ;*
    let '(Cached, HelperId, NoCtor) :=
      definesSharedStaticBase Dom (fieldHelper FieldInfo) (hClass Token) in
    match Cached with
    | Some Base => ret (Base, [])
    | None =>
        let* Base :=
          if isReadyToRun then
            assert (bool_decide (HelperId = CORINFO_HELP_READYTORUN_STATIC_BASE)) ;*
            let* HelperAddress :=
              match fieldLookup FieldInfo with
              | Some (IAT_VALUE Address) =>
                  assert (negb (Address =? 0)) ;* handleToIRNode Address false true
              | Some (IAT_PVALUE Address) =>
                  assert (negb (Address =? 0)) ;* handleToIRNode Address true true
              | Some (IAT_PPVALUE _) | None => fail
              end in
            callHelperAt HelperId HelperAddress (Some NullType) [] false
          else rdrCallGetStaticBase (hClass Token) HelperId (Some NullType) in
        ret (Base, [ClassInit (hClass Token); SharedStaticBase HelperId (hClass Token) Base])
    end.

(** The class constructor of a static with a fixed address, unless a dominator
    has run it. *)
Definition run_class_constructor (Dom : DominatorFacts) (Token : ResolvedToken) (Field : Z) :
    M (list DominatorRecord) :=
  if accessStaticFieldRequiresClassConstructor Field && negb (hasClassInit Dom (hClass Token)) then
    let '(_, HelperId, NoCtor) :=
      definesSharedStaticBase Dom (getSharedCCtorHelper (hClass Token)) (hClass Token) in
    assert (negb NoCtor) ;*
    rdrCallGetStaticBase (hClass Token) HelperId None ;*
    ret [ClassInit (hClass Token)]
  else ret [].

Definition rdrGetStaticFieldAddress (Dom : DominatorFacts) (Token : ResolvedToken)
    (FieldInfo : CORINFO_FIELD_INFO) : M (Value * list DominatorRecord) :=
  assert (fieldStatic FieldInfo) ;*
  handleMemberAccess (accessCallout FieldInfo) ;*
  match fieldAccessor FieldInfo with
  | CORINFO_FIELD_STATIC_TLS | CORINFO_FIELD_STATIC_ADDR_HELPER =>
      let* FieldHandleNode := tokenNode Token false in
      let* Address :=
        callHelper (fieldHelper FieldInfo) (Some NullType) [FieldHandleNode] false in
      ret (Address, [])
  | CORINFO_FIELD_STATIC_SHARED_STATIC_HELPER | CORINFO_FIELD_STATIC_GENERICS_STATIC_HELPER =>
      let* (Base, Records) := shared_static_base Dom Token FieldInfo in
      let* AddressNode := binaryOp Add Base (loadConstantI (fieldOffset FieldInfo)) in
      let* AddressNode := boxed_static FieldInfo AddressNode in
      ret (AddressNode, Records)
  | CORINFO_FIELD_STATIC_ADDRESS | CORINFO_FIELD_STATIC_RVA_ADDRESS =>
      let* Field := lift (hField Token) in
      let* Records := run_class_constructor Dom Token Field in
      let '(FieldAddress, IsIndirect) := getStaticFieldAddress Field in
      assert (negb (FieldAddress =? 0)) ;*
      assert (negb (Z.testbit Field 0)) ;*
      let* AddressNode := handleToIRNode FieldAddress IsIndirect true in
      let* AddressNode := boxed_static FieldInfo AddressNode in
      ret (AddressNode, Records)
  | _ => fail
  end.

(** ** Addresses *)

Definition rdrGetFieldAddress (Dom : DominatorFacts) (Token : ResolvedToken)
    (FieldInfo : CORINFO_FIELD_INFO) (Obj : Value) (MustNullCheck : bool) :
    M (Value * list DominatorRecord) :=
  if fieldStatic FieldInfo then rdrGetStaticFieldAddress Dom Token FieldInfo
  else
    handleMemberAccess (accessCallout FieldInfo) ;*
    match fieldAccessor FieldInfo with
    | CORINFO_FIELD_INSTANCE | CORINFO_FIELD_INSTANCE_WITH_BASE =>
        let* Obj :=
          if MustNullCheck || (MAX_UNCHECKED_OFFSET_FOR_NULL_OBJECT <=? fieldOffset FieldInfo)
          then genNullCheck Obj else ret Obj in
        let* Address := simpleFieldAddress Obj Token FieldInfo in
        ret (Address, [])
    | _ =>
        let* Arg2 := tokenNode Token false in
        let* Address := callHelper (fieldHelper FieldInfo) (Some NullType) [Obj; Arg2] false in
        ret (Address, [])
    end.

(** The type of a field. *)
Definition field_type (FieldInfo : CORINFO_FIELD_INFO) : option Ty :=
  getTypeOfClass (fieldType FieldInfo) (structType FieldInfo).

Definition getFieldAddress (Dom : DominatorFacts) (Token : ResolvedToken)
    (FieldInfo : CORINFO_FIELD_INFO) (Obj : Value) (MustNullCheck : bool) :
    M (Value * list DominatorRecord) :=
  let* Obj :=
    match IRBuilder.getType Obj with
    | IntegerTy w =>
        assert (w =? TargetPointerSizeInBits) ;*
        let T := getUnmanagedPointerType (IntegerTy w) in
        emit (CreateIntToPtr Obj T) T
    | PointerTy _ _ => ret Obj
    | _ => fail
    end in
  let IsGcPointer := isGcPointer (IRBuilder.getType Obj) in
  let* (RawAddress, Records) := rdrGetFieldAddress Dom Token FieldInfo Obj MustNullCheck in
  let* FieldTy := lift (field_type FieldInfo) in
  let FieldPtrTy :=
    if IsGcPointer then getManagedPointerType FieldTy else getUnmanagedPointerType FieldTy in
  let* Address :=
    if bool_decide (IRBuilder.getType RawAddress = FieldPtrTy) then ret RawAddress
    else emit (CreateBitCast RawAddress FieldPtrTy) FieldPtrTy in
  ret (Address, Records).

Definition loadFieldAddress (Dom : DominatorFacts) (Token : ResolvedToken) (Obj : Value) :
    M (Value * list DominatorRecord) :=
  getFieldAddress Dom Token (getFieldInfo Token CORINFO_ACCESS_ADDRESS) Obj true.

(** ** Accesses by a helper *)

(** The handle of the class of a field. *)
Definition field_class_node (Token : ResolvedToken) : M Value :=
  let* Field := lift (hField Token) in
  let '(ClassHandle, IsIndirect) := embedClassHandle (getFieldType Field).2 in
  handleToIRNode ClassHandle IsIndirect true.

(** [rdrCallFieldHelper] for a load into [Dst], and for a store. *)
Definition load_field_helper (Token : ResolvedToken) (HelperId : CorInfoHelpFunc) (Dst : Operand)
    (Obj : Value) (IsVolatile : bool) : M Value :=
  if bool_decide (HelperId = CORINFO_HELP_GETFIELDSTRUCT) then
    let* Arg1 := addressOfValue Dst in
    let* Arg3 := tokenNode Token false in
    let* Arg4 := field_class_node Token in
    callHelper HelperId None [Arg1; Obj; Arg3; Arg4] IsVolatile ;*
    ret Dst.1
  else
    let* Arg2 := tokenNode Token false in
    callHelper HelperId (Some (IRBuilder.getType Dst.1)) [Obj; Arg2] IsVolatile.

Definition store_helper (HelperId : CorInfoHelpFunc) : bool :=
  match HelperId with
  | CORINFO_HELP_SETFIELD8 | CORINFO_HELP_SETFIELD16 | CORINFO_HELP_SETFIELD32
  | CORINFO_HELP_SETFIELD64 | CORINFO_HELP_SETFIELDOBJ | CORINFO_HELP_SETFIELDFLOAT
  | CORINFO_HELP_SETFIELDDOUBLE => true
  | _ => false
  end.

Definition store_field_helper (Token : ResolvedToken) (HelperId : CorInfoHelpFunc) (Obj : Value)
    (Val : Operand) (IsVolatile : bool) : M unit :=
  if bool_decide (HelperId = CORINFO_HELP_SETFIELDSTRUCT) then
    let* Arg4 := addressOfValue Val in
    let* Arg3 := field_class_node Token in
    let* Arg2 := tokenNode Token false in
    callHelper HelperId None [Obj; Arg2; Arg3; Arg4] IsVolatile ;* ret tt
  else
    assert (store_helper HelperId) ;*
    let* Arg2 := tokenNode Token false in
    callHelper HelperId None [Obj; Arg2; Val.1] IsVolatile ;* ret tt.

(** ** Static fields *)

(** The address of a static as an unmanaged pointer to the field's type. *)
Definition static_pointer (Address : Value) (FieldTy : Ty) : M Value :=
  let PtrToFieldTy := getUnmanagedPointerType FieldTy in
  match IRBuilder.getType Address with
  | IntegerTy _ => emit (CreateIntToPtr Address PtrToFieldTy) PtrToFieldTy
  | PointerTy _ _ => emit (CreatePointerCast Address PtrToFieldTy) PtrToFieldTy
  | _ => fail
  end.

Definition storeStaticField (fuel : nat) (Dom : DominatorFacts) (Token : ResolvedToken)
    (ValueToStore : Operand) (IsVolatile : bool) : M (list DominatorRecord) :=
  let* FieldHandle := lift (hField Token) in
  let FieldInfo := getFieldInfo Token CORINFO_ACCESS_SET in
  let '(FieldCorType, FieldClassHandle) := getFieldType FieldHandle in
  let* FieldTy := lift (getTypeOfClass FieldCorType (Some FieldClassHandle)) in
  let* ValueToStore :=
    convertFromStackType TargetPointerSizeInBits isLayoutIdentical ValueToStore.1 ValueToStore.2
      FieldCorType FieldTy in
  let* (DstAddress, Records) := rdrGetStaticFieldAddress Dom Token FieldInfo in
  if isWriteBarrierHelperRequired FieldHandle then
    rdrCallWriteBarrierHelper TargetPointerSizeInBits fuel DstAddress ValueToStore IsVolatile
      (Some Token) (negb (isStructTy FieldTy)) false true true ;*
    ret Records
  else
    let* DstAddress := static_pointer DstAddress FieldTy in
    storeAtAddressNoBarrierNonNull DstAddress ValueToStore FieldTy IsVolatile ;*
    ret Records.

(** [stringLiteral] for a handle the runtime has given: a reference that is
    loaded from the address of the literal. *)
Definition stringLiteral (Literal : CORINFO_CONST_LOOKUP) : M Value :=
  let* (Address, IsIndirect) :=
    match Literal with
    | IAT_VALUE _ => fail
    | IAT_PVALUE Address => ret (Address, false)
    | IAT_PPVALUE Address => ret (Address, true)
    end in
  let* RawAddress := handleToIRNode Address IsIndirect true in
  let T := getUnmanagedPointerType getBuiltInStringType in
  let* TypedAddress := emit (CreateIntToPtr RawAddress T) T in
  loadIndir TargetPointerSizeInBits LdindRef TypedAddress AlignNatural false false.

Definition loadStr (Token : Z) : M Value := stringLiteral (constructStringLiteral Token).

Definition loadStaticField (Dom : DominatorFacts) (Token : ResolvedToken) (IsVolatile : bool) :
    M (Operand * list DominatorRecord) :=
  let* FieldHandle := lift (hField Token) in
  let FieldInfo := getFieldInfo Token CORINFO_ACCESS_GET in
  match fieldAccessor FieldInfo with
  | CORINFO_FIELD_INTRINSIC_ZERO => ret (loadConstantI 0, false, [])
  | CORINFO_FIELD_INTRINSIC_EMPTY_STRING =>
      let* Literal := stringLiteral emptyStringLiteral in ret (Literal, false, [])
  | _ =>
      let '(FieldCorType, FieldClassHandle) := getFieldType FieldHandle in
      let* FieldTy := lift (getTypeOfClass FieldCorType (Some FieldClassHandle)) in
      let* (Address, Records) := rdrGetStaticFieldAddress Dom Token FieldInfo in
      let* Address := static_pointer Address FieldTy in
      let* Result :=
        loadAtAddressOfType TargetPointerSizeInBits Address FieldTy FieldCorType AlignNatural
          IsVolatile false in
      ret (Result, Records)
  end.

(** ** [loadField] and [storeField] *)

(** The fields of a vector: the register itself, an element, or the address of
    a copy in memory, with which the access goes on. *)
Definition vector_field (FieldInfo : CORINFO_FIELD_INFO) (FieldTy : Ty) (Obj : Value) :
    M (Value + Value) :=
  match doSimdIntrinsicOpt, IRBuilder.getType Obj with
  | true, VectorTy E n as ObjType =>
      match FieldTy with
      | StructTy id =>
          if bool_decide (StructName id = "System.Numerics.Register"%string) then ret (inl Obj)
          else
            let* T := lift (VectorTypeToStructType ObjType) in
            let* Pointer := createTemporary ObjType in
            emit (CreateStore Obj Pointer false None) VoidTy ;*
            let* Obj := emit (CreateBitCast Pointer (PointerTy T 0)) (PointerTy T 0) in
            ret (inr Obj)
      | _ =>
          let FieldBits := getPrimitiveSizeInBits FieldTy in
          let* Obj :=
            if bool_decide (E = FieldTy) then ret Obj
            else
              let T := VectorTy FieldTy (getPrimitiveSizeInBits E * n / FieldBits) in
              emit (VectorBitCast Obj T) T in
          let* ElementSize :=
            lift (match IRBuilder.getType Obj with
                  | VectorTy E _ => Some (getPrimitiveSizeInBits E)
                  | _ => None
                  end) in
          assert (ElementSize =? FieldBits) ;*
          let IndexInVector := u32 (fieldOffset FieldInfo * 8) / ElementSize in
          let* Result := emit (CreateExtractElement Obj (ConstantInt 32 IndexInVector)) FieldTy in
          let* Result :=
            convertToStackType TargetPointerSizeInBits Result (fieldType FieldInfo) in
          ret (inl Result)
      end
  | _, _ => ret (inr Obj)
  end.

Definition loadField (Dom : DominatorFacts) (Token : ResolvedToken) (Obj : Operand)
    (AlignmentPrefix : Z) (IsVolatile : bool) : M (Operand * list DominatorRecord) :=
  let FieldInfo := getFieldInfo Token CORINFO_ACCESS_GET in
  let* FieldTy := lift (field_type FieldInfo) in
  let* Vector := vector_field FieldInfo FieldTy Obj.1 in
  match Vector with
  | inl Result => ret (Result, false, [])
  | inr Object =>
      if fieldStatic FieldInfo then loadStaticField Dom Token IsVolatile
      else
        let AlignmentPrefix := if isGcPointer FieldTy then AlignNatural else AlignmentPrefix in
        if bool_decide (fieldAccessor FieldInfo = CORINFO_FIELD_INSTANCE_HELPER) then
          handleMemberAccess (accessCallout FieldInfo) ;*
          let IsStruct := bool_decide (fieldHelper FieldInfo = CORINFO_HELP_GETFIELDSTRUCT) in
          let* Destination :=
            if IsStruct then createTemporary FieldTy else ret (MkValue (Const 0) FieldTy) in
          let* Result :=
            load_field_helper Token (fieldHelper FieldInfo) (Destination, IsStruct) Object
              IsVolatile in
          let* Result :=
            convertToStackType TargetPointerSizeInBits Result (fieldType FieldInfo) in
          ret (Result, IsStruct, [])
        else
          let* Object :=
            if isStructTy (IRBuilder.getType Object) || isFloatingPointTy (IRBuilder.getType Object)
            then addressOfValue (Object, Obj.2) else ret Object in
          let* AlignmentPrefix :=
            match fieldType FieldInfo with
            | CORINFO_TYPE_VALUECLASS | CORINFO_TYPE_REFANY =>
                let* Class := lift (structType FieldInfo) in
                ret (getMinimumClassAlignment Class AlignmentPrefix)
            | _ => ret AlignmentPrefix
            end in
          let NullCheckBeforeLoad := UseExplicitNullChecks in
          let* (Address, Records) :=
            getFieldAddress Dom Token FieldInfo Object NullCheckBeforeLoad in
          let* Result :=
            loadAtAddress TargetPointerSizeInBits Address FieldTy (fieldType FieldInfo) (Some Token)
              AlignmentPrefix IsVolatile (negb NullCheckBeforeLoad) in
          ret (Result, Records)
  end.

Definition storeField (fuel : nat) (Dom : DominatorFacts) (Token : ResolvedToken)
    (ValueToStore : Operand) (Object : Value) (Alignment : Z) (IsVolatile : bool) :
    M (list DominatorRecord) :=
  let FieldInfo := getFieldInfo Token CORINFO_ACCESS_SET in
  if fieldStatic FieldInfo then storeStaticField fuel Dom Token ValueToStore IsVolatile
  else
    let* FieldHandle := lift (hField Token) in
    let FieldCorType := fieldType FieldInfo in
    let* FieldTy := lift (field_type FieldInfo) in
    let Alignment :=
      match FieldCorType with
      | CORINFO_TYPE_CLASS | CORINFO_TYPE_BYREF => AlignNatural
      | _ => Alignment
      end in
    let* ValueToStore :=
      convertFromStackType TargetPointerSizeInBits isLayoutIdentical ValueToStore.1 ValueToStore.2
        FieldCorType FieldTy in
    if bool_decide (fieldAccessor FieldInfo = CORINFO_FIELD_INSTANCE_HELPER) then
      handleMemberAccess (accessCallout FieldInfo) ;*
      store_field_helper Token (fieldHelper FieldInfo) Object ValueToStore IsVolatile ;*
      ret []
    else
      let NullCheckBeforeStore := UseExplicitNullChecks in
      let* (Address, Records) :=
        getFieldAddress Dom Token FieldInfo Object NullCheckBeforeStore in
      (if isWriteBarrierHelperRequired FieldHandle then
         rdrCallWriteBarrierHelper TargetPointerSizeInBits fuel Address ValueToStore IsVolatile
           (Some Token) (negb (isStructTy FieldTy)) false true false
       else
         storeAtAddress TargetPointerSizeInBits fuel Address ValueToStore FieldTy (Some Token)
           Alignment IsVolatile true (negb NullCheckBeforeStore)) ;*
      ret Records.

(** [storeIndirectArg]: an argument passed by reference may be on the heap. *)
Definition storeIndirectArg (fuel : nat) (ArgClass : Z) (ValueToStore : Operand) (Address : Value)
    (IsVolatile : bool) : M unit :=
  assert (isGcPointer (IRBuilder.getType Address)) ;*
  match IRBuilder.getType ValueToStore.1 with
  | VectorTy E _ =>
      assert (negb (isPointerTy E)) ;*
      makeStore ValueToStore.1 Address IsVolatile false None
  | T =>
      let* E := lift (getPointerElementType T) in
      assert (isStructTy E) ;*
      assert ValueToStore.2 ;*
      rdrCallWriteBarrierHelper TargetPointerSizeInBits fuel Address ValueToStore IsVolatile
        (Some (MkToken ArgClass None)) (negb (isValueClass ArgClass)) true false false
  end.

End fields.
End Fields.
