(* ===== verification/FieldRules.v ===== *)
(** * Field accesses

    The theorems about instance fields: a load finds the field behind a null
    check, and a store of a reference goes through the write barrier. *)

From S2P Require Import Prelude Opcodes IRBuilder GenIRTypes Conv Arith IRLogic Memory MemoryRules Objects Generics Fields.
Import ReaderBaseNS GenIR Arith Memory Objects Fields.

(** The structures the reader has built have LLVM's elements and layout. *)
Record layout_agrees (L : LLVM) (RT : ReaderTypes) (native : Z) : Prop := {
  same_elements : forall id, StructElements id = struct_elements id;
  same_offsets : forall id i, ElementOffset id i = struct_offset native id (Z.of_nat i)
}.

Section fields.
Context {L : LLVM} {LS : LLVMLaws L} {native : Z} {args : list (RVal FP)}.
Hypothesis Hnative : native = 32 \/ native = 64.
Context `{RT : ReaderTypes} `{OR : ObjectRuntime} `{FR : FieldRuntime}.
Hypothesis Hlayout : layout_agrees L RT native.

#[local] Notation state := (@state L).
#[local] Notation wp := (wp native args).
#[local] Notation has := (has args).
#[local] Notation ext := (ext native args).

(** An instance field at an offset that the reader may compute. *)
Record plain_field (FI : CORINFO_FIELD_INFO) : Prop := {
  plain_instance : fieldStatic FI = false;
  plain_accessor : fieldAccessor FI = CORINFO_FIELD_INSTANCE;
  plain_allowed : accessCallout FI = None;
  plain_offset : 0 <= fieldOffset FI < 2 ^ 31
}.

(** In the structure behind a pointer to [E], the index the reader has recorded
    for the field is that of its offset. *)
Definition field_indexed (Token : ResolvedToken) (FI : CORINFO_FIELD_INFO) (E : Ty) : Prop :=
  forall F i id, E = StructTy id -> hField Token = Some F -> FieldIndexMap F = Some i ->
    i < Z.of_nat (length (StructElements id)) ->
    0 <= i < 2 ^ 31 /\ ElementOffset id (Z.to_nat i) = fieldOffset FI.

(** The object that the field belongs to. *)
Definition field_inside (FI : CORINFO_FIELD_INFO) (a : Z) : Prop := exists b n,
  allocated b n = true /\ 0 <= b /\ b + n < 2 ^ native /\
  b <= a <= b + n /\ b <= a + fieldOffset FI <= b + n.

Lemma struct_field_index_spec (Token : ResolvedToken) (E : Ty) (i : Z) :
  struct_field_index (hField Token) E = Some i ->
  exists id F, E = StructTy id /\ hField Token = Some F /\ FieldIndexMap F = Some i /\
    i < Z.of_nat (length (StructElements id)).
Proof.
  unfold struct_field_index. destruct (hField Token) as [F|], E as [| | | | | | |id|]; try done.
  destruct (FieldIndexMap F) as [j|] eqn:HF; [|done]. cbn [mbind option_bind].
  destruct (Z.ltb_spec j (Z.of_nat (length (StructElements id)))); [|done]. intros [= <-].
  by exists id, F.
Qed.

Lemma wp_simpleFieldAddress (Obj : Value) (Token : ResolvedToken) (FI : CORINFO_FIELD_INFO)
    (E : Ty) (A a : Z) (s : state) (Q : Value -> state -> Prop) :
  wf s -> IRBuilder.getType Obj = PointerTy E A -> A = 0 \/ A = ManagedAddressSpace ->
  has s Obj (RInt a) -> plain_field FI -> field_indexed Token FI E ->
  (stop s = None -> field_inside FI a) ->
  (forall v s', (exists E', IRBuilder.getType v = PointerTy E' A) -> wf s' -> ext s s' ->
     stop s' = stop s -> called s' = called s -> has s' v (RInt (a + fieldOffset FI)) -> Q v s') ->
  wp (simpleFieldAddress native Obj Token FI) s Q.
Proof.
  intros Hw HT HA HO [_ Hacc _ Hoff] Hidx Hin HQ. unfold simpleFieldAddress.
  rewrite Hacc, bool_decide_eq_false_2, andb_false_r by done.
  assert (Hadd : wp (if negb (fieldOffset FI =? 0)
                     then binaryOp native Add Obj (loadConstantI native (fieldOffset FI))
                     else ret Obj) s Q).
  { destruct (Z.eqb_spec (fieldOffset FI) 0) as [H0|H0]; cbn [negb].
    - apply wp_ret, HQ; [by eexists|done|done|done|done|]. by rewrite H0, Z.add_0_r.
    - assert (Hpow : 2 ^ 31 <= 2 ^ (native - 1)) by by destruct Hnative as [-> | ->].
      assert (Hpow2 : 2 ^ 31 < 2 ^ native) by by destruct Hnative as [-> | ->].
      apply (wp_pointer_add Hnative Obj _ E A a (fieldOffset FI) native);
        [done|done|done|done|lia|done| | | |].
      + unfold loadConstantI, ConstantInt. rewrite wrap_small by lia. apply has_const.
      + apply swrap_small; [destruct Hnative|]; lia.
      + intros Hs. destruct (Hin Hs) as (b & n & ? & ? & ? & ? & ?). exists b, n. done.
      + intros v s' HvT Hw' He' Hs' Hl' Hv. apply HQ; try done. by eexists. }
  apply wp_bind. destruct isReadyToRun; cbn [negb]; [by apply wp_ret, wp_bind, wp_ret|].
  rewrite HT. apply wp_bind, wp_ret.
  destruct (struct_field_index (hField Token) E) as [i|] eqn:Hi;
    [|by apply wp_ret, wp_bind, wp_ret].
  destruct (struct_field_index_spec Token E i Hi) as (id & F & -> & HF & HM & Hlt).
  destruct (Hidx F i id eq_refl HF HM Hlt) as [Hi0 Hel].
  apply wp_bind, wp_assert; [by apply Z.eqb_eq|]. apply wp_ret.
  unfold CreateStructGEP, CreateInBoundsGEP. rewrite HT.
  destruct (lookup_lt_is_Some_2 (StructElements id) (Z.to_nat i) ltac:(lia)) as [X HX].
  assert (Hind : indexed_type (StructTy id) [ConstantInt 32 i] = Some X).
  { cbn [indexed_type def ConstantInt]. rewrite wrap_small by lia.
    destruct (Z.ltb_spec i 0); [lia|]. by rewrite HX. }
  apply wp_bind, wp_ret, wp_bind. eapply wp_lift; [exact Hind|].
  apply wp_quiet with (r := RInt (a + fieldOffset FI)); [done|done| |].
  - intros Hs. destruct (Hin Hs) as (b & n & Hal & Hb & Hbn & Ha & Hao).
    cbn [exec_instr]. rewrite (has_int _ _ _ _ HO Hs), HT. cbn [mbind option_bind].
    unfold int_of. cbn [mapM value_of def ConstantInt IRBuilder.getType width mbind option_bind].
    assert (Hi32 : 2 ^ 31 < 2 ^ 32) by done.
    rewrite (wrap_small 32 i), (swrap_small 32 i), (wrap_small 32 0), (swrap_small 32 0) by lia.
    rewrite (same_elements _ _ _ Hlayout) in HX.
    cbn [mret option_ret mbind option_bind gep_offset gep_walk]. destruct (Z.ltb_spec i 0); [lia|]. rewrite HX.
    cbn [mbind option_bind].
    rewrite (same_offsets _ _ _ Hlayout), Z2Nat.id in Hel by lia. rewrite Hel, Z.add_0_r.
    cbn [mbind option_bind]. rewrite Z.mul_0_l, Z.add_0_l.
    assert (Hpow2 : 2 ^ 31 <= 2 ^ (native - 1)) by by destruct Hnative as [-> | ->].
    assert (HW : wrap native (a + swrap native (wrap native (fieldOffset FI))) =
                 a + fieldOffset FI).
    { rewrite swrap_wrap_le by (destruct Hnative; lia).
      rewrite swrap_small by (destruct Hnative; lia). apply wrap_small. lia. }
    destruct (gep_inbounds_law native b n a native (wrap native (fieldOffset FI)) Hal Ha)
      as [z Hz]; [by rewrite HW|].
    rewrite Hz. cbn [mbind option_bind outcome_of]. apply gep_law in Hz. by rewrite Hz, HW.
  - intros v s' HvT Hw' He' Hs' Hl' Hv. apply HQ; try done. by eexists.
Qed.
(** The type of a field, and the pointer to it that its address becomes. *)
Lemma wp_getFieldAddress (Dom : DominatorFacts) (Obj : Value) (Token : ResolvedToken)
    (FI : CORINFO_FIELD_INFO) (inst this : Value) (E T : Ty) (A a : Z) (s : state)
    (Q : Value * list DominatorRecord -> state -> Prop) :
  wf s -> IRBuilder.getType Obj = PointerTy E A -> A = 0 \/ A = ManagedAddressSpace ->
  has s Obj (RInt a) -> plain_field FI -> field_indexed Token FI E -> field_type FI = Some T ->
  (a <> 0 -> field_inside FI a) ->
  (forall v s', IRBuilder.getType v = PointerTy T A -> wf s' -> ext s s' ->
     stop s' = check (negb (a =? 0)) CORINFO_HELP_THROWNULLREF (stop s) -> called s' = called s ->
     has s' v (RInt (a + fieldOffset FI)) -> Q (v, []) s') ->
  wp (getFieldAddress native inst this Dom Token FI Obj true) s Q.
Proof.
  intros Hw HT HA HO HFI Hidx HTy Hin HQ. unfold getFieldAddress. rewrite HT.
  apply wp_bind, wp_ret, wp_bind. rewrite HT. unfold rdrGetFieldAddress, handleMemberAccess.
  rewrite (plain_instance _ HFI), (plain_accessor _ HFI), (plain_allowed _ HFI). cbn [orb].
  apply wp_bind, wp_ret, wp_bind, (wp_quiet_null_check Obj a); [done|done|].
  intros s1 Hw1 He1 Hs1 Hl1. apply wp_bind.
  apply (wp_simpleFieldAddress Obj Token FI E A a); [done|done|done|held|done|done| |].
  { intros Hs. rewrite Hs1 in Hs. apply check_None in Hs as [Hs _].
    by apply Hin, Z.eqb_neq, negb_true_iff. }
  intros v s2 [E' HvT] Hw2 He2 Hs2 Hl2 Hv. apply wp_ret. rewrite HTy. apply wp_bind, wp_ret.
  assert (HP : (if isGcPointer (PointerTy E A) then getManagedPointerType T
                else getUnmanagedPointerType T) = PointerTy T A).
  { unfold isGcPointer. by destruct HA as [-> | ->]. }
  rewrite HP. apply wp_bind. destruct (bool_decide_reflect (IRBuilder.getType v = PointerTy T A)).
  - apply wp_ret, wp_ret, HQ; [done|done|reach| | |done].
    + by rewrite Hs2, Hs1.
    + by rewrite Hl2.
  - apply wp_quiet with (r := RInt (a + fieldOffset FI)); [done|done| |].
    { intros Hs. cbn [exec_instr]. unfold is_fp. rewrite HvT. simpl. by rewrite (Hv Hs). }
    intros v' s3 Hv'T Hw3 He3 Hs3 Hl3 Hv'. apply wp_ret, HQ; [done|done|reach| | |done].
    + by rewrite Hs3, Hs2, Hs1.
    + by rewrite Hl3, Hl2.
Qed.

End fields.

(** C18: ldfld of an integer field of an object behind a managed or unmanaged
    pointer, where the runtime gives the field a plain offset below 2^31 (the
    accessor CORINFO_FIELD_INSTANCE, without an access callout): the emitted
    code throws NullReferenceException for a null object, and otherwise loads
    the field at its offset and widens it to the stack.  The address may be
    taken through the structure that the pointer points to or by adding the
    runtime's offset; in the first case the theorem supposes that the element
    the reader has recorded for the field lies at the field's offset.  The load
    promises the alignment of the unaligned prefix, or that of a pointer without
    one; the theorem supposes that the field has it or that the target does the
    load all the same. *)
Theorem loadField_correct {L : LLVM} (LS : LLVMLaws L) (native : Z) (RT : ReaderTypes)
    (OR : ObjectRuntime) (FR : FieldRuntime) (Dom : DominatorFacts) (inst this : Value)
    (Token : ResolvedToken) (E : Ty) (A a m w W Alignment : Z) (Signed IsVolatile : bool)
    (Hnative : native = 32 \/ native = 64) (Hlayout : layout_agrees L RT native)
    (HA : A = 0 \/ A = ManagedAddressSpace) :
  let FI := getFieldInfo Token CORINFO_ACCESS_GET in
  forall (Hfield : plain_field FI) (Hindexed : field_indexed Token FI E)
    (Htype : field_type FI = Some (IntegerTy w))
    (Hwidth : GenIR.getType native (fieldType FI) = Some (IntegerTy w))
    (Hstack : stackSize native (fieldType FI) = Some W)
    (Hsigned : isSigned (fieldType FI) = Some Signed)
    (Hobj : a <> 0 -> field_inside (native := native) FI a /\ 0 <= m < 2 ^ w /\
       access_defined (Some (convertReaderAlignment native Alignment)) (a + fieldOffset FI) = true /\
       load (IntegerTy w) (a + fieldOffset FI) = Some (RInt m)),
  run native [RInt a]
    (let* (Result, _) := loadField native inst this Dom Token
       (MkValue (Arg 0) (PointerTy E A), false) Alignment IsVolatile in ret Result.1)%emit =
  Some (if a =? 0 then Throws CORINFO_HELP_THROWNULLREF
        else Returns (RInt (widened Signed w W m))).
Proof.
  intros FI Hfield Hindexed Htype Hwidth Hstack Hsigned Hobj.
  assert (Hle : 0 < w <= W).
  { destruct (fieldType FI); simpl in Hwidth, Hstack; try done;
      injection Hwidth as <-; injection Hstack as <-; lia. }
  rewrite (run_wp native _ _ (check (negb (a =? 0)) CORINFO_HELP_THROWNULLREF None)
             (RInt (widened Signed w W m))); [by destruct (a =? 0)|].
  apply wp_bind. unfold loadField. fold FI. apply wp_bind. eapply wp_lift; [exact Htype|].
  assert (Hvector : vector_field native FI (IntegerTy w) (MkValue (Arg 0) (PointerTy E A)) =
    ret (inr (MkValue (Arg 0) (PointerTy E A)))) by by unfold vector_field; destruct doSimdIntrinsicOpt.
  cbn [fst]. rewrite Hvector. apply wp_bind, wp_ret.
  rewrite (plain_instance _ Hfield), (plain_accessor _ Hfield), bool_decide_eq_false_2 by done.
  apply wp_bind, wp_ret, wp_bind.
  assert (Halign : match fieldType FI with
    | CORINFO_TYPE_VALUECLASS | CORINFO_TYPE_REFANY =>
        (let* Class := lift (structType FI) in
         ret (getMinimumClassAlignment Class
           (if isGcPointer (IntegerTy w) then AlignNatural else Alignment)))%emit
    | _ => ret (if isGcPointer (IntegerTy w) then AlignNatural else Alignment)
    end = ret Alignment) by by destruct (fieldType FI).
  rewrite Halign. apply wp_ret, wp_bind.
  apply (wp_getFieldAddress Hnative Hlayout Dom _ Token FI inst this E (IntegerTy w) A a);
    [apply wf_start|done|done|done|done|done|done|intros Hne; by apply Hobj|].
  intros v s1 HvT Hw1 He1 Hs1 _ Hv. unfold loadAtAddress. cbn [isStructTy negb UseExplicitNullChecks].
  assert (Hlive : stop s1 = None -> 0 <= m < 2 ^ w /\
    access_defined (Some (convertReaderAlignment native Alignment)) (a + fieldOffset FI) = true /\
    load (IntegerTy w) (a + fieldOffset FI) = Some (RInt m)).
  { intros Hs. rewrite Hs1 in Hs. apply check_None in Hs as [Hs _].
    by apply Hobj, Z.eqb_neq, negb_true_iff. }
  apply wp_bind, wp_bind. eapply (wp_aligned_load v (IntegerTy w)); [done|exact HvT|exact Hv| |].
  { intros Hs. by apply Hlive. }
  intros r s2 HrT Hw2 He2 Hs2 _ Hr. apply wp_bind.
  apply (wp_convertToStackType r (fieldType FI) w W m Signed); try done.
  { rewrite Hs2. intros Hs. by apply Hlive. }
  intros r' s3 _ Hw3 He3 Hs3 Hr'. apply wp_ret, wp_ret, wp_ret. split; [|done].
  by rewrite Hs3, Hs2, Hs1.
Qed.

(** ** Code that does not write *)

(** Instructions that may change the memory or run other code; the calls of
    helpers are what [calls] lists. *)
Definition writes_memory (i : Instr) : bool :=
  match i with
  | CreateStore _ _ _ _ | CreateAtomicCmpXchg _ _ _ | CreateAtomicRMW _ _ _
  | CallIndirect _ _ | ConditionalCall _ _ _ _ => true
  | _ => false
  end.

(** What the emitter records only reads, apart from helper calls. *)
Definition reads_only {A} (m : M A) : Prop :=
  forall s s' a, m s = Some (s', a) -> exists new, s' = s ++ new /\ Forall (fun i => writes_memory i = false) new.

Lemma reads_bind {A B} (m : M A) (f : A -> M B) :
  reads_only m -> (forall a, reads_only (f a)) -> reads_only (bind m f).
Proof.
  intros Hm Hf s s' b H. unfold bind in H. destruct (m s) as [[s1 a]|] eqn:E; [|done].
  destruct (Hm _ _ _ E) as (n1 & -> & H1), (Hf a _ _ _ H) as (n2 & -> & H2).
  exists (n1 ++ n2). by rewrite app_assoc, Forall_app.
Qed.

Lemma reads_ret {A} (a : A) : reads_only (ret a).
Proof. intros s s' b [= <- <-]. exists []. by rewrite app_nil_r. Qed.

Lemma reads_lift {A} (o : option A) : reads_only (lift o).
Proof. destruct o; [apply reads_ret|by intros ?]. Qed.

Lemma reads_assert (b : bool) : reads_only (assert b).
Proof. destruct b; [apply reads_ret|by intros ?]. Qed.

Lemma reads_fail {A} : reads_only (@fail A).
Proof. by intros ?. Qed.

Lemma reads_emit (i : Instr) (T : Ty) : writes_memory i = false -> reads_only (emit i T).
Proof. intros Hi s s' a [= <- <-]. exists [i]. split; [done|]. by constructor. Qed.

Lemma reads_throw (C : Value) (H : CorInfoHelpFunc) : reads_only (genConditionalThrow C H).
Proof. intros s s' a [= <- <-]. eexists [_]. split; [done|]. by constructor. Qed.

Lemma ret_then {A B} (a : A) (f : A -> M B) : bind (ret a) f = f a.
Proof. done. Qed.

Create HintDb reading.
#[export] Hint Resolve reads_ret reads_lift reads_assert reads_fail reads_throw : reading.

(** Follows an emitter through its calls and cases. *)
Ltac reading := repeat first
  [ solve [auto with reading nocore]
  | apply reads_bind; [|intros ?]
  | apply reads_emit; solve [reflexivity | by repeat case_match]
  | match goal with
    | |- reads_only (match ?x with _ => _ end) => destruct x
    end ].

Lemma reads_convert (T : Ty) (Node : Value) (Signed : bool) : reads_only (Convert.convert T Node Signed).
Proof. unfold Convert.convert. cbv zeta. reading. Qed.
#[export] Hint Resolve reads_convert : reading.

Lemma reads_binaryOp (native : Z) (Opcode : BinaryOpcode) (A B : Value) : reads_only (binaryOp native Opcode A B).
Proof.
  unfold binaryOp, pointer_case, genPointerAdd, genPointerSub, convert_operand, emit_operation.
  cbv zeta. reading.
Qed.
#[export] Hint Resolve reads_binaryOp : reading.

Lemma reads_handle (native Handle : Z) (Indirect Relocatable : bool) :
  reads_only (handleToIRNode native Handle Indirect Relocatable).
Proof. unfold handleToIRNode. cbv zeta. reading. Qed.
#[export] Hint Resolve reads_handle : reading.

Lemma reads_helper (H : CorInfoHelpFunc) (Dst : option Ty) (As : list Value) (IsVolatile : bool) :
  reads_only (callHelper H Dst As IsVolatile).
Proof. unfold callHelper, callHelperImpl. reading. Qed.
#[export] Hint Resolve reads_helper : reading.

(** The address of a plain field is computed without a store. *)
Lemma reads_getFieldAddress `{RT : ReaderTypes} `{OR : ObjectRuntime} `{FR : FieldRuntime} (native : Z)
    (inst this : Value) (Dom : DominatorFacts) (Token : ResolvedToken) (FI : CORINFO_FIELD_INFO) (Obj : Value) :
  plain_field FI -> reads_only (getFieldAddress native inst this Dom Token FI Obj true).
Proof.
  intros HFI. unfold getFieldAddress, rdrGetFieldAddress, handleMemberAccess.
  rewrite (plain_instance _ HFI), (plain_accessor _ HFI), (plain_allowed _ HFI).
  unfold simpleFieldAddress, genNullCheck, CreateStructGEP, CreateInBoundsGEP. cbv zeta. reading.
Qed.

(** C19: A store of a reference into a field for which the runtime requires a
    write barrier, with a plain offset below 2^31 as above: the only thing the
    emitted code does to the memory is to call the checked barrier with the
    field's address and the reference.  No instruction of the code writes to
    the memory itself, and no other helper runs; for a null object the code
    throws NullReferenceException and calls nothing. *)
Theorem storeField_barrier {L : LLVM} (LS : LLVMLaws L) (native : Z) (RT : ReaderTypes)
    (OR : ObjectRuntime) (FR : FieldRuntime) (Dom : DominatorFacts) (inst this : Value)
    (fuel : nat) (Token : ResolvedToken) (Field : Z) (E R : Ty) (A a v Alignment : Z)
    (IsVolatile : bool)
    (Hnative : native = 32 \/ native = 64) (Hlayout : layout_agrees L RT native)
    (HA : A = 0 \/ A = ManagedAddressSpace) (Hhandle : hField Token = Some Field)
    (Hbarrier : isWriteBarrierHelperRequired Field = true)
    (Hhelper : forall x y, exists r,
       helper CORINFO_HELP_CHECKED_ASSIGN_REF [RInt x; RInt y] = Returns r) :
  let FI := getFieldInfo Token CORINFO_ACCESS_SET in
  let T := PointerTy R ManagedAddressSpace in
  forall (Hfield : plain_field FI) (Hindexed : field_indexed Token FI E)
    (Htype : field_type FI = Some T) (Hobj : a <> 0 -> field_inside (native := native) FI a),
  exists new regs,
    storeField native inst this fuel Dom Token (MkValue (Arg 1) T, false)
      (MkValue (Arg 0) (PointerTy E A)) Alignment IsVolatile [] = Some (new, []) /\
    (forall i, i ∈ new -> writes_memory i = false) /\
    exec native [RInt a; RInt v] new [] =
      (if a =? 0 then inr (Throws CORINFO_HELP_THROWNULLREF) else inl regs) /\
    calls native [RInt a; RInt v] new [] =
      (if a =? 0 then []
       else [(CORINFO_HELP_CHECKED_ASSIGN_REF, [RInt (a + fieldOffset FI); RInt v])]).
Proof.
  intros FI T Hfield Hindexed Htype Hobj. set (args := [RInt a; RInt v]).
  assert (HW : wp native args
    (storeField native inst this fuel Dom Token (MkValue (Arg 1) T, false)
       (MkValue (Arg 0) (PointerTy E A)) Alignment IsVolatile) start
    (fun Records s => Records = [] /\
       stop s = check (negb (a =? 0)) CORINFO_HELP_THROWNULLREF None /\
       called s = if a =? 0 then []
         else [(CORINFO_HELP_CHECKED_ASSIGN_REF, [RInt (a + fieldOffset FI); RInt v])])).
  { unfold storeField. fold FI. rewrite (plain_instance _ Hfield). apply wp_bind.
    eapply wp_lift; [exact Hhandle|]. apply wp_bind. eapply wp_lift; [exact Htype|].
    apply wp_bind. unfold convertFromStackType. cbn [fst snd IRBuilder.getType T andb].
    rewrite bool_decide_eq_true_2 by done. apply wp_bind, wp_ret, wp_ret.
    rewrite (plain_accessor _ Hfield), bool_decide_eq_false_2 by done. apply wp_bind.
    apply (wp_getFieldAddress Hnative Hlayout Dom _ Token FI inst this E T A a);
      [apply wf_start|done|done|done|done|done|done|done|].
    intros p s1 HpT Hw1 He1 Hs1 Hl1 Hp. rewrite Hbarrier. apply wp_bind.
    unfold rdrCallWriteBarrierHelper. cbn [isStructTy negb T].
    destruct (Hhelper (a + fieldOffset FI) v) as [r Hr]. apply wp_bind.
    apply (wp_callHelper_any _ None _ [RInt (a + fieldOffset FI); RInt v] r); [done| |done|].
    { constructor; [exact Hp|]. constructor; [|constructor]. by apply has_arg. }
    intros x s2 _ Hw2 He2 Hs2 Hl2 _. apply wp_ret, wp_ret. split; [done|].
    split; [by rewrite Hs2|]. rewrite Hl2, Hl1. unfold calls_when. rewrite Hs1.
    by destruct (a =? 0). }
  assert (HR : reads_only (storeField native inst this fuel Dom Token (MkValue (Arg 1) T, false)
      (MkValue (Arg 0) (PointerTy E A)) Alignment IsVolatile)).
  { unfold storeField, rdrCallWriteBarrierHelper, convertFromStackType. fold FI.
    rewrite (plain_instance _ Hfield), (plain_accessor _ Hfield), Htype, Hhandle. cbn [lift fst snd].
    rewrite !ret_then, Hbarrier.
    pose proof (reads_getFieldAddress native inst this Dom Token FI (MkValue (Arg 0) (PointerTy E A)) Hfield).
    reading. }
  destruct HW as (new & Records & Hrun & -> & Hstop & Hcalled). simpl in Hrun.
  destruct (HR _ _ _ Hrun) as (new' & Hnew & HRO). cbn in Hnew. subst new'. rewrite Forall_forall in HRO.
  unfold stop, advance in Hstop. simpl in Hstop, Hcalled.
  destruct (exec native args new []) as [regs|o] eqn:Hexec; exists new.
  - exists regs. do 2 (split; [done|]). split; [|done]. by destruct (a =? 0).
  - exists []. do 2 (split; [done|]). split; [|done]. revert Hstop; destruct (a =? 0); cbn [check negb]; intros Hstop; [by injection Hstop as ->|done].
Qed.

(** A class with a 16-bit field at offset 8 and a reference at offset 16, an
    object of it at address 1000. *)
Definition object_fields : Z -> list Ty := fun _ =>
  [PointerTy (IntegerTy 64) 0; IntegerTy 16; ArrayTy (IntegerTy 8) 6;
   PointerTy (IntegerTy 8) ManagedAddressSpace].

Definition instance_field (Offset : Z) (C : CorInfoType) : CORINFO_FIELD_INFO :=
  MkFieldInfo CORINFO_FIELD_INSTANCE false false CORINFO_HELP_MEMCPY Offset C None None None.

Definition ObjectReader : ReaderTypes := {|
  StructElements := object_fields;
  StructSize := fun _ => 24;
  ElementOffset := fun id i =>
    sum_sizes (type_size (fun _ => 0) 64 <$> take i (object_fields id));
  getArrayOfElementType := fun E => E;
  getBuiltInObjectType := PointerTy (IntegerTy 8) ManagedAddressSpace;
  getBuiltInStringType := PointerTy (IntegerTy 8) ManagedAddressSpace;
  isLayoutIdentical := fun _ _ => false
|}.

Definition ObjectClasses : ObjectRuntime := {|
  isValueClass := fun _ => false;
  asCorInfoType := fun _ => CORINFO_TYPE_CLASS;
  getClassSize := fun _ => 24;
  getClassAlignmentRequirement := fun _ => 8;
  getClassGClayout := fun _ => [];
  getFieldType := fun _ => (CORINFO_TYPE_CLASS, 0);
  getTypeOfClass := fun C _ =>
    match C with
    | CORINFO_TYPE_CLASS => Some (PointerTy (IntegerTy 8) ManagedAddressSpace)
    | _ => GenIR.getType 64 C
    end;
  SystemObjectClass := 0
|}.

(** Field 2 is the number, field 4 the reference. *)
Definition ObjectFields : FieldRuntime := {|
  getFieldInfo := fun T _ =>
    if bool_decide (hField T = Some 2) then instance_field 8 CORINFO_TYPE_SHORT
    else instance_field 16 CORINFO_TYPE_CLASS;
  emptyStringLiteral := IAT_VALUE 0;
  constructStringLiteral := fun _ => IAT_VALUE 0;
  isReadyToRun := false;
  MAX_UNCHECKED_OFFSET_FOR_NULL_OBJECT := 32767;
  embedGenericHandle := fun _ _ => MkGenericHandle false CORINFO_LOOKUP_THISOBJ (IAT_VALUE 1)
    (MkLookup 0 CORINFO_HELP_MEMCPY None false false []) 0 CORINFO_HANDLETYPE_UNKNOWN;
  embedClassHandle := fun c => (c, false);
  getEmbedModuleDomainIDForStatics := fun c => (c, false);
  getEmbedClassDomainID := fun c => (c, false);
  isWriteBarrierHelperRequired := fun f => f =? 4;
  accessStaticFieldRequiresClassConstructor := fun _ => false;
  getSharedCCtorHelper := fun _ => CORINFO_HELP_GETSHARED_NONGCSTATIC_BASE;
  getStaticFieldAddress := fun f => (f, false);
  FieldIndexMap := fun f => if f =? 2 then Some 1 else if f =? 4 then Some 3 else None;
  StructName := fun _ => EmptyString;
  VectorTypeToStructType := fun _ => None;
  doSimdIntrinsicOpt := false
|}.

Definition object_memory : LLVM :=
  DemoMemory object_fields (fun _ p => if p =? 1008 then Some (RInt 65535) else None)
    (fun a n => (a =? 1000) && (n =? 24)).

Definition no_facts : DominatorFacts := MkFacts (fun _ => false) (fun H _ => (None, H, false)).

Lemma object_layout_agrees : layout_agrees object_memory ObjectReader 64.
Proof. split; [done|]. intros id i. simpl. by rewrite Nat2Z.id. Qed.

Lemma loadField_correct_witness :
  run (L := object_memory) 64 [RInt 1000]
    (let* (Result, _) := loadField (H := ObjectReader) (H0 := ObjectClasses) (H1 := ObjectFields)
       64 (MkValue (Const 0) (IntegerTy 64)) (MkValue (Const 0) (IntegerTy 64)) no_facts
       (MkToken 7 (Some 2)) (MkValue (Arg 0) (PointerTy (StructTy 0) ManagedAddressSpace), false)
       255 false in ret Result.1)%emit = Some (Returns (RInt (2 ^ 32 - 1))).
Proof.
  refine (loadField_correct (DemoMemory_laws _ _ _) 64 ObjectReader ObjectClasses ObjectFields
    no_facts _ _ (MkToken 7 (Some 2)) (StructTy 0) ManagedAddressSpace 1000 65535 16 32 255 true
    false _ object_layout_agrees _ _ _ _ _ _ _ _); try done.
  - by right.
  - by right.
  - intros F i id HE HF Hi _. injection HE as <-. injection HF as <-. by injection Hi as <-.
  - intros _. split; [|done]. by exists 1000, 24.
Defined.

Lemma storeField_barrier_witness :
  exists new regs,
    storeField (H := ObjectReader) (H0 := ObjectClasses) (H1 := ObjectFields) 64
      (MkValue (Const 0) (IntegerTy 64)) (MkValue (Const 0) (IntegerTy 64)) 0 no_facts
      (MkToken 7 (Some 4))
      (MkValue (Arg 1) (PointerTy (IntegerTy 8) ManagedAddressSpace), false)
      (MkValue (Arg 0) (PointerTy (StructTy 0) ManagedAddressSpace)) 255 false [] =
      Some (new, []) /\
    (forall i, i ∈ new -> writes_memory i = false) /\
    exec (L := object_memory) 64 [RInt 1000; RInt 3000] new [] = inl regs /\
    calls (L := object_memory) 64 [RInt 1000; RInt 3000] new [] =
      [(CORINFO_HELP_CHECKED_ASSIGN_REF, [RInt 1016; RInt 3000])].
Proof.
  refine (storeField_barrier (L := object_memory) (DemoMemory_laws _ _ _) 64 ObjectReader
    ObjectClasses ObjectFields no_facts _ _ 0 (MkToken 7 (Some 4)) 4 (StructTy 0) (IntegerTy 8)
    ManagedAddressSpace 1000 3000 255 false _ object_layout_agrees _ _ _ _ _ _ _ _); try done.
  - by right.
  - by right.
  - intros x y. by eexists.
  - intros F i id HE HF Hi _. injection HE as <-. injection HF as <-. by injection Hi as <-.
  - intros _. by exists 1000, 24.
Defined.
