(* ===== verification/CallTarget.v ===== *)
(** * Call targets (lib/Reader/reader.cpp, readerir.cpp)

    [ReaderCallTargetData]: what the reader knows of a call, the handles it
    passes, and the code that finds the function to call.  The theorems are in
    [CallRules]. *)

From S2P Require Import Prelude Opcodes IRBuilder GenIRTypes Conv Arith IRLogic Memory Objects Generics Signature Fields.
Import ReaderBaseNS.

(** ** What the runtime says about a call *)

Inductive CORINFO_CALL_KIND : Set :=
  | CORINFO_CALL | CORINFO_CALL_CODE_POINTER | CORINFO_VIRTUALCALL_STUB
  | CORINFO_VIRTUALCALL_LDVIRTFTN | CORINFO_VIRTUALCALL_VTABLE.

#[export] Instance call_kind_eq_dec : EqDecision CORINFO_CALL_KIND.
Proof. solve_decision. Defined.

Inductive CORINFO_THIS_TRANSFORM : Set :=
  | CORINFO_NO_THIS_TRANSFORM | CORINFO_DEREF_THIS | CORINFO_BOX_THIS.

#[export] Instance this_transform_eq_dec : EqDecision CORINFO_THIS_TRANSFORM.
Proof. solve_decision. Defined.

(** An address: a constant, or the result of a lookup in the runtime's data. *)
Inductive CORINFO_LOOKUP : Set :=
  | ConstLookup (Lookup : CORINFO_CONST_LOOKUP)
  | RuntimeLookup (Kind : CORINFO_RUNTIME_LOOKUP_KIND) (Lookup : CORINFO_RUNTIME_LOOKUP).

(** A context handle is tagged with what it is a handle of. *)
Inductive CORINFO_CONTEXT_HANDLE : Set :=
  | MethodContext (Method : Z) | ClassContext (Class : Z).

(** The flags of methods and classes that the reader tests. *)
Record MethodFlags := MkMethodFlags {
  FLG_STATIC : bool; FLG_FINAL : bool; FLG_VIRTUAL : bool; FLG_CONSTRUCTOR : bool;
  FLG_DELEGATE_INVOKE : bool; FLG_INTRINSIC : bool; FLG_SECURITYCHECK : bool; FLG_SYNCH : bool
}.

Definition no_flags : MethodFlags :=
  MkMethodFlags false false false false false false false false.

Record ClassFlags := MkClassFlags {
  FLG_ARRAY : bool; FLG_VAROBJSIZE : bool; FLG_DELEGATE : bool; FLG_VALUECLASS : bool;
  FLG_BEFOREFIELDINIT : bool; FLG_CLASS_FINAL : bool; FLG_MARSHAL_BYREF : bool;
  FLG_CONTEXTFUL : bool; FLG_SHAREDINST : bool
}.

Record CORINFO_CALL_INFO := MkCallInfo {
  hMethod : Z;
  methodFlags : MethodFlags;
  callKind : CORINFO_CALL_KIND;
  thisTransform : CORINFO_THIS_TRANSFORM;
  nullInstanceCheck : bool;
  codePointerLookup : CORINFO_LOOKUP;
  stubLookup : CORINFO_LOOKUP;
  contextHandle : CORINFO_CONTEXT_HANDLE;
  exactContextNeedsRuntimeLookup : bool;
  instParamLookup : CORINFO_CONST_LOOKUP;
  callsiteCallout : option CORINFO_HELPER_DESC
}.

Class CallRuntime := {
  getFunctionEntryPoint : Z -> CORINFO_CONST_LOOKUP;
  getMethodVTableOffset : Z -> Z * Z;
  offsetOfDelegateInstance : Z;
  offsetOfDelegateFirstTarget : Z;
  embedMethodHandle : Z -> Z * bool;
  getClassAttribs : Z -> ClassFlags;
  getMethodAttribs : Z -> MethodFlags;
  getMethodClass : Z -> Z;
  getReadyToRunHelper : ResolvedToken -> CorInfoHelpFunc -> CORINFO_CONST_LOOKUP;
  getCallInfo : ResolvedToken -> option ResolvedToken -> bool -> CORINFO_CALL_INFO;
  getMethodSig : Z -> Signatures.CORINFO_SIG_INFO;
  findCallSiteSig : Z -> Signatures.CORINFO_SIG_INFO;
  findSig : Z -> Signatures.CORINFO_SIG_INFO;
  retTypeSigClass : Signatures.CORINFO_SIG_INFO -> option Z;
  isDelegateCreationAllowed : Z -> Z -> bool;
  resolveToken : Z -> ResolvedToken
}.

(** [ReaderCallTargetData].  The nodes are computed when first asked for;
    [Restored] are the loads asked of the runtime so far.  [getCallInfo] is
    [None] for [calli]. *)
Record ReaderCallTargetData := MkTargetData {
  Token : ResolvedToken;
  ConstraintToken : option ResolvedToken;
  TargetMethodHandle : option Z;
  TargetMethodAttribs : MethodFlags;
  TargetClassHandle : option Z;
  CallInfo : option CORINFO_CALL_INFO;
  SigInfo : Signatures.CORINFO_SIG_INFO;
  HasThisPtr : bool;
  IsCallVirt : bool;
  IsCallI : bool;
  IsNewObj : bool;
  IsJmp : bool;
  IsTailCall : bool;
  IsUnmarkedTailCall : bool;
  IsReadonlyCall : bool;
  IsIndirect : bool;
  NeedsNullCheck : bool;
  IsOptimizedDelegateCtor : bool;
  TargetMethodHandleNode : option Value;
  TargetClassHandleNode : option Value;
  IndirectionCellNode : option Value;
  CallTargetNode : option Value;
  Restored : list RestoreRequest
}.

Module CallTarget.
Import GenIR Arith Memory Objects Generics Fields.
#[local] Open Scope emit_scope.
#[local] Existing Instance Signatures.CorInfoCallConv_eq_dec.

(** ** Assignments to the fields *)

Section setters.
Variable D : ReaderCallTargetData.

Definition set_nodes (MethodNode ClassNode CellNode TargetNode : option Value)
    (Requests : list RestoreRequest) (Indirect NullCheck : bool) : ReaderCallTargetData :=
  MkTargetData (Token D) (ConstraintToken D) (TargetMethodHandle D) (TargetMethodAttribs D)
    (TargetClassHandle D) (CallInfo D) (SigInfo D) (HasThisPtr D) (IsCallVirt D) (IsCallI D)
    (IsNewObj D) (IsJmp D) (IsTailCall D) (IsUnmarkedTailCall D) (IsReadonlyCall D)
    Indirect NullCheck (IsOptimizedDelegateCtor D) MethodNode ClassNode CellNode TargetNode
    Requests.

Definition set_method_node (N : Value) (l : list RestoreRequest) : ReaderCallTargetData :=
  set_nodes (Some N) (TargetClassHandleNode D) (IndirectionCellNode D) (CallTargetNode D)
    (Restored D ++ l) (IsIndirect D) (NeedsNullCheck D).
Definition set_class_node (N : Value) (l : list RestoreRequest) : ReaderCallTargetData :=
  set_nodes (TargetMethodHandleNode D) (Some N) (IndirectionCellNode D) (CallTargetNode D)
    (Restored D ++ l) (IsIndirect D) (NeedsNullCheck D).
Definition set_cell_node (N : Value) : ReaderCallTargetData :=
  set_nodes (TargetMethodHandleNode D) (TargetClassHandleNode D) (Some N) (CallTargetNode D)
    (Restored D) (IsIndirect D) (NeedsNullCheck D).
Definition set_target_node (N : Value) : ReaderCallTargetData :=
  set_nodes (TargetMethodHandleNode D) (TargetClassHandleNode D) (IndirectionCellNode D) (Some N)
    (Restored D) (IsIndirect D) (NeedsNullCheck D).
Definition restore (l : list RestoreRequest) : ReaderCallTargetData :=
  set_nodes (TargetMethodHandleNode D) (TargetClassHandleNode D) (IndirectionCellNode D)
    (CallTargetNode D) (Restored D ++ l) (IsIndirect D) (NeedsNullCheck D).
Definition set_indirect : ReaderCallTargetData :=
  set_nodes (TargetMethodHandleNode D) (TargetClassHandleNode D) (IndirectionCellNode D)
    (CallTargetNode D) (Restored D) true (NeedsNullCheck D).
Definition set_null_check (b : bool) : ReaderCallTargetData :=
  set_nodes (TargetMethodHandleNode D) (TargetClassHandleNode D) (IndirectionCellNode D)
    (CallTargetNode D) (Restored D) (IsIndirect D) b.
End setters.

Section targets.
Variable TargetPointerSizeInBits : Z.
Context `{ReaderTypes} `{ObjectRuntime} `{FieldRuntime} `{CallRuntime}.
Variables (instParam thisObj : Value).

(** Is the current method another one than the compiled one? *)
Variable Inlining : bool.

#[local] Notation NativeIntTy := (NativeIntTy TargetPointerSizeInBits).
#[local] Notation handleToIRNode := (handleToIRNode TargetPointerSizeInBits).
#[local] Notation loadConstantI := (loadConstantI TargetPointerSizeInBits).
#[local] Notation binaryOp := (binaryOp TargetPointerSizeInBits).
#[local] Notation derefAddress := (derefAddress TargetPointerSizeInBits).
#[local] Notation derefAddressNonNull := (derefAddressNonNull TargetPointerSizeInBits).
#[local] Notation Data := ReaderCallTargetData.

(** ** Queries *)

Definition rdrIsMethodVirtual (MethodAttribs : MethodFlags) : bool :=
  if FLG_FINAL MethodAttribs then false
  else if FLG_STATIC MethodAttribs then false
  else FLG_VIRTUAL MethodAttribs.

Definition getClassHandle (D : Data) : option Z :=
  match TargetClassHandle D with
  | Some Class => Some Class
  | None => Method ← TargetMethodHandle D; Some (getMethodClass Method)
  end.

Definition classAttribs (D : Data) : option ClassFlags :=
  Class ← getClassHandle D; Some (getClassAttribs Class).

Definition getKnownMethodHandle (D : Data) : option Z :=
  if IsCallI D then None
  else
    match CallInfo D with
    | Some Info => if bool_decide (callKind Info = CORINFO_CALL) then TargetMethodHandle D else None
    | None => None
    end.

Definition getExactContext (D : Data) (Info : CORINFO_CALL_INFO) : option CORINFO_CONTEXT_HANDLE :=
  if exactContextNeedsRuntimeLookup Info
  then Method ← TargetMethodHandle D; Some (MethodContext Method) else Some (contextHandle Info).

Definition rdrCallIsDelegateInvoke (D : Data) : M bool :=
  let MethodAttribs := TargetMethodAttribs D in
  if FLG_DELEGATE_INVOKE MethodAttribs then
    assert (negb (FLG_STATIC MethodAttribs)) ;* assert (FLG_FINAL MethodAttribs) ;* ret true
  else ret false.

Definition rdrCallIsDelegateConstruct (D : Data) : M bool :=
  if IsNewObj D then
    let* ClassAttribs := lift (classAttribs D) in
    let MethodAttribs := TargetMethodAttribs D in
    if FLG_DELEGATE ClassAttribs && FLG_CONSTRUCTOR MethodAttribs then
      assert (negb (FLG_STATIC MethodAttribs)) ;* ret true
    else ret false
  else ret false.

Definition canMakeDirectCall (D : Data) : bool := negb (IsJmp D).

(** ** Filling in the data *)

(** The signature of a call, whether it has [this], and the classes that must
    be loaded: those of the declared and of the actual return type. *)
Definition getCallSiteSignature (Method : option Z) (Token : Z) :
    Signatures.CORINFO_SIG_INFO * bool * list RestoreRequest :=
  let '(Sig, HasThis, ActualMethodRetTypeSigClass) :=
    match Method with
    | Some Method =>
        let Sig := getMethodSig Method in
        (if Signatures.sigIsVarArg Sig then findCallSiteSig Token else Sig,
         Signatures.sigHasThis Sig, retTypeSigClass Sig)
    | None => (findSig Token, Signatures.sigHasThis (findSig Token), None)
    end in
  let Requests :=
    match Signatures.retType Sig, retTypeSigClass Sig with
    | (CORINFO_TYPE_CLASS | CORINFO_TYPE_BYREF | CORINFO_TYPE_PTR), _ | _, None => []
    | _, Some Class =>
        LoadClass Class ::
        match ActualMethodRetTypeSigClass with
        | Some Actual => if Actual =? Class then [] else [LoadClass Actual]
        | None => []
        end
    end in
  (Sig, HasThis, Requests).

(** [ReaderCallTargetData::init] with [fillTargetInfo]; [checkExplicitTailCall]
    is the scan of [TailCall] at the call, [TAMD64] the build for 64-bit x86. *)
Definition init (TAMD64 : bool) (MethodRetType : CorInfoType)
    (checkExplicitTailCall : bool -> bool) (TargetToken : Z) (Constraint : option Z)
    (IsTailCall IsUnmarkedTailCall IsReadonlyCall : bool) (Opcode : CallOpcode) : Data :=
  let IsCallI := bool_decide (Opcode = Calli) in
  let IsCallVirt := bool_decide (Opcode = CallVirt) in
  let IsJmp := bool_decide (Opcode = Jmp) in
  let Token := resolveToken TargetToken in
  let ConstraintToken := if IsCallI then None else resolveToken <$> Constraint in
  let Info := if IsCallI then None else Some (getCallInfo Token ConstraintToken IsCallVirt) in
  let Method := hMethod <$> Info in
  let '(Sig, HasThis, Requests) := getCallSiteSignature Method TargetToken in
  let AllowPop :=
    TAMD64 && bool_decide (MethodRetType = CORINFO_TYPE_VOID) &&
    negb (bool_decide (Signatures.retType Sig = CORINFO_TYPE_VOID)) in
  MkTargetData Token ConstraintToken Method
    (match Info with Some Info => methodFlags Info | None => no_flags end) None Info Sig HasThis
    IsCallVirt IsCallI (bool_decide (Opcode = NewObj)) IsJmp
    (if IsTailCall && negb IsUnmarkedTailCall && negb IsJmp
     then checkExplicitTailCall AllowPop else IsTailCall)
    IsUnmarkedTailCall IsReadonlyCall IsCallI false false None None None None Requests.

(** Another constructor for a delegate; its class stays. *)
Definition setOptimizedDelegateCtor (D : Data) (NewTargetMethodHandle : Z) : Data :=
  let '(Sig, HasThis, Requests) := getCallSiteSignature (Some NewTargetMethodHandle) 0 in
  MkTargetData (Token D) (ConstraintToken D) (Some NewTargetMethodHandle)
    (getMethodAttribs NewTargetMethodHandle) (TargetClassHandle D) (CallInfo D) Sig HasThis
    (IsCallVirt D) (IsCallI D) (IsNewObj D) (IsJmp D) (IsTailCall D) (IsUnmarkedTailCall D)
    (IsReadonlyCall D) (IsIndirect D) (NeedsNullCheck D) true None (TargetClassHandleNode D)
    (IndirectionCellNode D) (CallTargetNode D) (Restored D ++ Requests).

(** ** Handles *)

Definition token_node (D : Data) (EmbedParent : bool) : M (Value * list RestoreRequest) :=
  let* (Node, Requests) :=
    genericTokenToNode TargetPointerSizeInBits instParam thisObj Inlining (fun _ => 0)
      (embedGenericHandle (Token D) EmbedParent) true true in
  let* Node := lift Node in
  ret (Node, Requests).

Definition getMethodHandleNode (D : Data) : M (Value * Data) :=
  match TargetMethodHandleNode D with
  | Some Node => ret (Node, D)
  | None =>
      assert (negb (IsIndirect D)) ;*
      let* (Node, Requests) := token_node D false in
      ret (Node, set_method_node D Node Requests)
  end.

Definition getClassHandleNode (D : Data) : M (Value * Data) :=
  match TargetClassHandleNode D with
  | Some Node => ret (Node, D)
  | None =>
      let* (Node, Requests) := token_node D true in
      ret (Node, set_class_node D Node Requests)
  end.

Definition getMethodHandleNodeRequiresRuntimeLookup (D : Data) : bool :=
  needsRuntimeLookup (embedGenericHandle (Token D) false).

Definition getClassHandleNodeRequiresRuntimeLookup (D : Data) : bool :=
  needsRuntimeLookup (embedGenericHandle (Token D) true).

Definition getTypeContextNodeRequiresRuntimeLookup (D : Data) (Info : CORINFO_CALL_INFO) : M bool :=
  if Signatures.sigHasTypeArg (SigInfo D) then
    match contextHandle Info with
    | MethodContext _ => ret (exactContextNeedsRuntimeLookup Info)
    | ClassContext _ =>
        let* ClassAttribs := lift (classAttribs D) in
        if FLG_ARRAY ClassAttribs && IsReadonlyCall D then ret false
        else ret (exactContextNeedsRuntimeLookup Info)
    end
  else ret false.

Definition getCallTargetNodeRequiresRuntimeLookup (D : Data) : M bool :=
  let* Info := lift (CallInfo D) in
  match callKind Info with
  | CORINFO_CALL => ret false
  | CORINFO_CALL_CODE_POINTER =>
      assert (match codePointerLookup Info with RuntimeLookup _ _ => true | _ => false end) ;*
      ret true
  | CORINFO_VIRTUALCALL_STUB =>
      ret (match stubLookup Info with RuntimeLookup _ _ => true | _ => false end)
  | CORINFO_VIRTUALCALL_LDVIRTFTN =>
      ret (getClassHandleNodeRequiresRuntimeLookup D ||
           getMethodHandleNodeRequiresRuntimeLookup D)
  | CORINFO_VIRTUALCALL_VTABLE => ret false
  end.

Definition getReadyToRunTypeContextNode (Info : CORINFO_CALL_INFO) : M Value :=
  match instParamLookup Info with
  | IAT_VALUE handle => handleToIRNode handle false true
  | IAT_PVALUE addr => handleToIRNode addr true true
  | IAT_PPVALUE _ => fail
  end.

(** The instantiation argument of a call of shared code. *)
Definition getTypeContextNode (D : Data) (Info : CORINFO_CALL_INFO) : M (option Value * Data) :=
  if Signatures.sigHasTypeArg (SigInfo D) then
    match contextHandle Info with
    | MethodContext Method =>
        if isReadyToRun then
          let* Node := getReadyToRunTypeContextNode Info in ret (Some Node, D)
        else if exactContextNeedsRuntimeLookup Info then
          if Inlining then ret (Some (loadConstantI 0), D)
          else let* (Node, D) := getMethodHandleNode D in ret (Some Node, D)
        else
          let '(MethodHandle, IsIndirect) := embedMethodHandle Method in
          let* Node := handleToIRNode MethodHandle IsIndirect true in
          ret (Some Node, restore D [LoadMethod Method])
    | ClassContext Class =>
        let* ClassAttribs := lift (classAttribs D) in
        if FLG_ARRAY ClassAttribs && IsReadonlyCall D then ret (Some (loadConstantI 0), D)
        else if isReadyToRun then
          let* Node := getReadyToRunTypeContextNode Info in ret (Some Node, D)
        else if exactContextNeedsRuntimeLookup Info then
          if Inlining then ret (Some (loadConstantI 0), D)
          else let* (Node, D) := getClassHandleNode D in ret (Some Node, D)
        else
          let '(ClassHandle, IsIndirect) := embedClassHandle Class in
          let* Node := handleToIRNode ClassHandle IsIndirect true in
          ret (Some Node, restore D [LoadClass Class])
    end
  else ret (None, D).

(** ** Targets *)

(** A function at a known address; its type is fixed up by the call. *)
Definition makeDirectCallTargetNode (CodeAddr : Z) : Value :=
  MkValue (Const CodeAddr) (getUnmanagedPointerType (FunctionTy 0)).

Definition rdrGetDirectCallTarget (Method : Z) (CodePointerLookup : CORINFO_LOOKUP)
    (CanMakeDirectCall : bool) : M Value :=
  let* AddressInfo :=
    if isReadyToRun then
      match CodePointerLookup with
      | ConstLookup ((IAT_VALUE Address | IAT_PVALUE Address | IAT_PPVALUE Address) as Lookup) =>
          assert (negb (Address =? 0)) ;* ret Lookup
      | RuntimeLookup _ _ => fail
      end
    else ret (getFunctionEntryPoint Method) in
  match AddressInfo with
  | IAT_VALUE Address =>
      if CanMakeDirectCall then ret (makeDirectCallTargetNode Address)
      else handleToIRNode Address false true
  | IAT_PVALUE Address => handleToIRNode Address true true
  | IAT_PPVALUE Address =>
      let* TargetNode := handleToIRNode Address true true in
      derefAddressNonNull TargetNode false
  end.

(** [rdrGetCodePointerLookupCallTarget]; the second result is the value of
    [IsIndirect]. *)
Definition codePointerLookupTarget (Info : CORINFO_CALL_INFO) : M (Value * bool) :=
  match codePointerLookup Info with
  | RuntimeLookup Kind Lookup =>
      let* Target := runtimeLookupToNode TargetPointerSizeInBits instParam thisObj Kind Lookup in
      ret (Target, true)
  | ConstLookup _ => fail
  end.

Definition rdrGetCodePointerLookupCallTarget (D : Data) (Info : CORINFO_CALL_INFO) :
    M (Value * Data) :=
  assert (negb (Signatures.sigHasTypeArg (SigInfo D))) ;*
  assert (negb (Signatures.sigIsVarArg (SigInfo D))) ;*
  let* (Target, _) := codePointerLookupTarget Info in
  ret (Target, set_indirect D).

Definition rdrMakeLdFtnTargetNode (Info : CORINFO_CALL_INFO) : M Value :=
  match callKind Info with
  | CORINFO_CALL => rdrGetDirectCallTarget (hMethod Info) (codePointerLookup Info) true
  | CORINFO_CALL_CODE_POINTER => let* (Target, _) := codePointerLookupTarget Info in ret Target
  | _ => fail
  end.

Definition getReadyToRunVirtFuncPtr (Arg1 : Value) (Info : CORINFO_CALL_INFO) : M Value :=
  if negb (bool_decide (callKind Info = CORINFO_VIRTUALCALL_LDVIRTFTN)) then rdrMakeLdFtnTargetNode Info
  else
    let* HelperAddress :=
      match codePointerLookup Info with
      | ConstLookup (IAT_VALUE Address) =>
          assert (negb (Address =? 0)) ;* handleToIRNode Address false true
      | ConstLookup (IAT_PVALUE Address) =>
          assert (negb (Address =? 0)) ;* handleToIRNode Address true true
      | _ => fail
      end in
    callHelperAt CORINFO_HELP_READYTORUN_VIRTUAL_FUNC_PTR HelperAddress (Some NativeIntTy) [Arg1]
      false.

(** The operand of [ldvirtftn]. *)
Definition loadVirtFunc (Arg1 : Value) (Token : ResolvedToken) (Info : CORINFO_CALL_INFO) : M Value :=
  if isReadyToRun then getReadyToRunVirtFuncPtr Arg1 Info
  else
    let* TypeToken := tokenNode TargetPointerSizeInBits instParam thisObj Token true in
    let* MethodToken := tokenNode TargetPointerSizeInBits instParam thisObj Token false in
    callHelper CORINFO_HELP_VIRTUAL_FUNC_PTR (Some NativeIntTy) [Arg1; TypeToken; MethodToken]
      false.

Definition rdrGetIndirectVirtualCallTarget (D : Data) (Info : CORINFO_CALL_INFO) (ThisPtr : Value) :
    M (Value * Data) :=
  if isReadyToRun then
    let* Target := getReadyToRunVirtFuncPtr ThisPtr Info in ret (Target, D)
  else
    let* (ClassHandle, D) := getClassHandleNode D in
    let* (MethodHandle, D) := getMethodHandleNode D in
    assert (negb (Signatures.sigIsVarArg (SigInfo D))) ;*
    let D := set_indirect D in
    let* Target :=
      callHelper CORINFO_HELP_VIRTUAL_FUNC_PTR (Some NativeIntTy)
        [ThisPtr; ClassHandle; MethodHandle] false in
    ret (Target, D).

(** The address of the cell is the secret argument of the stub behind it. *)
Definition rdrGetVirtualStubCallTarget (D : Data) (Info : CORINFO_CALL_INFO) : M (Value * Data) :=
  let* IndirectionCell :=
    match stubLookup Info with
    | RuntimeLookup Kind Lookup =>
        runtimeLookupToNode TargetPointerSizeInBits instParam thisObj Kind Lookup
    | ConstLookup (IAT_PVALUE addr) => handleToIRNode addr false true
    | ConstLookup _ => fail
    end in
  let D := set_cell_node D IndirectionCell in
  let* Target := derefAddressNonNull IndirectionCell false in
  ret (Target, D).

(** Through the virtual table of the object: its chunk, then its slot. *)
Definition rdrGetVirtualTableCallTarget (Method : Z) (ThisPtr : Value) : M Value :=
  let* VTableAddress := derefAddress ThisPtr true true in
  let '(OffsetOfIndirection, OffsetAfterIndirection) := getMethodVTableOffset Method in
  let* IndirectionSlot := binaryOp Add VTableAddress (loadConstantI4 OffsetOfIndirection) in
  let* VTableChunkAddress := derefAddressNonNull IndirectionSlot false in
  let* VTableSlot := binaryOp Add VTableChunkAddress (loadConstantI4 OffsetAfterIndirection) in
  derefAddressNonNull VTableSlot false.

(** The target of a delegate, and the object it is bound to, which becomes
    [this]. *)
Definition rdrGetDelegateInvokeTarget (D : Data) (ThisPtr : Value) : M (Value * Value) :=
  assert (HasThisPtr D) ;*
  let* AddressNode := binaryOp Add ThisPtr (loadConstantI4 offsetOfDelegateInstance) in
  let* Instance := derefAddress AddressNode true true in
  let* AddressNode := binaryOp Add ThisPtr (loadConstantI4 offsetOfDelegateFirstTarget) in
  let* Target := derefAddress AddressNode false true in
  ret (Target, Instance).

(** The target, and [this] behind it. *)
Definition rdrMakeCallTargetNode (D : Data) (ThisPtr : option Value) : M (Data * option Value) :=
  let* Info := lift (CallInfo D) in
  let* DelegateInvoke := rdrCallIsDelegateInvoke D in
  if DelegateInvoke then
    let* This := lift ThisPtr in
    let* (Target, Instance) := rdrGetDelegateInvokeTarget D This in
    ret (set_target_node D Target, Some Instance)
  else
    match callKind Info with
    | CORINFO_CALL =>
        let D := set_null_check D (nullInstanceCheck Info) in
        let* Method := lift (TargetMethodHandle D) in
        let* Target := rdrGetDirectCallTarget Method (codePointerLookup Info) (canMakeDirectCall D) in
        ret (set_target_node D Target, ThisPtr)
    | CORINFO_CALL_CODE_POINTER =>
        let D := set_null_check D (nullInstanceCheck Info) in
        let* (Target, D) := rdrGetCodePointerLookupCallTarget D Info in
        ret (set_target_node D Target, ThisPtr)
    | CORINFO_VIRTUALCALL_STUB =>
        let D := set_null_check D true in
        let* (Target, D) := rdrGetVirtualStubCallTarget D Info in
        ret (set_target_node D Target, ThisPtr)
    | CORINFO_VIRTUALCALL_LDVIRTFTN =>
        let* This := lift ThisPtr in
        let* (Target, D) := rdrGetIndirectVirtualCallTarget D Info This in
        ret (set_target_node D Target, ThisPtr)
    | CORINFO_VIRTUALCALL_VTABLE =>
        let* This := lift ThisPtr in
        let* Method := lift (TargetMethodHandle D) in
        let* Target := rdrGetVirtualTableCallTarget Method This in
        ret (set_target_node D Target, ThisPtr)
    end.

(** ** The call *)

(** Arguments passed by reference, which [jmp] forwards as they are. *)
Variable IndirectArgument : nat -> bool.

Definition genCallArgument (D : Data) (I : nat) (ArgNode : Operand)
    (ArgType : Signatures.CallArgType) : M Operand :=
  let* ArgTy := lift (getTypeOfClass (Signatures.CorType ArgType) (Signatures.ClassHandle ArgType)) in
  let* Node :=
    if (I =? 0)%nat && negb (IsNewObj D) && NeedsNullCheck D then
      assert (HasThisPtr D) ;* genNullCheck ArgNode.1
    else ret ArgNode.1 in
  if IsJmp D && IndirectArgument I then ret (Node, ArgNode.2)
  else
    convertFromStackType TargetPointerSizeInBits isLayoutIdentical Node ArgNode.2
      (Signatures.CorType ArgType) ArgTy.

Fixpoint genCallArguments (D : Data) (I : nat) (Args : list Operand)
    (ArgTypes : list Signatures.CallArgType) : M (list Operand) :=
  match Args, ArgTypes with
  | [], [] => ret []
  | ArgNode :: Args, ArgType :: ArgTypes =>
      let* ArgNode := genCallArgument D I ArgNode ArgType in
      let* Args := genCallArguments D (S I) Args ArgTypes in
      ret (ArgNode :: Args)
  | _, _ => fail
  end.

(** Is the node a function of the module? *)
Definition is_function (Node : Value) : bool :=
  match def Node, IRBuilder.getType Node with
  | Const _, PointerTy (FunctionTy _) _ => true
  | _, _ => false
  end.

(** A method pointer is a native integer. *)
Definition native_target (TargetNode : Value) : M Value :=
  if negb (is_function TargetNode) && isPointerTy (IRBuilder.getType TargetNode)
  then emit (CreatePtrToInt TargetNode NativeIntTy) NativeIntTy
  else ret TargetNode.

(** [genCall].  The call is recorded with its arguments before they are lowered
    to the ABI, which is [emitCall] of [ABISignature]; an indirection cell goes
    first.  A structure that is returned is in a temporary. *)
Definition genCall (D : Data) (CC : Signatures.CorInfoCallConv)
    (ResultType : Signatures.CallArgType) (ArgumentTypes : list Signatures.CallArgType)
    (Args : list Operand) : M (option Operand) :=
  let* TargetNode := lift (CallTargetNode D) in
  let* TargetNode := native_target TargetNode in
  assert (negb (bool_decide (CC = Signatures.CORINFO_CALLCONV_VARARG))) ;*
  assert (IsIndirect D || bool_decide (CC = Signatures.CORINFO_CALLCONV_DEFAULT)) ;*
  let* Arguments := genCallArguments D 0 Args ArgumentTypes in
  let* ResultTy :=
    lift (getTypeOfClass (Signatures.CorType ResultType) (Signatures.ClassHandle ResultType)) in
  let IsStruct := isStructTy ResultTy in
  let Passed :=
    match IndirectionCellNode D with Some Cell => [Cell] | None => [] end ++ (fst <$> Arguments) in
  let* ResultNode :=
    emit (CallIndirect TargetNode Passed)
      (if IsStruct then getUnmanagedPointerType ResultTy else ResultTy) in
  if bool_decide (Signatures.CorType ResultType = CORINFO_TYPE_VOID) then ret None
  else if IsJmp D then ret (Some (ResultNode, IsStruct))
  else
    let* Result :=
      convertToStackType TargetPointerSizeInBits ResultNode (Signatures.CorType ResultType) in
    ret (Some (Result, IsStruct)).

End targets.
End CallTarget.
