(* ===== verification/CallRules.v ===== *)
(** * Calls reach their targets

    The rules for handles and targets, and the theorem that a call with a
    [this] argument throws for a null object exactly when it must and calls the
    function its runtime description names. *)

From S2P Require Import Prelude Opcodes IRBuilder GenIRTypes Conv Arith IRLogic Memory MemoryRules Objects Generics Signature Fields FieldRules CallTarget.
Import ReaderBaseNS GenIR Arith Memory Objects Generics Fields CallTarget.

(** ** What a call must reach *)

Section spec.
Context {L : LLVM} (native : Z) `{CR : CallRuntime}.

(** The function at an entry point. *)
Definition entry_address (Lookup : CORINFO_CONST_LOOKUP) : option Z :=
  match Lookup with
  | IAT_VALUE a => Some a
  | IAT_PVALUE a => word native a
  | IAT_PPVALUE a => p ← word native a; word native p
  end.

(** The virtual table of an object. *)
Definition virtual_table (a : Z) : option Z :=
  match load (getManagedPointerType (IntegerTy 8)) a with Some (RInt vt) => Some vt | _ => None end.

(** The function that a call of [Method] on the object at [a] must reach, and
    the cell that a stub needs.  Calls through a runtime lookup or a helper are
    not direct, virtual or stub calls. *)
Definition call_target (Info : CORINFO_CALL_INFO) (Method a : Z) : option (Z * option Z) :=
  match callKind Info with
  | CORINFO_CALL => t ← entry_address (getFunctionEntryPoint Method); Some (t, None)
  | CORINFO_VIRTUALCALL_VTABLE =>
      vt ← virtual_table a;
      chunk ← word native (vt + (getMethodVTableOffset Method).1);
      t ← word native (wrap native (chunk + (getMethodVTableOffset Method).2));
      Some (t, None)
  | CORINFO_VIRTUALCALL_STUB =>
      match stubLookup Info with
      | ConstLookup (IAT_PVALUE cell) => t ← word native cell; Some (t, Some cell)
      | _ => None
      end
  | CORINFO_CALL_CODE_POINTER | CORINFO_VIRTUALCALL_LDVIRTFTN => None
  end.

(** Must a null object throw before the call? *)
Definition null_checked (Info : CORINFO_CALL_INFO) : bool :=
  match callKind Info with
  | CORINFO_CALL | CORINFO_CALL_CODE_POINTER => nullInstanceCheck Info
  | CORINFO_VIRTUALCALL_STUB | CORINFO_VIRTUALCALL_VTABLE => true
  | CORINFO_VIRTUALCALL_LDVIRTFTN => false
  end.
End spec.

(** ** Rules *)

Section rules.
Context {L : LLVM} {LS : LLVMLaws L} {native : Z} {args : list (RVal FP)}.
Hypothesis Hnative : native = 32 \/ native = 64.

#[local] Notation state := (@state L).
#[local] Notation wp := (wp native args).
#[local] Notation has := (has args).
#[local] Notation ext := (ext native args).
#[local] Notation word := (word native).
#[local] Notation native_value := (native_value (native := native) (args := args)).

(** What [derefAddress] loads. *)
Definition referent (DstIsGCPtr : bool) : Ty :=
  if DstIsGCPtr then getManagedPointerType (IntegerTy 8) else IntegerTy native.

Lemma wp_derefAddress (v : Value) (G N : bool) (p w : Z) (s : state) (Q : Value -> state -> Prop) :
  wf s -> isIntegerTy (IRBuilder.getType v) || isPointerTy (IRBuilder.getType v) = true ->
  width native (IRBuilder.getType v) = native -> has s v (RInt p) -> 0 <= p < 2 ^ native ->
  (stop s = None -> N = false \/ p <> 0 -> load (referent G) p = Some (RInt w)) ->
  (forall r s', IRBuilder.getType r = referent G -> wf s' -> ext s s' ->
     stop s' = check (negb (N && (p =? 0))) CORINFO_HELP_THROWNULLREF (stop s) ->
     has s' r (RInt w) -> Q r s') ->
  wp (derefAddress native v G N) s Q.
Proof.
  intros Hw HT Hwidth Hv Hp Hl HQ. unfold derefAddress. fold (referent G).
  assert (HR : (if G then getManagedPointerType (IntegerTy 8) else Arith.NativeIntTy native) =
    referent G) by done. rewrite HR. clear HR.
  assert (Hload : forall a s1 B, wf s1 -> ext s s1 -> stop s1 = stop s ->
    IRBuilder.getType a = PointerTy (referent G) B -> has s1 a (RInt p) ->
    wp (makeLoad a false N None) s1 Q).
  { intros a s1 B Hw1 He1 Hs1 HaT Ha. unfold makeLoad.
    assert (Hrest : forall s2, wf s2 -> ext s1 s2 ->
      stop s2 = check (negb (N && (p =? 0))) CORINFO_HELP_THROWNULLREF (stop s1) ->
      wp (let* T := lift (getPointerElementType (IRBuilder.getType a)) in
          emit (CreateLoad a T false (access_alignment T None)) T)%emit s2 Q).
    { intros s2 Hw2 He2 Hs2. rewrite HaT. apply wp_bind, wp_ret.
      apply wp_emit with (r := RInt w); [done| |].
      - intros Hs. cbn [exec_instr]. rewrite (has_int _ _ _ _ (has_ext _ _ _ _ _ _ He2 Ha) Hs).
        rewrite Hs2 in Hs. apply check_None in Hs as [Hne Hs]. rewrite Hs1 in Hs.
        cbn [mbind option_bind]. rewrite no_promise, Hl; [done|done|].
        destruct N; [right|by left]. by apply Z.eqb_neq, negb_true_iff.
      - intros r s3 HrT Hw3 He3 Hs3 Hr. apply HQ; [done|done|reach| |done].
        by rewrite Hs3, Hs2, Hs1. }
    apply wp_bind. destruct N; cbn [andb UseExplicitNullChecks].
    - apply (wp_null_check a p); [done|done|]. intros s2 Hw2 He2 Hs2. by apply Hrest.
    - apply wp_ret, Hrest; [done|reflexivity|]. by destruct (stop s1). }
  apply wp_bind. destruct (IRBuilder.getType v) as [|wd| | |E A| | | |] eqn:HvT; try done.
  - cbn in Hwidth. subst wd. apply wp_emit with (r := RInt p); [done| |].
    { intros Hs. cbn [exec_instr]. rewrite (has_int _ _ _ _ Hv Hs), HvT. simpl.
      by rewrite int_cast_law, wrap_small. }
    intros a s1 HaT Hw1 He1 Hs1 Ha. by apply (Hload a s1 0).
  - destruct (bool_decide_reflect (E = referent G)) as [->|]; [by apply wp_ret, (Hload v s A)|].
    set (T := if A =? ManagedAddressSpace then _ else _).
    assert (HTp : exists B, T = PointerTy (referent G) B).
    { unfold T. destruct (A =? ManagedAddressSpace); by eexists. }
    destruct HTp as [B HB]. apply wp_emit with (r := RInt p); [done| |].
    { intros Hs. cbn [exec_instr]. rewrite (has_int _ _ _ _ Hv Hs), HvT, HB. simpl.
      by rewrite int_cast_law, wrap_small. }
    intros a s1 HaT Hw1 He1 Hs1 Ha. by apply (Hload a s1 B); try rewrite HaT.
Qed.

(** A word of the runtime's data behind a pointer or an integer. *)
Lemma wp_deref_word (v : Value) (p w : Z) (s : state) (Q : Value -> state -> Prop) :
  wf s -> isIntegerTy (IRBuilder.getType v) || isPointerTy (IRBuilder.getType v) = true ->
  width native (IRBuilder.getType v) = native -> has s v (RInt p) -> 0 <= p < 2 ^ native ->
  (stop s = None -> word p = Some w) -> 0 <= w < 2 ^ native ->
  (forall r s', wf s' -> ext s s' -> stop s' = stop s -> native_value s' r w -> Q r s') ->
  wp (derefAddressNonNull native v false) s Q.
Proof.
  intros Hw HT Hwidth Hv Hp Hl Hr HQ. apply (wp_derefAddress v false false p w); try done.
  { intros Hs _. by apply word_load, Hl. }
  intros r s' HrT Hw' He' Hs' Hrv. apply HQ; [done|done| |done]. rewrite Hs'.
  by destruct (stop s).
Qed.

(** Adding a 32-bit offset to a native integer. *)
Lemma wp_native_add_i4 (v : Value) (p o : Z) (s : state) (Q : Value -> state -> Prop) :
  wf s -> native_value s v p -> 0 <= o < 2 ^ 31 ->
  (forall r s', wf s' -> ext s s' -> stop s' = stop s ->
     native_value s' r (wrap native (p + o)) -> Q r s') ->
  wp (binaryOp native Add v (loadConstantI4 o)) s Q.
Proof.
  intros Hw (HT & Hv & Hp) Ho HQ.
  destruct Hnative as [->| ->]; [by eapply (wp_native_add (or_introl eq_refl) v p)|].
  unfold binaryOp. rewrite HT.
  assert (binaryOpType 64 Add (IntegerTy 64) (IRBuilder.getType (loadConstantI4 o)) =
    Some (IntegerTy 64)) as -> by done.
  apply wp_bind, wp_ret, wp_bind. unfold pointer_case. cbn [isPointerTy].
  apply wp_ret, wp_bind. cbn [isFloatingPointTy].
  eapply wp_lift; [reflexivity|]. cbn [IsUnsigned IsOverflow].
  apply wp_bind. unfold convert_operand at 1. rewrite HT.
  rewrite bool_decide_eq_true_2 by done. apply wp_ret, wp_bind.
  unfold convert_operand. cbn [loadConstantI4 ConstantInt IRBuilder.getType].
  rewrite bool_decide_eq_false_2 by done. unfold Convert.convert.
  cbn [IRBuilder.getType isIntegerTy andb]. rewrite bool_decide_eq_false_2 by done.
  apply wp_emit with (r := RInt o); [done| |].
  { intros Hs. cbn [exec_instr]. unfold int_of. simpl. rewrite int_cast_law.
    rewrite (wrap_small 32 o), (swrap_small 32 o), wrap_small by lia. done. }
  intros c s1 HcT Hw1 He1 Hs1 Hc. apply wp_bind.
  unfold emit_operation. cbn [isFloatingPointTy andb IsOverflow Op].
  apply wp_bind, wp_ret, wp_bind. cbn [is_division andb]. apply wp_ret.
  apply wp_emit with (r := RInt (wrap 64 (p + o))); [done| |].
  { intros Hs. cbn [exec_instr]. unfold is_fp. rewrite HT. cbn [isFloatingPointTy].
    rewrite (has_int _ _ _ _ (has_ext _ _ _ _ _ _ He1 Hv) Hs), (has_int _ _ _ _ Hc Hs).
    cbn [mbind option_bind]. by rewrite int_binop_law. }
  intros r s' HrT Hw' He' Hs' Hr. apply wp_ret.
  apply HQ; [done|reach|by rewrite Hs'|]. split; [done|]. split; [done|].
  apply wrap_range. lia.
Qed.

(** A handle, or the word behind it. *)
Lemma wp_handle_word (h w : Z) (s : state) (Q : Value -> state -> Prop) :
  wf s -> 0 <= h < 2 ^ native -> word h = Some w ->
  (forall r s', wf s' -> ext s s' -> stop s' = stop s -> native_value s' r w -> Q r s') ->
  wp (handleToIRNode native h true true) s Q.
Proof.
  intros Hw Hh Hword HQ. destruct (word_load _ _ Hword) as [Hl Hr]. unfold handleToIRNode.
  apply wp_bind, wp_emit with (r := RInt h); [done| |].
  { intros Hs. cbn [exec_instr]. unfold int_of. simpl. by rewrite int_cast_law, wrap_small. }
  intros v s1 HvT Hw1 He1 Hs1 Hv. apply wp_bind, wp_emit with (r := RInt h); [done| |].
  { intros Hs. cbn [exec_instr]. rewrite (has_int _ _ _ _ Hv Hs), HvT. simpl.
    by rewrite int_cast_law, wrap_small. }
  intros p s2 HpT Hw2 He2 Hs2 Hp. apply wp_emit with (r := RInt w); [done| |].
  { intros Hs. cbn [exec_instr]. rewrite (has_int _ _ _ _ Hp Hs). simpl. unfold Arith.NativeIntTy. by rewrite Hl. }
  intros r s3 HrT Hw3 He3 Hs3 Hrv. apply HQ; [done|reach|by rewrite Hs3, Hs2|done].
Qed.

(** ** Targets *)

(** The address of the function to call, as a function of the module or as a
    native integer. *)
Definition target_value (s : state) (N : Value) (t : Z) : Prop :=
  has s N (RInt t) /\ (is_function N = true \/ isPointerTy (IRBuilder.getType N) = false).

Lemma target_ext (s s' : state) (N : Value) (t : Z) :
  ext s s' -> target_value s N t -> target_value s' N t.
Proof. intros He [HN H]. split; [held|done]. Qed.

Lemma native_target (s : state) (N : Value) (t : Z) : native_value s N t -> target_value s N t.
Proof. intros (HT & HN & _). split; [done|]. right. by rewrite HT. Qed.

Context `{RT : ReaderTypes} `{OR : ObjectRuntime} `{FR : FieldRuntime} `{CR : CallRuntime}.

Lemma wp_direct_target (Method : Z) (Lookup : CORINFO_LOOKUP) (Direct : bool) (t : Z) (s : state)
    (Q : Value -> state -> Prop) :
  wf s -> isReadyToRun = false ->
  match getFunctionEntryPoint Method with
  | IAT_VALUE a | IAT_PVALUE a | IAT_PPVALUE a => 0 <= a < 2 ^ native
  end ->
  entry_address native (getFunctionEntryPoint Method) = Some t ->
  (forall r s', wf s' -> ext s s' -> stop s' = stop s -> target_value s' r t -> Q r s') ->
  wp (rdrGetDirectCallTarget native Method Lookup Direct) s Q.
Proof.
  intros Hw Hrtr Hrange Ht HQ. unfold rdrGetDirectCallTarget. rewrite Hrtr.
  apply wp_bind, wp_ret. destruct (getFunctionEntryPoint Method) as [a|a|a]; cbn in Ht.
  - injection Ht as ->. destruct Direct.
    + apply wp_ret, HQ; [done|reflexivity|done|]. split; [done|by left].
    + apply (wp_handle Hnative t); [done|]. intros r s' Hw' He' Hs' Hr.
      apply HQ; [done|done|done|]. rewrite wrap_small in Hr by done. by apply native_target.
  - apply (wp_handle_word a t); [done|done|done|]. intros r s' Hw' He' Hs' Hr.
    apply HQ; [done|done|done|]. by apply native_target.
  - destruct (word a) as [p|] eqn:Hp; [|done]. cbn [mbind option_bind] in Ht.
    apply wp_bind, (wp_handle_word a p); [done|done|done|]. intros r s1 Hw1 He1 Hs1 Hr.
    destruct (word_load _ _ Ht) as [_ Htr]. apply (wp_derefNonNull r p t); try done.
    intros r2 s2 Hw2 He2 Hs2 Hr2. apply HQ; [done|reach|by rewrite Hs2|]. by apply native_target.
Qed.

(** Through the virtual table of the object, behind a null check. *)
Lemma wp_virtual_target (Method : Z) (This : Value) (E : Ty) (A a t : Z) (s : state)
    (Q : Value -> state -> Prop) :
  wf s -> IRBuilder.getType This = PointerTy E A -> has s This (RInt a) -> 0 <= a < 2 ^ native ->
  0 <= (getMethodVTableOffset Method).1 < 2 ^ 31 ->
  0 <= (getMethodVTableOffset Method).2 < 2 ^ 31 ->
  (a <> 0 -> exists vt chunk,
     virtual_table a = Some vt /\
     (exists b n, allocated b n = true /\ 0 <= b /\ b + n < 2 ^ native /\
        b <= vt <= b + n /\ b <= vt + (getMethodVTableOffset Method).1 <= b + n) /\
     word (vt + (getMethodVTableOffset Method).1) = Some chunk /\
     word (wrap native (chunk + (getMethodVTableOffset Method).2)) = Some t) ->
  (forall r s', wf s' -> ext s s' ->
     stop s' = check (negb (a =? 0)) CORINFO_HELP_THROWNULLREF (stop s) -> target_value s' r t ->
     Q r s') ->
  wp (rdrGetVirtualTableCallTarget native Method This) s Q.
Proof.
  intros Hw HT HThis Ha Ho1 Ho2 Htable HQ. unfold rdrGetVirtualTableCallTarget.
  destruct (getMethodVTableOffset Method) as [o1 o2]. cbn [fst snd] in *.
  assert (Hbig : 2 ^ 31 < 2 ^ native) by (apply Z.pow_lt_mono_r; destruct Hnative; lia).
  assert (Hex : exists vt chunk, 0 <= vt + o1 < 2 ^ native /\ 0 <= chunk < 2 ^ native /\
    (a <> 0 -> load (referent true) a = Some (RInt vt) /\
     (exists b n, allocated b n = true /\ 0 <= b /\ b + n < 2 ^ native /\
        b <= vt <= b + n /\ b <= vt + o1 <= b + n) /\
     word (vt + o1) = Some chunk /\ word (wrap native (chunk + o2)) = Some t)).
  { destruct (Z.eq_dec a 0) as [->|Hne].
    - exists 0, 0. split; [lia|]. split; [lia|done].
    - destruct (Htable Hne) as (vt & chunk & Hvt & Hin & Hc & Ht). exists vt, chunk.
      destruct (word_load _ _ Hc) as [_ Hcr]. split; [destruct Hin as (b & n & _ & ? & ? & ? & ?); lia|].
      split; [done|]. intros _. split; [|done]. unfold virtual_table in Hvt. unfold referent.
      by destruct (load _ a) as [[z| | | |]|]; try done; injection Hvt as ->. }
  destruct Hex as (vt & chunk & Hvtr & Hcr & Hex).
  apply wp_bind, (wp_derefAddress This true true a vt); [done|by rewrite HT|by rewrite HT|done|done| |].
  { intros _ [?|Hne]; [done|]. by apply Hex. }
  intros V s1 HVT Hw1 He1 Hs1 HV.
  assert (Hlive : stop s1 = None -> a <> 0).
  { intros Hs. rewrite Hs1 in Hs. apply check_None in Hs as [Hs _]. by destruct (Z.eqb_spec a 0). }
  apply wp_bind, (wp_pointer_add Hnative V _ (IntegerTy 8) ManagedAddressSpace vt o1 32);
    [done|done|by right|done|destruct Hnative; lia|done| | | |].
  { intros _. cbn. by rewrite wrap_small by lia. }
  { apply (swrap_small 32); lia. }
  { intros Hs. by apply Hex, Hlive. }
  intros P1 s2 HP1T Hw2 He2 Hs2 _ HP1.
  apply wp_bind, (wp_deref_word P1 (vt + o1) chunk); [done|by rewrite HP1T|by rewrite HP1T|done|done| |done|].
  { intros Hs. rewrite Hs2 in Hs. by apply Hex, Hlive. }
  intros C s3 Hw3 He3 Hs3 HC.
  apply wp_bind, (wp_native_add_i4 C chunk o2); [done|done|done|].
  intros P2 s4 Hw4 He4 Hs4 (HP2T & HP2 & HP2r).
  apply (wp_derefAddress P2 false false (wrap native (chunk + o2)) t); try done; try by rewrite HP2T.
  { intros Hs _. rewrite Hs4, Hs3, Hs2 in Hs. by apply word_load, Hex, Hlive. }
  intros r s5 HrT Hw5 He5 Hs5 Hr. apply HQ; [done|reach| |].
  - rewrite Hs5, Hs4, Hs3, Hs2, Hs1. by destruct (a =? 0), (stop s).
  - split; [done|]. right. by rewrite HrT.
Qed.

(** The runtime's answers about a call are addresses, and the virtual table is
    inside an object that the address computation may assume. *)
Definition runtime_ok (Info : CORINFO_CALL_INFO) (Method a : Z) : Prop :=
  match callKind Info with
  | CORINFO_CALL =>
      match getFunctionEntryPoint Method with
      | IAT_VALUE e | IAT_PVALUE e | IAT_PPVALUE e => 0 <= e < 2 ^ native
      end
  | CORINFO_VIRTUALCALL_VTABLE =>
      0 <= (getMethodVTableOffset Method).1 < 2 ^ 31 /\
      0 <= (getMethodVTableOffset Method).2 < 2 ^ 31 /\
      (a <> 0 -> forall vt, virtual_table a = Some vt ->
         exists b n, allocated b n = true /\ 0 <= b /\ b + n < 2 ^ native /\
           b <= vt <= b + n /\ b <= vt + (getMethodVTableOffset Method).1 <= b + n)
  | CORINFO_VIRTUALCALL_STUB =>
      match stubLookup Info with
      | ConstLookup (IAT_PVALUE cell) => 0 <= cell < 2 ^ native
      | _ => False
      end
  | CORINFO_CALL_CODE_POINTER | CORINFO_VIRTUALCALL_LDVIRTFTN => False
  end.

Definition cell_value (s : state) (N : option Value) (cell : option Z) : Prop :=
  match N, cell with
  | None, None => True
  | Some N, Some c => has s N (RInt c)
  | _, _ => False
  end.

Definition is_virtual (Info : CORINFO_CALL_INFO) : bool :=
  bool_decide (callKind Info = CORINFO_VIRTUALCALL_VTABLE).

(** The data behind [rdrMakeCallTargetNode]: the target and the cell are set,
    and a check is left for [genCall] unless the table has been read. *)
Lemma wp_makeCallTarget (instParam thisObj : Value) (Inlining : bool) (D : ReaderCallTargetData)
    (Info : CORINFO_CALL_INFO) (Method : Z) (This : Value) (E : Ty) (A a t : Z) (cell : option Z)
    (s : state) (Q : ReaderCallTargetData * option Value -> state -> Prop) :
  wf s -> isReadyToRun = false ->
  CallInfo D = Some Info -> TargetMethodHandle D = Some Method ->
  FLG_DELEGATE_INVOKE (TargetMethodAttribs D) = false -> IndirectionCellNode D = None ->
  IRBuilder.getType This = PointerTy E A -> has s This (RInt a) -> 0 <= a < 2 ^ native ->
  runtime_ok Info Method a ->
  (is_virtual Info && (a =? 0) = false -> call_target native Info Method a = Some (t, cell)) ->
  (is_virtual Info = true -> cell = None) ->
  (forall N C s', wf s' -> ext s s' ->
     stop s' = check (negb (is_virtual Info && (a =? 0))) CORINFO_HELP_THROWNULLREF (stop s) ->
     target_value s' N t -> cell_value s' C cell ->
     Q (set_nodes D (TargetMethodHandleNode D) (TargetClassHandleNode D) C (Some N) (Restored D)
          (IsIndirect D) (if is_virtual Info then NeedsNullCheck D else null_checked Info),
        Some This) s') ->
  wp (rdrMakeCallTargetNode native instParam thisObj Inlining D (Some This)) s Q.
Proof.
  intros Hw Hrtr HI HM Hdel Hcell HT HThis Ha Hok Htarget Hvirt HQ.
  unfold rdrMakeCallTargetNode. apply wp_bind. eapply wp_lift; [exact HI|].
  unfold rdrCallIsDelegateInvoke. rewrite Hdel. apply wp_bind, wp_ret.
  assert (Hstop : forall s' : state, check true CORINFO_HELP_THROWNULLREF (stop s') = stop s')
    by by intros s'; destruct (stop s').
  unfold runtime_ok in Hok. unfold is_virtual, null_checked, call_target in *.
  destruct (callKind Info) eqn:HK; try done.
  - apply wp_bind. eapply wp_lift; [exact HM|]. specialize (Htarget eq_refl).
    destruct (entry_address native (getFunctionEntryPoint Method)) as [e|] eqn:He; [|done].
    injection Htarget as -> <-. apply wp_bind, (wp_direct_target _ _ _ t); [done|done|done|done|].
    intros N s1 Hw1 He1 Hs1 HN. apply wp_ret.
    apply (HQ N (IndirectionCellNode D)); [done|done|by rewrite Hs1|done|by rewrite Hcell].
  - destruct (stubLookup Info) as [[|c|]|] eqn:HS; try done. specialize (Htarget eq_refl).
    destruct (word c) as [e|] eqn:He; [|done]. injection Htarget as -> <-.
    destruct (word_load _ _ He) as [_ Hr].
    apply wp_bind. unfold rdrGetVirtualStubCallTarget. rewrite HS.
    apply wp_bind, (wp_handle Hnative c); [done|]. intros N s1 Hw1 He1 Hs1 HN.
    rewrite wrap_small in HN by done.
    apply wp_bind, (wp_derefNonNull N c t); [done|done|done|done|].
    intros T s2 Hw2 He2 Hs2 HTv. apply wp_ret, wp_ret.
    apply (HQ T (Some N)); [done|reach|by rewrite Hs2, Hs1|by apply native_target|].
    cbn. destruct HN as (_ & HN & _). held.
  - destruct Hok as (Ho1 & Ho2 & Hin). apply wp_bind, wp_ret, wp_bind. eapply wp_lift; [exact HM|].
    rewrite bool_decide_eq_true_2 in * by done. rewrite (Hvirt eq_refl) in *. cbn [andb] in *.
    apply wp_bind, (wp_virtual_target Method This E A a t); try done.
    { intros Hne%Z.eqb_neq. specialize (Htarget Hne). apply Z.eqb_neq in Hne.
      destruct (virtual_table a) as [vt|] eqn:Hvt; [|done]. cbn [mbind option_bind] in Htarget.
      destruct (word (vt + _)) as [chunk|] eqn:Hc; [|done]. cbn [mbind option_bind] in Htarget.
      destruct (word (wrap native _)) as [t'|] eqn:Ht; [|done]. injection Htarget as ->.
      exists vt, chunk. split; [done|]. split; [by apply Hin|done]. }
    intros N s1 Hw1 He1 Hs1 HN. apply wp_ret.
    apply (HQ N (IndirectionCellNode D)); [done|done|done|done|by rewrite Hcell].
Qed.

(** ** The call *)

(** An emission that records nothing. *)
Lemma wp_pure {X} (m : M X) (x : X) (s : state) (Q : X -> state -> Prop) :
  (forall l, m l = Some (l, x)) -> Q x s -> wp m s Q.
Proof. intros Hm HQ. exists [], x. rewrite app_nil_r, Hm, advance_nil. done. Qed.

(** A value that is passed as it is for a parameter, and one that is returned
    as it is. *)
Definition passed_as_is (v : Operand) (A : Signatures.CallArgType) : Prop :=
  exists T, getTypeOfClass (Signatures.CorType A) (Signatures.ClassHandle A) = Some T /\
    forall l, convertFromStackType native isLayoutIdentical v.1 v.2 (Signatures.CorType A) T l =
              Some (l, v).

Definition returned_as_is (A : Signatures.CallArgType) : Prop :=
  Signatures.CorType A <> CORINFO_TYPE_VOID /\
  exists T, getTypeOfClass (Signatures.CorType A) (Signatures.ClassHandle A) = Some T /\
    forall v l, IRBuilder.getType v = (if isStructTy T then getUnmanagedPointerType T else T) ->
      convertToStackType native v (Signatures.CorType A) l = Some (l, v).

Lemma wp_genCallArguments (D : ReaderCallTargetData) (IndirectArg : nat -> bool) (k : nat)
    (Args : list Operand) (types : list Signatures.CallArgType) (s : state)
    (Q : list Operand -> state -> Prop) :
  (k <> 0)%nat -> IsJmp D = false -> Forall2 passed_as_is Args types -> Q Args s ->
  wp (genCallArguments native IndirectArg D k Args types) s Q.
Proof.
  intros Hk Hjmp HA HQ. apply wp_pure with (x := Args); [|done]. clear HQ s Q. revert k Hk.
  induction HA as [|v A Args types (T & HT & Hv) HA IH]; intros k Hk l; [done|]. cbn.
  unfold bind at 1. unfold genCallArgument. rewrite HT. unfold bind, lift, ret.
  destruct k as [|k]; [done|]. cbn. rewrite Hjmp. cbn. rewrite Hv. by rewrite IH.
Qed.

Lemma wp_genCall (D : ReaderCallTargetData) (IndirectArg : nat -> bool)
    (N : Value) (t a : Z) (cell : option Z) (This : Value) (rest : list Operand)
    (vs : list (RVal FP)) (types : list Signatures.CallArgType) (R : Signatures.CallArgType)
    (r : RVal FP) (s : state) (Q : option Operand -> state -> Prop) :
  wf s -> CallTargetNode D = Some N -> target_value s N t ->
  cell_value s (IndirectionCellNode D) cell ->
  HasThisPtr D = true -> IsNewObj D = false -> IsJmp D = false ->
  has s This (RInt a) -> Forall2 (fun o r => has s o.1 r) rest vs ->
  Forall2 passed_as_is ((This, false) :: rest) types -> returned_as_is R ->
  (stop s = None -> NeedsNullCheck D && (a =? 0) = false ->
     callee t ((match cell with Some c => [RInt c] | None => [] end) ++ RInt a :: vs) = Returns r) ->
  (forall v b s', wf s' -> ext s s' ->
     stop s' = check (negb (NeedsNullCheck D && (a =? 0))) CORINFO_HELP_THROWNULLREF (stop s) ->
     has s' v r -> Q (Some (v, b)) s') ->
  wp (genCall native IndirectArg D Signatures.CORINFO_CALLCONV_DEFAULT R types
        ((This, false) :: rest)) s Q.
Proof.
  intros Hw HN Ht Hcell Hthis Hnew Hjmp HThis Hrest HA (Hvoid & T & HT & HR) Hcallee HQ.
  unfold genCall. apply wp_bind. eapply wp_lift; [exact HN|]. apply wp_bind.
  assert (Hnt : forall l, CallTarget.native_target native N l = Some (l, N)).
  { intros l. unfold CallTarget.native_target. destruct Ht as [_ [-> | ->]]; [done|].
    by rewrite andb_false_r. }
  apply wp_pure with (x := N); [exact Hnt|].
  apply wp_bind, wp_assert; [done|]. apply wp_bind, wp_assert; [by rewrite orb_true_r|].
  inversion HA as [|? A ? types' (TA & HTA & Hconv) HA' E1 E2]; subst types. clear HA.
  apply wp_bind. cbn [genCallArguments]. apply wp_bind. unfold genCallArgument.
  apply wp_bind. eapply wp_lift; [exact HTA|]. rewrite Hnew, Hjmp, Hthis. cbn [Nat.eqb andb negb fst snd].
  set (nc := NeedsNullCheck D) in *.
  assert (Hcheck : forall Q', (forall s', wf s' -> ext s s' ->
      stop s' = check (negb (nc && (a =? 0))) CORINFO_HELP_THROWNULLREF (stop s) -> Q' This s') ->
    wp (if nc then assert true ;* genNullCheck This else ret This)%emit s Q').
  { intros Q' H'. destruct nc.
    - apply wp_bind, wp_ret, (wp_null_check This a); [done|done|]. intros s' Hw' He' Hs'. by apply H'.
    - apply wp_ret, H'; [done|reflexivity|]. cbn. by destruct (stop s). }
  apply wp_bind, Hcheck. intros s1 Hw1 He1 Hs1.
  apply wp_pure with (x := (This, false)); [exact Hconv|].
  apply wp_bind, wp_genCallArguments; [done|done|exact HA'|]. apply wp_ret.
  apply wp_bind. eapply wp_lift; [exact HT|]. apply wp_bind.
  apply wp_emit with (r := r); [done| |].
  { intros Hs. cbn [exec_instr]. rewrite (has_int _ _ _ _ (has_ext _ _ _ _ _ _ He1 (proj1 Ht)) Hs).
    set (cs := match cell with Some c => [@RInt FP c] | None => [] end).
    match goal with |- context [mapM ?f ?l] => assert (HM : mapM f l = Some (cs ++ RInt a :: vs)) end.
    { apply mapM_Some, Forall2_app.
      - unfold cs. destruct (IndirectionCellNode D) as [C|], cell as [c|]; try done.
        constructor; [|done]. exact (has_ext _ _ _ _ _ _ He1 Hcell Hs).
      - cbn. constructor; [exact (has_ext _ _ _ _ _ _ He1 HThis Hs)|].
        apply Forall2_fmap_l. eapply Forall2_impl; [exact Hrest|]. intros o y Hy. cbn.
        exact (has_ext _ _ _ _ _ _ He1 Hy Hs). }
    rewrite HM. rewrite Hs1 in Hs. apply check_None in Hs as [Hne Hs].
    apply Hcallee; [done|]. by apply negb_true_iff. }
  intros v s2 HvT Hw2 He2 Hs2 Hv. rewrite bool_decide_eq_false_2 by done.
  apply wp_bind, wp_pure with (x := v); [intros code; by apply HR|].
  apply wp_ret, HQ; [done|reach|by rewrite Hs2|done].
Qed.
End rules.

(** A call with a [this] argument, direct, virtual or through a stub: the
    emitted code throws NullReferenceException for a null object wherever the
    runtime asks for it or the object's virtual table is read, and otherwise
    calls the function that the entry point, the object's virtual table or the
    stub's cell holds, with the object and the other arguments in order and the
    address of the cell in front of them. *)
Theorem call_reaches_target {L : LLVM} (LS : LLVMLaws L) (native : Z) (RT : ReaderTypes)
    (OR : ObjectRuntime) (FR : FieldRuntime) (CR : CallRuntime) (instParam thisObj : Value)
    (Inlining : bool) (IndirectArg : nat -> bool) (args : list (RVal FP))
    (D : ReaderCallTargetData) (Info : CORINFO_CALL_INFO) (Method : Z) (E : Ty) (A a t : Z)
    (cell : option Z) (rest : list Operand) (vs : list (RVal FP))
    (types : list Signatures.CallArgType) (R : Signatures.CallArgType) (r : RVal FP)
    (Hnative : native = 32 \/ native = 64) (Hrtr : isReadyToRun = false)
    (HInfo : CallInfo D = Some Info) (HMethod : TargetMethodHandle D = Some Method)
    (Hdelegate : FLG_DELEGATE_INVOKE (TargetMethodAttribs D) = false)
    (Hcell : IndirectionCellNode D = None) (HthisPtr : HasThisPtr D = true)
    (Hnew : IsNewObj D = false) (Hjmp : IsJmp D = false) (Hcheck : NeedsNullCheck D = false)
    (Hthis : args !! 0%nat = Some (RInt a)) (Ha : 0 <= a < 2 ^ native)
    (Hrest : Forall2 (fun o r => exists n, def o.1 = Arg n /\ args !! n = Some r) rest vs)
    (Htypes : Forall2 (passed_as_is (native := native))
       ((MkValue (Arg 0) (PointerTy E A), false) :: rest) types)
    (Hret : returned_as_is (native := native) R)
    (Hok : runtime_ok (native := native) Info Method a)
    (Htarget : is_virtual Info && (a =? 0) = false ->
       call_target native Info Method a = Some (t, cell))
    (Hcallee : null_checked Info && (a =? 0) = false ->
       callee t ((match cell with Some c => [RInt c] | None => [] end) ++ RInt a :: vs) =
         Returns r) :
  run native args
    (let* (D, This) :=
       rdrMakeCallTargetNode native instParam thisObj Inlining D
         (Some (MkValue (Arg 0) (PointerTy E A))) in
     let* This := lift This in
     let* Result :=
       genCall native IndirectArg D Signatures.CORINFO_CALLCONV_DEFAULT R types
         ((This, false) :: rest) in
     lift (fst <$> Result))%emit =
  Some (if null_checked Info && (a =? 0) then Throws CORINFO_HELP_THROWNULLREF else Returns r).
Proof.
  rewrite (run_wp native _ _
    (check (negb (null_checked Info && (a =? 0))) CORINFO_HELP_THROWNULLREF None) r);
    [by destruct (null_checked Info && (a =? 0))|].
  assert (Hvirt : is_virtual Info = true -> null_checked Info = true).
  { unfold is_virtual, null_checked. by destruct (callKind Info). }
  set (cell' := if is_virtual Info then None else cell).
  assert (Hcells : is_virtual Info && (a =? 0) = false -> cell' = cell).
  { intros H. specialize (Htarget H). unfold cell'. destruct (is_virtual Info) eqn:HV; [|done].
    unfold is_virtual in HV. apply bool_decide_eq_true in HV. unfold call_target in Htarget.
    rewrite HV in Htarget. destruct (virtual_table a) as [vt|]; [|done]. cbn [mbind option_bind] in Htarget.
    destruct (word native _) as [chunk|]; [|done]. cbn [mbind option_bind] in Htarget.
    destruct (word native _) as [t'|]; [|done]. by injection Htarget. }
  apply wp_bind, (wp_makeCallTarget Hnative instParam thisObj Inlining D Info Method _ E A a t cell');
    try done; [apply wf_start|by apply has_arg|by intros H; rewrite (Hcells H); apply Htarget|
      by unfold cell'; intros ->|].
  intros N C s1 Hw1 He1 Hs1 HN HC. apply wp_bind, wp_ret, wp_bind.
  eapply (wp_genCall _ _ N t a cell' _ rest vs types R r); try done; [by apply has_arg| | |].
  - eapply Forall2_impl; [exact Hrest|]. intros [[d T] b] x (n & Hd & Hx). cbn in *. subst d.
    by apply has_arg.
  - intros Hs Hnc. rewrite Hs1 in Hs. apply check_None in Hs as [Hne _].
    apply negb_true_iff in Hne. rewrite (Hcells Hne). apply Hcallee.
    destruct (is_virtual Info) eqn:HV; [by rewrite (Hvirt eq_refl)|]. exact Hnc.
  - intros v b s2 Hw2 He2 Hs2 Hv. apply wp_ret. split; [|done]. rewrite Hs2, Hs1.
    cbn [NeedsNullCheck set_nodes]. destruct (is_virtual Info) eqn:HV; [|done].
    rewrite (Hvirt eq_refl), Hcheck. by destruct (a =? 0).
Qed.

(** A runtime with one virtual method: its slot is 8 bytes into the chunk that
    the table's word at 16 names. *)
Definition plain_call (Kind : CORINFO_CALL_KIND) : CORINFO_CALL_INFO :=
  MkCallInfo 5 no_flags Kind CORINFO_NO_THIS_TRANSFORM false (ConstLookup (IAT_VALUE 4096))
    (ConstLookup (IAT_PVALUE 2048)) (ClassContext 7) false (IAT_VALUE 1) None.

Definition plain_signature : Signatures.CORINFO_SIG_INFO :=
  Signatures.MkSigInfo Signatures.CORINFO_CALLCONV_DEFAULT CORINFO_TYPE_NATIVEINT None true false
    false 1 0.

Definition ObjectCalls : CallRuntime := {|
  getFunctionEntryPoint := fun _ => IAT_VALUE 4096;
  getMethodVTableOffset := fun _ => (16, 8);
  offsetOfDelegateInstance := 8;
  offsetOfDelegateFirstTarget := 24;
  embedMethodHandle := fun m => (m, false);
  getClassAttribs := fun _ =>
    MkClassFlags false false false false false false false false false;
  getMethodAttribs := fun _ => no_flags;
  getMethodClass := fun _ => 7;
  getReadyToRunHelper := fun _ _ => IAT_VALUE 0;
  getCallInfo := fun _ _ v => plain_call (if v then CORINFO_VIRTUALCALL_VTABLE else CORINFO_CALL);
  getMethodSig := fun _ => plain_signature;
  findCallSiteSig := fun _ => plain_signature;
  findSig := fun _ => plain_signature;
  retTypeSigClass := fun _ => None;
  isDelegateCreationAllowed := fun _ _ => true;
  resolveToken := fun t => MkToken t None
|}.

(** The data of [callvirt], as [init] fills it in. *)
Definition virtual_call : ReaderCallTargetData :=
  init (H2 := ObjectCalls) false CORINFO_TYPE_VOID (fun _ => false) 5 None false false false
    CallVirt.

Definition call_memory : LLVM :=
  DemoMemory object_fields
    (fun _ p => if p =? 1000 then Some (RInt 512) else if p =? 528 then Some (RInt 640)
                else if p =? 648 then Some (RInt 777) else None)
    (fun b n => (b =? 512) && (n =? 64)).

Lemma call_reaches_target_witness :
  run (L := call_memory) 64 [RInt 1000; RInt 3]
    (let* (D, This) :=
       rdrMakeCallTargetNode (H1 := ObjectFields) (H2 := ObjectCalls) 64
         (MkValue (Const 0) (IntegerTy 64)) (MkValue (Const 0) (IntegerTy 64)) false virtual_call
         (Some (MkValue (Arg 0) (PointerTy (IntegerTy 8) ManagedAddressSpace))) in
     let* This := lift This in
     let* Result :=
       genCall (H := ObjectReader) (H0 := ObjectClasses) 64 (fun _ => false) D
         Signatures.CORINFO_CALLCONV_DEFAULT
         (Signatures.MkCallArgType CORINFO_TYPE_NATIVEINT None)
         [Signatures.MkCallArgType CORINFO_TYPE_CLASS (Some 7);
          Signatures.MkCallArgType CORINFO_TYPE_INT None]
         [(This, false); (MkValue (Arg 1) (IntegerTy 32), false)] in
     lift (fst <$> Result))%emit = Some (Returns (RInt 777)).
Proof.
  refine (call_reaches_target (L := call_memory) (DemoMemory_laws _ _ _) 64 ObjectReader
    ObjectClasses ObjectFields ObjectCalls _ _ false (fun _ => false) [RInt 1000; RInt 3]
    virtual_call (plain_call CORINFO_VIRTUALCALL_VTABLE) 5 (IntegerTy 8) ManagedAddressSpace 1000
    777 None [(MkValue (Arg 1) (IntegerTy 32), false)] [RInt 3] _ _ (RInt 777)
    _ _ _ _ _ _ _ _ _ _ _ _ _ _ _ _ _ _); try done.
  - by right.
  - constructor; [by exists 1%nat|done].
  - repeat constructor; eexists; by split.
  - split; [done|]. eexists. split; [done|]. intros v l HT. unfold convertToStackType.
    by rewrite HT.
  - split; [done|]. split; [done|]. intros _ vt [= <-]. by exists 512, 64.
Defined.
