(* ===== verification/Allocation.v ===== *)
(** * Objects (lib/Reader/reader.cpp, readerir.cpp)

    Allocation of objects and arrays, boxing and unboxing, casts, tokens, typed
    references, and the helpers around a method: class constructors and
    monitors. *)

From S2P Require Import Prelude Opcodes IRBuilder GenIRTypes Conv Arith IRLogic Memory Objects Generics Signature Fields CallTarget.
Import ReaderBaseNS.

(** The intrinsics that the reader may expand. *)
Inductive CorInfoIntrinsics : Set :=
  | Array_GetDimLength | Sin | Cos | Sqrt | InterlockedXAdd32 | InterlockedXAdd64
  | InterlockedXchg32 | InterlockedXchg64 | InterlockedCmpXchg32 | InterlockedCmpXchg64
  | MemoryBarrier | Abs | Array_Get | Array_Address | Array_Set | Round | StringLength
  | StringGetChar | InitializeArray | GetChar | GetTypeFromHandle | RTH_GetValueInternal
  | Object_GetType | StubHelpers_GetStubContext | StubHelpers_GetStubContextAddr
  | OtherIntrinsic (Id : Z).

#[export] Instance intrinsics_eq_dec : EqDecision CorInfoIntrinsics.
Proof. solve_decision. Defined.

(** Whether a lookup at run time finds the class of the current method. *)
Definition CORINFO_LOOKUP_KIND : Type := option CORINFO_RUNTIME_LOOKUP_KIND.

(** [getBoxedType] is the reader's type of boxed values, a reference; the
    structure of typed references has the two element types given here. *)
Class AllocRuntime := {
  getNewHelper : ResolvedToken -> CorInfoHelpFunc;
  getNewArrHelper : Z -> CorInfoHelpFunc;
  getBoxHelper : Z -> CorInfoHelpFunc;
  getUnBoxHelper : Z -> CorInfoHelpFunc;
  getCastingHelper : ResolvedToken -> bool -> CorInfoHelpFunc;
  getBoxedType : Z -> option Ty;
  getTokenTypeAsHandle : ResolvedToken -> Z;
  hasMethod : ResolvedToken -> bool;
  canAccessClass : ResolvedToken -> option CORINFO_HELPER_DESC;
  TypedByRefClass : Z;
  TypeHandleClass : Z;
  getLocationOfThisType : CORINFO_LOOKUP_KIND;
  getMethodSync : Z * bool;
  CurrentMethod : Z;
  CurrentClass : Z;
  CurrentAttribs : MethodFlags
}.

Module Allocation.
Import GenIR Arith Memory Objects Generics Fields CallTarget.
#[local] Open Scope emit_scope.

Section allocation.
Variable TargetPointerSizeInBits : Z.
Context `{ReaderTypes} `{ObjectRuntime} `{FieldRuntime} `{CallRuntime} `{AllocRuntime}.
Variables (instParam thisObj : Value).
Variable Inlining : bool.

#[local] Notation NativeIntTy := (NativeIntTy TargetPointerSizeInBits).
#[local] Notation handleToIRNode := (handleToIRNode TargetPointerSizeInBits).
#[local] Notation loadConstantI := (loadConstantI TargetPointerSizeInBits).
#[local] Notation convertToStackType := (convertToStackType TargetPointerSizeInBits).

(** ** Helpers of ReadyToRun code *)

(** [callReadyToRunHelper]: the address depends on the token. *)
Definition getReadyToRunHelperCallAddress (HelperId : CorInfoHelpFunc) (Token : ResolvedToken) :
    M Value :=
  match getReadyToRunHelper Token HelperId with
  | IAT_VALUE Descriptor => handleToIRNode Descriptor false true
  | IAT_PVALUE Descriptor => handleToIRNode Descriptor true true
  | IAT_PPVALUE _ => fail
  end.

Definition callReadyToRunHelper (HelperId : CorInfoHelpFunc) (Dst : option Ty)
    (Token : ResolvedToken) (Args : list Value) : M Value :=
  let* Address := getReadyToRunHelperCallAddress HelperId Token in
  callHelperAt HelperId Address Dst Args false.

(** The node of a token whose class must be loaded, and what is asked of the
    runtime. *)
Definition restored_token (Token : ResolvedToken) (EmbedParent : bool) :
    M (Value * list RestoreRequest) :=
  let* (Node, Requests) :=
    genericTokenToNode TargetPointerSizeInBits instParam thisObj Inlining (fun _ => 0)
      (embedGenericHandle Token EmbedParent) true true in
  let* Node := lift Node in
  ret (Node, Requests).

#[local] Notation tokenNode := (tokenNode TargetPointerSizeInBits instParam thisObj).

Definition handleClassAccess (Token : ResolvedToken) : M unit :=
  handleMemberAccess TargetPointerSizeInBits (canAccessClass Token).

(** ** Arrays and casts *)

Definition newArr (Token : ResolvedToken) (Arg1 : Value) : M (Value * list RestoreRequest) :=
  let* NumOfElements := convertToStackType Arg1 CORINFO_TYPE_NATIVEINT in
  let* ArrayType := lift (getTypeOfClass CORINFO_TYPE_CLASS (Some (hClass Token))) in
  if isReadyToRun then
    let* Array :=
      callReadyToRunHelper CORINFO_HELP_READYTORUN_NEWARR_1 (Some ArrayType) Token
        [NumOfElements] in
    ret (Array, [])
  else
    let* (Node, Requests) := restored_token Token false in
    let ElementType := compileTimeHandle (embedGenericHandle Token false) in
    let* Array :=
      callHelper (getNewArrHelper ElementType) (Some ArrayType) [Node; NumOfElements] false in
    ret (Array, Requests).

Definition disableCastClassOptimization : bool := true.

(** With the optimization disabled the helper is the one asked for. *)
Definition castOp (Token : ResolvedToken) (ObjRefNode : Value) (HelperId : CorInfoHelpFunc) :
    M Value :=
  let Class := hClass Token in
  let* ResultType :=
    lift (if isValueClass Class then getBoxedType Class
          else getTypeOfClass CORINFO_TYPE_CLASS (Some Class)) in
  if isReadyToRun then callReadyToRunHelper HelperId (Some ResultType) Token [ObjRefNode]
  else
    let* ClassHandleNode := tokenNode Token false in
    let HelperId :=
      if negb disableCastClassOptimization && bool_decide (HelperId = CORINFO_HELP_CHKCASTCLASS)
      then CORINFO_HELP_CHKCASTCLASS_SPECIAL else HelperId in
    callHelper HelperId (Some ResultType) [ClassHandleNode; ObjRefNode] false.

Definition castClass (Token : ResolvedToken) (ObjRefNode : Value) : M Value :=
  castOp Token ObjRefNode
    (if isReadyToRun then CORINFO_HELP_READYTORUN_CHKCAST else getCastingHelper Token true).

Definition isInst (Token : ResolvedToken) (ObjRefNode : Value) : M Value :=
  castOp Token ObjRefNode
    (if isReadyToRun then CORINFO_HELP_READYTORUN_ISINSTANCEOF else getCastingHelper Token false).

(** ** Boxes *)

(** [CreateFPCast] to the type a value has gives that value. *)
Definition CreateFPCast_to (Opr : Value) (T : Ty) : M Value :=
  if bool_decide (IRBuilder.getType Opr = T) then ret Opr else emit (CreateFPCast Opr T) T.

Definition convertToBoxHelperArgumentType (Opr : Value) (DestSize : Z) : M Value :=
  let T := IRBuilder.getType Opr in
  match T with
  | IntegerTy w =>
      assert ((w =? 32) || (w =? 64)) ;*
      assert (DestSize <=? w) ;*
      ret Opr
  | FloatTy | DoubleTy =>
      if DestSize <? getPrimitiveSizeInBits T then CreateFPCast_to Opr T else ret Opr
  | _ => ret Opr
  end.

(** [makeBoxDstOperand]. *)
Definition box_type (Class : Z) : option Ty :=
  T ← getBoxedType Class; Some (getManagedPointerType T).

Definition box (Token : ResolvedToken) (Arg2 : Operand) : M Operand :=
  let Class := hClass Token in
  if negb (FLG_VALUECLASS (getClassAttribs Class)) then ret Arg2
  else
    let* Converted := convertToBoxHelperArgumentType Arg2.1 (getClassSize Class) in
    let* Dst := lift (box_type Class) in
    let* Address := addressOfValue (Converted, Arg2.2) in
    let* Arg1 := tokenNode Token true in
    let* Result := callHelper (getBoxHelper Class) (Some Dst) [Arg1; Address] false in
    ret (Result, false).

(** The helper gives the address of the data in the box, or fills a copy of a
    nullable value. *)
Definition unbox (Token : ResolvedToken) (Object : Value) (AndLoad : bool) (Alignment : Z)
    (IsVolatile : bool) : M Operand :=
  handleClassAccess Token ;*
  let Class := hClass Token in
  let HelperId := getUnBoxHelper Class in
  let* ClassHandleArgument := tokenNode Token false in
  if bool_decide (HelperId = CORINFO_HELP_UNBOX_NULLABLE) then
    let* NullableType := lift (getTypeOfClass (asCorInfoType Class) (Some Class)) in
    assert (isStructTy NullableType) ;*
    let* UnboxedNullable := createTemporary NullableType in
    callHelper HelperId None [UnboxedNullable; ClassHandleArgument; Object] false ;*
    ret (UnboxedNullable, AndLoad)
  else
    assert (bool_decide (HelperId = CORINFO_HELP_UNBOX)) ;*
    let* PtrTy := lift (getTypeOfClass CORINFO_TYPE_BYREF (Some Class)) in
    let* Result := callHelper HelperId (Some PtrTy) [ClassHandleArgument; Object] false in
    if AndLoad then loadObj TargetPointerSizeInBits Token Result Alignment IsVolatile false false
    else ret (Result, false).

Definition unboxAny (Token : ResolvedToken) (Arg : Value) (AlignmentPrefix : Z)
    (IsVolatilePrefix : bool) : M Operand :=
  if FLG_VALUECLASS (getClassAttribs (hClass Token))
  then unbox Token Arg true AlignmentPrefix IsVolatilePrefix
  else let* Result := castClass Token Arg in ret (Result, false).

(** [loadAndBox], for a constrained call. *)
Definition loadAndBox (Token : ResolvedToken) (Addr : Value) (Alignment : Z) : M Operand :=
  let Class := hClass Token in
  let CorType := asCorInfoType Class in
  let* Val :=
    if isPrimitiveType CorType then
      let* Node := loadPrimitiveType TargetPointerSizeInBits Addr CorType Alignment false true in
      ret (Node, false)
    else if FLG_VALUECLASS (getClassAttribs Class) then
      let* (UpdatedAddress, _) :=
        getTypedAddress TargetPointerSizeInBits Addr CorType (Some Class) Alignment in
      loadObj TargetPointerSizeInBits Token UpdatedAddress Alignment false false true
    else
      let* Node := loadIndir TargetPointerSizeInBits LdindRef Addr Alignment false true in
      ret (Node, false) in
  box Token Val.

(** [applyThisTransform]. *)
Definition applyThisTransform (D : ReaderCallTargetData) (ThisNode : Operand) : M Operand :=
  assert (HasThisPtr D) ;*
  match CallInfo D with
  | None => ret ThisNode
  | Some Info =>
      match thisTransform Info with
      | CORINFO_NO_THIS_TRANSFORM => ret ThisNode
      | CORINFO_DEREF_THIS =>
          let* Node :=
            loadIndir TargetPointerSizeInBits LdindRef ThisNode.1 AlignNatural false true in
          ret (Node, false)
      | CORINFO_BOX_THIS =>
          let* Constraint := lift (ConstraintToken D) in
          loadAndBox Constraint ThisNode.1 AlignNatural
      end
  end.

(** ** [newobj] *)

(** The type and the size of a temporary for a value class; the size is 0 for
    other classes and for primitive types. *)
Definition getClassType (Class : Z) (Attribs : ClassFlags) : CorInfoType * Z :=
  if negb (FLG_VALUECLASS Attribs) then (CORINFO_TYPE_PTR, 0)
  else if isPrimitiveType (asCorInfoType Class) then (asCorInfoType Class, 0)
  else (CORINFO_TYPE_VALUECLASS, getClassSize Class).

Definition zeroInitBlock (Address Size : Value) : M unit :=
  callHelper CORINFO_HELP_MEMSET None [Address; ConstantInt 8 0; Size] false ;* ret tt.

(** The object under construction: null where the constructor allocates, a
    zeroed temporary, or a fresh object of the heap; with the temporary. *)
Definition genNewObjThisArg (D : ReaderCallTargetData) (ThisType : Ty) (Class : Z) :
    M (Value * option Value * ReaderCallTargetData) :=
  let* ClassAttribs := lift (classAttribs D) in
  if FLG_VAROBJSIZE ClassAttribs then ret (getNullValue ThisType, None, D)
  else if FLG_VALUECLASS ClassAttribs then
    let '(StructCorType, MbSize) := getClassType Class ClassAttribs in
    let* StructType := lift (getTypeOfClass StructCorType (Some Class)) in
    let* Alloca := createTemporary StructType in
    zeroInitBlock Alloca (loadConstantI MbSize) ;*
    let ManagedPointerType := getManagedPointerType StructType in
    let* Pointer := emit (CreateAddrSpaceCast Alloca ManagedPointerType) ManagedPointerType in
    let* Pointer :=
      if bool_decide (ManagedPointerType = ThisType) then ret Pointer
      else emit (CreatePointerCast Pointer ThisType) ThisType in
    ret (Pointer, Some Alloca, D)
  else if isReadyToRun then
    let* This := callReadyToRunHelper CORINFO_HELP_READYTORUN_NEW (Some ThisType) (Token D) [] in
    ret (This, None, D)
  else
    let* (ClassHandleNode, D) :=
      getClassHandleNode TargetPointerSizeInBits instParam thisObj Inlining D in
    let* This :=
      callHelper (getNewHelper (Token D)) (Some ThisType) [ClassHandleNode] false in
    ret (This, None, D).

(** [rdrMakeNewObjThisArg]: the callee allocates a multi-dimensional array. *)
Definition rdrMakeNewObjThisArg (D : ReaderCallTargetData) (ThisType : Ty) (Class : Z) :
    M (option (Value * option Value) * ReaderCallTargetData) :=
  let* ClassAttribs := lift (classAttribs D) in
  if FLG_ARRAY ClassAttribs then ret (None, D)
  else
    let* (This, D) := genNewObjThisArg D ThisType Class in
    ret (Some This, D).

(** The new object; the temporary of a value class is the value itself. *)
Definition genNewObjReturnNode (D : ReaderCallTargetData) (This : Value * option Value) :
    M Operand :=
  let* ClassAttribs := lift (classAttribs D) in
  if FLG_VALUECLASS ClassAttribs then
    let* Temp := lift This.2 in
    let* T := lift (getPointerElementType (IRBuilder.getType Temp)) in
    if isStructTy T then ret (Temp, true)
    else let* Load := makeLoad Temp false false None in ret (Load, false)
  else ret (This.1, false).

Definition rdrMakeNewObjReturnNode (D : ReaderCallTargetData) (This : Value * option Value)
    (CallReturnNode : option Operand) : M Operand :=
  let* ClassAttribs := lift (classAttribs D) in
  assert (negb (FLG_ARRAY ClassAttribs)) ;*
  if FLG_VAROBJSIZE ClassAttribs then lift CallReturnNode else genNewObjReturnNode D This.

(** The arguments of the helper that allocates a multi-dimensional array. *)
Fixpoint md_arguments (Args : list Operand) (types : list Signatures.CallArgType) :
    M (list Value) :=
  match Args, types with
  | [], [] => ret []
  | ArgNode :: Args, A :: types =>
      let* ArgType := lift (getTypeOfClass (Signatures.CorType A) (Signatures.ClassHandle A)) in
      assert (negb (isStructTy ArgType)) ;*
      let* ArgNode :=
        convertFromStackType TargetPointerSizeInBits isLayoutIdentical ArgNode.1 ArgNode.2
          (Signatures.CorType A) ArgType in
      let* Rest := md_arguments Args types in
      ret (ArgNode.1 :: Rest)
  | _, _ => fail
  end.

(** [genNewMDArrayCall]; [Args] are the arguments behind [this], which the call
    does not have.  The number of arguments is passed as a 32-bit count. *)
Definition genNewMDArrayCall (D : ReaderCallTargetData) (types : list Signatures.CallArgType)
    (Args : list Operand) : M (Operand * ReaderCallTargetData) :=
  let* ThisType := lift (head types) in
  let* ReturnType :=
    lift (getTypeOfClass (Signatures.CorType ThisType) (Signatures.ClassHandle ThisType)) in
  let* (ClassHandle, D) :=
    getClassHandleNode TargetPointerSizeInBits instParam thisObj Inlining D in
  let NumArgs := loadConstantI4 (Z.of_nat (Signatures.numArgs (SigInfo D))) in
  let* Rest := md_arguments Args (tail types) in
  let* Array :=
    callHelper CORINFO_HELP_NEW_MDARR (Some ReturnType) (ClassHandle :: NumArgs :: Rest) false in
  ret ((Array, false), D).

(** ** Tokens and typed references *)

(** A structure with one field, filled by a helper. *)
Definition convertHandle (GetTokenNumericNode : Value) (HelperID : CorInfoHelpFunc)
    (Class : Z) : M Operand :=
  let* ResultType := lift (getTypeOfClass (asCorInfoType Class) (Some Class)) in
  let* Fields := lift (struct_fields (PointerTy ResultType 0)) in
  assert (length Fields =? 1)%nat ;*
  let* Result := createTemporary ResultType in
  let* FieldAddress := CreateStructGEP Result 0 in
  let* FieldType := lift (getPointerElementType (IRBuilder.getType FieldAddress)) in
  let* HelperResult := callHelper HelperID (Some FieldType) [GetTokenNumericNode] false in
  emit (CreateStore HelperResult FieldAddress false None) VoidTy ;*
  ret (Result, true).

Definition loadToken (Token : ResolvedToken) : M (Operand * list RestoreRequest) :=
  let* (GetTokenNumericNode, Requests) := restored_token Token false in
  let Helper :=
    if hasMethod Token then CORINFO_HELP_METHODDESC_TO_STUBRUNTIMEMETHOD
    else
      match hField Token with
      | Some _ => CORINFO_HELP_FIELDDESC_TO_STUBRUNTIMEFIELD
      | None => CORINFO_HELP_TYPEHANDLE_TO_RUNTIMETYPE
      end in
  let* LdtokenNode := convertHandle GetTokenNumericNode Helper (getTokenTypeAsHandle Token) in
  ret (LdtokenNode, Requests).

(** The only field of a [RuntimeTypeHandle]. *)
Definition getTypeFromHandle (Arg1 : Operand) : M Value :=
  let* Fields := lift (struct_fields (IRBuilder.getType Arg1.1)) in
  assert (length Fields =? 1)%nat ;*
  assert Arg1.2 ;*
  let* FieldAddress := CreateStructGEP Arg1.1 0 in
  let* T := lift (getPointerElementType (IRBuilder.getType FieldAddress)) in
  emit (CreateLoad FieldAddress T false None) T.

(** A typed reference holds a pointer and the handle of its type. *)
Definition makeRefAny (Token : ResolvedToken) (Object : Value) : M Operand :=
  let* RefAnyTy := lift (getTypeOfClass CORINFO_TYPE_VALUECLASS (Some TypedByRefClass)) in
  let* Elements := lift (struct_fields (PointerTy RefAnyTy 0)) in
  let* RefAny := createTemporary RefAnyTy in
  let* ExpectedObjectTy := lift (Elements !! 0%nat) in
  assert (isGcPointer ExpectedObjectTy) ;*
  let ActualObjectTy := IRBuilder.getType Object in
  let* CastObject :=
    if isGcPointer ActualObjectTy then
      if bool_decide (ActualObjectTy = ExpectedObjectTy) then ret Object
      else emit (CreatePointerCast Object ExpectedObjectTy) ExpectedObjectTy
    else if isPointerTy ActualObjectTy then
      emit (CreateAddrSpaceCast Object ExpectedObjectTy) ExpectedObjectTy
    else
      assert (isIntegerTy ActualObjectTy) ;*
      emit (CreateIntToPtr Object ExpectedObjectTy) ExpectedObjectTy in
  let* ValueFieldAddress := CreateStructGEP RefAny 0 in
  makeStore CastObject ValueFieldAddress false false None ;*
  let* TypeFieldAddress := CreateStructGEP RefAny 1 in
  let* TypeHandle := tokenNode Token false in
  assert (bool_decide (Elements !! 1%nat = Some (IRBuilder.getType TypeHandle))) ;*
  makeStore TypeHandle TypeFieldAddress false false None ;*
  ret (RefAny, true).

Definition refAnyType (RefAny : Value) : M Operand :=
  let* RefAnyTy := lift (getTypeOfClass CORINFO_TYPE_VALUECLASS (Some TypedByRefClass)) in
  assert (bool_decide (getPointerElementType (IRBuilder.getType RefAny) = Some RefAnyTy)) ;*
  let* TypeFieldAddress := CreateStructGEP RefAny 1 in
  let* TypeValue := makeLoad TypeFieldAddress false false None in
  convertHandle TypeValue CORINFO_HELP_TYPEHANDLE_TO_RUNTIMETYPE_MAYBENULL TypeHandleClass.

Definition refAnyVal (RefAny : Value) (Token : ResolvedToken) : M Value :=
  let* Arg1 := tokenNode Token false in
  let Class := hClass Token in
  let* ElementTy := lift (getTypeOfClass (asCorInfoType Class) (Some Class)) in
  callHelper CORINFO_HELP_GETREFANY (Some (getManagedPointerType ElementTy)) [Arg1; RefAny] false.

Definition sizeofOpcode (Token : ResolvedToken) : M Value :=
  convertToStackType (ConstantInt 32 (getClassSize (hClass Token))) CORINFO_TYPE_UINT.

Definition getStaticFieldAddress (Dom : DominatorFacts) (Token : ResolvedToken) :
    M (Value * list DominatorRecord) :=
  let Info := getFieldInfo Token CORINFO_ACCESS_ADDRESS in
  let* (Address, Records) :=
    rdrGetStaticFieldAddress TargetPointerSizeInBits instParam thisObj Dom Token Info in
  let* (TypedAddress, _) :=
    getTypedAddress TargetPointerSizeInBits Address (fieldType Info) (structType Info)
      AlignNatural in
  ret (TypedAddress, Records).

Definition localAlloc (Arg : Value) (ZeroInit : bool) : M Value :=
  let* LocAlloc :=
    emit (CreateArrayAlloca (IntegerTy 8) Arg) (getUnmanagedPointerType (IntegerTy 8)) in
  (if ZeroInit then zeroInitBlock LocAlloc Arg else ret tt) ;*
  ret LocAlloc.

(** ** Exceptions, class constructors and monitors *)

Definition throwOpcode (Arg1 : Value) : M unit :=
  callHelper CORINFO_HELP_THROW None [Arg1] false ;* ret tt.

Definition rethrow : M unit := callHelper CORINFO_HELP_RETHROW None [] false ;* ret tt.

Definition breakOpcode : M unit := callHelper CORINFO_HELP_USER_BREAKPOINT None [] false ;* ret tt.

(** [endFilter]; the exception of the handler goes onto the operand stack. *)
Definition endFilter (Arg1 Exception : Value) (Stack : list Value) : M (list Value) :=
  let* ThrowCondition := emit (CreateIsNull Arg1) i1 in
  genConditionalThrow ThrowCondition CORINFO_HELP_RETHROW ;*
  ret (Exception :: Stack).

Definition method_node : M Value :=
  let '(Method, IsIndirect) := embedMethodHandle CurrentMethod in
  handleToIRNode Method IsIndirect true.

(** The call that runs the class constructor of the method's class; whether
    the block is recorded as one that has run it. *)
Definition insertClassConstructor (AreInlining HasClassInit : bool) : M bool :=
  match getLocationOfThisType with
  | Some CORINFO_LOOKUP_THISOBJ =>
      let* MethodNode := method_node in
      let* ClassNode := derefAddress TargetPointerSizeInBits thisObj false true in
      callHelper CORINFO_HELP_INITINSTCLASS None [ClassNode; MethodNode] false ;* ret false
  | Some CORINFO_LOOKUP_CLASSPARAM =>
      callHelper CORINFO_HELP_INITCLASS None [instParam] false ;* ret false
  | Some CORINFO_LOOKUP_METHODPARAM =>
      callHelper CORINFO_HELP_INITINSTCLASS None [ConstantInt 64 0; instParam] false ;* ret false
  | None =>
      if AreInlining && HasClassInit then ret false
      else if isReadyToRun then
        callReadyToRunHelper CORINFO_HELP_READYTORUN_STATIC_BASE None (MkToken CurrentClass None)
          [] ;*
        ret true
      else
        let HelperId := getSharedCCtorHelper CurrentClass in
        (if bool_decide (HelperId = CORINFO_HELP_GETGENERICS_NONGCSTATIC_BASE) then
           let '(ClassHandle, IsIndirect) := embedClassHandle CurrentClass in
           let* ClassNode := handleToIRNode ClassHandle IsIndirect true in
           callHelper HelperId None [ClassNode] false
         else rdrCallGetStaticBase TargetPointerSizeInBits CurrentClass HelperId None) ;*
        ret true
  end.

(** The lock of a synchronized method: its object, the object of its class, or
    one that is found through the generic context. *)
Definition rdrGetCritSect : M Value :=
  if negb (FLG_STATIC CurrentAttribs) then ret thisObj
  else
    match getLocationOfThisType with
    | None =>
        let '(CritSect, IsIndirect) := getMethodSync in handleToIRNode CritSect IsIndirect IsIndirect
    | Some CORINFO_LOOKUP_THISOBJ => fail
    | Some CORINFO_LOOKUP_CLASSPARAM =>
        callHelper CORINFO_HELP_GETSYNCFROMCLASSHANDLE (Some (NullType)) [instParam] false
    | Some CORINFO_LOOKUP_METHODPARAM =>
        let* HandleNode :=
          callHelper CORINFO_HELP_GETCLASSFROMMETHODPARAM (Some NullType) [instParam] false in
        callHelper CORINFO_HELP_GETSYNCFROMCLASSHANDLE (Some NullType) [HandleNode] false
    end.

Definition callMonitorHelper (MethodSyncHandle SyncFlag : Value) (IsEnter : bool) : M unit :=
  let HelperId :=
    if FLG_STATIC CurrentAttribs then
      if IsEnter then CORINFO_HELP_MON_ENTER_STATIC else CORINFO_HELP_MON_EXIT_STATIC
    else if IsEnter then CORINFO_HELP_MON_ENTER else CORINFO_HELP_MON_EXIT in
  callHelper HelperId None [MethodSyncHandle; SyncFlag] false ;* ret tt.

(** The check that a delegate may be made of a method. *)
Definition rdrInsertCalloutForDelegate (DelegateType CalleeMethod : Z) : M unit :=
  if negb (isDelegateCreationAllowed DelegateType CalleeMethod) then
    let '(DelegateTypeHandle, IsIndirect) := embedClassHandle DelegateType in
    let* Arg1 := handleToIRNode DelegateTypeHandle IsIndirect true in
    let '(CalleeMethodHandle, IsIndirect) := embedMethodHandle CalleeMethod in
    let* Arg2 := handleToIRNode CalleeMethodHandle IsIndirect true in
    callHelper CORINFO_HELP_DELEGATE_SECURITY_CHECK None [Arg1; Arg2] false ;* ret tt
  else ret tt.
End allocation.
End Allocation.
