(* ===== verification/SIMD.v ===== *)
(** * Vector intrinsics (lib/Reader/reader.cpp, readerir.cpp)

    The calls of System.Numerics that the reader expands into vector
    instructions.  An expansion takes its operands from the operand stack and
    yields a node, or puts the operands back and yields none, and the call is
    made after all.  The theorems are in [SIMDRules]. *)

From stdpp Require Import strings.
From S2P Require Import Prelude TypeLayout SIMDTypes IRBuilder GenIRTypes Conv Arith IRLogic Memory.
Import SIMDTypes.

Inductive ReaderSIMDIntrinsic : Set :=
  | UNDEF | CTOR | ADD | SUB | MUL | DIV | MIN | MAX | BITOR | BITAND | BITEXOR | ABS | SQRT
  | EQ | NEQ | GETCOUNTOP | GETITEM.

#[export] Instance simd_intrinsic_eq_dec : EqDecision ReaderSIMDIntrinsic.
Proof. solve_decision. Defined.

(** The runtime's names and sizes of classes, and the option for the length. *)
Class SIMDRuntime := {
  className : Z -> string;
  classSize : Z -> Z;
  PreferredIntrinsicSIMDVectorLength : Z
}.

Module SIMD.
Import GenIR Arith Memory.
#[local] Open Scope emit_scope.

(** ** Types *)

Definition isVectorTy (T : Ty) : bool := match T with VectorTy _ _ => true | _ => false end.
Definition isVectorType (ArgNode : Value) : bool := isVectorTy (IRBuilder.getType ArgNode).

(** [getVectorElementType]; on another type the cast asserts. *)
Definition getVectorElementType (T : Ty) : option Ty :=
  match T with VectorTy E _ => Some E | _ => None end.

Definition isAggregateType (T : Ty) : bool :=
  match T with StructTy _ | ArrayTy _ _ => true | _ => false end.

Definition element_ty (T : TypeLayout.LTy) : option Ty :=
  match T with
  | TypeLayout.LInt w => Some (IntegerTy w)
  | TypeLayout.LFloat => Some FloatTy
  | TypeLayout.LDouble => Some DoubleTy
  | _ => None
  end.

(** An instruction for floating-point elements, and one for integers. *)
Definition by_element (Vector : Value) (OnFloat OnInteger : M Value) : M (option Value) :=
  let* E := lift (getVectorElementType (IRBuilder.getType Vector)) in
  if isFloatingPointTy E then let* V := OnFloat in ret (Some V)
  else if isIntegerTy E then let* V := OnInteger in ret (Some V)
  else ret None.

Definition same_type (Vector1 Vector2 : Value) : M unit :=
  assert (bool_decide (IRBuilder.getType Vector2 = IRBuilder.getType Vector1)).

(** The vector of conditions a comparison gives. *)
Definition condition_type (T : Ty) : Ty :=
  match T with VectorTy _ n => VectorTy i1 n | _ => T end.

(** ** Instructions of two vectors *)

Definition vector_instr (Op : BinaryOps) (Vector1 Vector2 : Value) : M Value :=
  emit (VectorBinOp Op Vector1 Vector2) (IRBuilder.getType Vector1).
Definition vector_icmp (P : Predicate) (Vector1 Vector2 : Value) : M Value :=
  emit (VectorICmp P Vector1 Vector2) (condition_type (IRBuilder.getType Vector1)).
Definition vector_fcmp (P : Predicate) (Vector1 Vector2 : Value) : M Value :=
  emit (VectorFCmp P Vector1 Vector2) (condition_type (IRBuilder.getType Vector1)).

Definition vectorAdd (Vector1 Vector2 : Value) : M (option Value) :=
  same_type Vector1 Vector2 ;*
  by_element Vector1 (vector_instr FAdd Vector1 Vector2) (vector_instr IAdd Vector1 Vector2).

Definition vectorSub (Vector1 Vector2 : Value) : M (option Value) :=
  same_type Vector1 Vector2 ;*
  by_element Vector1 (vector_instr FSub Vector1 Vector2) (vector_instr ISub Vector1 Vector2).

Definition vectorMul (Vector1 Vector2 : Value) : M (option Value) :=
  same_type Vector1 Vector2 ;*
  by_element Vector1 (vector_instr FMul Vector1 Vector2) (vector_instr IMul Vector1 Vector2).

Definition vectorDiv (Vector1 Vector2 : Value) (IsSigned : bool) : M (option Value) :=
  same_type Vector1 Vector2 ;*
  by_element Vector1 (vector_instr FDiv Vector1 Vector2)
    (if IsSigned then vector_instr SDiv Vector1 Vector2 else vector_instr UDiv Vector1 Vector2).

Definition vectorEqual (Vector1 Vector2 : Value) : M (option Value) :=
  same_type Vector1 Vector2 ;*
  by_element Vector1 (vector_fcmp FCMP_OEQ Vector1 Vector2) (vector_icmp ICMP_EQ Vector1 Vector2).

Definition vectorNotEqual (Vector1 Vector2 : Value) : M (option Value) :=
  same_type Vector1 Vector2 ;*
  by_element Vector1 (vector_fcmp FCMP_ONE Vector1 Vector2) (vector_icmp ICMP_NE Vector1 Vector2).

(** The comparison of [vectorMax] and [vectorMin]; without one the selection
    has a null operand. *)
Definition compare_ge (Vector1 Vector2 : Value) (IsSigned : bool) : M Value :=
  let* CompareRes :=
    by_element Vector1 (vector_fcmp FCMP_OGE Vector1 Vector2)
      (if IsSigned then vector_icmp ICMP_SGE Vector1 Vector2
       else vector_icmp ICMP_UGE Vector1 Vector2) in
  lift CompareRes.

Definition vectorMax (Vector1 Vector2 : Value) (IsSigned : bool) : M (option Value) :=
  same_type Vector1 Vector2 ;*
  let* CompareRes := compare_ge Vector1 Vector2 IsSigned in
  let* V := emit (CreateSelect CompareRes Vector1 Vector2) (IRBuilder.getType Vector1) in
  ret (Some V).

Definition vectorMin (Vector1 Vector2 : Value) (IsSigned : bool) : M (option Value) :=
  same_type Vector1 Vector2 ;*
  let* CompareRes := compare_ge Vector1 Vector2 IsSigned in
  let* V := emit (CreateSelect CompareRes Vector2 Vector1) (IRBuilder.getType Vector1) in
  ret (Some V).

Definition getVectorIntType (VectorByteSize : Z) : Ty :=
  VectorTy (IntegerTy 32) (VectorByteSize * 8 / 32).

(** [vectorBitOr], [vectorBitAnd] and [vectorBitExOr]: floating-point elements
    are taken as integers. *)
Definition vector_bits (Op : BinaryOps) (Vector1 Vector2 : Value) (VectorByteSize : Z) :
    M (option Value) :=
  same_type Vector1 Vector2 ;*
  by_element Vector1
    (let ResultType := IRBuilder.getType Vector1 in
     let VectorIntType := getVectorIntType VectorByteSize in
     let* Vector1 := emit (VectorBitCast Vector1 VectorIntType) VectorIntType in
     let* Vector2 := emit (VectorBitCast Vector2 VectorIntType) VectorIntType in
     let* IntResult := vector_instr Op Vector1 Vector2 in
     emit (VectorBitCast IntResult ResultType) ResultType)
    (vector_instr Op Vector1 Vector2).

Definition vectorBitOr := vector_bits IOr.
Definition vectorBitAnd := vector_bits IAnd.
Definition vectorBitExOr := vector_bits IXor.

(** [vectorAbs] and [vectorSqrt]. *)
Definition vector_unary (Op : UnaryIntrinsic) (Vector : Value) : M (option Value) :=
  let* E := lift (getVectorElementType (IRBuilder.getType Vector)) in
  if isFloatingPointTy E then
    let* V := emit (VectorUnary Op Vector) (IRBuilder.getType Vector) in ret (Some V)
  else ret None.

Definition vectorAbs := vector_unary fabs.
Definition vectorSqrt := vector_unary sqrt.

Definition generateIsHardwareAccelerated : Value := ConstantInt 32 1.

(** ** Constructors *)

Definition insert (Vector E : Value) (Index : Z) : M Value :=
  emit (CreateInsertElement Vector E Index) (IRBuilder.getType Vector).

(** [checkVectorSignature]: a difference is unreachable. *)
Definition checkVectorSignature (Args : list Value) (Types : list Ty) : M unit :=
  assert (bool_decide (IRBuilder.getType <$> Args = Types)).

(** The converted value is lost: the result is null. *)
Definition vectorFixType (ArgNode : Value) (DstType : Ty) : M (option Value) :=
  let SrcType := IRBuilder.getType ArgNode in
  (if isIntegerTy SrcType then
     assert (isIntegerTy DstType) ;* emit (CreateIntCast ArgNode DstType false) DstType ;* ret tt
   else if isFloatingPointTy SrcType then
     assert (isFloatingPointTy DstType) ;* emit (CreateFPCast ArgNode DstType) DstType ;* ret tt
   else ret tt) ;*
  ret None.

(** The elements in order from [Counter] on; the first that gives none ends
    the construction. *)
Fixpoint insert_elements (Vector : Value) (Counter : Z) (Args : list Value) : M Value :=
  match Args with
  | [] => ret Vector
  | ArgNode :: Args =>
      let* Vector := insert Vector ArgNode Counter in insert_elements Vector (Counter + 1) Args
  end.

Fixpoint vectorCtorFromOne (n : nat) (Counter : Z) (Vector ArgNode : Value) : M (option Value) :=
  match n with
  | O => ret (Some Vector)
  | S n =>
      let* E := lift (getVectorElementType (IRBuilder.getType Vector)) in
      let* Fixed :=
        if bool_decide (IRBuilder.getType ArgNode = E) then ret (Some ArgNode) else vectorFixType ArgNode E in
      match Fixed with
      | None => ret None
      | Some Element =>
          let* Vector := insert Vector Element Counter in
          vectorCtorFromOne n (Counter + 1) Vector ArgNode
      end
  end.

Definition vectorCtorFromFloats (VectorSize : Z) (Vector : Value) (Args : list Value) : M Value :=
  checkVectorSignature Args (replicate (Z.to_nat VectorSize) FloatTy) ;*
  insert_elements Vector 0 Args.

Section intrinsics.
Variable TargetPointerSizeInBits : Z.
Context `{ReaderTypes} `{SIMDRuntime}.

(** [CreateAdd] of an index and one. *)
Definition next_index (Index : Value) : M Value :=
  assert (bool_decide (IRBuilder.getType Index = IntegerTy 32)) ;*
  emit (CreateBinOp IAdd Index (ConstantInt 32 1)) (IntegerTy 32).

Fixpoint vectorCtorFromArray (n : nat) (Counter : Z) (Vector Array Index : Value) : M Value :=
  match n with
  | O => ret Vector
  | S n =>
      let* E := lift (getVectorElementType (IRBuilder.getType Vector)) in
      let* Address := genArrayElemAddress TargetPointerSizeInBits Array Index E in
      let* ExtractedArg := emit (CreateLoad Address E false None) E in
      let* Vector := insert Vector ExtractedArg Counter in
      let* Index := next_index Index in
      vectorCtorFromArray n (Counter + 1) Vector Array Index
  end.

Fixpoint from_pointer (n : nat) (Counter : Z) (Vector Pointer Index : Value) : M Value :=
  match n with
  | O => ret Vector
  | S n =>
      let* E := lift (getVectorElementType (IRBuilder.getType Vector)) in
      let* Address := emit (CreateElementGEP Pointer Index) (PointerTy E 0) in
      let* ExtractedArg := emit (CreateLoad Address E false None) E in
      let* Vector := insert Vector ExtractedArg Counter in
      let* Index := next_index Index in
      from_pointer n (Counter + 1) Vector Pointer Index
  end.

Definition vectorCtorFromPointer (n : nat) (Vector Pointer Index : Value) : M Value :=
  let* E := lift (getVectorElementType (IRBuilder.getType Vector)) in
  let T := PointerTy E 0 in
  let* Pointer :=
    if bool_decide (IRBuilder.getType Pointer = T) then ret Pointer
    else emit (CreatePointerCast Pointer T) T in
  from_pointer n 0 Vector Pointer Index.

(** The first elements of a shorter vector. *)
Fixpoint extract_elements (Vector : Value) (Index : Z) (n : nat) : M (list Value) :=
  match n with
  | O => ret []
  | S n =>
      let* E := lift (getVectorElementType (IRBuilder.getType Vector)) in
      let* Element := emit (CreateExtractElement Vector (ConstantInt 32 Index)) E in
      let* Rest := extract_elements Vector (Index + 1) n in
      ret (Element :: Rest)
  end.

(** The constructors of a fixed vector from a shorter vector and numbers. *)
Definition extracted_args (VectorSize : Z) (Args : list Value) : M (list Value) :=
  match Args with
  | Vector :: Rest =>
      let Shorter := VectorSize - Z.of_nat (length Rest) in
      assert (((VectorSize =? 3) && (length Args =? 2)%nat) ||
              ((VectorSize =? 4) && ((length Args =? 2) || (length Args =? 3))%nat)) ;*
      checkVectorSignature Args (VectorTy FloatTy Shorter :: replicate (length Rest) FloatTy) ;*
      let* Elements := extract_elements Vector 0 (Z.to_nat Shorter) in
      ret (Elements ++ Rest)
  | [] => fail
  end.

(** What [getBaseTypeAndSizeOfSIMDType] answers, whatever classes it has seen
    before (see [SIMDTypes]). *)
Definition simd_class (Class : Z) : SIMDInfo :=
  simd_info classSize PreferredIntrinsicSIMDVectorLength Class
    (match parse_class_name (className Class) with Some k => k | None => None end).

(** The vector a constructor makes; null for one that is not expanded. *)
Definition vector_value (Class : Z) (Args : list Value) : M (option Value) :=
  let Info := simd_class Class in
  let VectorSize := VectorLength Info in
  if VectorSize =? 0 then ret None
  else
    let* E := lift (T ← ElementType Info; element_ty T) in
    let VectorType := VectorTy E VectorSize in
    let* Vector := emit (UndefVector VectorType) VectorType in
    if negb (IsGeneric Info) then
      match Args with
      | [ArgNode] =>
          if bool_decide (IRBuilder.getType ArgNode = E)
          then vectorCtorFromOne (Z.to_nat VectorSize) 0 Vector ArgNode else ret None
      | _ =>
          if Z.of_nat (length Args) =? VectorSize then
            let* V := vectorCtorFromFloats VectorSize Vector Args in ret (Some V)
          else
            let* Extracted := extracted_args VectorSize Args in
            let* V := insert_elements Vector 0 Extracted in ret (Some V)
      end
    else
      match Args with
      | [ArgNode] =>
          if negb (isPointerTy (IRBuilder.getType ArgNode))
          then vectorCtorFromOne (Z.to_nat VectorSize) 0 Vector ArgNode else ret None
      | [ArgNode; Index] =>
          match IRBuilder.getType ArgNode with
          | PointerTy Pointee _ =>
              let* V :=
                if isAggregateType Pointee
                then vectorCtorFromArray (Z.to_nat VectorSize) 0 Vector ArgNode Index
                else vectorCtorFromPointer (Z.to_nat VectorSize) Vector ArgNode Index in
              ret (Some V)
          | _ => ret None
          end
      | _ => ret None
      end.

(** [vectorCtor]: stored behind [This], or the value of a [newobj]. *)
Definition vectorCtor (Class : Z) (This : option Value) (Args : list Value) : M (option Value) :=
  let* Return := vector_value Class Args in
  match Return, This with
  | Some Return, Some This =>
      let* Store := emit (CreateStore Return This false None) VoidTy in ret (Some Store)
  | _, _ => ret Return
  end.

Definition vectorGetCount (Class : Z) : Value :=
  ConstantInt 32 (VectorLength (simd_class Class)).

Definition vectorGetItem (VectorPointer Index : Value) (ResType : CorInfoType) : M (option Value) :=
  let* T := lift (getPointerElementType (IRBuilder.getType VectorPointer)) in
  let* Vector := emit (CreateLoad VectorPointer T false None) T in
  let* E := lift (getVectorElementType T) in
  let* Result := emit (CreateExtractElement Vector Index) E in
  let* Node := convertToStackType TargetPointerSizeInBits Result ResType in
  ret (Some Node).

(** ** The expansions, with the operand stack, its top first *)

(** [pop]; an empty stack throws. *)
Definition pop (Stack : list Value) : M (Value * list Value) :=
  match Stack with ArgNode :: Stack => ret (ArgNode, Stack) | [] => fail end.

Definition generateSIMDBinOp (OperationCode : ReaderSIMDIntrinsic) (Class : Z) (Stack : list Value) :
    M (option Value * list Value) :=
  let* (Arg2, Stack) := pop Stack in
  let* (Arg1, Stack) := pop Stack in
  let* ReturnNode :=
    if isVectorType Arg1 && isVectorType Arg2 then
      let IsSigned := SIMDTypes.IsSigned (simd_class Class) in
      let VectorByteSize :=
        getMaxIntrinsicSIMDVectorLength classSize PreferredIntrinsicSIMDVectorLength Class in
      match OperationCode with
      | ADD => vectorAdd Arg1 Arg2
      | SUB => vectorSub Arg1 Arg2
      | MUL => vectorMul Arg1 Arg2
      | DIV => vectorDiv Arg1 Arg2 IsSigned
      | MIN => vectorMin Arg1 Arg2 IsSigned
      | MAX => vectorMax Arg1 Arg2 IsSigned
      | BITOR => vectorBitOr Arg1 Arg2 VectorByteSize
      | BITAND => vectorBitAnd Arg1 Arg2 VectorByteSize
      | BITEXOR => vectorBitExOr Arg1 Arg2 VectorByteSize
      | _ => ret None
      end
    else ret None in
  match ReturnNode with
  | Some Node => ret (Some Node, Stack)
  | None => ret (None, Arg2 :: Arg1 :: Stack)
  end.

Definition generateSIMDUnOp (OperationCode : ReaderSIMDIntrinsic) (Stack : list Value) :
    M (option Value * list Value) :=
  let* (ArgNode, Stack) := pop Stack in
  let* ReturnNode :=
    if isVectorType ArgNode then
      match OperationCode with
      | ABS => vectorAbs ArgNode
      | SQRT => vectorSqrt ArgNode
      | _ => ret None
      end
    else ret None in
  match ReturnNode with
  | Some Node => ret (Some Node, Stack)
  | None => ret (None, ArgNode :: Stack)
  end.

(** The arguments in order, the last popped first. *)
Fixpoint pop_args (n : nat) (Stack : list Value) : M (list Value * list Value) :=
  match n with
  | O => ret ([], Stack)
  | S n =>
      let* (ArgNode, Stack) := pop Stack in
      let* (Args, Stack) := pop_args n Stack in
      ret (Args ++ [ArgNode], Stack)
  end.

Definition generateSIMDCtor (Class : Z) (ArgsCount : nat) (IsNewObj : bool) (Stack : list Value) :
    M (option Value * list Value) :=
  let* (Args, Stack) := pop_args ArgsCount Stack in
  let* (This, Stack) :=
    if IsNewObj then ret (None, Stack)
    else let* (This, Stack) := pop Stack in ret (Some This, Stack) in
  let* Result := vectorCtor Class This Args in
  match Result with
  | Some Node => ret (Some Node, Stack)
  | None =>
      ret (None, rev Args ++ match This with Some This => This :: Stack | None => Stack end)
  end.

Definition generateSIMDGetItem (ResType : CorInfoType) (Stack : list Value) :
    M (option Value * list Value) :=
  let* (Index, Stack) := pop Stack in
  let* (VectorPointer, Stack) := pop Stack in
  let* ReturnNode := vectorGetItem VectorPointer Index ResType in
  match ReturnNode with
  | Some Node => ret (Some Node, Stack)
  | None => ret (None, Index :: VectorPointer :: Stack)
  end.

#[local] Open Scope string_scope.

(** The operation a method name stands for. *)
Definition operation_names : list (string * ReaderSIMDIntrinsic) :=
  [(".ctor", CTOR); ("op_Addition", ADD); ("op_Subtraction", SUB); ("op_Multiply", MUL);
   ("op_Division", DIV); ("Min", MIN); ("Max", MAX); ("op_Equality", EQ); ("op_Inequality", NEQ);
   ("op_BitwiseOr", BITOR); ("op_BitwiseAnd", BITAND); ("op_ExclusiveOr", BITEXOR); ("Abs", ABS);
   ("SquareRoot", SQRT); ("get_Count", GETCOUNTOP); ("get_Item", GETITEM)].

Fixpoint operation_of (l : list (string * ReaderSIMDIntrinsic)) (MethodName : string) :
    ReaderSIMDIntrinsic :=
  match l with
  | [] => UNDEF
  | (Name, Op) :: l => if bool_decide (MethodName = Name) then Op else operation_of l MethodName
  end.

Definition generateSIMDIntrinsicCall (Class : Z) (MethodName : string) (ResType : CorInfoType)
    (numArgs : nat) (hasThis IsNewObj : bool) (Stack : list Value) :
    M (option Value * list Value) :=
  if bool_decide (MethodName = "get_IsHardwareAccelerated")
  then ret (Some generateIsHardwareAccelerated, Stack)
  else
    let OperationType := operation_of operation_names MethodName in
    match OperationType with
    | ADD | SUB | MUL | DIV | MIN | MAX | BITOR | BITAND | BITEXOR =>
        generateSIMDBinOp OperationType Class Stack
    | ABS | SQRT => generateSIMDUnOp OperationType Stack
    | CTOR =>
        assert (numArgs <=? length Stack)%nat ;*
        assert hasThis ;*
        generateSIMDCtor Class numArgs IsNewObj Stack
    | GETCOUNTOP => ret (Some (vectorGetCount Class), Stack)
    | GETITEM => generateSIMDGetItem ResType Stack
    | _ => ret (None, Stack)
    end.

End intrinsics.
End SIMD.
