(* ===== verification/SIMDRules.v ===== *)
(** * What the vector intrinsics compute

    Lane by lane for the operations of two vectors, element by element for a
    vector made from an array; and an intrinsic that is not expanded leaves the
    operand stack as it was. *)

From stdpp Require Import strings.
From S2P Require Import Prelude TypeLayout SIMDTypes IRBuilder GenIRTypes Conv Arith IRLogic Memory MemoryRules ArrayAccess SIMD.
Import SIMDTypes SIMD GenIR Arith Memory.
#[local] Open Scope emit_scope.

(** ** Specification: an operation of System.Numerics on two elements *)

Section spec.
Context {L : LLVM}.

Definition integer_lane (Op : ReaderSIMDIntrinsic) (Signed : bool) (w x y : Z) : option Z :=
  let a := Convert.reading Signed w x in
  let b := Convert.reading Signed w y in
  match Op with
  | ADD => Some (wrap w (a + b))
  | SUB => Some (wrap w (a - b))
  | MUL => Some (wrap w (a * b))
  | DIV => if (y =? 0) || Signed && division_overflows w x y then None
           else Some (wrap w (Z.quot a b))
  | MIN => Some (wrap w (Z.min a b))
  | MAX => Some (wrap w (Z.max a b))
  | BITOR => Some (Z.lor x y)
  | BITAND => Some (Z.land x y)
  | BITEXOR => Some (Z.lxor x y)
  | _ => None
  end.

(** With a NaN the minimum is the first number and the maximum the second; the
    bit operations are those of the representations. *)
Definition float_lane (Op : ReaderSIMDIntrinsic) (E : Ty) (f g : FP) : option FP :=
  match Op with
  | ADD => Some (fp_binop FAdd f g)
  | SUB => Some (fp_binop FSub f g)
  | MUL => Some (fp_binop FMul f g)
  | DIV => Some (fp_binop FDiv f g)
  | MIN => Some (match fp_compare f g with Some (Gt | Eq) => g | _ => f end)
  | MAX => Some (match fp_compare f g with Some (Gt | Eq) => f | _ => g end)
  | BITOR => Some (fp_of_bits E (Z.lor (fp_bits f) (fp_bits g)))
  | BITAND => Some (fp_of_bits E (Z.land (fp_bits f) (fp_bits g)))
  | BITEXOR => Some (fp_of_bits E (Z.lxor (fp_bits f) (fp_bits g)))
  | _ => None
  end.

Definition lane (Op : ReaderSIMDIntrinsic) (Signed : bool) (E : Ty) (x y : RVal FP) :
    option (RVal FP) :=
  match x, y with
  | RInt x, RInt y =>
      match E with IntegerTy w => z ← integer_lane Op Signed w x y; Some (RInt z) | _ => None end
  | RFP f, RFP g => h ← float_lane Op E f g; Some (RFP h)
  | _, _ => None
  end.

(** An element of a vector of type [E], with a representation of its size. *)
Definition element_ok (E : Ty) (x : RVal FP) : Prop :=
  match E, x with
  | IntegerTy w, RInt z => 1 <= w /\ 0 <= z < 2 ^ w
  | FloatTy, RFP f => 0 <= fp_bits f < 2 ^ 32
  | DoubleTy, RFP f => 0 <= fp_bits f < 2 ^ 64
  | _, _ => False
  end.

Definition is_binary (Op : ReaderSIMDIntrinsic) : bool :=
  match Op with ADD | SUB | MUL | DIV | MIN | MAX => true | _ => false end.
Definition is_bitwise (Op : ReaderSIMDIntrinsic) : bool :=
  match Op with BITOR | BITAND | BITEXOR => true | _ => false end.

(** ** Lane-wise instructions *)

Lemma map_lanes_ext (f g : RVal FP -> RVal FP -> option (RVal FP)) (xs ys : list (RVal FP)) (E : Ty) :
  (forall x y, element_ok E x -> element_ok E y -> f x y = g x y) ->
  Forall (element_ok E) xs -> Forall (element_ok E) ys -> map_lanes f xs ys = map_lanes g xs ys.
Proof.
  intros Hfg Hx. revert ys. induction Hx as [|x xs Hx _ IH]; intros ys Hy; destruct Hy as [|y ys Hy Hys];
    try done. cbn. by rewrite Hfg, IH.
Qed.

(** A comparison and a selection are one operation on each pair of lanes. *)
Lemma select_map_lanes (c : RVal FP -> RVal FP -> bool) (f : RVal FP -> RVal FP -> option (RVal FP))
    (xs ys us vs : list (RVal FP)) (E : Ty)
    (pick : RVal FP -> RVal FP -> RVal FP) :
  (forall x y, element_ok E x -> element_ok E y -> f x y = Some (RInt (Z.b2z (c x y)))) ->
  Forall (element_ok E) xs -> Forall (element_ok E) ys -> length xs = length ys ->
  (us = xs /\ vs = ys /\ (forall x y, pick x y = if c x y then x else y)) \/
  (us = ys /\ vs = xs /\ (forall x y, pick x y = if c x y then y else x)) ->
  (cs ← map_lanes f xs ys; select_lanes cs us vs) = map_lanes (fun x y => Some (pick x y)) xs ys.
Proof.
  intros Hf Hx. revert ys us vs. induction Hx as [|x xs Hx Hxs IH]; intros ys us vs Hy Hlen HC;
    destruct Hy as [|y ys Hy Hys]; try done.
  - by destruct HC as [(-> & -> & _) | (-> & -> & _)].
  - injection Hlen as Hlen. cbn. rewrite Hf by done. cbn.
    destruct HC as [(-> & -> & HC) | (-> & -> & HC)].
    + specialize (IH ys xs ys Hys Hlen (or_introl (conj eq_refl (conj eq_refl HC)))). rewrite <- IH.
      destruct (map_lanes f xs ys) as [cs|]; [|done]. cbn. rewrite HC.
      destruct (select_lanes cs xs ys); [|done]. cbn. by destruct (c x y).
    + specialize (IH ys ys xs Hys Hlen (or_intror (conj eq_refl (conj eq_refl HC)))). rewrite <- IH.
      destruct (map_lanes f xs ys) as [cs|]; [|done]. cbn. rewrite HC.
      destruct (select_lanes cs ys xs); [|done]. cbn. by destruct (c x y).
Qed.

Context (LS : LLVMLaws L).

Variable native : Z.

(** The instruction of an operation computes it on integers. *)
Lemma integer_instr (Op : ReaderSIMDIntrinsic) (Instr : BinaryOps) (s : bool) (w x y : Z) :
  (Op, Instr) ∈ [(ADD, IAdd); (SUB, ISub); (MUL, IMul); (DIV, if s then SDiv else UDiv);
                 (BITOR, IOr); (BITAND, IAnd); (BITEXOR, IXor)] ->
  1 <= w -> 0 <= x < 2 ^ w -> 0 <= y < 2 ^ w ->
  int_binop Instr w x y = integer_lane Op s w x y.
Proof.
  intros HOp Hw Hx Hy. rewrite int_binop_law.
  pose proof (Convert.wrap_reading s w x ltac:(lia) Hx) as HX.
  pose proof (Convert.wrap_reading s w y ltac:(lia) Hy) as HY.
  rewrite !elem_of_cons, elem_of_nil in HOp.
  destruct_or! HOp; try done; injection HOp as -> ->; cbn -[Z.pow].
  - by rewrite <- (wrap_add w (Convert.reading s w x)), HX, HY.
  - by rewrite <- (wrap_sub w (Convert.reading s w x)), HX, HY.
  - by rewrite <- (wrap_mul w (Convert.reading s w x)), HX, HY.
  - destruct s; [done|]. cbn. rewrite orb_false_r. destruct (Z.eqb_spec y 0); [done|].
    rewrite (wrap_small w x), (wrap_small w y) by lia. by rewrite wrap_quot by lia.
  - done.
  - done.
  - done.
Qed.

(** The comparison of the extrema, on each kind of element. *)
Definition lane_ge (Signed : bool) (E : Ty) (x y : RVal FP) : bool :=
  match x, y with
  | RInt x, RInt y => Convert.reading Signed (width native E) y <=? Convert.reading Signed (width native E) x
  | RFP f, RFP g => match fp_compare f g with Some (Gt | Eq) => true | _ => false end
  | _, _ => false
  end.

Lemma extremum_lane (Signed Max : bool) (E : Ty) (x y : RVal FP) :
  element_ok E x -> element_ok E y ->
  lane (if Max then MAX else MIN) Signed E x y =
    Some (if lane_ge Signed E x y then if Max then x else y else if Max then y else x).
Proof.
  intros Hx Hy. destruct E as [|w| | | | | | |]; try done; destruct x as [x|f| | |], y as [y|g| | |]; try done.
  - destruct Hx as [Hw Hx], Hy as [_ Hy].
    assert (HR : forall z, 0 <= z < 2 ^ w -> wrap w (Convert.reading Signed w z) = z)
      by (intros; apply Convert.wrap_reading; lia).
    destruct Max; cbn -[Convert.reading];
      destruct (Z.leb_spec (Convert.reading Signed w y) (Convert.reading Signed w x));
      cbn -[Convert.reading].
    + by rewrite Z.max_l, HR by lia.
    + by rewrite Z.max_r, HR by lia.
    + by rewrite Z.min_r, HR by lia.
    + by rewrite Z.min_l, HR by lia.
  - destruct Max; cbn; by destruct (fp_compare f g) as [[]|].
  - destruct Max; cbn; by destruct (fp_compare f g) as [[]|].
Qed.

(** A node of recorded code, run. *)
Definition result (args : list (RVal FP)) (code : list Instr) (N : Value) : Outcome FP :=
  match exec native args code [] with
  | inl regs => outcome_of (value_of args regs N)
  | inr o => o
  end.

Definition vector (n : nat) (T : Ty) : Value := MkValue (Arg n) T.

Lemma elementwise_lanes (Op : ReaderSIMDIntrinsic) (Instr : BinaryOps) (s : bool) (E : Ty)
    (xs ys : list (RVal FP)) :
  (Op, Instr) ∈ (if isFloatingPointTy E
                 then [(ADD, FAdd); (SUB, FSub); (MUL, FMul); (DIV, FDiv)]
                 else [(ADD, IAdd); (SUB, ISub); (MUL, IMul); (DIV, if s then SDiv else UDiv);
                       (BITOR, IOr); (BITAND, IAnd); (BITEXOR, IXor)]) ->
  Forall (element_ok E) xs -> Forall (element_ok E) ys ->
  map_lanes (lane_op native Instr E) xs ys = map_lanes (lane Op s E) xs ys.
Proof.
  intros HOp Hxs Hys. apply (map_lanes_ext _ _ xs ys E); [|done|done]. intros x y Hx Hy.
  destruct E as [|w| | | | | | |]; try done; destruct x as [x|f| | |], y as [y|g| | |]; try done.
  - cbn -[integer_lane]. by rewrite (integer_instr Op Instr s w x y HOp) by apply Hx || apply Hy.
  - cbn in HOp. rewrite !elem_of_cons, elem_of_nil in HOp.
    destruct_or! HOp; try done; by injection HOp as -> ->.
  - cbn in HOp. rewrite !elem_of_cons, elem_of_nil in HOp.
    destruct_or! HOp; try done; by injection HOp as -> ->.
Qed.

Definition ge_predicate (E : Ty) (s : bool) : Predicate :=
  if isFloatingPointTy E then FCMP_OGE else if s then ICMP_SGE else ICMP_UGE.

Lemma extremum_lanes (Max s : bool) (E : Ty) (xs ys : list (RVal FP)) :
  Forall (element_ok E) xs -> Forall (element_ok E) ys -> length xs = length ys ->
  (cs ← map_lanes (lane_cmp native (ge_predicate E s) E) xs ys;
   if Max then select_lanes cs xs ys else select_lanes cs ys xs) =
  map_lanes (lane (if Max then MAX else MIN) s E) xs ys.
Proof.
  intros Hxs Hys Hlen.
  rewrite (map_lanes_ext (lane (if Max then MAX else MIN) s E)
    (fun x y => Some (if lane_ge s E x y then if Max then x else y else if Max then y else x))
    xs ys E (extremum_lane s Max E)) by done.
  assert (HC : forall x y, element_ok E x -> element_ok E y ->
    lane_cmp native (ge_predicate E s) E x y = Some (RInt (Z.b2z (lane_ge s E x y)))).
  { intros x y Hx Hy. destruct E as [|w| | | | | | |]; try done;
      destruct x as [x|f| | |], y as [y|g| | |]; try done; cbn.
    - rewrite icmp_law. destruct Hx as [_ Hx], Hy as [_ Hy]. destruct s; cbn; [done|].
      by rewrite !wrap_small by done.
    - rewrite fcmp_law. cbn. by destruct (fp_compare f g) as [[]|].
    - rewrite fcmp_law. cbn. by destruct (fp_compare f g) as [[]|]. }
  destruct Max.
  - apply (select_map_lanes (lane_ge s E) _ xs ys xs ys E (fun x y => if lane_ge s E x y then x else y));
      [done..|]. left. done.
  - apply (select_map_lanes (lane_ge s E) _ xs ys ys xs E (fun x y => if lane_ge s E x y then y else x));
      [done..|]. right. done.
Qed.

(** ** Bit operations on floating-point elements *)

Definition bit_op (Op : ReaderSIMDIntrinsic) : Z -> Z -> Z :=
  match Op with BITOR => Z.lor | BITAND => Z.land | _ => Z.lxor end.
Definition bit_instr (Op : ReaderSIMDIntrinsic) : BinaryOps :=
  match Op with BITOR => IOr | BITAND => IAnd | _ => IXor end.

(** The halves of two numbers are combined on their own. *)
Lemma bit_op_halves (Op : ReaderSIMDIntrinsic) (x y : Z) :
  bit_op Op (x mod 2 ^ 32) (y mod 2 ^ 32) + 2 ^ 32 * bit_op Op (x / 2 ^ 32) (y / 2 ^ 32) = bit_op Op x y.
Proof.
  assert (Hm : bit_op Op (x mod 2 ^ 32) (y mod 2 ^ 32) = bit_op Op x y mod 2 ^ 32).
  { rewrite <- !Z.land_ones by lia. apply Z.bits_inj'. intros n Hn.
    destruct Op; cbn [bit_op]; rewrite ?Z.land_spec, ?Z.lor_spec, ?Z.lxor_spec, ?Z.land_spec;
      rewrite ?Z.lor_spec, ?Z.lxor_spec, ?Z.land_spec;
      by destruct (Z.testbit x n), (Z.testbit y n), (Z.testbit (Z.ones 32) n). }
  assert (Hd : bit_op Op (x / 2 ^ 32) (y / 2 ^ 32) = bit_op Op x y / 2 ^ 32).
  { rewrite <- !Z.shiftr_div_pow2 by lia. destruct Op; cbn [bit_op];
      first [by rewrite Z.shiftr_lor|by rewrite Z.shiftr_land|by rewrite Z.shiftr_lxor]. }
  rewrite Hm, Hd. pose proof (Z.div_mod (bit_op Op x y) (2 ^ 32) ltac:(lia)). lia.
Qed.

Definition words_per_lane (E : Ty) : nat := match E with DoubleTy => 2 | _ => 1 end.

(** The words of two vectors, combined, are those of the combined elements. *)
Lemma float_bits_lanes (Op : ReaderSIMDIntrinsic) (s : bool) (E : Ty) (xs ys : list (RVal FP)) :
  is_bitwise Op = true -> isFloatingPointTy E = true ->
  Forall (element_ok E) xs -> Forall (element_ok E) ys -> length xs = length ys ->
  exists us vs, vector_words E xs = Some us /\ vector_words E ys = Some vs /\
    length us = (words_per_lane E * length xs)%nat /\ length vs = length us /\
    Forall (fun z => 0 <= z < 2 ^ 32) us /\ Forall (fun z => 0 <= z < 2 ^ 32) vs /\
    is_Some (map_lanes (lane Op s E) xs ys) /\
    lanes_from E (zip_with (bit_op Op) us vs) = map_lanes (lane Op s E) xs ys.
Proof.
  intros HOp HE Hx. revert ys. induction Hx as [|x xs Hx _ IH]; intros ys Hy Hlen; destruct Hy as [|y ys Hy Hys]; try done.
  { exists [], []. do 2 (split; [done|]). split; [simpl; lia|]. split; [done|]. do 2 (split; [constructor|]).
    split; [by eexists|done]. }
  injection Hlen as Hlen. destruct (IH ys Hys Hlen) as (us & vs & H1 & H2 & H3 & H4 & H5 & H6 & [l Hl] & H7).
  assert (Hlane : forall f g, lane Op s E (RFP f) (RFP g) = Some (RFP (fp_of_bits E (bit_op Op (fp_bits f) (fp_bits g)))))
    by (intros f g; by destruct Op).
  destruct E as [|w| | | | | | |]; try done; destruct x as [x|f| | |], y as [y|g| | |]; try done;
    cbn [vector_words lane_words map_lanes mbind option_bind]; rewrite H1, H2; cbn [mbind option_bind].
  - exists ([fp_bits f] ++ us), ([fp_bits g] ++ vs). unfold element_ok in Hx, Hy. do 2 (split; [done|]). cbn in H3. simpl length.
    split; [simpl; lia|]. split; [lia|]. do 2 (split; [apply Forall_app; split; [by apply Forall_singleton|done]|]). rewrite Hlane, Hl. cbn [mbind option_bind].
    split; [by eexists|]. cbn. rewrite H7, Hl. done.
  - exists ([fp_bits f mod 2 ^ 32; fp_bits f / 2 ^ 32] ++ us), ([fp_bits g mod 2 ^ 32; fp_bits g / 2 ^ 32] ++ vs).
    unfold element_ok in Hx, Hy. assert (Hb : forall z, 0 <= z < 2 ^ 64 -> 0 <= z mod 2 ^ 32 < 2 ^ 32 /\ 0 <= z / 2 ^ 32 < 2 ^ 32).
    { intros z Hz. split; [apply Z.mod_pos_bound; lia|]. split; [apply Z.div_pos; lia|]. apply Z.div_lt_upper_bound; lia. }
    destruct (Hb _ Hx), (Hb _ Hy).
    do 2 (split; [done|]). cbn in H3. simpl length. split; [simpl; lia|]. split; [lia|].
    do 2 (split; [apply Forall_app; split; [apply Forall_cons; split; [done|by apply Forall_singleton]|done]|]).
    rewrite Hlane, Hl. cbn [mbind option_bind].
    split; [by eexists|]. cbn -[Z.pow Z.add Z.mul]. rewrite H7, Hl. cbn -[Z.pow Z.add Z.mul]. by rewrite bit_op_halves.
Qed.

Lemma word_lanes (ws : list Z) : lanes_from (IntegerTy 32) ws = Some (RInt <$> ws).
Proof. induction ws as [|w ws IH]; [done|]. cbn. by rewrite IH. Qed.

Lemma lane_words_int (ws : list Z) : vector_words (IntegerTy 32) (RInt <$> ws) = Some ws.
Proof. induction ws as [|w ws IH]; [done|]. cbn. by rewrite IH. Qed.

Lemma word_ops (Op : ReaderSIMDIntrinsic) (us vs : list Z) :
  is_bitwise Op = true -> length vs = length us ->
  Forall (fun z => 0 <= z < 2 ^ 32) us -> Forall (fun z => 0 <= z < 2 ^ 32) vs ->
  map_lanes (lane_op native (bit_instr Op) (IntegerTy 32)) (RInt <$> us) (RInt <$> vs) =
    Some (RInt <$> zip_with (bit_op Op) us vs).
Proof.
  intros HOp Hlen Hu. revert vs Hlen. induction Hu as [|u us Hu _ IH]; intros vs Hlen Hv;
    destruct Hv as [|v vs Hv Hvs]; try done. injection Hlen as Hlen.
  cbn [fmap list_fmap map_lanes]. rewrite (IH vs Hlen Hvs).
  replace (lane_op native (bit_instr Op) (IntegerTy 32) (RInt u) (RInt v)) with (Some (RInt (FP := FP) (bit_op Op u v))); [done|].
  cbn [lane_op width]. rewrite (integer_instr Op (bit_instr Op) false 32 u v); [by destruct Op| |lia|done|done].
  destruct Op; try discriminate HOp; rewrite !elem_of_cons; tauto.
Qed.

(** ** The emitted code of each kind *)

Lemma result_float_bits (Op : ReaderSIMDIntrinsic) (s : bool) (E : Ty) (m : Z) (xs ys : list (RVal FP)) :
  is_bitwise Op = true -> isFloatingPointTy E = true ->
  Forall (element_ok E) xs -> Forall (element_ok E) ys -> length xs = length ys ->
  m = Z.of_nat (words_per_lane E * length xs) ->
  let T := VectorTy E (Z.of_nat (length xs)) in
  let W := VectorTy (IntegerTy 32) m in
  result [RVec xs; RVec ys]
    [VectorBitCast (vector 0 T) W; VectorBitCast (vector 1 T) W;
     VectorBinOp (bit_instr Op) (MkValue (Reg 0) W) (MkValue (Reg 1) W);
     VectorBitCast (MkValue (Reg 2) W) T] (MkValue (Reg 3) T) =
    outcome_of (l ← map_lanes (lane Op s E) xs ys; Some (RVec l)).
Proof.
  intros HOp HE Hx Hy Hlen Hm T W.
  destruct (float_bits_lanes Op s E xs ys HOp HE Hx Hy Hlen) as (us & vs & H1 & H2 & H3 & H4 & H5 & H6 & [l Hl] & H7).
  assert (Hll : length l = length xs).
  { clear -Hl. revert ys l Hl. induction xs as [|x xs IH]; intros [|y ys] l Hl; try done; cbn in Hl.
    - by injection Hl as <-.
    - destruct (lane Op s E x y); [|done]. destruct (map_lanes _ xs ys) as [l'|] eqn:E'; [|done].
      injection Hl as <-. simpl. by rewrite (IH ys l'). }
  assert (Hcast : forall zs ws, vector_words E zs = Some ws -> length ws = length us ->
    bitcast_lanes T W zs = Some (RInt <$> ws)).
  { intros zs ws HZ HL. unfold bitcast_lanes, W, T. cbn [element_type]. rewrite HZ. cbn [mbind option_bind].
    rewrite word_lanes. cbn [mbind option_bind]. rewrite length_fmap, HL, H3, <- Hm. by rewrite Z.eqb_refl. }
  assert (Hback : bitcast_lanes W T (RInt <$> zip_with (bit_op Op) us vs) = Some l).
  { unfold bitcast_lanes, T, W. cbn [element_type]. rewrite lane_words_int. cbn [mbind option_bind].
    rewrite H7, Hl. cbn [mbind option_bind]. by rewrite Hll, Z.eqb_refl. }
  assert (HW : element_type W = IntegerTy 32) by done. clearbody T W.
  unfold result. cbn -[bitcast_lanes map_lanes lane_op].
  rewrite (Hcast xs us H1 eq_refl). cbn -[bitcast_lanes map_lanes lane_op].
  rewrite (Hcast ys vs H2 H4). cbn -[bitcast_lanes map_lanes lane_op].
  rewrite HW, (word_ops Op us vs HOp H4 H5 H6). cbn -[bitcast_lanes map_lanes lane_op].
  rewrite Hback. cbn -[bitcast_lanes map_lanes lane_op]. by rewrite Hl.
Qed.

Lemma result_elementwise (Instr : BinaryOps) (E : Ty) (n : Z) (xs ys : list (RVal FP)) :
  let T := VectorTy E n in
  result [RVec xs; RVec ys] [VectorBinOp Instr (vector 0 T) (vector 1 T)] (MkValue (Reg 0) T) =
    outcome_of (l ← map_lanes (lane_op native Instr E) xs ys; Some (RVec l)).
Proof. unfold result. cbn. by destruct (map_lanes _ xs ys). Qed.

Lemma result_extremum (Max : bool) (s : bool) (E : Ty) (n : Z) (xs ys : list (RVal FP)) :
  let T := VectorTy E n in
  let c := MkValue (Reg 0) (VectorTy i1 n) in
  let P := ge_predicate E s in
  result [RVec xs; RVec ys]
    [if isFloatingPointTy E then VectorFCmp P (vector 0 T) (vector 1 T)
     else VectorICmp P (vector 0 T) (vector 1 T);
     if Max then CreateSelect c (vector 0 T) (vector 1 T) else CreateSelect c (vector 1 T) (vector 0 T)]
    (MkValue (Reg 1) T) =
    outcome_of (l ← (cs ← map_lanes (lane_cmp native P E) xs ys;
                     if Max then select_lanes cs xs ys else select_lanes cs ys xs);
                Some (RVec l)).
Proof.
  unfold result. destruct (isFloatingPointTy E), Max; cbn;
    (destruct (map_lanes _ xs ys) as [cs|]; [cbn|done]).
  all: by destruct (select_lanes cs _ _).
Qed.
End spec.

Ltac same_types := unfold same_type; cbn; rewrite ?bool_decide_eq_true_2 by done; cbn.

(** C12: The operations of two vectors, of integers or of floating-point numbers.
    An expanded operation takes its two
    operands from the operand stack, and the instructions it emits compute it
    on each pair of elements: sums, differences and products in the width of
    the elements, quotients where every divisor allows one, the lesser and the
    greater element in the signedness of the class, and the bit operations: on
    floating-point elements they are those of the representations, if the
    vectors have the size the runtime gives for the class. *)
Theorem simd_operation_lanes {L : LLVM} (LS : LLVMLaws L) (native : Z) (SR : SIMDRuntime)
    (Class : Z) (Op : ReaderSIMDIntrinsic) (E : Ty) (xs ys : list (RVal FP)) (Stack : list Value) :
  is_binary Op = true \/ is_bitwise Op = true /\
    (isFloatingPointTy E = true ->
     SIMDTypes.getMaxIntrinsicSIMDVectorLength classSize PreferredIntrinsicSIMDVectorLength Class =
       Z.of_nat (length xs) * (if isFloatTy E then 4 else 8)) ->
  isIntegerTy E || isFloatingPointTy E = true ->
  Forall (element_ok E) xs -> Forall (element_ok E) ys -> length xs = length ys ->
  let T := VectorTy E (Z.of_nat (length xs)) in
  exists code N,
    generateSIMDBinOp Op Class (vector 1 T :: vector 0 T :: Stack) [] = Some (code, (Some N, Stack)) /\
    IRBuilder.getType N = T /\
    result native [RVec xs; RVec ys] code N =
      outcome_of (l ← map_lanes (lane Op (SIMDTypes.IsSigned (simd_class Class)) E) xs ys;
                  Some (RVec l)).
Proof.
  intros HOp HE Hxs Hys Hlen T. set (s := SIMDTypes.IsSigned (simd_class Class)).
  assert (HA : forall I, (Op, I) ∈ (if isFloatingPointTy E
      then [(ADD, FAdd); (SUB, FSub); (MUL, FMul); (DIV, FDiv)]
      else [(ADD, IAdd); (SUB, ISub); (MUL, IMul); (DIV, if s then SDiv else UDiv);
            (BITOR, IOr); (BITAND, IAnd); (BITEXOR, IXor)]) ->
    generateSIMDBinOp Op Class (vector 1 T :: vector 0 T :: Stack) [] =
      Some ([VectorBinOp I (vector 0 T) (vector 1 T)], (Some (MkValue (Reg 0) T), Stack)) ->
    exists code N,
      generateSIMDBinOp Op Class (vector 1 T :: vector 0 T :: Stack) [] = Some (code, (Some N, Stack)) /\
      IRBuilder.getType N = T /\
      result native [RVec xs; RVec ys] code N =
        outcome_of (l ← map_lanes (lane Op s E) xs ys; Some (RVec l))).
  { intros I HI HG. do 2 eexists. split; [exact HG|]. split; [done|].
    unfold T. rewrite result_elementwise. by rewrite (elementwise_lanes LS native Op I s). }
  assert (HM : forall Max : bool, Op = (if Max then MAX else MIN) ->
    exists code N,
      generateSIMDBinOp Op Class (vector 1 T :: vector 0 T :: Stack) [] = Some (code, (Some N, Stack)) /\
      IRBuilder.getType N = T /\
      result native [RVec xs; RVec ys] code N =
        outcome_of (l ← map_lanes (lane Op s E) xs ys; Some (RVec l))).
  { intros Max ->. pose proof (result_extremum native Max s E (Z.of_nat (length xs)) xs ys) as HR.
    cbv zeta in HR. rewrite (extremum_lanes LS native Max s E xs ys Hxs Hys Hlen) in HR. do 2 eexists.
    split; [|split; [|exact HR]]; [|done].
    clear HA. unfold T, generateSIMDBinOp, vectorMax, vectorMin. fold s. clearbody s.
    destruct E as [|w| | | | | | |]; try done; destruct Max, s; cbn; same_types; reflexivity. }
  destruct HOp as [HOp|[HOp HI]].
  - destruct Op; try done;
      [apply (HA (if isFloatingPointTy E then FAdd else IAdd))
      |apply (HA (if isFloatingPointTy E then FSub else ISub))
      |apply (HA (if isFloatingPointTy E then FMul else IMul))
      |apply (HA (if isFloatingPointTy E then FDiv else if s then SDiv else UDiv))
      |by apply (HM false)|by apply (HM true)].
    all: clear HA HM; unfold T, generateSIMDBinOp, vectorAdd, vectorSub, vectorMul, vectorDiv;
      fold s; clearbody s; destruct E as [|w| | | | | | |]; try done; destruct s; cbn; same_types;
      first [reflexivity | rewrite !elem_of_cons; tauto].
  - destruct (isFloatingPointTy E) eqn:HF.
    + specialize (HI eq_refl).
      pose proof (result_float_bits LS native Op s E
        (SIMDTypes.getMaxIntrinsicSIMDVectorLength classSize PreferredIntrinsicSIMDVectorLength Class * 8 / 32)
        xs ys HOp HF Hxs Hys Hlen) as HR. cbv zeta in HR. clear HA HM.
      eexists _, _. split; [|split; [|apply HR]].
      * unfold T, generateSIMDBinOp, vectorBitOr, vectorBitAnd, vectorBitExOr, vector_bits, getVectorIntType.
        destruct E as [|w| | | | | | |]; try done; destruct Op; try done; cbn -[Z.div Z.mul]; same_types; reflexivity.
      * done.
      * rewrite HI. destruct E as [|w| | | | | | |]; try done; cbn [isFloatTy words_per_lane].
        -- rewrite <- Z.mul_assoc. change (4 * 8) with 32. rewrite Z.div_mul by done. lia.
        -- rewrite <- Z.mul_assoc. change (8 * 8) with (2 * 32). rewrite Z.mul_assoc, Z.div_mul by done. lia.
    + destruct E as [|w| | | | | | |]; try done.
      destruct Op; try done; [apply (HA IOr)|apply (HA IAnd)|apply (HA IXor)].
      all: clear HA HM; unfold T, generateSIMDBinOp, vectorBitOr, vectorBitAnd, vectorBitExOr, vector_bits;
        cbn; same_types; first [reflexivity | rewrite !elem_of_cons; tauto].
Qed.

(** ** The operand stack *)

(** How many operands an expansion takes. *)
Definition operand_count (Op : ReaderSIMDIntrinsic) (numArgs : nat) (IsNewObj : bool) : nat :=
  match Op with
  | ADD | SUB | MUL | DIV | MIN | MAX | BITOR | BITAND | BITEXOR | GETITEM => 2
  | ABS | SQRT => 1
  | CTOR => numArgs + if IsNewObj then 0 else 1
  | _ => 0
  end.

(** A result and the stack behind it: the operands are gone, or all are back. *)
Definition balanced (n : nat) (Stack : list Value) (r : option Value * list Value) : Prop :=
  match r.1 with
  | Some _ => (n <= length Stack)%nat /\ r.2 = drop n Stack
  | None => r.2 = Stack
  end.

Lemma bind_Some {A B} (m : M A) (f : A -> M B) (s s' : list Instr) (b : B) :
  bind m f s = Some (s', b) -> exists s1 a, m s = Some (s1, a) /\ f a s1 = Some (s', b).
Proof. unfold bind. destruct (m s) as [[s1 a]|]; [|done]. by exists s1, a. Qed.

Lemma pop_Some (Stack : list Value) (s s' : list Instr) (v : Value) (Stack' : list Value) :
  pop Stack s = Some (s', (v, Stack')) -> Stack = v :: Stack'.
Proof. destruct Stack as [|x Stack]; [done|]. by intros [= <- <- <-]. Qed.

Lemma pop_args_Some (n : nat) (Stack : list Value) (s s' : list Instr) (Args Stack' : list Value) :
  pop_args n Stack s = Some (s', (Args, Stack')) -> Stack = rev Args ++ Stack' /\ length Args = n.
Proof.
  revert Stack s s' Args Stack'. induction n as [|n IH]; intros Stack s s' Args Stack' HP.
  { by injection HP as <- <- <-. }
  cbn in HP. apply bind_Some in HP as (s1 & [v Stack1] & ->%pop_Some & HP).
  apply bind_Some in HP as (s2 & [Args1 Stack2] & [-> <-]%IH & HP).
  injection HP as <- <- <-. by rewrite rev_app_distr, length_app, Nat.add_comm.
Qed.

Section stack.
Variable native : Z.
Context {RT : ReaderTypes} {SR : SIMDRuntime}.

Lemma after_node (m : M (option Value)) (Stack Rest Back : list Value) (n : nat)
    (s s' : list Instr) (r : option Value * list Value) :
  (let* ReturnNode := m in
   match ReturnNode with Some Node => ret (Some Node, Rest) | None => ret (None, Back) end) s =
    Some (s', r) ->
  Back = Stack -> (n <= length Stack)%nat -> Rest = drop n Stack -> balanced n Stack r.
Proof.
  intros HM -> Hn ->. apply bind_Some in HM as (s1 & [Node|] & _ & [= <- <-]); by unfold balanced.
Qed.
Lemma binop_balanced (Op : ReaderSIMDIntrinsic) (Class : Z) (Stack : list Value) (s s' : list Instr)
    (r : option Value * list Value) :
  generateSIMDBinOp Op Class Stack s = Some (s', r) -> balanced 2 Stack r.
Proof.
  intros HG. apply bind_Some in HG as (s1 & [v2 St1] & ->%pop_Some & HG).
  apply bind_Some in HG as (s2 & [v1 St2] & ->%pop_Some & HG).
  eapply after_node; [exact HG|done|cbn; lia|done].
Qed.

Lemma unop_balanced (Op : ReaderSIMDIntrinsic) (Stack : list Value) (s s' : list Instr)
    (r : option Value * list Value) :
  generateSIMDUnOp Op Stack s = Some (s', r) -> balanced 1 Stack r.
Proof.
  intros HG. apply bind_Some in HG as (s1 & [v St] & ->%pop_Some & HG).
  eapply after_node; [exact HG|done|cbn; lia|done].
Qed.

Lemma getItem_balanced (ResType : CorInfoType) (Stack : list Value) (s s' : list Instr)
    (r : option Value * list Value) :
  generateSIMDGetItem native ResType Stack s = Some (s', r) -> balanced 2 Stack r.
Proof.
  intros HG. apply bind_Some in HG as (s1 & [v2 St1] & ->%pop_Some & HG).
  apply bind_Some in HG as (s2 & [v1 St2] & ->%pop_Some & HG).
  eapply after_node; [exact HG|done|cbn; lia|done].
Qed.

Lemma ctor_balanced (Class : Z) (n : nat) (IsNewObj : bool) (Stack : list Value) (s s' : list Instr)
    (r : option Value * list Value) :
  generateSIMDCtor native Class n IsNewObj Stack s = Some (s', r) ->
  balanced (n + if IsNewObj then 0 else 1) Stack r.
Proof.
  intros HG. apply bind_Some in HG as (s1 & [Args St1] & [-> <-]%pop_args_Some & HG).
  apply bind_Some in HG as (s2 & [This St2] & HThis & HG).
  assert (HS : St1 = match This with Some v => v :: St2 | None => St2 end /\
               (if IsNewObj then This = None else is_Some This)).
  { destruct IsNewObj; [by injection HThis as <- <- <-|].
    apply bind_Some in HThis as (s3 & [v St3] & ->%pop_Some & [= <- <- <-]). by split. }
  destruct HS as [-> HThis']. eapply after_node; [exact HG|done| |].
  - rewrite length_app, length_rev. destruct IsNewObj; [lia|]. destruct HThis' as [v ->]. cbn. lia.
  - rewrite <- length_rev. destruct IsNewObj; [rewrite HThis', Nat.add_0_r; by rewrite drop_app_length|].
    destruct HThis' as [v ->]. by rewrite drop_app_add.
Qed.
End stack.

(** An intrinsic of System.Numerics that the reader expands has taken exactly
    its operands from the operand stack; one that it does not expand, whatever
    was tried, has left the operand stack as it was, for the call that is made
    instead. *)
Theorem simd_fallback_keeps_stack (native : Z) (RT : ReaderTypes) (SR : SIMDRuntime) (Class : Z)
    (MethodName : string) (ResType : CorInfoType) (numArgs : nat) (hasThis IsNewObj : bool)
    (Stack : list Value) (s s' : list Instr) (r : option Value * list Value) :
  generateSIMDIntrinsicCall native Class MethodName ResType numArgs hasThis IsNewObj Stack s =
    Some (s', r) ->
  balanced (operand_count (operation_of operation_names MethodName) numArgs IsNewObj) Stack r.
Proof.
  unfold generateSIMDIntrinsicCall. case_bool_decide as HN.
  { subst MethodName. intros [= <- <-]. split; [|done]. vm_compute. lia. }
  destruct (operation_of operation_names MethodName); cbn [operand_count]; intros HG;
    try (by apply binop_balanced in HG); try (by apply unop_balanced in HG);
    try (by injection HG as <- <-; split; [lia|]); try (by injection HG as <- <-).
  - apply bind_Some in HG as (s1 & [] & _ & HG). apply bind_Some in HG as (s2 & [] & _ & HG).
    by apply ctor_balanced in HG.
  - by apply getItem_balanced in HG.
Qed.

(** ** Vectors made from an array *)

Section from_array.
Context {L : LLVM} {LS : LLVMLaws L} {native : Z} {args : list (RVal FP)}.
Hypothesis Hnative : native = 32 \/ native = 64.
Context `{RT : ReaderTypes} (OK : ReaderTypesOk L RT native).
Variables (E : Ty) (a len : Z) (element : Z -> RVal FP).
Hypothesis Ha : 0 <= a < 2 ^ native.
Hypothesis Hobj : a <> 0 -> vector_object native a len (alloc_size native E) /\
  forall i, 0 <= i < len ->
    load E (a + (data_offset native + i * alloc_size native E)) = Some (element i).

#[local] Notation wp := (wp native args).
#[local] Notation has := (has args).
#[local] Notation ext := (ext native args).

(** How the run stands behind the checks of [n] elements from index [x] on. *)
Fixpoint stop_after (n : nat) (x : Z) (o : option (Outcome FP)) : option (Outcome FP) :=
  match n with
  | O => o
  | S n =>
      stop_after n (x + 1)
        (check (wrap 32 x <? len) CORINFO_HELP_RNGCHKFAIL
           (check (negb (a =? 0)) CORINFO_HELP_THROWNULLREF o))
  end.

Lemma stop_after_Some (n : nat) (x : Z) (o : Outcome FP) : stop_after n x (Some o) = Some o.
Proof. revert x. induction n as [|n IH]; intros x; [done|]. apply IH. Qed.

(** The first index out of range is the one behind the last element: the
    checks of all elements are one. *)
Lemma stop_after_spec (n : nat) (x : Z) (o : option (Outcome FP)) :
  (0 < n)%nat -> Z.of_nat n <= 2 ^ 31 -> 0 <= x < 2 ^ 32 -> len < 2 ^ 31 ->
  stop_after n x o =
    check (x + Z.of_nat n <=? len) CORINFO_HELP_RNGCHKFAIL
      (check (negb (a =? 0)) CORINFO_HELP_THROWNULLREF o).
Proof.
  clear Ha Hobj Hnative OK. revert x o. induction n as [|n IH]; intros x o Hn Hn' Hx Hlen; [lia|]. cbn [stop_after].
  rewrite wrap_small by lia. set (o' := check (negb (a =? 0)) CORINFO_HELP_THROWNULLREF o).
  destruct (Z.ltb_spec x len) as [Hlt|Hge].
  - destruct n as [|n].
    { cbn [stop_after]. by rewrite (proj2 (Z.leb_le _ _)) by lia. }
    rewrite IH by lia. replace (x + 1 + Z.of_nat (S n)) with (x + Z.of_nat (S (S n))) by lia.
    subst o'. by destruct o, (negb (a =? 0)).
  - rewrite (proj2 (Z.leb_gt _ _)) by lia. destruct o'; apply stop_after_Some.
Qed.

(** The lanes behind [n] insertions. *)
Fixpoint filled (n : nat) (Counter x : Z) (l : list (RVal FP)) : list (RVal FP) :=
  match n with
  | O => l
  | S n => filled n (Counter + 1) (x + 1) (<[Z.to_nat Counter := element (wrap 32 x)]> l)
  end.

Lemma filled_spec (n : nat) (c : nat) (x : Z) (l : list (RVal FP)) :
  (c + n <= length l)%nat -> 0 <= x -> x + Z.of_nat n <= 2 ^ 32 ->
  filled n (Z.of_nat c) x l = take c l ++ (element <$> seqZ x (Z.of_nat n)) ++ drop (c + n) l.
Proof.
  clear Ha Hobj Hnative OK. revert c x l. induction n as [|n IH]; intros c x l Hl Hx Hn.
  { rewrite Nat.add_0_r. change (seqZ x (Z.of_nat 0)) with (@nil Z). symmetry. apply take_drop. }
  cbn [filled]. rewrite wrap_small, Nat2Z.id by lia.
  replace (Z.of_nat c + 1) with (Z.of_nat (S c)) by lia.
  rewrite IH by (rewrite ?length_insert; lia). rewrite (seqZ_cons x) by lia.
  rewrite (take_S_r _ _ (element x)) by (apply list_lookup_insert_eq; lia).
  rewrite take_insert_ge, drop_insert_lt by lia.
  rewrite Nat2Z.inj_succ, Z.pred_succ, fmap_cons, <- app_assoc. cbn [app].
  by replace (S c + n)%nat with (c + S n)%nat by lia.
Qed.

Lemma wp_vectorCtorFromArray (n : nat) (Counter x N : Z) (Vector Array Index : Value)
    (l : list (RVal FP)) (s : state) (Q : Value -> state -> Prop) :
  wf s -> IRBuilder.getType Vector = VectorTy E N -> has s Vector (RVec l) ->
  isGcPointer (IRBuilder.getType Array) = true -> has s Array (RInt a) ->
  IRBuilder.getType Index = IntegerTy 32 -> has s Index (RInt (wrap 32 x)) ->
  0 <= Counter -> Counter + Z.of_nat n <= Z.of_nat (length l) ->
  (forall v s', wf s' -> ext s s' -> stop s' = stop_after n x (stop s) ->
     has s' v (RVec (filled n Counter x l)) -> Q v s') ->
  wp (vectorCtorFromArray native n Counter Vector Array Index) s Q.
Proof.
  revert Counter x Vector Index l s. induction n as [|n IH];
    intros Counter x Vector Index l s Hw HVT HV HAT HA HIT HI Hc Hl HQ.
  { apply wp_ret, HQ; [done|reflexivity|done|done]. }
  cbn [vectorCtorFromArray]. apply wp_bind. eapply wp_lift; [by rewrite HVT|].
  pose proof (wrap_range 32 x ltac:(lia)) as Hx.
  apply wp_bind, (wp_genArrayElemAddress Hnative OK Array Index E a len (wrap 32 x) 32);
    [done|done|done|by left|done|done|done|done|intros Hne; by apply Hobj|].
  intros A s1 HAdT Hw1 He1 Hs1 HAd. apply wp_bind.
  apply wp_emit with (r := element (wrap 32 x)); [done| |].
  { intros Hs. cbn [exec_instr]. rewrite (has_int _ _ _ _ HAd Hs).
    rewrite Hs1 in Hs. apply check_None in Hs as [Hlt%Z.ltb_lt Hs].
    apply check_None in Hs as [Hne%negb_true_iff%Z.eqb_neq _].
    cbn [mbind option_bind]. by rewrite (proj2 (Hobj Hne)) by lia. }
  intros e s2 _ Hw2 He2 Hs2 Hel. apply wp_bind.
  apply wp_emit with (r := RVec (<[Z.to_nat Counter := element (wrap 32 x)]> l)); [done| |].
  { intros Hs. cbn [exec_instr]. unfold lanes_of.
    rewrite (has_ext _ _ _ _ _ _ He2 (has_ext _ _ _ _ _ _ He1 HV) Hs).
    cbn [mbind option_bind]. rewrite (Hel Hs). cbn [mbind option_bind].
    rewrite (proj2 (Z.leb_le 0 Counter)) by lia.
    by rewrite (proj2 (Z.ltb_lt Counter _)) by lia. }
  intros V' s3 HVT' Hw3 He3 Hs3 HV'. apply wp_bind. unfold next_index.
  apply wp_bind, wp_assert; [by apply bool_decide_eq_true|].
  assert (HI' : has s3 Index (RInt (wrap 32 x))) by held.
  apply wp_emit with (r := RInt (wrap 32 (x + 1))); [done| |].
  { intros Hs. cbn [exec_instr]. unfold is_fp. rewrite HIT. cbn [isFloatingPointTy isFloatTy isDoubleTy orb].
    rewrite (has_int _ _ _ _ HI' Hs). cbn. rewrite int_binop_law. cbn.
    change 1 with (wrap 32 1) at 1. by rewrite wrap_add. }
  intros I' s4 HIT' Hw4 He4 Hs4 HI''.
  apply IH with (x := x + 1) (l := <[Z.to_nat Counter := element (wrap 32 x)]> l);
    [done|by rewrite HVT', HVT|held|done|held|done|done|lia|rewrite length_insert; lia|].
  intros v s5 Hw5 He5 Hs5 Hv. apply HQ; [done|reach| |done].
  by rewrite Hs5, Hs4, Hs3, Hs2, Hs1.
Qed.
End from_array.

(** The constructor of a generic vector from an array and an index: the
    emitted code throws NullReferenceException for a null array and
    IndexOutOfRangeException unless all the elements it needs are in the array,
    and otherwise gives the vector of these elements in order. *)
Theorem vector_from_array {L : LLVM} (LS : LLVMLaws L) (native : Z) (RT : ReaderTypes)
    (OK : ReaderTypesOk L RT native) (SR : SIMDRuntime) (Class : Z) (T : TypeLayout.LTy) (E : Ty)
    (n id a len x : Z) (Signed : bool) (element : Z -> RVal FP)
    (Hnative : native = 32 \/ native = 64)
    (HClass : simd_class Class = MkSIMD (Some T) n true Signed) (HE : element_ty T = Some E)
    (Hn : 0 < n <= 2 ^ 31) (Hx : 0 <= x < 2 ^ 32) (Ha : 0 <= a < 2 ^ native)
    (Hobj : a <> 0 -> vector_object native a len (alloc_size native E) /\
       forall i, 0 <= i < len ->
         load E (a + (data_offset native + i * alloc_size native E)) = Some (element i)) :
  run native [RInt a; RInt x]
    (let* V := vectorCtor native Class None
                 [MkValue (Arg 0) (PointerTy (StructTy id) ManagedAddressSpace);
                  MkValue (Arg 1) (IntegerTy 32)] in lift V) =
  Some (if a =? 0 then Throws CORINFO_HELP_THROWNULLREF
        else if x + n <=? len then Returns (RVec (element <$> seqZ x n))
        else Throws CORINFO_HELP_RNGCHKFAIL).
Proof.
  set (undef := replicate (Z.to_nat n) (@RUndef FP)).
  assert (Hlen : length undef = Z.to_nat n) by apply length_replicate.
  set (o := stop_after a len (Z.to_nat n) x None).
  assert (Ho : o = if a =? 0 then Some (Throws CORINFO_HELP_THROWNULLREF)
                   else if x + n <=? len then None else Some (Throws CORINFO_HELP_RNGCHKFAIL)).
  { subst o. destruct (Z.eqb_spec a 0) as [->|Hne].
    - destruct (Z.to_nat n) as [|k] eqn:Ek; [lia|]. cbn. apply stop_after_Some.
    - destruct (Hobj Hne) as [(_ & Hl & _) _].
      rewrite stop_after_spec; [|lia|lia|lia|lia]. rewrite Z2Nat.id by lia.
      rewrite (proj2 (Z.eqb_neq a 0)) by done.
      by destruct (x + n <=? len). }
  rewrite (run_wp native _ _ o (RVec (filled element (Z.to_nat n) 0 x undef))).
  - rewrite Ho. destruct (Z.eqb_spec a 0) as [->|Hne]; [done|].
    destruct (Z.leb_spec (x + n) len) as [Hle|]; [|done].
    destruct (Hobj Hne) as [(_ & Hl & _) _]. do 3 f_equal.
    change (filled element (Z.to_nat n) 0) with (filled element (Z.to_nat n) (Z.of_nat 0)). rewrite filled_spec by lia. cbn [take Nat.add app].
    rewrite drop_ge, app_nil_r, Z2Nat.id by lia. done.
  - apply wp_bind. unfold vectorCtor. apply wp_bind. unfold vector_value. rewrite HClass.
    cbn [VectorLength ElementType IsGeneric negb]. rewrite (proj2 (Z.eqb_neq n 0)) by lia.
    apply wp_bind. eapply wp_lift; [exact HE|]. apply wp_bind.
    apply wp_emit with (r := RVec undef); [apply wf_start|done|].
    intros U s1 HUT Hw1 He1 Hs1 HU. cbn [IRBuilder.getType isAggregateType]. apply wp_bind.
    apply (wp_vectorCtorFromArray Hnative OK E a len element Ha Hobj (Z.to_nat n) 0 x n _ _ _ undef);
      [done|done|done|done|by apply has_arg|done| |lia|lia|].
    { rewrite wrap_small by lia. by apply has_arg. }
    intros v s2 Hw2 He2 Hs2 Hv. apply wp_ret, wp_ret. apply wp_ret. by rewrite Hs2, Hs1.
Qed.

(** ** Witness: the greater of four unsigned bytes each. *)

#[local] Open Scope string_scope.
#[local] Open Scope Z_scope.

#[export] Instance ByteVectors : SIMDRuntime := {|
  className := fun _ => "System.Numerics.Vector`1[System.Byte]";
  classSize := fun _ => 4;
  PreferredIntrinsicSIMDVectorLength := 0
|}.

Definition bytes (l : list Z) : list (RVal (option Z)) := RInt <$> l.

Lemma simd_operation_lanes_witness : exists code N,
  generateSIMDBinOp MAX 1 [vector 1 (VectorTy (IntegerTy 8) 4); vector 0 (VectorTy (IntegerTy 8) 4)] [] =
    Some (code, (Some N, [])) /\
  result (L := DemoLLVM) 64 [RVec (bytes [1; 200; 7; 255]); RVec (bytes [2; 100; 7; 0])] code N =
    Returns (RVec (bytes [2; 200; 7; 255])).
Proof.
  destruct (simd_operation_lanes DemoLLVM_laws 64 ByteVectors 1 MAX (IntegerTy 8)
              (bytes [1; 200; 7; 255]) (bytes [2; 100; 7; 0]) []) as (code & N & HG & _ & HR).
  - by left.
  - done.
  - repeat constructor; cbn; lia.
  - repeat constructor; cbn; lia.
  - done.
  - exists code, N. split; [exact HG|]. etransitivity; [exact HR|]. by vm_compute.
Defined.

(** The product of a vector and a number is not expanded. *)
Lemma simd_fallback_keeps_stack_witness :
  let V := vector 0 (VectorTy (IntegerTy 8) 4) in
  let k := vector 1 (IntegerTy 32) in
  balanced 2 [k; V] (None, [k; V]) /\
  generateSIMDIntrinsicCall (H := VectorReader 64) 64 1 "op_Multiply" CORINFO_TYPE_VALUECLASS 2 false
    false [k; V] [] = Some ([], (None, [k; V])).
Proof.
  cbv zeta. match goal with |- _ /\ ?G => assert (HG : G) by by vm_compute end.
  split; [|exact HG].
  exact (simd_fallback_keeps_stack 64 (VectorReader 64) ByteVectors 1 "op_Multiply"
           CORINFO_TYPE_VALUECLASS 2 false false _ _ _ _ HG).
Defined.

(** Four bytes of the vector 1, 2, 3, 4, 5 from index 1 on. *)
Lemma vector_from_array_witness :
  run (L := DemoMemory (vector_of 64)
              (fun _ p => if p =? 1008 then Some (RInt 5) else Some (RInt (p - 1015)))
              (fun a n => (a =? 1000) && (n =? 21)))
    64 [RInt 1000; RInt 1]
    (let* V := vectorCtor (H := VectorReader 64) 64 1 None
                 [MkValue (Arg 0) (PointerTy (StructTy 9) ManagedAddressSpace);
                  MkValue (Arg 1) (IntegerTy 32)] in lift V)%emit =
  Some (Returns (RVec (bytes [2; 3; 4; 5]))).
Proof.
  refine (vector_from_array (DemoMemory_laws _ _ _) 64 (VectorReader 64) (VectorReader_ok 64 _ _)
    ByteVectors 1 (TypeLayout.LInt 8) (IntegerTy 8) 4 9 1000 5 1 false (fun i => RInt (i + 1))
    _ _ _ _ _ _ _); try done.
  - by right.
  - intros _. split; [by split|]. intros i Hi. cbn.
    assert (i = 0 \/ i = 1 \/ i = 2 \/ i = 3 \/ i = 4) as [-> | [-> | [-> | [-> | ->]]]] by lia; done.
Defined.
