(* ===== verification/RdrCall.v ===== *)
(** * Calls (lib/Reader/reader.cpp, readerir.cpp)

    [rdrCall]: the intrinsics that are expanded in line, the constructors of
    delegates, the arguments taken from the operand stack, and the call with
    its target.  The theorems are in [RdrCallRules]. *)

From stdpp Require Import strings.
From S2P Require Import Prelude Opcodes IRBuilder GenIRTypes Conv Arith IRLogic Memory Objects Elements Generics Signature Fields CallTarget Allocation SIMD.
Import ReaderBaseNS.

(** What [rdrCall] itself asks the runtime.  [getIntrinsicID] is [None] for a
    number that is not one of the intrinsics; [GetDelegateCtor] answers the
    constructor to use and its additional arguments, null ones as [None];
    [inferThisClass] is the reader's map from types back to classes. *)
Class RdrCallRuntime := {
  getIntrinsicID : Z -> option CorInfoIntrinsics;
  isInSIMDModule : option Z -> bool;
  getMethodName : Z -> string;
  GetDelegateCtor : Z -> Z -> Z -> Z * (option Z * option Z * option Z);
  inferThisClass : Value * bool -> option Z;
  canTailCall : option Z -> option Z -> bool -> bool;
  canInlineSelf : bool
}.

(** What a call leaves behind: the node it returns (none for a call without a
    result), the operand stack, the data of the call, and whether the method
    must reserve a slot for a security object. *)
Record CallResult := MkCallResult {
  ReturnNode : option (Value * bool);
  StackAfter : list (Value * bool);
  DataAfter : ReaderCallTargetData;
  SecurityCheck : bool
}.

Module RdrCall.
Import GenIR Arith Memory Objects Elements Generics Fields CallTarget Allocation.
#[local] Open Scope emit_scope.
#[local] Existing Instance Signatures.CorInfoCallConv_eq_dec.

(** ** Atomic operations *)

(** A pointer to a value of type [T], in the address space of [Address]. *)
Definition pointer_like (Address : Value) (T : Ty) : Ty :=
  if isGcPointer (IRBuilder.getType Address) then getManagedPointerType T
  else getUnmanagedPointerType T.

Definition cast_pointer (Address : Value) (T : Ty) : M Value :=
  if bool_decide (IRBuilder.getType Address = T) then ret Address
  else emit (CreatePointerCast Address T) T.

Definition interlockedCmpXchg (Destination Exchange Comparand : Value) (Id : CorInfoIntrinsics) :
    M Value :=
  let T := IRBuilder.getType Comparand in
  let* Exchange :=
    if isPointerTy (IRBuilder.getType Exchange) then emit (CreatePtrToInt Exchange T) T
    else ret Exchange in
  assert (bool_decide (IRBuilder.getType Exchange = T)) ;*
  assert (match Id with
          | InterlockedCmpXchg32 => bool_decide (T = IntegerTy 32)
          | InterlockedCmpXchg64 => bool_decide (T = IntegerTy 64)
          | _ => false
          end) ;*
  let* Destination :=
    if isIntegerTy (IRBuilder.getType Destination) then
      emit (CreateIntToPtr Destination (getManagedPointerType T)) (getManagedPointerType T)
    else
      assert (isPointerTy (IRBuilder.getType Destination)) ;*
      cast_pointer Destination (pointer_like Destination T) in
  let* Pair := emit (CreateAtomicCmpXchg Destination Comparand Exchange) T in
  emit (CreateExtractValue Pair 0) T.

(** [interlockedIntrinsicBinOp]; [None] for another intrinsic. *)
Definition interlockedIntrinsicBinOp (Arg1 Arg2 : Value) (Id : CorInfoIntrinsics) :
    M (option Value) :=
  let Op :=
    match Id with
    | InterlockedXAdd32 | InterlockedXAdd64 => Some true
    | InterlockedXchg32 | InterlockedXchg64 => Some false
    | _ => None
    end in
  match Op with
  | Some IsAdd =>
      assert (isPointerTy (IRBuilder.getType Arg1)) ;*
      let T := IRBuilder.getType Arg2 in
      let* Address := cast_pointer Arg1 (pointer_like Arg1 T) in
      let* Result := emit (CreateAtomicRMW IsAdd Address Arg2) T in
      ret (Some Result)
  | None => ret None
  end.

Definition memoryBarrier : M unit := emit CreateFence VoidTy ;* ret tt.

(** [abs] and [sqrt]: floating-point arguments only. *)
Definition math_intrinsic (Op : UnaryIntrinsic) (Argument : Value) : M (option Value) :=
  let T := IRBuilder.getType Argument in
  if isFloatingPointTy T then let* V := emit (VectorUnary Op Argument) T in ret (Some V)
  else ret None.

Definition getValueFromRuntimeHandle (Arg1 : Operand) : option Value := None.

(** ** Tail calls *)

(** The flags and facts that [tailCallChecks] reads. *)
Record TailCallFacts := MkTailCallFacts {
  EnableOptimization : bool; DoTailCallOpt : bool; HasLocAlloc : bool;
  HasAddressTaken : bool; NeedsStackSecurityCheck : bool
}.

Inductive TailCallReason : Set :=
  | Synchronized | CallerSecurity | NotOptimizing | TailCallOptDisabled | LocAlloc
  | AddressTaken | GS | CanTailCallDeclined | RecursionNotInlined | IndirectResultOrArgument.

#[export] Instance tail_reason_eq_dec : EqDecision TailCallReason.
Proof. solve_decision. Defined.

Section calls.
Variable TargetPointerSizeInBits : Z.
Context `{ReaderTypes} `{ObjectRuntime} `{ArrayRuntime} `{FieldRuntime} `{CallRuntime}.
Context `{AllocRuntime} `{SIMDRuntime} `{RdrCallRuntime} `{Signatures.ICorJitInfo}.
Variables (instParam thisObj : Value).
Variable Inlining : bool.

(** Is the JIT to expand vector operations; is it built for 64-bit Windows. *)
Variables (doSimdIntrinsicOpt Win64 : bool).

(** The secret parameter of a stub; other methods assert. *)
Variable secretParam : option Value.

(** [IndirectArgument] is that of [genCall]; [fuel] bounds the search for the
    root of an address that a write barrier makes. *)
Variable IndirectArgument : nat -> bool.
Variable fuel : nat.

(** Why a call is not marked as a tail call; the reason is reported unless the
    runtime itself declined. *)
Definition tailCallChecks (Facts : TailCallFacts) (DeclaredMethod ExactMethod : option Z)
    (IsUnmarkedTailCall HasIndirectResultOrArgument : bool) : option TailCallReason :=
  if FLG_SYNCH CurrentAttribs then Some Synchronized
  else if FLG_SECURITYCHECK CurrentAttribs then Some CallerSecurity
  else if IsUnmarkedTailCall && negb (EnableOptimization Facts) then Some NotOptimizing
  else if IsUnmarkedTailCall && negb (DoTailCallOpt Facts) then Some TailCallOptDisabled
  else if IsUnmarkedTailCall && HasLocAlloc Facts then Some LocAlloc
  else if IsUnmarkedTailCall && HasAddressTaken Facts then Some AddressTaken
  else if NeedsStackSecurityCheck Facts then Some GS
  else if negb (canTailCall DeclaredMethod ExactMethod (negb IsUnmarkedTailCall))
  then Some CanTailCallDeclined
  else if bool_decide (Some CurrentMethod = ExactMethod) then
    if canInlineSelf then None else Some RecursionNotInlined
  else if HasIndirectResultOrArgument then Some IndirectResultOrArgument
  else None.

(** ** Intrinsics *)

(** An expansion that works on the nodes of the operand stack; the operands
    below those it takes stay what they are. *)
Definition on_stack {A} (f : list Value -> M (A * list Value)) (Stack : list Operand) :
    M (A * list Operand) :=
  let* (Result, Rest) := f (fst <$> Stack) in
  ret (Result, drop (length Stack - length Rest) Stack).

Definition pop_operand (Stack : list Operand) : M (Operand * list Operand) :=
  match Stack with ArgNode :: Stack => ret (ArgNode, Stack) | [] => fail end.

(** The signature of an accessor of arrays: the types of its arguments. *)
Fixpoint accessor_args (Sig : Signatures.CORINFO_SIG_INFO) (n : nat) (Args : Z) :
    list (CorInfoType * option Z) :=
  match n with
  | O => []
  | S n =>
      (Signatures.strip (Signatures.getArgType Sig Args), Signatures.getArgClass Sig Args) ::
      accessor_args Sig n (Signatures.getArgNext Args)
  end.

Definition accessor_sig (Sig : Signatures.CORINFO_SIG_INFO) : AccessorSig :=
  MkAccessorSig (accessor_args Sig (Signatures.numArgs Sig) (Signatures.args Sig))
    (Signatures.retType Sig) (Signatures.retTypeClass Sig).

Definition scalar (V : Value) : option Operand := Some (V, false).

(** What became of an intrinsic: [Some] node (which may be null) where it is
    expanded, with the operand stack. *)
Definition Expansion : Type := option (option Operand) * list Operand.

Definition expanded (Node : Value) (Stack : list Operand) : Expansion := (Some (scalar Node), Stack).
Definition declined (Stack : list Operand) : Expansion := (None, Stack).

(** The node of an expansion that may decline; then the operands go back. *)
Definition or_restore (m : M (option Value)) (Rest Back : list Operand) : M Expansion :=
  let* IntrinsicRet := m in
  match IntrinsicRet with
  | Some Node => ret (expanded Node Rest)
  | None => ret (declined Back)
  end.

(** An accessor of arrays with its result. *)
Definition accessor (m : list Value -> M (option (Value * list Value))) (Stack : list Operand) :
    M Expansion :=
  let* Result := m (fst <$> Stack) in
  match Result with
  | Some (Node, Rest) => ret (expanded Node (drop (length Stack - length Rest) Stack))
  | None => ret (declined Stack)
  end.

Definition expandIntrinsic (Id : CorInfoIntrinsics) (Sig : Signatures.CORINFO_SIG_INFO)
    (Stack : list Operand) : M Expansion :=
  match Id with
  | Array_GetDimLength =>
      let* (Arg1, Stack) := pop_operand Stack in
      let* (Arg2, Stack) := pop_operand Stack in
      or_restore (arrayGetDimLength TargetPointerSizeInBits Arg1.1 Arg2.1) Stack
        (Arg1 :: Arg2 :: Stack)
  | Sqrt =>
      let* (Arg1, Stack) := pop_operand Stack in
      or_restore (math_intrinsic sqrt Arg1.1) Stack (Arg1 :: Stack)
  | InterlockedXAdd32 | InterlockedXAdd64 | InterlockedXchg32 | InterlockedXchg64 =>
      let* (Arg2, Stack) := pop_operand Stack in
      let* (Arg1, Stack) := pop_operand Stack in
      or_restore (interlockedIntrinsicBinOp Arg1.1 Arg2.1 Id) Stack (Arg2 :: Arg1 :: Stack)
  | InterlockedCmpXchg32 | InterlockedCmpXchg64 =>
      let* (Arg3, Stack) := pop_operand Stack in
      let* (Arg2, Stack) := pop_operand Stack in
      let* (Arg1, Stack) := pop_operand Stack in
      let* Node := interlockedCmpXchg Arg1.1 Arg2.1 Arg3.1 Id in
      ret (expanded Node Stack)
  | MemoryBarrier => memoryBarrier ;* ret (Some None, Stack)
  | Abs =>
      let* (Arg1, Stack) := pop_operand Stack in
      or_restore (math_intrinsic fabs Arg1.1) Stack (Arg1 :: Stack)
  | Array_Get => accessor (arrayGet TargetPointerSizeInBits (accessor_sig Sig)) Stack
  | Array_Address => accessor (arrayAddress TargetPointerSizeInBits (accessor_sig Sig)) Stack
  | Array_Set =>
      let* Result := arraySet TargetPointerSizeInBits fuel (accessor_sig Sig) (fst <$> Stack) in
      match Result with
      | Some Rest => ret (Some None, drop (length Stack - length Rest) Stack)
      | None => ret (declined Stack)
      end
  | StringLength =>
      let* (Arg1, Stack) := pop_operand Stack in
      let* Node := loadStringLen Arg1.1 in ret (expanded Node Stack)
  | StringGetChar =>
      let* (Arg2, Stack) := pop_operand Stack in
      let* (Arg1, Stack) := pop_operand Stack in
      let* Node := stringGetChar TargetPointerSizeInBits Arg1.1 Arg2.1 in
      ret (expanded Node Stack)
  | GetTypeFromHandle =>
      let* (Arg1, Stack) := pop_operand Stack in
      let* Node := getTypeFromHandle Arg1 in ret (expanded Node Stack)
  | RTH_GetValueInternal =>
      let* (Arg1, Stack) := pop_operand Stack in
      or_restore (ret (getValueFromRuntimeHandle Arg1)) Stack (Arg1 :: Stack)
  | StubHelpers_GetStubContext =>
      let* Node := lift secretParam in ret (expanded Node Stack)
  | StubHelpers_GetStubContextAddr =>
      if Win64 then
        let* Node := lift secretParam in
        let* Address := addressOfValue (Node, false) in
        ret (expanded Address Stack)
      else ret (declined Stack)
  | Sin | Cos | Round | InitializeArray | GetChar | Object_GetType | OtherIntrinsic _ =>
      ret (declined Stack)
  end.

(** The intrinsics are considered only for a [this] that is passed as it is. *)
Definition tryIntrinsic (D : ReaderCallTargetData) (Info : CORINFO_CALL_INFO)
    (Stack : list Operand) : M Expansion :=
  if FLG_INTRINSIC (TargetMethodAttribs D) &&
     (negb (HasThisPtr D) || bool_decide (thisTransform Info = CORINFO_NO_THIS_TRANSFORM)) then
    let* Method := lift (TargetMethodHandle D) in
    match getIntrinsicID Method with
    | Some Id => expandIntrinsic Id (SigInfo D) Stack
    | None => ret (declined Stack)
    end
  else ret (declined Stack).

(** The vector operations; the node of one without a result is dropped. *)
Definition trySIMD (D : ReaderCallTargetData) (Stack : list Operand) : M Expansion :=
  let Class := getClassHandle D in
  if doSimdIntrinsicOpt && isInSIMDModule Class then
    let* Method := lift (TargetMethodHandle D) in
    let* Class := lift Class in
    let* (Node, Stack) :=
      on_stack (SIMD.generateSIMDIntrinsicCall TargetPointerSizeInBits Class (getMethodName Method)
                  (Signatures.retType (SigInfo D)) (Signatures.numArgs (SigInfo D))
                  (Signatures.sigHasThis (SigInfo D)) (IsNewObj D)) Stack in
    match Node with
    | Some Node =>
        if bool_decide (Signatures.retType (SigInfo D) = CORINFO_TYPE_VOID) && negb (IsNewObj D)
        then ret (Some None, Stack) else ret (expanded Node Stack)
    | None => ret (declined Stack)
    end
  else ret (declined Stack).

(** ** Constructors of delegates *)

(** The additional arguments of another constructor, up to the first null
    one. *)
Definition constructor_args (Extra : option Z * option Z * option Z) : list Z :=
  match Extra with
  | (None, _, _) => []
  | (Some a, None, _) => [a]
  | (Some a, Some b, None) => [a; b]
  | (Some a, Some b, Some c) => [a; b; c]
  end.

Fixpoint push_handles (Handles : list Z) (Stack : list Operand) : M (list Operand) :=
  match Handles with
  | [] => ret Stack
  | Handle :: Handles =>
      let* ArgIR := handleToIRNode TargetPointerSizeInBits Handle false true in
      push_handles Handles ((ArgIR, false) :: Stack)
  end.

(** The constructor of a delegate whose method was just loaded; [LoadFtn] is
    its token with the method it denotes, if any.  ReadyToRun code makes the
    delegate here; other code may get another constructor. *)
Definition delegateConstruct (D : ReaderCallTargetData) (LoadFtn : option (ResolvedToken * option Z))
    (Stack : list Operand) : M (Expansion * ReaderCallTargetData) :=
  let* DelegateConstruct := rdrCallIsDelegateConstruct D in
  match DelegateConstruct, LoadFtn with
  | true, Some (FtnToken, TargetMethod) =>
      let* DelegateType := lift (getClassHandle D) in
      (match TargetMethod with
       | Some CalleeMethod =>
           rdrInsertCalloutForDelegate TargetPointerSizeInBits DelegateType CalleeMethod
       | None => ret tt
       end) ;*
      if isReadyToRun then
        let* (_, Stack) := pop_operand Stack in
        let* (TargetObject, Stack) := pop_operand Stack in
        let* ClassAttribs := lift (classAttribs D) in
        assert (negb (FLG_VALUECLASS ClassAttribs)) ;*
        let* ThisType := lift (getTypeOfClass CORINFO_TYPE_CLASS (Some DelegateType)) in
        let* (This, D) :=
          rdrMakeNewObjThisArg TargetPointerSizeInBits instParam thisObj Inlining D ThisType
            DelegateType in
        let* This := lift This in
        callReadyToRunHelper TargetPointerSizeInBits CORINFO_HELP_READYTORUN_DELEGATE_CTOR None
          FtnToken [This.1; TargetObject.1] ;*
        ret (expanded This.1 Stack, D)
      else
        match TargetMethod with
        | Some TargetMethod =>
            assert (HasThisPtr D) ;*
            let* Method := lift (TargetMethodHandle D) in
            let '(AlternateCtor, Extra) := GetDelegateCtor Method DelegateType TargetMethod in
            if AlternateCtor =? Method then ret (declined Stack, D)
            else
              let D := setOptimizedDelegateCtor D AlternateCtor in
              let* Stack := push_handles (constructor_args Extra) Stack in
              ret (declined Stack, D)
        | None => ret (declined Stack, D)
        end
  | _, _ => ret (declined Stack, D)
  end.

(** ** Arguments *)

(** What the signature of a call is made from; the values of the node fields
    are those given. *)
Definition call_data (D : ReaderCallTargetData) (TypeContext : option Operand) (This : Operand) :
    @Signatures.CallData Operand :=
  Signatures.MkCallData (SigInfo D) (HasThisPtr D)
    (match CallInfo D with
     | Some Info => bool_decide (callKind Info = CORINFO_VIRTUALCALL_LDVIRTFTN)
     | None => false
     end)
    (IsNewObj D) (IsCallI D) (TargetMethodHandle D) (getClassHandle D) TypeContext
    (fun _ => This) (fun _ => This) inferThisClass.

(** The node of a [this] that is not yet known, or that a constructor of
    multi-dimensional arrays does not have. *)
Definition no_node : Operand := (getNullValue VoidTy, false).

(** The instantiation argument, for a signature with one. *)
Definition typeContext (D : ReaderCallTargetData) : M (option Operand * ReaderCallTargetData) :=
  if Signatures.callHasTypeArg (call_data D None no_node) then
    let* Info := lift (CallInfo D) in
    let* (Node, D) :=
      getTypeContextNode TargetPointerSizeInBits instParam thisObj Inlining D Info in
    let* Node := lift Node in
    ret (Some (Node, false), D)
  else ret (None, D).

(** The [this] argument: a new object, or the popped value transformed. *)
Definition thisArgument (D : ReaderCallTargetData) (types : list Signatures.CallArgType)
    (Popped : list (option Operand)) :
    M (Operand * option (Value * option Value) * ReaderCallTargetData) :=
  if IsNewObj D then
    let* ThisType := lift (head types) in
    let* T := lift (getTypeOfClass (Signatures.CorType ThisType) (Signatures.ClassHandle ThisType)) in
    let* Class := lift (Signatures.ClassHandle ThisType) in
    let* (Created, D) :=
      rdrMakeNewObjThisArg TargetPointerSizeInBits instParam thisObj Inlining D T Class in
    ret (match Created with Some This => (This.1, false) | None => no_node end, Created, D)
  else
    let* Popped := lift (mjoin (head Popped)) in
    let* This := applyThisTransform TargetPointerSizeInBits instParam thisObj D Popped in
    ret (This, None, D).

(** The types and the values of the arguments, with the new object of a
    [newobj]; the values are popped before [this] is made. *)
Definition callArguments (D : ReaderCallTargetData) (Stack : list Operand) :
    M (list Signatures.CallArgType * list Operand * option (Value * option Value) *
       list Operand * ReaderCallTargetData) :=
  let D0 := call_data D None no_node in
  let n := Signatures.TotalArgs D0 in
  if (0 <? n)%nat then
    let* (types, Inferred) := lift (Signatures.call_types D0) in
    let* (Context, D) := typeContext D in
    let* (Popped, Stack) :=
      lift (Signatures.pop_arguments (call_data D Context no_node)
              (n - Signatures.FirstArgNum D0) (replicate n None) Stack) in
    let* (This, Created, D) :=
      if HasThisPtr D then thisArgument D types Popped else ret (no_node, None, D) in
    let* (types, Arguments) :=
      lift (Signatures.this_argument (call_data D Context This) types Inferred Popped) in
    let* Arguments := lift (mapM id Arguments) in
    ret (types, Arguments, Created, Stack, D)
  else ret ([], [], None, Stack, D).

(** ** The call *)

(** A function pointer is the top of the operand stack. *)
Definition calliTarget (D : ReaderCallTargetData) (Stack : list Operand) :
    M (ReaderCallTargetData * list Operand) :=
  let* (Target, Stack) := pop_operand Stack in
  ret (set_target_node D Target.1, Stack).

(** The second half of [rdrCall]: the arguments, the target and the call. *)
Definition emitCall (D : ReaderCallTargetData) (Stack : list Operand) (Security : bool) :
    M CallResult :=
  let* (types, Arguments, Created, Stack, D) := callArguments D Stack in
  let Sig := SigInfo D in
  let ResultType := Signatures.MkCallArgType (Signatures.retType Sig) (Signatures.retTypeClass Sig) in
  let* ClassAttribs := if IsNewObj D then lift (Some <$> classAttribs D) else ret None in
  if match ClassAttribs with Some A => FLG_ARRAY A | None => false end then
    let* (Node, D) :=
      genNewMDArrayCall TargetPointerSizeInBits instParam thisObj Inlining D types
        (tail Arguments) in
    ret (MkCallResult (Some Node) Stack D Security)
  else
    let* ResultType :=
      if match ClassAttribs with Some A => FLG_VAROBJSIZE A | None => false end
      then lift (head types) else ret ResultType in
    let* (D, Arguments) :=
      if IsCallI D then ret (D, Arguments)
      else
        let* (D, This) :=
          rdrMakeCallTargetNode TargetPointerSizeInBits instParam thisObj Inlining D
            (fst <$> head Arguments) in
        ret (D, match Arguments, This with
                | ArgNode :: Rest, Some This => (This, ArgNode.2) :: Rest
                | _, _ => Arguments
                end) in
    let* Node :=
      genCall TargetPointerSizeInBits IndirectArgument D (Signatures.callConv Sig) ResultType types
        Arguments in
    let* Node :=
      match Created with
      | Some This => let* Node := rdrMakeNewObjReturnNode D This Node in ret (Some Node)
      | None => ret Node
      end in
    ret (MkCallResult Node Stack D Security).

Definition rdrCall (D : ReaderCallTargetData) (LoadFtn : option (ResolvedToken * option Z))
    (Stack : list Operand) : M CallResult :=
  if IsCallI D then
    let* (D, Stack) := calliTarget D Stack in emitCall D Stack false
  else
    let* Info := lift (CallInfo D) in
    handleMemberAccess TargetPointerSizeInBits (callsiteCallout Info) ;*
    let Security := FLG_SECURITYCHECK (TargetMethodAttribs D) in
    let* (Intrinsic, Stack) := tryIntrinsic D Info Stack in
    match Intrinsic with
    | Some Node => ret (MkCallResult Node Stack D Security)
    | None =>
        let* (Vector, Stack) := trySIMD D Stack in
        match Vector with
        | Some Node => ret (MkCallResult Node Stack D Security)
        | None =>
            let* (Delegate, Stack, D) := delegateConstruct D LoadFtn Stack in
            match Delegate with
            | Some Node => ret (MkCallResult Node Stack D Security)
            | None => emitCall D Stack Security
            end
        end
    end.

End calls.
End RdrCall.
