(* ===== verification/RdrCallRules.v ===== *)
(** * What a call does

    The operand stack of [rdrCall] behind an intrinsic that is not expanded, and
    the meaning of an ordinary call of an instance method, from the operands on
    the stack to the function that is entered. *)

From stdpp Require Import strings.
From S2P Require Import Prelude Opcodes IRBuilder GenIRTypes Conv Arith IRLogic Memory MemoryRules ArrayAccess Objects Elements Generics Signature ABISignature Fields FieldRules CallTarget CallRules Allocation SIMD SIMDRules RdrCall.
Import ReaderBaseNS GenIR Arith Memory Objects Elements Generics Fields CallTarget Allocation RdrCall.

#[local] Open Scope emit_scope.

(** The outcome of recorded code with the node it computes. *)
Definition outcome {L : LLVM} (native : Z) (args : list (RVal FP)) (code : list Instr)
    (Node : option Operand) : Outcome FP :=
  match exec native args code [] with
  | inl regs => match Node with Some N => outcome_of (value_of args regs N.1) | None => Returns (RInt 0) end
  | inr o => o
  end.

(** The target of a virtual call has no cell. *)
Lemma virtual_has_no_cell {L : LLVM} {CR : CallRuntime} (native : Z) (Info : CORINFO_CALL_INFO) (Method a t : Z)
    (cell : option Z) :
  call_target native Info Method a = Some (t, cell) ->
  (if is_virtual Info then None else cell) = cell.
Proof.
  unfold is_virtual, call_target. destruct (callKind Info); try done.
  destruct (virtual_table a) as [vt|]; [|done]. cbn [mbind option_bind].
  destruct (word native _) as [chunk|]; [|done]. cbn [mbind option_bind].
  destruct (word native _) as [t'|]; [|done]. by intros [= _ <-].
Qed.

Section rules.
Context {L : LLVM} {LS : LLVMLaws L} {native : Z} {args : list (RVal FP)}.
Hypothesis Hnative : native = 32 \/ native = 64.
Context {RT : ReaderTypes} {OR : ObjectRuntime} {AR : ArrayRuntime} {FR : FieldRuntime}.
Context {CR : CallRuntime} {AlR : AllocRuntime} {SR : SIMDRuntime} {RR : RdrCallRuntime}.
Context {JI : Signatures.ICorJitInfo}.
Variables (instParam thisObj : Value) (Inlining doSimd Win64 : bool) (secretParam : option Value).
Variables (IndirectArg : nat -> bool) (fuel : nat).

#[local] Notation wp := (wp native args).
#[local] Notation has := (has args).
#[local] Notation ext := (ext native args).

(** A call whose arguments are those on the stack: of a method that is known,
    with [this], and without an instantiation argument. *)
Record plain_data (D : ReaderCallTargetData) (Info : CORINFO_CALL_INFO) (Method : Z) : Prop := {
  plain_info : CallInfo D = Some Info;
  plain_method : TargetMethodHandle D = Some Method;
  plain_this : HasThisPtr D = true;
  plain_calli : IsCallI D = false;
  plain_newobj : IsNewObj D = false;
  plain_jmp : IsJmp D = false;
  plain_vararg : Signatures.sigIsVarArg (SigInfo D) = false;
  plain_typearg : Signatures.sigHasTypeArg (SigInfo D) = false;
  plain_conv : Signatures.callConv (SigInfo D) = Signatures.CORINFO_CALLCONV_DEFAULT;
  plain_transform : thisTransform Info = CORINFO_NO_THIS_TRANSFORM;
  plain_check : NeedsNullCheck D = false;
  plain_cell : IndirectionCellNode D = None
}.

(** The types of the arguments of such a call. *)
Definition plain_types (D : ReaderCallTargetData) : list Signatures.CallArgType :=
  Signatures.this_type (getClassHandle D) ::
  Signatures.il_types (SigInfo D) (Signatures.numArgs (SigInfo D)) (Signatures.args (SigInfo D)).

Definition plain_result (D : ReaderCallTargetData) : Signatures.CallArgType :=
  Signatures.MkCallArgType (Signatures.retType (SigInfo D)) (Signatures.retTypeClass (SigInfo D)).

Lemma wp_callArguments (D : ReaderCallTargetData) (Info : CORINFO_CALL_INFO) (Method : Z)
    (This : Operand) (Pushed Rest : list Operand) (s : state) Q :
  plain_data D Info Method -> length Pushed = Signatures.numArgs (SigInfo D) ->
  Q (plain_types D, This :: Pushed, None, Rest, D) s ->
  wp (callArguments native instParam thisObj Inlining D (reverse (This :: Pushed) ++ Rest)) s Q.
Proof.
  intros P Hlen HQ. unfold callArguments. set (D0 := call_data D None no_node).
  destruct P as [HI HM HT Hci Hno Hj Hv Hta Hcc Htr Hck Hcell].
  assert (H2 : Signatures.callHasTypeArg D0 = false).
  { unfold Signatures.callHasTypeArg. subst D0. cbn. by rewrite Hta. }
  assert (Hn : (0 <? Signatures.TotalArgs D0)%nat = true).
  { unfold Signatures.TotalArgs. subst D0. cbn. by rewrite HT. }
  rewrite Hn. apply wp_bind. eapply wp_lift.
  { apply Signatures.call_types_spec; [exact Hv|]. subst D0. cbn. by rewrite HM. }
  apply wp_bind. unfold typeContext. fold D0. rewrite H2. apply wp_ret.
  apply wp_bind. eapply wp_lift.
  { apply (Signatures.pop_arguments_spec D0 [This] Pushed Rest); [exact Hv|by rewrite H2| |done|].
    - subst D0. cbn. by rewrite Hno.
    - subst D0. cbn. by rewrite HT, Hno. }
  assert (HF : Signatures.FirstArgNum D0 = 0%nat).
  { unfold Signatures.FirstArgNum. subst D0. cbn. by rewrite Hno. }
  unfold Signatures.call_values. rewrite HF, H2, HT. cbn [replicate app fmap list_fmap].
  apply wp_bind. unfold thisArgument. rewrite Hno. apply wp_bind. eapply wp_lift; [reflexivity|].
  apply wp_bind. unfold applyThisTransform. rewrite HT, HI, Htr. apply wp_bind, wp_assert; [done|].
  apply wp_ret, wp_ret, wp_bind. eapply wp_lift.
  { unfold Signatures.this_argument. cbn. rewrite HT, Hno. cbn. reflexivity. }
  apply wp_bind. eapply wp_lift.
  { exact (ABISignatures.mapM_id_some (This :: Pushed)). }
  apply wp_ret. subst D0. unfold plain_types in HQ. exact HQ.
Qed.

Lemma wp_rdrCall (D : ReaderCallTargetData) (LoadFtn : option (ResolvedToken * option Z))
    (Info : CORINFO_CALL_INFO) (Method : Z) (E : Ty) (A a t : Z) (cell : option Z) (This : Value)
    (Pushed Rest : list Operand) (vs : list (RVal FP)) (r : RVal FP) (s : state) Q :
  plain_data D Info Method -> wf s -> isReadyToRun = false -> callsiteCallout Info = None ->
  FLG_INTRINSIC (TargetMethodAttribs D) = false ->
  FLG_DELEGATE_INVOKE (TargetMethodAttribs D) = false ->
  doSimd && isInSIMDModule (getClassHandle D) = false ->
  IRBuilder.getType This = PointerTy E A -> has s This (RInt a) -> 0 <= a < 2 ^ native ->
  length Pushed = Signatures.numArgs (SigInfo D) ->
  Forall2 (fun o r => has s o.1 r) Pushed vs ->
  Forall2 (passed_as_is (native := native)) ((This, false) :: Pushed) (plain_types D) ->
  returned_as_is (native := native) (plain_result D) ->
  runtime_ok (native := native) Info Method a ->
  (is_virtual Info && (a =? 0) = false -> call_target native Info Method a = Some (t, cell)) ->
  (null_checked Info && (a =? 0) = false ->
     callee t ((match cell with Some c => [RInt c] | None => [] end) ++ RInt a :: vs) = Returns r) ->
  (forall v b D' s', wf s' -> ext s s' ->
     stop s' = check (negb (null_checked Info && (a =? 0))) CORINFO_HELP_THROWNULLREF (stop s) ->
     has s' v r ->
     Q (MkCallResult (Some (v, b)) Rest D' (FLG_SECURITYCHECK (TargetMethodAttribs D))) s') ->
  wp (rdrCall native instParam thisObj Inlining doSimd Win64 secretParam IndirectArg fuel D LoadFtn
        (reverse ((This, false) :: Pushed) ++ Rest)) s Q.
Proof.
  intros P Hw Hrtr Hcall Hintr Hdel Hsimd HT HThis Ha Hlen Hvs Htypes Hret Hok Htarget Hcallee HQ.
  pose proof P as [HI HM HTh Hci Hno Hj Hv Hta Hcc Htr Hck Hcell].
  unfold rdrCall. rewrite Hci. apply wp_bind. eapply wp_lift; [exact HI|].
  rewrite Hcall. apply wp_bind, wp_ret. apply wp_bind. unfold tryIntrinsic. rewrite Hintr.
  apply wp_ret. cbn [declined]. apply wp_bind. unfold trySIMD. rewrite Hsimd. apply wp_ret.
  apply wp_bind. unfold delegateConstruct, rdrCallIsDelegateConstruct. rewrite Hno.
  apply wp_bind, wp_ret. apply wp_ret. unfold emitCall. apply wp_bind.
  apply (wp_callArguments D Info Method (This, false) Pushed Rest); [done|done|].
  rewrite Hno, Hci. apply wp_bind, wp_ret, wp_bind, wp_ret. cbn [fmap option_fmap option_map head fst].
  set (cell' := if is_virtual Info then None else cell).
  assert (Hvirt : is_virtual Info = true -> null_checked Info = true).
  { unfold is_virtual, null_checked. by destruct (callKind Info). }
  assert (Hcells : is_virtual Info && (a =? 0) = false -> cell' = cell).
  { intros H. exact (virtual_has_no_cell native Info Method a t cell (Htarget H)). }
  apply wp_bind, wp_bind.
  apply (wp_makeCallTarget Hnative instParam thisObj Inlining D Info Method This E A a t cell');
    try done; [by intros H; rewrite (Hcells H); apply Htarget|by unfold cell'; intros ->|].
  intros N C s1 Hw1 He1 Hs1 HN HC. apply wp_ret, wp_bind. rewrite Hcc.
  eapply (wp_genCall _ _ N t a cell' This Pushed vs (plain_types D) (plain_result D) r); try done;
    [held| | |].
  - eapply Forall2_impl; [exact Hvs|]. intros o x Hx. cbn in *. held.
  - intros Hs Hnc. rewrite Hs1 in Hs. apply check_None in Hs as [Hne _].
    apply negb_true_iff in Hne. rewrite (Hcells Hne). apply Hcallee.
    destruct (is_virtual Info) eqn:HV; [by rewrite (Hvirt eq_refl)|]. exact Hnc.
  - intros v b s2 Hw2 He2 Hs2 Hv2. apply wp_bind, wp_ret. apply wp_ret, HQ; [done|reach| |done].
    rewrite Hs2, Hs1. cbn [NeedsNullCheck set_nodes]. destruct (is_virtual Info) eqn:HV; [|by destruct (stop s)].
    rewrite (Hvirt eq_refl), Hck. by destruct (a =? 0), (stop s).
Qed.
End rules.

(** Recorded code that ends in a state with a node. *)
Lemma outcome_wp {L : LLVM} (native : Z) (args : list (RVal FP)) (m : M CallResult)
    (o : option (Outcome FP)) (r : RVal FP) (Rest : list Operand) (b : bool) :
  wp native args m start (fun R s =>
    StackAfter R = Rest /\ SecurityCheck R = b /\ stop s = o /\
    exists N, ReturnNode R = Some N /\ has args s N.1 r) ->
  exists code R, m [] = Some (code, R) /\ StackAfter R = Rest /\ SecurityCheck R = b /\
    outcome native args code (ReturnNode R) = match o with Some o => o | None => Returns r end.
Proof.
  intros (code & R & Hm & HR & Hb & Ho & N & HN & Hv). exists code, R. split; [done|].
  split; [done|]. split; [done|]. unfold outcome. rewrite HN.
  unfold has, stop, registers, advance in *. simpl in *.
  destruct (exec native args code []) as [regs|o']; subst o; [|done]. by rewrite Hv.
Qed.

(** C6: A plain call of an instance method, from the operand stack to the
    function that is entered. Plain means: the arguments have the types the
    signature computes for them and the result is used as it is returned,
    neither converted nor void; the callee has the default convention, no
    variable arguments and no type argument; the target is direct, virtual or a
    stub, and neither an intrinsic, a delegate's Invoke, LDVIRTFTN, a code
    pointer nor a ReadyToRun import; [this] needs no transformation and the
    access no callout. Then [rdrCall] takes [this] and the arguments, and
    nothing else, from the operand stack; the emitted code throws
    NullReferenceException for a null object wherever the runtime asks for it
    or the virtual table of the object is read; and otherwise it enters the
    function that the entry point, the virtual table or the cell of the stub
    names, with the object and the arguments in the order they were pushed, and
    gives what that function returns. *)
Theorem rdrCall_correct {L : LLVM} (LS : LLVMLaws L) (native : Z) (RT : ReaderTypes)
    (OR : ObjectRuntime) (AR : ArrayRuntime) (FR : FieldRuntime) (CR : CallRuntime)
    (AlR : AllocRuntime) (SR : SIMDRuntime) (RR : RdrCallRuntime) (JI : Signatures.ICorJitInfo)
    (instParam thisObj : Value) (Inlining doSimd Win64 : bool) (secretParam : option Value)
    (IndirectArg : nat -> bool) (fuel : nat) (args : list (RVal FP)) (D : ReaderCallTargetData)
    (LoadFtn : option (ResolvedToken * option Z)) (Info : CORINFO_CALL_INFO) (Method : Z)
    (E : Ty) (A a t : Z) (cell : option Z) (Pushed Rest : list Operand) (vs : list (RVal FP))
    (r : RVal FP)
    (Hnative : native = 32 \/ native = 64) (P : plain_data D Info Method)
    (Hrtr : isReadyToRun = false) (Haccess : callsiteCallout Info = None)
    (Hintrinsic : FLG_INTRINSIC (TargetMethodAttribs D) = false)
    (Hdelegate : FLG_DELEGATE_INVOKE (TargetMethodAttribs D) = false)
    (Hsimd : doSimd && isInSIMDModule (getClassHandle D) = false)
    (Hthis : args !! 0%nat = Some (RInt a)) (Ha : 0 <= a < 2 ^ native)
    (Hlen : length Pushed = Signatures.numArgs (SigInfo D))
    (Hpushed : Forall2 (fun o r => exists n, def o.1 = Arg n /\ args !! n = Some r) Pushed vs)
    (Htypes : Forall2 (passed_as_is (native := native))
       ((MkValue (Arg 0) (PointerTy E A), false) :: Pushed) (plain_types D))
    (Hret : returned_as_is (native := native) (plain_result D))
    (Hok : runtime_ok (native := native) Info Method a)
    (Htarget : is_virtual Info && (a =? 0) = false ->
       call_target native Info Method a = Some (t, cell))
    (Hcallee : null_checked Info && (a =? 0) = false ->
       callee t ((match cell with Some c => [RInt c] | None => [] end) ++ RInt a :: vs) =
         Returns r) :
  exists code R,
    rdrCall native instParam thisObj Inlining doSimd Win64 secretParam IndirectArg fuel D LoadFtn
      (reverse ((MkValue (Arg 0) (PointerTy E A), false) :: Pushed) ++ Rest) [] = Some (code, R) /\
    StackAfter R = Rest /\ SecurityCheck R = FLG_SECURITYCHECK (TargetMethodAttribs D) /\
    outcome native args code (ReturnNode R) =
      if null_checked Info && (a =? 0) then Throws CORINFO_HELP_THROWNULLREF else Returns r.
Proof.
  pose proof (outcome_wp native args
    (rdrCall native instParam thisObj Inlining doSimd Win64 secretParam IndirectArg fuel D LoadFtn
      (reverse ((MkValue (Arg 0) (PointerTy E A), false) :: Pushed) ++ Rest))
    (check (negb (null_checked Info && (a =? 0))) CORINFO_HELP_THROWNULLREF None) r Rest
    (FLG_SECURITYCHECK (TargetMethodAttribs D))) as HW.
  destruct HW as (code & R & Hm & HR & Hb & Ho).
  - eapply (wp_rdrCall Hnative instParam thisObj Inlining doSimd Win64 secretParam IndirectArg fuel D
      LoadFtn Info Method E A a t cell _ Pushed Rest vs r); try done;
      [apply wf_start|by apply has_arg| |].
    + eapply Forall2_impl; [exact Hpushed|]. intros [[d T] b] x (n & Hd & Hx). cbn in *. subst d.
      by apply has_arg.
    + intros v b D' s' _ _ Hs Hv. split; [done|]. split; [done|]. split; [done|]. by exists (v, b).
  - exists code, R. split; [done|]. split; [done|]. split; [done|]. rewrite Ho.
    by destruct (null_checked Info && (a =? 0)).
Qed.

(** ** Intrinsics and the operand stack *)

(** How many operands the expansion of an intrinsic takes; an accessor of
    arrays takes the array and its arguments. *)
Definition intrinsic_operands (Id : CorInfoIntrinsics) (Sig : Signatures.CORINFO_SIG_INFO) : nat :=
  match Id with
  | Sqrt | Abs | StringLength | GetTypeFromHandle | RTH_GetValueInternal => 1
  | Array_GetDimLength | InterlockedXAdd32 | InterlockedXAdd64 | InterlockedXchg32
  | InterlockedXchg64 | StringGetChar => 2
  | InterlockedCmpXchg32 | InterlockedCmpXchg64 => 3
  | Array_Get | Array_Address | Array_Set => S (Signatures.numArgs Sig)
  | _ => 0
  end.

(** The operands are gone where there is an expansion, and all there otherwise. *)
Definition operands_taken (n : nat) (Stack : list Operand) (r : Expansion) : Prop :=
  match r.1 with
  | Some _ => (n <= length Stack)%nat /\ r.2 = drop n Stack
  | None => r.2 = Stack
  end.

Section intrinsics.
Context {native : Z} {RT : ReaderTypes} {OR : ObjectRuntime} {AR : ArrayRuntime}.
Context {JI : Signatures.ICorJitInfo}.

Lemma pop_operand_Some (Stack : list Operand) (s s' : list Instr) (v : Operand) Stack' :
  pop_operand Stack s = Some (s', (v, Stack')) -> Stack = v :: Stack'.
Proof. destruct Stack as [|x Stack]; [done|]. by intros [= <- <- <-]. Qed.

Lemma or_restore_taken (m : M (option Value)) (Rest Back : list Operand) (n : nat)
    (s s' : list Instr) (r : Expansion) :
  or_restore m Rest Back s = Some (s', r) -> (n <= length Back)%nat -> Rest = drop n Back ->
  operands_taken n Back r.
Proof.
  intros HM Hn ->. apply bind_Some in HM as (s1 & [Node|] & _ & [= <- <-]); by unfold operands_taken.
Qed.

(** An expansion that never declines. *)
Lemma always_taken {A} (m : M A) (node : A -> Value) (Rest Stack : list Operand) (n : nat)
    (s s' : list Instr) (r : Expansion) :
  (let* Node := m in ret (expanded (node Node) Rest)) s = Some (s', r) ->
  (n <= length Stack)%nat -> Rest = drop n Stack -> operands_taken n Stack r.
Proof. by intros (s1 & N & _ & [= <- <-])%bind_Some Hn ->. Qed.

Lemma pop_operands_length (n : nat) (Stack Popped l Rest : list Value) :
  pop_operands n Stack Popped = Some (l, Rest) ->
  length Stack = (n + length Rest)%nat.
Proof.
  revert Stack Popped. induction n as [|n IH]; intros Stack Popped HP; [by injection HP as _ ->|].
  destruct Stack as [|v Stack]; [done|]. cbn in HP. apply IH in HP. cbn. lia.
Qed.

Lemma lift_Some {A} (o : option A) (s s' : list Instr) (x : A) : lift o s = Some (s', x) -> o = Some x.
Proof. destruct o; [|done]. by intros [= <- <-]. Qed.

Lemma mdArrayRefAddr_length (Rank : nat) (T : Ty) (Stack Rest : list Value) (s s' : list Instr)
    (v : Value) :
  mdArrayRefAddr native Rank T Stack s = Some (s', (v, Rest)) ->
  length Stack = (S Rank + length Rest)%nat.
Proof.
  intros HM. apply bind_Some in HM as (s1 & [l1 R1] & HP1%lift_Some%pop_operands_length & HM).
  apply bind_Some in HM as (s2 & [l2 R2] & HP2%lift_Some%pop_operands_length & HM).
  repeat (apply bind_Some in HM as (? & ? & _ & HM)). injection HM as _ _ <-. lia.
Qed.

(** The rank of an accessor is the number of its indices. *)
Lemma expanded_rank (Sig : AccessorSig) (IsStore IsLoadAddr : bool) (Rank : nat) (C : CorInfoType)
    (T : Ty) :
  Z.of_nat (length (sigArgs Sig)) < 2 ^ 16 ->
  canExpandMDArrayRef Sig IsStore IsLoadAddr = Some (Some (Rank, C, T)) ->
  (Rank + Z.to_nat (Z.b2z IsStore))%nat = length (sigArgs Sig).
Proof.
  intros Hl. unfold canExpandMDArrayRef.
  set (z := if IsStore then _ else _). destruct ((ArrayIntrinMaxRank <? wrap 32 z) || (wrap 32 z <=? 1)) eqn:HR; [done|].
  apply orb_false_iff in HR as [HR1%Z.ltb_ge HR2%Z.leb_gt].
  destruct (accessor_element _ _ _) as [[C' Class]|]; [|done]. cbn [mbind option_bind].
  case_bool_decide; [done|].
  destruct (match C' with CORINFO_TYPE_BYREF => _ | _ => _ end) as [GC GCClass].
  destruct (_ && _); [done|]. destruct (getTypeOfClass _ _); [|done]. cbn [mbind option_bind].
  intros [= <- _ _]. subst z. destruct IsStore; cbn [Z.b2z].
  - destruct (length (sigArgs Sig)) as [|k] eqn:Ek.
    { exfalso. change (wrap 32 (Z.of_nat 0 - 1)) with (2 ^ 32 - 1) in HR1. revert HR1. by vm_compute. }
    rewrite wrap_small by lia. lia.
  - rewrite wrap_small by lia. lia.
Qed.

Lemma length_accessor_args (Sig : Signatures.CORINFO_SIG_INFO) (n : nat) (Args : Z) :
  length (accessor_args Sig n Args) = n.
Proof. revert Args. induction n as [|n IH]; intros Args; [done|]. cbn. by rewrite IH. Qed.

(** What is left on the node stack is what is left on the operand stack. *)
Lemma rest_taken (Stack : list Operand) (Rest : list Value) (n : nat) :
  length (fst <$> Stack) = (n + length Rest)%nat ->
  (n <= length Stack)%nat /\ drop (length Stack - length Rest) Stack = drop n Stack.
Proof. rewrite length_fmap. unfold Operand in *. intros H. split; [lia|]. f_equal. lia. Qed.

Lemma accessor_taken (m : list Value -> M (option (Value * list Value))) (Stack : list Operand)
    (n : nat) (s s' : list Instr) (r : Expansion) :
  (forall l s s' v Rest, m l s = Some (s', Some (v, Rest)) -> length l = (n + length Rest)%nat) ->
  accessor m Stack s = Some (s', r) -> operands_taken n Stack r.
Proof.
  intros Hm HM. apply bind_Some in HM as (s1 & [[v Rest]|] & HM & [= <- <-]); [|done].
  apply Hm in HM. by apply rest_taken.
Qed.

Lemma arrayGet_length (Sig : AccessorSig) (l Rest : list Value) (v : Value) (s s' : list Instr) :
  Z.of_nat (length (sigArgs Sig)) < 2 ^ 16 ->
  arrayGet native Sig l s = Some (s', Some (v, Rest)) ->
  length l = (S (length (sigArgs Sig)) + length Rest)%nat.
Proof.
  intros Hn HM. apply bind_Some in HM as (s1 & [[[Rank C] T]|] & HE%lift_Some & HM); [|done].
  apply expanded_rank in HE; [|done]. cbn in HE.
  apply bind_Some in HM as (s2 & [A R] & HA%mdArrayRefAddr_length & HM).
  repeat (apply bind_Some in HM as (? & ? & _ & HM)). injection HM as _ _ <-. lia.
Qed.

Lemma arrayAddress_length (Sig : AccessorSig) (l Rest : list Value) (v : Value) (s s' : list Instr) :
  Z.of_nat (length (sigArgs Sig)) < 2 ^ 16 ->
  arrayAddress native Sig l s = Some (s', Some (v, Rest)) ->
  length l = (S (length (sigArgs Sig)) + length Rest)%nat.
Proof.
  intros Hn HM. apply bind_Some in HM as (s1 & [[[Rank C] T]|] & HE%lift_Some & HM); [|done].
  apply expanded_rank in HE; [|done]. cbn in HE.
  apply bind_Some in HM as (s2 & [A R] & HA%mdArrayRefAddr_length & HM). injection HM as _ _ <-. lia.
Qed.

Lemma arraySet_length (fuel : nat) (Sig : AccessorSig) (l Rest : list Value) (s s' : list Instr) :
  Z.of_nat (length (sigArgs Sig)) < 2 ^ 16 ->
  arraySet native fuel Sig l s = Some (s', Some Rest) ->
  length l = (S (length (sigArgs Sig)) + length Rest)%nat.
Proof.
  intros Hn HM. apply bind_Some in HM as (s1 & [[[Rank C] T]|] & HE%lift_Some & HM); [|done].
  apply expanded_rank in HE; [|done]. cbn in HE.
  apply bind_Some in HM as (s2 & [l1 R1] & HP%lift_Some%pop_operands_length & HM).
  apply bind_Some in HM as (s3 & v & _ & HM). apply bind_Some in HM as (s4 & [v' b] & _ & HM).
  apply bind_Some in HM as (s5 & [A R] & HA%mdArrayRefAddr_length & HM).
  apply bind_Some in HM as (s6 & u & _ & HM). injection HM as _ <-. lia.
Qed.
End intrinsics.

(** C7: Intrinsics and the operand stack: an intrinsic that is expanded has taken
    exactly the operands of the call it replaces, and one that is not, whatever
    code was tried, has left the operand stack as it was for the call. *)
Theorem intrinsic_keeps_stack (native : Z) (RT : ReaderTypes) (OR : ObjectRuntime)
    (AR : ArrayRuntime) (JI : Signatures.ICorJitInfo) (Win64 : bool) (secretParam : option Value)
    (fuel : nat) (Id : CorInfoIntrinsics) (Sig : Signatures.CORINFO_SIG_INFO)
    (Stack : list Operand) (s s' : list Instr) (r : Expansion)
    (Hargs : Z.of_nat (Signatures.numArgs Sig) < 2 ^ 16)
    (HE : expandIntrinsic native Win64 secretParam fuel Id Sig Stack s = Some (s', r)) :
  operands_taken (intrinsic_operands Id Sig) Stack r.
Proof.
  assert (HS : length (sigArgs (accessor_sig Sig)) = Signatures.numArgs Sig)
    by apply length_accessor_args.
  destruct Id; cbn [expandIntrinsic intrinsic_operands] in *;
    repeat match goal with
    | H : bind (pop_operand _) _ _ = Some _ |- _ =>
        apply bind_Some in H as (? & [? ?] & ->%pop_operand_Some & H)
    end;
    try (by injection HE as <- <-);
    try (eapply or_restore_taken; [exact HE|cbn; lia|done]);
    try (eapply always_taken; [exact HE|cbn; lia|done]).
  - by apply bind_Some in HE as (s1 & u & _ & [= <- <-]); split; [lia|].
  - eapply accessor_taken; [|exact HE]. intros l s0 s1 v Rest H. rewrite <- HS.
    by apply arrayGet_length in H; [|rewrite HS].
  - eapply accessor_taken; [|exact HE]. intros l s0 s1 v Rest H. rewrite <- HS.
    by apply arrayAddress_length in H; [|rewrite HS].
  - apply bind_Some in HE as (s1 & [Rest|] & HM & [= <- <-]); [|done].
    apply arraySet_length in HM; [|by rewrite HS]. rewrite HS in HM. by apply rest_taken.
  - destruct Win64; [|by injection HE as <- <-].
    apply bind_Some in HE as (s1 & N & _ & HE).
    eapply always_taken; [exact HE|lia|done].
Qed.

(** ** A runtime: one virtual method with one integer argument *)

#[local] Instance PlainArgs : Signatures.ICorJitInfo := {|
  Signatures.getArgNext := Z.succ;
  Signatures.getArgType := fun _ _ => Signatures.MkTypeWithMod CORINFO_TYPE_INT false;
  Signatures.getArgClass := fun _ _ => None;
  Signatures.typedByRefClass := None;
  Signatures.argumentHandleClass := None;
  Signatures.systemObjectClass := None;
  Signatures.valueClassAttrib := fun _ => false;
  Signatures.isValueClass := fun _ => false
|}.

#[local] Instance PlainAlloc : AllocRuntime := {|
  getNewHelper := fun _ => CORINFO_HELP_OF_RUNTIME 1;
  getNewArrHelper := fun _ => CORINFO_HELP_OF_RUNTIME 2;
  getBoxHelper := fun _ => CORINFO_HELP_OF_RUNTIME 3;
  getUnBoxHelper := fun _ => CORINFO_HELP_UNBOX;
  getCastingHelper := fun _ _ => CORINFO_HELP_CHKCASTCLASS;
  getBoxedType := fun _ => None;
  getTokenTypeAsHandle := fun _ => 0;
  hasMethod := fun _ => false;
  canAccessClass := fun _ => None;
  TypedByRefClass := 0;
  TypeHandleClass := 0;
  getLocationOfThisType := None;
  getMethodSync := (0, false);
  CurrentMethod := 1;
  CurrentClass := 1;
  CurrentAttribs := no_flags
|}.

#[local] Instance PlainCalls : RdrCallRuntime := {|
  getIntrinsicID := fun _ => None;
  isInSIMDModule := fun _ => false;
  getMethodName := fun _ => EmptyString;
  GetDelegateCtor := fun m _ _ => (m, (None, None, None));
  RdrCall.inferThisClass := fun _ => None;
  canTailCall := fun _ _ _ => true;
  canInlineSelf := true
|}.

#[local] Instance PlainArrays : ArrayRuntime := {|
  TypedByrefClass := None;
  getChildType := fun _ => (CORINFO_TYPE_UNDEF, None);
  isFinalClass := fun _ => false
|}.

(** callvirt on the object at 1000 with the argument 3, above one other value
    on the operand stack. *)
Lemma rdrCall_correct_witness :
  let This := MkValue (Arg 0) (PointerTy (IntegerTy 8) ManagedAddressSpace) in
  let ArgNode := MkValue (Arg 1) (IntegerTy 32) in
  let Below := (MkValue (Const 9) (IntegerTy 32), false) in
  exists code R,
    rdrCall (H := ObjectReader) (H0 := ObjectClasses) (H2 := ObjectFields) (H3 := ObjectCalls)
      (H5 := ByteVectors) 64 (MkValue (Const 0) (IntegerTy 64)) (MkValue (Const 0) (IntegerTy 64))
      false true false None (fun _ => false) 3 virtual_call None
      [(ArgNode, false); (This, false); Below] [] = Some (code, R) /\
    StackAfter R = [Below] /\
    outcome (L := call_memory) 64 [RInt 1000; RInt 3] code (ReturnNode R) = Returns (RInt 777).
Proof.
  cbv zeta.
  destruct (rdrCall_correct (L := call_memory) (DemoMemory_laws _ _ _) 64 ObjectReader
    ObjectClasses PlainArrays ObjectFields ObjectCalls PlainAlloc ByteVectors PlainCalls PlainArgs
    (MkValue (Const 0) (IntegerTy 64)) (MkValue (Const 0) (IntegerTy 64)) false true false None
    (fun _ => false) 3 [RInt 1000; RInt 3] virtual_call None
    (plain_call CORINFO_VIRTUALCALL_VTABLE) 5 (IntegerTy 8) ManagedAddressSpace 1000 777 None
    [(MkValue (Arg 1) (IntegerTy 32), false)] [(MkValue (Const 9) (IntegerTy 32), false)] [RInt 3]
    (RInt 777)) as (code & R & Hm & HS & _ & Ho); try done.
  - by right.
  - constructor; [by exists 1%nat|done].
  - repeat constructor; eexists; by split.
  - split; [done|]. eexists. split; [done|]. intros v l HT. unfold convertToStackType.
    by rewrite HT.
  - split; [done|]. split; [done|]. intros _ vt [= <-]. by exists 512, 64.
  - exists code, R. split; [exact Hm|]. split; [exact HS|exact Ho].
Defined.

(** Sqrt of an integer is not expanded; of a double it is. *)
Lemma intrinsic_keeps_stack_witness :
  let k := (MkValue (Arg 0) (IntegerTy 32), false) in
  let x := (MkValue (Arg 1) DoubleTy, false) in
  operands_taken 1 [k; x] (None, [k; x]) /\
  operands_taken 1 [x; k] (Some (Some (MkValue (Reg 0) DoubleTy, false)), [k]).
Proof.
  cbv zeta. split.
  - refine (intrinsic_keeps_stack 64 ObjectReader ObjectClasses PlainArrays PlainArgs true None 3 Sqrt
      plain_signature _ [] [] _ _ _); [done|by vm_compute].
  - refine (intrinsic_keeps_stack 64 ObjectReader ObjectClasses PlainArrays PlainArgs true None 3 Sqrt
      plain_signature _ [] [VectorUnary sqrt (MkValue (Arg 1) DoubleTy)] _ _ _); [done|by vm_compute].
Defined.
