(* ===== verification/GcInfo.v ===== *)
(** * GC information (lib/GcInfo/GcInfo.cpp, include/GcInfo/GcInfo.h)

    Which stack slots hold GC pointers.  The reader records the special
    allocations of a function ([GcFuncInfo]), a pass of the code generator adds
    their frame offsets ([runOnMachineFunction]), and the emitter turns these
    records and LLVM's stack map into calls of the runtime's encoder, which are
    kept in a log.  The theorems are in [GcInfoRules]. *)

From S2P Require Import Prelude TypeLayout.
Import TypeLayout.

Module GcInfo.

(** ** Allocations *)

Definition InvalidPointerOffset : Z := -1.

(** The bits of [AllocaFlags]. *)
Definition GcPointer : Z := 1.
Definition GcAggregate : Z := 2.
Definition GcValue : Z := Z.lor GcPointer GcAggregate.
Definition Pinned : Z := 4.
Definition GsCookie : Z := 8.
Definition SecurityObject : Z := 16.
Definition GenericsContext : Z := 32.

Record AllocaInfo := MkAllocaInfo { Offset : Z; Flags : Z }.

Definition has_flag (I : AllocaInfo) (F : Z) : bool := negb (Z.land (Flags I) F =? 0).

Definition isGcPointerInfo (I : AllocaInfo) : bool := has_flag I GcPointer.
Definition isGcAggregateInfo (I : AllocaInfo) : bool := has_flag I GcAggregate.
Definition isGcValue (I : AllocaInfo) : bool := has_flag I GcValue.
Definition isPinned (I : AllocaInfo) : bool := has_flag I Pinned.

Inductive AllocTypeString : Set :=
  | GS_Cookie | GenericsContextThis | GenericsContextTypeArg | SecurityObjectString
  | GcPointerString | GcAggregateString.

(** [None]: an unexpected combination of flags. *)
Definition getAllocTypeString (I : AllocaInfo) : option AllocTypeString :=
  if has_flag I GsCookie then Some GS_Cookie
  else if has_flag I GenericsContext then
    Some (if has_flag I GcPointer then GenericsContextThis else GenericsContextTypeArg)
  else if has_flag I SecurityObject then Some SecurityObjectString
  else if has_flag I GcPointer then Some GcPointerString
  else if has_flag I GcAggregate then Some GcAggregateString
  else None.

Inductive GENERIC_CONTEXTPARAM_TYPE : Set :=
  | GENERIC_CONTEXTPARAM_NONE | GENERIC_CONTEXTPARAM_THIS | GENERIC_CONTEXTPARAM_MT
  | GENERIC_CONTEXTPARAM_MD.

#[export] Instance param_type_eq_dec : EqDecision GENERIC_CONTEXTPARAM_TYPE.
Proof. solve_decision. Defined.

(** What the emitter asks of an LLVM function. *)
Record LFunction := MkFunction {
  isDeclaration : bool;
  getGC : option string;
  NoFramePointerElim : string;
  isVarArg : bool
}.

Record GcFuncInfo := MkGcFuncInfo {
  Function : LFunction;
  AllocaMap : gmap Z AllocaInfo;
  GsCkValidRangeStart : Z;
  GsCkValidRangeEnd : Z;
  GenericsContextParamType : GENERIC_CONTEXTPARAM_TYPE;
  PSPSymOffset : Z;
  HasFunclets : bool
}.

(** The constructor of [GcFuncInfo]. *)
Definition newGcFuncInfo (F : LFunction) : GcFuncInfo :=
  MkGcFuncInfo F ∅ 0 0 GENERIC_CONTEXTPARAM_NONE 0 false.

Definition set_allocas (I : GcFuncInfo) (M : gmap Z AllocaInfo) : GcFuncInfo :=
  MkGcFuncInfo (Function I) M (GsCkValidRangeStart I) (GsCkValidRangeEnd I)
    (GenericsContextParamType I) (PSPSymOffset I) (HasFunclets I).

(** The map from functions to their records; a function has one record. *)
Definition newGcInfo (GcInfoMap : gmap Z GcFuncInfo) (F : Z) (Facts : LFunction) :
    option (gmap Z GcFuncInfo) :=
  _ ← assert (bool_decide (GcInfoMap !! F = None));
  Some (<[F := newGcFuncInfo Facts]> GcInfoMap).

Definition getGcInfo (GcInfoMap : gmap Z GcFuncInfo) (F : Z) : option GcFuncInfo := GcInfoMap !! F.

Definition isGcFunction (F : LFunction) : bool :=
  match getGC F with Some GC => bool_decide (GC = "coreclr"%string) | None => false end.

Definition isFPBasedFunction (F : LFunction) : bool :=
  bool_decide (NoFramePointerElim F = "true"%string).

Section record.
(** The type of an allocation, which the code reads from the instruction. *)
Variable getAllocatedType : Z -> LTy.

Definition isGcAllocation (Alloca : Z) : bool := isGcType (getAllocatedType Alloca).

Definition hasRecord (I : GcFuncInfo) (Alloca : Z) : bool :=
  bool_decide (is_Some (AllocaMap I !! Alloca)).

Definition recordAlloca (I : GcFuncInfo) (Alloca : Z) : option GcFuncInfo :=
  _ ← assert (negb (hasRecord I Alloca));
  let T := getAllocatedType Alloca in
  let Flags :=
    if isGcPointer T then GcPointer else if isGcAggregate T then GcAggregate else 0 in
  Some (set_allocas I (<[Alloca := MkAllocaInfo InvalidPointerOffset Flags]> (AllocaMap I))).

Definition recordGcAlloca (I : GcFuncInfo) (Alloca : Z) : option GcFuncInfo :=
  I ← recordAlloca I Alloca;
  Info ← AllocaMap I !! Alloca;
  _ ← assert (isGcValue Info);
  Some I.

(** [markGcAlloca] and [markNonGcAlloca], which differ in what they expect. *)
Definition mark_alloca (IsGc : bool) (I : GcFuncInfo) (Alloca F : Z) : option GcFuncInfo :=
  _ ← assert (Bool.eqb (isGcAllocation Alloca) IsGc);
  Info ← AllocaMap I !! Alloca;
  _ ← assert (Bool.eqb (isGcValue Info) IsGc);
  _ ← assert (Offset Info =? InvalidPointerOffset);
  Some (set_allocas I (<[Alloca := MkAllocaInfo (Offset Info) (Z.lor (Flags Info) F)]> (AllocaMap I))).

Definition markGcAlloca : GcFuncInfo -> Z -> Z -> option GcFuncInfo := mark_alloca true.
Definition markNonGcAlloca : GcFuncInfo -> Z -> Z -> option GcFuncInfo := mark_alloca false.

Definition recordPinned (I : GcFuncInfo) (Alloca : Z) : option GcFuncInfo :=
  markGcAlloca I Alloca Pinned.

Definition recordSecurityObject (I : GcFuncInfo) (Alloca : Z) : option GcFuncInfo :=
  markGcAlloca I Alloca SecurityObject.

Definition recordGenericsContext (I : GcFuncInfo) (Alloca : Z) (ParamType : GENERIC_CONTEXTPARAM_TYPE) :
    option GcFuncInfo :=
  I ← (if bool_decide (ParamType = GENERIC_CONTEXTPARAM_THIS)
       then markGcAlloca I Alloca GenericsContext
       else I ← recordAlloca I Alloca; markNonGcAlloca I Alloca GenericsContext);
  Some (MkGcFuncInfo (Function I) (AllocaMap I) (GsCkValidRangeStart I) (GsCkValidRangeEnd I)
          ParamType (PSPSymOffset I) (HasFunclets I)).

(** [recordGsCookie] starts with a failing assertion; [NDEBUG] is a build
    without assertions of that kind.  It marks the cookie as a security object. *)
Definition recordGsCookie (NDEBUG : bool) (I : GcFuncInfo) (Alloca : Z)
    (ValidRangeStart ValidRangeEnd : Z) : option GcFuncInfo :=
  _ ← assert NDEBUG;
  I ← recordAlloca I Alloca;
  I ← markNonGcAlloca I Alloca SecurityObject;
  Some (MkGcFuncInfo (Function I) (AllocaMap I) ValidRangeStart ValidRangeEnd
          (GenericsContextParamType I) (PSPSymOffset I) (HasFunclets I)).

(** The order in which a map of LLVM is traversed is not specified. *)
Variable traversal : gmap Z AllocaInfo -> list (Z * AllocaInfo).

Definition getEscapingLocations (I : GcFuncInfo) : list Z := fst <$> traversal (AllocaMap I).

(** [createAlloca] of readerir.cpp registers the GC values. *)
Definition createAlloca (I : GcFuncInfo) (Alloca : Z) : option GcFuncInfo :=
  if isGcAllocation Alloca then recordGcAlloca I Alloca else Some I.

(** ** Frame offsets *)

(** What the frame of the compiled function is: the objects with their
    allocation (if they have one) and their offset from the caller's stack
    pointer; [PSPSymOffsetFromSP] is the offset of the PSPSym of a function with
    funclets. *)
Record MachineFrame := MkMachineFrame {
  objects : list (option Z * Z);
  getStackSize : Z;
  getPointerSize : Z;
  PSPSymOffsetFromSP : option Z
}.

(** Allocations of the exception preparation that are spill slots; they may be
    unrecorded where handlers do not run. *)
Variable isWinehSpillSlot : Z -> bool.
Variables (ExecuteHandlers DoInsertStatepoints : bool).

(** One object of the frame. *)
Definition record_offset (SpOffset : Z) (M : gmap Z AllocaInfo) (Object : option Z * Z) :
    option (gmap Z AllocaInfo) :=
  match Object.1 with
  | None => Some M
  | Some Alloca =>
      match M !! Alloca with
      | Some Info =>
          let SlotOffset := s32 (u64 (SpOffset + Object.2)) in
          _ ← assert (0 <=? SlotOffset);
          _ ← assert (Offset Info =? InvalidPointerOffset);
          let Info := MkAllocaInfo SlotOffset (Flags Info) in
          _ ← assert (if isGcAggregateInfo Info
                      then match getAllocatedType Alloca with LStruct _ _ => true | _ => false end
                      else if isGcPointerInfo Info then isGcPointer (getAllocatedType Alloca)
                      else negb (isGcAllocation Alloca));
          Some (<[Alloca := Info]> M)
      | None =>
          _ ← assert (if isGcAllocation Alloca then
                        isWinehSpillSlot Alloca && negb (isGcAggregate (getAllocatedType Alloca)) &&
                        negb (ExecuteHandlers && DoInsertStatepoints)
                      else true);
          Some M
      end
  end.

Definition runOnMachineFunction (I : GcFuncInfo) (MF : MachineFrame) : option GcFuncInfo :=
  if isGcFunction (Function I) then
    let SpOffset := u64 (getStackSize MF + getPointerSize MF) in
    M ← foldM (record_offset SpOffset) (AllocaMap I) (objects MF);
    let I := set_allocas I M in
    match PSPSymOffsetFromSP MF with
    | Some PSPOffset =>
        _ ← assert (0 <=? PSPOffset);
        Some (MkGcFuncInfo (Function I) M (GsCkValidRangeStart I) (GsCkValidRangeEnd I)
                (GenericsContextParamType I) (u32 PSPOffset) true)
    | None => Some I
    end
  else Some I.
End record.

(** ** The encoder of the runtime *)

(** The flags of a slot, which is always relative to the stack pointer. *)
Record GcSlotFlags := MkSlotFlags { INTERIOR : bool; PINNED : bool; UNTRACKED : bool }.

Inductive GcSlotState : Set := GC_SLOT_DEAD | GC_SLOT_LIVE.

#[export] Instance slot_flags_eq_dec : EqDecision GcSlotFlags.
Proof. solve_decision. Defined.
#[export] Instance slot_state_eq_dec : EqDecision GcSlotState.
Proof. solve_decision. Defined.

Inductive EncoderCall : Set :=
  | SetWantsReportOnlyLeaf
  | SetPSPSymStackSlot (Slot : Z)
  | SetCodeLength (Length : Z)
  | SetStackBaseRegister
  | SetIsVarArg
  | SetSizeOfStackOutgoingAndScratchArea (Size : Z)
  | GetStackSlotId (SpOffset : Z) (SlotFlags : GcSlotFlags)
  | SetSlotState (InstructionOffset SlotID : Z) (State : GcSlotState)
  | FinalizeSlotIds
  | DefineCallSites (CallSites CallSiteSizes : list Z)
  | Build
  | Emit.

(** The number [GetStackSlotId] answers after the calls of a log. *)
Class GcInfoEncoder := { answer_GetStackSlotId : list EncoderCall -> Z -> GcSlotFlags -> Z }.

(** The platform's macros of the same meaning, and the stack pointer's DWARF
    number (include/GcInfo/Target.h). *)
Class GcTarget := {
  PARTIALLY_INTERRUPTIBLE_GC_SUPPORTED : bool;
  FIXED_STACK_PARAMETER_SCRATCH_AREA : bool;
  DW_STACK_POINTER : Z
}.

(** LLVM's stack map, as its parser gives it. *)
Inductive LocationKind : Set := Register | Direct | Indirect | Constant | ConstantIndex.

Record Location := MkLocation { getKind : LocationKind; getDwarfRegNum : Z; getOffset : Z }.
Record SafepointRecord := MkSafepoint { getInstructionOffset : Z; locations : list Location }.
Record StackMap := MkStackMap { getNumFunctions : Z; records : list SafepointRecord }.

(** ** The emitter *)

Record Emitter := MkEmitter {
  SlotMap : gmap Z Z;
  FirstTrackedSlot : Z;
  NumTrackedSlots : Z;
  CallSites : list Z;
  CallSiteSizes : list Z;
  Log : list EncoderCall
}.

(** The constructor of [GcInfoEmitter]. *)
Definition newEmitter : Emitter := MkEmitter ∅ 0 0 [] [] [].

Definition tell (E : Emitter) (Call : EncoderCall) : Emitter :=
  MkEmitter (SlotMap E) (FirstTrackedSlot E) (NumTrackedSlots E) (CallSites E) (CallSiteSizes E)
    (Log E ++ [Call]).

Definition hasSlot (E : Emitter) (SlotOffset : Z) : bool :=
  bool_decide (is_Some (SlotMap E !! SlotOffset)).

Definition isTrackedSlot (E : Emitter) (SlotID : Z) : bool :=
  (0 <? NumTrackedSlots E) && (FirstTrackedSlot E <=? SlotID) &&
  (SlotID <? FirstTrackedSlot E + NumTrackedSlots E).

Section emit.
Context `{GcInfoEncoder} `{GcTarget}.
Context `{DataLayout}.

Definition getSlot (E : Emitter) (SlotOffset : Z) (F : GcSlotFlags) : option (Emitter * Z) :=
  _ ← assert (negb (SlotOffset =? InvalidPointerOffset));
  _ ← assert (negb (hasSlot E SlotOffset));
  let SlotID := u32 (answer_GetStackSlotId (Log E) SlotOffset F) in
  let E := tell E (GetStackSlotId SlotOffset F) in
  let M := <[SlotOffset := SlotID]> (SlotMap E) in
  _ ← assert (SlotID =? u32 (Z.of_nat (size M) - 1));
  Some (MkEmitter M (FirstTrackedSlot E) (NumTrackedSlots E) (CallSites E) (CallSiteSizes E) (Log E),
        SlotID).

Definition ManagedPointerFlags : GcSlotFlags := MkSlotFlags true false false.

Definition getTrackedSlot (E : Emitter) (SlotOffset : Z) : option (Emitter * Z) :=
  '(E, SlotID) ← getSlot E SlotOffset ManagedPointerFlags;
  let Num := u64 (NumTrackedSlots E + 1) in
  Some (MkEmitter (SlotMap E) (if Num =? 1 then SlotID else FirstTrackedSlot E) Num
          (CallSites E) (CallSiteSizes E) (Log E), SlotID).

Definition UntrackedFlags (IsPinned IsObjectRef : bool) : GcSlotFlags :=
  if IsPinned then MkSlotFlags false true true
  else if negb IsObjectRef then MkSlotFlags true false true
  else MkSlotFlags false false true.

Definition getUntrackedSlot (E : Emitter) (SlotOffset : Z) (IsPinned IsObjectRef : bool) :
    option (Emitter * Z) :=
  getSlot E SlotOffset (UntrackedFlags IsPinned IsObjectRef).

(** *** Tracked pointers *)

Definition CallSiteSize : Z := 2.

(** The two sets of live slots, which have the same size. *)
Record LiveSets := MkLive { LiveBitSetSize : Z; OldLiveSet : list bool; NewLiveSet : list bool }.

Definition newLiveSets : LiveSets := MkLive 25 (replicate 25 false) (replicate 25 false).

(** [resize] of a bit vector: the new bits are clear. *)
Definition resize_bits (n : Z) (Bits : list bool) : list bool := resize (Z.to_nat n) false Bits.

(** An assignment to a bit; a bit outside the vector is an assertion of LLVM. *)
Definition set_bit (Bits : list bool) (i : Z) (b : bool) : option (list bool) :=
  _ ← assert (i <? Z.of_nat (length Bits));
  Some (<[Z.to_nat i := b]> Bits).

(** The slot of an offset, a new one unless it has one, with room for it. *)
Definition slot_of (E : Emitter) (L : LiveSets) (SlotOffset : Z) :
    option (Emitter * LiveSets * Z) :=
  match SlotMap E !! SlotOffset with
  | Some SlotID => Some (E, L, SlotID)
  | None =>
      '(E, SlotID) ← getTrackedSlot E SlotOffset;
      if LiveBitSetSize L <? Z.of_nat (size (SlotMap E)) then
        let n := u64 (LiveBitSetSize L + LiveBitSetSize L) in
        _ ← assert (Z.of_nat (length (OldLiveSet L)) <? n);
        Some (E, MkLive n (resize_bits n (OldLiveSet L)) (resize_bits n (NewLiveSet L)), SlotID)
      else Some (E, L, SlotID)
  end.

(** One location of a safepoint.  A pointer in a register, and every other kind
    of location, is a failed assertion. *)
Definition track_location (st : Emitter * LiveSets) (Loc : Location) :
    option (Emitter * LiveSets) :=
  match getKind Loc with
  | Constant | ConstantIndex => Some st
  | Register | Direct => None
  | Indirect =>
      _ ← assert (getDwarfRegNum Loc =? DW_STACK_POINTER);
      '(E, L, SlotID) ← slot_of st.1 st.2 (getOffset Loc);
      _ ← assert (isTrackedSlot E SlotID);
      New ← set_bit (NewLiveSet L) SlotID true;
      Some (E, MkLive (LiveBitSetSize L) (OldLiveSet L) New)
  end.

(** The births and deaths at a safepoint, for the slots from [SlotID] on. *)
Fixpoint report_states (n : nat) (SlotID : Z) (InstructionOffset : Z) (st : Emitter * LiveSets) :
    option (Emitter * LiveSets) :=
  match n with
  | O => Some st
  | S n =>
      let '(E, L) := st in
      Old ← OldLiveSet L !! Z.to_nat SlotID;
      New ← NewLiveSet L !! Z.to_nat SlotID;
      let E :=
        if negb Old && New then tell E (SetSlotState InstructionOffset SlotID GC_SLOT_LIVE)
        else if Old && negb New then tell E (SetSlotState InstructionOffset SlotID GC_SLOT_DEAD)
        else E in
      OldLiveSet' ← set_bit (OldLiveSet L) SlotID New;
      NewLiveSet' ← set_bit (NewLiveSet L) SlotID false;
      report_states n (SlotID + 1) InstructionOffset
        (E, MkLive (LiveBitSetSize L) OldLiveSet' NewLiveSet')
  end.

(** One record of the stack map. *)
Definition track_record (st : Emitter * LiveSets) (R : SafepointRecord) :
    option (Emitter * LiveSets) :=
  let InstructionOffset := u32 (getInstructionOffset R - CallSiteSize) in
  let '(E, L) := st in
  let E :=
    if PARTIALLY_INTERRUPTIBLE_GC_SUPPORTED
    then MkEmitter (SlotMap E) (FirstTrackedSlot E) (NumTrackedSlots E)
           (CallSites E ++ [InstructionOffset]) (CallSiteSizes E ++ [CallSiteSize]) (Log E)
    else E in
  '(E, L) ← foldM track_location (E, L) (locations R);
  report_states (size (SlotMap E)) 0 InstructionOffset (E, L).

Definition encodeTrackedPointers (E : Emitter) (Map : StackMap) : option Emitter :=
  _ ← assert (getNumFunctions Map =? 1);
  let E := MkEmitter (SlotMap E) (FirstTrackedSlot E) (NumTrackedSlots E) [] [] (Log E) in
  '(E, _) ← foldM track_record (E, newLiveSets) (records Map);
  Some E.

(** *** Untracked pointers *)

Variable getAllocatedType : Z -> LTy.
Variable traversal : gmap Z AllocaInfo -> list (Z * AllocaInfo).

Definition add_untracked (AggregateOffset : Z) (IsPinned : bool) (E : Emitter) (GcPtrOffset : Z) :
    option Emitter :=
  '(E, _) ← getUntrackedSlot E (s32 (u32 (AggregateOffset + GcPtrOffset))) IsPinned true;
  Some E.

Definition encodeGcAggregate (E : Emitter) (Alloca : Z) (Info : AllocaInfo) : option Emitter :=
  match getAllocatedType Alloca with
  | LStruct _ Body =>
      GcPtrOffsets ← getGcPointers Body;
      _ ← assert (negb (bool_decide (GcPtrOffsets = [])));
      foldM (add_untracked (Offset Info) (isPinned Info)) E GcPtrOffsets
  | _ => None
  end.

(** One allocation; cookies, contexts and security objects are not reported. *)
Definition encode_alloca (E : Emitter) (Entry : Z * AllocaInfo) : option Emitter :=
  let '(Alloca, Info) := Entry in
  _ ← assert (negb (Offset Info =? InvalidPointerOffset));
  if isGcAggregateInfo Info then encodeGcAggregate E Alloca Info
  else if isGcPointerInfo Info then
    '(E, _) ← getUntrackedSlot E (Offset Info) (isPinned Info) false; Some E
  else Some E.

Definition encodeUntrackedPointers (E : Emitter) (I : GcFuncInfo) : option Emitter :=
  foldM encode_alloca E (traversal (AllocaMap I)).

(** *** A function *)

Variable HotCodeSize : Z.
Variable DoInsertStatepoints : bool.

Definition encodeHeader (E : Emitter) (I : GcFuncInfo) : Emitter :=
  let F := Function I in
  let E :=
    if HasFunclets I then tell (tell E SetWantsReportOnlyLeaf) (SetPSPSymStackSlot (PSPSymOffset I))
    else E in
  let E := tell E (SetCodeLength HotCodeSize) in
  let E := if isFPBasedFunction F then tell E SetStackBaseRegister else E in
  let E := if isVarArg F then tell E SetIsVarArg else E in
  if FIXED_STACK_PARAMETER_SCRATCH_AREA then tell E (SetSizeOfStackOutgoingAndScratchArea 0) else E.

Definition finalizeEncoding (E : Emitter) : option Emitter :=
  let E := tell E FinalizeSlotIds in
  if PARTIALLY_INTERRUPTIBLE_GC_SUPPORTED then
    _ ← assert (0 <? Z.of_nat (length (CallSites E)));
    Some (tell E (DefineCallSites (CallSites E) (CallSiteSizes E)))
  else Some E.

Definition emitEncoding (E : Emitter) : Emitter := tell (tell E Build) Emit.

Definition needsGCInfo (F : LFunction) : bool := negb (isDeclaration F) && isGcFunction F.

Definition needsPointerReporting (StackMapData : option StackMap) : bool :=
  DoInsertStatepoints && match StackMapData with Some _ => true | None => false end.

(** [emitGCInfo] of one function. *)
Definition emitFunction (StackMapData : option StackMap) (E : Emitter) (I : GcFuncInfo) :
    option Emitter :=
  let E := encodeHeader E I in
  E ← match StackMapData with
      | Some Map =>
          if needsPointerReporting StackMapData then
            E ← encodeTrackedPointers E Map;
            E ← encodeUntrackedPointers E I;
            finalizeEncoding E
          else Some E
      | None => Some E
      end;
  Some (emitEncoding E).

(** [emitGCInfo] of the module: the functions in the order of their map. *)
Definition emitGCInfo (StackMapData : option StackMap) (E : Emitter) (Functions : list GcFuncInfo) :
    option Emitter :=
  foldM (fun E I => if needsGCInfo (Function I) then emitFunction StackMapData E I else Some E)
    E Functions.
End emit.

(** ** What the encoder was told *)

(** The slots in the order of their numbers. *)
Definition slots (log : list EncoderCall) : list (Z * GcSlotFlags) :=
  omap (fun c => match c with GetStackSlotId o f => Some (o, f) | _ => None end) log.

(** The state of a slot at an offset of the code: that of the last call about it
    which is not behind that offset. *)
Definition state_step (ip SlotID : Z) (live : bool) (Call : EncoderCall) : bool :=
  match Call with
  | SetSlotState o i s =>
      if (o <=? ip) && (i =? SlotID) then bool_decide (s = GC_SLOT_LIVE) else live
  | _ => live
  end.

Definition slot_live (log : list EncoderCall) (ip SlotID : Z) : bool :=
  foldl (state_step ip SlotID) false log.

(** The frame offsets that are reported as GC pointers at an offset of the code:
    the untracked slots, and the tracked ones that are live. *)
Definition reported (log : list EncoderCall) (ip o : Z) : Prop :=
  exists i f, slots log !! i = Some (o, f) /\
    (UNTRACKED f = true \/ slot_live log ip (Z.of_nat i) = true).

(** The encoder numbers slots in the order they are asked for. *)
Definition consecutive_ids (GE : GcInfoEncoder) : Prop :=
  forall log o f, answer_GetStackSlotId log o f = Z.of_nat (length (slots log)).
End GcInfo.
