(* ===== verification/GcInfoRules.v ===== *)
(** * What the GC information says

    The records of the allocations agree with their types, and the calls the
    emitter makes describe, at every safepoint, exactly the slots that hold GC
    pointers there. *)

From S2P Require Import Prelude TypeLayout GcInfo.
Import TypeLayout GcInfo.

(** ** The records of allocations *)

Section recorded.
Variable getAllocatedType : Z -> LTy.

(** The GC flags of an allocation are those of its type. *)
Definition agrees (Alloca : Z) (Info : AllocaInfo) : Prop :=
  isGcPointerInfo Info = isGcPointer (getAllocatedType Alloca) /\
  isGcAggregateInfo Info = isGcAggregate (getAllocatedType Alloca).

Definition well_recorded (I : GcFuncInfo) : Prop := map_Forall agrees (AllocaMap I).

(** A mark that is no GC flag. *)
Lemma agrees_mark (Alloca o F : Z) (Info : AllocaInfo) :
  Z.land F GcValue = 0 -> agrees Alloca Info ->
  agrees Alloca (MkAllocaInfo o (Z.lor (Flags Info) F)).
Proof.
  intros HF [HP HA]. unfold agrees, isGcPointerInfo, isGcAggregateInfo, has_flag in *. cbn.
  assert (H1 : forall b, Z.land b GcValue = b -> Z.land F b = 0).
  { intros b Hb. rewrite <- Hb, (Z.land_comm b), Z.land_assoc, HF. done. }
  by rewrite !Z.land_lor_distr_l, (H1 GcPointer eq_refl), (H1 GcAggregate eq_refl), !Z.lor_0_r.
Qed.

(** What is behind an assertion. *)
Lemma assert_bind_Some {A} (b : bool) (m : option A) (x : A) :
  (_ ← assert b; m) = Some x -> b = true /\ m = Some x.
Proof. by destruct b. Qed.

Lemma recordAlloca_recorded (I I' : GcFuncInfo) (Alloca : Z) :
  well_recorded I -> recordAlloca getAllocatedType I Alloca = Some I' -> well_recorded I'.
Proof.
  intros HI HR. apply assert_bind_Some in HR as [_ [= <-]].
  unfold well_recorded. cbn. apply map_Forall_insert_2; [|done].
  unfold agrees. destruct (isGcPointer (getAllocatedType Alloca)) eqn:HP.
  - split; [done|]. by destruct (getAllocatedType Alloca).
  - by destruct (isGcAggregate (getAllocatedType Alloca)) eqn:HA.
Qed.

Lemma mark_alloca_recorded (IsGc : bool) (I I' : GcFuncInfo) (Alloca F : Z) :
  Z.land F GcValue = 0 -> well_recorded I ->
  mark_alloca getAllocatedType IsGc I Alloca F = Some I' -> well_recorded I'.
Proof.
  intros HF HI HR. apply assert_bind_Some in HR as [_ (Info & HA & HR)%bind_Some].
  apply assert_bind_Some in HR as [_ HR]. apply assert_bind_Some in HR as [_ [= <-]].
  unfold well_recorded. cbn. apply map_Forall_insert_2; [|done].
  apply agrees_mark; [done|]. exact (HI _ _ HA).
Qed.
End recorded.

(** The operations by which the reader makes the records of a function. *)
Inductive recording (getAllocatedType : Z -> LTy) : GcFuncInfo -> GcFuncInfo -> Prop :=
  | do_recordGcAlloca I I' Alloca :
      recordGcAlloca getAllocatedType I Alloca = Some I' -> recording getAllocatedType I I'
  | do_createAlloca I I' Alloca :
      createAlloca getAllocatedType I Alloca = Some I' -> recording getAllocatedType I I'
  | do_recordPinned I I' Alloca :
      recordPinned getAllocatedType I Alloca = Some I' -> recording getAllocatedType I I'
  | do_recordSecurityObject I I' Alloca :
      recordSecurityObject getAllocatedType I Alloca = Some I' -> recording getAllocatedType I I'
  | do_recordGenericsContext I I' Alloca ParamType :
      recordGenericsContext getAllocatedType I Alloca ParamType = Some I' ->
      recording getAllocatedType I I'
  | do_recordGsCookie I I' NDEBUG Alloca a b :
      recordGsCookie getAllocatedType NDEBUG I Alloca a b = Some I' ->
      recording getAllocatedType I I'
  | do_runOnMachineFunction I I' Spill Execute Insert MF :
      runOnMachineFunction getAllocatedType Spill Execute Insert I MF = Some I' ->
      recording getAllocatedType I I'.

Section recording_rules.
Variable getAllocatedType : Z -> LTy.
#[local] Notation well_recorded := (well_recorded getAllocatedType).

Lemma recordGcAlloca_recorded (I I' : GcFuncInfo) (Alloca : Z) :
  well_recorded I -> recordGcAlloca getAllocatedType I Alloca = Some I' -> well_recorded I'.
Proof.
  intros HI HR. apply bind_Some in HR as (I1 & H1 & HR).
  apply bind_Some in HR as (Info & _ & HR). apply assert_bind_Some in HR as [_ [= <-]]. by eapply recordAlloca_recorded.
Qed.

Lemma record_offset_recorded (Spill : Z -> bool) (Execute Insert : bool) (Sp : Z)
    (M M' : gmap Z AllocaInfo) (Object : option Z * Z) :
  map_Forall (agrees getAllocatedType) M ->
  record_offset getAllocatedType Spill Execute Insert Sp M Object = Some M' ->
  map_Forall (agrees getAllocatedType) M'.
Proof.
  intros HM HR. unfold record_offset in HR. destruct Object.1 as [A|]; [|by injection HR as <-].
  destruct (M !! A) as [Info|] eqn:HA.
  - do 2 apply assert_bind_Some in HR as [_ HR]. apply assert_bind_Some in HR as [_ [= <-]].
    apply map_Forall_insert_2; [|done]. exact (HM _ _ HA).
  - by apply assert_bind_Some in HR as [_ [= <-]].
Qed.

Lemma foldM_preserves {A B} (f : A -> B -> option A) (P : A -> Prop) (l : list B) (a a' : A) :
  (forall a b a', P a -> f a b = Some a' -> P a') -> P a -> foldM f a l = Some a' -> P a'.
Proof.
  intros Hf. revert a. induction l as [|b l IH]; intros a Ha HF; [by injection HF as <-|].
  cbn in HF. destruct (f a b) as [a1|] eqn:H1; [|done]. cbn in HF. eauto.
Qed.

Lemma runOnMachineFunction_recorded (Spill : Z -> bool) (Execute Insert : bool) (I I' : GcFuncInfo)
    (MF : MachineFrame) :
  well_recorded I ->
  runOnMachineFunction getAllocatedType Spill Execute Insert I MF = Some I' -> well_recorded I'.
Proof.
  intros HI HR. unfold runOnMachineFunction in HR.
  destruct (isGcFunction (Function I)); [|by injection HR as <-].
  apply bind_Some in HR as (M & HM & HR).
  assert (HM' : map_Forall (agrees getAllocatedType) M).
  { eapply foldM_preserves; [|exact HI|exact HM]. intros. by eapply record_offset_recorded. }
  destruct (PSPSymOffsetFromSP MF); [by apply assert_bind_Some in HR as [_ [= <-]]|].
  by injection HR as <-.
Qed.

Lemma recording_recorded (I I' : GcFuncInfo) :
  well_recorded I -> recording getAllocatedType I I' -> well_recorded I'.
Proof.
  intros HI HR. destruct HR as [I I' A HR|I I' A HR|I I' A HR|I I' A HR|I I' A T HR|I I' N A a b HR|I I' S E' J MF HR].
  - by eapply recordGcAlloca_recorded.
  - unfold createAlloca in HR. destruct (isGcAllocation _ _); [|by injection HR as <-].
    by eapply recordGcAlloca_recorded.
  - by eapply (mark_alloca_recorded getAllocatedType true I I' A Pinned).
  - by eapply (mark_alloca_recorded getAllocatedType true I I' A SecurityObject).
  - unfold recordGenericsContext in HR. case_bool_decide.
    + apply bind_Some in HR as (I1 & H1 & [= <-]).
      by eapply (mark_alloca_recorded getAllocatedType true I I1 A GenericsContext).
    + apply bind_Some in HR as (I2 & HR & [= <-]). apply bind_Some in HR as (I1 & H1 & H2).
      eapply (mark_alloca_recorded getAllocatedType false I1 I2 A GenericsContext); [done| |done].
      by eapply recordAlloca_recorded.
  - apply assert_bind_Some in HR as [_ (I1 & H1 & HR)%bind_Some].
    apply bind_Some in HR as (I2 & H2 & [= <-]).
    eapply (mark_alloca_recorded getAllocatedType false I1 I2 A SecurityObject); [done| |done].
    by eapply recordAlloca_recorded.
  - by eapply runOnMachineFunction_recorded.
Qed.
End recording_rules.

(** ** Slots *)

(** A bit of a vector; those outside are clear. *)
Definition bit (l : list bool) (i : nat) : bool := default false (l !! i).

Lemma bit_insert (l : list bool) (i j : nat) (b : bool) :
  (i < length l)%nat -> bit (<[i := b]> l) j = if decide (i = j) then b else bit l j.
Proof.
  intros Hi. unfold bit. destruct (decide (i = j)) as [->|Hij].
  - by rewrite list_lookup_insert_eq.
  - by rewrite list_lookup_insert_ne.
Qed.

Lemma bit_resize (l : list bool) (n i : nat) : (length l <= n)%nat -> bit (resize n false l) i = bit l i.
Proof.
  intros Hn. unfold bit. rewrite resize_ge by done.
  destruct (decide (i < length l)%nat) as [Hi|Hi].
  - by rewrite lookup_app_l.
  - rewrite lookup_app_r, (lookup_ge_None_2 l) by lia.
    destruct (replicate _ _ !! _) as [b|] eqn:E; [|done].
    by apply lookup_replicate in E as [-> _].
Qed.

Lemma slots_app (l k : list EncoderCall) : slots (l ++ k) = slots l ++ slots k.
Proof. apply omap_app. Qed.

Lemma slot_live_app (l : list EncoderCall) (c : EncoderCall) (ip i : Z) :
  slot_live (l ++ [c]) ip i = state_step ip i (slot_live l ip i) c.
Proof. unfold slot_live. by rewrite foldl_app. Qed.

(** The map of the slots and the encoder's numbering. *)
Record slots_ok (E : Emitter) : Prop := {
  slots_map : forall o i, SlotMap E !! o = Some i <->
    0 <= i /\ exists f, slots (Log E) !! Z.to_nat i = Some (o, f);
  slots_size : size (SlotMap E) = length (slots (Log E))
}.

Lemma slots_ok_map (E : Emitter) (o : Z) (i : nat) (f : GcSlotFlags) :
  slots_ok E -> slots (Log E) !! i = Some (o, f) -> SlotMap E !! o = Some (Z.of_nat i).
Proof. intros HE Hi. apply (slots_map _ HE). split; [lia|]. exists f. by rewrite Nat2Z.id. Qed.

Lemma slots_ok_bound (E : Emitter) (o i : Z) :
  slots_ok E -> SlotMap E !! o = Some i -> 0 <= i < Z.of_nat (length (slots (Log E))).
Proof.
  intros HE Ho. apply (slots_map _ HE) in Ho as [Hi [f Hf%lookup_lt_Some]]. lia.
Qed.

Lemma slots_ok_inj (E : Emitter) (o1 o2 i : Z) :
  slots_ok E -> SlotMap E !! o1 = Some i -> SlotMap E !! o2 = Some i -> o1 = o2.
Proof.
  intros HE H1%(slots_map _ HE) H2%(slots_map _ HE).
  destruct H1 as [_ [f1 H1]], H2 as [_ [f2 H2]]. congruence.
Qed.

Section slots.
Context {GE : GcInfoEncoder} {GT : GcTarget}.
Hypothesis Hids : consecutive_ids GE.

(** A fresh slot is behind the others. *)
Lemma getSlot_spec (E : Emitter) (o : Z) (f : GcSlotFlags) :
  slots_ok E -> o <> InvalidPointerOffset -> SlotMap E !! o = None ->
  Z.of_nat (length (slots (Log E))) < 2 ^ 31 ->
  let id := Z.of_nat (length (slots (Log E))) in
  exists E', getSlot E o f = Some (E', id) /\ slots_ok E' /\
    E' = MkEmitter (<[o := id]> (SlotMap E)) (FirstTrackedSlot E) (NumTrackedSlots E)
           (CallSites E) (CallSiteSizes E) (Log E ++ [GetStackSlotId o f]).
Proof.
  intros HE Ho Hnew Hn id. unfold getSlot.
  assert (H1 : (o =? InvalidPointerOffset) = false) by (apply Z.eqb_neq; done).
  assert (H2 : hasSlot E o = false).
  { unfold hasSlot. rewrite Hnew. apply bool_decide_eq_false_2. by intros [? [=]]. }
  rewrite H1, H2, Hids. cbn [negb assert mbind option_bind SlotMap tell].
  rewrite u32_small by lia. rewrite map_size_insert_None by done.
  rewrite (slots_size _ HE), Nat2Z.inj_succ, u32_small by lia.
  assert (H3 : (Z.of_nat (length (slots (Log E))) =?
                  Z.succ (Z.of_nat (length (slots (Log E)))) - 1) = true) by (apply Z.eqb_eq; lia).
  rewrite H3. eexists. split; [reflexivity|]. split; [|done]. subst id. clear H1 H2 H3.
  assert (HS : slots (Log E ++ [GetStackSlotId o f]) = slots (Log E) ++ [(o, f)]) by apply slots_app.
  split; cbn [SlotMap Log tell].
  - intros o' i. rewrite HS. split.
    + intros [[-> <-]|[Hne Ho']]%lookup_insert_Some.
      * split; [lia|]. exists f. by rewrite Nat2Z.id, lookup_app_r, Nat.sub_diag.
      * apply (slots_map _ HE) in Ho' as [Hi [f' Hf]]. split; [done|]. exists f'.
        by apply lookup_app_l_Some.
    + intros [Hi [f' [Hf|[Hge Hf]]%lookup_app_Some]].
      * assert (Ho' : SlotMap E !! o' = Some i) by (apply (slots_map _ HE); eauto).
        rewrite lookup_insert_ne; [done|]. congruence.
      * apply list_lookup_singleton_Some in Hf as [Hk [= <- <-]].
        rewrite lookup_insert_eq. f_equal. lia.
  - rewrite HS, length_app, map_size_insert_None, (slots_size _ HE) by done. simpl. lia.
Qed.

(** ** Safepoints *)

(** The pointers of a stack map that the emitter handles. *)
Definition loc_ok (Loc : Location) : Prop :=
  match getKind Loc with
  | Constant | ConstantIndex => True
  | Indirect => getDwarfRegNum Loc = DW_STACK_POINTER /\ getOffset Loc <> InvalidPointerOffset
  | Register | Direct => False
  end.

(** A location that names the slot at [o]. *)
Definition names (o : Z) (Loc : Location) : Prop := getKind Loc = Indirect /\ getOffset Loc = o.

(** Every slot is tracked, and the sets have a bit for each. *)
Record tracking (E : Emitter) (L : LiveSets) : Prop := {
  track_slots : slots_ok E;
  track_flags : Forall (fun s => s.2 = ManagedPointerFlags) (slots (Log E));
  track_first : FirstTrackedSlot E = 0;
  track_num : NumTrackedSlots E = Z.of_nat (length (slots (Log E)));
  track_old : Z.of_nat (length (OldLiveSet L)) = LiveBitSetSize L;
  track_new : Z.of_nat (length (NewLiveSet L)) = LiveBitSetSize L;
  track_room : Z.of_nat (length (slots (Log E))) <= LiveBitSetSize L;
  track_size : LiveBitSetSize L <= 25 + 2 * Z.of_nat (length (slots (Log E)));
  track_min : 25 <= LiveBitSetSize L
}.

(** What one emitter state has of an earlier one while slots are added. *)
Record grows (E E' : Emitter) : Prop := {
  grow_map : SlotMap E ⊆ SlotMap E';
  grow_live : forall ip i, slot_live (Log E') ip i = slot_live (Log E) ip i;
  grow_sites : CallSites E' = CallSites E /\ CallSiteSizes E' = CallSiteSizes E
}.

Lemma grows_trans (E1 E2 E3 : Emitter) : grows E1 E2 -> grows E2 E3 -> grows E1 E3.
Proof.
  intros [M1 L1 [C1 S1]] [M2 L2 [C2 S2]]. split; [by etrans| |by rewrite C2, S2].
  intros ip i. by rewrite L2.
Qed.

Lemma grows_refl (E : Emitter) : grows E E.
Proof. by split. Qed.

Lemma slot_of_spec (E : Emitter) (L : LiveSets) (o : Z) :
  tracking E L -> o <> InvalidPointerOffset -> Z.of_nat (length (slots (Log E))) < 2 ^ 31 ->
  exists E' L' id, slot_of E L o = Some (E', L', id) /\ tracking E' L' /\ grows E E' /\
    SlotMap E' !! o = Some id /\
    (length (slots (Log E')) <= S (length (slots (Log E))))%nat /\
    (forall i, bit (OldLiveSet L') i = bit (OldLiveSet L) i) /\
    (forall i, bit (NewLiveSet L') i = bit (NewLiveSet L) i) /\
    (forall o', is_Some (SlotMap E' !! o') -> is_Some (SlotMap E !! o') \/ o' = o).
Proof.
  intros HT Ho Hn. unfold slot_of. destruct (SlotMap E !! o) as [id|] eqn:Hold.
  { exists E, L, id. split_and!; try done; [lia|]. by left. }
  destruct HT as [HS HF H0 HN HOl HNl HR HB HM].
  destruct (getSlot_spec E o ManagedPointerFlags HS Ho Hold Hn) as (E1 & HG & HS1 & HE1).
  set (n := length (slots (Log E))) in *.
  assert (HL1 : length (slots (Log E1)) = S n).
  { rewrite HE1. cbn [Log]. rewrite slots_app, length_app. fold n. simpl. lia. }
  unfold getTrackedSlot. rewrite HG. cbn [mbind option_bind].
  replace (NumTrackedSlots E1) with (Z.of_nat n) by (rewrite HE1; cbn; lia).
  rewrite u64_small by lia.
  set (E2 := MkEmitter _ _ _ _ _ _).
  assert (HF2 : FirstTrackedSlot E2 = 0).
  { subst E2. cbn. destruct (Z.eqb_spec (Z.of_nat n + 1) 1); [lia|]. by rewrite HE1. }
  assert (HS2 : slots_ok E2) by (destruct HS1 as [A B]; by split).
  assert (HG2 : grows E E2).
  { subst E2. rewrite HE1. split; [cbn; by apply insert_subseteq| |done].
    intros ip i. cbn [Log]. by rewrite slot_live_app. }
  assert (HFl : Forall (fun s => s.2 = ManagedPointerFlags) (slots (Log E2))).
  { subst E2. rewrite HE1. cbn [Log]. rewrite slots_app. apply Forall_app. split; [done|].
    by repeat constructor. }
  assert (HM2 : SlotMap E2 !! o = Some (Z.of_nat n)).
  { subst E2. rewrite HE1. cbn. apply lookup_insert_eq. }
  assert (HNo : forall o', is_Some (SlotMap E2 !! o') -> is_Some (SlotMap E !! o') \/ o' = o).
  { intros o'. subst E2. rewrite HE1. cbn. destruct (decide (o = o')) as [->|Hne]; [by right|].
    rewrite lookup_insert_ne by done. by left. }
  assert (HSz : size (SlotMap E2) = S n) by (rewrite (slots_size _ HS2); exact HL1).
  change (SlotMap E1) with (SlotMap E2). rewrite HSz.
  assert (HN2 : NumTrackedSlots E2 = Z.of_nat (length (slots (Log E2)))).
  { subst E2. cbn [NumTrackedSlots Log]. rewrite HL1. lia. }
  assert (HL2 : length (slots (Log E2)) = S n) by exact HL1.
  destruct (Z.ltb_spec (LiveBitSetSize L) (Z.of_nat (S n))) as [Hbig|Hfit].
  - assert (HD : u64 (LiveBitSetSize L + LiveBitSetSize L) = 2 * LiveBitSetSize L).
    { rewrite u64_small; lia. }
    rewrite HD. replace (Z.of_nat (length (OldLiveSet L)) <? 2 * LiveBitSetSize L) with true
      by (symmetry; apply Z.ltb_lt; lia).
    cbn [assert mbind option_bind]. do 3 eexists. split; [reflexivity|].
    split_and!; try done; [|lia| |].
    + split; try done; cbn [OldLiveSet NewLiveSet LiveBitSetSize];
        unfold resize_bits; rewrite ?length_resize, ?HL2; lia.
    + intros i. apply bit_resize. lia.
    + intros i. apply bit_resize. lia.
  - exists E2, L, (Z.of_nat n). split_and!; try done; [|lia]. split; try done; lia.
Qed.

(** A bit of the set of new pointers is set for a slot that a location names. *)
Definition named (E : Emitter) (Locs : list Location) (i : nat) : Prop :=
  exists o, SlotMap E !! o = Some (Z.of_nat i) /\ Exists (names o) Locs.

Lemma track_location_spec (E : Emitter) (L : LiveSets) (Loc : Location) :
  tracking E L -> loc_ok Loc -> Z.of_nat (length (slots (Log E))) < 2 ^ 31 ->
  exists E' L', track_location (E, L) Loc = Some (E', L') /\ tracking E' L' /\ grows E E' /\
    (length (slots (Log E')) <= S (length (slots (Log E))))%nat /\
    (forall i, bit (OldLiveSet L') i = bit (OldLiveSet L) i) /\
    (forall o, names o Loc -> is_Some (SlotMap E' !! o)) /\
    (forall i, bit (NewLiveSet L') i = true <-> bit (NewLiveSet L) i = true \/ named E' [Loc] i) /\
    (forall o, is_Some (SlotMap E' !! o) -> is_Some (SlotMap E !! o) \/ names o Loc).
Proof.
  intros HT HL Hn. unfold track_location, loc_ok in *.
  assert (Hno : getKind Loc <> Indirect -> forall i, ~ named E [Loc] i).
  { intros HK i (o & _ & HE). apply Exists_cons in HE as [[? _]|HE]; [done|]. by apply Exists_nil in HE. }
  destruct (getKind Loc) eqn:HK; try done;
    try (exists E, L; split_and!; try done; [lia|by intros o [? _]; congruence| |by left];
         intros i; split; [tauto|]; intros [?|HN]; [done|]; by destruct (Hno ltac:(done) i)).
  clear Hno. destruct HL as [HD Ho]. rewrite HD, Z.eqb_refl. cbn [assert mbind option_bind fst snd].
  destruct (slot_of_spec E L (getOffset Loc) HT Ho Hn)
    as (E1 & L1 & id & -> & HT1 & HG & HM & HN1 & HOld & HNew & HNo).
  pose proof (slots_ok_bound E1 _ id (track_slots _ _ HT1) HM) as Hid.
  cbn [mbind option_bind].
  assert (HTr : isTrackedSlot E1 id = true).
  { unfold isTrackedSlot. rewrite (track_first _ _ HT1), (track_num _ _ HT1).
    rewrite !andb_true_iff, !Z.ltb_lt, Z.leb_le. lia. }
  rewrite HTr. cbn [assert mbind option_bind].
  pose proof (track_new _ _ HT1) as HNL. pose proof (track_room _ _ HT1).
  unfold set_bit. replace (id <? Z.of_nat (length (NewLiveSet L1))) with true
    by (symmetry; apply Z.ltb_lt; lia).
  cbn [assert mbind option_bind]. do 2 eexists. split; [reflexivity|].
  split_and!; try done.
  - destruct HT1. split; try done. cbn [NewLiveSet LiveBitSetSize]. by rewrite length_insert.
  - intros o [_ <-]. by exists id.
  - intros i. cbn [NewLiveSet]. rewrite bit_insert by lia. rewrite HNew. split.
    + intros Hi. case_decide; [|by left]. right. exists (getOffset Loc). subst i.
      rewrite Z2Nat.id by lia. split; [done|]. by constructor.
    + intros Hi. case_decide; [done|]. destruct Hi as [Hi|(o & Ho' & HE)]; [done|].
      apply Exists_cons in HE as [[_ <-]|HE]; [|by apply Exists_nil in HE].
      rewrite HM in Ho'. injection Ho' as ->. by rewrite Nat2Z.id in *.
  - intros o [Hs| ->]%HNo; [by left|by right].
Qed.

(** The locations of a record. *)
Lemma track_locations_spec (Locs : list Location) : forall (E : Emitter) (L : LiveSets),
  tracking E L -> Forall loc_ok Locs ->
  Z.of_nat (length (slots (Log E))) + Z.of_nat (length Locs) < 2 ^ 31 ->
  exists E' L', foldM track_location (E, L) Locs = Some (E', L') /\ tracking E' L' /\ grows E E' /\
    (length (slots (Log E')) <= length Locs + length (slots (Log E)))%nat /\
    (forall i, bit (OldLiveSet L') i = bit (OldLiveSet L) i) /\
    (forall o, Exists (names o) Locs -> is_Some (SlotMap E' !! o)) /\
    (forall i, bit (NewLiveSet L') i = true <-> bit (NewLiveSet L) i = true \/ named E' Locs i) /\
    (forall o, is_Some (SlotMap E' !! o) -> is_Some (SlotMap E !! o) \/ Exists (names o) Locs).
Proof.
  induction Locs as [|Loc Locs IH]; intros E L HT HL Hn.
  { exists E, L. split_and!; try done.
    - by intros o ?%Exists_nil.
    - intros i. split; [tauto|]. intros [?|(o & _ & ?%Exists_nil)]; done.
    - by left. }
  apply Forall_cons in HL as [HL1 HL]. cbn [length] in Hn.
  destruct (track_location_spec E L Loc HT HL1 ltac:(lia))
    as (E1 & L1 & HE1 & HT1 & HG1 & HN1 & HO1 & HS1 & HB1 & HW1).
  destruct (IH E1 L1 HT1 HL ltac:(lia)) as (E2 & L2 & HE2 & HT2 & HG2 & HN2 & HO2 & HS2 & HB2 & HW2).
  exists E2, L2. split_and!.
  - cbn [foldM]. rewrite HE1. exact HE2.
  - done.
  - by eapply grows_trans.
  - cbn [length]. lia.
  - intros i. by rewrite HO2.
  - intros o [Ho|Ho]%Exists_cons; [|by apply HS2].
    destruct (HS1 o Ho) as [id Hid]. exists id. exact (lookup_weaken _ _ _ _ Hid (grow_map _ _ HG2)).
  - intros i. rewrite HB2, HB1. unfold named. split.
    + intros [[?|(o & Ho & HE)]|(o & Ho & HE)]; [by left| |].
      * right. exists o. split; [exact (lookup_weaken _ _ _ _ Ho (grow_map _ _ HG2))|].
        apply Exists_cons in HE as [HE|HE]; [by apply Exists_cons_hd|by apply Exists_nil in HE].
      * right. exists o. split; [done|]. by apply Exists_cons_tl.
    + intros [?|(o & Ho & HE)]; [by do 2 left|]. apply Exists_cons in HE as [HE|HE].
      * left. right. exists o. split; [|by apply Exists_cons_hd].
        destruct (HS1 o HE) as [id Hid].
        pose proof (lookup_weaken _ _ _ _ Hid (grow_map _ _ HG2)) as Hid'. congruence.
      * right. by exists o.
  - intros o [[Hs|HN]%HW1|HN]%HW2; [by left| |]; right; [by apply Exists_cons_hd|by apply Exists_cons_tl].
Qed.

(** ** Births and deaths *)

(** The slots from [k] on that one call of [report_states] visits. *)
Definition visited (k n i : nat) : bool := bool_decide (k <= i < k + n)%nat.

Lemma report_states_spec (ip : Z) (n : nat) : forall (k : nat) (E : Emitter) (L : LiveSets),
  (k + n <= length (OldLiveSet L))%nat -> length (NewLiveSet L) = length (OldLiveSet L) ->
  exists E' L', report_states n (Z.of_nat k) ip (E, L) = Some (E', L') /\
    E' = MkEmitter (SlotMap E) (FirstTrackedSlot E) (NumTrackedSlots E) (CallSites E)
           (CallSiteSizes E) (Log E') /\
    slots (Log E') = slots (Log E) /\
    LiveBitSetSize L' = LiveBitSetSize L /\
    length (OldLiveSet L') = length (OldLiveSet L) /\
    length (NewLiveSet L') = length (NewLiveSet L) /\
    (forall i, bit (OldLiveSet L') i =
       if visited k n i then bit (NewLiveSet L) i else bit (OldLiveSet L) i) /\
    (forall i, bit (NewLiveSet L') i = if visited k n i then false else bit (NewLiveSet L) i) /\
    (forall ip' i, slot_live (Log E') ip' (Z.of_nat i) =
       if (ip <=? ip') && visited k n i && xorb (bit (OldLiveSet L) i) (bit (NewLiveSet L) i)
       then bit (NewLiveSet L) i else slot_live (Log E) ip' (Z.of_nat i)).
Proof.
  unfold visited. induction n as [|n IH]; intros k E L Hk HL.
  { exists E, L. assert (HV : forall i, bool_decide (k <= i < k + 0)%nat = false).
    { intros i. apply bool_decide_eq_false_2. lia. }
    split_and!; try done; [by destruct E| | |]; intros; rewrite HV, ?andb_false_r; done. }
  cbn [report_states]. rewrite Nat2Z.id.
  destruct (lookup_lt_is_Some_2 (OldLiveSet L) k ltac:(lia)) as [Old HO].
  destruct (lookup_lt_is_Some_2 (NewLiveSet L) k ltac:(lia)) as [New HN].
  rewrite HO, HN. cbn [mbind option_bind]. unfold set_bit.
  replace (Z.of_nat k <? Z.of_nat (length (OldLiveSet L))) with true by (symmetry; apply Z.ltb_lt; lia).
  rewrite HL. replace (Z.of_nat k <? Z.of_nat (length (OldLiveSet L))) with true by (symmetry; apply Z.ltb_lt; lia).
  cbn [assert mbind option_bind]. rewrite Nat2Z.id.
  set (E1 := if negb Old && New then tell E (SetSlotState ip (Z.of_nat k) GC_SLOT_LIVE)
             else if Old && negb New then tell E (SetSlotState ip (Z.of_nat k) GC_SLOT_DEAD) else E).
  set (L1 := MkLive _ _ _).
  replace (Z.of_nat k + 1) with (Z.of_nat (S k)) by lia.
  destruct (IH (S k) E1 L1) as (E' & L' & -> & HE' & HSl & HB & HO' & HN' & HOb & HNb & HLv).
  { subst L1. cbn [OldLiveSet]. rewrite length_insert. lia. }
  { subst L1. cbn [OldLiveSet NewLiveSet]. by rewrite !length_insert. }
  assert (HE1 : E1 = MkEmitter (SlotMap E) (FirstTrackedSlot E) (NumTrackedSlots E) (CallSites E)
                       (CallSiteSizes E) (Log E1) /\ slots (Log E1) = slots (Log E) /\
                forall ip' i, slot_live (Log E1) ip' (Z.of_nat i) =
                  if (ip <=? ip') && bool_decide (i = k) && xorb Old New then New
                  else slot_live (Log E) ip' (Z.of_nat i)).
  { subst E1. destruct Old, New; cbn [andb negb xorb]; (split; [by destruct E|]).
    1,4: split; [done|]; intros; by rewrite andb_false_r.
    all: split; [cbn [Log tell]; by rewrite slots_app, app_nil_r|]; intros ip' i;
      cbn [Log tell]; rewrite slot_live_app; cbn [state_step]; rewrite andb_true_r;
      destruct (ip <=? ip'); cbn [andb]; [|done];
      destruct (bool_decide_reflect (i = k)) as [->|Hik]; [by rewrite Z.eqb_refl|];
      by replace (Z.of_nat k =? Z.of_nat i) with false by (symmetry; apply Z.eqb_neq; lia). }
  destruct HE1 as (HE1 & HS1 & HL1).
  assert (HO1 : forall i, bit (OldLiveSet L1) i = if decide (k = i) then New else bit (OldLiveSet L) i).
  { intros i. subst L1. cbn [OldLiveSet]. apply bit_insert. lia. }
  assert (HN1 : forall i, bit (NewLiveSet L1) i = if decide (k = i) then false else bit (NewLiveSet L) i).
  { intros i. subst L1. cbn [NewLiveSet]. apply bit_insert. lia. }
  assert (HNk : bit (NewLiveSet L) k = New) by (unfold bit; by rewrite HN).
  assert (HOk : bit (OldLiveSet L) k = Old) by (unfold bit; by rewrite HO).
  exists E', L'. split_and!; try done.
  - rewrite HE'. by rewrite HE1.
  - by rewrite HSl.
  - rewrite HO'. subst L1. cbn [OldLiveSet]. apply length_insert.
  - rewrite HN'. subst L1. cbn [NewLiveSet]. by rewrite length_insert.
  - intros i. rewrite HOb, HO1, HN1.
    repeat case_bool_decide; repeat case_decide; subst; try lia; congruence.
  - intros i. rewrite HNb, HN1. repeat case_bool_decide; repeat case_decide; subst; try lia; congruence.
  - intros ip' i. rewrite HLv, HL1, HO1, HN1.
    destruct (ip <=? ip'); cbn [andb]; [|done].
    repeat case_bool_decide; repeat case_decide; subst; try lia; cbn [andb]; try congruence;
      by destruct (bit (OldLiveSet L) k), (bit (NewLiveSet L) k).
Qed.

(** ** The records of a stack map *)

(** The offset that is reported for a safepoint. *)
Definition site (R : SafepointRecord) : Z := getInstructionOffset R - CallSiteSize.

Definition record_ok (R : SafepointRecord) : Prop :=
  Forall loc_ok (locations R) /\ CallSiteSize <= getInstructionOffset R < 2 ^ 32.

Definition sites_of (Rs : list SafepointRecord) : list Z :=
  if PARTIALLY_INTERRUPTIBLE_GC_SUPPORTED then site <$> Rs else [].
Definition sizes_of (Rs : list SafepointRecord) : list Z :=
  if PARTIALLY_INTERRUPTIBLE_GC_SUPPORTED then (fun _ => CallSiteSize) <$> Rs else [].

(** Between two records: the old set is the liveness that was reported. *)
Record settled (E : Emitter) (L : LiveSets) (last : Z) : Prop := {
  settled_track : tracking E L;
  settled_new : forall i, bit (NewLiveSet L) i = false;
  settled_old : forall i, bit (OldLiveSet L) i = true -> (i < length (slots (Log E)))%nat;
  settled_live : forall ip i, last <= ip -> slot_live (Log E) ip (Z.of_nat i) = bit (OldLiveSet L) i
}.

Lemma named_bound (E : Emitter) (Locs : list Location) (i : nat) :
  slots_ok E -> named E Locs i -> (i < length (slots (Log E)))%nat.
Proof. intros HS (o & Ho & _). apply slots_ok_bound in Ho; [lia|done]. Qed.

Lemma track_record_spec (E : Emitter) (L : LiveSets) (last : Z) (R : SafepointRecord) :
  settled E L last -> record_ok R -> last < site R ->
  Z.of_nat (length (slots (Log E))) + Z.of_nat (length (locations R)) < 2 ^ 31 ->
  exists E' L', track_record (E, L) R = Some (E', L') /\ settled E' L' (site R) /\
    SlotMap E ⊆ SlotMap E' /\
    (length (slots (Log E')) <= length (locations R) + length (slots (Log E)))%nat /\
    CallSites E' = CallSites E ++ sites_of [R] /\
    CallSiteSizes E' = CallSiteSizes E ++ sizes_of [R] /\
    (forall ip i, ip < site R ->
       slot_live (Log E') ip (Z.of_nat i) = slot_live (Log E) ip (Z.of_nat i)) /\
    (forall o, (exists i, SlotMap E' !! o = Some (Z.of_nat i) /\ bit (OldLiveSet L') i = true) <->
       Exists (names o) (locations R)) /\
    (forall o, is_Some (SlotMap E' !! o) -> is_Some (SlotMap E !! o) \/ Exists (names o) (locations R)).
Proof.
  intros [HT HNew HOld HLive] [HLoc HOff] Hlast Hn. unfold track_record.
  replace (u32 (getInstructionOffset R - CallSiteSize)) with (site R)
    by (symmetry; apply u32_small; unfold site, CallSiteSize in *; lia).
  set (E0 := if PARTIALLY_INTERRUPTIBLE_GC_SUPPORTED then _ else E).
  assert (H0 : SlotMap E0 = SlotMap E /\ Log E0 = Log E /\ FirstTrackedSlot E0 = FirstTrackedSlot E /\
               NumTrackedSlots E0 = NumTrackedSlots E /\
               CallSites E0 = CallSites E ++ sites_of [R] /\
               CallSiteSizes E0 = CallSiteSizes E ++ sizes_of [R]).
  { unfold sites_of, sizes_of. subst E0. destruct PARTIALLY_INTERRUPTIBLE_GC_SUPPORTED; [done|].
    by rewrite !app_nil_r. }
  destruct H0 as (HM0 & HL0 & HF0 & HN0 & HC0 & HZ0).
  assert (HT0 : tracking E0 L).
  { destruct HT as [[A B] C D F G]. split; rewrite ?HL0, ?HF0, ?HN0; try done.
    split; rewrite HM0, HL0; done. }
  destruct (track_locations_spec (locations R) E0 L HT0 HLoc ltac:(rewrite HL0; lia))
    as (E1 & L1 & -> & HT1 & HG1 & HLen1 & HO1 & HS1 & HB1 & HW1).
  cbn [mbind option_bind].
  pose proof (slots_size _ (track_slots _ _ HT1)) as HSz.
  pose proof (track_old _ _ HT1). pose proof (track_new _ _ HT1). pose proof (track_room _ _ HT1).
  rewrite HSz.
  destruct (report_states_spec (site R) (length (slots (Log E1))) 0 E1 L1 ltac:(lia) ltac:(lia))
    as (E2 & L2 & HR & HE2 & HSl & HB & HLo & HLn & HOb & HNb & HLv).
  rewrite HL0 in *.
  assert (HV : forall i, visited 0 (length (slots (Log E1))) i = bool_decide (i < length (slots (Log E1)))%nat).
  { intros i. unfold visited. apply bool_decide_ext. lia. }
  assert (HNew1 : forall i, bit (NewLiveSet L1) i = true <-> named E1 (locations R) i).
  { intros i. rewrite HB1, HNew. split; [|by right]. by intros [?|?]. }
  assert (HNamed : forall i, bit (NewLiveSet L1) i = true -> (i < length (slots (Log E1)))%nat).
  { intros i Hi%HNew1. by eapply named_bound, Hi; apply (track_slots _ _ HT1). }
  assert (HOld1 : forall i, bit (OldLiveSet L1) i = true -> (i < length (slots (Log E1)))%nat).
  { intros i Hi. rewrite HO1 in Hi. apply HOld in Hi.
    pose proof (map_subseteq_size _ _ (grow_map _ _ HG1)) as Hsub.
    rewrite HM0, (slots_size _ (track_slots _ _ HT)), HSz in Hsub. lia. }
  assert (HOb' : forall i, bit (OldLiveSet L2) i = bit (NewLiveSet L1) i).
  { intros i. rewrite HOb, HV. case_bool_decide as Hi; [done|].
    destruct (bit (OldLiveSet L1) i) eqn:HX; [by apply HOld1 in HX|].
    destruct (bit (NewLiveSet L1) i) eqn:HY; [by apply HNamed in HY|done]. }
  assert (HM2 : SlotMap E2 = SlotMap E1) by (rewrite HE2; done).
  exists E2, L2. split; [exact HR|]. split; [|split_and!].
  - split.
    + destruct HT1 as [[A B] C D F G I' J K M]. rewrite HE2.
      split; cbn [SlotMap FirstTrackedSlot NumTrackedSlots Log]; rewrite ?HSl, ?HB; try done; try lia.
      split; cbn [SlotMap Log]; by rewrite HSl.
    + intros i. rewrite HNb, HV. case_bool_decide as Hi; [done|].
      destruct (bit (NewLiveSet L1) i) eqn:HY; [by apply HNamed in HY|done].
    + intros i. rewrite HOb', HSl. apply HNamed.
    + intros ip i Hip. rewrite HLv, HV, HOb', (grow_live _ _ HG1), HL0, HLive, <- HO1 by lia.
      replace (site R <=? ip) with true by (symmetry; apply Z.leb_le; lia). cbn [andb].
      case_bool_decide as Hi; cbn [andb].
      * by destruct (bit (OldLiveSet L1) i), (bit (NewLiveSet L1) i).
      * destruct (bit (OldLiveSet L1) i) eqn:HX; [by apply HOld1 in HX|].
        destruct (bit (NewLiveSet L1) i) eqn:HY; [by apply HNamed in HY|done].
  - rewrite HM2, <- HM0. exact (grow_map _ _ HG1).
  - rewrite HSl. lia.
  - rewrite HE2. cbn [CallSites]. by rewrite (proj1 (grow_sites _ _ HG1)), HC0.
  - rewrite HE2. cbn [CallSiteSizes]. by rewrite (proj2 (grow_sites _ _ HG1)), HZ0.
  - intros ip i Hip. rewrite HLv, (grow_live _ _ HG1), HL0.
    by replace (site R <=? ip) with false by (symmetry; apply Z.leb_gt; lia).
  - intros o. rewrite HM2. split.
    + intros (i & Ho & Hi). rewrite HOb' in Hi. apply HNew1 in Hi as (o' & Ho' & HE).
      by rewrite (slots_ok_inj E1 o o' _ (track_slots _ _ HT1) Ho Ho').
    + intros HE. destruct (HS1 o HE) as [id Hid].
      pose proof (slots_ok_bound E1 o id (track_slots _ _ HT1) Hid).
      exists (Z.to_nat id). rewrite Z2Nat.id by lia. split; [done|]. rewrite HOb'. apply HNew1.
      exists o. by rewrite Z2Nat.id by lia.
  - intros o. rewrite HM2, <- HM0. apply HW1.
Qed.

(** The safepoints of a stack map, in the order of the code behind [last]. *)
Fixpoint increasing (last : Z) (Rs : list SafepointRecord) : Prop :=
  match Rs with [] => True | R :: Rs => last < site R /\ increasing (site R) Rs end.

(** All locations together. *)
Definition total_locations (Rs : list SafepointRecord) : nat :=
  foldr (fun R n => length (locations R) + n)%nat 0%nat Rs.

Lemma track_records_spec (Rs : list SafepointRecord) : forall (E : Emitter) (L : LiveSets) (last : Z),
  settled E L last -> Forall record_ok Rs -> increasing last Rs ->
  Z.of_nat (length (slots (Log E))) + Z.of_nat (total_locations Rs) < 2 ^ 31 ->
  exists E' L', foldM track_record (E, L) Rs = Some (E', L') /\ tracking E' L' /\
    SlotMap E ⊆ SlotMap E' /\
    (length (slots (Log E')) <= total_locations Rs + length (slots (Log E)))%nat /\
    CallSites E' = CallSites E ++ sites_of Rs /\
    CallSiteSizes E' = CallSiteSizes E ++ sizes_of Rs /\
    (forall ip i, ip <= last ->
       slot_live (Log E') ip (Z.of_nat i) = slot_live (Log E) ip (Z.of_nat i)) /\
    Forall (fun R => forall o,
      (exists i, SlotMap E' !! o = Some (Z.of_nat i) /\
                 slot_live (Log E') (site R) (Z.of_nat i) = true) <->
      Exists (names o) (locations R)) Rs /\
    (forall o, is_Some (SlotMap E' !! o) ->
       is_Some (SlotMap E !! o) \/ Exists (fun R => Exists (names o) (locations R)) Rs).
Proof.
  induction Rs as [|R Rs IH]; intros E L last HS HRs HI Hn.
  { exists E, L. unfold sites_of, sizes_of. split_and!; try done; [by destruct HS| | |by left];
      destruct PARTIALLY_INTERRUPTIBLE_GC_SUPPORTED; by rewrite app_nil_r. }
  apply Forall_cons in HRs as [HR HRs]. destruct HI as [Hlast HI]. cbn [total_locations foldr] in Hn.
  fold (total_locations Rs) in Hn.
  destruct (track_record_spec E L last R HS HR Hlast ltac:(lia))
    as (E1 & L1 & HE1 & HS1 & HM1 & HL1 & HC1 & HZ1 & HO1 & HX1 & HW1).
  destruct (IH E1 L1 (site R) HS1 HRs HI ltac:(lia))
    as (E2 & L2 & HE2 & HT2 & HM2 & HL2 & HC2 & HZ2 & HO2 & HX2 & HW2).
  exists E2, L2. split_and!.
  - cbn [foldM]. rewrite HE1. exact HE2.
  - done.
  - by etrans.
  - cbn [total_locations foldr]. fold (total_locations Rs). lia.
  - rewrite HC2, HC1, <- app_assoc. f_equal. unfold sites_of. by destruct PARTIALLY_INTERRUPTIBLE_GC_SUPPORTED.
  - rewrite HZ2, HZ1, <- app_assoc. f_equal. unfold sizes_of. by destruct PARTIALLY_INTERRUPTIBLE_GC_SUPPORTED.
  - intros ip i Hip. rewrite HO2, HO1 by lia. done.
  - apply Forall_cons. split; [|done]. intros o. rewrite <- HX1.
    assert (HB : forall i, slot_live (Log E2) (site R) (Z.of_nat i) = bit (OldLiveSet L1) i).
    { intros i. rewrite HO2 by done. by apply (settled_live _ _ _ HS1). }
    split; intros (i & Ho & Hi); exists i.
    + rewrite HB in Hi. split; [|done]. pose proof (settled_old _ _ _ HS1 i Hi) as Hlt.
      destruct (lookup_lt_is_Some_2 _ _ Hlt) as [[o' f] Ho'].
      apply (slots_ok_map E1 o' i f) in Ho'; [|by apply (track_slots _ _ (settled_track _ _ _ HS1))].
      pose proof (lookup_weaken _ _ _ _ Ho' HM2) as Ho2.
      by rewrite (slots_ok_inj E2 o o' _ (track_slots _ _ HT2) Ho Ho2).
    + split; [by eapply lookup_weaken|]. by rewrite HB.
  - intros o [[Hs|HN]%HW1|HN]%HW2; [by left| |]; right; [by apply Exists_cons_hd|by apply Exists_cons_tl].
Qed.

(** ** Allocations *)

(** Slots that were added behind those of an earlier state. *)
Record adds (E E' : Emitter) (l : list (Z * GcSlotFlags)) : Prop := {
  adds_slots : slots (Log E') = slots (Log E) ++ l;
  adds_ok : slots_ok E';
  adds_live : forall ip i, slot_live (Log E') ip i = slot_live (Log E) ip i;
  adds_sites : CallSites E' = CallSites E /\ CallSiteSizes E' = CallSiteSizes E
}.

Lemma adds_refl (E : Emitter) : slots_ok E -> adds E E [].
Proof. intros HE. split; [by rewrite app_nil_r|done..]. Qed.

Lemma adds_trans (E1 E2 E3 : Emitter) (k l : list (Z * GcSlotFlags)) :
  adds E1 E2 k -> adds E2 E3 l -> adds E1 E3 (k ++ l).
Proof.
  intros [S1 O1 L1 [C1 Z1]] [S2 O2 L2 [C2 Z2]]. split; [by rewrite S2, S1, app_assoc|done| |by rewrite C2, Z2].
  intros ip i. by rewrite L2.
Qed.

(** The offsets that have a slot. *)
Definition taken (E : Emitter) : list Z := (slots (Log E)).*1.

Lemma getSlot_adds (E : Emitter) (o : Z) (f : GcSlotFlags) :
  slots_ok E -> 0 <= o -> o ∉ taken E -> Z.of_nat (length (taken E)) < 2 ^ 31 ->
  exists E' id, getSlot E o f = Some (E', id) /\ adds E E' [(o, f)].
Proof.
  intros HE Ho Hnew Hn. unfold taken in *. rewrite length_fmap in Hn.
  assert (HM : SlotMap E !! o = None).
  { apply eq_None_not_Some. intros [i [_ [f' Hf]]%(slots_map _ HE)]. apply Hnew.
    apply list_elem_of_fmap. exists (o, f'). split; [done|]. by eapply list_elem_of_lookup_2. }
  destruct (getSlot_spec E o f HE ltac:(unfold InvalidPointerOffset; lia) HM Hn) as (E' & HG & HO & HE').
  exists E', (Z.of_nat (length (slots (Log E)))). split; [done|]. split; [|done| |].
  - rewrite HE'. cbn [Log]. by rewrite slots_app.
  - intros ip i. rewrite HE'. cbn [Log]. by rewrite slot_live_app.
  - by rewrite HE'.
Qed.

Context {DL : DataLayout}.
Variable getAllocatedType : Z -> LTy.

(** The GC pointers in an allocation of a type. *)
Definition gc_offsets (T : LTy) : list Z :=
  if isGcPointer T then [0]
  else if isGcAggregate T
  then match T with LStruct _ Body => default [] (getGcPointers Body) | _ => [] end
  else [].

(** The frame offsets of the GC pointers in an allocation. *)
Definition untracked_of (Entry : Z * AllocaInfo) : list Z :=
  (fun p => Offset Entry.2 + p) <$> gc_offsets (getAllocatedType Entry.1).

(** An allocation in the frame: within its bounds, and an aggregate is a
    structure whose GC pointers the walk finds. *)
Definition alloca_ok (Entry : Z * AllocaInfo) : Prop :=
  agrees getAllocatedType Entry.1 Entry.2 /\ 0 <= Offset Entry.2 /\
  Forall (fun o => 0 <= o < 2 ^ 31) (untracked_of Entry) /\
  (isGcAggregate (getAllocatedType Entry.1) = true ->
   exists Name Body Ps, getAllocatedType Entry.1 = LStruct Name Body /\
     getGcPointers Body = Some Ps /\ Ps <> []).

(** A list of slots of the given offsets, all untracked. *)
Definition untracked (os : list Z) (l : list (Z * GcSlotFlags)) : Prop :=
  l.*1 = os /\ Forall (fun s => UNTRACKED s.2 = true) l.

Lemma untracked_app (os os' : list Z) (l l' : list (Z * GcSlotFlags)) :
  untracked os l -> untracked os' l' -> untracked (os ++ os') (l ++ l').
Proof. intros [<- H1] [<- H2]. split; [apply fmap_app|by apply Forall_app]. Qed.

Lemma UntrackedFlags_untracked (a b : bool) : UNTRACKED (UntrackedFlags a b) = true.
Proof. by destruct a, b. Qed.

(** A fold whose steps each add the untracked slots of an element. *)
Lemma foldM_adds {B} (step : Emitter -> B -> option Emitter) (os_of : B -> list Z) (P : B -> Prop)
    (l : list B) :
  (forall E b, slots_ok E -> P b -> NoDup (taken E ++ os_of b) ->
     Z.of_nat (length (taken E ++ os_of b)) < 2 ^ 31 ->
     exists E' k, step E b = Some E' /\ adds E E' k /\ untracked (os_of b) k) ->
  forall E, slots_ok E -> Forall P l -> NoDup (taken E ++ concat (os_of <$> l)) ->
  Z.of_nat (length (taken E ++ concat (os_of <$> l))) < 2 ^ 31 ->
  exists E' k, foldM step E l = Some E' /\ adds E E' k /\ untracked (concat (os_of <$> l)) k.
Proof.
  intros Hstep. induction l as [|b l IH]; intros E HE HP HD Hn.
  { exists E, []. split; [done|]. split; [by apply adds_refl|done]. }
  apply Forall_cons in HP as [Hb HP]. cbn [fmap list_fmap concat] in HD, Hn.
  change (list_fmap _ _ os_of l) with (os_of <$> l) in *. rewrite app_assoc in HD, Hn.
  pose proof HD as HD'. apply NoDup_app in HD' as (HDb & _ & _).
  destruct (Hstep E b HE Hb HDb ltac:(rewrite length_app in Hn; lia)) as (E1 & k1 & H1 & HA1 & HU1).
  assert (HT : taken E1 = taken E ++ os_of b).
  { unfold taken. rewrite (adds_slots _ _ _ HA1), fmap_app. by rewrite (proj1 HU1). }
  rewrite <- HT in HD, Hn.
  destruct (IH E1 (adds_ok _ _ _ HA1) HP HD Hn) as (E2 & k2 & H2 & HA2 & HU2).
  exists E2, (k1 ++ k2). split; [cbn [foldM]; by rewrite H1|]. split; [by eapply adds_trans|].
  by apply untracked_app.
Qed.

Lemma slot_adds (E : Emitter) (o : Z) (f : GcSlotFlags) :
  slots_ok E -> 0 <= o -> UNTRACKED f = true -> NoDup (taken E ++ [o]) ->
  Z.of_nat (length (taken E ++ [o])) < 2 ^ 31 ->
  exists E' k, ('(E, _) ← getSlot E o f; Some E) = Some E' /\ adds E E' k /\ untracked [o] k.
Proof.
  intros HE Ho Hf HD Hn. apply NoDup_app in HD as (_ & HD & _). rewrite length_app in Hn.
  destruct (getSlot_adds E o f HE Ho) as (E' & id & -> & HA).
  - intros Hin. apply (HD o Hin). constructor.
  - lia.
  - exists E', [(o, f)]. split; [done|]. split; [done|]. split; [done|]. by repeat constructor.
Qed.

Lemma add_untracked_adds (base : Z) (Pin : bool) (E : Emitter) (p : Z) :
  slots_ok E -> 0 <= base + p < 2 ^ 31 -> NoDup (taken E ++ [base + p]) ->
  Z.of_nat (length (taken E ++ [base + p])) < 2 ^ 31 ->
  exists E' k, add_untracked base Pin E p = Some E' /\ adds E E' k /\ untracked [base + p] k.
Proof.
  intros HE Hp HD Hn. unfold add_untracked, getUntrackedSlot. rewrite u32_small, s32_small by lia.
  apply slot_adds; try done; [lia|]. apply UntrackedFlags_untracked.
Qed.

Lemma concat_singletons {A} (l : list A) : concat ((fun x => [x]) <$> l) = l.
Proof. induction l as [|x l IH]; [done|]. cbn. f_equal. exact IH. Qed.

Lemma encode_alloca_adds (E : Emitter) (Entry : Z * AllocaInfo) :
  slots_ok E -> alloca_ok Entry -> NoDup (taken E ++ untracked_of Entry) ->
  Z.of_nat (length (taken E ++ untracked_of Entry)) < 2 ^ 31 ->
  exists E' k, encode_alloca getAllocatedType E Entry = Some E' /\ adds E E' k /\
    untracked (untracked_of Entry) k.
Proof.
  intros HE ([HAp HAa] & H0 & HF & HS) HD Hn. destruct Entry as [A Info]. cbn [fst snd] in *.
  unfold encode_alloca. replace (Offset Info =? InvalidPointerOffset) with false
    by (symmetry; apply Z.eqb_neq; unfold InvalidPointerOffset; lia).
  cbn [negb assert mbind option_bind]. rewrite HAa, HAp.
  unfold untracked_of, gc_offsets in *. cbn [fst snd] in *.
  destruct (isGcAggregate (getAllocatedType A)) eqn:HG.
  - destruct (HS eq_refl) as (Name & Body & Ps & HT & HPs & Hne).
    unfold encodeGcAggregate. rewrite HT in *. rewrite HPs in *. cbn [default isGcPointer] in *.
    cbn [mbind option_bind]. rewrite bool_decide_eq_false_2 by done. cbn [negb assert mbind option_bind].
    pose proof (foldM_adds (add_untracked (Offset Info) (isPinned Info)) (fun p => [Offset Info + p])
      (fun p => 0 <= Offset Info + p < 2 ^ 31) Ps (add_untracked_adds (Offset Info) (isPinned Info)) E HE) as HX.
    assert (HC : concat ((fun p => [Offset Info + p]) <$> Ps) = (fun p => Offset Info + p) <$> Ps).
    { rewrite <- (concat_singletons ((fun p => Offset Info + p) <$> Ps)), <- list_fmap_compose. done. }
    rewrite HC in HX. apply HX; [|done|done]. by rewrite Forall_fmap in HF.
  - destruct (isGcPointer (getAllocatedType A)) eqn:HP.
    + cbn [fmap list_fmap] in *. rewrite Z.add_0_r in *. apply slot_adds; try done.
      apply UntrackedFlags_untracked.
    + exists E, []. split; [done|]. split; [by apply adds_refl|done].
Qed.

(** ** A function *)

(** The header says nothing of slots. *)
Lemma header_tracking (Size : Z) (I : GcFuncInfo) :
  let E := encodeHeader Size newEmitter I in
  SlotMap E = ∅ /\ slots (Log E) = [] /\ FirstTrackedSlot E = 0 /\ NumTrackedSlots E = 0 /\
  forall ip i, slot_live (Log E) ip i = false.
Proof.
  unfold encodeHeader. destruct (HasFunclets I), (isFPBasedFunction (Function I)),
    (isVarArg (Function I)), FIXED_STACK_PARAMETER_SCRATCH_AREA; done.
Qed.

Lemma start_settled (Size : Z) (I : GcFuncInfo) (last : Z) :
  let E := encodeHeader Size newEmitter I in
  settled (MkEmitter (SlotMap E) (FirstTrackedSlot E) (NumTrackedSlots E) [] [] (Log E))
    newLiveSets last.
Proof.
  intros E. destruct (header_tracking Size I) as (HM & HS & HF & HN & HL). fold E in HM, HS, HF, HN, HL.
  assert (Hbit : forall i, bit (replicate 25 false) i = false).
  { intros i. unfold bit. destruct (replicate 25 false !! i) as [b|] eqn:Hb; [|done].
    by apply lookup_replicate in Hb as [-> _]. }
  split; [|done| |].
  - split; cbn [SlotMap FirstTrackedSlot NumTrackedSlots Log]; rewrite ?HS, ?HF, ?HN; try done.
    split; cbn [SlotMap Log]; rewrite HM, HS; [|done]. intros o i. split; [done|].
    by intros [_ [f Hf]].
  - intros i. cbn [OldLiveSet newLiveSets]. by rewrite Hbit.
  - intros ip i _. cbn [OldLiveSet newLiveSets Log]. by rewrite HL, Hbit.
Qed.

Lemma taken_spec (E : Emitter) (o : Z) :
  slots_ok E -> o ∈ taken E <-> is_Some (SlotMap E !! o).
Proof.
  intros HE. unfold taken. rewrite list_elem_of_fmap. split.
  - intros ([o' f] & -> & [i Hi]%list_elem_of_lookup_1). eexists. by eapply slots_ok_map.
  - intros [i [_ [f Hf]]%(slots_map _ HE)]. exists (o, f). split; [done|].
    by eapply list_elem_of_lookup_2.
Qed.

Lemma taken_NoDup (E : Emitter) : slots_ok E -> NoDup (taken E).
Proof.
  intros HE. unfold taken. apply NoDup_alt. intros i j o Hi Hj.
  rewrite list_lookup_fmap in Hi, Hj.
  apply fmap_Some in Hi as ([o1 f1] & Hi & ->). apply fmap_Some in Hj as ([o2 f2] & Hj & Ho).
  cbn in Ho. subst o2. apply (slots_ok_map E o1 i f1 HE) in Hi. apply (slots_ok_map E o1 j f2 HE) in Hj.
  rewrite Hi in Hj. injection Hj as Hj. lia.
Qed.

(** What the two passes over the pointers report. *)
Lemma reported_split (E E' : Emitter) (L : LiveSets) (k : list (Z * GcSlotFlags)) (os : list Z)
    (ip o : Z) :
  tracking E L -> adds E E' k -> untracked os k ->
  reported (Log E') ip o <->
    (exists i, SlotMap E !! o = Some (Z.of_nat i) /\ slot_live (Log E) ip (Z.of_nat i) = true) \/ o ∈ os.
Proof.
  intros HT HA [Hos HU]. unfold reported. rewrite (adds_slots _ _ _ HA). split.
  - intros (i & f & [Hi|[Hge Hi]]%lookup_app_Some & HL).
    + left. exists i. split; [by eapply slots_ok_map; [apply HT|]|].
      rewrite (adds_live _ _ _ HA) in HL. destruct HL as [HL|HL]; [|done].
      pose proof (proj1 (Forall_forall _ _) (track_flags _ _ HT) _ (list_elem_of_lookup_2 _ _ _ Hi)) as HF.
      cbn in HF. by subst f.
    + right. rewrite <- Hos. apply list_elem_of_fmap. exists (o, f). split; [done|].
      by eapply list_elem_of_lookup_2.
  - intros [(i & Hi & HL)|Ho].
    + apply (slots_map _ (track_slots _ _ HT)) in Hi as [_ [f Hf]]. rewrite Nat2Z.id in Hf.
      exists i, f. split; [by apply lookup_app_l_Some|]. right. by rewrite (adds_live _ _ _ HA).
    + rewrite <- Hos in Ho. apply list_elem_of_fmap in Ho as ([o' f] & -> & [i Hi]%list_elem_of_lookup_1).
      exists (length (slots (Log E)) + i)%nat, f. split.
      * rewrite lookup_app_r by lia. by rewrite Nat.add_comm, Nat.add_sub.
      * left. exact (proj1 (Forall_forall _ _) HU _ (list_elem_of_lookup_2 _ _ _ Hi)).
Qed.

Lemma sorted_increasing (Rs : list SafepointRecord) (last : Z) :
  StronglySorted Z.lt (getInstructionOffset <$> Rs) ->
  Forall (fun R => last < site R) Rs -> increasing last Rs.
Proof.
  revert last. induction Rs as [|R Rs IH]; intros last HS HL; [done|].
  apply Forall_cons in HL as [HR HL]. cbn in HS. inversion HS as [|? ? HS' HF]. subst.
  split; [done|]. apply IH; [done|]. rewrite Forall_fmap in HF. eapply Forall_impl; [exact HF|].
  intros R' HR'. unfold site. cbn in HR'. lia.
Qed.

(** Calls that are about no slot change nothing. *)
Lemma reported_quiet (log : list EncoderCall) (ip o : Z) (tail : list EncoderCall) :
  slots tail = [] -> Forall (fun c => match c with SetSlotState _ _ _ => False | _ => True end) tail ->
  reported (log ++ tail) ip o <-> reported log ip o.
Proof.
  intros HS HF. unfold reported. rewrite slots_app, HS, app_nil_r.
  assert (HL : forall i, slot_live (log ++ tail) ip i = slot_live log ip i).
  { intros i. unfold slot_live. rewrite foldl_app. clear HS. generalize (foldl (state_step ip i) false log).
    induction HF as [|c tail Hc _ IH]; intros b; [done|]. cbn. rewrite IH. by destruct c. }
  by setoid_rewrite HL.
Qed.

(** All GC pointers in the recorded allocations of a function. *)
Definition frame_pointers (I : GcFuncInfo) : list Z :=
  concat (untracked_of <$> map_to_list (AllocaMap I)).

Lemma frame_pointers_spec (I : GcFuncInfo) (o : Z) :
  o ∈ frame_pointers I <->
  exists A Info, AllocaMap I !! A = Some Info /\ o ∈ untracked_of (A, Info).
Proof.
  unfold frame_pointers. rewrite list_elem_of_In, in_concat. setoid_rewrite <- list_elem_of_In. split.
  - intros (os & HI & Ho). apply list_elem_of_fmap in HI as ([A Info] & -> & HI).
    apply elem_of_map_to_list in HI. eauto.
  - intros (A & Info & HI & Ho). exists (untracked_of (A, Info)). split; [|done].
    apply list_elem_of_fmap. exists (A, Info). split; [done|]. by apply elem_of_map_to_list.
Qed.

(** The calls that close the encoding. *)
Definition closing (Rs : list SafepointRecord) : list EncoderCall :=
  FinalizeSlotIds ::
  (if PARTIALLY_INTERRUPTIBLE_GC_SUPPORTED
   then [DefineCallSites (site <$> Rs) ((fun _ => CallSiteSize) <$> Rs)] else []) ++ [Build; Emit].

Variable traversal : gmap Z AllocaInfo -> list (Z * AllocaInfo).
Hypothesis Htraversal : forall M, traversal M ≡ₚ map_to_list M.

Lemma encodeUntrackedPointers_adds (E : Emitter) (I : GcFuncInfo) :
  slots_ok E -> map_Forall (fun A Info => alloca_ok (A, Info)) (AllocaMap I) ->
  NoDup (frame_pointers I) -> (forall o, o ∈ frame_pointers I -> o ∉ taken E) ->
  Z.of_nat (length (taken E)) + Z.of_nat (length (frame_pointers I)) < 2 ^ 31 ->
  exists E' k os, encodeUntrackedPointers getAllocatedType traversal E I = Some E' /\
    adds E E' k /\ untracked os k /\ os ≡ₚ frame_pointers I.
Proof.
  intros HE HA HD HF Hn.
  assert (HP : concat (untracked_of <$> traversal (AllocaMap I)) ≡ₚ frame_pointers I).
  { unfold frame_pointers. generalize (Htraversal (AllocaMap I)). clear.
    generalize (traversal (AllocaMap I)), (map_to_list (AllocaMap I)). intros l l' Hl.
    induction Hl as [|x l l' _ IH|x y l|l1 l2 l3 _ IH1 _ IH2]; cbn; [done|by rewrite IH| |by etrans].
    by rewrite !app_assoc, (Permutation_app_comm (untracked_of _)). }
  destruct (foldM_adds (encode_alloca getAllocatedType) untracked_of alloca_ok
    (traversal (AllocaMap I)) encode_alloca_adds E HE) as (E' & k & HEnc & HAdd & HU).
  - rewrite Forall_forall. intros [A Info] HI. rewrite Htraversal in HI.
    apply elem_of_map_to_list in HI. exact (HA A Info HI).
  - rewrite HP. apply NoDup_app. split; [by apply taken_NoDup|]. split; [|done].
    intros o Ho Hf. exact (HF o Hf Ho).
  - rewrite length_app. rewrite (Permutation_length HP). lia.
  - by exists E', k, (concat (untracked_of <$> traversal (AllocaMap I))).
Qed.
End slots.

(** C4: The GC information of a function describes its frame: for a stack map
    whose safepoints follow each other and allocations in disjoint places, the
    emitter succeeds; what its calls tell the encoder to be live at a safepoint
    are exactly the stack slots that the stack map names there and the GC
    pointers in the recorded allocations, no matter in which order the map of
    allocations is traversed; and the slots are final before the call sites are
    given, one for each safepoint. *)
Theorem gc_info_describes_the_frame (GE : GcInfoEncoder) (GT : GcTarget) (DL : DataLayout)
    (getAllocatedType : Z -> LTy) (traversal : gmap Z AllocaInfo -> list (Z * AllocaInfo))
    (HotCodeSize : Z) (I : GcFuncInfo) (Map : StackMap)
    (Hids : consecutive_ids GE) (Htraversal : forall M, traversal M ≡ₚ map_to_list M)
    (Hone : getNumFunctions Map = 1) (Hsome : records Map <> [])
    (Hrecords : Forall record_ok (records Map))
    (Horder : StronglySorted Z.lt (getInstructionOffset <$> records Map))
    (Hallocas : map_Forall (fun A Info => alloca_ok getAllocatedType (A, Info)) (AllocaMap I))
    (Hframe : NoDup (frame_pointers getAllocatedType I))
    (Hdisjoint : Forall (fun o => Forall (fun R => ~ Exists (names o) (locations R)) (records Map))
       (frame_pointers getAllocatedType I))
    (Hsize : Z.of_nat (total_locations (records Map)) +
       Z.of_nat (length (frame_pointers getAllocatedType I)) < 2 ^ 31) :
  exists E log, emitFunction getAllocatedType traversal HotCodeSize true (Some Map) newEmitter I = Some E /\
    Log E = log ++ closing (records Map) /\
    Forall (fun R => forall o, reported (Log E) (site R) o <->
      Exists (names o) (locations R) \/
      exists A Info, AllocaMap I !! A = Some Info /\ o ∈ untracked_of getAllocatedType (A, Info))
      (records Map).
Proof.
  pose proof (start_settled HotCodeSize I (-1)) as HS0. cbn zeta in HS0.
  destruct (header_tracking HotCodeSize I) as (HM0 & HSl0 & _).
  unfold emitFunction. cbn [needsPointerReporting andb].
  unfold encodeTrackedPointers. rewrite Hone. cbn [Z.eqb Pos.eqb assert mbind option_bind].
  set (E0 := MkEmitter _ _ _ _ _ _) in *.
  assert (HI : increasing (-1) (records Map)).
  { apply sorted_increasing; [done|]. eapply Forall_impl; [exact Hrecords|].
    intros R [_ HR]. unfold site. unfold CallSiteSize in *. lia. }
  destruct (track_records_spec Hids (records Map) E0 newLiveSets (-1) HS0 Hrecords HI)
    as (E1 & L1 & HE1 & HT1 & _ & HL1 & HC1 & HZ1 & _ & HX1 & HW1).
  { subst E0. cbn [Log]. rewrite HSl0. cbn. lia. }
  rewrite HE1. cbn [mbind option_bind].
  assert (HTk : forall o, o ∈ taken E1 -> Exists (fun R => Exists (names o) (locations R)) (records Map)).
  { intros o Ho. apply (taken_spec E1 o (track_slots _ _ HT1)), HW1 in Ho as [Ho|Ho]; [|done].
    subst E0. cbn [SlotMap] in Ho. rewrite HM0 in Ho. by destruct Ho. }
  destruct (encodeUntrackedPointers_adds Hids getAllocatedType traversal Htraversal E1 I
    (track_slots _ _ HT1) Hallocas Hframe) as (E2 & k & os & HE2 & HA2 & HU2 & Hos).
  { intros o Ho HN%HTk. rewrite Forall_forall in Hdisjoint. specialize (Hdisjoint o Ho).
    apply Exists_exists in HN as (R & HR & HN). rewrite Forall_forall in Hdisjoint.
    by apply (Hdisjoint R HR). }
  { unfold taken. rewrite length_fmap. subst E0. cbn [Log] in HL1. rewrite HSl0 in HL1. cbn in HL1. lia. }
  rewrite HE2. cbn [mbind option_bind]. unfold finalizeEncoding.
  destruct (adds_sites _ _ _ HA2) as [HC2 HZ2]. cbn [CallSites CallSiteSizes tell]. rewrite HC2, HZ2, HC1, HZ1.
  assert (Hquiet : forall R o, reported (Log E2 ++ closing (records Map)) (site R) o <-> reported (Log E2) (site R) o).
  { intros R o. apply reported_quiet; unfold closing; destruct PARTIALLY_INTERRUPTIBLE_GC_SUPPORTED; by repeat constructor. }
  assert (HR : Forall (fun R => forall o, reported (Log E2 ++ closing (records Map)) (site R) o <->
      Exists (names o) (locations R) \/
      exists A Info, AllocaMap I !! A = Some Info /\ o ∈ untracked_of getAllocatedType (A, Info))
      (records Map)).
  { eapply Forall_impl; [exact HX1|]. intros R HR o.
    rewrite Hquiet. pose proof (reported_split E1 E2 L1 k os (site R) o HT1 HA2 HU2) as HX.
    cbn beta in HR. rewrite HX, HR, Hos. by rewrite frame_pointers_spec. }
  unfold closing, sites_of, sizes_of in *. subst E0. cbn [CallSites CallSiteSizes app] in *.
  destruct PARTIALLY_INTERRUPTIBLE_GC_SUPPORTED.
  - rewrite length_fmap. replace (0 <? Z.of_nat (length (records Map))) with true.
    2: { symmetry. apply Z.ltb_lt. destruct (records Map); [done|cbn; lia]. }
    cbn [assert mbind option_bind]. eexists _, (Log E2). split; [reflexivity|].
    unfold emitEncoding, tell. cbn [Log]. rewrite <- !app_assoc. split; [done|exact HR].
  - cbn [mbind option_bind]. eexists _, (Log E2). split; [reflexivity|].
    unfold emitEncoding, tell. cbn [Log]. rewrite <- !app_assoc. split; [done|exact HR].
Qed.

(** ** A frame with both kinds of slots *)

#[local] Instance counting_encoder : GcInfoEncoder :=
  {| answer_GetStackSlotId := fun log _ _ => Z.of_nat (length (slots log)) |}.

#[local] Instance amd64 : GcTarget :=
  {| PARTIALLY_INTERRUPTIBLE_GC_SUPPORTED := true; FIXED_STACK_PARAMETER_SCRATCH_AREA := true;
     DW_STACK_POINTER := 7 |}.

(** An object reference at 64 and a value class with two at 96. *)
Definition frame_type (Alloca : Z) : LTy := if Alloca =? 1 then object_ref else LStruct 9 nested_body.

Definition frame_info : GcFuncInfo :=
  MkGcFuncInfo (MkFunction false (Some "coreclr"%string) "true"%string false)
    (<[1 := MkAllocaInfo 64 GcPointer]> (<[2 := MkAllocaInfo 96 (Z.lor GcAggregate Pinned)]> ∅))
    0 0 GENERIC_CONTEXTPARAM_NONE 0 false.

Definition frame_map : StackMap :=
  MkStackMap 1
    [MkSafepoint 10 [MkLocation Indirect 7 8; MkLocation Constant 0 0; MkLocation Indirect 7 16];
     MkSafepoint 20 [MkLocation Indirect 7 16; MkLocation Indirect 7 24]].

Lemma frame_entries : map_to_list (AllocaMap frame_info) =
  [(2, MkAllocaInfo 96 (Z.lor GcAggregate Pinned)); (1, MkAllocaInfo 64 GcPointer)].
Proof. by vm_compute. Qed.

Lemma frame_allocas_ok :
  map_Forall (fun A Info => @alloca_ok x64 frame_type (A, Info)) (AllocaMap frame_info).
Proof.
  apply map_Forall_to_list. rewrite frame_entries. repeat constructor; try done.
  intros _. exists 9, nested_body, [16; 24]. by split_and!; vm_compute.
Qed.

Lemma gc_info_describes_the_frame_witness :
  exists E log,
    emitFunction (H1 := x64) frame_type map_to_list 100 true (Some frame_map) newEmitter frame_info = Some E /\
    Log E = log ++ closing (records frame_map) /\
    reported (Log E) 18 112 /\ reported (Log E) 18 24 /\ ~ reported (Log E) 18 8.
Proof.
  destruct (gc_info_describes_the_frame counting_encoder amd64 x64 frame_type map_to_list 100
    frame_info frame_map) as (E & log & HE & HL & HR).
  - by intros log o f.
  - by intros M.
  - reflexivity.
  - discriminate.
  - repeat constructor; done.
  - repeat constructor; done.
  - exact frame_allocas_ok.
  - unfold frame_pointers. rewrite frame_entries. apply (bool_decide_unpack _). by vm_compute.
  - unfold frame_pointers. rewrite frame_entries.
    repeat (constructor; [repeat (constructor; [rewrite Exists_exists; intros (? & Hi & ? & ?);
      repeat (apply elem_of_cons in Hi as [->|Hi]; [done|]); by apply not_elem_of_nil in Hi|]); constructor|]).
    constructor.
  - unfold frame_pointers. rewrite frame_entries. by vm_compute.
  - exists E, log. split; [exact HE|]. split; [exact HL|].
    apply Forall_cons in HR as [_ HR]. apply Forall_cons in HR as [HR _].
    split; [|split].
    + apply HR. right. exists 2, (MkAllocaInfo 96 (Z.lor GcAggregate Pinned)). split; [reflexivity|].
      vm_compute. left.
    + apply HR. left. right. left. split; reflexivity.
    + intros HN. apply HR in HN as [HN|(A & Info & HA & HN)]; clear HE HL HR.
      * apply Exists_exists in HN as (? & Hi & ? & ?).
        repeat (apply elem_of_cons in Hi as [->|Hi]; [done|]). by apply not_elem_of_nil in Hi.
      * apply elem_of_map_to_list in HA. rewrite frame_entries in HA.
        repeat (apply elem_of_cons in HA as [[= -> ->]|HA];
          [vm_compute in HN; repeat (apply elem_of_cons in HN as [[=]|HN]); by apply not_elem_of_nil in HN|]).
        by apply not_elem_of_nil in HA.
Defined.
