(* ===== verification/GcUtil.v ===== *)
(** * The utilities of the GC encoder (lib/GcInfo/GcInfoUtil.cpp,
      include/GcInfo/GcInfoUtil.h)

    The classes that the runtime's encoder is compiled against: bit positions
    and checked conversions, an in-place quicksort, an intrusive queue, a list
    in chunks and a hash table.  The sort is a permutation that sorts within
    logarithmic recursion depth; the queue and the chunks refine lists. *)

From S2P Require Import Prelude.

Module GcUtil.

Definition assert (b : bool) : option unit := if b then Some tt else None.

(** ** Bits and conversions *)

(** [val] and [alignment] are of a 64-bit [size_t]. *)
Definition IS_ALIGNED (val alignment : Z) : option bool :=
  _ ← assert (Z.land alignment (u64 (alignment - 1)) =? 0);
  Some (Z.land val (u64 (alignment - 1)) =? 0).

Definition hashTable : list Z :=
  [-1; 0; 1; 26; 2; 23; 27; -1; 3; 16; 24; 30; 28; 11; -1; 13; 4; 7; 17;
   -1; 25; 22; 31; 15; 29; 10; 12; 6; -1; 21; 14; 9; 5; 20; 8; 19; 18].

Definition BitPosition (value : Z) : option Z :=
  _ ← assert (negb (value =? 0) && (Z.land value (u32 (value - 1)) =? 0));
  let PRIME := 37 in
  let hash := value mod PRIME in
  index ← hashTable !! Z.to_nat hash;
  _ ← assert (negb (index =? -1));
  Some (u32 index).

(** An integer type of C++. *)
Record IntType := MkIntType { is_signed : bool; width : Z }.

Definition cast (T : IntType) (x : Z) : Z := if is_signed T then swrap (width T) x else wrap (width T) x.

Definition FitsIn (Dst Src : IntType) (val : Z) : bool :=
  if Bool.eqb (is_signed Src) (is_signed Dst) then
    if width Src <=? width Dst then true else val =? cast Src (cast Dst val)
  else if is_signed Src then
    if negb ((val =? 0) || (0 <? val)) then false
    else if width Src <=? width Dst then true else val =? cast Src (cast Dst val)
  else if width Src <? width Dst then true
  else ((0 <? cast Dst val) || (cast Dst val =? 0)) && (val =? cast Src (cast Dst val)).

(** ** Quicksort *)

Section sort.
Context {T : Type}.
Variable Compare : T -> T -> Z.

(** Reads and writes at an index; those outside the array are errors. *)
Definition array_at (m_pBase : list T) (i : Z) : option T :=
  if i <? 0 then None else m_pBase !! Z.to_nat i.

Definition Swap (m_pBase : list T) (iFirst iSecond : Z) : option (list T) :=
  if iFirst =? iSecond then Some m_pBase
  else
    x ← array_at m_pBase iFirst;
    y ← array_at m_pBase iSecond;
    Some (<[Z.to_nat iSecond := x]> (<[Z.to_nat iFirst := y]> m_pBase)).

(** The loop that moves what is smaller than the pivot to the left, for the [n]
    indices from [i]. *)
Fixpoint move_smaller (n : nat) (m_pBase : list T) (iLeft iLast i : Z) : option (list T * Z) :=
  match n with
  | O => Some (m_pBase, iLast)
  | S n =>
      x ← array_at m_pBase i;
      pivot ← array_at m_pBase iLeft;
      if Compare x pivot <? 0 then
        m_pBase ← Swap m_pBase i (iLast + 1);
        move_smaller n m_pBase iLeft (iLast + 1) (i + 1)
      else move_smaller n m_pBase iLeft iLast (i + 1)
  end.

(** One round: the pivot at its place, and its index. *)
Definition split_range (m_pBase : list T) (iLeft iRight : Z) : option (list T * Z) :=
  let m_iCount := Z.of_nat (length m_pBase) in
  _ ← assert ((0 <=? iLeft) && (iLeft <? m_iCount));
  _ ← assert ((0 <=? iRight) && (iRight <? m_iCount));
  m_pBase ← Swap m_pBase iLeft (Z.quot (s64 (iLeft + iRight)) 2);
  '(m_pBase, iLast) ← move_smaller (Z.to_nat (iRight - iLeft)) m_pBase iLeft iLeft (iLeft + 1);
  m_pBase ← Swap m_pBase iLeft iLast;
  Some (m_pBase, iLast).

(** The loop of [SortRange]; [depth] bounds the nesting of its calls of itself
    and [budget] the rounds of one call. *)
Fixpoint SortRange (budget depth : nat) : nat -> list T -> Z -> Z -> option (list T) :=
  fix loop (rounds : nat) (m_pBase : list T) (iLeft iRight : Z) : option (list T) :=
    if iRight <=? iLeft then Some m_pBase
    else
      match depth, rounds with
      | S depth, S rounds =>
          '(m_pBase, iLast) ← split_range m_pBase iLeft iRight;
          let iLeftLast := iLast - 1 in
          let iRightFirst := iLast + 1 in
          if iLeftLast - iLeft <? iRight - iRightFirst then
            m_pBase ← SortRange budget depth budget m_pBase iLeft iLeftLast;
            loop rounds m_pBase iRightFirst iRight
          else
            m_pBase ← SortRange budget depth budget m_pBase iRightFirst iRight;
            loop rounds m_pBase iLeft iLeftLast
      | _, _ => None
      end.

Definition Sort (depth : nat) (m_pBase : list T) : option (list T) :=
  SortRange (length m_pBase) depth (length m_pBase) m_pBase 0 (Z.of_nat (length m_pBase) - 1).
End sort.

(** ** The intrusive queue *)

(** The links of the objects in memory; an object is its link.  [m_pHead] is the
    address of the sentinel in the list object. *)
Record SList := MkSList { m_pNext : gmap Z (option Z); m_pHead : Z; m_pTail : Z }.

Definition next (L : SList) (pLink : Z) : option Z := mjoin (m_pNext L !! pLink).

(** The constructor; the links are those in memory, with a sentinel. *)
Definition newSList (Links : gmap Z (option Z)) (m_link : Z) : SList :=
  MkSList (<[m_link := None]> Links) m_link m_link.

Definition IsEmpty (L : SList) : bool := bool_decide (next L (m_pHead L) = None).

Definition InsertTail (L : SList) (pObj : Z) : SList :=
  MkSList (<[m_pTail L := Some pObj]> (m_pNext L)) (m_pHead L) pObj.

Definition RemoveHead (L : SList) : SList * option Z :=
  let pLink := next L (m_pHead L) in
  let Links :=
    match pLink with
    | Some Link => <[m_pHead L := next L Link]> (m_pNext L)
    | None => m_pNext L
    end in
  let Tail := if bool_decide (pLink = Some (m_pTail L)) then m_pHead L else m_pTail L in
  (MkSList Links (m_pHead L) Tail, pLink).

Definition GetHead (L : SList) : option Z := next L (m_pHead L).
Definition GetNext (L : SList) (pObj : Z) : option Z := next L pObj.

(** [SLink::InsertAfter]; the link to insert is in no list. *)
Definition InsertAfter (L : SList) (pLink pLinkToInsert : Z) : option SList :=
  _ ← assert (bool_decide (next L pLinkToInsert = None));
  let pTemp := next L pLink in
  let Links := <[pLink := Some pLinkToInsert]> (m_pNext L) in
  Some (MkSList (<[pLinkToInsert := pTemp]> Links) (m_pHead L) (m_pTail L)).

(** ** The list in chunks *)

Section chunks.
Context {T : Type}.

(** The parameters of the template: [cbElement] and [cbBaseSize] are the sizes
    of an element and of the header of a chunk. *)
Variables (INITIAL_CHUNK_LENGTH CHUNK_LENGTH_GROWTH_FACTOR cbElement cbBaseSize : Z).

Definition MAXSIZE_T : Z := 2 ^ 64 - 1.

(** A chunk of memory: how many elements fit, and those that were written. *)
Record Chunk := MkChunk { room : Z; rgItems : list T }.

Record StructArrayList := MkArrayList {
  Chunks : list Chunk;
  m_nItemsInLastChunk : Z;
  m_nTotalItems : Z;
  m_nLastChunkCapacity : Z
}.

(** The constructor leaves the two counters of the last chunk uninitialised. *)
Definition newArrayList (Items Capacity : Z) : StructArrayList := MkArrayList [] Items 0 Capacity.

Definition maxChunkCapacity : Z := (MAXSIZE_T - cbBaseSize) / cbElement.

Definition CreateNewChunk (L : StructArrayList) : option StructArrayList :=
  _ ← assert (0 <? INITIAL_CHUNK_LENGTH);
  _ ← assert (0 <? CHUNK_LENGTH_GROWTH_FACTOR);
  _ ← assert (0 <? cbElement);
  _ ← assert (0 <? maxChunkCapacity);
  let nChunkCapacity :=
    if bool_decide (Chunks L = []) then INITIAL_CHUNK_LENGTH
    else u64 (m_nLastChunkCapacity L * CHUNK_LENGTH_GROWTH_FACTOR) in
  let nChunkCapacity :=
    if maxChunkCapacity <? nChunkCapacity then maxChunkCapacity else nChunkCapacity in
  let cbChunk := u64 (cbBaseSize + u64 (cbElement * nChunkCapacity)) in
  Some (MkArrayList (Chunks L ++ [MkChunk ((cbChunk - cbBaseSize) / cbElement) []]) 0
          (m_nTotalItems L) nChunkCapacity).

(** A write of the element behind those of the last chunk. *)
Definition write_last (cs : list Chunk) (index : Z) (x : T) : option (list Chunk) :=
  match last cs with
  | Some C =>
      _ ← assert ((index =? Z.of_nat (length (rgItems C))) && (index <? room C));
      Some (removelast cs ++ [MkChunk (room C) (rgItems C ++ [x])])
  | None => None
  end.

(** [AppendThrowing] with the element that its caller writes. *)
Definition AppendThrowing (L : StructArrayList) (x : T) : option StructArrayList :=
  L ← (if bool_decide (Chunks L = []) || (m_nItemsInLastChunk L =? m_nLastChunkCapacity L)
       then CreateNewChunk L else Some L);
  let Items := u64 (m_nItemsInLastChunk L + 1) in
  cs ← write_last (Chunks L) (Items - 1) x;
  Some (MkArrayList cs Items (u64 (m_nTotalItems L + 1)) (m_nLastChunkCapacity L)).

Definition Count (L : StructArrayList) : Z := m_nTotalItems L.

(** The iterator: the chunks from the current one on, and the capacity it takes
    that one to have; the number of elements it reports for it. *)
Definition items_in_current (L : StructArrayList) (cs : list Chunk) (nChunkCapacity : Z) : Z :=
  match cs with [_] => m_nItemsInLastChunk L | _ => nChunkCapacity end.

(** The elements of the current chunk, as many as the iterator reports; an
    element that was not written is an error. *)
Definition read_chunk (C : Chunk) (n : Z) : option (list T) :=
  _ ← assert (n <=? Z.of_nat (length (rgItems C)));
  Some (take (Z.to_nat n) (rgItems C)).

Fixpoint copy_chunks (L : StructArrayList) (cs : list Chunk) (nChunkCapacity : Z) :
    option (list T) :=
  match cs with
  | [] => Some []
  | C :: Rest =>
      xs ← read_chunk C (items_in_current L cs nChunkCapacity);
      ys ← copy_chunks L Rest (u64 (nChunkCapacity * CHUNK_LENGTH_GROWTH_FACTOR));
      Some (xs ++ ys)
  end.

Definition CopyTo (L : StructArrayList) : option (list T) :=
  copy_chunks L (Chunks L) INITIAL_CHUNK_LENGTH.

Fixpoint find_index (L : StructArrayList) (cs : list Chunk) (nChunkCapacity chunkBaseIndex index : Z) :
    option T :=
  match cs with
  | [] => None
  | C :: Rest =>
      let nextBaseIndex := u64 (chunkBaseIndex + items_in_current L cs nChunkCapacity) in
      if index <? nextBaseIndex then rgItems C !! Z.to_nat (index - chunkBaseIndex)
      else find_index L Rest (u64 (nChunkCapacity * CHUNK_LENGTH_GROWTH_FACTOR)) nextBaseIndex index
  end.

Definition GetIndex (L : StructArrayList) (index : Z) : option T :=
  find_index L (Chunks L) INITIAL_CHUNK_LENGTH 0 index.
End chunks.

(** ** The hash table *)

Section table.
Context {Key Value : Type}.

(** The equality of the keys, which the hash function respects; the order of the
    entries stands for that of the buckets. *)
Variable Equals : Key -> Key -> bool.

Definition Lookup (payload : list (Key * Value)) (key : Key) : option Value :=
  snd <$> List.find (fun e => Equals e.1 key) payload.

Fixpoint payload_assign (payload : list (Key * Value)) (key : Key) (value : Value) : list (Key * Value) :=
  match payload with
  | [] => [(key, value)]
  | e :: payload => if Equals e.1 key then (e.1, value) :: payload else e :: payload_assign payload key value
  end.

(** The table, and whether the key was there before. *)
Definition Set_ (payload : list (Key * Value)) (key : Key) (value : Value) :
    list (Key * Value) * bool :=
  (payload_assign payload key value, match Lookup payload key with Some _ => true | None => false end).
End table.
End GcUtil.
