(* ===== verification/GcUtilRules.v ===== *)
(** * What the utilities of the GC encoder do

    Bit positions and checked conversions are exact, the quicksort sorts within
    logarithmic recursion depth, and the queue and the chunks refine lists. *)

From S2P Require Import Prelude GcUtil.
Import GcUtil.

(** ** Bits and conversions *)

(** The hash table has the position of every power of two of 32 bits. *)
Lemma BitPosition_pow (k : Z) : 0 <= k < 32 -> BitPosition (2 ^ k) = Some k.
Proof.
  intros Hk. assert (HA : Forall (fun k => BitPosition (2 ^ Z.of_nat k) = Some (Z.of_nat k)) (seq 0 32)).
  { apply (bool_decide_unpack _). by vm_compute. }
  rewrite Forall_forall in HA. specialize (HA (Z.to_nat k)). rewrite Z2Nat.id in HA by lia.
  apply HA. apply elem_of_seq. lia.
Qed.

(** The values of a type. *)
Definition in_type (T : IntType) (x : Z) : Prop :=
  if is_signed T then - 2 ^ (width T - 1) <= x < 2 ^ (width T - 1) else 0 <= x < 2 ^ width T.

Lemma cast_id (T : IntType) (x : Z) : 0 < width T -> in_type T x -> cast T x = x.
Proof.
  unfold in_type, cast. intros HT. destruct (is_signed T); intros Hx.
  - by apply swrap_small.
  - by apply wrap_small.
Qed.

Lemma cast_in_type (T : IntType) (x : Z) : 0 < width T -> in_type T (cast T x).
Proof.
  unfold in_type, cast. intros HT. destruct (is_signed T); [|apply wrap_range; lia].
  unfold swrap. assert (H2 : 2 ^ width T = 2 * 2 ^ (width T - 1)).
  { rewrite <- Z.pow_succ_r by lia. f_equal. lia. }
  pose proof (Z.mod_pos_bound x (2 ^ width T) ltac:(lia)).
  destruct (Z.ltb_spec (x mod 2 ^ width T) (2 ^ (width T - 1))); lia.
Qed.

(** [FitsIn] is true of a value exactly if the destination type has it, for
    all four combinations of signedness and any two widths. *)
Theorem FitsIn_correct (Dst Src : IntType) (val : Z)
    (HD : 0 < width Dst) (HS : 0 < width Src) (Hval : in_type Src val) :
  FitsIn Dst Src val = true <-> in_type Dst val.
Proof.
  pose proof (cast_in_type Dst val HD) as HC. pose proof (cast_id Dst val HD) as HI.
  pose proof (cast_id Src (cast Dst val) HS) as HSrc.
  assert (Hm : forall a b, 0 < a <= b -> 2 ^ a <= 2 ^ b /\ 2 ^ (a - 1) <= 2 ^ (b - 1)).
  { intros a b Hab. split; apply Z.pow_le_mono_r; lia. }
  assert (Hd : forall a, 0 < a -> 2 ^ a = 2 * 2 ^ (a - 1)).
  { intros a Ha. rewrite <- Z.pow_succ_r by lia. f_equal. lia. }
  pose proof (Hd _ HD). pose proof (Hd _ HS).
  assert (H1 : forall a b, 0 < a < b -> 2 ^ a <= 2 ^ (b - 1)) by (intros; apply Z.pow_le_mono_r; lia).
  unfold FitsIn, in_type in *. destruct (is_signed Src), (is_signed Dst); cbn [Bool.eqb].
  - destruct (Z.leb_spec (width Src) (width Dst)) as [Hw|Hw].
    + split; [|done]. intros _. destruct (Hm (width Src) (width Dst)); lia.
    + destruct (Hm (width Dst) (width Src)); [lia|]. rewrite Z.eqb_eq, HSrc by lia. split; [lia|].
      intros Hx. by rewrite HI.
  - destruct (Z.eqb_spec val 0) as [->|Hz]; cbn [orb negb].
    + split; [lia|intros _]. destruct (width Src <=? width Dst); [done|]. rewrite HI by lia.
      rewrite HI in HSrc by lia. rewrite HSrc by lia. done.
    + destruct (Z.ltb_spec 0 val); cbn [negb]; [|split; [done|lia]].
      destruct (Z.leb_spec (width Src) (width Dst)) as [Hw|Hw].
      * split; [|done]. intros _. destruct (Hm (width Src) (width Dst)); lia.
      * pose proof (H1 (width Dst) (width Src)). rewrite Z.eqb_eq, HSrc by lia. split; [lia|].
        intros Hx. by rewrite HI.
  - destruct (Z.ltb_spec (width Src) (width Dst)) as [Hw|Hw].
    + split; [|done]. intros _. pose proof (H1 (width Src) (width Dst)). lia.
    + destruct (Hm (width Dst) (width Src)); [lia|].
      rewrite andb_true_iff, orb_true_iff, Z.ltb_lt, !Z.eqb_eq. split.
      * intros [Hp He]. rewrite HSrc in He by lia. lia.
      * intros Hx. rewrite HI in * by lia. split; [lia|]. by rewrite HSrc by lia.
  - destruct (Z.leb_spec (width Src) (width Dst)) as [Hw|Hw].
    + split; [|done]. intros _. destruct (Hm (width Src) (width Dst)); lia.
    + destruct (Hm (width Dst) (width Src)); [lia|]. rewrite Z.eqb_eq, HSrc by lia. split; [lia|].
      intros Hx. by rewrite HI.
Qed.

Lemma FitsIn_correct_witness :
  FitsIn (MkIntType true 32) (MkIntType false 64) (2 ^ 31) = true <->
    in_type (MkIntType true 32) (2 ^ 31).
Proof. apply (FitsIn_correct (MkIntType true 32) (MkIntType false 64) (2 ^ 31)); by vm_compute. Defined.

(** ** Quicksort *)

Section sort.
Context {T : Type}.
Variable Compare : T -> T -> Z.

(** The comparison is a strict weak order, as every caller's is. *)
Definition le (x y : T) : Prop := 0 <= Compare y x.

Hypothesis Compare_asym : forall x y, Compare x y < 0 -> 0 <= Compare y x.
Hypothesis le_trans : forall x y z, le x y -> le y z -> le x z.

Lemma le_refl (x : T) : le x x.
Proof. unfold le. destruct (Z.lt_ge_cases (Compare x x) 0) as [H|H]; [by apply Compare_asym in H|lia]. Qed.

Lemma array_at_Some (a : list T) (i : Z) (x : T) : array_at a i = Some x -> 0 <= i < Z.of_nat (length a).
Proof.
  unfold array_at. destruct (Z.ltb_spec i 0); [done|]. intros H1%lookup_lt_Some. lia.
Qed.

Lemma array_at_is_Some (a : list T) (i : Z) : 0 <= i < Z.of_nat (length a) -> is_Some (array_at a i).
Proof. intros Hi. unfold array_at. destruct (Z.ltb_spec i 0); [lia|]. apply lookup_lt_is_Some. lia. Qed.

(** [a'] is [a] with the elements of a range exchanged. *)
Record moves (l r : Z) (a a' : list T) : Prop := {
  moves_perm : a' ≡ₚ a;
  moves_same : forall i, i < l \/ r < i -> array_at a' i = array_at a i;
  moves_from : forall i x, l <= i <= r -> array_at a' i = Some x ->
    exists j, l <= j <= r /\ array_at a j = Some x
}.

Lemma moves_refl (l r : Z) (a : list T) : moves l r a a.
Proof. split; [done|done|eauto]. Qed.

Lemma moves_trans (l r : Z) (a b c : list T) : moves l r a b -> moves l r b c -> moves l r a c.
Proof.
  intros [P1 S1 F1] [P2 S2 F2]. split; [by etrans| |].
  - intros i Hi. by rewrite S2, S1.
  - intros i x Hi Hx. apply F2 in Hx as (j & Hj & Hx); [|done]. by apply F1 in Hx.
Qed.

Lemma moves_weaken (l r l' r' : Z) (a b : list T) :
  l' <= l -> r <= r' -> moves l r a b -> moves l' r' a b.
Proof.
  intros Hl Hr [P S F]. split; [done| |].
  - intros i Hi. apply S. lia.
  - intros i x Hi Hx. destruct (Z_le_dec l i), (Z_le_dec i r).
    + apply F in Hx as (j & Hj & Hx); [|lia]. exists j. split; [lia|done].
    + rewrite S in Hx by lia. eauto.
    + rewrite S in Hx by lia. eauto.
    + rewrite S in Hx by lia. eauto.
Qed.

Lemma moves_length (l r : Z) (a b : list T) : moves l r a b -> length b = length a.
Proof. intros H. apply Permutation_length, (moves_perm _ _ _ _ H). Qed.

Lemma Swap_spec (a : list T) (i j : Z) :
  0 <= i < Z.of_nat (length a) -> 0 <= j < Z.of_nat (length a) ->
  exists b, Swap a i j = Some b /\ b ≡ₚ a /\
    forall k, array_at b k = if k =? i then array_at a j else if k =? j then array_at a i else array_at a k.
Proof.
  intros Hi Hj. unfold Swap. destruct (Z.eqb_spec i j) as [<-|Hij].
  - exists a. split; [done|]. split; [done|]. intros k. by destruct (Z.eqb_spec k i) as [->|].
  - destruct (array_at_is_Some a i Hi) as [x Hx], (array_at_is_Some a j Hj) as [y Hy].
    rewrite Hx, Hy. cbn [mbind option_bind]. eexists. split; [reflexivity|].
    unfold array_at in *. destruct (Z.ltb_spec i 0), (Z.ltb_spec j 0); try lia.
    split; [by apply Permutation_insert_swap|]. intros k.
    destruct (Z.ltb_spec k 0).
    + destruct (Z.eqb_spec k i), (Z.eqb_spec k j); try lia. done.
    + destruct (Z.eqb_spec k i) as [->|].
      * rewrite list_lookup_insert_ne by lia. apply list_lookup_insert_eq. lia.
      * destruct (Z.eqb_spec k j) as [->|].
        -- apply list_lookup_insert_eq. rewrite length_insert. lia.
        -- by rewrite !list_lookup_insert_ne by lia.
Qed.

Lemma Swap_moves (a : list T) (l r i j : Z) :
  0 <= l -> r < Z.of_nat (length a) -> l <= i <= r -> l <= j <= r ->
  exists b, Swap a i j = Some b /\ moves l r a b /\
    forall k, array_at b k = if k =? i then array_at a j else if k =? j then array_at a i else array_at a k.
Proof.
  intros Hl Hr Hi Hj. destruct (Swap_spec a i j) as (b & HS & HP & HI); [lia|lia|].
  exists b. split; [done|]. split; [|done]. split; [done| |].
  - intros k Hk. rewrite HI. destruct (Z.eqb_spec k i), (Z.eqb_spec k j); try lia. done.
  - intros k x Hk Hx. rewrite HI in Hx.
    destruct (Z.eqb_spec k i), (Z.eqb_spec k j); eauto.
Qed.

(** What the loop has seen: smaller elements up to [m], others behind them. *)
Definition parted (a : list T) (l m i : Z) (pivot : T) : Prop :=
  (forall k x, l < k <= m -> array_at a k = Some x -> Compare x pivot < 0) /\
  (forall k x, m < k < i -> array_at a k = Some x -> 0 <= Compare x pivot).

Lemma move_smaller_spec (pivot : T) (l r : Z) (n : nat) : forall (a : list T) (m i : Z),
  0 <= l -> r < Z.of_nat (length a) -> l <= m < i -> i + Z.of_nat n = r + 1 ->
  array_at a l = Some pivot -> parted a l m i pivot ->
  exists b m', move_smaller Compare n a l m i = Some (b, m') /\ moves (l + 1) r a b /\
    m <= m' <= r /\ parted b l m' (r + 1) pivot.
Proof.
  induction n as [|n IH]; intros a m i Hl Hr Hm Hi Hp HP.
  { exists a, m. split; [done|]. split; [apply moves_refl|]. split; [lia|].
    by replace (r + 1) with i by lia. }
  cbn [move_smaller]. destruct (array_at_is_Some a i) as [x Hx]; [lia|]. rewrite Hx, Hp.
  cbn [mbind option_bind]. destruct HP as [HP1 HP2].
  destruct (Z.ltb_spec (Compare x pivot) 0) as [Hlt|Hge].
  - destruct (Swap_moves a (l + 1) r i (m + 1)) as (b & -> & HM & HI); [lia..|].
    cbn [mbind option_bind].
    destruct (IH b (m + 1) (i + 1)) as (c & m' & HE & HM' & Hm' & HP'); [lia| |lia|lia| | |].
    + rewrite (moves_length _ _ _ _ HM). lia.
    + rewrite (moves_same _ _ _ _ HM) by lia. done.
    + split; intros k y Hk Hy; rewrite HI in Hy.
      * destruct (Z.eqb_spec k i) as [->|].
        { assert (Hmi : i = m + 1) by lia. rewrite <- Hmi in Hy. congruence. }
        destruct (Z.eqb_spec k (m + 1)) as [->|]; [congruence|]. apply (HP1 k); [lia|done].
      * destruct (Z.eqb_spec k i) as [->|].
        { apply (HP2 (m + 1)); [lia|done]. }
        destruct (Z.eqb_spec k (m + 1)); [lia|]. apply (HP2 k); [lia|done].
    + exists c, m'. split; [done|]. split; [by eapply moves_trans|]. split; [lia|done].
  - destruct (IH a m (i + 1)) as (c & m' & HE & HM' & Hm' & HP'); try lia; try done; [|by exists c, m'].
    split; [done|]. intros k y Hk Hy. destruct (decide (k = i)) as [->|]; [congruence|].
    apply (HP2 k); [lia|done].
Qed.

Lemma split_range_spec (a : list T) (l r : Z) :
  0 <= l < r -> r < Z.of_nat (length a) -> Z.of_nat (length a) < 2 ^ 62 ->
  exists b m pivot, split_range Compare a l r = Some (b, m) /\ moves l r a b /\ l <= m <= r /\
    array_at b m = Some pivot /\
    (forall k x, l <= k < m -> array_at b k = Some x -> le x pivot) /\
    (forall k x, m < k <= r -> array_at b k = Some x -> le pivot x).
Proof.
  intros Hl Hr Hn. unfold split_range.
  replace ((0 <=? l) && (l <? Z.of_nat (length a))) with true
    by (symmetry; rewrite andb_true_iff, Z.leb_le, Z.ltb_lt; lia).
  replace ((0 <=? r) && (r <? Z.of_nat (length a))) with true
    by (symmetry; rewrite andb_true_iff, Z.leb_le, Z.ltb_lt; lia).
  cbn [assert mbind option_bind]. unfold s64. rewrite swrap_small by lia.
  rewrite Z.quot_div_nonneg by lia.
  pose proof (Z.div_mod (l + r) 2 ltac:(lia)). pose proof (Z.mod_pos_bound (l + r) 2 ltac:(lia)).
  destruct (Swap_moves a l r l ((l + r) / 2)) as (a1 & -> & HM1 & _); [lia..|].
  cbn [mbind option_bind]. pose proof (moves_length _ _ _ _ HM1) as HL1.
  destruct (array_at_is_Some a1 l) as [pivot Hp]; [lia|].
  destruct (move_smaller_spec pivot l r (Z.to_nat (r - l)) a1 l (l + 1)) as (a2 & m & -> & HM2 & Hm & HP);
    [lia..|done| |].
  { split; intros k x Hk; lia. }
  cbn [mbind option_bind]. pose proof (moves_length _ _ _ _ HM2) as HL2.
  assert (Hp2 : array_at a2 l = Some pivot) by (rewrite (moves_same _ _ _ _ HM2) by lia; done).
  destruct (Swap_moves a2 l r l m) as (a3 & -> & HM3 & HI); [lia..|].
  cbn [mbind option_bind]. exists a3, m, pivot. split; [done|].
  assert (HM : moves l r a a3).
  { eapply moves_trans; [exact HM1|]. eapply moves_trans; [|exact HM3].
    by eapply (moves_weaken (l + 1) r); [lia|lia|]. }
  destruct HP as [HP1 HP2]. split_and!; try done; [lia|lia| | |].
  - rewrite HI, Z.eqb_refl. by destruct (Z.eqb_spec m l) as [->|].
  - intros k x Hk Hx. rewrite HI in Hx. unfold le. apply Compare_asym.
    destruct (Z.eqb_spec k l) as [->|].
    + apply (HP1 m); [lia|done].
    + destruct (Z.eqb_spec k m); [lia|]. apply (HP1 k); [lia|done].
  - intros k x Hk Hx. rewrite HI in Hx. unfold le.
    destruct (Z.eqb_spec k l); [lia|]. destruct (Z.eqb_spec k m); [lia|]. apply (HP2 k); [lia|done].
Qed.

(** A range is in order. *)
Definition ordered (l r : Z) (a : list T) : Prop :=
  forall i j x y, l <= i <= j -> j <= r -> array_at a i = Some x -> array_at a j = Some y -> le x y.

Lemma ordered_single (l r : Z) (a : list T) : r <= l -> ordered l r a.
Proof.
  intros Hlr i j x y Hi Hj Hx Hy. assert (i = j) as -> by lia. rewrite Hx in Hy. injection Hy as ->.
  apply le_refl.
Qed.

(** Two ordered parts around a pivot. *)
Lemma ordered_join (l m r : Z) (a : list T) (pivot : T) :
  array_at a m = Some pivot -> ordered l (m - 1) a -> ordered (m + 1) r a ->
  (forall k x, l <= k < m -> array_at a k = Some x -> le x pivot) ->
  (forall k x, m < k <= r -> array_at a k = Some x -> le pivot x) -> ordered l r a.
Proof.
  intros Hm HL HR Hlo Hhi.
  assert (Hlo' : forall k x, l <= k <= m -> array_at a k = Some x -> le x pivot).
  { intros k x Hk Hx. destruct (decide (k = m)) as [->|]; [|apply (Hlo k); [lia|done]].
    rewrite Hm in Hx. injection Hx as ->. apply le_refl. }
  assert (Hhi' : forall k x, m <= k <= r -> array_at a k = Some x -> le pivot x).
  { intros k x Hk Hx. destruct (decide (k = m)) as [->|]; [|apply (Hhi k); [lia|done]].
    rewrite Hm in Hx. injection Hx as ->. apply le_refl. }
  intros i j x y Hi Hj Hx Hy. destruct (Z_lt_dec j m) as [Hjm|Hjm].
  { apply (HL i j); [lia|lia|done|done]. }
  destruct (Z_lt_dec m i) as [Him|Him].
  { apply (HR i j); [lia|lia|done|done]. }
  eapply le_trans; [apply (Hlo' i); [lia|done]|apply (Hhi' j); [lia|done]].
Qed.

(** Bounds on a range are kept where its elements are exchanged. *)
Lemma moves_bound (l r : Z) (a b : list T) (P : T -> Prop) (l' r' : Z) :
  moves l r a b -> l' <= l -> r <= r' ->
  (forall k x, l' <= k <= r' -> array_at a k = Some x -> P x) ->
  forall k x, l' <= k <= r' -> array_at b k = Some x -> P x.
Proof.
  intros HM Hl Hr HP k x Hk Hx. apply (moves_weaken l r l' r') in HM; [|done|done].
  apply (moves_from _ _ _ _ HM) in Hx as (j & Hj & Hx); [|done]. by apply (HP j).
Qed.

Lemma ordered_same (l r : Z) (a b : list T) :
  (forall i, l <= i <= r -> array_at b i = array_at a i) -> ordered l r a -> ordered l r b.
Proof.
  intros HS HO i j x y Hi Hj Hx Hy. rewrite HS in Hx by lia. rewrite HS in Hy by lia.
  by apply (HO i j).
Qed.

Lemma SortRange_stop (budget depth rounds : nat) (a : list T) (l r : Z) :
  r <= l -> SortRange Compare budget depth rounds a l r = Some a.
Proof. intros Hlr%Z.leb_le. destruct depth, rounds; cbn [SortRange]; by rewrite Hlr. Qed.

Lemma SortRange_step (budget depth rounds : nat) (a : list T) (l r : Z) :
  l < r ->
  SortRange Compare budget (S depth) (S rounds) a l r =
    ('(b, m) ← split_range Compare a l r;
     if m - 1 - l <? r - (m + 1) then
       b ← SortRange Compare budget depth budget b l (m - 1);
       SortRange Compare budget (S depth) rounds b (m + 1) r
     else
       b ← SortRange Compare budget depth budget b (m + 1) r;
       SortRange Compare budget (S depth) rounds b l (m - 1)).
Proof. intros Hlr%Z.leb_gt. cbn [SortRange]. by rewrite Hlr. Qed.

Lemma SortRange_spec (budget depth : nat) : forall (rounds : nat) (a : list T) (l r : Z),
  0 <= l -> r < Z.of_nat (length a) -> Z.of_nat (length a) < 2 ^ 62 ->
  r - l <= Z.of_nat rounds -> Z.of_nat (length a) <= Z.of_nat budget ->
  r - l + 1 < 2 ^ (Z.of_nat depth + 1) ->
  exists b, SortRange Compare budget depth rounds a l r = Some b /\ moves l r a b /\ ordered l r b.
Proof.
  induction depth as [|depth IHd]; induction rounds as [|rounds IHr];
    intros a l r Hl Hr Hn Hrounds Hbudget Hdepth;
    (destruct (Z_le_dec r l) as [Hlr|Hlr%Z.nle_gt];
     [exists a; split; [by apply SortRange_stop|]; split; [apply moves_refl|by apply ordered_single]|]);
    [change (2 ^ (Z.of_nat 0 + 1)) with 2 in Hdepth; lia|change (2 ^ (Z.of_nat 0 + 1)) with 2 in Hdepth; lia|lia|].
  rewrite SortRange_step by done.
  assert (Hpow : 2 ^ (Z.of_nat (S depth) + 1) = 2 * 2 ^ (Z.of_nat depth + 1)).
  { rewrite <- Z.pow_succ_r by lia. f_equal. lia. }
  destruct (split_range_spec a l r) as (a1 & m & pivot & -> & HM1 & Hm & Hp & Hlo & Hhi); [lia..|].
  cbn [mbind option_bind]. pose proof (moves_length _ _ _ _ HM1) as HL1.
  destruct (Z.ltb_spec (m - 1 - l) (r - (m + 1))) as [Hleft|Hright].
  - destruct (IHd budget a1 l (m - 1)) as (a2 & -> & HM2 & HO2); [lia..|].
    cbn [mbind option_bind]. pose proof (moves_length _ _ _ _ HM2) as HL2.
    destruct (IHr a2 (m + 1) r) as (a3 & -> & HM3 & HO3); [lia..|].
    exists a3. split; [done|]. split.
    + eapply moves_trans; [exact HM1|]. eapply moves_trans.
      * by eapply (moves_weaken l (m - 1)); [lia|lia|].
      * by eapply (moves_weaken (m + 1) r); [lia|lia|].
    + apply (ordered_join l m r a3 pivot).
      * rewrite (moves_same _ _ _ _ HM3), (moves_same _ _ _ _ HM2) by lia. done.
      * apply (ordered_same l (m - 1) a2); [|done]. intros i Hi. apply (moves_same _ _ _ _ HM3). lia.
      * done.
      * intros k x Hk Hx. rewrite (moves_same _ _ _ _ HM3) in Hx by lia.
        apply (moves_bound l (m - 1) a1 a2 (fun x => le x pivot) l (m - 1) HM2 ltac:(lia) ltac:(lia)) with k;
          [|lia|done]. intros k' x' Hk'. apply Hlo. lia.
      * intros k x Hk Hx.
        apply (moves_bound (m + 1) r a2 a3 (fun x => le pivot x) (m + 1) r HM3 ltac:(lia) ltac:(lia)) with k;
          [|lia|done]. intros k' x' Hk' Hx'. rewrite (moves_same _ _ _ _ HM2) in Hx' by lia.
        apply (Hhi k'); [lia|done].
  - destruct (IHd budget a1 (m + 1) r) as (a2 & -> & HM2 & HO2); [lia..|].
    cbn [mbind option_bind]. pose proof (moves_length _ _ _ _ HM2) as HL2.
    destruct (IHr a2 l (m - 1)) as (a3 & -> & HM3 & HO3); [lia..|].
    exists a3. split; [done|]. split.
    + eapply moves_trans; [exact HM1|]. eapply moves_trans.
      * by eapply (moves_weaken (m + 1) r); [lia|lia|].
      * by eapply (moves_weaken l (m - 1)); [lia|lia|].
    + apply (ordered_join l m r a3 pivot).
      * rewrite (moves_same _ _ _ _ HM3), (moves_same _ _ _ _ HM2) by lia. done.
      * done.
      * apply (ordered_same (m + 1) r a2); [|done]. intros i Hi. apply (moves_same _ _ _ _ HM3). lia.
      * intros k x Hk Hx.
        apply (moves_bound l (m - 1) a2 a3 (fun x => le x pivot) l (m - 1) HM3 ltac:(lia) ltac:(lia)) with k;
          [|lia|done]. intros k' x' Hk' Hx'. rewrite (moves_same _ _ _ _ HM2) in Hx' by lia.
        apply (Hlo k'); [lia|done].
      * intros k x Hk Hx. rewrite (moves_same _ _ _ _ HM3) in Hx by lia.
        apply (moves_bound (m + 1) r a1 a2 (fun x => le pivot x) (m + 1) r HM2 ltac:(lia) ltac:(lia)) with k;
          [|lia|done]. intros k' x' Hk'. apply Hhi. lia.
Qed.

Lemma ordered_sorted (a : list T) :
  ordered 0 (Z.of_nat (length a) - 1) a -> StronglySorted le a.
Proof.
  induction a as [|x a IH]; intros HO; constructor.
  - apply IH. intros i j y z Hi Hj Hy Hz. apply (HO (i + 1) (j + 1) y z); [lia|cbn; lia| |];
      unfold array_at in *; destruct (Z.ltb_spec i 0), (Z.ltb_spec j 0); try lia;
      rewrite (proj2 (Z.ltb_ge _ 0)) by lia.
    + by replace (Z.to_nat (i + 1)) with (S (Z.to_nat i)) by lia.
    + by replace (Z.to_nat (j + 1)) with (S (Z.to_nat j)) by lia.
  - apply Forall_forall. intros y [k Hk]%list_elem_of_lookup_1.
    apply (HO 0 (Z.of_nat (S k)) x y); [lia| |done|].
    + apply lookup_lt_Some in Hk. cbn. lia.
    + unfold array_at. rewrite (proj2 (Z.ltb_ge _ 0)) by lia. by rewrite Nat2Z.id.
Qed.
End sort.

(** C13: The in-place quicksort: for a comparison that is a strict weak order, it
    ends without leaving the array, the result is a permutation in order, and it
    never nests more calls of itself than the logarithm of the number of
    elements, because it calls itself on the smaller part and loops on the
    other. *)
Theorem quicksort_correct {T : Type} (Compare : T -> T -> Z) (a : list T) (depth : nat)
    (Hasym : forall x y, Compare x y < 0 -> 0 <= Compare y x)
    (Htrans : forall x y z, le Compare x y -> le Compare y z -> le Compare x z)
    (Hsize : Z.of_nat (length a) < 2 ^ 62)
    (Hdepth : Z.of_nat (length a) < 2 ^ (Z.of_nat depth + 1)) :
  exists b, Sort Compare depth a = Some b /\ b ≡ₚ a /\ StronglySorted (le Compare) b.
Proof.
  unfold Sort.
  destruct (SortRange_spec Compare Hasym Htrans (length a) depth (length a) a 0 (Z.of_nat (length a) - 1))
    as (b & HE & HM & HO); [lia..|].
  exists b. split; [done|]. split; [by apply (moves_perm _ _ _ _ HM)|].
  apply ordered_sorted. by rewrite (moves_length _ _ _ _ HM).
Qed.

Lemma quicksort_correct_witness : exists b,
  Sort Z.sub 2 [5; 3; 9; 1; 3; 7] = Some b /\ b ≡ₚ [5; 3; 9; 1; 3; 7] /\
  StronglySorted (le Z.sub) b.
Proof. apply (quicksort_correct Z.sub [5; 3; 9; 1; 3; 7] 2); unfold le; [lia|lia|done|done]. Defined.

(** ** The queue *)

(** The links from [p] on lead through [xs] and end there. *)
Fixpoint linked (M : gmap Z (option Z)) (p : Z) (xs : list Z) : Prop :=
  match xs with
  | [] => mjoin (M !! p) = None
  | x :: xs => M !! p = Some (Some x) /\ linked M x xs
  end.

(** A list object that holds the objects [xs]. *)
Record queue (L : SList) (xs : list Z) : Prop := {
  queue_linked : linked (m_pNext L) (m_pHead L) xs;
  queue_distinct : NoDup (m_pHead L :: xs);
  queue_tail : m_pTail L = List.last xs (m_pHead L)
}.

Lemma linked_insert_other (M : gmap Z (option Z)) (p q : Z) (v : option Z) (xs : list Z) :
  q <> p -> q ∉ xs -> linked M p xs -> linked (<[q := v]> M) p xs.
Proof.
  revert p. induction xs as [|x xs IH]; intros p Hp Hx HL; cbn in *.
  - by rewrite lookup_insert_ne.
  - rewrite not_elem_of_cons in Hx. destruct HL as [Hpx HL], Hx as [Hqx Hx].
    split; [by rewrite lookup_insert_ne|]. by apply IH.
Qed.

Lemma last_cons_default (x p : Z) (xs : list Z) : List.last (x :: xs) p = List.last xs x.
Proof.
  revert x p. induction xs as [|y xs IH]; intros x p; [done|].
  change (List.last (x :: y :: xs) p) with (List.last (y :: xs) p). by rewrite !IH.
Qed.

Lemma last_elem (p : Z) (xs : list Z) : List.last xs p ∈ p :: xs.
Proof.
  revert p. induction xs as [|x xs IH]; intros p; [by left|].
  rewrite last_cons_default. right. apply IH.
Qed.

Lemma linked_append (M : gmap Z (option Z)) (x : Z) (xs : list Z) : forall p,
  linked M p xs -> NoDup (p :: xs) -> x ∉ p :: xs -> mjoin (M !! x) = None ->
  linked (<[List.last xs p := Some x]> M) p (xs ++ [x]).
Proof.
  induction xs as [|y xs IH]; intros p HL HD Hx HM.
  - cbn in *. split; [by rewrite lookup_insert_eq|].
    rewrite lookup_insert_ne; [done|]. rewrite not_elem_of_cons in Hx. naive_solver.
  - rewrite last_cons_default. cbn in HL. destruct HL as [Hp HL].
    apply NoDup_cons in HD as [Hpn HD]. apply not_elem_of_cons in Hx as [Hxp Hx].
    cbn [app linked]. split.
    + rewrite lookup_insert_ne; [done|]. intros <-. apply Hpn, last_elem.
    + by apply IH.
Qed.

(** The operations of the queue are those of a list that is extended at its end
    and shortened at its front.  The link of an inserted object is null. *)
Lemma queue_refines (L : SList) (xs : list Z) :
  queue L xs ->
  (forall x, x ∉ m_pHead L :: xs -> next L x = None -> queue (InsertTail L x) (xs ++ [x])) /\
  IsEmpty L = bool_decide (xs = []) /\ GetHead L = head xs /\
  (RemoveHead L).2 = head xs /\ queue (RemoveHead L).1 (tail xs).
Proof.
  intros [HL HD HT]. split_and!.
  - intros x Hx Hn. split; cbn.
    + rewrite HT. by apply linked_append.
    + rewrite app_comm_cons. apply NoDup_app. split; [done|]. split.
      * intros y Hy ->%list_elem_of_singleton. done.
      * apply NoDup_singleton.
    + by rewrite last_last.
  - unfold IsEmpty, next. destruct xs; cbn in HL; [by rewrite HL|]. destruct HL as [-> _]. done.
  - unfold GetHead, next. destruct xs; cbn in HL; [by rewrite HL|]. by destruct HL as [-> _].
  - unfold RemoveHead, next. destruct xs; cbn in HL; [by rewrite HL|]. by destruct HL as [-> _].
  - unfold RemoveHead, next. destruct xs as [|x xs]; cbn in HL.
    + rewrite HL. cbn. by split.
    + destruct HL as [Hp HL]. rewrite Hp. cbn [mjoin option_join fst tail].
      apply NoDup_cons in HD as [Hpn HD]. pose proof HD as HD'. apply NoDup_cons in HD' as [Hxn HDx].
      apply not_elem_of_cons in Hpn as [Hpx Hpn].
      split; cbn [m_pNext m_pHead m_pTail].
      * destruct xs as [|y xs]; cbn in HL |- *; rewrite lookup_insert_eq; cbn; [by rewrite HL|].
        destruct HL as [-> HL]. split; [done|]. apply linked_insert_other; [| |done].
        -- intros HX. apply Hpn. rewrite HX. by left.
        -- intros HI. apply Hpn. by right.
      * by apply NoDup_cons.
      * rewrite HT, last_cons_default. destruct xs as [|y xs]; [by rewrite bool_decide_eq_true_2|].
        rewrite !last_cons_default. rewrite bool_decide_eq_false_2; [done|].
        intros [= HX]. apply Hxn. rewrite HX. apply last_elem.
Qed.

(** ** The chunks *)

Section chunks.
Context {T : Type}.
Variables (INITIAL FACTOR cbElement cbBaseSize : Z).
Hypothesis HINITIAL : 0 < INITIAL.
Hypothesis HFACTOR : 0 < FACTOR.
Hypothesis HcbElement : 0 < cbElement.
Hypothesis HcbBaseSize : 0 <= cbBaseSize.

#[local] Notation maxCapacity := (maxChunkCapacity cbElement cbBaseSize).

(** Chunks that grow by the factor, full up to the last one, which has [Items]
    elements and room for [Capacity]. *)
Fixpoint shaped (cap : Z) (cs : list (@Chunk T)) (Items Capacity : Z) : Prop :=
  match cs with
  | [] => True
  | C :: Rest =>
      room C = cap /\ 0 < cap /\
      match Rest with
      | [] => Items = Z.of_nat (length (rgItems C)) /\ Capacity = cap /\ 0 < Items <= cap
      | _ => Z.of_nat (length (rgItems C)) = cap /\ shaped (cap * FACTOR) Rest Items Capacity
      end
  end.

(** The elements, in the order they were appended. *)
Definition elements (cs : list (@Chunk T)) : list T := concat (rgItems <$> cs).

Record holds (L : StructArrayList) (xs : list T) : Prop := {
  holds_elements : elements (Chunks L) = xs;
  holds_total : m_nTotalItems L = Z.of_nat (length xs);
  holds_shape : shaped INITIAL (Chunks L) (m_nItemsInLastChunk L) (m_nLastChunkCapacity L);
  holds_capacity : Chunks L <> [] ->
    m_nLastChunkCapacity L <= INITIAL + Z.of_nat (length xs) * FACTOR
}.

Lemma elements_cons (C : Chunk) (cs : list (@Chunk T)) : elements (C :: cs) = rgItems C ++ elements cs.
Proof. done. Qed.

Lemma elements_app (cs ds : list (@Chunk T)) : elements (cs ++ ds) = elements cs ++ elements ds.
Proof. unfold elements. by rewrite fmap_app, concat_app. Qed.

Lemma shaped_bounds (cs : list Chunk) : forall (cap Items Capacity : Z),
  cs <> [] -> shaped cap cs Items Capacity ->
  0 < cap <= Capacity /\ 0 < Items <= Capacity /\ Items <= Z.of_nat (length (elements cs)).
Proof.
  induction cs as [|C cs IH]; intros cap Items Capacity Hne HS; [done|].
  rewrite elements_cons, length_app. destruct HS as (Hr & Hc & HS). destruct cs as [|D cs].
  - destruct HS as (-> & -> & Hi). cbn. lia.
  - destruct HS as [Hl HS]. apply IH in HS as (H1 & H2 & H3); [|done]. nia.
Qed.

(** A write into the last chunk. *)
Lemma shaped_write (x : T) (cs : list Chunk) : forall (cap Items Capacity : Z),
  cs <> [] -> shaped cap cs Items Capacity -> Items < Capacity ->
  exists ds, write_last cs Items x = Some ds /\ ds <> [] /\ shaped cap ds (Items + 1) Capacity /\
    elements ds = elements cs ++ [x].
Proof.
  intros cap Items Capacity Hne HS HI. unfold write_last.
  revert cap HS. induction cs as [|C cs IH]; intros cap HS; [done|].
  destruct HS as (Hr & Hc & HS). destruct cs as [|D cs].
  - destruct HS as (HIt & HC & Hi). cbn [last].
    rewrite HIt, Z.eqb_refl, Hr. rewrite (proj2 (Z.ltb_lt _ _)) by lia.
    cbn. eexists. split; [reflexivity|]. split; [done|]. split.
    + cbn. split; [done|]. split; [done|]. rewrite length_app. cbn. lia.
    + unfold elements. cbn. by rewrite !app_nil_r.
  - destruct HS as [Hl HS]. destruct (IH ltac:(done) _ HS) as (ds & HW & Hd & HSd & HE).
    change (last (C :: D :: cs)) with (last (D :: cs)).
    change (removelast (C :: D :: cs)) with (C :: removelast (D :: cs)).
    destruct (last (D :: cs)) as [E|]; [|done].
    destruct (assert _) as [u|]; [|done]. cbn [mbind option_bind] in *. injection HW as HW.
    exists (C :: ds). split; [by rewrite <- HW|]. split; [done|]. split.
    + cbn [shaped]. split; [done|]. split; [done|]. destruct ds; [done|]. by split.
    + by rewrite !elements_cons, HE, app_assoc.
Qed.

(** A new chunk behind full ones. *)
Lemma shaped_grow (C : Chunk) (cs : list Chunk) : forall (cap Capacity : Z),
  cs <> [] -> shaped cap cs Capacity Capacity -> room C = Capacity * FACTOR ->
  0 < Z.of_nat (length (rgItems C)) <= room C ->
  shaped cap (cs ++ [C]) (Z.of_nat (length (rgItems C))) (Capacity * FACTOR).
Proof.
  induction cs as [|D cs IH]; intros cap Capacity Hne HS HC Hlen; [done|].
  destruct HS as (Hr & Hc & HS). destruct cs as [|E cs].
  - destruct HS as (HI & -> & _). cbn. split; [done|]. split; [done|]. split; [lia|].
    split; [done|]. split; [nia|]. rewrite HC in Hlen. lia.
  - destruct HS as [Hl HS]. cbn [app shaped]. split; [done|]. split; [done|]. split; [done|].
    by apply IH.
Qed.

(** The capacity of a new chunk that is not limited. *)
Lemma chunk_room (n : Z) : 0 <= n <= maxCapacity ->
  (u64 (cbBaseSize + u64 (cbElement * n)) - cbBaseSize) / cbElement = n.
Proof.
  intros Hn. unfold maxChunkCapacity, MAXSIZE_T in Hn.
  assert (H1 : cbElement * n <= 2 ^ 64 - 1 - cbBaseSize).
  { pose proof (Z.mul_div_le (2 ^ 64 - 1 - cbBaseSize) cbElement HcbElement). nia. }
  rewrite (u64_small (cbElement * n)) by nia. rewrite u64_small by nia.
  replace (cbBaseSize + cbElement * n - cbBaseSize) with (n * cbElement) by lia.
  apply Z.div_mul. lia.
Qed.

Lemma max_capacity_small (n : Z) : 0 <= n <= maxCapacity -> n < 2 ^ 64.
Proof.
  intros Hn. unfold maxChunkCapacity, MAXSIZE_T in Hn.
  pose proof (Z.mul_div_le (2 ^ 64 - 1 - cbBaseSize) cbElement HcbElement). nia.
Qed.

Lemma CreateNewChunk_spec (L : @StructArrayList T) (cap : Z) :
  (if bool_decide (Chunks L = []) then INITIAL else m_nLastChunkCapacity L * FACTOR) = cap ->
  0 < cap <= maxCapacity ->
  CreateNewChunk INITIAL FACTOR cbElement cbBaseSize L =
    Some (MkArrayList (Chunks L ++ [MkChunk cap []]) 0 (m_nTotalItems L) cap).
Proof.
  intros Hcap Hb. unfold CreateNewChunk.
  rewrite (proj2 (Z.ltb_lt 0 INITIAL)), (proj2 (Z.ltb_lt 0 FACTOR)), (proj2 (Z.ltb_lt 0 cbElement)),
    (proj2 (Z.ltb_lt 0 maxCapacity)) by lia.
  cbn [assert mbind option_bind].
  pose proof (max_capacity_small cap ltac:(lia)).
  assert (Hn : (if bool_decide (Chunks L = []) then INITIAL else u64 (m_nLastChunkCapacity L * FACTOR)) = cap).
  { case_bool_decide; [done|]. rewrite Hcap. apply u64_small. lia. }
  rewrite Hn. rewrite (proj2 (Z.ltb_ge _ _)) by lia. by rewrite chunk_room by lia.
Qed.

Lemma write_last_app (cs : list (@Chunk T)) (C : Chunk) (x : T) :
  rgItems C = [] -> 0 < room C ->
  write_last (cs ++ [C]) 0 x = Some (cs ++ [MkChunk (room C) [x]]).
Proof.
  intros HC Hr. unfold write_last. rewrite last_snoc, HC. cbn [length].
  rewrite (proj2 (Z.ltb_lt _ _)) by lia. cbn. rewrite removelast_last. done.
Qed.

Lemma AppendThrowing_spec (L : StructArrayList) (xs : list T) (x : T) :
  holds L xs -> INITIAL + Z.of_nat (length xs) * FACTOR <= maxCapacity ->
  exists L', AppendThrowing INITIAL FACTOR cbElement cbBaseSize L x = Some L' /\ holds L' (xs ++ [x]).
Proof.
  intros [HE HT HS HK] Hmax. pose proof (max_capacity_small (INITIAL + Z.of_nat (length xs) * FACTOR) ltac:(nia)).
  assert (Hprod : 0 <= Z.of_nat (length xs) * FACTOR) by (apply Z.mul_nonneg_nonneg; lia).
  unfold AppendThrowing.
  assert (HT' : forall n, n = Z.of_nat (length xs) -> u64 (n + 1) = Z.of_nat (length (xs ++ [x]))).
  { intros n ->. rewrite length_app. cbn. rewrite u64_small by nia. lia. }
  destruct (bool_decide_reflect (Chunks L = [])) as [Hnil|Hne]; cbn [orb].
  - rewrite (CreateNewChunk_spec L INITIAL); [|by rewrite bool_decide_eq_true_2|lia].
    cbn [mbind option_bind m_nItemsInLastChunk Chunks]. change (u64 (0 + 1)) with 1. change (1 - 1) with 0.
    rewrite write_last_app by done. cbn [mbind option_bind]. eexists. split; [reflexivity|].
    rewrite Hnil in *. split; cbn [Chunks m_nTotalItems m_nItemsInLastChunk m_nLastChunkCapacity app].
    + unfold elements in *. cbn in *. by subst xs.
    + by apply HT'.
    + cbn. lia.
    + intros _. nia.
  - destruct (shaped_bounds _ _ _ _ Hne HS) as (Hcap & Hi & Hle). rewrite HE in Hle.
    destruct (Z.eqb_spec (m_nItemsInLastChunk L) (m_nLastChunkCapacity L)) as [Hfull|Hroom].
    + rewrite (CreateNewChunk_spec L (m_nLastChunkCapacity L * FACTOR));
        [|by rewrite bool_decide_eq_false_2|nia].
      cbn [mbind option_bind m_nItemsInLastChunk Chunks]. change (u64 (0 + 1)) with 1. change (1 - 1) with 0.
      rewrite write_last_app by (cbn; (done || nia)). cbn [mbind option_bind room]. eexists. split; [reflexivity|].
      split; cbn [Chunks m_nTotalItems m_nItemsInLastChunk m_nLastChunkCapacity].
      * rewrite elements_app, HE. done.
      * by apply HT'.
      * apply (shaped_grow (MkChunk (m_nLastChunkCapacity L * FACTOR) [x])); try done.
        -- by rewrite Hfull in HS.
        -- cbn. nia.
      * intros _. rewrite length_app. cbn. nia.
    + cbn [mbind option_bind]. rewrite u64_small by nia.
      replace (m_nItemsInLastChunk L + 1 - 1) with (m_nItemsInLastChunk L) by lia.
      destruct (shaped_write x _ _ _ _ Hne HS ltac:(lia)) as (ds & -> & _ & HSd & HEd).
      cbn [mbind option_bind]. eexists. split; [reflexivity|].
      split; [by rewrite <- HE|by apply HT'|done|]. intros _. cbn. specialize (HK Hne).
      rewrite length_app. nia.
Qed.

Lemma append_all (xs : list T) : forall (L : StructArrayList) (ys : list T),
  holds L ys -> INITIAL + Z.of_nat (length (ys ++ xs)) * FACTOR <= maxCapacity ->
  exists L', foldl (fun L x => L ← L; AppendThrowing INITIAL FACTOR cbElement cbBaseSize L x) (Some L) xs
    = Some L' /\ holds L' (ys ++ xs).
Proof.
  induction xs as [|x xs IH]; intros L ys HL Hmax.
  { exists L. by rewrite app_nil_r. }
  destruct (AppendThrowing_spec L ys x HL) as (L1 & H1 & HL1); [rewrite length_app in Hmax; nia|].
  cbn [foldl mbind option_bind]. rewrite H1.
  replace (ys ++ x :: xs) with ((ys ++ [x]) ++ xs) in * by by rewrite <- app_assoc. by apply IH.
Qed.

(** The iterator counts the elements of each chunk right. *)
Lemma items_in_current_shape (L : @StructArrayList T) (C : Chunk) (cs : list (@Chunk T)) (cap : Z) :
  shaped cap (C :: cs) (m_nItemsInLastChunk L) (m_nLastChunkCapacity L) ->
  items_in_current L (C :: cs) cap = Z.of_nat (length (rgItems C)).
Proof. intros (_ & _ & HS). destruct cs; cbn; [by destruct HS|]. by destruct HS as [-> _]. Qed.

(** The capacity it passes on is that of the next chunk. *)
Lemma next_shape (L : @StructArrayList T) (C : Chunk) (cs : list (@Chunk T)) (cap : Z) :
  shaped cap (C :: cs) (m_nItemsInLastChunk L) (m_nLastChunkCapacity L) ->
  m_nLastChunkCapacity L <= maxCapacity -> cs <> [] ->
  u64 (cap * FACTOR) = cap * FACTOR /\
  shaped (cap * FACTOR) cs (m_nItemsInLastChunk L) (m_nLastChunkCapacity L).
Proof.
  intros (_ & Hc & HS) Hmax Hne. destruct cs as [|D cs]; [done|]. destruct HS as [_ HS].
  destruct (shaped_bounds _ _ _ _ Hne HS) as (Hcap & _).
  pose proof (max_capacity_small (cap * FACTOR) ltac:(nia)).
  split; [apply u64_small; nia|done].
Qed.

Lemma copy_chunks_spec (L : @StructArrayList T) (cs : list (@Chunk T)) : forall cap,
  shaped cap cs (m_nItemsInLastChunk L) (m_nLastChunkCapacity L) ->
  m_nLastChunkCapacity L <= maxCapacity ->
  copy_chunks FACTOR L cs cap = Some (elements cs).
Proof.
  induction cs as [|C cs IH]; intros cap HS Hmax; [done|].
  cbn [copy_chunks]. rewrite (items_in_current_shape L C cs cap HS). unfold read_chunk.
  rewrite (proj2 (Z.leb_le _ _)) by lia. cbn [assert mbind option_bind].
  rewrite Nat2Z.id, take_ge by done. destruct (decide (cs = [])) as [->|Hne].
  - cbn [copy_chunks mbind option_bind]. by rewrite elements_cons.
  - destruct (next_shape L C cs cap HS Hmax Hne) as [-> HS']. by rewrite IH, elements_cons.
Qed.

Lemma find_index_spec (L : @StructArrayList T) (cs : list (@Chunk T)) : forall cap base index,
  shaped cap cs (m_nItemsInLastChunk L) (m_nLastChunkCapacity L) ->
  m_nLastChunkCapacity L <= maxCapacity -> 0 <= base <= index ->
  base + Z.of_nat (length (elements cs)) < 2 ^ 64 ->
  find_index FACTOR L cs cap base index = elements cs !! Z.to_nat (index - base).
Proof.
  induction cs as [|C cs IH]; intros cap base index HS Hmax Hb Hn; [done|].
  cbn [find_index]. rewrite (items_in_current_shape L C cs cap HS).
  rewrite elements_cons, length_app in Hn. rewrite u64_small by lia. rewrite elements_cons.
  destruct (Z.ltb_spec index (base + Z.of_nat (length (rgItems C)))) as [Hi|Hi].
  - by rewrite lookup_app_l by lia.
  - rewrite lookup_app_r by lia. destruct (decide (cs = [])) as [->|Hne]; [done|].
    destruct (next_shape L C cs cap HS Hmax Hne) as [-> HS'].
    rewrite IH by (done || lia). f_equal. lia.
Qed.

End chunks.

(** The list in chunks refines a list: after appending elements to an empty
    one, the count is their number, [CopyTo] gives them in order and [GetIndex]
    the one at an index, although the iterator has only the capacity of the
    first chunk and recomputes the others, as long as no capacity reached the
    limit that keeps the size of a chunk from overflowing. *)
Theorem chunks_refine_list {T : Type} (INITIAL FACTOR cbElement cbBaseSize Items Capacity : Z)
    (xs : list T) (HI : 0 < INITIAL) (HF : 0 < FACTOR) (HE : 0 < cbElement) (HB : 0 <= cbBaseSize)
    (Hmax : INITIAL + Z.of_nat (length xs) * FACTOR <= maxChunkCapacity cbElement cbBaseSize) :
  exists L, foldl (fun L x => L ← L; AppendThrowing INITIAL FACTOR cbElement cbBaseSize L x)
      (Some (newArrayList Items Capacity)) xs = Some L /\
    Count L = Z.of_nat (length xs) /\ CopyTo INITIAL FACTOR L = Some xs /\
    forall i, 0 <= i -> GetIndex INITIAL FACTOR L i = xs !! Z.to_nat i.
Proof.
  destruct (append_all INITIAL FACTOR cbElement cbBaseSize HI HF HE HB xs (newArrayList Items Capacity) [])
    as (L & HA & [HS HT HShape HCap]); [by split|done|].
  cbn [app] in *. exists L. split; [done|]. split; [done|].
  assert (Hprod : 0 <= Z.of_nat (length xs) * FACTOR) by (apply Z.mul_nonneg_nonneg; lia).
  pose proof (max_capacity_small cbElement cbBaseSize HE HB (INITIAL + Z.of_nat (length xs) * FACTOR) ltac:(lia)).
  unfold CopyTo, GetIndex. destruct (decide (Chunks L = [])) as [Hnil|Hne].
  - rewrite Hnil in *. cbn in HS. subst xs. split; [done|]. intros i Hi. done.
  - specialize (HCap Hne). split.
    + rewrite (copy_chunks_spec FACTOR cbElement cbBaseSize HF HE HB L _ _ HShape) by lia.
      by rewrite HS.
    + intros i Hi.
      rewrite (find_index_spec FACTOR cbElement cbBaseSize HF HE HB L _ _ 0 i HShape);
        [by rewrite HS, Z.sub_0_r|lia|lia|]. rewrite HS. nia.
Qed.

Lemma chunks_refine_list_witness : exists L,
  foldl (fun L x => L ← L; AppendThrowing 2 2 8 8 L x) (Some (newArrayList 0 0)) [5; 6; 7; 8; 9; 10; 11]
    = Some L /\ CopyTo 2 2 L = Some [5; 6; 7; 8; 9; 10; 11] /\ GetIndex 2 2 L 6 = Some 11.
Proof.
  destruct (chunks_refine_list 2 2 8 8 0 0 [5; 6; 7; 8; 9; 10; 11]) as (L & HE & _ & HC & HG);
    [done|done|done|done|by vm_compute|].
  exists L. split; [exact HE|]. split; [exact HC|]. rewrite HG; [reflexivity|lia].
Defined.

(** ** The table *)

Lemma Lookup_Set {Key Value : Type} (Equals : Key -> Key -> bool) (payload : list (Key * Value))
    (k k' : Key) (v : Value) :
  (forall a, Equals a a = true) -> (forall a b, Equals a b = true -> Equals b a = true) ->
  (forall a b c, Equals a b = true -> Equals b c = true -> Equals a c = true) ->
  Lookup Equals (Set_ Equals payload k v).1 k' = if Equals k k' then Some v else Lookup Equals payload k'.
Proof.
  intros Hr Hs Ht. cbn. unfold Lookup. induction payload as [|[a w] payload IH]; cbn.
  - by destruct (Equals k k').
  - destruct (Equals a k) eqn:Hak; cbn.
    + assert (HE : Equals a k' = Equals k k').
      { destruct (Equals k k') eqn:H1; [by apply (Ht a k k')|].
        destruct (Equals a k') eqn:H2; [|done]. rewrite <- H1. symmetry. apply (Ht k a k'); [|done].
        by apply Hs. }
      rewrite HE. by destruct (Equals k k').
    + destruct (Equals a k') eqn:H2; [|done]. cbn. destruct (Equals k k') eqn:H1; [|done].
      apply Hs in H1. by rewrite (Ht a k' k) in Hak.
Qed.
