(* ===== verification/JitOptions.v ===== *)
(** * The options of the JIT (lib/Jit/jitoptions.cpp, include/Jit/jitoptions.h)

    The options of one compilation, from the flags of the runtime and the
    configuration strings of its host.  The sets of methods are objects of the
    process that the first compilation to ask for them fills ([MethodSet]). *)

From Stdlib Require Import Ascii.
From S2P Require Import Prelude MethodSet.

Module JitOptions.

(** Why a query does not return: a null string is measured, or the parser of a
    method set fails. *)
Inductive Failure : Set := NullDereference | ParseFailure (e : error) | AssertionFailed.

Inductive OptLevel : Set := INVALID | DEBUG_CODE | BLENDED_CODE | SMALL_CODE | FAST_CODE.
Inductive DumpLevel : Set := NODUMP | SUMMARY | VERBOSE.

#[export] Instance OptLevel_eq_dec : EqDecision OptLevel.
Proof. solve_decision. Defined.

(** The static members of [JitOptions]. *)
Inductive SetName : Set :=
  | AltJitMethodSet | AltJitNgenMethodSet | ExcludeMethodSet | BreakMethodSet | MSILMethodSet
  | LLVMMethodSet | CodeRangeMethodSet.

#[export] Instance SetName_eq_dec : EqDecision SetName.
Proof. solve_decision. Defined.

(** The names of the configuration strings. *)
Inductive ConfigName : Set :=
  | AltJitNgen | AltJit | DUMPLLVMIR | AltJitExclude | AltJitBreakAtJitStart | AltJitMSILDump
  | AltJitLLVMDump | AltJitCodeRangeDump | gcConservative | INSERTSTATEPOINTS | JitGCInfoLogging
  | ExecuteHandlersName | SIMDINTRINSIC.

(** The sets that are initialised, with their patterns. *)
Definition MethodSets : Type := SetName -> option (list MethodID).

Definition publish (Sets : MethodSets) (n : SetName) (l : list MethodID) : MethodSets :=
  fun m => if decide (m = n) then Some l else Sets m.

(** What is read of the context of a compilation. *)
Record Context := MkContext {
  CORJIT_FLG_PREJIT : bool;
  CORJIT_FLG_DEBUG_CODE : bool;
  CtxMethodName : text;
  CtxClassName : text;
  CtxSig : option Z
}.

Record Options := MkOptions {
  ODumpLevel : DumpLevel;
  OOptLevel : OptLevel;
  EnableOptimization : bool;
  UseConservativeGC : bool;
  DoInsertStatepoints : bool;
  DoTailCallOpt : bool;
  LogGcInfo : bool;
  ExecuteHandlers : bool;
  DoSIMDIntrinsic : bool;
  PreferredIntrinsicSIMDVectorLength : Z;
  IsAltJit : bool;
  IsExcludeMethod : bool;
  IsBreakMethod : bool;
  IsMSILDumpMethod : bool;
  IsLLVMDumpMethod : bool;
  IsCodeRangeMethod : bool
}.

(** A query reads and fills the sets, or fails. *)
Definition Query (A : Type) : Type := MethodSets -> (A * MethodSets) + Failure.

Definition ret {A} (a : A) : Query A := fun Sets => inl (a, Sets).
Definition stop {A} (F : Failure) : Query A := fun _ => inr F.
Definition bind {A B} (m : Query A) (f : A -> Query B) : Query B :=
  fun Sets => match m Sets with inl (a, Sets) => f a Sets | inr F => inr F end.

Declare Scope query_scope.
Delimit Scope query_scope with query.
#[local] Notation "'let*' x := m 'in' k" := (bind m (fun x => k))
  (at level 200, x pattern, right associativity) : query_scope.
#[local] Open Scope query_scope.

Section options.
(** The host's strings as UTF-16 code units in front of the terminator, and
    LLVM's conversion. *)
Variable getStringConfigValue : ConfigName -> option (list Z).
Variable convertUTF16ToUTF8String : list Z -> text.

(** Was this built without [NDEBUG]? *)
Variable Debug : bool.

(** [Convert::utf16ToUtf8]: a null string is measured without a check. *)
Definition utf16ToUtf8 (WideStr : option (list Z)) : Query text :=
  match WideStr with
  | Some Units => ret (convertUTF16ToUTF8String Units)
  | None => stop NullDereference
  end.

(** [MethodSet::init] of a set that is not initialised. *)
Definition init (n : SetName) (Config : text) : Query (list MethodID) :=
  fun Sets =>
    match parse_patterns Config with
    | Some (Val l) => inl (l, publish Sets n l)
    | Some (Throw e) => inr (ParseFailure e)
    | None => inr AssertionFailed
    end.

Definition get_set (n : SetName) : Query (option (list MethodID)) := fun Sets => inl (Sets n, Sets).

(** A set, filled from a string unless it is already. *)
Definition ensure (n : SetName) (Config : option (list Z)) : Query (list MethodID) :=
  let* Set_ := get_set n in
  match Set_ with
  | Some l => ret l
  | None => let* Utf8 := utf16ToUtf8 Config in init n Utf8
  end.

Definition contains_current (Ctx : Context) (l : list MethodID) : bool :=
  contains l (CtxMethodName Ctx) (CtxClassName Ctx) (CtxSig Ctx).

Definition queryDoTailCallOpt : bool := true.

Definition queryIsAltJit (Ctx : Context) : Query bool :=
  if Debug then
    let* l :=
      if CORJIT_FLG_PREJIT Ctx then ensure AltJitNgenMethodSet (getStringConfigValue AltJitNgen)
      else ensure AltJitMethodSet (getStringConfigValue AltJit) in
    ret (contains_current Ctx l)
  else
    let* Utf8 :=
      utf16ToUtf8 (getStringConfigValue (if CORJIT_FLG_PREJIT Ctx then AltJitNgen else AltJit)) in
    ret (bool_decide (Utf8 = str "*")).

(** [toupper] of the C locale. *)
Definition toupper (c : ascii) : ascii :=
  let n := nat_of_ascii c in
  if ((97 <=? n) && (n <=? 122))%nat then ascii_of_nat (n - 32) else c.

Definition queryDumpLevel : DumpLevel :=
  match getStringConfigValue DUMPLLVMIR with
  | Some LevelWStr =>
      let Level := toupper <$> convertUTF16ToUTF8String LevelWStr in
      if bool_decide (Level = str "VERBOSE") then VERBOSE
      else if bool_decide (Level = str "SUMMARY") then SUMMARY
      else NODUMP
  | None => NODUMP
  end.

(** A set whose string may be null, which is an empty one. *)
Definition queryMethodSet (Ctx : Context) (n : SetName) (Name : ConfigName) : Query bool :=
  let ConfigStr := match getStringConfigValue Name with None => Some [] | Some s => Some s end in
  let* l := ensure n ConfigStr in
  ret (contains_current Ctx l).

Definition queryIsExcludeMethod (Ctx : Context) : Query bool :=
  queryMethodSet Ctx ExcludeMethodSet AltJitExclude.
Definition queryIsBreakMethod (Ctx : Context) : Query bool :=
  queryMethodSet Ctx BreakMethodSet AltJitBreakAtJitStart.
Definition queryIsMSILDumpMethod (Ctx : Context) : Query bool :=
  queryMethodSet Ctx MSILMethodSet AltJitMSILDump.
Definition queryIsLLVMDumpMethod (Ctx : Context) : Query bool :=
  queryMethodSet Ctx LLVMMethodSet AltJitLLVMDump.
Definition queryIsCodeRangeMethod (Ctx : Context) : Query bool :=
  queryMethodSet Ctx CodeRangeMethodSet AltJitCodeRangeDump.

Definition queryNonNullNonEmpty (Name : ConfigName) : bool :=
  match getStringConfigValue Name with Some (_ :: _) => true | _ => false end.

Definition queryUseConservativeGC : bool := queryNonNullNonEmpty gcConservative.
Definition queryDoInsertStatepoints : bool := queryNonNullNonEmpty INSERTSTATEPOINTS.
Definition queryLogGcInfo : bool := queryNonNullNonEmpty JitGCInfoLogging.
Definition queryExecuteHandlers : bool := queryNonNullNonEmpty ExecuteHandlersName.
Definition queryDoSIMDIntrinsic : bool := queryNonNullNonEmpty SIMDINTRINSIC.

Definition queryOptLevel (Ctx : Context) : OptLevel :=
  if CORJIT_FLG_DEBUG_CODE Ctx then DEBUG_CODE else BLENDED_CODE.

(** The constructor. *)
Definition JitOptions (Ctx : Context) : Query Options :=
  let* Alt := queryIsAltJit Ctx in
  let Level := queryOptLevel Ctx in
  let* Exclude := queryIsExcludeMethod Ctx in
  let* Break := queryIsBreakMethod Ctx in
  let* Msil := queryIsMSILDumpMethod Ctx in
  let* Llvm := queryIsLLVMDumpMethod Ctx in
  let* Range := queryIsCodeRangeMethod Ctx in
  if queryDoInsertStatepoints || queryUseConservativeGC then
    ret (MkOptions queryDumpLevel Level (negb (bool_decide (Level = DEBUG_CODE)))
           queryUseConservativeGC queryDoInsertStatepoints queryDoTailCallOpt queryLogGcInfo
           queryExecuteHandlers queryDoSIMDIntrinsic (if Alt then 0 else 32) Alt Exclude Break Msil
           Llvm Range)
  else stop AssertionFailed.
End options.

(** ** What the options are *)

Section rules.
Variable utf8 : list Z -> text.

(** The string a set is filled from; a null string is empty but for the sets of
    the alternative JIT. *)
Definition source (Host : ConfigName -> option (list Z)) (n : SetName) : option (list Z) :=
  match n with
  | AltJitMethodSet => Host AltJit
  | AltJitNgenMethodSet => Host AltJitNgen
  | ExcludeMethodSet => Some (default [] (Host AltJitExclude))
  | BreakMethodSet => Some (default [] (Host AltJitBreakAtJitStart))
  | MSILMethodSet => Some (default [] (Host AltJitMSILDump))
  | LLVMMethodSet => Some (default [] (Host AltJitLLVMDump))
  | CodeRangeMethodSet => Some (default [] (Host AltJitCodeRangeDump))
  end.

(** The patterns of a set for a compilation: those it has, or those of the
    string that it is filled from. *)
Definition effective (Host : ConfigName -> option (list Z)) (Sets : MethodSets) (n : SetName)
    (l : list MethodID) : Prop :=
  match Sets n with
  | Some l' => l' = l
  | None => exists s, source Host n = Some s /\ patterns_text l (utf8 s)
  end.

(** The set that decides whether this is the alternative JIT. *)
Definition alt_set (Ctx : Context) : SetName :=
  if CORJIT_FLG_PREJIT Ctx then AltJitNgenMethodSet else AltJitMethodSet.

(** The sets that a compilation asks for. *)
Definition asked (Ctx : Context) : list SetName :=
  [alt_set Ctx; ExcludeMethodSet; BreakMethodSet; MSILMethodSet; LLVMMethodSet; CodeRangeMethodSet].

(** The sets [ns] are filled with [ls]; the others are as they were. *)
Definition filled (Sets Sets' : MethodSets) (ns : list SetName) (ls : SetName -> list MethodID) : Prop :=
  forall n, Sets' n = if decide (n ∈ ns) then Some (ls n) else Sets n.

Lemma ensure_spec (Host : ConfigName -> option (list Z)) (Sets : MethodSets) (n : SetName)
    (l : list MethodID) :
  effective Host Sets n l ->
  exists Sets', ensure utf8 n (source Host n) Sets = inl (l, Sets') /\
    forall m, Sets' m = if decide (m = n) then Some l else Sets m.
Proof.
  unfold effective, ensure, bind, get_set. destruct (Sets n) as [l'|] eqn:HS.
  - intros ->. exists Sets. split; [done|]. intros m. by case_decide; subst.
  - intros (s & Hs & Ht). rewrite Hs. cbn [utf16ToUtf8]. unfold ret, init.
    rewrite (proj2 (parse_patterns_correct _ l) Ht). eexists. split; [reflexivity|]. done.
Qed.

Lemma queryMethodSet_spec (Host : ConfigName -> option (list Z)) (Ctx : Context) (Sets : MethodSets)
    (n : SetName) (Name : ConfigName) (l : list MethodID) :
  source Host n = Some (default [] (Host Name)) -> effective Host Sets n l ->
  exists Sets', queryMethodSet Host utf8 Ctx n Name Sets = inl (contains_current Ctx l, Sets') /\
    forall m, Sets' m = if decide (m = n) then Some l else Sets m.
Proof.
  intros Hs HE. destruct (ensure_spec Host Sets n l HE) as (Sets' & HEn & HS).
  exists Sets'. split; [|done]. unfold queryMethodSet, bind.
  replace (match Host Name with None => Some [] | Some s => Some s end) with (source Host n)
    by (rewrite Hs; by destruct (Host Name)).
  by rewrite HEn.
Qed.

(** What a compilation with the given patterns gets. *)
Record selected (Debug : bool) (Ctx : Context) (ls : SetName -> list MethodID) (O : Options) : Prop := {
  selected_alt : Debug = true -> IsAltJit O = contains_current Ctx (ls (alt_set Ctx));
  selected_exclude : IsExcludeMethod O = contains_current Ctx (ls ExcludeMethodSet);
  selected_break : IsBreakMethod O = contains_current Ctx (ls BreakMethodSet);
  selected_msil : IsMSILDumpMethod O = contains_current Ctx (ls MSILMethodSet);
  selected_llvm : IsLLVMDumpMethod O = contains_current Ctx (ls LLVMMethodSet);
  selected_range : IsCodeRangeMethod O = contains_current Ctx (ls CodeRangeMethodSet);
  selected_opt : EnableOptimization O = negb (CORJIT_FLG_DEBUG_CODE Ctx);
  selected_simd : PreferredIntrinsicSIMDVectorLength O = if IsAltJit O then 0 else 32;
  selected_gc : DoInsertStatepoints O || UseConservativeGC O = true
}.

Lemma JitOptions_spec (Host : ConfigName -> option (list Z)) (Ctx : Context) (Sets : MethodSets)
    (ls : SetName -> list MethodID) :
  Forall (fun n => effective Host Sets n (ls n)) (asked Ctx) ->
  queryDoInsertStatepoints Host || queryUseConservativeGC Host = true ->
  exists O Sets', JitOptions Host utf8 true Ctx Sets = inl (O, Sets') /\ selected true Ctx ls O /\
    filled Sets Sets' (asked Ctx) ls.
Proof.
  intros HE HG. unfold asked in HE. rewrite !Forall_cons in HE.
  destruct HE as (HA & HX & HB & HM & HL & HR & _).
  assert (Hnext : forall S S' n m, (forall k, S' k = if decide (k = n) then Some (ls n) else S k) ->
            effective Host S m (ls m) -> effective Host S' m (ls m)).
  { intros S S' n m HS Hm. unfold effective in *. rewrite HS. case_decide; [by subst|done]. }
  assert (HQ : exists S1, queryIsAltJit Host utf8 true Ctx Sets = inl (contains_current Ctx (ls (alt_set Ctx)), S1) /\
            forall k, S1 k = if decide (k = alt_set Ctx) then Some (ls (alt_set Ctx)) else Sets k).
  { destruct (ensure_spec Host Sets (alt_set Ctx) _ HA) as (S1 & H1 & HS1). exists S1. split; [|done].
    unfold queryIsAltJit, bind, alt_set in *. destruct (CORJIT_FLG_PREJIT Ctx); cbn [source] in H1; by rewrite H1. }
  destruct HQ as (S1 & HQ1 & HS1).
  destruct (queryMethodSet_spec Host Ctx S1 ExcludeMethodSet AltJitExclude (ls ExcludeMethodSet))
    as (S2 & HQ2 & HS2); [done|eauto|].
  destruct (queryMethodSet_spec Host Ctx S2 BreakMethodSet AltJitBreakAtJitStart (ls BreakMethodSet))
    as (S3 & HQ3 & HS3); [done|eauto|].
  destruct (queryMethodSet_spec Host Ctx S3 MSILMethodSet AltJitMSILDump (ls MSILMethodSet))
    as (S4 & HQ4 & HS4); [done|eauto|].
  destruct (queryMethodSet_spec Host Ctx S4 LLVMMethodSet AltJitLLVMDump (ls LLVMMethodSet))
    as (S5 & HQ5 & HS5); [done|eauto 6|].
  destruct (queryMethodSet_spec Host Ctx S5 CodeRangeMethodSet AltJitCodeRangeDump (ls CodeRangeMethodSet))
    as (S6 & HQ6 & HS6); [done|eauto 7|].
  unfold JitOptions, bind, queryIsExcludeMethod, queryIsBreakMethod, queryIsMSILDumpMethod,
    queryIsLLVMDumpMethod, queryIsCodeRangeMethod.
  rewrite HQ1, HQ2, HQ3, HQ4, HQ5, HQ6, HG. do 2 eexists. split; [reflexivity|]. split.
  - split; try done; cbn. unfold queryOptLevel. by destruct (CORJIT_FLG_DEBUG_CODE Ctx).
  - intros n. rewrite HS6, HS5, HS4, HS3, HS2, HS1. unfold asked.
    repeat (case_decide; subst; try done); try set_solver.
Qed.
End rules.

(** C40: In a debug build method sets are read once: after a compilation whose
    configuration strings are lists of patterns, every later compilation of the
    same kind succeeds and is filtered by these patterns, whatever the host
    answers then for the sets (other patterns, malformed ones, null), as long
    as the host asks for statepoints or a conservative collector in both; and
    in both the flags for the method are membership of its name, class and
    signature. *)
Theorem method_sets_are_read_once (utf8 : list Z -> text) (Host1 Host2 : ConfigName -> option (list Z))
    (Ctx1 Ctx2 : Context) (ls : SetName -> list MethodID)
    (Htexts : Forall (fun n => exists s, source Host1 n = Some s /\ patterns_text (ls n) (utf8 s)) (asked Ctx1))
    (Hkind : CORJIT_FLG_PREJIT Ctx1 = CORJIT_FLG_PREJIT Ctx2)
    (Hgc1 : queryDoInsertStatepoints Host1 || queryUseConservativeGC Host1 = true)
    (Hgc2 : queryDoInsertStatepoints Host2 || queryUseConservativeGC Host2 = true) :
  exists O1 Sets1 O2 Sets2,
    JitOptions Host1 utf8 true Ctx1 (fun _ => None) = inl (O1, Sets1) /\ selected true Ctx1 ls O1 /\
    JitOptions Host2 utf8 true Ctx2 Sets1 = inl (O2, Sets2) /\ selected true Ctx2 ls O2.
Proof.
  destruct (JitOptions_spec utf8 Host1 Ctx1 (fun _ => None) ls) as (O1 & S1 & HE1 & HO1 & HF1); [|done|].
  { eapply Forall_impl; [exact Htexts|]. intros n Hn. exact Hn. }
  assert (HA : asked Ctx1 = asked Ctx2) by (unfold asked, alt_set; by rewrite Hkind).
  destruct (JitOptions_spec utf8 Host2 Ctx2 S1 ls) as (O2 & S2 & HE2 & HO2 & _); [|done|].
  { apply Forall_forall. intros n Hn. unfold effective. rewrite HF1, HA. by rewrite decide_True. }
  by exists O1, S1, O2, S2.
Qed.

(** A host with one pattern for the sets, and one with nothing but the GC. *)
Definition demo_host (n : ConfigName) : option (list Z) :=
  match n with AltJit | AltJitExclude | gcConservative => Some [1] | _ => None end.
Definition bare_host (n : ConfigName) : option (list Z) :=
  match n with gcConservative => Some [1] | _ => None end.
Definition demo_utf8 (Units : list Z) : text :=
  match Units with [] => [] | _ => str "  foo Ns.C:bar(2)" end.
Definition demo_context : Context := MkContext false false (str "foo") (str "X") None.

Lemma method_sets_are_read_once_witness :
  exists O1 Sets1 O2 Sets2,
    JitOptions demo_host demo_utf8 true demo_context (fun _ => None) = inl (O1, Sets1) /\
    JitOptions bare_host demo_utf8 true demo_context Sets1 = inl (O2, Sets2) /\
    IsExcludeMethod O2 = true /\ IsBreakMethod O2 = false.
Proof.
  set (ls := fun n => match n with AltJitMethodSet | ExcludeMethodSet => demo_patterns | _ => [] end).
  destruct (method_sets_are_read_once demo_utf8 demo_host bare_host demo_context demo_context ls)
    as (O1 & S1 & O2 & S2 & HE1 & _ & HE2 & HO2); [|reflexivity|reflexivity|reflexivity|].
  - repeat constructor; eexists; (split; [reflexivity|]);
      first [exact demo_patterns_text|constructor].
  - exists O1, S1, O2, S2. split; [exact HE1|]. split; [exact HE2|].
    split; [rewrite (selected_exclude _ _ _ _ HO2)|rewrite (selected_break _ _ _ _ HO2)]; reflexivity.
Defined.
End JitOptions.
