(* ===== verification/EHPads.v ===== *)
(** * Exception pads (lib/Reader/readerir.cpp)

    LLVM finds the handlers of an exception by pads: a catchswitch for the
    catches of a try, a catchpad or cleanuppad for each handler.  The reader
    makes them when it enters a try region ([fgEnterRegion], [createEHPad]); the
    exceptional exit of a finally is made with its endfinally
    ([fgMakeEndFinally]), and a call that may throw goes to the pad of its region
    ([makeCall]).  Each pad has a block of its own, so a pad stands for
    its block, too. *)

From S2P Require Import Prelude Regions RegionTree.

Module EHPads.

(** ** Data *)

(** A pad: a catchswitch with its handlers and the pad its unwind edge leads to,
    a catchpad with its token, a cleanuppad, with an argument for a fault. *)
Inductive PadKind : Set :=
  | CatchSwitch (Handlers : list nat) (UnwindDest : option nat)
  | CatchPadOf (Token : Z)
  | CleanupPadOf (IsFault : bool).

(** [ParentPad] is [None] for the token none; [HandlerCode] is the offset of the
    handler that the pad's block branches to, and [PropagatesException] says
    that the exception is the stack on that edge. *)
Record Pad := MkPad {
  PadOf : PadKind;
  ParentPad : option nat;
  BlockOffset : Z;
  HandlerCode : option Z;
  PropagatesException : bool
}.

(** The pads in the order they are made, the fields of the regions that hold
    pads (which kinds of region keep them in shared storage is not seen: a kind
    reads what it wrote), and the offsets that were asked to start blocks. *)
Record PadState := MkPads {
  Pads : list Pad;
  HandlerEHPad : gmap nat nat;
  RegionCatchPad : gmap nat nat;
  RegionCleanupPad : gmap nat nat;
  RegionException : gmap nat nat;
  PersonalityFunction : bool;
  HandlerNodes : list Z
}.

Definition no_pads : PadState := MkPads [] ∅ ∅ ∅ ∅ false [].

Definition assert (b : bool) : option unit := if b then Some tt else None.

Definition add_pad (st : PadState) (P : Pad) : PadState * nat :=
  (MkPads (Pads st ++ [P]) (HandlerEHPad st) (RegionCatchPad st) (RegionCleanupPad st)
     (RegionException st) (PersonalityFunction st) (HandlerNodes st), length (Pads st)).

(** A field of a region; a null pointer clears it. *)
Definition set_handler_pad (st : PadState) (r : nat) (p : option nat) : PadState :=
  MkPads (Pads st) (partial_alter (fun _ => p) r (HandlerEHPad st)) (RegionCatchPad st)
    (RegionCleanupPad st) (RegionException st) (PersonalityFunction st) (HandlerNodes st).

Definition set_catch_pad (st : PadState) (r p : nat) : PadState :=
  MkPads (Pads st) (HandlerEHPad st) (<[r := p]> (RegionCatchPad st)) (RegionCleanupPad st)
    (RegionException st) (PersonalityFunction st) (HandlerNodes st).

Definition set_cleanup_pad (st : PadState) (r p : nat) : PadState :=
  MkPads (Pads st) (HandlerEHPad st) (RegionCatchPad st) (<[r := p]> (RegionCleanupPad st))
    (RegionException st) (PersonalityFunction st) (HandlerNodes st).

Definition set_exception (st : PadState) (r p : nat) : PadState :=
  MkPads (Pads st) (HandlerEHPad st) (RegionCatchPad st) (RegionCleanupPad st)
    (<[r := p]> (RegionException st)) (PersonalityFunction st) (HandlerNodes st).

(** [CatchSwitch->addHandler]. *)
Definition add_handler (st : PadState) (Switch Handler : nat) : PadState :=
  MkPads
    (alter (fun P => match PadOf P with
                     | CatchSwitch Handlers Dest =>
                         MkPad (CatchSwitch (Handlers ++ [Handler]) Dest) (ParentPad P) (BlockOffset P)
                           (HandlerCode P) (PropagatesException P)
                     | _ => P
                     end) Switch (Pads st))
    (HandlerEHPad st) (RegionCatchPad st) (RegionCleanupPad st) (RegionException st)
    (PersonalityFunction st) (HandlerNodes st).

Section pads.
Variable s : arena.
Variable mdTypeRefNil : Z.
Variable needSequencePoints : bool.

Definition rgnGetCatchClassToken (R : EHRegion) : option Z :=
  match Extra R with UCatchClassToken t => Some t | _ => None end.

(** The personality function and the block of the handler's code. *)
Definition handler_node (st : PadState) (R : EHRegion) : PadState :=
  MkPads (Pads st) (HandlerEHPad st) (RegionCatchPad st) (RegionCleanupPad st) (RegionException st)
    true (HandlerNodes st ++ [StartMsilOffset R]).

Definition createEHPad (st : PadState) (Handler : nat) (EnclosingPad : option nat) :
    option (PadState * nat) :=
  R ← s !! Handler;
  let st := handler_node st R in
  _ ← assert (negb needSequencePoints);
  let Start := StartMsilOffset R in
  match Kind R with
  | RGN_MCatch =>
      ClassToken ← rgnGetCatchClassToken R;
      let '(st, p) := add_pad st (MkPad (CatchPadOf ClassToken) EnclosingPad Start (Some Start) true) in
      Some (set_catch_pad st Handler p, p)
  | RGN_Filter =>
      let '(st, p) :=
        add_pad st (MkPad (CatchPadOf mdTypeRefNil) EnclosingPad Start (Some Start) true) in
      let st := set_catch_pad st Handler p in
      match Extra R with
      | UHandlerRegion FilterHandler =>
          let st := set_catch_pad st FilterHandler p in
          let st := set_handler_pad st FilterHandler (HandlerEHPad st !! Handler) in
          Some (set_exception st FilterHandler p, p)
      | _ => None
      end
  | RGN_Finally =>
      let '(st, p) := add_pad st (MkPad (CleanupPadOf false) EnclosingPad Start (Some Start) false) in
      Some (set_cleanup_pad st Handler p, p)
  | RGN_Fault =>
      let '(st, p) := add_pad st (MkPad (CleanupPadOf true) EnclosingPad Start (Some Start) false) in
      Some (set_cleanup_pad st Handler p, p)
  | _ => None
  end.

(** The nearest ancestor that is no try. *)
Fixpoint enclosing_handler (fuel : nat) (r : nat) : option nat :=
  match fuel with
  | O => None
  | S fuel =>
      R ← s !! r;
      if is_kind RGN_Try R then P ← Parent R; enclosing_handler fuel P else Some r
  end.

(** The pad of the funclet a region is in; [Some None] is the token none, a null
    pointer is [None]. *)
Definition enclosing_pad (st : PadState) (EnclosingHandler : nat) : option (option nat) :=
  R ← s !! EnclosingHandler;
  match Kind R with
  | RGN_Root => Some None
  | RGN_MCatch | RGN_MExcept => Some <$> RegionCatchPad st !! EnclosingHandler
  | RGN_Finally | RGN_Fault => Some <$> RegionCleanupPad st !! EnclosingHandler
  | RGN_Filter =>
      match Extra R with
      | UHandlerRegion FilterHandler => Some <$> RegionCatchPad st !! FilterHandler
      | _ => None
      end
  | RGN_Try => None
  end.

(** The loop that counts handlers expects only handlers behind the first. *)
Fixpoint only_handlers (Nodes : list nat) : option bool :=
  match Nodes with
  | [] => Some true
  | Node :: Nodes =>
      R ← s !! Node;
      if is_kind RGN_MExcept R || is_kind RGN_MCatch R || is_kind RGN_Filter R
      then only_handlers Nodes else Some false
  end.

(** The loop over the children of a try; [Switch] and [NewPad] are the two local
    variables. *)
Fixpoint enter_children (Children : list nat) (RegionEnd : Z) (Parent : nat)
    (EnclosingPad : option nat) (st : PadState) (Switch NewPad : option nat) :
    option (PadState * option nat) :=
  match Children with
  | [] => Some (st, NewPad)
  | Child :: Rest =>
      R ← s !! Child;
      match Kind R with
      | RGN_Try | RGN_MExcept => enter_children Rest RegionEnd Parent EnclosingPad st Switch NewPad
      | RGN_MCatch | RGN_Filter =>
          '(st, SwitchPad, NewPad) ←
            match Switch with
            | Some p => Some (st, p, NewPad)
            | None =>
                _ ← assert (bool_decide (NewPad = None));
                Only ← only_handlers Rest;
                _ ← assert Only;
                let '(st, p) :=
                  add_pad st (MkPad (CatchSwitch [] (HandlerEHPad st !! Parent)) EnclosingPad
                                RegionEnd None false) in
                Some (st, p, Some p)
            end;
          let st := set_handler_pad st Child (HandlerEHPad st !! Parent) in
          '(st, CatchPad) ← createEHPad st Child (Some SwitchPad);
          enter_children Rest RegionEnd Parent EnclosingPad (add_handler st SwitchPad CatchPad)
            (Some SwitchPad) NewPad
      | RGN_Finally | RGN_Fault =>
          _ ← assert (bool_decide (NewPad = None));
          let st := set_handler_pad st Child (HandlerEHPad st !! Parent) in
          '(st, p) ← createEHPad st Child EnclosingPad;
          enter_children Rest RegionEnd Parent EnclosingPad st Switch (Some p)
      | RGN_Root => None
      end
  end.

Definition fgEnterRegion (st : PadState) (Region : nat) : option PadState :=
  R ← s !! Region;
  if is_kind RGN_Try R then
    Parent ← Parent R;
    EnclosingHandler ← enclosing_handler (length s) Parent;
    EnclosingPad ← enclosing_pad st EnclosingHandler;
    '(st, NewPad) ←
      enter_children (Children R) (EndMsilOffset R) Parent EnclosingPad st None None;
    Some (set_handler_pad st Region NewPad)
  else Some st.
End pads.

(** ** The end of a finally *)

(** The case of the dispatch switch for exceptions, which the pad's block
    stores to the selector, and the cleanupret it goes to. *)
Record ExceptionalExit := MkExit {
  SelectorValue : Z;
  CleanupRet : nat;
  RetUnwindDest : option nat
}.

(** The finallies whose switch is in a block; the cases of leaves are in [Leave]
    and [FlowGraph]. *)
Notation Exits := (gmap nat ExceptionalExit).

Definition fgMakeEndFinally (st : PadState) (X : Exits) (FinallyRegion : nat) : option Exits :=
  match X !! FinallyRegion with
  | Some _ => Some X
  | None =>
      CleanupPad ← RegionCleanupPad st !! FinallyRegion;
      Some (<[FinallyRegion := MkExit 0 CleanupPad (HandlerEHPad st !! FinallyRegion)]> X)
  end.

(** What the flow-graph builder does with regions: it enters one, or ends a
    finally. *)
Inductive region_step : Set :=
  | Enter (Region : nat)
  | EndFinally (Region : nat).

Definition do_step (s : arena) (mdTypeRefNil : Z) (q : PadState * Exits) (e : region_step) :
    option (PadState * Exits) :=
  match e with
  | Enter Region => st ← fgEnterRegion s mdTypeRefNil false q.1 Region; Some (st, q.2)
  | EndFinally Region => X ← fgMakeEndFinally q.1 q.2 Region; Some (q.1, X)
  end.

Fixpoint do_steps (s : arena) (mdTypeRefNil : Z) (q : PadState * Exits) (es : list region_step) :
    option (PadState * Exits) :=
  match es with
  | [] => Some q
  | e :: es => q ← do_step s mdTypeRefNil q e; do_steps s mdTypeRefNil q es
  end.

(** ** Calls *)

Section calls.
Variable Value : Type.

Inductive OperandBundle : Type :=
  | FuncletBundle (Pad : nat)
  | OtherBundle (Inputs : list Value).

(** An invoke splits its block; its normal successor is the block of what is
    behind it. *)
Inductive CallSite : Type :=
  | CallInst (Callee : Value) (Args : list Value) (Bundles : list OperandBundle)
  | InvokeInst (Callee : Value) (ExceptionSuccessor : nat) (Args : list Value)
      (Bundles : list OperandBundle).

(** The pad of the handler that the code of a region is in, a null pointer
    outside of handlers. *)
Fixpoint parent_pad (fuel : nat) (s : arena) (st : PadState) (Region : option nat) :
    option (option nat) :=
  match Region, fuel with
  | None, _ => Some None
  | Some _, O => None
  | Some r, S fuel =>
      R ← s !! r;
      match Kind R with
      | RGN_Fault | RGN_Finally => Some (RegionCleanupPad st !! r)
      | RGN_MCatch | RGN_MExcept => Some (RegionCatchPad st !! r)
      | RGN_Filter =>
          match Extra R with
          | UHandlerRegion FilterHandler => Some (RegionCatchPad st !! FilterHandler)
          | _ => None
          end
      | RGN_Root | RGN_Try => parent_pad fuel s st (rgnGetEnclosingAncestor s r)
      end
  end.

Definition makeCall (s : arena) (st : PadState) (SuppressExceptionHandlers : bool)
    (CurrentRegion : option nat) (Callee : Value) (MayThrow : bool) (Args : list Value)
    (Bundles : list OperandBundle) : option CallSite :=
  ParentPad ← parent_pad (S (length s)) s st CurrentRegion;
  let Bundles := match ParentPad with Some p => Bundles ++ [FuncletBundle p] | None => Bundles end in
  let EHPad := if MayThrow then r ← CurrentRegion; HandlerEHPad st !! r else None in
  match EHPad with
  | Some p =>
      if SuppressExceptionHandlers then Some (CallInst Callee Args Bundles)
      else Some (InvokeInst Callee p Args Bundles)
  | None => Some (CallInst Callee Args Bundles)
  end.
End calls.

Arguments FuncletBundle {Value}.
Arguments OtherBundle {Value}.
Arguments CallInst {Value}.
Arguments InvokeInst {Value}.
Arguments makeCall {Value}.
End EHPads.
