(* ===== verification/EHPadsRules.v ===== *)
(** * Where an exception goes

    Entering the try regions of a method, outer ones first, gives pads whose
    unwind edges lead through the handlers of the enclosing tries, from the
    inside out, up to the first fault. *)

From S2P Require Import Prelude Regions RegionTree EHPads.
Import EHPads.

Section rules.
Variable s : arena.
Variable mdTypeRefNil : Z.
Hypothesis Hs : arena_ok s.

#[local] Notation createEHPad := (createEHPad s mdTypeRefNil false).
#[local] Notation enter_children := (enter_children s mdTypeRefNil false).
#[local] Notation fgEnterRegion := (fgEnterRegion s mdTypeRefNil false).
#[local] Notation do_steps := (do_steps s mdTypeRefNil).

(** ** The handlers of a try *)

Definition kind_of (r : nat) : option RegionKind := Kind <$> s !! r.

(** A handler that every exception runs through: a finally or a fault. *)
Definition cleanup_kind (k : RegionKind) : bool :=
  match k with RGN_Finally | RGN_Fault => true | _ => false end.
Definition is_cleanup (r : nat) : bool :=
  match kind_of r with Some k => cleanup_kind k | None => false end.

Lemma is_finally_cleanup (r : nat) : kind_of r = Some RGN_Finally -> is_cleanup r = true.
Proof. unfold is_cleanup. by intros ->. Qed.

(** A handler that catches: of a class, by a filter, or the code behind one; all
    of them belong to the list [hs]. *)
Definition catching (hs : list nat) (c : nat) : Prop :=
  exists C, s !! c = Some C /\
    ((Kind C = RGN_MCatch /\ exists t, Extra C = UCatchClassToken t) \/
     (Kind C = RGN_Filter /\ exists h, Extra C = UHandlerRegion h /\ h ∈ hs /\ kind_of h = Some RGN_MExcept) \/
     (Kind C = RGN_MExcept /\ exists f F, f ∈ hs /\ s !! f = Some F /\ Kind F = RGN_Filter /\
        Extra F = UHandlerRegion c)).

(** The handlers of a try behind the tries nested in it: one finally, one
    fault, or some catches. *)
Inductive handlers_ok (R : EHRegion) (hs : list nat) : Prop :=
  | one_cleanup h : hs = [h] -> is_cleanup h = true -> handlers_ok R hs
  | some_catches : hs <> [] -> Forall (catching hs) hs -> handlers_ok R hs.

Definition try_ok (t : nat) (hs : list nat) : Prop :=
  exists R tries, s !! t = Some R /\ Kind R = RGN_Try /\ Children R = tries ++ hs /\
    Forall (fun c => kind_of c = Some RGN_Try) tries /\ NoDup hs /\ handlers_ok R hs.

(** The children that get a catchpad of their own. *)
Definition has_catchpad (c : nat) : bool :=
  match s !! c with Some C => is_kind RGN_MCatch C || is_kind RGN_Filter C | None => false end.

Definition catch_children (hs : list nat) : list nat := List.filter has_catchpad hs.

(** The token of a catchpad. *)
Definition token_of (c : nat) : Z :=
  match s !! c with
  | Some C => match Extra C with UCatchClassToken t => t | _ => mdTypeRefNil end
  | None => mdTypeRefNil
  end.

(** A catchpad in a switch. *)
Definition catch_pad (st : PadState) (Switch c q : nat) : Prop :=
  exists C, s !! c = Some C /\ RegionCatchPad st !! c = Some q /\
    Pads st !! q = Some (MkPad (CatchPadOf (token_of c)) (Some Switch) (StartMsilOffset C)
                           (Some (StartMsilOffset C)) true).

(** The regions whose pads a handler sets: itself, and the code behind a filter. *)
Definition touches (c : nat) : list nat :=
  match s !! c with
  | Some C =>
      match Kind C, Extra C with
      | RGN_MCatch, _ => [c]
      | RGN_Filter, UHandlerRegion h => [c; h]
      | _, _ => []
      end
  | None => []
  end.

Definition touched (hs : list nat) : list nat := hs ≫= touches.

Lemma touched_cons (c : nat) (hs : list nat) : touched (c :: hs) = touches c ++ touched hs.
Proof. done. Qed.

(** Catching handlers touch each other only. *)
Lemma touched_catching (hs : list nat) (r : nat) :
  Forall (catching hs) hs -> r ∈ touched hs <-> r ∈ hs.
Proof.
  intros HC. rewrite Forall_forall in HC. unfold touched. rewrite list_elem_of_bind. split.
  - intros (c & Hr & Hc). destruct (HC c Hc) as (C & HCc & HK). unfold touches in Hr. rewrite HCc in Hr.
    destruct HK as [[HK _]|[[HK (h & HX & Hh & _)]|[HK _]]]; rewrite HK in Hr.
    + by apply list_elem_of_singleton in Hr as ->.
    + rewrite HX in Hr. apply elem_of_cons in Hr as [->|Hr]; [done|].
      by apply list_elem_of_singleton in Hr as ->.
    + by apply not_elem_of_nil in Hr.
  - intros Hr. destruct (HC r Hr) as (C & HCr & HK).
    destruct HK as [[HK _]|[[HK (h & HX & Hh & _)]|[HK (f & F & Hf & HF & HKf & HXf)]]].
    + exists r. split; [|done]. unfold touches. rewrite HCr, HK. by left.
    + exists r. split; [|done]. unfold touches. rewrite HCr, HK, HX. by left.
    + exists f. split; [|done]. unfold touches. rewrite HF, HKf, HXf. right. by left.
Qed.

(** What entering handlers leaves alone. *)
Record keeps (st st' : PadState) (rs : list nat) : Prop := {
  keeps_pads : (length (Pads st) <= length (Pads st'))%nat;
  keeps_handler : forall r, r ∉ rs -> HandlerEHPad st' !! r = HandlerEHPad st !! r;
  keeps_catch : forall r, r ∉ rs -> RegionCatchPad st' !! r = RegionCatchPad st !! r;
  keeps_cleanup : forall r, r ∉ rs -> RegionCleanupPad st' !! r = RegionCleanupPad st !! r
}.

(** A catch or filter child makes a catchpad in the switch. *)
Lemma createEHPad_catch (st : PadState) (c p : nat) (hs : list nat) :
  catching hs c -> has_catchpad c = true ->
  exists st', createEHPad st c (Some p) = Some (st', length (Pads st)) /\
    Pads st' = Pads st ++ [MkPad (CatchPadOf (token_of c)) (Some p) (default 0 (rgnGetStartMSILOffset s c))
                              (Some (default 0 (rgnGetStartMSILOffset s c))) true] /\
    (forall r, HandlerEHPad st' !! r = if decide (r ∈ touches c) then HandlerEHPad st !! c else HandlerEHPad st !! r) /\
    (forall r, RegionCatchPad st' !! r = if decide (r ∈ touches c) then Some (length (Pads st)) else RegionCatchPad st !! r) /\
    RegionCleanupPad st' = RegionCleanupPad st.
Proof.
  intros (C & HC & HK) HP. unfold has_catchpad in HP. rewrite HC in HP.
  unfold EHPads.createEHPad, token_of, touches, rgnGetStartMSILOffset. rewrite HC.
  cbn [mbind option_bind negb assert fmap option_fmap option_map default].
  destruct HK as [[HK (t & HX)]|[[HK (h & HX & _ & Hh)]|[HK _]]].
  - rewrite HK. unfold rgnGetCatchClassToken. rewrite HX. cbn.
    eexists. split; [reflexivity|]. cbn. split; [done|]. split; [|split; [|done]]; intros r.
    + case_decide as Hr; [|done]. by apply list_elem_of_singleton in Hr as ->.
    + case_decide as Hr.
      * apply list_elem_of_singleton in Hr as ->. apply lookup_insert_eq.
      * rewrite lookup_insert_ne; [done|]. intros ->. apply Hr. by left.
  - rewrite HK, HX. cbn. eexists. split; [reflexivity|]. cbn. split; [done|].
    split; [|split; [|done]]; intros r.
    + destruct (decide (h = r)) as [->|Hhr].
      * rewrite lookup_partial_alter_eq. rewrite decide_True; [done|]. right. by left.
      * rewrite lookup_partial_alter_ne by done. case_decide as Hr; [|done].
        apply elem_of_cons in Hr as [->|Hr]; [done|]. by apply list_elem_of_singleton in Hr.
    + destruct (decide (h = r)) as [->|Hhr].
      * rewrite lookup_insert_eq, decide_True; [done|]. right. by left.
      * rewrite lookup_insert_ne by done. case_decide as Hr.
        -- apply elem_of_cons in Hr as [->|Hr]; [apply lookup_insert_eq|].
           by apply list_elem_of_singleton in Hr.
        -- rewrite lookup_insert_ne; [done|]. intros ->. apply Hr. by left.
  - unfold is_kind in HP. by rewrite HK in HP.
Qed.

(** *** The catches of a try *)

(** The catchswitch in a state. *)
Definition switch_at (st : PadState) (p : nat) (Handlers : list nat) (Dest EP : option nat) (o : Z) : Prop :=
  Pads st !! p = Some (MkPad (CatchSwitch Handlers Dest) EP o None false).

Lemma catch_pad_start (c : nat) (C : EHRegion) :
  s !! c = Some C -> default 0 (rgnGetStartMSILOffset s c) = StartMsilOffset C.
Proof. intros HC. unfold rgnGetStartMSILOffset. by rewrite HC. Qed.

Lemma touches_self (hs : list nat) (c : nat) :
  catching hs c -> has_catchpad c = true -> c ∈ touches c.
Proof.
  intros (C & HC & HK) HP. unfold has_catchpad in HP. rewrite HC in HP. unfold touches. rewrite HC.
  destruct HK as [[HK _]|[[HK (h & HX & _)]|[HK _]]].
  - rewrite HK. by left.
  - rewrite HK, HX. by left.
  - unfold is_kind in HP. by rewrite HK in HP.
Qed.

(** One catch or filter, once there is a switch. *)
Lemma enter_catch_step (st : PadState) (c p parent : nat) (hs Hs' : list nat) (EP Dest : option nat)
    (o : Z) :
  catching hs c -> has_catchpad c = true -> switch_at st p Hs' Dest EP o -> parent ∉ touches c ->
  let st1 := set_handler_pad st c (HandlerEHPad st !! parent) in
  exists st2, createEHPad st1 c (Some p) = Some (st2, length (Pads st)) /\
    let st3 := add_handler st2 p (length (Pads st)) in
    switch_at st3 p (Hs' ++ [length (Pads st)]) Dest EP o /\
    (forall i, i <> p -> (i < length (Pads st))%nat -> Pads st3 !! i = Pads st !! i) /\
    length (Pads st3) = S (length (Pads st)) /\
    (forall r, HandlerEHPad st3 !! r =
       if decide (r ∈ touches c) then HandlerEHPad st !! parent else HandlerEHPad st !! r) /\
    (forall r, r ∉ touches c -> RegionCatchPad st3 !! r = RegionCatchPad st !! r) /\
    (forall r, r ∈ touches c -> RegionCatchPad st3 !! r = Some (length (Pads st))) /\
    RegionCleanupPad st3 = RegionCleanupPad st /\
    catch_pad st3 p c (length (Pads st)).
Proof.
  intros HC HP HS Hpar st1.
  destruct (createEHPad_catch st1 c p hs HC HP) as (st2 & HE & HPads & HH & HR & HCl).
  exists st2. split; [done|]. cbn zeta.
  assert (Hp : (p < length (Pads st))%nat) by (by eapply lookup_lt_Some).
  assert (HL : length (Pads st2) = S (length (Pads st))).
  { rewrite HPads, length_app. cbn. lia. }
  assert (Hself : c ∈ touches c) by (by eapply touches_self).
  split_and!.
  - unfold switch_at, add_handler in *. cbn [Pads]. rewrite list_lookup_alter_eq, HPads, lookup_app_l by done.
    cbn. by rewrite HS.
  - intros i Hi Hlt. unfold add_handler. cbn [Pads]. rewrite list_lookup_alter_ne by done.
    rewrite HPads, lookup_app_l by done. done.
  - unfold add_handler. cbn [Pads]. by rewrite length_alter.
  - intros r. unfold add_handler. cbn [HandlerEHPad]. rewrite HH. cbn.
    rewrite !lookup_partial_alter_eq. case_decide as Hr; [done|].
    rewrite lookup_partial_alter_ne; [done|]. by intros ->.
  - intros r Hr. unfold add_handler. cbn [RegionCatchPad]. rewrite HR. by rewrite decide_False.
  - intros r Hr. unfold add_handler. cbn [RegionCatchPad]. rewrite HR. by rewrite decide_True.
  - unfold add_handler. cbn [RegionCleanupPad]. by rewrite HCl.
  - destruct HC as (C & HC & _). exists C. split; [done|]. split.
    + unfold add_handler. cbn [RegionCatchPad]. rewrite HR. by rewrite decide_True.
    + unfold add_handler. cbn [Pads]. rewrite list_lookup_alter_ne by lia.
      rewrite HPads. cbn. rewrite lookup_app_r, Nat.sub_diag by done. by rewrite (catch_pad_start c C HC).
Qed.

(** A catchpad stays where it is. *)
Lemma catch_pad_keeps (st st' : PadState) (p c q : nat) :
  catch_pad st p c q -> RegionCatchPad st' !! c = RegionCatchPad st !! c ->
  Pads st' !! q = Pads st !! q -> catch_pad st' p c q.
Proof. intros (C & HC & HR & HP) HR' HP'. exists C. by rewrite HR', HP'. Qed.

(** A handler whose catchpad is in a switch. *)
Definition in_switch (st : PadState) (p r : nat) : Prop :=
  exists q Q, RegionCatchPad st !! r = Some q /\ Pads st !! q = Some Q /\ ParentPad Q = Some p.

(** The kinds a catching child can have, as the loop tests them. *)
Lemma catching_cases (hs : list nat) (c : nat) :
  catching hs c -> exists C, s !! c = Some C /\
    ((has_catchpad c = true /\ (Kind C = RGN_MCatch \/ Kind C = RGN_Filter)) \/
     (has_catchpad c = false /\ Kind C = RGN_MExcept /\ touches c = [])).
Proof.
  intros (C & HC & HK). exists C. split; [done|]. unfold has_catchpad, touches, is_kind. rewrite HC.
  destruct HK as [[HK _]|[[HK _]|[HK _]]]; rewrite HK; cbn; auto.
Qed.

(** The list of the children of a switch. *)
Record catches_entered (st st' : PadState) (p parent : nat) (cs Hs' new : list nat)
    (Dest EP : option nat) (o : Z) : Prop := {
  ce_switch : switch_at st' p (Hs' ++ new) Dest EP o;
  ce_pads : forall i, i <> p -> (i < length (Pads st))%nat -> Pads st' !! i = Pads st !! i;
  ce_length : (length (Pads st) <= length (Pads st'))%nat;
  ce_handler : forall r, HandlerEHPad st' !! r =
    if decide (r ∈ touched cs) then HandlerEHPad st !! parent else HandlerEHPad st !! r;
  ce_catch : forall r, r ∉ touched cs -> RegionCatchPad st' !! r = RegionCatchPad st !! r;
  ce_some : forall r, r ∈ touched cs -> in_switch st' p r;
  ce_cleanup : RegionCleanupPad st' = RegionCleanupPad st;
  ce_new : Forall2 (catch_pad st' p) (catch_children cs) new
}.

Lemma enter_catches (parent : nat) (hs : list nat) (RegionEnd : Z) (EP0 NP : option nat) (cs : list nat) :
  forall (st : PadState) (p : nat) (Hs' : list nat) (Dest EP : option nat) (o : Z),
  Forall (catching hs) cs -> NoDup cs -> parent ∉ touched cs -> switch_at st p Hs' Dest EP o ->
  (forall c h, c ∈ cs -> has_catchpad c = true -> h ∈ cs -> has_catchpad h = true -> c ∈ touches h -> c = h) ->
  exists st' new, enter_children cs RegionEnd parent EP0 st (Some p) NP = Some (st', NP) /\
    catches_entered st st' p parent cs Hs' new Dest EP o.
Proof.
  induction cs as [|c cs IH]; intros st p Hs' Dest EP o HC HD Hpar HS Hsep.
  { exists st, []. split; [done|]. split; try done; [by rewrite app_nil_r|].
    intros r Hr. by apply not_elem_of_nil in Hr. }
  apply Forall_cons in HC as [HCc HC]. apply NoDup_cons in HD as [Hcn HD].
  rewrite touched_cons, not_elem_of_app in Hpar. destruct Hpar as [Hparc Hpar].
  destruct (catching_cases hs c HCc) as (C & HCC & [[HP HK]|(HP & HK & HT)]).
  - destruct (enter_catch_step st c p parent hs Hs' EP Dest o HCc HP HS Hparc)
      as (st2 & HE & HS3 & HPads & HL & HH & HR & HSm & HCl & Hcp).
    set (st3 := add_handler st2 p (length (Pads st))) in *.
    destruct (IH st3 p (Hs' ++ [length (Pads st)]) Dest EP o HC HD Hpar HS3) as (st' & new & HE' & HX).
    { intros a b Ha HPa Hb HPb. apply Hsep; [by right|done|by right|done]. }
    exists st', (length (Pads st) :: new). split.
    + cbn [EHPads.enter_children]. rewrite HCC. cbn [mbind option_bind].
      destruct HK as [HK|HK]; rewrite HK; cbn [mbind option_bind]; rewrite HE; cbn [mbind option_bind]; exact HE'.
    + destruct HX as [X1 X2 X3 X4 X5 XS X6 X7]. split.
      * rewrite <- app_assoc in X1. exact X1.
      * intros i Hi Hlt. rewrite X2 by (done || lia). by apply HPads.
      * lia.
      * intros r. rewrite X4, !HH, touched_cons. rewrite (decide_False (P := parent ∈ touches c)) by done.
        destruct (decide (r ∈ touched cs)) as [H1|H1].
        { rewrite decide_True; [done|]. apply elem_of_app. by right. }
        destruct (decide (r ∈ touches c)) as [H2|H2].
        { rewrite decide_True; [done|]. apply elem_of_app. by left. }
        rewrite decide_False; [done|]. by intros [?|?]%elem_of_app.
      * intros r Hr. rewrite touched_cons, not_elem_of_app in Hr. rewrite X5, HR by naive_solver. done.
      * intros r Hr. destruct (decide (r ∈ touched cs)) as [H1|H1]; [by apply XS|].
        rewrite touched_cons in Hr. apply elem_of_app in Hr as [Hr|?]; [|done].
        destruct Hcp as (C' & _ & _ & HQ). assert (Hne : length (Pads st) <> p) by (apply lookup_lt_Some in HS; lia).
        eexists (length (Pads st)), _. split; [by rewrite X5, HSm|]. rewrite X2 by (done || lia). by split; [exact HQ|].
      * by rewrite X6, HCl.
      * unfold catch_children. cbn [List.filter]. rewrite HP. constructor; [|exact X7].
        eapply catch_pad_keeps; [exact Hcp| |].
        -- apply X5. intros (d & Hcd & Hd)%list_elem_of_bind.
           assert (HPd : has_catchpad d = true).
           { rewrite Forall_forall in HC. destruct (catching_cases hs d (HC d Hd)) as (D & _ & [[HPd _]|(_ & _ & HT)]); [done|].
             rewrite HT in Hcd. by apply not_elem_of_nil in Hcd. }
           apply Hcn. rewrite (Hsep c d); [done|by left|done|by right|done|done].
        -- assert (Hne : length (Pads st) <> p) by (apply lookup_lt_Some in HS; lia). apply X2; [done|lia].
  - destruct (IH st p Hs' Dest EP o HC HD Hpar HS) as (st' & new & HE' & HX).
    { intros a b Ha HPa Hb HPb. apply Hsep; [by right|done|by right|done]. }
    exists st', new. split.
    + cbn [EHPads.enter_children]. rewrite HCC. cbn [mbind option_bind]. rewrite HK. exact HE'.
    + destruct HX as [X1 X2 X3 X4 X5 XS X6 X7]. split; try done.
      * intros r. by rewrite X4, touched_cons, HT.
      * intros r Hr. apply X5. by rewrite touched_cons, HT in Hr.
      * intros r Hr. apply XS. by rewrite touched_cons, HT in Hr.
      * unfold catch_children. cbn [List.filter]. by rewrite HP.
Qed.

Lemma only_handlers_catching (hs cs : list nat) :
  Forall (catching hs) cs -> only_handlers s cs = Some true.
Proof.
  induction 1 as [|c cs (C & HC & HK) _ IH]; [done|]. cbn. rewrite HC. cbn. unfold is_kind.
  destruct HK as [[HK _]|[[HK _]|[HK _]]]; rewrite HK; exact IH.
Qed.

(** The first catch makes the switch. *)
Lemma enter_first_catch (parent : nat) (hs : list nat) (RegionEnd : Z) (EP : option nat) (cs : list nat)
    (st : PadState) :
  Forall (catching hs) cs -> NoDup cs -> parent ∉ touched cs -> catch_children cs <> [] ->
  (forall c h, c ∈ cs -> has_catchpad c = true -> h ∈ cs -> has_catchpad h = true -> c ∈ touches h -> c = h) ->
  let p := length (Pads st) in
  let st0 := (add_pad st (MkPad (CatchSwitch [] (HandlerEHPad st !! parent)) EP RegionEnd None false)).1 in
  exists st' new, enter_children cs RegionEnd parent EP st None None = Some (st', Some p) /\
    catches_entered st0 st' p parent cs [] new (HandlerEHPad st !! parent) EP RegionEnd.
Proof.
  intros HC HD Hpar Hne Hsep p st0. revert HC HD Hpar Hne Hsep.
  induction cs as [|c cs IH]; intros HC HD Hpar Hne Hsep; [done|].
  pose proof HC as HC'. apply Forall_cons in HC' as [HCc HC'].
  destruct (catching_cases hs c HCc) as (C & HCC & [[HP HK]|(HP & HK & HT)]).
  - assert (HS0 : switch_at st0 p [] (HandlerEHPad st !! parent) EP RegionEnd).
    { unfold switch_at, st0, p. cbn. by rewrite lookup_app_r, Nat.sub_diag. }
    destruct (enter_catches parent hs RegionEnd EP (Some p) (c :: cs) st0 p [] (HandlerEHPad st !! parent)
      EP RegionEnd HC HD Hpar HS0 Hsep) as (st' & new & HE & HX).
    exists st', new. split; [|done]. rewrite <- HE. cbn [EHPads.enter_children]. rewrite HCC.
    cbn [mbind option_bind].
    destruct HK as [HK|HK]; rewrite HK; cbn [mbind option_bind bool_decide];
      rewrite (only_handlers_catching hs cs HC'); done.
  - rewrite touched_cons, HT in Hpar. apply NoDup_cons in HD as [_ HD].
    unfold catch_children in Hne. cbn [List.filter] in Hne. rewrite HP in Hne.
    destruct (IH HC' HD Hpar Hne) as (st' & new & HE & HX).
    { intros a b Ha HPa Hb HPb. apply Hsep; [by right|done|by right|done]. }
    exists st', new. split.
    + cbn [EHPads.enter_children]. rewrite HCC. cbn [mbind option_bind]. rewrite HK. exact HE.
    + destruct HX as [X1 X2 X3 X4 X5 XS X6 X7]. split; try done.
      * intros r. by rewrite X4, touched_cons, HT.
      * intros r Hr. apply X5. by rewrite touched_cons, HT in Hr.
      * intros r Hr. apply XS. by rewrite touched_cons, HT in Hr.
      * unfold catch_children. cbn [List.filter]. by rewrite HP.
Qed.

(** ** A try *)

(** The pad of a try: the switch of its catches, or the cleanup of its finally
    or fault, which are told apart by an argument; [Dest] is where an exception
    goes on that it does not handle. *)
Definition pad_for (st : PadState) (hs : list nat) (P : nat) (Dest EP : option nat) : Prop :=
  (exists Handlers o, switch_at st P Handlers Dest EP o /\
     Forall2 (catch_pad st P) (catch_children hs) Handlers /\ catch_children hs <> []) \/
  (exists h H, hs = [h] /\ s !! h = Some H /\ cleanup_kind (Kind H) = true /\ RegionCleanupPad st !! h = Some P /\
     HandlerEHPad st !! h = Dest /\
     Pads st !! P = Some (MkPad (CleanupPadOf (is_kind RGN_Fault H)) EP (StartMsilOffset H)
                            (Some (StartMsilOffset H)) false)).

Record try_entered (st st' : PadState) (t parent : nat) (hs : list nat) (EP : option nat) : Prop := {
  te_pad : exists P, HandlerEHPad st' !! t = Some P /\ pad_for st' hs P (HandlerEHPad st !! parent) EP;
  te_pads : forall i, (i < length (Pads st))%nat -> Pads st' !! i = Pads st !! i;
  te_handler : forall r, r <> t -> HandlerEHPad st' !! r =
    if decide (r ∈ hs) then HandlerEHPad st !! parent else HandlerEHPad st !! r;
  te_catch : forall r, r ∉ hs -> RegionCatchPad st' !! r = RegionCatchPad st !! r;
  te_cleanup : forall r, r ∉ hs -> RegionCleanupPad st' !! r = RegionCleanupPad st !! r;
  te_funclet : forall h, h ∈ hs ->
    if is_cleanup h then RegionCleanupPad st' !! h = HandlerEHPad st' !! t
    else exists P, HandlerEHPad st' !! t = Some P /\ in_switch st' P h
}.

Lemma enter_tries (parent : nat) (RegionEnd : Z) (EP : option nat) (st : PadState) (tries hs : list nat) :
  Forall (fun c => kind_of c = Some RGN_Try) tries ->
  enter_children (tries ++ hs) RegionEnd parent EP st None None =
  enter_children hs RegionEnd parent EP st None None.
Proof.
  induction 1 as [|c tries Hc _ IH]; [done|]. cbn [app EHPads.enter_children].
  unfold kind_of in Hc. destruct (s !! c) as [C|]; [|done]. cbn in Hc. injection Hc as Hc.
  cbn [mbind option_bind]. rewrite Hc. exact IH.
Qed.

Lemma catching_separate (hs : list nat) (c h : nat) :
  Forall (catching hs) hs -> c ∈ hs -> has_catchpad c = true -> h ∈ hs -> c ∈ touches h -> c = h.
Proof.
  intros HC Hc HPc Hh Ht. rewrite Forall_forall in HC. destruct (HC h Hh) as (H & HH & HK).
  unfold touches in Ht. rewrite HH in Ht. destruct HK as [[HK _]|[[HK (x & HX & _ & Hkx)]|[HK _]]].
  - rewrite HK in Ht. by apply list_elem_of_singleton in Ht.
  - rewrite HK, HX in Ht. apply elem_of_cons in Ht as [->|Ht]; [done|].
    apply list_elem_of_singleton in Ht as ->. unfold has_catchpad in HPc. unfold kind_of in Hkx.
    destruct (s !! x) as [X|]; [|done]. cbn in Hkx. injection Hkx as Hkx.
    unfold is_kind in HPc. by rewrite Hkx in HPc.
  - rewrite HK in Ht. by apply not_elem_of_nil in Ht.
Qed.

Lemma catching_not_cleanup (hs : list nat) (h : nat) : catching hs h -> is_cleanup h = false.
Proof.
  intros (H & HH & HK). unfold is_cleanup, kind_of. rewrite HH. cbn.
  destruct HK as [[HK _]|[[HK _]|[HK _]]]; by rewrite HK.
Qed.

Lemma catches_have_pads (hs : list nat) :
  hs <> [] -> Forall (catching hs) hs -> catch_children hs <> [].
Proof.
  intros Hne HC. rewrite Forall_forall in HC. intros HN.
  assert (HF : forall c, c ∈ hs -> has_catchpad c = true -> False).
  { intros c Hc HP. assert (Hin : In c (catch_children hs)).
    { apply filter_In. split; [by apply list_elem_of_In|done]. }
    by rewrite HN in Hin. }
  destruct hs as [|c cs]; [done|]. destruct (HC c) as (C & HCc & HK); [by left|].
  destruct HK as [[HK _]|[[HK _]|[HK (f & F & Hf & HFf & HKf & _)]]].
  - apply (HF c); [by left|]. unfold has_catchpad, is_kind. rewrite HCc. by rewrite HK.
  - apply (HF c); [by left|]. unfold has_catchpad, is_kind. rewrite HCc. by rewrite HK.
  - apply (HF f); [done|]. unfold has_catchpad, is_kind. rewrite HFf. by rewrite HKf.
Qed.

(** A finally or fault child makes a cleanuppad. *)
Lemma enter_cleanup (st : PadState) (parent h : nat) (H : EHRegion) (RegionEnd : Z) (EP : option nat) :
  s !! h = Some H -> cleanup_kind (Kind H) = true ->
  exists st', enter_children [h] RegionEnd parent EP st None None = Some (st', Some (length (Pads st))) /\
    Pads st' = Pads st ++ [MkPad (CleanupPadOf (is_kind RGN_Fault H)) EP (StartMsilOffset H)
                             (Some (StartMsilOffset H)) false] /\
    (forall r, HandlerEHPad st' !! r = if decide (r = h) then HandlerEHPad st !! parent else HandlerEHPad st !! r) /\
    RegionCatchPad st' = RegionCatchPad st /\
    RegionCleanupPad st' = <[h := length (Pads st)]> (RegionCleanupPad st).
Proof.
  intros HHs HK. assert (HK' : Kind H = RGN_Finally \/ Kind H = RGN_Fault) by (destruct (Kind H); auto; done).
  assert (HD : forall r, partial_alter (fun _ => HandlerEHPad st !! parent) h (HandlerEHPad st) !! r =
    if decide (r = h) then HandlerEHPad st !! parent else HandlerEHPad st !! r).
  { intros r. case_decide as Hr; [subst r; apply lookup_partial_alter_eq|by apply lookup_partial_alter_ne]. }
  unfold is_kind. destruct HK' as [HK'|HK']; cbn [EHPads.enter_children]; rewrite HHs; cbn [mbind option_bind];
    rewrite HK'; cbn [bool_decide assert mbind option_bind]; unfold EHPads.createEHPad; rewrite HHs;
    cbn [mbind option_bind negb assert]; rewrite HK'; cbn; (eexists; split; [reflexivity|]; cbn; done).
Qed.

Lemma enter_try (st : PadState) (t parent : nat) (hs : list nat) (R : EHRegion) (EH : nat) (EP : option nat) :
  try_ok t hs -> s !! t = Some R -> Parent R = Some parent ->
  enclosing_handler s (length s) parent = Some EH -> enclosing_pad s st EH = Some EP ->
  exists st', fgEnterRegion st t = Some st' /\ try_entered st st' t parent hs EP.
Proof.
  intros (R' & tries & HR' & HK & HCh & HTr & HD & HH) HR HP HEH HEP.
  rewrite HR' in HR. injection HR as ->.
  assert (Hlt : forall c, c ∈ hs -> (t < c)%nat /\ (parent < t)%nat).
  { intros c Hc. destruct (ro_children _ _ _ (ao_region _ Hs t R HR') c) as (C & _ & _ & H1).
    - rewrite HCh. apply elem_of_app. by right.
    - split; [done|]. destruct (ro_parent _ _ _ (ao_region _ Hs t R HR')) as (_ & p & P & HP' & H2 & _).
      + intros ->. destruct (ao_root _ Hs) as (R0 & H0 & _ & HN). congruence.
      + congruence. }
  unfold EHPads.fgEnterRegion. rewrite HR'. cbn [mbind option_bind]. unfold is_kind. rewrite HK.
  rewrite (bool_decide_eq_true_2 (RGN_Try = RGN_Try)) by done.
  rewrite HP. cbn [mbind option_bind]. rewrite HEH. cbn [mbind option_bind]. rewrite HEP.
  cbn [mbind option_bind]. rewrite HCh, enter_tries by done.
  destruct HH as [h -> Hh|Hne HC].
  - pose proof Hh as Hcl. unfold is_cleanup, kind_of in Hh. destruct (s !! h) as [H|] eqn:HHs; [|done]. cbn in Hh.
    destruct (enter_cleanup st parent h H (EndMsilOffset R) EP HHs Hh) as (st2 & HE & HPads & HHE & HCE & HCU).
    rewrite HE. cbn [mbind option_bind].
    assert (Hth : t <> h) by (destruct (Hlt h); [by left|lia]).
    eexists. split; [reflexivity|]. split.
    + exists (length (Pads st)). cbn. split; [by rewrite lookup_partial_alter_eq|].
      right. exists h, H. split; [done|]. split; [done|]. split; [done|]. cbn.
      split; [rewrite HCU; apply lookup_insert_eq|]. split.
      * rewrite lookup_partial_alter_ne by done. rewrite HHE. by rewrite decide_True.
      * by rewrite HPads, lookup_app_r, Nat.sub_diag.
    + intros i Hi. cbn. by rewrite HPads, lookup_app_l.
    + intros r Hr. cbn. rewrite lookup_partial_alter_ne by done. rewrite HHE. case_decide as Hrh.
      * subst r. rewrite decide_True; [done|by left].
      * rewrite decide_False; [done|]. by intros ?%list_elem_of_singleton.
    + intros r _. cbn. by rewrite HCE.
    + intros r Hr. cbn. rewrite HCU. apply lookup_insert_ne. intros ->. apply Hr. by left.
    + intros r Hr. apply list_elem_of_singleton in Hr as ->. rewrite Hcl. cbn.
      by rewrite HCU, lookup_insert_eq, lookup_partial_alter_eq.
  - assert (Hpar : parent ∉ touched hs).
    { rewrite touched_catching by done. intros Hin. destruct (Hlt parent Hin). lia. }
    assert (Htt : t ∉ touched hs).
    { rewrite touched_catching by done. intros Hin. destruct (Hlt t Hin). lia. }
    destruct (enter_first_catch parent hs (EndMsilOffset R) EP hs st HC HD Hpar (catches_have_pads hs Hne HC))
      as (st' & new & HE & [X1 X2 X3 X4 X5 XS X6 X7]).
    { intros c h Hc HPc Hh _ Ht. by apply (catching_separate hs). }
    rewrite HE. cbn [mbind option_bind]. eexists. split; [reflexivity|].
    assert (Hd : forall r, (if decide (r ∈ touched hs) then HandlerEHPad st !! parent else HandlerEHPad st !! r) =
                           if decide (r ∈ hs) then HandlerEHPad st !! parent else HandlerEHPad st !! r).
    { intros r. destruct (decide (r ∈ touched hs)) as [H1|H1].
      - by rewrite (decide_True (P := r ∈ hs)) by by apply touched_catching.
      - rewrite touched_catching in H1 by done. by rewrite (decide_False (P := r ∈ hs)). }
    cbn [add_pad fst HandlerEHPad RegionCatchPad RegionCleanupPad Pads] in *. split.
    + exists (length (Pads st)). cbn. split; [by rewrite lookup_partial_alter_eq|].
      left. exists new, (EndMsilOffset R). split; [exact X1|]. split; [|by apply catches_have_pads].
      eapply Forall2_impl; [exact X7|]. intros c q (C & HCc & HRc & HPc). by exists C.
    + intros i Hi. cbn. rewrite X2; [by rewrite lookup_app_l|lia|]. rewrite length_app. cbn. lia.
    + intros r Hr. cbn. rewrite lookup_partial_alter_ne by done. by rewrite X4, Hd.
    + intros r Hr. cbn. apply X5. by rewrite touched_catching.
    + intros r Hr. cbn. by rewrite X6.
    + intros r Hr. rewrite (catching_not_cleanup hs r) by (rewrite Forall_forall in HC; by apply HC).
      eexists. split; [cbn; by rewrite lookup_partial_alter_eq|]. apply XS. by apply touched_catching.
Qed.

(** ** The tries of a method *)

(** The children of a try that are no tries. *)
Definition handlers_of (t : nat) : list nat :=
  match s !! t with
  | Some R => List.filter (fun c => negb (bool_decide (kind_of c = Some RGN_Try))) (Children R)
  | None => []
  end.

(** The root, the tries [ts] and their handlers. *)
Definition covered (ts : list nat) (r : nat) : Prop :=
  r = 0%nat \/ (kind_of r = Some RGN_Try /\ r ∈ ts) \/ (exists t, t ∈ ts /\ r ∈ handlers_of t).

Lemma handlers_of_parent (t h : nat) : h ∈ handlers_of t -> rgnGetParent s h = Some t /\ (t < h)%nat.
Proof.
  unfold handlers_of. destruct (s !! t) as [R|] eqn:HR; [|by intros ?%not_elem_of_nil].
  rewrite list_elem_of_In, filter_In. intros [Hc _]. rewrite <- list_elem_of_In in Hc.
  destruct (ro_children _ _ _ (ao_region _ Hs t R HR) h Hc) as (C & HC & HP & Hlt).
  unfold rgnGetParent. by rewrite HC.
Qed.

Lemma handlers_of_kind (t h : nat) : h ∈ handlers_of t -> kind_of h <> Some RGN_Try.
Proof.
  unfold handlers_of. destruct (s !! t) as [R|]; [|by intros ?%not_elem_of_nil].
  rewrite list_elem_of_In, filter_In. intros [_ Hk] HT. by rewrite bool_decide_eq_true_2 in Hk.
Qed.

Lemma try_kind (t : nat) (hs : list nat) : try_ok t hs -> kind_of t = Some RGN_Try.
Proof. intros (R & _ & HR & HK & _). unfold kind_of. rewrite HR. cbn. by rewrite HK. Qed.

Lemma root_kind : kind_of 0 = Some RGN_Root.
Proof. destruct (ao_root _ Hs) as (R & HR & HK & _). unfold kind_of. rewrite HR. cbn. by rewrite HK. Qed.

(** A new try and its handlers are none of the regions that are covered. *)
Lemma covered_fresh (ts : list nat) (t r : nat) :
  covered ts r -> t ∉ ts -> kind_of t = Some RGN_Try -> r <> t /\ r ∉ handlers_of t.
Proof.
  intros Hr Ht HK. destruct Hr as [->|[[HT Hr]|(t' & Ht' & Hr)]].
  - split; [intros <-; by rewrite root_kind in HK|]. intros [_ Hlt]%handlers_of_parent. lia.
  - split; [congruence|]. intros Hh%handlers_of_kind. done.
  - split; [intros <-; by apply handlers_of_kind in Hr|]. intros Hh.
    apply handlers_of_parent in Hh as [Hp _]. apply handlers_of_parent in Hr as [Hp' _]. congruence.
Qed.

Lemma covered_weaken (ts ts' : list nat) (r : nat) : ts ⊆ ts' -> covered ts r -> covered ts' r.
Proof.
  intros HS [->|[[HT Hr]|(t & Ht & Hr)]]; [by left|right; left; by split; [|apply HS]|].
  right. right. exists t. by split; [apply HS|].
Qed.

(** The funclet pad of a handler is that of its try, or in the switch. *)
Definition has_funclet (st : PadState) (t h : nat) : Prop :=
  if is_cleanup h then RegionCleanupPad st !! h = HandlerEHPad st !! t
  else exists P, HandlerEHPad st !! t = Some P /\ in_switch st P h.

(** What holds after the tries [ts] were entered. *)
Record inv (ts : list nat) (st : PadState) : Prop := {
  inv_try : forall t, t ∈ ts -> try_ok t (handlers_of t) /\ exists parent EH EP P,
    rgnGetParent s t = Some parent /\ covered ts parent /\
    enclosing_handler s (length s) parent = Some EH /\ enclosing_pad s st EH = Some EP /\
    HandlerEHPad st !! t = Some P /\ pad_for st (handlers_of t) P (HandlerEHPad st !! parent) EP;
  inv_handler : forall t h parent, t ∈ ts -> h ∈ handlers_of t -> rgnGetParent s t = Some parent ->
    HandlerEHPad st !! h = HandlerEHPad st !! parent;
  inv_root : HandlerEHPad st !! 0%nat = None;
  inv_funclet : forall t h, t ∈ ts -> h ∈ handlers_of t -> has_funclet st t h
}.

Lemma parent_older (r p : nat) : rgnGetParent s r = Some p -> (p < r)%nat.
Proof.
  unfold rgnGetParent. destruct (s !! r) as [R|] eqn:HR; [|done]. cbn. intros HP.
  destruct (ro_parent _ _ _ (ao_region _ Hs r R HR)) as (_ & q & Q & HQ & Hlt & _).
  - intros ->. destruct (ao_root _ Hs) as (R0 & H0 & _ & HN). congruence.
  - congruence.
Qed.

(** The nearest ancestor that is no try is the root or a handler. *)
Lemma enclosing_handler_spec (ts : list nat) (st : PadState) : inv ts st ->
  forall (fuel r : nat), covered ts r -> (r < fuel)%nat ->
  exists EH, enclosing_handler s fuel r = Some EH /\
    (EH = 0%nat \/ exists t, t ∈ ts /\ EH ∈ handlers_of t).
Proof.
  intros HI. induction fuel as [|fuel IH]; intros r Hr Hlt; [lia|]. cbn [enclosing_handler].
  assert (Hnot : kind_of r <> Some RGN_Try -> exists R, s !! r = Some R /\ is_kind RGN_Try R = false).
  { intros HK. destruct (s !! r) as [R|] eqn:HR.
    - exists R. split; [done|]. unfold is_kind. apply bool_decide_eq_false_2. intros HT. apply HK.
      unfold kind_of. rewrite HR. cbn. by rewrite HT.
    - exfalso. destruct Hr as [->|[[HT _]|(t & _ & Hh)]].
      + destruct (ao_root _ Hs) as (R0 & H0 & _). congruence.
      + done.
      + apply handlers_of_parent in Hh as [Hp _]. unfold rgnGetParent in Hp. by rewrite HR in Hp. }
  destruct Hr as [->|[[HT Hr]|(t & Ht & Hr)]].
  - destruct Hnot as (R & HR & HN); [by rewrite root_kind|]. rewrite HR. cbn [mbind option_bind].
    rewrite HN. exists 0%nat. split; [done|by left].
  - destruct (inv_try _ _ HI r Hr) as [_ (parent & EH & EP & P & HP & Hcov & _)].
    unfold kind_of in HT. unfold rgnGetParent in HP. destruct (s !! r) as [R|] eqn:HR; [|done].
    cbn in HT, HP. injection HT as HT. cbn [mbind option_bind]. unfold is_kind. rewrite HT.
    rewrite (bool_decide_eq_true_2 (RGN_Try = RGN_Try)) by done. rewrite HP. cbn [mbind option_bind].
    apply IH; [done|]. assert ((parent < r)%nat); [|lia]. apply parent_older. unfold rgnGetParent. by rewrite HR.
  - destruct Hnot as (R & HR & HN); [by eapply handlers_of_kind|]. rewrite HR. cbn [mbind option_bind].
    rewrite HN. exists r. split; [done|]. right. by exists t.
Qed.

(** The pads that [enclosing_pad] reads. *)
Lemma enclosing_pad_spec (ts : list nat) (st : PadState) (EH : nat) : inv ts st ->
  (EH = 0%nat \/ exists t, t ∈ ts /\ EH ∈ handlers_of t) ->
  exists EP, enclosing_pad s st EH = Some EP /\
    forall st', (forall h, (exists t, t ∈ ts /\ h ∈ handlers_of t) ->
      RegionCatchPad st' !! h = RegionCatchPad st !! h /\ RegionCleanupPad st' !! h = RegionCleanupPad st !! h) ->
    enclosing_pad s st' EH = Some EP.
Proof.
  intros HI [->|(t & Ht & Hh)].
  - exists None. unfold enclosing_pad. pose proof root_kind as HK. unfold kind_of in HK.
    destruct (s !! 0%nat) as [R|]; [|done]. cbn in HK. injection HK as HK.
    cbn [mbind option_bind]. rewrite HK. done.
  - destruct (inv_try _ _ HI t Ht) as [(R & tries & HR & _ & _ & _ & _ & HH) _].
    pose proof (inv_funclet _ _ HI t EH Ht Hh) as HF.
    destruct (inv_try _ _ HI t Ht) as [_ (_ & _ & _ & Pt & _ & _ & _ & _ & HPt & _)].
    destruct HH as [h Heq HK|Hne HC].
    + rewrite Heq in Hh. apply list_elem_of_singleton in Hh as ->. unfold has_funclet in HF.
      rewrite HK, HPt in HF. rename Pt into p, HF into Hp. exists (Some p).
      unfold enclosing_pad. unfold is_cleanup, kind_of in HK. destruct (s !! h) as [H|] eqn:HHs; [|done].
      cbn in HK. cbn [mbind option_bind].
      destruct (Kind H); try discriminate HK; rewrite Hp; (split; [done|]);
        intros st' Hst; (destruct (Hst h) as [_ ->]; [|by rewrite Hp]); exists t; (split; [done|]); rewrite Heq; by left.
    + pose proof HC as HC'. rewrite Forall_forall in HC'.
      assert (HP : forall h, h ∈ handlers_of t -> exists p, RegionCatchPad st !! h = Some p).
      { intros h Hin. pose proof (inv_funclet _ _ HI t h Ht Hin) as HFh. unfold has_funclet in HFh.
        rewrite (catching_not_cleanup (handlers_of t)) in HFh by by apply HC'.
        by destruct HFh as (_ & _ & p & _ & Hp & _); exists p. }
      destruct (HC' EH Hh) as (H & HHs & HK). unfold enclosing_pad. rewrite HHs. cbn [mbind option_bind].
      destruct HK as [[HK _]|[[HK (h & HX & Hin & _)]|[HK _]]].
      * destruct (HP EH Hh) as [p Hp]. exists (Some p). rewrite HK, Hp. split; [done|]. intros st' Hst.
        destruct (Hst EH) as [-> _]; [by exists t|by rewrite Hp].
      * destruct (HP h Hin) as [p Hp]. exists (Some p). rewrite HK, HX, Hp. split; [done|]. intros st' Hst.
        destruct (Hst h) as [-> _]; [by exists t|by rewrite Hp].
      * destruct (HP EH Hh) as [p Hp]. exists (Some p). rewrite HK, Hp. split; [done|]. intros st' Hst.
        destruct (Hst EH) as [-> _]; [by exists t|by rewrite Hp].
Qed.

(** The pad of a try stays what it is while other tries are entered. *)
Lemma pad_for_keeps (st st' : PadState) (hs : list nat) (P : nat) (Dest EP : option nat) :
  pad_for st hs P Dest EP ->
  (forall i, (i < length (Pads st))%nat -> Pads st' !! i = Pads st !! i) ->
  (forall h, h ∈ hs -> HandlerEHPad st' !! h = HandlerEHPad st !! h /\
     RegionCatchPad st' !! h = RegionCatchPad st !! h /\ RegionCleanupPad st' !! h = RegionCleanupPad st !! h) ->
  pad_for st' hs P Dest EP.
Proof.
  intros HP HPads HH. destruct HP as [(Handlers & o & HS & HF & Hne)|(h & H & -> & HHs & HK & HC & HD & HP)].
  - left. exists Handlers, o. split; [|split; [|done]].
    + unfold switch_at in *. rewrite HPads; [done|]. by eapply lookup_lt_Some.
    + assert (HF' : Forall2 (fun c q => c ∈ hs /\ catch_pad st P c q) (catch_children hs) Handlers).
      { apply Forall2_same_length_lookup_2; [by eapply Forall2_length|]. intros i c q Hc Hq. split.
        - apply list_elem_of_lookup_2 in Hc. apply list_elem_of_In, filter_In in Hc as [Hc _].
          by apply list_elem_of_In.
        - by eapply (Forall2_lookup_lr _ _ _ i). }
      eapply Forall2_impl; [exact HF'|]. intros c q [Hc Hcp]. destruct (HH c Hc) as (_ & HRc & _).
      eapply catch_pad_keeps; [exact Hcp|done|]. destruct Hcp as (C & _ & _ & HPc). apply HPads.
      by eapply lookup_lt_Some.
  - right. destruct (HH h) as (H1 & _ & H2); [by left|]. exists h, H. rewrite H1, H2. split_and!; try done.
    rewrite HPads; [done|]. by eapply lookup_lt_Some.
Qed.

(** ** Entering the tries *)

Lemma covered_lt (ts : list nat) (r : nat) : covered ts r -> (r < length s)%nat.
Proof.
  assert (HS : is_Some (s !! r) -> (r < length s)%nat) by (intros [R HR]; by eapply lookup_lt_Some).
  intros [->|[[HT _]|(t & _ & Hh)]]; apply HS.
  - destruct (ao_root _ Hs) as (R & HR & _). by exists R.
  - unfold kind_of in HT. destruct (s !! r); [by eexists|done].
  - apply handlers_of_parent in Hh as [Hp _]. unfold rgnGetParent in Hp. destruct (s !! r); [by eexists|done].
Qed.

(** What is covered keeps its pads when another try is entered. *)
Lemma entered_keeps (ts : list nat) (st st' : PadState) (t parent : nat) (EP : option nat) (r : nat) :
  try_entered st st' t parent (handlers_of t) EP -> t ∉ ts -> kind_of t = Some RGN_Try -> covered ts r ->
  HandlerEHPad st' !! r = HandlerEHPad st !! r /\ RegionCatchPad st' !! r = RegionCatchPad st !! r /\
  RegionCleanupPad st' !! r = RegionCleanupPad st !! r.
Proof.
  intros [_ _ X3 X4 X5 _] Ht HK Hr. destruct (covered_fresh ts t r Hr Ht HK) as [Hrt Hrh].
  split_and!; [|by apply X4|by apply X5]. rewrite X3 by done. by rewrite decide_False.
Qed.

Lemma covered_handler (ts : list nat) (t h : nat) : t ∈ ts -> h ∈ handlers_of t -> covered ts h.
Proof. intros Ht Hh. right. right. by exists t. Qed.

Lemma inv_enter (ts : list nat) (st : PadState) (t parent : nat) :
  inv ts st -> t ∉ ts -> try_ok t (handlers_of t) -> rgnGetParent s t = Some parent -> covered ts parent ->
  exists st', fgEnterRegion st t = Some st' /\ inv (ts ++ [t]) st' /\
    forall r, covered ts r -> HandlerEHPad st' !! r = HandlerEHPad st !! r /\
      RegionCleanupPad st' !! r = RegionCleanupPad st !! r.
Proof.
  intros HI Ht Htry HP Hcov. pose proof (try_kind t _ Htry) as HK.
  destruct (enclosing_handler_spec ts st HI (length s) parent Hcov (covered_lt ts parent Hcov)) as (EH & HEH & HEHin).
  destruct (enclosing_pad_spec ts st EH HI HEHin) as (EP & HEP & HEPk).
  pose proof HP as HP'. unfold rgnGetParent in HP'. destruct (s !! t) as [R|] eqn:HR; [|done]. cbn in HP'.
  destruct (enter_try st t parent (handlers_of t) R EH EP Htry HR HP' HEH HEP) as (st' & HE & HX).
  exists st'. split; [done|].
  assert (HKeep : forall r, covered ts r -> HandlerEHPad st' !! r = HandlerEHPad st !! r /\
    RegionCatchPad st' !! r = RegionCatchPad st !! r /\ RegionCleanupPad st' !! r = RegionCleanupPad st !! r)
    by (intros r; by eapply entered_keeps).
  assert (HPadK : forall h, (exists t0, t0 ∈ ts /\ h ∈ handlers_of t0) ->
    RegionCatchPad st' !! h = RegionCatchPad st !! h /\ RegionCleanupPad st' !! h = RegionCleanupPad st !! h)
    by (intros h (t0 & Ht0 & Hh); apply HKeep; by eapply covered_handler).
  assert (Hsub : ts ⊆ ts ++ [t]) by (intros x Hx; apply elem_of_app; by left).
  destruct HX as [(P & HPt & HPad) X2 X3 _ _ X6].
  split; [|intros r Hr; by destruct (HKeep r Hr) as (-> & _ & ->)]. split.
  - intros t' [Ht'|Ht'%list_elem_of_singleton]%elem_of_app.
    + destruct (inv_try _ _ HI t' Ht') as [Htry' (p' & EH' & EP' & P' & HP1 & Hc1 & HEH1 & HEP1 & HPt1 & HPad1)].
      split; [done|]. exists p', EH', EP', P'. split; [done|]. split; [by eapply covered_weaken|].
      split; [done|]. split.
      { destruct (enclosing_handler_spec ts st HI (length s) p' Hc1 (covered_lt ts p' Hc1)) as (EH2 & HEH2 & Hin).
        replace EH2 with EH' in * by congruence.
        destruct (enclosing_pad_spec ts st EH' HI Hin) as (EP2 & HEP2 & Hk). rewrite Hk by done. congruence. }
      split.
      { destruct (HKeep t') as [-> _]; [|done]. right. left. split; [by eapply try_kind|done]. }
      destruct (HKeep p' Hc1) as [-> _]. apply (pad_for_keeps st); [done|done|].
      intros h Hh. apply HKeep. by eapply covered_handler.
    + subst t'. split; [done|]. exists parent, EH, EP, P. split; [done|]. split; [by eapply covered_weaken|].
      split; [done|]. split; [by apply HEPk|]. split; [done|]. by destruct (HKeep parent Hcov) as [-> _].
  - intros t' h p' Ht' Hh Hp'. apply elem_of_app in Ht' as [Ht'|Ht'%list_elem_of_singleton].
    + destruct (inv_try _ _ HI t' Ht') as [_ (p1 & _ & _ & _ & HP1 & Hc1 & _)].
      replace p1 with p' in * by congruence.
      destruct (HKeep h) as [-> _]; [by eapply covered_handler|]. destruct (HKeep p' Hc1) as [-> _].
      by apply (inv_handler _ _ HI t').
    + subst t'. replace p' with parent in * by congruence. destruct (HKeep parent Hcov) as [-> _].
      rewrite X3; [by rewrite decide_True|]. apply handlers_of_parent in Hh as [_ Hlt]. lia.
  - destruct (HKeep 0%nat) as [-> _]; [by left|]. apply HI.
  - intros t' h [Ht'|Ht'%list_elem_of_singleton]%elem_of_app Hh.
    + pose proof (inv_funclet _ _ HI t' h Ht' Hh) as HF. unfold has_funclet in *.
      destruct (HPadK h) as [HC1 HC2]; [by exists t'|].
      assert (HTt : HandlerEHPad st' !! t' = HandlerEHPad st !! t').
      { apply HKeep. right. left. split; [|done]. destruct (inv_try _ _ HI t' Ht') as [Htry' _]. by eapply try_kind. }
      rewrite HTt, HC2. destruct (is_cleanup h); [done|]. destruct HF as (Q & HQ & q & PQ & Hq & HPQ & HPP).
      exists Q. split; [done|]. exists q, PQ. rewrite HC1. split; [done|]. split; [|done].
      rewrite X2; [done|]. by eapply lookup_lt_Some.
    + subst t'. by apply X6.
Qed.

Lemma inv_start : inv [] no_pads.
Proof. split; [by intros t ?%not_elem_of_nil|by intros t h p ?%not_elem_of_nil|done|by intros t h ?%not_elem_of_nil]. Qed.

Lemma do_steps_snoc (es : list region_step) (e : region_step) (q : PadState * Exits) :
  do_steps q (es ++ [e]) = (q' ← do_steps q es; do_step s mdTypeRefNil q' e).
Proof.
  revert q. induction es as [|e' es IH]; intros q; cbn [app EHPads.do_steps mbind option_bind].
  - by destruct (do_step s mdTypeRefNil q e).
  - destruct (do_step s mdTypeRefNil q e'); cbn [mbind option_bind]; [apply IH|done].
Qed.

(** The tries that were entered. *)
Definition entered (es : list region_step) : list nat :=
  es ≫= fun e => match e with Enter t => [t] | EndFinally _ => [] end.

Lemma entered_snoc (es : list region_step) (e : region_step) :
  entered (es ++ [e]) = entered es ++ entered [e].
Proof. unfold entered. by rewrite bind_app. Qed.

(** The order of the steps: a try in a region behind that region, the end of a
    finally behind its try. *)
Inductive build_order : list region_step -> Prop :=
  | order_nil : build_order []
  | order_enter es t parent : build_order es -> t ∉ entered es -> try_ok t (handlers_of t) ->
      rgnGetParent s t = Some parent -> covered (entered es) parent -> build_order (es ++ [Enter t])
  | order_end es t h : build_order es -> t ∈ entered es -> h ∈ handlers_of t ->
      kind_of h = Some RGN_Finally -> build_order (es ++ [EndFinally h]).

(** The exits of the finallies that ended. *)
Record exits_ok (es : list region_step) (st : PadState) (X : Exits) : Prop := {
  ex_ended : forall h, EndFinally h ∈ es -> is_Some (X !! h);
  ex_exit : forall h E, X !! h = Some E -> (exists t, t ∈ entered es /\ h ∈ handlers_of t) /\
    SelectorValue E = 0 /\ RegionCleanupPad st !! h = Some (CleanupRet E) /\
    RetUnwindDest E = HandlerEHPad st !! h
}.

Lemma exits_enter (es : list region_step) (st st' : PadState) (X : Exits) (t : nat) :
  exits_ok es st X ->
  (forall r, covered (entered es) r -> HandlerEHPad st' !! r = HandlerEHPad st !! r /\
     RegionCleanupPad st' !! r = RegionCleanupPad st !! r) ->
  exits_ok (es ++ [Enter t]) st' X.
Proof.
  intros [H1 H2] HK. split.
  - intros h [Hh|Hh%list_elem_of_singleton]%elem_of_app; [by apply H1|done].
  - intros h E HE. destruct (H2 h E HE) as ((t' & Ht' & Hh) & HS & HP & HD).
    destruct (HK h) as [-> ->]; [by eapply covered_handler|]. split; [|done].
    exists t'. split; [|done]. rewrite entered_snoc. apply elem_of_app. by left.
Qed.

Lemma exits_end (es : list region_step) (st : PadState) (X : Exits) (t h : nat) :
  inv (entered es) st -> exits_ok es st X -> t ∈ entered es -> h ∈ handlers_of t ->
  kind_of h = Some RGN_Finally ->
  exists X', fgMakeEndFinally st X h = Some X' /\ exits_ok (es ++ [EndFinally h]) st X'.
Proof.
  intros HI [H1 H2] Ht Hh HK.
  pose proof (inv_funclet _ _ HI t h Ht Hh) as HF. unfold has_funclet in HF. rewrite is_finally_cleanup in HF by done.
  destruct (inv_try _ _ HI t Ht) as [_ (_ & _ & _ & P & _ & _ & _ & _ & HP & _)].
  assert (HS : entered (es ++ [EndFinally h]) = entered es) by (rewrite entered_snoc; apply app_nil_r).
  unfold fgMakeEndFinally. destruct (X !! h) as [E|] eqn:HX.
  - exists X. split; [done|]. split; [|by rewrite HS].
    intros h' [Hh'|[= ->]%list_elem_of_singleton]%elem_of_app; [by apply H1|by eexists].
  - rewrite HF, HP. cbn [mbind option_bind]. eexists. split; [done|]. split.
    + intros h' [Hh'|[= ->]%list_elem_of_singleton]%elem_of_app; [|rewrite lookup_insert_eq; by eexists].
      destruct (decide (h' = h)) as [->|Hne]; [rewrite lookup_insert_eq; by eexists|].
      rewrite lookup_insert_ne by done. by apply H1.
    + rewrite HS. intros h' E. destruct (decide (h' = h)) as [->|Hne].
      * rewrite lookup_insert_eq. intros [= <-]. cbn. split; [by exists t|]. by rewrite HF.
      * rewrite lookup_insert_ne by done. apply H2.
Qed.

(** The steps in order never fail. *)
Lemma do_steps_inv (es : list region_step) : build_order es ->
  exists st X, do_steps (no_pads, ∅) es = Some (st, X) /\ inv (entered es) st /\ exits_ok es st X.
Proof.
  induction 1 as [|es t parent _ (st & X & HE & HI & HX) Ht Htry HP Hcov|es t h _ (st & X & HE & HI & HX) Ht Hh HK].
  - exists no_pads, ∅. split; [done|]. split; [apply inv_start|]. split.
    + by intros h ?%not_elem_of_nil.
    + intros h E. by rewrite lookup_empty.
  - destruct (inv_enter (entered es) st t parent HI Ht Htry HP Hcov) as (st' & HE' & HI' & HK).
    exists st', X. rewrite do_steps_snoc, HE. cbn. rewrite HE', entered_snoc. split; [done|]. split; [done|].
    by apply (exits_enter es st).
  - destruct (exits_end es st X t h HI HX Ht Hh HK) as (X' & HE' & HX').
    exists st, X'. rewrite do_steps_snoc, HE. cbn. rewrite HE', entered_snoc, app_nil_r. done.
Qed.

(** ** The way of an exception *)

(** The tries whose protection a region is under, inner ones first: a handler
    is not under that of its own try. *)
Fixpoint protectors (fuel : nat) (r : nat) : list nat :=
  match fuel with
  | O => []
  | S fuel =>
      match rgnGetParent s r with
      | None => []
      | Some p =>
          if bool_decide (kind_of r = Some RGN_Try) then r :: protectors fuel p
          else match rgnGetParent s p with Some q => protectors fuel q | None => [] end
      end
  end.

(** A fault is among the handlers of a try. *)
Definition has_fault (t : nat) : bool :=
  existsb (fun h => bool_decide (kind_of h = Some RGN_Fault)) (handlers_of t).

(** The protectors an exception reaches: the code behind a fault is
    unreachable ([fgMakeEndFault]), so it does not get past one. *)
Fixpoint up_to_fault (ts : list nat) : list nat :=
  match ts with
  | [] => []
  | t :: ts => t :: if has_fault t then [] else up_to_fault ts
  end.

(** The pads an exception that nobody handles passes: the unwind edge of a
    switch says where it goes on, for a finally its cleanupret does, and a fault
    is the end of the way. *)
Inductive unwinds (st : PadState) (X : Exits) : option nat -> list nat -> Prop :=
  | unwinds_out : unwinds st X None []
  | unwinds_switch p P Handlers Dest ps : Pads st !! p = Some P -> PadOf P = CatchSwitch Handlers Dest ->
      unwinds st X Dest ps -> unwinds st X (Some p) (p :: ps)
  | unwinds_cleanup p P h E ps : Pads st !! p = Some P -> PadOf P = CleanupPadOf false ->
      X !! h = Some E -> CleanupRet E = p -> HandlerCode P = rgnGetStartMSILOffset s h ->
      unwinds st X (RetUnwindDest E) ps -> unwinds st X (Some p) (p :: ps)
  | unwinds_fault p P : Pads st !! p = Some P -> PadOf P = CleanupPadOf true -> unwinds st X (Some p) [p].

Lemma unwinds_pad (es : list region_step) (st : PadState) (X : Exits) (t p : nat)
    (Dest EP : option nat) (ps : list nat) :
  try_ok t (handlers_of t) ->
  exits_ok es st X -> (forall h, h ∈ handlers_of t -> kind_of h = Some RGN_Finally -> EndFinally h ∈ es) ->
  pad_for st (handlers_of t) p Dest EP -> unwinds st X Dest ps ->
  unwinds st X (Some p) (p :: if has_fault t then [] else ps).
Proof.
  intros Htry HX Hes [(Handlers & o & HS & _ & Hcc)|(h & H & Heq & HH & HK & HC & HD & HP)] HU.
  - replace (has_fault t) with false; [by eapply unwinds_switch|]. symmetry. unfold has_fault.
    destruct Htry as (R & tries & _ & _ & _ & _ & _ & [h Heq Hk|Hne HC]).
    { exfalso. apply Hcc. rewrite Heq. unfold catch_children, has_catchpad, is_cleanup, kind_of, is_kind in *. simpl.
      destruct (s !! h) as [H|]; [|done]. cbn in Hk. by destruct (Kind H). }
    apply not_true_iff_false. intros (h & Hh & HF%bool_decide_eq_true)%existsb_exists.
    rewrite Forall_forall in HC. apply list_elem_of_In, HC, catching_not_cleanup in Hh.
    unfold is_cleanup in Hh. by rewrite HF in Hh.
  - assert (HF : has_fault t = is_kind RGN_Fault H).
    { unfold has_fault. rewrite Heq. simpl. rewrite orb_false_r. unfold kind_of, is_kind. rewrite HH. simpl.
      apply bool_decide_ext. split; [by intros [= ?]|by intros ->]. }
    destruct (has_fault t) eqn:Ef; [by eapply unwinds_fault; [exact HP|]; rewrite <- HF|].
    assert (HKF : Kind H = RGN_Finally).
    { unfold is_kind in HF. symmetry in HF. apply bool_decide_eq_false in HF. by destruct (Kind H). }
    destruct (ex_ended _ _ _ HX h) as [E HE].
    { apply Hes; [rewrite Heq; by left|]. unfold kind_of. rewrite HH. cbn. by rewrite HKF. }
    destruct (ex_exit _ _ _ HX h E HE) as (_ & _ & HR & HUD).
    apply (unwinds_cleanup _ _ p _ h E ps HP); [by rewrite <- HF|done|congruence| |].
    + cbn. unfold rgnGetStartMSILOffset. by rewrite HH.
    + by rewrite HUD, HD.
Qed.

(** Every finally ends somewhere. *)
Definition all_end (es : list region_step) : Prop :=
  forall t h, t ∈ entered es -> h ∈ handlers_of t -> kind_of h = Some RGN_Finally -> EndFinally h ∈ es.

Lemma unwinds_protectors (es : list region_step) (st : PadState) (X : Exits) :
  inv (entered es) st -> exits_ok es st X -> all_end es ->
  forall (fuel r : nat), covered (entered es) r -> (r < fuel)%nat ->
  exists ps, unwinds st X (HandlerEHPad st !! r) ps /\
    Forall2 (fun t p => t ∈ entered es /\ HandlerEHPad st !! t = Some p) (up_to_fault (protectors fuel r)) ps.
Proof.
  intros HI HX Hend. induction fuel as [|fuel IH]; intros r Hr Hlt; [lia|]. cbn [protectors].
  destruct Hr as [->|[[HT Hr]|(t & Ht & Hr)]].
  - exists []. rewrite (inv_root _ _ HI). destruct (ao_root _ Hs) as (R & HR & _ & HN).
    unfold rgnGetParent. rewrite HR. cbn. rewrite HN. by split; constructor.
  - destruct (inv_try _ _ HI r Hr) as [Htry (p & EH & EP & P & HP & Hc & _ & _ & HPr & HPad)].
    rewrite HP. pose proof (parent_older r p HP). rewrite bool_decide_eq_true_2 by done. cbn [up_to_fault].
    destruct (IH p Hc) as (ps & HU & HF); [lia|]. exists (P :: if has_fault r then [] else ps).
    rewrite HPr. split; [|constructor; [done|by destruct (has_fault r)]].
    eapply unwinds_pad; [done|done| |exact HPad|done]. intros h. by apply Hend.
  - pose proof (handlers_of_kind t r Hr) as HK. destruct (handlers_of_parent t r Hr) as [HPr Hlt'].
    rewrite HPr, bool_decide_eq_false_2 by done.
    destruct (inv_try _ _ HI t Ht) as [_ (q & _ & _ & _ & HPt & Hc & _)].
    rewrite HPt, (inv_handler _ _ HI t r q Ht Hr HPt). pose proof (parent_older t q HPt). apply IH; [done|lia].
Qed.

(** ** Nesting of the pads *)

(** From a funclet to one around it, [None] is the function. *)
Inductive outward (st : PadState) : option nat -> option nat -> Prop :=
  | outward_here p : outward st p p
  | outward_step p P q : Pads st !! p = Some P -> outward st (ParentPad P) q -> outward st (Some p) q.

Lemma outward_trans (st : PadState) (p q r : option nat) : outward st p q -> outward st q r -> outward st p r.
Proof. induction 1; [done|]. intros HO. eapply outward_step; eauto. Qed.

(** A call is in the funclet that a try at its place is in. *)
Lemma parent_pad_enclosing (st : PadState) (EH : nat) (EP : option nat) :
  enclosing_pad s st EH = Some EP ->
  forall fuel r, enclosing_handler s fuel r = Some EH -> parent_pad (S fuel) s st (Some r) = Some EP.
Proof.
  intros HEP. induction fuel as [|fuel IH]; intros r HEH; [done|]. cbn [enclosing_handler] in HEH.
  destruct (s !! r) as [R|] eqn:HR; [|done]. cbn [mbind option_bind] in HEH.
  remember (S fuel) as n eqn:Hn. cbn [parent_pad]. rewrite HR. cbn [mbind option_bind].
  unfold is_kind in HEH. case_bool_decide as HK.
  - rewrite HK. destruct (Parent R) as [P|] eqn:HP; [|done]. cbn [mbind option_bind] in HEH. subst n.
    replace (rgnGetEnclosingAncestor s r) with (Some P); [by apply IH|]. unfold rgnGetEnclosingAncestor.
    rewrite HR. cbn [mbind option_bind]. rewrite HP. cbn [mbind option_bind]. unfold rgnIsOutsideParent. by rewrite HK.
  - injection HEH as <-. unfold enclosing_pad in HEP. rewrite HR in HEP. cbn [mbind option_bind] in HEP.
    destruct (Kind R) eqn:HKR; try done.
    + injection HEP as <-. destruct (decide (r = 0%nat)) as [->|Hr].
      * destruct (ao_root _ Hs) as (R0 & H0 & _ & HN). assert (R0 = R) as -> by congruence.
        unfold rgnGetEnclosingAncestor. rewrite HR. cbn [mbind option_bind]. rewrite HN. by subst n.
      * by destruct (ro_parent _ _ _ (ao_region _ Hs r R HR) Hr).
    + by destruct (RegionCleanupPad st !! r).
    + by destruct (RegionCleanupPad st !! r).
    + destruct (Extra R) as [| | |h]; try done. by destruct (RegionCatchPad st !! h).
    + by destruct (RegionCatchPad st !! r).
    + by destruct (RegionCatchPad st !! r).
Qed.

Lemma enclosing_handler_mono (fuel fuel' r EH : nat) :
  enclosing_handler s fuel r = Some EH -> (fuel <= fuel')%nat -> enclosing_handler s fuel' r = Some EH.
Proof.
  revert fuel' r. induction fuel as [|fuel IH]; intros fuel' r HE Hle; [done|]. destruct fuel'; [lia|].
  cbn [enclosing_handler] in *. destruct (s !! r) as [R|]; [|done]. cbn [mbind option_bind] in *.
  destruct (is_kind RGN_Try R); [|done]. destruct (Parent R); [|done]. cbn [mbind option_bind] in *.
  apply IH; [done|lia].
Qed.

(** A try is in the funclet of its parent. *)
Lemma enclosing_handler_try (t q EH EH' : nat) :
  kind_of t = Some RGN_Try -> rgnGetParent s t = Some q -> enclosing_handler s (length s) q = Some EH ->
  enclosing_handler s (length s) t = Some EH' -> EH' = EH.
Proof.
  intros HK HP HE HE'. apply (enclosing_handler_mono _ (S (length s))) in HE'; [|lia].
  cbn [enclosing_handler] in HE'. unfold kind_of in HK. unfold rgnGetParent in HP.
  destruct (s !! t) as [R|]; [|done]. cbn in HK, HP. injection HK as HK. cbn [mbind option_bind] in HE'.
  unfold is_kind in HE'. rewrite bool_decide_eq_true_2 in HE' by done. rewrite HP in HE'.
  cbn [mbind option_bind] in HE'. congruence.
Qed.

(** The pad of a try is in the funclet around the try. *)
Lemma pad_for_parent (st : PadState) (hs : list nat) (p : nat) (Dest EP : option nat) :
  pad_for st hs p Dest EP -> exists P, Pads st !! p = Some P /\ ParentPad P = EP.
Proof.
  intros [(Handlers & o & HS & _)|(h & H & _ & _ & _ & _ & _ & HP)]; by eexists.
Qed.

(** The funclet of a handler is in that around its try. *)
Lemma handler_outward (ts : list nat) (st : PadState) (t h P : nat) (Dest EP : option nat) :
  inv ts st -> t ∈ ts -> h ∈ handlers_of t -> HandlerEHPad st !! t = Some P ->
  pad_for st (handlers_of t) P Dest EP ->
  exists F, parent_pad (S (length s)) s st (Some h) = Some F /\ outward st F EP.
Proof.
  intros HI Ht Hh HPt HPad. destruct (pad_for_parent _ _ _ _ _ HPad) as (Q & HQ & HQP).
  assert (Hstep : outward st (Some P) EP) by (eapply outward_step; [done|]; rewrite HQP; constructor).
  assert (Hin : forall c, c ∈ handlers_of t -> is_cleanup c = false ->
    exists F, RegionCatchPad st !! c = F /\ outward st F EP).
  { intros c Hc HK. pose proof (inv_funclet _ _ HI t c Ht Hc) as HF. unfold has_funclet in HF.
    rewrite HK in HF. destruct HF as (P' & HP' & q & C & Hq & HC & HCP).
    eexists. split; [exact Hq|]. eapply outward_step; [done|]. rewrite HCP. by replace P' with P by congruence. }
  destruct (inv_try _ _ HI t Ht) as [(R & tries & _ & _ & _ & _ & _ & HH) _].
  pose proof (inv_funclet _ _ HI t h Ht Hh) as HF. unfold has_funclet in HF. cbn [parent_pad].
  destruct HH as [h' Heq HK|Hne HC].
  - rewrite Heq in Hh. apply list_elem_of_singleton in Hh as ->. rewrite HK, HPt in HF.
    unfold is_cleanup, kind_of in HK. destruct (s !! h') as [H|]; [|done]. cbn in HK.
    cbn [mbind option_bind]. destruct (Kind H); try discriminate HK; rewrite HF; by eexists.
  - rewrite Forall_forall in HC. pose proof (HC h Hh) as HCh.
    pose proof (catching_not_cleanup _ _ HCh) as HN. destruct HCh as (H & HHs & HK).
    rewrite HHs. cbn [mbind option_bind]. destruct HK as [[HK _]|[[HK (c & HX & Hc & _)]|[HK _]]]; rewrite HK.
    + destruct (Hin h Hh HN) as (F & -> & HO). by exists F.
    + rewrite HX. destruct (Hin c Hc) as (F & -> & HO); [by apply (catching_not_cleanup (handlers_of t)), HC|]. by exists F.
    + destruct (Hin h Hh HN) as (F & -> & HO). by exists F.
Qed.

(** The funclet that the code of a region is in: none in the root, that of its
    parent for a try; a finally or a fault is the cleanuppad of its try, a catch
    its catchpad in the switch of its try, a filter and the code behind it a
    catchpad in that switch. *)
Inductive funclet_of (st : PadState) : nat -> option nat -> Prop :=
  | funclet_root : funclet_of st 0 None
  | funclet_try t p F : kind_of t = Some RGN_Try -> rgnGetParent s t = Some p ->
      funclet_of st p F -> funclet_of st t F
  | funclet_cleanup t h f P : h ∈ handlers_of t -> kind_of h = Some RGN_Finally \/ kind_of h = Some RGN_Fault ->
      HandlerEHPad st !! t = Some f -> Pads st !! f = Some P ->
      PadOf P = CleanupPadOf (bool_decide (kind_of h = Some RGN_Fault)) ->
      HandlerCode P = rgnGetStartMSILOffset s h -> funclet_of st h (Some f)
  | funclet_catch t h P f : h ∈ handlers_of t -> kind_of h = Some RGN_MCatch ->
      HandlerEHPad st !! t = Some P -> catch_pad st P h f -> funclet_of st h (Some f)
  | funclet_filter t h P f C : h ∈ handlers_of t -> kind_of h = Some RGN_Filter \/ kind_of h = Some RGN_MExcept ->
      HandlerEHPad st !! t = Some P -> Pads st !! f = Some C -> ParentPad C = Some P ->
      funclet_of st h (Some f).

Lemma funclet_handler (ts : list nat) (st : PadState) (t h : nat) (F : option nat) (fuel : nat) :
  inv ts st -> t ∈ ts -> h ∈ handlers_of t -> parent_pad (S fuel) s st (Some h) = Some F -> funclet_of st h F.
Proof.
  intros HI Ht Hh HF. destruct (inv_try _ _ HI t Ht) as [(R & tries & _ & _ & _ & _ & _ & HH) (q0 & EH0 & EP & P & _ & _ & _ & _ & HPt & HPad)].
  pose proof (inv_funclet _ _ HI t h Ht Hh) as HFu. unfold has_funclet in HFu. cbn [parent_pad] in HF.
  assert (Hsw : forall c f, c ∈ handlers_of t -> is_cleanup c = false -> RegionCatchPad st !! c = f ->
    exists q C, f = Some q /\ Pads st !! q = Some C /\ ParentPad C = Some P).
  { intros c f Hc HK Hq. pose proof (inv_funclet _ _ HI t c Ht Hc) as HFc. unfold has_funclet in HFc.
    rewrite HK in HFc. destruct HFc as (P' & HP' & q & C & Hq' & HC & HCP). exists q, C.
    split; [congruence|]. split; [done|congruence]. }
  destruct HH as [h' Heq HK|Hne HC].
  - rewrite Heq in Hh. pose proof Hh as Hh'. apply list_elem_of_singleton in Hh' as ->. rewrite HK, HPt in HFu.
    destruct HPad as [(Handlers & o & _ & _ & Hcc)|(x & H & Hx & HHs & Hk & _ & _ & HP)].
    { exfalso. apply Hcc. rewrite Heq. unfold catch_children, has_catchpad, is_cleanup, kind_of, is_kind in *. simpl.
      destruct (s !! h') as [H|]; [|done]. cbn in HK. by destruct (Kind H). }
    rewrite Heq in Hx. injection Hx as <-. rewrite HHs in HF. cbn [mbind option_bind] in HF.
    assert (F = Some P) as ->.
    { destruct (Kind H); try discriminate Hk; congruence. }
    eapply (funclet_cleanup st t h' P); [by rewrite Heq| |exact HPt|exact HP| |].
    + unfold kind_of. rewrite HHs. cbn. destruct (Kind H); try discriminate Hk; auto.
    + cbn. f_equal. unfold kind_of, is_kind. rewrite HHs. cbn. apply bool_decide_ext. split; congruence.
    + cbn. unfold rgnGetStartMSILOffset. by rewrite HHs.
  - rewrite Forall_forall in HC. pose proof (HC h Hh) as HCh. pose proof (catching_not_cleanup _ _ HCh) as HN.
    destruct HCh as (H & HHs & HK). rewrite HHs in HF. cbn [mbind option_bind] in HF.
    destruct HK as [[HK _]|[[HK (c & HX & Hc & _)]|[HK _]]]; rewrite HK in HF.
    + injection HF as HF. destruct HPad as [(Handlers & o & _ & HFa & _)|(x & H' & Hx & HHs' & Hk & _)].
      * assert (Hin : h ∈ catch_children (handlers_of t)).
        { apply list_elem_of_In, filter_In. split; [by apply list_elem_of_In|].
          unfold has_catchpad, is_kind. rewrite HHs. by rewrite HK. }
        apply list_elem_of_lookup in Hin as [i Hi]. destruct (Forall2_lookup_l _ _ _ _ _ HFa Hi) as (q & _ & Hq).
        pose proof Hq as (C & HCs & HR & HPq). rewrite HR in HF. subst F.
        eapply (funclet_catch st t h P q); [done| |done|done]. unfold kind_of. rewrite HHs. cbn. by rewrite HK.
      * exfalso. rewrite Hx in Hh. apply list_elem_of_singleton in Hh as ->. rewrite HHs in HHs'. injection HHs' as ->.
        by rewrite HK in Hk.
    + rewrite HX in HF. injection HF as HF.
      destruct (Hsw c F Hc) as (q & C & -> & HQ & HP); [by apply (catching_not_cleanup (handlers_of t)), HC|done|].
      eapply funclet_filter; [done| |done|done|done]. left. unfold kind_of. rewrite HHs. cbn. by rewrite HK.
    + injection HF as HF. destruct (Hsw h F Hh HN HF) as (q & C & -> & HQ & HP).
      eapply funclet_filter; [done| |done|done|done]. right. unfold kind_of. rewrite HHs. cbn. by rewrite HK.
Qed.

Lemma parent_pad_funclet (ts : list nat) (st : PadState) : inv ts st ->
  forall (fuel r : nat) (F : option nat), covered ts r -> (r < fuel)%nat ->
  parent_pad (S fuel) s st (Some r) = Some F -> funclet_of st r F.
Proof.
  intros HI. induction fuel as [|fuel IH]; intros r F Hr Hlt HF; [lia|].
  destruct Hr as [->|[[HT Hr]|(t & Ht & Hr)]]; [| |by eapply funclet_handler].
  - destruct (ao_root _ Hs) as (R & HR & HK & HN). cbn [parent_pad] in HF. rewrite HR in HF.
    cbn [mbind option_bind] in HF. rewrite HK in HF. unfold rgnGetEnclosingAncestor in HF. rewrite HR in HF.
    cbn [mbind option_bind] in HF. rewrite HN in HF. injection HF as <-. constructor.
  - destruct (inv_try _ _ HI r Hr) as [_ (p & _ & _ & _ & HP & Hc & _)]. pose proof (parent_older r p HP).
    eapply (funclet_try st r p); [done|done|]. apply IH; [done|lia|].
    remember (S fuel) as n eqn:Hn. cbn [parent_pad] in HF. unfold kind_of in HT. unfold rgnGetParent in HP.
    unfold rgnGetEnclosingAncestor, rgnIsOutsideParent in HF.
    destruct (s !! r) as [R|]; [|done]. cbn in HT, HP. injection HT as HT. cbn [mbind option_bind] in HF.
    rewrite HT, HP in HF. cbn [mbind option_bind] in HF. by destruct n.
Qed.

(** The pad of a region is in a funclet that the region's code is in. *)
Lemma pads_nest (ts : list nat) (st : PadState) : inv ts st ->
  forall (n r : nat), (r < n)%nat -> covered ts r ->
  exists F, parent_pad (S (length s)) s st (Some r) = Some F /\
    forall p, HandlerEHPad st !! r = Some p -> exists P, Pads st !! p = Some P /\ outward st F (ParentPad P).
Proof.
  intros HI. induction n as [|n IH]; intros r Hlt Hr; [lia|].
  assert (Hpar : forall t, t ∈ ts -> exists EP P q, rgnGetParent s t = Some q /\ covered ts q /\
    parent_pad (S (length s)) s st (Some q) = Some EP /\ parent_pad (S (length s)) s st (Some t) = Some EP /\
    HandlerEHPad st !! t = Some P /\ pad_for st (handlers_of t) P (HandlerEHPad st !! q) EP).
  { intros t Ht. destruct (inv_try _ _ HI t Ht) as [Htry (q & EH & EP & P & HP & Hc & HEH & HEP & HPt & HPad)].
    exists EP, P, q. do 2 (split; [done|]). split; [by eapply parent_pad_enclosing|]. split; [|done].
    assert (Hct : covered ts t) by (right; left; split; [by eapply try_kind|done]).
    destruct (enclosing_handler_spec ts st HI (length s) t Hct (covered_lt ts t Hct)) as (EH' & HEH' & _).
    eapply parent_pad_enclosing; [exact HEP|].
    rewrite <- (enclosing_handler_try t q EH EH' (try_kind t _ Htry) HP HEH HEH'). exact HEH'. }
  destruct Hr as [->|[[HT Hr]|(t & Ht & Hr)]].
  - destruct (enclosing_handler_spec ts st HI (length s) 0) as (EH & HEH & HEHin); [by left|by apply (covered_lt ts); left|].
    destruct (enclosing_pad_spec ts st EH HI HEHin) as (EP & HEP & _). exists EP.
    split; [by eapply parent_pad_enclosing|]. rewrite (inv_root _ _ HI). done.
  - destruct (Hpar r Hr) as (EP & P & q & _ & _ & _ & HF & HP & HPad). exists EP. split; [done|].
    intros p Hp. destruct (pad_for_parent _ _ _ _ _ HPad) as (Q & HQ & HQP). exists Q.
    split; [congruence|]. rewrite HQP. constructor.
  - destruct (Hpar t Ht) as (EP & P & q & Hq & Hc & HFq & _ & HP & HPad).
    destruct (handler_outward ts st t r P _ EP HI Ht Hr HP HPad) as (F & HF & HO). exists F. split; [done|].
    rewrite (inv_handler _ _ HI t r q Ht Hr Hq). intros p Hp.
    destruct (handlers_of_parent t r Hr) as [_ Hlt1]. pose proof (parent_older t q Hq).
    destruct (IH q) as (EP' & HF' & Hn); [lia|done|]. destruct (Hn p Hp) as (Q & HQ & HO').
    exists Q. split; [done|]. replace EP' with EP in * by congruence. by eapply outward_trans.
Qed.

(** The pad of a region is that of the innermost try that protects it. *)
Lemma head_protector (ts : list nat) (st : PadState) : inv ts st ->
  forall (fuel r : nat), covered ts r -> (r < fuel)%nat ->
  match protectors fuel r with
  | [] => HandlerEHPad st !! r = None
  | t :: _ => t ∈ ts /\ HandlerEHPad st !! r = HandlerEHPad st !! t /\ is_Some (HandlerEHPad st !! t)
  end.
Proof.
  intros HI. induction fuel as [|fuel IH]; intros r Hr Hlt; [lia|]. cbn [protectors].
  destruct Hr as [->|[[HT Hr]|(t & Ht & Hr)]].
  - destruct (ao_root _ Hs) as (R & HR & _ & HN). unfold rgnGetParent. rewrite HR. cbn. rewrite HN. apply HI.
  - destruct (inv_try _ _ HI r Hr) as [_ (q & _ & _ & P & Hq & _ & _ & _ & HP & _)].
    rewrite Hq, bool_decide_eq_true_2 by done. split; [done|]. split; [done|]. by exists P.
  - destruct (handlers_of_parent t r Hr) as [HPr Hlt1]. rewrite HPr, bool_decide_eq_false_2 by (by eapply handlers_of_kind).
    destruct (inv_try _ _ HI t Ht) as [_ (q & _ & _ & _ & Hq & Hc & _)].
    rewrite Hq, (inv_handler _ _ HI t r q Ht Hr Hq). pose proof (parent_older t q Hq). apply IH; [done|lia].
Qed.
End rules.

(** C10: The steps by which the flow-graph builder sets up exceptions never fail,
    if it enters each try in a region behind that region, ends a finally behind
    its try, ends each finally somewhere, and every try has its handlers, one
    finally, one fault or some catches and filters, behind the tries nested in
    it.  They send an exception that no handler takes from the inside out: from
    every region, the unwind edges of the catchswitches and the cleanuprets of
    the finallies lead through the pads of just the tries that protect the
    region, inner ones first (a handler is not protected by its own try), and
    out of the method behind the outermost one; only a fault, whose end is
    unreachable code, ends the way at its own pad.  Each of these pads has the
    handlers of its try in the order of the clauses. *)
Theorem exceptions_unwind_outwards (s : arena) (mdTypeRefNil : Z) (es : list region_step) :
  arena_ok s -> build_order s es -> all_end s es ->
  exists st X, do_steps s mdTypeRefNil (no_pads, ∅) es = Some (st, X) /\
    forall r, covered s (entered es) r -> exists ps, unwinds s st X (HandlerEHPad st !! r) ps /\
      Forall2 (fun t p => t ∈ entered es /\ HandlerEHPad st !! t = Some p /\
                 exists Dest EP, pad_for s mdTypeRefNil st (handlers_of s t) p Dest EP)
        (up_to_fault s (protectors s (length s) r)) ps.
Proof.
  intros Hs Hes Hend. destruct (do_steps_inv s mdTypeRefNil Hs es Hes) as (st & X & HE & HI & HX).
  exists st, X. split; [done|]. intros r Hr.
  destruct (unwinds_protectors s mdTypeRefNil Hs es st X HI HX Hend (length s) r Hr) as (ps & HU & HF).
  { by eapply covered_lt. }
  exists ps. split; [done|]. eapply Forall2_impl; [exact HF|]. cbn. intros t p [Ht Hp]. split; [done|].
  split; [done|]. destruct (inv_try _ _ _ _ HI t Ht) as [_ (q & _ & EP & P & _ & _ & _ & _ & HP & HPad)].
  replace p with P by congruence. by eexists _, EP.
Qed.

(** C11: After steps in such an order, a call in a region that was entered, the
    root, a try or a handler of any kind, is made in every case.  It is an
    invoke just if it may throw, a try protects the region and handlers are not
    suppressed; an exception then goes to the pad of the innermost try that does.
    A call in a handler names the pad of that handler in its funclet bundle: a
    fault or a finally the cleanuppad of its own, which is the pad of its try, a
    catch, a filter or the code behind one a catchpad in the switch of its try.
    The pad that an invoke unwinds to is in this funclet or in one around it: no
    unwind edge enters a handler. *)
Theorem makeCall_unwinds_in_funclet (V : Type) (s : arena) (mdTypeRefNil : Z) (es : list region_step)
    (st : PadState) (X : Exits) (r : nat) (Suppress MayThrow : bool) (Callee : V) (Args : list V)
    (Bundles : list (OperandBundle V)) :
  arena_ok s -> build_order s es -> do_steps s mdTypeRefNil (no_pads, ∅) es = Some (st, X) ->
  covered s (entered es) r ->
  exists F, funclet_of s mdTypeRefNil st r F /\
    let Bundles' := match F with Some f => Bundles ++ [FuncletBundle f] | None => Bundles end in
    if MayThrow && negb Suppress && negb (bool_decide (protectors s (length s) r = [])) then
      exists t p P, head (protectors s (length s) r) = Some t /\ HandlerEHPad st !! t = Some p /\
        Pads st !! p = Some P /\ outward st F (ParentPad P) /\
        makeCall s st Suppress (Some r) Callee MayThrow Args Bundles = Some (InvokeInst Callee p Args Bundles')
    else makeCall s st Suppress (Some r) Callee MayThrow Args Bundles = Some (CallInst Callee Args Bundles').
Proof.
  intros Hs Hes HE Hr. destruct (do_steps_inv s mdTypeRefNil Hs es Hes) as (st' & X' & HE' & HI & _).
  replace st' with st in HI by congruence. pose proof (covered_lt s Hs _ r Hr) as Hlt.
  destruct (pads_nest s mdTypeRefNil Hs _ st HI (length s) r Hlt Hr) as (F & HF & HN).
  pose proof (head_protector s mdTypeRefNil Hs _ st HI (length s) r Hr Hlt) as HH.
  exists F. split; [by eapply parent_pad_funclet|]. unfold makeCall. rewrite HF. cbn [mbind option_bind].
  destruct (protectors s (length s) r) as [|t ts'].
  - rewrite bool_decide_eq_true_2 by done. rewrite andb_false_r. rewrite HH. by destruct MayThrow.
  - rewrite bool_decide_eq_false_2, andb_true_r by done. destruct HH as (_ & Hpr & p & Hp). rewrite Hpr, Hp.
    destruct (HN p) as (P & HP & HO); [congruence|].
    destruct MayThrow, Suppress; cbn; try done. by exists t, p, P.
Qed.

(** A try with a finally in one with a catch. *)
Definition nested_tries : arena :=
  [Rgn None [1%nat] 0 40 UZero RGN_Root;
   Rgn (Some 0%nat) [2%nat; 3%nat] 0 20 (UEntryRegion 1) RGN_Try;
   Rgn (Some 1%nat) [4%nat] 5 10 (UEntryRegion 2) RGN_Try;
   Rgn (Some 1%nat) [] 20 30 (UCatchClassToken 7) RGN_MCatch;
   Rgn (Some 2%nat) [] 10 15 UZero RGN_Finally].

Lemma nested_tries_ok : arena_ok nested_tries.
Proof.
  split; [by eexists|]. intros i R HR.
  destruct i as [|[|[|[|[|i]]]]]; simpl in HR; simplify_eq; split; simpl; try (intros; done).
  all: try (intros c Hc; by apply elem_of_nil in Hc).
  all: try (intros c Hc; rewrite !elem_of_cons, elem_of_nil in Hc;
            repeat (destruct Hc as [Hc|Hc]; [rewrite Hc; eexists; split_and!; [done|done|lia]|]); done).
  all: try (intros _; eexists; split; [done|by left]).
  all: intros _; split; [done|]; do 2 eexists; split_and!; [done|lia|done|repeat constructor|done].
Qed.

Lemma nested_order : build_order nested_tries [Enter 1; Enter 2; EndFinally 4].
Proof.
  change [Enter 1; Enter 2; EndFinally 4] with ((([] ++ [Enter 1]) ++ [Enter 2]) ++ [EndFinally 4]).
  apply order_end with (t := 2%nat); [|right; by left|by left|done].
  apply order_enter with (parent := 1%nat); [apply order_enter with (parent := 0%nat)| | |done|].
  - constructor.
  - by intros ?%not_elem_of_nil.
  - exists (Rgn (Some 0%nat) [2%nat; 3%nat] 0 20 (UEntryRegion 1) RGN_Try), [2%nat]. split_and!; try done.
    + by repeat constructor.
    + repeat constructor. by intros ?%not_elem_of_nil.
    + apply some_catches; [done|]. constructor; [|done]. eexists. split; [reflexivity|]. left. split; [done|by eexists].
  - done.
  - by left.
  - by intros ?%list_elem_of_singleton.
  - exists (Rgn (Some 1%nat) [4%nat] 5 10 (UEntryRegion 2) RGN_Try), []. split_and!; try done.
    + repeat constructor. by intros ?%not_elem_of_nil.
    + by apply one_cleanup with (h := 4%nat).
  - right. left. split; [done|]. by left.
Qed.

Lemma nested_end : all_end nested_tries [Enter 1; Enter 2; EndFinally 4].
Proof.
  intros t h Ht Hh HK. change (entered [Enter 1; Enter 2; EndFinally 4]) with [1%nat; 2%nat] in Ht.
  rewrite !elem_of_cons, elem_of_nil in Ht. destruct Ht as [->|[->|[]]]; apply list_elem_of_singleton in Hh as ->.
  - done.
  - do 2 right. by left.
Qed.

Lemma exceptions_unwind_outwards_witness :
  exists st X, do_steps nested_tries 0 (no_pads, ∅) [Enter 1; Enter 2; EndFinally 4] = Some (st, X) /\
    exists p1 p2, HandlerEHPad st !! 1%nat = Some p1 /\ HandlerEHPad st !! 2%nat = Some p2 /\
      unwinds nested_tries st X (Some p2) [p2; p1].
Proof.
  destruct (exceptions_unwind_outwards nested_tries 0 [Enter 1; Enter 2; EndFinally 4] nested_tries_ok
    nested_order nested_end) as (st & X & HE & HU).
  exists st, X. split; [exact HE|].
  destruct (HU 2%nat) as (ps & Hps & HF).
  { right. left. split; [done|]. right. by left. }
  change (protectors nested_tries (length nested_tries) 2) with [2%nat; 1%nat] in HF.
  apply Forall2_cons_inv_l in HF as (p2 & ps' & (_ & H2 & _) & HF & ->).
  apply Forall2_cons_inv_l in HF as (p1 & ps'' & (_ & H1 & _) & HF & ->).
  apply Forall2_nil_inv_l in HF as ->.
  exists p1, p2. split; [exact H1|]. split; [exact H2|]. rewrite <- H2. exact Hps.
Defined.

(** A call in the finally leaves it for the catch of the outer try. *)
Lemma makeCall_unwinds_in_funclet_witness :
  exists st X p f P, do_steps nested_tries 0 (no_pads, ∅) [Enter 1; Enter 2; EndFinally 4] = Some (st, X) /\
    HandlerEHPad st !! 1%nat = Some p /\ Pads st !! p = Some P /\ outward st (Some f) (ParentPad P) /\
    makeCall nested_tries st false (Some 4%nat) tt true [] [] = Some (InvokeInst tt p [] [FuncletBundle f]).
Proof.
  destruct (do_steps nested_tries 0 (no_pads, ∅) [Enter 1; Enter 2; EndFinally 4]) as [[st X]|] eqn:HE; [|discriminate HE].
  destruct (makeCall_unwinds_in_funclet unit nested_tries 0 [Enter 1; Enter 2; EndFinally 4] st X 4 false true tt [] []
    nested_tries_ok nested_order HE) as (F & HF & HC).
  { right. right. exists 2%nat. split; [right; by left|by left]. }
  change (protectors nested_tries (length nested_tries) 4) with [1%nat] in HC. cbn in HC.
  destruct HC as (t & p & P & Ht & Hp & HP & HO & HM). injection Ht as <-.
  vm_compute in HE. injection HE as <- <-. destruct F as [f|]; [|vm_compute in HM; discriminate HM].
  eexists _, _, p, f, P. split; [reflexivity|]. split; [exact Hp|]. split; [exact HP|]. split; [exact HO|exact HM].
Defined.
