(* ===== verification/ObjectLoad.v ===== *)
(** * What a loaded object tells the runtime (lib/Jit/LLILCJit.cpp)

    [ObjectLoadListener] reads the object file that LLVM made of a method: the
    map between native and IL offsets and the homes of the locals from its DWARF
    sections, and the relocations, which the runtime applies itself.  LLVM's
    readers of object files and of DWARF are not part of the program, so an
    object is the data they give. *)

From S2P Require Import Prelude.

Module ObjectLoad.

(** ** Data *)

(** [SymbolSection] is [None] for the end of the sections, an external symbol;
    [SymbolSize] is what [computeSymbolSizes] pairs with the symbol. *)
Record SymbolRef := MkSymbol {
  SymbolName : string;
  IsFunction : bool;
  SymbolAddress : option Z;
  SymbolSize : Z;
  SymbolSection : option nat;
  SymbolValue : Z
}.

Record RelocationRef := MkRelocation {
  RelocationSymbol : SymbolRef;
  RelocationType : Z;
  RelocationOffset : Z;
  ElfAddend : Z
}.

(** A section with the one its relocations apply to. *)
Record SectionRef := MkSection {
  SectionName : string;
  RelocatedSection : option nat;
  Relocations : list RelocationRef
}.

Record ObjectFile := MkObject {
  ObjSections : list SectionRef;
  ObjSymbols : list SymbolRef;
  isELF : bool
}.

(** A row of the line table. *)
Record DILineInfo := MkLine { LineAddress : Z; Line : Z; Column : Z }.

Inductive SourceType : Set := STACK_EMPTY | CALL_INSTRUCTION.

Record OffsetMapping := MkMapping { nativeOffset : Z; ilOffset : Z; source : SourceType }.

Inductive DwarfTag : Set :=
  | DW_TAG_formal_parameter | DW_TAG_variable | DW_TAG_subprogram | OtherTag (n : Z).

#[export] Instance DwarfTag_eq_dec : EqDecision DwarfTag.
Proof. solve_decision. Defined.

(** A debug information entry with the attributes that are asked for, blocks as
    their bytes; a null entry ends a list of siblings. *)
Inductive DIE : Type :=
  | MkDIE (Null : bool) (Tag : DwarfTag) (Location FrameBase : option (list Z)) (LowPc : option Z)
      (Children : list DIE).

Definition isNULL (D : DIE) : bool := let 'MkDIE Null _ _ _ _ _ := D in Null.
Definition getTag (D : DIE) : DwarfTag := let 'MkDIE _ Tag _ _ _ _ := D in Tag.
Definition DW_AT_location (D : DIE) : option (list Z) := let 'MkDIE _ _ L _ _ _ := D in L.
Definition DW_AT_frame_base (D : DIE) : option (list Z) := let 'MkDIE _ _ _ F _ _ := D in F.
Definition DW_AT_low_pc (D : DIE) : option Z := let 'MkDIE _ _ _ _ P _ := D in P.
Definition Children (D : DIE) : list DIE := let 'MkDIE _ _ _ _ _ Cs := D in Cs.

Inductive RegNum : Set :=
  | REGNUM_RAX | REGNUM_RCX | REGNUM_RDX | REGNUM_RBX | REGNUM_RSP | REGNUM_RBP | REGNUM_RSI
  | REGNUM_RDI | REGNUM_R8 | REGNUM_R9 | REGNUM_R10 | REGNUM_R11 | REGNUM_R12 | REGNUM_R13
  | REGNUM_R14 | REGNUM_R15 | REGNUM_COUNT.

(** A local on the stack; [vlsOffset] is [None] where the code hands on a
    variable that it never set. *)
Record NativeVarInfo := MkVar {
  startOffset : Z;
  endOffset : Z;
  varNumber : Z;
  vlsBaseReg : RegNum;
  vlsOffset : option Z
}.

Record RelocationReport := MkReport {
  FixupAddress : Z;
  ReportedTarget : Z;
  EERelType : Z
}.

(** The calls of the runtime's interface. *)
Inductive EECall : Type :=
  | setBoundaries (NumDebugRanges : Z) (OM : list (option OffsetMapping))
  | setVars (cVars : Z) (LocalVars : list NativeVarInfo)
  | recordRelocation (R : RelocationReport).

Definition assert (b : bool) : option unit := if b then Some tt else None.

(** ** The offset mapping *)

(** The rows that begin a new IL offset. *)
Fixpoint count_ranges (Lines : list DILineInfo) (LastDebugOffset NumDebugRanges : Z) : Z :=
  match Lines with
  | [] => NumDebugRanges
  | L :: Lines =>
      if Line L =? LastDebugOffset then count_ranges Lines LastDebugOffset NumDebugRanges
      else count_ranges Lines (Line L) (u32 (NumDebugRanges + 1))
  end.

(** The second pass writes to the array; a write behind its end is [None]. *)
Fixpoint fill_ranges (Lines : list DILineInfo) (LastDebugOffset : Z) (CurrentDebugEntry : nat)
    (OM : list (option OffsetMapping)) : option (list (option OffsetMapping)) :=
  match Lines with
  | [] => Some OM
  | L :: Lines =>
      let IsCall := Column L =? 1 in
      if Line L =? LastDebugOffset then fill_ranges Lines LastDebugOffset CurrentDebugEntry OM
      else
        _ ← OM !! CurrentDebugEntry;
        fill_ranges Lines (Line L) (S CurrentDebugEntry)
          (<[CurrentDebugEntry :=
               Some (MkMapping (u32 (LineAddress L)) (Line L)
                       (if IsCall then CALL_INSTRUCTION else STACK_EMPTY))]> OM)
  end.

(** [sizeof(ICorDebugInfo::OffsetMapping)]: three 32-bit words. *)
Definition sizeof_OffsetMapping : Z := 12.

Definition no_offset : Z := 2 ^ 32 - 1.

(** Address and size of a method with its funclets. *)
Definition add_symbol (AddrSize : Z * Z) (Symbol : SymbolRef) : Z * Z :=
  let '(Addr, Size) := AddrSize in
  if IsFunction Symbol then
    match SymbolAddress Symbol with
    | Some SingleAddr =>
        (if SingleAddr <? Addr then SingleAddr else Addr, u64 (Size + SymbolSize Symbol))
    | None => (Addr, Size)
    end
  else (Addr, Size).

Definition function_range (Symbols : list SymbolRef) : Z * Z :=
  foldl add_symbol (2 ^ 64 - 1, 0) Symbols.

(** ** The locals *)

(** The byte that is taken for an offset. *)
Definition location_offset (D : DIE) : option (option Z) :=
  match DW_AT_location D with
  | Some FormValues => Some <$> last FormValues
  | None => Some None
  end.

Definition is_local (D : DIE) : bool :=
  bool_decide (getTag D = DW_TAG_formal_parameter) || bool_decide (getTag D = DW_TAG_variable).

Fixpoint extractLocalLocations (DebugEntry : DIE) (Offsets : list (option Z)) :
    option (list (option Z)) :=
  let 'MkDIE Null _ _ _ _ Cs := DebugEntry in
  if Null then Some Offsets
  else
    Offsets ←
      (if is_local DebugEntry then Offset ← location_offset DebugEntry; Some (Offsets ++ [Offset])
       else Some Offsets);
    (fix visit (Cs : list DIE) (Offsets : list (option Z)) : option (list (option Z)) :=
       match Cs with
       | [] => Some Offsets
       | Child :: Cs => Offsets ← extractLocalLocations Child Offsets; visit Cs Offsets
       end) Cs Offsets.

(** The subprogram down the chain of first children; a null pointer is used by
    the caller. *)
Fixpoint getSubprogramDIE (DebugEntry : DIE) : option DIE :=
  let 'MkDIE _ Tag _ _ _ Cs := DebugEntry in
  if bool_decide (Tag = DW_TAG_subprogram) then Some DebugEntry
  else match Cs with Child :: _ => getSubprogramDIE Child | [] => None end.

Definition DW_OP_reg0 : Z := 80.

Definition mapDwarfRegisterToRegNum (DwarfRegister : Z) : RegNum :=
  match DwarfRegister - DW_OP_reg0 with
  | 0 => REGNUM_RAX | 1 => REGNUM_RDX | 2 => REGNUM_RCX | 3 => REGNUM_RBX
  | 4 => REGNUM_RSI | 5 => REGNUM_RDI | 6 => REGNUM_RBP | 7 => REGNUM_RSP
  | 8 => REGNUM_R8 | 9 => REGNUM_R9 | 10 => REGNUM_R10 | 11 => REGNUM_R11
  | 12 => REGNUM_R12 | 13 => REGNUM_R13 | 14 => REGNUM_R14 | 15 => REGNUM_R15
  | _ => REGNUM_COUNT
  end.

(** The array of the locals of one unit. *)
Definition local_vars (Addr Size : Z) (FrameBaseRegister : RegNum) (Offsets : list (option Z)) :
    list NativeVarInfo :=
  imap (fun CurrentDebugEntry Offset =>
          MkVar (u32 Addr) (u32 (Addr + Size)) (Z.of_nat CurrentDebugEntry) FrameBaseRegister Offset)
    Offsets.

(** The loop over the units; a unit of another function ends it. *)
Fixpoint getDebugInfoForLocals (Units : list DIE) (Addr Size : Z) : option (list EECall) :=
  match Units with
  | [] => Some []
  | UnitDIE :: Units =>
      SubprogramDIE ← getSubprogramDIE UnitDIE;
      FrameBaseRegister ←
        match DW_AT_frame_base SubprogramDIE with
        | Some FormValues => mapDwarfRegisterToRegNum <$> last FormValues
        | None => Some REGNUM_COUNT
        end;
      let other := match DW_AT_low_pc SubprogramDIE with
                   | Some FormAddress => negb (FormAddress =? Addr)
                   | None => false
                   end in
      if other then Some []
      else
        Offsets ← extractLocalLocations SubprogramDIE [];
        let Calls :=
          match Offsets with
          | [] => []
          | _ => [setVars (Z.of_nat (length Offsets)) (local_vars Addr Size FrameBaseRegister Offsets)]
          end in
        More ← getDebugInfoForLocals Units Addr Size;
        Some (Calls ++ More)
  end.

Section load.
(** [getLineInfoForAddressRange] and [compile_units] of the object that LLVM
    makes for debugging, which has the given symbols. *)
Variable getLineInfoForAddressRange : Z -> Z -> list DILineInfo.
Variable compile_units : list DIE.

Definition getDebugInfoForObject (Symbols : list SymbolRef) : option (list EECall) :=
  let '(Addr, Size) := function_range Symbols in
  let Lines := getLineInfoForAddressRange Addr Size in
  let NumDebugRanges := count_ranges Lines no_offset 0 in
  if 0 <? NumDebugRanges then
    let SizeOfArray := u32 (NumDebugRanges * sizeof_OffsetMapping) in
    let Array := replicate (Z.to_nat (SizeOfArray / sizeof_OffsetMapping)) None in
    OM ← fill_ranges Lines no_offset 0 Array;
    Calls ← getDebugInfoForLocals compile_units Addr Size;
    Some (setBoundaries NumDebugRanges OM :: Calls)
  else Some [].

(** ** Relocations *)

(** Where sections were loaded, the handles of the globals the reader made, the
    memory the sections are in, and the runtime's number for a 32-bit relative
    fixup. *)
Variable getSectionLoadAddress : nat -> Z.
Variable NameToHandleMap : gmap string Z.
Variable Memory : Z -> Z.
Variable IMAGE_REL_BASED_REL32 : Z.

Definition IMAGE_REL_AMD64_ABSOLUTE : Z := 0.
Definition IMAGE_REL_AMD64_ADDR64 : Z := 1.
Definition IMAGE_REL_AMD64_REL32 : Z := 4.
Definition IMAGE_REL_BASED_ABSOLUTE : Z := 0.
Definition IMAGE_REL_BASED_DIR64 : Z := 10.

(** Sections whose contents the runtime gets in another way. *)
Definition skipped (Name : string) : bool :=
  String.prefix ".debug" Name || String.prefix ".rela.debug" Name ||
  String.eqb Name ".pdata" || String.prefix ".eh_frame" Name ||
  String.prefix ".rela.eh_frame" Name.

(** Little-endian reads. *)
Definition read_memory (n : nat) (Address : Z) : Z :=
  le_val ((fun i => Memory (Address + Z.of_nat i)) <$> seq 0 n).

Definition getRelocationAddend (LLVMRelocationType Fixup : Z) : option Z :=
  if LLVMRelocationType =? IMAGE_REL_AMD64_ABSOLUTE then Some (read_memory 4 Fixup)
  else if LLVMRelocationType =? IMAGE_REL_AMD64_ADDR64 then Some (read_memory 8 Fixup)
  else if LLVMRelocationType =? IMAGE_REL_AMD64_REL32 then Some (read_memory 4 Fixup)
  else None.

Definition getRelocationType (LLVMRelocationType : Z) : option Z :=
  if LLVMRelocationType =? IMAGE_REL_AMD64_ABSOLUTE then Some IMAGE_REL_BASED_ABSOLUTE
  else if LLVMRelocationType =? IMAGE_REL_AMD64_ADDR64 then Some IMAGE_REL_BASED_DIR64
  else if LLVMRelocationType =? IMAGE_REL_AMD64_REL32 then Some IMAGE_REL_BASED_REL32
  else None.

(** The target of a relocation, [Some None] for one that is passed over. *)
Definition relocation_target (Name : string) (Symbol : SymbolRef) : option (option Z) :=
  match SymbolSection Symbol with
  | None =>
      match NameToHandleMap !! SymbolName Symbol with
      | Some Handle => Some (Some Handle)
      | None =>
          _ ← assert (String.eqb (SymbolName Symbol) "ProcessCLRException");
          _ ← assert (String.prefix ".xdata" Name);
          Some None
      end
  | Some Section_ => Some (Some (u64 (getSectionLoadAddress Section_ + SymbolValue Symbol)))
  end.

(** One relocation of the section [Index] with that name. *)
Definition record_one (Elf : bool) (Index : nat) (Name : string) (Rel : RelocationRef) :
    option (list EECall) :=
  Target ← relocation_target Name (RelocationSymbol Rel);
  match Target with
  | None => Some []
  | Some RelocationTarget =>
      EEType ← getRelocationType (RelocationType Rel);
      let SectionAddress := getSectionLoadAddress Index in
      _ ← assert (negb (SectionAddress =? 0));
      let Fixup := u64 (SectionAddress + RelocationOffset Rel) in
      Addend ← (if Elf then Some (ElfAddend Rel) else getRelocationAddend (RelocationType Rel) Fixup);
      Some [recordRelocation (MkReport Fixup (u64 (RelocationTarget + Addend)) EEType)]
  end.

Fixpoint record_all (Elf : bool) (Index : nat) (Name : string) (Is : list RelocationRef) :
    option (list EECall) :=
  match Is with
  | [] => Some []
  | Rel :: Is =>
      Calls ← record_one Elf Index Name Rel;
      More ← record_all Elf Index Name Is;
      Some (Calls ++ More)
  end.

Fixpoint record_sections (Obj : ObjectFile) (SIs : list SectionRef) : option (list EECall) :=
  match SIs with
  | [] => Some []
  | SI :: SIs =>
      Calls ←
        match RelocatedSection SI with
        | None => Some []
        | Some Index =>
            Section_ ← ObjSections Obj !! Index;
            if skipped (SectionName Section_) then Some []
            else record_all (isELF Obj) Index (SectionName Section_) (Relocations SI)
        end;
      More ← record_sections Obj SIs;
      Some (Calls ++ More)
  end.

Definition recordRelocations (Obj : ObjectFile) : option (list EECall) :=
  record_sections Obj (ObjSections Obj).

(** The listener, for one object. *)
Definition notify_loaded (Obj : ObjectFile) : option (list EECall) :=
  Debug ← getDebugInfoForObject (ObjSymbols Obj);
  Relocs ← recordRelocations Obj;
  Some (Debug ++ Relocs).
End load.
End ObjectLoad.
