(* ===== verification/ObjectLoadRules.v ===== *)
(** * What the runtime learns of a loaded object

    The offset mapping answers as the line table, the locals are numbered in the
    order of their entries, and a relocation makes the runtime store the number
    that its format asks for. *)

From S2P Require Import Prelude ObjectLoad.
Import ObjectLoad.

(** ** The offset mapping *)

(** The mapping of a row. *)
Definition mapping_of (L : DILineInfo) : OffsetMapping :=
  MkMapping (u32 (LineAddress L)) (Line L) (if Column L =? 1 then CALL_INSTRUCTION else STACK_EMPTY).

(** The rows that do not repeat the offset of the row before. *)
Fixpoint new_rows (Lines : list DILineInfo) (Last : Z) : list DILineInfo :=
  match Lines with
  | [] => []
  | L :: Lines => if Line L =? Last then new_rows Lines Last else L :: new_rows Lines (Line L)
  end.

Lemma new_rows_length (Lines : list DILineInfo) (Last : Z) :
  (length (new_rows Lines Last) <= length Lines)%nat.
Proof.
  revert Last. induction Lines as [|L Lines IH]; intros Last; cbn; [lia|].
  destruct (Line L =? Last); cbn; [specialize (IH Last)|specialize (IH (Line L))]; lia.
Qed.

Lemma count_ranges_spec (Lines : list DILineInfo) (Last n : Z) :
  0 <= n -> n + Z.of_nat (length Lines) < 2 ^ 32 ->
  count_ranges Lines Last n = n + Z.of_nat (length (new_rows Lines Last)).
Proof.
  revert Last n. induction Lines as [|L Lines IH]; intros Last n Hn Hlt; cbn [count_ranges new_rows length] in *; [lia|].
  destruct (Line L =? Last).
  - apply IH; lia.
  - assert (Hs : u32 (n + 1) = n + 1) by (apply (wrap_small 32); lia).
    rewrite Hs, IH by lia. cbn [length]. lia.
Qed.

Lemma fill_ranges_spec (Lines : list DILineInfo) (Last : Z) (done_ : list (option OffsetMapping)) (n : nat) :
  n = length (new_rows Lines Last) ->
  fill_ranges Lines Last (length done_) (done_ ++ replicate n None) =
  Some (done_ ++ (Some <$> (mapping_of <$> new_rows Lines Last))).
Proof.
  revert Last done_ n. induction Lines as [|L Lines IH]; intros Last dn n ->; [done|].
  cbn [fill_ranges new_rows]. destruct (Line L =? Last) eqn:HL; [by apply IH|].
  cbn [length replicate fmap list_fmap]. rewrite lookup_app_r, Nat.sub_diag by done. cbn [lookup list_lookup mbind option_bind].
  rewrite insert_app_r_alt, Nat.sub_diag by done. cbn [insert list_insert].
  specialize (IH (Line L) (dn ++ [Some (mapping_of L)]) _ eq_refl).
  rewrite length_app, Nat.add_comm, <- !app_assoc in IH. cbn in IH. exact IH.
Qed.

(** The IL offset at a native offset, by rows and by mappings. *)
Definition il_at (Lines : list DILineInfo) (n : Z) : Z :=
  foldl (fun il L => if LineAddress L <=? n then Line L else il) no_offset Lines.

Definition mapped_il_at (OM : list OffsetMapping) (n : Z) : Z :=
  foldl (fun il M => if nativeOffset M <=? n then ilOffset M else il) no_offset OM.

Definition ascending (Lines : list DILineInfo) : Prop :=
  StronglySorted (fun L L' => LineAddress L <= LineAddress L') Lines.

Lemma rows_behind (Lines : list DILineInfo) (n il : Z) :
  Forall (fun L => n < LineAddress L) Lines ->
  foldl (fun il L => if LineAddress L <=? n then Line L else il) il Lines = il.
Proof.
  induction 1 as [|L Lines HL _ IH]; [done|]. cbn. by rewrite (proj2 (Z.leb_gt _ _) HL).
Qed.

Lemma new_rows_il (n : Z) (Lines : list DILineInfo) : ascending Lines ->
  Forall (fun L => 0 <= LineAddress L < 2 ^ 32) Lines -> forall Last il,
  (il = Last \/ Forall (fun L => n < LineAddress L) Lines) ->
  foldl (fun il M => if nativeOffset M <=? n then ilOffset M else il) il (mapping_of <$> new_rows Lines Last) =
  foldl (fun il L => if LineAddress L <=? n then Line L else il) il Lines.
Proof.
  induction 1 as [|L Lines Hs IH HF]; intros HR Last il Hil; [done|].
  apply Forall_cons in HR as [HL HR]. specialize (IH HR). cbn [new_rows foldl].
  assert (Hu : u32 (LineAddress L) = LineAddress L) by (apply (wrap_small 32); lia).
  assert (Hbehind : n < LineAddress L -> Forall (fun L' => n < LineAddress L') Lines).
  { intros Hlt. eapply Forall_impl; [exact HF|]. cbn. lia. }
  destruct (LineAddress L <=? n) eqn:Hn.
  - apply Z.leb_le in Hn. destruct Hil as [->|[Hlt _]%Forall_cons]; [|lia].
    destruct (Line L =? Last) eqn:HLL.
    + apply Z.eqb_eq in HLL. rewrite HLL. apply IH. by left.
    + cbn. rewrite Hu, (proj2 (Z.leb_le _ _) Hn). apply IH. by left.
  - apply Z.leb_gt in Hn. specialize (Hbehind Hn). destruct (Line L =? Last).
    + apply IH. by right.
    + cbn. rewrite Hu, (proj2 (Z.leb_gt _ _) Hn). apply IH. by right.
Qed.

Lemma new_rows_nil (Lines : list DILineInfo) (Last : Z) :
  new_rows Lines Last = [] <-> Forall (fun L => Line L = Last) Lines.
Proof.
  induction Lines as [|L Lines IH]; [by split; [constructor|]|]. cbn [new_rows]. rewrite Forall_cons.
  destruct (Z.eqb_spec (Line L) Last) as [HE|HE]; [|by split; [|intros []]].
  rewrite IH. by split; [|intros []].
Qed.

(** A mapping that repeats none before it, [Last] being the offset in front. *)
Fixpoint no_repeats (Last : Z) (OM : list OffsetMapping) : Prop :=
  match OM with
  | [] => True
  | M :: OM => ilOffset M <> Last /\ no_repeats (ilOffset M) OM
  end.

Lemma new_rows_no_repeats (Lines : list DILineInfo) : forall Last,
  no_repeats Last (mapping_of <$> new_rows Lines Last).
Proof.
  induction Lines as [|L Lines IH]; intros Last; [done|]. cbn [new_rows].
  destruct (Z.eqb_spec (Line L) Last) as [HE|HE]; [apply IH|]. split; [exact HE|apply IH].
Qed.

(** A mapping that says what a row says. *)
Definition maps_row (L : DILineInfo) (M : OffsetMapping) : Prop :=
  nativeOffset M = LineAddress L /\ ilOffset M = Line L /\
  (source M = CALL_INSTRUCTION <-> Column L = 1).

Lemma new_rows_from (Lines : list DILineInfo) : forall Last,
  Forall (fun L => 0 <= LineAddress L < 2 ^ 32) Lines ->
  Forall (fun M => exists L, L ∈ Lines /\ maps_row L M) (mapping_of <$> new_rows Lines Last).
Proof.
  induction Lines as [|L Lines IH]; intros Last HA; [constructor|]. apply Forall_cons in HA as [HL HA].
  assert (Hmore : forall OM, Forall (fun M => exists L', L' ∈ Lines /\ maps_row L' M) OM ->
    Forall (fun M => exists L', L' ∈ L :: Lines /\ maps_row L' M) OM).
  { intros OM HO. eapply Forall_impl; [exact HO|]. intros M (L' & HL' & HM). exists L'. split; [by right|done]. }
  cbn [new_rows]. destruct (Line L =? Last); [by apply Hmore, IH|].
  cbn [fmap list_fmap]. constructor; [|by apply Hmore, IH].
  exists L. split; [by left|]. unfold maps_row, mapping_of. cbn. split; [by apply (wrap_small 32)|]. split; [done|].
  by destruct (Z.eqb_spec (Column L) 1).
Qed.

(** ** The locals *)

(** Entries in the order they are written down, without what is below a null. *)
Fixpoint preorder (D : DIE) : list DIE :=
  let 'MkDIE Null _ _ _ _ Cs := D in
  if Null then []
  else D :: (fix all (Cs : list DIE) := match Cs with [] => [] | C :: Cs => preorder C ++ all Cs end) Cs.

Lemma DIE_induction (P : DIE -> Prop) :
  (forall Null Tag L F pc Cs, Forall P Cs -> P (MkDIE Null Tag L F pc Cs)) -> forall D, P D.
Proof.
  intros HP. fix IH 1. intros [Null Tag L F pc Cs]. apply HP.
  induction Cs as [|C Cs IHCs]; constructor; [apply IH|exact IHCs].
Qed.

(** The locals below an entry. *)
Definition locals_of (D : DIE) : list DIE := List.filter is_local (preorder D).

Lemma mapM_app {A B} (f : A -> option B) (l1 l2 : list A) :
  mapM f (l1 ++ l2) = (k1 ← mapM f l1; k2 ← mapM f l2; Some (k1 ++ k2)).
Proof.
  induction l1 as [|a l1 IH]; cbn; [by destruct (mapM f l2)|]. destruct (f a); [|done]. cbn.
  rewrite IH. cbn. destruct (mapM f l1); [|done]. cbn. by destruct (mapM f l2).
Qed.

Lemma extract_spec (D : DIE) : forall Offsets,
  extractLocalLocations D Offsets = (os ← mapM location_offset (locals_of D); Some (Offsets ++ os)).
Proof.
  induction D as [Null Tag L F pc Cs HCs] using DIE_induction. intros Offsets.
  unfold locals_of. cbn [extractLocalLocations preorder]. destruct Null.
  { cbn. by rewrite app_nil_r. }
  set (D := MkDIE false Tag L F pc Cs).
  assert (Hvisit : forall Offsets,
    (fix visit (Cs : list DIE) (Offsets : list (option Z)) : option (list (option Z)) :=
       match Cs with
       | [] => Some Offsets
       | Child :: Cs => Offsets ← extractLocalLocations Child Offsets; visit Cs Offsets
       end) Cs Offsets =
    (os ← mapM location_offset (List.filter is_local
       ((fix all (Cs : list DIE) := match Cs with [] => [] | C :: Cs => preorder C ++ all Cs end) Cs));
     Some (Offsets ++ os))).
  { clear D Offsets. induction HCs as [|C Cs HC _ IH]; intros Offsets; [cbn; by rewrite app_nil_r|].
    rewrite HC, List.filter_app, mapM_app. unfold locals_of.
    destruct (mapM location_offset (List.filter is_local (preorder C))) as [o1|]; [|done].
    cbn [mbind option_bind]. rewrite IH. destruct (mapM location_offset (List.filter is_local _)) as [o2|]; [|done]. cbn. by rewrite app_assoc. }
  cbn [List.filter]. destruct (is_local D).
  - cbn [mapM mret option_ret]. destruct (location_offset D) as [o|]; [|done]. cbn [mbind option_bind].
    rewrite Hvisit. destruct (mapM location_offset (List.filter is_local _)); [|done]. cbn. by rewrite <- app_assoc.
  - cbn [mbind option_bind]. apply Hvisit.
Qed.

(** The signed LEB128 encoding of an offset from the frame base. *)
Fixpoint sleb128 (fuel : nat) (v : Z) : list Z :=
  if (-64 <=? v) && (v <? 64) then [v mod 128]
  else match fuel with
       | O => [v mod 128]
       | S fuel => (v mod 128 + 128) :: sleb128 fuel (v / 128)
       end.

Lemma sleb128_last (fuel : nat) (v : Z) : exists b, last (sleb128 fuel v) = Some b /\ 0 <= b < 128.
Proof.
  revert v. induction fuel as [|fuel IH]; intros v; cbn [sleb128].
  - destruct ((-64 <=? v) && (v <? 64)); exists (v mod 128); (split; [done|by apply Z.mod_pos_bound]).
  - destruct ((-64 <=? v) && (v <? 64)); [exists (v mod 128); split; [done|by apply Z.mod_pos_bound]|].
    destruct (IH (v / 128)) as (b & Hb & Hr). exists b. split; [|done].
    destruct (sleb128 fuel (v / 128)); [done|exact Hb].
Qed.

Lemma sleb128_reported (fuel : nat) (v b : Z) :
  last (sleb128 (S fuel) v) = Some b -> b = v <-> 0 <= v < 64.
Proof.
  intros Hb. destruct (sleb128_last (S fuel) v) as (b' & Hb' & Hr).
  assert (b' = b) as -> by congruence. cbn [sleb128] in Hb.
  destruct ((-64 <=? v) && (v <? 64)) eqn:Hsmall.
  - injection Hb as <-. apply andb_true_iff in Hsmall as [H1%Z.leb_le H2%Z.ltb_lt].
    destruct (decide (0 <= v)) as [Hv|Hv]; [rewrite Z.mod_small by lia; lia|]. lia.
  - apply andb_false_iff in Hsmall. split; [|intros [? ?]; destruct Hsmall as [Hs%Z.leb_gt|Hs%Z.ltb_ge]; lia].
    intros ->. exfalso. destruct Hsmall as [H%Z.leb_gt|H%Z.ltb_ge]; [lia|].
    assert (Hd : v / 128 = 0) by (apply Z.div_small; lia). rewrite Hd in Hb.
    destruct fuel; cbn in Hb; injection Hb as Hb; rewrite Z.mod_0_l in Hb; lia.
Qed.

(** ** Relocations *)

Section relocations.
Variable getSectionLoadAddress : nat -> Z.
Variable NameToHandleMap : gmap string Z.
Variable Memory : Z -> Z.
Variable IMAGE_REL_BASED_REL32 : Z.

#[local] Notation record_one := (record_one getSectionLoadAddress NameToHandleMap Memory IMAGE_REL_BASED_REL32).
#[local] Notation record_all := (record_all getSectionLoadAddress NameToHandleMap Memory IMAGE_REL_BASED_REL32).
#[local] Notation record_sections := (record_sections getSectionLoadAddress NameToHandleMap Memory IMAGE_REL_BASED_REL32).
#[local] Notation read_memory := (read_memory Memory).

(** The address a symbol stands for: of its definition, or the handle behind a
    global of the reader. *)
Definition address_of (S : SymbolRef) : option Z :=
  match SymbolSection S with
  | Some i => Some (u64 (getSectionLoadAddress i + SymbolValue S))
  | None => NameToHandleMap !! SymbolName S
  end.

(** What the runtime puts at the fixup: nothing for an absolute base relocation,
    the target for a 64-bit one, and for a relative one its distance from the
    end of the four bytes. *)
Definition stored (R : RelocationReport) : option Z :=
  if EERelType R =? IMAGE_REL_BASED_REL32 then Some (u32 (ReportedTarget R - (FixupAddress R + 4)))
  else if EERelType R =? IMAGE_REL_BASED_DIR64 then Some (ReportedTarget R)
  else None.

(** What the object formats ask for, with S the address of the symbol, P the
    place and A the addend, which is in the entry of an ELF relocation and at
    the place of a COFF one: type 0 is ignored in both (R_X86_64_NONE,
    IMAGE_REL_AMD64_ABSOLUTE), type 1 is the 64-bit S + A in both (R_X86_64_64,
    IMAGE_REL_AMD64_ADDR64), type 4 of COFF (IMAGE_REL_AMD64_REL32) is the 32-bit
    distance of S + A from P + 4.  Type 4 of ELF (R_X86_64_PLT32), S + A - P, is
    none of these. *)
Inductive required (Elf : bool) (Rel : RelocationRef) (S P : Z) : option Z -> Prop :=
  | required_none : RelocationType Rel = 0 -> required Elf Rel S P None
  | required_elf64 : Elf = true -> RelocationType Rel = 1 ->
      required Elf Rel S P (Some (u64 (S + ElfAddend Rel)))
  | required_addr64 : Elf = false -> RelocationType Rel = 1 ->
      required Elf Rel S P (Some (u64 (S + s64 (read_memory 8 P))))
  | required_rel32 : Elf = false -> RelocationType Rel = 4 ->
      required Elf Rel S P (Some (u32 (S + s32 (read_memory 4 P) - (P + 4)))).

(** A relocation of an object that the runtime has to hear of. *)
Definition to_report (Obj : ObjectFile) (Index : nat) (Rel : RelocationRef) : Prop :=
  exists SI Section_, SI ∈ ObjSections Obj /\ RelocatedSection SI = Some Index /\
    ObjSections Obj !! Index = Some Section_ /\ skipped (SectionName Section_) = false /\
    Rel ∈ Relocations SI.

(** The report of a relocation: nothing is said of the number for type 4 of an
    ELF object. *)
Definition reports (Elf : bool) (Index : nat) (Rel : RelocationRef) (R : RelocationReport) : Prop :=
  exists Address, address_of (RelocationSymbol Rel) = Some Address /\
    FixupAddress R = u64 (getSectionLoadAddress Index + RelocationOffset Rel) /\
    (required Elf Rel Address (FixupAddress R) (stored R) \/ Elf = true /\ RelocationType Rel = 4).

Lemma u32_u64 (x : Z) : u32 (u64 x) = u32 x.
Proof. unfold u32, u64, wrap. rewrite <- Znumtheory.Zmod_div_mod; [done|lia|lia|by exists (2 ^ 32)]. Qed.

Lemma u32_sub (x y : Z) : u32 (u64 x - y) = u32 (x - y).
Proof.
  unfold u32, u64, wrap. rewrite Zminus_mod, <- Znumtheory.Zmod_div_mod, <- Zminus_mod; [done|lia|lia|by exists (2 ^ 32)].
Qed.

Lemma wrap_swrap (w x y : Z) : 0 < w -> wrap w (x + swrap w y) = wrap w (x + y).
Proof.
  intros Hw. unfold wrap, swrap. assert (0 < 2 ^ w) by lia.
  destruct (y mod 2 ^ w <? 2 ^ (w - 1)).
  - by rewrite Zplus_mod_idemp_r.
  - replace (x + (y mod 2 ^ w - 2 ^ w)) with (x + y mod 2 ^ w + (-1) * 2 ^ w) by lia.
    by rewrite Z_mod_plus_full, Zplus_mod_idemp_r.
Qed.

Lemma record_one_spec (Elf : bool) (Index : nat) (Name : string) (Rel : RelocationRef) (Calls : list EECall) :
  IMAGE_REL_BASED_REL32 <> IMAGE_REL_BASED_ABSOLUTE -> IMAGE_REL_BASED_REL32 <> IMAGE_REL_BASED_DIR64 ->
  record_one Elf Index Name Rel = Some Calls ->
  match address_of (RelocationSymbol Rel) with
  | Some _ => exists R, Calls = [recordRelocation R] /\ reports Elf Index Rel R
  | None => Calls = [] /\ SymbolName (RelocationSymbol Rel) = "ProcessCLRException"%string
  end.
Proof.
  intros HA HD. unfold ObjectLoad.record_one, relocation_target. unfold reports.
  set (fix_ := u64 (getSectionLoadAddress Index + RelocationOffset Rel)).
  assert (Hrep : forall A, address_of (RelocationSymbol Rel) = Some A ->
    (EEType ← getRelocationType IMAGE_REL_BASED_REL32 (RelocationType Rel);
     _ ← assert (negb (getSectionLoadAddress Index =? 0));
     Addend ← (if Elf then Some (ElfAddend Rel) else getRelocationAddend Memory (RelocationType Rel) fix_);
     Some [recordRelocation (MkReport fix_ (u64 (A + Addend)) EEType)]) = Some Calls ->
    exists R, Calls = [recordRelocation R] /\ exists A', address_of (RelocationSymbol Rel) = Some A' /\
      FixupAddress R = fix_ /\
      (required Elf Rel A' (FixupAddress R) (stored R) \/ Elf = true /\ RelocationType Rel = 4)).
  { intros A HAd. unfold getRelocationType, getRelocationAddend.
    destruct (negb (getSectionLoadAddress Index =? 0)); [|by repeat case_match].
    intros HC. unfold stored.
    destruct (RelocationType Rel =? IMAGE_REL_AMD64_ABSOLUTE) eqn:H0; cbn [mbind option_bind assert] in HC.
    { apply Z.eqb_eq in H0.
      destruct Elf; injection HC as <-; eexists; (split; [reflexivity|]); exists A; cbn [FixupAddress ReportedTarget EERelType];
        (split; [done|]; split; [done|]); left; rewrite (proj2 (Z.eqb_neq _ _)) by congruence; by apply required_none. }
    destruct (RelocationType Rel =? IMAGE_REL_AMD64_ADDR64) eqn:H1; cbn [mbind option_bind assert] in HC.
    { apply Z.eqb_eq in H1.
      destruct Elf; injection HC as <-; eexists; (split; [reflexivity|]); exists A; cbn [FixupAddress ReportedTarget EERelType];
        (split; [done|]; split; [done|]); left; rewrite (proj2 (Z.eqb_neq _ _)) by congruence; rewrite Z.eqb_refl;
        [by apply required_elf64|].
      pose proof (required_addr64 false Rel A fix_ eq_refl H1) as Hr. rewrite (wrap_swrap 64) in Hr by lia. exact Hr. }
    destruct (RelocationType Rel =? IMAGE_REL_AMD64_REL32) eqn:H2; cbn [mbind option_bind assert] in HC; [|done].
    apply Z.eqb_eq in H2.
    destruct Elf; injection HC as <-; eexists; (split; [reflexivity|]); exists A; cbn [FixupAddress ReportedTarget EERelType];
      (split; [done|]; split; [done|]); [by right|left]. rewrite Z.eqb_refl, u32_sub.
    pose proof (required_rel32 false Rel A fix_ eq_refl H2) as Hr.
    replace (A + s32 (read_memory 4 fix_) - (fix_ + 4)) with ((A - (fix_ + 4)) + s32 (read_memory 4 fix_)) in Hr by lia.
    unfold u32, s32 in Hr |- *. rewrite (wrap_swrap 32) in Hr by lia.
    replace (A + read_memory 4 fix_ - (fix_ + 4)) with (A - (fix_ + 4) + read_memory 4 fix_) by lia. exact Hr. }
  unfold address_of in *. destruct (SymbolSection (RelocationSymbol Rel)) as [i|].
  - cbn [mbind option_bind]. intros HC. exact (Hrep _ eq_refl HC).
  - destruct (NameToHandleMap !! SymbolName (RelocationSymbol Rel)) as [h|].
    + cbn [mbind option_bind]. intros HC. exact (Hrep _ eq_refl HC).
    + destruct (String.eqb _ _) eqn:HN; [|done]. apply String.eqb_eq in HN. cbn.
      destruct (String.prefix _ _); [|done]. cbn. intros [= <-]. done.
Qed.

(** A relocation is answered, and a call is an answer. *)
Definition answered (Elf : bool) (Index : nat) (Calls : list EECall) (Rel : RelocationRef) : Prop :=
  match address_of (RelocationSymbol Rel) with
  | Some _ => exists R, recordRelocation R ∈ Calls /\ reports Elf Index Rel R
  | None => SymbolName (RelocationSymbol Rel) = "ProcessCLRException"%string
  end.

Lemma answered_more (Elf : bool) (Index : nat) (Calls Calls' : list EECall) (Rel : RelocationRef) :
  Calls ⊆ Calls' -> answered Elf Index Calls Rel -> answered Elf Index Calls' Rel.
Proof.
  intros HS. unfold answered. destruct (address_of _); [|done]. intros (R & HR & HP). exists R. auto.
Qed.

Hypothesis rel32_absolute : IMAGE_REL_BASED_REL32 <> IMAGE_REL_BASED_ABSOLUTE.
Hypothesis rel32_dir64 : IMAGE_REL_BASED_REL32 <> IMAGE_REL_BASED_DIR64.

Lemma record_all_spec (Elf : bool) (Index : nat) (Name : string) (Rels : list RelocationRef) (Calls : list EECall) :
  record_all Elf Index Name Rels = Some Calls ->
  (forall Rel, Rel ∈ Rels -> answered Elf Index Calls Rel) /\
  (forall c, c ∈ Calls -> exists R Rel, c = recordRelocation R /\ Rel ∈ Rels /\ reports Elf Index Rel R).
Proof.
  revert Calls. induction Rels as [|Rel Rels IH]; intros Calls; cbn [ObjectLoad.record_all].
  { intros [= <-]. by split; intros ? ?%not_elem_of_nil. }
  destruct (record_one Elf Index Name Rel) as [c1|] eqn:H1; [|done]. cbn [mbind option_bind].
  destruct (record_all Elf Index Name Rels) as [c2|]; [|done]. cbn [mbind option_bind]. intros [= <-].
  destruct (IH c2 eq_refl) as [IHa IHc]. pose proof (record_one_spec _ _ _ _ _ rel32_absolute rel32_dir64 H1) as HO.
  split.
  - intros r [->|Hr]%elem_of_cons.
    + unfold answered. destruct (address_of _); [|by destruct HO]. destruct HO as (R & -> & HR).
      exists R. split; [by left|done].
    + eapply answered_more; [|by apply IHa]. intros x Hx. apply elem_of_app. by right.
  - intros c [Hc|Hc]%elem_of_app.
    + destruct (address_of (RelocationSymbol Rel)).
      * destruct HO as (R & -> & HR). apply list_elem_of_singleton in Hc as ->. exists R, Rel.
        split; [done|]. split; [by left|done].
      * destruct HO as [-> _]. by apply not_elem_of_nil in Hc.
    + destruct (IHc c Hc) as (R & r & -> & Hr & HR). exists R, r. split; [done|]. split; [by right|done].
Qed.

Lemma record_sections_spec (Obj : ObjectFile) (SIs : list SectionRef) (Calls : list EECall) :
  SIs ⊆ ObjSections Obj -> record_sections Obj SIs = Some Calls ->
  (forall Index Section_ SI Rel, SI ∈ SIs -> RelocatedSection SI = Some Index ->
     ObjSections Obj !! Index = Some Section_ -> skipped (SectionName Section_) = false ->
     Rel ∈ Relocations SI -> answered (isELF Obj) Index Calls Rel) /\
  (forall c, c ∈ Calls -> exists R Index Rel, c = recordRelocation R /\ to_report Obj Index Rel /\
     reports (isELF Obj) Index Rel R).
Proof.
  revert Calls. induction SIs as [|SI SIs IH]; intros Calls Hsub; cbn [ObjectLoad.record_sections].
  { intros [= <-]. split; [intros ? ? ? ? ?%not_elem_of_nil; done|by intros ? ?%not_elem_of_nil]. }
  match goal with |- context [mbind _ ?m] => destruct m as [c1|] eqn:H1 end; [|done]. cbn [mbind option_bind].
  destruct (record_sections Obj SIs) as [c2|]; [|done]. cbn [mbind option_bind]. intros [= <-].
  assert (Hsub' : SIs ⊆ ObjSections Obj) by (intros x Hx; apply Hsub; by right).
  destruct (IH c2 Hsub' eq_refl) as [IHa IHc]. split.
  - intros Index S' SI' Rel [->|HSI]%elem_of_cons HRS HS Hsk HRel.
    + rewrite HRS in H1. cbn [mbind option_bind] in H1. rewrite HS in H1. cbn [mbind option_bind] in H1.
      rewrite Hsk in H1. destruct (record_all_spec _ _ _ _ _ H1) as [Ha _].
      eapply answered_more; [|by apply Ha]. intros x Hx. apply elem_of_app. by left.
    + eapply answered_more; [|by eapply IHa]. intros x Hx. apply elem_of_app. by right.
  - intros c [Hc|Hc]%elem_of_app; [|by apply IHc].
    destruct (RelocatedSection SI) as [Index|] eqn:HRS.
    2: { injection H1 as <-. by apply not_elem_of_nil in Hc. }
    cbn [mbind option_bind] in H1. destruct (ObjSections Obj !! Index) as [S'|] eqn:HS; [|done].
    cbn [mbind option_bind] in H1. destruct (skipped (SectionName S')) eqn:Hsk.
    { injection H1 as <-. by apply not_elem_of_nil in Hc. }
    destruct (record_all_spec _ _ _ _ _ H1) as [_ Hb]. destruct (Hb c Hc) as (R & Rel & -> & HRel & HR).
    exists R, Index, Rel. split; [done|]. split; [|done]. exists SI, S'. split; [apply Hsub; by left|done].
Qed.
End relocations.


(** A call behind a moved method with a negative addend, and an external. *)
Definition demo_object : ObjectFile :=
  MkObject
    [MkSection ".text" (Some 0%nat)
       [MkRelocation (MkSymbol "f" true (Some 0) 16 (Some 0%nat) 8) 4 1 0;
        MkRelocation (MkSymbol "h" false None 0 None 0) 1 8 0]]
    [MkSymbol "f" true (Some 0) 16 (Some 0%nat) 8] false.


(** C15: For a method whose rows ascend, the runtime gets a mapping just if some
    row has an IL offset (the number 2^32 - 1 says that it has none); it is as
    long as it is announced to be, its array is
    large enough, and at every native offset it gives the IL offset that the line
    table gives.  Each entry says what a row says, a call included, and none
    repeats the IL offset of the entry before it. *)
Theorem boundaries_answer_line_table (Lines : Z -> Z -> list DILineInfo) (Units : list DIE)
    (Symbols : list SymbolRef) (Addr Size : Z) :
  function_range Symbols = (Addr, Size) -> ascending (Lines Addr Size) ->
  Forall (fun L => 0 <= LineAddress L < 2 ^ 32) (Lines Addr Size) ->
  12 * Z.of_nat (length (Lines Addr Size)) < 2 ^ 32 ->
  exists OM, (forall n, mapped_il_at OM n = il_at (Lines Addr Size) n) /\
    (OM = [] <-> Forall (fun L => Line L = 2 ^ 32 - 1) (Lines Addr Size)) /\
    no_repeats (2 ^ 32 - 1) OM /\
    Forall (fun M => exists L, L ∈ Lines Addr Size /\ maps_row L M) OM /\
    getDebugInfoForObject Lines Units Symbols =
      match OM with
      | [] => Some []
      | _ => Calls ← getDebugInfoForLocals Units Addr Size;
             Some (setBoundaries (Z.of_nat (length OM)) (Some <$> OM) :: Calls)
      end.
Proof.
  intros HR Hasc Haddr Hlen. set (Ls := Lines Addr Size) in *.
  exists (mapping_of <$> new_rows Ls no_offset). split.
  { intros n. unfold mapped_il_at, il_at. apply new_rows_il; [done|done|by left]. }
  split; [change (2 ^ 32 - 1) with no_offset; rewrite <- (new_rows_nil Ls); by destruct (new_rows Ls no_offset)|].
  split; [apply (new_rows_no_repeats Ls no_offset)|]. split; [by apply new_rows_from|].
  unfold getDebugInfoForObject. rewrite HR. fold Ls.
  pose proof (new_rows_length Ls no_offset) as Hle.
  rewrite count_ranges_spec by lia. rewrite Z.add_0_l, length_fmap.
  destruct (new_rows Ls no_offset) as [|L Rs] eqn:HN; [done|]. rewrite <- HN in *.
  assert (Hpos : (0 < length (new_rows Ls no_offset))%nat) by (rewrite HN; cbn; lia).
  rewrite (proj2 (Z.ltb_lt _ _)) by lia.
  assert (Hn : Z.to_nat (u32 (Z.of_nat (length (new_rows Ls no_offset)) * sizeof_OffsetMapping) / sizeof_OffsetMapping) =
    length (new_rows Ls no_offset)).
  { unfold sizeof_OffsetMapping. rewrite (wrap_small 32) by lia. rewrite Z.div_mul by lia. apply Nat2Z.id. }
  rewrite Hn. pose proof (fill_ranges_spec Ls no_offset [] _ eq_refl) as HF. cbn [app length] in HF.
  rewrite HF. cbn [mbind option_bind]. rewrite HN. reflexivity.
Qed.

Lemma boundaries_answer_line_table_witness :
  let Lines := fun _ _ : Z => [MkLine 0 0 0; MkLine 3 0 1; MkLine 7 5 1] in
  exists OM, (forall n, mapped_il_at OM n = il_at (Lines 0 0) n) /\
    getDebugInfoForObject Lines [] [MkSymbol "f" true (Some 0) 9 (Some 0%nat) 0] =
      Some [setBoundaries (Z.of_nat (length OM)) (Some <$> OM)].
Proof.
  intros Lines.
  destruct (boundaries_answer_line_table Lines [] [MkSymbol "f" true (Some 0) 9 (Some 0%nat) 0] 0 9)
    as (OM & HM & _ & _ & _ & HE).
  - reflexivity.
  - repeat constructor; cbn; lia.
  - repeat constructor; cbn; lia.
  - reflexivity.
  - exists OM. split; [exact HM|]. destruct OM as [|M OM]; [discriminate HE|exact HE].
Defined.

(** The first subprogram down the first children. *)
Inductive leads_to : DIE -> DIE -> Prop :=
  | leads_here D : getTag D = DW_TAG_subprogram -> leads_to D D
  | leads_down D C Cs S : getTag D <> DW_TAG_subprogram -> Children D = C :: Cs ->
      leads_to C S -> leads_to D S.

Lemma leads_to_found (D S : DIE) : leads_to D S -> getSubprogramDIE D = Some S.
Proof.
  induction 1 as [[Null Tag L F pc Cs] HT|[Null Tag L F pc Cs'] C Cs S HT HC _ IH]; cbn in *.
  - by rewrite bool_decide_eq_true_2.
  - by rewrite bool_decide_eq_false_2, HC by done.
Qed.

(** Parameters and variables, nested scopes included. *)
Definition scope_locals (D : DIE) : list DIE :=
  filter (fun E => getTag E = DW_TAG_formal_parameter \/ getTag E = DW_TAG_variable) (preorder D).

Lemma scope_locals_of (D : DIE) : scope_locals D = locals_of D.
Proof.
  unfold scope_locals, locals_of. induction (preorder D) as [|E l IH]; [done|]. rewrite filter_cons. cbn [List.filter].
  unfold is_local at 1. rewrite IH. destruct (decide (_ \/ _)) as [H|H].
  - destruct H as [-> | ->]; [done|]. by rewrite orb_true_r.
  - rewrite !bool_decide_eq_false_2 by tauto. done.
Qed.

(** The registers by their DWARF numbers (System V ABI, x86-64). *)
Definition dwarf_registers : list RegNum :=
  [REGNUM_RAX; REGNUM_RDX; REGNUM_RCX; REGNUM_RBX; REGNUM_RSI; REGNUM_RDI; REGNUM_RBP; REGNUM_RSP;
   REGNUM_R8; REGNUM_R9; REGNUM_R10; REGNUM_R11; REGNUM_R12; REGNUM_R13; REGNUM_R14; REGNUM_R15].

Lemma dwarf_registers_mapped (r : nat) (R : RegNum) :
  dwarf_registers !! r = Some R -> mapDwarfRegisterToRegNum (80 + Z.of_nat r) = R.
Proof. do 16 (destruct r as [|r]; [by intros [= <-]|]). done. Qed.

Lemma local_vars_lookup Addr Size R Offsets i :
  local_vars Addr Size R Offsets !! i =
    (fun o => MkVar (u32 Addr) (u32 (Addr + Size)) (Z.of_nat i) R o) <$> Offsets !! i.
Proof. unfold local_vars. by rewrite list_lookup_imap. Qed.

(** C17: The runtime gets the locals of the subprogram that the first children of
    the method's unit lead to, if there are any: the i-th parameter or variable
    in the order of the entries, nested scopes included, has the number i, the
    range of the method in 32 bits and the frame's base register.  The offset
    of a local is the last byte of its location: it is the offset from the frame
    base just if that is from 0 to 63. *)
Theorem locals_are_numbered (UnitDIE SubprogramDIE : DIE) (Addr Size : Z) (FrameBase : list Z)
    (r : nat) (Base : RegNum) :
  leads_to UnitDIE SubprogramDIE -> DW_AT_low_pc SubprogramDIE = Some Addr ->
  (forall D, D ∈ preorder SubprogramDIE -> DW_AT_location D <> Some []) ->
  DW_AT_frame_base SubprogramDIE = Some (FrameBase ++ [80 + Z.of_nat r]) ->
  dwarf_registers !! r = Some Base ->
  exists Vars, length Vars = length (scope_locals SubprogramDIE) /\
    getDebugInfoForLocals [UnitDIE] Addr Size =
      Some (match Vars with [] => [] | _ => [setVars (Z.of_nat (length Vars)) Vars] end) /\
    forall i D V, scope_locals SubprogramDIE !! i = Some D -> Vars !! i = Some V ->
      varNumber V = Z.of_nat i /\ startOffset V = Addr mod 2 ^ 32 /\
      endOffset V = (Addr + Size) mod 2 ^ 32 /\ vlsBaseReg V = Base /\
      vlsOffset V = (bs ← DW_AT_location D; last bs) /\
      forall v fuel, DW_AT_location D = Some (145 :: sleb128 (S fuel) v) ->
        exists b, vlsOffset V = Some b /\ (b = v <-> 0 <= v < 64).
Proof.
  intros HT HP HL HF HB. rewrite scope_locals_of.
  assert (HM : exists Offsets, mapM location_offset (locals_of SubprogramDIE) = Some Offsets).
  { apply mapM_is_Some. apply List.Forall_forall. intros D HD. apply filter_In in HD as [HD _].
    apply list_elem_of_In, HL in HD. unfold compose, location_offset. destruct (DW_AT_location D) as [bs|]; [|by eexists].
    destruct (last bs) eqn:Hl; [by eexists|]. by apply last_None in Hl as ->. }
  destruct HM as [Offsets HM]. pose proof (proj1 (mapM_Some _ _ _) HM) as HFA.
  exists (local_vars Addr Size Base Offsets).
  assert (Hlen : length (local_vars Addr Size Base Offsets) = length Offsets) by apply length_imap.
  split; [rewrite Hlen; symmetry; by eapply Forall2_length|]. split.
  - cbn [getDebugInfoForLocals]. rewrite (leads_to_found _ _ HT). cbn [mbind option_bind]. rewrite HF, last_snoc.
    cbn [fmap option_fmap option_map mbind option_bind]. rewrite (dwarf_registers_mapped r Base HB), HP, Z.eqb_refl.
    cbn [negb]. rewrite extract_spec, HM. cbn [mbind option_bind app]. rewrite Hlen, app_nil_r. by destruct Offsets.
  - intros i D V HD HV. rewrite local_vars_lookup in HV. destruct (Offsets !! i) as [o|] eqn:Ho; [|done].
    injection HV as <-. cbn [varNumber startOffset endOffset vlsBaseReg vlsOffset].
    assert (HO : location_offset D = Some o) by by exact (Forall2_lookup_lr _ _ _ i _ _ HFA HD Ho).
    do 4 (split; [done|]). split.
    + unfold location_offset in HO. destruct (DW_AT_location D) as [bs|]; [|by injection HO as <-].
      cbn. destruct (last bs); [by injection HO as <-|done].
    + intros v fuel HDL. destruct (sleb128_last (S fuel) v) as (b & Hb & Hr). exists b. split.
      * unfold location_offset in HO. rewrite HDL, last_cons, Hb in HO. by injection HO as <-.
      * by apply (sleb128_reported fuel).
Qed.

(** Two locals, the second in a nested scope and out of reach of one byte. *)
Lemma locals_are_numbered_witness :
  let x := MkDIE false DW_TAG_formal_parameter (Some (145 :: sleb128 10 8)) None None [] in
  let y := MkDIE false DW_TAG_variable (Some (145 :: sleb128 10 64)) None None [] in
  let D := MkDIE false DW_TAG_subprogram None (Some [87]) (Some 0) [x; MkDIE false (OtherTag 11) None None None [y]] in
  let U := MkDIE false (OtherTag 17) None None None [D] in
  exists Vars V, getDebugInfoForLocals [U] 0 16 = Some [setVars 2 Vars] /\ Vars !! 1%nat = Some V /\
    varNumber V = 1 /\ vlsBaseReg V = REGNUM_RSP /\ exists b, vlsOffset V = Some b /\ b <> 64.
Proof.
  intros x y D U. destruct (locals_are_numbered U D 0 16 [] 7 REGNUM_RSP) as (Vars & HLen & HG & HO).
  - eapply leads_down; [done|reflexivity|]. by apply leads_here.
  - reflexivity.
  - intros E HE. apply list_elem_of_In in HE. cbn in HE. unfold D in HE.
    destruct HE as [<-|[<-|[<-|[<-|[]]]]]; discriminate.
  - reflexivity.
  - reflexivity.
  - change (length (scope_locals D)) with 2%nat in HLen. destruct Vars as [|V0 [|V [|]]]; try discriminate HLen.
    exists [V0; V], V. split; [exact HG|]. split; [reflexivity|].
    destruct (HO 1%nat y V eq_refl eq_refl) as (HN & _ & _ & HR & _ & HV). split; [exact HN|]. split; [exact HR|].
    destruct (HV 64 9%nat eq_refl) as (b & Hb & Hiff). exists b. split; [exact Hb|]. intros Hv. apply Hiff in Hv. lia.
Defined.
