(* ===== verification/JitDriver.v ===== *)
(** * The driver of the JIT (lib/Jit/LLILCJit.cpp, include/Jit/LLILCJit.h)

    [compileMethod] takes a request of the runtime through the reader, LLVM and
    the GC encoder.  The runtime can ask for other methods while the reader works
    on one, so contexts of compilations stack up on the state of the thread.
    What the reader, LLVM and the runtime do is data of the request. *)

From Stdlib Require Import Ascii.
From S2P Require Import Prelude MethodSet JitOptions.
Import JitOptions.JitOptions.

Module JitDriver.

(** ** Requests *)

(** How reading ends. *)
Inductive ReadResult : Set :=
  | NotYetImplemented
  | ReadDone (ContainsUnmanagedCall Verifies : bool).

Record RequestData := MkData {
  NullInput : bool;
  DebugClassName : text;
  DebugMethodName : text;
  OptionsContext : Context;
  CORJIT_FLG_READYTORUN : bool;
  CORJIT_FLG_IMPORT_ONLY : bool;
  TargetFound : bool;
  Reading : ReadResult;
  EntrySymbol : Z;
  HotCodeBlock : Z;
  CodeSize : Z;
  DataSize : Z
}.

(** A request with those that the runtime makes while the method is read. *)
Inductive Request : Type := MkRequest (Data : RequestData) (Nested : list Request).

(** ** State *)

Inductive Resource : Set := TheABIInfo | TheGcInfo | TheTargetMachine.

Inductive CodeGenLevel : Set := OptNone | OptDefault.
Inductive CodeModel : Set := ModelDefault | ModelJITDefault.
Inductive Pass : Set := PlaceSafepoints | RewriteStatepointsForGC.

#[export] Instance Resource_eq_dec : EqDecision Resource.
Proof. solve_decision. Defined.

(** What can be seen from outside, with the method it is for: the reader's view
    of the current context, code generation, calls of the runtime, and the top
    context that a destructor asserts to be its own. *)
Inductive Event : Type :=
  | DumpMSIL (m : text)
  | CreateTargetMachine (m : text) (OptLevel : CodeGenLevel) (Model : CodeModel)
  | ReadMethod (m : text) (Current : option text)
  | SetVerifiable (m : text)
  | RunPasses (m : text) (Passes : list Pass)
  | AddModule (m : text)
  | EmitGCInfo (m : text)
  | RemoveModule (m : text)
  | DestroyContext (m : text) (Top : option text).

(** [JitContext] is [None] before the state of the thread exists, then the chain
    of contexts by [Next], the current one first; [Live] is what was allocated
    and not deleted; the sets of methods belong to the process. *)
Record ThreadState := MkState {
  JitContext : option (list text);
  Live : list (Resource * text);
  Sets : MethodSets;
  Events : list Event
}.

Inductive CorJitResult : Set := CORJIT_OK | CORJIT_INTERNALERROR.

(** [None] where an output was not written. *)
Record Outcome := MkOutcome {
  Result : CorJitResult;
  NativeEntry : option Z;
  NativeSizeOfCode : option Z
}.

Definition log (e : Event) (st : ThreadState) : ThreadState :=
  MkState (JitContext st) (Live st) (Sets st) (Events st ++ [e]).

Definition allocate (r : Resource) (m : text) (st : ThreadState) : ThreadState :=
  MkState (JitContext st) ((r, m) :: Live st) (Sets st) (Events st).

Fixpoint remove_first (x : Resource * text) (l : list (Resource * text)) : list (Resource * text) :=
  match l with
  | [] => []
  | y :: l => if decide (y = x) then l else y :: remove_first x l
  end.

Definition release (r : Resource) (m : text) (st : ThreadState) : ThreadState :=
  MkState (JitContext st) (remove_first (r, m) (Live st)) (Sets st) (Events st).

Definition set_sets (S : MethodSets) (st : ThreadState) : ThreadState :=
  MkState (JitContext st) (Live st) S (Events st).

(** [getLLILCJitContext]. *)
Definition getLLILCJitContext (st : ThreadState) : option text :=
  Contexts ← JitContext st; head Contexts.

(** The state of the thread is made on demand; the constructor and destructor of
    a context. *)
Definition push_context (m : text) (st : ThreadState) : ThreadState :=
  MkState (Some (m :: default [] (JitContext st))) (Live st) (Sets st) (Events st).

Definition pop_context (m : text) (st : ThreadState) : ThreadState :=
  let st := log (DestroyContext m (getLLILCJitContext st)) st in
  MkState (List.tl <$> JitContext st) (Live st) (Sets st) (Events st).

Section driver.
(** The host's strings and LLVM's conversion, as for the options; was this built
    with assertions; the directory of the environment variable BITCODE_PATH and
    the files that parse as bitcode; and what an uninitialised flag holds. *)
Variable getStringConfigValue : ConfigName -> option (list Z).
Variable convertUTF16ToUTF8String : list Z -> text.
Variable Debug : bool.
Variable BITCODE_PATH : option text.
Variable parseIRFile : text -> bool.
Variable indeterminate : bool.

Definition check (b : bool) : option unit := if Debug && negb b then None else Some tt.

(** ** The module *)

Definition ModName (Q : RequestData) : text := DebugClassName Q ++ str "." ++ DebugMethodName Q.

Definition bitcode_file (Path : text) (Q : RequestData) : text :=
  Path ++ str "\" ++ ModName Q ++ str ".bc".

(** Was a module loaded instead of made? *)
Definition getModuleForMethod (Q : RequestData) : bool :=
  match BITCODE_PATH with
  | Some Path => parseIRFile (bitcode_file Path Q)
  | None => false
  end.

(** ** Reading *)

(** Success, with the flag if it is written. *)
Definition readMethod (Q : RequestData) (HasLoadedBitCode : bool) : option (bool * option bool) :=
  if HasLoadedBitCode then Some (true, None)
  else
    match Reading Q with
    | NotYetImplemented => Some (false, None)
    | ReadDone ContainsUnmanagedCall IsOk =>
        _ ← check IsOk;
        Some (IsOk, Some ContainsUnmanagedCall)
    end.

(** ** One request *)

Definition code_gen_level (Opts : Options) (IsNgen IsReadyToRun : bool) : CodeGenLevel :=
  if EnableOptimization Opts || IsNgen || IsReadyToRun then OptDefault else OptNone.

Definition code_model (IsNgen IsReadyToRun : bool) : CodeModel :=
  if IsNgen || IsReadyToRun then ModelDefault else ModelJITDefault.

(** The passes in front of code generation. *)
Definition gc_passes (Opts : Options) (ContainsUnmanagedCall : bool) : option (list Pass) :=
  if ContainsUnmanagedCall || DoInsertStatepoints Opts then
    Some ((if DoInsertStatepoints Opts then [PlaceSafepoints] else []) ++ [RewriteStatepointsForGC])
  else None.

(** Code generation for a method that was read. *)
Definition jit_module (Q : RequestData) (Opts : Options) (ContainsUnmanagedCall : option bool)
    (st : ThreadState) : option (Outcome * ThreadState) :=
  let m := ModName Q in
  let st := match gc_passes Opts (default indeterminate ContainsUnmanagedCall) with
            | Some Passes => log (RunPasses m Passes) st
            | None => st
            end in
  let st := log (AddModule m) st in
  _ ← check (EntrySymbol Q =? HotCodeBlock Q);
  let st := log (RemoveModule m) (log (EmitGCInfo m) st) in
  Some (MkOutcome CORJIT_OK (Some (EntrySymbol Q)) (Some (u32 (CodeSize Q + DataSize Q))), st).

(** From the target machine to its deletion; [true] for a return out of the
    middle, which passes over the deletions. *)
Definition jit_method (Q : RequestData) (Opts : Options)
    (HasLoadedBitCode : bool) (run_nested : ThreadState -> option ThreadState) (st : ThreadState) :
    option (Outcome * bool * ThreadState) :=
  let m := ModName Q in
  let failed := MkOutcome CORJIT_INTERNALERROR (Some 0) (Some 0) in
  if negb (TargetFound Q) then Some (failed, true, st)
  else
    let IsNgen := CORJIT_FLG_PREJIT (OptionsContext Q) in
    let IsReadyToRun := CORJIT_FLG_READYTORUN Q in
    let st := log (CreateTargetMachine m (code_gen_level Opts IsNgen IsReadyToRun)
                     (code_model IsNgen IsReadyToRun)) (allocate TheTargetMachine m st) in
    st ← (if HasLoadedBitCode then Some st else run_nested st);
    let st := if HasLoadedBitCode then st else log (ReadMethod m (getLLILCJitContext st)) st in
    '(HasMethod, ContainsUnmanagedCall) ← readMethod Q HasLoadedBitCode;
    if CORJIT_FLG_IMPORT_ONLY Q then
      Some (MkOutcome CORJIT_OK (Some 0) (Some 0), true, log (SetVerifiable m) st)
    else
      '(Out, st) ← (if (HasMethod : bool) then jit_module Q Opts ContainsUnmanagedCall st else Some (failed, st));
      Some (Out, false, release TheTargetMachine m st).

Fixpoint compileMethod (R : Request) (st : ThreadState) : option (Outcome * ThreadState) :=
  let 'MkRequest Q Nested := R in
  if NullInput Q then Some (MkOutcome CORJIT_INTERNALERROR None None, st)
  else
    let m := ModName Q in
    let st := push_context m st in
    let HasLoadedBitCode := getModuleForMethod Q in
    let st := allocate TheGcInfo m (allocate TheABIInfo m st) in
    match JitOptions getStringConfigValue convertUTF16ToUTF8String Debug (OptionsContext Q) (Sets st) with
    | inr _ => None
    | inl (Opts, Sets') =>
        let st := set_sets Sets' st in
        let st := if IsMSILDumpMethod Opts then log (DumpMSIL m) st else st in
        let run_nested :=
          (fix run (Rs : list Request) (st : ThreadState) : option ThreadState :=
             match Rs with
             | [] => Some st
             | R :: Rs => '(_, st) ← compileMethod R st; run Rs st
             end) Nested in
        '(Out, Early, st) ←
          (if IsAltJit Opts && negb (IsExcludeMethod Opts) then
             jit_method Q Opts HasLoadedBitCode run_nested st
           else Some (MkOutcome CORJIT_INTERNALERROR (Some 0) (Some 0), false, st));
        let st := if (Early : bool) then st else release TheGcInfo m (release TheABIInfo m st) in
        Some (Out, pop_context m st)
    end.

(** The requests that the runtime makes one after the other. *)
Fixpoint compile_all (Rs : list Request) (st : ThreadState) : option ThreadState :=
  match Rs with
  | [] => Some st
  | R :: Rs => '(_, st) ← compileMethod R st; compile_all Rs st
  end.
End driver.
End JitDriver.
