(* ===== verification/JitDriverRules.v ===== *)
(** * Requests of the runtime

    Contexts nest however the runtime calls back, and code is reported just for
    a method that was read, compiled and described to the collector. *)

From Stdlib Require Import Ascii.
From S2P Require Import Prelude MethodSet JitOptions JitDriver.
Import JitOptions.JitOptions JitDriver.

Lemma Request_induction (P : Request -> Prop) :
  (forall Q Nested, Forall P Nested -> P (MkRequest Q Nested)) -> forall R, P R.
Proof.
  intros HP. fix IH 1. intros [Q Nested]. apply HP.
  induction Nested as [|R Rs IHRs]; constructor; [apply IH|exact IHRs].
Qed.

Section rules.
Variable Host : ConfigName -> option (list Z).
Variable utf8 : list Z -> text.
Variable Debug : bool.
Variable BITCODE_PATH : option text.
Variable parseIRFile : text -> bool.
Variable indeterminate : bool.

#[local] Notation compileMethod := (compileMethod Host utf8 Debug BITCODE_PATH parseIRFile indeterminate).
#[local] Notation compile_all := (compile_all Host utf8 Debug BITCODE_PATH parseIRFile indeterminate).
#[local] Notation jit_method := (jit_method Debug indeterminate).
#[local] Notation jit_module := (jit_module Debug indeterminate).
#[local] Notation getModuleForMethod := (getModuleForMethod BITCODE_PATH parseIRFile).

(** A reader sees the context of its own method, and so does a destructor. *)
Definition reads_own (e : Event) : Prop :=
  match e with ReadMethod m c | DestroyContext m c => c = Some m | _ => True end.

(** No request of the tree leaves in the middle. *)
Fixpoint completes (R : Request) : Prop :=
  let 'MkRequest Q Nested := R in
  TargetFound Q = true /\ CORJIT_FLG_IMPORT_ONLY Q = false /\
  (fix all (Rs : list Request) : Prop :=
     match Rs with [] => True | R :: Rs => completes R /\ all Rs end) Nested.

Lemma completes_nested (Q : RequestData) (Nested : list Request) :
  completes (MkRequest Q Nested) <->
  TargetFound Q = true /\ CORJIT_FLG_IMPORT_ONLY Q = false /\ Forall completes Nested.
Proof.
  cbn. split; intros (H1 & H2 & H3); (split; [done|split; [done|]]); revert H3.
  - induction Nested as [|R Rs IH]; [done|]. intros [? ?]. constructor; auto.
  - induction 1; [done|]. by split.
Qed.

(** [st'] comes after [st]: the contexts are the same and the events of readers
    in between are good; [clean] says that nothing stays allocated. *)
Record later (clean : Prop) (st st' : ThreadState) : Prop := {
  later_context : JitContext st' = JitContext st \/ JitContext st' = Some (default [] (JitContext st));
  later_events : exists es, Events st' = Events st ++ es /\ Forall reads_own es;
  later_live : clean -> Live st' = Live st
}.

Lemma later_refl (clean : Prop) (st : ThreadState) : later clean st st.
Proof. split; [by left| |done]. exists []. by rewrite app_nil_r. Qed.

Lemma later_default (clean : Prop) (st st' : ThreadState) :
  later clean st st' -> default [] (JitContext st') = default [] (JitContext st).
Proof. by intros [[->| ->] _ _]. Qed.

Lemma later_trans (clean clean' : Prop) (st1 st2 st3 : ThreadState) :
  later clean st1 st2 -> later clean' st2 st3 -> later (clean /\ clean') st1 st3.
Proof.
  intros [C1 (e1 & E1 & F1) L1] H2. pose proof H2 as [C2 (e2 & E2 & F2) L2]. split.
  - destruct C2 as [-> | ->]; [done|]. right. by destruct C1 as [-> | ->].
  - exists (e1 ++ e2). split; [by rewrite E2, E1, app_assoc|]. by apply Forall_app.
  - intros [H H']. by rewrite L2, L1.
Qed.

Lemma compile_all_later (Rs : list Request) :
  Forall (fun R => forall st Out st', compileMethod R st = Some (Out, st') -> later (completes R) st st') Rs ->
  forall st st', compile_all Rs st = Some st' -> later (Forall completes Rs) st st'.
Proof.
  induction 1 as [|R Rs HR _ IH]; intros st st'; cbn [JitDriver.compile_all].
  { intros [= <-]. apply later_refl. }
  destruct (compileMethod R st) as [[Out st1]|] eqn:H1; [|done]. cbn [mbind option_bind]. intros H2.
  destruct (later_trans _ _ _ _ _ (HR _ _ _ H1) (IH _ _ H2)) as [HC HE HL].
  split; [done|done|]. rewrite Forall_cons. exact HL.
Qed.

(** The inner loop of [compileMethod] is [compile_all]. *)
Lemma compileMethod_unfold (Q : RequestData) (Nested : list Request) (st : ThreadState) :
  compileMethod (MkRequest Q Nested) st =
  if NullInput Q then Some (MkOutcome CORJIT_INTERNALERROR None None, st)
  else
    let m := ModName Q in
    let st := allocate TheGcInfo m (allocate TheABIInfo m (push_context m st)) in
    match JitOptions Host utf8 Debug (OptionsContext Q) (Sets st) with
    | inr _ => None
    | inl (Opts, Sets') =>
        let st := set_sets Sets' st in
        let st := if IsMSILDumpMethod Opts then log (DumpMSIL m) st else st in
        '(Out, Early, st) ←
          (if IsAltJit Opts && negb (IsExcludeMethod Opts) then
             jit_method Q Opts (getModuleForMethod Q) (compile_all Nested) st
           else Some (MkOutcome CORJIT_INTERNALERROR (Some 0) (Some 0), false, st));
        let st := if (Early : bool) then st else release TheGcInfo m (release TheABIInfo m st) in
        Some (Out, pop_context m st)
    end.
Proof. reflexivity. Qed.

(** A list that grew by a resource of the method, which is released again. *)
Lemma remove_first_head (x : Resource * text) (l : list (Resource * text)) : remove_first x (x :: l) = l.
Proof. cbn. by rewrite decide_True. Qed.

(** Events that are of no reader. *)
Lemma later_log (clean : Prop) (st st' : ThreadState) (e : Event) :
  reads_own e -> later clean st st' -> later clean st (log e st').
Proof.
  intros He [HC (es & HE & HF) HL]. split; [done| |done]. exists (es ++ [e]). cbn.
  rewrite HE, app_assoc. split; [done|]. apply Forall_app. by split; [|constructor].
Qed.

Lemma jit_module_later (Q : RequestData) (Opts : Options) (Flag : option bool) (st : ThreadState)
    (Out : Outcome) (st' : ThreadState) :
  jit_module Q Opts Flag st = Some (Out, st') -> later True st st' /\ JitContext st' = JitContext st.
Proof.
  unfold JitDriver.jit_module. intros HE.
  destruct (gc_passes Opts (default indeterminate Flag)); destruct (check Debug _); try done;
    cbn in HE; injection HE as <- <-; (split; [|done]); repeat (apply later_log; [done|]); apply later_refl.
Qed.

(** What a method does between its allocations and their release. *)
Record within (clean : Prop) (r : list (Resource * text)) (st st' : ThreadState) : Prop := {
  within_context : JitContext st' = JitContext st;
  within_events : exists es, Events st' = Events st ++ es /\ Forall reads_own es;
  within_live : clean -> Live st' = r ++ Live st
}.

Lemma within_log (clean : Prop) (r : list (Resource * text)) (st st' : ThreadState) (e : Event) :
  reads_own e -> within clean r st st' -> within clean r st (log e st').
Proof.
  intros He [HC (es & HE & HF) HL]. split; [done| |done]. exists (es ++ [e]). cbn.
  rewrite HE, app_assoc. split; [done|]. apply Forall_app. by split; [|constructor].
Qed.

Lemma jit_method_within (Q : RequestData) (Opts : Options) (Bit : bool) (Nested : list Request)
    (st st' : ThreadState) (Cs : list text) (Out : Outcome) (Early : bool) :
  (forall st1 st2, compile_all Nested st1 = Some st2 -> later (Forall completes Nested) st1 st2) ->
  JitContext st = Some (ModName Q :: Cs) ->
  jit_method Q Opts Bit (compile_all Nested) st = Some (Out, Early, st') ->
  within (completes (MkRequest Q Nested)) [] st st' /\ (completes (MkRequest Q Nested) -> Early = false).
Proof.
  intros HN HC. unfold JitDriver.jit_method.
  destruct (TargetFound Q) eqn:HT; cbn [negb]; cbn zeta.
  2: { intros [= <- <- <-]. split.
       - split; [done|exists []; by rewrite app_nil_r|done].
       - intros (? & _)%completes_nested. congruence. }
  match goal with |- context [log (CreateTargetMachine ?m ?l ?k) ?s] =>
    assert (H1 : within (completes (MkRequest Q Nested)) [(TheTargetMachine, ModName Q)] st (log (CreateTargetMachine m l k) s));
    [apply within_log; [done|]; split; [done|exists []; by rewrite app_nil_r|done]|
     set (st1 := log (CreateTargetMachine m l k) s) in *] end.
  set (step := if Bit then Some st1 else compile_all Nested st1).
  destruct step as [st2|] eqn:Hstep; [|done]. cbn [mbind option_bind].
  assert (H2 : within (completes (MkRequest Q Nested)) [(TheTargetMachine, ModName Q)] st st2 /\
    getLLILCJitContext st2 = Some (ModName Q)).
  { unfold step in Hstep. destruct Bit.
    - injection Hstep as <-. split; [done|]. unfold getLLILCJitContext, st1. cbn. by rewrite HC.
    - apply HN in Hstep as [LC (es & LE & LF) LL]. destruct H1 as [C1 (e1 & E1 & F1) L1].
      assert (HC2 : JitContext st2 = JitContext st).
      { destruct LC as [-> | ->]; [done|]. rewrite C1, HC. done. }
      split; [|unfold getLLILCJitContext; by rewrite HC2, HC]. split; [done| |].
      + exists (e1 ++ es). split; [by rewrite LE, E1, app_assoc|]. by apply Forall_app.
      + intros Hc. rewrite <- (L1 Hc). apply LL. apply completes_nested in Hc. apply Hc. }
  destruct H2 as [H2 Hcur].
  set (st3 := if Bit then st2 else log (ReadMethod (ModName Q) (getLLILCJitContext st2)) st2).
  assert (H3 : within (completes (MkRequest Q Nested)) [(TheTargetMachine, ModName Q)] st st3).
  { unfold st3. destruct Bit; [done|]. apply within_log; [by rewrite Hcur|done]. }
  destruct (readMethod Debug Q Bit) as [[HasMethod Flag]|]; [|done]. cbn [mbind option_bind].
  destruct (CORJIT_FLG_IMPORT_ONLY Q) eqn:HI.
  { intros [= <- <- <-]. split.
    - apply within_log; [done|]. destruct H3 as [A B _]. split; [done|done|].
      intros (_ & ? & _)%completes_nested. congruence.
    - intros (_ & ? & _)%completes_nested. congruence. }
  assert (H4 : forall Out' st4, (if HasMethod then jit_module Q Opts Flag st3
      else Some (MkOutcome CORJIT_INTERNALERROR (Some 0) (Some 0), st3)) = Some (Out', st4) ->
    within (completes (MkRequest Q Nested)) [(TheTargetMachine, ModName Q)] st st4).
  { intros Out' st4. destruct HasMethod; [|intros [= <- <-]; done]. intros HJ.
    destruct (jit_module_later _ _ _ _ _ _ HJ) as [[_ (es & LE & LF) LL] HCx]. destruct H3 as [A (e3 & E3 & F3) B].
    split; [congruence| |intros Hc; rewrite LL by done; by apply B].
    exists (e3 ++ es). split; [by rewrite LE, E3, app_assoc|]. by apply Forall_app. }
  match goal with |- context [mbind _ ?x] => destruct x as [[Out' st4]|] eqn:HJ end; [|done].
  cbn [mbind option_bind]. intros [= <- <- <-]. split; [|done].
  destruct (H4 _ _ eq_refl) as [A B C]. split; [done|done|]. intros Hc. cbn. rewrite (C Hc). cbn [app].
  apply remove_first_head.
Qed.

Lemma compileMethod_later (R : Request) : forall (st : ThreadState) (Out : Outcome) (st' : ThreadState),
  compileMethod R st = Some (Out, st') -> later (completes R) st st'.
Proof.
  induction R as [Q Nested IH] using Request_induction. intros st Out st'.
  rewrite compileMethod_unfold. destruct (NullInput Q); [intros [= <- <-]; apply later_refl|]. cbn zeta.
  match goal with |- context [JitOptions ?a ?b ?c ?d ?e] => destruct (JitOptions a b c d e) as [[Opts Sets']|] end; [|done].
  set (m := ModName Q).
  set (st1 := allocate TheGcInfo m (allocate TheABIInfo m (push_context m st))).
  set (st2 := if IsMSILDumpMethod Opts then log (DumpMSIL m) (set_sets Sets' st1) else set_sets Sets' st1).
  assert (H2 : within True [] st1 st2).
  { unfold st2. destruct (IsMSILDumpMethod Opts); [apply within_log; [done|]|];
      (split; [done|exists []; by rewrite app_nil_r|done]). }
  assert (HC2 : JitContext st2 = Some (m :: default [] (JitContext st))) by (by rewrite (within_context _ _ _ _ H2)).
  match goal with |- context [mbind _ ?x] => destruct x as [[[Out' Early] st3]|] eqn:HE end; [|done].
  cbn [mbind option_bind]. intros [= <- <-].
  assert (H3 : within (completes (MkRequest Q Nested)) [] st2 st3 /\ (completes (MkRequest Q Nested) -> Early = false)).
  { destruct (IsAltJit Opts && negb (IsExcludeMethod Opts)).
    - eapply jit_method_within; [|exact HC2|exact HE]. intros s1 s2. by apply compile_all_later.
    - injection HE as <- <- <-. split; [|done]. split; [done|exists []; by rewrite app_nil_r|done]. }
  destruct H3 as [[A (es & E3 & F3) B] HEarly]. destruct H2 as [_ (e2 & E2 & F2) L2].
  assert (HCx : JitContext st3 = Some (m :: default [] (JitContext st))) by congruence.
  set (st4 := if Early then st3 else release TheGcInfo m (release TheABIInfo m st3)).
  assert (H4 : JitContext st4 = JitContext st3 /\ Events st4 = Events st3) by (unfold st4; by destruct Early).
  destruct H4 as [HC4 HE4]. split.
  - right. cbn. by rewrite HC4, HCx.
  - exists ((e2 ++ es) ++ [DestroyContext m (Some m)]). cbn. unfold getLLILCJitContext. rewrite HE4, E3, E2, HC4, HCx. cbn.
    split; [by rewrite !app_assoc|]. rewrite !Forall_app. split; [by split|]. by repeat constructor.
  - intros Hc. cbn. unfold st4. rewrite (HEarly Hc). cbn. rewrite (B Hc), (L2 I). cbn.
    rewrite (decide_False (P := (TheGcInfo, m) = (TheABIInfo, m))) by done.
    rewrite (decide_True (P := (TheABIInfo, m) = (TheABIInfo, m))) by done. apply remove_first_head.
Qed.
End rules.

Lemma verifiable_last (m : text) (Top : option text) (st : ThreadState) :
  exists es, Events (log (SetVerifiable m) st) ++ [DestroyContext m Top] =
    es ++ [SetVerifiable m; DestroyContext m Top].
Proof. exists (Events st). cbn. by rewrite <- app_assoc. Qed.

Lemma jit_module_outcome (Debug indeterminate : bool) (Q : RequestData) (Opts : Options) (Flag : option bool)
    (st : ThreadState) (Out : Outcome) (st' : ThreadState) (Top : option text) :
  jit_module Debug indeterminate Q Opts Flag st = Some (Out, st') ->
  Out = MkOutcome CORJIT_OK (Some (EntrySymbol Q)) (Some (u32 (CodeSize Q + DataSize Q))) /\
  (Debug = true -> EntrySymbol Q = HotCodeBlock Q) /\
  exists es, Events st' ++ [DestroyContext (ModName Q) Top] =
    es ++ match gc_passes Opts (default indeterminate Flag) with
          | Some Ps => [RunPasses (ModName Q) Ps]
          | None => []
          end ++ [AddModule (ModName Q); EmitGCInfo (ModName Q); RemoveModule (ModName Q); DestroyContext (ModName Q) Top].
Proof.
  unfold jit_module. destruct (check Debug (EntrySymbol Q =? HotCodeBlock Q)) eqn:HC.
  2: { by destruct (gc_passes _ _). }
  intros HE. cbn [mbind option_bind] in HE. injection HE as <- <-. split; [done|]. split.
  - intros ->. unfold check in HC. destruct (EntrySymbol Q =? HotCodeBlock Q) eqn:HEq; [|done]. by apply Z.eqb_eq.
  - exists (Events st). destruct (gc_passes _ _); cbn; by rewrite <- !app_assoc.
Qed.

(** The reader makes a module that LLVM verifies, and what it says of calls. *)
Definition reads_well (Q : RequestData) : bool :=
  match Reading Q with ReadDone _ IsOk => IsOk | NotYetImplemented => false end.

(** C16: However requests nest, each returns with the contexts of the thread as it
    found them, so a reader always sees the context of its own method, also when
    the runtime asked for other methods in between, and a destructor finds its own
    context on top; and what a request allocates
    is deleted, unless one of the requests leaves early, without a target or
    because it was import-only. *)
Theorem requests_nest (Host : ConfigName -> option (list Z)) (utf8 : list Z -> text) (Debug : bool)
    (BITCODE_PATH : option text) (parseIRFile : text -> bool) (indeterminate : bool) (R : Request)
    (st : ThreadState) (Out : Outcome) (st' : ThreadState) :
  compileMethod Host utf8 Debug BITCODE_PATH parseIRFile indeterminate R st = Some (Out, st') ->
  default [] (JitContext st') = default [] (JitContext st) /\
  (exists es, Events st' = Events st ++ es /\
     forall m Current, ReadMethod m Current ∈ es \/ DestroyContext m Current ∈ es -> Current = Some m) /\
  (completes R -> Live st' = Live st).
Proof.
  intros HE. pose proof (compileMethod_later _ _ _ _ _ _ R st Out st' HE) as HL.
  split; [by eapply later_default|]. destruct HL as [_ (es & HEs & HF) HL]. split; [|done].
  exists es. split; [done|]. rewrite Forall_forall in HF. intros m Current [Hin|Hin]; exact (HF _ Hin).
Qed.

(** A request with its pointers set ends in one of three ways.  An import-only
    request for a method of this JIT is answered with success and no code, and the
    method is called verifiable.  A method of this JIT that was read, or loaded as
    bitcode, gets its code: its passes run, the module is compiled, the collector
    is told, the module goes, in this order and behind everything else; the entry
    and the size are reported.  Any other request fails with no code. *)
Theorem compileMethod_outcome (Host : ConfigName -> option (list Z)) (utf8 : list Z -> text) (Debug : bool)
    (BITCODE_PATH : option text) (parseIRFile : text -> bool) (indeterminate : bool) (Q : RequestData)
    (Nested : list Request) (st : ThreadState) (Out : Outcome) (st' : ThreadState) :
  compileMethod Host utf8 Debug BITCODE_PATH parseIRFile indeterminate (MkRequest Q Nested) st = Some (Out, st') ->
  NullInput Q = false ->
  exists Opts Sets' Top, JitOptions Host utf8 Debug (OptionsContext Q) (Sets st) = inl (Opts, Sets') /\
    let m := ModName Q in
    let mine := IsAltJit Opts && negb (IsExcludeMethod Opts) && TargetFound Q in
    let loaded := getModuleForMethod BITCODE_PATH parseIRFile Q in
    let unmanaged := if loaded then indeterminate
                     else match Reading Q with ReadDone u _ => u | NotYetImplemented => indeterminate end in
    if mine && CORJIT_FLG_IMPORT_ONLY Q then
      Out = MkOutcome CORJIT_OK (Some 0) (Some 0) /\ exists es, Events st' = es ++ [SetVerifiable m; DestroyContext m Top]
    else if mine && (loaded || reads_well Q) then
      Out = MkOutcome CORJIT_OK (Some (EntrySymbol Q)) (Some (u32 (CodeSize Q + DataSize Q))) /\
      (Debug = true -> EntrySymbol Q = HotCodeBlock Q) /\
      exists es, Events st' =
        es ++ match gc_passes Opts unmanaged with Some Ps => [RunPasses m Ps] | None => [] end ++
        [AddModule m; EmitGCInfo m; RemoveModule m; DestroyContext m Top]
    else Out = MkOutcome CORJIT_INTERNALERROR (Some 0) (Some 0).
Proof.
  rewrite compileMethod_unfold. intros HE HN. rewrite HN in HE. cbn zeta in HE.
  change (Sets (allocate TheGcInfo (ModName Q) (allocate TheABIInfo (ModName Q) (push_context (ModName Q) st))))
    with (Sets st) in HE.
  destruct (JitOptions Host utf8 Debug (OptionsContext Q) (Sets st)) as [[Opts Sets']|]; [|done].
  exists Opts, Sets'.
  match type of HE with mbind _ ?x = _ => destruct x as [[[Out' Early] st3]|] eqn:HM end; [|done].
  cbn [mbind option_bind] in HE. injection HE as <- <-.
  assert (HEv : exists Top, Events (pop_context (ModName Q) (if Early then st3 else
    release TheGcInfo (ModName Q) (release TheABIInfo (ModName Q) st3))) =
    Events st3 ++ [DestroyContext (ModName Q) Top]) by (destruct Early; by eexists).
  destruct HEv as [Top ->]. exists Top. split; [done|]. cbn zeta.
  destruct (IsAltJit Opts && negb (IsExcludeMethod Opts)); [|injection HM as <- _ _; done].
  unfold jit_method in HM. destruct (TargetFound Q); cbn [negb andb] in *; [|injection HM as <- _ _; done].
  cbn zeta in HM.
  match type of HM with context [mbind _ ?x = _] => destruct x as [st4|] end; [|done].
  cbn [mbind option_bind] in HM. unfold readMethod, reads_well in *.
  destruct (getModuleForMethod BITCODE_PATH parseIRFile Q); cbn [mbind option_bind orb] in *.
  - destruct (CORJIT_FLG_IMPORT_ONLY Q); [injection HM as <- _ <-; split; [done|by apply verifiable_last]|].
    destruct (jit_module Debug indeterminate Q Opts None st4) as [[O' st5]|] eqn:HJ; [|done].
    cbn in HM. injection HM as <- _ <-. exact (jit_module_outcome _ _ _ _ _ _ _ _ Top HJ).
  - destruct (Reading Q) as [|u ok]; cbn [mbind option_bind] in HM.
    + destruct (CORJIT_FLG_IMPORT_ONLY Q); injection HM as <- _ <-; [split; [done|by apply verifiable_last]|done].
    + destruct (check Debug ok); [|done]. cbn [mbind option_bind] in HM.
      destruct (CORJIT_FLG_IMPORT_ONLY Q); [injection HM as <- _ <-; split; [done|by apply verifiable_last]|].
      destruct ok; [|by injection HM as <- _ _].
      match type of HM with context [jit_module ?a ?b ?c ?d ?e ?f] =>
        destruct (jit_module a b c d e f) as [[O' st5]|] eqn:HJ end; [|done].
      cbn in HM. injection HM as <- _ <-. exact (jit_module_outcome _ _ _ _ _ _ _ _ Top HJ).
Qed.

(** A host that selects every method and the conservative collector. *)
Definition demo_host (n : ConfigName) : option (list Z) :=
  match n with AltJit | gcConservative => Some [42] | _ => None end.

Definition demo_utf8 (l : list Z) : text := (fun z => ascii_of_N (Z.to_N z)) <$> l.

Definition demo_data (Name : String.string) (u : bool) : RequestData :=
  MkData false (str "C") (str Name) (MkContext false false (str Name) (str "C") None) false false true
    (ReadDone u true) 4096 4096 32 8.

Definition demo_request : Request :=
  MkRequest (demo_data "Main" true) [MkRequest (demo_data "cctor" false) []].

Definition demo_state : ThreadState := MkState None [] (fun _ => None) [].

Definition demo_run : option (Outcome * ThreadState) :=
  compileMethod demo_host demo_utf8 false None (fun _ => false) true demo_request demo_state.

Lemma requests_nest_witness :
  exists Out st', demo_run = Some (Out, st') /\ default [] (JitContext st') = [] /\ Live st' = [] /\
    Out = MkOutcome CORJIT_OK (Some 4096) (Some 40).
Proof.
  destruct demo_run as [[Out st']|] eqn:HE; [|vm_compute in HE; discriminate HE].
  exists Out, st'. split; [reflexivity|].
  destruct (requests_nest demo_host demo_utf8 false None (fun _ => false) true demo_request demo_state Out st' HE)
    as (HC & _ & HL).
  split; [exact HC|]. split; [apply HL; vm_compute; tauto|]. vm_compute in HE. injection HE as <- _. reflexivity.
Defined.

Lemma compileMethod_outcome_witness :
  exists Out st' Top, demo_run = Some (Out, st') /\
    exists es, Events st' = es ++ [RunPasses (str "C.Main") [RewriteStatepointsForGC]] ++
      [AddModule (str "C.Main"); EmitGCInfo (str "C.Main"); RemoveModule (str "C.Main");
       DestroyContext (str "C.Main") Top].
Proof.
  destruct demo_run as [[Out st']|] eqn:HE; [|vm_compute in HE; discriminate HE].
  destruct (compileMethod_outcome demo_host demo_utf8 false None (fun _ => false) true (demo_data "Main" true)
    [MkRequest (demo_data "cctor" false) []] demo_state Out st' HE) as (Opts & Sets' & Top & HO & HR); [reflexivity|].
  exists Out, st', Top. split; [reflexivity|]. clear HE. injection HO as HOpts _. rewrite <- HOpts in HR. destruct HR as (_ & _ & es & HEv).
  exists es. exact HEv.
Defined.
