(* ===== verification/FinallyClone.v ===== *)
(** * Cloning finallies (lib/Reader/readerir.cpp)

    A finally is entered by exceptions through its cleanuppad and by leaves
    directly.  At the end of reading, [cloneFinallyBodies] copies the body of each
    finally for the leaves, inner finallies first, so that a cleanuppad dominates
    what uses it.  Of LLVM's blocks the model keeps the instructions with their
    operands and bundles; an instruction is known by its number, a block by
    another, and the numbers of copies come from the allocator. *)

From S2P Require Import Prelude Regions.

Module FinallyClone.

(** ** Which finallies, in which order *)

(** The walk down the region tree; the end of a vector is the head of a list. *)
Fixpoint find_finallies (fuel : nat) (s : arena) (Worklist FinallyRegions : list nat) :
    option (list nat) :=
  match Worklist, fuel with
  | [], _ => Some FinallyRegions
  | _, O => None
  | Region :: Worklist, S fuel =>
      R ← s !! Region;
      let FinallyRegions :=
        if is_kind RGN_Finally R then Region :: FinallyRegions else FinallyRegions in
      find_finallies fuel s (reverse (Children R) ++ Worklist) FinallyRegions
  end.

(** The order in which the bodies are cloned. *)
Definition finallies_to_clone (s : arena) (EhRegionTree : option nat) : option (list nat) :=
  match EhRegionTree with
  | None => Some []
  | Some Root => find_finallies (length s) s [Root] []
  end.

(** ** Instructions *)

Inductive Value : Set :=
  | BlockValue (Block : nat)
  | InstValue (Inst : nat)
  | TokenNone
  | OtherValue (V : nat).

#[export] Instance Value_eq_dec : EqDecision Value.
Proof. solve_decision. Defined.

Inductive InstKind : Set :=
  | CatchSwitchInst | CatchPadInst | CleanupPadInst | CleanupReturnInst | SwitchInst | BranchInst
  | UnreachableInst | CallInst | InvokeInst | PHINode | OtherInst (n : nat).

#[export] Instance InstKind_eq_dec : EqDecision InstKind.
Proof. solve_decision. Defined.

(** The parent of a pad is its first operand; a switch has its condition, its
    default and its cases. *)
Record Instruction := MkInst {
  Number : nat;
  InstOf : InstKind;
  Operands : list Value;
  FuncletBundles : list Value;
  OtherBundles : list Value
}.

(** The blocks of the function, and those the reader took up. *)
Record Function := MkFunction { Blocks : gmap nat (list Instruction); Visited : gset nat }.

Definition block_of (v : Value) : option nat :=
  match v with BlockValue b => Some b | _ => None end.

(** [successors]: the blocks that the terminator mentions. *)
Definition successors (F : Function) (Block : nat) : list nat :=
  match Blocks F !! Block with
  | Some Is => match last Is with Some T => omap block_of (Operands T) | None => [] end
  | None => []
  end.

Definition getFirstNonPHI (F : Function) (Block : nat) : option Instruction :=
  Is ← Blocks F !! Block;
  List.find (fun Inst => negb (bool_decide (InstOf Inst = PHINode))) Is.

Definition is_pad (k : InstKind) : bool :=
  match k with CatchSwitchInst | CatchPadInst | CleanupPadInst => true | _ => false end.

Definition isEHPad (F : Function) (Block : nat) : bool :=
  match getFirstNonPHI F Block with Some Inst => is_pad (InstOf Inst) | None => false end.

Definition find_inst (F : Function) (n : nat) : option Instruction :=
  List.find (fun Inst => bool_decide (Number Inst = n)) (map_to_list (Blocks F) ≫= snd).

Definition getParentPad (Inst : Instruction) : option Value := head (Operands Inst).

Section clone.
(** The finally's pad, with its block, and the switch at its end, with its block. *)
Variable Cleanup : Instruction.
Variable PadBlock : nat.
Variable ExitSwitch : Instruction.
Variable ExitSwitchBlock : nat.

(** *** The blocks of the finally *)

(** Is a pad inside of the finally's, by parents? *)
Fixpoint found_ancestry (fuel : nat) (F : Function) (Pad : Value) : option bool :=
  match Pad, fuel with
  | TokenNone, _ => Some false
  | _, O => None
  | InstValue n, S fuel =>
      if bool_decide (n = Number Cleanup) then Some true
      else Inst ← find_inst F n; P ← getParentPad Inst; found_ancestry fuel F P
  | _, S _ => None
  end.

(** Is a successor passed over, as an edge that leaves the funclet? *)
Definition exits_funclet (fuel : nat) (F : Function) (Succ : nat) : option bool :=
  if isEHPad F Succ then
    Inst ← getFirstNonPHI F Succ;
    Found ← found_ancestry fuel F (InstValue (Number Inst));
    Some (negb Found)
  else Some false.

Fixpoint visit_successors (fuel : nat) (F : Function) (Succs Worklist FinallyBlocks : list nat) :
    option (list nat * list nat) :=
  match Succs with
  | [] => Some (Worklist, FinallyBlocks)
  | Succ :: Succs =>
      Exits ← exits_funclet fuel F Succ;
      if (Exits : bool) then visit_successors fuel F Succs Worklist FinallyBlocks
      else if bool_decide (Succ ∈ FinallyBlocks) then visit_successors fuel F Succs Worklist FinallyBlocks
      else
        visit_successors fuel F Succs
          (if bool_decide (Succ = ExitSwitchBlock) then Worklist else Succ :: Worklist)
          (FinallyBlocks ++ [Succ])
  end.

Fixpoint find_blocks (pads fuel : nat) (F : Function) (Worklist FinallyBlocks : list nat) :
    option (list nat) :=
  match Worklist, fuel with
  | [], _ => Some FinallyBlocks
  | _, O => None
  | Block :: Worklist, S fuel =>
      '(Worklist, FinallyBlocks) ← visit_successors pads F (successors F Block) Worklist FinallyBlocks;
      find_blocks pads fuel F Worklist FinallyBlocks
  end.

(** *** The copies *)

(** The numbers of the copies of blocks and of instructions. *)
Variable clone_block : nat -> nat.
Variable clone_inst : nat -> nat.

(** The value map: blocks and instructions of the finally have copies, the
    cleanupret's block is replaced by the default of the switch, the pad by its
    parent. *)
Definition ValueMap (Insts Blocks_ : list nat) (CleanupRetBlock Default : nat) (ParentPad v : Value) : Value :=
  match v with
  | BlockValue b =>
      if bool_decide (b = CleanupRetBlock) then BlockValue Default
      else if bool_decide (b ∈ Blocks_) then BlockValue (clone_block b) else v
  | InstValue n =>
      if bool_decide (n = Number Cleanup) then ParentPad
      else if bool_decide (n ∈ Insts) then InstValue (clone_inst n) else v
  | _ => v
  end.

(** [RemapInstruction] of a copy; bundles that name the function as a funclet are
    taken off calls. *)
Definition clone_instruction (Map : Value -> Value) (Inst : Instruction) : Instruction :=
  MkInst (clone_inst (Number Inst)) (InstOf Inst) (Map <$> Operands Inst)
    (List.filter (fun v => negb (bool_decide (v = TokenNone))) (Map <$> FuncletBundles Inst))
    (Map <$> OtherBundles Inst).

Definition clone_code (Map : Value -> Value) (Is : list Instruction) : list Instruction :=
  List.map (clone_instruction Map) Is.

(** The copies of blocks are added to the function. *)
Definition add_clones (Map : Value -> Value) (FinallyBlocks : list nat) (F : Function) : Function :=
  foldr (fun Original F' =>
           MkFunction
             (match Blocks F !! Original with
              | Some Is => <[clone_block Original := clone_code Map Is]> (Blocks F')
              | None => Blocks F'
              end)
             (if decide (Original ∈ Visited F) then {[clone_block Original]} ∪ Visited F' else Visited F'))
    F FinallyBlocks.

(** *** The entries *)

(** Uses of the head of the body are turned to its copy, outside of the finally. *)
Definition retarget (HeadBlock NewHead : nat) (v : Value) : Value :=
  if bool_decide (v = BlockValue HeadBlock) then BlockValue NewHead else v.

Definition map_operands (f : Value -> Value) (Inst : Instruction) : Instruction :=
  MkInst (Number Inst) (InstOf Inst) (f <$> Operands Inst) (FuncletBundles Inst) (OtherBundles Inst).

Definition update_entries (HeadBlock NewHead : nat) (FinallyBlocks : list nat) (F : Function) : Function :=
  MkFunction
    (map_imap (fun UseBlock Is =>
       Some (if bool_decide (UseBlock = PadBlock) || bool_decide (UseBlock ∈ FinallyBlocks) then Is
             else List.map (map_operands (retarget HeadBlock NewHead)) Is)) (Blocks F))
    (Visited F).

(** The exit switch becomes a branch to the cleanupret. *)
Definition replace_switch (NewBranch CleanupRetBlock : nat) (F : Function) : Function :=
  MkFunction
    (alter (List.map (fun Inst =>
                        if bool_decide (Number Inst = Number ExitSwitch)
                        then MkInst NewBranch BranchInst [BlockValue CleanupRetBlock] [] []
                        else Inst)) ExitSwitchBlock (Blocks F))
    (Visited F).

(** *** The whole *)

(** The block of the one cleanupret of the pad. *)
Definition cleanup_ret_blocks (F : Function) : list nat :=
  omap (fun '(b, Is) =>
          if existsb (fun Inst => bool_decide (InstOf Inst = CleanupReturnInst) &&
                               bool_decide (InstValue (Number Cleanup) ∈ Operands Inst)) Is
          then Some b else None) (map_to_list (Blocks F)).

Definition predecessors (F : Function) (Block : nat) : list nat :=
  omap (fun '(b, _) => if bool_decide (Block ∈ successors F b) then Some b else None)
    (map_to_list (Blocks F)).

Definition getDefaultDest : option nat := v ← Operands ExitSwitch !! 1%nat; block_of v.

Definition cloneFinallyBody (pads : nat) (NewBranch : nat) (F : Function) : option Function :=
  CleanupRetBlock ←
    match cleanup_ret_blocks F with [b] => Some b | _ => None end;
  _ ← match predecessors F CleanupRetBlock with
      | [b] => if bool_decide (b = ExitSwitchBlock) then Some tt else None
      | _ => None
      end;
  FinallyBlocks ← find_blocks pads (S (size (Blocks F))) F [PadBlock] [];
  Default ← getDefaultDest;
  U ← getFirstNonPHI F Default;
  _ ← (if bool_decide (InstOf U = UnreachableInst) then Some tt else None);
  ParentPad ← getParentPad Cleanup;
  HeadBlock ← match successors F PadBlock with [b] => Some b | _ => None end;
  let Insts := FinallyBlocks ≫= fun b => Number <$> default [] (Blocks F !! b) in
  let Map := ValueMap Insts FinallyBlocks CleanupRetBlock Default ParentPad in
  let NewHead := clone_block HeadBlock in
  let F := add_clones Map FinallyBlocks F in
  let F := update_entries HeadBlock NewHead FinallyBlocks F in
  Some (replace_switch NewBranch CleanupRetBlock F).
End clone.

(** ** All finallies *)

(** The pad and the switch of a finally's region, with their blocks. *)
Record FinallyParts := MkParts {
  PartPad : Instruction;
  PartPadBlock : nat;
  PartSwitch : Instruction;
  PartSwitchBlock : nat
}.

(** The numbers that are free for the copies of a body. *)
Record Numbering := MkNumbering {
  new_block : nat -> nat;
  new_inst : nat -> nat;
  new_branch : nat
}.

Section all.
Variable CleanupPad_and_Switch : nat -> option FinallyParts.
Variable free : Function -> Numbering.
Variable pads : nat.

Fixpoint clone_each (FinallyRegions : list nat) (F : Function) : option Function :=
  match FinallyRegions with
  | [] => Some F
  | Finally :: FinallyRegions =>
      P ← CleanupPad_and_Switch Finally;
      let N := free F in
      F ← cloneFinallyBody (PartPad P) (PartPadBlock P) (PartSwitch P) (PartSwitchBlock P)
            (new_block N) (new_inst N) pads (new_branch N) F;
      clone_each FinallyRegions F
  end.

(** A call of FAIL_FAST behind the pad of each handler that must not run. *)
Fixpoint insert_behind (First : nat) (Call : Instruction) (Is : list Instruction) : list Instruction :=
  match Is with
  | [] => []
  | Inst :: Is =>
      if bool_decide (Number Inst = First) then Inst :: Call :: Is else Inst :: insert_behind First Call Is
  end.

Definition fail_fast (canExecuteHandler : bool) (Call : nat -> Instruction) (F : Function) : Function :=
  MkFunction
    (map_imap (fun BB Is =>
       Some (match List.find (fun Inst => negb (bool_decide (InstOf Inst = PHINode))) Is with
             | Some First =>
                 if bool_decide (InstOf First = CatchPadInst) || bool_decide (InstOf First = CleanupPadInst)
                 then if canExecuteHandler then Is else insert_behind (Number First) (Call BB) Is
                 else Is
             | None => Is
             end)) (Blocks F))
    (Visited F).

Definition cloneFinallyBodies (s : arena) (EhRegionTree : option nat) (canExecuteHandler : bool)
    (Call : nat -> Instruction) (F : Function) : option Function :=
  match EhRegionTree with
  | None => Some F
  | Some _ =>
      FinallyRegions ← finallies_to_clone s EhRegionTree;
      F ← clone_each FinallyRegions F;
      Some (fail_fast canExecuteHandler Call F)
  end.
End all.
End FinallyClone.
