(* ===== verification/FinallyCloneRules.v ===== *)
(** * What cloning a finally does

    Each finally of the region tree is cloned once, inner ones first.  Behind the
    cloning of one, its pad dominates whatever uses it, and the leaves run the
    copy as they ran the original. *)

From S2P Require Import Prelude Regions RegionTree RegionWalk FinallyClone.
Import FinallyClone.

(** ** The order of cloning *)

(** A split of what a filter keeps is one of the list. *)
Lemma split_filter {A} (f : A -> bool) (V l1 : list A) (x : A) (l2 : list A) :
  List.filter f V = l1 ++ x :: l2 ->
  exists V1 V2, V = V1 ++ x :: V2 /\ List.filter f V1 = l1 /\ List.filter f V2 = l2.
Proof.
  revert l1. induction V as [|v V IH]; intros l1; cbn [List.filter]; [by destruct l1|].
  destruct (f v) eqn:Hf.
  - destruct l1 as [|y l1]; cbn; intros [= -> HE].
    + exists [], V. done.
    + destruct (IH l1 HE) as (V1 & V2 & -> & H1 & H2). exists (y :: V1), V2. cbn. by rewrite Hf, H1.
  - intros HE. destruct (IH l1 HE) as (V1 & V2 & -> & H1 & H2). exists (v :: V1), V2. cbn. by rewrite Hf, H1.
Qed.

Section order.
Variable s : arena.
Hypothesis Hs : arena_ok s.
Hypothesis distinct : forall r R, s !! r = Some R -> NoDup (Children R).

Definition is_finally (r : nat) : bool :=
  match s !! r with Some R => is_kind RGN_Finally R | None => false end.

Definition finallies (V : list nat) : list nat := List.filter is_finally V.

(** The regions [V] were taken off the list [W], the last one first. *)
Record walked (W V : list nat) : Prop := {
  wk_nodup : NoDup (W ++ V);
  wk_valid : forall r, r ∈ W ++ V -> is_Some (s !! r);
  wk_parent : forall r R p, r ∈ W -> s !! r = Some R -> Parent R = Some p -> p ∈ V;
  wk_children : forall v R c, v ∈ V -> s !! v = Some R -> c ∈ Children R -> c ∈ W ++ V;
  wk_order : forall V1 v V2 R p, V = V1 ++ v :: V2 -> s !! v = Some R -> Parent R = Some p -> p ∈ V2
}.

Lemma walked_bound (W V : list nat) : walked W V -> (length W + length V <= length s)%nat.
Proof.
  intros HW. rewrite <- length_app. transitivity (length (seq 0 (length s))); [|by rewrite length_seq].
  apply submseteq_length, NoDup_submseteq; [apply HW|]. intros r Hr.
  destruct (wk_valid _ _ HW r Hr) as [R HR]. apply elem_of_seq. apply lookup_lt_Some in HR. lia.
Qed.

Lemma walked_step (r : nat) (R : EHRegion) (W V : list nat) :
  s !! r = Some R -> walked (r :: W) V -> walked (reverse (Children R) ++ W) (r :: V).
Proof.
  intros HR [HND HV HP HC HO].
  assert (Hchild : forall c, c ∈ Children R -> exists C, s !! c = Some C /\ Parent C = Some r /\ (r < c)%nat).
  { intros c Hc. apply (ro_children _ _ _ (ao_region _ Hs r R HR) c Hc). }
  apply NoDup_cons in HND as [Hrn HND].
  assert (HrV : r ∉ V) by (intros Hin; apply Hrn, elem_of_app; by right).
  assert (Hnew : forall c, c ∈ Children R -> c ∉ W ++ V).
  { intros c Hc Hin. destruct (Hchild c Hc) as (C & HCc & HPc & _). apply elem_of_app in Hin as [Hin|Hin].
    - apply HrV. eapply HP; [by right|done|done].
    - apply list_elem_of_split in Hin as (V1 & V2 & ->). apply HrV. apply elem_of_app. right. right.
      by eapply HO. }
  split.
  - rewrite <- app_assoc. apply NoDup_app. split; [rewrite reverse_Permutation; by apply (distinct r)|]. split.
    + intros c Hc. rewrite elem_of_reverse in Hc. rewrite elem_of_app, elem_of_cons.
      destruct (Hchild c Hc) as (_ & _ & _ & Hlt). pose proof (Hnew c Hc) as Hn. rewrite elem_of_app in Hn.
      intros [?|[->|?]]; [tauto|lia|tauto].
    + apply NoDup_app in HND as (H1 & H2 & H3). apply NoDup_app. split; [done|]. split.
      * intros x Hx [->|HxV]%elem_of_cons; [|by eapply H2]. apply Hrn, elem_of_app. by left.
      * by constructor.
  - intros x. rewrite !elem_of_app, elem_of_reverse, elem_of_cons. intros [[Hx|Hx]|[->|Hx]].
    + destruct (Hchild x Hx) as (C & HCx & _). by exists C.
    + apply HV. right. apply elem_of_app. by left.
    + by exists R.
    + apply HV. right. apply elem_of_app. by right.
  - intros x X p. rewrite elem_of_app, elem_of_reverse. intros [Hx|Hx] HX HPx.
    + destruct (Hchild x Hx) as (C & HCx & HPC & _). replace p with r by congruence. by left.
    + right. by eapply HP; [right| |].
  - intros v X c [->|Hv]%elem_of_cons HX Hc.
    + replace X with R in * by congruence. rewrite !elem_of_app, elem_of_reverse. tauto.
    + pose proof (HC v X c Hv HX Hc) as Hin. rewrite !elem_of_app, elem_of_reverse, !elem_of_cons.
      rewrite elem_of_app, elem_of_cons in Hin. tauto.
  - intros [|v1 V1] v V2 X p [= -> ->] HX HPx.
    + replace X with R in * by congruence. eapply HP; [by left|done|done].
    + by eapply HO.
Qed.

Lemma find_finallies_spec (fuel : nat) : forall W V, walked W V -> (length s <= fuel + length V)%nat ->
  exists V', find_finallies fuel s W (finallies V) = Some (finallies V') /\ walked [] V' /\ W ++ V ⊆ V'.
Proof.
  induction fuel as [|fuel IH]; intros [|r W] V HW Hf.
  - by exists V.
  - pose proof (walked_bound _ _ HW) as Hb. cbn [length] in Hb. lia.
  - by exists V.
  - destruct (wk_valid _ _ HW r) as [R HR]; [by left|]. cbn [find_finallies]. rewrite HR. cbn [mbind option_bind].
    destruct (IH (reverse (Children R) ++ W) (r :: V)) as (V' & HF & HW' & Hsub);
      [by apply walked_step|cbn [length]; lia|].
    exists V'. split; [|split; [done|]].
    2: { intros x Hx. apply Hsub. rewrite !elem_of_app, !elem_of_cons in *. tauto. }
    rewrite <- HF. f_equal.
    unfold finallies. cbn [List.filter]. unfold is_finally. rewrite HR. done.
Qed.

Lemma walked_start : walked [0%nat] [].
Proof.
  destruct (ao_root _ Hs) as (R0 & H0 & _ & HN). split.
  - repeat constructor. by intros ?%not_elem_of_nil.
  - intros r ->%list_elem_of_singleton. by exists R0.
  - intros r R p ->%list_elem_of_singleton HR HP. congruence.
  - by intros v R c ?%not_elem_of_nil.
  - intros V1 v V2 R p HE. by destruct V1.
Qed.

(** All regions are walked. *)
Lemma walked_all (V : list nat) : walked [] V -> 0%nat ∈ V -> forall n r, (r < n)%nat -> is_Some (s !! r) -> r ∈ V.
Proof.
  intros HW H0. induction n as [|n IH]; intros r Hlt [R HR]; [lia|].
  destruct (decide (r = 0%nat)) as [->|Hr]; [done|].
  destruct (ro_parent _ _ _ (ao_region _ Hs r R HR) Hr) as (_ & p & P & HP & Hp & HPs & Hin & _).
  apply (wk_children _ _ HW p P r); [|done|done]. apply IH; [lia|by exists P].
Qed.

Lemma walked_ancestor (V V1 V2 : list nat) (f g : nat) : walked [] V -> V = V1 ++ f :: V2 ->
  ancestor s g f -> g <> f -> g ∈ V2.
Proof.
  intros HW HE HA. revert V1 V2 HE. induction HA as [r R HR|r R p a HR HP HA IH]; intros V1 V2 HE Hne; [done|].
  assert (Hp : p ∈ V2) by (by eapply (wk_order _ _ HW)).
  destruct (decide (a = p)) as [->|Hap]; [done|]. apply list_elem_of_split in Hp as (W1 & W2 & ->).
  apply elem_of_app. right. right. apply (IH (V1 ++ r :: W1) W2); [|done].
  rewrite HE, <- app_assoc. done.
Qed.
End order.

(** C9: Cloning meets every finally of the region tree just once, and a finally
    that lies within the body of another one comes first. *)
Theorem finallies_cloned_inside_out (s : arena) :
  arena_ok s -> (forall r R, s !! r = Some R -> NoDup (Children R)) ->
  exists l, finallies_to_clone s (Some 0%nat) = Some l /\ NoDup l /\
    (forall r, r ∈ l <-> exists R, s !! r = Some R /\ Kind R = RGN_Finally) /\
    (forall l1 f l2 g, l = l1 ++ f :: l2 -> ancestor s g f -> g ∉ l1).
Proof.
  intros Hs Hd.
  destruct (find_finallies_spec s Hs Hd (length s) [0%nat] [] (walked_start s Hs)) as (V & HF & HW & Hsub); [cbn; lia|].
  assert (Hmem : forall r, r ∈ finallies s V <-> r ∈ V /\ is_finally s r = true).
  { intros r. unfold finallies. by rewrite !list_elem_of_In, filter_In. }
  assert (HND : NoDup (finallies s V)).
  { pose proof (wk_nodup _ _ _ HW) as HN. cbn in HN. unfold finallies. clear -HN.
    apply NoDup_ListNoDup, List.NoDup_filter, NoDup_ListNoDup, HN. }
  exists (finallies s V). split; [exact HF|]. split; [done|]. split.
  - intros r. rewrite Hmem. unfold is_finally. split.
    + intros [_ Hk]. destruct (s !! r) as [R|]; [|done]. exists R. split; [done|]. by apply bool_decide_eq_true in Hk.
    + intros (R & HR & HK). rewrite HR. split; [|by apply bool_decide_eq_true_2].
      apply (walked_all s Hs V HW ltac:(apply Hsub; by left) (S r)); [lia|by exists R].
  - intros l1 f l2 g HE HA Hg.
    assert (Hgl : g ∈ finallies s V) by (rewrite HE; apply elem_of_app; by left).
    assert (Hgf : g <> f).
    { intros ->. rewrite HE in HND. apply NoDup_app in HND as (_ & H2 & _). apply (H2 f Hg). by left. }
    destruct (split_filter (is_finally s) V l1 f l2 HE) as (V1 & V2 & HV & HV1 & HV2).
    pose proof (walked_ancestor s V V1 V2 f g HW HV HA Hgf) as Hg2.
    assert (Hg1 : g ∈ V1).
    { rewrite <- HV1 in Hg. unfold finallies in Hg. rewrite list_elem_of_In, filter_In in Hg. apply list_elem_of_In, Hg. }
    pose proof (wk_nodup _ _ _ HW) as HN. cbn in HN. rewrite HV in HN. apply NoDup_app in HN as (_ & H2 & _).
    apply (H2 g Hg1). by right.
Qed.

(** A finally in a finally. *)
Definition nested_finallies : arena :=
  [Rgn None [1%nat] 0 40 UZero RGN_Root;
   Rgn (Some 0%nat) [2%nat] 0 10 (UEntryRegion 1) RGN_Try;
   Rgn (Some 1%nat) [3%nat] 10 30 UZero RGN_Finally;
   Rgn (Some 2%nat) [4%nat] 12 18 (UEntryRegion 3) RGN_Try;
   Rgn (Some 3%nat) [] 18 24 UZero RGN_Finally].

Lemma nested_finallies_ok : arena_ok nested_finallies.
Proof.
  split; [by eexists|]. intros i R HR.
  destruct i as [|[|[|[|[|i]]]]]; simpl in HR; simplify_eq; split; simpl; try (intros; done).
  all: try (intros c Hc; by apply elem_of_nil in Hc).
  all: try (intros c ->%list_elem_of_singleton; eexists; split_and!; [done|done|lia]).
  all: try (intros _; eexists; split; [done|by left]).
  all: intros _; split; [done|]; do 2 eexists; split_and!; [done|lia|done|repeat constructor|done].
Qed.

Lemma finallies_cloned_inside_out_witness :
  exists l, finallies_to_clone nested_finallies (Some 0%nat) = Some l /\ l = [4%nat; 2%nat] /\ NoDup l.
Proof.
  destruct (finallies_cloned_inside_out nested_finallies nested_finallies_ok) as (l & Hl & HN & _).
  - intros r R HR. destruct r as [|[|[|[|[|r]]]]]; cbn in HR; simplify_eq; cbn; repeat constructor;
      by intros ?%not_elem_of_nil.
  - exists l. split; [exact Hl|]. split; [|exact HN]. vm_compute in Hl. injection Hl as <-. reflexivity.
Defined.
