(* ===== verification/FinallyBodyRules.v ===== *)
(** * The copy of the body of a finally

    [cloneFinallyBody] finds just the blocks of a finally, and behind it the pad
    of the finally dominates its uses while leaves run a faithful copy. *)

From S2P Require Import Prelude Regions FinallyClone.
Import FinallyClone.

Section body.
Variable Cleanup ExitSwitch : Instruction.
Variable PadBlock ExitSwitchBlock : nat.
Variable clone_block clone_inst : nat -> nat.
Variable pads : nat.
Variable F : Function.

(** ** The blocks of the finally *)

(** A block that is no pad, or a pad inside of the finally's. *)
Definition stays (b : nat) : Prop := exits_funclet Cleanup pads F b = Some false.

(** The blocks on the way from the pad to the switch. *)
Inductive inside : nat -> Prop :=
  | inside_head b : b ∈ successors F PadBlock -> stays b -> inside b
  | inside_next b c : inside b -> b <> ExitSwitchBlock -> c ∈ successors F b -> stays c -> inside c.

(** The results of the instructions in these blocks. *)
Definition defined_inside (n : nat) : Prop :=
  exists b Is Inst, inside b /\ Blocks F !! b = Some Is /\ Inst ∈ Is /\ Number Inst = n.

(** What a value of the body becomes in the copy, when [Ret] is the block of the
    cleanupret and [Default] the default of the switch: the pad becomes the pad
    around it, results and blocks of the finally become their copies, the
    cleanupret's block the default, and everything else stays. *)
Inductive renames (Ret Default : nat) : Value -> Value -> Prop :=
  | renames_pad P : head (Operands Cleanup) = Some P ->
      renames Ret Default (InstValue (Number Cleanup)) P
  | renames_result n : n <> Number Cleanup -> defined_inside n ->
      renames Ret Default (InstValue n) (InstValue (clone_inst n))
  | renames_outer n : n <> Number Cleanup -> ~ defined_inside n ->
      renames Ret Default (InstValue n) (InstValue n)
  | renames_ret : renames Ret Default (BlockValue Ret) (BlockValue Default)
  | renames_block b : b <> Ret -> inside b ->
      renames Ret Default (BlockValue b) (BlockValue (clone_block b))
  | renames_around b : b <> Ret -> ~ inside b -> renames Ret Default (BlockValue b) (BlockValue b)
  | renames_none : renames Ret Default TokenNone TokenNone
  | renames_other v : renames Ret Default (OtherValue v) (OtherValue v).

(** The copy of an instruction; a bundle that names the function itself as a
    funclet is left out. *)
Record copy_of (Ret Default : nat) (Inst Copy : Instruction) : Prop := {
  copy_number : Number Copy = clone_inst (Number Inst);
  copy_kind : InstOf Copy = InstOf Inst;
  copy_operands : Forall2 (renames Ret Default) (Operands Inst) (Operands Copy);
  copy_funclets : exists vs, Forall2 (renames Ret Default) (FuncletBundles Inst) vs /\
    FuncletBundles Copy = filter (fun v => v <> TokenNone) vs;
  copy_bundles : Forall2 (renames Ret Default) (OtherBundles Inst) (OtherBundles Copy)
}.

Definition uses_pad (Inst : Instruction) : Prop :=
  InstValue (Number Cleanup) ∈ Operands Inst ++ FuncletBundles Inst ++ OtherBundles Inst.

(** What the reader has made of a finally: it is entered through its pad and by
    leaves at the head of its body, and is left through its switch. *)
Record finally_shape (Ret Head Default : nat) : Prop := {
  fs_closed : forall b c, c ∈ successors F b -> is_Some (Blocks F !! c);
  fs_decides : forall c, is_Some (Blocks F !! c) -> is_Some (exits_funclet Cleanup pads F c);
  fs_ret : cleanup_ret_blocks Cleanup F = [Ret];
  fs_pred : predecessors F Ret = [ExitSwitchBlock];
  fs_head : successors F PadBlock = [Head];
  fs_head_stays : stays Head;
  fs_default : getDefaultDest ExitSwitch = Some Default;
  fs_unreachable : exists U, getFirstNonPHI F Default = Some U /\ InstOf U = UnreachableInst;
  fs_parent : exists P, getParentPad Cleanup = Some P /\
    (P = TokenNone \/ exists n, P = InstValue n /\ n <> Number Cleanup);
  fs_pad_outside : ~ inside PadBlock;
  fs_default_outside : ~ inside Default /\ Default <> Ret;
  fs_exit : inside ExitSwitchBlock;
  fs_switch : exists Is, Blocks F !! ExitSwitchBlock = Some (Is ++ [ExitSwitch]);
  fs_entries : forall b c, c ∈ successors F b -> inside c -> inside b \/ b = PadBlock \/ c = Head;
  fs_uses : forall b Is Inst, Blocks F !! b = Some Is -> Inst ∈ Is -> uses_pad Inst -> inside b \/ b = Ret;
  fs_fresh : forall b c, inside b -> inside c -> clone_block b = clone_block c -> b = c;
  fs_new : forall b, inside b -> Blocks F !! clone_block b = None;
  fs_new_inst : forall n, clone_inst n <> Number Cleanup
}.

Section shape.
Variable Ret Head Default : nat.
Hypothesis HF : finally_shape Ret Head Default.

Lemma successors_in (b c : nat) : c ∈ successors F b -> is_Some (Blocks F !! b).
Proof. unfold successors. destruct (Blocks F !! b); [by eexists|by intros ?%not_elem_of_nil]. Qed.

Lemma predecessor_ret (b : nat) : Ret ∈ successors F b -> b = ExitSwitchBlock.
Proof.
  intros Hb. assert (Hin : b ∈ predecessors F Ret).
  { destruct (successors_in b Ret Hb) as [Is HIs]. unfold predecessors. apply list_elem_of_omap.
    exists (b, Is). split; [by apply elem_of_map_to_list|]. by rewrite bool_decide_eq_true_2. }
  rewrite (fs_pred _ _ _ HF) in Hin. by apply list_elem_of_singleton in Hin.
Qed.

Lemma ret_outside : ~ inside Ret.
Proof.
  inversion 1 as [b Hb _|b c Hb Hne Hc _]; subst.
  - apply predecessor_ret in Hb. apply (fs_pad_outside _ _ _ HF). rewrite Hb. apply (fs_exit _ _ _ HF).
  - by apply Hne, predecessor_ret.
Qed.

Lemma head_inside : inside Head.
Proof. apply inside_head; [|apply (fs_head_stays _ _ _ HF)]. rewrite (fs_head _ _ _ HF). by left. Qed.

Lemma inside_block (b : nat) : inside b -> is_Some (Blocks F !! b).
Proof. inversion 1; by eapply (fs_closed _ _ _ HF). Qed.

(** One block's successors. *)
Lemma visit_spec (Succs : list nat) : forall (W FB : list nat),
  (forall c, c ∈ Succs -> is_Some (Blocks F !! c)) -> NoDup FB ->
  exists W' new, visit_successors Cleanup ExitSwitchBlock pads F Succs W FB = Some (W', FB ++ new) /\
    NoDup (FB ++ new) /\ (forall x, x ∈ new -> x ∈ Succs /\ stays x) /\
    (forall c, c ∈ Succs -> stays c -> c ∈ FB ++ new) /\
    (forall x, x ∈ W' <-> x ∈ W \/ (x ∈ new /\ x <> ExitSwitchBlock)) /\
    (length W' <= length W + length new)%nat.
Proof.
  induction Succs as [|c Succs IH]; intros W FB HD HN.
  { exists W, []. rewrite app_nil_r. split; [done|]. split; [done|]. split; [by intros x ?%not_elem_of_nil|].
    split; [by intros x ?%not_elem_of_nil|]. split; [|cbn; lia]. intros x. rewrite elem_of_nil. tauto. }
  assert (HD' : forall c, c ∈ Succs -> is_Some (Blocks F !! c)) by (intros x Hx; apply HD; by right).
  cbn [visit_successors]. destruct (fs_decides _ _ _ HF c) as [e He]; [apply HD; by left|].
  rewrite He. cbn [mbind option_bind].
  assert (Hskip : (e = true \/ c ∈ FB) -> exists W' new, visit_successors Cleanup ExitSwitchBlock pads F Succs W FB = Some (W', FB ++ new) /\
    NoDup (FB ++ new) /\ (forall x, x ∈ new -> x ∈ c :: Succs /\ stays x) /\
    (forall x, x ∈ c :: Succs -> stays x -> x ∈ FB ++ new) /\
    (forall x, x ∈ W' <-> x ∈ W \/ (x ∈ new /\ x <> ExitSwitchBlock)) /\
    (length W' <= length W + length new)%nat).
  { intros Hc. destruct (IH W FB HD' HN) as (W' & new & HE & H1 & H2 & H3 & H4 & H5). exists W', new.
    split; [done|]. split; [done|]. split; [intros x Hx; destruct (H2 x Hx); split; [by right|done]|].
    split; [|done]. intros x [->|Hx]%elem_of_cons Hs; [|by apply H3]. destruct Hc as [->|Hc].
    - unfold stays in Hs. congruence.
    - apply elem_of_app. by left. }
  destruct e; [by apply Hskip; left|]. case_bool_decide as Hc; [by apply Hskip; right|]. clear Hskip.
  destruct (IH (if bool_decide (c = ExitSwitchBlock) then W else c :: W) (FB ++ [c]) HD')
    as (W' & new & HE & H1 & H2 & H3 & H4 & H5).
  { apply NoDup_app. split; [done|]. split; [|repeat constructor; by intros ?%not_elem_of_nil].
    intros x Hx ->%list_elem_of_singleton. done. }
  exists W', (c :: new). rewrite <- app_assoc in *. cbn [app] in *. split; [done|]. split; [done|].
  split; [|split; [|split]].
  - intros x [->|Hx]%elem_of_cons; [split; [by left|done]|]. destruct (H2 x Hx). split; [by right|done].
  - intros x [->|Hx]%elem_of_cons Hs; [apply elem_of_app; right; by left|by apply H3].
  - intros x. rewrite H4, elem_of_cons. case_bool_decide as Hce; [subst|rewrite elem_of_cons]; naive_solver.
  - cbn [length]. case_bool_decide; cbn [length] in H5; lia.
Qed.

(** The state of the walk. *)
Record walking (W FB : list nat) : Prop := {
  wl_nodup : NoDup FB;
  wl_inside : forall b, b ∈ FB -> inside b;
  wl_work : forall b, b ∈ W -> b = PadBlock \/ (b ∈ FB /\ b <> ExitSwitchBlock);
  wl_done : forall b, b = PadBlock \/ (b ∈ FB /\ b <> ExitSwitchBlock) -> b ∈ W \/
    forall c, c ∈ successors F b -> stays c -> c ∈ FB
}.

Lemma walking_bound (W FB : list nat) : walking W FB -> (length FB <= size (Blocks F))%nat.
Proof.
  intros HW. rewrite <- (size_dom (D := gset nat)). rewrite <- (size_list_to_set (C := gset nat)) by apply HW.
  apply subseteq_size. intros b Hb. apply elem_of_list_to_set in Hb. apply elem_of_dom, inside_block.
  by apply (wl_inside _ _ HW).
Qed.

Lemma find_blocks_walk (fuel : nat) : forall W FB, walking W FB ->
  (length W + (size (Blocks F) - length FB) <= fuel)%nat ->
  exists FB', find_blocks Cleanup ExitSwitchBlock pads fuel F W FB = Some FB' /\ walking [] FB'.
Proof.
  induction fuel as [|fuel IH]; intros [|b W] FB HW Hf; [by exists FB|cbn in Hf; lia|by exists FB|].
  cbn [find_blocks].
  destruct (visit_spec (successors F b) W FB) as (W' & new & HE & H1 & H2 & H3 & H4 & H5);
    [intros c Hc; by eapply (fs_closed _ _ _ HF)|apply HW|].
  rewrite HE. cbn [mbind option_bind].
  assert (HW' : walking W' (FB ++ new)).
  { split; [done| | |].
    - intros x [Hx|Hx]%elem_of_app; [by apply (wl_inside _ _ HW)|]. destruct (H2 x Hx) as [Hs Hst].
      destruct (wl_work _ _ HW b) as [->|[Hb Hbe]]; [by left|by apply inside_head|].
      eapply inside_next; [by apply (wl_inside _ _ HW)|done|done|done].
    - intros x [Hx|[Hx Hxe]]%H4.
      + destruct (wl_work _ _ HW x) as [->|[? ?]]; [by right|by left|]. right. split; [apply elem_of_app; by left|done].
      + right. split; [apply elem_of_app; by right|done].
    - intros x Hx. destruct (decide (x = b)) as [->|Hxb]; [right; intros c Hc Hs; by apply H3|].
      assert (Hcase : (x = PadBlock \/ (x ∈ FB /\ x <> ExitSwitchBlock)) \/ (x ∈ new /\ x <> ExitSwitchBlock)).
      { destruct Hx as [Hx|[[Hx|Hx]%elem_of_app Hxe]]; tauto. }
      destruct Hcase as [Hold|Hnew]; [|left; apply H4; by right].
      destruct (wl_done _ _ HW x Hold) as [[->|Hin]%elem_of_cons|Hd]; [done|left; apply H4; by left|].
      right. intros c Hc Hs. apply elem_of_app. left. by apply Hd. }
  apply IH; [done|]. pose proof (walking_bound _ _ HW') as Hb'. rewrite length_app in *. cbn [length] in Hf. lia.
Qed.

Lemma find_blocks_inside :
  exists FB, find_blocks Cleanup ExitSwitchBlock pads (S (size (Blocks F))) F [PadBlock] [] = Some FB /\
    NoDup FB /\ forall b, b ∈ FB <-> inside b.
Proof.
  destruct (find_blocks_walk (S (size (Blocks F))) [PadBlock] []) as (FB & HE & HW).
  - split; [constructor|by intros b ?%not_elem_of_nil|intros b ->%list_elem_of_singleton; by left|].
    intros b [->|[?%not_elem_of_nil ?]]; [left; by left|done].
  - cbn [length]. lia.
  - exists FB. split; [done|]. split; [apply HW|]. intros b. split; [apply (wl_inside _ _ HW)|].
    induction 1 as [b Hb Hs|b c Hb IHb Hne Hc Hs].
    + destruct (wl_done _ _ HW PadBlock) as [?%not_elem_of_nil|Hd]; [by left|done|by apply Hd].
    + destruct (wl_done _ _ HW b) as [?%not_elem_of_nil|Hd]; [by right|done|by apply Hd].
Qed.

(** ** The function behind the cloning *)

Variable FB : list nat.
Variable ParentPad : Value.
Variable NewBranch : nat.
Hypothesis HFB : forall b, b ∈ FB <-> inside b.
Hypothesis HParent : ParentPad = TokenNone \/ exists n, ParentPad = InstValue n /\ n <> Number Cleanup.

Definition Insts : list nat := FB ≫= fun b => Number <$> default [] (Blocks F !! b).

Definition Map : Value -> Value := ValueMap Cleanup clone_block clone_inst Insts FB Ret Default ParentPad.

Definition cloned : Function :=
  replace_switch ExitSwitch ExitSwitchBlock NewBranch Ret
    (update_entries PadBlock Head (clone_block Head) FB (add_clones clone_block clone_inst Map FB F)).

Lemma clones_new (b c : nat) : b ∈ FB -> is_Some (Blocks F !! c) -> clone_block b <> c.
Proof. intros Hb [Is HIs] <-. rewrite (fs_new _ _ _ HF b) in HIs; [done|by apply HFB]. Qed.

Lemma add_clones_old (l : list nat) (c : nat) :
  l ⊆ FB -> is_Some (Blocks F !! c) -> Blocks (add_clones clone_block clone_inst Map l F) !! c = Blocks F !! c.
Proof.
  intros Hl Hc. induction l as [|b l IH]; [done|]. cbn.
  assert (IH' : Blocks (add_clones clone_block clone_inst Map l F) !! c = Blocks F !! c).
  { apply IH. intros x Hx. apply Hl. by right. }
  destruct (Blocks F !! b) as [Is|]; [|exact IH'].
  rewrite lookup_insert_ne; [exact IH'|]. apply clones_new; [apply Hl; by left|done].
Qed.

Lemma add_clones_new (l : list nat) (b : nat) (Is : list Instruction) :
  l ⊆ FB -> b ∈ l -> Blocks F !! b = Some Is ->
  Blocks (add_clones clone_block clone_inst Map l F) !! clone_block b = Some (clone_code clone_inst Map Is).
Proof.
  intros Hl Hb HIs. induction l as [|a l IH]; [by apply not_elem_of_nil in Hb|]. cbn.
  assert (Hl' : l ⊆ FB) by (intros x Hx; apply Hl; by right).
  destruct (decide (a = b)) as [->|Hab]; [by rewrite HIs, lookup_insert_eq|].
  assert (Hbl : b ∈ l) by (apply elem_of_cons in Hb as [?|?]; [congruence|done]).
  assert (Hne : clone_block a <> clone_block b).
  { intros HE. apply Hab, (fs_fresh _ _ _ HF); [apply HFB, Hl; by left|by apply HFB, Hl'|done]. }
  destruct (Blocks F !! a) as [As|]; [rewrite lookup_insert_ne by done|]; by apply IH.
Qed.

(** Other names are not in the function. *)
Lemma add_clones_none (l : list nat) (x : nat) :
  Blocks F !! x = None -> (forall b, b ∈ l -> clone_block b <> x) ->
  Blocks (add_clones clone_block clone_inst Map l F) !! x = None.
Proof.
  intros Hx Hl. induction l as [|b l IH]; [done|]. cbn.
  assert (IH' : Blocks (add_clones clone_block clone_inst Map l F) !! x = None) by (apply IH; intros y Hy; apply Hl; by right).
  destruct (Blocks F !! b); [|exact IH']. rewrite lookup_insert_ne; [exact IH'|]. apply Hl. by left.
Qed.

(** The blocks of the result. *)
Definition entries_code (x : nat) (Is : list Instruction) : list Instruction :=
  if bool_decide (x = PadBlock) || bool_decide (x ∈ FB) then Is
  else List.map (map_operands (retarget Head (clone_block Head))) Is.

Lemma cloned_lookup (x : nat) : x <> ExitSwitchBlock ->
  Blocks cloned !! x = entries_code x <$> Blocks (add_clones clone_block clone_inst Map FB F) !! x.
Proof.
  intros Hx. unfold cloned, replace_switch, update_entries. cbn [Blocks].
  rewrite lookup_alter_ne by done. rewrite map_lookup_imap. unfold entries_code.
  by destruct (Blocks (add_clones clone_block clone_inst Map FB F) !! x).
Qed.

Lemma retarget_ne (v : Value) : v <> BlockValue Head -> retarget Head (clone_block Head) v = v.
Proof. intros Hv. unfold retarget. by rewrite bool_decide_eq_false_2. Qed.

(** No copy mentions a block of the finally, its pad or the cleanupret. *)
Lemma Map_block (b c : nat) : Map (BlockValue b) = BlockValue c ->
  (b = Ret /\ c = Default) \/ (inside b /\ c = clone_block b) \/ (b <> Ret /\ ~ inside b /\ c = b).
Proof.
  unfold Map, ValueMap. case_bool_decide as H1; [intros [= <-]; by left|].
  case_bool_decide as H2; intros [= <-]; right; [left; by rewrite <- HFB|right]. by rewrite <- HFB.
Qed.

Lemma Map_pad (v : Value) : Map v <> InstValue (Number Cleanup).
Proof.
  unfold Map, ValueMap. destruct v as [b|n| |x]; try done.
  - case_bool_decide; [done|]. by case_bool_decide.
  - case_bool_decide as H1; [destruct HParent as [->|(m & -> & Hm)]; [done|congruence]|]. case_bool_decide; [|by intros [= ->]].
    intros [= HE]. by apply (fs_new_inst _ _ _ HF n).
Qed.

Lemma block_clone_ne (b c : nat) : inside b -> inside c -> clone_block b <> c.
Proof. intros Hb Hc. apply clones_new; [by apply HFB|by apply inside_block]. Qed.

Lemma Map_head (v : Value) : Map v <> BlockValue Head.
Proof.
  destruct v as [b|n| |x]; try done.
  - intros HE. pose proof head_inside as HH. destruct (Map_block b Head HE) as [[_ Hd]|[[Hb Hd]|(_ & Hb & Hd)]].
    + destruct (fs_default_outside _ _ _ HF) as [Hn _]. apply Hn. by rewrite <- Hd.
    + by apply (block_clone_ne b Head Hb HH).
    + apply Hb. by rewrite <- Hd.
  - unfold Map, ValueMap. case_bool_decide; [|by case_bool_decide].
    by destruct HParent as [->|(m & -> & _)].
Qed.

(** *** Successors *)

Lemma successors_of (G : Function) (x : nat) (Is : list Instruction) (T : Instruction) :
  Blocks G !! x = Some Is -> last Is = Some T -> successors G x = omap block_of (Operands T).
Proof. intros HIs HT. unfold successors. by rewrite HIs, HT. Qed.

Lemma last_map {A B} (f : A -> B) (l : list A) : last (List.map f l) = f <$> last l.
Proof. induction l as [|a [|b l] IH]; [done|done|exact IH]. Qed.

(** Block operands behind a change of values that maps blocks to blocks. *)
Lemma omap_blocks (f : Value -> Value) (P : nat -> nat -> Prop) (vs : list Value) :
  (forall b, exists c, f (BlockValue b) = BlockValue c /\ P b c) ->
  (forall v, block_of v = None -> block_of (f v) = None) ->
  Forall2 P (omap block_of vs) (omap block_of (f <$> vs)).
Proof.
  intros H1 H2. induction vs as [|v vs IH]; [constructor|]. cbn. destruct (block_of v) as [b|] eqn:Hv.
  - destruct v as [b'|n| |x]; cbn in Hv; try done. injection Hv as ->.
    destruct (H1 b) as (c & Hc & HP). rewrite Hc. cbn. by constructor.
  - by rewrite H2.
Qed.

(** The successor of a copy for that of an original. *)
Definition copied (c c' : nat) : Prop :=
  (c = Ret /\ c' = Default) \/ (inside c /\ c' = clone_block c) \/ (c <> Ret /\ ~ inside c /\ c' = c).

(** The successor of a block around for what it was. *)
Definition entered_copy (c c' : nat) : Prop :=
  (c = Head /\ c' = clone_block Head) \/ (c <> Head /\ c' = c).

Lemma Map_blocks (vs : list Value) : Forall2 copied (omap block_of vs) (omap block_of (Map <$> vs)).
Proof.
  apply omap_blocks.
  - intros b. unfold Map, ValueMap. case_bool_decide as H1; [exists Default; split; [done|by left]|].
    case_bool_decide as H2; eexists; (split; [reflexivity|]); right; [left; by rewrite <- HFB|right].
    by rewrite <- HFB.
  - intros [b|n| |x]; try done. intros _. unfold Map, ValueMap. case_bool_decide; [|by case_bool_decide].
    by destruct HParent as [->|(m & -> & _)].
Qed.

Lemma retarget_blocks (vs : list Value) :
  Forall2 entered_copy (omap block_of vs) (omap block_of (retarget Head (clone_block Head) <$> vs)).
Proof.
  apply omap_blocks.
  - intros b. unfold retarget. case_bool_decide as H1; eexists; (split; [reflexivity|]).
    + injection H1 as ->. by left.
    + right. split; [congruence|done].
  - by intros [b|n| |x].
Qed.

Lemma FB_old (b : nat) : b ∈ FB -> is_Some (Blocks F !! b).
Proof. intros Hb. by apply inside_block, HFB. Qed.

Lemma pad_block_old : is_Some (Blocks F !! PadBlock).
Proof. apply (successors_in PadBlock Head). rewrite (fs_head _ _ _ HF). by left. Qed.

(** Retargeting does not touch copies. *)
Lemma retarget_copies (Is : list Instruction) :
  List.map (map_operands (retarget Head (clone_block Head))) (clone_code clone_inst Map Is) = clone_code clone_inst Map Is.
Proof.
  unfold clone_code. rewrite List.map_map. apply List.map_ext. intros Inst. unfold map_operands, clone_instruction. cbn.
  f_equal. rewrite <- list_fmap_compose. apply list_fmap_ext. intros _ v _. apply retarget_ne, Map_head.
Qed.

(** A copy. *)
Lemma elem_of_Insts (n : nat) : n ∈ Insts <-> defined_inside n.
Proof.
  unfold Insts, defined_inside. rewrite list_elem_of_bind. split.
  - intros (b & Hn & Hb). destruct (Blocks F !! b) as [Is|] eqn:HIs; [|by apply not_elem_of_nil in Hn].
    apply list_elem_of_fmap in Hn as (Inst & -> & HI). exists b, Is, Inst. split; [by apply HFB|done].
  - intros (b & Is & Inst & Hb & HIs & HI & <-). exists b. rewrite HIs. split; [|by apply HFB].
    apply list_elem_of_fmap. by exists Inst.
Qed.

Lemma Map_renames (v : Value) : getParentPad Cleanup = Some ParentPad -> renames Ret Default v (Map v).
Proof.
  intros HP. unfold Map, ValueMap. destruct v as [b|n| |v]; [| |by constructor..].
  - case_bool_decide as Hb; [subst; constructor|]. case_bool_decide as Hi.
    + apply renames_block; [done|by apply HFB].
    + apply renames_around; [done|by rewrite <- HFB].
  - case_bool_decide as Hn; [subst; by constructor|]. case_bool_decide as Hi.
    + apply renames_result; [done|by apply elem_of_Insts].
    + apply renames_outer; [done|by rewrite <- elem_of_Insts].
Qed.

Lemma Map_renames_all (vs : list Value) : getParentPad Cleanup = Some ParentPad ->
  Forall2 (renames Ret Default) vs (Map <$> vs).
Proof. intros HP. apply Forall2_fmap_r, Forall_Forall2_diag, Forall_forall. intros v _. by apply Map_renames. Qed.

Lemma clone_code_copies (Is : list Instruction) : getParentPad Cleanup = Some ParentPad ->
  Forall2 (copy_of Ret Default) Is (clone_code clone_inst Map Is).
Proof.
  intros HP. induction Is as [|Inst Is IH]; constructor; [|exact IH].
  split; [done|done|by apply Map_renames_all| |by apply Map_renames_all].
  exists (Map <$> FuncletBundles Inst). split; [by apply Map_renames_all|]. simpl.
  induction (Map <$> FuncletBundles Inst) as [|v vs IHv]; [done|]. rewrite filter_cons. simpl.
  case_bool_decide; destruct (decide (v <> TokenNone)); simpl; try done. by rewrite IHv.
Qed.

Lemma cloned_copy (b : nat) (Is : list Instruction) : inside b -> Blocks F !! b = Some Is ->
  Blocks cloned !! clone_block b = Some (clone_code clone_inst Map Is).
Proof.
  intros Hb HIs. assert (Hin : b ∈ FB) by by apply HFB.
  rewrite cloned_lookup by (apply clones_new; [done|apply inside_block, (fs_exit _ _ _ HF)]).
  rewrite (add_clones_new FB b Is) by done. cbn. unfold entries_code.
  rewrite bool_decide_eq_false_2 by (apply clones_new; [done|apply pad_block_old]).
  rewrite bool_decide_eq_false_2; [cbn [orb]; by rewrite retarget_copies|].
  intros Hc. by apply (clones_new b (clone_block b) Hin); [apply FB_old|].
Qed.

(** A block that was there. *)
Lemma cloned_old (x : nat) : x <> ExitSwitchBlock -> is_Some (Blocks F !! x) ->
  Blocks cloned !! x = entries_code x <$> Blocks F !! x.
Proof. intros Hx HS. rewrite cloned_lookup by done. by rewrite add_clones_old. Qed.

Lemma cloned_successors_copy (b : nat) : inside b ->
  Forall2 copied (successors F b) (successors cloned (clone_block b)).
Proof.
  intros Hb. destruct (inside_block b Hb) as [Is HIs]. unfold successors. rewrite HIs, (cloned_copy b Is Hb HIs).
  unfold clone_code. rewrite last_map. destruct (last Is) as [T|]; [|constructor]. cbn. apply Map_blocks.
Qed.

Lemma cloned_successors_around (x : nat) : ~ inside x -> x <> PadBlock ->
  Forall2 entered_copy (successors F x) (successors cloned x) \/ Blocks F !! x = None.
Proof.
  intros Hx HP. destruct (Blocks F !! x) as [Is|] eqn:HIs; [left|by right].
  assert (Hne : x <> ExitSwitchBlock) by (intros ->; apply Hx, (fs_exit _ _ _ HF)).
  unfold successors. rewrite cloned_old by (done || by exists Is). rewrite HIs. cbn. unfold entries_code.
  rewrite !bool_decide_eq_false_2 by (done || by rewrite HFB). cbn [orb]. rewrite last_map.
  destruct (last Is) as [T|]; [|constructor]. cbn. apply retarget_blocks.
Qed.

Lemma cloned_inside (b : nat) : inside b \/ b = PadBlock -> b <> ExitSwitchBlock -> Blocks cloned !! b = Blocks F !! b.
Proof.
  intros Hb Hne. rewrite cloned_old; [|done|].
  - unfold entries_code. destruct Hb as [Hb| ->].
    + rewrite (bool_decide_eq_true_2 (b ∈ FB)) by by apply HFB. rewrite orb_true_r. by destruct (Blocks F !! b).
    + rewrite bool_decide_eq_true_2 by done. cbn. by destruct (Blocks F !! PadBlock).
  - destruct Hb as [Hb| ->]; [by apply inside_block|apply pad_block_old].
Qed.

Lemma cloned_exit : successors cloned ExitSwitchBlock = [Ret].
Proof.
  destruct (fs_switch _ _ _ HF) as [Is HIs]. unfold successors, cloned, replace_switch, update_entries. cbn [Blocks].
  rewrite lookup_alter_eq, map_lookup_imap, add_clones_old; [|done|by eexists]. rewrite HIs. cbn.
  rewrite (bool_decide_eq_true_2 (ExitSwitchBlock ∈ FB)) by (apply HFB, (fs_exit _ _ _ HF)). rewrite orb_true_r.
  rewrite last_map, last_snoc. cbn. by rewrite bool_decide_eq_true_2.
Qed.

(** *** Dominance *)

Lemma add_clones_cases (l : list nat) (x : nat) (Is : list Instruction) :
  Blocks (add_clones clone_block clone_inst Map l F) !! x = Some Is ->
  Blocks F !! x = Some Is \/ exists b Is0, b ∈ l /\ x = clone_block b /\ Is = clone_code clone_inst Map Is0.
Proof.
  induction l as [|b l IH]; [by left|]. cbn.
  assert (IH' : Blocks (add_clones clone_block clone_inst Map l F) !! x = Some Is -> Blocks F !! x = Some Is \/
    exists b0 Is0, b0 ∈ b :: l /\ x = clone_block b0 /\ Is = clone_code clone_inst Map Is0).
  { intros H. destruct (IH H) as [?|(b0 & Is0 & Hb & Hx & HI)]; [by left|]. right. exists b0, Is0.
    split; [by right|done]. }
  destruct (Blocks F !! b) as [Is0|]; [|exact IH']. destruct (decide (clone_block b = x)) as [<-|Hne].
  - rewrite lookup_insert_eq. intros [= <-]. right. exists b, Is0. split; [by left|done].
  - rewrite lookup_insert_ne by done. exact IH'.
Qed.

(** Blocks around the finally and copies do not use its pad. *)
Definition around (x : nat) : Prop := ~ inside x /\ x <> PadBlock /\ x <> Ret.

Lemma copies_use_no_pad (Is : list Instruction) (Inst : Instruction) :
  Inst ∈ clone_code clone_inst Map Is -> ~ uses_pad Inst.
Proof.
  unfold clone_code. rewrite list_elem_of_In, in_map_iff. intros (I0 & <- & _). unfold uses_pad. cbn.
  rewrite !elem_of_app. intros [H|[H|H]].
  - apply list_elem_of_fmap in H as (v & HE & _). by apply (Map_pad v).
  - rewrite list_elem_of_In, filter_In in H. destruct H as [H _]. apply list_elem_of_In, list_elem_of_fmap in H as (v & HE & _).
    by apply (Map_pad v).
  - apply list_elem_of_fmap in H as (v & HE & _). by apply (Map_pad v).
Qed.

Lemma retarget_pad (v : Value) : retarget Head (clone_block Head) v = InstValue (Number Cleanup) -> v = InstValue (Number Cleanup).
Proof. unfold retarget. case_bool_decide; [done|]. done. Qed.

Lemma around_uses_no_pad (x : nat) (Is : list Instruction) (Inst : Instruction) :
  around x -> Blocks cloned !! x = Some Is -> Inst ∈ Is -> ~ uses_pad Inst.
Proof.
  intros (Hx & HP & HR) HIs HI HU.
  assert (Hne : x <> ExitSwitchBlock) by (intros ->; apply Hx, (fs_exit _ _ _ HF)).
  rewrite cloned_lookup in HIs by done.
  destruct (Blocks (add_clones clone_block clone_inst Map FB F) !! x) as [Is1|] eqn:H1; [|done].
  cbn in HIs. injection HIs as <-. unfold entries_code in HI.
  rewrite !bool_decide_eq_false_2 in HI by (done || by rewrite HFB). cbn [orb] in HI.
  apply list_elem_of_In, in_map_iff in HI as (I1 & <- & HI1). apply list_elem_of_In in HI1.
  assert (HU1 : uses_pad I1).
  { unfold uses_pad, map_operands in *. cbn in HU. rewrite !elem_of_app in *. destruct HU as [HU|HU]; [left|by right].
    apply list_elem_of_fmap in HU as (v & HE & Hv). symmetry in HE. apply retarget_pad in HE. by subst. }
  destruct (add_clones_cases FB x Is1 H1) as [Hold|(b & Is0 & _ & _ & ->)].
  - by destruct (fs_uses _ _ _ HF x Is1 I1 Hold HI1 HU1).
  - by apply (copies_use_no_pad Is0 I1).
Qed.

Lemma ret_old : is_Some (Blocks F !! Ret).
Proof.
  assert (HP : ExitSwitchBlock ∈ predecessors F Ret) by (rewrite (fs_pred _ _ _ HF); by left).
  unfold predecessors in HP. apply list_elem_of_omap in HP as ((b & Is) & _ & HP).
  case_bool_decide as Hin; [|done]. by eapply (fs_closed _ _ _ HF).
Qed.

Lemma clone_around (b : nat) : inside b -> around (clone_block b).
Proof.
  intros Hb. assert (Hn : forall c, is_Some (Blocks F !! c) -> clone_block b <> c) by (intros c; apply clones_new; by apply HFB).
  split; [|split; apply Hn; [apply pad_block_old|apply ret_old]]. intros Hc. by apply (Hn _ (inside_block _ Hc)).
Qed.

Lemma edge_around (x y : nat) : around x -> y ∈ successors cloned x -> y <> PadBlock -> around y.
Proof.
  intros (Hx & HP & HR) Hy HyP.
  assert (Hne : x <> ExitSwitchBlock) by (intros ->; apply Hx, (fs_exit _ _ _ HF)).
  destruct (cloned_successors_around x Hx HP) as [HE|HN].
  - apply list_elem_of_lookup in Hy as [i Hi]. destruct (Forall2_lookup_r _ _ _ _ _ HE Hi) as (c & Hc & HEc).
    apply list_elem_of_lookup_2 in Hc. destruct HEc as [[-> ->]|[HcH ->]]; [apply clone_around, head_inside|].
    split; [|split; [done|]].
    + intros Hin. by destruct (fs_entries _ _ _ HF x c Hc Hin) as [?|[?|?]].
    + intros ->. by apply Hne, predecessor_ret.
  - destruct (decide (x ∈ clone_block <$> FB)) as [(b & -> & Hb)%list_elem_of_fmap|Hno].
    + apply HFB in Hb. pose proof (cloned_successors_copy b Hb) as HE.
      apply list_elem_of_lookup in Hy as [i Hi]. destruct (Forall2_lookup_r _ _ _ _ _ HE Hi) as (c & Hc & HEc).
      destruct HEc as [[_ ->]|[[Hci ->]|(HcR & Hci & ->)]].
      * destruct (fs_default_outside _ _ _ HF). by split.
      * by apply clone_around.
      * by split.
    + exfalso. unfold successors in Hy. rewrite cloned_lookup in Hy by done.
      rewrite add_clones_none in Hy; [by apply not_elem_of_nil in Hy|done|]. intros b Hb HE. apply Hno. apply list_elem_of_fmap. by exists b.
Qed.
End shape.

(** Blocks that are reached around the pad of the finally. *)
Inductive reached_around (G : Function) (b0 : nat) : nat -> Prop :=
  | reached_here : reached_around G b0 b0
  | reached_next x y : reached_around G b0 x -> y ∈ successors G x -> y <> PadBlock -> reached_around G b0 y.
End body.


(** A method whose first block leaves into a finally or unwinds to its pad. *)
Definition demo_pad : Instruction := MkInst 10 CleanupPadInst [TokenNone] [] [].
Definition demo_switch : Instruction :=
  MkInst 14 SwitchInst [OtherValue 0; BlockValue 6; BlockValue 4; BlockValue 5] [] [].

Definition demo_blocks : list (nat * list Instruction) :=
  [(0%nat, [MkInst 9 InvokeInst [BlockValue 2; BlockValue 1] [] []]);
   (1%nat, [demo_pad; MkInst 11 BranchInst [BlockValue 2] [] []]);
   (2%nat, [MkInst 12 CallInst [] [InstValue 10] []; MkInst 13 BranchInst [BlockValue 3] [] []]);
   (3%nat, [demo_switch]);
   (4%nat, [MkInst 15 CleanupReturnInst [InstValue 10] [] []]);
   (5%nat, [MkInst 16 (OtherInst 0) [] [] []]);
   (6%nat, [MkInst 17 UnreachableInst [] [] []])].

Definition demo_function : Function := MkFunction (list_to_map demo_blocks) ∅.

Lemma demo_block (b : nat) (Is : list Instruction) :
  Blocks demo_function !! b = Some Is -> (b, Is) ∈ demo_blocks.
Proof. apply elem_of_list_to_map_2. Qed.

Lemma demo_successors (b c : nat) : c ∈ successors demo_function b ->
  (b = 0%nat /\ (c = 2%nat \/ c = 1%nat)) \/ (b = 1%nat /\ c = 2%nat) \/ (b = 2%nat /\ c = 3%nat) \/
  (b = 3%nat /\ (c = 6%nat \/ c = 4%nat \/ c = 5%nat)).
Proof.
  unfold successors. destruct (Blocks demo_function !! b) as [Is|] eqn:HIs; [|by intros ?%not_elem_of_nil].
  apply demo_block in HIs. unfold demo_blocks in HIs. rewrite !elem_of_cons, elem_of_nil in HIs.
  repeat destruct HIs as [[= -> ->]|HIs]; try done; cbn; rewrite ?elem_of_cons, ?elem_of_nil; tauto.
Qed.

Lemma demo_inside (b : nat) : inside demo_pad 1 3 9 demo_function b <-> b = 2%nat \/ b = 3%nat.
Proof.
  split.
  - induction 1 as [b Hb _|b c _ IH Hne Hc _].
    + apply demo_successors in Hb. lia.
    + apply demo_successors in Hc. lia.
  - assert (H2 : inside demo_pad 1 3 9 demo_function 2) by (apply inside_head; [by left|reflexivity]).
    intros [-> | ->]; [done|]. by apply (inside_next _ _ _ _ _ 2); [|lia|left|reflexivity].
Qed.

Lemma demo_shape : finally_shape demo_pad demo_switch 1 3 (fun b => 100 + b)%nat (fun n => 1000 + n)%nat 9 demo_function 4 2 6.
Proof.
  split.
  - intros b c Hc%demo_successors. naive_solver.
  - intros c [Is HIs]. apply demo_block in HIs. unfold demo_blocks in HIs. rewrite !elem_of_cons, elem_of_nil in HIs.
    repeat destruct HIs as [[= -> ->]|HIs]; try done; by eexists.
  - reflexivity.
  - reflexivity.
  - reflexivity.
  - reflexivity.
  - reflexivity.
  - by eexists.
  - exists TokenNone. split; [done|by left].
  - rewrite demo_inside. lia.
  - rewrite demo_inside. lia.
  - apply demo_inside. lia.
  - by exists [].
  - intros b c Hc%demo_successors. rewrite !demo_inside. lia.
  - intros b Is Inst HIs HI HU. rewrite demo_inside. apply demo_block in HIs. unfold demo_blocks in HIs.
    rewrite !elem_of_cons, elem_of_nil in HIs.
    repeat destruct HIs as [[= -> ->]|HIs]; try done; try lia; exfalso; unfold uses_pad in HU;
      rewrite !elem_of_cons, elem_of_nil in HI; repeat destruct HI as [->|HI]; try done; cbn in HU;
      rewrite ?elem_of_cons, ?elem_of_nil in HU; naive_solver.
  - intros b c _ _. lia.
  - intros b [-> | ->]%demo_inside; reflexivity.
  - intros n HE. cbn in HE. lia.
Qed.

